(* ===== verification/_CoqProject ===== *)
-Q . S2P
Prelude.v
Json.v
GraphTypes.v
Checkpoint.v
Builder.v
Channel.v
Search.v
Routing.v
Lineage.v
BarrierFacts.v
StepExec.v
StepFacts.v
Executor.v
RunLoop.v
ExecFacts.v
ResumeFacts.v
StateApi.v
Samples.v
RuntimeTheorems.v
StoreTheorems.v
Workflow.v
WfState.v
WfAnalysis.v
WfValidate.v
WfBuild.v
WfBuildFacts.v
WfActivation.v
WfPortFacts.v
WfSamples.v
WfTheorems.v
StorageKey.v
Repo.v
Leases.v
StoragePrimitives.v
StorageTheorems.v
DriverCheckpoint.v
DriverTheorems.v
Text.v
Weekday.v
Schedule.v
CronPort.v
ScheduleFacts.v
ScheduleRuntime.v
ScheduleTheorems.v
Expr.v
Postcondition.v
WfConfig.v
ControlNodes.v
Dedup.v
EngineRun.v
NodeFacts.v
AgentRequest.v
ConfigTheorems.v
MapItems.v
NodeTheorems.v
GraphOps.v
AgentPrompt.v
Capability.v
CapabilityTheorems.v
Diagnosis.v
HostGuards.v
Ledger.v
LedgerTheorems.v
Recipe.v
Episode.v
EpisodeTheorems.v
ReviewNodes.v
SubWorkflow.v
Compat.v
EngineTheorems.v
ReviewTheorems.v
CronAdmission.v
CronJobs.v
CronClaims.v
CronFacts.v
CronCommit.v
CronSamples.v
ClaimFacts.v
CronTheorems.v
Migrations.v
