(* ===== verification/Prelude.v ===== *)
(** * tinyflows: a verification library

    tinyflows runs workflows as directed graphs of asynchronous node handlers
    over a shared state.  This library models its durable graph runtime
    ([crates/tinyflows/src/graph/]), the workflow layer that lowers documents
    onto it ([crates/tinyflows/src/{model,validate,engine}]), the expressions,
    configuration checks and native nodes of workflows
    ([crates/tinyflows/src/{expr.rs,postcondition.rs,nodes}]), the storage
    primitives ([crates/tinyflows-storage]), the scheduler
    ([crates/tinyflows-schedule] over the records of [crates/tinyflows-bus]) and
    the adaptive loop that chooses, writes, judges and repairs workflows
    ([crates/tinyflows-adaptive]), and proves what a user of them relies on: runs end within their caps,
    barriers fire exactly when they should, no branch is lost or run twice at a
    boundary, a resume continues the run it was saved from, a valid workflow
    builds and routes along its ports, a validated workflow cannot widen what
    its agents may do, loops and fan-outs end and keep their items in order,
    leases fence stale holders, a scheduled occurrence acts only under a
    checked claim, an agent turn stays within its configuration whatever the
    model answers, and an episode of the adaptive loop ends within its budget
    without repeating itself.

    ** The program

    A [GraphBuilder] collects nodes, static edges, conditional branches,
    command nodes, waiting (barrier) edges and barrier reliefs, and [compile]s
    them into a [CompiledGraph].  A run executes supersteps: the active set's
    handlers run (one after the other, or concurrently through a bounded
    admission window), their updates are folded through the reducer, the
    completed branches are routed, and the boundary is persisted through a
    [Checkpointer].  A step that fails or interrupts persists the branches that
    did not complete, and [resume]/[retry] continue from the latest checkpoint.
    [update_state] and [fork_state] edit a paused thread.

    A workflow document is validated, lowered by [build_graph] to such a graph
    (one node per workflow node, wired by the routing shape of its outgoing
    edges) and run; an activation of a node passes its gates, derives its input
    from the state, attempts its executor and turns the result into a state
    update and routing.

    The storage primitives put typed records, leases, counters and key-value
    entries on a document store through one compare-and-swap loop.  The
    scheduler polls for due jobs, claims occurrences, executes them with
    retries under a renewed claim and commits their completion.

    The adaptive loop attempts a goal: it selects a stored workflow, writes a
    new one from a plan or runs a single errand, executes it, has the outcome
    judged against the evidence of the run, records it in a ledger, and retries,
    repairs, keeps what worked and consolidates lessons until the verdict or the
    budget ends the episode.

    ** The files

    - [Prelude]: results and their notation, list, option and search helpers,
      the [tf] hint database and tactics.
    - [Json]: [serde_json::Value] (without [preserve_order]) and its accessors.
    - [GraphTypes]: identifiers, errors ([graph/error.rs]), commands
      ([graph/command/]), activations, the frame stack and the visit counters
      of [graph/recursion/types.rs], events and statuses
      ([graph/stream/types.rs], [graph/status/]).
    - [Search]: the work-list search shared by the reachability routines.
    - [Channel]: [graph/channel/] and the built-in reducers of
      [graph/reducer/].
    - [Checkpoint]: [graph/checkpoint/]: records, write ledger, the
      [Checkpointer] trait as the record [CheckpointerOps] with its provided
      methods, the in-memory backend [mem_ops], the contract of a backend (the
      class [LawfulCheckpointer]) and the proof that the in-memory one is
      lawful; [Lineage] treats history, pruning and copying; [StoreTheorems]
      states the guarantees of the store and of the channels.
    - [Builder]: [graph/builder/] and the data of
      [graph/compiled/{types,mod}.rs]; [graph_wf] is the topology invariant.
    - [Routing], [BarrierFacts]: [graph/compiled/routing.rs].
    - [StepExec], [StepFacts]: [graph/compiled/executor/node_execution.rs];
      [outcomes_run] is the reference step record both runners are proved to
      compute.
    - [Executor]: [persistence.rs] and [outcomes.rs], in a state monad over
      [World]; [RunLoop]: [run_loop.rs] and [api.rs]; [ExecFacts],
      [ResumeFacts]: their lemmas and the invariants of the state along a run;
      [StateApi]: [graph/compiled/state_api.rs].
    - [Samples]: the concrete graphs the witnesses run.
    - [RuntimeTheorems]: the runtime's guarantees, durability included.
    - [Workflow]: [model/], [data.rs], [error.rs]; [WfAnalysis]:
      [engine/routing.rs]; [WfValidate]: [validate.rs] and
      [validate/{loops,scatter,workdir}.rs]; [WfState]: [engine/state.rs];
      [WfBuild], [WfBuildFacts]: [engine/build.rs],
      [engine/build/{handlers,wiring,backoff}.rs]; [WfActivation],
      [WfPortFacts]: [engine/build/activation.rs] with its includes,
      [engine/build/outcome.rs], [interception.rs]; [WfSamples], [WfTheorems]:
      concrete workflows and the layer's guarantees.
    - [AgentPrompt]: [nodes/integration/agent_prompt.rs] and [json_extract.rs];
      [Capability], [CapabilityTheorems]: [nodes/integration/{agent,memory,
      tool_call,http_request,code,shell,output_parser,schema}.rs],
      [caps/{shell,agent/outcome}.rs]; [HostGuards]: [caps/http_credential.rs]
      and [caps/host/], the http client and the script runners behind them.
    - [Compat]: [compat.rs], [compat/referenced.rs] and [migrate.rs].
    - [GraphOps]: [graph_ops.rs] and [tinyflows-adaptive/src/closing/resume.rs];
      [Diagnosis]: [bindings.rs], [diagnostics.rs], [evidence.rs],
      [transcript.rs] and [tinyflows-adaptive/src/execute].
    - The adaptive loop, [tinyflows-adaptive/src/]: [Ledger]
      ([contracts.rs], [ledger/], [promotion.rs], [recall.rs], [reuse.rs]; the
      trait is the class [Ledger]) and [LedgerTheorems]; [Recipe]
      ([intake/recipe.rs], [recipe/lowering.rs], [host.rs]); [Episode]
      ([intake/{mod,select,author}.rs], [closing/], [driver.rs]);
      [EpisodeTheorems], proved against the class [LawfulLedger], which the
      in-memory ledger is shown to satisfy.
    - [EngineRun]: the run entry points, [engine.rs],
      [engine/{run_config,run_state,api,resumable}.rs],
      [engine/resumable/continuation.rs], and the run records of
      [observability.rs]; [SubWorkflow]:
      [nodes/integration/sub_workflow.rs] and its [execution.rs], [compiler.rs];
      [EngineTheorems].
    - [ReviewNodes]: [nodes/integration/{approval,approval_request,spawn,gate}.rs]
      and [caps/{approval,tasks}.rs]; [ReviewTheorems].
    - [StorageKey]: [tinyflows-storage/src/key.rs]; [Repo]: the document store
      port and [primitives/repo.rs]; [Leases]:
      [primitives/leases.rs] and [leases/acquire_with.rs];
      [StoragePrimitives]: [counters.rs] and [kv.rs]; [StorageTheorems].
    - [DriverCheckpoint]: [tinyflows-drivers/src/{checkpoint,checkpoint_layout,
      checkpoint_import}.rs], the checkpointer over a document store, as the
      instance [driver_ops] of [CheckpointerOps] with the proof that it is
      lawful; its state is a store whose documents have the layout this code
      writes ([layout_ok]); [DriverTheorems].
    - [Migrations]: [tinyflows-storage/src/schema.rs], [schema/migrations.rs] and
      [tinyflows-drivers/src/schedule/migrate.rs].
    - [Text]: the [str] operations the code uses; [Weekday]:
      [tinyflows-schedule/src/posix_weekday.rs]; [Schedule], [ScheduleFacts]:
      [schedule.rs], [validation.rs], [store.rs] and the records of
      [tinyflows-bus/src/schedule]; [ScheduleRuntime]:
      [runtime/execution.rs], the renewal loop, and the polling and dispatch of
      [runtime/mod.rs]; [ScheduleTheorems].
    - [Expr]: [expr.rs] and the expression walk of [bindings.rs];
      [Postcondition]: [postcondition.rs] and the outcome of an attempt;
      [WfConfig]: [validate/node_config.rs], [validate/agents.rs] and the whole
      validation [validate_graph]; [AgentRequest]: [workdir.rs] and
      [nodes/integration/agent_request.rs]; [ConfigTheorems].
    - [ControlNodes], [NodeFacts]: [nodes/mod.rs], [nodes/execution.rs],
      [nodes/release.rs] and the executors of [nodes/control_flow/];
      [MapItems]: [nodes/map.rs] and [nodes/integration/envelope.rs];
      [Dedup]: [nodes/control_flow/{dedup,dedup_settle}.rs]; [NodeTheorems].
    - The cron job store, [tinyflows-drivers/src/schedule/]: [CronPort]:
      the documents ([codec.rs]) and the document store it runs on, the class
      [CronPort] with the laws [LawfulPort], the state monad [Cron] in which
      other writers act before each call, and the logic [triple]/[keeps] for
      it; [CronAdmission] ([admission.rs], [policy.rs]); [CronJobs] ([jobs.rs],
      [patch.rs], [removal.rs], [runs.rs], [import.rs]); [CronClaims]
      ([claims.rs], [claims/], [runtime.rs]); [CronFacts]: the guarantee
      [participates] every handle gives the others, the invariant [Accounts]
      and the abstract write [committed]; [CronCommit],
      [ClaimFacts]: the specification of a job write, the guarantee of each
      operation, the claim operations; [CronSamples]: a lawful store in memory;
      [CronTheorems].

    ** How state and effects are modelled

    [World C] is what a run can change outside its own variables: the
    checkpoint store (of the backend's type [C]), the emitted events, the
    recorded statuses and the id counter.  The loop's variables are the record
    [LoopState]; [superstep] is one iteration of the [while] loop of
    [execute_run], cut into its guards ([check_caps]), the runner
    ([run_active]), and the failure, interrupt and commit boundaries.  Errors
    are values of [GraphError]; [Outcome] also distinguishes a panic.  A
    handler is an arbitrary function from state and context to its outcome,
    its duration and the child runs it reports.

    What the program does not determine is an argument: [Env] gives the
    elapsed time at each boundary, how far the background checkpoint writes of
    [DurabilityMode::Async] have progressed at each step, whether a tokio
    runtime is present, and the text of a [Duration].  [futures_util]'s
    [select_all] is the field [rt_select_all] of [Runtime]; [select_lawful] is
    its documented behaviour (it hands back the remaining futures in some
    order); [select_first] and [select_swap] (which fills the free place with
    the last future) are two functions that behave so.

    In the workflow layer what a node's attempt comes to is the argument
    [attempt] of [execute], which [attempt_outcome] computes from the executor's
    result, the timer and the postcondition; cancellation is the [Token], the
    host's hook the [Interceptor], Debug formatting the record [Fmt].  The
    configuration and agent checks are arguments of [validate_all], so that its
    theorems hold whatever they report, and [validate_graph] puts them in.  The
    jq interpreter is the argument [jq], the decoders serde derives the record
    [Serde], the agent harness [AgentRunner] and [MemoryProvider], the file
    system [Fs], the store of the dedup node [KeyValue] with its laws
    [LawfulKv] (calls may fail), and the order in which items of a fan-out
    complete an argument of [map_items].  In storage
    the document store is the class [DocumentStore] with its laws, what other
    writers do before each call is [Interference], and the clock, the id rules
    and the digest are arguments.  In the scheduler the cron crate and the time
    zone database are the class [Calendar], and a host answers each call from
    the list of calls made so far, so its answers may depend on the whole
    history.  In the cron job store serde and the range of instants are the
    class [CronWire]; in the capability nodes a host answers calls ([CapHost]) and
    the calls a request is assembled from are recorded ([ContextCall]); behind the
    http node [HttpEnv] holds the URL parser, the resolver and the transport,
    which is handed the client it is to use (redirect policy, pinned addresses)
    and says what left; [LawfulTransport] is reqwest's documented behaviour, and a
    proxy of the environment is [he_proxied];
    in the adaptive loop the model, the workflow store, the runner and the clock
    are the class [EpisodeHost] over their common state, steps are functions of
    the ledger and that state ([Ep]), and [yields] states what a step returns
    whatever they answer; a host that records the calls it gets ([recorded]) lets
    the theorems speak of what was run, read and saved.  In the cron job store the theorems are in rely/guarantee style: any state change
    of other handles that [participates] may come before each call of the
    store, and every operation but the import of a job is proved to participate.
    What an operation itself may have written is said apart from what the others
    did: [around] a job write, [beside] and [settling] before and after a commit.
    The laws of the stores ([LawfulDocs], [LawfulPort]) say that a call which
    answers an error changed nothing; errors after which a write may have taken
    effect all the same are outside them.

    Maps are stdpp's [gmap] and [gset]; where the code iterates over a
    [HashMap] only facts independent of the order are stated.  Counters such as
    [steps], and the [u64] and [u32] numbers of checkpoints and attempts, are
    unbounded; the [Delta] channel's [i64] addition wraps.

    ** Fuel

    [run_loop] takes fuel for the [while] loop; [run_terminates] proves that one
    more than the step cap is enough on every input.  The lineage walk of
    [state_history] takes fuel; [history_terminates] proves that one more than
    the thread's record count is enough; the driver's walk removes a record at
    each step and takes one more than there are.  A storage migration takes fuel for
    its pages; [migration_ends] proves that more than any source has rows is
    enough.  The work-list search computes its own
    fuel from the graph's size and its correctness theorem covers every graph.
    The window loop is total: it recurses on the number of branches.  The
    depth-first search of [back_edges] takes [visit_fuel], proved enough.  The
    compare-and-swap loops take the retry policy's attempts, at least one, as
    the code does; [kv_list] takes the number of pages; the candidate search and
    the attempts of an occurrence recurse on the budgets the code counts down;
    [tick_settles] proves that one unit more than the number of job ids is
    enough for a poll pass.  The retry loops of the cron job store take the
    code's [CAS_ATTEMPTS]; the search for a free import slot takes fuel and
    reports when it runs out.  The driver's loop takes fuel for its attempts;
    [episode_ends] proves that one more than the budget has left is enough; the
    walk over saved children takes fuel and [referenced_workflows_exact] proves
    that some amount is enough for every store.

    ** What is not modelled

    Wall-clock stamps in statuses, mutex poisoning, panicking handlers, event
    sinks and journals (they consume events only).  Concurrent writers and the
    declaration of collections are left out of the driver's checkpointer, and its
    sequence numbers are not bounded at 64 bits.  A handler reaches the store only through the runtime.
    Collection declarations and the wait for a fresh millisecond of the cron job
    store, and the catalog, copilot, module and bus services are not modelled:
    they are wire formats, prompts, database drivers and host glue around the
    parts above.  The system prompts of the
    adaptive loop are opaque texts, and the SQLite ledger is any instance of the
    class [Ledger].

    ** The theorems

    Compilation and routing: [compile_accepts_wf], [next_activations_runnable],
    [reaches_deterministically_correct], [held_barriers_unsatisfied],
    [barrier_fires_exactly] (both ways: nothing fires early, nothing that is due
    is held back).  Supersteps: [window_bounds],
    [parallel_step_total], [parallel_step_deterministic],
    [sequential_parallel_agree].  Runs: [run_terminates],
    [run_status_recorded], [visit_cap_enforced], [depth_cap_enforced].
    Durability: [boundary_keeps_every_branch], [partition_rekeys_routing],
    [resume_continues_run], [interrupt_resumes], [fresh_task_ids_distinct].
    Store: [ledger_merge_idempotent], [history_terminates],
    [prune_keeps_lineage], [copy_thread_faithful], [fork_copies_checkpoint],
    [manual_write_keeps_branches].  Channels: [step_conflict_exact],
    [merge_frames], [messages_merge_is_upsert].

    Workflows: [back_edges_cut_cycles] (the edges cut leave no cycle),
    [valid_cycles_bounded], [valid_workflow_builds], [routing_follows_ports]
    (whatever the routing shape, exactly the successors on an emitted port that
    has any), [successors_read_items], [activation_retries],
    [parallel_updates_commute], [lane_envelope_roundtrip].

    Configuration: [traced_resolution_exact], [postcondition_gate],
    [memory_writes_confined], [agent_privileges_literal],
    [overrides_never_widen], [workdir_contained].  Nodes:
    [scatter_partitions], [scatter_gather_roundtrip], [gather_wait_bounded],
    [loop_bounded], [map_items_deterministic], [map_concurrency_bounded],
    [dedup_exactly_once] (across runs, each with any number of activations),
    [settlement_keeps_keys].

    Agents: [agent_turn_confined], [schema_validation_exact],
    [context_fence_unbreakable] (upstream data cannot leave its block).

    Hosts: [http_request_confined], [allows_by_labels], [private_blocks_exact],
    [shell_run_confined].  Compatibility: [refusals_exact],
    [referenced_workflows_exact], [migrate_stamps], [located_error_exact].

    Adaptive loop: [episode_ends], [approaches_not_repeated],
    [continuation_sound] and [continue_keeps_prefix] (what an interrupted run
    committed still stands when it is continued), [kept_is_reusable],
    [verdict_consistent], [lowered_plan_runs], [jq_quote_roundtrip],
    [tenants_isolated], [recall_keeps_best], [champion_best], [lineage_family],
    [transcript_bounded], [upstream_condition_exact], [edits_keep_linked].

    Runs and reviews: [run_slots_fixed] (a node cannot change what the run was
    started with), [review_approved_by_host], [nesting_bounded],
    [child_gates_exact], [gate_wait_bounded], [gate_emits_in_order],
    [task_settles_once].

    Storage: [key_roundtrip], [repo_update_atomic] (under interference an update
    is one atomic step), [lease_fencing] (epochs of tenures only grow
    until a compaction drops the record),
    [acquire_refines], [free_lease_acquired], [counter_next_unique],
    [kv_list_exact].  The driver's checkpointer: [driver_simulates_memory] (it
    refines the in-memory backend), [driver_history_is_default] (its history in
    two queries is the trait's walk), [import_keeps_live], [import_idempotent].
    Migrations: [migration_resumable] (a migration out of legacy collections
    stopped anywhere loses no row; in-place steps are not covered),
    [migration_ends], [cron_rows_carried], [run_numbers_continue].

    Scheduler: [weekday_translation], [next_run_exact],
    [closest_gap_reported], [occurrence_callbacks_fenced], [tick_settles].

    Cron job store: [cron_job_roundtrip], [job_write_atomic],
    [ledger_caps_active_jobs] (imports included, when they run alone on a store
    with its ledger), [operations_participate], [claim_matches_job],
    [complete_claim_fenced], [claim_completes_once], [edit_invalidates_claims],
    [completed_removal_exact].

    Theorems that exhibit defects of the code on concrete inputs:
    [parallel_results_misattributed], [retry_drops_failed_task],
    [manual_write_swallows_back_edge], [resume_reports_false_conflict],
    [merge_fires_early], [fanout_ignores_port], [recursion_limit_capped],
    [reserved_ids_accepted], [skip_after_keeps_port],
    [every_accepted_unrunnable], [gather_counts_first_scatter],
    [loop_reentry_not_reset], [connection_from_run_data],
    [import_takeback_strands_member], [child_review_self_approved],
    [start_without_finish], [lineage_over_cap], [transcript_over_budget],
    [missing_blocker_stands_down], [uncompiled_run_stands_down],
    [migrate_downgrades_wrapped], [input_env_overridden],
    [unreadable_counter_vanishes]. *)

From stdpp Require Export base gmap sets list strings pretty.
From Stdlib Require Import Sorted.
From Stdlib Require Export Lia.

(** ** Results

    [result E A] is Rust's [Result<A, E>].  The [?] operator is the monadic
    bind [rbind], written [let? x := m in k]. *)

Inductive result (E A : Type) : Type :=
| Ok (a : A)
| Err (e : E).
Arguments Ok {E A} a.
Arguments Err {E A} e.

Definition rbind {E A B} (m : result E A) (f : A → result E B) : result E B :=
  match m with Ok a => f a | Err e => Err e end.

(** [Option::and_then], written [o >>? f]. *)
Definition and_then {A B} (o : option A) (f : A → option B) : option B :=
  match o with Some a => f a | None => None end.

Declare Scope tf_scope.
Delimit Scope tf_scope with tf.
Notation "o >>? f" := (and_then o f) (at level 58, left associativity) : tf_scope.
Notation "'let?' x := m 'in' k" := (rbind m (λ x, k))
  (at level 200, x name, m at level 100, k at level 200, right associativity) : tf_scope.
Global Open Scope tf_scope.

Definition ok_or {E A} (o : option A) (e : E) : result E A :=
  match o with Some a => Ok a | None => Err e end.

Definition is_ok {E A} (r : result E A) : bool :=
  match r with Ok _ => true | Err _ => false end.

Lemma bind_Ok_inv {E A B} (m : result E A) (f : A → result E B) (b : B) :
  rbind m f = Ok b → ∃ a, m = Ok a ∧ f a = Ok b.
Proof. destruct m; cbn; naive_solver. Qed.

Lemma and_then_Some {A B} (o : option A) (f : A → option B) b :
  o >>? f = Some b ↔ ∃ a, o = Some a ∧ f a = Some b.
Proof. destruct o; cbn; naive_solver. Qed.

Lemma ok_or_Ok {E A} (o : option A) (e : E) a : ok_or o e = Ok a ↔ o = Some a.
Proof. destruct o; cbn; naive_solver. Qed.

(** [for_each f l] runs a fallible function over a list and stops at the
    first error, as a [for] loop around [?] does. *)
Fixpoint for_each {E A} (f : A → result E unit) (l : list A) : result E unit :=
  match l with
  | [] => Ok tt
  | a :: l' => rbind (f a) (λ _, for_each f l')
  end.

Lemma for_each_Ok {E A} (f : A → result E unit) l :
  for_each f l = Ok tt ↔ Forall (λ a, f a = Ok tt) l.
Proof.
  induction l as [|a l IH]; cbn; [naive_solver|].
  rewrite Forall_cons, <- IH.
  destruct (f a) as [[]|e]; cbn; naive_solver.
Qed.

(** Left fold with early exit on error. *)
Fixpoint fold_result {E A B} (f : A → B → result E A) (a : A) (l : list B) : result E A :=
  match l with
  | [] => Ok a
  | b :: l' => rbind (f a b) (λ a', fold_result f a' l')
  end.

Lemma fold_result_app {E A B} (f : A → B → result E A) a l1 l2 :
  fold_result f a (l1 ++ l2) = rbind (fold_result f a l1) (λ a', fold_result f a' l2).
Proof.
  revert a. induction l1 as [|b l1 IH]; intros a; cbn; [done|].
  destruct (f a b); cbn; [apply IH|done].
Qed.

(** An invariant of every step is an invariant of the fold. *)
Lemma fold_result_inv {E A B} (f : A → B → result E A) (P : A → Prop) a l a' :
  P a → (∀ x b x', b ∈ l → P x → f x b = Ok x' → P x') →
  fold_result f a l = Ok a' → P a'.
Proof.
  revert a. induction l as [|b l IH]; cbn; intros a Ha Hstep Hf; [naive_solver|].
  apply bind_Ok_inv in Hf as (x & Hx & Hf).
  apply (IH x); [eapply Hstep; [left|done|done]| |done].
  intros y c y' Hc. apply Hstep. by right.
Qed.

(** ** Tactics *)

(** Splits a successful [bind]/[ok_or] chain in a hypothesis. *)
Ltac inv_ok :=
  repeat match goal with
  | H : rbind _ _ = Ok _ |- _ => apply bind_Ok_inv in H as (? & ? & H)
  | H : ok_or _ _ = Ok _ |- _ => apply ok_or_Ok in H
  | H : Ok _ = Ok _ |- _ => injection H as H; subst
  | H : Err _ = Ok _ |- _ => discriminate H
  | H : Ok _ = Err _ |- _ => discriminate H
  | H : Some _ = Some _ |- _ => injection H as H; subst
  | H : Some _ = None |- _ => discriminate H
  | H : None = Some _ |- _ => discriminate H
  | H : (_, _) = (_, _) |- _ => injection H as H; subst
  end.

(** Case split on the scrutinee of the goal or of a hypothesis. *)
Ltac case_scrut :=
  match goal with
  | |- context [match ?x with _ => _ end] => destruct x eqn:?
  | H : context [match ?x with _ => _ end] |- _ => destruct x eqn:?
  end.

(** ** Hint databases *)
Create HintDb tf.
#[export] Hint Resolve elem_of_app : tf.

(** ** Generic list lemmas *)

Section Lists.
Context {A : Type}.
Implicit Types l : list A.

Lemma last_Some_app l x : last l = Some x ↔ ∃ l', l = l' ++ [x].
Proof.
  split; [|intros [l' ->]; apply last_snoc].
  destruct l as [|y l' _] using rev_ind; [done|].
  rewrite last_snoc. intros [= ->]. by exists l'.
Qed.

Lemma imap_seq_lookup {B} (f : nat → A → B) l i :
  imap f l !! i = f i <$> l !! i.
Proof. apply list_lookup_imap. Qed.

Lemma elem_of_enumerate l i x :
  (i, x) ∈ imap pair l ↔ l !! i = Some x.
Proof.
  rewrite list_elem_of_lookup. split.
  - intros [j Hj]. rewrite list_lookup_imap in Hj.
    destruct (l !! j) eqn:E; cbn in Hj; naive_solver.
  - intros H. exists i. by rewrite list_lookup_imap, H.
Qed.

End Lists.

Lemma StronglySorted_filter {A} (R : A → A → Prop) (P : A → Prop) `{!∀ x, Decision (P x)} l :
  StronglySorted R l → StronglySorted R (filter P l).
Proof.
  induction 1 as [|x l Hl IH Hx]; [constructor|]. rewrite filter_cons. case_decide; [|done].
  constructor; [done|]. apply Forall_forall. intros y [_ Hy]%list_elem_of_filter.
  rewrite Forall_forall in Hx. by apply Hx.
Qed.

(** The last element satisfying a predicate ([Iterator::rfind]). *)
Definition rfind {A} (p : A → bool) (l : list A) : option A :=
  head (filter (λ a, Is_true (p a)) (reverse l)).

Lemma rfind_Some {A} (p : A → bool) (l : list A) a :
  rfind p l = Some a → a ∈ l ∧ p a = true.
Proof.
  unfold rfind. intros H. apply head_Some_elem_of in H.
  apply list_elem_of_filter in H as [Hp Hin].
  rewrite elem_of_reverse in Hin. by apply Is_true_true in Hp.
Qed.

Lemma rfind_snoc {A} (p : A → bool) (l : list A) a :
  rfind p (l ++ [a]) = if p a then Some a else rfind p l.
Proof.
  unfold rfind. rewrite reverse_snoc, filter_cons.
  destruct (p a) eqn:E; case_decide as Hd; cbn in *; naive_solver.
Qed.

Lemma rfind_None {A} (p : A → bool) (l : list A) :
  rfind p l = None ↔ ∀ a, a ∈ l → p a = false.
Proof.
  induction l as [|a l IH] using rev_ind; [by cbn; split; [intros _ ? ?%elem_of_nil|]|].
  rewrite rfind_snoc. setoid_rewrite elem_of_app. setoid_rewrite list_elem_of_singleton.
  destruct (p a) eqn:E; naive_solver congruence.
Qed.

(** The first element satisfying a predicate ([Iterator::find]). *)
Definition find_first {A} (p : A → bool) (l : list A) : option A :=
  head (filter (λ a, Is_true (p a)) l).

Lemma find_first_Some {A} (p : A → bool) (l : list A) a :
  find_first p l = Some a → a ∈ l ∧ p a = true.
Proof.
  unfold find_first. intros H. apply head_Some_elem_of in H.
  apply list_elem_of_filter in H as [Hp Hin]. by apply Is_true_true in Hp.
Qed.

Lemma find_first_cons {A} (p : A → bool) (a : A) (l : list A) :
  find_first p (a :: l) = if p a then Some a else find_first p l.
Proof. unfold find_first. rewrite filter_cons. by destruct (p a); case_decide. Qed.

Lemma find_first_None {A} (p : A → bool) (l : list A) :
  find_first p l = None ↔ ∀ a, a ∈ l → p a = false.
Proof.
  unfold find_first. induction l as [|a l IH]; [by cbn; split; [intros _ ? ?%elem_of_nil|]|].
  setoid_rewrite elem_of_cons. rewrite filter_cons.
  destruct (p a) eqn:E; case_decide; cbn; naive_solver congruence.
Qed.

Lemma rfind_fmap {A B} (f : A → B) (p : B → bool) (l : list A) :
  rfind p (f <$> l) = f <$> rfind (λ a, p (f a)) l.
Proof.
  induction l as [|a l IH] using rev_ind; [done|].
  rewrite fmap_app. cbn. rewrite !rfind_snoc, IH. by destruct (p (f a)).
Qed.

(** Dropping elements that the search would not have returned does not change
    what it returns. *)
Lemma rfind_filter {A} (p : A → bool) (P : A → Prop) `{!∀ a, Decision (P a)} (l : list A) a :
  rfind p l = Some a → P a → rfind p (filter P l) = Some a.
Proof.
  intros Hf Ha. induction l as [|b l IH] using rev_ind; [done|].
  rewrite rfind_snoc in Hf. rewrite filter_app, filter_cons, filter_nil.
  destruct (p b) eqn:E.
  - injection Hf as ->. rewrite decide_True by done. by rewrite rfind_snoc, E.
  - case_decide; [rewrite rfind_snoc, E|rewrite app_nil_r]; by apply IH.
Qed.

Lemma rfind_ext {A} (p q : A → bool) (l : list A) : (∀ a, p a = q a) → rfind p l = rfind q l.
Proof.
  intros Hpq. induction l as [|a l IH] using rev_ind; [done|]. by rewrite !rfind_snoc, Hpq, IH.
Qed.

Lemma rfind_unique {A K} (key : A → K) `{!EqDecision K} (l : list A) a :
  NoDup (key <$> l) → a ∈ l → rfind (λ b, bool_decide (key b = key a)) l = Some a.
Proof.
  intros Hnd Ha. destruct (rfind _ l) as [b|] eqn:E.
  - apply rfind_Some in E as [Hb Hk]. apply bool_decide_eq_true in Hk. f_equal.
    apply list_elem_of_lookup in Ha as [i Hi]. apply list_elem_of_lookup in Hb as [j Hj].
    assert (i = j) as ->; [|congruence].
    eapply (NoDup_lookup (key <$> l)); [done|..]; rewrite list_lookup_fmap.
    + by rewrite Hi.
    + rewrite Hj. cbn. by rewrite Hk.
  - rewrite rfind_None in E. specialize (E a Ha). by rewrite bool_decide_eq_true_2 in E.
Qed.

Lemma filter_ext_in {A} (P Q : A → Prop) `{!∀ a, Decision (P a)} `{!∀ a, Decision (Q a)}
    (l : list A) : (∀ a, a ∈ l → (P a ↔ Q a)) → filter P l = filter Q l.
Proof.
  induction l as [|a l IH]; intros HPQ; [done|]. rewrite !filter_cons, IH by set_solver.
  destruct (HPQ a) as [HP HQ]; [left|]. do 2 case_decide; naive_solver.
Qed.

Lemma filter_nil_all {A} (P : A → Prop) `{!∀ x, Decision (P x)} l : (∀ x, x ∈ l → ¬ P x) → filter P l = [].
Proof.
  induction l as [|x l IH]; intros Hno; [done|]. rewrite filter_cons_False by (apply Hno; left).
  apply IH. intros y Hy. apply Hno. by right.
Qed.
Lemma filter_all {A} (P : A → Prop) `{!∀ a, Decision (P a)} (l : list A) :
  (∀ a, a ∈ l → P a) → filter P l = l.
Proof.
  induction l as [|a l IH]; intros HP; [done|]. rewrite filter_cons, decide_True by (apply HP; left).
  f_equal. apply IH. set_solver.
Qed.

(** An empty concatenation has empty parts only. *)
Lemma concat_fmap_nil {A B} (g : A → list B) l x : concat (g <$> l) = [] → x ∈ l → g x = [].
Proof.
  induction l as [|y l IH]; cbn; [by intros _ ?%elem_of_nil|].
  intros [Hy Hl]%app_nil [->|Hx]%elem_of_cons; auto.
Qed.
Lemma concat_nil_Forall {A} (ls : list (list A)) : concat ls = [] ↔ Forall (λ l, l = []) ls.
Proof. induction ls as [|l ls IH]; cbn; [done|]. by rewrite app_nil, Forall_cons, IH. Qed.

Lemma existsb_elem {A} (p : A → bool) l : existsb p l = true ↔ ∃ x, x ∈ l ∧ p x = true.
Proof. rewrite existsb_exists. by setoid_rewrite list_elem_of_In. Qed.
