(* ===== verification/Json.v ===== *)
(** * JSON values

    [value] is [serde_json::Value] as the workspace builds it: no
    [preserve_order] feature, so an object is a [BTreeMap<String, Value>] and
    its entries are kept sorted by key (byte order of the UTF-8 string, which
    is [String.ltb] on the byte strings used here).  A number is one of
    serde_json's three representations: a [u64], a negative [i64], or an
    IEEE-754 binary64 float, the last one as the Standard Library's
    [spec_float]. *)

From S2P Require Import Prelude.
From Stdlib Require Import SpecFloat.
From Stdlib Require String.

Inductive number :=
| PosInt (n : Z)
| NegInt (z : Z)
| Float (f : spec_float).

Inductive value :=
| Null
| Bool (b : bool)
| Number (n : number)
| Str (s : string)
| Array (items : list value)
| Object (fields : list (string * value)).

(** ** Decidable equality *)

#[export] Instance spec_float_eq_dec : EqDecision spec_float.
Proof. solve_decision. Defined.
#[export] Instance number_eq_dec : EqDecision number.
Proof. solve_decision. Defined.

Fixpoint value_eq_dec_aux (v w : value) {struct v} : {v = w} + {v ≠ w}.
Proof.
  refine (
    match v, w with
    | Null, Null => left eq_refl
    | Bool a, Bool b => cast_if (decide (a = b))
    | Number a, Number b => cast_if (decide (a = b))
    | Str a, Str b => cast_if (decide (a = b))
    | Array a, Array b => cast_if ((fix go (l k : list value) : {l = k} + {l ≠ k} := _) a b)
    | Object a, Object b =>
        cast_if ((fix go (l k : list (string * value)) : {l = k} + {l ≠ k} := _) a b)
    | _, _ => right _
    end); try congruence; clear v w.
  - destruct l as [|x l], k as [|y k]; [by left|by right|by right|].
    destruct (value_eq_dec_aux x y) as [->|]; [|by right; intros [=]].
    destruct (go l k) as [->|]; [by left|by right; intros [=]].
  - destruct l as [|[s x] l], k as [|[t y] k]; [by left|by right|by right|].
    destruct (decide (s = t)) as [->|]; [|by right; intros [=]].
    destruct (value_eq_dec_aux x y) as [->|]; [|by right; intros [=]].
    destruct (go l k) as [->|]; [by left|by right; intros [=]].
Defined.
#[export] Instance value_eq_dec : EqDecision value := value_eq_dec_aux.

(** ** [serde_json::Map] *)

Fixpoint obj_get (k : string) (m : list (string * value)) : option value :=
  match m with
  | [] => None
  | (k', v) :: m' => if decide (k = k') then Some v else obj_get k m'
  end.

Fixpoint obj_insert (k : string) (v : value) (m : list (string * value))
    : list (string * value) :=
  match m with
  | [] => [(k, v)]
  | (k', v') :: m' =>
      if decide (k = k') then (k, v) :: m'
      else if String.ltb k k' then (k, v) :: (k', v') :: m'
      else (k', v') :: obj_insert k v m'
  end.

(** Keys are unique, so this drops the one entry of [k]. *)
Fixpoint obj_remove (k : string) (m : list (string * value)) : list (string * value) :=
  match m with
  | [] => []
  | (k', v') :: m' => if decide (k = k') then obj_remove k m' else (k', v') :: obj_remove k m'
  end.

(** A literal object ([json!({ ... })]). *)
Definition json_object (fields : list (string * value)) : value :=
  Object (foldl (λ m kv, obj_insert kv.1 kv.2 m) [] fields).

(** ** Accessors of [Value] *)

Definition get (k : string) (v : value) : option value :=
  match v with Object m => obj_get k m | _ => None end.

Definition as_str (v : value) : option string :=
  match v with Str s => Some s | _ => None end.
Definition as_bool (v : value) : option bool :=
  match v with Bool b => Some b | _ => None end.
Definition as_array (v : value) : option (list value) :=
  match v with Array l => Some l | _ => None end.
Definition as_object (v : value) : option (list (string * value)) :=
  match v with Object m => Some m | _ => None end.
Definition as_u64 (v : value) : option Z :=
  match v with Number (PosInt n) => Some n | _ => None end.
Definition is_null (v : value) : bool :=
  match v with Null => true | _ => false end.
Definition is_object (v : value) : bool :=
  match v with Object _ => true | _ => false end.
Definition is_array (v : value) : bool :=
  match v with Array _ => true | _ => false end.

Definition i64_max : Z := 2 ^ 63 - 1.
Definition i64_min : Z := - 2 ^ 63.
Definition u64_max : Z := 2 ^ 64 - 1.

(** [Value::as_i64]: a [u64] fits only up to [i64::MAX]. *)
Definition as_i64 (v : value) : option Z :=
  match v with
  | Number (PosInt n) => if decide (n ≤ i64_max)%Z then Some n else None
  | Number (NegInt z) => Some z
  | _ => None
  end.
Definition is_i64 (v : value) : bool := bool_decide (is_Some (as_i64 v)).

(** [z as f64]: round to nearest even in binary64. *)
Definition f64_of_Z (z : Z) : spec_float := binary_normalize 53 1024 z 0 false.
Definition f64_add (x y : spec_float) : spec_float := SFadd 53 1024 x y.

Definition as_f64 (v : value) : option spec_float :=
  match v with
  | Number (PosInt n) => Some (f64_of_Z n)
  | Number (NegInt z) => Some (f64_of_Z z)
  | Number (Float f) => Some f
  | _ => None
  end.

Definition is_finite_sf (f : spec_float) : bool :=
  match f with S754_zero _ | S754_finite _ _ _ => true | _ => false end.

(** [Value::from(i64)] and [Value::from(f64)]: a non-finite float becomes
    [null]. *)
Definition value_of_i64 (z : Z) : value :=
  if decide (0 ≤ z)%Z then Number (PosInt z) else Number (NegInt z).
Definition value_of_f64 (f : spec_float) : value :=
  if is_finite_sf f then Number (Float f) else Null.
Definition value_of_nat (n : nat) : value := Number (PosInt (Z.of_nat n)).

(** [serde_json::json!] of a list of strings. *)
Definition json_strings (l : list string) : value := Array (Str <$> l).

(** ** Lookup laws of [Map] *)

Lemma obj_get_insert_eq k v m : obj_get k (obj_insert k v m) = Some v.
Proof.
  induction m as [|[k' v'] m IH]; cbn; [by rewrite decide_True|].
  destruct (decide (k = k')) as [<-|Hne]; cbn; [by rewrite decide_True|].
  destruct (String.ltb k k'); cbn; [by rewrite decide_True|].
  by rewrite decide_False.
Qed.

Lemma obj_get_insert_ne k k' v m :
  k ≠ k' → obj_get k' (obj_insert k v m) = obj_get k' m.
Proof.
  intros Hne. induction m as [|[j w] m IH]; cbn; [by rewrite decide_False|].
  destruct (decide (k = j)) as [<-|Hj]; cbn; [by rewrite !decide_False|].
  destruct (String.ltb k j); cbn; [by rewrite decide_False|].
  by rewrite IH.
Qed.

Lemma obj_get_insert k k' v m :
  obj_get k' (obj_insert k v m) = if decide (k = k') then Some v else obj_get k' m.
Proof.
  case_decide as H; [subst; apply obj_get_insert_eq|by apply obj_get_insert_ne].
Qed.

Lemma obj_get_remove k k' m :
  obj_get k' (obj_remove k m) = if decide (k = k') then None else obj_get k' m.
Proof.
  induction m as [|[j w] m IH]; cbn; [by case_decide|].
  destruct (decide (k = j)) as [<-|Hj]; cbn; rewrite IH; repeat case_decide; congruence.
Qed.

Lemma obj_get_Some_elem k v m : obj_get k m = Some v → (k, v) ∈ m.
Proof.
  induction m as [|[k' v'] m IH]; cbn; [done|].
  case_decide; set_solver.
Qed.

#[export] Hint Rewrite obj_get_insert_eq : tf.
