(* ===== verification/GraphTypes.v ===== *)
(** * Data of the state-graph runtime

    Ids, errors, routing commands, interrupts and node contexts
    ([crates/tinyflows/src/graph/{ids,error,command,builder}]).  The id
    newtypes ([NodeId], [RunId], [ThreadId], ...) all wrap a [String]; they are
    [string] here. *)

From S2P Require Import Prelude Json.

Notation NodeId := string (only parsing).
Notation RunId := string (only parsing).
Notation ThreadId := string (only parsing).
Notation GraphId := string (only parsing).
Notation CheckpointId := string (only parsing).
Notation InterruptId := string (only parsing).

(** The reserved virtual nodes. *)
Definition START : NodeId := "__start__".
Definition END : NodeId := "__end__".

(** ** Errors *)

Inductive GraphError :=
| MissingStart
| MissingNode (node : string)
| MissingEdgeTarget (node : string)
| MissingRoute (node route : string)
| RecursionLimit (limit : nat)
| SubAgentDepth (limit : nat)
| NodeVisitLimit (node : string) (limit : nat)
| Validation (msg : string)
| Timeout (msg : string)
| Cancelled
| GraphErr (msg : string)
| Interrupted (node message : string)
| InvalidConcurrentUpdate (msg : string)
| CheckpointErr (msg : string)
| Resume (msg : string)
| Serialization (msg : string).

#[export] Instance GraphError_eq_dec : EqDecision GraphError.
Proof. solve_decision. Defined.

Notation Result := (result GraphError).

(** ** Id allocation *)

(** [next_seq] is the process-wide counter; the nonce is fixed per process. *)
Definition fmt_run_id (nonce seq : N) : RunId :=
  "run-" +:+ pretty nonce +:+ "-" +:+ pretty seq.
Definition fmt_checkpoint_id (nonce seq : N) : CheckpointId :=
  "ckpt-" +:+ pretty nonce +:+ "-" +:+ pretty seq.

(** ** Commands and interrupts *)

Record Send := mkSend { send_node : NodeId; send_value : value }.

Inductive RouteTarget :=
| RTNode (node : NodeId)
| RTSend (s : Send).

Definition target_node (t : RouteTarget) : NodeId :=
  match t with RTNode n => n | RTSend s => send_node s end.
Definition target_send_arg (t : RouteTarget) : option value :=
  match t with RTNode _ => None | RTSend s => Some (send_value s) end.

Record Command (Update : Type) := mkCommand {
  cmd_update : option Update;
  cmd_goto : list RouteTarget;
  cmd_resume : option value
}.
Arguments mkCommand {Update}.
Arguments cmd_update {Update}.
Arguments cmd_goto {Update}.
Arguments cmd_resume {Update}.

Section CommandOps.
Context {Update : Type}.
Implicit Types c : Command Update.

Definition command_new : Command Update := mkCommand None [] None.
Definition command_goto (targets : list NodeId) : Command Update :=
  mkCommand None (RTNode <$> targets) None.
Definition command_send (sends : list Send) : Command Update :=
  mkCommand None (RTSend <$> sends) None.
Definition command_route (targets : list RouteTarget) : Command Update :=
  mkCommand None targets None.
Definition command_update (u : Update) : Command Update := mkCommand (Some u) [] None.
Definition command_resume (v : value) : Command Update := mkCommand None [] (Some v).
Definition with_update c (u : Update) : Command Update :=
  mkCommand (Some u) (cmd_goto c) (cmd_resume c).
Definition with_goto c (targets : list NodeId) : Command Update :=
  mkCommand (cmd_update c) (cmd_goto c ++ (RTNode <$> targets)) (cmd_resume c).
Definition with_sends c (sends : list Send) : Command Update :=
  mkCommand (cmd_update c) (cmd_goto c ++ (RTSend <$> sends)) (cmd_resume c).
Definition with_resume c (v : value) : Command Update :=
  mkCommand (cmd_update c) (cmd_goto c) (Some v).
End CommandOps.

Record Interrupt := mkInterrupt {
  int_id : string;
  int_node : NodeId;
  int_payload : value
}.

Inductive NodeResult (Update : Type) :=
| NRUpdate (u : Update)
| NRCommand (c : Command Update)
| NRInterrupt (i : Interrupt).
Arguments NRUpdate {Update}.
Arguments NRCommand {Update}.
Arguments NRInterrupt {Update}.

(** ** Recursion frames and child runs *)

Record RecursionFrame := mkFrame {
  frame_graph_id : GraphId;
  frame_node_id : option NodeId;
  frame_run_id : RunId;
  frame_task_id : option string;
  frame_namespace : list string;
  frame_depth : nat;
  frame_parent : option RunId
}.

Record ChildRun := mkChildRun {
  child_node : NodeId;
  child_graph_id : GraphId;
  child_run_id : RunId;
  child_root_run_id : RunId
}.

(** ** Node contexts and handlers *)

Record ForkId := mkFork { branch_index : nat; fork_node : NodeId }.

Record NodeContext := mkContext {
  ctx_node_id : NodeId;
  ctx_run_id : RunId;
  ctx_thread_id : option ThreadId;
  ctx_step : nat;
  ctx_resume : option value;
  ctx_fork : option ForkId;
  ctx_send_arg : option value;
  ctx_root_run_id : option RunId;
  ctx_recursion_frames : list RecursionFrame
}.

(** What driving a handler future to its end yields: how long it took, the
    child runs it reported into the run's [ChildRunSink] (the [child_runs] field
    of the Rust context) with the time of each report, and its output.  Handlers
    are supplied by the caller of the runtime; the snapshot and the context are
    all they receive. *)
Record NodeFuture (Update : Type) := mkFuture {
  fut_elapsed : N;
  fut_children : list (N * ChildRun);
  fut_output : Result (NodeResult Update)
}.
Arguments mkFuture {Update}.
Arguments fut_elapsed {Update}.
Arguments fut_children {Update}.
Arguments fut_output {Update}.

Definition NodeHandler (State Update : Type) : Type :=
  State → NodeContext → NodeFuture Update.

Record BuilderNode (State Update : Type) := mkNode {
  node_id : NodeId;
  node_handler : NodeHandler State Update
}.
Arguments mkNode {State Update}.
Arguments node_id {State Update}.
Arguments node_handler {State Update}.

(** Conditional routing: a router and its label table. *)
Record Branch (State : Type) := mkBranch {
  branch_router : State → string;
  branch_routes : gmap string NodeId
}.
Arguments mkBranch {State}.
Arguments branch_router {State}.
Arguments branch_routes {State}.

Record NodeMeta := mkMeta {
  meta_kind : option string;
  meta_interrupt : bool;
  meta_deferred : bool;
  meta_subgraph : bool;
  meta_command_destinations : list NodeId;
  meta_command_fanout : bool;
  meta_metadata : gmap string string
}.
Definition meta_default : NodeMeta := mkMeta None false false false [] false ∅.

Record BarrierRelief := mkRelief {
  relief_source : NodeId;
  relief_node : NodeId;
  relief_barrier : NodeId
}.

(** One scheduled activation of the active set. *)
Record Activation := mkActivation {
  act_node : NodeId;
  act_send_arg : option value;
  act_task_id : string
}.
Definition activation_node (n : NodeId) : Activation := mkActivation n None "".
Definition activation_nodes (l : list Activation) : list NodeId := act_node <$> l.

#[export] Instance Activation_eq_dec : EqDecision Activation.
Proof. solve_decision. Defined.

(** ** Lemmas *)

Lemma fmt_checkpoint_id_inj nonce s1 s2 :
  fmt_checkpoint_id nonce s1 = fmt_checkpoint_id nonce s2 → s1 = s2.
Proof.
  unfold fmt_checkpoint_id. intros H.
  repeat (apply (inj (String.app _)) in H). by apply (inj pretty) in H.
Qed.

(** * Recursion policy and stack

    [crates/tinyflows/src/graph/recursion/types.rs]: the depth, per-node visit
    and total-step caps that bound a run, and the frame stack of the run tree. *)

Record RecursionPolicy := mkPolicy {
  max_depth : nat;
  max_visits_per_node : option nat;
  max_total_steps : nat
}.

Definition RecursionPolicy_default : RecursionPolicy := mkPolicy 25 None 1000.

Record RecursionStack := mkStack {
  stack_frames : list RecursionFrame;
  stack_policy : RecursionPolicy
}.

Definition stack_new (policy : RecursionPolicy) : RecursionStack := mkStack [] policy.
Definition stack_with_frames (frames : list RecursionFrame) (policy : RecursionPolicy)
  : RecursionStack := mkStack frames policy.
Definition stack_depth (s : RecursionStack) : nat := length (stack_frames s).

(** [push] refuses a frame that would exceed [max_depth], leaving the stack as
    it was. *)
Definition stack_push (s : RecursionStack) (f : RecursionFrame) : Result RecursionStack :=
  if decide (max_depth (stack_policy s) < length (stack_frames s) + 1)
  then Err (SubAgentDepth (max_depth (stack_policy s)))
  else Ok (mkStack (stack_frames s ++ [f]) (stack_policy s)).

(** [pop] removes and returns the deepest frame. *)
Definition stack_pop (s : RecursionStack) : option RecursionFrame * RecursionStack :=
  (last (stack_frames s),
   mkStack (take (length (stack_frames s) - 1) (stack_frames s)) (stack_policy s)).

Definition check_total_steps (s : RecursionStack) (steps : nat) : Result unit :=
  if decide (max_total_steps (stack_policy s) ≤ steps)
  then Err (RecursionLimit (max_total_steps (stack_policy s)))
  else Ok tt.

(** [record_node_visit] increments the counter before it tests the cap: the
    counter map is updated even when the visit is refused. *)
Definition record_node_visit (s : RecursionStack) (counts : gmap NodeId nat) (node : NodeId)
    : gmap NodeId nat * Result unit :=
  match max_visits_per_node (stack_policy s) with
  | None => (counts, Ok tt)
  | Some max =>
      let count := S (default 0 (counts !! node)) in
      (<[node := count]> counts,
       if decide (max < count) then Err (NodeVisitLimit node max) else Ok tt)
  end.

(** The per-activation loop of a superstep. *)
Fixpoint record_visits (s : RecursionStack) (counts : gmap NodeId nat) (active : list Activation)
    : gmap NodeId nat * Result unit :=
  match active with
  | [] => (counts, Ok tt)
  | a :: rest =>
      match record_node_visit s counts (act_node a) with
      | (counts', Ok _) => record_visits s counts' rest
      | (counts', Err e) => (counts', Err e)
      end
  end.

(** ** Properties *)

(** Every frame sits at the depth its position says, and the stack never
    exceeds the policy. *)
Definition stack_wf (s : RecursionStack) : Prop :=
  stack_depth s ≤ max_depth (stack_policy s).

Lemma stack_push_wf s f s' :
  stack_push s f = Ok s' →
  stack_wf s' ∧ stack_depth s' = S (stack_depth s) ∧ stack_policy s' = stack_policy s.
Proof.
  unfold stack_push, stack_wf, stack_depth. case_decide; intros; inv_ok.
  cbn. rewrite length_app. cbn. repeat split; lia.
Qed.

Lemma stack_push_pop s f s' :
  stack_push s f = Ok s' → stack_pop s' = (Some f, s).
Proof.
  unfold stack_push, stack_pop. case_decide; intros; inv_ok. cbn.
  rewrite last_snoc, length_app, take_app_le by (cbn; lia). cbn.
  rewrite firstn_all2 by lia. by destruct s.
Qed.

(** How many activations of [n] a list holds. *)
Definition visits_of (n : NodeId) (l : list Activation) : nat :=
  length (filter (λ a, act_node a = n) l).

Lemma visits_of_app n l1 l2 : visits_of n (l1 ++ l2) = visits_of n l1 + visits_of n l2.
Proof. unfold visits_of. by rewrite filter_app, length_app. Qed.

Lemma visits_of_cons n a l :
  visits_of n (a :: l) = (if decide (act_node a = n) then 1 else 0) + visits_of n l.
Proof. unfold visits_of. rewrite filter_cons. by case_decide. Qed.

(** When a step's loop accepts every activation, the counters have grown by
    exactly the activations of the step, and none exceeds the cap. *)
Lemma record_visits_Ok s max counts active counts' :
  max_visits_per_node (stack_policy s) = Some max →
  record_visits s counts active = (counts', Ok tt) →
  (∀ n, default 0 (counts' !! n) = default 0 (counts !! n) + visits_of n active) ∧
  (∀ n, n ∈ activation_nodes active → default 0 (counts' !! n) ≤ max).
Proof.
  intros Hmax. revert counts.
  induction active as [|a rest IH]; intros counts H; cbn in H.
  - inv_ok. split; [intros n; unfold visits_of; cbn; lia|intros n Hn; by apply elem_of_nil in Hn].
  - unfold record_node_visit in H. rewrite Hmax in H. cbn zeta in H.
    case_decide as Hcap; [by inv_ok|].
    apply IH in H as [Hc Hb]. split.
    + intros n. rewrite Hc, visits_of_cons, lookup_insert. case_decide; subst; cbn; lia.
    + intros n Hn. unfold activation_nodes in Hn. rewrite fmap_cons in Hn.
      destruct (decide (n ∈ act_node <$> rest)) as [Hr|Hr]; [by apply Hb|].
      apply elem_of_cons in Hn as [->|Hn]; [|done].
      rewrite Hc, lookup_insert_eq. cbn.
      assert (visits_of (act_node a) rest = 0) as ->; [|lia].
      unfold visits_of. destruct (filter _ rest) as [|b l] eqn:E; [done|].
      assert (b ∈ filter (λ x, act_node x = act_node a) rest) as Hb' by (rewrite E; left).
      apply list_elem_of_filter in Hb' as [Hb1 Hb2]. destruct Hr.
      rewrite <- Hb1. apply list_elem_of_fmap. by exists b.
Qed.

(** * Events, run statuses and executions

    The values a run hands to its observers: the lifecycle events of
    [graph/stream/types.rs], the status records of [graph/status/], the
    [Display] rendering of errors ([graph/error.rs]) and the JSON projections
    of recursion frames and child runs that checkpoint metadata embeds. *)

Inductive GraphEvent :=
| RunStarted (run_id : RunId)
| RunCompleted (run_id : RunId) (steps : nat)
| RunFailed (run_id : RunId) (error : string)
| StepStarted (step : nat) (active : list NodeId)
| StepCompleted (step : nat)
| TaskScheduled (node : NodeId) (step : nat)
| NodeStarted (node : NodeId) (step : nat)
| NodeCompleted (node : NodeId) (step : nat)
| NodeFailed (node : NodeId) (step : nat) (error : string)
| NodeRetryScheduled (node : NodeId) (step attempt : nat)
| StateUpdated (node : NodeId) (step : nat)
| RouteSelected (node target : NodeId)
| CheckpointSaved (checkpoint_id : CheckpointId)
| CheckpointRestored (checkpoint_id : CheckpointId)
| InterruptEmitted (interrupt : Interrupt)
| SubgraphStarted (node : NodeId) (namespace : list string)
| SubgraphCompleted (node : NodeId) (namespace : list string)
| ContextForked (node : NodeId) (fork step : nat)
| RecursionDepthChanged (depth : nat)
| CustomEvent (name : string) (data : value).

(** [GraphEvent::step]. *)
Definition event_step (e : GraphEvent) : option nat :=
  match e with
  | StepStarted s _ | StepCompleted s | TaskScheduled _ s | NodeStarted _ s
  | NodeCompleted _ s | NodeFailed _ s _ | NodeRetryScheduled _ s _ | StateUpdated _ s
  | ContextForked _ _ s => Some s
  | RunCompleted _ s => Some s
  | _ => None
  end.

(** [GraphEvent::kind]. *)
Definition event_kind (e : GraphEvent) : string :=
  match e with
  | RunStarted _ => "run.started" | RunCompleted _ _ => "run.completed"
  | RunFailed _ _ => "run.failed" | StepStarted _ _ => "step.started"
  | StepCompleted _ => "step.completed" | TaskScheduled _ _ => "task.scheduled"
  | NodeStarted _ _ => "node.started" | NodeCompleted _ _ => "node.completed"
  | NodeFailed _ _ _ => "node.failed" | NodeRetryScheduled _ _ _ => "node.retry_scheduled"
  | StateUpdated _ _ => "state.updated" | RouteSelected _ _ => "route.selected"
  | CheckpointSaved _ => "checkpoint.saved" | CheckpointRestored _ => "checkpoint.restored"
  | InterruptEmitted _ => "interrupt.emitted" | SubgraphStarted _ _ => "subgraph.started"
  | SubgraphCompleted _ _ => "subgraph.completed" | ContextForked _ _ _ => "context.forked"
  | RecursionDepthChanged _ => "recursion.depth_changed" | CustomEvent _ _ => "custom"
  end.

Inductive ExecutionStatus :=
| StPending | StRunning | StInterrupted | StCompleted | StFailed | StCancelled.

(** The wall-clock stamps ([started_at], [updated_at], the value of
    [ended_at]) are not kept; [st_ended] says whether [ended_at] is set.
    [last_event_id] is never written by the executor. *)
Record GraphRunStatus := mkStatus {
  st_run_id : RunId;
  st_root_run_id : RunId;
  st_parent_run_id : option RunId;
  st_thread_id : option ThreadId;
  st_graph_id : GraphId;
  st_checkpoint_id : option CheckpointId;
  st_namespace : list string;
  st_status : ExecutionStatus;
  st_current_step : nat;
  st_active_nodes : list NodeId;
  st_pending_interrupts : list InterruptId;
  st_ended : bool;
  st_error : option string
}.

Definition status_new (run_id : RunId) (graph_id : GraphId) (status : ExecutionStatus)
  : GraphRunStatus :=
  mkStatus run_id run_id None None graph_id None [] status 0 [] [] false None.

Definition is_terminal (s : GraphRunStatus) : bool :=
  match st_status s with StCompleted | StFailed | StCancelled => true | _ => false end.

(** [Display for GraphError]. *)
Definition error_to_string (e : GraphError) : string :=
  match e with
  | MissingStart => "graph start node is not configured"
  | MissingNode n => "node `" +:+ n +:+ "` does not exist"
  | MissingEdgeTarget n => "edge points to missing node `" +:+ n +:+ "`"
  | MissingRoute n r => "conditional route `" +:+ r +:+ "` from node `" +:+ n +:+ "` does not exist"
  | RecursionLimit l => "graph exceeded the recursion limit of " +:+ pretty l +:+ " steps"
  | SubAgentDepth l => "sub-agent recursion exceeded the maximum depth of " +:+ pretty l
  | NodeVisitLimit n l => "node `" +:+ n +:+ "` exceeded its visit limit of " +:+ pretty l
  | Validation m => "validation error: " +:+ m
  | Timeout m => "run timed out: " +:+ m
  | Cancelled => "run cancelled"
  | GraphErr m => "graph error: " +:+ m
  | Interrupted n m => "graph interrupted at node `" +:+ n +:+ "`: " +:+ m
  | InvalidConcurrentUpdate m => "invalid concurrent update: " +:+ m
  | CheckpointErr m => "checkpoint error: " +:+ m
  | Resume m => "cannot resume: " +:+ m
  | Serialization m => "serialization error: " +:+ m
  end.

(** ** JSON projections *)

Definition json_opt_str (o : option string) : value :=
  match o with Some s => Str s | None => Null end.

Definition frame_to_value (f : RecursionFrame) : value :=
  json_object
    [ ("graph_id", Str (frame_graph_id f)); ("node_id", json_opt_str (frame_node_id f));
      ("run_id", Str (frame_run_id f)); ("task_id", json_opt_str (frame_task_id f));
      ("namespace", json_strings (frame_namespace f)); ("depth", value_of_nat (frame_depth f));
      ("parent", json_opt_str (frame_parent f)) ].

Definition child_to_value (c : ChildRun) : value :=
  json_object
    [ ("node", Str (child_node c)); ("graph_id", Str (child_graph_id c));
      ("run_id", Str (child_run_id c)); ("root_run_id", Str (child_root_run_id c)) ].

Definition frames_to_value (l : list RecursionFrame) : value := Array (frame_to_value <$> l).
Definition children_to_value (l : list ChildRun) : value := Array (child_to_value <$> l).
