(* ===== verification/Checkpoint.v ===== *)
(** * Checkpoints and checkpointers

    [crates/tinyflows/src/graph/checkpoint/]: the checkpoint records, the
    write ledger, the [Checkpointer] trait (storage primitives as a record of
    operations over an abstract store, the provided methods defined on top of
    them) and the in-memory backend. *)

From S2P Require Import Prelude Json GraphTypes.

(** ** Records *)

Inductive CheckpointSource := SrcInput | SrcLoop | SrcUpdate | SrcFork.

#[export] Instance CheckpointSource_eq_dec : EqDecision CheckpointSource.
Proof. solve_decision. Defined.

Definition source_as_str (s : CheckpointSource) : string :=
  match s with
  | SrcInput => "input" | SrcLoop => "loop" | SrcUpdate => "update" | SrcFork => "fork"
  end.

Definition source_parse (s : string) : option CheckpointSource :=
  if decide (s = "input") then Some SrcInput
  else if decide (s = "loop") then Some SrcLoop
  else if decide (s = "update") then Some SrcUpdate
  else if decide (s = "fork") then Some SrcFork
  else None.

Inductive DurabilityMode := DurSync | DurAsync | DurExit.

Record CheckpointConfig := mkConfig {
  cfg_thread_id : string;
  cfg_checkpoint_id : option string;
  cfg_namespace : list string
}.
Definition config_latest (thread : string) : CheckpointConfig := mkConfig thread None [].

Record PendingActivation := mkPending {
  pa_node : NodeId;
  pa_send_arg : option value;
  pa_task_id : string
}.
Definition pending_of_activation (a : Activation) : PendingActivation :=
  mkPending (act_node a) (act_send_arg a) (act_task_id a).
Definition activation_of_pending (p : PendingActivation) : Activation :=
  mkActivation (pa_node p) (pa_send_arg p) (pa_task_id p).

Record BarrierArrivals := mkArrivals {
  ba_node : NodeId;
  ba_arrived : list NodeId
}.

Record PendingWrite := mkWrite {
  pw_node : NodeId;
  pw_task_id : string;
  pw_idx : Z;
  pw_channel : string;
  pw_payload : value
}.

#[export] Instance PendingWrite_eq_dec : EqDecision PendingWrite.
Proof. solve_decision. Defined.

Definition WRITES_IDX_RESUME : Z := -1.
Definition WRITES_IDX_ERROR : Z := -2.
Definition WRITES_IDX_INTERRUPT : Z := -3.

Definition write_data (node task : string) (idx : Z) (channel : string) (payload : value)
  : PendingWrite := mkWrite node task idx channel payload.
Definition completion_marker (node task : string) : PendingWrite :=
  mkWrite node task 0 node Null.
Definition is_control_plane (w : PendingWrite) : bool := bool_decide (pw_idx w < 0)%Z.
Definition write_identity (w : PendingWrite) : string * Z := (pw_task_id w, pw_idx w).

Record Checkpoint (State : Type) := mkCheckpoint {
  cp_thread_id : string;
  cp_checkpoint_id : string;
  cp_run_id : option string;
  cp_parent_checkpoint_id : option string;
  cp_namespace : list string;
  cp_state : State;
  cp_next_nodes : list NodeId;
  cp_completed_tasks : list NodeId;
  cp_pending_writes : list PendingWrite;
  cp_interrupts : list Interrupt;
  cp_pending_activations : option (list PendingActivation);
  cp_barrier_arrivals : list BarrierArrivals;
  cp_metadata : value
}.
Arguments mkCheckpoint {State}.
Arguments cp_thread_id {State}.
Arguments cp_checkpoint_id {State}.
Arguments cp_run_id {State}.
Arguments cp_parent_checkpoint_id {State}.
Arguments cp_namespace {State}.
Arguments cp_state {State}.
Arguments cp_next_nodes {State}.
Arguments cp_completed_tasks {State}.
Arguments cp_pending_writes {State}.
Arguments cp_interrupts {State}.
Arguments cp_pending_activations {State}.
Arguments cp_barrier_arrivals {State}.
Arguments cp_metadata {State}.

Record CheckpointMetadata := mkMetadata {
  cm_thread_id : string;
  cm_checkpoint_id : string;
  cm_run_id : option string;
  cm_parent_checkpoint_id : option string;
  cm_namespace : list string;
  cm_next_nodes : list NodeId;
  cm_has_interrupts : bool;
  cm_source : CheckpointSource;
  cm_step : nat
}.

Definition to_metadata {State} (c : Checkpoint State) : CheckpointMetadata :=
  let source := default SrcLoop (get "source" (cp_metadata c) >>? as_str >>? source_parse) in
  let step := Z.to_nat (default 0%Z (get "step" (cp_metadata c) >>? as_u64)) in
  mkMetadata (cp_thread_id c) (cp_checkpoint_id c) (cp_run_id c)
    (cp_parent_checkpoint_id c) (cp_namespace c) (cp_next_nodes c)
    (bool_decide (cp_interrupts c ≠ [])) source step.

Record CheckpointTuple (State : Type) := mkTuple {
  ct_config : CheckpointConfig;
  ct_checkpoint : Checkpoint State;
  ct_parent_config : option CheckpointConfig;
  ct_pending_writes : list PendingWrite
}.
Arguments mkTuple {State}.
Arguments ct_config {State}.
Arguments ct_checkpoint {State}.
Arguments ct_parent_config {State}.
Arguments ct_pending_writes {State}.

(** ** The write ledger *)

(** One iteration of [merge_writes]: the first stored write with the same
    identity is replaced (control plane) or kept (data); otherwise the write is
    appended.  The flag says whether anything was stored. *)
Fixpoint merge_write (existing : list PendingWrite) (w : PendingWrite)
    : list PendingWrite * bool :=
  match existing with
  | [] => ([w], true)
  | x :: rest =>
      if decide (write_identity x = write_identity w) then
        if is_control_plane w then (w :: rest, true) else (x :: rest, false)
      else let '(rest', changed) := merge_write rest w in (x :: rest', changed)
  end.

Fixpoint merge_writes (existing incoming : list PendingWrite) : list PendingWrite * nat :=
  match incoming with
  | [] => (existing, 0)
  | w :: rest =>
      let '(existing', changed) := merge_write existing w in
      let '(final, n) := merge_writes existing' rest in
      (final, if changed then S n else n)
  end.

(** ** The [Checkpointer] trait *)

(** Storage primitives and the methods a backend may override.  Mutating
    methods return the new store beside their result. *)
Record CheckpointerOps (State C : Type) := mkOps {
  ck_put : C → Checkpoint State → C * Result CheckpointId;
  ck_get : C → string → option string → Result (option (Checkpoint State));
  ck_list : C → string → Result (list CheckpointMetadata);
  ck_list_threads : C → Result (list string);
  ck_delete_thread : C → string → C * Result unit;
  ck_delete_checkpoints : C → string → list string → C * Result nat;
  ck_put_writes : C → CheckpointConfig → list PendingWrite → C * Result unit;
  ck_get_writes : C → CheckpointConfig → Result (list PendingWrite);
  ck_get_scoped : C → string → option string → list string → Result (option (Checkpoint State));
  ck_get_thread : C → string → Result (list (Checkpoint State))
}.
Arguments ck_put {State C}.
Arguments ck_get {State C}.
Arguments ck_list {State C}.
Arguments ck_list_threads {State C}.
Arguments ck_delete_thread {State C}.
Arguments ck_delete_checkpoints {State C}.
Arguments ck_put_writes {State C}.
Arguments ck_get_writes {State C}.
Arguments ck_get_scoped {State C}.
Arguments ck_get_thread {State C}.

(** The provided bodies of [get_scoped] and [get_thread]. *)
Section Provided.
Context {State C : Type}.

Definition default_get_scoped
    (get_ : C → string → option string → Result (option (Checkpoint State)))
    (list_ : C → string → Result (list CheckpointMetadata))
    (s : C) (thread : string) (id : option string) (ns : list string)
    : Result (option (Checkpoint State)) :=
  let? metas := list_ s thread in
  let target :=
    cm_checkpoint_id <$>
      rfind (λ m, bool_decide (cm_namespace m = ns) &&
                  match id with
                  | Some i => bool_decide (cm_checkpoint_id m = i)
                  | None => true
                  end) metas in
  match target with
  | Some i => get_ s thread (Some i)
  | None => Ok None
  end.

Fixpoint collect_thread
    (get_ : C → string → option string → Result (option (Checkpoint State)))
    (s : C) (thread : string) (metas : list CheckpointMetadata)
    : Result (list (Checkpoint State)) :=
  match metas with
  | [] => Ok []
  | m :: rest =>
      let? found := get_ s thread (Some (cm_checkpoint_id m)) in
      let? out := collect_thread get_ s thread rest in
      Ok (match found with Some c => c :: out | None => out end)
  end.

Definition default_get_thread
    (get_ : C → string → option string → Result (option (Checkpoint State)))
    (list_ : C → string → Result (list CheckpointMetadata))
    (s : C) (thread : string) : Result (list (Checkpoint State)) :=
  let? metas := list_ s thread in
  collect_thread get_ s thread metas.

Context (ops : CheckpointerOps State C).

Definition resolve_write_target (s : C) (config : CheckpointConfig) : Result (option string) :=
  match cfg_checkpoint_id config with
  | Some id => Ok (Some id)
  | None =>
      let? c := ck_get_scoped ops s (cfg_thread_id config) None (cfg_namespace config) in
      Ok (cp_checkpoint_id <$> c)
  end.

Definition resolved_writes (s : C) (config : CheckpointConfig) (c : Checkpoint State)
    : Result (list PendingWrite) :=
  let? stored := ck_get_writes ops s config in
  Ok (match stored with [] => cp_pending_writes c | _ => stored end).

Definition get_tuple (s : C) (config : CheckpointConfig)
    : Result (option (CheckpointTuple State)) :=
  let? found := ck_get_scoped ops s (cfg_thread_id config) (cfg_checkpoint_id config)
            (cfg_namespace config) in
  match found with
  | None => Ok None
  | Some c =>
      let resolved := mkConfig (cp_thread_id c) (Some (cp_checkpoint_id c)) (cp_namespace c) in
      let parent_config :=
        (λ parent, mkConfig (cp_thread_id c) (Some parent) (cp_namespace c))
          <$> cp_parent_checkpoint_id c in
      let? writes := resolved_writes s resolved c in
      Ok (Some (mkTuple resolved c parent_config writes))
  end.

(** The lineage walk.  The [loop] has no static bound: [fuel] counts its
    iterations and [None] means it ran out. *)
Fixpoint history_walk (fuel : nat) (s : C) (thread : string) (ns : list string)
    (limit : option nat) (cursor : option string) (visited : gset string)
    (out : list (CheckpointTuple State)) : option (Result (list (CheckpointTuple State))) :=
  match fuel with
  | 0 => None
  | S fuel' =>
      if match limit with Some l => bool_decide (l ≤ length out) | None => false end
      then Some (Ok out)
      else
        match get_tuple s (mkConfig thread cursor ns) with
        | Err e => Some (Err e)
        | Ok None => Some (Ok out)
        | Ok (Some t) =>
            let id := cp_checkpoint_id (ct_checkpoint t) in
            if decide (id ∈ visited) then Some (Ok out)
            else
              match cp_parent_checkpoint_id (ct_checkpoint t) with
              | Some parent =>
                  history_walk fuel' s thread ns limit (Some parent) ({[id]} ∪ visited)
                    (out ++ [t])
              | None => Some (Ok (out ++ [t]))
              end
        end
  end.

Definition state_history (fuel : nat) (s : C) (thread : string) (ns : list string)
    (limit : option nat) : option (Result (list (CheckpointTuple State))) :=
  history_walk fuel s thread ns limit None ∅ [].

Definition delete_by_run (s : C) (thread run_id : string) : C * Result nat :=
  match ck_list ops s thread with
  | Err e => (s, Err e)
  | Ok metas =>
      ck_delete_checkpoints ops s thread
        (cm_checkpoint_id <$> filter (λ m, cm_run_id m = Some run_id) metas)
  end.

(** The copy loop of [copy_thread]. *)
Fixpoint copy_checkpoints (s : C) (source target : string) (cps : list (Checkpoint State))
    : C * Result unit :=
  match cps with
  | [] => (s, Ok tt)
  | c :: rest =>
      match ck_get_writes ops s (mkConfig source (Some (cp_checkpoint_id c)) (cp_namespace c)) with
      | Err e => (s, Err e)
      | Ok writes =>
          let c' := mkCheckpoint target (cp_checkpoint_id c) (cp_run_id c)
                      (cp_parent_checkpoint_id c) (cp_namespace c) (cp_state c)
                      (cp_next_nodes c) (cp_completed_tasks c) (cp_pending_writes c)
                      (cp_interrupts c) (cp_pending_activations c) (cp_barrier_arrivals c)
                      (cp_metadata c) in
          match ck_put ops s c' with
          | (s1, Err e) => (s1, Err e)
          | (s1, Ok _) =>
              match writes with
              | [] => copy_checkpoints s1 source target rest
              | _ =>
                  match ck_put_writes ops s1
                          (mkConfig target (Some (cp_checkpoint_id c)) (cp_namespace c)) writes with
                  | (s2, Err e) => (s2, Err e)
                  | (s2, Ok _) => copy_checkpoints s2 source target rest
                  end
              end
          end
      end
  end.

Definition copy_thread_message (target : string) (n : nat) : string :=
  "copy_thread: target thread `" +:+ target +:+ "` already has " +:+ pretty n +:+
  " checkpoint(s); copying would interleave two lineages with reused checkpoint ids. Delete the target first if replacing it is intended.".

Definition copy_thread (s : C) (source target : string) : C * Result unit :=
  match ck_list ops s target with
  | Err e => (s, Err e)
  | Ok (_ :: _ as existing) =>
      (s, Err (CheckpointErr (copy_thread_message target (length existing))))
  | Ok [] =>
      match ck_get_thread ops s source with
      | Err e => (s, Err e)
      | Ok cps => copy_checkpoints s source target cps
      end
  end.

(** *** Pruning *)

(** [parent_of]: the last listed record of an id wins. *)
Definition prune_parents (metas : list CheckpointMetadata) : gmap string (option string) :=
  foldl (λ m c, <[cm_checkpoint_id c := cm_parent_checkpoint_id c]> m) ∅ metas.

Definition prune_groups (metas : list CheckpointMetadata)
    : gmap (list string) (list CheckpointMetadata) :=
  foldl (λ g c, <[cm_namespace c := default [] (g !! cm_namespace c) ++ [c]]> g) ∅ metas.

(** Step 1: the recency window of every namespace. *)
Definition prune_window (metas : list CheckpointMetadata) (keep : nat) : gset string :=
  list_to_set (mbind (λ g : list string * list CheckpointMetadata,
                        cm_checkpoint_id <$> take keep (reverse g.2))
                (map_to_list (prune_groups metas))).

(** Step 2: protect the chain of ancestors starting at [cursor]. *)
Fixpoint protect_chain (fuel : nat) (parents : gmap string (option string))
    (cursor : option string) (protected : gset string) : gset string :=
  match fuel, cursor with
  | S fuel', Some parent =>
      if decide (parent ∈ protected) then protected
      else protect_chain fuel' parents (mjoin (parents !! parent)) ({[parent]} ∪ protected)
  | _, _ => protected
  end.

Definition prune_protected (metas : list CheckpointMetadata) (keep : nat) : gset string :=
  let parents := prune_parents metas in
  let window := prune_window metas keep in
  foldl (λ protected start,
           protect_chain (S (S (size parents))) parents (mjoin (parents !! start)) protected)
    window (elements window).

Definition prune (s : C) (thread : string) (keep_last : nat) : C * Result nat :=
  match ck_list ops s thread with
  | Err e => (s, Err e)
  | Ok [] => (s, Ok 0)
  | Ok metas =>
      let protected := prune_protected metas (keep_last `max` 1) in
      ck_delete_checkpoints ops s thread
        (filter (λ id, id ∉ protected) (cm_checkpoint_id <$> metas))
  end.

End Provided.

(** ** The in-memory backend *)

Notation WriteKey := (string * list string * string)%type (only parsing).

Record MemStore (State : Type) := mkMem {
  mem_inner : gmap string (list (Checkpoint State));
  mem_writes : gmap WriteKey (list PendingWrite)
}.
Arguments mkMem {State}.
Arguments mem_inner {State}.
Arguments mem_writes {State}.

Section InMemory.
Context {State : Type}.
Implicit Types (s : MemStore State) (thread : string).

Definition mem_new : MemStore State := mkMem ∅ ∅.
Definition mem_thread s thread : list (Checkpoint State) :=
  default [] (mem_inner s !! thread).
Definition mem_count s thread : nat := length (mem_thread s thread).

Definition mem_put s (c : Checkpoint State) : MemStore State * Result CheckpointId :=
  (mkMem (<[cp_thread_id c := mem_thread s (cp_thread_id c) ++ [c]]> (mem_inner s)) (mem_writes s),
   Ok (cp_checkpoint_id c)).

Definition mem_get s thread (id : option string) : Result (option (Checkpoint State)) :=
  match mem_inner s !! thread with
  | None => Ok None
  | Some l =>
      Ok (match id with
          | Some i => rfind (λ c, bool_decide (cp_checkpoint_id c = i)) l
          | None => last l
          end)
  end.

Definition mem_list s thread : Result (list CheckpointMetadata) :=
  Ok (to_metadata <$> mem_thread s thread).

Definition mem_get_thread s thread : Result (list (Checkpoint State)) :=
  Ok (mem_thread s thread).

Definition mem_list_threads s : Result (list string) :=
  Ok ((filter (λ kv : string * list (Checkpoint State), kv.2 ≠ []) (map_to_list (mem_inner s))).*1).

Definition mem_delete_thread s thread : MemStore State * Result unit :=
  (mkMem (delete thread (mem_inner s))
         (filter (λ kv : WriteKey * list PendingWrite, kv.1.1.1 ≠ thread) (mem_writes s)),
   Ok tt).

Definition drop_writes_for (writes : gmap WriteKey (list PendingWrite)) thread (ids : list string)
    : gmap WriteKey (list PendingWrite) :=
  filter (λ kv : WriteKey * list PendingWrite, ¬ (kv.1.1.1 = thread ∧ kv.1.2 ∈ ids)) writes.

Definition mem_delete_checkpoints s thread (ids : list string) : MemStore State * Result nat :=
  match ids with
  | [] => (s, Ok 0)
  | _ =>
      match mem_inner s !! thread with
      | None => (s, Ok 0)
      | Some l =>
          let l' := filter (λ c, cp_checkpoint_id c ∉ ids) l in
          (mkMem (<[thread := l']> (mem_inner s)) (drop_writes_for (mem_writes s) thread ids),
           Ok (length l - length l'))
      end
  end.

Definition require_checkpoint_id (config : CheckpointConfig) : Result string :=
  ok_or (cfg_checkpoint_id config)
    (CheckpointErr ("put_writes requires an explicit checkpoint_id (thread `" +:+
                    cfg_thread_id config +:+ "`)")).

Definition mem_put_writes s (config : CheckpointConfig) (writes : list PendingWrite)
    : MemStore State * Result unit :=
  match require_checkpoint_id config with
  | Err e => (s, Err e)
  | Ok id =>
      match writes with
      | [] => (s, Ok tt)
      | _ =>
          let key := (cfg_thread_id config, cfg_namespace config, id) in
          let slot := default [] (mem_writes s !! key) in
          (mkMem (mem_inner s) (<[key := (merge_writes slot writes).1]> (mem_writes s)), Ok tt)
      end
  end.

Definition mem_get_scoped : MemStore State → string → option string → list string →
    Result (option (Checkpoint State)) := default_get_scoped mem_get mem_list.

Definition mem_get_writes s (config : CheckpointConfig) : Result (list PendingWrite) :=
  let? target :=
    match cfg_checkpoint_id config with
    | Some id => Ok (Some id)
    | None =>
        let? c := mem_get_scoped s (cfg_thread_id config) None (cfg_namespace config) in
        Ok (cp_checkpoint_id <$> c)
    end in
  match target with
  | None => Ok []
  | Some id => Ok (default [] (mem_writes s !! (cfg_thread_id config, cfg_namespace config, id)))
  end.

Definition mem_ops : CheckpointerOps State (MemStore State) :=
  mkOps State (MemStore State) mem_put mem_get mem_list mem_list_threads mem_delete_thread
    mem_delete_checkpoints mem_put_writes mem_get_writes mem_get_scoped mem_get_thread.

End InMemory.

(** * Properties of checkpointers

    The write ledger, the contract a backend owes its clients
    ([LawfulCheckpointer], discharged by the in-memory backend), the lineage
    walk, pruning and thread copies. *)

(** ** The write ledger *)

(** Within a checkpoint the [(task_id, idx)] pair is unique. *)
Definition ledger_wf (l : list PendingWrite) : Prop := NoDup (write_identity <$> l).

(** The write stored under an identity. *)
Definition ledger_find (k : string * Z) (l : list PendingWrite) : option PendingWrite :=
  find_first (λ w, bool_decide (write_identity w = k)) l.

Lemma ledger_find_cons k w l :
  ledger_find k (w :: l) = if decide (write_identity w = k) then Some w else ledger_find k l.
Proof.
  unfold ledger_find, find_first. rewrite filter_cons.
  destruct (decide (write_identity w = k)) as [E|E].
  - rewrite bool_decide_eq_true_2 by done. by rewrite decide_True.
  - rewrite bool_decide_eq_false_2 by done. by rewrite decide_False by (intros []).
Qed.

(** What one merge stores under every identity. *)
Lemma merge_write_find l w k :
  ledger_find k (merge_write l w).1 =
    if decide (write_identity w = k) then
      match ledger_find k l with
      | Some x => if is_control_plane w then Some w else Some x
      | None => Some w
      end
    else ledger_find k l.
Proof.
  induction l as [|x l IH]; cbn [merge_write].
  - cbn [fst]. rewrite ledger_find_cons. by case_decide.
  - destruct (decide (write_identity x = write_identity w)) as [E|E].
    + destruct (is_control_plane w) eqn:Ec; cbn [fst]; rewrite !ledger_find_cons, ?E;
        by case_decide.
    + destruct (merge_write l w) as [l' c] eqn:Em. cbn [fst] in *.
      rewrite !ledger_find_cons, IH.
      repeat case_decide; congruence.
Qed.

Lemma merge_write_identities l w :
  write_identity <$> (merge_write l w).1 =
    (write_identity <$> l) ++
      (if decide (write_identity w ∈ write_identity <$> l) then [] else [write_identity w]).
Proof.
  induction l as [|x l IH]; cbn [merge_write]; [done|].
  rewrite fmap_cons.
  destruct (decide (write_identity x = write_identity w)) as [E|E].
  - rewrite decide_True by (rewrite E; left).
    rewrite app_nil_r. destruct (is_control_plane w); cbn; by rewrite ?E.
  - destruct (merge_write l w) as [l' c]. cbn [fst] in *. rewrite fmap_cons, IH. cbn.
    destruct (decide (write_identity w ∈ write_identity <$> l)) as [Hi|Hi].
    + by rewrite decide_True by (by right).
    + rewrite decide_False; [done|]. intros [?|?]%elem_of_cons; congruence.
Qed.

Lemma merge_write_wf l w : ledger_wf l → ledger_wf (merge_write l w).1.
Proof.
  unfold ledger_wf. rewrite merge_write_identities. intros H. case_decide as Hin.
  - by rewrite app_nil_r.
  - apply NoDup_app. split_and!; [done| |apply NoDup_singleton].
    intros x Hx ->%list_elem_of_singleton. done.
Qed.

(** Merging never reorders or drops stored identities, and keeps them unique. *)
Lemma merge_writes_wf l ws : ledger_wf l → ledger_wf (merge_writes l ws).1.
Proof.
  revert l. induction ws as [|w ws IH]; intros l Hl; [done|].
  cbn. destruct (merge_write l w) as [l' c] eqn:E.
  destruct (merge_writes l' ws) as [l'' n] eqn:E'. cbn.
  specialize (IH l'). rewrite E' in IH. cbn in IH. apply IH.
  pose proof (merge_write_wf l w Hl) as H. by rewrite E in H.
Qed.

Lemma merge_writes_cons l w ws :
  (merge_writes l (w :: ws)).1 = (merge_writes (merge_write l w).1 ws).1.
Proof. cbn. destruct (merge_write l w). by destruct (merge_writes _ ws). Qed.

(** A merged-in write is found again: the stored data write if there was one,
    the incoming write otherwise. *)
Lemma merge_writes_data_stable l ws k x :
  ledger_find k l = Some x → (0 ≤ k.2)%Z →
  ledger_find k (merge_writes l ws).1 = Some x.
Proof.
  revert l. induction ws as [|w ws IH]; intros l Hx Hk; [done|].
  rewrite merge_writes_cons. apply IH; [|done].
  rewrite merge_write_find. case_decide as E; [|done].
  rewrite Hx. destruct (is_control_plane w) eqn:Ec; [|done].
  unfold is_control_plane in Ec. apply bool_decide_eq_true in Ec.
  rewrite <- E in Hk. cbn in Hk. lia.
Qed.

(** The value merging leaves under identity [k], as a fold over the batch. *)
Definition pick (k : string * Z) (cur : option PendingWrite) (w : PendingWrite)
    : option PendingWrite :=
  if decide (write_identity w = k) then
    match cur with
    | Some x => if is_control_plane w then Some w else Some x
    | None => Some w
    end
  else cur.

Lemma merge_writes_find l ws k :
  ledger_find k (merge_writes l ws).1 = foldl (pick k) (ledger_find k l) ws.
Proof.
  revert l. induction ws as [|w ws IH]; intros l; [done|].
  rewrite merge_writes_cons, IH. cbn. by rewrite merge_write_find.
Qed.

Lemma pick_idem k ws : ∀ c, foldl (pick k) (foldl (pick k) c ws) ws = foldl (pick k) c ws.
Proof.
  destruct (decide (k.2 < 0)%Z) as [Hk|Hk].
  - assert (Hf : ∀ c w, pick k c w = if decide (write_identity w = k) then Some w else c).
    { intros c w. unfold pick, is_control_plane. case_decide as E; [|done].
      rewrite bool_decide_eq_true_2 by (rewrite <- E in Hk; done). by destruct c. }
    induction ws as [|w ws IH] using rev_ind; intros c; [done|].
    rewrite !foldl_app. cbn. rewrite !Hf. case_decide; [done|]. apply IH.
  - assert (Hs : ∀ ws' x, foldl (pick k) (Some x) ws' = Some x).
    { induction ws' as [|w ws' IH]; intros x; [done|]. cbn. unfold pick at 2, is_control_plane.
      case_decide as E; [|done]. rewrite bool_decide_eq_false_2 by (rewrite <- E in Hk; done).
      apply IH. }
    intros c. destruct (foldl (pick k) c ws) eqn:E; [apply Hs|].
    by destruct c; [rewrite Hs in E|].
Qed.

Lemma merge_writes_identities l ws :
  (∀ w, w ∈ ws → write_identity w ∈ (write_identity <$> l)) →
  write_identity <$> (merge_writes l ws).1 = write_identity <$> l.
Proof.
  revert l. induction ws as [|w ws IH]; intros l H; [done|].
  assert (E : write_identity <$> (merge_write l w).1 = write_identity <$> l).
  { rewrite merge_write_identities, decide_True by (apply H; left). by rewrite app_nil_r. }
  rewrite merge_writes_cons, IH; [done|]. intros v Hv. rewrite E. apply H. by right.
Qed.

Lemma ledger_find_elem k l : is_Some (ledger_find k l) ↔ k ∈ (write_identity <$> l).
Proof.
  induction l as [|w l IH]; [by cbn; rewrite elem_of_nil; split; [intros []|]|].
  rewrite ledger_find_cons, fmap_cons, elem_of_cons, <- IH. case_decide; naive_solver.
Qed.

(** A ledger is determined by its identities and what it stores under them. *)
Lemma ledger_ext l1 l2 :
  ledger_wf l1 → write_identity <$> l1 = write_identity <$> l2 →
  (∀ k, ledger_find k l1 = ledger_find k l2) → l1 = l2.
Proof.
  revert l2. induction l1 as [|w l1 IH]; intros [|v l2] Hwf Hid Hf; try done.
  unfold ledger_wf in Hwf. rewrite fmap_cons, NoDup_cons in Hwf. destruct Hwf as [Hn Hwf].
  rewrite !fmap_cons in Hid. apply (inj2 cons) in Hid as [Hw Hid].
  pose proof (Hf (write_identity w)) as Hh. rewrite !ledger_find_cons in Hh.
  rewrite decide_True, decide_True in Hh by done. injection Hh as ->.
  f_equal. apply IH; [done|done|]. intros k. specialize (Hf k). rewrite !ledger_find_cons in Hf.
  case_decide as E; [|done]. subst.
  assert (∀ l, write_identity v ∉ (write_identity <$> l) → ledger_find (write_identity v) l = None)
    as Hnone.
  { intros l Hl. apply eq_None_not_Some. by rewrite ledger_find_elem. }
  by rewrite !Hnone by congruence.
Qed.

Lemma merge_writes_present l ws w :
  w ∈ ws → write_identity w ∈ (write_identity <$> (merge_writes l ws).1).
Proof.
  intros Hw. apply ledger_find_elem. rewrite merge_writes_find. revert Hw.
  induction ws as [|v ws IH] using rev_ind; [by intros ?%elem_of_nil|].
  rewrite foldl_app. cbn. intros [Hw|Hw%list_elem_of_singleton]%elem_of_app.
  - destruct (IH Hw) as [x ->]. unfold pick. repeat case_match; eauto.
  - subst. unfold pick. rewrite decide_True by done. repeat case_match; eauto.
Qed.

(** A retried [put_writes] is idempotent: merging the same batch twice leaves
    the ledger the first merge produced. *)
Lemma merge_writes_idem l ws :
  ledger_wf l → (merge_writes (merge_writes l ws).1 ws).1 = (merge_writes l ws).1.
Proof.
  intros Hl. apply ledger_ext.
  - by apply merge_writes_wf, merge_writes_wf.
  - apply merge_writes_identities. intros w. apply merge_writes_present.
  - intros k. by rewrite !merge_writes_find, pick_idem.
Qed.

(** ** The contract of a checkpointer *)

(** What the executor and the state-inspection API rely on.  Stated on the
    storage primitives, so a durable backend can discharge it as the in-memory
    one does below. *)
Class LawfulCheckpointer {State C : Type} (ops : CheckpointerOps State C) : Prop := {
  (** [put] reports the id of the record it stored ... *)
  law_put_id : ∀ s c s' id, ck_put ops s c = (s', Ok id) → id = cp_checkpoint_id c;
  (** ... which becomes the latest of its thread and namespace ... *)
  law_put_latest : ∀ s c s' id, ck_put ops s c = (s', Ok id) →
    ck_get_scoped ops s' (cp_thread_id c) None (cp_namespace c) = Ok (Some c);
  (** ... and can be addressed by its id. *)
  law_put_get : ∀ s c s' id, ck_put ops s c = (s', Ok id) →
    ck_get_scoped ops s' (cp_thread_id c) (Some (cp_checkpoint_id c)) (cp_namespace c)
      = Ok (Some c);
  (** A [put] leaves other threads and every write ledger alone. *)
  law_put_other : ∀ s c s' id t i ns, ck_put ops s c = (s', Ok id) → t ≠ cp_thread_id c →
    ck_get_scoped ops s' t i ns = ck_get_scoped ops s t i ns;
  law_put_ledger : ∀ s c s' id cfg, ck_put ops s c = (s', Ok id) →
    is_Some (cfg_checkpoint_id cfg) → ck_get_writes ops s' cfg = ck_get_writes ops s cfg;
  (** [put_writes] merges into the addressed ledger and touches no record. *)
  law_writes_merge : ∀ s cfg ws s' old, is_Some (cfg_checkpoint_id cfg) →
    ck_get_writes ops s cfg = Ok old → ck_put_writes ops s cfg ws = (s', Ok tt) →
    ck_get_writes ops s' cfg = Ok (merge_writes old ws).1;
  law_writes_records : ∀ s cfg ws s' t i ns, ck_put_writes ops s cfg ws = (s', Ok tt) →
    ck_get_scoped ops s' t i ns = ck_get_scoped ops s t i ns
}.

Section InMemoryFacts.
Context {State : Type}.
Implicit Types (s : MemStore State) (c : Checkpoint State).

Lemma mem_get_eq s t id :
  mem_get s t id =
    Ok (match id with
        | Some i => rfind (λ c, bool_decide (cp_checkpoint_id c = i)) (mem_thread s t)
        | None => last (mem_thread s t)
        end).
Proof. unfold mem_get, mem_thread. destruct (mem_inner s !! t), id; done. Qed.

(** The filter [get_scoped] looks a thread through. *)
Definition scoped_match (id : option string) (ns : list string) (c : Checkpoint State) : bool :=
  bool_decide (cp_namespace c = ns) &&
  match id with Some i => bool_decide (cp_checkpoint_id c = i) | None => true end.

Lemma mem_get_scoped_eq s t id ns :
  mem_get_scoped s t id ns =
    Ok (rfind (scoped_match id ns) (mem_thread s t) >>? λ c,
        rfind (λ c', bool_decide (cp_checkpoint_id c' = cp_checkpoint_id c)) (mem_thread s t)).
Proof.
  unfold mem_get_scoped, default_get_scoped, mem_list. cbn [rbind].
  rewrite rfind_fmap. unfold scoped_match. cbn.
  destruct (rfind _ (mem_thread s t)) as [c|]; cbn; [|done]. by rewrite mem_get_eq.
Qed.

Lemma mem_thread_put s c s' r t :
  mem_put s c = (s', r) →
  mem_thread s' t = mem_thread s t ++ (if decide (t = cp_thread_id c) then [c] else []).
Proof.
  unfold mem_put, mem_thread. intros; inv_ok. cbn. rewrite lookup_insert.
  case_decide; case_decide; subst; cbn; rewrite ?app_nil_r; congruence || done.
Qed.

Lemma mem_writes_records s cfg ws s' r :
  mem_put_writes s cfg ws = (s', r) → mem_inner s' = mem_inner s.
Proof.
  unfold mem_put_writes. destruct (require_checkpoint_id cfg); [destruct ws|]; intros; inv_ok; done.
Qed.

#[export] Instance mem_lawful : LawfulCheckpointer (@mem_ops State).
Proof.
  split; cbn [mem_ops ck_put ck_get_scoped ck_get_writes ck_put_writes].
  - intros s c s' id H. unfold mem_put in H. by inv_ok.
  - intros s c s' id H. pose proof (mem_thread_put _ _ _ _ (cp_thread_id c) H) as Ht.
    rewrite decide_True in Ht by done. rewrite mem_get_scoped_eq, Ht, !rfind_snoc.
    unfold scoped_match. rewrite bool_decide_eq_true_2 by done. cbn.
    by rewrite rfind_snoc, bool_decide_eq_true_2.
  - intros s c s' id H. pose proof (mem_thread_put _ _ _ _ (cp_thread_id c) H) as Ht.
    rewrite decide_True in Ht by done. rewrite mem_get_scoped_eq, Ht, !rfind_snoc.
    unfold scoped_match. rewrite !bool_decide_eq_true_2 by done. cbn.
    by rewrite rfind_snoc, bool_decide_eq_true_2.
  - intros s c s' id t i ns H Hne. pose proof (mem_thread_put _ _ _ _ t H) as Ht.
    rewrite decide_False, app_nil_r in Ht by done. by rewrite !mem_get_scoped_eq, Ht.
  - intros s c s' id cfg H [i Hi]. unfold mem_put in H. inv_ok.
    unfold mem_get_writes. rewrite Hi. done.
  - intros s cfg ws s' old [i Hi] Hold H. unfold mem_put_writes, require_checkpoint_id in H.
    unfold mem_get_writes in *. rewrite Hi in *. cbn in *.
    destruct ws as [|w ws]; inv_ok; [done|]. cbn. by rewrite lookup_insert_eq.
  - intros s cfg ws s' t i ns H. apply mem_writes_records in H.
    rewrite !mem_get_scoped_eq. unfold mem_thread. by rewrite H.
Qed.

(** With unique ids inside a thread, [get_scoped] is the search it says. *)
Definition thread_wf s t : Prop := NoDup (cp_checkpoint_id <$> mem_thread s t).

Lemma mem_get_scoped_unique s t id ns :
  thread_wf s t → mem_get_scoped s t id ns = Ok (rfind (scoped_match id ns) (mem_thread s t)).
Proof.
  intros Hwf. rewrite mem_get_scoped_eq. f_equal.
  destruct (rfind (scoped_match id ns) _) as [c|] eqn:E; cbn; [|done].
  apply rfind_Some in E as [Hc _]. by apply (rfind_unique cp_checkpoint_id).
Qed.
End InMemoryFacts.
