(* ===== verification/Builder.v ===== *)
(** * Graph builder and compiled graph

    [crates/tinyflows/src/graph/builder/implementation.rs] and the
    [CompiledGraph] of [graph/compiled/].  Every builder method is a function
    from builder to builder; [compile] validates the topology.  A [HashMap] or
    [HashSet] is a [gmap] or [gset]; where the Rust code iterates over one, the
    order is that of [map_to_list]/[elements], so only order-independent facts
    are stated about such loops. *)

From S2P Require Import Prelude Json GraphTypes Checkpoint.

(** [StateReducer::apply]. *)
Definition StateReducer (State Update : Type) : Type := State → Update → Result State.

Record GraphBuilder (State Update : Type) := mkBuilder {
  gb_graph_id : GraphId;
  gb_name : option string;
  gb_nodes : gmap NodeId (BuilderNode State Update);
  gb_edges : gmap NodeId NodeId;
  gb_branches : gmap NodeId (Branch State);
  gb_command_nodes : gset NodeId;
  gb_waiting : gmap NodeId (gset NodeId);
  gb_barrier_reliefs : list BarrierRelief;
  gb_reducer : option (StateReducer State Update);
  gb_recursion_limit : nat;
  gb_parallel : bool;
  gb_max_concurrency : option nat;
  gb_node_concurrency : gmap NodeId nat;
  gb_node_timeout : option N;
  gb_node_meta : gmap NodeId NodeMeta
}.
Arguments gb_graph_id {State Update}.
Arguments gb_name {State Update}.
Arguments gb_nodes {State Update}.
Arguments gb_edges {State Update}.
Arguments gb_branches {State Update}.
Arguments gb_command_nodes {State Update}.
Arguments gb_waiting {State Update}.
Arguments gb_barrier_reliefs {State Update}.
Arguments gb_reducer {State Update}.
Arguments gb_recursion_limit {State Update}.
Arguments gb_parallel {State Update}.
Arguments gb_max_concurrency {State Update}.
Arguments gb_node_concurrency {State Update}.
Arguments gb_node_timeout {State Update}.
Arguments gb_node_meta {State Update}.
Arguments mkBuilder {State Update}.

(** The sinks and stores of the Rust struct ([event_sink], [journal],
    [status_store]) are flags: what is written to them is recorded in the
    executor's world.  The checkpointer is its record of operations. *)
Record CompiledGraph (State Update C : Type) := mkCompiled {
  cg_graph_id : GraphId;
  cg_name : option string;
  cg_nodes : gmap NodeId (BuilderNode State Update);
  cg_edges : gmap NodeId NodeId;
  cg_branches : gmap NodeId (Branch State);
  cg_command_nodes : gset NodeId;
  cg_waiting : gmap NodeId (gset NodeId);
  cg_barrier_reliefs : list BarrierRelief;
  cg_node_meta : gmap NodeId NodeMeta;
  cg_entry : NodeId;
  cg_reducer : StateReducer State Update;
  cg_recursion_limit : nat;
  cg_recursion_policy : RecursionPolicy;
  cg_recursion_frames : list RecursionFrame;
  cg_recursion_node : option NodeId;
  cg_checkpointer : option (CheckpointerOps State C);
  cg_event_sink : bool;
  cg_journal : bool;
  cg_status_store : bool;
  cg_namespace : list string;
  cg_parallel : bool;
  cg_max_concurrency : option nat;
  cg_node_concurrency : gmap NodeId nat;
  cg_node_timeout : option N;
  cg_run_deadline : option N;
  cg_durability : DurabilityMode
}.
Arguments cg_graph_id {State Update C}.
Arguments cg_name {State Update C}.
Arguments cg_nodes {State Update C}.
Arguments cg_edges {State Update C}.
Arguments cg_branches {State Update C}.
Arguments cg_command_nodes {State Update C}.
Arguments cg_waiting {State Update C}.
Arguments cg_barrier_reliefs {State Update C}.
Arguments cg_node_meta {State Update C}.
Arguments cg_entry {State Update C}.
Arguments cg_reducer {State Update C}.
Arguments cg_recursion_limit {State Update C}.
Arguments cg_recursion_policy {State Update C}.
Arguments cg_recursion_frames {State Update C}.
Arguments cg_recursion_node {State Update C}.
Arguments cg_checkpointer {State Update C}.
Arguments cg_event_sink {State Update C}.
Arguments cg_journal {State Update C}.
Arguments cg_status_store {State Update C}.
Arguments cg_namespace {State Update C}.
Arguments cg_parallel {State Update C}.
Arguments cg_max_concurrency {State Update C}.
Arguments cg_node_concurrency {State Update C}.
Arguments cg_node_timeout {State Update C}.
Arguments cg_run_deadline {State Update C}.
Arguments cg_durability {State Update C}.
Arguments mkCompiled {State Update C}.

(** ** Field updates *)

Section Fields.
Context {State Update C : Type}.
Definition set_gb_graph_id (x : GraphId) (b : GraphBuilder State Update) : GraphBuilder State
    Update :=
  mkBuilder x (gb_name b) (gb_nodes b) (gb_edges b) (gb_branches b) (gb_command_nodes b)
    (gb_waiting b) (gb_barrier_reliefs b) (gb_reducer b) (gb_recursion_limit b) (gb_parallel b)
    (gb_max_concurrency b) (gb_node_concurrency b) (gb_node_timeout b) (gb_node_meta b).
Definition set_gb_name (x : option string) (b : GraphBuilder State Update) : GraphBuilder State
    Update :=
  mkBuilder (gb_graph_id b) x (gb_nodes b) (gb_edges b) (gb_branches b) (gb_command_nodes b)
    (gb_waiting b) (gb_barrier_reliefs b) (gb_reducer b) (gb_recursion_limit b) (gb_parallel b)
    (gb_max_concurrency b) (gb_node_concurrency b) (gb_node_timeout b) (gb_node_meta b).
Definition set_gb_nodes (x : gmap NodeId (BuilderNode State Update)) (b : GraphBuilder State
    Update) : GraphBuilder State Update :=
  mkBuilder (gb_graph_id b) (gb_name b) x (gb_edges b) (gb_branches b) (gb_command_nodes b)
    (gb_waiting b) (gb_barrier_reliefs b) (gb_reducer b) (gb_recursion_limit b) (gb_parallel b)
    (gb_max_concurrency b) (gb_node_concurrency b) (gb_node_timeout b) (gb_node_meta b).
Definition set_gb_edges (x : gmap NodeId NodeId) (b : GraphBuilder State Update) : GraphBuilder
    State Update :=
  mkBuilder (gb_graph_id b) (gb_name b) (gb_nodes b) x (gb_branches b) (gb_command_nodes b)
    (gb_waiting b) (gb_barrier_reliefs b) (gb_reducer b) (gb_recursion_limit b) (gb_parallel b)
    (gb_max_concurrency b) (gb_node_concurrency b) (gb_node_timeout b) (gb_node_meta b).
Definition set_gb_branches (x : gmap NodeId (Branch State)) (b : GraphBuilder State Update) :
    GraphBuilder State Update :=
  mkBuilder (gb_graph_id b) (gb_name b) (gb_nodes b) (gb_edges b) x (gb_command_nodes b)
    (gb_waiting b) (gb_barrier_reliefs b) (gb_reducer b) (gb_recursion_limit b) (gb_parallel b)
    (gb_max_concurrency b) (gb_node_concurrency b) (gb_node_timeout b) (gb_node_meta b).
Definition set_gb_command_nodes (x : gset NodeId) (b : GraphBuilder State Update) : GraphBuilder
    State Update :=
  mkBuilder (gb_graph_id b) (gb_name b) (gb_nodes b) (gb_edges b) (gb_branches b) x (gb_waiting b)
    (gb_barrier_reliefs b) (gb_reducer b) (gb_recursion_limit b) (gb_parallel b)
    (gb_max_concurrency b) (gb_node_concurrency b) (gb_node_timeout b) (gb_node_meta b).
Definition set_gb_waiting (x : gmap NodeId (gset NodeId)) (b : GraphBuilder State Update) :
    GraphBuilder State Update :=
  mkBuilder (gb_graph_id b) (gb_name b) (gb_nodes b) (gb_edges b) (gb_branches b)
    (gb_command_nodes b) x (gb_barrier_reliefs b) (gb_reducer b) (gb_recursion_limit b)
    (gb_parallel b) (gb_max_concurrency b) (gb_node_concurrency b) (gb_node_timeout b)
    (gb_node_meta b).
Definition set_gb_barrier_reliefs (x : list BarrierRelief) (b : GraphBuilder State Update) :
    GraphBuilder State Update :=
  mkBuilder (gb_graph_id b) (gb_name b) (gb_nodes b) (gb_edges b) (gb_branches b)
    (gb_command_nodes b) (gb_waiting b) x (gb_reducer b) (gb_recursion_limit b) (gb_parallel b)
    (gb_max_concurrency b) (gb_node_concurrency b) (gb_node_timeout b) (gb_node_meta b).
Definition set_gb_reducer (x : option (StateReducer State Update)) (b : GraphBuilder State Update)
    : GraphBuilder State Update :=
  mkBuilder (gb_graph_id b) (gb_name b) (gb_nodes b) (gb_edges b) (gb_branches b)
    (gb_command_nodes b) (gb_waiting b) (gb_barrier_reliefs b) x (gb_recursion_limit b)
    (gb_parallel b) (gb_max_concurrency b) (gb_node_concurrency b) (gb_node_timeout b)
    (gb_node_meta b).
Definition set_gb_recursion_limit (x : nat) (b : GraphBuilder State Update) : GraphBuilder State
    Update :=
  mkBuilder (gb_graph_id b) (gb_name b) (gb_nodes b) (gb_edges b) (gb_branches b)
    (gb_command_nodes b) (gb_waiting b) (gb_barrier_reliefs b) (gb_reducer b) x (gb_parallel b)
    (gb_max_concurrency b) (gb_node_concurrency b) (gb_node_timeout b) (gb_node_meta b).
Definition set_gb_parallel (x : bool) (b : GraphBuilder State Update) : GraphBuilder State Update
    :=
  mkBuilder (gb_graph_id b) (gb_name b) (gb_nodes b) (gb_edges b) (gb_branches b)
    (gb_command_nodes b) (gb_waiting b) (gb_barrier_reliefs b) (gb_reducer b) (gb_recursion_limit
    b) x (gb_max_concurrency b) (gb_node_concurrency b) (gb_node_timeout b) (gb_node_meta b).
Definition set_gb_max_concurrency (x : option nat) (b : GraphBuilder State Update) : GraphBuilder
    State Update :=
  mkBuilder (gb_graph_id b) (gb_name b) (gb_nodes b) (gb_edges b) (gb_branches b)
    (gb_command_nodes b) (gb_waiting b) (gb_barrier_reliefs b) (gb_reducer b) (gb_recursion_limit
    b) (gb_parallel b) x (gb_node_concurrency b) (gb_node_timeout b) (gb_node_meta b).
Definition set_gb_node_concurrency (x : gmap NodeId nat) (b : GraphBuilder State Update) :
    GraphBuilder State Update :=
  mkBuilder (gb_graph_id b) (gb_name b) (gb_nodes b) (gb_edges b) (gb_branches b)
    (gb_command_nodes b) (gb_waiting b) (gb_barrier_reliefs b) (gb_reducer b) (gb_recursion_limit
    b) (gb_parallel b) (gb_max_concurrency b) x (gb_node_timeout b) (gb_node_meta b).
Definition set_gb_node_timeout (x : option N) (b : GraphBuilder State Update) : GraphBuilder State
    Update :=
  mkBuilder (gb_graph_id b) (gb_name b) (gb_nodes b) (gb_edges b) (gb_branches b)
    (gb_command_nodes b) (gb_waiting b) (gb_barrier_reliefs b) (gb_reducer b) (gb_recursion_limit
    b) (gb_parallel b) (gb_max_concurrency b) (gb_node_concurrency b) x (gb_node_meta b).
Definition set_gb_node_meta (x : gmap NodeId NodeMeta) (b : GraphBuilder State Update) :
    GraphBuilder State Update :=
  mkBuilder (gb_graph_id b) (gb_name b) (gb_nodes b) (gb_edges b) (gb_branches b)
    (gb_command_nodes b) (gb_waiting b) (gb_barrier_reliefs b) (gb_reducer b) (gb_recursion_limit
    b) (gb_parallel b) (gb_max_concurrency b) (gb_node_concurrency b) (gb_node_timeout b) x.

Definition set_cg_recursion_policy (x : RecursionPolicy) (b : CompiledGraph State Update C)
  : CompiledGraph State Update C :=
  mkCompiled (cg_graph_id b) (cg_name b) (cg_nodes b) (cg_edges b) (cg_branches b)
    (cg_command_nodes b) (cg_waiting b) (cg_barrier_reliefs b) (cg_node_meta b) (cg_entry b)
    (cg_reducer b) (cg_recursion_limit b) x (cg_recursion_frames b) (cg_recursion_node b)
    (cg_checkpointer b) (cg_event_sink b) (cg_journal b) (cg_status_store b) (cg_namespace b)
    (cg_parallel b) (cg_max_concurrency b) (cg_node_concurrency b) (cg_node_timeout b)
    (cg_run_deadline b) (cg_durability b).
Definition set_cg_recursion_frames (x : list RecursionFrame) (b : CompiledGraph State Update C)
  : CompiledGraph State Update C :=
  mkCompiled (cg_graph_id b) (cg_name b) (cg_nodes b) (cg_edges b) (cg_branches b)
    (cg_command_nodes b) (cg_waiting b) (cg_barrier_reliefs b) (cg_node_meta b) (cg_entry b)
    (cg_reducer b) (cg_recursion_limit b) (cg_recursion_policy b) x (cg_recursion_node b)
    (cg_checkpointer b) (cg_event_sink b) (cg_journal b) (cg_status_store b) (cg_namespace b)
    (cg_parallel b) (cg_max_concurrency b) (cg_node_concurrency b) (cg_node_timeout b)
    (cg_run_deadline b) (cg_durability b).
Definition set_cg_recursion_node (x : option NodeId) (b : CompiledGraph State Update C)
  : CompiledGraph State Update C :=
  mkCompiled (cg_graph_id b) (cg_name b) (cg_nodes b) (cg_edges b) (cg_branches b)
    (cg_command_nodes b) (cg_waiting b) (cg_barrier_reliefs b) (cg_node_meta b) (cg_entry b)
    (cg_reducer b) (cg_recursion_limit b) (cg_recursion_policy b) (cg_recursion_frames b) x
    (cg_checkpointer b) (cg_event_sink b) (cg_journal b) (cg_status_store b) (cg_namespace b)
    (cg_parallel b) (cg_max_concurrency b) (cg_node_concurrency b) (cg_node_timeout b)
    (cg_run_deadline b) (cg_durability b).
Definition set_cg_checkpointer (x : option (CheckpointerOps State C)) (b : CompiledGraph State
    Update C)
  : CompiledGraph State Update C :=
  mkCompiled (cg_graph_id b) (cg_name b) (cg_nodes b) (cg_edges b) (cg_branches b)
    (cg_command_nodes b) (cg_waiting b) (cg_barrier_reliefs b) (cg_node_meta b) (cg_entry b)
    (cg_reducer b) (cg_recursion_limit b) (cg_recursion_policy b) (cg_recursion_frames b)
    (cg_recursion_node b) x (cg_event_sink b) (cg_journal b) (cg_status_store b) (cg_namespace b)
    (cg_parallel b) (cg_max_concurrency b) (cg_node_concurrency b) (cg_node_timeout b)
    (cg_run_deadline b) (cg_durability b).
Definition set_cg_event_sink (x : bool) (b : CompiledGraph State Update C)
  : CompiledGraph State Update C :=
  mkCompiled (cg_graph_id b) (cg_name b) (cg_nodes b) (cg_edges b) (cg_branches b)
    (cg_command_nodes b) (cg_waiting b) (cg_barrier_reliefs b) (cg_node_meta b) (cg_entry b)
    (cg_reducer b) (cg_recursion_limit b) (cg_recursion_policy b) (cg_recursion_frames b)
    (cg_recursion_node b) (cg_checkpointer b) x (cg_journal b) (cg_status_store b) (cg_namespace
    b) (cg_parallel b) (cg_max_concurrency b) (cg_node_concurrency b) (cg_node_timeout b)
    (cg_run_deadline b) (cg_durability b).
Definition set_cg_journal (x : bool) (b : CompiledGraph State Update C)
  : CompiledGraph State Update C :=
  mkCompiled (cg_graph_id b) (cg_name b) (cg_nodes b) (cg_edges b) (cg_branches b)
    (cg_command_nodes b) (cg_waiting b) (cg_barrier_reliefs b) (cg_node_meta b) (cg_entry b)
    (cg_reducer b) (cg_recursion_limit b) (cg_recursion_policy b) (cg_recursion_frames b)
    (cg_recursion_node b) (cg_checkpointer b) (cg_event_sink b) x (cg_status_store b)
    (cg_namespace b) (cg_parallel b) (cg_max_concurrency b) (cg_node_concurrency b)
    (cg_node_timeout b) (cg_run_deadline b) (cg_durability b).
Definition set_cg_status_store (x : bool) (b : CompiledGraph State Update C)
  : CompiledGraph State Update C :=
  mkCompiled (cg_graph_id b) (cg_name b) (cg_nodes b) (cg_edges b) (cg_branches b)
    (cg_command_nodes b) (cg_waiting b) (cg_barrier_reliefs b) (cg_node_meta b) (cg_entry b)
    (cg_reducer b) (cg_recursion_limit b) (cg_recursion_policy b) (cg_recursion_frames b)
    (cg_recursion_node b) (cg_checkpointer b) (cg_event_sink b) (cg_journal b) x (cg_namespace b)
    (cg_parallel b) (cg_max_concurrency b) (cg_node_concurrency b) (cg_node_timeout b)
    (cg_run_deadline b) (cg_durability b).
Definition set_cg_namespace (x : list string) (b : CompiledGraph State Update C)
  : CompiledGraph State Update C :=
  mkCompiled (cg_graph_id b) (cg_name b) (cg_nodes b) (cg_edges b) (cg_branches b)
    (cg_command_nodes b) (cg_waiting b) (cg_barrier_reliefs b) (cg_node_meta b) (cg_entry b)
    (cg_reducer b) (cg_recursion_limit b) (cg_recursion_policy b) (cg_recursion_frames b)
    (cg_recursion_node b) (cg_checkpointer b) (cg_event_sink b) (cg_journal b) (cg_status_store b)
    x (cg_parallel b) (cg_max_concurrency b) (cg_node_concurrency b) (cg_node_timeout b)
    (cg_run_deadline b) (cg_durability b).
Definition set_cg_run_deadline (x : option N) (b : CompiledGraph State Update C)
  : CompiledGraph State Update C :=
  mkCompiled (cg_graph_id b) (cg_name b) (cg_nodes b) (cg_edges b) (cg_branches b)
    (cg_command_nodes b) (cg_waiting b) (cg_barrier_reliefs b) (cg_node_meta b) (cg_entry b)
    (cg_reducer b) (cg_recursion_limit b) (cg_recursion_policy b) (cg_recursion_frames b)
    (cg_recursion_node b) (cg_checkpointer b) (cg_event_sink b) (cg_journal b) (cg_status_store b)
    (cg_namespace b) (cg_parallel b) (cg_max_concurrency b) (cg_node_concurrency b)
    (cg_node_timeout b) x (cg_durability b).
Definition set_cg_durability (x : DurabilityMode) (b : CompiledGraph State Update C)
  : CompiledGraph State Update C :=
  mkCompiled (cg_graph_id b) (cg_name b) (cg_nodes b) (cg_edges b) (cg_branches b)
    (cg_command_nodes b) (cg_waiting b) (cg_barrier_reliefs b) (cg_node_meta b) (cg_entry b)
    (cg_reducer b) (cg_recursion_limit b) (cg_recursion_policy b) (cg_recursion_frames b)
    (cg_recursion_node b) (cg_checkpointer b) (cg_event_sink b) (cg_journal b) (cg_status_store b)
    (cg_namespace b) (cg_parallel b) (cg_max_concurrency b) (cg_node_concurrency b)
    (cg_node_timeout b) (cg_run_deadline b) x.
End Fields.

(** ** Builder methods *)

(** [GraphDefaults]. *)
Record GraphDefaults := mkDefaults {
  gd_recursion_limit : option nat;
  gd_parallel : option bool;
  gd_max_concurrency : option nat;
  gd_node_timeout : option N
}.

Section Builder.
Context {State Update : Type}.
Implicit Types b : GraphBuilder State Update.

(** [new] takes the generated graph id [graph-<seq>]. *)
Definition builder_new (seq : N) : GraphBuilder State Update :=
  mkBuilder ("graph-" +:+ pretty seq) None ∅ ∅ ∅ ∅ ∅ [] None 50 false None ∅ None ∅.

Definition set_defaults (d : GraphDefaults) b : GraphBuilder State Update :=
  let b := match gd_recursion_limit d with Some l => set_gb_recursion_limit l b | None => b end in
  let b := match gd_parallel d with Some p => set_gb_parallel p b | None => b end in
  let b := match gd_max_concurrency d with
           | Some m => set_gb_max_concurrency (Some m) b | None => b end in
  match gd_node_timeout d with Some t => set_gb_node_timeout (Some t) b | None => b end.

Definition with_max_concurrency (n : nat) b : GraphBuilder State Update :=
  set_gb_max_concurrency (if decide (0 < n) then Some n else None) b.

Definition with_node_concurrency (node : NodeId) (n : nat) b : GraphBuilder State Update :=
  if decide (n = 0) then set_gb_node_concurrency (delete node (gb_node_concurrency b)) b
  else set_gb_node_concurrency (<[node := n]> (gb_node_concurrency b)) b.

Definition with_node_timeout (t : N) b : GraphBuilder State Update :=
  set_gb_node_timeout (Some t) b.
Definition with_parallel (p : bool) b : GraphBuilder State Update := set_gb_parallel p b.
Definition with_graph_id (id : GraphId) b : GraphBuilder State Update := set_gb_graph_id id b.
Definition with_name (n : string) b : GraphBuilder State Update := set_gb_name (Some n) b.
Definition with_recursion_limit (l : nat) b : GraphBuilder State Update :=
  set_gb_recursion_limit l b.
Definition set_reducer (r : StateReducer State Update) b : GraphBuilder State Update :=
  set_gb_reducer (Some r) b.

Definition add_node (id : NodeId) (handler : NodeHandler State Update) b
    : GraphBuilder State Update :=
  set_gb_nodes (<[id := mkNode id handler]> (gb_nodes b)) b.

Definition add_edge (from to : NodeId) b : GraphBuilder State Update :=
  set_gb_edges (<[from := to]> (gb_edges b)) b.

(** [nodes.windows(2)] in order. *)
Fixpoint add_sequence (nodes : list NodeId) b : GraphBuilder State Update :=
  match nodes with
  | x :: (y :: _) as rest => add_sequence rest (add_edge x y b)
  | _ => b
  end.

Definition add_waiting_edge (from to : NodeId) b : GraphBuilder State Update :=
  let b := set_gb_edges (<[from := to]> (gb_edges b)) b in
  set_gb_waiting (<[to := {[from]} ∪ default ∅ (gb_waiting b !! to)]> (gb_waiting b)) b.

Definition add_barrier_relief (source relief barrier : NodeId) b : GraphBuilder State Update :=
  set_gb_barrier_reliefs (gb_barrier_reliefs b ++ [mkRelief source relief barrier]) b.

Definition set_entry (node : NodeId) b : GraphBuilder State Update := add_edge START node b.
Definition set_finish (node : NodeId) b : GraphBuilder State Update := add_edge node END b.

(** The route table is collected into a map: a later duplicate label wins. *)
Definition add_conditional_edges (from : NodeId) (router : State → string)
    (routes : list (string * NodeId)) b : GraphBuilder State Update :=
  set_gb_branches
    (<[from := mkBranch router (foldl (λ m kv, <[kv.1 := kv.2]> m) ∅ routes)]> (gb_branches b)) b.

Definition mark_command_routing (node : NodeId) b : GraphBuilder State Update :=
  set_gb_command_nodes ({[node]} ∪ gb_command_nodes b) b.

(** [node_meta.entry(node).or_default()] followed by an update of the entry. *)
Definition update_meta (node : NodeId) (f : NodeMeta → NodeMeta) b : GraphBuilder State Update :=
  set_gb_node_meta (<[node := f (default meta_default (gb_node_meta b !! node))]> (gb_node_meta b)) b.

Definition with_command_destinations (node : NodeId) (dests : list NodeId) b
    : GraphBuilder State Update :=
  update_meta node (λ m, mkMeta (meta_kind m) (meta_interrupt m) (meta_deferred m)
                           (meta_subgraph m) dests (meta_command_fanout m) (meta_metadata m))
    (set_gb_command_nodes ({[node]} ∪ gb_command_nodes b) b).

Definition with_unconditional_fanout (node : NodeId) (dests : list NodeId) b
    : GraphBuilder State Update :=
  update_meta node (λ m, mkMeta (meta_kind m) (meta_interrupt m) (meta_deferred m)
                           (meta_subgraph m) (meta_command_destinations m) true (meta_metadata m))
    (with_command_destinations node dests b).

Definition with_node_kind (node : NodeId) (kind : string) b : GraphBuilder State Update :=
  update_meta node (λ m, mkMeta (Some kind) (meta_interrupt m) (meta_deferred m)
    (meta_subgraph m) (meta_command_destinations m) (meta_command_fanout m) (meta_metadata m)) b.
Definition with_node_metadata (node key val : string) b : GraphBuilder State Update :=
  update_meta node (λ m, mkMeta (meta_kind m) (meta_interrupt m) (meta_deferred m)
    (meta_subgraph m) (meta_command_destinations m) (meta_command_fanout m)
    (<[key := val]> (meta_metadata m))) b.
Definition mark_subgraph (node : NodeId) b : GraphBuilder State Update :=
  update_meta node (λ m, mkMeta (meta_kind m) (meta_interrupt m) (meta_deferred m)
    true (meta_command_destinations m) (meta_command_fanout m) (meta_metadata m)) b.
Definition mark_interrupt (node : NodeId) b : GraphBuilder State Update :=
  update_meta node (λ m, mkMeta (meta_kind m) true (meta_deferred m)
    (meta_subgraph m) (meta_command_destinations m) (meta_command_fanout m) (meta_metadata m)) b.
Definition mark_deferred (node : NodeId) b : GraphBuilder State Update :=
  update_meta node (λ m, mkMeta (meta_kind m) (meta_interrupt m) true
    (meta_subgraph m) (meta_command_destinations m) (meta_command_fanout m) (meta_metadata m)) b.

(** ** Compilation *)

Definition require_node b (id : NodeId) : Result unit :=
  if decide (is_Some (gb_nodes b !! id)) then Ok tt else Err (MissingNode id).

Definition check_edge b (e : NodeId * NodeId) : Result unit :=
  let '(from, to) := e in
  if decide (to = START) then Err (Validation "START cannot be an edge target")
  else if decide (from = END) then Err (Validation "END cannot be an edge source")
  else
    let? _ := (if decide (from = START) then Ok tt else require_node b from) in
    if decide (to = END) then Ok tt else require_node b to.

Definition check_branch b (br : NodeId * Branch State) : Result unit :=
  let '(from, branch) := br in
  let? _ := require_node b from in
  if decide (is_Some (gb_edges b !! from))
  then Err (Validation ("node `" +:+ from +:+ "` has both a static edge and conditional edges"))
  else
    for_each (λ target, if decide (target = END) then Ok tt else require_node b target)
      ((map_to_list (branch_routes branch)).*2).

Definition check_waiting b (w : NodeId * gset NodeId) : Result unit :=
  let? _ := require_node b w.1 in
  for_each (require_node b) (elements w.2).

Definition check_command_node b (node : NodeId) : Result unit :=
  let? _ := require_node b node in
  if decide (is_Some (gb_edges b !! node) ∨ is_Some (gb_branches b !! node))
  then Err (Validation ("node `" +:+ node +:+
              "` declares command routing but also has static/conditional edges"))
  else Ok tt.

Definition from_parts {C} b (entry : NodeId) (reducer : StateReducer State Update)
    : CompiledGraph State Update C :=
  mkCompiled (gb_graph_id b) (gb_name b) (gb_nodes b) (gb_edges b) (gb_branches b)
    (gb_command_nodes b) (gb_waiting b) (gb_barrier_reliefs b) (gb_node_meta b) entry reducer
    (gb_recursion_limit b) RecursionPolicy_default [] None None false false false []
    (gb_parallel b) (gb_max_concurrency b) (gb_node_concurrency b) (gb_node_timeout b) None DurSync.

Definition compile {C} b : Result (CompiledGraph State Update C) :=
  match gb_reducer b with
  | None => Err (Validation "no state reducer set; call set_reducer (or GraphBuilder::overwrite)")
  | Some reducer =>
      let? entry := ok_or (gb_edges b !! START) MissingStart in
      if decide (entry = END) then Err (Validation "START cannot route directly to END")
      else
        let? _ := require_node b entry in
        let? _ := for_each (check_edge b) (map_to_list (gb_edges b)) in
        let? _ := for_each (check_branch b) (map_to_list (gb_branches b)) in
        let? _ := for_each (check_waiting b) (map_to_list (gb_waiting b)) in
        let? _ := for_each (check_command_node b) (elements (gb_command_nodes b)) in
        Ok (from_parts b entry reducer)
  end.
End Builder.

(** [GraphBuilder::overwrite]: whole-state updates. *)
Definition overwrite_reducer {State} : StateReducer State State := λ _ update, Ok update.
Definition builder_overwrite {State} (seq : N) : GraphBuilder State State :=
  set_reducer overwrite_reducer (builder_new seq).

(** * What [compile] guarantees

    The well-formedness of a compiled topology, that [compile] accepts exactly
    the builders that have it, and that no sequence of builder calls can leave
    a per-node concurrency cap of zero. *)

Section BuilderFacts.
Context {State Update C : Type}.
Implicit Types (b : GraphBuilder State Update) (g : CompiledGraph State Update C).

Record graph_wf g : Prop := {
  wf_entry : is_Some (cg_nodes g !! cg_entry g) ∧ cg_entry g ≠ END ∧
             cg_edges g !! START = Some (cg_entry g);
  wf_edges : ∀ from to, cg_edges g !! from = Some to →
    to ≠ START ∧ from ≠ END ∧ (from = START ∨ is_Some (cg_nodes g !! from)) ∧
    (to = END ∨ is_Some (cg_nodes g !! to));
  wf_branches : ∀ from br, cg_branches g !! from = Some br →
    is_Some (cg_nodes g !! from) ∧ cg_edges g !! from = None ∧
    ∀ label target, branch_routes br !! label = Some target →
      target = END ∨ is_Some (cg_nodes g !! target);
  wf_waiting : ∀ node required, cg_waiting g !! node = Some required →
    is_Some (cg_nodes g !! node) ∧ ∀ p, p ∈ required → is_Some (cg_nodes g !! p);
  wf_command : ∀ node, node ∈ cg_command_nodes g →
    is_Some (cg_nodes g !! node) ∧ cg_edges g !! node = None ∧ cg_branches g !! node = None
}.

Lemma require_node_Ok b n : require_node b n = Ok tt ↔ is_Some (gb_nodes b !! n).
Proof. unfold require_node. case_decide; naive_solver. Qed.

Lemma rbind_unit_Ok {E B} (m : result E unit) (k : unit → result E B) x :
  rbind m k = Ok x ↔ m = Ok tt ∧ k tt = Ok x.
Proof. destruct m as [[]|]; cbn; naive_solver. Qed.

Lemma check_edge_Ok b from to :
  check_edge b (from, to) = Ok tt ↔
  to ≠ START ∧ from ≠ END ∧ (from = START ∨ is_Some (gb_nodes b !! from)) ∧
  (to = END ∨ is_Some (gb_nodes b !! to)).
Proof.
  unfold check_edge. do 2 (case_decide; [naive_solver|]). rewrite rbind_unit_Ok.
  do 2 case_decide; rewrite ?require_node_Ok; naive_solver.
Qed.

Lemma check_branch_Ok b from br :
  check_branch b (from, br) = Ok tt ↔
  is_Some (gb_nodes b !! from) ∧ gb_edges b !! from = None ∧
  ∀ label target, branch_routes br !! label = Some target →
    target = END ∨ is_Some (gb_nodes b !! target).
Proof.
  unfold check_branch. rewrite rbind_unit_Ok, require_node_Ok, eq_None_not_Some.
  case_decide as He; [naive_solver|]. rewrite for_each_Ok, Forall_forall.
  setoid_rewrite list_elem_of_fmap.
  assert (∀ t, (if decide (t = END) then Ok tt else require_node b t) = Ok tt ↔
               t = END ∨ is_Some (gb_nodes b !! t)) as Ht.
  { intros t. case_decide; rewrite ?require_node_Ok; naive_solver. }
  setoid_rewrite Ht. setoid_rewrite elem_of_map_to_list'.
  split; intros (Hn & Hr); split_and!; try done.
  - intros l t Hl. apply Hr. by exists (l, t).
  - intros t ([l t'] & -> & Hl). by eapply Hr.
Qed.

Lemma check_waiting_Ok b w :
  check_waiting b w = Ok tt ↔
  is_Some (gb_nodes b !! w.1) ∧ ∀ p, p ∈ w.2 → is_Some (gb_nodes b !! p).
Proof.
  unfold check_waiting. rewrite rbind_unit_Ok, require_node_Ok, for_each_Ok, Forall_forall.
  setoid_rewrite elem_of_elements. by setoid_rewrite require_node_Ok.
Qed.

Lemma check_command_node_Ok b n :
  check_command_node b n = Ok tt ↔
  is_Some (gb_nodes b !! n) ∧ gb_edges b !! n = None ∧ gb_branches b !! n = None.
Proof.
  unfold check_command_node. rewrite rbind_unit_Ok, require_node_Ok, !eq_None_not_Some.
  case_decide; naive_solver.
Qed.

Lemma for_each_map_Ok {K A} `{Countable K} (m : gmap K A) (f : K * A → Result unit) :
  for_each f (map_to_list m) = Ok tt ↔ ∀ k a, m !! k = Some a → f (k, a) = Ok tt.
Proof.
  rewrite for_each_Ok, Forall_forall. setoid_rewrite elem_of_map_to_list'. split.
  - intros Hf k a Hk. by apply Hf.
  - intros Hf [k a] Hk. by apply Hf.
Qed.

(** [compile] succeeds exactly on the builders whose topology is well formed,
    and then yields the graph of the builder's parts. *)
Lemma compile_Ok b g :
  compile b = Ok g ↔
  ∃ reducer entry, gb_reducer b = Some reducer ∧ gb_edges b !! START = Some entry ∧
    g = from_parts b entry reducer ∧ graph_wf g.
Proof.
  unfold compile. destruct (gb_reducer b) as [red|] eqn:Er; [|naive_solver].
  destruct (gb_edges b !! START) as [entry|] eqn:Ee; cbn; [|naive_solver].
  case_decide as Hend.
  { split; [done|]. intros (? & ? & ? & [= <-] & -> & Hwf).
    by destruct (wf_entry _ Hwf) as (? & ? & ?). }
  rewrite !rbind_unit_Ok, require_node_Ok, !for_each_map_Ok, for_each_Ok, Forall_forall.
  setoid_rewrite check_edge_Ok. setoid_rewrite check_branch_Ok.
  setoid_rewrite check_waiting_Ok. setoid_rewrite elem_of_elements.
  setoid_rewrite check_command_node_Ok. cbn.
  split.
  - intros (Hn & He & Hb & Hw & Hc & [= <-]). exists red, entry. split_and!; try done.
  - intros (? & ? & [= <-] & [= <-] & -> & Hwf). destruct Hwf as [(?&?&?) He Hb Hw Hc].
    cbn in *. by split_and!.
Qed.

(** ** Concurrency caps *)

Definition caps_pos (caps : gmap NodeId nat) : Prop := ∀ n cap, caps !! n = Some cap → 0 < cap.

Lemma caps_pos_empty : caps_pos ∅.
Proof. intros n cap Hn. by rewrite lookup_empty in Hn. Qed.

Lemma with_node_concurrency_caps n cap b :
  caps_pos (gb_node_concurrency b) → caps_pos (gb_node_concurrency (with_node_concurrency n cap b)).
Proof.
  unfold with_node_concurrency, caps_pos. intros Hp m k. case_decide as Hc; cbn.
  - rewrite lookup_delete. case_decide; [done|]. apply Hp.
  - rewrite lookup_insert. case_decide; [intros [= <-]; lia|apply Hp].
Qed.
End BuilderFacts.

#[export] Hint Resolve caps_pos_empty with_node_concurrency_caps : tf.
