(* ===== verification/Channel.v ===== *)
(** * Channels and reducers

    [crates/tinyflows/src/graph/channel/] and [graph/reducer/]: per-key merge
    policies, the set of channels with their values, and the reducer that folds
    a node's channel writes into the state.  A [Box<dyn Channel>] is a record of
    the trait's methods. *)

From S2P Require Import Prelude Json GraphTypes.

Record Channel := mkChannel {
  ch_kind : string;
  ch_merge : option value → value → Result value;
  ch_allows_concurrent : bool;
  ch_is_ephemeral : bool;
  ch_is_tracked : bool;
  ch_is_ready : option value → bool
}.

Definition overwrite_merge (_current : option value) (incoming : value) : Result value :=
  Ok incoming.

(** Append an array's items, or one scalar. *)
Definition append_merge (current : option value) (incoming : value) : Result value :=
  let list := match current with
              | Some (Array items) => items
              | Some other => [other]
              | None => []
              end in
  Ok (Array (list ++ match incoming with Array items => items | other => [other] end)).

Definition LastValue : Channel := mkChannel "last_value" overwrite_merge false false true (λ _, true).
Definition Topic : Channel := mkChannel "topic" append_merge true false true (λ _, true).
Definition Ephemeral : Channel := mkChannel "ephemeral" overwrite_merge false true true (λ _, true).
Definition Untracked : Channel := mkChannel "untracked" overwrite_merge false false false (λ _, true).

(** Two's-complement wrap-around of an [i64] sum, as the release build
    computes it (a debug build panics on overflow instead). *)
Definition i64_wrap (z : Z) : Z := ((z + 2 ^ 63) mod 2 ^ 64 - 2 ^ 63)%Z.

Definition delta_error : GraphError := GraphErr "Delta channel only accepts numeric writes".

Definition delta_merge (current : option value) (incoming : value) : Result value :=
  let? incoming_num := ok_or (as_f64 incoming) delta_error in
  match current with
  | None => Ok incoming
  | Some cur =>
      let? current_num := ok_or (as_f64 cur) delta_error in
      match as_i64 cur, as_i64 incoming with
      | Some a, Some b => Ok (value_of_i64 (i64_wrap (a + b)))
      | _, _ => Ok (value_of_f64 (f64_add current_num incoming_num))
      end
  end.
Definition Delta : Channel := mkChannel "delta" delta_merge true false true (λ _, true).

(** The ["id"] of a message. *)
Definition message_id (msg : value) : option string := get "id" msg >>? as_str.

(** The [collect] of the existing ids: a later duplicate wins. *)
Definition message_index (list : list value) : gmap string nat :=
  foldl (λ m p, match message_id p.2 with Some id => <[id := p.1]> m | None => m end) ∅
    (imap pair list).

Definition message_step (acc : list value * gmap string nat) (msg : value)
    : list value * gmap string nat :=
  let '(list, index) := acc in
  match message_id msg with
  | Some id =>
      match index !! id with
      | Some i => (<[i := msg]> list, index)
      | None => (list ++ [msg], <[id := length list]> index)
      end
  | None => (list ++ [msg], index)
  end.

Definition messages_merge (current : option value) (incoming : value) : Result value :=
  let? list :=
    (match current with
     | Some (Array items) => Ok items
     | Some _ => Err (GraphErr "Messages channel value must be a JSON array")
     | None => Ok []
     end) in
  let incoming := match incoming with Array items => items | other => [other] end in
  Ok (Array (foldl message_step (list, message_index list) incoming).1).
Definition Messages : Channel := mkChannel "messages" messages_merge true false true (λ _, true).

Definition barrier_ready (expected : nat) (current : option value) : bool :=
  match current >>? as_array with
  | Some items => bool_decide (expected ≤ length items)
  | None => bool_decide (expected = 0)
  end.
Definition Barrier (expected : nat) : Channel :=
  mkChannel "barrier" append_merge true false true (barrier_ready expected).

Definition named_merge (current : option value) (incoming : value) : Result value :=
  let? map :=
    (match current with
     | Some (Object m) => Ok m
     | Some _ => Err (GraphErr "NamedBarrier channel value must be a JSON object")
     | None => Ok []
     end) in
  match incoming with
  | Object inc => Ok (Object (foldl (λ m kv, obj_insert kv.1 kv.2 m) map inc))
  | _ => Err (GraphErr "NamedBarrier writes must be JSON objects of named arrivals")
  end.
Definition named_ready (expected : list string) (current : option value) : bool :=
  match current with
  | Some (Object m) => forallb (λ name, bool_decide (is_Some (obj_get name m))) expected
  | _ => bool_decide (expected = [])
  end.
Definition NamedBarrier (expected : list string) : Channel :=
  mkChannel "named_barrier" named_merge true false true (named_ready expected).

Definition BinaryAggregate (fold : value → value → Result value) : Channel :=
  mkChannel "binary_aggregate"
    (λ current incoming, match current with
                         | Some cur => fold cur incoming
                         | None => Ok incoming
                         end) true false true (λ _, true).

(** ** Channel sets *)

Record ChannelSet := mkSet {
  cs_channels : gmap string Channel;
  cs_values : gmap string value
}.

Definition set_new : ChannelSet := mkSet ∅ ∅.
Definition add_channel (name : string) (ch : Channel) (s : ChannelSet) : ChannelSet :=
  mkSet (<[name := ch]> (cs_channels s)) (cs_values s).
Definition set_get (name : string) (s : ChannelSet) : option value := cs_values s !! name.
Definition set_contains (name : string) (s : ChannelSet) : bool :=
  bool_decide (is_Some (cs_channels s !! name)).

Definition unknown_channel (name : string) : GraphError :=
  GraphErr ("unknown channel `" +:+ name +:+ "`").

Definition set_channel (s : ChannelSet) (name : string) : Result Channel :=
  ok_or (cs_channels s !! name) (unknown_channel name).

Definition set_allows_concurrent (s : ChannelSet) (name : string) : Result bool :=
  let? c := set_channel s name in Ok (ch_allows_concurrent c).
Definition set_is_ready (s : ChannelSet) (name : string) : Result bool :=
  let? c := set_channel s name in Ok (ch_is_ready c (cs_values s !! name)).

(** [apply_update]: the current value is moved into [merge], so a refused write
    leaves the channel unset. *)
Definition apply_update (s : ChannelSet) (name : string) (v : value) : ChannelSet * Result unit :=
  match cs_channels s !! name with
  | None => (s, Err (unknown_channel name))
  | Some c =>
      let values := delete name (cs_values s) in
      match ch_merge c (cs_values s !! name) v with
      | Err e => (mkSet (cs_channels s) values, Err e)
      | Ok merged => (mkSet (cs_channels s) (<[name := merged]> values), Ok tt)
      end
  end.

Definition tracked (s : ChannelSet) (name : string) : bool :=
  match cs_channels s !! name with Some c => ch_is_tracked c | None => true end.
Definition set_snapshot (s : ChannelSet) : gmap string value :=
  filter (λ p, Is_true (tracked s p.1)) (cs_values s).

Definition ephemeral (s : ChannelSet) (name : string) : bool :=
  match cs_channels s !! name with Some c => ch_is_ephemeral c | None => false end.
Definition clear_ephemeral (s : ChannelSet) : ChannelSet :=
  mkSet (cs_channels s)
    (foldl (λ m name, delete name m) (cs_values s)
       ((filter (λ p, Is_true (ch_is_ephemeral p.2)) (map_to_list (cs_channels s))).*1)).

(** ** Updates and state *)

Record ChannelUpdate := mkUpdate {
  cu_writes : list (string * value);
  cu_step : option nat
}.
Definition update_new : ChannelUpdate := mkUpdate [] None.
Definition update_set (name : string) (v : value) (u : ChannelUpdate) : ChannelUpdate :=
  mkUpdate (cu_writes u ++ [(name, v)]) (cu_step u).
Definition at_step (step : nat) (u : ChannelUpdate) : ChannelUpdate :=
  mkUpdate (cu_writes u) (Some step).

Record ChannelState := mkState {
  st_set : ChannelSet;
  current_step : nat;
  step_writes : gmap string nat
}.
Definition state_new : ChannelState := mkState set_new 0 ∅.
Definition with_channel (name : string) (ch : Channel) (s : ChannelState) : ChannelState :=
  mkState (add_channel name ch (st_set s)) (current_step s) (step_writes s).

(** The step bookkeeping at the head of [merge]. *)
Definition enter_step (s : ChannelState) (step : option nat) : ChannelState :=
  match step with
  | Some n =>
      if decide (n = current_step s) then s
      else mkState (clear_ephemeral (st_set s)) n ∅
  | None => mkState (st_set s) (current_step s) ∅
  end.

(** The channels an update touches, each once, in write order. *)
Definition distinct (writes : list (string * value)) : list string :=
  foldl (λ acc p, if decide (p.1 ∈ acc) then acc else acc ++ [p.1]) [] writes.

Definition conflict_message (name : string) (count : nat) : string :=
  "channel `" +:+ name +:+ "` received " +:+ pretty count +:+
  " concurrent writes in one step but is not an aggregate channel".

Definition check_write (s : ChannelState) (name : string) : Result unit :=
  let? allows := set_allows_concurrent (st_set s) name in
  let count := default 0 (step_writes s !! name) + 1 in
  if bool_decide (1 < count) && negb allows
  then Err (InvalidConcurrentUpdate (conflict_message name count)) else Ok tt.

Definition count_writes (counts : gmap string nat) (touched : list string) : gmap string nat :=
  foldl (λ m name, <[name := default 0 (m !! name) + 1]> m) counts touched.

Fixpoint apply_writes (s : ChannelSet) (writes : list (string * value)) : Result ChannelSet :=
  match writes with
  | [] => Ok s
  | (name, v) :: rest =>
      match apply_update s name v with
      | (s', Ok _) => apply_writes s' rest
      | (_, Err e) => Err e
      end
  end.

(** [ChannelState::merge], which is the [StateReducer] of channel graphs. *)
Definition merge (s : ChannelState) (u : ChannelUpdate) : Result ChannelState :=
  let s := enter_step s (cu_step u) in
  let touched := distinct (cu_writes u) in
  let? _ := for_each (check_write s) touched in
  let? set := apply_writes (st_set s) (cu_writes u) in
  Ok (mkState set (current_step s) (count_writes (step_writes s) touched)).

(** ** Value reducers *)

Definition overwrite_reduce {T} (_current update : T) : Result T := Ok update.
Definition append_reduce {T} (current update : list T) : Result (list T) := Ok (current ++ update).
Definition set_union_reduce {T} `{Countable T} (current update : list T) : Result (list T) :=
  Ok (foldl (λ acc item, if decide (item ∈ acc.2) then acc else (acc.1 ++ [item], {[item]} ∪ acc.2))
        (current, list_to_set current : gset T) update).1.
Definition min_reduce (current update : Z) : Result Z :=
  Ok (if decide (update < current)%Z then update else current).
Definition max_reduce (current update : Z) : Result Z :=
  Ok (if decide (current < update)%Z then update else current).

(** * Properties of channels

    Conflict detection counts the updates of a step that touch a channel and
    refuses exactly the steps in which two updates write one overwrite channel;
    values outside an update's writes are framed; the indexed message merge
    agrees with a linear scan. *)

(** ** Distinct names *)

Lemma distinct_snoc writes p :
  distinct (writes ++ [p]) =
    if decide (p.1 ∈ distinct writes) then distinct writes else distinct writes ++ [p.1].
Proof. unfold distinct. by rewrite foldl_app. Qed.

Lemma elem_of_distinct writes n : n ∈ distinct writes ↔ n ∈ writes.*1.
Proof.
  induction writes as [|p writes IH] using rev_ind; [done|].
  rewrite distinct_snoc, fmap_app, elem_of_app, <- IH. cbn. rewrite list_elem_of_singleton.
  case_decide; [naive_solver|]. rewrite elem_of_app, list_elem_of_singleton. done.
Qed.

Lemma distinct_NoDup writes : NoDup (distinct writes).
Proof.
  induction writes as [|p writes IH] using rev_ind; [constructor|].
  rewrite distinct_snoc. case_decide as Hp; [done|]. apply NoDup_app.
  split_and!; [done| |apply NoDup_singleton]. intros n Hn ->%list_elem_of_singleton. done.
Qed.

Lemma count_writes_lookup touched : ∀ counts n,
  NoDup touched →
  count_writes counts touched !! n =
    if decide (n ∈ touched) then Some (default 0 (counts !! n) + 1) else counts !! n.
Proof.
  induction touched as [|t touched IH]; intros counts n Hnd; cbn.
  { by rewrite decide_False by apply not_elem_of_nil. }
  apply NoDup_cons in Hnd as [Ht Hnd]. unfold count_writes in IH. rewrite IH by done.
  rewrite lookup_insert. destruct (decide (t = n)) as [<-|Hne].
  - by rewrite decide_False, decide_True by (done || left).
  - destruct (decide (n ∈ touched)); [rewrite decide_True by by right|
      rewrite decide_False by (intros [->|]%elem_of_cons; done)]; done.
Qed.

(** ** Applying writes *)

Lemma apply_update_channels s n v s' r :
  apply_update s n v = (s', r) → cs_channels s' = cs_channels s.
Proof.
  unfold apply_update. destruct (cs_channels s !! n) as [c|]; [destruct (ch_merge _ _ _)|];
    intros; by inv_ok.
Qed.

Lemma apply_writes_channels writes : ∀ s s',
  apply_writes s writes = Ok s' → cs_channels s' = cs_channels s.
Proof.
  induction writes as [|[n v] writes IH]; cbn; intros s s' H; [by inv_ok|].
  destruct (apply_update s n v) as [s1 [[]|e]] eqn:E; [|done].
  apply IH in H. apply apply_update_channels in E. congruence.
Qed.

(** A channel the writes do not name keeps its value. *)
Lemma apply_writes_frame writes : ∀ s s' n,
  n ∉ writes.*1 → apply_writes s writes = Ok s' → cs_values s' !! n = cs_values s !! n.
Proof.
  induction writes as [|[m v] writes IH]; cbn; intros s s' n Hn H; [by inv_ok|].
  apply not_elem_of_cons in Hn as [Hnm Hn].
  destruct (apply_update s m v) as [s1 [[]|e]] eqn:E; [|done]. rewrite (IH _ _ _ Hn H).
  unfold apply_update in E. destruct (cs_channels s !! m); [|by inv_ok].
  destruct (ch_merge _ _ _); inv_ok. cbn. by rewrite lookup_insert_ne, lookup_delete_ne by done.
Qed.

(** A merge that never refuses a write. *)
Definition total_merge (c : Channel) : Prop := ∀ cur v, is_ok (ch_merge c cur v) = true.

Lemma apply_writes_total writes : ∀ s,
  (∀ n, n ∈ writes.*1 → ∃ c, cs_channels s !! n = Some c ∧ total_merge c) →
  ∃ s', apply_writes s writes = Ok s'.
Proof.
  induction writes as [|[n v] writes IH]; cbn; intros s Hreg; [by exists s|].
  destruct (Hreg n) as (c & Hc & Ht); [left|]. unfold apply_update. rewrite Hc.
  specialize (Ht (cs_values s !! n) v). destruct (ch_merge c _ v); [|done].
  apply IH. cbn. intros m Hm. apply Hreg. by right.
Qed.

(** ** Ephemeral channels *)

Lemma clear_ephemeral_lookup s n :
  cs_values (clear_ephemeral s) !! n = if ephemeral s n then None else cs_values s !! n.
Proof.
  assert (∀ l m, foldl (λ m name, delete name m) m l !! n =
                 if decide (n ∈ l) then None else (m : gmap string value) !! n) as Hfold.
  { induction l as [|x l IH]; intros m; cbn; [by rewrite decide_False by apply not_elem_of_nil|].
    rewrite IH, lookup_delete. repeat case_decide; set_solver. }
  unfold clear_ephemeral. cbn. rewrite Hfold. unfold ephemeral.
  assert (n ∈ (filter (λ p, Is_true (ch_is_ephemeral p.2)) (map_to_list (cs_channels s))).*1 ↔
          ∃ c, cs_channels s !! n = Some c ∧ ch_is_ephemeral c = true) as Hiff.
  { rewrite list_elem_of_fmap. split.
    - intros ([k c] & -> & Hf). apply list_elem_of_filter in Hf as [He Hin].
      apply elem_of_map_to_list in Hin. exists c. split; [done|]. by apply Is_true_true.
    - intros (c & Hc & He). exists (n, c). split; [done|]. apply list_elem_of_filter.
      split; [by apply Is_true_true|]. by apply elem_of_map_to_list. }
  case_decide as Hd; destruct (cs_channels s !! n) as [c|]; try destruct (ch_is_ephemeral c) eqn:E;
    naive_solver congruence.
Qed.

(** ** One merge *)

Definition allows (s : ChannelState) (n : string) : Prop :=
  ∃ c, cs_channels (st_set s) !! n = Some c ∧ ch_allows_concurrent c = true.

Lemma check_write_Ok s n :
  check_write s n = Ok tt ↔
  ∃ c, cs_channels (st_set s) !! n = Some c ∧
    (ch_allows_concurrent c = true ∨ default 0 (step_writes s !! n) = 0).
Proof.
  unfold check_write, set_allows_concurrent, set_channel.
  destruct (cs_channels (st_set s) !! n) as [c|]; cbn; [|naive_solver].
  destruct (ch_allows_concurrent c) eqn:Ea; cbn.
  - rewrite andb_false_r. naive_solver.
  - rewrite andb_true_r. case_bool_decide; split; try done.
    + intros (c' & [= <-] & [?|?]); [congruence|lia].
    + intros _. exists c. split; [done|]. right. lia.
Qed.

Lemma merge_Ok s u s' :
  merge s u = Ok s' →
  let e := enter_step s (cu_step u) in
  (∀ n, n ∈ (cu_writes u).*1 → check_write e n = Ok tt) ∧
  apply_writes (st_set e) (cu_writes u) = Ok (st_set s') ∧
  current_step s' = current_step e ∧
  step_writes s' = count_writes (step_writes e) (distinct (cu_writes u)).
Proof.
  unfold merge. cbn zeta. intros H. inv_ok.
  match goal with H : for_each _ _ = Ok ?x |- _ => destruct x; rename H into Hc end.
  rewrite for_each_Ok, Forall_forall in Hc. split_and!; try done.
  intros n Hn. apply Hc. by apply elem_of_distinct.
Qed.

Lemma enter_step_channels s k :
  cs_channels (st_set (enter_step s k)) = cs_channels (st_set s).
Proof. unfold enter_step. destruct k; [by case_decide|done]. Qed.

Lemma merge_channels s u s' :
  merge s u = Ok s' → cs_channels (st_set s') = cs_channels (st_set s).
Proof.
  intros (_ & Ha & _)%merge_Ok. apply apply_writes_channels in Ha.
  by rewrite Ha, enter_step_channels.
Qed.

(** ** A step's updates *)

(** How many updates of a list touch [n]. *)
Definition touching (n : string) (us : list ChannelUpdate) : nat :=
  length (filter (λ u, n ∈ (cu_writes u).*1) us).

Lemma touching_cons n u us :
  touching n (u :: us) = (if decide (n ∈ (cu_writes u).*1) then 1 else 0) + touching n us.
Proof. unfold touching. rewrite filter_cons. by case_decide. Qed.

Definition writes_of (s : ChannelState) (n : string) : nat := default 0 (step_writes s !! n).

Lemma merge_counts s u s' k :
  cu_step u = Some k → current_step s = k → merge s u = Ok s' →
  current_step s' = k ∧
  ∀ n, writes_of s' n = writes_of s n + (if decide (n ∈ (cu_writes u).*1) then 1 else 0).
Proof.
  intros Hk Hc H. apply merge_Ok in H as (_ & _ & Hcs & Hsw). rewrite Hk in *.
  assert (enter_step s (Some k) = s) as He by (unfold enter_step; by rewrite decide_True).
  rewrite He in *. split; [congruence|]. intros n. unfold writes_of. rewrite Hsw.
  rewrite count_writes_lookup by apply distinct_NoDup.
  rewrite (decide_ext _ _ _ _ (elem_of_distinct (cu_writes u) n)). case_decide; cbn; lia.
Qed.

(** Inside one step: the counters grow by the updates that touch each channel,
    and an overwrite channel is touched at most once. *)
Lemma same_step_counts k us : ∀ s s',
  Forall (λ u, cu_step u = Some k) us → current_step s = k →
  fold_result merge s us = Ok s' →
  current_step s' = k ∧ cs_channels (st_set s') = cs_channels (st_set s) ∧
  (∀ n, writes_of s' n = writes_of s n + touching n us) ∧
  (∀ n c, cs_channels (st_set s) !! n = Some c → ch_allows_concurrent c = false →
     touching n us = 0 ∨ writes_of s n + touching n us ≤ 1).
Proof.
  induction us as [|u us IH]; intros s s' Hst Hc H; cbn in H.
  { inv_ok. unfold touching. cbn. split_and!; auto. }
  apply bind_Ok_inv in H as (s1 & Hm & H). apply Forall_cons in Hst as [Hu Hst].
  destruct (merge_counts s u s1 k Hu Hc Hm) as [Hc1 Hn1].
  pose proof (merge_channels _ _ _ Hm) as Hch.
  destruct (IH s1 s' Hst Hc1 H) as (Hk & Hch' & Hn & Hone).
  split_and!; [done|congruence|intros n; rewrite Hn, Hn1, touching_cons; case_decide; lia|].
  intros n c Hcn Hna. rewrite touching_cons. specialize (Hn1 n).
  destruct (Hone n c) as [H0|H1]; [congruence|done|..].
  - rewrite H0. case_decide as Ht; [|by left]. right.
    apply merge_Ok in Hm as (Hck & _). rewrite Hu in Hck. unfold enter_step in Hck.
    rewrite decide_True in Hck by done. apply Hck in Ht. apply check_write_Ok in Ht as (c' & Hc' & Hor).
    unfold writes_of. destruct Hor as [?|Hz]; [congruence|]. lia.
  - case_decide as Ht; [|right; lia]. right. lia.
Qed.

(** A fresh step. *)
Lemma step_touch_once k s s' us :
  Forall (λ u, cu_step u = Some k) us → current_step s ≠ k →
  fold_result merge s us = Ok s' →
  ∀ n c, cs_channels (st_set s) !! n = Some c → ch_allows_concurrent c = false →
    touching n us ≤ 1.
Proof.
  intros Hst Hne H n c Hc Hna. destruct us as [|u us]; [unfold touching; cbn; lia|].
  (* entering the step first changes nothing the fold does *)
  assert (Hent : merge s u = merge (enter_step s (Some k)) u).
  { apply Forall_cons in Hst as [Hu _]. unfold merge. rewrite Hu. unfold enter_step.
    rewrite decide_False by congruence. cbn. by rewrite decide_True. }
  cbn in H. rewrite Hent in H.
  change (fold_result merge (enter_step s (Some k)) (u :: us) = Ok s') in H.
  apply (same_step_counts k) in H as (_ & _ & _ & Hone); [|done|].
  - specialize (Hone n c). rewrite enter_step_channels in Hone. specialize (Hone Hc Hna). lia.
  - unfold enter_step. by rewrite decide_False by congruence.
Qed.

Lemma same_step_total k us : ∀ s,
  Forall (λ u, cu_step u = Some k) us → current_step s = k →
  (∀ u n, u ∈ us → n ∈ (cu_writes u).*1 →
     ∃ c, cs_channels (st_set s) !! n = Some c ∧ total_merge c) →
  (∀ n c, cs_channels (st_set s) !! n = Some c → ch_allows_concurrent c = false →
     touching n us = 0 ∨ writes_of s n + touching n us ≤ 1) →
  is_ok (fold_result merge s us) = true.
Proof.
  induction us as [|u us IH]; intros s Hst Hc Hreg Hone; [done|]. cbn.
  apply Forall_cons in Hst as [Hu Hst].
  assert (He : enter_step s (cu_step u) = s).
  { rewrite Hu. unfold enter_step. by rewrite decide_True. }
  assert (Hchk : for_each (check_write s) (distinct (cu_writes u)) = Ok tt).
  { apply for_each_Ok, Forall_forall. intros n Hn%elem_of_distinct. apply check_write_Ok.
    destruct (Hreg u n) as (c & Hcn & _); [left|done|]. exists c. split; [done|].
    destruct (ch_allows_concurrent c) eqn:Ea; [by left|]. right.
    specialize (Hone n c Hcn Ea). rewrite touching_cons, decide_True in Hone by done.
    unfold writes_of in Hone. lia. }
  destruct (apply_writes_total (cu_writes u) (st_set s)) as [set Hset].
  { intros n Hn. apply (Hreg u n); [left|done]. }
  assert (Hm : ∃ s1, merge s u = Ok s1).
  { unfold merge. rewrite He, Hchk. cbn. rewrite Hset. by eexists. }
  destruct Hm as [s1 Hm]. rewrite Hm. cbn.
  destruct (merge_counts s u s1 k Hu Hc Hm) as [Hc1 Hn1]. pose proof (merge_channels _ _ _ Hm) as Hch.
  apply IH; [done|done|..].
  - intros u' n Hu' Hn. rewrite Hch. apply (Hreg u' n); [by right|done].
  - intros n c Hcn Hna. rewrite Hch in Hcn. specialize (Hone n c Hcn Hna).
    rewrite touching_cons in Hone. rewrite Hn1. case_decide; lia.
Qed.

(** ** Messages *)

(** The linear-scan merge: replace the first message with the same id, or
    append. *)
Definition upsert (l : list value) (msg : value) : list value :=
  match message_id msg with
  | None => l ++ [msg]
  | Some id =>
      match list_find (λ m, message_id m = Some id) l with
      | Some (i, _) => <[i := msg]> l
      | None => l ++ [msg]
      end
  end.

Definition ids_unique (l : list value) : Prop := NoDup (omap message_id l).

(** The index maps each id to the position of its message. *)
Definition index_ok (l : list value) (index : gmap string nat) : Prop :=
  ∀ id i, index !! id = Some i ↔ ∃ m, l !! i = Some m ∧ message_id m = Some id.

Lemma index_ok_snoc l index m :
  index_ok l index →
  (∀ id, message_id m = Some id → index !! id = None) →
  index_ok (l ++ [m]) (match message_id m with
                       | Some id => <[id := length l]> index | None => index end).
Proof.
  intros Hok Hfresh id i. split.
  - intros Hi. assert (index !! id = Some i ∨ (message_id m = Some id ∧ i = length l)) as [Ho|[Hm ->]].
    { destruct (message_id m) as [id'|]; [|by left]. rewrite lookup_insert in Hi.
      case_decide; [subst; right; naive_solver|by left]. }
    + apply Hok in Ho as (m' & Hl & Hm'). exists m'. split; [|done].
      rewrite lookup_app_l; [done|by eapply lookup_lt_Some].
    + exists m. split; [by apply list_lookup_middle|done].
  - intros (m' & Hl & Hm'). apply lookup_snoc_Some in Hl as [[Hlt Hl]|[-> <-]].
    + assert (index !! id = Some i) as Hi by (apply Hok; by exists m').
      destruct (message_id m) as [id'|] eqn:Em; [|done]. rewrite lookup_insert_ne; [done|].
      intros ->. rewrite (Hfresh id eq_refl) in Hi. done.
    + rewrite Hm'. by rewrite lookup_insert_eq.
Qed.

Lemma message_index_snoc l m :
  message_index (l ++ [m]) =
    match message_id m with
    | Some id => <[id := length l]> (message_index l) | None => message_index l end.
Proof.
  unfold message_index. rewrite imap_app. cbn. rewrite foldl_app. cbn. by rewrite Nat.add_0_r.
Qed.

Lemma message_index_ok l : ids_unique l → index_ok l (message_index l).
Proof.
  induction l as [|m l IH] using rev_ind; intros Hu.
  { intros id i. unfold message_index. cbn. rewrite lookup_empty. split; [done|].
    by intros (? & ? & _). }
  unfold ids_unique in *. rewrite omap_app in Hu. apply NoDup_app in Hu as (Hl & Hd & _).
  rewrite message_index_snoc. apply index_ok_snoc; [by apply IH|]. intros id Hm.
  destruct (message_index l !! id) as [i|] eqn:E; [|done]. exfalso.
  apply (IH Hl) in E as (m' & Hi & Hm'). apply (Hd id).
  - apply list_elem_of_omap. exists m'. split; [by eapply list_elem_of_lookup_2|done].
  - cbn. rewrite Hm. left.
Qed.

Lemma message_step_ok l index msg :
  index_ok l index →
  ∃ index', message_step (l, index) msg = (upsert l msg, index') ∧ index_ok (upsert l msg) index'.
Proof.
  intros Hok. unfold message_step, upsert. destruct (message_id msg) as [id|] eqn:Em.
  2:{ exists index. split; [done|]. pose proof (index_ok_snoc l index msg Hok) as H.
      rewrite Em in H. by apply H. }
  destruct (index !! id) as [i|] eqn:Ei.
  - pose proof Ei as (m & Hi & Hm)%Hok.
    destruct (list_find (λ m, message_id m = Some id) l) as [[j m']|] eqn:Ef.
    + apply list_find_Some in Ef as (Hj & Hm' & _).
      assert (j = i) as ->.
      { assert (index !! id = Some j) by (apply Hok; by exists m'). congruence. }
      exists index. split; [done|]. intros id' k. rewrite (Hok id' k). split; intros (m0 & Hk & Hm0).
      * destruct (decide (k = i)) as [->|Hne].
        -- exists msg. rewrite list_lookup_insert_eq by by eapply lookup_lt_Some. naive_solver.
        -- exists m0. by rewrite list_lookup_insert_ne.
      * destruct (decide (k = i)) as [->|Hne].
        -- rewrite list_lookup_insert_eq in Hk by by eapply lookup_lt_Some. naive_solver.
        -- rewrite list_lookup_insert_ne in Hk by done. eauto.
    + apply list_find_None in Ef. rewrite Forall_forall in Ef. exfalso.
      eapply Ef; [by eapply list_elem_of_lookup_2|done].
  - destruct (list_find (λ m, message_id m = Some id) l) as [[j m']|] eqn:Ef.
    + apply list_find_Some in Ef as (Hj & Hm' & _).
      assert (index !! id = Some j) by (apply Hok; by exists m'). congruence.
    + eexists. split; [done|]. pose proof (index_ok_snoc l index msg Hok) as H.
      rewrite Em in H. apply H. by intros ? [= <-].
Qed.

Lemma index_ok_unique l index : index_ok l index → ids_unique l.
Proof.
  unfold ids_unique. revert index. induction l as [|m l IH] using rev_ind; intros index Hok;
    [constructor|].
  assert (Hsub : index_ok l (filter (λ p, p.2 < length l) index)).
  { intros id i. rewrite map_lookup_filter_Some, (Hok id i). cbn. split.
    - intros ((m' & Hi & Hm) & Hlt). exists m'. by rewrite lookup_app_l in Hi by done.
    - intros (m' & Hi & Hm). pose proof (lookup_lt_Some _ _ _ Hi). split; [|done]. exists m'.
      by rewrite lookup_app_l. }
  rewrite omap_app. apply NoDup_app. split_and!; [by eapply IH| |].
  - intros id Hid Hm. apply list_elem_of_omap in Hid as (m1 & Hin & Hm1).
    apply list_elem_of_lookup in Hin as [i Hi]. cbn in Hm.
    destruct (message_id m) as [id'|] eqn:Em; [|by apply elem_of_nil in Hm].
    apply list_elem_of_singleton in Hm as ->.
    assert (index !! id' = Some i) as H1.
    { apply Hok. exists m1. split; [|done]. rewrite lookup_app_l; [done|by eapply lookup_lt_Some]. }
    assert (index !! id' = Some (length l)) as H2.
    { apply Hok. exists m. split; [by apply list_lookup_middle|done]. }
    apply lookup_lt_Some in Hi. rewrite H1 in H2. injection H2 as ->. lia.
  - cbn. destruct (message_id m); repeat constructor. apply not_elem_of_nil.
Qed.

Lemma message_fold_upsert incoming : ∀ l index,
  index_ok l index →
  (foldl message_step (l, index) incoming).1 = foldl upsert l incoming ∧
  ids_unique (foldl upsert l incoming).
Proof.
  induction incoming as [|m incoming IH]; intros l index Hok; cbn -[message_step].
  { split; [done|]. by eapply index_ok_unique. }
  destruct (message_step_ok l index m Hok) as (index' & -> & Hok'). by apply IH in Hok'.
Qed.
