(* ===== verification/Search.v ===== *)
(** * Worklist search

    The engine answers reachability questions with one loop shape: pop a node
    from a stack, stop on a hit, skip it when seen, otherwise mark it and push
    its successors.  [search] is that loop; [search_spec] says it decides
    reachability and [search_fuel] that the fuel the callers pass is enough. *)

From S2P Require Import Prelude.

Section Search.
Context {K : Type} `{Countable K}.

(** [hit] is the test made when a node is popped; [expand] what is pushed when
    it is first expanded ([None]: the expansion itself found the target).  The
    head of [stack] is the next node popped, and a [Vec] extended with a list
    pops that list from its end. *)
Context (hit : K → bool) (expand : K → option (list K)).

Fixpoint search (fuel : nat) (stack : list K) (seen : gset K) : option bool :=
  match fuel with
  | 0 => None
  | S fuel' =>
      match stack with
      | [] => Some false
      | n :: rest =>
          if hit n then Some true
          else if decide (n ∈ seen) then search fuel' rest seen
          else
            match expand n with
            | None => Some true
            | Some pushed => search fuel' (reverse pushed ++ rest) ({[n]} ∪ seen)
            end
      end
  end.

Definition search_step (n m : K) : Prop := ∃ pushed, expand n = Some pushed ∧ m ∈ pushed.
Definition search_goal (n : K) : Prop := hit n = true ∨ expand n = None.

(** Seen nodes are no goals, and their successors are seen or waiting. *)
Definition search_inv (stack : list K) (seen : gset K) : Prop :=
  ∀ n, n ∈ seen → ¬ search_goal n ∧ ∀ m, search_step n m → m ∈ seen ∨ m ∈ stack.

Lemma search_inv_closed seen n m :
  search_inv [] seen → n ∈ seen → rtc search_step n m → m ∈ seen ∧ ¬ search_goal m.
Proof.
  intros Hinv Hn Hr. induction Hr as [n|n n' m Hs Hr IH]; [by split; [|apply Hinv]|].
  apply IH. destruct (Hinv n Hn) as [_ Hsucc]. destruct (Hsucc n' Hs) as [|Hx]; [done|].
  by apply elem_of_nil in Hx.
Qed.

Lemma search_sound fuel : ∀ stack seen,
  search fuel stack seen = Some true → ∃ s n, s ∈ stack ∧ rtc search_step s n ∧ search_goal n.
Proof.
  induction fuel as [|fuel IH]; intros stack seen Hs; [done|]. cbn in Hs.
  destruct stack as [|n rest]; [done|].
  destruct (hit n) eqn:Eh; [exists n, n; split_and!; [left|done|by left]|].
  case_decide as Hn.
  { apply IH in Hs as (s & m & Hs & ?). exists s, m. split; [by right|done]. }
  destruct (expand n) as [pushed|] eqn:Ee; [|exists n, n; split_and!; [left|done|by right]].
  apply IH in Hs as (s & m & Hs & Hr & Hg). apply elem_of_app in Hs as [Hs|Hs].
  - exists n, m. split_and!; [left| |done]. apply rtc_l with s; [|done]. exists pushed.
    by rewrite elem_of_reverse in Hs.
  - exists s, m. split_and!; [by right|done|done].
Qed.

Lemma search_complete fuel : ∀ stack seen,
  search_inv stack seen → search fuel stack seen = Some false →
  ∀ s n, s ∈ stack ∨ s ∈ seen → rtc search_step s n → ¬ search_goal n.
Proof.
  induction fuel as [|fuel IH]; intros stack seen Hinv Hs; [done|]. cbn in Hs.
  destruct stack as [|n rest].
  { intros s m [Hs'|Hs'] Hr; [by apply elem_of_nil in Hs'|].
    by eapply (search_inv_closed seen s m). }
  destruct (hit n) eqn:Eh; [done|]. case_decide as Hn.
  { assert (search_inv rest seen) as Hinv'.
    { intros x Hx. destruct (Hinv x Hx) as [Hg Hsucc]. split; [done|]. intros m Hm.
      destruct (Hsucc m Hm) as [|[->|]%elem_of_cons]; auto. }
    intros s m [[->|Hm]%elem_of_cons|Hm]; eapply IH; eauto. }
  destruct (expand n) as [pushed|] eqn:Ee; [|done].
  assert (search_inv (reverse pushed ++ rest) ({[n]} ∪ seen)) as Hinv'.
  { intros x [Hx|Hx]%elem_of_union.
    - apply elem_of_singleton in Hx as ->. split.
      + intros [?|?]; congruence.
      + intros m (p & Hp & Hm). rewrite Ee in Hp. injection Hp as <-. right.
        apply elem_of_app. left. by rewrite elem_of_reverse.
    - destruct (Hinv x Hx) as [Hg Hsucc]. split; [done|]. intros m Hm.
      destruct (Hsucc m Hm) as [|[->|]%elem_of_cons]; set_solver. }
  intros s m [[->|Hm]%elem_of_cons|Hm]; eapply (IH _ _ Hinv' Hs); set_solver.
Qed.

(** The loop decides whether a goal is reachable from the initial stack. *)
Theorem search_spec fuel stack b :
  search fuel stack ∅ = Some b →
  b = true ↔ ∃ s n, s ∈ stack ∧ rtc search_step s n ∧ search_goal n.
Proof.
  intros Hs. destruct b.
  - split; [|done]. intros _. by eapply search_sound.
  - split; [done|]. intros (s & n & Hin & Hr & Hg). exfalso.
    refine (search_complete fuel stack ∅ _ Hs s n _ Hr Hg); [|by left].
    intros x Hx. set_solver.
Qed.

(** ** Fuel *)

Definition search_deg (n : K) : nat := length (default [] (expand n)).
Definition search_pot (U : list K) (seen : gset K) : nat :=
  sum_list (search_deg <$> filter (λ n, n ∉ seen) U).

Lemma search_pot_mono U seen n : search_pot U ({[n]} ∪ seen) ≤ search_pot U seen.
Proof.
  unfold search_pot. induction U as [|x U IH]; [done|]. rewrite !filter_cons.
  repeat case_decide; cbn in *; set_solver by lia.
Qed.

Lemma search_pot_seen U seen n :
  n ∈ U → n ∉ seen → search_pot U ({[n]} ∪ seen) + search_deg n ≤ search_pot U seen.
Proof.
  intros HU Hn. induction HU as [n U|n x U HU IH].
  - pose proof (search_pot_mono U seen n) as Hm. unfold search_pot in *. rewrite !filter_cons.
    rewrite decide_False by set_solver. rewrite decide_True by done. cbn. lia.
  - specialize (IH Hn). unfold search_pot in *. rewrite !filter_cons.
    repeat case_decide; cbn in *; set_solver by lia.
Qed.

(** Enough fuel: one more than the pushes that can still happen. *)
Theorem search_fuel U : (∀ n, n ∉ U → search_deg n = 0) →
  ∀ fuel stack seen, length stack + search_pot U seen < fuel →
  is_Some (search fuel stack seen).
Proof.
  intros HU. induction fuel as [|fuel IH]; intros stack seen Hf; [lia|]. cbn.
  destruct stack as [|n rest]; [done|]. destruct (hit n); [done|].
  cbn [length] in Hf. case_decide as Hn; [apply IH; lia|].
  destruct (expand n) as [pushed|] eqn:Ee; [|done].
  apply IH. rewrite length_app, length_reverse.
  assert (Hd : search_deg n = length pushed) by (unfold search_deg; by rewrite Ee).
  destruct (decide (n ∈ U)) as [Hin|Hout].
  - pose proof (search_pot_seen U seen n Hin Hn). lia.
  - specialize (HU n Hout). pose proof (search_pot_mono U seen n). lia.
Qed.

Lemma search_pot_le U seen : search_pot U seen ≤ sum_list (search_deg <$> U).
Proof.
  unfold search_pot. induction U as [|x U IH]; [done|]. rewrite filter_cons.
  case_decide; cbn; lia.
Qed.

(** [search] with enough fuel, as a total function. *)
Definition search_total (U : list K) (stack : list K) : bool :=
  default false (search (S (length stack + sum_list (search_deg <$> U))) stack ∅).

Theorem search_total_spec U stack :
  (∀ n, n ∉ U → search_deg n = 0) →
  search_total U stack = true ↔ ∃ s n, s ∈ stack ∧ rtc search_step s n ∧ search_goal n.
Proof.
  intros HU. unfold search_total.
  destruct (search_fuel U HU (S (length stack + sum_list (search_deg <$> U))) stack ∅) as [b Hb].
  - pose proof (search_pot_le U ∅). lia.
  - rewrite Hb. cbn. by apply search_spec in Hb.
Qed.
End Search.
