(* ===== verification/Routing.v ===== *)
(** * Routing

    [crates/tinyflows/src/graph/compiled/routing.rs]: how the activations a
    superstep completed become the activations of the next one.  Commands win
    over edges, edges over conditional branches; a waiting (barrier) node is
    held until its required predecessors have arrived, and the relief pass
    registers the arrival of a predecessor whose branch was not taken. *)

From S2P Require Import Prelude Json GraphTypes Search Checkpoint Builder.

(** The local variables of [route_completed]: the successors scheduled so far,
    the plain nodes among them, the barrier arrivals (a [&mut] parameter) and
    the events emitted. *)
Record RouteAcc := mkAcc {
  ra_next : list Activation;
  ra_seen : gset NodeId;
  ra_arrivals : gmap NodeId (gset NodeId);
  ra_events : list GraphEvent
}.

Section Routing.
Context {State Update C : Type}.
Implicit Types g : CompiledGraph State Update C.

Definition validate_route_target g (node_id : NodeId) (target : RouteTarget) : Result unit :=
  let target_node := target_node target in
  if decide (target_node = END) then Ok tt
  else if decide (target_node = START)
  then Err (GraphErr ("command goto from node `" +:+ node_id +:+ "` cannot target START"))
  else if decide (is_Some (cg_nodes g !! target_node)) then Ok tt
  else Err (MissingNode target_node).

Definition validate_route_targets g (node_id : NodeId) (targets : list RouteTarget) : Result unit :=
  for_each (validate_route_target g node_id) targets.

Definition route g (node_id : NodeId) (goto : option (list RouteTarget)) (state : State)
    : Result (list RouteTarget) :=
  match goto with
  | Some targets =>
      let? _ := validate_route_targets g node_id targets in Ok targets
  | None =>
      match cg_edges g !! node_id with
      | Some target => Ok [RTNode target]
      | None =>
          match cg_branches g !! node_id with
          | Some branch =>
              let label := branch_router branch state in
              let? target := ok_or (branch_routes branch !! label) (MissingRoute node_id label) in
              Ok [RTNode target]
          | None => Ok []
          end
      end
  end.

(** ** Deterministic reachability *)

(** What the loop body looks at for [current]: its edge, then the declared
    destinations of an unconditional fan-out. *)
Definition det_successors g (current : NodeId) : list NodeId :=
  match cg_edges g !! current with Some next => [next] | None => [] end ++
  match cg_node_meta g !! current with
  | Some m => if meta_command_fanout m then meta_command_destinations m else []
  | None => []
  end.

Definition det_expand g (to stop : NodeId) (current : NodeId) : option (list NodeId) :=
  if decide (to ∈ det_successors g current) then None
  else Some (filter (λ n, n ≠ stop) (det_successors g current)).

(** The nodes that can have a deterministic successor. *)
Definition det_domain g : list NodeId :=
  elements (dom (cg_edges g) ∪ dom (cg_node_meta g)).

Definition reaches_deterministically g (from to stop : NodeId) : bool :=
  if decide (from = to) then true
  else search_total (λ _, false) (det_expand g to stop) (det_domain g) [from].

(** ** One selected target *)

(** The barrier gate.  [false]: hold the target. *)
Definition gate g (node_id tnode : NodeId) (arrivals : gmap NodeId (gset NodeId))
    : gmap NodeId (gset NodeId) * bool :=
  match cg_waiting g !! tnode with
  | Some required =>
      if decide (node_id ∈ required) then
        let arrived := {[node_id]} ∪ default ∅ (arrivals !! tnode) in
        if decide (required ⊆ arrived) then (delete tnode arrivals, true)
        else (<[tnode := arrived]> arrivals, false)
      else (arrivals, true)
  | None => (arrivals, true)
  end.

Definition schedule (acc : RouteAcc) (tnode : NodeId) (send_arg : option value) : RouteAcc :=
  match send_arg with
  | Some _ =>
      mkAcc (ra_next acc ++ [mkActivation tnode send_arg ""]) (ra_seen acc)
        (ra_arrivals acc) (ra_events acc)
  | None =>
      if decide (tnode ∈ ra_seen acc) then acc
      else mkAcc (ra_next acc ++ [mkActivation tnode None ""]) ({[tnode]} ∪ ra_seen acc)
             (ra_arrivals acc) (ra_events acc)
  end.

Definition select_target g (node_id : NodeId) (acc : RouteAcc) (target : RouteTarget) : RouteAcc :=
  let tnode := target_node target in
  if decide (tnode = END) then acc
  else
    let events := ra_events acc ++ [RouteSelected node_id tnode] in
    let '(arrivals, pass) := gate g node_id tnode (ra_arrivals acc) in
    let acc' := mkAcc (ra_next acc) (ra_seen acc) arrivals events in
    if pass then schedule acc' tnode (target_send_arg target) else acc'.

(** The first loop.  An error of [route] leaves the loop with the accumulator
    as it is. *)
Fixpoint route_loop g (goto_map : gmap nat (list RouteTarget)) (state : State)
    (index : nat) (completed : list Activation) (acc : RouteAcc)
    (resolved : list (list RouteTarget)) : RouteAcc * Result (list (list RouteTarget)) :=
  match completed with
  | [] => (acc, Ok resolved)
  | a :: rest =>
      match route g (act_node a) (goto_map !! index) state with
      | Err e => (acc, Err e)
      | Ok targets =>
          route_loop g goto_map state (S index) rest
            (foldl (select_target g (act_node a)) acc targets) (resolved ++ [targets])
      end
  end.

(** ** Barrier relief *)

(** [resolved[*index].iter().any(|t| reaches(t, to, stop))] over the source's
    indices. *)
Definition taken_toward g (resolved : list (list RouteTarget)) (source_indices : list nat)
    (to stop : NodeId) : bool :=
  existsb (λ index,
    existsb (λ t, reaches_deterministically g (target_node t) to stop)
      (default [] (resolved !! index))) source_indices.

Definition source_indices (completed : list Activation) (source : NodeId) : list nat :=
  (filter (λ p, act_node p.2 = source) (imap pair completed)).*1.

Definition relieve g (completed : list Activation) (resolved : list (list RouteTarget))
    (acc : RouteAcc) (relief : BarrierRelief) : RouteAcc :=
  let sources := source_indices completed (relief_source relief) in
  if decide (sources = []) then acc
  else if taken_toward g resolved sources (relief_node relief) (relief_barrier relief)
          || bool_decide (relief_node relief ∈ ra_seen acc)
  then acc
  else
    match cg_waiting g !! relief_barrier relief with
    | None => acc
    | Some required =>
        let already_arrived :=
          match ra_arrivals acc !! relief_barrier relief with
          | Some arrived => bool_decide (arrived ≠ ∅)
          | None => false
          end in
        let barrier_engaged :=
          already_arrived ||
          existsb (λ predecessor, taken_toward g resolved sources predecessor
                                    (relief_barrier relief)) (elements required) in
        if barrier_engaged then
          let arrived :=
            {[relief_node relief]} ∪ default ∅ (ra_arrivals acc !! relief_barrier relief) in
          if decide (required ⊆ arrived) then
            schedule (mkAcc (ra_next acc) (ra_seen acc)
                       (delete (relief_barrier relief) (ra_arrivals acc)) (ra_events acc))
              (relief_barrier relief) None
          else mkAcc (ra_next acc) (ra_seen acc)
                 (<[relief_barrier relief := arrived]> (ra_arrivals acc)) (ra_events acc)
        else acc
    end.

(** [route_completed]: the updated arrivals, the events emitted, and the next
    active set. *)
Definition route_completed g (completed : list Activation)
    (goto_map : gmap nat (list RouteTarget)) (state : State)
    (arrivals : gmap NodeId (gset NodeId))
    : gmap NodeId (gset NodeId) * list GraphEvent * Result (list Activation) :=
  let '(acc, r) := route_loop g goto_map state 0 completed (mkAcc [] ∅ arrivals []) [] in
  match r with
  | Err e => (ra_arrivals acc, ra_events acc, Err e)
  | Ok resolved =>
      let acc' := foldl (relieve g completed resolved) acc (cg_barrier_reliefs g) in
      (ra_arrivals acc', ra_events acc', Ok (ra_next acc'))
  end.

Definition require_interrupt_durability g (thread_id : option ThreadId) : Result unit :=
  match cg_checkpointer g with
  | None => Err (Resume "interrupt emitted without a configured checkpointer")
  | Some _ =>
      match thread_id with
      | None => Err (Resume "interrupt emitted without a thread id")
      | Some _ => Ok tt
      end
  end.
End Routing.

(** * Properties of routing

    Deterministic reachability is decided exactly; on a well-formed graph only
    registered nodes are scheduled, each plain node once; a barrier fires when
    and only when its required predecessors have arrived. *)

Section Reach.
Context {State Update C : Type} (g : CompiledGraph State Update C).

(** [m] always runs after [n]: its static edge, or a fan-out destination. *)
Definition det_edge (n m : NodeId) : Prop :=
  cg_edges g !! n = Some m ∨
  ∃ meta, cg_node_meta g !! n = Some meta ∧ meta_command_fanout meta = true ∧
    m ∈ meta_command_destinations meta.
Definition det_edge_avoiding (stop n m : NodeId) : Prop := det_edge n m ∧ m ≠ stop.

Lemma elem_of_det_successors n m : m ∈ det_successors g n ↔ det_edge n m.
Proof.
  unfold det_successors, det_edge. rewrite elem_of_app. f_equiv.
  - destruct (cg_edges g !! n); set_solver.
  - destruct (cg_node_meta g !! n) as [meta|]; [destruct (meta_command_fanout meta) eqn:E|];
      rewrite ?elem_of_nil; naive_solver congruence.
Qed.

Lemma det_successors_domain n : n ∉ det_domain g → det_successors g n = [].
Proof.
  unfold det_domain, det_successors. rewrite elem_of_elements, not_elem_of_union, !not_elem_of_dom.
  by intros [-> ->].
Qed.

Lemma det_expand_None to stop n : det_expand g to stop n = None ↔ det_edge n to.
Proof. unfold det_expand. rewrite <- elem_of_det_successors. case_decide; naive_solver. Qed.

Lemma det_search_step to stop n m :
  search_step (det_expand g to stop) n m ↔ ¬ det_edge n to ∧ det_edge_avoiding stop n m.
Proof.
  unfold search_step, det_expand, det_edge_avoiding. rewrite <- !elem_of_det_successors.
  case_decide; [naive_solver|]. split.
  - intros (? & [= <-] & Hm). apply list_elem_of_filter in Hm. naive_solver.
  - intros (? & ? & ?). eexists. split; [done|]. by apply list_elem_of_filter.
Qed.

(** A path of avoiding steps whose end leads to [to] can be cut at the first
    node that leads there: the search follows it. *)
Lemma det_path_search to stop n m :
  rtc (det_edge_avoiding stop) n m → det_edge m to →
  ∃ k, rtc (search_step (det_expand g to stop)) n k ∧ det_edge k to.
Proof.
  intros Hr Hm. induction Hr as [m|n n' m Hs Hr IH]; [by exists m|].
  destruct (decide (to ∈ det_successors g n)) as [Hn|Hn].
  { exists n. split; [done|]. by apply elem_of_det_successors. }
  rewrite elem_of_det_successors in Hn. destruct (IH Hm) as (k & Hk & Hto). exists k.
  split; [|done]. apply rtc_l with n'; [|done]. by apply det_search_step.
Qed.

Lemma det_search_path to stop n m :
  rtc (search_step (det_expand g to stop)) n m → rtc (det_edge_avoiding stop) n m.
Proof. apply rtc_subrel. intros x y Hxy. by apply det_search_step in Hxy as [_ ?]. Qed.

Lemma reaches_deterministically_iff from to stop :
  reaches_deterministically g from to stop = true ↔
  from = to ∨ ∃ n, rtc (det_edge_avoiding stop) from n ∧ det_edge n to.
Proof.
  unfold reaches_deterministically. case_decide as Hft; [naive_solver|].
  rewrite search_total_spec; last first.
  { intros n Hn. unfold search_deg, det_expand. rewrite det_successors_domain by done.
    rewrite decide_False; [done|apply not_elem_of_nil]. }
  split.
  - intros (s & n & ->%list_elem_of_singleton & Hr & [Hg|Hg]); [done|]. right. exists n. split.
    + by eapply det_search_path.
    + by apply det_expand_None in Hg.
  - intros [?|(n & Hr & Hn)]; [done|]. destruct (det_path_search _ _ _ _ Hr Hn) as (k & Hk & Hto).
    exists from, k. split_and!; [left|done|]. right. by apply det_expand_None.
Qed.
End Reach.

(** ** Targets of a well-formed graph *)

Section Targets.
Context {State Update C : Type} (g : CompiledGraph State Update C).
Definition target_ok (t : RouteTarget) : Prop :=
  target_node t = END ∨ is_Some (cg_nodes g !! target_node t).

Lemma validate_route_targets_Ok node ts :
  validate_route_targets g node ts = Ok tt →
  Forall (λ t, target_ok t ∧ (target_node t = END ∨ target_node t ≠ START)) ts.
Proof.
  unfold validate_route_targets, validate_route_target, target_ok. rewrite for_each_Ok.
  intros H. eapply Forall_impl; [exact H|]. intros t. cbn.
  repeat case_decide; intros; try discriminate; auto.
Qed.

Lemma route_ok node goto st ts :
  graph_wf g → route g node goto st = Ok ts → Forall target_ok ts.
Proof.
  intros Hwf Hr. unfold route in Hr. destruct goto as [targets|].
  { inv_ok. match goal with H : validate_route_targets _ _ _ = Ok ?x |- _ => destruct x;
      apply validate_route_targets_Ok in H; eapply Forall_impl; [exact H|naive_solver] end. }
  destruct (cg_edges g !! node) as [to|] eqn:Ee.
  { inv_ok. apply Forall_singleton. apply (wf_edges g Hwf) in Ee. unfold target_ok. naive_solver. }
  destruct (cg_branches g !! node) as [br|] eqn:Eb; inv_ok; [|done].
  apply Forall_singleton. apply (wf_branches g Hwf) in Eb as (_ & _ & Hb).
  unfold target_ok. cbn. by eapply Hb.
Qed.

(** ** The accumulator's invariant *)

Definition plain_nodes (l : list Activation) : list NodeId :=
  activation_nodes (filter (λ a, act_send_arg a = None) l).

(** Scheduled activations are registered nodes with no task id yet, the plain
    ones are exactly [ra_seen], each once. *)
Definition next_ok (next : list Activation) : Prop :=
  Forall (λ a, is_Some (cg_nodes g !! act_node a) ∧ act_task_id a = "") next.

Record acc_ok (acc : RouteAcc) : Prop := {
  acc_next : next_ok (ra_next acc);
  acc_nodup : NoDup (plain_nodes (ra_next acc));
  acc_seen : ∀ n, n ∈ ra_seen acc ↔ n ∈ plain_nodes (ra_next acc)
}.

Lemma plain_nodes_app l1 l2 : plain_nodes (l1 ++ l2) = plain_nodes l1 ++ plain_nodes l2.
Proof. unfold plain_nodes, activation_nodes. by rewrite filter_app, fmap_app. Qed.

Lemma schedule_ok acc n arg :
  acc_ok acc → is_Some (cg_nodes g !! n) → acc_ok (schedule acc n arg).
Proof.
  intros [Hn Hd Hs] Hin. unfold schedule. destruct arg as [v|]; [|case_decide as Hseen; [done|]].
  all: split; cbn [ra_next ra_seen]; [apply Forall_app; split; [done|by apply Forall_singleton]|
    rewrite plain_nodes_app|intros m; rewrite plain_nodes_app].
  - unfold plain_nodes at 2. cbn. by rewrite app_nil_r.
  - unfold plain_nodes at 2. cbn. rewrite app_nil_r. apply Hs.
  - apply NoDup_app. split_and!; [done| |apply NoDup_singleton].
    intros m Hm Hx. apply list_elem_of_singleton in Hx as ->. by apply Hs in Hm.
  - unfold plain_nodes at 2. cbn. rewrite elem_of_union, elem_of_app, Hs. set_solver.
Qed.

Lemma acc_ok_arrivals acc arr evs :
  acc_ok acc → acc_ok (mkAcc (ra_next acc) (ra_seen acc) arr evs).
Proof. by intros [? ? ?]. Qed.

Lemma select_target_ok node acc t :
  acc_ok acc → target_ok t → acc_ok (select_target g node acc t).
Proof.
  intros Ha Ht. unfold select_target. case_decide as He; [done|].
  destruct (gate _ _ _ _) as [arr []]; [|by apply acc_ok_arrivals].
  apply schedule_ok; [by apply acc_ok_arrivals|]. by destruct Ht.
Qed.

Lemma select_targets_ok node ts : ∀ acc,
  acc_ok acc → Forall target_ok ts → acc_ok (foldl (select_target g node) acc ts).
Proof.
  induction ts as [|t ts IH]; intros acc Ha Hts; [done|]. apply Forall_cons in Hts as [Ht Hts].
  cbn. apply IH; [by apply select_target_ok|done].
Qed.

Lemma route_loop_ok goto_map st completed : ∀ index acc resolved acc' r,
  graph_wf g → acc_ok acc →
  route_loop g goto_map st index completed acc resolved = (acc', r) → acc_ok acc'.
Proof.
  induction completed as [|a rest IH]; intros index acc resolved acc' r Hwf Ha Hl; cbn in Hl.
  { by inv_ok. }
  destruct (route g _ _ _) as [ts|e] eqn:Er; [|by inv_ok].
  eapply IH; [done| |done]. apply select_targets_ok; [done|by eapply route_ok].
Qed.

(** The three outcomes of one relief: nothing, a phantom arrival, or the
    barrier fires. *)
Lemma relieve_cases completed resolved acc r :
  relieve g completed resolved acc r = acc ∨
  ∃ required, cg_waiting g !! relief_barrier r = Some required ∧
    source_indices completed (relief_source r) ≠ [] ∧
    taken_toward g resolved (source_indices completed (relief_source r))
      (relief_node r) (relief_barrier r) = false ∧
    let arrived := {[relief_node r]} ∪ default ∅ (ra_arrivals acc !! relief_barrier r) in
    (required ⊆ arrived ∧
     relieve g completed resolved acc r =
       schedule (mkAcc (ra_next acc) (ra_seen acc)
                  (delete (relief_barrier r) (ra_arrivals acc)) (ra_events acc))
         (relief_barrier r) None) ∨
    (¬ required ⊆ arrived ∧
     relieve g completed resolved acc r =
       mkAcc (ra_next acc) (ra_seen acc) (<[relief_barrier r := arrived]> (ra_arrivals acc))
         (ra_events acc)).
Proof.
  unfold relieve. destruct (decide (source_indices _ _ = [])) as [|Hs]; [by left|].
  destruct (taken_toward _ _ _ _ _) eqn:Et; [by left|]. cbn [orb].
  destruct (bool_decide (_ ∈ ra_seen acc)); [by left|].
  destruct (cg_waiting g !! _) as [req|]; [|by left].
  match goal with |- context [if ?e then _ else _] => destruct e end; [|by left].
  right. exists req. split_and!; [done..|]. cbn zeta. case_decide; [left|right]; done.
Qed.

Lemma relieve_ok completed resolved acc r :
  graph_wf g → acc_ok acc → acc_ok (relieve g completed resolved acc r).
Proof.
  intros Hwf Ha. destruct (relieve_cases completed resolved acc r)
    as [->|(req & Hw & _ & _ & [[_ ->]|[_ ->]])]; [done| |by apply acc_ok_arrivals].
  apply schedule_ok; [by apply acc_ok_arrivals|]. by apply (wf_waiting g Hwf) in Hw as [? _].
Qed.

Lemma relieves_ok completed resolved rs : ∀ acc,
  graph_wf g → acc_ok acc → acc_ok (foldl (relieve g completed resolved) acc rs).
Proof.
  induction rs as [|r rs IH]; intros acc Hwf Ha; [done|]. cbn. apply IH; [done|].
  by apply relieve_ok.
Qed.

Lemma acc_ok_init arr : acc_ok (mkAcc [] ∅ arr []).
Proof. split; cbn; [constructor|constructor|set_solver]. Qed.

Lemma route_completed_next completed goto_map st arr arr' evs next :
  graph_wf g → route_completed g completed goto_map st arr = (arr', evs, Ok next) →
  next_ok next ∧ NoDup (plain_nodes next).
Proof.
  intros Hwf Hr. unfold route_completed in Hr.
  destruct (route_loop _ _ _ _ _ _ _) as [acc [resolved|e]] eqn:El; inv_ok.
  apply route_loop_ok in El; [|done|apply acc_ok_init].
  destruct (relieves_ok completed resolved (cg_barrier_reliefs g) acc Hwf El). done.
Qed.
End Targets.
