(* ===== verification/Lineage.v ===== *)
(** * Lineage: history walk and pruning

    The parent-pointer walk of [Checkpointer::state_history] terminates on any
    store content, and [Checkpointer::prune] deletes neither an ancestor of a
    surviving checkpoint nor the latest checkpoint of a namespace. *)

From S2P Require Import Prelude Json GraphTypes Checkpoint.

(** ** The history walk *)

(** Consecutive tuples are linked by the parent pointer. *)
Fixpoint lineage_linked {State} (l : list (CheckpointTuple State)) : Prop :=
  match l with
  | t :: (t' :: _) as rest =>
      cp_parent_checkpoint_id (ct_checkpoint t) = Some (cp_checkpoint_id (ct_checkpoint t')) ∧
      lineage_linked rest
  | _ => True
  end.

Definition tuple_id {State} (t : CheckpointTuple State) : string :=
  cp_checkpoint_id (ct_checkpoint t).

Section Walk.
Context {State C : Type} (ops : CheckpointerOps State C) (s : C) (thread : string)
        (ns : list string) (limit : option nat) (ids : gset string).

(** What the walk needs of the store: reads succeed, return the addressed
    record, and every record they return is one of finitely many. *)
Hypothesis tuple_ok : ∀ cursor, ∃ o, get_tuple ops s (mkConfig thread cursor ns) = Ok o.
Hypothesis tuple_in : ∀ cursor t,
  get_tuple ops s (mkConfig thread cursor ns) = Ok (Some t) → tuple_id t ∈ ids.
Hypothesis tuple_addressed : ∀ i t,
  get_tuple ops s (mkConfig thread (Some i) ns) = Ok (Some t) → tuple_id t = i.

(** The state of the walk: what was collected is linked, has distinct ids which
    are the visited ones, and the cursor is the parent of the last record. *)
Definition walk_inv (cursor : option string) (visited : gset string)
    (out : list (CheckpointTuple State)) : Prop :=
  NoDup (tuple_id <$> out) ∧ lineage_linked out ∧ visited = list_to_set (tuple_id <$> out) ∧
  match last out with
  | Some t => cp_parent_checkpoint_id (ct_checkpoint t) = cursor ∧ is_Some cursor
  | None => cursor = None
  end ∧
  match limit with Some l => length out ≤ l | None => True end.

Lemma lineage_linked_snoc (l : list (CheckpointTuple State)) t :
  lineage_linked l →
  (∀ u, last l = Some u → cp_parent_checkpoint_id (ct_checkpoint u) = Some (tuple_id t)) →
  lineage_linked (l ++ [t]).
Proof.
  induction l as [|a [|b l] IH]; intros Hl Hu; [done|split; [by apply Hu|done]|].
  destruct Hl as [Hab Hl]. split; [done|]. by apply IH.
Qed.

Lemma history_walk_spec fuel : ∀ cursor visited out,
  walk_inv cursor visited out → visited ⊆ ids → size (ids ∖ visited) < fuel →
  ∃ r, history_walk ops fuel s thread ns limit cursor visited out = Some (Ok r) ∧
       NoDup (tuple_id <$> r) ∧ lineage_linked r ∧ out `prefix_of` r ∧
       match limit with Some l => length r ≤ l | None => True end.
Proof.
  induction fuel as [|fuel IH]; intros cursor visited out Hinv Hsub Hfuel; [lia|].
  destruct Hinv as (Hnd & Hlink & Hvis & Hlast & Hlim). cbn [history_walk].
  destruct (match limit with Some l => bool_decide (l ≤ length out) | None => false end) eqn:El.
  { exists out. by split_and!. }
  destruct (tuple_ok cursor) as [o Ho]. rewrite Ho. destruct o as [t|]; [|by exists out; split_and!].
  cbn zeta. case_decide as Hin; [by exists out; split_and!|]. fold (tuple_id t) in *.
  assert (Hlink' : lineage_linked (out ++ [t])).
  { apply lineage_linked_snoc; [done|]. intros u Hu. rewrite Hu in Hlast.
    destruct Hlast as [Hp [i ->]]. rewrite Hp. f_equal. symmetry. by apply tuple_addressed. }
  assert (Hnd' : NoDup (tuple_id <$> (out ++ [t]))).
  { rewrite fmap_app. apply NoDup_app. split_and!; [done| |apply NoDup_singleton].
    intros x Hx Hx'. apply list_elem_of_singleton in Hx' as ->. apply Hin. rewrite Hvis.
    by apply elem_of_list_to_set. }
  assert (Hlim' : match limit with Some l => length (out ++ [t]) ≤ l | None => True end).
  { destruct limit; [|done]. apply bool_decide_eq_false in El. rewrite length_app. cbn. lia. }
  destruct (cp_parent_checkpoint_id (ct_checkpoint t)) as [parent|] eqn:Ep;
    [|exists (out ++ [t]); split_and!; [done..|by apply prefix_app_r|done]].
  pose proof (tuple_in _ _ Ho) as Hid.
  destruct (IH (Some parent) ({[tuple_id t]} ∪ visited) (out ++ [t])) as (r & Hr & H1 & H2 & H3 & H4).
  - split_and!; [done|done| | |done].
    + rewrite Hvis, fmap_app, list_to_set_app_L. cbn. set_solver.
    + rewrite last_snoc. by split.
  - set_solver.
  - assert (ids ∖ visited = {[tuple_id t]} ∪ (ids ∖ ({[tuple_id t]} ∪ visited))) as E.
    { apply set_eq. intros x. destruct (decide (x = tuple_id t)) as [->|]; set_solver. }
    rewrite E, size_union, size_singleton in Hfuel by set_solver. lia.
  - exists r. split_and!; [done|done|done| |done]. etrans; [by apply prefix_app_r|done].
Qed.

End Walk.

(** The walk over the in-memory store: the number of stored records bounds it,
    whatever their parent pointers are. *)
Section MemHistory.
Context {State : Type}.
Implicit Types s : MemStore State.

Lemma mem_get_writes_ok s cfg : is_Some (cfg_checkpoint_id cfg) →
  ∃ ws, mem_get_writes s cfg = Ok ws.
Proof. intros [i Hi]. unfold mem_get_writes. rewrite Hi. cbn. eauto. Qed.

Lemma mem_get_tuple_eq s cfg :
  ∃ f, get_tuple mem_ops s cfg =
    Ok (f <$> (rfind (scoped_match (cfg_checkpoint_id cfg) (cfg_namespace cfg))
                 (mem_thread s (cfg_thread_id cfg)) >>? λ c,
        rfind (λ c', bool_decide (cp_checkpoint_id c' = cp_checkpoint_id c))
          (mem_thread s (cfg_thread_id cfg)))) ∧
    ∀ c, ct_checkpoint (f c) = c.
Proof.
  unfold get_tuple. cbn [mem_ops ck_get_scoped]. rewrite mem_get_scoped_eq. cbn [rbind].
  destruct (rfind _ _ >>? _) as [c|].
  - unfold resolved_writes. cbn [mem_ops ck_get_writes].
    destruct (mem_get_writes_ok s
      (mkConfig (cp_thread_id c) (Some (cp_checkpoint_id c)) (cp_namespace c))) as [ws Hws]; [done|].
    rewrite Hws. cbn [rbind].
    eexists (λ c', mkTuple _ c' _ _). by split.
  - exists (λ c, mkTuple cfg c None []). by split.
Qed.

Lemma mem_state_history s thread ns limit :
  ∃ r, state_history mem_ops (S (mem_count s thread)) s thread ns limit = Some (Ok r) ∧
    NoDup (tuple_id <$> r) ∧ lineage_linked r ∧
    match limit with Some l => length r ≤ l | None => True end.
Proof.
  set (ids := list_to_set (cp_checkpoint_id <$> mem_thread s thread) : gset string).
  assert (Hsz : size ids ≤ mem_count s thread).
  { unfold mem_count. rewrite <- (length_fmap cp_checkpoint_id). unfold ids.
    induction (cp_checkpoint_id <$> mem_thread s thread) as [|x l IH]; [by cbn; rewrite size_empty|].
    cbn [list_to_set length]. rewrite size_union_alt, size_singleton.
    pose proof (subseteq_size (list_to_set l ∖ {[x]} : gset string) (list_to_set l)). set_solver by lia. }
  unfold state_history.
  destruct (history_walk_spec mem_ops s thread ns limit ids) with
    (fuel := S (mem_count s thread)) (cursor := None : option string)
    (visited := ∅ : gset string) (out := [] : list (CheckpointTuple State))
    as (r & Hr & H1 & H2 & _ & H4).
  - intros cursor. destruct (mem_get_tuple_eq s (mkConfig thread cursor ns)) as (f & -> & _). eauto.
  - intros cursor t Ht. destruct (mem_get_tuple_eq s (mkConfig thread cursor ns)) as (f & Hf & Hc).
    rewrite Hf in Ht. inv_ok. apply fmap_Some in Ht as (c & Hs & ->). unfold tuple_id. rewrite Hc.
    apply and_then_Some in Hs as (c' & _ & Hs). apply rfind_Some in Hs as [Hs _].
    unfold ids. apply elem_of_list_to_set, list_elem_of_fmap. eauto.
  - intros i t Ht. destruct (mem_get_tuple_eq s (mkConfig thread (Some i) ns)) as (f & Hf & Hc).
    rewrite Hf in Ht. inv_ok. apply fmap_Some in Ht as (c & Hs & ->). unfold tuple_id. rewrite Hc.
    apply and_then_Some in Hs as (c' & Hm & Hs).
    apply rfind_Some in Hs as [_ Hs]. apply bool_decide_eq_true in Hs.
    apply rfind_Some in Hm as [_ Hm]. unfold scoped_match in Hm.
    apply andb_true_iff in Hm as [_ Hm]. apply bool_decide_eq_true in Hm. congruence.
  - split_and!; cbn; [constructor|done|done|done|]. destruct limit; [lia|done].
  - set_solver.
  - rewrite difference_empty_L. lia.
  - eauto.
Qed.
End MemHistory.

(** ** Pruning *)

Section PruneChain.
Implicit Types (parents : gmap string (option string)) (P : gset string).

(** Protecting a chain from [cursor]: nothing is unprotected, the cursor is
    protected, and every newly protected id has its parent protected. *)
Lemma protect_chain_spec parents fuel : ∀ cursor P,
  size (dom parents ∖ P) < fuel →
  let P' := protect_chain fuel parents cursor P in
  P ⊆ P' ∧ (∀ p, cursor = Some p → p ∈ P') ∧
  (∀ x p, x ∈ P' → x ∉ P → mjoin (parents !! x) = Some p → p ∈ P').
Proof.
  induction fuel as [|fuel IH]; intros cursor P Hfuel; [lia|]. cbn.
  destruct cursor as [q|]; [|split_and!; naive_solver].
  case_decide as Hq; [split_and!; naive_solver|].
  destruct (parents !! q) as [next|] eqn:Eq.
  - destruct (IH (mjoin (Some next)) ({[q]} ∪ P)) as (H1 & H2 & H3).
    { assert (dom parents ∖ P = {[q]} ∪ (dom parents ∖ ({[q]} ∪ P))) as E.
      { apply set_eq. intros x. destruct (decide (x = q)) as [->|]; [|set_solver].
        apply elem_of_dom_2 in Eq. set_solver. }
      rewrite E, size_union, size_singleton in Hfuel by set_solver. lia. }
    cbn in *. split_and!; [set_solver|intros ? [= <-]; set_solver|].
    intros x p Hx Hn Hp. destruct (decide (x = q)) as [->|Hxq].
    + rewrite Eq in Hp. cbn in Hp. by apply H2.
    + apply (H3 x); [done|set_solver|done].
  - cbn. assert (∀ n S', protect_chain n parents None S' = S') as Hn by (by intros []).
    rewrite Hn. split_and!; [set_solver|intros ? [= <-]; set_solver|].
    intros x p Hx Hx' Hp. assert (x = q) as -> by set_solver. by rewrite Eq in Hp.
Qed.

(** The outer loop closes the window under the parent relation. *)
Lemma protect_all_spec parents fuel (todo : list string) : ∀ P,
  size (dom parents) < fuel →
  (∀ x p, x ∈ P → x ∉ todo → mjoin (parents !! x) = Some p → p ∈ P) →
  let P' := foldl (λ P start, protect_chain fuel parents (mjoin (parents !! start)) P) P todo in
  P ⊆ P' ∧ ∀ x p, x ∈ P' → mjoin (parents !! x) = Some p → p ∈ P'.
Proof.
  induction todo as [|start todo IH]; intros P Hfuel Hinv; cbn.
  { split; [done|]. intros x p Hx. apply Hinv; [done|]. by intros ?%elem_of_nil. }
  destruct (protect_chain_spec parents fuel (mjoin (parents !! start)) P) as (H1 & H2 & H3).
  { pose proof (subseteq_size (dom parents ∖ P) (dom parents)). set_solver by lia. }
  destruct (IH (protect_chain fuel parents (mjoin (parents !! start)) P) Hfuel) as [H4 H5].
  - intros x p Hx Hn Hp. destruct (decide (x ∈ P)) as [HP|HP]; [|by eapply H3].
    destruct (decide (x = start)) as [->|Hs]; [by apply H2|].
    apply H1, (Hinv x); [done| |done]. intros [?|?]%elem_of_cons; done.
  - split; [set_solver|done].
Qed.
End PruneChain.

Section PruneFacts.
Implicit Types metas : list CheckpointMetadata.

Lemma prune_protected_closed metas keep x p :
  x ∈ prune_protected metas keep → mjoin (prune_parents metas !! x) = Some p →
  p ∈ prune_protected metas keep.
Proof.
  unfold prune_protected.
  destruct (protect_all_spec (prune_parents metas) (S (S (size (prune_parents metas))))
              (elements (prune_window metas keep)) (prune_window metas keep)) as [_ H].
  - rewrite size_dom. lia.
  - intros y q Hy Hn. by rewrite elem_of_elements in Hn.
  - apply H.
Qed.

Lemma prune_window_protected metas keep :
  prune_window metas keep ⊆ prune_protected metas keep.
Proof.
  unfold prune_protected. apply protect_all_spec.
  - rewrite size_dom. lia.
  - intros y q Hy Hn. by rewrite elem_of_elements in Hn.
Qed.

Lemma prune_groups_lookup metas ns :
  prune_groups metas !! ns =
    match filter (λ m, cm_namespace m = ns) metas with [] => None | g => Some g end.
Proof.
  unfold prune_groups. induction metas as [|m metas IH] using rev_ind; [done|].
  rewrite foldl_app, filter_app, filter_cons, filter_nil. cbn.
  rewrite lookup_insert. case_decide as E.
  - subst. rewrite IH. by destruct (filter _ metas).
  - by rewrite app_nil_r.
Qed.

(** The recency window: the last [keep] records of a namespace. *)
Lemma elem_of_prune_window metas keep id :
  id ∈ prune_window metas keep ↔
  ∃ ns m, m ∈ take keep (reverse (filter (λ m, cm_namespace m = ns) metas)) ∧
          cm_checkpoint_id m = id.
Proof.
  unfold prune_window. rewrite elem_of_list_to_set, list_elem_of_bind. split.
  - intros ([ns g] & Hid & Hg). apply elem_of_map_to_list in Hg. cbn in Hid.
    apply list_elem_of_fmap in Hid as (m & -> & Hm). exists ns, m. split; [|done].
    rewrite prune_groups_lookup in Hg. destruct (filter _ metas) eqn:E; [done|].
    injection Hg as <-. by rewrite <- E in *.
  - intros (ns & m & Hm & <-).
    destruct (filter (λ m, cm_namespace m = ns) metas) as [|a g] eqn:E;
      [by rewrite reverse_nil, take_nil in Hm; apply elem_of_nil in Hm|].
    exists (ns, a :: g). split.
    + apply list_elem_of_fmap. eauto.
    + apply elem_of_map_to_list. by rewrite prune_groups_lookup, E.
Qed.

Lemma prune_window_latest metas keep ns m :
  1 ≤ keep → rfind (λ m, bool_decide (cm_namespace m = ns)) metas = Some m →
  cm_checkpoint_id m ∈ prune_window metas keep.
Proof.
  intros Hk Hm. apply elem_of_prune_window. exists ns, m. split; [|done].
  assert (∃ l, reverse (filter (λ m, cm_namespace m = ns) metas) = m :: l) as [l ->].
  { revert Hm. induction metas as [|a metas IH] using rev_ind; [done|].
    rewrite rfind_snoc, filter_app, filter_cons, filter_nil, reverse_app.
    case_bool_decide as E; intros Hm.
    - injection Hm as ->. rewrite decide_True by done. cbn. eauto.
    - rewrite decide_False by done. cbn. by apply IH. }
  destruct keep; [lia|]. cbn. left.
Qed.

(** With unique ids, the parent table is the parent field. *)
Lemma prune_parents_lookup metas m :
  NoDup (cm_checkpoint_id <$> metas) → m ∈ metas →
  prune_parents metas !! cm_checkpoint_id m = Some (cm_parent_checkpoint_id m).
Proof.
  unfold prune_parents. induction metas as [|a metas IH] using rev_ind; [by intros _ ?%elem_of_nil|].
  rewrite fmap_app, foldl_app. cbn. intros (Hnd & Hdis & _)%NoDup_app [Hm|Hm]%elem_of_app.
  - rewrite lookup_insert_ne; [by apply IH|]. intros E. apply (Hdis (cm_checkpoint_id m)).
    + apply list_elem_of_fmap. eauto.
    + rewrite <- E. left.
  - apply list_elem_of_singleton in Hm as ->. apply lookup_insert_eq.
Qed.
End PruneFacts.

Section MemPrune.
Context {State : Type}.
Implicit Types s : MemStore State.

Definition prune_keep s thread keep : gset string :=
  prune_protected (to_metadata <$> mem_thread s thread) (keep `max` 1).

(** Pruning keeps exactly the protected records, in order. *)
Lemma mem_prune_thread s thread keep :
  ∃ s' n, prune mem_ops s thread keep = (s', Ok n) ∧
    mem_thread s' thread =
      filter (λ c, cp_checkpoint_id c ∈ prune_keep s thread keep) (mem_thread s thread).
Proof.
  unfold prune_keep. set (metas := to_metadata <$> mem_thread s thread).
  assert (Hids : cm_checkpoint_id <$> metas = cp_checkpoint_id <$> mem_thread s thread).
  { unfold metas. by rewrite <- list_fmap_compose. }
  set (P := prune_protected metas (keep `max` 1)).
  set (del := filter (λ id, id ∉ P) (cm_checkpoint_id <$> metas)).
  assert (Hprune : prune mem_ops s thread keep = mem_delete_checkpoints s thread del).
  { unfold prune. cbn [mem_ops ck_list]. unfold mem_list. fold metas. unfold del, P.
    by destruct metas. }
  rewrite Hprune. clear Hprune.
  assert (Hdel : ∀ c, c ∈ mem_thread s thread → (cp_checkpoint_id c ∉ del ↔ cp_checkpoint_id c ∈ P)).
  { intros c Hc. unfold del. rewrite list_elem_of_filter, Hids.
    assert (cp_checkpoint_id c ∈ cp_checkpoint_id <$> mem_thread s thread) by
      (apply list_elem_of_fmap; eauto).
    split; [|tauto]. intros Hn. destruct (decide (cp_checkpoint_id c ∈ P)); tauto. }
  assert (Hfil : filter (λ c, cp_checkpoint_id c ∉ del) (mem_thread s thread) =
                 filter (λ c, cp_checkpoint_id c ∈ P) (mem_thread s thread)).
  { apply filter_ext_in. intros c Hc. by apply Hdel. }
  unfold mem_delete_checkpoints.
  destruct del as [|d del'] eqn:Ed.
  - exists s, 0. split; [done|]. rewrite <- Hfil. symmetry.
    apply filter_all. intros c Hc. apply not_elem_of_nil.
  - destruct (mem_inner s !! thread) as [l|] eqn:El.
    + eexists _, _. split; [done|]. unfold mem_thread at 1. cbn. rewrite lookup_insert_eq. cbn.
      rewrite <- Hfil. unfold mem_thread. by rewrite El.
    + exfalso. unfold del in Ed. rewrite Hids in Ed. unfold mem_thread in Ed.
      by rewrite El in Ed.
Qed.
End MemPrune.

(** ** Copying a thread *)

Section MemCopy.
Context {State : Type}.
Implicit Types (s : MemStore State) (c : Checkpoint State).

Definition retarget (target : string) c : Checkpoint State :=
  mkCheckpoint target (cp_checkpoint_id c) (cp_run_id c) (cp_parent_checkpoint_id c)
    (cp_namespace c) (cp_state c) (cp_next_nodes c) (cp_completed_tasks c) (cp_pending_writes c)
    (cp_interrupts c) (cp_pending_activations c) (cp_barrier_arrivals c) (cp_metadata c).

Definition ledger s (thread : string) (ns : list string) (id : string) : list PendingWrite :=
  default [] (mem_writes s !! (thread, ns, id)).

Definition store_wf s : Prop := map_Forall (λ _ l, ledger_wf l) (mem_writes s).

Lemma merge_writes_nil ws : ledger_wf ws → (merge_writes [] ws).1 = ws.
Proof.
  intros Hwf. enough (∀ l, ledger_wf (l ++ ws) → (merge_writes l ws).1 = l ++ ws) as H by (by apply H).
  clear Hwf. induction ws as [|w ws IH]; intros l Hl; [by rewrite app_nil_r|].
  assert (E : (merge_write l w).1 = l ++ [w]).
  { unfold ledger_wf in Hl. rewrite fmap_app, fmap_cons in Hl.
    apply NoDup_app in Hl as (_ & Hd & _).
    clear IH. induction l as [|x l IHl]; [done|]. cbn.
    rewrite decide_False.
    - destruct (merge_write l w) eqn:E. cbn in *. rewrite IHl; [done|].
      intros y Hy. apply Hd. cbn. by right.
    - intros E. apply (Hd (write_identity x)); [cbn; left|]. rewrite E. left. }
  rewrite merge_writes_cons, E, IH; rewrite <- app_assoc; done.
Qed.

(** Storing one copied record and its ledger. *)
Lemma mem_copy_step s target c ws :
  ledger s target (cp_namespace c) (cp_checkpoint_id c) = [] → ledger_wf ws →
  ∃ s2, match ws with
        | [] => s2 = (mem_put s (retarget target c)).1
        | _ => mem_put_writes (mem_put s (retarget target c)).1
                 (mkConfig target (Some (cp_checkpoint_id c)) (cp_namespace c)) ws = (s2, Ok tt)
        end ∧
    (∀ t, mem_thread s2 t = mem_thread s t ++ (if decide (t = target) then [retarget target c] else [])) ∧
    (∀ t ns id, ledger s2 t ns id =
       if decide ((t, ns, id) = (target, cp_namespace c, cp_checkpoint_id c)) then ws
       else ledger s t ns id) ∧
    (store_wf s → store_wf s2).
Proof.
  intros Hnone Hws. destruct (decide (ws = [])) as [->|Hne].
  - exists (mem_put s (retarget target c)).1. split_and!; [done| | |done].
    + intros t. by apply (mem_thread_put s (retarget target c) _ (Ok (cp_checkpoint_id c))).
    + intros t ns id. unfold mem_put, ledger. cbn. case_decide as E; [|done]. by inv_ok.
  - unfold ledger in Hnone.
    eexists (mem_put_writes (mem_put s (retarget target c)).1
               (mkConfig target (Some (cp_checkpoint_id c)) (cp_namespace c)) ws).1.
    assert (E : mem_put_writes (mem_put s (retarget target c)).1
               (mkConfig target (Some (cp_checkpoint_id c)) (cp_namespace c)) ws =
             (mkMem (mem_inner (mem_put s (retarget target c)).1)
                (<[(target, cp_namespace c, cp_checkpoint_id c) := ws]> (mem_writes s)), Ok tt)).
    { unfold mem_put_writes. cbn. rewrite Hnone, merge_writes_nil by done. by destruct ws. }
    rewrite E. split_and!.
    + by destruct ws.
    + intros t. exact (mem_thread_put s (retarget target c) _ (Ok (cp_checkpoint_id c)) t eq_refl).
    + intros t ns id. unfold ledger. cbn. rewrite lookup_insert.
      case_decide as E1; case_decide as E2; done || congruence.
    + intros Hs k l. cbn. intros [[<- <-]|[? ?]]%lookup_insert_Some; [done|by eapply Hs].
Qed.

Lemma mem_copy_checkpoints cps source target : source ≠ target → ∀ s,
  store_wf s → NoDup (cp_checkpoint_id <$> cps) →
  (∀ c, c ∈ cps → ledger s target (cp_namespace c) (cp_checkpoint_id c) = []) →
  ∃ s', copy_checkpoints mem_ops s source target cps = (s', Ok tt) ∧
    (∀ t, mem_thread s' t =
       mem_thread s t ++ (if decide (t = target) then retarget target <$> cps else [])) ∧
    (∀ c, c ∈ cps → ledger s' target (cp_namespace c) (cp_checkpoint_id c) =
                    ledger s source (cp_namespace c) (cp_checkpoint_id c)) ∧
    (∀ t ns id, (t ≠ target ∨ id ∉ (cp_checkpoint_id <$> cps)) →
       ledger s' t ns id = ledger s t ns id).
Proof.
  intros Hne. induction cps as [|c cps IH]; intros s Hs Hnd Hnone.
  { exists s. split_and!; [done| | |done].
    - intros t. case_decide; by rewrite app_nil_r.
    - by intros c ?%elem_of_nil. }
  rewrite fmap_cons, NoDup_cons in Hnd. destruct Hnd as [Hc Hnd].
  set (ws := ledger s source (cp_namespace c) (cp_checkpoint_id c)).
  assert (Hws : ledger_wf ws).
  { unfold ws, ledger. destruct (mem_writes s !! _) eqn:E; cbn; [by eapply Hs|constructor]. }
  destruct (mem_copy_step s target c ws) as (s2 & Hstep & Hth & Hled & Hwf);
    [by apply Hnone; left|done|].
  destruct (IH s2) as (s' & Hcopy & Hth' & Hled' & Hoth'); [by apply Hwf|done| |].
  { intros c' Hc'. rewrite Hled. rewrite decide_False; [by apply Hnone; right|].
    intros E. inv_ok. apply Hc. apply list_elem_of_fmap. exists c'. split; [congruence|done]. }
  exists s'. split_and!.
  - cbn [copy_checkpoints mem_ops ck_get_writes ck_put ck_put_writes].
    unfold mem_get_writes at 1. cbn [cfg_checkpoint_id cfg_thread_id cfg_namespace rbind].
    change (default [] (mem_writes s !! _)) with ws.
    fold (retarget target c). unfold mem_put in Hstep |- *. cbn [fst] in Hstep.
    destruct ws as [|w ws'] eqn:Ew; cbn zeta; [by subst s2|]. rewrite Hstep. done.
  - intros t. rewrite Hth', Hth. case_decide; cbn; by rewrite <- app_assoc.
  - intros c' [->|Hc']%elem_of_cons.
    + rewrite Hoth' by (right; done). rewrite Hled. by rewrite decide_True.
    + rewrite Hled' by done. rewrite Hled. rewrite decide_False; [done|]. congruence.
  - intros t ns id Hcond. rewrite fmap_cons, not_elem_of_cons in Hcond. rewrite Hoth' by tauto.
    rewrite Hled. rewrite decide_False; [done|]. intros E. inv_ok. naive_solver.
Qed.
End MemCopy.
