(* ===== verification/BarrierFacts.v ===== *)
(** * Barriers

    The waiting-edge contract of [route_completed]: held arrivals never satisfy
    a barrier, a barrier fires exactly when its required predecessors have all
    arrived, and a predecessor that did not arrive is only stood in for when the
    branch that leads to it was not taken. *)

From S2P Require Import Prelude Json GraphTypes Search Checkpoint Builder.
From S2P Require Import Routing.

Section Barrier.
Context {State Update C : Type} (g : CompiledGraph State Update C).
Implicit Types (arr : gmap NodeId (gset NodeId)) (acc : RouteAcc).

(** Every held arrival set is non-empty and still misses a predecessor. *)
Definition arrivals_ok arr : Prop :=
  ∀ b A, arr !! b = Some A → A ≠ ∅ ∧ ∃ req, cg_waiting g !! b = Some req ∧ ¬ req ⊆ A.

Lemma gate_ok n t arr arr' p : arrivals_ok arr → gate g n t arr = (arr', p) → arrivals_ok arr'.
Proof.
  unfold gate. intros Ha Hg. destruct (cg_waiting g !! t) as [req|] eqn:Ew; [|by inv_ok].
  case_decide; [|by inv_ok]. case_decide as Hsub; inv_ok; intros b A.
  - rewrite lookup_delete. case_decide; [done|apply Ha].
  - rewrite lookup_insert. case_decide; [subst|apply Ha]. intros [= <-]. set_solver.
Qed.

Lemma schedule_arrivals acc n arg : ra_arrivals (schedule acc n arg) = ra_arrivals acc.
Proof. unfold schedule. destruct arg; [done|]. by case_decide. Qed.

Lemma select_target_arrivals n acc t :
  arrivals_ok (ra_arrivals acc) → arrivals_ok (ra_arrivals (select_target g n acc t)).
Proof.
  intros Ha. unfold select_target. case_decide; [done|].
  destruct (gate _ _ _ _) as [arr []] eqn:Eg; rewrite ?schedule_arrivals; by eapply gate_ok.
Qed.

Lemma select_targets_arrivals n ts : ∀ acc,
  arrivals_ok (ra_arrivals acc) → arrivals_ok (ra_arrivals (foldl (select_target g n) acc ts)).
Proof. induction ts; cbn; auto using select_target_arrivals. Qed.

Lemma route_loop_arrivals goto_map st completed : ∀ index acc resolved acc' r,
  arrivals_ok (ra_arrivals acc) →
  route_loop g goto_map st index completed acc resolved = (acc', r) →
  arrivals_ok (ra_arrivals acc').
Proof.
  induction completed as [|a rest IH]; cbn; intros index acc resolved acc' r Ha Hl; [by inv_ok|].
  destruct (route _ _ _ _); [|by inv_ok]. eapply IH; [|done]. by apply select_targets_arrivals.
Qed.

Lemma relieve_arrivals completed resolved acc r :
  arrivals_ok (ra_arrivals acc) → arrivals_ok (ra_arrivals (relieve g completed resolved acc r)).
Proof.
  intros Ha. destruct (relieve_cases g completed resolved acc r)
    as [->|(req & Hw & _ & _ & [[_ ->]|[Hsub ->]])]; [done|..].
  - rewrite schedule_arrivals. cbn. intros b A. rewrite lookup_delete. case_decide; [done|apply Ha].
  - cbn. intros b A. rewrite lookup_insert. case_decide; [subst|apply Ha]. intros [= <-].
    set_solver.
Qed.

Lemma relieves_arrivals completed resolved rs : ∀ acc,
  arrivals_ok (ra_arrivals acc) →
  arrivals_ok (ra_arrivals (foldl (relieve g completed resolved) acc rs)).
Proof. induction rs; cbn; auto using relieve_arrivals. Qed.

Lemma route_completed_arrivals completed goto_map st arr arr' evs r :
  arrivals_ok arr → route_completed g completed goto_map st arr = (arr', evs, r) →
  arrivals_ok arr'.
Proof.
  intros Ha Hr. unfold route_completed in Hr.
  destruct (route_loop _ _ _ _ _ _ _) as [acc [resolved|e]] eqn:El;
    apply route_loop_arrivals in El; try done; inv_ok; [|done].
  by apply relieves_arrivals.
Qed.

(** ** When a barrier fires *)

(** The activation at [index] routes to [b]. *)
Definition arrives (goto_map : gmap nat (list RouteTarget)) (st : State) (b : NodeId)
    (index : nat) (a : Activation) : bool :=
  match route g (act_node a) (goto_map !! index) st with
  | Ok ts => bool_decide (b ∈ target_node <$> ts)
  | Err _ => false
  end.

(** The nodes of a completed list that route to [b]. *)
Fixpoint arrivals_from (goto_map : gmap nat (list RouteTarget)) (st : State) (b : NodeId)
    (index : nat) (completed : list Activation) : gset NodeId :=
  match completed with
  | [] => ∅
  | a :: rest =>
      (if arrives goto_map st b index a then {[act_node a]} else ∅)
        ∪ arrivals_from goto_map st b (S index) rest
  end.

Definition held arr (b : NodeId) : gset NodeId := default ∅ (arr !! b).

(** State of barrier [b] after the predecessors [P] routed to it: not scheduled
    and holding them, or scheduled with everything required among them. *)
Record fire_inv (b : NodeId) (req A0 P : gset NodeId) acc : Prop := {
  fire_held : held (ra_arrivals acc) b ⊆ A0 ∪ P;
  fire_early : b ∈ activation_nodes (ra_next acc) → req ⊆ A0 ∪ P;
  fire_late : b ∈ activation_nodes (ra_next acc) ∨
              (held (ra_arrivals acc) b = A0 ∪ P ∧ ¬ req ⊆ A0 ∪ P);
  fire_seen : ∀ n, n ∈ ra_seen acc → n ∈ activation_nodes (ra_next acc)
}.

Lemma elem_of_nodes_snoc (b n : NodeId) l arg :
  b ∈ activation_nodes (l ++ [mkActivation n arg ""]) ↔ b ∈ activation_nodes l ∨ b = n.
Proof. unfold activation_nodes. rewrite fmap_app, elem_of_app. cbn. set_solver. Qed.

(** Scheduling keeps what was scheduled and adds the node. *)
Lemma schedule_nodes acc n arg b :
  (∀ m, m ∈ ra_seen acc → m ∈ activation_nodes (ra_next acc)) →
  (b ∈ activation_nodes (ra_next (schedule acc n arg)) ↔
     b ∈ activation_nodes (ra_next acc) ∨ b = n) ∧
  (∀ m, m ∈ ra_seen (schedule acc n arg) →
     m ∈ activation_nodes (ra_next (schedule acc n arg))).
Proof.
  intros Hs. unfold schedule. destruct arg as [v|]; cbn.
  { split; [apply elem_of_nodes_snoc|]. intros m Hm. apply elem_of_nodes_snoc. auto. }
  case_decide as Hn; cbn; [split; [naive_solver|done]|].
  split; [apply elem_of_nodes_snoc|]. intros m Hm. apply elem_of_nodes_snoc. set_solver.
Qed.

Lemma gate_other n t arr arr' p b :
  t ≠ b → gate g n t arr = (arr', p) → held arr' b = held arr b.
Proof.
  unfold gate, held. intros Hne Hg. destruct (cg_waiting g !! t) as [req|]; [|by inv_ok].
  do 2 try case_decide; inv_ok; rewrite ?lookup_delete_ne, ?lookup_insert_ne by done; done.
Qed.

Lemma gate_required n b arr req :
  cg_waiting g !! b = Some req → n ∈ req →
  (req ⊆ {[n]} ∪ held arr b ∧ gate g n b arr = (delete b arr, true)) ∨
  (¬ req ⊆ {[n]} ∪ held arr b ∧ gate g n b arr = (<[b := {[n]} ∪ held arr b]> arr, false)).
Proof.
  intros Hw Hn. unfold gate, held. rewrite Hw, decide_True by done.
  case_decide; [left|right]; done.
Qed.

Lemma select_target_fire b req A0 P n acc t :
  cg_waiting g !! b = Some req → b ≠ END → fire_inv b req A0 P acc →
  (target_node t = b → n ∈ req) →
  fire_inv b req A0 (if decide (target_node t = b) then {[n]} ∪ P else P)
    (select_target g n acc t).
Proof.
  intros Hw Hb [Hh He Hl Hs] Hreq. unfold select_target.
  destruct (decide (target_node t = END)) as [Hend|Hend].
  { rewrite decide_False by congruence. done. }
  case_decide as Htb.
  - subst b. destruct (gate_required n _ (ra_arrivals acc) req Hw (Hreq eq_refl))
      as [[Hsub ->]|[Hsub ->]].
    + edestruct (schedule_nodes (mkAcc (ra_next acc) (ra_seen acc)
        (delete (target_node t) (ra_arrivals acc)) (ra_events acc ++ [RouteSelected n (target_node t)])))
        as [Hn1 Hn2]; [exact Hs|]. split.
      * rewrite schedule_arrivals. unfold held. cbn. rewrite lookup_delete_eq. cbn. apply empty_subseteq.
      * intros _. clear -Hsub Hh. set_solver.
      * left. apply Hn1. by right.
      * exact Hn2.
    + split; cbn; [..|exact Hs].
      * unfold held at 1. rewrite lookup_insert_eq. cbn. set_solver.
      * intros Hin. set_solver.
      * destruct Hl as [Hl|[Hl Hns]]; [by left|]. right. unfold held at 1.
        rewrite lookup_insert_eq. cbn. rewrite Hl in Hsub |- *.
        assert ({[n]} ∪ (A0 ∪ P) = A0 ∪ ({[n]} ∪ P)) as Heq by set_solver. by rewrite <- Heq.
  - destruct (gate g n (target_node t) (ra_arrivals acc)) as [arr' p] eqn:Eg.
    apply (gate_other _ _ _ _ _ b) in Eg; [|done]. destruct p.
    + edestruct (schedule_nodes (mkAcc (ra_next acc) (ra_seen acc) arr'
        (ra_events acc ++ [RouteSelected n (target_node t)]))) as [Hn1 Hn2]; [exact Hs|].
      split; rewrite ?schedule_arrivals, ?Hn1; cbn; [by rewrite Eg|naive_solver| |exact Hn2].
      rewrite Eg. naive_solver.
    + split; cbn; rewrite ?Eg; done.
Qed.

Lemma select_targets_fire b req A0 n ts :
  cg_waiting g !! b = Some req → b ≠ END → (b ∈ target_node <$> ts → n ∈ req) →
  ∀ P acc, fire_inv b req A0 P acc →
  fire_inv b req A0 (if decide (b ∈ target_node <$> ts) then {[n]} ∪ P else P)
    (foldl (select_target g n) acc ts).
Proof.
  intros Hw Hb. induction ts as [|t ts IH]; intros Hreq P acc Hf; [done|]. cbn [foldl].
  rewrite fmap_cons in *. setoid_rewrite elem_of_cons in Hreq.
  apply (select_target_fire b req A0 P n acc t) in Hf; [|done|done|naive_solver].
  apply IH in Hf; [|naive_solver].
  replace (if decide (b ∈ target_node t :: (target_node <$> ts)) then {[n]} ∪ P else P)
    with (if decide (b ∈ target_node <$> ts)
          then {[n]} ∪ (if decide (target_node t = b) then {[n]} ∪ P else P)
          else (if decide (target_node t = b) then {[n]} ∪ P else P)); [done|].
  assert (b ∈ target_node t :: (target_node <$> ts) ↔ target_node t = b ∨ b ∈ target_node <$> ts)
    as Hiff by (rewrite elem_of_cons; naive_solver).
  rewrite (decide_ext _ _ _ _ Hiff).
  destruct (decide (b ∈ target_node <$> ts)), (decide (target_node t = b)).
  - rewrite decide_True by auto. set_solver.
  - by rewrite decide_True by auto.
  - by rewrite decide_True by auto.
  - rewrite decide_False; naive_solver.
Qed.

Lemma route_loop_fire b req A0 goto_map st completed :
  cg_waiting g !! b = Some req → b ≠ END →
  ∀ index P acc resolved acc' resolved',
  arrivals_from goto_map st b index completed ⊆ req →
  fire_inv b req A0 P acc →
  route_loop g goto_map st index completed acc resolved = (acc', Ok resolved') →
  fire_inv b req A0 (P ∪ arrivals_from goto_map st b index completed) acc'.
Proof.
  intros Hw Hb. induction completed as [|a rest IH]; cbn; intros index P acc resolved acc' resolved'
    Hreq Hf Hl.
  { inv_ok. by rewrite (right_id_L ∅ (∪)). }
  unfold arrives in *. destruct (route _ _ _ _) as [ts|e]; [|by inv_ok].
  eapply IH in Hl; [|set_solver|].
  2:{ apply (select_targets_fire b req A0 (act_node a) ts); [done|done| |exact Hf].
      intros Hin. rewrite bool_decide_eq_true_2 in Hreq by done. set_solver. }
  match goal with H : fire_inv _ _ _ ?X _ |- fire_inv _ _ _ ?Y _ => replace Y with X; [done|] end.
  destruct (decide (b ∈ target_node <$> ts)) as [Hin|Hin].
  - rewrite bool_decide_eq_true_2 by done. set_solver.
  - rewrite bool_decide_eq_false_2 by done. set_solver.
Qed.

(** What the loop resolved. *)
Lemma route_loop_resolved goto_map st completed : ∀ index acc resolved acc' resolved',
  route_loop g goto_map st index completed acc resolved = (acc', Ok resolved') →
  take (length resolved) resolved' = resolved ∧
  ∀ i a, completed !! i = Some a → ∃ ts,
    route g (act_node a) (goto_map !! (index + i)) st = Ok ts ∧
    resolved' !! (length resolved + i) = Some ts.
Proof.
  induction completed as [|a rest IH]; cbn; intros index acc resolved acc' resolved' Hl.
  { inv_ok. rewrite firstn_all. done. }
  destruct (route _ _ _ _) as [ts|e] eqn:Er; [|by inv_ok]. apply IH in Hl as [Ht Hl].
  rewrite length_app in *. cbn in Ht.
  assert (Hlk : resolved' !! length resolved = Some ts).
  { rewrite <- (lookup_take_lt _ (length resolved + 1)) by lia. rewrite Ht.
    by apply list_lookup_middle. }
  split.
  - apply (f_equal (take (length resolved))) in Ht. rewrite take_take, take_app_le in Ht by lia.
    rewrite Nat.min_l in Ht by lia. rewrite Ht. by apply firstn_all.
  - intros [|i] x Hx; cbn in Hx.
    + injection Hx as <-. exists ts. by rewrite !Nat.add_0_r.
    + destruct (Hl i x Hx) as (ts' & Hr & Hlk'). exists ts'. cbn in Hlk'.
      replace (index + S i) with (S index + i) by lia.
      replace (length resolved + S i) with (length resolved + 1 + i) by lia. done.
Qed.

(** ** Relief *)

(** A completed activation of [s] took a route that leads deterministically to
    [to]. *)
Definition routes_toward (goto_map : gmap nat (list RouteTarget)) (st : State)
    (completed : list Activation) (s to stop : NodeId) : Prop :=
  ∃ i a ts t, completed !! i = Some a ∧ act_node a = s ∧
    route g (act_node a) (goto_map !! i) st = Ok ts ∧ t ∈ ts ∧
    reaches_deterministically g (target_node t) to stop = true.

(** [r] stands in for [p] at [b]: it names both, its source completed, and no
    route the source took leads deterministically to [p]. *)
Definition relieves (goto_map : gmap nat (list RouteTarget)) (st : State)
    (completed : list Activation) (b p : NodeId) (r : BarrierRelief) : Prop :=
  r ∈ cg_barrier_reliefs g ∧ relief_barrier r = b ∧ relief_node r = p ∧
  relief_source r ∈ activation_nodes completed ∧
  ¬ routes_toward goto_map st completed (relief_source r) p b.

(** Something of this pass concerns [b]: the source of the relief took a route
    to one of its required predecessors. *)
Definition engages (goto_map : gmap nat (list RouteTarget)) (st : State)
    (completed : list Activation) (b : NodeId) (req : gset NodeId) (r : BarrierRelief) : Prop :=
  ∃ q, q ∈ req ∧ routes_toward goto_map st completed (relief_source r) q b.

Lemma elem_of_source_indices completed s i :
  i ∈ source_indices completed s ↔ ∃ a, completed !! i = Some a ∧ act_node a = s.
Proof.
  unfold source_indices. rewrite list_elem_of_fmap. split.
  - intros ([j a] & -> & Hf). apply list_elem_of_filter in Hf as [Ha Hin].
    apply elem_of_enumerate in Hin. by exists a.
  - intros (a & Hi & Ha). exists (i, a). split; [done|]. apply list_elem_of_filter.
    split; [done|]. by apply elem_of_enumerate.
Qed.

Lemma source_indices_completed completed s :
  source_indices completed s ≠ [] ↔ s ∈ activation_nodes completed.
Proof.
  unfold activation_nodes. rewrite list_elem_of_fmap. split.
  - destruct (source_indices completed s) as [|i l] eqn:Es; [done|]. intros _.
    assert (i ∈ source_indices completed s) as (a & Hi & <-)%elem_of_source_indices
      by (rewrite Es; left). exists a. split; [done|]. by eapply list_elem_of_lookup_2.
  - intros (a & -> & [i Hi]%list_elem_of_lookup_1) Hn.
    assert (i ∈ source_indices completed (act_node a)) as Hin
      by (apply elem_of_source_indices; by exists a). rewrite Hn in Hin. by apply not_elem_of_nil in Hin.
Qed.

Lemma taken_toward_iff goto_map st completed resolved acc acc' s to stop :
  route_loop g goto_map st 0 completed acc [] = (acc', Ok resolved) →
  taken_toward g resolved (source_indices completed s) to stop = true ↔
  routes_toward goto_map st completed s to stop.
Proof.
  intros Hl. apply route_loop_resolved in Hl as [_ Hl]. cbn in Hl. unfold taken_toward, routes_toward.
  rewrite existsb_exists. setoid_rewrite <- list_elem_of_In.
  setoid_rewrite elem_of_source_indices. split.
  - intros (i & (a & Hi & Ha) & Ht). destruct (Hl i a Hi) as (ts & Hr & Hlk).
    rewrite Hlk in Ht. cbn in Ht. apply existsb_exists in Ht as (t & Hin & Ht).
    exists i, a, ts, t. by rewrite list_elem_of_In.
  - intros (i & a & ts & t & Hi & Ha & Hr & Hin & Ht). exists i. split; [by exists a|].
    destruct (Hl i a Hi) as (ts' & Hr' & Hlk). assert (ts' = ts) as -> by congruence.
    rewrite Hlk. cbn. apply existsb_exists. exists t. by rewrite <- list_elem_of_In.
Qed.

Lemma relieve_keeps completed resolved acc r n :
  n ∈ activation_nodes (ra_next acc) →
  n ∈ activation_nodes (ra_next (relieve g completed resolved acc r)).
Proof.
  intros Hn. destruct (relieve_cases g completed resolved acc r)
    as [->|(req & Hw & _ & _ & [[_ ->]|[_ ->]])]; [done| |done].
  unfold schedule. case_decide; [done|]. cbn. apply elem_of_nodes_snoc. by left.
Qed.

Lemma relieves_keep completed resolved rs n : ∀ acc,
  n ∈ activation_nodes (ra_next acc) →
  n ∈ activation_nodes (ra_next (foldl (relieve g completed resolved) acc rs)).
Proof. induction rs; cbn; auto using relieve_keeps. Qed.

(** When a relief pass is known to have resolved its routes, its tests are the
    relations above. *)
Section Relief.
Context (goto_map : gmap nat (list RouteTarget)) (st : State) (completed : list Activation)
        (resolved : list (list RouteTarget)) (acc0 acc1 : RouteAcc).
Hypothesis route_loop_Ok : route_loop g goto_map st 0 completed acc0 [] = (acc1, Ok resolved).
Context (b : NodeId) (req A : gset NodeId).
Hypothesis waiting_b : cg_waiting g !! b = Some req.

Local Notation step := (relieve g completed resolved).

(** What one relief of [b] does: nothing, or it registers its node, and then it
    stands in for it and the barrier was engaged. *)
Lemma relieve_effect acc r :
  relief_barrier r = b → r ∈ cg_barrier_reliefs g →
  step acc r = acc ∨
  (relieves goto_map st completed b (relief_node r) r ∧
   (held (ra_arrivals acc) b ≠ ∅ ∨ engages goto_map st completed b req r)).
Proof.
  intros Hb Hin. unfold relieve. rewrite Hb.
  destruct (decide (source_indices _ _ = [])) as [|Hs]; [by left|].
  destruct (taken_toward _ _ _ (relief_node r) _) eqn:Et; [by left|]. cbn [orb].
  destruct (bool_decide (_ ∈ ra_seen acc)); [by left|]. rewrite waiting_b.
  match goal with |- context [if ?e then _ else _] => destruct e eqn:Ee end; [|by left].
  right. split.
  - split_and!; [done..|by apply source_indices_completed|].
    rewrite <- (taken_toward_iff _ _ _ _ _ _ _ _ _ route_loop_Ok). by rewrite Et.
  - apply orb_true_iff in Ee as [Ee|Ee]; [left|right].
    + unfold held. destruct (ra_arrivals acc !! b); [|done]. by apply bool_decide_eq_true in Ee.
    + apply existsb_exists in Ee as (q & Hq & Ee). apply list_elem_of_In, elem_of_elements in Hq.
      exists q. split; [done|]. by apply (taken_toward_iff _ _ _ _ _ _ _ _ _ route_loop_Ok).
Qed.

(** A relief that stands in for a node nobody scheduled, at an engaged barrier,
    registers it: the barrier fires or holds it. *)
Lemma relieve_registers acc r :
  relieves goto_map st completed b (relief_node r) r → relief_node r ∉ ra_seen acc →
  held (ra_arrivals acc) b ≠ ∅ ∨ engages goto_map st completed b req r →
  (∀ m, m ∈ ra_seen acc → m ∈ activation_nodes (ra_next acc)) →
  b ∈ activation_nodes (ra_next (step acc r)) ∨ relief_node r ∈ held (ra_arrivals (step acc r)) b.
Proof.
  intros (_ & Hb & _ & Hsrc & Ht) Hseen Heng Hs. unfold relieve. rewrite Hb.
  apply source_indices_completed in Hsrc. rewrite decide_False by done.
  rewrite <- (taken_toward_iff _ _ _ _ _ _ _ _ _ route_loop_Ok), not_true_iff_false in Ht.
  rewrite Ht, bool_decide_eq_false_2, waiting_b by done. cbn [orb].
  match goal with |- context [if ?e then _ else _] => assert (e = true) as -> end.
  { apply orb_true_iff. destruct Heng as [Hh|(q & Hq & Hr)]; [left|right].
    - unfold held in Hh. destruct (ra_arrivals acc !! b); [|done]. by apply bool_decide_eq_true.
    - apply existsb_exists. exists q. split; [by apply list_elem_of_In, elem_of_elements|].
      by apply (taken_toward_iff _ _ _ _ _ _ _ _ _ route_loop_Ok). }
  case_decide; [left|right].
  - match goal with |- context [schedule ?x _ _] =>
      edestruct (schedule_nodes x b None b) as [Hn1 _]; [exact Hs|] end. apply Hn1. by right.
  - cbn. unfold held. rewrite lookup_insert_eq. cbn. set_solver.
Qed.

(** No relief lets go of a held predecessor unless the barrier fires. *)
Lemma relieve_holds acc r :
  (∀ m, m ∈ ra_seen acc → m ∈ activation_nodes (ra_next acc)) →
  (b ∈ activation_nodes (ra_next (step acc r)) ∨
   held (ra_arrivals acc) b ⊆ held (ra_arrivals (step acc r)) b) ∧
  (∀ m, m ∈ ra_seen (step acc r) → m ∈ activation_nodes (ra_next (step acc r))).
Proof.
  intros Hs. destruct (relieve_cases g completed resolved acc r)
    as [->|(req' & _ & _ & _ & [[_ ->]|[_ ->]])]; [by auto| |].
  - match goal with |- context [schedule ?x _ _] =>
      edestruct (schedule_nodes x (relief_barrier r) None b) as [Hn1 Hn2]; [exact Hs|] end.
    split; [|exact Hn2]. destruct (decide (relief_barrier r = b)) as [Hb|Hb].
    + left. apply Hn1. by right.
    + right. rewrite schedule_arrivals. unfold held. cbn. by rewrite lookup_delete_ne.
  - split; [|done]. right. unfold held. cbn. rewrite lookup_insert. case_decide as Hb; [|done].
    rewrite Hb. cbn. set_solver.
Qed.

(** After the relief pass a scheduled barrier has every predecessor arrived or
    relieved, and was engaged; nothing scheduled is taken back. *)
Definition barrier_engaged : Prop :=
  A ≠ ∅ ∨ ∃ r, r ∈ cg_barrier_reliefs g ∧ relief_barrier r = b ∧
    engages goto_map st completed b req r.

Definition accounted (p : NodeId) : Prop :=
  p ∈ A ∨ ∃ r, relieves goto_map st completed b p r.

Record relief_inv acc : Prop := {
  ri_held : ∀ p, p ∈ held (ra_arrivals acc) b → accounted p;
  ri_engaged : held (ra_arrivals acc) b ≠ ∅ → barrier_engaged;
  ri_fired : b ∈ activation_nodes (ra_next acc) → barrier_engaged ∧ ∀ p, p ∈ req → accounted p;
  ri_seen : ∀ n, n ∈ ra_seen acc → n ∈ activation_nodes (ra_next acc)
}.

Lemma relieve_inv acc r : r ∈ cg_barrier_reliefs g → relief_inv acc → relief_inv (step acc r).
Proof.
  intros Hr [Hh Hg Hn Hs]. destruct (relieve_holds acc r Hs) as [_ Hs'].
  destruct (decide (relief_barrier r = b)) as [Hb|Hb].
  - destruct (relieve_effect acc r Hb Hr) as [->|[Hrel Heng]]; [by split|].
    assert (Hbe : barrier_engaged).
    { destruct Heng as [He|He]; [by apply Hg|right; by exists r]. }
    assert (Hall : ∀ p, p ∈ {[relief_node r]} ∪ held (ra_arrivals acc) b → accounted p).
    { intros p [->%elem_of_singleton|Hp]%elem_of_union; [right; by exists r|by apply Hh]. }
    destruct (relieve_cases g completed resolved acc r)
      as [->|(req' & Hw & _ & _ & Hcase)]; [by split|]. rewrite Hb in Hw, Hcase. cbn zeta in Hcase.
    assert (req' = req) as -> by congruence. destruct Hcase as [[Hsub Eq]|[Hsub Eq]].
    + split; [|done| |done].
      * rewrite Eq, schedule_arrivals. unfold held. cbn. rewrite lookup_delete_eq. set_solver.
      * intros _. split; [done|]. intros p Hp. apply Hall. by apply Hsub.
    + split; [|done| |done].
      * rewrite Eq. unfold held at 1. cbn. by rewrite lookup_insert_eq.
      * rewrite Eq. cbn. apply Hn.
  - destruct (relieve_cases g completed resolved acc r)
      as [->|(req' & _ & _ & _ & [[_ Eq]|[_ Eq]])]; [by split| |].
    + assert (held (ra_arrivals (step acc r)) b = held (ra_arrivals acc) b) as Eh.
      { rewrite Eq, schedule_arrivals. unfold held. cbn. by rewrite lookup_delete_ne. }
      split; rewrite ?Eh; [done..| |done]. rewrite Eq. intros Hin.
      apply schedule_nodes in Hin as [Hin|Hin]; [by apply Hn|congruence|exact Hs].
    + assert (held (ra_arrivals (step acc r)) b = held (ra_arrivals acc) b) as Eh.
      { rewrite Eq. unfold held. cbn. by rewrite lookup_insert_ne. }
      split; rewrite ?Eh; [done..| |done]. rewrite Eq. exact Hn.
Qed.

Lemma relieves_inv rs : ∀ acc,
  (∀ r, r ∈ rs → r ∈ cg_barrier_reliefs g) → relief_inv acc → relief_inv (foldl step acc rs).
Proof.
  induction rs as [|r rs IH]; cbn; intros acc Hin Hi; [done|].
  apply IH; [set_solver|]. apply relieve_inv; [set_solver|done].
Qed.

Lemma relieves_hold rs : ∀ acc,
  (∀ m, m ∈ ra_seen acc → m ∈ activation_nodes (ra_next acc)) →
  b ∉ activation_nodes (ra_next (foldl step acc rs)) →
  held (ra_arrivals acc) b ⊆ held (ra_arrivals (foldl step acc rs)) b.
Proof.
  induction rs as [|r' rs IH]; cbn; intros acc Hs Hnb; [done|].
  destruct (relieve_holds acc r' Hs) as [[H|H] Hs']; [by destruct Hnb; apply relieves_keep|].
  specialize (IH _ Hs' Hnb). set_solver.
Qed.

(** Every relief that stands in for a node nobody schedules, engaged by held
    predecessors or by its own source, is registered by the end of the pass. *)
Lemma relieves_register rs r p : ∀ acc,
  r ∈ rs → relieves goto_map st completed b p r →
  A ≠ ∅ ∨ engages goto_map st completed b req r → A ⊆ held (ra_arrivals acc) b →
  (∀ m, m ∈ ra_seen acc → m ∈ activation_nodes (ra_next acc)) →
  p ∉ activation_nodes (ra_next (foldl step acc rs)) →
  b ∈ activation_nodes (ra_next (foldl step acc rs)) ∨
  p ∈ held (ra_arrivals (foldl step acc rs)) b.
Proof.
  induction rs as [|r' rs IH]; intros acc Hin Hrel Heng HA Hs Hp; [by apply not_elem_of_nil in Hin|].
  cbn in *. destruct (relieve_holds acc r' Hs) as [Hold Hs'].
  apply elem_of_cons in Hin as [->|Hin].
  - assert (relief_node r' = p) as <- by apply Hrel.
    destruct (relieve_registers acc r') as [H|H]; try done.
    + intros Hseen. apply Hp. apply relieves_keep, relieve_keeps. by apply Hs.
    + destruct Heng as [?|?]; [left; set_solver|by right].
    + left. by apply relieves_keep.
    + destruct (decide (b ∈ activation_nodes (ra_next (foldl step (step acc r') rs)))); [by left|].
      right. by apply (relieves_hold rs _ Hs').
  - destruct Hold as [H|H]; [left; by apply relieves_keep|].
    apply IH; try done. set_solver.
Qed.
End Relief.

Lemma fire_inv_init b req A0 arr :
  held arr b = A0 → ¬ req ⊆ A0 → fire_inv b req A0 ∅ (mkAcc [] ∅ arr []).
Proof.
  intros <- Hns. assert (held arr b ∪ ∅ = held arr b) as E by apply (right_id_L ∅ (∪)).
  split; cbn; rewrite ?E; [done|by intros ?%elem_of_nil|by right|set_solver].
Qed.

(** The barrier [b] of a step, whatever its routes resolve to. *)
Lemma route_completed_fire completed goto_map st arr arr' evs next b req :
  cg_waiting g !! b = Some req → b ≠ END → arrivals_ok arr → req ≠ ∅ →
  arrivals_from goto_map st b 0 completed ⊆ req →
  route_completed g completed goto_map st arr = (arr', evs, Ok next) →
  let A := held arr b ∪ arrivals_from goto_map st b 0 completed in
  (b ∈ activation_nodes next →
     barrier_engaged goto_map st completed b req A ∧
     ∀ p, p ∈ req → accounted goto_map st completed b A p) ∧
  ((∀ p, p ∈ req → p ∈ A ∨ (p ∉ activation_nodes next ∧ ∃ r,
      relieves goto_map st completed b p r ∧ (A ≠ ∅ ∨ engages goto_map st completed b req r))) →
   b ∈ activation_nodes next).
Proof.
  intros Hw Hb Hok Hne Hreq Hr A. pose proof (route_completed_arrivals _ _ _ _ _ _ _ Hok Hr) as Hok'.
  unfold route_completed in Hr.
  destruct (route_loop _ _ _ _ _ _ _) as [acc [resolved|e]] eqn:El; inv_ok.
  assert (Hns : ∀ arr, arrivals_ok arr → ¬ req ⊆ held arr b).
  { intros arr0 Hok0. unfold held. destruct (arr0 !! b) as [A0|] eqn:EA; cbn; [|set_solver].
    apply Hok0 in EA as (_ & req' & Hw' & ?). congruence. }
  pose proof El as El'. eapply (route_loop_fire b req (held arr b)) in El' as [Hh He Hl Hs];
    [|done|done|done|apply fire_inv_init; [done|by apply Hns]].
  rewrite (left_id_L ∅ (∪)) in *. fold A in Hh, He, Hl. split.
  - intros Hin. eapply relieves_inv; [done|done|by intros r|split|done].
    + intros p Hp. left. by apply Hh.
    + intros Hx. left. clear -Hh Hx. set_solver.
    + intros Hx. specialize (He Hx). split; [left; clear -He Hne; set_solver|].
      intros p Hp. left. by apply He.
    + done.
  - intros Hcov. destruct Hl as [Hl|[Hl Hnc]]; [by apply relieves_keep|].
    destruct (decide (b ∈ activation_nodes
      (ra_next (foldl (relieve g completed resolved) acc (cg_barrier_reliefs g))))) as [|Hnb]; [done|].
    destruct (Hns _ Hok'). intros p Hp. destruct (Hcov p Hp) as [HA|(Hpn & r & Hrel & Heng)].
    + eapply relieves_hold; [done..|]. by rewrite Hl.
    + eapply relieves_register in Heng as [?|?]; try done; [apply Hrel|by rewrite Hl].
Qed.
End Barrier.
