(* ===== verification/StepExec.v ===== *)
(** * Running one superstep

    [crates/tinyflows/src/graph/compiled/executor/node_execution.rs]: the
    context each branch gets, the per-node timeout, the sequential runner, and
    the parallel runner with its rolling admission window.

    [futures_util::future::select_all] is third-party code: it is the parameter
    [select_all], a function from the futures in flight (named by the branch
    each one drives) to the position that completed and the futures that
    remain.  Its documentation promises no order for the remaining list. *)

From S2P Require Import Prelude Json GraphTypes Checkpoint Builder.

Record StepFailure := mkFailure { failed_index : nat; failure_error : GraphError }.

Record StepRun (Update : Type) := mkStepRun {
  sr_updates : list Update;
  sr_goto_map : gmap nat (list RouteTarget);
  sr_completed : list nat;
  sr_interrupts : list (nat * Interrupt);
  sr_failure : option StepFailure
}.
Arguments mkStepRun {Update}.
Arguments sr_updates {Update}.
Arguments sr_goto_map {Update}.
Arguments sr_completed {Update}.
Arguments sr_interrupts {Update}.
Arguments sr_failure {Update}.

(** What a runner leaves behind besides its result: the resume values not
    consumed, the visited list, the events emitted and the child runs
    reported. *)
Record StepOut (Update : Type) := mkStepOut {
  so_resume : gmap NodeId value;
  so_visited : list NodeId;
  so_events : list GraphEvent;
  so_children : list ChildRun;
  so_run : Result (StepRun Update)
}.
Arguments mkStepOut {Update}.
Arguments so_resume {Update}.
Arguments so_visited {Update}.
Arguments so_events {Update}.
Arguments so_children {Update}.
Arguments so_run {Update}.

(** The accumulators both runners fold branch results into. *)
Record FoldAcc (Update : Type) := mkFold {
  fa_updates : list Update;
  fa_goto_map : gmap nat (list RouteTarget);
  fa_completed : list nat;
  fa_interrupts : list (nat * Interrupt);
  fa_failure : option StepFailure;
  fa_visited : list NodeId;
  fa_events : list GraphEvent
}.
Arguments mkFold {Update}.
Arguments fa_updates {Update}.
Arguments fa_goto_map {Update}.
Arguments fa_completed {Update}.
Arguments fa_interrupts {Update}.
Arguments fa_failure {Update}.
Arguments fa_visited {Update}.
Arguments fa_events {Update}.

(** [select_all] and the [Debug] rendering of a [Duration], which only appears
    in timeout messages, and the order in which concurrent branches report
    child runs into the shared sink. *)
Record Runtime := mkRuntime {
  rt_select_all : list nat → nat * list nat;
  rt_fmt_duration : N → string;
  rt_interleave : list (list ChildRun) → list ChildRun
}.

Section StepExec.
Context {State Update C : Type}.
Implicit Types g : CompiledGraph State Update C.

(** ** One branch *)

Record RunInfo := mkInfo {
  ri_run_id : RunId;
  ri_thread_id : option ThreadId;
  ri_root_run_id : RunId;
  ri_frames : list RecursionFrame
}.

(** [node_context] removes the node's resume value from the map. *)
Definition node_context (info : RunInfo) (node_id : NodeId) (step : nat)
    (resume_map : gmap NodeId value) (fork : option ForkId) (send_arg : option value)
    : NodeContext * gmap NodeId value :=
  (mkContext node_id (ri_run_id info) (ri_thread_id info) step (resume_map !! node_id) fork
     send_arg (Some (ri_root_run_id info)) (ri_frames info),
   delete node_id resume_map).

(** The output of a driven future and the child runs it reported: a future cut
    by the timeout reports nothing after it. *)
Definition run_node_future (rt : Runtime) g (node_id : NodeId) (fut : NodeFuture Update)
    : Result (NodeResult Update) * list ChildRun :=
  match cg_node_timeout g with
  | Some timeout =>
      if decide (fut_elapsed fut ≤ timeout)%N then (fut_output fut, (fut_children fut).*2)
      else (Err (Timeout ("node `" +:+ node_id +:+ "` exceeded its " +:+
                          rt_fmt_duration rt timeout +:+ " timeout")),
            (filter (λ c, (c.1 ≤ timeout)%N) (fut_children fut)).*2)
  | None => (fut_output fut, (fut_children fut).*2)
  end.

Definition run_node_with_retry (rt : Runtime) g (node_id : NodeId)
    (handler : NodeHandler State Update) (state : State) (ctx : NodeContext)
    : Result (NodeResult Update) * list ChildRun :=
  run_node_future rt g node_id (handler state ctx).

(** [fold_result]: returns the interrupt when the branch paused. *)
Definition fold_branch (index : nat) (node_id : NodeId) (step : nat) (r : NodeResult Update)
    (acc : FoldAcc Update) : FoldAcc Update * option (nat * Interrupt) :=
  let visited := fa_visited acc ++ [node_id] in
  match r with
  | NRUpdate u =>
      (mkFold (fa_updates acc ++ [u]) (fa_goto_map acc) (fa_completed acc) (fa_interrupts acc)
         (fa_failure acc) visited
         (fa_events acc ++ [StateUpdated node_id step; NodeCompleted node_id step]), None)
  | NRCommand c =>
      let '(updates, evs) :=
        match cmd_update c with
        | Some u => (fa_updates acc ++ [u], [StateUpdated node_id step])
        | None => (fa_updates acc, [])
        end in
      let goto_map :=
        match cmd_goto c with
        | [] => fa_goto_map acc
        | targets => <[index := targets]> (fa_goto_map acc)
        end in
      (mkFold updates goto_map (fa_completed acc) (fa_interrupts acc) (fa_failure acc) visited
         (fa_events acc ++ evs ++ [NodeCompleted node_id step]), None)
  | NRInterrupt i =>
      (mkFold (fa_updates acc) (fa_goto_map acc) (fa_completed acc) (fa_interrupts acc)
         (fa_failure acc) visited (fa_events acc ++ [InterruptEmitted i]), Some (index, i))
  end.

Definition push_completed (acc : FoldAcc Update) (index : nat) : FoldAcc Update :=
  mkFold (fa_updates acc) (fa_goto_map acc) (fa_completed acc ++ [index]) (fa_interrupts acc)
    (fa_failure acc) (fa_visited acc) (fa_events acc).
Definition push_interrupt (acc : FoldAcc Update) (i : nat * Interrupt) : FoldAcc Update :=
  mkFold (fa_updates acc) (fa_goto_map acc) (fa_completed acc) (fa_interrupts acc ++ [i])
    (fa_failure acc) (fa_visited acc) (fa_events acc).
Definition push_events (acc : FoldAcc Update) (evs : list GraphEvent) : FoldAcc Update :=
  mkFold (fa_updates acc) (fa_goto_map acc) (fa_completed acc) (fa_interrupts acc)
    (fa_failure acc) (fa_visited acc) (fa_events acc ++ evs).
(** A failing branch: [NodeFailed] and, when it is the first, the step's
    failure. *)
Definition push_failure (acc : FoldAcc Update) (index : nat) (node_id : NodeId) (step : nat)
    (e : GraphError) : FoldAcc Update :=
  mkFold (fa_updates acc) (fa_goto_map acc) (fa_completed acc) (fa_interrupts acc)
    (match fa_failure acc with Some f => Some f | None => Some (mkFailure index e) end)
    (fa_visited acc) (fa_events acc ++ [NodeFailed node_id step (error_to_string e)]).

Definition fold_init (visited : list NodeId) : FoldAcc Update :=
  mkFold [] ∅ [] [] None visited [].
Definition step_run (acc : FoldAcc Update) : StepRun Update :=
  mkStepRun (fa_updates acc) (fa_goto_map acc) (fa_completed acc) (fa_interrupts acc)
    (fa_failure acc).

(** ** The sequential runner *)

Fixpoint run_sequential (rt : Runtime) g (info : RunInfo) (state : State) (step index : nat)
    (active : list Activation) (resume_map : gmap NodeId value) (children : list ChildRun)
    (acc : FoldAcc Update) : StepOut Update :=
  match active with
  | [] => mkStepOut resume_map (fa_visited acc) (fa_events acc) children (Ok (step_run acc))
  | a :: rest =>
      match cg_nodes g !! act_node a with
      | None =>
          mkStepOut resume_map (fa_visited acc) (fa_events acc) children
            (Err (MissingNode (act_node a)))
      | Some node =>
          let acc := push_events acc
            [TaskScheduled (act_node a) step; NodeStarted (act_node a) step] in
          let '(ctx, resume_map) :=
            node_context info (act_node a) step resume_map None (act_send_arg a) in
          let '(result, reported) :=
            run_node_with_retry rt g (act_node a) (node_handler node) state ctx in
          let children := children ++ reported in
          match result with
          | Err e =>
              let acc := push_failure acc index (act_node a) step e in
              mkStepOut resume_map (fa_visited acc) (fa_events acc) children (Ok (step_run acc))
          | Ok r =>
              match fold_branch index (act_node a) step r acc with
              | (acc, Some found) =>
                  let acc := push_interrupt acc found in
                  mkStepOut resume_map (fa_visited acc) (fa_events acc) children
                    (Ok (step_run acc))
              | (acc, None) =>
                  run_sequential rt g info state step (S index) rest resume_map children
                    (push_completed acc index)
              end
          end
      end
  end.

Definition run_active_sequential (rt : Runtime) g (info : RunInfo) (active : list Activation)
    (state : State) (step : nat) (resume_map : gmap NodeId value) (visited : list NodeId)
    : StepOut Update :=
  run_sequential rt g info state step 0 active resume_map [] (fold_init visited).

(** ** The parallel runner *)

(** The first loop: contexts and futures, one per branch, in active-set order.
    A missing node leaves it with the events and resume values as they are. *)
Fixpoint fork_branches (rt : Runtime) g (info : RunInfo) (state : State) (step index : nat)
    (active : list Activation) (resume_map : gmap NodeId value) (events : list GraphEvent)
    (futures : list (Result (NodeResult Update) * list ChildRun))
    : gmap NodeId value * list GraphEvent *
      Result (list (Result (NodeResult Update) * list ChildRun)) :=
  match active with
  | [] => (resume_map, events, Ok futures)
  | a :: rest =>
      match cg_nodes g !! act_node a with
      | None => (resume_map, events, Err (MissingNode (act_node a)))
      | Some node =>
          let events := events ++
            [TaskScheduled (act_node a) step; NodeStarted (act_node a) step;
             ContextForked (act_node a) index step] in
          let '(ctx, resume_map) :=
            node_context info (act_node a) step resume_map
              (Some (mkFork index (act_node a))) (act_send_arg a) in
          let fut := run_node_with_retry rt g (act_node a) (node_handler node) state ctx in
          fork_branches rt g info state step (S index) rest resume_map events (futures ++ [fut])
      end
  end.

(** *** Admission *)

(** Some node is activated more often than its cap. *)
Fixpoint caps_bind (caps : gmap NodeId nat) (counts : gmap NodeId nat) (active : list Activation)
    : bool :=
  match active with
  | [] => false
  | a :: rest =>
      let seen := S (default 0 (counts !! act_node a)) in
      match caps !! act_node a with
      | Some cap => bool_decide (cap < seen)
      | None => false
      end || caps_bind caps (<[act_node a := seen]> counts) rest
  end.
Definition node_caps_bind g (active : list Activation) : bool :=
  bool_decide (cg_node_concurrency g ≠ ∅) && caps_bind (cg_node_concurrency g) ∅ active.
Definition global_binds g (n : nat) : bool :=
  match cg_max_concurrency g with Some limit => bool_decide (limit < n) | None => false end.

(** The window: queued branches, the futures in flight, the parallel index
    vector, the per-node counts and the result slots.  Futures are named by the
    branch they drive. *)
Record Window (R : Type) := mkWindow {
  win_queue : list nat;
  win_running : list nat;
  win_index : list nat;
  win_inflight : gmap NodeId nat;
  win_slots : list (option R)
}.
Arguments mkWindow {R}.
Arguments win_queue {R}.
Arguments win_running {R}.
Arguments win_index {R}.
Arguments win_inflight {R}.
Arguments win_slots {R}.

Definition admissible (caps : gmap NodeId nat) (nodes : list NodeId) (inflight : gmap NodeId nat)
    (i : nat) : bool :=
  let node := default "" (nodes !! i) in
  match caps !! node with
  | None => true
  | Some cap => bool_decide (default 0 (inflight !! node) < cap)
  end.

(** [queue.iter().position(p)] with the removal it is followed by. *)
Fixpoint take_first (p : nat → bool) (queue : list nat) : option (nat * list nat) :=
  match queue with
  | [] => None
  | i :: rest =>
      if p i then Some (i, rest)
      else match take_first p rest with
           | Some (j, rest') => Some (j, i :: rest')
           | None => None
           end
  end.

(** [admit!()]: every iteration takes one branch off the queue, so its length
    bounds the loop. *)
Fixpoint admit_loop {R} (caps : gmap NodeId nat) (nodes : list NodeId) (limit fuel : nat)
    (w : Window R) : Window R :=
  match fuel with
  | 0 => w
  | S fuel' =>
      if decide (length (win_running w) < limit) then
        match take_first (admissible caps nodes (win_inflight w)) (win_queue w) with
        | None => w
        | Some (i, queue) =>
            let node := default "" (nodes !! i) in
            admit_loop caps nodes limit fuel'
              (mkWindow queue (win_running w ++ [i]) (win_index w ++ [i])
                 (<[node := S (default 0 (win_inflight w !! node))]> (win_inflight w))
                 (win_slots w))
        end
      else w
  end.
Definition admit_branches {R} (caps : gmap NodeId nat) (nodes : list NodeId) (limit : nat) (w : Window R)
    : Window R := admit_loop caps nodes limit (length (win_queue w)) w.

(** One completion: [select_all], [running_index.remove], the count, the
    slot. *)
Definition complete_one {R} (select_all : list nat → nat * list nat) (outcome : nat → R)
    (nodes : list NodeId) (w : Window R) : Window R :=
  let '(completed, rest) := select_all (win_running w) in
  let result := outcome (default 0 (win_running w !! completed)) in
  let index := default 0 (win_index w !! completed) in
  let node := default "" (nodes !! index) in
  mkWindow (win_queue w) rest (delete completed (win_index w))
    (match win_inflight w !! node with
     | Some count => <[node := count - 1]> (win_inflight w)
     | None => win_inflight w
     end)
    (<[index := Some result]> (win_slots w)).

(** [while !running.is_empty()]; [None]: out of fuel. *)
Fixpoint window_loop {R} (select_all : list nat → nat * list nat) (outcome : nat → R)
    (caps : gmap NodeId nat) (nodes : list NodeId) (limit fuel : nat) (w : Window R)
    : option (Window R) :=
  match win_running w with
  | [] => Some w
  | _ =>
      match fuel with
      | 0 => None
      | S fuel' =>
          window_loop select_all outcome caps nodes limit fuel'
            (admit_branches caps nodes limit (complete_one select_all outcome nodes w))
      end
  end.

Definition window_start {R} (caps : gmap NodeId nat) (nodes : list NodeId) (limit total : nat)
    : Window R :=
  admit_branches caps nodes limit (mkWindow (seq 0 total) [] [] ∅ (replicate total None)).

(** The results in slot order; [None]: a slot is empty, where the code panics,
    or the loop did not finish. *)
Definition window_results {R} (select_all : list nat → nat * list nat) (outcome : nat → R)
    (caps : gmap NodeId nat) (nodes : list NodeId) (limit total : nat) : option (list R) :=
  window_loop select_all outcome caps nodes limit total (window_start caps nodes limit total)
    >>? λ w, mapM id (win_slots w).

(** *** Folding the results *)

Fixpoint fold_parallel (step index : nat) (active : list Activation)
    (results : list (Result (NodeResult Update))) (acc : FoldAcc Update) : FoldAcc Update :=
  match active, results with
  | a :: rest, r :: results' =>
      let acc' :=
        match r with
        | Err e => push_failure acc index (act_node a) step e
        | Ok r =>
            match fold_branch index (act_node a) step r acc with
            | (acc, Some found) => push_interrupt acc found
            | (acc, None) => push_completed acc index
            end
        end in
      fold_parallel step (S index) rest results' acc'
  | _, _ => acc
  end.

(** [None]: the code would panic on an unfilled slot. *)
Definition run_active_parallel (rt : Runtime) g (info : RunInfo) (active : list Activation)
    (state : State) (step : nat) (resume_map : gmap NodeId value) (visited : list NodeId)
    : option (StepOut Update) :=
  let '(resume_map', events, forked) :=
    fork_branches rt g info state step 0 active resume_map [] [] in
  match forked with
  | Err e => Some (mkStepOut resume_map' visited events [] (Err e))
  | Ok futures =>
      let total := length futures in
      let outcome := λ i, default (Err Cancelled) (futures.*1 !! i) in
      let results :=
        if global_binds g total || node_caps_bind g active then
          let limit := Nat.max (default total (cg_max_concurrency g)) 1 in
          window_results (rt_select_all rt) outcome (cg_node_concurrency g)
            (activation_nodes active) limit total
        else Some futures.*1 in
      results >>? λ results,
        let acc := fold_parallel step 0 active results
                     (mkFold [] ∅ [] [] None visited events) in
        Some (mkStepOut resume_map' (fa_visited acc) (fa_events acc)
                (rt_interleave rt futures.*2) (Ok (step_run acc)))
  end.
End StepExec.

Arguments mkWindow {R}.
Arguments win_queue {R}.
Arguments win_running {R}.
Arguments win_index {R}.
Arguments win_inflight {R}.
Arguments win_slots {R}.
