(* ===== verification/StepFacts.v ===== *)
(** * The admission window

    The rolling window of [run_active_parallel], as a state machine over
    [Window]: it always drains, fills every slot and respects the graph-wide
    bound, for any [select_all] that behaves as documented.  The results sit in
    active-set order when at most two futures are in flight. *)

From S2P Require Import Prelude Json GraphTypes Checkpoint Builder StepExec.

(** The documented behaviour of [select_all] on a non-empty list: the index is
    in range and the remaining futures are the others, in some order. *)
Definition select_lawful (sel : list nat → nat * list nat) : Prop :=
  ∀ l, l ≠ [] → (sel l).1 < length l ∧ (sel l).2 ≡ₚ delete (sel l).1 l.
Lemma take_first_Some p q i rest :
  take_first p q = Some (i, rest) → p i = true ∧ q ≡ₚ i :: rest.
Proof.
  revert i rest. induction q as [|j q IH]; cbn; intros i rest H; [done|].
  destruct (p j) eqn:E; [by inv_ok|]. destruct (take_first p q) as [[k q']|] eqn:Et; [|done].
  inv_ok. destruct (IH _ _ eq_refl) as [? ->]. split; [done|]. constructor.
Qed.

Lemma take_first_None p q : take_first p q = None → ∀ i, i ∈ q → p i = false.
Proof.
  induction q as [|j q IH]; cbn; intros H i Hi; [by apply elem_of_nil in Hi|].
  destruct (p j) eqn:E; [done|]. destruct (take_first p q) as [[]|]; [done|].
  apply elem_of_cons in Hi as [->|Hi]; auto.
Qed.

Lemma omap_fill {R} (l : list (option R)) i r :
  l !! i = Some None → omap id (<[i := Some r]> l) ≡ₚ r :: omap id l.
Proof.
  revert i. induction l as [|x l IH]; intros [|i] Hi; [done|done|by injection Hi as ->|].
  specialize (IH i Hi). destruct x as [y|]; [|exact IH].
  change (y :: omap id (<[i := Some r]> l) ≡ₚ r :: y :: omap id l). rewrite IH. constructor.
Qed.

Lemma mapM_id_omap {R} (l : list (option R)) :
  (∀ i, l !! i ≠ Some None) → mapM id l = Some (omap id l).
Proof.
  induction l as [|x l IH]; intros Hl; [done|]. destruct x as [r|]; [|by destruct (Hl 0)].
  cbn. rewrite IH; [done|]. intros i. apply (Hl (S i)).
Qed.

Section Window.
Context {R : Type} (sel : list nat → nat * list nat) (outcome : nat → R).
Context (caps : gmap NodeId nat) (nodes : list NodeId) (limit total : nat).
Implicit Types w : Window R.

Definition node_at (i : nat) : NodeId := default "" (nodes !! i).
Definition flying (n : NodeId) (l : list nat) : nat := length (filter (λ i, node_at i = n) l).

Record win_ok w : Prop := {
  wo_slots : length (win_slots w) = total;
  wo_nodup : NoDup (win_queue w ++ win_index w);
  wo_open : ∀ i, i ∈ win_queue w ++ win_index w ↔ win_slots w !! i = Some None;
  wo_len : length (win_running w) = length (win_index w);
  wo_limit : length (win_running w) ≤ limit;
  wo_count : ∀ n, default 0 (win_inflight w !! n) = flying n (win_index w);
  wo_cap : ∀ n cap, caps !! n = Some cap → flying n (win_index w) ≤ cap;
  wo_results : omap id (win_slots w) ++ (outcome <$> (win_running w ++ win_queue w))
                 ≡ₚ outcome <$> seq 0 total
}.

Lemma flying_app n l1 l2 : flying n (l1 ++ l2) = flying n l1 + flying n l2.
Proof. unfold flying. by rewrite filter_app, length_app. Qed.

Lemma flying_cons n i l : flying n (i :: l) = (if decide (node_at i = n) then 1 else 0) + flying n l.
Proof. unfold flying. rewrite filter_cons. by case_decide. Qed.

Lemma flying_delete n l k i :
  l !! k = Some i → flying n l = (if decide (node_at i = n) then 1 else 0) + flying n (delete k l).
Proof.
  intros Hk. rewrite <- flying_cons. unfold flying. apply Permutation_length.
  by rewrite (delete_Permutation l k i) at 1.
Qed.

(** One admission. *)
Lemma admit_one_ok w i queue :
  win_ok w → length (win_running w) < limit →
  take_first (admissible caps nodes (win_inflight w)) (win_queue w) = Some (i, queue) →
  win_ok (mkWindow queue (win_running w ++ [i]) (win_index w ++ [i])
            (<[node_at i := S (default 0 (win_inflight w !! node_at i))]> (win_inflight w))
            (win_slots w)).
Proof.
  intros [Hs Hnd Hop Hlen Hlim Hc Hcap Hr] Hlt Ht. apply take_first_Some in Ht as [Hadm Hq].
  assert (Hperm : queue ++ win_index w ++ [i] ≡ₚ win_queue w ++ win_index w).
  { rewrite Hq. rewrite app_assoc, <- Permutation_cons_append. done. }
  split; cbn [win_queue win_running win_index win_inflight win_slots].
  - done.
  - by rewrite Hperm.
  - intros j. by rewrite Hperm.
  - rewrite !length_app. cbn. lia.
  - rewrite length_app. cbn. lia.
  - intros n. rewrite flying_app, flying_cons, lookup_insert. case_decide; subst; cbn.
    + rewrite Hc. unfold flying. cbn. lia.
    + rewrite Hc. unfold flying. cbn. lia.
  - intros n cap Hn. rewrite flying_app, flying_cons. specialize (Hcap n cap Hn).
    case_decide as Hni; unfold flying in *; cbn; [|lia]. unfold admissible in Hadm.
    fold (node_at i) in Hadm. rewrite Hni, Hn in Hadm. apply bool_decide_eq_true in Hadm.
    rewrite Hc in Hadm. unfold flying in Hadm. lia.
  - rewrite <- Hr. f_equiv. rewrite <- app_assoc. cbn. by rewrite Hq.
Qed.

Lemma admit_loop_ok fuel : ∀ w, win_ok w → win_ok (admit_loop caps nodes limit fuel w).
Proof.
  induction fuel as [|fuel IH]; intros w Hw; [done|]. cbn. case_decide; [|done].
  destruct (take_first _ _) as [[i queue]|] eqn:Et; [|done]. by apply IH, admit_one_ok.
Qed.

Lemma admit_loop_running fuel : ∀ w,
  win_running w ≠ [] → win_running (admit_loop caps nodes limit fuel w) ≠ [].
Proof.
  induction fuel as [|fuel IH]; intros w Hw; [done|]. cbn. case_decide; [|done].
  destruct (take_first _ _) as [[i queue]|]; [|done]. apply IH. cbn. by destruct (win_running w).
Qed.

Lemma admit_loop_open fuel : ∀ w,
  length (win_queue (admit_loop caps nodes limit fuel w)) +
  length (win_index (admit_loop caps nodes limit fuel w)) =
  length (win_queue w) + length (win_index w).
Proof.
  induction fuel as [|fuel IH]; intros w; [done|]. cbn. case_decide; [|done].
  destruct (take_first _ _) as [[i queue]|] eqn:Et; [|done]. rewrite IH. cbn.
  apply take_first_Some in Et as [_ ->]. rewrite length_app. cbn. lia.
Qed.

(** Nothing in flight: everything is admissible, so an idle window has an empty
    queue. *)
Lemma admit_progress w :
  0 < limit → caps_pos caps → win_ok w →
  win_running (admit_branches caps nodes limit w) = [] → win_queue (admit_branches caps nodes limit w) = [].
Proof.
  intros Hl Hcp Hw. unfold admit_branches. destruct (win_queue w) as [|i q] eqn:Eq; [done|].
  cbn [length admit_loop]. rewrite Eq. destruct (win_running w) as [|r l] eqn:Er.
  - cbn [length]. rewrite decide_True by done. destruct Hw as [_ _ _ Hlen _ Hc _ _].
    rewrite Er in Hlen. destruct (win_index w); [|done].
    assert (Hadm : admissible caps nodes (win_inflight w) i = true).
    { unfold admissible. destruct (caps !! _) as [cap|] eqn:Ec; [|done].
      apply bool_decide_eq_true. rewrite Hc. unfold flying. cbn. by eapply Hcp. }
    cbn [take_first]. rewrite Hadm. cbn. intros He. exfalso.
    revert He. by apply admit_loop_running.
  - intros He. exfalso. revert He. cbn [length]. case_decide; [|by rewrite Er].
    destruct (take_first _ _) as [[j q']|]; [|by rewrite Er]. apply admit_loop_running.
    by cbn.
Qed.

(** One completion. *)
Lemma complete_one_ok w :
  select_lawful sel → win_ok w → win_running w ≠ [] →
  win_ok (complete_one sel outcome nodes w) ∧
  S (length (win_index (complete_one sel outcome nodes w))) = length (win_index w) ∧
  win_queue (complete_one sel outcome nodes w) = win_queue w.
Proof.
  intros Hsel [Hs Hnd Hop Hlen Hlim Hc Hcap Hr] Hne. unfold complete_one.
  destruct (sel (win_running w)) as [k rest] eqn:Es.
  destruct (Hsel _ Hne) as [Hk Hrest]. rewrite Es in Hk, Hrest. cbn in Hk, Hrest.
  destruct (lookup_lt_is_Some_2 (win_running w) k Hk) as [f Hf].
  destruct (lookup_lt_is_Some_2 (win_index w) k ltac:(lia)) as [i Hi]. rewrite Hf, Hi. cbn.
  assert (Hlen' : S (length (delete k (win_index w))) = length (win_index w)).
  { rewrite length_delete by done. lia. }
  assert (Hlrest : length rest = length (delete k (win_index w))).
  { rewrite Hrest, length_delete by done. lia. }
  assert (Hperm : win_queue w ++ win_index w ≡ₚ i :: win_queue w ++ delete k (win_index w)).
  { rewrite (delete_Permutation (win_index w) k i Hi) at 1.
    symmetry. apply Permutation_middle. }
  assert (Hslot : win_slots w !! i = Some None).
  { apply Hop. rewrite Hperm. left. }
  split_and!; [|done|done]. split; cbn [win_queue win_running win_index win_inflight win_slots].
  - by rewrite length_insert.
  - rewrite Hperm in Hnd. by apply NoDup_cons in Hnd as [_ ?].
  - intros j. rewrite Hperm in Hnd. apply NoDup_cons in Hnd as [Hni Hnd].
    specialize (Hop j). rewrite Hperm, elem_of_cons in Hop.
    destruct (decide (j = i)) as [->|Hji].
    + rewrite list_lookup_insert_eq by by eapply lookup_lt_Some. naive_solver.
    + rewrite list_lookup_insert_ne by done. naive_solver.
  - done.
  - lia.
  - intros n. fold (node_at i). pose proof (flying_delete n _ _ _ Hi) as Hd.
    pose proof (Hc (node_at i)) as Hci. pose proof (flying_delete (node_at i) _ _ _ Hi) as Hd'.
    rewrite decide_True in Hd' by done.
    destruct (win_inflight w !! node_at i) as [c|] eqn:Ec; cbn in Hci; [|lia].
    rewrite lookup_insert. case_decide as Hn; cbn.
    + subst n. lia.
    + rewrite Hc. lia.
  - intros n cap Hn. specialize (Hcap n cap Hn). pose proof (flying_delete n _ _ _ Hi). lia.
  - rewrite omap_fill by done. rewrite <- Hr, Hrest.
    rewrite (delete_Permutation (win_running w) k f Hf) at 2. cbn. apply Permutation_middle.
Qed.

(** ** Reachable windows *)

Inductive window_reach : Window R → Prop :=
| reach_start : window_reach (window_start caps nodes limit total)
| reach_step w : window_reach w → win_running w ≠ [] →
    window_reach (admit_branches caps nodes limit (complete_one sel outcome nodes w)).

Lemma window_init_ok : win_ok (mkWindow (seq 0 total) [] [] ∅ (replicate total None)).
Proof.
  split; cbn [win_queue win_running win_index win_inflight win_slots].
  - apply length_replicate.
  - rewrite app_nil_r. apply NoDup_seq.
  - intros i. rewrite app_nil_r, elem_of_seq, lookup_replicate. naive_solver lia.
  - done.
  - cbn. lia.
  - intros n. by rewrite lookup_empty.
  - intros n cap _. unfold flying. cbn. lia.
  - replace (omap id (replicate total (@None R))) with (@nil R); [done|].
    symmetry. generalize total as t. induction t; [done|]. by cbn.
Qed.

Lemma window_start_ok : win_ok (window_start caps nodes limit total).
Proof. apply admit_loop_ok, window_init_ok. Qed.

Lemma window_reach_ok w : select_lawful sel → window_reach w → win_ok w.
Proof.
  intros Hsel. induction 1 as [|w Hw IH Hne]; [apply window_start_ok|].
  apply admit_loop_ok. by apply complete_one_ok.
Qed.

Lemma window_reach_idle w :
  0 < limit → caps_pos caps → select_lawful sel → window_reach w →
  win_running w = [] → win_queue w = [].
Proof.
  intros Hl Hcp Hsel Hw. destruct Hw as [|w Hw Hne]; apply admit_progress; try done.
  - apply window_init_ok.
  - apply complete_one_ok; [done| |done]. by apply window_reach_ok.
Qed.

(** ** Draining *)

Lemma window_loop_done fuel : ∀ w,
  0 < limit → caps_pos caps → select_lawful sel → window_reach w →
  length (win_queue w) + length (win_index w) ≤ fuel →
  ∃ w', window_loop sel outcome caps nodes limit fuel w = Some w' ∧ window_reach w' ∧
    win_running w' = [].
Proof.
  induction fuel as [|fuel IH]; intros w Hl Hcp Hsel Hw Hf;
    pose proof (window_reach_ok w Hsel Hw) as Hok.
  - exists w. destruct (win_running w) as [|r l] eqn:Er; cbn; rewrite Er; [done|].
    destruct Hok as [_ _ _ Hlen _ _ _ _]. rewrite Er in Hlen. cbn in Hlen. lia.
  - cbn. destruct (win_running w) as [|r l] eqn:Er; [by exists w|].
    assert (Hne : win_running w ≠ []) by by rewrite Er.
    destruct (complete_one_ok w Hsel Hok Hne) as (_ & Hlen & Hq).
    apply IH; [done..|by constructor|]. unfold admit_branches. rewrite admit_loop_open, Hq. lia.
Qed.

Lemma window_results_perm :
  0 < limit → caps_pos caps → select_lawful sel →
  ∃ rs, window_results sel outcome caps nodes limit total = Some rs ∧ length rs = total ∧
    rs ≡ₚ outcome <$> seq 0 total.
Proof.
  intros Hl Hcp Hsel. unfold window_results.
  destruct (window_loop_done total (window_start caps nodes limit total)) as (w & -> & Hw & Hr);
    [done..|constructor| |].
  { unfold window_start, admit_branches. rewrite admit_loop_open. cbn. rewrite length_seq. lia. }
  cbn. pose proof (window_reach_idle w Hl Hcp Hsel Hw Hr) as Hq.
  apply window_reach_ok in Hw as [Hs _ Hop Hlen _ _ _ Hres]; [|done].
  rewrite Hr in *. rewrite Hq in *. destruct (win_index w); [|done]. cbn in Hres, Hop.
  rewrite app_nil_r in Hres.
  rewrite mapM_id_omap; [|intros i Hi; apply Hop in Hi; by apply elem_of_nil in Hi].
  exists (omap id (win_slots w)). split_and!; [done| |done].
  by rewrite Hres, length_fmap, length_seq.
Qed.

(** ** Order *)

(** The index vector names the futures in flight and the slots hold the results
    of their own branches. *)
Definition aligned w : Prop :=
  win_running w = win_index w ∧
  ∀ i r, win_slots w !! i = Some (Some r) → r = outcome i.

Lemma admit_loop_aligned fuel : ∀ w, aligned w → aligned (admit_loop caps nodes limit fuel w).
Proof.
  induction fuel as [|fuel IH]; intros w Hw; [done|]. cbn. case_decide; [|done].
  destruct (take_first _ _) as [[i queue]|]; [|done]. apply IH. destruct Hw as [Hw Hs].
  split; cbn; [by rewrite Hw|done].
Qed.

Lemma complete_one_aligned w :
  (sel (win_running w)).1 < length (win_running w) →
  (sel (win_running w)).2 = delete (sel (win_running w)).1 (win_running w) →
  aligned w → aligned (complete_one sel outcome nodes w).
Proof.
  intros Hk Hrest [Hr Hs]. unfold complete_one.
  destruct (sel (win_running w)) as [k rest] eqn:Es. cbn in *. subst rest.
  destruct (lookup_lt_is_Some_2 (win_running w) k Hk) as [f Hf]. rewrite <- Hr, Hf. cbn.
  split; cbn; [done|]. intros i r. destruct (decide (i = f)) as [->|Hne].
  - destruct (decide (f < length (win_slots w))) as [Hlt|Hge].
    + rewrite list_lookup_insert_eq by done. congruence.
    + rewrite list_insert_ge by lia. apply Hs.
  - rewrite list_lookup_insert_ne by done. apply Hs.
Qed.

Lemma window_reach_aligned w :
  (∀ l, l ≠ [] → length l ≤ limit → (sel l).1 < length l ∧ (sel l).2 = delete (sel l).1 l) →
  select_lawful sel → window_reach w → aligned w.
Proof.
  intros Hord Hsel. induction 1 as [|w Hw IH Hne].
  - apply admit_loop_aligned. split; cbn; [done|]. intros i r Hi.
    by apply lookup_replicate in Hi as [? ?].
  - apply admit_loop_aligned. destruct (Hord (win_running w) Hne) as [Hk Hrest].
    { by apply window_reach_ok in Hw as [_ _ _ _ ? _ _ _]. }
    by apply complete_one_aligned.
Qed.

Lemma window_results_in_order :
  0 < limit → caps_pos caps → select_lawful sel →
  (∀ l, l ≠ [] → length l ≤ limit → (sel l).1 < length l ∧ (sel l).2 = delete (sel l).1 l) →
  window_results sel outcome caps nodes limit total = Some (outcome <$> seq 0 total).
Proof.
  intros Hl Hcp Hsel Hord. unfold window_results.
  destruct (window_loop_done total (window_start caps nodes limit total)) as (w & -> & Hw & Hr);
    [done..|constructor| |].
  { unfold window_start, admit_branches. rewrite admit_loop_open. cbn. rewrite length_seq. lia. }
  cbn. pose proof (window_reach_idle w Hl Hcp Hsel Hw Hr) as Hq.
  pose proof (window_reach_aligned w Hord Hsel Hw) as [_ Hal].
  apply window_reach_ok in Hw as [Hs _ Hop Hlen _ _ _ _]; [|done].
  rewrite Hr in *. rewrite Hq in *. destruct (win_index w); [|done]. cbn in Hop.
  apply mapM_Some. apply Forall2_same_length_lookup_2; [by rewrite length_fmap, length_seq|].
  intros i r o Hi Ho. cbn. rewrite list_lookup_fmap in Ho. apply fmap_Some in Ho as (j & Hj & ->).
  apply lookup_seq in Hj as [-> _]. destruct r as [r|]; [by rewrite (Hal _ _ Hi)|].
  apply Hop in Hi. by apply elem_of_nil in Hi.
Qed.
End Window.

(** With at most two futures in flight any documented [select_all] keeps the
    order: there is only one future left to return. *)
Lemma select_lawful_two sel l :
  select_lawful sel → l ≠ [] → length l ≤ 2 →
  (sel l).1 < length l ∧ (sel l).2 = delete (sel l).1 l.
Proof.
  intros Hs Hl H2. destruct (Hs l Hl) as [Hk Hp]. split; [done|].
  assert (length (delete (sel l).1 l) ≤ 1) as Hd
    by (rewrite length_delete by (by apply lookup_lt_is_Some_2); lia).
  destruct (delete (sel l).1 l) as [|x [|y k]]; cbn in Hd.
  - by apply Permutation_nil_r in Hp.
  - by apply Permutation_singleton_r in Hp.
  - lia.
Qed.

(** * What a superstep yields

    Both runners compute the same function of their branches' outcomes: the
    outcomes, taken in active-set order (the sequential runner stops at the
    first branch that does not complete), determine updates, routing, the
    completed and interrupted branches and the failure. *)

Section Outcome.
Context {Update : Type}.
Notation outcome := (Result (NodeResult Update)).
Implicit Types (r : outcome) (rs : list outcome).

Definition branch_updates r : list Update :=
  match r with
  | Ok (NRUpdate u) => [u]
  | Ok (NRCommand c) => option_list (cmd_update c)
  | _ => []
  end.
Definition branch_goto r : option (list RouteTarget) :=
  match r with
  | Ok (NRCommand c) => match cmd_goto c with [] => None | ts => Some ts end
  | _ => None
  end.
Definition branch_interrupt r : option Interrupt :=
  match r with Ok (NRInterrupt i) => Some i | _ => None end.
Definition branch_error r : option GraphError :=
  match r with Err e => Some e | _ => None end.
Definition branch_done r : bool :=
  match r with Ok (NRUpdate _) | Ok (NRCommand _) => true | _ => false end.

(** Indices, from [k] on, of the branches with a property. *)
Definition indices (p : outcome → bool) (k : nat) rs : list nat :=
  (filter (λ x, Is_true (p x.2)) (imap (λ i r, (k + i, r)) rs)).*1.
Definition found {A} (f : outcome → option A) (k : nat) rs : list (nat * A) :=
  omap (λ x, pair x.1 <$> f x.2) (imap (λ i r, (k + i, r)) rs).

(** The step record of a list of outcomes. *)
Definition outcomes_run rs : StepRun Update :=
  mkStepRun (mjoin (branch_updates <$> rs))
    (list_to_map (found branch_goto 0 rs))
    (indices branch_done 0 rs) (found branch_interrupt 0 rs)
    ((λ p, mkFailure p.1 p.2) <$> head (found branch_error 0 rs)).

Lemma imap_shift {B} (f : nat → outcome → B) k r rs :
  imap (λ i r, f (k + i) r) (r :: rs) = f k r :: imap (λ i r, f (S k + i) r) rs.
Proof.
  cbn. rewrite Nat.add_0_r. f_equal. apply imap_ext. intros i x _. cbn.
  by rewrite Nat.add_succ_r.
Qed.

Lemma indices_cons p k r rs :
  indices p k (r :: rs) = (if p r then [k] else []) ++ indices p (S k) rs.
Proof.
  unfold indices. rewrite (imap_shift pair), filter_cons.
  destruct (p r) eqn:E; case_decide as Hd; cbn in *; rewrite ?E in Hd; done.
Qed.

Lemma found_cons {A} (f : outcome → option A) k r rs :
  found f k (r :: rs) = (match f r with Some a => [(k, a)] | None => [] end) ++ found f (S k) rs.
Proof. unfold found. rewrite (imap_shift pair). cbn. by destruct (f r). Qed.

Lemma elem_of_indices p k rs i : i ∈ indices p k rs ↔ ∃ j r, i = k + j ∧ rs !! j = Some r ∧ p r = true.
Proof.
  revert k. induction rs as [|r rs IH]; intros k.
  { unfold indices. cbn. rewrite elem_of_nil. split; [done|]. intros (? & ? & _ & H & _).
    by rewrite lookup_nil in H. }
  rewrite indices_cons, elem_of_app, IH. split.
  - intros [Hi|(j & r' & -> & Hj & Hp)].
    + destruct (p r) eqn:E; [|by apply elem_of_nil in Hi]. apply list_elem_of_singleton in Hi as ->.
      exists 0, r. split_and!; [lia|done|done].
    + exists (S j), r'. split_and!; [lia|done|done].
  - intros ([|j] & r' & -> & Hj & Hp); cbn in Hj.
    + injection Hj as ->. rewrite Hp. left. apply list_elem_of_singleton. lia.
    + right. exists j, r'. split_and!; [lia|done|done].
Qed.

Lemma indices_ge p k rs i : i ∈ indices p k rs → k ≤ i.
Proof. intros (j & r & -> & _)%elem_of_indices. lia. Qed.

Lemma indices_NoDup p k rs : NoDup (indices p k rs).
Proof.
  revert k. induction rs as [|r rs IH]; intros k; [constructor|]. rewrite indices_cons.
  destruct (p r); [|apply IH]. constructor; [|apply IH]. intros Hi%indices_ge. lia.
Qed.

Lemma elem_of_found {A} (f : outcome → option A) k rs i a :
  (i, a) ∈ found f k rs ↔ ∃ j r, i = k + j ∧ rs !! j = Some r ∧ f r = Some a.
Proof.
  revert k. induction rs as [|r rs IH]; intros k.
  { unfold found. cbn. rewrite elem_of_nil. split; [done|]. intros (? & ? & _ & H & _).
    by rewrite lookup_nil in H. }
  rewrite found_cons, elem_of_app, IH. split.
  - intros [Hi|(j & r' & -> & Hj & Hp)].
    + destruct (f r) eqn:E; [|by apply elem_of_nil in Hi]. apply list_elem_of_singleton in Hi.
      injection Hi as -> ->. exists 0, r. split_and!; [lia|done|done].
    + exists (S j), r'. split_and!; [lia|done|done].
  - intros ([|j] & r' & -> & Hj & Hp); cbn in Hj.
    + injection Hj as ->. rewrite Hp. left. apply list_elem_of_singleton. by rewrite Nat.add_0_r.
    + right. exists j, r'. split_and!; [lia|done|done].
Qed.

Lemma found_indices {A} (f : outcome → option A) k rs :
  (found f k rs).*1 = indices (λ r, bool_decide (is_Some (f r))) k rs.
Proof.
  revert k. induction rs as [|r rs IH]; intros k; [done|].
  rewrite found_cons, indices_cons, fmap_app, IH. f_equal. by destruct (f r).
Qed.

(** Every branch completed, interrupted or failed, and only one of them. *)
Lemma outcomes_partition rs :
  indices branch_done 0 rs ++ (found branch_interrupt 0 rs).*1 ++ (found branch_error 0 rs).*1
    ≡ₚ seq 0 (length rs).
Proof.
  rewrite !found_indices. generalize 0 as k. induction rs as [|r rs IH]; intros k; [done|].
  rewrite !indices_cons. cbn [length seq]. rewrite <- IH.
  destruct r as [[u|c|i]|e]; cbn; try constructor; try done.
  - symmetry. apply Permutation_middle.
  - rewrite !app_assoc. symmetry. apply Permutation_middle.
Qed.

(** ** The fold *)

Definition acc_run (acc : FoldAcc Update) (k : nat) rs : StepRun Update :=
  mkStepRun (fa_updates acc ++ mjoin (branch_updates <$> rs))
    (list_to_map (found branch_goto k rs) ∪ fa_goto_map acc)
    (fa_completed acc ++ indices branch_done k rs)
    (fa_interrupts acc ++ found branch_interrupt k rs)
    (match fa_failure acc with
     | Some f => Some f
     | None => (λ p, mkFailure p.1 p.2) <$> head (found branch_error k rs)
     end).

Lemma acc_run_nil acc k : acc_run acc k [] = step_run acc.
Proof.
  unfold acc_run, step_run, indices, found. cbn. rewrite !app_nil_r, (left_id_L ∅ (∪)).
  by destruct (fa_failure acc).
Qed.

(** The accumulator after one branch. *)
Definition fold_one (step k : nat) (a : Activation) (acc : FoldAcc Update) r : FoldAcc Update :=
  match r with
  | Err e => push_failure acc k (act_node a) step e
  | Ok r =>
      match fold_branch k (act_node a) step r acc with
      | (acc, Some found) => push_interrupt acc found
      | (acc, None) => push_completed acc k
      end
  end.

Lemma found_goto_lt k rs i : list_to_map (M := gmap nat (list RouteTarget))
    (found branch_goto (S k) rs) !! i = None ∨ k < i.
Proof.
  destruct (list_to_map _ !! i) eqn:E; [|by left]. right. apply elem_of_list_to_map_2 in E.
  apply elem_of_found in E as (j & r & -> & _). lia.
Qed.

Lemma acc_run_cons step k a acc r rs :
  acc_run (fold_one step k a acc r) (S k) rs = acc_run acc k (r :: rs).
Proof.
  unfold acc_run. rewrite !found_cons, indices_cons. rewrite fmap_cons. cbn [mjoin list_join].
  destruct r as [[u|c|i]|e]; cbn.
  - f_equal; by rewrite <- app_assoc.
  - destruct (cmd_update c) as [u|]; cbn; destruct (cmd_goto c) as [|t ts]; cbn;
      f_equal; rewrite <- ?app_assoc; try done.
    all: rewrite <- insert_union_l; symmetry; apply insert_union_r;
      destruct (found_goto_lt k rs k) as [|]; [done|lia].
  - f_equal; by rewrite <- app_assoc.
  - destruct (fa_failure acc); done.
Qed.

Lemma fold_parallel_run step k active rs : ∀ acc,
  length rs = length active →
  step_run (fold_parallel step k active rs acc) = acc_run acc k rs.
Proof.
  revert k rs. induction active as [|a active IH]; intros k [|r rs] acc Hlen; try done.
  - cbn. by rewrite acc_run_nil.
  - cbn [fold_parallel]. rewrite IH by (cbn in Hlen; lia). apply (acc_run_cons step k a).
Qed.

Lemma acc_run_init visited events rs :
  acc_run (mkFold [] ∅ [] [] None visited events) 0 rs = outcomes_run rs.
Proof. unfold acc_run, outcomes_run. cbn. by rewrite (right_id_L ∅ (∪)). Qed.

(** The prefix the sequential runner gets to: up to the first branch that does
    not complete, that branch included. *)
Fixpoint until_stop rs : list outcome :=
  match rs with
  | [] => []
  | r :: rest => if branch_done r then r :: until_stop rest else [r]
  end.
End Outcome.

Section Runners.
Context {State Update C : Type} (g : CompiledGraph State Update C).
Context (rt : Runtime) (info : RunInfo).

Definition registered (active : list Activation) : Prop :=
  Forall (λ a, is_Some (cg_nodes g !! act_node a)) active.

(** What each branch of a step yields, resume values consumed in order. *)
Fixpoint branch_outcomes (forked : bool) (state : State) (step index : nat)
    (active : list Activation) (resume_map : gmap NodeId value)
    : list (Result (NodeResult Update) * list ChildRun) :=
  match active with
  | [] => []
  | a :: rest =>
      match cg_nodes g !! act_node a with
      | None => []
      | Some node =>
          let '(ctx, resume_map') :=
            node_context info (act_node a) step resume_map
              (if forked then Some (mkFork index (act_node a)) else None) (act_send_arg a) in
          run_node_with_retry rt g (act_node a) (node_handler node) state ctx
            :: branch_outcomes forked state step (S index) rest resume_map'
      end
  end.

Lemma branch_outcomes_length forked state step active : ∀ index resume_map,
  registered active →
  length (branch_outcomes forked state step index active resume_map) = length active.
Proof.
  induction active as [|a rest IH]; intros index rm Hr; [done|]. apply Forall_cons in Hr as [[n Hn] Hr].
  cbn. rewrite Hn. cbn. by rewrite IH.
Qed.

Lemma fork_branches_ok state step active : ∀ index rm evs futs,
  registered active → ∃ rm' evs',
  fork_branches rt g info state step index active rm evs futs =
    (rm', evs', Ok (futs ++ branch_outcomes true state step index active rm)).
Proof.
  induction active as [|a rest IH]; intros index rm evs futs Hr; cbn.
  { rewrite app_nil_r. eauto. }
  apply Forall_cons in Hr as [[n Hn] Hr]. rewrite Hn.
  edestruct IH as (rm' & evs' & ->); [done|]. rewrite <- app_assoc. eauto.
Qed.

Lemma run_sequential_run state step active : ∀ index rm children acc,
  registered active →
  so_run (run_sequential rt g info state step index active rm children acc) =
    Ok (acc_run acc index (until_stop (branch_outcomes false state step index active rm).*1)).
Proof.
  induction active as [|a rest IH]; intros index rm children acc Hr; cbn.
  { by rewrite acc_run_nil. }
  apply Forall_cons in Hr as [[n Hn] Hr]. rewrite Hn. cbn.
  destruct (run_node_with_retry _ _ _ _ _ _) as [r reported]. cbn.
  destruct r as [[u|c|i]|e]; cbn.
  - rewrite IH by done. f_equal. rewrite <- (acc_run_cons step index a). done.
  - destruct (match cmd_update c with Some _ => _ | None => _ end) as [us evs] eqn:Eu.
    rewrite IH by done. f_equal. rewrite <- (acc_run_cons step index a). cbn.
    destruct (cmd_update c); by inv_ok.
  - f_equal. rewrite <- (acc_run_cons step index a), acc_run_nil. done.
  - f_equal. rewrite <- (acc_run_cons step index a), acc_run_nil. done.
Qed.

(** The sequential runner. *)
Lemma run_active_sequential_run active state step rm visited :
  registered active →
  so_run (run_active_sequential rt g info active state step rm visited) =
    Ok (outcomes_run (until_stop (branch_outcomes false state step 0 active rm).*1)).
Proof.
  intros Hr. unfold run_active_sequential. rewrite run_sequential_run by done.
  unfold fold_init. by rewrite acc_run_init.
Qed.

(** The bound [select_all] meets at the call: the window holds at most this
    many futures. *)
Definition window_limit (total : nat) : nat := Nat.max (default total (cg_max_concurrency g)) 1.

(** The runner awaits all branches together, or no more than two are ever in
    flight: then nothing depends on the order [select_all] returns the remaining
    futures in. *)
Definition order_free (active : list Activation) : Prop :=
  global_binds g (length active) || node_caps_bind g active = false ∨
  window_limit (length active) ≤ 2.

Lemma outcomes_lookup {A} (d : A) (l : list A) :
  (λ i, default d (l !! i)) <$> seq 0 (length l) = l.
Proof.
  apply list_eq. intros i. rewrite list_lookup_fmap.
  destruct (l !! i) as [x|] eqn:E.
  - assert (Hi : i < length l) by by eapply lookup_lt_Some.
    rewrite lookup_seq_lt by done. cbn. by rewrite E.
  - apply lookup_ge_None in E. by rewrite lookup_seq_ge.
Qed.

(** The parallel runner, when the order does not matter. *)
Lemma run_active_parallel_run active state step rm visited :
  registered active → caps_pos (cg_node_concurrency g) → select_lawful (rt_select_all rt) →
  order_free active →
  ∃ out, run_active_parallel rt g info active state step rm visited = Some out ∧
    so_run out = Ok (outcomes_run (branch_outcomes true state step 0 active rm).*1).
Proof.
  intros Hr Hcp Hlaw Hord. unfold run_active_parallel.
  destruct (fork_branches_ok state step active 0 rm [] [] Hr) as (rm' & evs & ->). cbn.
  set (futs := branch_outcomes true state step 0 active rm).
  assert (Hlen : length futs = length active) by by apply branch_outcomes_length.
  match goal with |- context [and_then ?e _] => assert (e = Some futs.*1) as -> end.
  { destruct Hord as [Hall|Htwo]; [by rewrite Hlen, Hall|]. case_match; [|done].
    rewrite (window_results_in_order (rt_select_all rt)).
    - f_equal. rewrite <- (length_fmap fst). apply outcomes_lookup.
    - lia.
    - done.
    - done.
    - rewrite Hlen. intros l Hl Hle. apply select_lawful_two; [done..|].
      unfold window_limit in Htwo. lia. }
  cbn. eexists. split; [done|]. cbn. rewrite fold_parallel_run by by rewrite length_fmap.
  by rewrite acc_run_init.
Qed.

(** Any documented [select_all]: the runner never leaves a slot empty, and the
    branches' results are all there. *)
Lemma run_active_parallel_total active state step rm visited :
  registered active → caps_pos (cg_node_concurrency g) → select_lawful (rt_select_all rt) →
  ∃ out rs, run_active_parallel rt g info active state step rm visited = Some out ∧
    so_run out = Ok (outcomes_run rs) ∧
    rs ≡ₚ (branch_outcomes true state step 0 active rm).*1.
Proof.
  intros Hr Hcp Hlaw. unfold run_active_parallel.
  destruct (fork_branches_ok state step active 0 rm [] [] Hr) as (rm' & evs & ->). cbn.
  set (futs := branch_outcomes true state step 0 active rm).
  assert (Hlen : length futs = length active) by by apply branch_outcomes_length.
  match goal with |- context [and_then ?e _] =>
    assert (∃ rs, e = Some rs ∧ length rs = length active ∧ rs ≡ₚ futs.*1) as (rs & -> & Hl & Hp) end.
  { case_match; [|exists futs.*1; by rewrite length_fmap].
    edestruct (window_results_perm (rt_select_all rt)
      (λ i, default (Err Cancelled) (futs.*1 !! i)) (cg_node_concurrency g)
      (activation_nodes active) (Nat.max (default (length futs) (cg_max_concurrency g)) 1)
      (length futs)) as (rs & -> & Hl & Hp); [lia|done|done|].
    exists rs. split_and!; [done|congruence|]. rewrite Hp.
    rewrite <- (length_fmap fst) at 1. by rewrite outcomes_lookup. }
  cbn. eexists _, rs. split_and!; [done| |done]. cbn.
  rewrite fold_parallel_run by done. by rewrite acc_run_init.
Qed.
End Runners.
