(* ===== verification/Executor.v ===== *)
(** * The executor

    [crates/tinyflows/src/graph/compiled/executor/{persistence,outcomes,run_loop,api}.rs]
    and the asynchronous checkpoint tracker of [compiled/types.rs].  A run is a
    function of the world it starts in: the checkpointer's store, the events
    and statuses recorded, and the process-wide id counter.  What the code
    reads from outside (the clock at each boundary, how far background writes
    have got, [select_all]) is the [Env]. *)

From S2P Require Import Prelude Json GraphTypes Search Checkpoint Builder.
From S2P Require Import Routing StepExec.

Record World (C : Type) := mkWorld {
  w_store : C;
  w_events : list GraphEvent;
  w_statuses : list GraphRunStatus;
  w_seq : N
}.
Arguments mkWorld {C}.
Arguments w_store {C}.
Arguments w_events {C}.
Arguments w_statuses {C}.
Arguments w_seq {C}.

(** A computation on the world. *)
Definition M (C A : Type) : Type := World C → World C * A.
Definition mret {C A} (a : A) : M C A := λ w, (w, a).
Definition mbind {C A B} (m : M C A) (f : A → M C B) : M C B :=
  λ w, let '(w', a) := m w in f a w'.
Notation "'let!' x := m 'in' k" := (mbind m (λ x, k))
  (at level 200, x name, m at level 100, k at level 200, right associativity) : tf_scope.
Notation "m ';!' k" := (mbind m (λ _, k)) (at level 199, right associativity) : tf_scope.

Record Env := mkEnv {
  env_rt : Runtime;
  env_nonce : N;
  (** [started_at.elapsed()] at the boundary before superstep [n + 1]. *)
  env_elapsed : nat → N;
  (** Background writes that finish by the end of superstep [n]. *)
  env_progress : nat → nat;
  (** Whether a tokio runtime is current. *)
  env_tokio : bool
}.

Record GraphExecution (State : Type) := mkExecution {
  ge_state : State;
  ge_run_id : RunId;
  ge_graph_id : GraphId;
  ge_root_run_id : RunId;
  ge_parent_run_id : option RunId;
  ge_child_runs : list ChildRun;
  ge_visited : list NodeId;
  ge_steps : nat;
  ge_interrupts : list Interrupt;
  ge_status : GraphRunStatus;
  ge_checkpoint_id : option CheckpointId
}.
Arguments mkExecution {State}.
Arguments ge_state {State}.
Arguments ge_run_id {State}.
Arguments ge_graph_id {State}.
Arguments ge_root_run_id {State}.
Arguments ge_parent_run_id {State}.
Arguments ge_child_runs {State}.
Arguments ge_visited {State}.
Arguments ge_steps {State}.
Arguments ge_interrupts {State}.
Arguments ge_status {State}.
Arguments ge_checkpoint_id {State}.

Definition is_interrupted {State} (e : GraphExecution State) : bool :=
  bool_decide (ge_interrupts e ≠ []).

(** ** Persisted forms *)

Definition barriers_to_persisted (m : gmap NodeId (gset NodeId)) : list BarrierArrivals :=
  (λ p, mkArrivals p.1 (elements p.2)) <$> map_to_list m.
Definition barriers_from_persisted (l : list BarrierArrivals) : gmap NodeId (gset NodeId) :=
  foldl (λ m b, <[ba_node b := list_to_set (ba_arrived b)]> m) ∅ l.

Definition interrupted_nodes {State} (c : Checkpoint State) (pending : list Activation)
    : list NodeId :=
  let stamped :=
    default [] ((get "interrupted_nodes" (cp_metadata c) >>? as_array) >>? λ nodes,
                Some (omap as_str nodes)) in
  match stamped with
  | [] =>
      filter (λ n, n ∈ activation_nodes pending) (int_node <$> cp_interrupts c)
  | _ => stamped
  end.

(** ** Background checkpoint writes *)

(** The chain of spawned writes: those not performed yet, the first error along
    the chain, and whether a handle is held. *)
Record AsyncCheckpointWrites (State : Type) := mkAsync {
  aw_queue : list (Checkpoint State);
  aw_failed : option GraphError;
  aw_live : bool
}.
Arguments mkAsync {State}.
Arguments aw_queue {State}.
Arguments aw_failed {State}.
Arguments aw_live {State}.

Definition async_default {State} : AsyncCheckpointWrites State := mkAsync [] None false.

Section Executor.
Context {State Update C : Type}.
Notation Graph := (CompiledGraph State Update C).
Implicit Types (g : Graph) (aw : AsyncCheckpointWrites State).

(** ** The world's primitives *)

Definition emits g (evs : list GraphEvent) : M C unit :=
  λ w, (if cg_event_sink g
        then mkWorld (w_store w) (w_events w ++ evs) (w_statuses w) (w_seq w) else w, tt).
Definition emit g (ev : GraphEvent) : M C unit := emits g [ev].

Definition save_status g (s : GraphRunStatus) : M C unit :=
  λ w, (if cg_status_store g
        then mkWorld (w_store w) (w_events w) (w_statuses w ++ [s]) (w_seq w) else w, tt).

Definition next_seq : M C N :=
  λ w, (mkWorld (w_store w) (w_events w) (w_statuses w) (w_seq w + 1)%N, w_seq w).
Definition new_run_id (env : Env) : M C RunId :=
  let! n := next_seq in mret (fmt_run_id (env_nonce env) n).
Definition next_checkpoint_id (env : Env) : M C CheckpointId :=
  let! n := next_seq in mret (fmt_checkpoint_id (env_nonce env) n).

(** A mutating checkpointer call. *)
Definition with_store {A} (f : C → C * A) : M C A :=
  λ w, let '(s, a) := f (w_store w) in (mkWorld s (w_events w) (w_statuses w) (w_seq w), a).

(** ** The background chain *)

(** [spawn_ordered]. *)
Definition spawn_ordered aw (c : Checkpoint State) : AsyncCheckpointWrites State :=
  mkAsync (aw_queue aw ++ [c]) (aw_failed aw) true.

(** The next [n] links of the chain run: a write after a failed one is
    skipped. *)
Fixpoint background g (ops : CheckpointerOps State C) (n : nat) aw
    : M C (AsyncCheckpointWrites State) :=
  match n, aw_queue aw with
  | S n', c :: rest =>
      match aw_failed aw with
      | Some e => background g ops n' (mkAsync rest (Some e) (aw_live aw))
      | None =>
          let! r := with_store (λ s, ck_put ops s c) in
          match r with
          | Ok id => emit g (CheckpointSaved id) ;!
                     background g ops n' (mkAsync rest None (aw_live aw))
          | Err e => background g ops n' (mkAsync rest (Some e) (aw_live aw))
          end
      end
  | _, _ => mret aw
  end.

Definition background_for g (n : nat) aw : M C (AsyncCheckpointWrites State) :=
  match cg_checkpointer g with Some ops => background g ops n aw | None => mret aw end.

(** [take_failure]: harvests the handle only when the whole chain finished. *)
Definition take_failure aw : AsyncCheckpointWrites State * option GraphError :=
  if aw_live aw then
    match aw_queue aw with
    | [] => (async_default, aw_failed aw)
    | _ => (aw, None)
    end
  else (aw, None).

(** [drain]: runs the chain to its end. *)
Definition drain g aw : M C (AsyncCheckpointWrites State * Result unit) :=
  let! aw := background_for g (length (aw_queue aw)) aw in
  mret (async_default, match aw_failed aw with Some e => Err e | None => Ok tt end).

(** ** Persistence *)

Fixpoint partition_completed_from (active : list Activation)
    (goto_map : gmap nat (list RouteTarget)) (completed_indices : list nat)
    (completed : list Activation) (routing : gmap nat (list RouteTarget))
    : list Activation * gmap nat (list RouteTarget) :=
  match completed_indices with
  | [] => (completed, routing)
  | index :: rest =>
      match active !! index with
      | None => partition_completed_from active goto_map rest completed routing
      | Some a =>
          let routing' :=
            match goto_map !! index with
            | Some targets => <[length completed := targets]> routing
            | None => routing
            end in
          partition_completed_from active goto_map rest (completed ++ [a]) routing'
      end
  end.
Definition partition_completed (active : list Activation)
    (goto_map : gmap nat (list RouteTarget)) (completed_indices : list nat)
    : list Activation * gmap nat (list RouteTarget) :=
  partition_completed_from active goto_map completed_indices [] ∅.

Definition completion_writes (completed_tasks : list Activation) : list PendingWrite :=
  (λ a, completion_marker (act_node a) (act_task_id a)) <$> completed_tasks.

(** The run's constants. *)
Record RunCtx := mkRunCtx {
  rc_info : RunInfo;
  rc_parent_run_id : option RunId;
  rc_stack : RecursionStack;
  rc_recursion_meta : value
}.
Definition rc_run_id (rc : RunCtx) : RunId := ri_run_id (rc_info rc).
Definition rc_thread_id (rc : RunCtx) : option ThreadId := ri_thread_id (rc_info rc).

Definition loop_metadata (source : string) (step : nat) (recursion child_runs : value)
    (interrupted : list NodeId) : value :=
  let metadata := [("source", Str source); ("step", value_of_nat step);
                   ("recursion", recursion); ("child_runs", child_runs)] in
  json_object (match interrupted with
               | [] => metadata
               | _ => metadata ++ [("interrupted_nodes", json_strings interrupted)]
               end).

Definition build_loop_checkpoint (env : Env) g (thread : ThreadId) (run_id : RunId)
    (state : State) (pending completed_tasks : list Activation) (interrupts : list Interrupt)
    (interrupted : list NodeId) (barriers : gmap NodeId (gset NodeId)) (parent : option string)
    (step : nat) (source : string) (recursion child_runs : value) : M C (Checkpoint State) :=
  let! id := next_checkpoint_id env in
  mret (mkCheckpoint thread id (Some run_id) parent (cg_namespace g) state
          (activation_nodes pending) (activation_nodes completed_tasks)
          (completion_writes completed_tasks) interrupts
          (Some (pending_of_activation <$> pending)) (barriers_to_persisted barriers)
          (loop_metadata source step recursion child_runs interrupted)).

(** The tail shared by the two synchronous persists: [put], then the ledger,
    then the event. *)
Definition put_with_ledger g (ops : CheckpointerOps State C) (c : Checkpoint State)
    : M C (Result (option CheckpointId)) :=
  let config := mkConfig (cp_thread_id c) (Some (cp_checkpoint_id c)) (cp_namespace c) in
  let! r := with_store (λ s, ck_put ops s c) in
  match r with
  | Err e => mret (Err e)
  | Ok id =>
      let! r := with_store (λ s, ck_put_writes ops s config (cp_pending_writes c)) in
      match r with
      | Err e => mret (Err e)
      | Ok _ => emit g (CheckpointSaved id) ;! mret (Ok (Some id))
      end
  end.

Definition persist_checkpoint (env : Env) g (rc : RunCtx) (state : State)
    (pending completed_tasks : list Activation) (interrupts : list Interrupt)
    (interrupted : list NodeId) (barriers : gmap NodeId (gset NodeId)) (parent : option string)
    (step : nat) (child_runs : value) : M C (Result (option CheckpointId)) :=
  match cg_checkpointer g, rc_thread_id rc with
  | Some ops, Some thread =>
      let! c := build_loop_checkpoint env g thread (rc_run_id rc) state pending completed_tasks
                  interrupts interrupted barriers parent step "loop" (rc_recursion_meta rc)
                  child_runs in
      put_with_ledger g ops c
  | _, _ => mret (Ok None)
  end.

Definition persist_checkpoint_nonblocking (env : Env) g (rc : RunCtx)
    (aw : AsyncCheckpointWrites State) (state : State) (pending completed_tasks : list Activation)
    (barriers : gmap NodeId (gset NodeId)) (parent : option string) (step : nat)
    (child_runs : value)
    : M C (AsyncCheckpointWrites State * Result (option CheckpointId)) :=
  match cg_checkpointer g, rc_thread_id rc with
  | Some ops, Some thread =>
      let! c := build_loop_checkpoint env g thread (rc_run_id rc) state pending completed_tasks
                  [] [] barriers parent step "loop" (rc_recursion_meta rc) child_runs in
      if env_tokio env then mret (spawn_ordered aw c, Ok (Some (cp_checkpoint_id c)))
      else
        let! r := with_store (λ s, ck_put ops s c) in
        match r with
        | Err e => mret (aw, Err e)
        | Ok id => emit g (CheckpointSaved id) ;! mret (aw, Ok (Some id))
        end
  | _, _ => mret (aw, Ok None)
  end.

Definition persist_failure_checkpoint (env : Env) g (rc : RunCtx) (state : State)
    (pending completed_tasks : list Activation) (barriers : gmap NodeId (gset NodeId))
    (parent : option string) (step : nat) (failed_node : NodeId) (error : GraphError)
    (child_runs : value) : M C (Result (option CheckpointId)) :=
  match cg_checkpointer g, rc_thread_id rc with
  | Some ops, Some thread =>
      let! id := next_checkpoint_id env in
      put_with_ledger g ops
        (mkCheckpoint thread id (Some (rc_run_id rc)) parent (cg_namespace g) state
          (activation_nodes pending) (activation_nodes completed_tasks)
          (completion_writes completed_tasks) []
          (Some (pending_of_activation <$> pending)) (barriers_to_persisted barriers)
          (json_object [("source", Str "loop"); ("step", value_of_nat step);
                        ("recursion", rc_recursion_meta rc); ("child_runs", child_runs);
                        ("failed_node", Str failed_node);
                        ("error", Str (error_to_string error))]))
  | _, _ => mret (Ok None)
  end.

(** ** Outcomes *)

Definition base_status g (rc : RunCtx) : GraphRunStatus :=
  mkStatus (rc_run_id rc) (rc_run_id rc) None (rc_thread_id rc) (cg_graph_id g) None
    (cg_namespace g) StRunning 0 [] [] false None.

Definition fail_run g (rc : RunCtx) (steps : nat) (err : GraphError)
    (checkpoint_id : option CheckpointId) : M C unit :=
  emit g (RunFailed (rc_run_id rc) (error_to_string err)) ;!
  let s := base_status g rc in
  save_status g (mkStatus (st_run_id s) (st_root_run_id s) (st_parent_run_id s) (st_thread_id s)
    (st_graph_id s) checkpoint_id (st_namespace s) StFailed steps [] [] true
    (Some (error_to_string err))).

Definition fail_and_return {A} g (rc : RunCtx) (steps : nat) aw (err : GraphError)
    : M C (Result A) :=
  let! _d := drain g aw in
  fail_run g rc steps err None ;! mret (Err err).

Definition finish_completed g (rc : RunCtx) (state : State) (steps : nat)
    (last_checkpoint : option CheckpointId) (child_runs : list ChildRun) (visited : list NodeId)
    : M C (Result (GraphExecution State)) :=
  let s := base_status g rc in
  let status := mkStatus (st_run_id s) (st_root_run_id s) (st_parent_run_id s) (st_thread_id s)
    (st_graph_id s) last_checkpoint (st_namespace s) StCompleted steps [] [] true None in
  save_status g status ;!
  emit g (RunCompleted (rc_run_id rc) steps) ;!
  mret (Ok (mkExecution state (rc_run_id rc) (cg_graph_id g) (ri_root_run_id (rc_info rc))
              (rc_parent_run_id rc) child_runs visited steps [] status last_checkpoint)).

(** The activations a boundary reschedules beside the successors: the
    interrupted branches, then those that never ran. *)
Definition interrupt_pending (active : list Activation) (completed_indices : list nat)
    (interrupts : list (nat * Interrupt)) : list Activation :=
  omap (λ p, active !! p.1) interrupts ++
  (filter (λ p, p.1 ∉ completed_indices ++ interrupts.*1) (imap pair active)).*2.

Definition finish_interrupt (env : Env) g (rc : RunCtx) (steps : nat)
    (aw : AsyncCheckpointWrites State) (active : list Activation) (sr : StepRun Update)
    (state : State) (barriers : gmap NodeId (gset NodeId)) (parent : option string)
    (child_runs_meta : value) (child_runs : list ChildRun) (visited : list NodeId)
    : M C (Result (GraphExecution State)) :=
  match require_interrupt_durability g (rc_thread_id rc) with
  | Err err => fail_and_return g rc steps aw err
  | Ok _ =>
      let '(completed, completed_goto) :=
        partition_completed active (sr_goto_map sr) (sr_completed sr) in
      let '(barriers', evs, routed) :=
        route_completed g completed completed_goto state barriers in
      emits g evs ;!
      match routed with
      | Err route_err => fail_and_return g rc steps aw route_err
      | Ok successors =>
          let interrupted := omap (λ p, act_node <$> active !! p.1) (sr_interrupts sr) in
          let pending := successors ++
            interrupt_pending active (sr_completed sr) (sr_interrupts sr) in
          let emitted := (sr_interrupts sr).*2 in
          let! d := drain g aw in
          match d.2 with
          | Err err => fail_and_return g rc steps d.1 err
          | Ok _ =>
              let! persisted := persist_checkpoint env g rc state pending completed emitted
                                  interrupted barriers' parent steps child_runs_meta in
              match persisted with
              | Err persist_err => fail_and_return g rc steps d.1 persist_err
              | Ok checkpoint_id =>
                  let s := base_status g rc in
                  let status := mkStatus (st_run_id s) (st_root_run_id s) (st_parent_run_id s)
                    (st_thread_id s) (st_graph_id s) checkpoint_id (st_namespace s) StInterrupted
                    steps (activation_nodes pending) (int_id <$> emitted) false None in
                  save_status g status ;!
                  mret (Ok (mkExecution state (rc_run_id rc) (cg_graph_id g)
                              (ri_root_run_id (rc_info rc)) (rc_parent_run_id rc) child_runs
                              visited steps emitted status checkpoint_id))
              end
          end
      end
  end.
End Executor.
