(* ===== verification/RunLoop.v ===== *)
(** * The superstep loop and the run API

    [execute_run] of [executor/run_loop.rs], cut at its boundaries, and the
    entry points of [executor/api.rs]. *)

From S2P Require Import Prelude Json GraphTypes Search Checkpoint Builder.
From S2P Require Import Routing StepExec Executor.

(** How the loop ends.  [Panicked]: the parallel runner found an empty slot.
    [OutOfFuel] is not a behaviour of the program. *)
Inductive Outcome (A : Type) :=
| Returned (r : Result A)
| Panicked
| OutOfFuel.
Arguments Returned {A}.
Arguments Panicked {A}.
Arguments OutOfFuel {A}.

Record GraphInput := mkInput { input_node : NodeId; input_payload : option value }.
Definition input_start (payload : value) : GraphInput := mkInput START (Some payload).
Definition input_new (node : NodeId) (payload : value) : GraphInput := mkInput node (Some payload).
Definition input_at (node : NodeId) : GraphInput := mkInput node None.

Inductive ResumeTarget := Latest | AtCheckpoint (id : string).

Section RunLoop.
Context {State Update C : Type}.
Notation Graph := (CompiledGraph State Update C).
Implicit Types (g : Graph).

(** The loop's local variables. *)
Record LoopState := mkLoop {
  ls_state : State;
  ls_active : list Activation;
  ls_steps : nat;
  ls_visits : gmap NodeId nat;
  ls_visited : list NodeId;
  ls_resume : gmap NodeId value;
  ls_barriers : gmap NodeId (gset NodeId);
  ls_parent : option string;
  ls_last : option CheckpointId;
  ls_children : list ChildRun;
  ls_async : AsyncCheckpointWrites State
}.

Inductive StepResult :=
| Continue (ls : LoopState)
| Finish (r : Result (GraphExecution State))
| StepPanic.

Definition step_limit g : nat :=
  Nat.min (cg_recursion_limit g) (max_total_steps (cg_recursion_policy g)).

Definition deadline_message (env : Env) (deadline elapsed : N) (steps : nat) : string :=
  "graph run exceeded its " +:+ rt_fmt_duration (env_rt env) deadline +:+ " deadline after " +:+
  pretty steps +:+ " super-step(s) (" +:+ rt_fmt_duration (env_rt env) elapsed +:+ " elapsed)".

(** The guards at the top of the loop body: the step cap, the deadline and the
    visit counters (which are updated even when one refuses). *)
Definition check_caps (env : Env) g (rc : RunCtx) (ls : LoopState)
    : gmap NodeId nat * Result unit :=
  if decide (step_limit g ≤ ls_steps ls) then (ls_visits ls, Err (RecursionLimit (step_limit g)))
  else
    match cg_run_deadline g with
    | Some deadline =>
        if decide (deadline ≤ env_elapsed env (ls_steps ls))%N
        then (ls_visits ls,
              Err (Timeout (deadline_message env deadline (env_elapsed env (ls_steps ls))
                              (ls_steps ls))))
        else record_visits (rc_stack rc) (ls_visits ls) (ls_active ls)
    | None => record_visits (rc_stack rc) (ls_visits ls) (ls_active ls)
    end.

Definition task_id (step index : nat) (node : NodeId) : string :=
  pretty step +:+ ":" +:+ pretty index +:+ ":" +:+ node.

(** Activations that carry no identity yet get one. *)
Definition assign_task_ids (step : nat) (active : list Activation) : list Activation :=
  imap (λ index a,
    if decide (act_task_id a = "")
    then mkActivation (act_node a) (act_send_arg a) (task_id step index (act_node a))
    else a) active.

Definition run_active (env : Env) g (rc : RunCtx) (active : list Activation) (state : State)
    (step : nat) (resume_map : gmap NodeId value) (visited : list NodeId)
    : option (StepOut Update) :=
  if cg_parallel g && bool_decide (1 < length active)
  then run_active_parallel (env_rt env) g (rc_info rc) active state step resume_map visited
  else Some (run_active_sequential (env_rt env) g (rc_info rc) active state step resume_map
               visited).

Definition apply_updates g (state : State) (updates : list Update) : Result State :=
  fold_result (cg_reducer g) state updates.

(** The branches a failure boundary reschedules. *)
Definition not_completed (active : list Activation) (completed : list nat) : list Activation :=
  (filter (λ p, p.1 ∉ completed) (imap pair active)).*2.

Definition fail_boundary (env : Env) g (rc : RunCtx) (ls : LoopState) (active : list Activation)
    (sr : StepRun Update) (fail : StepFailure) (state : State) (child_meta : value)
    : M C StepResult :=
  let steps := S (ls_steps ls) in
  let failed_node := default "" (act_node <$> active !! failed_index fail) in
  let '(done, done_goto) := partition_completed active (sr_goto_map sr) (sr_completed sr) in
  let '(barriers, evs, routed) := route_completed g done done_goto state (ls_barriers ls) in
  emits g evs ;!
  match routed with
  | Err route_err =>
      let! r := fail_and_return g rc steps (ls_async ls) route_err in mret (Finish r)
  | Ok successors =>
      let pending := successors ++ not_completed active (sr_completed sr) in
      let! _d := drain g (ls_async ls) in
      let! persisted := persist_failure_checkpoint env g rc state pending done barriers
                          (ls_parent ls) steps failed_node (failure_error fail) child_meta in
      let checkpoint_id := match persisted with Ok id => id | Err _ => None end in
      fail_run g rc steps (failure_error fail) checkpoint_id ;!
      mret (Finish (Err (failure_error fail)))
  end.

(** The normal boundary: route, persist as the durability mode says, go on. *)
Definition commit_boundary (env : Env) g (rc : RunCtx) (ls : LoopState)
    (active : list Activation) (sr : StepRun Update) (state : State) (visits : gmap NodeId nat)
    (visited : list NodeId) (resume_map : gmap NodeId value) (children : list ChildRun)
    (child_meta : value) : M C StepResult :=
  let steps := S (ls_steps ls) in
  let '(barriers, evs, routed) := route_completed g active (sr_goto_map sr) state (ls_barriers ls) in
  emits g evs ;!
  match routed with
  | Err route_err =>
      let! r := fail_and_return g rc steps (ls_async ls) route_err in mret (Finish r)
  | Ok next =>
      let terminal := bool_decide (next = []) in
      let persist_now :=
        match cg_durability g with DurExit => terminal | DurSync | DurAsync => true end in
      let! aw := background_for g (env_progress env steps) (ls_async ls) in
      match take_failure aw with
      | (aw, Some err) =>
          let! r := fail_and_return g rc steps aw err in mret (Finish r)
      | (aw, None) =>
          let go_on (aw : AsyncCheckpointWrites State) (checkpoint_id : option CheckpointId) :=
            emit g (StepCompleted steps) ;!
            mret (Continue (mkLoop state next steps visits visited resume_map barriers
              (match checkpoint_id with Some id => Some id | None => ls_parent ls end)
              (match checkpoint_id with Some id => Some id | None => ls_last ls end)
              children aw)) in
          if persist_now then
            match cg_durability g, terminal with
            | DurAsync, false =>
                let! p := persist_checkpoint_nonblocking env g rc aw state next active barriers
                            (ls_parent ls) steps child_meta in
                match p.2 with
                | Ok id => go_on p.1 id
                | Err e => let! r := fail_and_return g rc steps p.1 e in mret (Finish r)
                end
            | _, _ =>
                let! d := (if terminal then drain g aw else mret (aw, Ok tt)) in
                match d.2 with
                | Err e => let! r := fail_and_return g rc steps d.1 e in mret (Finish r)
                | Ok _ =>
                    let! p := persist_checkpoint env g rc state next active [] [] barriers
                                (ls_parent ls) steps child_meta in
                    match p with
                    | Ok id => go_on d.1 id
                    | Err e => let! r := fail_and_return g rc steps d.1 e in mret (Finish r)
                    end
                end
            end
          else go_on aw None
      end
  end.

(** One iteration of [while !active.is_empty()]. *)
Definition superstep (env : Env) g (rc : RunCtx) (ls : LoopState) : M C StepResult :=
  match check_caps env g rc ls with
  | (_, Err err) =>
      let! r := fail_and_return g rc (ls_steps ls) (ls_async ls) err in mret (Finish r)
  | (visits, Ok _) =>
      let steps := S (ls_steps ls) in
      let active := assign_task_ids steps (ls_active ls) in
      emit g (StepStarted steps (activation_nodes active)) ;!
      match run_active env g rc active (ls_state ls) steps (ls_resume ls) (ls_visited ls) with
      | None => mret StepPanic
      | Some out =>
          emits g (so_events out) ;!
          match so_run out with
          | Err err =>
              let! r := fail_and_return g rc steps (ls_async ls) err in mret (Finish r)
          | Ok sr =>
              match apply_updates g (ls_state ls) (sr_updates sr) with
              | Err err =>
                  let! r := fail_and_return g rc steps (ls_async ls) err in mret (Finish r)
              | Ok state =>
                  let children := ls_children ls ++ so_children out in
                  let child_meta := children_to_value (so_children out) in
                  match sr_failure sr, sr_interrupts sr with
                  | Some fail, _ => fail_boundary env g rc ls active sr fail state child_meta
                  | None, _ :: _ =>
                      let! r := finish_interrupt env g rc steps (ls_async ls) active sr state
                                  (ls_barriers ls) (ls_parent ls) child_meta children
                                  (so_visited out) in
                      mret (Finish r)
                  | None, [] =>
                      commit_boundary env g rc ls active sr state visits (so_visited out)
                        (so_resume out) children child_meta
                  end
              end
          end
      end
  end.

Fixpoint run_loop (fuel : nat) (env : Env) g (rc : RunCtx) (ls : LoopState)
    : M C (Outcome (GraphExecution State)) :=
  match ls_active ls with
  | [] =>
      let! r := finish_completed g rc (ls_state ls) (ls_steps ls) (ls_last ls) (ls_children ls)
                  (ls_visited ls) in
      mret (Returned r)
  | _ =>
      match fuel with
      | 0 => mret OutOfFuel
      | S fuel' =>
          let! s := superstep env g rc ls in
          match s with
          | Continue ls' => run_loop fuel' env g rc ls'
          | Finish r => mret (Returned r)
          | StepPanic => mret Panicked
          end
      end
  end.

(** The frame [execute_run] pushes for its own run. *)
Definition this_frame g (run_id : RunId) : RecursionFrame :=
  mkFrame (cg_graph_id g) (cg_recursion_node g) run_id None (cg_namespace g)
    (length (cg_recursion_frames g)) (frame_run_id <$> last (cg_recursion_frames g)).

Definition run_ctx g (run_id : RunId) (thread_id : option ThreadId) (stack : RecursionStack)
    : RunCtx :=
  mkRunCtx
    (mkInfo run_id thread_id
       (default run_id (frame_run_id <$> head (cg_recursion_frames g))) (stack_frames stack))
    (frame_run_id <$> last (cg_recursion_frames g)) stack (frames_to_value (stack_frames stack)).

Definition execute_run (fuel : nat) (env : Env) g (run_id : RunId) (state : State)
    (initial_active : list Activation) (thread_id : option ThreadId)
    (resume_map : gmap NodeId value) (initial_barriers : gmap NodeId (gset NodeId))
    (initial_parent : option string) : M C (Outcome (GraphExecution State)) :=
  let inherited := stack_with_frames (cg_recursion_frames g) (cg_recursion_policy g) in
  match stack_push inherited (this_frame g run_id) with
  | Err err =>
      emit g (RunStarted run_id) ;!
      fail_run g (run_ctx g run_id thread_id inherited) 0 err None ;!
      mret (Returned (Err err))
  | Ok stack =>
      let rc := run_ctx g run_id thread_id stack in
      emit g (RunStarted run_id) ;!
      emit g (RecursionDepthChanged (stack_depth stack)) ;!
      let s := base_status g rc in
      save_status g (mkStatus (st_run_id s) (st_root_run_id s) (st_parent_run_id s)
        (st_thread_id s) (st_graph_id s) None (st_namespace s) StRunning 0
        (activation_nodes initial_active) [] false None) ;!
      run_loop fuel env g rc
        (mkLoop state initial_active 0 ∅ [] resume_map initial_barriers initial_parent None []
           async_default)
  end.

(** ** The API *)

(** Events of a journaled graph always have a sink. *)
Definition clone_with_journal_sink g : Graph :=
  if cg_journal g then set_cg_event_sink true g else g.

Definition execute (fuel : nat) (env : Env) g (state : State) (initial_active : list Activation)
    (thread_id : option ThreadId) (resume_map : gmap NodeId value)
    (initial_barriers : gmap NodeId (gset NodeId)) (initial_parent : option string)
    : M C (Outcome (GraphExecution State)) :=
  let! run_id := new_run_id env in
  execute_run fuel env (clone_with_journal_sink g) run_id state initial_active thread_id
    resume_map initial_barriers initial_parent.

Definition run (fuel : nat) (env : Env) g (state : State) : M C (Outcome (GraphExecution State)) :=
  execute fuel env g state [activation_node (cg_entry g)] None ∅ ∅ None.

Definition run_with_thread (fuel : nat) (env : Env) g (thread_id : ThreadId) (state : State)
    : M C (Outcome (GraphExecution State)) :=
  execute fuel env g state [activation_node (cg_entry g)] (Some thread_id) ∅ ∅ None.

Definition resolve_input g (input : GraphInput) : Result Activation :=
  let? node :=
    (if decide (input_node input = START) then Ok (cg_entry g)
     else if decide (input_node input = END) then Err (GraphErr "graph input cannot target END")
     else if decide (is_Some (cg_nodes g !! input_node input)) then Ok (input_node input)
     else Err (MissingNode (input_node input))) in
  Ok (mkActivation node (input_payload input) "").

Definition initial_inputs g (inputs : list GraphInput) : Result (list Activation) :=
  let? active :=
    fold_result (λ active input, let? a := resolve_input g input in Ok (active ++ [a])) [] inputs in
  match active with
  | [] => Err (Validation "run_with_inputs requires at least one input")
  | _ => Ok active
  end.

Definition run_with_inputs (fuel : nat) (env : Env) g (state : State) (inputs : list GraphInput)
    : M C (Outcome (GraphExecution State)) :=
  match initial_inputs g inputs with
  | Err e => mret (Returned (Err e))
  | Ok active => execute fuel env g state active None ∅ ∅ None
  end.

Definition run_with_thread_inputs (fuel : nat) (env : Env) g (thread_id : ThreadId)
    (state : State) (inputs : list GraphInput) : M C (Outcome (GraphExecution State)) :=
  match initial_inputs g inputs with
  | Err e => mret (Returned (Err e))
  | Ok active => execute fuel env g state active (Some thread_id) ∅ ∅ None
  end.

(** The pending activations of a loaded checkpoint. *)
Definition pending_activations (c : Checkpoint State) : list Activation :=
  match cp_pending_activations c with
  | Some (p :: ps) => activation_of_pending <$> (p :: ps)
  | _ => activation_node <$> cp_next_nodes c
  end.

(** The partial-failure guard: drop the tasks the ledger says have run, unless
    that leaves nothing. *)
Definition skip_completed (active : list Activation) (done : list string) : list Activation :=
  match done with
  | [] => active
  | _ =>
      match filter (λ a, act_task_id a = "" ∨ act_task_id a ∉ done) active with
      | [] => active
      | filtered => filtered
      end
  end.

Definition resume_values (c : Checkpoint State) (active : list Activation)
    (resume : option value) : gmap NodeId value :=
  match resume with
  | None => ∅
  | Some v =>
      match interrupted_nodes c active with
      | [] => foldl (λ m a, <[act_node a := v]> m) ∅ active
      | nodes => foldl (λ m n, <[n := v]> m) ∅ nodes
      end
  end.

Definition no_checkpoint (target : ResumeTarget) (thread_id : ThreadId) : GraphError :=
  match target with
  | Latest => Resume ("no checkpoint found for thread `" +:+ thread_id +:+ "`")
  | AtCheckpoint id =>
      Resume ("no checkpoint `" +:+ id +:+ "` found for thread `" +:+ thread_id +:+ "`")
  end.

(** What a resume starts from. *)
Record ResumePoint := mkResumePoint {
  rp_state : State;
  rp_active : list Activation;
  rp_resume : gmap NodeId value;
  rp_barriers : gmap NodeId (gset NodeId);
  rp_parent : option string
}.

Definition load_checkpoint (ops : CheckpointerOps State C) g (s : C) (thread_id : ThreadId)
    (target : ResumeTarget) : Result (Checkpoint State) :=
  let id := match target with Latest => None | AtCheckpoint i => Some i end in
  let? found := ck_get_scoped ops s thread_id id (cg_namespace g) in
  ok_or found (no_checkpoint target thread_id).

Definition resume_point (ops : CheckpointerOps State C) g (s : C) (thread_id : ThreadId)
    (c : Checkpoint State) (command : Command Update) : Result ResumePoint :=
  let active := pending_activations c in
  match active with
  | [] => Err (Resume "checkpoint has no pending nodes to resume")
  | _ =>
      let config := mkConfig thread_id (Some (cp_checkpoint_id c)) (cg_namespace g) in
      let? recorded := ck_get_writes ops s config in
      let done :=
        match recorded with
        | [] => pw_task_id <$> cp_pending_writes c
        | _ => pw_task_id <$> recorded
        end in
      let active := skip_completed active done in
      Ok (mkResumePoint (cp_state c) active (resume_values c active (cmd_resume command))
            (barriers_from_persisted (cp_barrier_arrivals c)) (Some (cp_checkpoint_id c)))
  end.

Definition resume_from (fuel : nat) (env : Env) g (thread_id : ThreadId) (target : ResumeTarget)
    (command : Command Update) : M C (Outcome (GraphExecution State)) :=
  match cg_checkpointer g with
  | None => mret (Returned (Err (Resume "no checkpointer configured")))
  | Some ops =>
      let! loaded := (λ w, (w, load_checkpoint ops g (w_store w) thread_id target)) in
      match loaded with
      | Err e => mret (Returned (Err e))
      | Ok c =>
          emit g (CheckpointRestored (cp_checkpoint_id c)) ;!
          let! point := (λ w, (w, resume_point ops g (w_store w) thread_id c command)) in
          match point with
          | Err e => mret (Returned (Err e))
          | Ok rp =>
              execute fuel env g (rp_state rp) (rp_active rp) (Some thread_id) (rp_resume rp)
                (rp_barriers rp) (rp_parent rp)
          end
      end
  end.

Definition resume (fuel : nat) (env : Env) g (thread_id : ThreadId) (command : Command Update)
    : M C (Outcome (GraphExecution State)) := resume_from fuel env g thread_id Latest command.
Definition retry (fuel : nat) (env : Env) g (thread_id : ThreadId)
    : M C (Outcome (GraphExecution State)) :=
  resume_from fuel env g thread_id Latest command_new.
End RunLoop.
