(* ===== verification/ExecFacts.v ===== *)
(** * Properties of the executor

    Every run ends within its step cap, and a run that ends leaves a terminal
    status; the boundaries lose no branch and duplicate none; what a boundary
    persists is what a resume starts from. *)

From S2P Require Import Prelude Json GraphTypes Search Checkpoint Builder Routing StepExec StepFacts Executor.
From S2P Require Import RunLoop.

(** ** Reasoning about computations on the world *)

Section Ensures.
Context {C : Type}.

(** [Q] holds of the result and the world [m] leaves, from every world. *)
Definition ensures {A} (m : M C A) (Q : A → World C → Prop) : Prop := ∀ w, Q (m w).2 (m w).1.

Lemma ensures_ret {A} (a : A) (Q : A → World C → Prop) : (∀ w, Q a w) → ensures (mret a) Q.
Proof. intros H w. apply H. Qed.

Lemma ensures_bind {A B} (m : M C A) (f : A → M C B) (P : A → World C → Prop) Q :
  ensures m P → (∀ a w, P a w → Q (f a w).2 (f a w).1) → ensures (mbind m f) Q.
Proof.
  intros Hm Hf w. unfold mbind. specialize (Hm w). destruct (m w) as [w' a]. by apply Hf.
Qed.

Lemma ensures_seq {A B} (m : M C A) (f : A → M C B) Q :
  (∀ a, ensures (f a) Q) → ensures (mbind m f) Q.
Proof. intros Hf. eapply (ensures_bind m f (λ _ _, True)); [done|]. intros a w _. apply Hf. Qed.

Lemma ensures_mono {A} (m : M C A) (P Q : A → World C → Prop) :
  ensures m P → (∀ a w, P a w → Q a w) → ensures m Q.
Proof. intros Hm HPQ w. by apply HPQ. Qed.
End Ensures.

Ltac ensures_step :=
  match goal with
  | |- ensures (mbind _ _) _ => apply ensures_seq; intros ?
  | |- ensures (match ?x with _ => _ end) _ => destruct x eqn:?
  end.

(** ** Supersteps *)

Section Steps.
Context {State Update C : Type} (g : CompiledGraph State Update C).

(** The last status recorded describes the result. *)
Definition closed (r : Result (GraphExecution State)) (w : World C) : Prop :=
  cg_status_store g = true →
  ∃ s, last (w_statuses w) = Some s ∧
    match r with
    | Ok e => s = ge_status e ∧ (st_status s = StCompleted ∨ st_status s = StInterrupted)
    | Err err => st_status s = StFailed ∧ st_error s = Some (error_to_string err)
    end.

Lemma fail_run_closed rc steps err id :
  ensures (fail_run g rc steps err id) (λ _ w, closed (Err err) w).
Proof.
  intros w. unfold fail_run, mbind, emit, emits, save_status, closed. cbn. intros Hs.
  destruct (cg_event_sink g); rewrite Hs; cbn; rewrite last_snoc; eexists; split; done.
Qed.

Lemma fail_run_then {A} rc steps err id (a : A) (Q : A → World C → Prop) :
  (∀ w, closed (Err err) w → Q a w) → ensures (fail_run g rc steps err id ;! mret a) Q.
Proof.
  intros HQ. eapply ensures_bind; [apply fail_run_closed|]. intros [] w Hw. cbn. by apply HQ.
Qed.

Lemma save_then {A} s (a : A) (Q : A → World C → Prop) :
  (∀ w, (cg_status_store g = true → last (w_statuses w) = Some s) → Q a w) →
  ensures (save_status g s ;! mret a) Q.
Proof.
  intros HQ w. unfold mbind, save_status. cbn. apply HQ. intros ->. cbn. by rewrite last_snoc.
Qed.

(** A run that ended at superstep [n], its status recorded. *)
Definition run_ended (n : nat) (r : Result (GraphExecution State)) (w : World C) : Prop :=
  closed r w ∧ ∀ e, r = Ok e → ge_steps e = n.

Lemma fail_and_return_ended rc steps (aw : AsyncCheckpointWrites State) err n :
  ensures (fail_and_return g rc steps aw err) (run_ended n).
Proof.
  unfold fail_and_return. apply ensures_seq. intros _. apply fail_run_then. intros w Hw.
  split; [done|]. by intros e.
Qed.

Lemma finish_completed_ended rc st steps id ch v :
  ensures (finish_completed g rc st steps id ch v) (run_ended steps).
Proof.
  intros w. unfold finish_completed, mbind, emit, emits, save_status, run_ended, closed. cbn.
  split; [|by intros e [= <-]]. intros Hs. rewrite Hs.
  destruct (cg_event_sink g); cbn; rewrite last_snoc; eexists; split; eauto.
Qed.

Lemma finish_interrupt_ended env rc steps aw active sr st bar par cm ch v :
  ensures (finish_interrupt env g rc steps aw active sr st bar par cm ch v) (run_ended steps).
Proof.
  unfold finish_interrupt. destruct (require_interrupt_durability _ _);
    [|apply fail_and_return_ended].
  destruct (partition_completed _ _ _) as [done dg].
  destruct (route_completed _ _ _ _ _) as [[bar' evs] routed].
  ensures_step. destruct routed; [|apply fail_and_return_ended].
  apply ensures_seq. intros [aw' d]. cbn [fst snd]. destruct d; [|apply fail_and_return_ended].
  apply ensures_seq. intros persisted. destruct persisted; [|apply fail_and_return_ended].
  apply save_then. intros w Hw. split; [|by intros e [= <-]]. intros Hs. eexists.
  split; [by apply Hw|]. cbn. auto.
Qed.

(** The step counter advances by one, below the cap; a finished run has its
    status recorded; the step only panics where the window can. *)
Definition step_ok (env : Env) (n : nat) (s : StepResult) (w : World C) : Prop :=
  match s with
  | Continue ls' => ls_steps ls' = S n
  | Finish r => run_ended (S n) r w
  | StepPanic => ¬ (caps_pos (cg_node_concurrency g) ∧ select_lawful (rt_select_all (env_rt env)))
  end.

Lemma fail_step_ok env rc steps aw err n :
  ensures (let! r := fail_and_return g rc steps aw err in mret (Finish r)) (step_ok env n).
Proof.
  eapply ensures_bind; [apply (fail_and_return_ended _ _ _ _ (S n))|]. intros r w Hr. by cbn.
Qed.

Lemma fail_boundary_ok env rc ls active sr fail st cm n :
  ensures (fail_boundary env g rc ls active sr fail st cm) (step_ok env n).
Proof.
  unfold fail_boundary. destruct (partition_completed _ _ _) as [done dg].
  destruct (route_completed _ _ _ _ _) as [[bar' evs] routed].
  ensures_step. destruct routed; [|apply fail_step_ok].
  do 2 ensures_step. apply fail_run_then. intros w Hw. split; [done|]. by intros e.
Qed.

Lemma commit_boundary_ok env rc ls active sr st visits visited rm ch cm :
  ensures (commit_boundary env g rc ls active sr st visits visited rm ch cm)
    (step_ok env (ls_steps ls)).
Proof.
  unfold commit_boundary. destruct (route_completed _ _ _ _ _) as [[bar' evs] routed].
  ensures_step. destruct routed as [next|]; [|apply fail_step_ok].
  apply ensures_seq. intros aw'.
  destruct (take_failure aw') as [aw [err|]]; [apply fail_step_ok|].
  match goal with |- ensures (if ?b then _ else _) _ => destruct b end;
    [|ensures_step; by apply ensures_ret].
  destruct (cg_durability g), (bool_decide (next = [])); repeat first
    [ apply fail_step_ok | apply ensures_ret; done
    | match goal with |- ensures (match ?x with Ok _ => _ | Err _ => _ end) _ => destruct x end
    | ensures_step ].
Qed.

Lemma run_active_parallel_no_panic rt info active state step rm visited :
  caps_pos (cg_node_concurrency g) → select_lawful (rt_select_all rt) →
  is_Some (run_active_parallel rt g info active state step rm visited).
Proof.
  intros Hcp Hs. unfold run_active_parallel.
  destruct (fork_branches _ _ _ _ _ _ _ _ _ _) as [[rm' evs] [futs|e]]; [|done].
  match goal with |- is_Some (and_then ?x _) => assert (is_Some x) as [rs ->] end; [|done].
  case_match; [|done]. match goal with |- is_Some (window_results ?sel ?out ?caps ?ns ?l ?n) =>
    destruct (window_results_perm sel out caps ns l n) as (rs & -> & _) end; [lia|done..].
Qed.

Lemma check_caps_limit env rc ls v : check_caps env g rc ls = (v, Ok tt) → ls_steps ls < step_limit g.
Proof. unfold check_caps. case_decide; [by intros|]. lia. Qed.

Lemma superstep_ok env rc ls :
  ensures (superstep env g rc ls)
    (λ s w, step_ok env (ls_steps ls) s w ∧
            match s with
            | Continue _ | Finish (Ok _) => ls_steps ls < step_limit g
            | _ => True
            end).
Proof.
  unfold superstep. destruct (check_caps _ _ _ _) as [visits [[]|err]] eqn:Ec.
  2:{ unfold fail_and_return. eapply (ensures_bind _ _ (λ r w, run_ended (S (ls_steps ls)) r w ∧
        ∃ e, r = Err e)); [|intros r w [Hr [e ->]]; by cbn].
      ensures_step. apply fail_run_then. intros w Hw. split; [|by eexists]. split; [done|].
      by intros. }
  apply check_caps_limit in Ec.
  eapply ensures_mono; [|intros s w Hs; split; [exact Hs|by destruct s as [|[]|]]].
  ensures_step. destruct (run_active _ _ _ _ _ _ _ _) as [out|] eqn:Er.
  2:{ apply ensures_ret. intros w [Hcp Hsel]. unfold run_active in Er. case_match; [|done].
      eapply (run_active_parallel_no_panic (env_rt env)) in Hcp as [? Hc]; [|done].
      rewrite Hc in Er. done. }
  ensures_step. destruct (so_run out) as [sr|]; [|apply fail_step_ok].
  destruct (apply_updates _ _ _) as [st|]; [|apply fail_step_ok].
  destruct (sr_failure sr); [apply fail_boundary_ok|].
  destruct (sr_interrupts sr); [apply commit_boundary_ok|].
  eapply ensures_bind; [apply finish_interrupt_ended|]. intros r w Hr. by cbn.
Qed.

(** ** Runs *)

(** A run returns within the cap with its status recorded. *)
Definition outcome_ok (env : Env) (o : Outcome (GraphExecution State)) (w : World C) : Prop :=
  match o with
  | Returned r => closed r w ∧ ∀ e, r = Ok e → ge_steps e ≤ step_limit g
  | Panicked => ¬ (caps_pos (cg_node_concurrency g) ∧
                   select_lawful (rt_select_all (env_rt env)))
  | OutOfFuel => False
  end.

Lemma run_loop_ok env rc fuel : ∀ ls,
  step_limit g < fuel + ls_steps ls → ls_steps ls ≤ step_limit g →
  ensures (run_loop fuel env g rc ls) (outcome_ok env).
Proof.
  induction fuel as [|fuel IH]; intros ls Hf Hle; [lia|]. cbn. destruct (ls_active ls).
  { eapply ensures_bind; [apply finish_completed_ended|]. intros r w [Hr Hn]. cbn.
    split; [done|]. intros e ->. rewrite (Hn e eq_refl). lia. }
  eapply ensures_bind; [apply superstep_ok|]. intros [ls'|r|] w [Hs Hlt]; cbn in *.
  - apply IH; lia.
  - destruct Hs as [Hr Hn]. split; [done|]. intros e ->. rewrite (Hn e eq_refl). lia.
  - done.
Qed.

Lemma execute_run_ok fuel env run_id st act th rm bar par :
  step_limit g < fuel →
  ensures (execute_run fuel env g run_id st act th rm bar par) (outcome_ok env).
Proof.
  intros Hf. unfold execute_run. destruct (stack_push _ _).
  - do 3 ensures_step. apply run_loop_ok; cbn; lia.
  - ensures_step. apply fail_run_then. intros w Hw. split; [done|]. by intros.
Qed.
End Steps.

(** * Invariants of the run state

    A predicate on the state that the updates of every node keep holds of the
    state of every superstep, whatever the order in which branches finish, and
    of the state a run hands back: the executor changes the state through the
    reducer only. *)

Section StateInvariant.
Context {State Update C : Type} (g : CompiledGraph State Update C) (P : State → Prop).

(** An update that keeps [P]. *)
Definition good_update (u : Update) : Prop :=
  ∀ s s', P s → cg_reducer g s u = Ok s' → P s'.

(** A result whose update, if any, keeps [P]. *)
Definition good_result (r : Result (NodeResult Update)) : Prop :=
  match r with
  | Ok (NRUpdate u) => good_update u
  | Ok (NRCommand c) => ∀ u, cmd_update c = Some u → good_update u
  | Ok (NRInterrupt _) | Err _ => True
  end.

Context (Hgood : ∀ id node s ctx, cg_nodes g !! id = Some node → P s →
           good_result (fut_output (node_handler node s ctx))).

Lemma good_branch rt id node s ctx :
  cg_nodes g !! id = Some node → P s →
  good_result (run_node_with_retry rt g id (node_handler node) s ctx).1.
Proof.
  intros Hn Hs. unfold run_node_with_retry, run_node_future.
  repeat case_match; cbn; try done; eapply Hgood; done.
Qed.

Lemma fold_branch_good index id step r acc :
  good_result (Ok r) → Forall good_update (fa_updates acc) →
  Forall good_update (fa_updates (fold_branch index id step r acc).1).
Proof.
  intros Hr Hacc. destruct r as [u|c|i]; cbn in *; [by apply Forall_app; auto| |done].
  destruct (cmd_update c) as [u|]; cbn; [apply Forall_app; auto|done].
Qed.

Lemma run_sequential_good rt info s step active : ∀ index rm children acc sr,
  P s → Forall good_update (fa_updates acc) →
  so_run (run_sequential rt g info s step index active rm children acc) = Ok sr →
  Forall good_update (sr_updates sr).
Proof.
  induction active as [|a rest IH]; intros index rm children acc sr Hs Hacc; cbn.
  { by intros [= <-]. }
  destruct (cg_nodes g !! act_node a) as [node|] eqn:Hn; [|done].
  match goal with |- context [run_node_with_retry ?rt ?g ?id ?h ?s ?ctx] =>
    pose proof (good_branch rt id node s ctx Hn Hs) as Hr;
    destruct (run_node_with_retry rt g id h s ctx) as [r reported] end.
  cbn in Hr. destruct r as [r|e]; cbn; [|by intros [= <-]].
  match goal with |- context [fold_branch ?i ?id ?st r ?acc'] =>
    pose proof (fold_branch_good i id st r acc' Hr Hacc) as Hf;
    destruct (fold_branch i id st r acc') as [acc2 [found|]] end; cbn in Hf.
  - cbn. by intros [= <-].
  - apply IH; [done|]. done.
Qed.

Lemma fork_branches_good rt info s step active : ∀ index rm evs futs rm' evs' futs',
  P s → Forall (λ f, good_result f.1) futs →
  fork_branches rt g info s step index active rm evs futs = (rm', evs', Ok futs') →
  Forall (λ f, good_result f.1) futs'.
Proof.
  induction active as [|a rest IH]; intros index rm evs futs rm' evs' futs' Hs Hf; cbn.
  { by intros [= <- <- <-]. }
  destruct (cg_nodes g !! act_node a) as [node|] eqn:Hn; [|done].
  apply IH; [done|]. apply Forall_app; split; [done|]. apply Forall_singleton.
  by apply good_branch.
Qed.

(** What the admission window files is the outcome of some branch. *)
Lemma admit_loop_slots {R} caps nodes limit fuel (w : Window R) :
  win_slots (admit_loop caps nodes limit fuel w) = win_slots w.
Proof.
  revert w. induction fuel as [|fuel IH]; intros w; cbn; [done|].
  case_decide; [|done]. destruct (take_first _ _) as [[i q]|]; [|done]. by rewrite IH.
Qed.

Lemma window_loop_slots {R} sel (outcome : nat → R) caps nodes limit (Q : R → Prop) fuel :
  (∀ i, Q (outcome i)) →
  ∀ w w', window_loop sel outcome caps nodes limit fuel w = Some w' →
  Forall (λ slot, ∀ r, slot = Some r → Q r) (win_slots w) →
  Forall (λ slot, ∀ r, slot = Some r → Q r) (win_slots w').
Proof.
  intros HQ. induction fuel as [|fuel IH]; intros w w'; cbn; destruct (win_running w);
    try done; try (by intros [= <-]).
  intros Hw Hs. eapply IH; [done|]. unfold admit_branches. rewrite admit_loop_slots.
  unfold complete_one. destruct (sel _) as [i rest]. cbn. apply Forall_insert; [done|].
  intros r [= <-]. apply HQ.
Qed.

Lemma window_results_good {R} sel (outcome : nat → R) caps nodes limit total (Q : R → Prop) rs :
  (∀ i, Q (outcome i)) → window_results sel outcome caps nodes limit total = Some rs → Forall Q rs.
Proof.
  intros HQ Hrs. apply and_then_Some in Hrs as (w & Hw & Hrs).
  pose proof (window_loop_slots _ _ _ _ _ Q _ HQ _ _ Hw) as Hs.
  unfold window_start, admit_branches in Hs. rewrite admit_loop_slots in Hs. cbn in Hs.
  apply mapM_Some in Hrs. specialize (Hs ltac:(by apply Forall_replicate)).
  clear -Hrs Hs. induction Hrs as [|slot r slots rs Hr _ IH]; [done|].
  apply Forall_cons in Hs as [H1 H2]. constructor; auto.
Qed.

Lemma fold_parallel_good step active : ∀ index rs acc,
  Forall good_result rs → Forall good_update (fa_updates acc) →
  Forall good_update (fa_updates (fold_parallel step index active rs acc)).
Proof.
  induction active as [|a rest IH]; intros index [|r rs] acc Hr Hacc; cbn; try done.
  apply Forall_cons in Hr as [H1 H2]. apply IH; [done|]. destruct r as [r|e]; [|done].
  pose proof (fold_branch_good index (act_node a) step r acc H1 Hacc) as Hf.
  by destruct (fold_branch _ _ _ _ _) as [acc2 [found|]].
Qed.

Lemma good_default rs i : Forall good_result rs → good_result (default (Err Cancelled) (rs !! i)).
Proof.
  intros Hrs. destruct (rs !! i) as [r|] eqn:E; [|exact I]. by eapply (Forall_lookup_1 _ _ _ _ Hrs).
Qed.

Lemma run_active_good env rc active s step rm visited out sr :
  P s → run_active env g rc active s step rm visited = Some out → so_run out = Ok sr →
  Forall good_update (sr_updates sr).
Proof.
  intros Hs. unfold run_active. case_match.
  2:{ intros [= <-]. by apply run_sequential_good. }
  unfold run_active_parallel.
  destruct (fork_branches _ _ _ _ _ _ _ _ _ _) as [[rm' evs] [futs|e]] eqn:Hf.
  2:{ intros [= <-]. done. }
  apply fork_branches_good in Hf; [|done|done].
  intros (rs & Hrs & [= <-])%and_then_Some. cbn. intros [= <-]. cbn.
  apply fold_parallel_good; [|done]. case_match.
  - eapply window_results_good; [|done]. intros i.
    by apply good_default, Forall_fmap.
  - injection Hrs as <-. by apply Forall_fmap.
Qed.

Lemma apply_updates_good us : ∀ s s',
  P s → Forall good_update us → apply_updates g s us = Ok s' → P s'.
Proof.
  unfold apply_updates. induction us as [|u us IH]; intros s s' Hs Hu; cbn; [by intros [= <-]|].
  apply Forall_cons in Hu as [H1 H2]. destruct (cg_reducer g s u) as [s1|e] eqn:E; [|done].
  apply IH; [by eapply H1|done].
Qed.

(** ** The loop *)

Definition kept_result (r : Result (GraphExecution State)) : Prop :=
  ∀ e, r = Ok e → P (ge_state e).
Definition kept_step (s : StepResult) : Prop :=
  match s with
  | Continue ls => P (ls_state ls)
  | Finish r => kept_result r
  | StepPanic => True
  end.

Lemma fail_and_return_kept rc steps aw err :
  ensures (fail_and_return g rc steps aw err) (λ r (_ : World C), kept_result r).
Proof. unfold fail_and_return. do 2 (apply ensures_seq; intros ?). by apply ensures_ret. Qed.

Lemma fail_step_kept rc steps aw err :
  ensures (let! r := fail_and_return g rc steps aw err in mret (Finish r))
    (λ s (_ : World C), kept_step s).
Proof. eapply ensures_bind; [apply fail_and_return_kept|]. done. Qed.

Lemma commit_boundary_kept env rc ls active sr s visits visited rm ch cm :
  P s → ensures (commit_boundary env g rc ls active sr s visits visited rm ch cm)
          (λ s (_ : World C), kept_step s).
Proof.
  intros Hs. unfold commit_boundary. destruct (route_completed _ _ _ _ _) as [[bar' evs] routed].
  apply ensures_seq. intros _. destruct routed as [next|]; [|apply fail_step_kept].
  apply ensures_seq. intros aw'. destruct (take_failure aw') as [aw [err|]]; [apply fail_step_kept|].
  repeat first [apply fail_step_kept | by apply ensures_ret
               | apply ensures_seq; intros ? | case_match].
Qed.

Lemma fail_boundary_kept env rc ls active sr fail s cm :
  ensures (fail_boundary env g rc ls active sr fail s cm) (λ s (_ : World C), kept_step s).
Proof.
  unfold fail_boundary. destruct (partition_completed _ _ _) as [done dg].
  destruct (route_completed _ _ _ _ _) as [[bar' evs] routed]. apply ensures_seq. intros _.
  destruct routed; [|apply fail_step_kept].
  do 3 (apply ensures_seq; intros ?). by apply ensures_ret.
Qed.

Lemma finish_interrupt_kept env rc steps aw active sr s bar par cm ch v :
  P s → ensures (finish_interrupt env g rc steps aw active sr s bar par cm ch v)
          (λ r (_ : World C), kept_result r).
Proof.
  intros Hs. unfold finish_interrupt. destruct (require_interrupt_durability _ _);
    [|apply fail_and_return_kept].
  destruct (partition_completed _ _ _) as [done dg].
  destruct (route_completed _ _ _ _ _) as [[bar' evs] routed]. apply ensures_seq. intros _.
  destruct routed; [|apply fail_and_return_kept].
  apply ensures_seq. intros [aw' d]. cbn [fst snd]. destruct d; [|apply fail_and_return_kept].
  apply ensures_seq. intros persisted. destruct persisted; [|apply fail_and_return_kept].
  repeat (apply ensures_seq; intros ?). apply ensures_ret. by intros w e [= <-].
Qed.

Lemma superstep_kept env rc ls :
  P (ls_state ls) → ensures (superstep env g rc ls) (λ s (_ : World C), kept_step s).
Proof.
  intros Hs. unfold superstep. destruct (check_caps _ _ _ _) as [visits [[]|err]];
    [|apply fail_step_kept].
  apply ensures_seq. intros _.
  destruct (run_active _ _ _ _ _ _ _ _) as [out|] eqn:Hout; [|by apply ensures_ret].
  apply ensures_seq. intros _. destruct (so_run out) as [sr|err] eqn:Hsr; [|apply fail_step_kept].
  destruct (apply_updates _ _ _) as [s'|err] eqn:Hs'; [|apply fail_step_kept].
  assert (P s') by (eapply apply_updates_good; [done|by eapply run_active_good|done]).
  destruct (sr_failure sr); [apply fail_boundary_kept|].
  destruct (sr_interrupts sr); [by apply commit_boundary_kept|].
  eapply ensures_bind; [by apply finish_interrupt_kept|]. done.
Qed.

Lemma finish_completed_kept rc s steps id ch v :
  P s → ensures (finish_completed g rc s steps id ch v) (λ r (_ : World C), kept_result r).
Proof.
  intros Hs. unfold finish_completed. do 2 (apply ensures_seq; intros ?).
  apply ensures_ret. by intros w e [= <-].
Qed.

Definition kept_outcome (o : Outcome (GraphExecution State)) : Prop :=
  ∀ e, o = Returned (Ok e) → P (ge_state e).

Lemma run_loop_kept env rc fuel : ∀ ls,
  P (ls_state ls) → ensures (run_loop fuel env g rc ls) (λ o (_ : World C), kept_outcome o).
Proof.
  induction fuel as [|fuel IH]; intros ls Hs; cbn; destruct (ls_active ls).
  1,3: eapply ensures_bind; [by apply finish_completed_kept|]; intros r w Hr e [= ->]; by apply Hr.
  { by apply ensures_ret. }
  eapply ensures_bind; [by apply superstep_kept|]. intros [ls'|r|] w Hk; cbn.
  - by apply IH.
  - intros e [= ->]. by apply Hk.
  - done.
Qed.

Lemma execute_run_kept fuel env run_id s act th rm bar par :
  P s → ensures (execute_run fuel env g run_id s act th rm bar par)
          (λ o (_ : World C), kept_outcome o).
Proof.
  intros Hs. unfold execute_run. destruct (stack_push _ _).
  - do 3 (apply ensures_seq; intros ?). by apply run_loop_kept.
  - do 2 (apply ensures_seq; intros ?). by apply ensures_ret.
Qed.
End StateInvariant.
