(* ===== verification/ResumeFacts.v ===== *)
(** * Boundaries and resumes

    A boundary splits the step's branches into those it records as completed
    and those it reschedules, and what it persists is what a resume starts
    from: state, pending activations, barrier arrivals and lineage. *)
From Stdlib Require Import Ascii.
From S2P Require Import Prelude Json GraphTypes Search Checkpoint Builder Routing StepExec StepFacts Executor.
From S2P Require Import RunLoop ExecFacts.

(** ** Persisted forms *)

Lemma activation_pending_id a : activation_of_pending (pending_of_activation a) = a.
Proof. by destruct a. Qed.

Lemma activations_pending_id (l : list Activation) : activation_of_pending <$> (pending_of_activation <$> l) = l.
Proof.
  rewrite <- list_fmap_compose. rewrite <- (list_fmap_id l) at 2. apply list_fmap_ext.
  intros i a _. apply activation_pending_id.
Qed.

Lemma barriers_roundtrip m : barriers_from_persisted (barriers_to_persisted m) = m.
Proof.
  unfold barriers_from_persisted, barriers_to_persisted.
  assert (∀ l acc, NoDup l.*1 →
    foldl (λ m b, <[ba_node b := list_to_set (ba_arrived b)]> m) acc
      ((λ p, mkArrivals p.1 (elements p.2)) <$> l) =
    (list_to_map l : gmap NodeId (gset NodeId)) ∪ acc) as Hgen.
  { induction l as [|[k v] l IH]; intros acc Hnd; cbn; [by rewrite (left_id_L ∅ (∪))|].
    cbn in Hnd. apply NoDup_cons in Hnd as [Hk Hnd]. rewrite IH by done.
    rewrite list_to_set_elements_L. rewrite <- insert_union_r; [by rewrite insert_union_l|].
    by apply not_elem_of_list_to_map_1. }
  rewrite Hgen by apply NoDup_fst_map_to_list. by rewrite list_to_map_to_list, (right_id_L ∅ (∪)).
Qed.

Lemma get_interrupted_nodes source step rec ch nodes :
  get "interrupted_nodes" (loop_metadata source step rec ch nodes) =
    match nodes with [] => None | _ => Some (json_strings nodes) end.
Proof. by destruct nodes. Qed.

Lemma omap_as_str (l : list string) : omap as_str (Str <$> l) = l.
Proof. induction l as [|x l IH]; [done|]. cbn. by rewrite IH. Qed.

(** ** Splitting a step *)

Section Split.
Implicit Types (active : list Activation) (gm : gmap nat (list RouteTarget)).

Lemma partition_completed_from_spec active gm ci : ∀ completed routing done dg,
  (∀ j, length completed ≤ j → routing !! j = None) →
  Forall (λ i, i < length active) ci →
  partition_completed_from active gm ci completed routing = (done, dg) →
  done = completed ++ omap (λ i, active !! i) ci ∧
  ∀ j, dg !! j = if decide (j < length completed) then routing !! j
                 else ci !! (j - length completed) ≫= λ i, gm !! i.
Proof.
  induction ci as [|i ci IH]; cbn; intros completed routing done dg Hr Hci H.
  { inv_ok. rewrite app_nil_r. split; [done|]. intros j. case_decide; [done|].
    rewrite lookup_nil. cbn. apply Hr. lia. }
  apply Forall_cons in Hci as [Hi Hci].
  destruct (lookup_lt_is_Some_2 active i Hi) as [a Ha]. rewrite Ha in H |- *.
  apply IH in H as [-> Hj]; [| |done].
  2:{ intros j. rewrite length_app. cbn. intros Hj.
      destruct (gm !! i); [rewrite lookup_insert_ne by lia|]; apply Hr; lia. }
  rewrite <- app_assoc. split; [done|]. intros j. rewrite Hj, length_app. cbn.
  destruct (decide (j < length completed + 1)) as [H1|H1].
  - destruct (decide (j < length completed)) as [H2|H2].
    + destruct (gm !! i); [by rewrite lookup_insert_ne by lia|done].
    + assert (j = length completed) as -> by lia. rewrite Nat.sub_diag. cbn.
      destruct (gm !! i); [by rewrite lookup_insert_eq|by apply Hr].
  - rewrite decide_False by lia. replace (j - length completed) with (S (j - (length completed + 1)))
      by lia. done.
Qed.

Lemma partition_completed_spec active gm ci done dg :
  Forall (λ i, i < length active) ci →
  partition_completed active gm ci = (done, dg) →
  done = omap (λ i, active !! i) ci ∧ ∀ j, dg !! j = ci !! j ≫= λ i, gm !! i.
Proof.
  intros Hci H. apply partition_completed_from_spec in H as [-> Hj]; [|done|done].
  split; [done|]. intros j. rewrite Hj. cbn. rewrite decide_False by lia. by rewrite Nat.sub_0_r.
Qed.

(** Picking a duplicate-free set of positions and the rest is the whole. *)
Lemma pick_rest_perm {A} (l : list A) (ci : list nat) :
  NoDup ci → Forall (λ i, i < length l) ci →
  omap (λ i, l !! i) ci ++ (filter (λ p, p.1 ∉ ci) (imap pair l)).*2 ≡ₚ l.
Proof.
  intros Hnd Hci.
  assert (Hl : l = (imap (A := A) pair l).*2).
  { apply list_eq. intros i. rewrite list_lookup_fmap, list_lookup_imap. by destruct (l !! i). }
  assert (Hsel : omap (λ i, l !! i) ci ≡ₚ (filter (λ p, p.1 ∈ ci) (imap pair l)).*2).
  { assert (omap (λ i, l !! i) ci = (omap (λ i, pair i <$> l !! i) ci).*2) as ->.
    { clear. induction ci as [|i ci IH]; [done|]. cbn. destruct (l !! i); cbn; [by f_equal|done]. }
    apply fmap_Permutation. apply NoDup_Permutation.
    - clear Hl. induction ci as [|i ci IH]; [constructor|]. apply NoDup_cons in Hnd as [Hi Hnd].
      apply Forall_cons in Hci as [Hlt Hci]. cbn.
      destruct (l !! i) as [x|] eqn:E; cbn; [|by apply IH]. constructor; [|by apply IH].
      intros (j & Hj & Hx)%list_elem_of_omap. destruct (l !! j); [|done].
      cbn in Hx. congruence.
    - apply NoDup_filter. apply (NoDup_fmap_1 fst).
      assert ((imap (A := A) pair l).*1 = seq 0 (length l)) as ->; [|apply NoDup_seq].
      apply list_eq. intros i. rewrite list_lookup_fmap, list_lookup_imap.
      destruct (l !! i) as [x|] eqn:E; cbn.
      + symmetry. apply lookup_seq_lt. by eapply lookup_lt_Some.
      + symmetry. apply lookup_seq_ge. by apply lookup_ge_None.
    - intros [i x]. rewrite list_elem_of_omap, list_elem_of_filter, elem_of_enumerate. cbn. split.
      + intros (j & Hj & Hx). destruct (l !! j) as [y|] eqn:E; [|done]. cbn in Hx. naive_solver.
      + intros [Hi Hx]. exists i. by rewrite Hx. }
  rewrite Hsel, <- fmap_app. rewrite Hl at 3. apply fmap_Permutation.
  clear. induction (imap pair l) as [|p ps IH]; [done|]. rewrite !filter_cons.
  destruct (decide (p.1 ∈ ci)); [rewrite decide_False by (by intros ?)|rewrite decide_True by done].
  - cbn. by rewrite IH.
  - rewrite <- Permutation_middle. by rewrite IH.
Qed.
End Split.

(** ** Step boundaries *)

Section Boundary.
Implicit Types active : list Activation.

Lemma not_completed_perm active gm ci done dg :
  NoDup ci → Forall (λ i, i < length active) ci →
  partition_completed active gm ci = (done, dg) →
  done ++ not_completed active ci ≡ₚ active.
Proof.
  intros Hnd Hci Hp. apply partition_completed_spec in Hp as [-> _]; [|done].
  by apply pick_rest_perm.
Qed.

Lemma omap_fst {A} (f : nat → option A) {B} (l : list (nat * B)) :
  omap (λ p, f p.1) l = omap f l.*1.
Proof. induction l as [|[i b] l IH]; [done|]. cbn. by rewrite IH. Qed.

Lemma interrupt_pending_perm active gm ci ints done dg :
  NoDup (ci ++ ints.*1) → Forall (λ i, i < length active) (ci ++ ints.*1) →
  partition_completed active gm ci = (done, dg) →
  done ++ interrupt_pending active ci ints ≡ₚ active.
Proof.
  intros Hnd Hci Hp.
  apply partition_completed_spec in Hp as [-> _]; [|by apply Forall_app in Hci as [? _]].
  unfold interrupt_pending. rewrite (omap_fst (λ i, active !! i)), app_assoc, <- omap_app.
  by apply pick_rest_perm.
Qed.

Context {Update : Type}.
Implicit Types rs : list (Result (NodeResult Update)).

(** The index lists of a step record are duplicate free and in range. *)
Lemma outcomes_run_indices rs :
  NoDup (sr_completed (outcomes_run rs) ++ (sr_interrupts (outcomes_run rs)).*1) ∧
  Forall (λ i, i < length rs)
    (sr_completed (outcomes_run rs) ++ (sr_interrupts (outcomes_run rs)).*1).
Proof.
  pose proof (outcomes_partition rs) as Hp. cbn. split.
  - assert (NoDup (indices branch_done 0 rs ++ (found branch_interrupt 0 rs).*1
                   ++ (found branch_error 0 rs).*1)) as Hnd by (rewrite Hp; apply NoDup_seq).
    rewrite app_assoc in Hnd. by apply NoDup_app in Hnd as [? _].
  - apply Forall_forall. intros i Hi.
    assert (i ∈ seq 0 (length rs)) as Hin; [|apply elem_of_seq in Hin; lia].
    rewrite <- Hp, app_assoc. apply elem_of_app. by left.
Qed.

(** ** Task identities *)

Lemma assign_task_ids_nodes step active :
  activation_nodes (assign_task_ids step active) = activation_nodes active.
Proof.
  apply list_eq. intros i. unfold activation_nodes, assign_task_ids.
  rewrite !list_lookup_fmap, list_lookup_imap. destruct (active !! i) as [a|]; [|done].
  cbn. by case_decide.
Qed.

End Boundary.

(** ** Persist, then resume *)

Section Persist.
Context {State Update C : Type} {ops : CheckpointerOps State C} `{!LawfulCheckpointer ops}.
Context (g : CompiledGraph State Update C) (env : Env) (rc : RunCtx) (thread : ThreadId).
Context (Hck : cg_checkpointer g = Some ops) (Hth : rc_thread_id rc = Some thread).

Lemma emits_keeps evs (w : World C) :
  w_store ((emits g evs w).1) = w_store w ∧ w_seq ((emits g evs w).1) = w_seq w.
Proof. unfold emits. cbn. by destruct (cg_event_sink g). Qed.

Lemma merge_write_elem l x y : y ∈ (merge_write l x).1 → y ∈ l ∨ y = x.
Proof.
  induction l as [|z l IH]; cbn; [set_solver|]. case_decide.
  - destruct (is_control_plane x); cbn; set_solver.
  - destruct (merge_write l x) as [l' b]. cbn in *. set_solver.
Qed.

Lemma merge_writes_elem ws : ∀ l y, y ∈ (merge_writes l ws).1 → y ∈ l ∨ y ∈ ws.
Proof.
  induction ws as [|x ws IH]; intros l y; [by left|]. rewrite merge_writes_cons.
  intros [Hy|Hy]%IH; [apply merge_write_elem in Hy|]; set_solver.
Qed.

Lemma put_with_ledger_Ok c w w' id :
  put_with_ledger g ops c w = (w', Ok id) →
  ck_get_writes ops (w_store w)
    (mkConfig (cp_thread_id c) (Some (cp_checkpoint_id c)) (cp_namespace c)) = Ok [] →
  id = Some (cp_checkpoint_id c) ∧
  ck_get_scoped ops (w_store w') (cp_thread_id c) None (cp_namespace c) = Ok (Some c) ∧
  ∃ recorded, ck_get_writes ops (w_store w')
    (mkConfig (cp_thread_id c) (Some (cp_checkpoint_id c)) (cp_namespace c)) = Ok recorded ∧
    ∀ x, x ∈ recorded → x ∈ cp_pending_writes c.
Proof.
  unfold put_with_ledger, mbind, with_store. intros H Hfresh.
  destruct (ck_put ops (w_store w) c) as [s1 [id'|e]] eqn:E1; cbn in H; [|by inv_ok].
  destruct (ck_put_writes ops s1 _ _) as [s2 [[]|e]] eqn:E2; cbn in H; [|by inv_ok].
  assert (Hst : w_store w' = s2 ∧ id = Some id').
  { unfold emit, emits in H. destruct (cg_event_sink g); cbn in H; injection H as <- <-; done. }
  destruct Hst as [-> ->]. split_and!.
  - f_equal. by eapply law_put_id.
  - erewrite law_writes_records by exact E2. by eapply law_put_latest.
  - eexists. split.
    + eapply law_writes_merge; [by eexists| |exact E2].
      erewrite law_put_ledger; [exact Hfresh|exact E1|by eexists].
    + intros x [Hx|Hx]%merge_writes_elem; [by apply elem_of_nil in Hx|done].
Qed.

(** A pending set none of whose tasks has run is resumed as it is. *)
Lemma resume_point_pending s c cmd pending recorded :
  cp_pending_activations c = Some (pending_of_activation <$> pending) → pending ≠ [] →
  ck_get_writes ops s (mkConfig thread (Some (cp_checkpoint_id c)) (cg_namespace g)) = Ok recorded →
  (∀ a x, a ∈ pending → x ∈ recorded ++ cp_pending_writes c →
     act_task_id a = "" ∨ act_task_id a ≠ pw_task_id x) →
  resume_point ops g s thread c cmd =
    Ok (mkResumePoint (cp_state c) pending (resume_values c pending (cmd_resume cmd))
          (barriers_from_persisted (cp_barrier_arrivals c)) (Some (cp_checkpoint_id c))).
Proof.
  intros Hp Hne Hw Hdis. unfold resume_point.
  assert (Hpa : pending_activations c = pending).
  { unfold pending_activations. rewrite Hp. destruct pending as [|a l]; [done|].
    exact (activations_pending_id (a :: l)). }
  rewrite Hpa. destruct pending as [|a0 l0] eqn:Epen; [done|]. rewrite <- Epen in *.
  rewrite Hw. cbn [rbind].
  match goal with |- context [skip_completed pending ?d] =>
    assert (skip_completed pending d = pending) as ->; [|done] end.
  unfold skip_completed. case_match eqn:Ed; [done|]. rewrite <- Ed.
  rewrite filter_all; [by rewrite Epen|]. intros a Ha.
  destruct (decide (act_task_id a = "")) as [|Hid]; [by left|]. right. intros Hin.
  assert (∃ x, x ∈ recorded ++ cp_pending_writes c ∧ act_task_id a = pw_task_id x) as (x & Hx & E).
  { destruct recorded; apply list_elem_of_fmap in Hin as (x & -> & Hx); exists x; set_solver. }
  destruct (Hdis a x Ha Hx); congruence.
Qed.

Lemma completion_writes_ids x completed :
  x ∈ completion_writes completed → pw_task_id x ∈ act_task_id <$> completed.
Proof.
  unfold completion_writes. rewrite !list_elem_of_fmap. intros (a & -> & Ha). by exists a.
Qed.

(** What a persisted boundary hands to the resume that follows it. *)
Lemma persist_resume state pending completed ints interrupted bar par step ch w w' id cmd :
  persist_checkpoint env g rc state pending completed ints interrupted bar par step ch w
    = (w', Ok id) →
  pending ≠ [] →
  (∀ a, a ∈ pending → act_task_id a = "" ∨ act_task_id a ∉ act_task_id <$> completed) →
  ck_get_writes ops (w_store w)
    (mkConfig thread (Some (fmt_checkpoint_id (env_nonce env) (w_seq w))) (cg_namespace g)) = Ok [] →
  ∃ c, load_checkpoint ops g (w_store w') thread Latest = Ok c ∧
    id = Some (cp_checkpoint_id c) ∧ cp_parent_checkpoint_id c = par ∧
    cp_interrupts c = ints ∧
    (interrupted ≠ [] → interrupted_nodes c pending = interrupted) ∧
    resume_point ops g (w_store w') thread c cmd =
      Ok (mkResumePoint state pending (resume_values c pending (cmd_resume cmd)) bar id).
Proof.
  unfold persist_checkpoint. rewrite Hck, Hth. intros H Hne Hdis Hfresh.
  unfold mbind at 1 in H. unfold build_loop_checkpoint, next_checkpoint_id, next_seq, mbind, mret in H.
  match type of H with put_with_ledger _ _ ?c0 ?w0 = _ => set (c := c0) in H; set (w1 := w0) in H end.
  apply put_with_ledger_Ok in H as (-> & Hget & recorded & Hrec & Hsub); [|done].
  exists c. split_and!; try done.
  - unfold load_checkpoint. cbn in Hget. rewrite Hget. done.
  - intros Hi. unfold interrupted_nodes. cbn [c cp_metadata]. rewrite get_interrupted_nodes.
    destruct interrupted as [|n l]; [done|].
    assert (Hs : omap as_str (Str <$> (n :: l)) = n :: l) by apply omap_as_str.
    unfold and_then, json_strings, as_array. rewrite Hs. done.
  - erewrite resume_point_pending; [|done|done|exact Hrec|].
    + cbn [c cp_state cp_barrier_arrivals]. by rewrite barriers_roundtrip.
    + intros a x Ha [Hx|Hx]%elem_of_app; destruct (Hdis a Ha) as [|Hn]; [by left| |by left|].
      all: right; intros E; apply Hn; rewrite E; apply completion_writes_ids; auto.
Qed.
End Persist.

(** ** Boundaries of a synchronous run *)

Section Sync.
Context {State Update C : Type} (g : CompiledGraph State Update C) (env : Env) (rc : RunCtx).

Lemma background_idle n (w : World C) :
  background_for g n (@async_default State) w = (w, async_default).
Proof. unfold background_for. destruct (cg_checkpointer g); [by destruct n|done]. Qed.

Lemma emits_unit evs (w : World C) : emits g evs w = ((emits g evs w).1, tt).
Proof. by unfold emits. Qed.

(** What a committed synchronous boundary did: it routed, persisted the result
    and went on with it. *)
Lemma commit_boundary_sync ls active sr st visits visited rm ch cm w w' ls' :
  cg_durability g = DurSync → ls_async ls = async_default →
  commit_boundary env g rc ls active sr st visits visited rm ch cm w = (w', Continue ls') →
  ∃ evs next bar id w1,
    route_completed g active (sr_goto_map sr) st (ls_barriers ls) = (bar, evs, Ok next) ∧
    persist_checkpoint env g rc st next active [] [] bar (ls_parent ls) (S (ls_steps ls)) cm
      (emits g evs w).1 = (w1, Ok id) ∧
    w_store w' = w_store w1 ∧
    ls' = mkLoop st next (S (ls_steps ls)) visits visited rm bar
            (match id with Some i => Some i | None => ls_parent ls end)
            (match id with Some i => Some i | None => ls_last ls end) ch async_default.
Proof.
  intros Hd Haw H. unfold commit_boundary in H. rewrite Haw, Hd in H.
  destruct (route_completed _ _ _ _ _) as [[bar evs] routed] eqn:Er.
  unfold mbind at 1 in H. rewrite emits_unit in H. destruct routed as [next|e].
  2:{ unfold mbind in H. destruct (fail_and_return _ _ _ _ _ _). cbn in H. by inv_ok. }
  unfold mbind at 1 in H. rewrite background_idle in H. cbn [take_failure async_default aw_live] in H.
  exists evs, next, bar. set (w0 := (emits g evs w).1) in *.
  assert (Hdr : (if bool_decide (next = []) then drain g async_default else mret (async_default, Ok tt)) w0
                = (w0, (@async_default State, Ok tt))).
  { destruct (bool_decide _); [|done]. unfold drain, mbind. by rewrite background_idle. }
  unfold mbind at 1 in H. rewrite Hdr in H. cbn [fst snd] in H.
  unfold mbind at 1 in H. destruct (persist_checkpoint _ _ _ _ _ _ _ _ _ _ _ _ w0) as [w1 [id|e]] eqn:Ep.
  2:{ unfold mbind in H. destruct (fail_and_return _ _ _ _ _ _). cbn in H. by inv_ok. }
  exists id, w1. unfold mbind, emit in H. rewrite emits_unit in H.
  destruct (emits_keeps g [StepCompleted (S (ls_steps ls))] w1) as [Hst _].
  cbn [mret] in H. injection H as <- <-. split_and!; done.
Qed.

(** What an interrupted run did before it returned. *)
Lemma finish_interrupt_Ok steps aw active sr st bar par cm ch v w w' e :
  aw_queue aw = [] →
  finish_interrupt env g rc steps aw active sr st bar par cm ch v w = (w', Ok e) →
  ∃ done dg bar' evs succ id w1,
    partition_completed active (sr_goto_map sr) (sr_completed sr) = (done, dg) ∧
    route_completed g done dg st bar = (bar', evs, Ok succ) ∧
    persist_checkpoint env g rc st
      (succ ++ interrupt_pending active (sr_completed sr) (sr_interrupts sr)) done
      (sr_interrupts sr).*2 (omap (λ p, act_node <$> active !! p.1) (sr_interrupts sr)) bar' par
      steps cm (emits g evs w).1 = (w1, Ok id) ∧
    w_store w' = w_store w1 ∧ ge_checkpoint_id e = id ∧ ge_state e = st ∧
    ge_interrupts e = (sr_interrupts sr).*2.
Proof.
  intros Hq H. unfold finish_interrupt in H.
  assert (Hfail : ∀ aw' err w0, (fail_and_return (A := GraphExecution State) g rc steps aw' err w0).2
                                = Err err).
  { intros. unfold fail_and_return, mbind, mret. destruct (drain _ _ _) as [? ?].
    by destruct (fail_run _ _ _ _ _ _). }
  destruct (require_interrupt_durability _ _) as [[]|err].
  2:{ specialize (Hfail aw err w). rewrite H in Hfail. done. }
  destruct (partition_completed _ _ _) as [done dg] eqn:Ep.
  destruct (route_completed _ _ _ _ _) as [[bar' evs] routed] eqn:Er.
  unfold mbind at 1 in H. rewrite emits_unit in H. set (w0 := (emits g evs w).1) in *.
  destruct routed as [succ|err].
  2:{ specialize (Hfail aw err w0). rewrite H in Hfail. done. }
  assert (Hdr : ∃ r, drain g aw w0 = (w0, (async_default, r))).
  { unfold drain, mbind, background_for. rewrite Hq. cbn [length].
    destruct (cg_checkpointer g); cbn; rewrite ?Hq; by eexists. }
  destruct Hdr as [r Hdr]. unfold mbind at 1 in H. rewrite Hdr in H. cbn [fst snd] in H.
  destruct r as [[]|err].
  2:{ specialize (Hfail async_default err w0). rewrite H in Hfail. done. }
  unfold mbind at 1 in H. destruct (persist_checkpoint _ _ _ _ _ _ _ _ _ _ _ _ w0) as [w1 [id|err]] eqn:Epc.
  2:{ specialize (Hfail async_default err w1). rewrite H in Hfail. done. }
  exists done, dg, bar', evs, succ, id, w1. unfold mbind, save_status, mret in H.
  destruct (cg_status_store g); injection H as <- <-; split_and!; done.
Qed.
End Sync.

(** * Task identities

    The ids [execute_run] gives the activations of a superstep
    ([step:index:node]) are distinct within the step. *)

(** A string without the separator. *)
Fixpoint no_colon (s : string) : Prop :=
  match s with
  | String.EmptyString => True
  | String.String c s' => c ≠ ":"%char ∧ no_colon s'
  end.

Lemma no_colon_split a b s t :
  no_colon a → no_colon b → a +:+ ":" +:+ s = b +:+ ":" +:+ t → a = b ∧ s = t.
Proof.
  revert b. induction a as [|c a IH]; intros [|d b] Ha Hb H; cbn in *.
  - injection H as H. split; [done|exact H].
  - injection H as <- _. by destruct Hb.
  - injection H as -> _. by destruct Ha.
  - injection H as -> H. destruct (IH b) as [-> ->]; [by destruct Ha|by destruct Hb|done|done].
Qed.

Lemma pretty_N_char_no_colon x : pretty_N_char x ≠ ":"%char.
Proof. unfold pretty_N_char. repeat case_match; discriminate. Qed.

Lemma pretty_N_go_no_colon x : ∀ s, no_colon s → no_colon (pretty_N_go x s).
Proof.
  induction (N.lt_wf_0 x) as [x _ IH]. intros s Hs. destruct (decide (0 < x)%N) as [Hx|Hx].
  - rewrite pretty_N_go_step by done. apply IH; [by apply N.div_lt|].
    split; [apply pretty_N_char_no_colon|done].
  - assert (x = 0%N) as -> by lia. by rewrite pretty_N_go_0.
Qed.

Lemma pretty_nat_no_colon (n : nat) : no_colon (pretty n).
Proof.
  unfold pretty, pretty_nat, pretty, pretty_N. case_decide; [done|]. by apply pretty_N_go_no_colon.
Qed.

Lemma task_id_inj step i j n m : task_id step i n = task_id step j m → i = j ∧ n = m.
Proof.
  unfold task_id. intros H. apply no_colon_split in H as [_ H]; try apply pretty_nat_no_colon.
  apply no_colon_split in H as [H ->]; try apply pretty_nat_no_colon. by apply (inj pretty) in H.
Qed.

Lemma assign_task_ids_NoDup step active :
  Forall (λ a, act_task_id a = "") active → NoDup (act_task_id <$> assign_task_ids step active).
Proof.
  intros Hf. apply NoDup_alt. intros i j x Hi Hj. unfold assign_task_ids in *.
  rewrite list_lookup_fmap, list_lookup_imap in Hi, Hj.
  destruct (active !! i) as [a|] eqn:Ea; [|done]. destruct (active !! j) as [b|] eqn:Eb; [|done].
  rewrite Forall_lookup in Hf. pose proof (Hf _ _ Ea) as Ha. pose proof (Hf _ _ Eb) as Hb.
  cbn in Hi, Hj. rewrite decide_True in Hi by done.
  rewrite decide_True in Hj by done. cbn in Hi, Hj.
  assert (task_id step i (act_node a) = task_id step j (act_node b)) as H by congruence.
  by apply task_id_inj in H as [? _].
Qed.
