(* ===== verification/StateApi.v ===== *)
(** * State inspection and manual writes

    [crates/tinyflows/src/graph/compiled/state_api.rs]: reading snapshots and
    history, writing state on behalf of a node, and forking a checkpoint into
    another thread. *)

From S2P Require Import Prelude Json GraphTypes Search Checkpoint Builder.
From S2P Require Import Routing StepExec Executor RunLoop.

Record StateSnapshot (State : Type) := mkSnapshot {
  sn_values : State;
  sn_next_nodes : list NodeId;
  sn_tasks : list NodeId;
  sn_config : CheckpointConfig;
  sn_metadata : CheckpointMetadata;
  sn_parent_config : option CheckpointConfig;
  sn_pending_interrupts : list Interrupt
}.
Arguments mkSnapshot {State}.
Arguments sn_values {State}.
Arguments sn_next_nodes {State}.
Arguments sn_tasks {State}.
Arguments sn_config {State}.
Arguments sn_metadata {State}.
Arguments sn_parent_config {State}.
Arguments sn_pending_interrupts {State}.

Definition snapshot_from_tuple {State} (t : CheckpointTuple State) : StateSnapshot State :=
  let c := ct_checkpoint t in
  mkSnapshot (cp_state c) (cp_next_nodes c) (cp_next_nodes c) (ct_config t) (to_metadata c)
    (ct_parent_config t) (cp_interrupts c).

Section StateApi.
Context {State Update C : Type}.
Implicit Types g : CompiledGraph State Update C.

Definition require_checkpointer g : Result (CheckpointerOps State C) :=
  ok_or (cg_checkpointer g) (CheckpointErr "no checkpointer configured").

Definition config_for g (thread_id : string) (checkpoint_id : option string) : CheckpointConfig :=
  mkConfig thread_id checkpoint_id (cg_namespace g).

Definition get_state g (s : C) (thread_id : string) (checkpoint_id : option string)
    : Result (option (StateSnapshot State)) :=
  let? ops := require_checkpointer g in
  let? t := get_tuple ops s (config_for g thread_id checkpoint_id) in
  Ok (snapshot_from_tuple <$> t).

(** [None]: the lineage walk ran out of fuel. *)
Definition get_state_history (fuel : nat) g (s : C) (thread_id : string) (limit : option nat)
    : option (Result (list (StateSnapshot State))) :=
  match require_checkpointer g with
  | Err e => Some (Err e)
  | Ok ops =>
      match state_history ops fuel s thread_id (cg_namespace g) limit with
      | None => None
      | Some (Err e) => Some (Err e)
      | Some (Ok tuples) => Some (Ok (snapshot_from_tuple <$> tuples))
      end
  end.

(** ** Manual writes *)

Definition check_as_node g (as_node : option NodeId) : Result unit :=
  match as_node with
  | None => Ok tt
  | Some node =>
      if decide (is_Some (cg_nodes g !! node)) then
        if decide (node ∈ cg_command_nodes g)
        then Err (GraphErr ("cannot update state as node `" +:+ node +:+
               "`: it routes dynamically via Command and has no static successors, so the " +:+
               "resulting checkpoint would be non-resumable"))
        else Ok tt
      else Err (MissingNode node)
  end.

(** The base checkpoint's pending work without the attributed node. *)
Definition remaining (base : Checkpoint State) (node : NodeId) : list Activation :=
  match cp_pending_activations base with
  | Some (p :: ps) =>
      filter (λ a, act_node a ≠ node) (activation_of_pending <$> (p :: ps))
  | _ => activation_node <$> filter (λ n, n ≠ node) (cp_next_nodes base)
  end.

(** The gate of this function: every arrival at a waiting node is recorded,
    from a required predecessor or not. *)
Definition update_gate g (node tnode : NodeId) (arrivals : gmap NodeId (gset NodeId))
    : gmap NodeId (gset NodeId) * bool :=
  match cg_waiting g !! tnode with
  | Some required =>
      let arrived := {[node]} ∪ default ∅ (arrivals !! tnode) in
      if decide (required ⊆ arrived) then (delete tnode arrivals, true)
      else (<[tnode := arrived]> arrivals, false)
  | None => (arrivals, true)
  end.

Record MergeAcc := mkMerge {
  ma_merged : list Activation;
  ma_seen : gset NodeId;
  ma_arrivals : gmap NodeId (gset NodeId)
}.

Definition merge_target g (node : NodeId) (acc : MergeAcc) (target : RouteTarget) : MergeAcc :=
  let tnode := target_node target in
  if decide (tnode = END) then acc
  else
    let '(arrivals, pass) := update_gate g node tnode (ma_arrivals acc) in
    if pass then
      match target_send_arg target with
      | Some v => mkMerge (ma_merged acc ++ [mkActivation tnode (Some v) ""]) (ma_seen acc) arrivals
      | None =>
          if decide (tnode ∈ ma_seen acc) then mkMerge (ma_merged acc) (ma_seen acc) arrivals
          else mkMerge (ma_merged acc ++ [mkActivation tnode None ""]) ({[tnode]} ∪ ma_seen acc)
                 arrivals
      end
    else mkMerge (ma_merged acc) (ma_seen acc) arrivals.

(** The schedule of the new checkpoint and the arrivals left. *)
Definition update_schedule g (base : Checkpoint State) (new_state : State)
    (as_node : option NodeId)
    : Result (list NodeId * option (list PendingActivation) * gmap NodeId (gset NodeId)) :=
  let arrivals := barriers_from_persisted (cp_barrier_arrivals base) in
  match as_node with
  | None => Ok (cp_next_nodes base, cp_pending_activations base, arrivals)
  | Some node =>
      let merged := remaining base node in
      let seen := list_to_set (act_node <$> filter (λ a, act_send_arg a = None) merged) in
      let? targets := route g node None new_state in
      let acc := foldl (merge_target g node) (mkMerge merged seen arrivals) targets in
      Ok (activation_nodes (ma_merged acc),
          match ma_merged acc with
          | [] => None
          | l => Some (pending_of_activation <$> l)
          end, ma_arrivals acc)
  end.

Definition update_state (env : Env) g (thread_id : string) (update : Update)
    (as_node : option NodeId) : M C (Result CheckpointConfig) :=
  match require_checkpointer g with
  | Err e => mret (Err e)
  | Ok ops =>
      match check_as_node g as_node with
      | Err e => mret (Err e)
      | Ok _ =>
          let! found := (λ w, (w, ck_get_scoped ops (w_store w) thread_id None (cg_namespace g))) in
          match (let? found := found in
                 let? base := ok_or found (CheckpointErr
                   ("cannot update state: no checkpoint exists for thread `" +:+ thread_id +:+ "`")) in
                 let? new_state := cg_reducer g (cp_state base) update in
                 let? sched := update_schedule g base new_state as_node in
                 Ok (base, new_state, sched)) with
          | Err e => mret (Err e)
          | Ok (base, new_state, (next_nodes, pending, arrivals)) =>
              let! id := next_checkpoint_id env in
              let config := config_for g thread_id (Some id) in
              let c := mkCheckpoint thread_id id None (Some (cp_checkpoint_id base))
                         (cg_namespace g) new_state next_nodes (option_list as_node) [] [] pending
                         (barriers_to_persisted arrivals)
                         (json_object [("source", Str "update");
                                       ("step", value_of_nat (cm_step (to_metadata base) + 1))]) in
              let! r := with_store (λ s, ck_put ops s c) in
              match r with
              | Err e => mret (Err e)
              | Ok id => emit g (CheckpointSaved id) ;! mret (Ok config)
              end
          end
      end
  end.

Fixpoint bulk_update_from (env : Env) g (thread_id : string)
    (updates : list (Update * option NodeId)) (last : option CheckpointConfig)
    : M C (Result CheckpointConfig) :=
  match updates with
  | [] => mret (ok_or last (CheckpointErr "bulk_update_state received no updates"))
  | (update, as_node) :: rest =>
      let! r := update_state env g thread_id update as_node in
      match r with
      | Err e => mret (Err e)
      | Ok config => bulk_update_from env g thread_id rest (Some config)
      end
  end.
Definition bulk_update_state (env : Env) g (thread_id : string)
    (updates : list (Update * option NodeId)) : M C (Result CheckpointConfig) :=
  bulk_update_from env g thread_id updates None.

(** ** Forking *)

Definition forked_checkpoint (source : Checkpoint State) (target_thread id : string)
    : Checkpoint State :=
  mkCheckpoint target_thread id None None (cp_namespace source) (cp_state source)
    (cp_next_nodes source) (cp_completed_tasks source) (cp_pending_writes source)
    (cp_interrupts source) (cp_pending_activations source) (cp_barrier_arrivals source)
    (json_object [("source", Str "fork"); ("step", value_of_nat (cm_step (to_metadata source)))]).

Definition fork_state (env : Env) g (source_thread : string) (source_id : option string)
    (target_thread : string) : M C (Result CheckpointConfig) :=
  match require_checkpointer g with
  | Err e => mret (Err e)
  | Ok ops =>
      let! found :=
        (λ w, (w, ck_get_scoped ops (w_store w) source_thread source_id (cg_namespace g))) in
      match (let? found := found in
             ok_or found (CheckpointErr
               ("cannot fork: no checkpoint found for thread `" +:+ source_thread +:+ "`"))) with
      | Err e => mret (Err e)
      | Ok source =>
          let! id := next_checkpoint_id env in
          let config := config_for g target_thread (Some id) in
          let! r := with_store (λ s, ck_put ops s (forked_checkpoint source target_thread id)) in
          match r with
          | Err e => mret (Err e)
          | Ok id => emit g (CheckpointSaved id) ;! mret (Ok config)
          end
      end
  end.
End StateApi.
