(* ===== verification/Samples.v ===== *)
(** * Concrete graphs and environments

    The small graphs the witnesses of the theorems run, over a state that sums
    its updates and the in-memory checkpointer. *)

From S2P Require Import Prelude Json GraphTypes Checkpoint Builder StepExec.
From S2P Require Import Executor RunLoop.

(** A handler that yields its update at once. *)
Definition emit_update (u : nat) : NodeHandler nat nat :=
  λ _ _, mkFuture 0 [] (Ok (NRUpdate u)).
Definition emit_goto (targets : list NodeId) : NodeHandler nat nat :=
  λ _ _, mkFuture 0 [] (Ok (NRCommand (command_goto targets))).
Definition emit_failure (e : GraphError) : NodeHandler nat nat := λ _ _, mkFuture 0 [] (Err e).
(** Pauses until it is resumed with a value, then yields [u]. *)
Definition emit_gate (u : nat) : NodeHandler nat nat :=
  λ _ ctx, mkFuture 0 []
    (Ok (match ctx_resume ctx with
         | Some _ => NRUpdate u
         | None => NRInterrupt (mkInterrupt "gate-1" (ctx_node_id ctx) Null)
         end)).

Definition sum_reducer : StateReducer nat nat := λ s u, Ok (s + u).
Definition sample_builder : GraphBuilder nat nat := set_reducer sum_reducer (builder_new 0).

(** A linear graph: [a -> b -> END]. *)
Definition line_builder : GraphBuilder nat nat :=
  set_entry "a" (set_finish "b" (add_edge "a" "b"
    (add_node "a" (emit_update 1) (add_node "b" (emit_update 2) sample_builder)))).
Definition line_graph : CompiledGraph nat nat (MemStore nat) :=
  from_parts line_builder "a" sum_reducer.

(** A fan-out joined by a barrier: [s] sends to [l] and [r], both wait at [j]. *)
Definition join_builder : GraphBuilder nat nat :=
  set_entry "s" (set_finish "j" (add_waiting_edge "l" "j" (add_waiting_edge "r" "j"
    (with_unconditional_fanout "s" ["l"; "r"]
      (add_node "s" (emit_goto ["l"; "r"])
        (add_node "l" (emit_update 1) (add_node "r" (emit_update 2)
          (add_node "j" (emit_update 4) sample_builder)))))))).
Definition join_graph : CompiledGraph nat nat (MemStore nat) :=
  from_parts join_builder "s" sum_reducer.

(** [a] then a gate that interrupts: [a -> gate -> END]. *)
Definition gate_builder : GraphBuilder nat nat :=
  set_entry "a" (set_finish "gate" (add_edge "a" "gate"
    (add_node "a" (emit_update 1) (add_node "gate" (emit_gate 8) sample_builder)))).
Definition gate_graph : CompiledGraph nat nat (MemStore nat) :=
  set_cg_checkpointer (Some mem_ops) (from_parts gate_builder "a" sum_reducer).

Definition persistent (g : CompiledGraph nat nat (MemStore nat))
  : CompiledGraph nat nat (MemStore nat) := set_cg_checkpointer (Some mem_ops) g.

(** A [select_all] that reports the first future and keeps the order of the
    others, and one that swaps the last future into the free place, as
    [Vec::swap_remove] does. *)
Definition select_first (l : list nat) : nat * list nat := (0, delete 0 l).
Definition select_swap (l : list nat) : nat * list nat :=
  (0, match l with
      | [] => []
      | _ :: rest =>
          match last rest with
          | Some x => x :: take (length rest - 1) rest
          | None => []
          end
      end).

Definition sample_runtime (select : list nat → nat * list nat) : Runtime :=
  mkRuntime select (λ n, pretty n +:+ "ns") mjoin.
Definition sample_env (select : list nat → nat * list nat) : Env :=
  mkEnv (sample_runtime select) 7 (λ _, 0%N) (λ n, n) true.

Definition empty_world : World (MemStore nat) := mkWorld mem_new [] [] 0.

Definition sample_ctx (thread : option ThreadId) : RunCtx :=
  mkRunCtx (mkInfo "run-1" thread "run-1" []) None (stack_new RecursionPolicy_default) Null.
