(* ===== verification/RuntimeTheorems.v ===== *)
(** * The runtime's guarantees: execution

    The theorems about compilation, routing, barriers, supersteps and runs,
    each with a witness on the sample graphs. *)

From S2P Require Import Prelude Json GraphTypes Search Checkpoint Builder Routing BarrierFacts StepExec StepFacts.
From S2P Require Import Executor RunLoop ExecFacts ResumeFacts Samples.

(** C1: a run always ends, and within its step cap: with one unit of fuel more
    than the smaller of the graph's recursion limit and the policy's
    [max_total_steps] the loop never runs out, the parallel runner never finds
    an empty slot (per-node caps are positive, [select_all] behaves as
    documented), and a successful run took at most that many supersteps. *)
Theorem run_terminates {State Update C} (g : CompiledGraph State Update C) env run_id st act th rm
    bar par w :
  caps_pos (cg_node_concurrency g) → select_lawful (rt_select_all (env_rt env)) →
  ∃ w' r, execute_run (S (step_limit g)) env g run_id st act th rm bar par w = (w', Returned r) ∧
    ∀ e, r = Ok e →
      ge_steps e ≤ cg_recursion_limit g ∧ ge_steps e ≤ max_total_steps (cg_recursion_policy g).
Proof.
  intros Hcp Hsel.
  pose proof (execute_run_ok g (S (step_limit g)) env run_id st act th rm bar par ltac:(lia) w) as H.
  destruct (execute_run _ _ _ _ _ _ _ _ _ _ w) as [w' [r| |]]; cbn in H; [|naive_solver|done].
  exists w', r. split; [done|]. intros e He. destruct H as [_ H]. specialize (H e He).
  unfold step_limit in H. lia.
Qed.

Lemma select_first_lawful : select_lawful select_first.
Proof. intros [|x l] Hl; [done|]. cbn. split; [lia|done]. Qed.

Lemma select_swap_lawful : select_lawful select_swap.
Proof.
  intros [|x l] Hl; [done|]. cbn. split; [lia|].
  destruct l as [|y l _] using rev_ind; [done|]. rewrite last_snoc, length_app. cbn.
  rewrite Nat.add_sub, take_app_length. apply Permutation_cons_append.
Qed.

Lemma run_terminates_witness :
  ∃ w' r, execute_run (S (step_limit line_graph)) (sample_env select_first) line_graph "run-1" 0
            [activation_node "a"] None ∅ ∅ None empty_world = (w', Returned r) ∧
    ∀ e, r = Ok e → ge_steps e ≤ cg_recursion_limit line_graph ∧
      ge_steps e ≤ max_total_steps (cg_recursion_policy line_graph).
Proof.
  apply (run_terminates line_graph); [apply caps_pos_empty|apply select_first_lawful].
Defined.

(** No run is left [Running]: when a run returns and a status store is
    configured, the last status it recorded is the one of its result:
    [Failed] with the rendered error, or the [Completed]/[Interrupted] status
    the execution carries. *)
Theorem run_status_recorded {State Update C} (g : CompiledGraph State Update C) fuel env run_id st
    act th rm bar par w w' r :
  step_limit g < fuel → cg_status_store g = true →
  execute_run fuel env g run_id st act th rm bar par w = (w', Returned r) →
  ∃ s, last (w_statuses w') = Some s ∧
    match r with
    | Ok e => s = ge_status e ∧ (st_status s = StCompleted ∨ st_status s = StInterrupted)
    | Err err => st_status s = StFailed ∧ st_error s = Some (error_to_string err)
    end.
Proof.
  intros Hf Hs H. pose proof (execute_run_ok g fuel env run_id st act th rm bar par Hf w) as Hok.
  rewrite H in Hok. cbn in Hok. by apply Hok.
Qed.

Definition watched_line : CompiledGraph nat nat (MemStore nat) := set_cg_status_store true line_graph.

Lemma run_status_recorded_witness :
  ∃ s, last (w_statuses (execute_run 51 (sample_env select_first) watched_line "run-1" 0
                           [activation_node "a"] None ∅ ∅ None empty_world).1) = Some s ∧
    st_status s ≠ StRunning.
Proof.
  destruct (execute_run 51 (sample_env select_first) watched_line "run-1" 0
              [activation_node "a"] None ∅ ∅ None empty_world) as [w' o] eqn:E.
  assert (∃ e, o = Returned (Ok e)) as [e ->] by (vm_compute in E; injection E as _ <-; by eexists).
  apply run_status_recorded in E as (s & Hs & -> & H); [|vm_compute; lia|done].
  exists (ge_status e). split; [done|]. by destruct H as [->| ->].
Defined.

(** [compile] accepts a builder exactly when it has a reducer and an entry
    edge and its topology is well formed (edge endpoints registered, no node
    with both a static edge and a branch, every barrier and its predecessors
    registered, command nodes without static routing), and the compiled graph
    is made of the builder's parts. *)
Theorem compile_accepts_wf {State Update C} (b : GraphBuilder State Update)
    (g : CompiledGraph State Update C) :
  compile b = Ok g ↔
  ∃ reducer entry, gb_reducer b = Some reducer ∧ gb_edges b !! START = Some entry ∧
    g = from_parts b entry reducer ∧ graph_wf g.
Proof. apply compile_Ok. Qed.

Lemma join_graph_wf : graph_wf join_graph.
Proof.
  assert (H : compile join_builder = Ok join_graph) by (vm_compute; reflexivity).
  apply compile_Ok in H as (? & ? & _ & _ & _ & H). done.
Qed.

(** C39: on a well-formed graph whatever a step schedules can run: every next
    activation names a registered node and carries no task id yet, and a node
    activated without a [Send] argument is scheduled once. *)
Theorem next_activations_runnable {State Update C} (g : CompiledGraph State Update C) completed
    goto_map st arr arr' evs next :
  graph_wf g → route_completed g completed goto_map st arr = (arr', evs, Ok next) →
  Forall (λ a, is_Some (cg_nodes g !! act_node a) ∧ act_task_id a = "") next ∧
  NoDup (activation_nodes (filter (λ a, act_send_arg a = None) next)).
Proof. apply route_completed_next. Qed.

Lemma next_activations_runnable_witness :
  Forall (λ a, is_Some (cg_nodes join_graph !! act_node a) ∧ act_task_id a = "")
    [activation_node "j"] ∧
  NoDup (activation_nodes (filter (λ a, act_send_arg a = None) [activation_node "j"])).
Proof.
  apply (next_activations_runnable join_graph [activation_node "l"; activation_node "r"] ∅ 0 ∅ ∅
    [RouteSelected "l" "j"; RouteSelected "r" "j"]); [apply join_graph_wf|vm_compute; reflexivity].
Defined.

(** [reaches_deterministically] decides reachability: it answers yes exactly
    when [from] is [to], or a path of static edges and unconditional fan-outs
    that never steps onto [stop] leads from [from] to a node whose edge or
    fan-out is [to]. *)
Theorem reaches_deterministically_correct {State Update C} (g : CompiledGraph State Update C)
    from to stop :
  reaches_deterministically g from to stop = true ↔
  from = to ∨ ∃ n, rtc (λ x y, det_edge g x y ∧ y ≠ stop) from n ∧ det_edge g n to.
Proof. apply reaches_deterministically_iff. Qed.

(** A held barrier is never a satisfied one: routing keeps the invariant
    that every recorded arrival set is non-empty, belongs to a waiting node, and
    misses at least one required predecessor, whatever the step's outcome. *)
Theorem held_barriers_unsatisfied {State Update C} (g : CompiledGraph State Update C) completed
    goto_map st arr arr' evs r :
  (∀ b A, arr !! b = Some A → A ≠ ∅ ∧ ∃ req, cg_waiting g !! b = Some req ∧ ¬ req ⊆ A) →
  route_completed g completed goto_map st arr = (arr', evs, r) →
  ∀ b A, arr' !! b = Some A → A ≠ ∅ ∧ ∃ req, cg_waiting g !! b = Some req ∧ ¬ req ⊆ A.
Proof. intros Ha Hr. by eapply route_completed_arrivals. Qed.

Lemma held_barriers_unsatisfied_witness :
  ∃ req, cg_waiting join_graph !! "j" = Some req ∧ ¬ req ⊆ {[ "l" ]}.
Proof.
  apply (held_barriers_unsatisfied join_graph [activation_node "l"] ∅ 0 ∅ {["j" := {["l"]}]}
    [RouteSelected "l" "j"] (Ok [])); [|vm_compute; reflexivity|by vm_compute].
  intros b A H. by rewrite lookup_empty in H.
Defined.

(** C2: a barrier fires when, and only when, it should.  Let every activation
    that routes to the waiting node [b] in this step be one of its required
    predecessors, and [A] the predecessors held from earlier steps and those
    routing to [b] now.  If [b] is scheduled, every required predecessor is in
    [A] or relieved (a relief names it whose source completed and took no route
    that leads deterministically to it), and the barrier was engaged: [A] is not
    empty, or the source of a relief took a route toward a required predecessor.
    Conversely [b] is scheduled as soon as every required predecessor is in [A],
    or relieved by a relief that is itself engaged while the predecessor is not
    scheduled by the same step. *)
Theorem barrier_fires_exactly {State Update C} (g : CompiledGraph State Update C) completed goto_map
    st arr arr' evs next b req :
  cg_waiting g !! b = Some req → b ≠ END → req ≠ ∅ → arrivals_ok g arr →
  arrivals_from g goto_map st b 0 completed ⊆ req →
  route_completed g completed goto_map st arr = (arr', evs, Ok next) →
  let A := held arr b ∪ arrivals_from g goto_map st b 0 completed in
  (b ∈ activation_nodes next →
     (A ≠ ∅ ∨ ∃ r, r ∈ cg_barrier_reliefs g ∧ relief_barrier r = b ∧
        engages g goto_map st completed b req r) ∧
     ∀ p, p ∈ req → p ∈ A ∨ ∃ r, relieves g goto_map st completed b p r) ∧
  ((∀ p, p ∈ req → p ∈ A ∨ (p ∉ activation_nodes next ∧ ∃ r,
      relieves g goto_map st completed b p r ∧
      (A ≠ ∅ ∨ engages g goto_map st completed b req r))) →
   b ∈ activation_nodes next).
Proof. intros. by eapply route_completed_fire. Qed.

(** [l] arrives at the barrier [j] in the step in which [s] turns away from [r]:
    the relief of [r] completes the barrier. *)
Definition relief_graph : CompiledGraph nat nat (MemStore nat) :=
  from_parts (add_barrier_relief "s" "r" "j" join_builder) "s" sum_reducer.

Lemma barrier_fires_exactly_witness : "j" ∈ activation_nodes [activation_node "j"].
Proof.
  apply (barrier_fires_exactly relief_graph [activation_node "l"; activation_node "s"]
    {[1 := [RTNode END]]} 0 ∅ ∅ [RouteSelected "l" "j"] [activation_node "j"] "j" {["l"; "r"]}).
  - by vm_compute.
  - done.
  - set_solver.
  - intros b A H. by rewrite lookup_empty in H.
  - apply (bool_decide_unpack _). vm_compute. exact I.
  - vm_compute. reflexivity.
  - intros p [->%elem_of_singleton | ->%elem_of_singleton]%elem_of_union; 
      [left; apply (bool_decide_unpack _); vm_compute; exact I|right].
    split; [set_solver|]. exists (mkRelief "s" "r" "j"). split; [|left; apply (bool_decide_unpack _); vm_compute; exact I].
    split_and!; [by left|done..|set_solver|].
    intros (i & a & ts & t & Hi & Ha & Hr & Hin & Ht).
    destruct i as [|[|i]]; cbn in Hi; [injection Hi as <-; done|injection Hi as <-|done].
    vm_compute in Hr. injection Hr as <-. apply list_elem_of_singleton in Hin as ->.
    by vm_compute in Ht.
Defined.

(** C40: the admission window never starts more branches than
    [max_concurrency] allows: in every reachable window state the futures in
    flight are as many as the branches it accounts for and at most [limit], and
    the branches it accounts for respect every per-node cap. *)
Theorem window_bounds {R} (sel : list nat → nat * list nat) (outcome : nat → R) caps nodes limit total
    (w : Window R) :
  select_lawful sel → window_reach sel outcome caps nodes limit total w →
  length (win_running w) = length (win_index w) ∧ length (win_running w) ≤ limit ∧
  ∀ n cap, caps !! n = Some cap →
    length (filter (λ i, default "" (nodes !! i) = n) (win_index w)) ≤ cap.
Proof.
  intros Hs Hw. apply window_reach_ok in Hw as [_ _ _ ? ? _ Hc _]; [|done]. done.
Qed.

Lemma window_bounds_witness :
  length (win_running (window_start (R := nat) {["n" := 2]} ["n"; "n"; "n"] 3 3)) ≤ 3.
Proof.
  apply (window_bounds select_swap (λ i, i) {["n" := 2]} ["n"; "n"; "n"] 3 3);
    [apply select_swap_lawful|constructor].
Defined.

(** The parallel runner loses no branch: for any documented [select_all] it
    returns the step record of a list of results that is a permutation of the
    branches' own results. *)
Theorem parallel_step_total {State Update C} (g : CompiledGraph State Update C) rt info active
    state step rm visited :
  registered g active → caps_pos (cg_node_concurrency g) → select_lawful (rt_select_all rt) →
  ∃ out rs, run_active_parallel rt g info active state step rm visited = Some out ∧
    so_run out = Ok (outcomes_run rs) ∧
    rs ≡ₚ (branch_outcomes g rt info true state step 0 active rm).*1.
Proof. apply run_active_parallel_total. Qed.

Definition sample_info : RunInfo := mkInfo "run-1" None "run-1" [].

Lemma parallel_step_total_witness :
  ∃ out rs, run_active_parallel (sample_runtime select_swap) join_graph sample_info
      [activation_node "l"; activation_node "r"] 0 1 ∅ [] = Some out ∧
    so_run out = Ok (outcomes_run rs) ∧ rs ≡ₚ [Ok (NRUpdate 1); Ok (NRUpdate 2)].
Proof.
  apply (parallel_step_total join_graph (sample_runtime select_swap) sample_info
    [activation_node "l"; activation_node "r"] 0 1 ∅ []).
  - repeat constructor; vm_compute; by eexists.
  - apply caps_pos_empty.
  - apply select_swap_lawful.
Defined.

(** C7: the order branches complete in does not show, in two of the runner's
    three modes: when no concurrency limit binds (every branch is awaited
    together), and when a limit binds but at most two branches are in flight.
    There, for every [select_all] that behaves as documented (some ready future's
    index, the others in any order), the parallel runner folds the branches'
    results in active-set order.  [parallel_results_misattributed] is the third
    mode. *)
Theorem parallel_step_deterministic {State Update C} (g : CompiledGraph State Update C) rt info
    active state step rm visited :
  registered g active → caps_pos (cg_node_concurrency g) → select_lawful (rt_select_all rt) →
  global_binds g (length active) || node_caps_bind g active = false ∨
    Nat.max (default (length active) (cg_max_concurrency g)) 1 ≤ 2 →
  ∃ out, run_active_parallel rt g info active state step rm visited = Some out ∧
    so_run out = Ok (outcomes_run (branch_outcomes g rt info true state step 0 active rm).*1).
Proof. intros. by apply run_active_parallel_run. Qed.

(** Three branches, two at a time, with a [select_all] that swaps the
    last future into the free place. *)
Definition pair_graph : CompiledGraph nat nat (MemStore nat) :=
  from_parts (with_max_concurrency 2 join_builder) "s" sum_reducer.

Lemma parallel_step_deterministic_witness :
  ∃ out, run_active_parallel (sample_runtime select_swap) pair_graph sample_info
      [activation_node "l"; activation_node "r"; activation_node "j"] 0 1 ∅ [] = Some out ∧
    so_run out = Ok (outcomes_run [Ok (NRUpdate 1); Ok (NRUpdate 2); Ok (NRUpdate 4)]).
Proof.
  apply (parallel_step_deterministic pair_graph (sample_runtime select_swap) sample_info
    [activation_node "l"; activation_node "r"; activation_node "j"] 0 1 ∅ []).
  - repeat constructor; vm_compute; by eexists.
  - apply caps_pos_empty.
  - apply select_swap_lawful.
  - right. vm_compute. lia.
Defined.

(** A fan-out of one node over [Send] packets; the packet [2] fails. *)
Definition fan_builder : GraphBuilder nat nat :=
  with_max_concurrency 3 (with_parallel true (set_entry "n" (set_finish "n" (add_node "n"
    (λ _ ctx, mkFuture 0 []
       (match ctx_send_arg ctx with
        | Some (Number (PosInt 2)) => Err (GraphErr "boom")
        | _ => Ok (NRUpdate 1)
        end)) sample_builder)))).
Definition fan_graph : CompiledGraph nat nat (MemStore nat) := from_parts fan_builder "n" sum_reducer.
Definition fan_active : list Activation :=
  (λ i, mkActivation "n" (Some (value_of_nat i)) (task_id 1 i "n")) <$> [0; 1; 2; 3].

(** With three or more futures in flight the parallel runner can attribute
    a result to the wrong branch.  The runner removes the completed entry of its
    index vector in place, while [select_all] returns the remaining futures in
    no guaranteed order; with a [select_all] that fills the free place with the
    last future, the third of four branches fails, but the step record says
    that the second failed and that the third completed. *)
Theorem parallel_results_misattributed :
  select_lawful select_swap ∧
  (branch_error <$> (branch_outcomes fan_graph (sample_runtime select_swap) sample_info true 0 1 0
     fan_active ∅).*1) = [None; None; Some (GraphErr "boom"); None] ∧
  ∃ out, run_active_parallel (sample_runtime select_swap) fan_graph sample_info fan_active 0 1 ∅ []
      = Some out ∧
    (λ sr, (sr_completed sr, failed_index <$> sr_failure sr)) <$>
      (match so_run out with Ok sr => Some sr | Err _ => None end) = Some ([0; 2; 3], Some 1).
Proof.
  split; [apply select_swap_lawful|]. split; [vm_compute; reflexivity|].
  eexists. split; vm_compute; reflexivity.
Qed.

(** Running a step's branches one after the other or concurrently yields
    the same step record when every branch completes: for handlers that do not
    look at their fork identity, the sequential and the parallel runner (no limit
    binding, or two branches in flight) agree on updates, routing and completed branches. *)
Theorem sequential_parallel_agree {State Update C} (g : CompiledGraph State Update C) rt info active
    state step rm visited :
  registered g active → caps_pos (cg_node_concurrency g) → select_lawful (rt_select_all rt) →
  order_free g active →
  (∀ n node st ctx fork, cg_nodes g !! n = Some node →
     node_handler node st ctx =
     node_handler node st (mkContext (ctx_node_id ctx) (ctx_run_id ctx) (ctx_thread_id ctx)
       (ctx_step ctx) (ctx_resume ctx) fork (ctx_send_arg ctx) (ctx_root_run_id ctx)
       (ctx_recursion_frames ctx))) →
  Forall (λ o, branch_done o.1 = true) (branch_outcomes g rt info true state step 0 active rm) →
  ∃ out, run_active_parallel rt g info active state step rm visited = Some out ∧
    so_run out = so_run (run_active_sequential rt g info active state step rm visited).
Proof.
  intros Hr Hc Hs Hof Hfork Hdone.
  destruct (run_active_parallel_run g rt info active state step rm visited Hr Hc Hs Hof)
    as (out & Hout & Hso).
  exists out. split; [done|]. rewrite Hso, run_active_sequential_run by done. do 2 f_equal.
  assert (Heq : ∀ i rm', branch_outcomes g rt info true state step i active rm' =
                         branch_outcomes g rt info false state step i active rm').
  { clear -Hfork. induction active as [|a rest IH]; intros i rm'; [done|]. cbn.
    destruct (cg_nodes g !! act_node a) as [node|] eqn:En; [|done]. rewrite IH. f_equal.
    unfold run_node_with_retry. f_equal. rewrite (Hfork _ _ _ _ None En). done. }
  rewrite <- Heq. clear -Hdone. induction Hdone as [|o rs Ho _ IH]; [done|]. cbn. rewrite Ho.
  by f_equal.
Qed.

Lemma sequential_parallel_agree_witness :
  ∃ out, run_active_parallel (sample_runtime select_first) join_graph sample_info
      [activation_node "l"; activation_node "r"] 0 1 ∅ [] = Some out ∧
    so_run out = so_run (run_active_sequential (sample_runtime select_first) join_graph sample_info
      [activation_node "l"; activation_node "r"] 0 1 ∅ []).
Proof.
  apply (sequential_parallel_agree join_graph (sample_runtime select_first) sample_info).
  - repeat constructor; vm_compute; by eexists.
  - apply caps_pos_empty.
  - apply select_first_lawful.
  - left. by vm_compute.
  - intros n node st ctx fork Hn.
    assert (∀ k nd, cg_nodes join_graph !! k = Some nd →
      nd ∈ (map_to_list (cg_nodes join_graph)).*2) as Hin.
    { intros k nd Hk. apply elem_of_map_to_list in Hk. apply list_elem_of_fmap. by exists (k, nd). }
    apply Hin in Hn. vm_compute in Hn.
    repeat (apply elem_of_cons in Hn as [->|Hn]; [done|]). by apply elem_of_nil in Hn.
  - vm_compute. repeat constructor.
Defined.

(** The per-node visit cap: when a superstep passes its guards, the counter
    of each node has grown by exactly its activations in the step, and no
    activated node is past the cap. *)
Theorem visit_cap_enforced {State Update C} (g : CompiledGraph State Update C) env rc
    (ls : @LoopState State) max visits :
  max_visits_per_node (stack_policy (rc_stack rc)) = Some max →
  check_caps env g rc ls = (visits, Ok tt) →
  (∀ n, default 0 (visits !! n) = default 0 (ls_visits ls !! n) + visits_of n (ls_active ls)) ∧
  (∀ n, n ∈ activation_nodes (ls_active ls) → default 0 (visits !! n) ≤ max).
Proof.
  intros Hm H. unfold check_caps in H. case_decide; [done|].
  assert (record_visits (rc_stack rc) (ls_visits ls) (ls_active ls) = (visits, Ok tt)) as Hr.
  { destruct (cg_run_deadline g); [by case_decide|done]. }
  by eapply (record_visits_Ok (rc_stack rc)) in Hr.
Qed.

Lemma visit_cap_enforced_witness :
  default 0 (({["a" := 1; "b" := 1]} : gmap NodeId nat) !! "b") ≤ 1.
Proof.
  refine (proj2 (visit_cap_enforced line_graph (sample_env select_first)
    (mkRunCtx sample_info None (stack_new (mkPolicy 25 (Some 1) 1000)) Null)
    (mkLoop 0 [activation_node "a"; activation_node "b"] 0 ∅ [] ∅ ∅ None None [] async_default)
    1 _ eq_refl _) "b" _); [vm_compute; reflexivity|cbn; set_solver].
Defined.

(** The depth cap: a run whose inherited frames already fill [max_depth]
    fails with [SubAgentDepth] before any node runs: the checkpoint store, the
    id counter and the fuel are untouched, and only the start and the failure
    are reported. *)
Theorem depth_cap_enforced {State Update C} (g : CompiledGraph State Update C) fuel env run_id st act
    th rm bar par w :
  max_depth (cg_recursion_policy g) ≤ length (cg_recursion_frames g) →
  let '(w', o) := execute_run fuel env g run_id st act th rm bar par w in
  o = Returned (Err (SubAgentDepth (max_depth (cg_recursion_policy g)))) ∧
  w_store w' = w_store w ∧ w_seq w' = w_seq w ∧
  w_events w' = w_events w ++
    (if cg_event_sink g
     then [RunStarted run_id; RunFailed run_id
             (error_to_string (SubAgentDepth (max_depth (cg_recursion_policy g))))] else []).
Proof.
  intros Hd. unfold execute_run, stack_push, stack_with_frames. cbn [stack_frames stack_policy].
  rewrite decide_True by lia. unfold fail_run, mbind, emit, emits, save_status, mret.
  destruct (cg_event_sink g), (cg_status_store g); cbn; rewrite ?app_nil_r, <- ?app_assoc; done.
Qed.

Lemma depth_cap_enforced_witness :
  (execute_run 5 (sample_env select_first)
     (set_cg_recursion_policy (mkPolicy 0 None 10) line_graph) "run-1" 0 [activation_node "a"] None
     ∅ ∅ None empty_world).2 = Returned (Err (SubAgentDepth 0)).
Proof.
  pose proof (depth_cap_enforced (set_cg_recursion_policy (mkPolicy 0 None 10) line_graph) 5
    (sample_env select_first) "run-1" 0 [activation_node "a"] None ∅ ∅ None empty_world) as H.
  destruct (execute_run _ _ _ _ _ _ _ _ _ _ _) as [w' o]. cbn in H. by apply H.
Defined.

(** * The runtime's guarantees: boundaries and resumes

    What a step boundary persists is what a resume continues from, stated
    against the [LawfulCheckpointer] contract. *)

(** C3: no branch is lost or run twice at a boundary: for the record of a step
    whose branches yielded [rs], the activations recorded as completed together
    with the rescheduled ones are the step's activations, each once, at a
    failure boundary and at an interrupt boundary. *)
Theorem boundary_keeps_every_branch {Update} (rs : list (Result (NodeResult Update)))
    (active : list Activation) done dg :
  length rs ≤ length active →
  partition_completed active (sr_goto_map (outcomes_run rs)) (sr_completed (outcomes_run rs))
    = (done, dg) →
  done ++ not_completed active (sr_completed (outcomes_run rs)) ≡ₚ active ∧
  done ++ interrupt_pending active (sr_completed (outcomes_run rs)) (sr_interrupts (outcomes_run rs))
    ≡ₚ active.
Proof.
  intros Hlen Hp. destruct (outcomes_run_indices rs) as [Hnd Hlt].
  assert (Hlt' : Forall (λ i, i < length active)
    (sr_completed (outcomes_run rs) ++ (sr_interrupts (outcomes_run rs)).*1)).
  { eapply Forall_impl; [exact Hlt|]. cbn. lia. }
  split; [|by eapply interrupt_pending_perm].
  apply NoDup_app in Hnd as [Hnd _]. apply Forall_app in Hlt' as [Hl _].
  by eapply not_completed_perm.
Qed.

Definition two_active : list Activation := [mkActivation "a" None "1:0:a"; mkActivation "b" None "1:1:b"].

Lemma boundary_keeps_every_branch_witness :
  [mkActivation "a" None "1:0:a"] ++
    not_completed two_active
      (sr_completed (outcomes_run [Ok (NRUpdate 1); Err Cancelled])) ≡ₚ two_active.
Proof.
  apply (boundary_keeps_every_branch [Ok (NRUpdate 1); Err Cancelled] two_active
    [mkActivation "a" None "1:0:a"] ∅); [cbn; lia|vm_compute; reflexivity].
Defined.

(** Re-keying keeps routing with its branch: the [j]-th completed
    activation of a boundary is the activation at the [j]-th completed index,
    and the explicit routing stored for it is the one that branch returned. *)
Theorem partition_rekeys_routing active gm ci done dg :
  Forall (λ i, i < length active) ci → partition_completed active gm ci = (done, dg) →
  ∀ j i, ci !! j = Some i → done !! j = active !! i ∧ dg !! j = gm !! i.
Proof.
  intros Hci Hp j i Hj. apply partition_completed_spec in Hp as [-> Hdg]; [|done].
  split; [|by rewrite Hdg, Hj]. clear -Hci Hj. revert j Hj.
  induction ci as [|k ci IH]; intros j Hj; [by rewrite lookup_nil in Hj|].
  apply Forall_cons in Hci as [Hk Hci]. destruct (lookup_lt_is_Some_2 active k Hk) as [a Ha].
  cbn. rewrite Ha. destruct j as [|j]; cbn in *; [by injection Hj as ->|]. by apply IH.
Qed.

Lemma partition_rekeys_routing_witness :
  [mkActivation "b" None "1:1:b"] !! 0 = two_active !! 1 ∧
  ({[0 := [RTNode "c"]]} : gmap nat _) !! 0 = ({[1 := [RTNode "c"]]} : gmap nat _) !! 1.
Proof.
  apply (partition_rekeys_routing two_active {[1 := [RTNode "c"]]} [1]
    [mkActivation "b" None "1:1:b"] {[0 := [RTNode "c"]]});
    [repeat constructor|vm_compute; reflexivity|done].
Defined.

Section Resume.
Context {State Update C : Type} {ops : CheckpointerOps State C} `{!LawfulCheckpointer ops}.
Context (g : CompiledGraph State Update C) (env : Env) (rc : RunCtx) (thread : ThreadId).

(** The ledger of the next checkpoint id is empty: ids are fresh. *)
Definition fresh_ledger (w : World C) : Prop :=
  ck_get_writes ops (w_store w)
    (mkConfig thread (Some (fmt_checkpoint_id (env_nonce env) (w_seq w))) (cg_namespace g)) = Ok [].

(** C5: a run and its resume agree at every committed boundary: when the
    synchronous loop goes on after a superstep with work left, the thread's
    latest checkpoint makes a resume start from the same state, the same active
    set, the same barrier arrivals and the same parent checkpoint as the loop
    itself continues with, and it carries no resume value of its own. *)
Theorem resume_continues_run ls active sr st visits visited rm ch cm w w' ls' :
  cg_checkpointer g = Some ops → rc_thread_id rc = Some thread →
  cg_durability g = DurSync → graph_wf g → ls_async ls = async_default → fresh_ledger w →
  commit_boundary env g rc ls active sr st visits visited rm ch cm w = (w', Continue ls') →
  ls_active ls' ≠ [] →
  ∃ c, load_checkpoint ops g (w_store w') thread Latest = Ok c ∧
    cp_parent_checkpoint_id c = ls_parent ls ∧
    resume_point ops g (w_store w') thread c command_new =
      Ok (mkResumePoint (ls_state ls') (ls_active ls') ∅ (ls_barriers ls') (ls_parent ls')).
Proof.
  intros Hck Hth Hd Hwf Haw Hfresh H Hne.
  apply commit_boundary_sync in H as (evs & next & bar & id & w1 & Hr & Hp & -> & ->); [|done|done].
  cbn [ls_state ls_active ls_barriers ls_parent] in *.
  apply (route_completed_next g) in Hr as [Hnext _]; [|done].
  destruct (emits_keeps g evs w) as [Hst Hsq].
  eapply (persist_resume g env rc thread Hck Hth) in Hp as (c & Hl & -> & Hpar & _ & _ & Hres).
  - exists c. split_and!; [exact Hl|done|exact Hres].
  - done.
  - intros a Ha. left. unfold next_ok in Hnext. rewrite Forall_forall in Hnext. by apply Hnext.
  - rewrite Hst, Hsq. exact Hfresh.
Qed.

(** C6: an interrupt is a durable pause point.  When a run with a checkpointer
    and a thread returns interrupted, no background write is still queued, the
    ledger holds nothing for the checkpoint about to be minted and the task ids
    of the step's activations are distinct (an activation rescheduled from an
    earlier step keeps its id and can collide: [retry_drops_failed_task]),
    resuming the thread's latest checkpoint with a value starts from the
    returned state, reschedules the successors of the completed branches and the
    branches that did not complete, restores the barriers, and delivers the value
    to the interrupted nodes and to no other. *)
Theorem interrupt_resumes rs active steps aw st bar par cm ch v w w' e cmd value :
  cg_checkpointer g = Some ops → rc_thread_id rc = Some thread → graph_wf g →
  aw_queue aw = [] → fresh_ledger w → length rs ≤ length active →
  NoDup (act_task_id <$> active) → sr_interrupts (outcomes_run rs) ≠ [] →
  finish_interrupt env g rc steps aw active (outcomes_run rs) st bar par cm ch v w = (w', Ok e) →
  cmd_resume cmd = Some value →
  ∃ c succ bar' evs done dg,
    partition_completed active (sr_goto_map (outcomes_run rs)) (sr_completed (outcomes_run rs))
      = (done, dg) ∧
    route_completed g done dg st bar = (bar', evs, Ok succ) ∧
    load_checkpoint ops g (w_store w') thread Latest = Ok c ∧
    resume_point ops g (w_store w') thread c cmd =
      Ok (mkResumePoint (ge_state e)
            (succ ++ interrupt_pending active (sr_completed (outcomes_run rs))
                       (sr_interrupts (outcomes_run rs)))
            (foldl (λ m n, <[n := value]> m) ∅
               (omap (λ p, act_node <$> active !! p.1) (sr_interrupts (outcomes_run rs))))
            bar' (ge_checkpoint_id e)).
Proof.
  intros Hck Hth Hwf Hq Hfresh Hlen Hnd Hint H Hcmd.
  apply finish_interrupt_Ok in H
    as (dn & dg & bar' & evs & succ & id & w1 & Hp & Hr & Hper & -> & -> & -> & _); [|assumption].
  destruct (outcomes_run_indices rs) as [Hind Hlt].
  assert (Hlt' : Forall (λ i, i < length active)
    (sr_completed (outcomes_run rs) ++ (sr_interrupts (outcomes_run rs)).*1)).
  { eapply Forall_impl; [exact Hlt|]. cbn. lia. }
  pose proof (interrupt_pending_perm active _ _ _ dn dg Hind Hlt' Hp) as Hperm.
  pose proof Hr as Hnext. apply (route_completed_next g) in Hnext as [Hnext _]; [|done].
  destruct (emits_keeps g evs w) as [Hst Hsq].
  set (interrupted := omap (λ p, act_node <$> active !! p.1) (sr_interrupts (outcomes_run rs))) in *.
  assert (Hne : interrupted ≠ []).
  { destruct (sr_interrupts (outcomes_run rs)) as [|[i x] l] eqn:Es; [done|].
    apply Forall_app in Hlt' as [_ Hlt']. cbn in Hlt'. apply Forall_cons in Hlt' as [Hi _].
    destruct (lookup_lt_is_Some_2 active i Hi) as [a Ha]. unfold interrupted. cbn. by rewrite Ha. }
  eapply (persist_resume g env rc thread Hck Hth) in Hper as (c & Hl & -> & _ & _ & Hin & Hres).
  - exists c, succ, bar', evs, dn, dg. split_and!; [done|done|exact Hl|]. rewrite Hres.
    do 2 f_equal. unfold resume_values. rewrite Hcmd, Hin by done. by destruct interrupted.
  - intros Hnil. apply app_eq_nil in Hnil as [_ Hnil]. unfold interrupt_pending in Hnil.
    apply app_eq_nil in Hnil as [Hnil _]. apply Hne. unfold interrupted.
    clear -Hnil. induction (sr_interrupts (outcomes_run rs)) as [|p l IH]; [done|].
    cbn in *. destruct (active !! p.1); [done|]. by apply IH.
  - intros a [Ha|Ha]%elem_of_app.
    + left. unfold next_ok in Hnext. rewrite Forall_forall in Hnext. by apply Hnext.
    + right. intros Hd. rewrite <- Hperm in Hnd. rewrite fmap_app in Hnd.
      apply NoDup_app in Hnd as (_ & Hdis & _). apply (Hdis _ Hd). apply list_elem_of_fmap. by exists a.
  - rewrite Hst, Hsq. exact Hfresh.
Qed.
End Resume.

Definition line_durable : CompiledGraph nat nat (MemStore nat) := persistent line_graph.
Definition line_ls : LoopState :=
  mkLoop 0 [activation_node "a"] 0 ∅ [] ∅ ∅ None None [] async_default.
Definition line_step : World (MemStore nat) * StepResult :=
  commit_boundary (sample_env select_first) line_durable (sample_ctx (Some "t")) line_ls
    (assign_task_ids 1 [activation_node "a"]) (outcomes_run [Ok (NRUpdate 1)]) 1 ∅ ["a"] ∅ []
    (Array []) empty_world.

Lemma line_durable_wf : graph_wf line_durable.
Proof.
  assert (H : compile line_builder = Ok line_graph) by (vm_compute; reflexivity).
  apply compile_Ok in H as (? & ? & _ & _ & _ & [? ? ? ? ?]). by split.
Qed.

Lemma resume_continues_run_witness :
  ∃ c rp, load_checkpoint mem_ops line_durable (w_store line_step.1) "t" Latest = Ok c ∧
    resume_point mem_ops line_durable (w_store line_step.1) "t" c command_new = Ok rp ∧
    rp_state rp = 1 ∧ activation_nodes (rp_active rp) = ["b"].
Proof.
  destruct line_step as [w' s] eqn:E. cbn [fst].
  assert (∃ ls', s = Continue ls' ∧ ls_state ls' = 1 ∧ activation_nodes (ls_active ls') = ["b"])
    as (ls' & -> & Hs & Ha) by (vm_compute in E; injection E as _ <-; by eexists).
  destruct (resume_continues_run line_durable (sample_env select_first) (sample_ctx (Some "t")) "t"
    line_ls _ _ _ _ _ _ _ _ empty_world _ _ eq_refl eq_refl eq_refl line_durable_wf eq_refl eq_refl E)
    as (c & Hc & _ & Hr).
  { intros Hn. by rewrite Hn in Ha. }
  exists c. eexists. split_and!; [exact Hc|exact Hr|exact Hs|exact Ha].
Defined.

Definition gate_active : list Activation := assign_task_ids 2 [activation_node "gate"].
Definition gate_outcomes : list (Result (NodeResult nat)) :=
  [Ok (NRInterrupt (mkInterrupt "gate-1" "gate" Null))].
Definition gate_pause : World (MemStore nat) * Result (GraphExecution nat) :=
  finish_interrupt (sample_env select_first) gate_graph (sample_ctx (Some "t")) 2 async_default
    gate_active (outcomes_run gate_outcomes) 1 ∅ None (Array []) [] ["a"; "gate"] empty_world.

Lemma gate_graph_wf : graph_wf gate_graph.
Proof.
  assert (H : compile (C := MemStore nat) gate_builder = Ok (from_parts gate_builder "a" sum_reducer))
    by (vm_compute; reflexivity).
  apply compile_Ok in H as (? & ? & _ & _ & _ & [? ? ? ? ?]). by split.
Qed.

Lemma interrupt_resumes_witness :
  ∃ c rp, load_checkpoint mem_ops gate_graph (w_store gate_pause.1) "t" Latest = Ok c ∧
    resume_point mem_ops gate_graph (w_store gate_pause.1) "t" c (command_resume (Bool true)) = Ok rp ∧
    rp_state rp = 1 ∧ rp_resume rp !! "gate" = Some (Bool true).
Proof.
  destruct gate_pause as [w' r] eqn:E. cbn [fst].
  assert (∃ e, r = Ok e ∧ ge_state e = 1) as (e & -> & Hs)
    by (vm_compute in E; injection E as _ <-; by eexists).
  destruct (interrupt_resumes gate_graph (sample_env select_first) (sample_ctx (Some "t")) "t"
    gate_outcomes gate_active _ async_default _ _ _ _ _ _ empty_world _ _ (command_resume (Bool true)) (Bool true)
    eq_refl eq_refl gate_graph_wf eq_refl eq_refl ltac:(cbn; lia) ltac:(repeat constructor; set_solver)
    ltac:(done) E eq_refl) as (c & succ & bar' & evs & dn & dg & _ & _ & Hc & Hr).
  exists c. eexists. split_and!; [exact Hc|exact Hr|exact Hs|vm_compute; reflexivity].
Defined.

(** The tasks of a superstep scheduled by routing have distinct identities:
    activations without a task id all get different ones. *)
Theorem fresh_task_ids_distinct step active :
  Forall (λ a, act_task_id a = "") active → NoDup (act_task_id <$> assign_task_ids step active).
Proof. apply assign_task_ids_NoDup. Qed.

Lemma fresh_task_ids_distinct_witness :
  NoDup (act_task_id <$> assign_task_ids 1 [activation_node "n"; activation_node "n"]).
Proof. apply (fresh_task_ids_distinct 1). repeat constructor. Defined.

(** [x] routes to [c] and [b]; [b] fails when it is given a payload; [c] leads
    to [d]. *)
Definition retry_builder : GraphBuilder nat nat :=
  set_entry "x" (set_finish "b" (set_finish "d" (add_edge "c" "d" (mark_command_routing "x"
    (add_node "x" (emit_goto ["c"; "b"])
      (add_node "b" (λ _ ctx, mkFuture 0 []
         (match ctx_send_arg ctx with
          | Some _ => Err (GraphErr "unavailable")
          | None => Ok (NRUpdate 1)
          end))
        (add_node "c" (emit_update 2) (add_node "d" (emit_update 4) sample_builder)))))))).
Definition retry_graph : CompiledGraph nat nat (MemStore nat) :=
  persistent (from_parts retry_builder "x" sum_reducer).
Definition retry_env : Env := sample_env select_first.
Definition retry_run1 : World (MemStore nat) * Outcome (GraphExecution nat) :=
  run_with_thread_inputs 51 retry_env retry_graph "t" 0
    [input_at "x"; input_new "b" (Str "payload")] empty_world.
Definition retry_run2 : World (MemStore nat) * Outcome (GraphExecution nat) :=
  retry 51 retry_env retry_graph "t" retry_run1.1.
Definition retry_run3 : World (MemStore nat) * Outcome (GraphExecution nat) :=
  retry 51 retry_env retry_graph "t" retry_run2.1.

(** A retry can drop a failed task.  Task ids restart at step 1 on every
    resume while a rescheduled activation keeps the id of its first run, so two
    activations of one step can share an id; a failure boundary then records a
    completion marker that also names the activation it reschedules.  In this
    run [b] fails with its payload twice: the first retry schedules a second
    [b] under the same id, which completes; the latest checkpoint still lists
    the failed [b] as pending, and the second retry completes having run only
    [d]. *)
Theorem retry_drops_failed_task :
  compile retry_builder = Ok (from_parts (C := MemStore nat) retry_builder "x" sum_reducer) ∧
  retry_run1.2 = Returned (Err (GraphErr "unavailable")) ∧
  retry_run2.2 = Returned (Err (GraphErr "unavailable")) ∧
  (∃ c, load_checkpoint mem_ops retry_graph (w_store retry_run2.1) "t" Latest = Ok c ∧
     pending_activations c =
       [activation_node "d"; mkActivation "b" (Some (Str "payload")) "1:1:b"] ∧
     pw_task_id <$> cp_pending_writes c = ["1:0:c"; "1:1:b"]) ∧
  ∃ e, retry_run3.2 = Returned (Ok e) ∧ ge_visited e = ["d"].
Proof.
  split_and!; [vm_compute; reflexivity..| |].
  - eexists. split_and!; vm_compute; reflexivity.
  - eexists. split; vm_compute; reflexivity.
Qed.
