(* ===== verification/StoreTheorems.v ===== *)
(** * The checkpoint store's guarantees

    The write ledger, the lineage walk, pruning, thread copies and forks. *)

From S2P Require Import Prelude Json GraphTypes Search Checkpoint Lineage Builder Routing StepExec StepFacts.
From S2P Require Import Executor RunLoop ExecFacts ResumeFacts StateApi Samples Channel.

(** Recording writes is idempotent and first-write-wins: merging a batch
    keeps one write per (task, index), a data-plane write already recorded is
    never replaced, and merging the same batch again changes nothing. *)
Theorem ledger_merge_idempotent (l ws : list PendingWrite) :
  ledger_wf l →
  ledger_wf (merge_writes l ws).1 ∧
  (∀ k x, ledger_find k l = Some x → (0 ≤ k.2)%Z → ledger_find k (merge_writes l ws).1 = Some x) ∧
  (∀ w, w ∈ ws → write_identity w ∈ write_identity <$> (merge_writes l ws).1) ∧
  (merge_writes (merge_writes l ws).1 ws).1 = (merge_writes l ws).1.
Proof.
  intros Hwf. split_and!.
  - by apply merge_writes_wf.
  - intros. by apply merge_writes_data_stable.
  - intros. by apply merge_writes_present.
  - by apply merge_writes_idem.
Qed.

Lemma ledger_merge_idempotent_witness :
  (merge_writes (merge_writes [] [completion_marker "n" "1:0:n"]).1
     [completion_marker "n" "1:0:n"]).1 = [completion_marker "n" "1:0:n"].
Proof.
  apply (ledger_merge_idempotent [] [completion_marker "n" "1:0:n"]). constructor.
Defined.

(** The history walk over the in-memory store ends after at most one
    iteration per record even on a cyclic lineage, and returns distinct
    checkpoints, each the parent of the one before it, at most [limit] many. *)
Theorem history_terminates {State} (s : MemStore State) thread ns limit :
  ∃ r, state_history mem_ops (S (mem_count s thread)) s thread ns limit = Some (Ok r) ∧
    NoDup (tuple_id <$> r) ∧ lineage_linked r ∧
    match limit with Some l => length r ≤ l | None => True end.
Proof. apply mem_state_history. Qed.

(** Pruning never breaks a lineage or changes what a resume loads: the
    records left are records of the thread, in order; the parent of a survivor
    survives when it was there; and the latest checkpoint of every namespace is
    the one it was. *)
Theorem prune_keeps_lineage {State} (s : MemStore State) thread keep :
  thread_wf s thread →
  ∃ s' n, prune mem_ops s thread keep = (s', Ok n) ∧
    sublist (mem_thread s' thread) (mem_thread s thread) ∧
    (∀ c p, c ∈ mem_thread s' thread → p ∈ mem_thread s thread →
       cp_parent_checkpoint_id c = Some (cp_checkpoint_id p) → p ∈ mem_thread s' thread) ∧
    ∀ ns, mem_get_scoped s' thread None ns = mem_get_scoped s thread None ns.
Proof.
  intros Hwf. destruct (mem_prune_thread s thread keep) as (s' & n & Hp & Hth).
  exists s', n. split; [done|]. rewrite Hth. split; [apply sublist_filter|].
  set (metas := to_metadata <$> mem_thread s thread).
  assert (Hnd : NoDup (cm_checkpoint_id <$> metas)).
  { unfold metas. rewrite <- list_fmap_compose. exact Hwf. }
  split.
  - intros c p Hc Hpin Hpar. apply list_elem_of_filter in Hc as [Hk Hc].
    apply list_elem_of_filter. split; [|done]. eapply prune_protected_closed; [exact Hk|].
    fold metas. change (cp_checkpoint_id c) with (cm_checkpoint_id (to_metadata c)).
    rewrite prune_parents_lookup; [|done|by apply list_elem_of_fmap_2]. cbn. by rewrite Hpar.
  - intros ns. assert (Hwf' : thread_wf s' thread).
    { unfold thread_wf in *. rewrite Hth. eapply sublist_NoDup; [exact Hwf|].
      apply fmap_sublist, sublist_filter. }
    rewrite !mem_get_scoped_unique by done. f_equal. rewrite Hth.
    destruct (rfind (scoped_match None ns) (mem_thread s thread)) as [c|] eqn:E.
    + apply rfind_filter; [done|]. apply prune_window_protected.
      change (cp_checkpoint_id c) with (cm_checkpoint_id (to_metadata c)).
      apply (prune_window_latest _ _ ns); [lia|]. rewrite rfind_fmap.
      assert (Hx : ∀ x : Checkpoint State, scoped_match None ns x =
                bool_decide (cm_namespace (to_metadata x) = ns)).
      { intros x. unfold scoped_match. by rewrite andb_true_r. }
      rewrite <- (rfind_ext _ _ _ Hx). by rewrite E.
    + rewrite rfind_None in E |- *. intros a Ha. apply list_elem_of_filter in Ha as [_ Ha].
      by apply E.
Qed.

Definition sample_checkpoint (thread id : string) (parent : option string) : Checkpoint nat :=
  mkCheckpoint thread id None parent [] 0 [] [] [] [] None [] Null.
Definition put_all (s : MemStore nat) (l : list (Checkpoint nat)) : MemStore nat :=
  foldl (λ s c, (mem_put s c).1) s l.
Definition three_store : MemStore nat :=
  put_all mem_new [sample_checkpoint "t" "c1" None; sample_checkpoint "t" "c2" (Some "c1");
                   sample_checkpoint "t" "c3" None].

Lemma prune_keeps_lineage_witness :
  ∃ s' n, prune mem_ops three_store "t" 1 = (s', Ok n) ∧
    ∀ ns, mem_get_scoped s' "t" None ns = mem_get_scoped three_store "t" None ns.
Proof.
  destruct (prune_keeps_lineage three_store "t" 1) as (s' & n & H & _ & _ & Hl).
  - vm_compute. repeat constructor; set_solver.
  - exists s', n. split; [exact H|exact Hl].
Defined.

(** Copying a thread is faithful and never interleaves: into a thread that
    has a checkpoint it fails and leaves the store as it is; into an empty one
    (with no stale ledgers) every record arrives, in order and under the target
    thread, with its write ledger, and every other thread and ledger is as it
    was. *)
Theorem copy_thread_faithful {State} (s : MemStore State) source target :
  source ≠ target → store_wf s → thread_wf s source →
  (∀ c, c ∈ mem_thread s source → ledger s target (cp_namespace c) (cp_checkpoint_id c) = []) →
  (mem_thread s target ≠ [] →
     ∃ e, copy_thread mem_ops s source target = (s, Err (CheckpointErr e))) ∧
  (mem_thread s target = [] →
     ∃ s', copy_thread mem_ops s source target = (s', Ok tt) ∧
       mem_thread s' target = retarget target <$> mem_thread s source ∧
       (∀ t, t ≠ target → mem_thread s' t = mem_thread s t) ∧
       (∀ c, c ∈ mem_thread s source →
          ledger s' target (cp_namespace c) (cp_checkpoint_id c) =
          ledger s source (cp_namespace c) (cp_checkpoint_id c)) ∧
       ∀ t ns id, t ≠ target → ledger s' t ns id = ledger s t ns id).
Proof.
  intros Hne Hs Hwf Hled. unfold copy_thread. cbn [mem_ops ck_list ck_get_thread].
  unfold mem_list, mem_get_thread. split; intros Ht.
  - destruct (mem_thread s target) as [|c l]; [done|]. cbn. by eexists.
  - rewrite Ht. cbn [fmap list_fmap].
    destruct (mem_copy_checkpoints (mem_thread s source) source target Hne s Hs Hwf Hled)
      as (s' & Hc & Hth & Hl & Ho).
    exists s'. split_and!; [exact Hc| | |done|].
    + rewrite Hth, Ht, decide_True by done. done.
    + intros t Hnt. by rewrite Hth, decide_False, app_nil_r by done.
    + intros t ns id Hnt. apply Ho. by left.
Qed.

Lemma copy_thread_faithful_witness :
  ∃ s', copy_thread mem_ops three_store "t" "u" = (s', Ok tt) ∧
    mem_thread s' "u" = retarget "u" <$> mem_thread three_store "t".
Proof.
  destruct (copy_thread_faithful three_store "t" "u") as [_ H]; [done| | | |].
  - intros k l Hk. by vm_compute in Hk.
  - vm_compute. repeat constructor; set_solver.
  - intros c Hc. vm_compute in Hc.
    repeat (apply elem_of_cons in Hc as [->|Hc]; [by vm_compute|]). by apply elem_of_nil in Hc.
  - destruct H as (s' & Hc & Hth & _); [by vm_compute|]. by exists s'.
Defined.

(** A fork is non-destructive and resumable: for any lawful checkpointer,
    after a successful [fork_state] into another thread the target's latest
    checkpoint is a parentless copy of the source's state, pending work,
    barriers, interrupts and completed tasks, and every read of the source
    thread answers as before. *)
Theorem fork_copies_checkpoint {State Update C} {ops : CheckpointerOps State C}
    `{!LawfulCheckpointer ops} (g : CompiledGraph State Update C) env source_thread source_id
    target w w' config source :
  cg_checkpointer g = Some ops → source_thread ≠ target →
  ck_get_scoped ops (w_store w) source_thread source_id (cg_namespace g) = Ok (Some source) →
  cp_namespace source = cg_namespace g →
  fork_state env g source_thread source_id target w = (w', Ok config) →
  ∃ c, ck_get_scoped ops (w_store w') target None (cg_namespace g) = Ok (Some c) ∧
    cfg_checkpoint_id config = Some (cp_checkpoint_id c) ∧ cp_parent_checkpoint_id c = None ∧
    cp_state c = cp_state source ∧ pending_activations c = pending_activations source ∧
    cp_barrier_arrivals c = cp_barrier_arrivals source ∧ cp_interrupts c = cp_interrupts source ∧
    cp_completed_tasks c = cp_completed_tasks source ∧
    ∀ id ns, ck_get_scoped ops (w_store w') source_thread id ns =
             ck_get_scoped ops (w_store w) source_thread id ns.
Proof.
  intros Hck Hne Hsrc Hns H. unfold fork_state, require_checkpointer in H. rewrite Hck in H.
  cbn [ok_or] in H. unfold mbind at 1 in H. rewrite Hsrc in H. cbn [rbind ok_or] in H.
  unfold next_checkpoint_id, next_seq, with_store, mbind, mret in H. cbn in H.
  destruct (ck_put ops (w_store w)
    (forked_checkpoint source target (fmt_checkpoint_id (env_nonce env) (w_seq w))))
    as [s' [id|e]] eqn:Ep; cbn in H; [|by injection H].
  assert (Hw : w_store w' = s' ∧
    config = config_for g target (Some (fmt_checkpoint_id (env_nonce env) (w_seq w)))).
  { unfold emit, emits in H. destruct (cg_event_sink g); cbn in H; injection H as <- <-; done. }
  destruct Hw as [-> ->]. eexists. split_and!.
  - rewrite <- Hns. exact (law_put_latest _ _ _ _ Ep).
  - done.
  - done.
  - done.
  - done.
  - done.
  - done.
  - done.
  - intros i ns. eapply law_put_other; [exact Ep|done].
Qed.

Lemma fork_copies_checkpoint_witness :
  ∃ c, mem_get_scoped (w_store (fork_state (sample_env select_first) (persistent line_graph) "t" None
         "u" (mkWorld three_store [] [] 9)).1) "u" None [] = Ok (Some c) ∧
    cp_parent_checkpoint_id c = None.
Proof.
  destruct (fork_state (sample_env select_first) (persistent line_graph) "t" None "u"
              (mkWorld three_store [] [] 9)) as [w' r] eqn:E.
  assert (∃ cfg, r = Ok cfg) as [cfg ->] by (vm_compute in E; injection E as _ <-; by eexists).
  apply (fork_copies_checkpoint (persistent line_graph) (sample_env select_first) "t" None "u"
    (mkWorld three_store [] [] 9) w' cfg (sample_checkpoint "t" "c3" None)) in E
    as (c & Hc & _ & Hp & _); [|done|done|vm_compute; reflexivity|done].
  by exists c.
Defined.

Lemma pending_nodes l : pa_node <$> (pending_of_activation <$> l) = activation_nodes l.
Proof. unfold activation_nodes. by rewrite <- list_fmap_compose. Qed.

(** A manual write attributed to a node keeps every other branch: the new
    schedule starts with the base checkpoint's pending activations of the other
    nodes, [Send] arguments and task ids included; what it adds are successors
    of the attributed node; and the node list and the activations agree. *)
Theorem manual_write_keeps_branches {State Update C} (g : CompiledGraph State Update C) base
    new_state node next pending arrivals :
  update_schedule g base new_state (Some node) = Ok (next, pending, arrivals) →
  ∃ added targets, route g node None new_state = Ok targets ∧
    next = activation_nodes (remaining base node ++ added) ∧
    pa_node <$> default [] pending = next ∧
    activation_of_pending <$> default [] pending = remaining base node ++ added ∧
    Forall (λ a, act_task_id a = "" ∧ act_node a ∈ target_node <$> targets ∧ act_node a ≠ END) added.
Proof.
  unfold update_schedule. intros H. inv_ok.
  match goal with H : route _ _ _ _ = Ok ?ts |- _ => rename ts into targets; rename H into Hr end.
  set (seen := list_to_set _). set (arr := barriers_from_persisted _).
  assert (Hfold : ∀ ts acc, (∀ t, t ∈ ts → target_node t ∈ target_node <$> targets) →
    ∃ added, ma_merged (foldl (merge_target g node) acc ts) = ma_merged acc ++ added ∧
      Forall (λ a, act_task_id a = "" ∧ act_node a ∈ target_node <$> targets ∧ act_node a ≠ END) added).
  { induction ts as [|t ts IH]; intros acc Hts; cbn; [exists []; by rewrite app_nil_r|].
    destruct (IH (merge_target g node acc t)) as (ad & -> & Hf); [intros; apply Hts; by right|].
    assert (∃ ad0, ma_merged (merge_target g node acc t) = ma_merged acc ++ ad0 ∧
      Forall (λ a, act_task_id a = "" ∧ act_node a ∈ target_node <$> targets ∧ act_node a ≠ END) ad0)
      as (ad0 & -> & Hf0).
    { unfold merge_target. case_decide as He; [exists []; by rewrite app_nil_r|].
      specialize (Hts t ltac:(left)).
      destruct (update_gate _ _ _ _) as [arr' []]; [|exists []; by rewrite app_nil_r].
      destruct (target_send_arg t) as [v|].
      - exists [mkActivation (target_node t) (Some v) ""]. split; [done|]. by apply Forall_singleton.
      - case_decide; [exists []; by rewrite app_nil_r|].
        exists [mkActivation (target_node t) None ""]. split; [done|]. by apply Forall_singleton. }
    exists (ad0 ++ ad). rewrite app_assoc. split; [done|]. by apply Forall_app. }
  destruct (Hfold targets (mkMerge (remaining base node) seen arr)) as (added & Hm & Hadd).
  { intros t Ht. apply list_elem_of_fmap. by exists t. }
  exists added, targets. rewrite Hm. cbn [ma_merged].
  destruct (remaining base node ++ added) as [|a l] eqn:E; cbn [default]; [done|].
  split_and!; [done|done| | |done].
  - exact (pending_nodes (a :: l)).
  - exact (activations_pending_id (a :: l)).
Qed.

Lemma manual_write_keeps_branches_witness :
  ∃ added targets, route line_graph "a" None 0 = Ok targets ∧
    ["c"; "b"] = activation_nodes
      (remaining (mkCheckpoint "t" "c1" None None [] 0 ["a"; "c"] [] [] [] None [] Null) "a" ++ added).
Proof.
  destruct (manual_write_keeps_branches line_graph
    (mkCheckpoint "t" "c1" None None [] 0 ["a"; "c"] [] [] [] None [] Null) 0 "a" ["c"; "b"]
    (Some [mkPending "c" None ""; mkPending "b" None ""]) ∅) as (added & targets & Hr & Hn & _);
    [vm_compute; reflexivity|].
  exists added, targets. split; [exact Hr|exact Hn].
Defined.

(** A loop head [h] that waits for [a], with a back-edge from [body]. *)
Definition loop_builder : GraphBuilder nat nat :=
  set_entry "a" (add_waiting_edge "a" "h" (add_edge "h" "body" (add_edge "body" "h"
    (add_node "a" (emit_update 1) (add_node "h" (emit_update 1)
      (add_node "body" (emit_update 1) sample_builder)))))).
Definition loop_graph : CompiledGraph nat nat (MemStore nat) :=
  persistent (from_parts loop_builder "a" sum_reducer).
Definition loop_world : World (MemStore nat) :=
  mkWorld (put_all mem_new
    [mkCheckpoint "t" "c1" None None [] 0 ["body"] [] [] []
       (Some [mkPending "body" None "2:0:body"]) [] Null]) [] [] 9.
Definition loop_write : World (MemStore nat) * Result CheckpointConfig :=
  update_state (sample_env select_first) loop_graph "t" 5 (Some "body") loop_world.

(** A manual write does not gate barriers as a run does.  [route_completed]
    gates a waiting node only for its required predecessors, so the back-edge
    from [body] re-enters [h]; [update_state] gates it for every predecessor, so
    the same write attributed to [body] schedules nothing, records [body] as an
    arrival [h] never waits for, and leaves a checkpoint that cannot be
    resumed. *)
Theorem manual_write_swallows_back_edge :
  compile loop_builder = Ok (from_parts (C := MemStore nat) loop_builder "a" sum_reducer) ∧
  (route_completed loop_graph [activation_node "body"] ∅ 5 ∅).2 = Ok [activation_node "h"] ∧
  is_ok loop_write.2 = true ∧
  (retry 51 (sample_env select_first) loop_graph "t" loop_write.1).2 =
    Returned (Err (Resume "checkpoint has no pending nodes to resume")) ∧
  ∃ c, load_checkpoint mem_ops loop_graph (w_store loop_write.1) "t" Latest = Ok c ∧
    cp_barrier_arrivals c = [mkArrivals "h" ["body"]].
Proof.
  split_and!; [vm_compute; reflexivity..|]. eexists. split; vm_compute; reflexivity.
Qed.

(** * The channel state's guarantees *)

(** Conflict detection is exact: folding the updates of a new superstep
    (all stamped with its number, every channel registered, no merge rule
    refusing a value) succeeds if and only if no overwrite channel is written by
    two of them. *)
Theorem step_conflict_exact (k : nat) (us : list ChannelUpdate) (s : ChannelState) :
  Forall (λ u, cu_step u = Some k) us → current_step s ≠ k →
  (∀ u n, u ∈ us → n ∈ (cu_writes u).*1 →
     ∃ c, cs_channels (st_set s) !! n = Some c ∧ total_merge c) →
  is_ok (fold_result merge s us) = true ↔
  ∀ n c, cs_channels (st_set s) !! n = Some c → ch_allows_concurrent c = false →
    touching n us ≤ 1.
Proof.
  intros Hst Hne Hreg. split.
  - intros Hok. destruct (fold_result merge s us) as [s'|] eqn:E; [|done].
    by eapply step_touch_once.
  - intros Hone. destruct us as [|u us]; [done|].
    assert (Hent : fold_result merge s (u :: us) =
                   fold_result merge (enter_step s (Some k)) (u :: us)).
    { pose proof Hst as [Hu _]%Forall_cons. cbn. f_equal. unfold merge. rewrite Hu.
      unfold enter_step. rewrite decide_False by congruence. cbn. by rewrite decide_True. }
    rewrite Hent. apply (same_step_total k); [done| | |].
    + unfold enter_step. by rewrite decide_False by congruence.
    + intros u' n. rewrite enter_step_channels. apply Hreg.
    + intros n c. rewrite enter_step_channels. intros Hc Ha. specialize (Hone n c Hc Ha).
      right. unfold writes_of, enter_step. rewrite decide_False by congruence.
      cbn [step_writes]. rewrite lookup_empty. exact Hone.
Qed.

Definition two_channels : ChannelState :=
  with_channel "x" LastValue (with_channel "log" Topic state_new).
Definition write_x (step : nat) : ChannelUpdate := at_step step (update_set "x" (Bool true) update_new).
Definition write_log (step : nat) : ChannelUpdate := at_step step (update_set "log" Null update_new).

Lemma step_conflict_exact_witness :
  is_ok (fold_result merge two_channels [write_x 1; write_log 1; write_log 1]) = true.
Proof.
  apply (step_conflict_exact 1 [write_x 1; write_log 1; write_log 1] two_channels).
  - repeat constructor.
  - done.
  - intros u n Hu Hn.
    repeat (apply elem_of_cons in Hu as [->|Hu]; [apply list_elem_of_singleton in Hn as ->;
      eexists; split; [vm_compute; reflexivity|]; intros [[]|] []; done|]).
    by apply elem_of_nil in Hu.
  - intros n c Hc Ha. destruct (decide (n = "x")) as [->|Hx]; [vm_compute; lia|].
    destruct (decide (n = "log")) as [->|Hl].
    + vm_compute in Hc. injection Hc as <-. done.
    + unfold two_channels, with_channel, add_channel in Hc. cbn in Hc.
      rewrite !lookup_insert_ne in Hc by done. by rewrite lookup_empty in Hc.
Defined.

(** A merge touches only what it names: after a successful merge every
    channel outside the update's writes has the value it had, except that a
    stamp with a new step number clears the ephemeral channels. *)
Theorem merge_frames (s : ChannelState) (u : ChannelUpdate) s' n :
  merge s u = Ok s' → n ∉ (cu_writes u).*1 →
  cs_channels (st_set s') = cs_channels (st_set s) ∧
  cs_values (st_set s') !! n =
    (if match cu_step u with Some k => bool_decide (k ≠ current_step s) | None => false end &&
        ephemeral (st_set s) n
     then None else cs_values (st_set s) !! n).
Proof.
  intros Hm Hn. split; [by eapply merge_channels|].
  apply merge_Ok in Hm as (_ & Ha & _). rewrite (apply_writes_frame _ _ _ _ Hn Ha).
  unfold enter_step. destruct (cu_step u) as [k|]; [|done].
  case_decide as Hk; [by rewrite bool_decide_eq_false_2 by (intros H; by apply H)|].
  rewrite bool_decide_eq_true_2 by done. cbn. apply clear_ephemeral_lookup.
Qed.

Definition ephemeral_state : ChannelState :=
  mkState (mkSet {["e" := Ephemeral; "x" := LastValue]} {["e" := Null; "x" := Null]}) 1 ∅.

Lemma merge_frames_witness :
  ∃ s', merge ephemeral_state (write_x 2) = Ok s' ∧ cs_values (st_set s') !! "e" = None.
Proof.
  destruct (merge ephemeral_state (write_x 2)) as [s'|e] eqn:E; [|by vm_compute in E].
  exists s'. split; [done|].
  rewrite (proj2 (merge_frames ephemeral_state (write_x 2) s' "e" E ltac:(cbn; set_solver))).
  by vm_compute.
Defined.

(** The indexed message merge is the linear-scan merge: on a list whose
    message ids are distinct, [Messages] replaces the message with the same id
    in place and appends the rest, exactly as a scan per message would, and the
    ids of the result are distinct again. *)
Theorem messages_merge_is_upsert (items incoming : list value) :
  ids_unique items →
  messages_merge (Some (Array items)) (Array incoming) = Ok (Array (foldl upsert items incoming)) ∧
  ids_unique (foldl upsert items incoming).
Proof.
  intros Hu. destruct (message_fold_upsert incoming items (message_index items)) as [He Hq];
    [by apply message_index_ok|].
  split; [|done]. unfold messages_merge. cbn. by rewrite He.
Qed.

Definition message (id : string) (n : nat) : value :=
  json_object [("id", Str id); ("n", value_of_nat n)].

Lemma messages_merge_is_upsert_witness :
  messages_merge (Some (Array [message "m1" 1; message "m2" 2]))
    (Array [message "m1" 3; message "m3" 4]) =
    Ok (Array [message "m1" 3; message "m2" 2; message "m3" 4]).
Proof.
  refine (proj1 (messages_merge_is_upsert [message "m1" 1; message "m2" 2]
    [message "m1" 3; message "m3" 4] _)).
  vm_compute. repeat constructor; set_solver.
Defined.

(** A channel graph in which [a] and then [gate] write the same overwrite
    channel, each stamped with its own step; [gate] pauses first. *)
Definition channel_handler (gate : bool) : NodeHandler ChannelState ChannelUpdate :=
  λ _ ctx, mkFuture 0 []
    (Ok (if gate && bool_decide (ctx_resume ctx = None)
         then NRInterrupt (mkInterrupt "g" (ctx_node_id ctx) Null)
         else NRUpdate (write_x (ctx_step ctx)))).
Definition channel_builder (gate : bool) : GraphBuilder ChannelState ChannelUpdate :=
  set_entry "a" (set_finish "gate" (add_edge "a" "gate"
    (add_node "a" (channel_handler false) (add_node "gate" (channel_handler gate)
      (set_reducer merge (builder_new 0)))))).
Definition channel_graph (gate : bool)
    : CompiledGraph ChannelState ChannelUpdate (MemStore ChannelState) :=
  set_cg_checkpointer (Some mem_ops) (from_parts (channel_builder gate) "a" merge).
Definition channel_world : World (MemStore ChannelState) := mkWorld mem_new [] [] 0.
Definition channel_run (gate : bool) : World (MemStore ChannelState) * Outcome (GraphExecution ChannelState) :=
  run_with_thread 51 (sample_env select_first) (channel_graph gate) "t" two_channels channel_world.

(** A resume can report a conflict between different supersteps.  The step
    counter restarts on every resume while the channel state remembers the step
    it last saw: without the pause the run writes the channel in steps 1 and 2
    and completes; pausing [gate] and resuming makes its write carry step 1
    again, and the merge refuses it as a concurrent update of step 1. *)
Theorem resume_reports_false_conflict :
  (∃ e, (channel_run false).2 = Returned (Ok e) ∧ ge_interrupts e = []) ∧
  (∃ e, (channel_run true).2 = Returned (Ok e) ∧ ge_interrupts e ≠ []) ∧
  (resume 51 (sample_env select_first) (channel_graph true) "t" (command_resume Null)
     (channel_run true).1).2 =
    Returned (Err (InvalidConcurrentUpdate (conflict_message "x" 2))).
Proof.
  split_and!; [eexists; split; [vm_compute; reflexivity|done]..|vm_compute; reflexivity].
Qed.
