(* ===== verification/Workflow.v ===== *)
(** * The workflow model

    [crates/tinyflows/src/model/]: workflow documents as they are after
    deserialisation, their declared inputs and agent types, and the validation
    errors of [crates/tinyflows/src/error.rs]. *)

From S2P Require Import Prelude Json GraphTypes.
From Stdlib Require Import Ascii.
From Stdlib Require String.

(** ** Nodes and edges *)

Inductive NodeKind :=
| Trigger | Agent | ToolCall | HttpRequest | Code | Shell | Condition | Switch | Merge | SplitOut
| Loop | Transform | OutputParser | SubWorkflow | Memory | Dedup | Spawn | Scatter | Gather
| Approval | Gate | Void.
#[export] Instance NodeKind_eq_dec : EqDecision NodeKind.
Proof. solve_decision. Defined.

(** The wire name ([rename_all = "snake_case"]). *)
Definition kind_name (k : NodeKind) : string :=
  match k with
  | Trigger => "trigger" | Agent => "agent" | ToolCall => "tool_call"
  | HttpRequest => "http_request" | Code => "code" | Shell => "shell" | Condition => "condition"
  | Switch => "switch" | Merge => "merge" | SplitOut => "split_out" | Loop => "loop"
  | Transform => "transform" | OutputParser => "output_parser" | SubWorkflow => "sub_workflow"
  | Memory => "memory" | Dedup => "dedup" | Spawn => "spawn" | Scatter => "scatter"
  | Gather => "gather" | Approval => "approval" | Gate => "gate" | Void => "void"
  end.

Record Port := mkPort { port_name : string; port_label : option string }.

(** The canvas position, which the engine ignores, is left out. *)
Record Node := mkWfNode {
  nd_id : string;
  nd_kind : NodeKind;
  nd_type_version : N;
  nd_name : string;
  nd_config : value;
  nd_ports : list Port
}.

Record Edge := mkEdge {
  from_node : string;
  from_port : string;
  to_node : string;
  to_port : string
}.
#[export] Instance Edge_eq_dec : EqDecision Edge.
Proof. solve_decision. Defined.

(** ** Declared inputs ([model/inputs.rs]) *)

Inductive InputType := ITString | ITNumber | ITBoolean | ITJson.

Definition input_type_as_str (t : InputType) : string :=
  match t with
  | ITString => "string" | ITNumber => "number" | ITBoolean => "boolean" | ITJson => "json"
  end.

Definition accepts (t : InputType) (v : value) : bool :=
  match t, v with
  | ITString, Str _ | ITNumber, Number _ | ITBoolean, Bool _ | ITJson, _ => true
  | _, _ => false
  end.

Record WorkflowInput := mkWfInput {
  in_name : string;
  in_ty : InputType;
  in_description : option string;
  in_required : bool;
  in_default : option value
}.

Definition ascii_in (lo hi c : Ascii.ascii) : bool :=
  bool_decide (Ascii.nat_of_ascii lo ≤ Ascii.nat_of_ascii c ≤ Ascii.nat_of_ascii hi).
Definition is_ascii_alphabetic (c : Ascii.ascii) : bool :=
  ascii_in "a"%char "z"%char c || ascii_in "A"%char "Z"%char c.
Definition is_ascii_alphanumeric (c : Ascii.ascii) : bool :=
  is_ascii_alphabetic c || ascii_in "0"%char "9"%char c.

Definition is_valid_input_name (name : string) : bool :=
  match name with
  | String.EmptyString => false
  | String.String c rest =>
      (is_ascii_alphabetic c || bool_decide (c = "_"%char)) &&
      forallb (λ c, is_ascii_alphanumeric c || bool_decide (c = "_"%char))
        (String.list_ascii_of_string rest)
  end.

Inductive InputError :=
| InputMissing (name : string)
| InputTypeMismatch (name expected found : string)
| InputUnknown (name : string).

Definition json_type_name (v : value) : string :=
  match v with
  | Null => "null" | Bool _ => "boolean" | Number _ => "number" | Str _ => "string"
  | Array _ => "array" | Object _ => "object"
  end.

(** One iteration of the loop over the declarations. *)
Definition resolve_one_input (supplied : list (string * value)) (input : WorkflowInput)
    : result InputError value :=
  match obj_get (in_name input) supplied with
  | Some v =>
      if accepts (in_ty input) v then Ok v
      else Err (InputTypeMismatch (in_name input) (input_type_as_str (in_ty input))
                  (json_type_name v))
  | None =>
      match in_default input with
      | Some d => Ok d
      | None => if in_required input then Err (InputMissing (in_name input)) else Ok Null
      end
  end.

Definition resolve_inputs (declared : list WorkflowInput) (supplied : list (string * value))
    : result InputError (list (string * value)) :=
  let? resolved :=
    fold_result (λ m input, let? v := resolve_one_input supplied input in
                            Ok (obj_insert (in_name input) v m)) [] declared in
  let? _ := for_each (λ kv, match obj_get kv.1 resolved with
                            | Some _ => Ok tt
                            | None => Err (InputUnknown kv.1)
                            end) supplied in
  Ok resolved.

(** ** Agent types ([model/agent.rs]) *)

Record AgentLimits := mkLimits {
  max_steps : option N;
  max_tool_calls : option N;
  agent_timeout_secs : option N;
  tool_timeout_secs : option N
}.

Definition lower (a b : option N) : option N :=
  match a, b with
  | Some a, Some b => Some (N.min a b)
  | Some a, None => Some a
  | None, b => b
  end.
Definition narrowed_by (a b : AgentLimits) : AgentLimits :=
  mkLimits (lower (max_steps a) (max_steps b)) (lower (max_tool_calls a) (max_tool_calls b))
    (lower (agent_timeout_secs a) (agent_timeout_secs b))
    (lower (tool_timeout_secs a) (tool_timeout_secs b)).

Record ToolGrant := mkGrant { grant_slug : string; grant_connection_ref : option string }.

(** [str::strip_suffix('*')]. *)
Fixpoint strip_star (s : string) : option string :=
  match s with
  | String.EmptyString => None
  | String.String c String.EmptyString => if decide (c = "*"%char) then Some "" else None
  | String.String c rest => String.String c <$> strip_star rest
  end.

Definition covers (g : ToolGrant) (slug : string) : bool :=
  match strip_star (grant_slug g) with
  | Some prefix => String.prefix prefix slug
  | None => bool_decide (grant_slug g = slug)
  end.

Inductive ContextSourceKind :=
| CSText (text : value)
| CSItems
| CSMemory (scope query : string) (limit : option N)
| CSFlavour (slug : string)
| CSHost (source : string) (params : value).

Record ContextSource := mkSource {
  src_label : option string;
  src_kind : ContextSourceKind;
  src_optional : bool
}.

Record AgentDefinition := mkAgent {
  ag_id : string;
  ag_name : string;
  ag_description : string;
  ag_instructions : option string;
  ag_model : option string;
  ag_provider : option string;
  ag_working_dir : option string;
  ag_limits : AgentLimits;
  ag_tools : list ToolGrant;
  ag_context : list ContextSource;
  ag_metadata : list (string * value)
}.

(** ** Workflow graphs *)

Record WorkflowGraph := mkWorkflow {
  wg_schema_version : N;
  wg_id : option string;
  wg_name : string;
  wg_inputs : list WorkflowInput;
  wg_agents : list AgentDefinition;
  wg_nodes : list Node;
  wg_edges : list Edge
}.

Definition CURRENT_SCHEMA_VERSION : N := 1.

Definition workflow_default : WorkflowGraph := mkWorkflow CURRENT_SCHEMA_VERSION None "" [] [] [] [].

(** The trigger, when there is exactly one. *)
Definition trigger (g : WorkflowGraph) : option Node :=
  match filter (λ n, nd_kind n = Trigger) (wg_nodes g) with
  | [first] => Some first
  | _ => None
  end.

Definition wf_node (g : WorkflowGraph) (id : string) : option Node :=
  find_first (λ n, bool_decide (nd_id n = id)) (wg_nodes g).

Definition wf_agent (g : WorkflowGraph) (id : string) : option AgentDefinition :=
  find_first (λ a, bool_decide (ag_id a = id)) (wg_agents g).

Definition successors (g : WorkflowGraph) (start : string) : list string :=
  to_node <$> filter (λ e, from_node e = start) (wg_edges g).

(** ** Validation errors ([error.rs]) *)

Inductive ValidationError :=
| MissingTrigger
| MultipleTriggers (ids : list string)
| UnknownNode (id : string)
| DuplicateNodeId (id : string)
| IllegalCycle (node : string)
| DuplicateAgentId (id : string)
| InvalidAgentDefinition (agent reason : string)
| InvalidNodeConfig (node reason : string)
| MissingErrorRoute (node : string)
| DuplicateEdge (e : Edge)
| InvalidOnError (node value : string)
| SchemaVersionTooNew (found supported : N)
| InvalidConditionRouting (node from_port : string)
| DuplicateInputName (name : string)
| InvalidInputName (name : string)
| InputDefaultTypeMismatch (name expected : string)
| RequiredInputWithDefault (name : string).

Definition code (e : ValidationError) : string :=
  match e with
  | MissingTrigger => "missing_trigger"
  | MultipleTriggers _ => "multiple_triggers"
  | UnknownNode _ => "unknown_node"
  | DuplicateNodeId _ => "duplicate_node_id"
  | DuplicateAgentId _ => "duplicate_agent_id"
  | InvalidAgentDefinition _ _ => "invalid_agent_definition"
  | IllegalCycle _ => "illegal_cycle"
  | InvalidNodeConfig _ _ => "invalid_node_config"
  | MissingErrorRoute _ => "missing_error_route"
  | DuplicateEdge _ => "duplicate_edge"
  | InvalidOnError _ _ => "invalid_on_error"
  | SchemaVersionTooNew _ _ => "schema_version_too_new"
  | InvalidConditionRouting _ _ => "invalid_condition_routing"
  | DuplicateInputName _ => "duplicate_input_name"
  | InvalidInputName _ => "invalid_input_name"
  | InputDefaultTypeMismatch _ _ => "input_default_type_mismatch"
  | RequiredInputWithDefault _ => "required_input_with_default"
  end.

Definition error_node_id (e : ValidationError) : option string :=
  match e with
  | UnknownNode id | DuplicateNodeId id | IllegalCycle id | MissingErrorRoute id => Some id
  | InvalidNodeConfig node _ | InvalidOnError node _ | InvalidConditionRouting node _ => Some node
  | DuplicateEdge e => Some (from_node e)
  | _ => None
  end.

Definition error_input_name (e : ValidationError) : option string :=
  match e with
  | DuplicateInputName name | InvalidInputName name | RequiredInputWithDefault name
  | InputDefaultTypeMismatch name _ => Some name
  | _ => None
  end.

(** ** Rendering *)

(** Rust's [{:?}] of a string and serde_json's rendering of a value, used in
    messages only. *)
Record Fmt := mkFmt { fmt_debug : string → string; fmt_json : value → string }.

Definition debug_list (f : Fmt) (l : list string) : string :=
  "[" +:+ String.concat ", " (fmt_debug f <$> l) +:+ "]".

Definition quoted (s : string) : string :=
  let quote := String.String (Ascii.ascii_of_nat 34) "" in quote +:+ s +:+ quote.

(** [Display] of the errors. *)
Definition validation_to_string (f : Fmt) (e : ValidationError) : string :=
  match e with
  | MissingTrigger => "workflow has no trigger node"
  | MultipleTriggers ids => "workflow has multiple trigger nodes: " +:+ debug_list f ids
  | UnknownNode id => "edge references unknown node id: " +:+ id
  | DuplicateNodeId id => "duplicate node id: " +:+ id
  | IllegalCycle node => "illegal cycle detected involving node: " +:+ node
  | DuplicateAgentId id => "duplicate agent definition id: " +:+ id
  | InvalidAgentDefinition agent reason =>
      "invalid agent definition " +:+ agent +:+ ": " +:+ reason
  | InvalidNodeConfig node reason => "invalid config for node " +:+ node +:+ ": " +:+ reason
  | MissingErrorRoute node =>
      "node " +:+ node +:+ " has on_error=" +:+ quoted "route" +:+
      " but no outgoing edge on its `error` port"
  | DuplicateEdge e =>
      "duplicate edge: " +:+ from_node e +:+ "." +:+ from_port e +:+ " -> " +:+ to_node e +:+
      "." +:+ to_port e
  | InvalidOnError node value =>
      "node " +:+ node +:+ " has unknown on_error value: " +:+ fmt_debug f value
  | SchemaVersionTooNew found supported =>
      "schema_version " +:+ pretty found +:+ " is newer than this crate supports (max " +:+
      pretty supported +:+ "); upgrade tinyflows to load this graph"
  | InvalidConditionRouting node from_port =>
      "condition node " +:+ node +:+ " has an outgoing edge with from_port " +:+
      fmt_debug f from_port +:+ " — condition edges must emit on from_port " +:+ quoted "true" +:+
      " or " +:+ quoted "false" +:+ " (the branch label belongs on from_port, not to_port; " +:+
      "routing is keyed exclusively on from_port)"
  | DuplicateInputName name => "duplicate workflow input name: " +:+ name
  | InvalidInputName name =>
      "invalid workflow input name " +:+ fmt_debug f name +:+
      " — names must match [A-Za-z_][A-Za-z0-9_]* so `=inputs.<name>` can address them"
  | InputDefaultTypeMismatch name expected =>
      "workflow input " +:+ fmt_debug f name +:+
      " has a default that is not of its declared type " +:+ expected
  | RequiredInputWithDefault name =>
      "workflow input " +:+ fmt_debug f name +:+
      " is both required and has a default; a default makes it optional"
  end.

Definition input_error_to_string (f : Fmt) (e : InputError) : string :=
  match e with
  | InputMissing name =>
      "workflow input " +:+ fmt_debug f name +:+ " is required but was not supplied"
  | InputTypeMismatch name expected found =>
      "workflow input " +:+ fmt_debug f name +:+ " expects type " +:+ expected +:+
      " but received " +:+ found
  | InputUnknown name => "workflow does not declare an input named " +:+ fmt_debug f name
  end.

Inductive EngineError :=
| EValidation (e : ValidationError)
| EInput (e : InputError)
| EUnimplemented (what : string)
| ECapability (message : string)
| ELoopLimit (node : string) (limit : N).

Definition engine_error_to_string (f : Fmt) (e : EngineError) : string :=
  match e with
  | EValidation e => "validation failed: " +:+ validation_to_string f e
  | EInput e => "input error: " +:+ input_error_to_string f e
  | EUnimplemented what => "not yet implemented: " +:+ what
  | ECapability message => "capability error: " +:+ message
  | ELoopLimit node limit =>
      "loop node " +:+ node +:+ " exceeded its maximum of " +:+ pretty limit +:+ " iterations"
  end.
