(* ===== verification/WfState.v ===== *)
(** * Run state of a workflow

    [crates/tinyflows/src/engine/state.rs], the item type of [data.rs] and the
    state updates of [engine/routing.rs]: the JSON state a run threads through
    the graph, how a node's update is merged into it, lanes, and how a node
    collects its input. *)
From Stdlib Require Import Ascii.
From Stdlib Require String.
From S2P Require Import Prelude Json GraphTypes Workflow.

(** ** Items *)

Record Item := mkItem { it_json : value; it_binary : option value; it_paired_item : option nat }.

Definition item_new (json : value) : Item := mkItem json None None.

(** [Serialize]: absent options are skipped. *)
Definition item_to_value (i : Item) : value :=
  json_object ([("json", it_json i)] ++
    match it_binary i with Some b => [("binary", b)] | None => [] end ++
    match it_paired_item i with Some p => [("paired_item", value_of_nat p)] | None => [] end).

(** [Option<Value>] and [Option<usize>] of a field that may be absent: [null] is
    [None]. *)
Definition opt_value (v : option value) : option value :=
  match v with Some Null | None => None | Some v => Some v end.
Definition opt_usize (v : option value) : option (option nat) :=
  match v with
  | Some Null | None => Some None
  | Some (Number (PosInt n)) => Some (Some (Z.to_nat n))
  | Some _ => None
  end.

Definition item_of_fields (json : value) (binary paired : option value) : option Item :=
  match opt_usize paired with
  | Some p => Some (mkItem json (opt_value binary) p)
  | None => None
  end.

(** [Deserialize] of a derived struct: an object with a [json] field, or an
    array of its fields in order. *)
Definition item_of_value (v : value) : option Item :=
  match v with
  | Object m =>
      match obj_get "json" m with
      | Some j => item_of_fields j (obj_get "binary" m) (obj_get "paired_item" m)
      | None => None
      end
  | Array [j] => item_of_fields j None None
  | Array [j; b] => item_of_fields j (Some b) None
  | Array [j; b; p] => item_of_fields j (Some b) (Some p)
  | _ => None
  end.

Definition items_to_value (items : list Item) : value := Array (item_to_value <$> items).

(** ** Merging *)

Definition REPLACE : string := "$replace".
Definition replace (v : value) : value := json_object [(REPLACE, v)].

Definition object_or_empty (v : value) : list (string * value) :=
  match v with Object m => m | _ => [] end.

Fixpoint wf_merge (base update : value) {struct update} : value :=
  match update with
  | Object fields =>
      let merge_fields :=
        fix merge_fields (fs m : list (string * value)) : list (string * value) :=
          match fs with
          | [] => m
          | (k, v) :: fs' =>
              merge_fields fs' (obj_insert k (wf_merge (default Null (obj_get k m)) v) m)
          end in
      match fields with
      | [(k, v)] =>
          if decide (k = REPLACE) then v
          else Object (merge_fields fields (object_or_empty base))
      | _ => Object (merge_fields fields (object_or_empty base))
      end
  | _ => update
  end.

(** [MergeReducer]. *)
Definition merge_reducer (state update : value) : Result value := Ok (wf_merge state update).

(** ** Node updates *)

Definition opt_str (s : option string) : value := match s with Some s => Str s | None => Null end.

Definition items_update_with_meta (node_id : string) (items : list Item) (port : option string)
    (meta : option value) : value :=
  let slot := obj_insert "port" (opt_str port) (obj_insert "items" (items_to_value items) []) in
  let slot :=
    match meta with
    | Some (Object fields) => foldl (λ s kv, obj_insert kv.1 kv.2 s) slot fields
    | _ => slot
    end in
  json_object [("nodes", json_object [(node_id, Object slot)])].

Definition items_update (node_id : string) (items : list Item) (port : option string) : value :=
  items_update_with_meta node_id items port None.

Definition error_item (node_id message : string) : Item :=
  item_new (json_object [("error", json_object [("message", Str message); ("node", Str node_id)])]).

(** Records the superstep in the slot the update writes, if it writes one. *)
Definition stamp_activation_step (update : value) (node_id : string) (step : nat) : value :=
  match update with
  | Object root =>
      match obj_get "nodes" root with
      | Some (Object nodes) =>
          match obj_get node_id nodes with
          | Some (Object slot) =>
              Object (obj_insert "nodes"
                (Object (obj_insert node_id
                   (Object (obj_insert "_activation_step" (value_of_nat step) slot)) nodes)) root)
          | _ => update
          end
      | _ => update
      end
  | _ => update
  end.

(** ** Lanes *)

Record LaneContext := mkLane {
  lane_id : string;
  lane_origin : string;
  lane_index : nat;
  lane_count : nat
}.

Definition LANE_KEY : string := "_lane".

Definition lane_items_update (node_id : string) (lane : LaneContext) (items : list Item)
    (port : option string) (status : string) (meta : option value) : value :=
  let slot := object_or_empty (json_object
    [("items", items_to_value items); ("port", opt_str port); ("status", Str status);
     ("index", value_of_nat (lane_index lane))]) in
  let slot :=
    match meta with
    | Some (Object extra) => foldl (λ s kv, obj_insert kv.1 kv.2 s) slot extra
    | _ => slot
    end in
  json_object [("nodes", json_object
    [(node_id, json_object [("lanes", json_object [(lane_id lane, Object slot)])])])].

Definition lane_envelope (origin : string) (index count : nat) (items : list Item) : value :=
  json_object
    [(LANE_KEY, json_object
        [("id", Str (origin +:+ "#" +:+ pretty index)); ("origin", Str origin);
         ("index", value_of_nat index); ("count", value_of_nat count)]);
     ("items", items_to_value items)].

Definition lane_input (send_arg : option value) : list Item :=
  match send_arg >>? get "items" >>? as_array with
  | Some items => omap item_of_value items
  | None => []
  end.

Definition as_usize (v : value) : option nat := Z.to_nat <$> as_u64 v.

Definition lane_context (send_arg : option value) : option LaneContext :=
  send_arg >>? get LANE_KEY >>? λ lane,
  get "id" lane >>? as_str >>? λ id,
  get "origin" lane >>? as_str >>? λ origin,
  get "index" lane >>? as_usize >>? λ index,
  get "count" lane >>? as_usize >>? λ count,
  Some (mkLane id origin index count).

(** ** Input *)

Definition node_slot (state : value) (id : string) : option value :=
  get "nodes" state >>? get id.

(** The port a node recorded in its slot. *)
Definition emitted_port (slot : option value) : string :=
  default "main" (slot >>? get "port" >>? as_str).

Definition too_old (min_step : option Z) (slot : option value) : bool :=
  match min_step with
  | Some minimum =>
      match slot >>? get "_activation_step" >>? as_u64 with
      | Some step => bool_decide (step < minimum)%Z
      | None => true
      end
  | None => false
  end.

Definition slot_items (slot : option value) : list Item :=
  match slot >>? get "items" >>? as_array with
  | Some l => omap item_of_value l
  | None => []
  end.

Definition collect_edge (state : value) (min_step : option Z) (edge : string * string)
    : list Item :=
  let slot := node_slot state edge.1 in
  if too_old min_step slot then []
  else if decide (emitted_port slot = edge.2) then slot_items slot else [].

Definition collect_input_since (state : value) (incoming : list (string * string))
    (min_step : option Z) : list Item :=
  concat (collect_edge state min_step <$> incoming).

Definition collect_input (state : value) (incoming : list (string * string)) : list Item :=
  collect_input_since state incoming None.

(** * Facts about the run state

    Insertions into JSON objects at different keys commute, so merges of updates
    to different nodes or lanes do; items and lane envelopes survive
    serialisation. *)

(** ** The key order *)

Lemma ltb_irrefl a : String.ltb a a = false.
Proof.
  unfold String.ltb. induction a as [|c a IH]; [done|]. cbn.
  unfold Ascii.compare. by rewrite N.compare_refl.
Qed.

Lemma ltb_total a b : a ≠ b → String.ltb b a = negb (String.ltb a b).
Proof.
  intros Hne. unfold String.ltb. rewrite String.compare_antisym.
  destruct (String.compare a b) eqn:E; [|done..]. by apply String.compare_eq_iff in E.
Qed.

Lemma ltb_trans a b c : String.ltb a b = true → String.ltb b c = true → String.ltb a c = true.
Proof.
  unfold String.ltb. revert b c. induction a as [|x a IH]; intros [|y b] [|z c]; cbn; try done.
  unfold Ascii.compare.
  destruct (N.compare_spec (N_of_ascii x) (N_of_ascii y)) as [Hxy|Hxy|Hxy]; [| |done];
    destruct (N.compare_spec (N_of_ascii y) (N_of_ascii z)) as [Hyz|Hyz|Hyz]; try done; intros H1 H2.
  - rewrite Hxy, Hyz, N.compare_refl. specialize (IH b c).
    destruct (String.compare a b); [done| |done]. destruct (String.compare b c); [done| |done].
    by apply IH.
  - by rewrite (proj2 (N.compare_lt_iff _ _)) by lia.
  - by rewrite (proj2 (N.compare_lt_iff _ _)) by lia.
  - by rewrite (proj2 (N.compare_lt_iff _ _)) by lia.
Qed.

(** ** Insertion *)

Lemma obj_insert_twice k v v' m : obj_insert k v' (obj_insert k v m) = obj_insert k v' m.
Proof.
  induction m as [|[j w] m IH]; cbn; [by rewrite decide_True|].
  destruct (decide (k = j)) as [->|Hne]; cbn; [by rewrite decide_True|].
  destruct (String.ltb k j) eqn:E; cbn; [by rewrite decide_True|].
  by rewrite decide_False, E, IH.
Qed.

Lemma obj_insert_comm k1 k2 v1 v2 m :
  k1 ≠ k2 → obj_insert k1 v1 (obj_insert k2 v2 m) = obj_insert k2 v2 (obj_insert k1 v1 m).
Proof.
  intros Hne. pose proof (ltb_total k1 k2 Hne) as Ht.
  induction m as [|[j w] m IH]; cbn.
  { rewrite !decide_False by done. rewrite Ht. by destruct (String.ltb k1 k2). }
  destruct (decide (k2 = j)) as [->|H2].
  - rewrite (decide_False (P := k1 = j)) by done. cbn. rewrite (decide_False (P := k1 = j)) by done.
    destruct (String.ltb k1 j) eqn:E; cbn.
    + rewrite (decide_False (P := j = k1)) by done. rewrite Ht. cbn. by rewrite decide_True.
    + by rewrite decide_True.
  - destruct (decide (k1 = j)) as [->|H1]; cbn.
    + destruct (String.ltb k2 j) eqn:E; cbn.
      * rewrite (decide_False (P := j = k2)) by done.
        destruct (String.ltb j k2); [done|]. rewrite decide_True by done.
        by rewrite (decide_False (P := k2 = j)).
      * rewrite decide_True by done. by rewrite (decide_False (P := k2 = j)).
    + destruct (String.ltb k1 j) eqn:E1, (String.ltb k2 j) eqn:E2; cbn.
      * rewrite (decide_False (P := k1 = k2)), (decide_False (P := k2 = k1)) by done.
        rewrite Ht. destruct (String.ltb k1 k2) eqn:E; cbn.
        -- rewrite (decide_False (P := k2 = j)) by done. by rewrite E2.
        -- rewrite (decide_False (P := k1 = j)) by done. by rewrite E1.
      * rewrite (decide_False (P := k1 = j)), (decide_False (P := k2 = k1)) by done. rewrite E1, Ht.
        assert (String.ltb k1 k2 = true) as ->.
        { apply (ltb_trans k1 j); [done|]. rewrite (ltb_total k2 j) by done. by rewrite E2. }
        cbn. rewrite (decide_False (P := k2 = j)) by done. by rewrite E2.
      * rewrite (decide_False (P := k1 = k2)), (decide_False (P := k2 = j)) by done. rewrite E2.
        assert (String.ltb k1 k2 = false) as ->.
        { apply not_true_iff_false. intros E. apply not_true_iff_false in E1. apply E1.
          by apply (ltb_trans k1 k2). }
        cbn. rewrite (decide_False (P := k1 = j)) by done. by rewrite E1.
      * rewrite (decide_False (P := k1 = j)), (decide_False (P := k2 = j)) by done.
        by rewrite E1, E2, IH.
Qed.

(** ** Merging *)

Lemma wf_merge_single base k v : k ≠ REPLACE →
  wf_merge base (Object [(k, v)]) =
  Object (obj_insert k (wf_merge (default Null (obj_get k (object_or_empty base))) v)
            (object_or_empty base)).
Proof. intros Hk. cbn. by rewrite decide_False. Qed.

Definition merges_commute (u1 u2 : value) : Prop :=
  ∀ s, wf_merge (wf_merge s u1) u2 = wf_merge (wf_merge s u2) u1.

Lemma merges_commute_keys k1 k2 v1 v2 :
  k1 ≠ k2 → k1 ≠ REPLACE → k2 ≠ REPLACE → merges_commute (Object [(k1, v1)]) (Object [(k2, v2)]).
Proof.
  intros Hne H1 H2 s. rewrite !wf_merge_single by done. cbn [object_or_empty].
  rewrite !obj_get_insert_ne by done. by rewrite obj_insert_comm.
Qed.

Lemma merges_commute_under k u1 u2 :
  k ≠ REPLACE → merges_commute u1 u2 → merges_commute (Object [(k, u1)]) (Object [(k, u2)]).
Proof.
  intros Hk Hu s. rewrite !wf_merge_single by done. cbn [object_or_empty].
  rewrite !obj_get_insert_eq, !obj_insert_twice. cbn. by rewrite Hu.
Qed.

(** The update of one slot. *)
Definition nodes_update (id : string) (slot : value) : value :=
  Object [("nodes", Object [(id, slot)])].

Definition slot_fields (items : list Item) (port : option string) (meta : option value)
    : list (string * value) :=
  let slot := obj_insert "port" (opt_str port) (obj_insert "items" (items_to_value items) []) in
  match meta with
  | Some (Object fields) => foldl (λ s kv, obj_insert kv.1 kv.2 s) slot fields
  | _ => slot
  end.

Lemma stamped_update_fields id items port meta step :
  stamp_activation_step (items_update_with_meta id items port meta) id step =
  nodes_update id
    (Object (obj_insert "_activation_step" (value_of_nat step) (slot_fields items port meta))).
Proof.
  unfold items_update_with_meta. fold (slot_fields items port meta).
  generalize (slot_fields items port meta). intros slot.
  unfold nodes_update, json_object, stamp_activation_step. cbn [foldl obj_insert fst snd].
  cbn [obj_get fst snd]. rewrite decide_True by done. cbn [obj_get].
  rewrite decide_True by done. cbn [obj_insert]. by rewrite !decide_True by done.
Qed.

Lemma lane_update id lane items port status meta :
  ∃ slot, lane_items_update id lane items port status meta =
          nodes_update id (Object [("lanes", Object [(lane_id lane, slot)])]).
Proof. unfold lane_items_update, nodes_update, json_object. cbn. by eexists. Qed.

Lemma nodes_updates_commute id1 id2 s1 s2 :
  id1 ≠ id2 → id1 ≠ REPLACE → id2 ≠ REPLACE →
  merges_commute (nodes_update id1 s1) (nodes_update id2 s2).
Proof. intros. apply merges_commute_under; [done|]. by apply merges_commute_keys. Qed.

Lemma lane_updates_commute id l1 l2 s1 s2 :
  id ≠ REPLACE → l1 ≠ l2 → l1 ≠ REPLACE → l2 ≠ REPLACE →
  merges_commute (nodes_update id (Object [("lanes", Object [(l1, s1)])]))
                 (nodes_update id (Object [("lanes", Object [(l2, s2)])])).
Proof. intros. do 3 (apply merges_commute_under; [done|]). by apply merges_commute_keys. Qed.

(** ** Round trips *)

(** A natural number as the number that encodes it. *)
Ltac encode_nat n :=
  pose proof (Nat2Z.id n) as Hencode; unfold value_of_nat in *; revert Hencode;
  generalize (Z.of_nat n); intros ? <-.

Lemma item_roundtrip i : it_binary i ≠ Some Null → item_of_value (item_to_value i) = Some i.
Proof.
  destruct i as [j [b|] [p|]]; cbn [it_binary]; intros Hb;
    unfold item_to_value; cbn [it_json it_binary it_paired_item]; try encode_nat p;
    try destruct b; done.
Qed.

Lemma items_roundtrip items :
  Forall (λ i, it_binary i ≠ Some Null) items → omap item_of_value (item_to_value <$> items) = items.
Proof.
  induction 1 as [|i items Hi _ IH]; [done|]. cbn [fmap list_fmap omap list_omap].
  rewrite item_roundtrip by done. by f_equal.
Qed.

Lemma lane_envelope_context o i c items :
  lane_context (Some (lane_envelope o i c items)) = Some (mkLane (o +:+ "#" +:+ pretty i) o i c).
Proof.
  unfold lane_envelope. generalize (o +:+ "#" +:+ pretty i). intros id.
  encode_nat i. encode_nat c. reflexivity.
Qed.

Lemma lane_envelope_input o i c items :
  Forall (λ i, it_binary i ≠ Some Null) items →
  lane_input (Some (lane_envelope o i c items)) = items.
Proof. intros Hi. by apply items_roundtrip. Qed.
