(* ===== verification/WfAnalysis.v ===== *)
(** * Graph analysis of workflows

    The first half of [crates/tinyflows/src/engine/routing.rs]: how a node
    drives its successors, which edges close a cycle, and which predecessors of
    a fan-in may not run. *)

From S2P Require Import Prelude Json GraphTypes Search Workflow.

(** ** Ports *)

Inductive HandlerRouting :=
| Plain
| FanOut (targets : list string)
| PortCommand (groups : list (string * list string)).

Definition outgoing (g : WorkflowGraph) (node : string) : list Edge :=
  filter (λ e, from_node e = node) (wg_edges g).

(** Adds an edge to the group of its port, or opens one at the end. *)
Fixpoint add_to_port (groups : list (string * list string)) (e : Edge)
    : list (string * list string) :=
  match groups with
  | [] => [(from_port e, [to_node e])]
  | (port, targets) :: rest =>
      if decide (port = from_port e) then (port, targets ++ [to_node e]) :: rest
      else (port, targets) :: add_to_port rest e
  end.

Definition outgoing_by_port (g : WorkflowGraph) (node : string) : list (string * list string) :=
  foldl add_to_port [] (outgoing g node).

Definition handler_routing (g : WorkflowGraph) (node : string) : HandlerRouting :=
  let groups := outgoing_by_port g node in
  let total := sum_list ((λ p, length p.2) <$> groups) in
  match groups with
  | [] => Plain
  | [(_, targets)] => if decide (2 ≤ length targets) then FanOut targets else Plain
  | _ => if decide (total = length groups) then Plain else PortCommand groups
  end.

(** ** Reachability

    The loops pop from the end of a [Vec] and skip a node that is [stop] or
    already seen; a skipped [stop] is one with nothing to push. *)

Definition main_successors (g : WorkflowGraph) (node : string) : list string :=
  to_node <$> filter (λ e, from_node e = node ∧ from_port e = "main") (wg_edges g).

Definition edge_sources (g : WorkflowGraph) : list string := from_node <$> wg_edges g.

Definition stopping (stop : string) (succ : string → list string) (node : string)
    : option (list string) :=
  Some (if decide (node = stop) then [] else succ node).

Definition has_unconditional_path (g : WorkflowGraph) (from to stop : string) : bool :=
  if decide (from = to) then true
  else
    search_total (λ n, bool_decide (n = to)) (stopping stop (main_successors g)) (edge_sources g)
      (reverse (main_successors g from)).

Definition port_successors (g : WorkflowGraph) (node port : string) : list string :=
  to_node <$> filter (λ e, from_node e = node ∧ from_port e = port) (wg_edges g).

Definition reaches_via_port (g : WorkflowGraph) (brancher port target stop : string) : bool :=
  search_total (λ n, bool_decide (n = target)) (stopping stop (successors g)) (edge_sources g)
    (reverse (port_successors g brancher port)).

(** A set in the code; here the list of the set's elements. *)
Definition conditional_predecessors (g : WorkflowGraph) (merge_id : string)
    (loop_edges : gset (string * string)) : list string :=
  match trigger g with
  | None => []
  | Some t =>
      remove_dups (filter (λ pred, has_unconditional_path g (nd_id t) pred merge_id = false)
        (from_node <$> filter (λ e, to_node e = merge_id ∧ (from_node e, to_node e) ∉ loop_edges)
                         (wg_edges g)))
  end.

Definition find_conditional_brancher (g : WorkflowGraph) (predecessor stop : string)
    : option string :=
  nd_id <$> find_first (λ brancher,
    let ports := outgoing_by_port g (nd_id brancher) in
    bool_decide (2 ≤ length ports) &&
    existsb (λ p, reaches_via_port g (nd_id brancher) p.1 predecessor stop) ports) (wg_nodes g).

(** ** Back-edges *)

Inductive Colour := Grey | Black.
#[export] Instance Colour_eq_dec : EqDecision Colour.
Proof. solve_decision. Defined.

(** The local variables of one walk; the head of the stack is its last frame. *)
Record Dfs := mkDfs {
  df_colours : gmap string Colour;
  df_found : gset (string * string);
  df_stack : list (string * list Edge * nat)
}.

(** One iteration of [while let Some(..) = stack.last_mut()]. *)
Definition visit_step (g : WorkflowGraph) (d : Dfs) (node : string) (edges : list Edge)
    (cursor : nat) (rest : list (string * list Edge * nat)) : Dfs :=
  match edges !! cursor with
  | None => mkDfs (<[node := Black]> (df_colours d)) (df_found d) rest
  | Some edge =>
      let stack := (node, edges, S cursor) :: rest in
      match nd_id <$> wf_node g (to_node edge) with
      | None => mkDfs (df_colours d) (df_found d) stack
      | Some target =>
          match df_colours d !! target with
          | Some Grey =>
              mkDfs (df_colours d) ({[(from_node edge, to_node edge)]} ∪ df_found d) stack
          | Some Black => mkDfs (df_colours d) (df_found d) stack
          | None =>
              mkDfs (<[target := Grey]> (df_colours d)) (df_found d)
                ((target, outgoing g target, 0) :: stack)
          end
      end
  end.

Fixpoint visit_loop (fuel : nat) (g : WorkflowGraph) (d : Dfs) : Dfs :=
  match fuel, df_stack d with
  | S fuel', (node, edges, cursor) :: rest =>
      visit_loop fuel' g (visit_step g d node edges cursor rest)
  | _, _ => d
  end.

(** Every node is expanded once and every edge looked at once. *)
Definition visit_fuel (g : WorkflowGraph) : nat :=
  sum_list ((λ n, S (length (outgoing g (nd_id n)))) <$> wg_nodes g).

Definition visit (g : WorkflowGraph) (d : Dfs) (root : string) : Dfs :=
  match df_colours d !! root with
  | Some _ => d
  | None =>
      visit_loop (visit_fuel g) g
        (mkDfs (<[root := Grey]> (df_colours d)) (df_found d) [(root, outgoing g root, 0)])
  end.

Definition back_edges (g : WorkflowGraph) : gset (string * string) :=
  let start := mkDfs ∅ ∅ [] in
  let d := match trigger g with Some t => visit g start (nd_id t) | None => start end in
  df_found (foldl (λ d n, visit g d (nd_id n)) d (wg_nodes g)).

(** * Correctness of the graph analysis

    The reachability questions are answered exactly, and the walk that looks for
    back-edges ends, reports only edges that close a cycle, and leaves no cycle
    among the others. *)

Section Analysis.
Context (g : WorkflowGraph).

Definition node_ids : list string := nd_id <$> wg_nodes g.

(** An edge between nodes, the target being one of the graph's. *)
Definition wf_edge (u v : string) : Prop := v ∈ successors g u ∧ v ∈ node_ids.

Lemma elem_of_successors u v : v ∈ successors g u ↔ ∃ e, e ∈ outgoing g u ∧ to_node e = v.
Proof.
  unfold successors, outgoing. rewrite list_elem_of_fmap.
  split; intros (e & ? & ?); exists e; by subst.
Qed.

Lemma elem_of_outgoing u e : e ∈ outgoing g u ↔ e ∈ wg_edges g ∧ from_node e = u.
Proof. unfold outgoing. rewrite list_elem_of_filter. naive_solver. Qed.

Lemma wf_node_id id : nd_id <$> wf_node g id = (if decide (id ∈ node_ids) then Some id else None).
Proof.
  unfold wf_node. case_decide as H.
  - destruct (find_first _ _) as [n|] eqn:E; cbn.
    + apply find_first_Some in E as [_ E]. by rewrite bool_decide_eq_true in E; subst.
    + rewrite find_first_None in E. apply list_elem_of_fmap in H as (n & -> & Hn).
      specialize (E n Hn). by rewrite bool_decide_eq_false in E.
  - destruct (find_first _ _) as [n|] eqn:E; [|done]. exfalso. apply H.
    apply find_first_Some in E as [Hn E]. rewrite bool_decide_eq_true in E. subst.
    by apply list_elem_of_fmap_2.
Qed.

(** ** Reachability *)

Lemma search_reaches (succ : string → list string) stop to starts :
  (∀ n m, m ∈ succ n → n ∈ edge_sources g) →
  search_total (λ n, bool_decide (n = to)) (stopping stop succ) (edge_sources g) starts = true ↔
  ∃ s, s ∈ starts ∧ rtc (λ x y, x ≠ stop ∧ y ∈ succ x) s to.
Proof.
  intros Hsrc. rewrite search_total_spec.
  - assert (Hstep : ∀ x y, search_step (stopping stop succ) x y ↔ x ≠ stop ∧ y ∈ succ x).
    { intros x y. unfold search_step, stopping. case_decide; split.
      - intros (p & [= <-] & Hp). by apply elem_of_nil in Hp.
      - naive_solver.
      - intros (p & [= <-] & Hp). done.
      - intros [_ Hy]. eauto. }
    split.
    + intros (s & n & Hs & Hr & [Hg|Hg]); [|done]. rewrite bool_decide_eq_true in Hg. subst n.
      exists s. split; [done|]. eapply rtc_subrel; [|exact Hr]. intros x y. apply Hstep.
    + intros (s & Hs & Hr). exists s, to. split_and!; [done| |left; by apply bool_decide_eq_true].
      eapply rtc_subrel; [|exact Hr]. intros x y. apply Hstep.
  - intros n Hn. unfold search_deg, stopping. case_decide; [done|]. cbn.
    destruct (succ n) as [|m l] eqn:E; [done|]. exfalso. apply Hn, (Hsrc n m). rewrite E. by left.
Qed.

Lemma filtered_source (P : Edge → Prop) `{!∀ e, Decision (P e)} n m :
  (∀ e, P e → from_node e = n) → m ∈ to_node <$> filter P (wg_edges g) → n ∈ edge_sources g.
Proof.
  intros HP Hm. apply list_elem_of_fmap in Hm as (e & _ & [He Hin]%list_elem_of_filter).
  rewrite <- (HP e He). by apply list_elem_of_fmap_2.
Qed.

Lemma has_unconditional_path_iff from to stop :
  has_unconditional_path g from to stop = true ↔
  from = to ∨ ∃ s, s ∈ main_successors g from ∧
    rtc (λ x y, x ≠ stop ∧ y ∈ main_successors g x) s to.
Proof.
  unfold has_unconditional_path. case_decide as H; [naive_solver|].
  rewrite search_reaches; [|intros n m; apply filtered_source; naive_solver].
  setoid_rewrite elem_of_reverse. naive_solver.
Qed.

Lemma reaches_via_port_iff brancher port target stop :
  reaches_via_port g brancher port target stop = true ↔
  ∃ s, s ∈ port_successors g brancher port ∧
    rtc (λ x y, x ≠ stop ∧ y ∈ successors g x) s target.
Proof.
  unfold reaches_via_port.
  rewrite search_reaches; [|intros n m; by apply filtered_source].
  by setoid_rewrite elem_of_reverse.
Qed.

(** ** The walk that looks for back-edges *)

(** The first [c] edges [es] of [u] are accounted for: reported, finished, or
    the one that opened the frame [above]. *)
Definition processed (found : gset (string * string)) (fin : list string) (above : option string)
    (u : string) (es : list Edge) (c : nat) : Prop :=
  ∀ i e, i < c → es !! i = Some e → to_node e ∈ node_ids →
    (u, to_node e) ∈ found ∨ to_node e ∈ fin ∨ above = Some (to_node e).

Fixpoint frames_ok (found : gset (string * string)) (fin : list string) (above : option string)
    (stack : list (string * list Edge * nat)) : Prop :=
  match stack with
  | [] => True
  | (u, es, c) :: rest =>
      es = outgoing g u ∧ processed found fin above u es c ∧
      (∀ a, above = Some a → wf_edge u a) ∧
      frames_ok found fin (Some u) rest
  end.

Definition path_of (d : Dfs) : list string := (df_stack d).*1.*1.

(** [fin]: the finished nodes, last one first. *)
Record dfs_ok (fin : list string) (d : Dfs) : Prop := {
  dfs_path : NoDup (path_of d);
  dfs_grey : ∀ n, df_colours d !! n = Some Grey ↔ n ∈ path_of d;
  dfs_black : ∀ n, df_colours d !! n = Some Black ↔ n ∈ fin;
  dfs_fin : NoDup fin;
  dfs_order : ∀ l1 u l2 v, fin = l1 ++ u :: l2 → wf_edge u v → (u, v) ∉ df_found d → v ∈ l2;
  dfs_frames : frames_ok (df_found d) fin None (df_stack d);
  dfs_cycle : ∀ u v, (u, v) ∈ df_found d → wf_edge u v ∧ rtc wf_edge v u
}.

Lemma frames_ok_mono found found' fin fin' above above' stack :
  found ⊆ found' → fin ⊆ fin' →
  (∀ a, above = Some a → above' = Some a ∨ above' = None ∧ a ∈ fin') →
  (above = None → above' = None) →
  frames_ok found fin above stack → frames_ok found' fin' above' stack.
Proof.
  intros Hf Hfin. revert above above'. induction stack as [|[[u es] c] rest IH]; [done|].
  intros above above' Ha Hn (-> & Hp & Hl & Hr). cbn. split_and!; [done| | |].
  - intros i e Hi He Hid. destruct (Hp i e Hi He Hid) as [?|[?|Hab]]; [set_solver|set_solver|].
    destruct (Ha _ Hab) as [?|[_ ?]]; auto.
  - intros a Hab. apply Hl. destruct above as [b|]; [|by rewrite Hn in Hab].
    destruct (Ha b eq_refl) as [Hb|[Hb _]]; congruence.
  - eapply IH; [| |exact Hr]; auto.
Qed.

Lemma frames_path found fin a stack t :
  frames_ok found fin (Some a) stack → t ∈ stack.*1.*1 → rtc wf_edge t a.
Proof.
  revert a. induction stack as [|[[u es] c] rest IH]; [intros a _ H; by apply elem_of_nil in H|].
  intros a (_ & _ & Hl & Hr) [->|Ht]%elem_of_cons.
  - apply rtc_once. by apply Hl.
  - eapply rtc_r; [by eapply IH|]. by apply Hl.
Qed.

Lemma step_outgoing u es c e : es = outgoing g u → es !! c = Some e → from_node e = u ∧ e ∈ outgoing g u.
Proof.
  intros -> He. apply list_elem_of_lookup_2 in He. split; [|done].
  by apply elem_of_outgoing in He as [_ ?].
Qed.

(** The processed edges of a frame after one more. *)
Lemma processed_snoc found fin above u es c e :
  processed found fin above u es c → es !! c = Some e →
  (to_node e ∈ node_ids → (u, to_node e) ∈ found ∨ to_node e ∈ fin ∨ above = Some (to_node e)) →
  processed found fin above u es (S c).
Proof.
  intros Hp He Hn i e' Hi He'. destruct (decide (i = c)) as [->|]; [|apply (Hp i); [lia|done]].
  by rewrite He in He'; injection He' as <-.
Qed.

Lemma visit_step_ok fin d u es c rest :
  dfs_ok fin d → df_stack d = (u, es, c) :: rest →
  ∃ fin', dfs_ok fin' (visit_step g d u es c rest).
Proof.
  intros [Hp Hg Hb Hfin Ho Hf Hc] Hst. unfold path_of in *. rewrite Hst in Hp, Hg, Hf. cbn in Hp, Hg.
  cbn [frames_ok] in Hf. destruct Hf as (-> & Hpr & _ & Hr).
  unfold visit_step. destruct (outgoing g u !! c) as [e|] eqn:He.
  - destruct (step_outgoing u _ c e eq_refl He) as [Hfrom Hout]. rewrite wf_node_id.
    case_decide as Hid; [|].
    + assert (Hedge : wf_edge u (to_node e)).
      { split; [|done]. apply elem_of_successors. by exists e. }
      destruct (df_colours d !! to_node e) as [[]|] eqn:Hcol; exists fin.
      * rewrite Hfrom. split; unfold path_of; cbn; [done..| | |].
        -- intros l1 x l2 v Hx He' Hn. eapply Ho; [done|done|set_solver].
        -- split_and!; [done| |done|].
           ++ eapply processed_snoc; [|exact He|set_solver]. intros i e' Hi He' Hn.
              destruct (Hpr i e' Hi He' Hn) as [?|[?|?]]; [set_solver|auto|done].
           ++ refine (frames_ok_mono _ _ _ _ _ _ _ _ _ _ _ Hr); [set_solver|done|auto|done].
        -- intros x y [[= -> ->]%elem_of_singleton|Hxy]%elem_of_union; [|by apply Hc].
           split; [done|]. apply Hg in Hcol. apply elem_of_cons in Hcol as [->|Hcol]; [done|].
           by eapply frames_path.
      * split; unfold path_of; cbn; [done..| |done]. split_and!; [done| |done|done].
        eapply processed_snoc; [exact Hpr|exact He|]. intros _. right. left. by apply Hb.
      * assert (Hnp : to_node e ∉ u :: rest.*1.*1) by (intros H; apply Hg in H; congruence).
        split; unfold path_of; cbn.
        -- by constructor.
        -- intros n. rewrite lookup_insert_Some. rewrite Hg, !elem_of_cons.
           destruct (decide (n = to_node e)) as [->|]; naive_solver.
        -- intros n. rewrite lookup_insert_Some. rewrite Hb. split; [naive_solver|].
           intros Hn. right. split; [|done]. intros <-. apply Hb in Hn. congruence.
        -- done.
        -- done.
        -- split_and!; [done|intros i ? Hi; lia|done|done| |naive_solver|done].
           eapply processed_snoc; [|exact He|auto]. intros i e' Hi He' Hn.
           destruct (Hpr i e' Hi He' Hn) as [?|[?|?]]; auto. done.
        -- done.
    + exists fin. split; unfold path_of; cbn; [done..| |done]. split_and!; [done| |done|done].
      by eapply processed_snoc; [exact Hpr|exact He|].
  - exists (u :: fin). apply NoDup_cons in Hp as [Hu Hp].
    assert (Hgu : df_colours d !! u = Some Grey) by (apply Hg; left).
    assert (Huf : u ∉ fin) by (intros H; apply Hb in H; congruence).
    apply lookup_ge_None in He. split; unfold path_of; cbn.
    + done.
    + intros n. rewrite lookup_insert_Some, Hg, elem_of_cons. naive_solver.
    + intros n. rewrite lookup_insert_Some, Hb, elem_of_cons. naive_solver.
    + by constructor.
    + intros [|x l1] y l2 v Hx Hedge Hn; cbn in Hx; injection Hx as <- Hx.
      * subst l2. destruct Hedge as [Hs Hid]. apply elem_of_successors in Hs as (e & He' & <-).
        apply list_elem_of_lookup_1 in He' as [i Hi].
        destruct (Hpr i e) as [?|[?|?]]; [apply lookup_lt_Some in Hi; lia|done..].
      * by eapply Ho.
    + refine (frames_ok_mono _ _ _ _ _ _ _ _ _ _ _ Hr); [done|set_solver| |done]. intros a [= <-]. right.
      split; [done|left].
    + done.
Qed.

Lemma visit_loop_ok fuel : ∀ fin d, dfs_ok fin d → ∃ fin', dfs_ok fin' (visit_loop fuel g d).
Proof.
  induction fuel as [|fuel IH]; intros fin d Hd; [by exists fin|]. cbn.
  destruct (df_stack d) as [|[[u es] c] rest] eqn:E; [by exists fin|].
  destruct (visit_step_ok fin d u es c rest Hd E) as [fin' Hd']. by eapply IH.
Qed.

(** *** The walk ends *)

Definition open_work (stack : list (string * list Edge * nat)) : nat :=
  sum_list ((λ f, S (length f.1.2 - f.2)) <$> stack).
Definition white_work (colours : gmap string Colour) (nodes : list Node) : nat :=
  sum_list ((λ n, S (length (outgoing g (nd_id n)))) <$>
    filter (λ n, colours !! nd_id n = None) nodes).

Lemma white_work_insert colours t c nodes :
  colours !! t = None → t ∈ nd_id <$> nodes →
  white_work (<[t := c]> colours) nodes + S (length (outgoing g t)) ≤ white_work colours nodes.
Proof.
  assert (Hmono : ∀ ns, white_work (<[t := c]> colours) ns ≤ white_work colours ns).
  { unfold white_work. intros ns. induction ns as [|n ns IH]; [done|]. rewrite !filter_cons.
    destruct (decide (nd_id n = t)) as [->|Hne].
    - rewrite lookup_insert_eq. rewrite (decide_False (P := Some c = None)) by done.
      case_decide; cbn; lia.
    - rewrite lookup_insert_ne by done. case_decide; cbn; lia. }
  intros Ht Hin. unfold white_work in *. induction nodes as [|n ns IH]; [by apply elem_of_nil in Hin|].
  rewrite !filter_cons. destruct (decide (nd_id n = t)) as [<-|Hne].
  - rewrite lookup_insert_eq, (decide_False (P := Some c = None)) by done.
    rewrite decide_True by done. cbn. specialize (Hmono ns). lia.
  - cbn in Hin. apply elem_of_cons in Hin as [?|Hin]; [congruence|]. specialize (IH Hin).
    rewrite lookup_insert_ne by done. case_decide; cbn; lia.
Qed.

Lemma white_work_total colours : white_work colours (wg_nodes g) ≤ visit_fuel g.
Proof.
  unfold white_work, visit_fuel. induction (wg_nodes g) as [|n ns IH]; [done|].
  rewrite filter_cons. case_decide; cbn; lia.
Qed.

Lemma visit_loop_done fuel : ∀ d,
  open_work (df_stack d) + white_work (df_colours d) (wg_nodes g) ≤ fuel →
  (∀ n, n ∈ path_of d → is_Some (df_colours d !! n)) →
  df_stack (visit_loop fuel g d) = [].
Proof.
  induction fuel as [|fuel IH]; intros d Hf Hp.
  { cbn. destruct (df_stack d) as [|f l]; [done|]. unfold open_work in Hf. cbn in Hf. lia. }
  cbn. destruct (df_stack d) as [|[[u es] c] rest] eqn:E; [done|].
  unfold path_of in Hp. rewrite E in Hp. cbn in Hp. unfold open_work in Hf. cbn in Hf.
  destruct (Hp u) as [cu Hu]; [left|].
  apply IH; unfold visit_step; destruct (es !! c) as [e|] eqn:He.
  - apply lookup_lt_Some in He as Hlt. rewrite wf_node_id. unfold open_work.
    case_decide as Hid; [|cbn; lia].
    destruct (df_colours d !! to_node e) as [[]|] eqn:Hc; cbn; [lia..|].
    pose proof (white_work_insert (df_colours d) (to_node e) Grey (wg_nodes g) Hc Hid). lia.
  - apply lookup_ge_None in He. unfold open_work. cbn.
    assert (Hw : ∀ ns, white_work (<[u := Black]> (df_colours d)) ns =
                       white_work (df_colours d) ns); [|rewrite Hw; lia].
    intros ns. unfold white_work. f_equal. f_equal. apply filter_ext_in. intros n _.
    destruct (decide (nd_id n = u)) as [->|]; [|by rewrite lookup_insert_ne].
    rewrite lookup_insert_eq, Hu. done.
  - rewrite wf_node_id. unfold path_of. case_decide as Hid; [|exact Hp].
    destruct (df_colours d !! to_node e) as [[]|] eqn:Hc; cbn; [exact Hp..|].
    intros n. rewrite !elem_of_cons. intros Hn.
    destruct (decide (n = to_node e)) as [->|]; [by rewrite lookup_insert_eq|].
    rewrite lookup_insert_ne by done. apply Hp. rewrite elem_of_cons. naive_solver.
  - unfold path_of. cbn. intros n Hn. destruct (decide (n = u)) as [->|]; [by rewrite lookup_insert_eq|].
    rewrite lookup_insert_ne by done. apply Hp. by right.
Qed.

(** Between visits the stack is empty. *)
Definition dfs_idle (d : Dfs) : Prop := df_stack d = [] ∧ ∃ fin, dfs_ok fin d.

Lemma visit_loop_keeps k fuel : ∀ d, is_Some (df_colours d !! k) →
  is_Some (df_colours (visit_loop fuel g d) !! k).
Proof.
  induction fuel as [|fuel IH]; intros d Hd; [done|]. cbn.
  destruct (df_stack d) as [|[[u es] c] rest]; [done|]. apply IH. unfold visit_step.
  assert (∀ j c, is_Some (<[j := c]> (df_colours d) !! k)) as Hi.
  { intros j c0. rewrite lookup_insert_is_Some. destruct (decide (j = k)); auto. }
  destruct (es !! c) as [e|]; [|apply Hi]. destruct (nd_id <$> wf_node g _); [|done].
  destruct (df_colours d !! s) as [[]|]; [done|done|apply Hi].
Qed.

Lemma visit_idle d root : root ∈ node_ids → dfs_idle d →
  dfs_idle (visit g d root) ∧ is_Some (df_colours (visit g d root) !! root).
Proof.
  intros Hr [Hst [fin Hd]]. unfold visit. destruct (df_colours d !! root) as [c|] eqn:Hc.
  { split; [by split; [|exists fin]|done]. }
  set (d0 := mkDfs _ _ _).
  assert (Hd0 : dfs_ok fin d0).
  { destruct Hd as [Hp Hg Hb Hfin Ho Hf Hcy]. unfold path_of in Hg. rewrite Hst in Hg. cbn in Hg.
    unfold d0. split; unfold path_of; cbn; [by repeat constructor; set_solver| | |done|done| |done].
    - intros n. rewrite lookup_insert_Some, Hg, elem_of_cons. split; [naive_solver|].
      intros [->|[]%elem_of_nil]. naive_solver.
    - intros n. rewrite lookup_insert_Some, Hb. split; [naive_solver|]. intros Hn. right.
      split; [|done]. intros <-. apply Hb in Hn. congruence.
    - split_and!; [done|intros i ? Hi; lia|done|done]. }
  assert (Hdone : df_stack (visit_loop (visit_fuel g) g d0) = []).
  { apply visit_loop_done; unfold d0; cbn.
    - pose proof (white_work_insert (df_colours d) root Grey (wg_nodes g) Hc Hr).
      pose proof (white_work_total (df_colours d)). lia.
    - intros n. unfold path_of. cbn. intros [->|[]%elem_of_nil]%elem_of_cons.
      by rewrite lookup_insert_eq. }
  split; [split; [done|by eapply visit_loop_ok]|].
  apply visit_loop_keeps. cbn. by rewrite lookup_insert_eq.
Qed.

Lemma visit_keeps k d root :
  is_Some (df_colours d !! k) → is_Some (df_colours (visit g d root) !! k).
Proof.
  intros Hk. unfold visit. destruct (df_colours d !! root); [done|]. apply visit_loop_keeps. cbn.
  rewrite lookup_insert_is_Some. destruct (decide (root = k)); auto.
Qed.

Lemma visits_idle ns d :
  ns ⊆ wg_nodes g → dfs_idle d →
  dfs_idle (foldl (λ d n, visit g d (nd_id n)) d ns) ∧
  ∀ k, (k ∈ nd_id <$> ns ∨ is_Some (df_colours d !! k)) →
    is_Some (df_colours (foldl (λ d n, visit g d (nd_id n)) d ns) !! k).
Proof.
  revert d. induction ns as [|n ns IH]; intros d Hns Hd.
  { split; [done|]. intros k [[]%elem_of_nil|Hk]. done. }
  assert (Hn : nd_id n ∈ node_ids) by (apply list_elem_of_fmap_2, Hns; left).
  destruct (visit_idle d (nd_id n) Hn Hd) as [Hd' Hk].
  destruct (IH (visit g d (nd_id n))) as [Hi Hkk]; [set_solver|done|].
  split; [done|]. intros k [[->|Hin]%elem_of_cons|Hs]; apply Hkk; [by right|by left|].
  right. by apply visit_keeps.
Qed.

(** All nodes are finished, in an order against the edges not reported. *)
Lemma back_edges_fin :
  ∃ fin, NoDup fin ∧ (∀ n, n ∈ node_ids → n ∈ fin) ∧
    (∀ l1 u l2 v, fin = l1 ++ u :: l2 → wf_edge u v → (u, v) ∉ back_edges g → v ∈ l2) ∧
    (∀ u v, (u, v) ∈ back_edges g → wf_edge u v ∧ rtc wf_edge v u).
Proof.
  assert (Hstart : dfs_idle (mkDfs ∅ ∅ [])).
  { split; [done|]. exists []. split; unfold path_of; cbn;
      [constructor|intros n; rewrite lookup_empty; set_solver..|constructor| |done|set_solver].
    intros [] ? ? ?; done. }
  unfold back_edges. set (d0 := match trigger g with Some _ => _ | None => _ end).
  assert (Hd0 : dfs_idle d0).
  { unfold d0. destruct (trigger g) as [t|] eqn:Et; [|done]. apply visit_idle; [|done].
    apply list_elem_of_fmap_2. unfold trigger in Et.
    assert (t ∈ filter (λ n, nd_kind n = Trigger) (wg_nodes g)) as [_ ?]%list_elem_of_filter; [|done].
    destruct (filter _ _) as [|x []]; [done| |done]. injection Et as ->. left. }
  destruct (visits_idle (wg_nodes g) d0) as [[Hst [fin Hd]] Hk]; [done|done|].
  set (d := foldl _ _ _) in *. destruct Hd as [_ Hg Hb Hfin Ho _ Hc]. exists fin.
  split_and!; [done| |done|done]. intros n Hn. apply Hb.
  destruct (Hk n) as [c Hcol]; [by left|]. destruct c; [|done]. apply Hg in Hcol.
  unfold path_of in Hcol. rewrite Hst in Hcol. by apply elem_of_nil in Hcol.
Qed.

Definition forward_edge (u v : string) : Prop := wf_edge u v ∧ (u, v) ∉ back_edges g.

Lemma forward_acyclic n : ¬ tc forward_edge n n.
Proof.
  destruct back_edges_fin as (fin & Hnd & Hall & Ho & _). intros Hcyc.
  assert (Hdown : ∀ u v, tc forward_edge u v → ∀ l1 l2, fin = l1 ++ u :: l2 → v ∈ l2).
  { induction 1 as [u v [He Hn]|u w v [He Hn] Ht IH]; intros l1 l2 Hf; [by eapply Ho|].
    assert (w ∈ l2) as (a & b & ->)%list_elem_of_split by by eapply Ho.
    assert (v ∈ b); [|set_solver]. apply (IH (l1 ++ u :: a) b). rewrite Hf.
    by rewrite <- app_assoc. }
  assert (Hid : n ∈ node_ids).
  { assert (Hlast : ∀ u v, tc forward_edge u v → v ∈ node_ids); [|by apply Hlast in Hcyc].
    induction 1 as [u v [[_ ?] _]|]; done. }
  apply Hall, list_elem_of_split in Hid as (l1 & l2 & Hf).
  specialize (Hdown n n Hcyc l1 l2 Hf). rewrite Hf in Hnd.
  apply NoDup_app in Hnd as (_ & _ & [Hn _]%NoDup_cons). done.
Qed.

Lemma back_edge_cycle u v : (u, v) ∈ back_edges g → wf_edge u v ∧ rtc wf_edge v u.
Proof. destruct back_edges_fin as (fin & _ & _ & _ & Hc). apply Hc. Qed.

(** So every cycle, of any part of the graph, goes through a back-edge. *)
Lemma cycle_back_edge (R : string → string → Prop) n :
  (∀ x y, R x y → wf_edge x y) → tc R n n →
  ∃ u v, (u, v) ∈ back_edges g ∧ R u v ∧ rtc R v u.
Proof.
  intros HR Hc.
  assert (Hsplit : ∀ x y, tc R x y → tc forward_edge x y ∨
    ∃ u v, (u, v) ∈ back_edges g ∧ R u v ∧ rtc R x u ∧ rtc R v y).
  { induction 1 as [x y He|x w y He Ht IH].
    - destruct (decide ((x, y) ∈ back_edges g)); [right; by exists x, y|left].
      apply tc_once. split; auto.
    - destruct (decide ((x, w) ∈ back_edges g)) as [Hb|Hb].
      + right. exists x, w. split_and!; [done|done|done|by apply tc_rtc].
      + destruct IH as [IH|(u & v & Huv & ? & Hwu & Hvy)].
        * left. eapply tc_l; [|done]. split; auto.
        * right. exists u, v. split_and!; [done|done| |done]. by eapply rtc_l. }
  destruct (Hsplit n n Hc) as [Hf|(u & v & Huv & ? & Hnu & Hvn)]; [by apply forward_acyclic in Hf|].
  exists u, v. split_and!; [done|done|]. by etrans.
Qed.
End Analysis.
