(* ===== verification/WfValidate.v ===== *)
(** * Structural validation of workflows

    [crates/tinyflows/src/validate.rs] with [validate/loops.rs],
    [validate/scatter.rs] and [validate/workdir.rs].  The checks collect errors;
    a graph is valid when none is found.  Where the code iterates over a hash
    set the order of the errors is unspecified; here it is the order of
    [elements].

    The per-kind configuration checks and the agent registry checks are
    arguments of [validate_all]: what is proved holds whatever they report. *)

From stdpp Require Import sorting.
From S2P Require Import Prelude Json GraphTypes Search Workflow WfAnalysis.
From Stdlib Require String.

Section Validate.
Context (f : Fmt).

(** ** Ids, triggers, edges *)

Fixpoint check_node_ids (seen : gset string) (nodes : list Node) : list ValidationError :=
  match nodes with
  | [] => []
  | n :: rest =>
      (if decide (nd_id n ∈ seen) then [DuplicateNodeId (nd_id n)] else []) ++
      check_node_ids ({[nd_id n]} ∪ seen) rest
  end.

Definition check_triggers (g : WorkflowGraph) : list ValidationError :=
  match nd_id <$> filter (λ n, nd_kind n = Trigger) (wg_nodes g) with
  | [] => [MissingTrigger]
  | [_] => []
  | triggers => [MultipleTriggers triggers]
  end.

Fixpoint check_edges (g : WorkflowGraph) (seen : list Edge) (edges : list Edge)
    : list ValidationError :=
  match edges with
  | [] => []
  | e :: rest =>
      (match wf_node g (from_node e) with Some _ => [] | None => [UnknownNode (from_node e)] end) ++
      (match wf_node g (to_node e) with Some _ => [] | None => [UnknownNode (to_node e)] end) ++
      (if decide (e ∈ seen) then [DuplicateEdge e] else []) ++
      check_edges g (e :: seen) rest
  end.

(** ** Error policies *)

Definition has_error_edge (g : WorkflowGraph) (node : string) : bool :=
  existsb (λ e, bool_decide (from_node e = node ∧ from_port e = "error")) (wg_edges g).

Definition check_on_error (g : WorkflowGraph) (n : Node) : list ValidationError :=
  match get "on_error" (nd_config n) >>? as_str with
  | None => []
  | Some on_error =>
      if decide (on_error = "stop" ∨ on_error = "continue") then []
      else if decide (on_error = "route") then
        if decide (nd_kind n = Void) then
          [InvalidNodeConfig (nd_id n)
             ("`void` is a terminal sink, so on_error " +:+ quoted "route" +:+
              " has nowhere to route to (an `error` edge is an outgoing edge); use " +:+
              quoted "stop" +:+ " or " +:+ quoted "continue")]
        else if has_error_edge g (nd_id n) then [] else [MissingErrorRoute (nd_id n)]
      else [InvalidOnError (nd_id n) on_error]
  end.

(** ** [void] topology *)

(** [Vec::dedup]. *)
Fixpoint dedup (l : list string) : list string :=
  match l with
  | x :: (y :: _) as rest => if decide (x = y) then dedup rest else x :: dedup rest
  | _ => l
  end.

Definition string_le (a b : string) : Prop := String.leb a b = true.
#[export] Instance string_le_dec a b : Decision (string_le a b).
Proof. unfold string_le. apply _. Defined.

Definition check_void (g : WorkflowGraph) (n : Node) : list ValidationError :=
  if decide (nd_kind n = Void) then
    let outs := dedup (merge_sort string_le (successors g (nd_id n))) in
    (match outs with
     | [] => []
     | _ => [InvalidNodeConfig (nd_id n)
               ("`void` is a terminal sink and may not have outgoing edges (found " +:+
                debug_list f outs +:+ "); remove the edge, or use a different kind if the branch is " +:+
                "meant to continue")]
     end) ++
    (if existsb (λ e, bool_decide (to_node e = nd_id n)) (wg_edges g) then []
     else [InvalidNodeConfig (nd_id n)
             ("`void` has no incoming edge, so it can never run and declares nothing; " +:+
              "wire the branch it is meant to terminate, or delete it")])
  else [].

(** ** Condition routing *)

Definition is_kind (g : WorkflowGraph) (k : NodeKind) (id : string) : bool :=
  existsb (λ n, bool_decide (nd_id n = id ∧ nd_kind n = k)) (wg_nodes g).

Definition check_condition_edge (g : WorkflowGraph) (e : Edge) : list ValidationError :=
  if is_kind g Condition (from_node e) &&
     bool_decide (from_port e ≠ "true" ∧ from_port e ≠ "false")
  then [InvalidConditionRouting (from_node e) (from_port e)] else [].

(** ** Paths ([validate/scatter.rs], [validate/loops.rs]) *)

Definition path_exists (g : WorkflowGraph) (start target : string) : bool :=
  search_total (λ n, bool_decide (n = target)) (λ n, Some (successors g n)) (edge_sources g)
    [start].

Definition path_avoiding (g : WorkflowGraph) (start target : string) (skip : string → bool)
    : bool :=
  search_total (λ n, bool_decide (n = target))
    (λ n, Some (if bool_decide (n ≠ start) && skip n then [] else successors g n))
    (edge_sources g) [start].

(** The flood of [nodes_on_cycle]: a node is marked when it is pushed. *)
Definition flood_push (acc : gset string * list string) (target : string)
    : gset string * list string :=
  if decide (target ∈ acc.1) then acc else ({[target]} ∪ acc.1, target :: acc.2).

Fixpoint flood (fuel : nat) (next : string → list string) (seen : gset string)
    (stack : list string) : gset string :=
  match fuel, stack with
  | S fuel', node :: rest =>
      let '(seen', stack') := foldl flood_push (seen, rest) (next node) in
      flood fuel' next seen' stack'
  | _, _ => seen
  end.

Definition known (g : WorkflowGraph) (ids : list string) : list string :=
  omap (λ id, nd_id <$> wf_node g id) ids.
Definition forward_next (g : WorkflowGraph) (node : string) : list string :=
  known g (successors g node).
Definition backward_next (g : WorkflowGraph) (node : string) : list string :=
  known g (from_node <$> filter (λ e, to_node e = node) (wg_edges g)).

Definition flood_from (g : WorkflowGraph) (next : string → list string) (start : string)
    : gset string :=
  match wf_node g start with
  | Some n => flood (S (length (wg_nodes g))) next {[nd_id n]} [nd_id n]
  | None => ∅
  end.

Definition nodes_on_cycle (g : WorkflowGraph) (start end_ : string) : gset string :=
  flood_from g (forward_next g) start ∩ flood_from g (backward_next g) end_.

(** ** Loops *)

Definition flag (key : string) (n : Node) : bool :=
  default false (get key (nd_config n) >>? as_bool).

Definition is_positive (v : value) : bool :=
  match as_u64 v with Some n => bool_decide (0 < n)%Z | None => false end.

(** The configuration of one [loop] node. *)
Definition check_loop_config (g : WorkflowGraph) (n : Node) : list ValidationError :=
  (match get "max_iterations" (nd_config n) with
   | Some m => if is_positive m then []
               else [InvalidNodeConfig (nd_id n) "loop `max_iterations` must be a positive integer"]
   | None => []
   end) ++
  (match get "state" (nd_config n) with
   | Some st => if is_object st then []
                else [InvalidNodeConfig (nd_id n)
                        "loop `state` must be an object with `init` and/or `update`"]
   | None => []
   end) ++
  (match get "emit" (nd_config n) with
   | Some emit =>
       if bool_decide (as_str emit ∈ [Some "items"; Some "state"; Some "both"]) then []
       else [InvalidNodeConfig (nd_id n)
               ("loop `emit` must be " +:+ quoted "items" +:+ ", " +:+ quoted "state" +:+ " or " +:+
                quoted "both" +:+ ", got " +:+ fmt_json f emit)]
   | None => []
   end) ++
  (if flag "success_port" n &&
      negb (existsb (λ e, bool_decide (from_node e = nd_id n ∧ from_port e = "success")) (wg_edges g))
   then [InvalidNodeConfig (nd_id n)
           ("loop sets `success_port: true` but nothing is wired to its `success` port, so a " +:+
            "converged loop would strand the run; wire `success` or drop the flag")]
   else []) ++
  (match get "on_exceeded" (nd_config n) with
   | Some policy =>
       if bool_decide (as_str policy ∈ [Some "error"; Some "continue"]) then []
       else [InvalidNodeConfig (nd_id n)
               ("loop `on_exceeded` must be " +:+ quoted "error" +:+ " or " +:+ quoted "continue" +:+
                ", got " +:+ fmt_json f policy)]
   | None => []
   end) ++
  (if existsb (λ e, path_exists g (to_node e) (nd_id n))
        (filter (λ e, from_node e = nd_id n ∧ from_port e = "body") (wg_edges g)) then []
   else [InvalidNodeConfig (nd_id n)
           ("loop node's `body` does not route back to the loop head, so it can never iterate; " +:+
            "wire `body` to the first node of the loop body and wire that body's last node back " +:+
            "to this loop")]).

Definition on_a_cycle (g : WorkflowGraph) (loop_edges : gset (string * string)) : gset string :=
  ⋃ ((λ e, nodes_on_cycle g e.2 e.1) <$> elements loop_edges).

Definition forward_predecessors (g : WorkflowGraph) (loop_edges : gset (string * string))
    (id : string) : list string :=
  from_node <$> filter (λ e, to_node e = id ∧ (from_node e, to_node e) ∉ loop_edges) (wg_edges g).

(** A fan-in [merge] on a cycle may wait only for nodes on a cycle. *)
Definition check_cycle_merge (g : WorkflowGraph) (loop_edges : gset (string * string))
    (cyc : gset string) (id : string) : list ValidationError :=
  let preds := forward_predecessors g loop_edges id in
  if is_kind g Merge id && bool_decide (1 < length preds) &&
     existsb (λ p, bool_decide (p ∉ cyc)) preds
  then [IllegalCycle id] else [].

Definition has_run_level_bound (g : WorkflowGraph) : bool :=
  match trigger g with
  | Some t => existsb (λ key, match get key (nd_config t) with
                              | Some v => is_positive v
                              | None => false
                              end) ["recursion_limit"; "max_node_visits"]
  | None => false
  end.

Definition check_bounded (g : WorkflowGraph) (e : string * string) : list ValidationError :=
  let '(from, to) := e in
  if is_kind g Loop to || is_kind g Loop from || negb (path_avoiding g to from (is_kind g Loop))
  then [] else [IllegalCycle to].

Definition validate_loops (g : WorkflowGraph) : list ValidationError :=
  let loop_edges := back_edges g in
  let cyc := on_a_cycle g loop_edges in
  concat (check_loop_config g <$> filter (λ n, nd_kind n = Loop) (wg_nodes g)) ++
  (if decide (loop_edges = ∅) then []
   else
     concat (check_cycle_merge g loop_edges cyc <$> elements cyc) ++
     (if has_run_level_bound g then []
      else concat (check_bounded g <$> elements loop_edges))).

(** ** Scatter regions *)

Definition of_kind (g : WorkflowGraph) (k : NodeKind) : list string :=
  nd_id <$> filter (λ n, nd_kind n = k) (wg_nodes g).

(** One walk of [region_members]: the members, and whether a gather was met. *)
Fixpoint region_loop (fuel : nat) (g : WorkflowGraph) (gathers : gset string)
    (stack : list string) (members : gset string) (reached : bool) : gset string * bool :=
  match fuel, stack with
  | S fuel', node :: rest =>
      if decide (node ∈ gathers) then region_loop fuel' g gathers rest members true
      else
        match wf_node g node with
        | None => region_loop fuel' g gathers rest members reached
        | Some n =>
            if decide (nd_id n ∈ members) then region_loop fuel' g gathers rest members reached
            else region_loop fuel' g gathers (reverse (successors g node) ++ rest)
                   ({[nd_id n]} ∪ members) reached
        end
  | _, _ => (members, reached)
  end.

(** Every edge is pushed at most once for the scatter and once for its source. *)
Definition region_members (g : WorkflowGraph) (scatter : string) (gathers : gset string)
    : gset string :=
  let '(members, reached) :=
    region_loop (S (length (successors g scatter) +
                    sum_list ((λ n, length (successors g (nd_id n))) <$> wg_nodes g)))
      g gathers (reverse (successors g scatter)) ∅ false in
  if reached then members else ∅.

Definition requires_approval (n : Node) : bool := flag "requires_approval" n.

Definition check_member (g : WorkflowGraph) (scatters : list string) (gathers voids : gset string)
    (scatter member : string) : list ValidationError :=
  (if decide (member ∈ scatters) then
     [InvalidNodeConfig member ("nested `scatter` inside the region opened by " +:+
        fmt_debug f scatter +:+ " is not supported")] else []) ++
  (if is_kind g Loop member then
     [InvalidNodeConfig member ("`loop` inside the lane body of " +:+ fmt_debug f scatter +:+
        " is not supported: loop re-entry is tracked in the node's own slot, which a lane does " +:+
        "not write")] else []) ++
  (if existsb (λ n, bool_decide (nd_id n = member) && requires_approval n) (wg_nodes g) then
     [InvalidNodeConfig member ("`requires_approval` inside the lane body of " +:+
        fmt_debug f scatter +:+ " is not supported: a resume is addressed by node id, so every " +:+
        "lane would share one approval")] else []) ++
  (if existsb (path_exists g member) (elements gathers) ||
      existsb (path_exists g member) (elements voids) then []
   else [InvalidNodeConfig member ("node is inside the lane region opened by " +:+
           fmt_debug f scatter +:+ " but has no path onward to a `gather`, so its lane output " +:+
           "would be stranded; route it through the gather")]).

Definition check_scatter (g : WorkflowGraph) (scatters : list string) (gathers voids : gset string)
    (scatter : string) : list ValidationError :=
  let members := region_members g scatter gathers in
  if decide (members = ∅) then
    [InvalidNodeConfig scatter
       ("scatter has no `gather` downstream; every lane it opens would run with nothing to " +:+
        "collect it. Wire the end of the lane body to a `gather`")]
  else concat (check_member g scatters gathers voids scatter <$> elements members).

Definition check_gather (g : WorkflowGraph) (scatters : list string) (gather : string)
    : list ValidationError :=
  if existsb (λ s, path_exists g s gather) scatters then []
  else [InvalidNodeConfig gather
          ("gather is not downstream of any `scatter`, so no lane can ever reach it and the run " +:+
           "would wait until its poll budget ran out")].

Definition validate_scatter_regions (g : WorkflowGraph) : list ValidationError :=
  let scatters := of_kind g Scatter in
  let gathers : gset string := list_to_set (of_kind g Gather) in
  let voids : gset string := list_to_set (of_kind g Void) in
  concat (check_gather g scatters <$> elements gathers) ++
  concat (check_scatter g scatters gathers voids <$> scatters).

(** ** Working directories *)

Definition DIRECTORY_KEYS : list string :=
  ["cwd"; "workdir"; "work_dir"; "working_dir"; "working_directory"; "workspace"; "directory"].

Definition honored_by (k : NodeKind) : list string :=
  match k with
  | Agent => ["cwd"; "working_dir"]
  | Shell => ["cwd"]
  | SubWorkflow | Trigger => ["workspace"]
  | _ => []
  end.

Definition advice (k : NodeKind) (key : string) : string :=
  match k with
  | Agent | Shell => "use `cwd` (this node reads `cwd`, not `" +:+ key +:+ "`)"
  | SubWorkflow =>
      "use `workspace` to re-pin the child run's workspace, not `" +:+ key +:+ "`"
  | Trigger => "use `workspace` to pin the run's workspace, not `" +:+ key +:+ "`"
  | ToolCall =>
      "a tool's working directory goes in `args.cwd`, which the tool itself reads — a top-level `"
      +:+ key +:+ "` on the node is never looked at"
  | _ =>
      "a " +:+ kind_name k +:+ " node has no working directory; put the step that needs one in an " +:+
      "`agent` or `shell` node, or re-pin the workspace on the `sub_workflow` node that runs it"
  end.

Definition validate_working_dirs (g : WorkflowGraph) : list ValidationError :=
  concat ((λ n,
    (λ key, InvalidNodeConfig (nd_id n)
       ("`" +:+ key +:+ "` is not read by a " +:+ kind_name (nd_kind n) +:+
        " node and would be silently ignored — the step would run in the run's workspace " +:+
        "instead: " +:+ advice (nd_kind n) key)) <$>
      filter (λ key, key ∉ honored_by (nd_kind n) ∧ is_Some (get key (nd_config n)))
        DIRECTORY_KEYS) <$> wg_nodes g).

(** ** Declared inputs *)

Fixpoint check_inputs (seen : gset string) (inputs : list WorkflowInput) : list ValidationError :=
  match inputs with
  | [] => []
  | i :: rest =>
      (if is_valid_input_name (in_name i) then [] else [InvalidInputName (in_name i)]) ++
      (if decide (in_name i ∈ seen) then [DuplicateInputName (in_name i)] else []) ++
      (match in_default i with
       | Some d =>
           if negb (accepts (in_ty i) d)
           then [InputDefaultTypeMismatch (in_name i) (input_type_as_str (in_ty i))]
           else if in_required i then [RequiredInputWithDefault (in_name i)] else []
       | None => []
       end) ++
      check_inputs ({[in_name i]} ∪ seen) rest
  end.

(** ** The whole validation *)

Definition validate_all (node_configs agents : WorkflowGraph → list ValidationError)
    (g : WorkflowGraph) : list ValidationError :=
  check_node_ids ∅ (wg_nodes g) ++
  check_triggers g ++
  check_edges g [] (wg_edges g) ++
  concat (check_on_error g <$> wg_nodes g) ++
  node_configs g ++
  concat (check_void g <$> wg_nodes g) ++
  concat (check_condition_edge g <$> wg_edges g) ++
  validate_loops g ++
  validate_scatter_regions g ++
  validate_working_dirs g ++
  check_inputs ∅ (wg_inputs g) ++
  agents g.

Definition validate (node_configs agents : WorkflowGraph → list ValidationError)
    (g : WorkflowGraph) : result ValidationError unit :=
  match validate_all node_configs agents g with
  | [] => Ok tt
  | err :: _ => Err err
  end.
End Validate.
