(* ===== verification/WfBuild.v ===== *)
(** * Lowering a workflow onto the graph runtime

    [crates/tinyflows/src/engine/build.rs] with [engine/build/handlers.rs] and
    [engine/build/wiring.rs]: the handler data of each node, the edges, branches,
    barriers and reliefs wired for it, and the compiled graph with the run-level
    limits of the trigger.

    What a handler does with its data is the argument [execute]
    ([WfActivation] models it). *)

From S2P Require Import Prelude Json GraphTypes Checkpoint Builder.
From S2P Require Import Search Workflow WfAnalysis WfState.

(** ** Handlers *)

(** The fields of [HandlerData] derived from the graph. *)
Record HandlerData := mkHandler {
  hd_node : Node;
  hd_incoming : list (string * string);
  hd_back_incoming : list (string * string);
  hd_routing : HandlerRouting;
  hd_plain_targets : list string;
  hd_plain_targets_by_port : list (string * list string);
  hd_gather_nodes : gset string;
  hd_has_error_edge : bool;
  hd_is_trigger : bool;
  hd_node_timeout : option Z
}.

Definition is_back_edge (loop_edges : gset (string * string)) (e : Edge) : Prop :=
  (from_node e, to_node e) ∈ loop_edges.
#[export] Instance is_back_edge_dec le e : Decision (is_back_edge le e).
Proof. unfold is_back_edge. apply _. Defined.

Definition edge_source (e : Edge) : string * string := (from_node e, from_port e).

Definition handler_data (g : WorkflowGraph) (loop_edges : gset (string * string))
    (node_timeout : option Z) (n : Node) : HandlerData :=
  mkHandler n
    (edge_source <$> filter (λ e, to_node e = nd_id n ∧ ¬ is_back_edge loop_edges e) (wg_edges g))
    (edge_source <$> filter (λ e, to_node e = nd_id n ∧ is_back_edge loop_edges e) (wg_edges g))
    (handler_routing g (nd_id n))
    (concat ((outgoing_by_port g (nd_id n)).*2))
    (outgoing_by_port g (nd_id n))
    (list_to_set (nd_id <$> filter (λ n, nd_kind n = Gather) (wg_nodes g)))
    (existsb (λ e, bool_decide (from_node e = nd_id n ∧ from_port e = "error")) (wg_edges g))
    (bool_decide (nd_kind n = Trigger))
    node_timeout.

Notation WfBuilder := (GraphBuilder value value).

Definition register_handlers (execute : HandlerData → NodeHandler value value)
    (g : WorkflowGraph) (loop_edges : gset (string * string)) (node_timeout : option Z)
    (b : WfBuilder) : WfBuilder :=
  foldl (λ b n, add_node (nd_id n) (execute (handler_data g loop_edges node_timeout n)) b) b
    (wg_nodes g).

(** ** Wiring *)

(** How many forward edges enter a node. *)
Definition incoming_count (g : WorkflowGraph) (loop_edges : gset (string * string)) (id : string)
    : nat :=
  length (filter (λ e, to_node e = id ∧ ¬ is_back_edge loop_edges e) (wg_edges g)).

Definition is_fan_in (g : WorkflowGraph) (loop_edges : gset (string * string)) (e : Edge) : Prop :=
  ¬ is_back_edge loop_edges e ∧ 1 < incoming_count g loop_edges (to_node e).
#[export] Instance is_fan_in_dec g le e : Decision (is_fan_in g le e).
Proof. unfold is_fan_in. apply _. Defined.

(** The router of a branch reads the port the node recorded in the state. *)
Definition port_router (node : string) (state : value) : string :=
  emitted_port (node_slot state node).
Definition filter_router (node port : string) (state : value) : string :=
  if decide (emitted_port (node_slot state node) = port) then port else END.

(** A node that follows its edges. *)
Definition wire_plain (g : WorkflowGraph) (loop_edges : gset (string * string)) (id : string)
    (edges : list Edge) (b : WfBuilder) : WfBuilder :=
  match edges with
  | [e] =>
      if decide (from_port e = "main") then
        if decide (is_fan_in g loop_edges e) then add_waiting_edge id (to_node e) b
        else add_edge id (to_node e) b
      else
        add_conditional_edges id (filter_router id (from_port e))
          [(from_port e, to_node e); (END, END)] b
  | _ => add_conditional_edges id (port_router id) ((λ e, (from_port e, to_node e)) <$> edges) b
  end.

Definition wire_routing (g : WorkflowGraph) (loop_edges : gset (string * string)) (id : string)
    (b : WfBuilder) : WfBuilder :=
  match outgoing g id with
  | [] => add_edge id END b
  | edges =>
      match handler_routing g id with
      | FanOut dests => with_unconditional_fanout id dests b
      | PortCommand groups => with_command_destinations id (concat (groups.*2)) b
      | Plain => wire_plain g loop_edges id edges b
      end
  end.

Definition gated (n : Node) : bool :=
  default false (get "requires_approval" (nd_config n) >>? as_bool).

Definition wire_node (g : WorkflowGraph) (loop_edges : gset (string * string)) (b : WfBuilder)
    (n : Node) : WfBuilder :=
  wire_routing g loop_edges (nd_id n) (if gated n then mark_interrupt (nd_id n) b else b).

Definition wire_relief (g : WorkflowGraph) (merge_id : string) (b : WfBuilder)
    (predecessor : string) : WfBuilder :=
  match find_conditional_brancher g predecessor merge_id with
  | Some brancher => add_barrier_relief brancher predecessor merge_id b
  | None => b
  end.

Definition wire_reliefs (g : WorkflowGraph) (loop_edges : gset (string * string)) (b : WfBuilder)
    (merge : Node) : WfBuilder :=
  if decide (incoming_count g loop_edges (nd_id merge) ≤ 1) then b
  else foldl (wire_relief g (nd_id merge)) b
         (conditional_predecessors g (nd_id merge) loop_edges).

Definition wire_graph (b : WfBuilder) (g : WorkflowGraph) (trigger_id : string)
    (loop_edges : gset (string * string)) : WfBuilder :=
  let b := set_entry trigger_id b in
  let b := foldl (wire_node g loop_edges) b (wg_nodes g) in
  foldl (wire_reliefs g loop_edges) b (wg_nodes g).

(** ** Run-level limits *)

Definition MAX_GRAPH_CONCURRENCY : nat := 256.
Definition DEFAULT_MAX_ITERATIONS : Z := 25.

(** A positive [u64] of the trigger's configuration. *)
Definition positive_u64 (key : string) (config : value) : option Z :=
  match get key config >>? as_u64 with
  | Some n => if decide (0 < n)%Z then Some n else None
  | None => None
  end.

Definition max_concurrency_of (t : Node) : option nat :=
  (λ n, Nat.min (Z.to_nat n) MAX_GRAPH_CONCURRENCY) <$> positive_u64 "max_concurrency" (nd_config t).

Definition saturating_add (a b : Z) : Z := Z.min (a + b) u64_max.
Definition saturating_mul (a b : Z) : Z := Z.min (a * b) u64_max.

(** The sum wraps, as [u64] sums do in release builds. *)
Definition loop_budget (g : WorkflowGraph) : Z :=
  (foldr Z.add 0 ((λ n, saturating_add
     (default DEFAULT_MAX_ITERATIONS (get "max_iterations" (nd_config n) >>? as_u64)) 1) <$>
     filter (λ n, nd_kind n = Loop) (wg_nodes g)) mod 2 ^ 64)%Z.

Definition derived_limit (g : WorkflowGraph) : option Z :=
  let budget := loop_budget g in
  let size := Z.of_nat (length (wg_nodes g)) in
  if decide (0 < budget)%Z then Some (saturating_add (saturating_mul budget size) size) else None.

Definition limit_builder (g : WorkflowGraph) (t : Node) (b : WfBuilder) : WfBuilder :=
  let b := match max_concurrency_of t with Some l => with_max_concurrency l b | None => b end in
  match positive_u64 "recursion_limit" (nd_config t) with
  | Some l => with_recursion_limit (Z.to_nat l) b
  | None => match derived_limit g with
            | Some l => with_recursion_limit (Z.to_nat l) b
            | None => b
            end
  end.

(** The policy of [max_node_visits]. *)
Definition visit_policy (t : Node) : option RecursionPolicy :=
  (λ max_visits,
     let defaults := RecursionPolicy_default in
     mkPolicy (max_depth defaults) (Some (Z.to_nat max_visits))
       (match positive_u64 "recursion_limit" (nd_config t) with
        | Some l => Nat.max (max_total_steps defaults) (Z.to_nat l)
        | None => max_total_steps defaults
        end)) <$> positive_u64 "max_node_visits" (nd_config t).

(** ** The graph *)

Definition build_builder (execute : HandlerData → NodeHandler value value) (seq : N)
    (g : WorkflowGraph) (t : Node) : WfBuilder :=
  let loop_edges := back_edges g in
  let b := set_reducer merge_reducer (with_parallel true (builder_new seq)) in
  let b := limit_builder g t b in
  let b := register_handlers execute g loop_edges
             (positive_u64 "node_timeout_secs" (nd_config t)) b in
  wire_graph b g (nd_id t) loop_edges.

Definition build_graph {C} (execute : HandlerData → NodeHandler value value) (seq : N)
    (checkpointer : CheckpointerOps value C) (journal : bool) (g : WorkflowGraph)
    : result EngineError (CompiledGraph value value C * string) :=
  match trigger g with
  | None => Err (EValidation MissingTrigger)
  | Some t =>
      match compile (build_builder execute seq g t) with
      | Err e => Err (ECapability (error_to_string e))
      | Ok cg =>
          let cg := set_cg_checkpointer (Some checkpointer) cg in
          let cg := if journal then set_cg_journal true cg else cg in
          let cg := match visit_policy t with
                    | Some p => set_cg_recursion_policy p cg
                    | None => cg
                    end in
          Ok (cg, nd_id t)
      end
  end.
