(* ===== verification/WfBuildFacts.v ===== *)
(** * What the lowering produces

    The port groups of a node are its edges by port, each node's routing is
    wired as its edge shape says, and the result compiles. *)
From stdpp Require Import sorting.
From S2P Require Import Prelude Json GraphTypes Checkpoint Builder Search Workflow WfAnalysis WfState WfBuild.
From S2P Require Import WfValidate.

(** ** Port groups *)

Definition on_port (p : string) (es : list Edge) : list Edge := filter (λ e, from_port e = p) es.

Definition group_of (p : string) (groups : list (string * list string)) : option (list string) :=
  snd <$> find_first (λ g, bool_decide (g.1 = p)) groups.

Lemma group_of_cons p q ts groups :
  group_of p ((q, ts) :: groups) = if decide (q = p) then Some ts else group_of p groups.
Proof.
  unfold group_of, find_first. cbn. destruct (decide (q = p)) as [->|Hne].
  - by rewrite bool_decide_eq_true_2.
  - by rewrite bool_decide_eq_false_2.
Qed.

Lemma group_of_add p gs e :
  group_of p (add_to_port gs e) =
  if decide (from_port e = p) then Some (default [] (group_of p gs) ++ [to_node e])
  else group_of p gs.
Proof.
  induction gs as [|[q ts] gs IH]; cbn [add_to_port].
  - rewrite group_of_cons. case_decide; done.
  - destruct (decide (q = from_port e)) as [->|Hq]; rewrite !group_of_cons.
    + by case_decide.
    + rewrite IH. destruct (decide (q = p)) as [->|]; [by rewrite decide_False|done].
Qed.

Lemma add_to_port_keys gs e :
  (add_to_port gs e).*1 = if decide (from_port e ∈ gs.*1) then gs.*1 else gs.*1 ++ [from_port e].
Proof.
  induction gs as [|[q ts] gs IH]; cbn [add_to_port]; [done|].
  rewrite fmap_cons. cbn [fst]. destruct (decide (q = from_port e)) as [->|Hq].
  { rewrite fmap_cons. cbn [fst]. rewrite decide_True; [done|left]. }
  rewrite fmap_cons. cbn [fst]. rewrite IH. destruct (decide (from_port e ∈ gs.*1)).
  - rewrite decide_True; [done|by right].
  - rewrite decide_False; [done|]. intros [Heq|?]%elem_of_cons; [by rewrite Heq in Hq|done].
Qed.

Lemma add_to_port_size gs e :
  sum_list (length ∘ snd <$> add_to_port gs e) = S (sum_list (length ∘ snd <$> gs)).
Proof.
  induction gs as [|[q ts] gs IH]; cbn [add_to_port]; [done|].
  case_decide; cbn in *; [rewrite length_app; cbn; lia|lia].
Qed.

Lemma port_groups es :
  NoDup ((foldl add_to_port [] es).*1) ∧
  (∀ p, group_of p (foldl add_to_port [] es) =
        match on_port p es with [] => None | l => Some (to_node <$> l) end) ∧
  sum_list (length ∘ snd <$> foldl add_to_port [] es) = length es.
Proof.
  induction es as [|e es (Hnd & Hg & Hs)] using rev_ind; [by split_and!; [constructor| |]|].
  rewrite foldl_snoc. split_and!.
  - rewrite add_to_port_keys. case_decide; [done|]. apply NoDup_app. split_and!; [done| |].
    + intros x Hx ->%list_elem_of_singleton. done.
    + apply NoDup_singleton.
  - intros p. rewrite group_of_add, Hg. unfold on_port. rewrite filter_app, filter_cons, filter_nil.
    case_decide as Hp; [|by rewrite app_nil_r].
    destruct (filter _ es) as [|e' l]; [done|]. cbn. by rewrite fmap_app.
  - rewrite add_to_port_size, Hs, length_app. cbn. lia.
Qed.

Lemma group_of_elem p ts gs : NoDup gs.*1 → (p, ts) ∈ gs → group_of p gs = Some ts.
Proof.
  induction gs as [|[q us] gs IH]; cbn; [by intros _ []%elem_of_nil|].
  intros [Hq Hnd]%NoDup_cons [[= -> ->]|Hin]%elem_of_cons; rewrite group_of_cons.
  - by rewrite decide_True.
  - rewrite decide_False; [by apply IH|]. intros ->. apply Hq. by apply (list_elem_of_fmap_2 fst) in Hin.
Qed.

Section Wiring.
Context (g : WorkflowGraph).
Notation ids := (node_ids g).

Lemma port_successors_on_port id p : port_successors g id p = to_node <$> on_port p (outgoing g id).
Proof.
  unfold port_successors, on_port, outgoing. f_equal. rewrite list_filter_filter.
  apply filter_ext_in. naive_solver.
Qed.

Lemma outgoing_group id p :
  group_of p (outgoing_by_port g id) =
  match port_successors g id p with [] => None | l => Some l end.
Proof.
  unfold outgoing_by_port. rewrite (proj1 (proj2 (port_groups _))), port_successors_on_port.
  by destruct (on_port p (outgoing g id)).
Qed.

(** ** The shapes of a node *)

Lemma handler_routing_fanout id ts :
  handler_routing g id = FanOut ts →
  ∃ p, outgoing_by_port g id = [(p, ts)] ∧ ts = successors g id.
Proof.
  unfold handler_routing. destruct (outgoing_by_port g id) as [|[p us] [|[] ?]] eqn:E; [done| |].
  - case_decide as H2; [|done]. intros [= <-]. exists p. split; [done|].
    assert (Hall : ∀ e, e ∈ outgoing g id → from_port e = p).
    { intros e He. pose proof (outgoing_group id (from_port e)) as Hg. rewrite E, group_of_cons in Hg.
      case_decide; [done|]. cbn in Hg. exfalso. rewrite port_successors_on_port in Hg.
      destruct (on_port (from_port e) (outgoing g id)) as [|x l] eqn:Eo; [|done].
      assert (e ∈ on_port (from_port e) (outgoing g id)) as He'
        by (apply list_elem_of_filter; by split).
      rewrite Eo in He'. by apply elem_of_nil in He'. }
    pose proof (outgoing_group id p) as Hg. rewrite E, group_of_cons, decide_True in Hg by done.
    rewrite port_successors_on_port in Hg. unfold on_port in Hg.
    rewrite filter_all in Hg by done.
    unfold successors. destruct (to_node <$> outgoing g id) as [|x l] eqn:Eo; [done|].
    injection Hg as ->. done.
  - by case_decide.
Qed.

Lemma handler_routing_command id gs :
  handler_routing g id = PortCommand gs → gs = outgoing_by_port g id.
Proof.
  unfold handler_routing. destruct (outgoing_by_port g id) as [|[p us] [|[] ?]] eqn:E; [done| |].
  - by case_decide.
  - case_decide; [done|]. by intros [= <-].
Qed.

(** ** The wiring of a node *)

Context (le : gset (string * string)).

Definition plain_routes (es : list Edge) : gmap string NodeId :=
  foldl (λ m kv, <[kv.1 := kv.2]> m) ∅ ((λ e, (from_port e, to_node e)) <$> es).

Definition wired (b : WfBuilder) (id : string) : Prop :=
  match outgoing g id, handler_routing g id with
  | [], _ => gb_edges b !! id = Some END ∧ gb_branches b !! id = None ∧ id ∉ gb_command_nodes b
  | _, FanOut _ | _, PortCommand _ => gb_edges b !! id = None ∧ gb_branches b !! id = None
  | [e], Plain =>
      id ∉ gb_command_nodes b ∧
      if decide (from_port e = "main")
      then gb_edges b !! id = Some (to_node e) ∧ gb_branches b !! id = None
      else gb_edges b !! id = None ∧
           gb_branches b !! id =
             Some (mkBranch (filter_router id (from_port e))
                     (<[END := END]> (<[from_port e := to_node e]> ∅)))
  | es, Plain =>
      id ∉ gb_command_nodes b ∧ gb_edges b !! id = None ∧
      gb_branches b !! id = Some (mkBranch (port_router id) (plain_routes es))
  end.

(** What the wiring of one node leaves alone. *)
Record same_elsewhere (id : string) (b b' : WfBuilder) : Prop := {
  se_edges : ∀ k, k ≠ id → gb_edges b' !! k = gb_edges b !! k;
  se_branches : ∀ k, k ≠ id → gb_branches b' !! k = gb_branches b !! k;
  se_command : ∀ k, k ≠ id → k ∈ gb_command_nodes b' ↔ k ∈ gb_command_nodes b;
  se_nodes : gb_nodes b' = gb_nodes b;
  se_reducer : gb_reducer b' = gb_reducer b;
  se_limit : gb_recursion_limit b' = gb_recursion_limit b;
  se_caps : gb_node_concurrency b' = gb_node_concurrency b
}.

Ltac crush_same :=
  split; cbn; intros; try rewrite lookup_insert_ne by done; done || set_solver.

Lemma wire_routing_same id b : same_elsewhere id b (wire_routing g le id b).
Proof.
  unfold wire_routing. destruct (outgoing g id) as [|e es]; [crush_same|].
  destruct (handler_routing g id); [|crush_same..]. unfold wire_plain.
  destruct es as [|e' es]; [|crush_same].
  repeat case_decide; crush_same.
Qed.

Lemma wire_routing_wired id b :
  gb_edges b !! id = None → gb_branches b !! id = None → id ∉ gb_command_nodes b →
  wired (wire_routing g le id b) id.
Proof.
  intros He Hb Hc. unfold wired, wire_routing.
  destruct (outgoing g id) as [|e es]; [cbn; by rewrite lookup_insert_eq|].
  destruct (handler_routing g id); cbn; [|by destruct es|by destruct es].
  destruct es as [|e' es]; cbn; [|by rewrite lookup_insert_eq].
  split; repeat case_decide; cbn; rewrite ?lookup_insert_eq; done.
Qed.

Lemma wired_ext b b' id :
  gb_edges b' !! id = gb_edges b !! id → gb_branches b' !! id = gb_branches b !! id →
  (id ∈ gb_command_nodes b' ↔ id ∈ gb_command_nodes b) → wired b id → wired b' id.
Proof.
  intros He Hb Hc. unfold wired. rewrite He, Hb.
  destruct (outgoing g id) as [|e [|e' es]], (handler_routing g id); naive_solver.
Qed.

(** ** The whole graph *)

(** What validation and the reserved names give. *)
Record well_linked : Prop := {
  wl_ids : NoDup ids;
  wl_edges : ∀ e, e ∈ wg_edges g → from_node e ∈ ids ∧ to_node e ∈ ids;
  wl_start : START ∉ ids;
  wl_end : END ∉ ids
}.

(** A builder in which the nodes [W] are wired. *)
Record lowered (tid : string) (W : list string) (b : WfBuilder) : Prop := {
  lo_wired : ∀ id, id ∈ W → wired b id;
  lo_fresh : ∀ id, id ∉ W → id ≠ START →
    gb_edges b !! id = None ∧ gb_branches b !! id = None ∧ id ∉ gb_command_nodes b;
  lo_start : gb_edges b !! START = Some tid ∧ gb_branches b !! START = None ∧
    START ∉ gb_command_nodes b;
  lo_waiting : ∀ n req, gb_waiting b !! n = Some req → n ∈ ids ∧ ∀ p, p ∈ req → p ∈ ids;
  lo_nodes : ∀ id, is_Some (gb_nodes b !! id) ↔ id ∈ ids;
  lo_reducer : gb_reducer b = Some merge_reducer;
  lo_caps : gb_node_concurrency b = ∅
}.

Context (Hwl : well_linked).

Lemma outgoing_target id e : e ∈ outgoing g id → to_node e ∈ ids.
Proof. intros [He _]%elem_of_outgoing. by apply Hwl. Qed.

Lemma wire_routing_waiting id b n req :
  id ∈ ids → (∀ n req, gb_waiting b !! n = Some req → n ∈ ids ∧ ∀ p, p ∈ req → p ∈ ids) →
  gb_waiting (wire_routing g le id b) !! n = Some req → n ∈ ids ∧ ∀ p, p ∈ req → p ∈ ids.
Proof.
  intros Hid Hb. unfold wire_routing. pose proof (outgoing_target id) as Ht.
  destruct (outgoing g id) as [|e es]; [apply Hb|].
  destruct (handler_routing g id); cbn; [|apply Hb..].
  destruct es as [|e' es]; [|apply Hb]. cbn. repeat case_decide; [|apply Hb..].
  cbn. rewrite lookup_insert_Some. intros [[<- <-]|[_ Hreq]]; [|by eapply Hb].
  split; [apply Ht; left|]. intros p [->%elem_of_singleton|Hp]%elem_of_union; [done|].
  destruct (gb_waiting b !! to_node e) as [r|] eqn:E; [|cbn in Hp; set_solver].
  by eapply Hb in E as [_ E]; apply E.
Qed.

Lemma lowered_step tid W b n :
  n ∈ wg_nodes g → nd_id n ∉ W → lowered tid W b → lowered tid (nd_id n :: W) (wire_node g le b n).
Proof.
  intros Hn HW [Hw Hf Hs Hwt Hnd Hr Hc]. unfold wire_node.
  assert (Hin : nd_id n ∈ ids) by by apply list_elem_of_fmap_2.
  assert (Hne : nd_id n ≠ START) by (intros He; apply (wl_start Hwl); by rewrite <- He).
  set (b1 := if gated n then _ else b).
  assert (gb_edges b1 = gb_edges b ∧ gb_branches b1 = gb_branches b ∧
    gb_command_nodes b1 = gb_command_nodes b ∧ gb_waiting b1 = gb_waiting b ∧
    gb_nodes b1 = gb_nodes b ∧ gb_reducer b1 = gb_reducer b ∧
    gb_node_concurrency b1 = gb_node_concurrency b) as (E1 & E2 & E3 & E4 & E5 & E6 & E7)
    by (unfold b1; by destruct (gated n)).
  destruct (wire_routing_same (nd_id n) b1) as [S1 S2 S3 S4 S5 _ S7].
  destruct (Hf _ HW Hne) as (F1 & F2 & F3). split.
  - intros id [->|Hid]%elem_of_cons; [apply wire_routing_wired; by rewrite ?E1, ?E2, ?E3|].
    assert (id ≠ nd_id n) by (intros ->; done).
    apply (wired_ext b); [by rewrite S1, E1|by rewrite S2, E2|by rewrite S3, E3|by apply Hw].
  - intros id [Hid1 Hid2]%not_elem_of_cons Hst.
    rewrite S1, S2, S3, E1, E2, E3 by done. by apply Hf.
  - rewrite S1, S2, S3, E1, E2, E3 by done. done.
  - intros m req. apply wire_routing_waiting; [done|]. by rewrite E4.
  - intros id. by rewrite S4, E5.
  - by rewrite S5, E6.
  - by rewrite S7, E7.
Qed.

Lemma lowered_nodes tid ns : ∀ W b,
  ns ⊆ wg_nodes g → NoDup (nd_id <$> ns) → (∀ n, n ∈ ns → nd_id n ∉ W) → lowered tid W b →
  ∃ W', lowered tid W' (foldl (wire_node g le) b ns) ∧
    ∀ id, id ∈ W' ↔ id ∈ W ∨ id ∈ nd_id <$> ns.
Proof.
  induction ns as [|n ns IH]; intros W b Hsub Hnd HW Hb.
  { exists W. split; [done|]. intros id. cbn. set_solver. }
  apply NoDup_cons in Hnd as [Hn Hnd]. cbn [foldl].
  destruct (IH (nd_id n :: W) (wire_node g le b n)) as (W' & Hl & Hm); [set_solver|done| | |].
  - intros m Hm [He|He]%elem_of_cons; [|by eapply HW; [right|]].
    apply Hn. rewrite <- He. by apply list_elem_of_fmap_2.
  - apply lowered_step; [apply Hsub; left|apply HW; left|done].
  - exists W'. split; [done|]. intros id. rewrite Hm, fmap_cons, !elem_of_cons. naive_solver.
Qed.

(** Reliefs only touch the list of reliefs. *)
Lemma wire_reliefs_keep b n : wire_reliefs g le b n = set_gb_barrier_reliefs
  (gb_barrier_reliefs (wire_reliefs g le b n)) b.
Proof.
  unfold wire_reliefs. case_decide; [by destruct b|].
  assert (∀ ps b, foldl (wire_relief g (nd_id n)) b ps = set_gb_barrier_reliefs
    (gb_barrier_reliefs (foldl (wire_relief g (nd_id n)) b ps)) b) as Hk; [|apply Hk].
  induction ps as [|p ps IH]; intros b0; [by destruct b0|]. cbn. rewrite IH at 1.
  unfold wire_relief. by destruct (find_conditional_brancher _ _ _), b0.
Qed.

Lemma wire_all_reliefs_keep ns : ∀ b, ∃ rs,
  foldl (wire_reliefs g le) b ns = set_gb_barrier_reliefs rs b.
Proof.
  induction ns as [|n ns IH]; intros b; [exists (gb_barrier_reliefs b); by destruct b|].
  cbn. destruct (IH (wire_reliefs g le b n)) as [rs ->]. rewrite wire_reliefs_keep.
  exists rs. done.
Qed.

Lemma lowered_reliefs tid W b rs : lowered tid W b → lowered tid W (set_gb_barrier_reliefs rs b).
Proof. by intros [? ? ? ? ? ? ?]; split. Qed.

Lemma plain_routes_target es label target :
  plain_routes es !! label = Some target → ∃ e, e ∈ es ∧ from_port e = label ∧ to_node e = target.
Proof.
  unfold plain_routes. induction es as [|e es IH] using rev_ind; [by cbn; rewrite lookup_empty|].
  rewrite fmap_app, foldl_app. cbn. rewrite lookup_insert_Some.
  intros [[<- <-]|[_ H']]; [exists e; set_solver|].
  destruct (IH H') as (e' & ? & ? & ?). exists e'. set_solver.
Qed.

Lemma wired_edge b id to :
  wired b id → gb_edges b !! id = Some to → to = END ∨ to ∈ ids.
Proof.
  unfold wired. pose proof (outgoing_target id) as Ht.
  destruct (outgoing g id) as [|e [|e' es]]; [naive_solver| |].
  - destruct (handler_routing g id); [|naive_solver..]. intros [_ Hb].
    case_decide; [|naive_solver]. destruct Hb as [-> _]. intros [= <-]. right. apply Ht. left.
  - destruct (handler_routing g id); naive_solver.
Qed.

Lemma wired_branch b id br :
  wired b id → gb_branches b !! id = Some br →
  gb_edges b !! id = None ∧ ∀ l t, branch_routes br !! l = Some t → t = END ∨ t ∈ ids.
Proof.
  unfold wired. pose proof (outgoing_target id) as Ht.
  destruct (outgoing g id) as [|e [|e' es]] eqn:Eo; [naive_solver congruence| |].
  - destruct (handler_routing g id); [|naive_solver congruence..]. intros [_ Hb].
    case_decide; [naive_solver congruence|]. destruct Hb as [He ->]. intros [= <-].
    split; [done|]. cbn. intros l t. rewrite !lookup_insert_Some, lookup_empty.
    intros [[_ <-]|[_ [[_ <-]|[_ ?]]]]; [by left|right; apply Ht; left|done].
  - destruct (handler_routing g id); [|naive_solver congruence..]. intros (_ & He & ->) [= <-].
    split; [done|]. cbn [branch_routes]. intros l t (e0 & He0 & _ & <-)%plain_routes_target.
    right. by apply Ht.
Qed.

Lemma wired_command b id :
  wired b id → id ∈ gb_command_nodes b → gb_edges b !! id = None ∧ gb_branches b !! id = None.
Proof.
  unfold wired. destruct (outgoing g id) as [|e [|e' es]], (handler_routing g id); naive_solver.
Qed.

Lemma lowered_wf {C} tid W b :
  tid ∈ ids → (∀ id, id ∈ W ↔ id ∈ ids) → lowered tid W b →
  graph_wf (from_parts (C := C) b tid merge_reducer).
Proof.
  intros Htid HW [Hw Hf [Hs1 [Hs2 Hs3]] Hwt Hnd Hr _].
  assert (Hcase : ∀ id, id ∈ ids ∨ id ∉ W).
  { intros id. destruct (decide (id ∈ ids)); [by left|right; by rewrite HW]. }
  assert (Hstart : ∀ id, id ∈ ids → id ≠ START ∧ id ≠ END).
  { intros id Hid. split; intros ->; [by apply (wl_start Hwl)|by apply (wl_end Hwl)]. }
  split; cbn.
  - rewrite Hnd. split_and!; [done|by apply Hstart|done].
  - intros from to He. rewrite !Hnd. destruct (decide (from = START)) as [->|Hne].
    + rewrite Hs1 in He. injection He as <-. split_and!; [by apply Hstart|done|by left|by right].
    + destruct (Hcase from) as [Hin|Hout]; [|by destruct (Hf _ Hout Hne) as [? _]; congruence].
      assert (to = END ∨ to ∈ ids) as Hto by (eapply wired_edge; [|done]; by apply Hw, HW).
      split_and!; [|by apply Hstart|by right|done].
      destruct Hto as [->|Hto]; [done|by apply Hstart].
  - intros from br Hb. rewrite Hnd. destruct (decide (from = START)) as [->|Hne]; [congruence|].
    destruct (Hcase from) as [Hin|Hout]; [|destruct (Hf _ Hout Hne) as (_ & ? & _); congruence].
    destruct (wired_branch b from br) as [He Ht]; [by apply Hw, HW|done|].
    split_and!; [done|done|]. intros l t Hl. rewrite Hnd. by eapply Ht.
  - intros n req Hn. rewrite Hnd. destruct (Hwt n req Hn) as [? Hp]. split; [done|].
    intros p. rewrite Hnd. apply Hp.
  - intros n Hc. rewrite Hnd. destruct (decide (n = START)) as [->|Hne]; [done|].
    destruct (Hcase n) as [Hin|Hout]; [|by destruct (Hf _ Hout Hne) as (_ & _ & ?)].
    split; [done|]. eapply wired_command; [|done]. by apply Hw, HW.
Qed.
End Wiring.

(** ** [build_graph] *)

Lemma register_handlers_nodes execute g le nt b id :
  is_Some (gb_nodes (register_handlers execute g le nt b) !! id) ↔
  id ∈ node_ids g ∨ is_Some (gb_nodes b !! id).
Proof.
  unfold register_handlers, node_ids. revert b. induction (wg_nodes g) as [|n ns IH]; intros b; cbn.
  { set_solver. }
  rewrite IH. cbn. rewrite lookup_insert_is_Some, elem_of_cons.
  destruct (decide (nd_id n = id)); naive_solver.
Qed.

Lemma register_handlers_keep execute g le nt b :
  register_handlers execute g le nt b =
    set_gb_nodes (gb_nodes (register_handlers execute g le nt b)) b.
Proof.
  unfold register_handlers. revert b. induction (wg_nodes g) as [|n ns IH]; intros b; cbn.
  { by destruct b. }
  rewrite IH at 1. by destruct b.
Qed.

Lemma trigger_id g t : trigger g = Some t → nd_id t ∈ node_ids g.
Proof.
  unfold trigger. intros Et. apply list_elem_of_fmap_2.
  assert (t ∈ filter (λ n, nd_kind n = Trigger) (wg_nodes g)) as [_ ?]%list_elem_of_filter; [|done].
  destruct (filter _ _) as [|x []]; [done| |done]. injection Et as ->. left.
Qed.

Lemma build_lowered execute seq g t :
  well_linked g → trigger g = Some t →
  ∃ W, lowered g (nd_id t) W (build_builder execute seq g t) ∧ ∀ id, id ∈ W ↔ id ∈ node_ids g.
Proof.
  intros Hwl Ht. unfold build_builder, wire_graph.
  set (b0 := limit_builder g t _). set (nt := positive_u64 _ _).
  assert (Hb0 : gb_edges b0 = ∅ ∧ gb_branches b0 = ∅ ∧ gb_command_nodes b0 = ∅ ∧ gb_waiting b0 = ∅ ∧
    gb_nodes b0 = ∅ ∧ gb_reducer b0 = Some merge_reducer ∧ gb_node_concurrency b0 = ∅).
  { unfold b0, limit_builder. destruct (max_concurrency_of t), (positive_u64 "recursion_limit" _);
      [done|destruct (derived_limit g); done|done|destruct (derived_limit g); done]. }
  destruct Hb0 as (E1 & E2 & E3 & E4 & E5 & E6 & E7).
  set (b1 := set_entry _ _).
  assert (Hb1 : lowered g (nd_id t) [] b1).
  { unfold b1. rewrite register_handlers_keep. split; cbn; rewrite ?E1, ?E2, ?E3, ?E4.
    - intros id []%elem_of_nil.
    - intros id _ Hid. rewrite lookup_insert_ne by done. rewrite !lookup_empty. set_solver.
    - rewrite lookup_insert_eq, lookup_empty. set_solver.
    - intros n req H. by rewrite lookup_empty in H.
    - intros id. rewrite register_handlers_nodes, E5, lookup_empty, is_Some_alt. naive_solver.
    - done.
    - done. }
  destruct (lowered_nodes g (back_edges g) Hwl (nd_id t) (wg_nodes g) [] b1) as (W & Hl & HW);
    [done|apply Hwl|intros n _ []%elem_of_nil|done|].
  destruct (wire_all_reliefs_keep g (back_edges g) (wg_nodes g)
    (foldl (wire_node g (back_edges g)) b1 (wg_nodes g))) as [rs ->].
  exists W. split; [by apply lowered_reliefs|]. intros id. rewrite HW. set_solver.
Qed.

(** * What validation guarantees

    The facts about a workflow in which no error was found. *)

Lemma concat_nil {A B} (f : A → list B) l : concat (f <$> l) = [] ↔ ∀ x, x ∈ l → f x = [].
Proof.
  induction l as [|x l IH]; cbn; [set_solver|]. rewrite app_nil, IH. setoid_rewrite elem_of_cons.
  naive_solver.
Qed.

Lemma check_node_ids_nil ns : ∀ seen, check_node_ids seen ns = [] →
  NoDup (nd_id <$> ns) ∧ ∀ n, n ∈ ns → nd_id n ∉ seen.
Proof.
  induction ns as [|n ns IH]; intros seen Hc; cbn in *; [split; [constructor|set_solver]|].
  apply app_nil in Hc as [Hn [Hnd Hs]%IH]. case_decide as Hin; [done|]. split.
  - constructor; [|done]. intros (m & Heq & Hm)%list_elem_of_fmap. apply (Hs m Hm). set_solver.
  - intros m [->|Hm]%elem_of_cons; [done|]. specialize (Hs m Hm). set_solver.
Qed.

Lemma check_triggers_nil g : check_triggers g = [] → ∃ t, trigger g = Some t.
Proof.
  unfold check_triggers, trigger. destruct (filter _ _) as [|t [|]]; cbn; [done| |done].
  by exists t.
Qed.

Lemma wf_node_Some g id : is_Some (wf_node g id) ↔ id ∈ node_ids g.
Proof.
  pose proof (wf_node_id g id) as H. destruct (wf_node g id) as [n|]; cbn in H.
  - split; [|done]. intros _. by case_decide.
  - case_decide; [done|]. split; [by intros [? ?]|done].
Qed.

Lemma check_edges_nil g es : ∀ seen, check_edges g seen es = [] →
  NoDup es ∧ ∀ e, e ∈ es → from_node e ∈ node_ids g ∧ to_node e ∈ node_ids g ∧ e ∉ seen.
Proof.
  induction es as [|e es IH]; intros seen Hc; cbn in Hc; [split; [constructor|set_solver]|].
  apply app_nil in Hc as [Hf Hc]. apply app_nil in Hc as [Ht Hc].
  apply app_nil in Hc as [Hs [Hnd Hr]%IH]. case_decide as Hin; [done|].
  destruct (wf_node g (from_node e)) eqn:E1; [|done].
  destruct (wf_node g (to_node e)) eqn:E2; [|done]. split.
  - constructor; [|done]. intros H. destruct (Hr e H) as (_ & _ & Hn). set_solver.
  - intros x [->|Hx]%elem_of_cons; [by rewrite <- !wf_node_Some, E1, E2|].
    destruct (Hr x Hx) as (? & ? & ?). split_and!; [done|done|set_solver].
Qed.

Section Valid.
Context (f : Fmt) (nc ag : WorkflowGraph → list ValidationError) (g : WorkflowGraph).
Hypothesis Hvalid : validate_all f nc ag g = [].

Lemma valid_parts :
  check_node_ids ∅ (wg_nodes g) = [] ∧ check_triggers g = [] ∧ check_edges g [] (wg_edges g) = [] ∧
  validate_loops f g = [] ∧ validate_scatter_regions f g = [].
Proof.
  unfold validate_all in Hvalid. repeat (apply app_nil in Hvalid as [? Hvalid]). done.
Qed.

Lemma valid_trigger : ∃ t, trigger g = Some t.
Proof. apply check_triggers_nil, valid_parts. Qed.

Lemma valid_well_linked : START ∉ node_ids g → END ∉ node_ids g → well_linked g.
Proof.
  intros Hs He. destruct valid_parts as (Hn & _ & Hed & _). split; [|intros e Hin|done|done].
  - by apply check_node_ids_nil in Hn as [? _].
  - apply check_edges_nil in Hed as [_ Hed]. by destruct (Hed e Hin) as (? & ? & _).
Qed.

(** ** Loops *)

Lemma path_avoiding_reach start target skip :
  rtc (λ x y, y ∈ successors g x ∧ (x = start ∨ skip x = false)) start target →
  path_avoiding g start target skip = true.
Proof.
  intros Hr. unfold path_avoiding. apply search_total_spec.
  - intros n Hn. unfold search_deg. case_match; [done|]. cbn.
    destruct (successors g n) as [|m l] eqn:E; [done|]. exfalso. apply Hn.
    apply (filtered_source g (λ e, from_node e = n) n m); [done|].
    unfold successors in E. rewrite E. left.
  - exists start, target. split_and!; [left| |left; by apply bool_decide_eq_true].
    eapply rtc_subrel; [|exact Hr]. intros x y [Hy Hx]. eexists. split; [reflexivity|].
    destruct Hx as [->|Hx]; [by rewrite bool_decide_eq_false_2 by auto|].
    by rewrite Hx, andb_false_r.
Qed.

Lemma valid_loops_bounded :
  has_run_level_bound g = false →
  ∀ n, ¬ tc (λ u v, wf_edge g u v ∧ is_kind g Loop u = false) n n.
Proof.
  intros Hb n Hc. destruct valid_parts as (_ & _ & _ & Hl & _).
  destruct (cycle_back_edge g _ n (λ x y H, proj1 H) Hc) as (u & v & Huv & [Huv' Hu] & Hr).
  unfold validate_loops in Hl. apply app_nil in Hl as [_ Hl]. case_decide as He.
  { rewrite He in Huv. set_solver. }
  apply app_nil in Hl as [_ Hl]. rewrite Hb, concat_nil in Hl.
  specialize (Hl (u, v) (proj2 (elem_of_elements _ _) Huv)). unfold check_bounded in Hl.
  assert (Hv : is_kind g Loop v = false).
  { inversion Hr as [|? y ? [_ ?] _]; subst; done. }
  rewrite path_avoiding_reach, Hu, Hv in Hl; [done|].
  eapply rtc_subrel; [|exact Hr]. intros x y [[Hs _] Hx]. auto.
Qed.
End Valid.
