(* ===== verification/WfActivation.v ===== *)
(** * Activating a workflow node

    [crates/tinyflows/src/engine/build/activation.rs] with the pieces it
    includes ([activation/gates.rs], [activation/input.rs],
    [activation/routing.rs]) and [engine/build/outcome.rs]: what a node's handler
    does between the state it is given and the result it hands the graph
    runtime.

    The node's executor with the timeout race and the postcondition is the
    argument [attempt]: the outcome of each attempt; [Token] is what the checks
    of the cancellation token see and [Interceptor] what the host's hook answers.
    Observers, recorded steps and logs are not modelled. *)

From S2P Require Import Prelude Json GraphTypes Checkpoint Builder.
From S2P Require Import Workflow WfAnalysis WfState WfBuild.

(** ** Routing the result ([activation/routing.rs]) *)

Definition port_targets (groups : list (string * list string)) (port : string) : list string :=
  default [] (snd <$> find_first (λ g, bool_decide (g.1 = port)) groups).

Definition lane_target (h : HandlerData) (lane : LaneContext) (items : list Item) (target : string)
    : RouteTarget :=
  if decide (target ∈ hd_gather_nodes h) then RTNode target
  else RTSend (mkSend target
                 (lane_envelope (lane_origin lane) (lane_index lane) (lane_count lane) items)).

Definition emit_result (h : HandlerData) (lane : option LaneContext) (step : nat) (update : value)
    (port : option string) (items : list Item) : NodeResult value :=
  let emitted := default "main" port in
  match lane with
  | Some lane =>
      let targets :=
        match hd_routing h with
        | Plain => port_targets (hd_plain_targets_by_port h) emitted
        | FanOut targets => targets
        | PortCommand groups => port_targets groups emitted
        end in
      NRCommand (with_update (command_route (lane_target h lane items <$> targets)) update)
  | None =>
      let update := stamp_activation_step update (nd_id (hd_node h)) step in
      match hd_routing h with
      | Plain => NRUpdate update
      | FanOut targets => NRCommand (with_update (command_goto targets) update)
      | PortCommand groups =>
          NRCommand (with_update (command_goto (port_targets groups emitted)) update)
      end
  end.

(** ** Gates ([activation/gates.rs]) *)

(** [v] is an array that lists the string [id]. *)
Definition lists (v : option value) (id : string) : bool :=
  match v >>? as_array with
  | Some l => existsb (λ x, bool_decide (as_str x = Some id)) l
  | None => false
  end.

Definition approved_by_resume (resume : option value) (id : string) : bool :=
  match resume with
  | Some (Bool true) => true
  | Some v => lists (get "approved" v) id
  | None => false
  end.

Definition approved_by_run (state : value) (id : string) : bool :=
  match get "run" state with
  | Some run => lists (get "approvals" run) id || lists (get "trigger" run >>? get "approvals") id
  | None => false
  end.

Definition denied_item (id : string) : Item :=
  item_new (json_object [("error", json_object
    [("message", Str "approval denied"); ("node", Str id); ("denied", Bool true)])]).

(** [Some]: the activation ends here. *)
Definition gates (h : HandlerData) (cancelled : bool) (lane : option LaneContext) (step : nat)
    (resume : option value) (state : value) : option (Result (NodeResult value)) :=
  let id := nd_id (hd_node h) in
  if cancelled then
    let update := items_update id [] None in
    Some (Ok (NRUpdate (match lane with
                        | None => stamp_activation_step update id step
                        | Some _ => update
                        end)))
  else if hd_is_trigger h then Some (Ok (emit_result h lane step (Object []) None []))
  else if gated (hd_node h) then
    if lists (resume >>? get "rejected") id then
      if hd_has_error_edge h then
        Some (Ok (emit_result h lane step (items_update id [denied_item id] (Some "error"))
                    (Some "error") [denied_item id]))
      else Some (Err (GraphErr ("approval gate '" +:+ id +:+
                   "' was denied and has no `error` port to route to")))
    else if approved_by_run state id || approved_by_resume resume id then None
    else
      let payload := if is_null (nd_config (hd_node h)) then Object [] else nd_config (hd_node h) in
      Some (Ok (NRInterrupt (mkInterrupt id id payload)))
  else None.

(** ** Input ([activation/input.rs]) *)

(** The newest step among the slots the back-edges read. *)
Definition latest_step (state : value) (back_incoming : list (string * string)) : option Z :=
  foldl (λ acc e, match node_slot state e.1 >>? get "_activation_step" >>? as_u64 with
                  | Some s => Some (match acc with Some a => Z.max a s | None => s end)
                  | None => acc
                  end) None back_incoming.

Definition re_entry (h : HandlerData) (state : value) : bool :=
  match hd_back_incoming h, node_slot state (nd_id (hd_node h)) with
  | _ :: _, Some slot => negb (is_null slot)
  | _, _ => false
  end.

Definition derive_input (h : HandlerData) (lane_arg : option value) (state : value) : list Item :=
  match lane_arg with
  | Some arg => lane_input (Some arg)
  | None =>
      if re_entry h state
      then collect_input_since state (hd_back_incoming h) (latest_step state (hd_back_incoming h))
      else collect_input state (hd_incoming h)
  end.

(** ** Attempts *)

Inductive NodeControl :=
| CInterrupt (id : string) (payload : value)
| CReenter (after_ms : Z)
| CScatter (lanes : list (list Item)).

(** Diagnostics and transcripts are carried, not read, and are left out. *)
Record NodeOutput := mkOutput {
  out_items : list Item;
  out_port : option string;
  out_meta : option value;
  out_control : option NodeControl
}.

Definition max_attempts (n : Node) : Z :=
  Z.max (default 1 (get "retry" (nd_config n) >>? get "max_attempts" >>? as_u64))%Z 1.

Definition backoff_ms (n : Node) : Z :=
  default 0%Z (get "retry" (nd_config n) >>? get "backoff_ms" >>? as_u64).
Definition exponential (n : Node) : bool :=
  bool_decide ((get "retry" (nd_config n) >>? get "backoff" >>? as_str) = Some "exponential").

(** The wait after the failed attempt number [attempt] (from 0). *)
Definition backoff_delay (n : Node) (attempt : Z) : Z :=
  Z.min
    (if exponential n
     then
       let factor := (2 ^ (attempt mod 2 ^ 32))%Z in
       if decide (factor ≤ u64_max ∧ backoff_ms n * factor ≤ u64_max)%Z
       then backoff_ms n * factor else u64_max
     else backoff_ms n)%Z 60000.

(** What the checks of the cancellation token see: at the node boundary, before
    attempt [i], during the backoff after attempt [i], while waiting to
    re-enter. *)
Record Token := mkToken {
  tk_boundary : bool;
  tk_attempt : nat → bool;
  tk_backoff : nat → bool;
  tk_reenter : bool
}.

Inductive AttemptsEnd :=
| AttemptsCancelled
| Settled (output : option NodeOutput) (last_err : option EngineError).

(** Up to [fuel] attempts from number [i]: the first that succeeds, or the last
    error. *)
Fixpoint attempts (fuel : nat) (n : Node) (token : Token)
    (attempt : nat → result EngineError NodeOutput) (i : nat) (last_err : option EngineError)
    : AttemptsEnd :=
  match fuel with
  | 0 => Settled None last_err
  | S fuel' =>
      if tk_attempt token i then AttemptsCancelled
      else
        match attempt i with
        | Ok out => Settled (Some out) last_err
        | Err e =>
            if bool_decide (0 < backoff_ms n ∧ Z.of_nat (S i) < max_attempts n)%Z &&
               bool_decide (0 < backoff_delay n (Z.of_nat i))%Z && tk_backoff token i
            then AttemptsCancelled
            else attempts fuel' n token attempt (S i) (Some e)
        end
  end.

(** ** Outcomes ([outcome.rs]) *)

Definition on_error (n : Node) : string :=
  default "stop" (get "on_error" (nd_config n) >>? as_str).

(** A lane writes its lane slot, an ordinary activation the node's slot. *)
Definition slot_update (id : string) (lane : option LaneContext) (items : list Item)
    (port : option string) (meta : option value) : value :=
  match lane with
  | Some lane => lane_items_update id lane items port "ok" meta
  | None => items_update_with_meta id items port meta
  end.

Definition scatter_routes (id : string) (targets : list string) (lanes : list (list Item))
    : list RouteTarget :=
  concat (imap (λ index items,
    (λ target, RTSend (mkSend target (lane_envelope id index (length lanes) items))) <$> targets)
    lanes).

Definition finish_execution (f : Fmt) (h : HandlerData) (lane : option LaneContext) (step : nat)
    (token : Token) (output : option NodeOutput) (last_err : option EngineError)
    : Result (NodeResult value) :=
  let id := nd_id (hd_node h) in
  match output with
  | Some out =>
      match out_control out with
      | Some (CInterrupt gate payload) => Ok (NRInterrupt (mkInterrupt gate id payload))
      | Some (CReenter after_ms) =>
          if bool_decide (0 < after_ms)%Z && tk_reenter token
          then Ok (NRUpdate (items_update id [] None))
          else Ok (NRCommand (with_update (command_goto [id])
                 (items_update_with_meta id (out_items out) (out_port out) (out_meta out))))
      | Some (CScatter lanes) =>
          Ok (NRCommand (with_update (command_route (scatter_routes id (hd_plain_targets h) lanes))
                (stamp_activation_step
                   (items_update_with_meta id (out_items out) (out_port out) (out_meta out))
                   id step)))
      | None =>
          Ok (emit_result h lane step
                (slot_update id lane (out_items out) (out_port out) (out_meta out))
                (out_port out) (out_items out))
      end
  | None =>
      match last_err with
      | None => Ok (emit_result h lane step (items_update id [] None) None [])
      | Some e =>
          let item := error_item id (engine_error_to_string f e) in
          if decide (on_error (hd_node h) = "continue") then
            Ok (emit_result h lane step (slot_update id lane [item] None None) None [item])
          else if decide (on_error (hd_node h) = "route") then
            Ok (emit_result h lane step (slot_update id lane [item] (Some "error") None)
                  (Some "error") [item])
          else
            match lane with
            | Some lane =>
                Ok (emit_result h (Some lane) step
                      (lane_items_update id lane [] None "failed"
                         (Some (json_object [("error", Str (engine_error_to_string f e))]))) None [])
            | None => Err (GraphErr (engine_error_to_string f e))
            end
      end
  end.

(** ** Interception ([interception.rs]) *)

Inductive StepAction :=
| StepContinue (state_patch : option value)
| StepReplace (items : list Item) (port : option string)
| StepSkip
| StepFail (message : string)
| StepInterrupt (id : string) (payload : value).

(** What the host's hook answers before the first attempt, given the state and
    the input of the activation, and after the last, given the outcome. *)
Record Interceptor := mkInterceptor {
  hook_before : HandlerData → value → list Item → StepAction;
  hook_after : HandlerData → value → list Item → option NodeOutput → option EngineError → StepAction
}.

Definition empty_output : NodeOutput := mkOutput [] None None None.

(** What the first interception leaves: the state the activation reads, the
    patch to commit with it, and an outcome decided without the executor. *)
Record Prepared := mkPrepared {
  pr_state : value;
  pr_patch : option value;
  pr_output : option NodeOutput;
  pr_error : option EngineError
}.

Definition interrupt_result (h : HandlerData) (id : string) (payload : value) : NodeResult value :=
  NRInterrupt (mkInterrupt id (nd_id (hd_node h)) payload).

Definition intercept_before (hook : option Interceptor) (h : HandlerData) (lane_arg : option value)
    (state : value) : result (NodeResult value) Prepared :=
  match hook with
  | None => Ok (mkPrepared state None None None)
  | Some hook =>
      match hook_before hook h state (derive_input h lane_arg state) with
      | StepContinue None => Ok (mkPrepared state None None None)
      | StepContinue (Some patch) => Ok (mkPrepared (wf_merge state patch) (Some patch) None None)
      | StepReplace items port => Ok (mkPrepared state None (Some (mkOutput items port None None)) None)
      | StepSkip => Ok (mkPrepared state None (Some empty_output) None)
      | StepFail message => Ok (mkPrepared state None None (Some (ECapability message)))
      | StepInterrupt id payload => Err (interrupt_result h id payload)
      end
  end.

Definition intercept_after (hook : option Interceptor) (h : HandlerData) (state : value)
    (input : list Item) (output : option NodeOutput) (last_err : option EngineError)
    : result (NodeResult value) (option NodeOutput * option EngineError) :=
  match hook with
  | None => Ok (output, last_err)
  | Some hook =>
      let error := match output with None => last_err | Some _ => None end in
      let out := default empty_output output in
      match hook_after hook h state input output error with
      | StepContinue _ => Ok (output, last_err)
      | StepReplace items port => Ok (Some (mkOutput items port (out_meta out) None), None)
      | StepSkip => Ok (Some (mkOutput [] (out_port out) (out_meta out) None), None)
      | StepFail message => Ok (None, Some (ECapability message))
      | StepInterrupt id payload => Err (interrupt_result h id payload)
      end
  end.

Definition apply_state_patch (result : NodeResult value) (patch : value) : NodeResult value :=
  match result with
  | NRUpdate update => NRUpdate (wf_merge update patch)
  | NRCommand c =>
      NRCommand (with_update c
        (match cmd_update c with Some update => wf_merge update patch | None => patch end))
  | NRInterrupt i => NRInterrupt i
  end.

(** ** The handler *)

(** The attempts, when the interception has not decided the outcome. *)
Definition run_attempts (n : Node) (token : Token) (attempt : nat → result EngineError NodeOutput)
    (p : Prepared) : AttemptsEnd :=
  match pr_output p, pr_error p with
  | None, None => attempts (Z.to_nat (max_attempts n)) n token attempt 0 None
  | output, last_err => Settled output last_err
  end.

(** One activation: the gates, the input the executor is given, the attempts,
    the result.  [attempt h state input i] is the outcome of attempt [i] (the
    executor, the timeout race and the postcondition). *)
Definition execute (f : Fmt) (token : Token) (hook : option Interceptor)
    (attempt : HandlerData → value → list Item → nat → result EngineError NodeOutput)
    (h : HandlerData) (state : value) (ctx : NodeContext) : Result (NodeResult value) :=
  let lane := lane_context (ctx_send_arg ctx) in
  let lane_arg := match lane with Some _ => ctx_send_arg ctx | None => None end in
  match gates h (tk_boundary token) lane (ctx_step ctx) (ctx_resume ctx) state with
  | Some r => r
  | None =>
      let n := hd_node h in
      match intercept_before hook h lane_arg state with
      | Err interrupted => Ok interrupted
      | Ok p =>
          let state := pr_state p in
          let input := derive_input h lane_arg state in
          match run_attempts n token (attempt h state input) p with
          | AttemptsCancelled => Ok (NRUpdate (items_update (nd_id n) [] None))
          | Settled output last_err =>
              match intercept_after hook h state input output last_err with
              | Err interrupted => Ok interrupted
              | Ok (output, last_err) =>
                  let? result := finish_execution f h lane (ctx_step ctx) token output last_err in
                  Ok (match pr_patch p with
                      | Some patch => apply_state_patch result patch
                      | None => result
                      end)
              end
          end
      end
  end.
