(* ===== verification/WfPortFacts.v ===== *)
(** * Ports, from the state to the routes

    The port a node's update records is the one read back from the merged state,
    and the graph the lowering builds routes on it. *)

From S2P Require Import Prelude Json GraphTypes Checkpoint Builder Routing.
From S2P Require Import StepFacts Search Workflow WfAnalysis WfState.
From S2P Require Import WfBuild WfBuildFacts WfActivation.

(** ** Reading a merged object *)

Definition merge_field (m : list (string * value)) (kv : string * value) : list (string * value) :=
  obj_insert kv.1 (wf_merge (default Null (obj_get kv.1 m)) kv.2) m.

Lemma wf_merge_object base fields :
  (∀ v, fields ≠ [(REPLACE, v)]) →
  wf_merge base (Object fields) = Object (foldl merge_field (object_or_empty base) fields).
Proof.
  intros Hr.
  assert (Hm : ∀ fs m,
    (fix merge_fields (fs m : list (string * value)) : list (string * value) :=
       match fs with
       | [] => m
       | (k, v) :: fs' =>
           merge_fields fs' (obj_insert k (wf_merge (default Null (obj_get k m)) v) m)
       end) fs m = foldl merge_field m fs).
  { induction fs as [|[k v] fs IH]; intros m; [done|]. apply IH. }
  destruct fields as [|[k v] [|p l]]; [done| |].
  - cbn [wf_merge]. rewrite decide_False; [done|]. intros ->. by apply (Hr v).
  - exact (f_equal Object (Hm ((k, v) :: p :: l) (object_or_empty base))).
Qed.

(** A field whose every occurrence is the leaf [v]. *)
Definition field_is (k : string) (v : value) (fs : list (string * value)) : Prop :=
  k ∈ fs.*1 ∧ ∀ v', (k, v') ∈ fs → v' = v.

Lemma merge_fields_to k u v fs : (∀ base, wf_merge base u = v) → ∀ m,
  (∀ v', (k, v') ∈ fs → v' = u) →
  obj_get k (foldl merge_field m fs) = if decide (k ∈ fs.*1) then Some v else obj_get k m.
Proof.
  intros Hv. induction fs as [|[j w] fs IH]; intros m Hall; [done|]. cbn [foldl].
  rewrite IH by (intros; apply Hall; by right). unfold merge_field. cbn [fst snd].
  rewrite fmap_cons. cbn [fst]. rewrite obj_get_insert.
  destruct (decide (k ∈ fs.*1)); [by rewrite decide_True by by right|].
  destruct (decide (j = k)) as [->|Hne].
  - rewrite decide_True by left. rewrite (Hall w) by left. by rewrite Hv.
  - rewrite decide_False; [done|]. intros [->|?]%elem_of_cons; done.
Qed.

(** A field that merges to [v] whatever was there reads [v] afterwards. *)
Lemma field_is_merged_to k u v fs base :
  k ≠ REPLACE → (∀ b, wf_merge b u = v) → field_is k u fs →
  get k (wf_merge base (Object fs)) = Some v.
Proof.
  intros Hk Hv [Hin Hall]. rewrite wf_merge_object.
  - cbn. rewrite merge_fields_to with (u := u) (v := v) by done. by rewrite decide_True.
  - intros w ->. apply list_elem_of_singleton in Hin. cbn in Hin. done.
Qed.

Lemma elem_of_obj_insert k v m kv : kv ∈ obj_insert k v m → kv = (k, v) ∨ kv ∈ m.
Proof.
  induction m as [|[j w] m IH]; cbn; [set_solver|]. repeat case_decide; [set_solver|].
  destruct (String.ltb k j); [set_solver|]. rewrite !elem_of_cons. naive_solver.
Qed.

Lemma obj_insert_keys k v m j : j ∈ (obj_insert k v m).*1 ↔ j = k ∨ j ∈ m.*1.
Proof.
  induction m as [|[i w] m IH]; cbn; [set_solver|].
  repeat case_decide; subst; [set_solver|].
  destruct (String.ltb k i); [set_solver|]. rewrite fmap_cons, !elem_of_cons, IH. naive_solver.
Qed.

Lemma field_is_insert k v j w fs : j ≠ k → field_is k v fs → field_is k v (obj_insert j w fs).
Proof.
  intros Hj [Hin Hall]. split; [apply obj_insert_keys; by right|].
  intros v' [[= ->]|?]%elem_of_obj_insert; [done|by apply Hall].
Qed.

Lemma field_is_inserts k v extra : ∀ fs, k ∉ extra.*1 → field_is k v fs →
  field_is k v (foldl (λ s kv, obj_insert kv.1 kv.2 s) fs extra).
Proof.
  induction extra as [|[j w] extra IH]; intros fs Hk Hf; [done|]. cbn.
  apply not_elem_of_cons in Hk as [Hj Hk]. apply IH; [done|]. by apply field_is_insert.
Qed.

(** ** The recorded port *)

(** A node's metadata that leaves the [port] and [items] of its slot alone. *)
Definition meta_keeps_slot (meta : option value) : Prop :=
  match meta with
  | Some (Object extra) => "port" ∉ extra.*1 ∧ "items" ∉ extra.*1
  | _ => True
  end.

Lemma recorded_update id items port meta step :
  meta_keeps_slot meta →
  ∃ fs, stamp_activation_step (items_update_with_meta id items port meta) id step =
          nodes_update id (Object fs) ∧
        field_is "port" (opt_str port) fs ∧ field_is "items" (items_to_value items) fs.
Proof.
  intros Hm. rewrite stamped_update_fields. eexists. split; [done|].
  assert (field_is "port" (opt_str port)
    (obj_insert "port" (opt_str port) (obj_insert "items" (items_to_value items) []))).
  { split; [apply obj_insert_keys; by left|].
    intros v' [[= ->]|[[= ?]|[]%elem_of_nil]%elem_of_obj_insert]%elem_of_obj_insert; done. }
  assert (field_is "items" (items_to_value items)
    (obj_insert "port" (opt_str port) (obj_insert "items" (items_to_value items) []))).
  { apply field_is_insert; [done|]. split; [apply obj_insert_keys; by left|].
    intros v' [[= ->]|[]%elem_of_nil]%elem_of_obj_insert; done. }
  split; (apply field_is_insert; [done|]); unfold slot_fields; destruct meta as [[]|]; try done;
    (apply field_is_inserts; [apply Hm|done]).
Qed.

Lemma node_slot_update_eq s id slot : id ≠ REPLACE →
  node_slot (wf_merge s (nodes_update id slot)) id =
  Some (wf_merge (default Null (node_slot s id)) slot).
Proof.
  intros Hid. unfold node_slot, nodes_update. rewrite wf_merge_single by done. cbn [get].
  rewrite obj_get_insert_eq. cbn [and_then]. rewrite wf_merge_single by done. cbn [get].
  rewrite obj_get_insert_eq. do 3 f_equal.
  destruct s; try done. cbn. by destruct (obj_get "nodes" _) as [[]|].
Qed.

Lemma node_slot_update_ne s id id' slot : id ≠ id' → id' ≠ REPLACE →
  node_slot (wf_merge s (nodes_update id' slot)) id = node_slot s id.
Proof.
  intros Hne Hid. unfold node_slot, nodes_update. rewrite wf_merge_single by done. cbn [get].
  rewrite obj_get_insert_eq. cbn [and_then]. rewrite wf_merge_single by done. cbn [get].
  rewrite obj_get_insert_ne by done.
  destruct s; try done. cbn. by destruct (obj_get "nodes" _) as [[]|].
Qed.

(** The updates other nodes make in the same superstep. *)
Definition elsewhere (id : string) (u : value) : Prop :=
  ∃ id' slot, u = nodes_update id' slot ∧ id' ≠ id ∧ id' ≠ REPLACE.

Lemma node_slot_elsewhere id us : Forall (elsewhere id) us → ∀ s,
  node_slot (foldl wf_merge s us) id = node_slot s id.
Proof.
  induction 1 as [|u us (id' & slot & -> & Hne & Hr) _ IH]; intros s; [done|]. cbn [foldl].
  rewrite IH. by apply node_slot_update_ne.
Qed.

Lemma recorded_field_to k u v id fs s l1 l2 :
  id ≠ REPLACE → k ≠ REPLACE → (∀ b, wf_merge b u = v) → field_is k u fs →
  Forall (elsewhere id) l2 →
  node_slot (foldl wf_merge s (l1 ++ nodes_update id (Object fs) :: l2)) id >>? get k = Some v.
Proof.
  intros Hid Hk Hv Hf Hl2. rewrite foldl_app. cbn [foldl]. rewrite node_slot_elsewhere by done.
  rewrite node_slot_update_eq by done. cbn [and_then]. by apply (field_is_merged_to k u).
Qed.

Lemma recorded_field k v id fs s l1 l2 :
  id ≠ REPLACE → k ≠ REPLACE → (∀ b, wf_merge b v = v) → field_is k v fs →
  Forall (elsewhere id) l2 →
  node_slot (foldl wf_merge s (l1 ++ nodes_update id (Object fs) :: l2)) id >>? get k = Some v.
Proof. apply recorded_field_to. Qed.

Lemma recorded_port id fs port s l1 l2 :
  id ≠ REPLACE → field_is "port" (opt_str port) fs → Forall (elsewhere id) l2 →
  emitted_port (node_slot (foldl wf_merge s (l1 ++ nodes_update id (Object fs) :: l2)) id) =
  default "main" port.
Proof.
  intros Hid Hf Hl2. unfold emitted_port.
  rewrite (recorded_field "port" (opt_str port)) by (done || by destruct port). by destruct port.
Qed.

Lemma recorded_items id fs items s l1 l2 :
  Forall (λ i, it_binary i ≠ Some Null) items →
  id ≠ REPLACE → field_is "items" (items_to_value items) fs → Forall (elsewhere id) l2 →
  slot_items (node_slot (foldl wf_merge s (l1 ++ nodes_update id (Object fs) :: l2)) id) = items.
Proof.
  intros Hb Hid Hf Hl2. unfold slot_items.
  rewrite (recorded_field "items" (items_to_value items)) by done. by apply items_roundtrip.
Qed.

(** ** The graph the lowering builds *)

Lemma build_graph_parts {C} execute seq (ck : CheckpointerOps value C) jr g t :
  well_linked g → trigger g = Some t →
  ∃ cg, build_graph execute seq ck jr g = Ok (cg, nd_id t) ∧ graph_wf cg ∧
    cg_edges cg = gb_edges (build_builder execute seq g t) ∧
    cg_branches cg = gb_branches (build_builder execute seq g t) ∧
    cg_nodes cg = gb_nodes (build_builder execute seq g t) ∧
    cg_node_concurrency cg = ∅.
Proof.
  intros Hwl Ht. destruct (build_lowered execute seq g t Hwl Ht) as (W & Hl & HW).
  pose proof (trigger_id g t Ht) as Hid.
  pose proof (lowered_wf (C := C) g Hwl (nd_id t) W _ Hid HW Hl) as Hwf.
  unfold build_graph. rewrite Ht. set (b := build_builder _ _ _ _) in *.
  assert (compile b = Ok (from_parts (C := C) b (nd_id t) merge_reducer)) as ->.
  { apply compile_Ok. exists merge_reducer, (nd_id t). destruct Hl as [_ _ [? _] _ _ ? _]. done. }
  eexists. split; [done|]. destruct Hwf as [H1 H2 H3 H4 H5].
  pose proof (lo_caps _ _ _ _ Hl) as Hcaps.
  destruct jr, (visit_policy t); split_and!; try done; by split.
Qed.

(** Each branch label leads to the last edge on that port. *)
Lemma plain_routes_lookup es p : plain_routes es !! p = to_node <$> last (on_port p es).
Proof.
  unfold plain_routes, on_port. induction es as [|e es IH] using rev_ind; [done|].
  rewrite fmap_app, foldl_app, filter_app, filter_cons, filter_nil. cbn. rewrite lookup_insert, IH.
  case_decide; [by rewrite last_snoc|by rewrite app_nil_r].
Qed.

Lemma sum_all_one {A} (f : A → nat) l :
  (∀ x, x ∈ l → 1 ≤ f x) → sum_list (f <$> l) = length l → ∀ x, x ∈ l → f x = 1.
Proof.
  induction l as [|y l IH]; cbn; intros Hpos Hsum x; [by intros []%elem_of_nil|].
  assert (Hge : length l ≤ sum_list (f <$> l)).
  { clear -Hpos. induction l as [|z l IH]; cbn; [done|].
    pose proof (Hpos z). assert (1 ≤ f z) by (apply H; set_solver).
    assert (length l ≤ sum_list (f <$> l)) by (apply IH; set_solver). lia. }
  assert (1 ≤ f y) by (apply Hpos; left).
  intros [->|Hx]%elem_of_cons; [lia|]. apply IH; [set_solver|lia|done].
Qed.

(** Two or more edges on separate ports. *)
Lemma plain_one_per_port g id e e' es p :
  outgoing g id = e :: e' :: es → handler_routing g id = Plain →
  port_successors g id p ≠ [] → ∃ x, on_port p (outgoing g id) = [x].
Proof.
  intros Ho Hr Hp. destruct (port_groups (outgoing g id)) as (Hnd & Hg & Hs).
  fold (outgoing_by_port g id) in Hnd, Hg, Hs.
  assert (Hone : sum_list (length ∘ snd <$> outgoing_by_port g id) =
                 length (outgoing_by_port g id)).
  { unfold handler_routing in Hr. destruct (outgoing_by_port g id) as [|[q ts] [|[]]] eqn:E;
      [done| |by case_decide].
    case_decide; [done|]. rewrite Ho in Hs. cbn in *. lia. }
  rewrite port_successors_on_port in Hp. specialize (Hg p).
  destruct (on_port p (outgoing g id)) as [|x [|y l]] eqn:Eo; [done|by exists x|exfalso].
  unfold group_of in Hg. apply fmap_Some in Hg as ([q ts] & Hf & Hts).
  apply find_first_Some in Hf as [Hin _]. cbn in Hts.
  assert (length ts = 1); [|by subst ts].
  apply (sum_all_one (length ∘ snd) (outgoing_by_port g id)) with (x := (q, ts)); [|done|done].
  intros [r us] Hr'. pose proof (group_of_elem r us _ Hnd Hr') as Hgr. cbn.
  rewrite (proj1 (proj2 (port_groups (outgoing g id)))) in Hgr.
  destruct (on_port r (outgoing g id)); [done|]. injection Hgr as <-. cbn. lia.
Qed.

(** What a plain node routes to, on a port it has edges on. *)
Lemma wired_route {C} g b id (cg : CompiledGraph value value C) s p :
  wired g b id → cg_edges cg = gb_edges b → cg_branches cg = gb_branches b →
  handler_routing g id = Plain → port_successors g id p ≠ [] → p ≠ END →
  emitted_port (node_slot s id) = p →
  route cg id None s = Ok (RTNode <$> port_successors g id p).
Proof.
  intros Hw He Hb Hr Hp Hend Hport. pose proof Hp as Hp'.
  rewrite port_successors_on_port in Hp |- *. unfold wired, route in *. rewrite He, Hb, Hr in *.
  destruct (outgoing g id) as [|e [|e' es]] eqn:Eo; [done| |].
  - destruct Hw as [_ Hw]. unfold on_port in *. rewrite filter_cons, filter_nil in *.
    destruct (decide (from_port e = p)) as [Hep|]; [|done]. cbn.
    destruct (decide (from_port e = "main")); destruct Hw as [-> Hw]; [done|].
    rewrite Hw. cbn. unfold filter_router. rewrite Hport, decide_True by done.
    rewrite Hep, lookup_insert_ne, lookup_insert_eq by done. done.
  - destruct Hw as (_ & -> & ->). cbn [branch_router branch_routes]. unfold port_router.
    rewrite Hport, plain_routes_lookup.
    destruct (plain_one_per_port g id e e' es p Eo Hr Hp') as [x Hx].
    rewrite Eo in Hx. rewrite Hx. done.
Qed.

Lemma targets_valid {C} g (cg : CompiledGraph value value C) id ts :
  well_linked g → (∀ n, is_Some (cg_nodes cg !! n) ↔ n ∈ node_ids g) → ts ⊆ node_ids g →
  validate_route_targets cg id (RTNode <$> ts) = Ok tt.
Proof.
  intros Hwl Hn Hts. apply for_each_Ok, Forall_fmap, Forall_forall. intros t Ht.
  apply Hts in Ht. unfold compose, validate_route_target.
  destruct (decide _) as [E|]; [done|]. destruct (decide _) as [E|].
  { cbn in E. subst t. by destruct (wl_start g Hwl). }
  destruct (decide _) as [|E]; [done|]. by destruct E; apply Hn.
Qed.

Lemma port_targets_successors g id p :
  port_targets (outgoing_by_port g id) p = port_successors g id p.
Proof.
  unfold port_targets. fold (group_of p (outgoing_by_port g id)). rewrite outgoing_group.
  by destruct (port_successors g id p).
Qed.

Lemma fanout_port g id p ts :
  handler_routing g id = FanOut ts → port_successors g id p ≠ [] → ts = port_successors g id p.
Proof.
  intros (q & Hq & _)%handler_routing_fanout Hp. pose proof (outgoing_group g id p) as Hg.
  rewrite Hq, group_of_cons in Hg. destruct (port_successors g id p); [done|].
  case_decide; [by injection Hg|done].
Qed.

Lemma port_successors_ids g id p : well_linked g → port_successors g id p ⊆ node_ids g.
Proof.
  intros Hwl v (e & -> & [_ He]%list_elem_of_filter)%list_elem_of_fmap.
  by apply (wl_edges g Hwl).
Qed.

(** An activation outside a lane: one update, and the targets of its port. *)
Lemma emitted_route {C} execute seq (ck : CheckpointerOps value C) jr g t cg n nt step u port items :
  well_linked g → trigger g = Some t →
  build_graph execute seq ck jr g = Ok (cg, nd_id t) → n ∈ wg_nodes g →
  let p := default "main" port in
  let r := emit_result (handler_data g (back_edges g) nt n) None step u port items in
  port_successors g (nd_id n) p ≠ [] → p ≠ END →
  branch_updates (Ok r) = [stamp_activation_step u (nd_id n) step] ∧
  ∀ s, emitted_port (node_slot s (nd_id n)) = p →
    route cg (nd_id n) (branch_goto (Ok r)) s = Ok (RTNode <$> port_successors g (nd_id n) p).
Proof.
  intros Hwl Ht Hbg Hn p r Hp Hend.
  destruct (build_graph_parts execute seq ck jr g t Hwl Ht) as (cg' & Hbg' & _ & He & Hb & Hnd & _).
  rewrite Hbg in Hbg'. injection Hbg' as <-.
  destruct (build_lowered execute seq g t Hwl Ht) as (W & Hl & HW).
  assert (Hids : ∀ m, is_Some (cg_nodes cg !! m) ↔ m ∈ node_ids g) by (rewrite Hnd; apply Hl).
  assert (Hgoto : ∀ s, route cg (nd_id n) (Some (RTNode <$> port_successors g (nd_id n) p)) s =
    Ok (RTNode <$> port_successors g (nd_id n) p)).
  { intros s. unfold route. by rewrite (targets_valid g) by (done || by apply port_successors_ids). }
  unfold r, emit_result. cbn [hd_routing handler_data hd_node].
  destruct (handler_routing g (nd_id n)) as [|ts|gs] eqn:Er; cbn [branch_updates branch_goto].
  - split; [done|]. intros s Hs. eapply wired_route; try done.
    apply Hl, HW. by apply list_elem_of_fmap_2.
  - split; [done|]. intros s _. rewrite (fanout_port g (nd_id n) p ts Er Hp). cbn.
    specialize (Hgoto s). by destruct (port_successors g (nd_id n) p).
  - split; [done|]. intros s _. rewrite (handler_routing_command _ _ _ Er). fold p.
    rewrite port_targets_successors. cbn. specialize (Hgoto s).
    by destruct (port_successors g (nd_id n) p).
Qed.

(** ** Attempts *)

Lemma attempts_spec n token attempt :
  (∀ i, tk_attempt token i = false) → (∀ i, tk_backoff token i = false) →
  ∀ fuel i last,
  match attempts fuel n token attempt i last with
  | AttemptsCancelled => False
  | Settled (Some out) _ =>
      ∃ k, k < fuel ∧ attempt (i + k) = Ok out ∧ ∀ j, j < k → ∃ e, attempt (i + j) = Err e
  | Settled None err =>
      (∀ j, j < fuel → ∃ e, attempt (i + j) = Err e) ∧
      match fuel with
      | 0 => err = last
      | S m => ∃ e, err = Some e ∧ attempt (i + m) = Err e
      end
  end.
Proof.
  intros Ha Hb. induction fuel as [|fuel IH]; intros i last; cbn; [split; [lia|done]|].
  rewrite Ha. destruct (attempt i) as [out|e] eqn:E.
  { exists 0. rewrite Nat.add_0_r. split_and!; [lia|done|lia]. }
  rewrite Hb, andb_false_r. specialize (IH (S i) (Some e)).
  assert (Hshift : ∀ j, attempt (S i + j) = attempt (i + S j)) by (intros; f_equal; lia).
  destruct (attempts fuel n token attempt (S i) (Some e)) as [|[out|] err]; [done| |].
  - destruct IH as (k & Hk & Ho & Hj). exists (S k). rewrite <- Hshift. split_and!; [lia|done|].
    intros [|j] Hlt; [rewrite Nat.add_0_r; by exists e|]. rewrite <- Hshift. apply Hj. lia.
  - destruct IH as [Hj He]. split.
    + intros [|j] Hlt; [rewrite Nat.add_0_r; by exists e|]. rewrite <- Hshift. apply Hj. lia.
    + destruct fuel as [|m]; [rewrite Nat.add_0_r; by exists e|]. by rewrite <- Hshift.
Qed.
