(* ===== verification/WfSamples.v ===== *)
(** * Concrete workflows

    The small workflow documents the witnesses and findings of the workflow
    layer build and run, with node executors that pass their input on. *)

From S2P Require Import Prelude Json GraphTypes Search Checkpoint Builder.
From S2P Require Import StepExec Executor RunLoop Samples Workflow WfAnalysis WfValidate WfState.
From S2P Require Import WfBuild WfActivation.

Definition sample_node (id : string) (kind : NodeKind) (config : value) : Node :=
  mkWfNode id kind 1 id config [].
Definition sample_edge (from port to : string) : Edge := mkEdge from port to "main".
Definition sample_workflow (nodes : list Node) (edges : list Edge) : WorkflowGraph :=
  mkWorkflow 1 None "" [] [] nodes edges.

Definition sample_fmt : Fmt := mkFmt (λ s, s) (λ _, "").
Definition sample_valid (g : WorkflowGraph) : list ValidationError :=
  validate_all sample_fmt (λ _, []) (λ _, []) g.

Definition no_cancel : Token := mkToken false (λ _, false) (λ _, false) false.

(** An executor that passes its input on, on the port [port id]. *)
Definition pass_on (port : string → option string) (h : HandlerData) (_ : value)
    (input : list Item) (_ : nat) : result EngineError NodeOutput :=
  Ok (mkOutput input (port (nd_id (hd_node h))) None None).
Definition sample_handler (port : string → option string) (h : HandlerData)
    : NodeHandler value value :=
  λ state ctx, mkFuture 0 [] (execute sample_fmt no_cancel None (pass_on port) h state ctx).

Definition default_port : string → option string := λ _, None.

Definition sample_build (port : string → option string) (g : WorkflowGraph)
    : result EngineError (CompiledGraph value value (MemStore value) * string) :=
  build_graph (sample_handler port) 0 mem_ops false g.

(** The state a run starts from: one item in the trigger's slot. *)
Definition sample_state (trigger_id : string) : value :=
  json_object [("run", Object []);
    ("nodes", json_object
       [(trigger_id, json_object [("items", items_to_value [item_new (Str "x")])])])].

Definition sample_run (fuel : nat) (port : string → option string) (g : WorkflowGraph)
    : option (GraphExecution value) :=
  match sample_build port g with
  | Ok (cg, tid) =>
      match run fuel (sample_env select_first) cg (sample_state tid) (mkWorld mem_new [] [] 0) with
      | (_, Returned (Ok e)) => Some e
      | _ => None
      end
  | Err _ => None
  end.

(** A condition with a successor per port. *)
Definition branch_workflow : WorkflowGraph :=
  sample_workflow
    [sample_node "t" Trigger Null; sample_node "c" Condition Null;
     sample_node "x" Transform Null; sample_node "y" Transform Null]
    [sample_edge "t" "main" "c"; sample_edge "c" "true" "x"; sample_edge "c" "false" "y"].

(** A loop node with a body. *)
Definition loop_workflow : WorkflowGraph :=
  sample_workflow
    [sample_node "t" Trigger Null; sample_node "l" Loop (json_object
       [("max_iterations", Number (PosInt 3)); ("until", Str "=true")]);
     sample_node "b" Transform Null; sample_node "z" Transform Null]
    [sample_edge "t" "main" "l"; sample_edge "l" "body" "b"; sample_edge "b" "main" "l";
     sample_edge "l" "done" "z"].

(** [a] feeds the merge [m] directly and through [b]. *)
Definition triangle_workflow : WorkflowGraph :=
  sample_workflow
    [sample_node "t" Trigger Null; sample_node "a" Transform Null;
     sample_node "b" Transform Null; sample_node "m" Merge Null]
    [sample_edge "t" "main" "a"; sample_edge "a" "main" "m"; sample_edge "a" "main" "b";
     sample_edge "b" "main" "m"].

(** A trigger that asks for 5000 supersteps. *)
Definition long_workflow : WorkflowGraph :=
  sample_workflow
    [sample_node "t" Trigger (json_object [("recursion_limit", Number (PosInt 5000))])] [].

(** A condition with two successors on [true] and none on [false]. *)
Definition filter_workflow : WorkflowGraph :=
  sample_workflow
    [sample_node "t" Trigger Null; sample_node "c" Condition Null;
     sample_node "x" Transform Null; sample_node "y" Transform Null]
    [sample_edge "t" "main" "c"; sample_edge "c" "true" "x"; sample_edge "c" "true" "y"].

(** A node named as the runtime's [END], and one named as the merge sentinel. *)
Definition end_workflow : WorkflowGraph :=
  sample_workflow [sample_node "t" Trigger Null; sample_node "__end__" Transform Null]
    [sample_edge "t" "main" "__end__"].
Definition replace_workflow : WorkflowGraph :=
  sample_workflow
    [sample_node "t" Trigger Null; sample_node "a" Transform Null;
     sample_node "$replace" Transform Null]
    [sample_edge "t" "main" "a"; sample_edge "a" "main" "$replace"].
