(* ===== verification/WfTheorems.v ===== *)
(** * Correctness of the workflow layer

    The properties of the analysis, the validation, the lowering and the state
    of workflows, each with its witness, and what modelling them showed. *)

From S2P Require Import Prelude Json GraphTypes Search Checkpoint Builder.
From S2P Require Import Routing StepExec StepFacts Executor RunLoop Samples Workflow.
From S2P Require Import WfAnalysis WfValidate WfState WfBuild.
From S2P Require Import WfBuildFacts WfActivation WfPortFacts WfSamples.

(** ** Analysis and validation *)

(** C8: [back_edges] cuts the cycles of a workflow and nothing else: each pair it
    returns is an edge that closes a cycle, and the edges it leaves form no
    cycle, so the forward edges can be waited on without deadlock. *)
Theorem back_edges_cut_cycles (g : WorkflowGraph) :
  (∀ u v, (u, v) ∈ back_edges g → wf_edge g u v ∧ rtc (wf_edge g) v u) ∧
  (∀ n, ¬ tc (λ u v, wf_edge g u v ∧ (u, v) ∉ back_edges g) n n).
Proof. split; [apply back_edge_cycle|apply forward_acyclic]. Qed.

(** In a workflow that passes validation and sets no run-level bound, every
    cycle goes through a [loop] node, whose [max_iterations] bounds it. *)
Theorem valid_cycles_bounded (f : Fmt) node_configs agents (g : WorkflowGraph) :
  validate_all f node_configs agents g = [] → has_run_level_bound g = false →
  ∀ n, ¬ tc (λ u v, wf_edge g u v ∧ is_kind g Loop u = false) n n.
Proof. intros Hv Hb. by eapply valid_loops_bounded. Qed.

Lemma valid_cycles_bounded_witness :
  ("b", "l") ∈ back_edges loop_workflow ∧
  ¬ tc (λ u v, wf_edge loop_workflow u v ∧ is_kind loop_workflow Loop u = false) "l" "l".
Proof.
  split; [by vm_compute|].
  apply (valid_cycles_bounded sample_fmt (λ _, []) (λ _, []) loop_workflow); by vm_compute.
Defined.

(** ** Lowering *)

(** C9: a workflow that passes validation, and in which no node is named as the
    runtime's [START] or [END], builds: [build_graph] returns a graph entered at
    the trigger whose topology the runtime accepts and whose concurrency caps,
    being none, are positive.  Validation itself lets the two reserved names
    through: [reserved_ids_accepted]. *)
Theorem valid_workflow_builds {C} (f : Fmt) node_configs agents execute seq
    (ck : CheckpointerOps value C) (journal : bool) (g : WorkflowGraph) :
  validate_all f node_configs agents g = [] → START ∉ node_ids g → END ∉ node_ids g →
  ∃ cg t, build_graph execute seq ck journal g = Ok (cg, nd_id t) ∧ trigger g = Some t ∧
    graph_wf cg ∧ cg_edges cg !! START = Some (nd_id t) ∧ caps_pos (cg_node_concurrency cg).
Proof.
  intros Hv Hs He. destruct (valid_trigger f node_configs agents g Hv) as [t Ht].
  pose proof (valid_well_linked f node_configs agents g Hv Hs He) as Hwl.
  destruct (build_graph_parts execute seq ck journal g t Hwl Ht)
    as (cg & Hb & Hwf & Hed & _ & _ & Hc).
  destruct (build_lowered execute seq g t Hwl Ht) as (W & Hl & _).
  exists cg, t. rewrite Hed, Hc. split_and!; [done..|apply Hl|apply caps_pos_empty].
Qed.

Lemma valid_workflow_builds_witness :
  ∃ cg t, sample_build default_port loop_workflow = Ok (cg, nd_id t) ∧ graph_wf cg.
Proof.
  destruct (valid_workflow_builds sample_fmt (λ _, []) (λ _, []) (sample_handler default_port) 0
    mem_ops false loop_workflow) as (cg & t & Hb & _ & Hwf & _);
    [by vm_compute|by apply (bool_decide_unpack _); vm_compute..|].
  exists cg, t. by split.
Defined.

(** C10: items follow the port they were emitted on.  Let a node (not named
    [$replace]) of a linked workflow finish outside a scatter lane with an output
    that carries no control request and whose metadata leaves the [port] and
    [items] of its slot alone, on a port that has edges (and is not [END]'s name).
    Whatever the routing shape of the node (plain edge, branch, fan-out, mixed
    ports), the graph [build_graph] made then routes exactly to the successors on
    that port, in edge order, from the state in which its update and those of
    other nodes of the superstep have been merged in any order.  For a port
    without edges see [fanout_ignores_port]. *)
Theorem routing_follows_ports {C} execute seq (ck : CheckpointerOps value C) journal
    (g : WorkflowGraph) cg t n f node_timeout step token out last_err :
  well_linked g → trigger g = Some t →
  build_graph execute seq ck journal g = Ok (cg, nd_id t) →
  n ∈ wg_nodes g → nd_id n ≠ REPLACE →
  out_control out = None → meta_keeps_slot (out_meta out) →
  let port := default "main" (out_port out) in
  port ≠ END → port_successors g (nd_id n) port ≠ [] →
  ∃ r u,
    finish_execution f (handler_data g (back_edges g) node_timeout n) None step token
      (Some out) last_err = Ok r ∧
    branch_updates (Ok r) = [u] ∧
    ∀ s before after, Forall (elsewhere (nd_id n)) after →
      route cg (nd_id n) (branch_goto (Ok r)) (foldl wf_merge s (before ++ u :: after)) =
      Ok (RTNode <$> port_successors g (nd_id n) port).
Proof.
  intros Hwl Ht Hb Hn Hr Hc Hm port Hend Hp. unfold finish_execution. rewrite Hc.
  edestruct (emitted_route execute seq ck journal g t cg n node_timeout step) as [Hu Hroute];
    [done..|].
  eexists _, _. split; [done|]. split; [exact Hu|]. intros s before after Hafter. apply Hroute.
  cbn [slot_update hd_node handler_data].
  destruct (recorded_update (nd_id n) (out_items out) (out_port out) (out_meta out) step Hm)
    as (fs & -> & Hf & _). by apply recorded_port.
Qed.

Definition branch_output : NodeOutput := mkOutput [item_new (Str "x")] (Some "false") None None.

Lemma branch_well_linked : well_linked branch_workflow.
Proof.
  apply (valid_well_linked sample_fmt (λ _, []) (λ _, [])); [by vm_compute|..];
    apply (bool_decide_unpack _); by vm_compute.
Qed.

Lemma routing_follows_ports_witness :
  ∃ cg r u, sample_build default_port branch_workflow = Ok (cg, "t") ∧
    branch_updates (Ok r) = [u] ∧
    route cg "c" (branch_goto (Ok r)) (wf_merge (sample_state "t") u) = Ok [RTNode "y"].
Proof.
  destruct (build_graph_parts (sample_handler default_port) 0 mem_ops false branch_workflow
    (sample_node "t" Trigger Null) branch_well_linked eq_refl) as (cg & Hb & _).
  destruct (routing_follows_ports (sample_handler default_port) 0 mem_ops false branch_workflow cg
    (sample_node "t" Trigger Null) (sample_node "c" Condition Null) sample_fmt None 2
    no_cancel branch_output None) as (r & u & _ & Hu & Hr);
    [apply branch_well_linked|done|exact Hb|right; left|done..|].
  exists cg, r, u. split_and!; [done|done|]. exact (Hr (sample_state "t") [] [] (Forall_nil_2 _)).
Defined.

(** C11: what a node emits is what its successors read: once its update is merged
    into the state, in any order with those of other nodes of the superstep, an
    edge from the port it emitted on collects exactly its items and an edge from
    any other port collects nothing. *)
Theorem successors_read_items id items port meta step s before after :
  id ≠ REPLACE → meta_keeps_slot meta → Forall (λ i, it_binary i ≠ Some Null) items →
  Forall (elsewhere id) after →
  let u := stamp_activation_step (items_update_with_meta id items port meta) id step in
  ∀ q, collect_input (foldl wf_merge s (before ++ u :: after)) [(id, q)] =
    (if decide (default "main" port = q) then items else []).
Proof.
  intros Hid Hm Hb Ha u q. destruct (recorded_update id items port meta step Hm)
    as (fs & Hu & Hp & Hi). unfold u, collect_input, collect_input_since. rewrite Hu. cbn.
  rewrite app_nil_r. unfold collect_edge. cbn [too_old fst snd].
  rewrite (recorded_port id fs port) by done. case_decide; [|done]. by apply recorded_items.
Qed.

Lemma successors_read_items_witness :
  let u := stamp_activation_step (items_update "c" [item_new (Str "x")] (Some "false")) "c" 2 in
  collect_input (wf_merge (sample_state "t") u) [("c", "false")] = [item_new (Str "x")] ∧
  collect_input (wf_merge (sample_state "t") u) [("c", "true")] = [].
Proof.
  pose proof (successors_read_items "c" [item_new (Str "x")] (Some "false") None 2 (sample_state "t")
    [] [] (ltac:(done)) I (ltac:(by repeat constructor)) (Forall_nil_2 _)) as H.
  split; [apply (H "false")|apply (H "true")].
Defined.

(** ** Activation *)

(** An activation that passes its gates and is not cancelled runs its executor
    until the first success and at most [max_attempts] times: its result is that
    of the first attempt that succeeded, every earlier one having failed, or,
    when all [max_attempts] attempts failed, what the node's [on_error] policy
    makes of the last error. *)
Theorem activation_retries f token attempt h state ctx :
  let lane := lane_context (ctx_send_arg ctx) in
  let lane_arg := match lane with Some _ => ctx_send_arg ctx | None => None end in
  let step := ctx_step ctx in
  let try := attempt h state (derive_input h lane_arg state) in
  let budget := Z.to_nat (max_attempts (hd_node h)) in
  gates h (tk_boundary token) lane step (ctx_resume ctx) state = None →
  (∀ i, tk_attempt token i = false) → (∀ i, tk_backoff token i = false) →
  (∃ k out, k < budget ∧ try k = Ok out ∧ (∀ j, j < k → ∃ e, try j = Err e) ∧
     execute f token None attempt h state ctx =
       finish_execution f h lane step token (Some out) None) ∨
  (∃ e, 0 < budget ∧ try (budget - 1) = Err e ∧ (∀ j, j < budget → ∃ e, try j = Err e) ∧
     execute f token None attempt h state ctx =
       finish_execution f h lane step token None (Some e)).
Proof.
  intros lane lane_arg step try budget Hg Ha Hb. unfold execute. fold lane lane_arg step.
  rewrite Hg. cbn [intercept_before pr_state run_attempts pr_output pr_error pr_patch].
  fold try budget. pose proof (attempts_spec (hd_node h) token try Ha Hb budget 0 None) as Hs.
  assert (Hpos : 0 < budget) by (unfold budget, max_attempts; lia).
  destruct (attempts budget _ _ _ 0 None) as [|[out|] e]; [done| |].
  - left. destruct Hs as (k & Hk & Ho & Hj). exists k, out. split_and!; [done..|].
    cbn [intercept_after].
    change (finish_execution f h lane step token (Some out) e)
      with (finish_execution f h lane step token (Some out) None).
    by destruct (finish_execution _ _ _ _ _ _ _).
  - right. destruct Hs as [Hj He]. destruct budget as [|m]; [lia|].
    destruct He as (x & -> & Hx). exists x. cbn [Nat.sub] in *. rewrite Nat.sub_0_r.
    split_and!; [done..|]. cbn [intercept_after]. by destruct (finish_execution _ _ _ _ _ _ _).
Qed.

(** An executor that fails once. *)
Definition flaky (h : HandlerData) (_ : value) (input : list Item) (i : nat)
    : result EngineError NodeOutput :=
  if decide (i = 0) then Err (ECapability "down") else Ok (mkOutput input None None None).
Definition retried_node : Node :=
  sample_node "x" Transform (json_object [("retry", json_object
    [("max_attempts", Number (PosInt 3))])]).

Lemma activation_retries_witness :
  let h := handler_data branch_workflow ∅ None retried_node in
  let ctx := mkContext "x" "run-1" None 1 None None None None [] in
  execute sample_fmt no_cancel None flaky h (sample_state "t") ctx =
  finish_execution sample_fmt h None 1 no_cancel (Some empty_output) None.
Proof.
  intros h ctx.
  destruct (activation_retries sample_fmt no_cancel flaky h (sample_state "t") ctx)
    as [(k & out & _ & Ho & _ & ->)|(e & _ & He & _)]; [by vm_compute|done|done| |].
  - destruct k as [|k]; [done|]. by injection Ho as <-.
  - by vm_compute in He.
Defined.

(** ** State *)

(** The updates nodes of one superstep make do not depend on the order they
    are merged in: updates of different nodes commute, and so do the updates
    different lanes make of one node; the exception is the reserved name
    [$replace]. *)
Theorem parallel_updates_commute id1 id2 items1 items2 port1 port2 meta1 meta2 step1 step2
    l1 l2 status1 status2 s :
  id1 ≠ REPLACE → id2 ≠ REPLACE → lane_id l1 ≠ REPLACE → lane_id l2 ≠ REPLACE →
  let u1 := stamp_activation_step (items_update_with_meta id1 items1 port1 meta1) id1 step1 in
  let u2 := stamp_activation_step (items_update_with_meta id2 items2 port2 meta2) id2 step2 in
  let v1 := lane_items_update id1 l1 items1 port1 status1 meta1 in
  let v2 := lane_items_update id1 l2 items2 port2 status2 meta2 in
  (id1 ≠ id2 → wf_merge (wf_merge s u1) u2 = wf_merge (wf_merge s u2) u1) ∧
  (lane_id l1 ≠ lane_id l2 → wf_merge (wf_merge s v1) v2 = wf_merge (wf_merge s v2) v1).
Proof.
  intros H1 H2 H3 H4 u1 u2 v1 v2. split; intros Hne.
  - unfold u1, u2. rewrite !stamped_update_fields. by apply nodes_updates_commute.
  - unfold v1, v2.
    destruct (lane_update id1 l1 items1 port1 status1 meta1) as [w1 ->].
    destruct (lane_update id1 l2 items2 port2 status2 meta2) as [w2 ->].
    by apply lane_updates_commute.
Qed.

Lemma parallel_updates_commute_witness :
  let u1 := stamp_activation_step (items_update "a" [item_new (Str "x")] None) "a" 1 in
  let u2 := stamp_activation_step (items_update "b" [item_new Null] (Some "error")) "b" 1 in
  wf_merge (wf_merge (sample_state "t") u1) u2 = wf_merge (wf_merge (sample_state "t") u2) u1.
Proof.
  apply (parallel_updates_commute "a" "b" [item_new (Str "x")] [item_new Null] None (Some "error")
    None None 1 1 (mkLane "s#0" "s" 0 2) (mkLane "s#1" "s" 1 2) "ok" "ok" (sample_state "t")); done.
Defined.

(** A lane envelope carries a lane and its items unchanged: what [scatter]
    encodes into a send, the activation on the other side decodes to the same
    origin, index, count and items. *)
Theorem lane_envelope_roundtrip origin index count items :
  Forall (λ i, it_binary i ≠ Some Null) items →
  let arg := Some (lane_envelope origin index count items) in
  lane_context arg = Some (mkLane (origin +:+ "#" +:+ pretty index) origin index count) ∧
  lane_input arg = items.
Proof. split; [apply lane_envelope_context|by apply lane_envelope_input]. Qed.

Lemma lane_envelope_roundtrip_witness :
  lane_input (Some (lane_envelope "s" 1 2 [mkItem (Str "x") None (Some 4)])) =
  [mkItem (Str "x") None (Some 4)].
Proof.
  apply (lane_envelope_roundtrip "s" 1 2 [mkItem (Str "x") None (Some 4)]). by repeat constructor.
Defined.

(** ** What modelling showed *)

(** A [merge] fed by a fan-out runs before its other predecessor: the edge
    from a node with several edges on one port is never lowered as a waiting
    edge, so [m], fed by [a] and by [b], runs in the superstep of [b], and once
    more after it. *)
Theorem merge_fires_early :
  sample_valid triangle_workflow = [] ∧
  conditional_predecessors triangle_workflow "m" (back_edges triangle_workflow) = [] ∧
  ge_visited <$> sample_run 51 default_port triangle_workflow = Some ["t"; "a"; "m"; "b"; "m"].
Proof. by vm_compute. Qed.

(** A [recursion_limit] above 1000 has no effect unless [max_node_visits] is
    set as well: every compiled graph carries the default policy, whose
    [max_total_steps] is 1000. *)
Theorem recursion_limit_capped :
  match sample_build default_port long_workflow with
  | Ok (cg, _) => Some (N.of_nat (cg_recursion_limit cg), N.of_nat (step_limit cg))
  | Err _ => None
  end = Some (5000%N, 1000%N).
Proof. by vm_compute. Qed.

(** A [condition] with two edges on [true] and none on [false] runs both
    successors on [false]: a fan-out ignores the port its node emitted, where a
    single edge is a filter. *)
Theorem fanout_ignores_port :
  sample_valid filter_workflow = [] ∧
  ge_visited <$> sample_run 51 (λ id, if decide (id = "c") then Some "false" else None)
    filter_workflow = Some ["t"; "c"; "x"; "y"].
Proof. by vm_compute. Qed.

(** Validation accepts ids the runtime reserves: a node named [__end__] makes
    the build of a valid workflow fail, and the update of a node named [$replace]
    is taken for a replacement and wipes the slots of every other node. *)
Theorem reserved_ids_accepted :
  sample_valid end_workflow = [] ∧
  sample_build default_port end_workflow =
    Err (ECapability (error_to_string (Validation "END cannot be an edge source"))) ∧
  sample_valid replace_workflow = [] ∧
  (λ e, (node_slot (ge_state e) "t", node_slot (ge_state e) "a")) <$>
    sample_run 51 default_port replace_workflow = Some (None, None).
Proof. by vm_compute. Qed.

(** A [Skip] after the executor ran empties the output but keeps the port the
    node chose, so the successors on that port run, not those of the default
    port. *)
Theorem skip_after_keeps_port h state input items port meta :
  let hook := mkInterceptor (λ _ _ _, StepContinue None) (λ _ _ _ _ _, StepSkip) in
  intercept_after (Some hook) h state input (Some (mkOutput items (Some port) meta None)) None =
  Ok (Some (mkOutput [] (Some port) meta None), None).
Proof. done. Qed.
