(* ===== verification/StorageKey.v ===== *)
(** * Document keys

    [crates/tinyflows-storage/src/key.rs]: composite document ids, escaped and
    joined with a slash, replaced by a digest when they outgrow the limit.

    A Rust string is its UTF-8 bytes here; every character the code looks at is
    ASCII, so a byte at a time is the same as a [char] at a time.  The length
    limit and the digest come from other crates and are arguments, with the
    documented id rules as hypotheses. *)

From S2P Require Import Prelude.
From Stdlib Require Import Ascii.
From Stdlib Require String.

Notation SLASH := "/"%char.
Notation PERCENT := "%"%char.
Notation HASH_MARK := "~"%char.
Notation NUL := (Ascii.ascii_of_nat 0).

(** ** Errors of the storage ports *)

Inductive ErrorKind := InvalidInput | Conflict | AlreadyExists | Backend | Serialization | OtherKind.
#[export] Instance ErrorKind_eq_dec : EqDecision ErrorKind.
Proof. solve_decision. Defined.

Record StorageError := mkStorageError { se_kind : ErrorKind; se_message : string }.
Definition invalid_input (message : string) : StorageError := mkStorageError InvalidInput message.
Definition backend (message : string) : StorageError := mkStorageError Backend message.

(** ** Escaping *)

Definition escape_char (c : ascii) : string :=
  if decide (c = PERCENT) then "%25"
  else if decide (c = SLASH) then "%2F"
  else if decide (c = NUL) then "%00"
  else String.String c "".

Fixpoint escape_chars (s : string) : string :=
  match s with
  | String.EmptyString => ""
  | String.String c rest => escape_char c +:+ escape_chars rest
  end.

(** A leading mark of the first part is escaped too. *)
Definition escape_into (part : string) (first : bool) : string :=
  match part with
  | String.String c rest =>
      (if first && bool_decide (c = HASH_MARK) then "%7E" else escape_char c) +:+ escape_chars rest
  | String.EmptyString => ""
  end.

Definition decode_escape (a b : ascii) : option ascii :=
  if decide (a = "2"%char ∧ b = "5"%char) then Some PERCENT
  else if decide (a = "2"%char ∧ b = "F"%char) then Some SLASH
  else if decide (a = "0"%char ∧ b = "0"%char) then Some NUL
  else if decide (a = "7"%char ∧ b = "E"%char) then Some HASH_MARK
  else None.

Fixpoint unescape (segment : string) : option string :=
  match segment with
  | String.EmptyString => Some ""
  | String.String c rest =>
      if decide (c = PERCENT) then
        match rest with
        | String.String a (String.String b tail) =>
            decode_escape a b >>? λ d, String.String d <$> unescape tail
        | _ => None
        end
      else String.String c <$> unescape rest
  end.

(** ** Joining and splitting *)

Fixpoint join_parts (first : bool) (parts : list string) : string :=
  match parts with
  | [] => ""
  | part :: rest =>
      (if first then "" else "/") +:+ escape_into part first +:+ join_parts false rest
  end.

(** [str::split('/')]. *)
Fixpoint split_slash (s : string) : list string :=
  match s with
  | String.EmptyString => [""]
  | String.String c rest =>
      if decide (c = SLASH) then "" :: split_slash rest
      else match split_slash rest with
           | seg :: segs => String.String c seg :: segs
           | [] => [String.String c ""]
           end
  end.

Definition is_hashed (key : string) : bool :=
  match key with String.String c _ => bool_decide (c = HASH_MARK) | _ => false end.

(** [collect] into an option. *)
Fixpoint collect_option {A} (l : list (option A)) : option (list A) :=
  match l with
  | [] => Some []
  | x :: rest => x >>? λ a, (λ r, a :: r) <$> collect_option rest
  end.

Definition key_split (key : string) : option (list string) :=
  if is_hashed key then None else collect_option (unescape <$> split_slash key).

Section Keys.
(** From [tinystoragedrivers_types] and [sha2]: the id rules, and the base32
    text of a digest. *)
Context (MAX_ID_LEN : nat) (validate_id : string → result StorageError unit)
        (digest_base32 : string → string).

Definition key_new (raw : string) : result StorageError string :=
  let? _ := validate_id raw in Ok raw.

Definition key_of (parts : list string) : result StorageError string :=
  match parts with
  | [] => Err (invalid_input "a key needs at least one part")
  | _ =>
      let escaped := join_parts true parts in
      key_new (if decide (MAX_ID_LEN < String.length escaped)
               then String.String HASH_MARK (digest_base32 escaped) else escaped)
  end.

End Keys.

(** ** Round trip *)

Definition no_slash (s : string) : Prop := SLASH ∉ String.list_ascii_of_string s.

Lemma no_slash_app a b : no_slash a → no_slash b → no_slash (a +:+ b).
Proof.
  unfold no_slash. induction a as [|c a IH]; cbn; [done|].
  intros [Hc Ha]%not_elem_of_cons Hb. apply not_elem_of_cons. auto.
Qed.

Lemma escape_char_no_slash c : no_slash (escape_char c).
Proof.
  unfold escape_char, no_slash. repeat case_decide; cbn; [set_solver..|].
  rewrite not_elem_of_cons. split; [done|set_solver].
Qed.

Lemma escape_chars_no_slash s : no_slash (escape_chars s).
Proof.
  induction s as [|c s IH]; [by unfold no_slash; cbn; set_solver|].
  by apply no_slash_app; [apply escape_char_no_slash|].
Qed.

Lemma escape_into_no_slash part first : no_slash (escape_into part first).
Proof.
  destruct part as [|c rest]; [by unfold no_slash; cbn; set_solver|]. cbn.
  apply no_slash_app; [|apply escape_chars_no_slash].
  destruct (first && _); [by unfold no_slash; cbn; set_solver|apply escape_char_no_slash].
Qed.

Lemma unescape_escape_char c s : unescape (escape_char c +:+ s) = String.String c <$> unescape s.
Proof.
  unfold escape_char. repeat case_decide; subst; [reflexivity..|].
  change (unescape (String.String c s) = String.String c <$> unescape s).
  cbn [unescape]. by destruct (decide (c = PERCENT)).
Qed.

Lemma unescape_escape_chars s : unescape (escape_chars s) = Some s.
Proof.
  induction s as [|c s IH]; [done|]. cbn. by rewrite unescape_escape_char, IH.
Qed.

Lemma unescape_escape_into part first : unescape (escape_into part first) = Some part.
Proof.
  destruct part as [|c rest]; [done|]. cbn.
  destruct (first && _) eqn:E.
  - apply andb_true_iff in E as [_ ->%bool_decide_eq_true].
    change (String.String HASH_MARK <$> unescape (escape_chars rest) =
            Some (String.String HASH_MARK rest)).
    by rewrite unescape_escape_chars.
  - by rewrite unescape_escape_char, unescape_escape_chars.
Qed.

Lemma app_empty_r s : s +:+ "" = s.
Proof. induction s as [|c s IH]; [done|]. exact (f_equal (String.String c) IH). Qed.

Lemma split_slash_cons s : ∃ seg segs, split_slash s = seg :: segs.
Proof.
  induction s as [|c s (seg & segs & IH)]; cbn; [by eexists _, _|].
  rewrite IH. case_decide; by eexists _, _.
Qed.

Lemma split_slash_app a s seg segs :
  no_slash a → split_slash s = seg :: segs → split_slash (a +:+ s) = (a +:+ seg) :: segs.
Proof.
  unfold no_slash. induction a as [|c a IH]; intros Ha Hs; [done|].
  apply not_elem_of_cons in Ha as [Hc Ha].
  change (split_slash (String.String c (a +:+ s)) = String.String c (a +:+ seg) :: segs).
  cbn [split_slash]. rewrite decide_False by done. by rewrite (IH Ha Hs).
Qed.

Lemma split_join_false parts :
  split_slash (join_parts false parts) = "" :: ((λ p, escape_into p false) <$> parts).
Proof.
  induction parts as [|p parts IH]; [done|]. cbn [join_parts].
  change (split_slash (String.String SLASH (escape_into p false +:+ join_parts false parts)) = "" ::
    escape_into p false :: ((λ p, escape_into p false) <$> parts)).
  cbn [split_slash]. rewrite decide_True by done.
  rewrite (split_slash_app _ _ _ _ (escape_into_no_slash p false) IH).
  by rewrite app_empty_r.
Qed.

Lemma split_join p parts :
  split_slash (join_parts true (p :: parts)) =
  escape_into p true :: ((λ p, escape_into p false) <$> parts).
Proof.
  change (join_parts true (p :: parts)) with (escape_into p true +:+ join_parts false parts).
  rewrite (split_slash_app _ _ _ _ (escape_into_no_slash p true) (split_join_false parts)).
  by rewrite app_empty_r.
Qed.

Lemma collect_escaped parts first :
  collect_option (unescape <$> ((λ p, escape_into p first) <$> parts)) = Some parts.
Proof.
  induction parts as [|p parts IH]; [done|]. cbn. by rewrite unescape_escape_into, IH.
Qed.

Lemma escaped_not_hashed parts : is_hashed (join_parts true parts) = false.
Proof.
  destruct parts as [|[|c rest] parts]; [done|by destruct parts|].
  change (join_parts true (String.String c rest :: parts)) with
    (((if bool_decide (c = HASH_MARK) then "%7E" else escape_char c) +:+ escape_chars rest) +:+
     join_parts false parts).
  destruct (bool_decide (c = HASH_MARK)) eqn:E; [done|]. unfold escape_char.
  repeat case_decide; [done..|by apply bool_decide_eq_false_2].
Qed.

Lemma key_split_join parts : parts ≠ [] → key_split (join_parts true parts) = Some parts.
Proof.
  intros Hne. unfold key_split. rewrite escaped_not_hashed. destruct parts as [|p parts]; [done|].
  rewrite split_join. cbn. by rewrite unescape_escape_into, collect_escaped.
Qed.
