(* ===== verification/Repo.v ===== *)
(** * Typed collections and the compare-and-swap loop

    [crates/tinyflows-storage/src/primitives/repo.rs] over the storage port.

    The port ([tinystoragedrivers]) is another repository's: it is the class
    [DocumentStore], a record of the operations the code calls, and what the
    code relies on is the class [LawfulDocs]: a conditional write succeeds only
    when its condition holds, and a failed write changes nothing.

    Other writers run between two calls of the port.  [Interference] is what
    they did before each call; [keeps_versions] says that they too go through
    the port, where a version names one document. *)

From S2P Require Import Prelude Json StorageKey.

(** ** The storage port *)

Inductive Precondition := PreNone | PreAbsent | PreVersion (v : N).

(** Metadata of a stored document. *)
Record Meta := mkMeta { meta_schema : N; meta_created_ms : Z; meta_expires_ms : option Z }.

Record Versioned (T : Type) := mkVersioned {
  ver_id : string;
  ver_version : N;
  ver_doc : T;
  ver_meta : Meta
}.
Arguments mkVersioned {T}.
Arguments ver_id {T}.
Arguments ver_version {T}.
Arguments ver_doc {T}.
Arguments ver_meta {T}.

Record WriteOptions := mkOptions { wo_schema : option N; wo_expires_ms : option Z }.
Definition WriteOptions_default : WriteOptions := mkOptions None None.

Notation StoreResult := (result StorageError).

Class DocumentStore (D : Type) := {
  doc_get : string → string → D → StoreResult (option (Versioned value));
  doc_put_with : string → string → value → Precondition → WriteOptions → D → D * StoreResult N;
  doc_delete : string → string → Precondition → D → D * StoreResult bool
}.

(** A precondition holds of the document the store has now. *)
Definition holds (p : Precondition) (current : option (Versioned value)) : Prop :=
  match p, current with
  | PreNone, _ | PreAbsent, None => True
  | PreVersion v, Some d => ver_version d = v
  | _, _ => False
  end.

(** What the code relies on: a call that succeeds did what it says to that one
    document, and a call that answers an error changed nothing.  A backend whose
    errors are ambiguous, where a write may have taken effect although the answer
    was lost, is outside these laws. *)
Class LawfulDocs (D : Type) `{!DocumentStore D} := {
  put_ok c i body p o s s' v :
    doc_put_with c i body p o s = (s', Ok v) →
    (∃ current, doc_get c i s = Ok current ∧ holds p current) ∧
    (∃ d, doc_get c i s' = Ok (Some d) ∧ ver_doc d = body ∧ ver_version d = v) ∧
    ∀ c' i', (c', i') ≠ (c, i) → doc_get c' i' s' = doc_get c' i' s;
  put_err c i body p o s s' e : doc_put_with c i body p o s = (s', Err e) → s' = s;
  delete_ok c i p s s' removed :
    doc_delete c i p s = (s', Ok removed) →
    (∃ current, doc_get c i s = Ok current ∧ holds p current) ∧
    doc_get c i s' = Ok None ∧
    ∀ c' i', (c', i') ≠ (c, i) → doc_get c' i' s' = doc_get c' i' s;
  delete_err c i p s s' e : doc_delete c i p s = (s', Err e) → s' = s
}.

(** Bodies as JSON. *)
Class Codec (T : Type) := { encode : T → value; decode_body : value → option T }.
(** The bodies the code builds survive the round trip. *)
Class LawfulCodec (T : Type) `{!Codec T} := {
  codec_ok : T → Prop;
  decode_encode t : codec_ok t → decode_body (encode t) = Some t
}.

(** What other writers did before the [k]-th call of the port. *)
Definition Interference (D : Type) : Type := nat → D → D.

(** A version names one document, whoever writes. *)
Definition keeps_versions {D} `{!DocumentStore D} (env : Interference D) : Prop :=
  ∀ k s c i d d', doc_get c i s = Ok (Some d) → doc_get c i (env k s) = Ok (Some d') →
    ver_version d = ver_version d' → d = d'.

(** ** Retry policy *)

Record RetryPolicy := mkRetry { rp_attempts : nat; rp_initial_backoff : N; rp_max_backoff : N }.
Definition RetryPolicy_default : RetryPolicy := mkRetry 32 1000000 8000000.
Definition RetryPolicy_immediate : RetryPolicy := mkRetry 32 0 0.

(** The bounds of the pause, in nanoseconds, after the failed attempt number
    [attempt]: the jitter picks one of them or a value between.  The doubling
    saturates: a shift past the width of a [u32] multiplies by [u32::MAX]. *)
Definition pause_cap (r : RetryPolicy) (attempt : N) : N :=
  N.min (rp_initial_backoff r * (if decide (attempt < 32)%N then 2 ^ attempt else 2 ^ 32 - 1))
    (rp_max_backoff r).
Definition pause (r : RetryPolicy) (random attempt : N) : N :=
  let nanos := N.min (pause_cap r attempt) (2 ^ 64 - 1) in
  if decide (nanos = 0%N) then 0%N
  else (let half := nanos / 2 in half + random mod (nanos - half + 1))%N.

Section Repo.
Context {D : Type} `{!DocumentStore D} {T : Type} `{!Codec T}.
Context (collection : string) (options : WriteOptions) (retry : RetryPolicy).
Context (env : Interference D).

Definition serialization_error : StorageError := mkStorageError Serialization "".

Definition decode (found : Versioned value) : StoreResult (Versioned T) :=
  match decode_body (ver_doc found) with
  | Some t => Ok (mkVersioned (ver_id found) (ver_version found) t (ver_meta found))
  | None => Err serialization_error
  end.

Definition decode_opt (found : option (Versioned value)) : StoreResult (option (Versioned T)) :=
  match found with
  | Some found => let? d := decode found in Ok (Some d)
  | None => Ok None
  end.

Definition repo_get (id : string) (s : D) : StoreResult (option (Versioned T)) :=
  let? found := doc_get collection id s in decode_opt found.

Definition repo_write (id : string) (v : T) (p : Precondition) (s : D) : D * StoreResult N :=
  doc_put_with collection id (encode v) p options s.
Definition repo_put (id : string) (v : T) (s : D) : D * StoreResult N := repo_write id v PreNone s.
Definition repo_insert (id : string) (v : T) (s : D) : D * StoreResult N :=
  repo_write id v PreAbsent s.
Definition repo_delete (id : string) (s : D) : D * StoreResult bool :=
  doc_delete collection id PreNone s.

(** One read of an attempt: the condition of the write and the value the
    closure is given. *)
Definition read_current (id : string) (s : D) : StoreResult (Precondition * option T) :=
  let? found := repo_get id s in
  Ok (match found with
      | Some found => (PreVersion (ver_version found), Some (ver_doc found))
      | None => (PreAbsent, None)
      end).

(** [update]: [fuel] attempts remain; [k] counts the calls of the port.  The
    closure may carry state ([FnMut]) from one call to the next. *)
Fixpoint update_loop {S} (fuel k : nat) (id : string)
    (f : S → option T → S * StoreResult (option T)) (st : S) (s : D)
    : D * S * StoreResult (option (T * N)) :=
  match fuel with
  | 0 => (s, st, Ok None)
  | S fuel' =>
      let s1 := env k s in
      match read_current id s1 with
      | Err e => (s1, st, Err e)
      | Ok (p, current) =>
          match f st current with
          | (st1, Err e) => (s1, st1, Err e)
          | (st1, Ok None) => (s1, st1, Ok None)
          | (st1, Ok (Some next)) =>
              let s2 := env (Datatypes.S k) s1 in
              match repo_write id next p s2 with
              | (s3, Ok v) => (s3, st1, Ok (Some (next, v)))
              | (s3, Err e) =>
                  if decide (se_kind e = Conflict ∧ fuel' ≠ 0)
                  then update_loop fuel' (Datatypes.S (Datatypes.S k)) id f st1 s3
                  else (s3, st1, Err e)
              end
          end
      end
  end.

Definition budget : nat := Nat.max (rp_attempts retry) 1.

Definition repo_update {S} (id : string) (f : S → option T → S * StoreResult (option T)) (st : S)
    (s : D) : D * S * StoreResult (option (T * N)) :=
  update_loop budget 0 id f st s.

(** [delete_if]. *)
Fixpoint delete_if_loop (fuel k : nat) (id : string) (matches : T → bool) (s : D)
    : D * StoreResult bool :=
  match fuel with
  | 0 => (s, Ok false)
  | S fuel' =>
      let s1 := env k s in
      match repo_get id s1 with
      | Err e => (s1, Err e)
      | Ok None => (s1, Ok false)
      | Ok (Some found) =>
          if matches (ver_doc found) then
            let s2 := env (S k) s1 in
            match doc_delete collection id (PreVersion (ver_version found)) s2 with
            | (s3, Ok removed) => (s3, Ok removed)
            | (s3, Err e) =>
                if decide (se_kind e = Conflict ∧ fuel' ≠ 0)
                then delete_if_loop fuel' (S (S k)) id matches s3
                else (s3, Err e)
            end
          else (s1, Ok false)
      end
  end.

Definition repo_delete_if (id : string) (matches : T → bool) (s : D) : D * StoreResult bool :=
  delete_if_loop budget 0 id matches s.

(** ** Atomicity *)

Context `{!LawfulDocs D} `{!LawfulCodec T}.
Context (Henv : keeps_versions env).

(** The stores other writers lead to, from [s]. *)
Inductive interfered (s : D) : D → Prop :=
| interfered_refl : interfered s s
| interfered_step k s' : interfered s s' → interfered s (env k s').

Lemma interfered_trans s s' s'' : interfered s s' → interfered s' s'' → interfered s s''.
Proof. induction 2 as [|k s'' _ IH]; [done|]. by constructor. Qed.

(** The value of a record at an instant. *)
Definition value_at (id : string) (s : D) (current : option T) : Prop :=
  ∃ found, doc_get collection id s = Ok found ∧
    match found, current with
    | Some d, Some t => decode_body (ver_doc d) = Some t
    | None, None => True
    | _, _ => False
    end.

Lemma value_at_det id s c1 c2 : value_at id s c1 → value_at id s c2 → c1 = c2.
Proof.
  intros (f1 & H1 & D1) (f2 & H2 & D2). rewrite H1 in H2. injection H2 as <-.
  destruct f1, c1, c2; try done. congruence.
Qed.

Lemma read_current_Ok id s p current :
  read_current id s = Ok (p, current) →
  value_at id s current ∧
  ∃ found, doc_get collection id s = Ok found ∧
    p = match found with Some d => PreVersion (ver_version d) | None => PreAbsent end.
Proof.
  unfold read_current, repo_get.
  destruct (doc_get collection id s) as [[d|]|] eqn:E; cbn; [| |done].
  - unfold decode. destruct (decode_body (ver_doc d)) as [t|] eqn:Ed; cbn; [|done].
    intros [= <- <-]. split; [by exists (Some d)|by exists (Some d)].
  - intros [= <- <-]. split; by exists None.
Qed.

(** What was read is still there when the condition of the write holds. *)
Lemma value_at_env k id s p current :
  read_current id s = Ok (p, current) →
  (∃ now, doc_get collection id (env k s) = Ok now ∧ holds p now) →
  value_at id (env k s) current.
Proof.
  intros [(f & Hf & Hc) (f' & Hf' & ->)]%read_current_Ok (now & Hn & Hh).
  rewrite Hf in Hf'. injection Hf' as <-. exists now. split; [done|].
  destruct f as [d|], now as [d'|]; cbn in Hh; try done.
  by rewrite <- (Henv k s _ _ _ _ Hf Hn).
Qed.

(** What a call of [update] did, seen from outside. *)
Inductive update_effect {S} (id : string) (f : S → option T → S * StoreResult (option T))
    (s : D) : D → S → StoreResult (option (T * N)) → Prop :=
| effect_none s' st' r :
    interfered s s' → (∀ x, r ≠ Ok (Some x)) → update_effect id f s s' st' r
| effect_write s0 st0 st1 current next v s1 :
    interfered s s0 → value_at id s0 current → f st0 current = (st1, Ok (Some next)) →
    (∃ p, repo_write id next p s0 = (s1, Ok v)) → (codec_ok next → value_at id s1 (Some next)) →
    update_effect id f s s1 st1 (Ok (Some (next, v))).

Lemma update_effect_from {S} id (f : S → option T → S * StoreResult (option T)) s s0 s1 st r :
  interfered s s0 → update_effect id f s0 s1 st r → update_effect id f s s1 st r.
Proof.
  intros Hi. destruct 1 as [s' st' r Hi' Hr|s0' st0 st1 current next v s1' Hi' Hv Hf Hw Hv'].
  - apply effect_none; [by eapply interfered_trans|done].
  - eapply effect_write; [by eapply interfered_trans|exact Hv|exact Hf|exact Hw|exact Hv'].
Qed.

Lemma update_loop_effect {S} id (f : S → option T → S * StoreResult (option T)) fuel : ∀ k st s,
  let '(s', st', r) := update_loop fuel k id f st s in update_effect id f s s' st' r.
Proof.
  induction fuel as [|fuel IH]; intros k st s; cbn [update_loop].
  { apply effect_none; [constructor|done]. }
  assert (H1 : interfered s (env k s)) by (constructor; constructor).
  destruct (read_current id (env k s)) as [[p current]|e] eqn:Er; [|by apply effect_none].
  destruct (f st current) as [st1 [[next|]|e]] eqn:Ef; [|by apply effect_none..].
  set (s2 := env (Datatypes.S k) (env k s)) in *.
  assert (H2 : interfered s s2) by by constructor.
  destruct (repo_write id next p s2) as [s3 [v|e]] eqn:Ew.
  - destruct (put_ok _ _ _ _ _ _ _ _ Ew) as (Hh & (d & Hd & Hb & _) & _).
    eapply effect_write; [exact H2| |exact Ef|by exists p|].
    + by eapply value_at_env.
    + intros Hok. exists (Some d). split; [done|]. rewrite Hb. by apply decode_encode.
  - pose proof (put_err _ _ _ _ _ _ _ _ Ew) as ->. case_decide; [|by apply effect_none].
    specialize (IH (Datatypes.S (Datatypes.S k)) st1 s2).
    destruct (update_loop fuel _ id f st1 s2) as [[s' st'] r].
    by eapply update_effect_from.
Qed.

(** [update] is one atomic step: it either leaves the store to the other writers,
    or at some instant replaces the value the closure saw by the one it
    returned. *)
Lemma repo_update_effect {S} id (f : S → option T → S * StoreResult (option T)) st s :
  let '(s', st', r) := repo_update id f st s in update_effect id f s s' st' r.
Proof. apply update_loop_effect. Qed.

Lemma repo_write_frame id next p s s' v c' i' :
  repo_write id next p s = (s', Ok v) → (c', i') ≠ (collection, id) →
  doc_get c' i' s' = doc_get c' i' s.
Proof. intros Hw Hne. by apply (put_ok _ _ _ _ _ _ _ _ Hw). Qed.
End Repo.

(** ** Backoff *)

Lemma pause_bounds r random attempt :
  (pause r random attempt ≤ rp_max_backoff r ∧
   N.min (pause_cap r attempt) (2 ^ 64 - 1) / 2 ≤ pause r random attempt)%N.
Proof.
  unfold pause. set (nanos := N.min (pause_cap r attempt) (2 ^ 64 - 1)).
  assert (Hn : (nanos ≤ rp_max_backoff r)%N) by (unfold nanos, pause_cap; lia).
  case_decide as Hz; [rewrite Hz; split; [lia|by vm_compute]|].
  assert (random mod (nanos - nanos / 2 + 1) < nanos - nanos / 2 + 1)%N by (apply N.mod_lt; lia).
  pose proof (N.Div0.mul_div_le nanos 2). clearbody nanos.
  generalize dependent (random mod (nanos - nanos / 2 + 1))%N. intros x Hx.
  generalize dependent (nanos / 2)%N. intros half Hx Hhalf. lia.
Qed.
