(* ===== verification/Leases.v ===== *)
(** * Leases

    [crates/tinyflows-storage/src/primitives/leases.rs] and
    [leases/acquire_with.rs]: time-limited ownership with a fencing epoch.

    The closures the operations pass to [Repo::update] are the [*_body]
    functions: what becomes of the record at a time.  [lease_op] collects them
    as the transitions of one record, over which the invariants are proved;
    the operations themselves run them through the compare-and-swap loop. *)

From S2P Require Import Prelude Json StorageKey Repo.

(** ** Data *)

Record LeaseBody := mkLeaseBody {
  lb_holder : string;
  lb_epoch : Z;
  lb_expires_ms : Z;
  lb_endpoint : option string;
  lb_released : bool
}.

Record LeaseRecord := mkLeaseRecord {
  lr_holder : string;
  lr_endpoint : option string;
  lr_epoch : Z;
  lr_expires_ms : Z;
  lr_released : bool
}.

Record Lease := mkLease {
  ls_id : string;
  ls_holder : string;
  ls_epoch : Z;
  ls_expires_ms : Z;
  ls_endpoint : option string
}.

Record Acquire := mkAcquire {
  aq_owner : string;
  aq_key : string;
  aq_holder : string;
  aq_ttl_ms : Z;
  aq_endpoint : option string;
  aq_held_epoch : option Z
}.

Inductive Acquisition :=
| Granted (lease : Lease) (previous_unclean : bool)
| Held (record : LeaseRecord).

Definition record_of_body (b : LeaseBody) : LeaseRecord :=
  mkLeaseRecord (lb_holder b) (lb_endpoint b) (lb_epoch b) (lb_expires_ms b) (lb_released b).
Definition lease_of_body (id : string) (b : LeaseBody) : Lease :=
  mkLease id (lb_holder b) (lb_epoch b) (lb_expires_ms b) (lb_endpoint b).

Definition record_is_live (r : LeaseRecord) (now_ms : Z) : bool :=
  negb (lr_released r) && bool_decide (now_ms < lr_expires_ms r)%Z.

Definition LEASES : string := "tsd.leases".

(** [Serialize] and [Deserialize]: absent optional fields are skipped. *)
Definition encode_lease (b : LeaseBody) : value :=
  json_object ([("holder", Str (lb_holder b)); ("epoch", Number (PosInt (lb_epoch b)));
                ("expires_ms", value_of_i64 (lb_expires_ms b))] ++
    match lb_endpoint b with Some e => [("endpoint", Str e)] | None => [] end ++
    if lb_released b then [("released", Bool true)] else []).

Definition opt_string (v : option value) : option (option string) :=
  match v with
  | None | Some Null => Some None
  | Some (Str s) => Some (Some s)
  | Some _ => None
  end.
Definition opt_bool (v : option value) : option bool :=
  match v with None => Some false | Some (Bool b) => Some b | Some _ => None end.

Definition decode_lease (v : value) : option LeaseBody :=
  get "holder" v >>? as_str >>? λ holder,
  get "epoch" v >>? as_u64 >>? λ epoch,
  get "expires_ms" v >>? as_i64 >>? λ expires_ms,
  opt_string (get "endpoint" v) >>? λ endpoint,
  opt_bool (get "released" v) >>? λ released,
  Some (mkLeaseBody holder epoch expires_ms endpoint released).

#[export] Instance LeaseBody_codec : Codec LeaseBody :=
  {| encode := encode_lease; decode_body := decode_lease |}.

(** ** What the closures make of a record *)

(** Whether the record excludes others. *)
Definition live (now : Z) (b : LeaseBody) : bool :=
  bool_decide (now < lb_expires_ms b)%Z && negb (lb_released b).

Definition deadline (clock ttl_ms : Z) : StoreResult (Z * Z) :=
  if decide (ttl_ms ≤ 0)%Z then Err (invalid_input "a lease ttl must be positive")
  else if decide (clock ≤ i64_max)%Z then
    if decide (clock + ttl_ms ≤ i64_max)%Z then Ok (clock, (clock + ttl_ms)%Z)
    else Err (invalid_input "lease ttl out of range")
  else Err (invalid_input "clock out of range").

Definition next_epoch (b : LeaseBody) : StoreResult Z :=
  if decide (lb_epoch b + 1 ≤ u64_max)%Z then Ok (lb_epoch b + 1)%Z
  else Err (backend "lease epoch overflow").

Definition acquire_body (holder : string) (ttl_ms clock : Z) (current : option LeaseBody)
    : StoreResult (option LeaseBody) :=
  let? times := deadline clock ttl_ms in
  let '(now, expires_ms) := times in
  let grant epoch := Ok (Some (mkLeaseBody holder epoch expires_ms None false)) in
  match current with
  | None => grant 1%Z
  | Some lease =>
      if live now lease then
        if decide (lb_holder lease = holder) then grant (lb_epoch lease) else Ok None
      else let? epoch := next_epoch lease in grant epoch
  end.

Definition is_tenure (holder : string) (epoch : Z) (b : LeaseBody) : bool :=
  bool_decide (lb_holder b = holder ∧ lb_epoch b = epoch).

Definition renew_body (holder : string) (epoch ttl_ms clock : Z) (current : option LeaseBody)
    : StoreResult (option LeaseBody) :=
  let? times := deadline clock ttl_ms in
  let '(now, expires_ms) := times in
  Ok (match current with
      | Some lease =>
          if is_tenure holder epoch lease && live now lease
          then Some (mkLeaseBody (lb_holder lease) (lb_epoch lease) expires_ms (lb_endpoint lease)
                       (lb_released lease))
          else None
      | None => None
      end).

Definition release_body (holder : string) (epoch now : Z) (current : option LeaseBody)
    : StoreResult (option LeaseBody) :=
  Ok (match current with
      | Some lease =>
          if is_tenure holder epoch lease && live now lease
          then Some (mkLeaseBody (lb_holder lease) (lb_epoch lease) now (lb_endpoint lease) true)
          else None
      | None => None
      end).

(** The variables the closure of [acquire_with] captures. *)
Record AcquireVars := mkVars { av_unclean : bool; av_seen : option LeaseBody; av_attempts : nat }.

Definition acquire_with_body (r : Acquire) (clock : nat → Z) (vars : AcquireVars)
    (current : option LeaseBody) : AcquireVars * StoreResult (option LeaseBody) :=
  let i := av_attempts vars in
  match deadline (clock i) (aq_ttl_ms r) with
  | Err e => (vars, Err e)
  | Ok (now, expires_ms) =>
      let raced := bool_decide (0 < i) in
      let grant epoch was_unclean :=
        (mkVars was_unclean None (S i),
         Ok (Some (mkLeaseBody (aq_holder r) epoch expires_ms (aq_endpoint r) false))) in
      match current with
      | None => grant 1%Z false
      | Some found =>
          if live now found && bool_decide (lb_holder found = aq_holder r ∧
                                            aq_held_epoch r = Some (lb_epoch found))
          then grant (lb_epoch found) false
          else if live now found &&
                  (bool_decide (lb_holder found ≠ aq_holder r) || raced ||
                   bool_decide (is_Some (aq_held_epoch r)))
          then (mkVars false current (S i), Ok None)
          else
            match next_epoch found with
            | Ok next => grant next (negb (lb_released found))
            | Err e => (mkVars false None (S i), Err e)
            end
      end
  end.

(** ** The operations *)

Section Operations.
Context {D : Type} `{!DocumentStore D} (env : Interference D) (retry : RetryPolicy).
Context (MAX_ID_LEN : nat) (validate_id : string → StoreResult unit)
        (digest_base32 : string → string).
(** The reading of the clock on the [i]-th time it is asked. *)
Context (clock : nat → Z).

Definition lease_id (owner key : string) : StoreResult string :=
  key_of MAX_ID_LEN validate_id digest_base32 [owner; key].

(** A closure that captures nothing but the clock. *)
Definition timed (f : Z → option LeaseBody → StoreResult (option LeaseBody)) (i : nat)
    (current : option LeaseBody) : nat * StoreResult (option LeaseBody) :=
  (S i, f (clock i) current).

Definition lease_update {S} (id : string)
    (f : S → option LeaseBody → S * StoreResult (option LeaseBody)) (st : S) (s : D)
    : D * S * StoreResult (option (LeaseBody * N)) :=
  repo_update LEASES WriteOptions_default retry env id f st s.

Definition acquire (owner key holder : string) (ttl_ms : Z) (s : D)
    : D * StoreResult (option Lease) :=
  match lease_id owner key with
  | Err e => (s, Err e)
  | Ok id =>
      let '(s', _, stored) := lease_update id (timed (acquire_body holder ttl_ms)) 0 s in
      (s', let? st := stored in Ok ((λ p, lease_of_body id p.1) <$> st))
  end.

Definition renew (owner key holder : string) (epoch ttl_ms : Z) (s : D)
    : D * StoreResult (option Lease) :=
  match lease_id owner key with
  | Err e => (s, Err e)
  | Ok id =>
      let '(s', _, stored) := lease_update id (timed (renew_body holder epoch ttl_ms)) 0 s in
      (s', let? st := stored in Ok ((λ p, lease_of_body id p.1) <$> st))
  end.

Definition clock_now : StoreResult Z :=
  if decide (clock 0 ≤ i64_max)%Z then Ok (clock 0) else Err (invalid_input "clock out of range").

Definition release (owner key holder : string) (epoch : Z) (s : D) : D * StoreResult bool :=
  match lease_id owner key with
  | Err e => (s, Err e)
  | Ok id =>
      match clock_now with
      | Err e => (s, Err e)
      | Ok now =>
          let '(s', _, stored) :=
            lease_update id (λ (u : unit) current, (u, release_body holder epoch now current)) () s in
          (s', let? st := stored in Ok (bool_decide (is_Some st)))
      end
  end.

Definition acquire_with (r : Acquire) (s : D) : D * StoreResult Acquisition :=
  match lease_id (aq_owner r) (aq_key r) with
  | Err e => (s, Err e)
  | Ok id =>
      let '(s', vars, stored) :=
        lease_update id (acquire_with_body r clock) (mkVars false None 0) s in
      (s', let? st := stored in
           match st, av_seen vars with
           | Some (body, _), _ => Ok (Granted (lease_of_body id body) (av_unclean vars))
           | None, Some body => Ok (Held (record_of_body body))
           | None, None => Err (backend "lease acquire declined without a live record")
           end)
  end.

Definition lease_get (id : string) (s : D) : StoreResult (option (Versioned LeaseBody)) :=
  repo_get LEASES id s.

Definition current (owner key : string) (s : D) : StoreResult (option Lease) :=
  let? id := lease_id owner key in
  let? now := clock_now in
  let? found := lease_get id s in
  Ok (match found with
      | Some found => if live now (ver_doc found) then Some (lease_of_body id (ver_doc found)) else None
      | None => None
      end).

Definition inspect (owner key : string) (s : D) : StoreResult (option LeaseRecord) :=
  let? id := lease_id owner key in
  let? found := lease_get id s in
  Ok ((λ found, record_of_body (ver_doc found)) <$> found).

Definition compact (owner key holder : string) (epoch : Z) (s : D) : D * StoreResult bool :=
  match lease_id owner key with
  | Err e => (s, Err e)
  | Ok id => repo_delete_if LEASES retry env id (is_tenure holder epoch) s
  end.
End Operations.

(** * Tenures of a lease

    The transitions of one lease record, and what holds of it after any sequence
    of them: epochs only move forward, a live lease excludes others, and a tenure
    that ended never comes back. *)

(** ** Codec *)

Definition lease_ok (b : LeaseBody) : Prop := (i64_min ≤ lb_expires_ms b ≤ i64_max)%Z.

Lemma as_i64_value_of_i64 z : (z ≤ i64_max)%Z → as_i64 (value_of_i64 z) = Some z.
Proof. intros Hz. unfold value_of_i64. case_decide; cbn; [by rewrite decide_True|done]. Qed.

Lemma decode_encode_lease b : lease_ok b → decode_lease (encode_lease b) = Some b.
Proof.
  intros [_ Hz]. destruct b as [h e z [en|] r]; cbn in Hz; pose proof (as_i64_value_of_i64 z Hz) as Hv;
    revert Hv; unfold encode_lease; cbn [lb_expires_ms lb_endpoint lb_released lb_holder lb_epoch];
    generalize (value_of_i64 z); intros v Hv; destruct r.
  all: match goal with
       | |- _ = Some (mkLeaseBody _ _ _ ?en ?r) =>
           change (as_i64 v >>? (λ x, Some (mkLeaseBody h e x en r)) = Some (mkLeaseBody h e z en r))
       end; by rewrite Hv.
Qed.

#[export] Instance lease_lawful : LawfulCodec LeaseBody :=
  {| codec_ok := lease_ok; decode_encode := decode_encode_lease |}.

(** ** Transitions *)

Inductive LeaseOp :=
| OpAcquire (holder : string) (ttl_ms now : Z)
| OpRenew (holder : string) (epoch ttl_ms now : Z)
| OpRelease (holder : string) (epoch now : Z)
| OpAcquireWith (r : Acquire) (raced : bool) (now : Z)
| OpCompact (holder : string) (epoch now : Z).

(** When the operation takes place, and the holder it names. *)
Definition op_time (op : LeaseOp) : Z :=
  match op with
  | OpAcquire _ _ now | OpRenew _ _ _ now | OpRelease _ _ now | OpAcquireWith _ _ now
  | OpCompact _ _ now => now
  end.

Definition op_holder (op : LeaseOp) : string :=
  match op with
  | OpAcquire h _ _ | OpRenew h _ _ _ | OpRelease h _ _ | OpCompact h _ _ => h
  | OpAcquireWith r _ _ => aq_holder r
  end.

(** The record an operation writes over the one it finds. *)
Definition op_write (op : LeaseOp) (current : option LeaseBody) : StoreResult (option LeaseBody) :=
  match op with
  | OpAcquire h ttl now => acquire_body h ttl now current
  | OpRenew h e ttl now => renew_body h e ttl now current
  | OpRelease h e now => release_body h e now current
  | OpAcquireWith r raced now =>
      (acquire_with_body r (λ _, now) (mkVars false None (if raced then 1 else 0)) current).2
  | OpCompact _ _ _ => Ok None
  end.

(** Whether the operation drops the record it finds: a compaction of the very
    tenure it names. *)
Definition op_drops (op : LeaseOp) (current : option LeaseBody) : bool :=
  match op, current with
  | OpCompact h e _, Some b => is_tenure h e b
  | _, _ => false
  end.

Definition lease_next (op : LeaseOp) (current : option LeaseBody) : option LeaseBody :=
  if op_drops op current then None
  else match op_write op current with Ok (Some b) => Some b | _ => current end.

Fixpoint run_ops (ops : list LeaseOp) (current : option LeaseBody) : option LeaseBody :=
  match ops with
  | [] => current
  | op :: rest => run_ops rest (lease_next op current)
  end.

(** Whether some compaction of the sequence drops a record. *)
Fixpoint compacted (ops : list LeaseOp) (current : option LeaseBody) : bool :=
  match ops with
  | [] => false
  | op :: rest => op_drops op current || compacted rest (lease_next op current)
  end.

Lemma deadline_Ok clock ttl now expires :
  deadline clock ttl = Ok (now, expires) → now = clock ∧ expires = (clock + ttl)%Z ∧
    (0 < ttl)%Z ∧ (clock + ttl ≤ i64_max)%Z.
Proof. unfold deadline. repeat case_decide; [done| |done..]. intros [= <- <-]. lia. Qed.

Lemma next_epoch_Ok b e : next_epoch b = Ok e → e = (lb_epoch b + 1)%Z.
Proof. unfold next_epoch. case_decide; [by intros [= <-]|done]. Qed.

(** How a write changes the record it found: it continues a live tenure of the
    same holder, or opens the next one. *)
Inductive tenure_step (now : Z) (b b' : LeaseBody) : Prop :=
| same_tenure :
    live now b = true → lb_holder b' = lb_holder b → lb_epoch b' = lb_epoch b → tenure_step now b b'
| new_tenure : lb_epoch b' = (lb_epoch b + 1)%Z → tenure_step now b b'.

Lemma filtered_write now holder epoch b (f : LeaseBody → LeaseBody) b' :
  (if is_tenure holder epoch b && live now b then Some (f b) else None) = Some b' →
  b' = f b ∧ lb_holder b = holder ∧ live now b = true.
Proof.
  unfold is_tenure. destruct (bool_decide (lb_holder b = holder ∧ lb_epoch b = epoch)) eqn:E;
    cbn; [|done].
  destruct (live now b) eqn:El; [|done]. intros [= <-]. apply bool_decide_eq_true in E. naive_solver.
Qed.

Lemma op_write_step op b b' :
  op_write op (Some b) = Ok (Some b') →
  lb_holder b' = op_holder op ∧ tenure_step (op_time op) b b' ∧
  (live (op_time op) b = true → lb_holder b = op_holder op).
Proof.
  destruct op as [h ttl now|h e ttl now|h e now|r raced now|h e now]; cbn [op_write op_holder op_time]; [..|done].
  - unfold acquire_body. destruct (deadline now ttl) as [[t x]|] eqn:Ed; [|done]. cbn.
    apply deadline_Ok in Ed as (-> & _).
    destruct (live now b) eqn:El.
    + case_decide; [|done]. intros [= <-]. cbn. split_and!; [done|by constructor|done].
    + destruct (next_epoch b) as [ep|] eqn:En; [|done]. intros [= <-]. cbn.
      apply next_epoch_Ok in En as ->. split_and!; [done|by constructor 2|done].
  - unfold renew_body. destruct (deadline now ttl) as [[t x]|] eqn:Ed; [|done]. cbn.
    apply deadline_Ok in Ed as (-> & _).
    intros [= (-> & <- & Hl)%(filtered_write now h e b
      (λ b, mkLeaseBody (lb_holder b) (lb_epoch b) x (lb_endpoint b) (lb_released b)))].
    cbn. split_and!; [done|by constructor|done].
  - unfold release_body.
    intros [= (-> & <- & Hl)%(filtered_write now h e b
      (λ b, mkLeaseBody (lb_holder b) (lb_epoch b) now (lb_endpoint b) true))].
    cbn. split_and!; [done|by constructor|done].
  - unfold acquire_with_body. cbn [av_attempts].
    destruct (deadline now (aq_ttl_ms r)) as [[t x]|] eqn:Ed; [|done].
    apply deadline_Ok in Ed as (-> & _).
    destruct (live now b) eqn:El; cbn [andb].
    + destruct (bool_decide (lb_holder b = aq_holder r ∧ _)) eqn:E1.
      { apply bool_decide_eq_true in E1 as [<- _]. intros [= <-]. cbn.
        split_and!; [done|by constructor|done]. }
      destruct (bool_decide (lb_holder b ≠ aq_holder r)) eqn:E2; [done|].
      apply bool_decide_eq_false, dec_stable in E2. cbn [orb].
      destruct (_ || _); [done|]. destruct (next_epoch b) as [ep|] eqn:En; [|done].
      intros [= <-]. apply next_epoch_Ok in En as ->. cbn. split_and!; [done|by constructor 2|done].
    + destruct (next_epoch b) as [ep|] eqn:En; [|done]. intros [= <-].
      apply next_epoch_Ok in En as ->. cbn. split_and!; [done|by constructor 2|done].
Qed.

(** A write over no record opens epoch 1. *)
Lemma op_write_fresh op b' :
  op_write op None = Ok (Some b') → lb_holder b' = op_holder op ∧ lb_epoch b' = 1%Z.
Proof.
  destruct op as [h ttl now|h e ttl now|h e now|r raced now|h e now]; cbn [op_write op_holder]; [..|done].
  - unfold acquire_body. destruct (deadline now ttl) as [[t x]|]; [|done]. by intros [= <-].
  - unfold renew_body. by destruct (deadline now ttl) as [[t x]|].
  - done.
  - unfold acquire_with_body. cbn [av_attempts].
    destruct (deadline now (aq_ttl_ms r)) as [[t x]|]; [|done]. by intros [= <-].
Qed.

Lemma lease_next_case op c :
  op_drops op c = false →
  lease_next op c = c ∨ ∃ b', op_write op c = Ok (Some b') ∧ lease_next op c = Some b'.
Proof. unfold lease_next. intros ->. destruct (op_write op c) as [[b'|]|]; eauto. Qed.

(** ** Sequences *)

(** Induction over the sequences that drop no record: each operation leaves the
    record or takes a step of its tenure. *)
Lemma run_ops_ind (P : list LeaseOp → LeaseBody → LeaseBody → Prop) :
  (∀ b, P [] b b) →
  (∀ op ops b b', P ops b b' → P (op :: ops) b b') →
  (∀ op ops b b1 b', op_write op (Some b) = Ok (Some b1) → P ops b1 b' → P (op :: ops) b b') →
  ∀ ops b, compacted ops (Some b) = false → ∃ b', run_ops ops (Some b) = Some b' ∧ P ops b b'.
Proof.
  intros Hnil Hkeep Hstep ops. induction ops as [|op ops IH]; intros b Hc; cbn in *; [by exists b; auto|].
  apply orb_false_iff in Hc as [Hd Hc].
  destruct (lease_next_case op (Some b) Hd) as [Hn|(b1 & Hw & Hn)]; rewrite Hn in *;
    destruct (IH _ Hc) as (b' & Hr & HP); exists b'; split; eauto.
Qed.

(** Epochs go up, an epoch has one holder, and a tenure that is not live any
    more is never written again. *)
Definition fenced (ops : list LeaseOp) (b b' : LeaseBody) : Prop :=
  (lb_epoch b ≤ lb_epoch b')%Z ∧
  (lb_epoch b' = lb_epoch b → lb_holder b' = lb_holder b) ∧
  ∀ now, Forall (λ op, (now ≤ op_time op)%Z) ops → live now b = false →
    lb_epoch b' = lb_epoch b → b' = b.

Lemma live_later t now b : (now ≤ t)%Z → live now b = false → live t b = false.
Proof.
  unfold live. intros Ht Hd. destruct (lb_released b); [by rewrite andb_false_r|].
  rewrite andb_true_r in *. apply bool_decide_eq_false in Hd. apply bool_decide_eq_false. lia.
Qed.

Lemma run_ops_fenced ops b :
  compacted ops (Some b) = false → ∃ b', run_ops ops (Some b) = Some b' ∧ fenced ops b b'.
Proof.
  revert ops b. apply (run_ops_ind fenced); unfold fenced.
  - intros b. split_and!; [lia|done..].
  - intros op ops b b' (He & Hh & Hd). split_and!; [done..|].
    intros now [_ Ht]%Forall_cons. by apply Hd.
  - intros op ops b b1 b' (_ & Hs & _)%op_write_step (He & Hh & _).
    destruct Hs as [Hl Hh1 He1|He1]; [|split_and!; lia].
    split_and!; [lia|intros E; rewrite Hh by lia; congruence|].
    intros now [Hop _]%Forall_cons Hd. by rewrite (live_later _ _ _ Hop Hd) in Hl.
Qed.

(** While a lease is live, operations naming another holder change nothing. *)
Lemma run_ops_exclusive ops : ∀ b,
  Forall (λ op, op_holder op ≠ lb_holder b ∧ live (op_time op) b = true) ops →
  run_ops ops (Some b) = Some b.
Proof.
  induction ops as [|op ops IH]; intros b Ht; [done|]. cbn.
  apply Forall_cons in Ht as [[Hne Hl] Ht].
  assert (op_drops op (Some b) = false) as Hd.
  { destruct op; try done. cbn in *. apply bool_decide_eq_false. intros [E _]. by destruct Hne. }
  destruct (lease_next_case op (Some b) Hd) as [->|(b1 & Hw & _)]; [by apply IH|].
  destruct (op_write_step _ _ _ Hw) as (_ & _ & Hh). by destruct Hne; rewrite Hh.
Qed.

(** The record is dropped by a compaction that names its very tenure. *)
Lemma compacted_tenure ops : ∀ b,
  compacted ops (Some b) = true →
  ∃ pre h e t post b1, ops = pre ++ OpCompact h e t :: post ∧ compacted pre (Some b) = false ∧
    run_ops pre (Some b) = Some b1 ∧ lb_holder b1 = h ∧ lb_epoch b1 = e.
Proof.
  induction ops as [|op ops IH]; intros b Hc; [done|]. cbn in Hc.
  destruct (op_drops op (Some b)) eqn:Hd.
  - destruct op as [| | | |h e t]; try done. cbn in Hd. apply bool_decide_eq_true in Hd as [Hh He].
    by exists [], h, e, t, ops, b.
  - cbn in Hc. destruct (lease_next_case op (Some b) Hd) as [Hn|(b0 & _ & Hn)]; rewrite Hn in Hc;
      destruct (IH _ Hc) as (pre & h & e & t & post & b1 & -> & Hp & Hr & Hh & He);
      exists (op :: pre), h, e, t, post, b1; cbn; rewrite Hd, Hn; done.
Qed.
