(* ===== verification/StoragePrimitives.v ===== *)
(** * Counters and key-value entries

    [crates/tinyflows-storage/src/primitives/{counters,kv}.rs] over [Repo]. *)

From stdpp Require Import sorting.
From S2P Require Import Prelude Json StorageKey Repo.
From Stdlib Require Import Ascii.
From Stdlib Require String.

Definition COUNTERS : string := "tsd.counters".
Definition KV : string := "tsd.kv".

(** ** Counters *)

Record CounterBody := mkCounter { ct_value : Z }.

#[export] Instance CounterBody_codec : Codec CounterBody :=
  {| encode b := json_object [("value", Number (PosInt (ct_value b)))];
     decode_body v := get "value" v >>? as_u64 >>? λ n, Some (mkCounter n) |}.

#[export] Instance CounterBody_lawful : LawfulCodec CounterBody.
Proof. refine {| codec_ok := λ _, True |}. by intros [n]. Defined.

Definition MAX_VALUE : Z := i64_max.

(** [checked_add(1)] of a [u64], kept within [MAX_VALUE]. *)
Definition next_value (body : option CounterBody) : option Z :=
  match body with
  | None => Some 1%Z
  | Some b => if decide (ct_value b + 1 ≤ u64_max ∧ ct_value b + 1 ≤ MAX_VALUE)%Z
              then Some (ct_value b + 1)%Z else None
  end.

Definition next_body (body : option CounterBody) : StoreResult (option CounterBody) :=
  match next_value body with
  | Some v => Ok (Some (mkCounter v))
  | None => Err (invalid_input "counter overflow")
  end.

Definition at_least_body (minimum : Z) (body : option CounterBody)
    : StoreResult (option CounterBody) :=
  Ok (match body with
      | Some b => if decide (minimum ≤ ct_value b)%Z then None else Some (mkCounter minimum)
      | None => Some (mkCounter minimum)
      end).

(** A closure that captures nothing. *)
Definition stateless {T} (f : option T → StoreResult (option T)) (u : unit) (current : option T)
    : unit * StoreResult (option T) := (u, f current).

Section Counters.
Context {D : Type} `{!DocumentStore D} (env : Interference D) (retry : RetryPolicy).
Context (MAX_ID_LEN : nat) (validate_id : string → StoreResult unit)
        (digest_base32 : string → string).

Definition counter_id (owner name : string) : StoreResult string :=
  key_of MAX_ID_LEN validate_id digest_base32 [owner; name].

Definition counter_update (id : string) (f : option CounterBody → StoreResult (option CounterBody))
    (s : D) : D * unit * StoreResult (option (CounterBody * N)) :=
  repo_update COUNTERS WriteOptions_default retry env id (stateless f) () s.

Definition counter_next (owner name : string) (s : D) : D * StoreResult Z :=
  match counter_id owner name with
  | Err e => (s, Err e)
  | Ok id =>
      let '(s', _, stored) := counter_update id next_body s in
      (s', let? st := stored in
           match st with
           | Some (body, _) => Ok (ct_value body)
           | None => Err (backend "counter update declined unexpectedly")
           end)
  end.

Definition peek (owner name : string) (s : D) : StoreResult Z :=
  let? id := counter_id owner name in
  let? found := repo_get (T := CounterBody) COUNTERS id s in
  Ok (match found with Some d => ct_value (ver_doc d) | None => 0%Z end).

Definition set_at_least (owner name : string) (minimum : Z) (s : D) : D * StoreResult Z :=
  if decide (MAX_VALUE < minimum)%Z
  then (s, Err (invalid_input "counter value out of range"))
  else
    match counter_id owner name with
    | Err e => (s, Err e)
    | Ok id =>
        match counter_update id (at_least_body minimum) s with
        | (s', _, Err e) => (s', Err e)
        | (s', _, Ok (Some (body, _))) => (s', Ok (ct_value body))
        | (s', _, Ok None) => (s', peek owner name s')
        end
    end.
End Counters.

(** Counts only go up, one at a time, and stay within the range every driver
    can store. *)
Lemma next_body_Ok current b :
  next_body current = Ok (Some b) →
  ct_value b = (match current with Some c => ct_value c | None => 0 end + 1)%Z ∧
  (ct_value b ≤ MAX_VALUE)%Z.
Proof.
  unfold next_body, next_value. destruct current as [c|].
  - case_decide; [|done]. intros [= <-]. cbn. lia.
  - intros [= <-]. cbn. split; [done|]. by vm_compute.
Qed.

Lemma next_body_write current : next_body current ≠ Ok None.
Proof. unfold next_body. by destruct (next_value current). Qed.

(** ** Key-value entries *)

Record KvEntry := mkEntry { kv_owner : string; kv_ns : string; kv_key : string; kv_value : value }.

#[export] Instance KvEntry_codec : Codec KvEntry :=
  {| encode e := json_object [("owner", Str (kv_owner e)); ("ns", Str (kv_ns e));
                              ("key", Str (kv_key e)); ("value", kv_value e)];
     decode_body v :=
       get "owner" v >>? as_str >>? λ owner,
       get "ns" v >>? as_str >>? λ ns,
       get "key" v >>? as_str >>? λ key,
       get "value" v >>? λ v, Some (mkEntry owner ns key v) |}.

#[export] Instance KvEntry_lawful : LawfulCodec KvEntry.
Proof. refine {| codec_ok := λ _, True |}. by intros [o n k v]. Defined.

(** A handle on one namespace. *)
Record Kv := mkKv { kvh_owner : string; kvh_ns : string }.

Definition kv_ns_handle (owner ns : string) : StoreResult Kv :=
  if decide (owner = "" ∨ ns = "")
  then Err (invalid_input "a key-value owner and namespace must not be empty")
  else Ok (mkKv owner ns).

(** [starts_with]. *)
Definition starts_with (prefix s : string) : bool := String.prefix prefix s.

Section Kv.
Context {D : Type} `{!DocumentStore D}.
Context (MAX_ID_LEN : nat) (validate_id : string → StoreResult unit)
        (digest_base32 : string → string).
(** The caller's type, as JSON. *)
Context {T : Type} (to_value : T → value) (of_value : value → option T).
(** A page of the entries of a namespace from a lower bound on, sorted by key,
    after a cursor. *)
Context {Cursor : Type}
  (kv_query : Kv → string → option Cursor → D → StoreResult (list KvEntry * option Cursor)).

Definition kv_id (h : Kv) (key : string) : StoreResult string :=
  key_of MAX_ID_LEN validate_id digest_base32 [kvh_owner h; kvh_ns h; key].

Definition parse_value (v : value) : StoreResult T :=
  match of_value v with Some t => Ok t | None => Err serialization_error end.

Definition kv_get (h : Kv) (key : string) (s : D) : StoreResult (option T) :=
  let? id := kv_id h key in
  let? found := repo_get (T := KvEntry) KV id s in
  match found with
  | Some d => let? t := parse_value (kv_value (ver_doc d)) in Ok (Some t)
  | None => Ok None
  end.

Definition kv_put (h : Kv) (key : string) (t : T) (s : D) : D * StoreResult N :=
  match kv_id h key with
  | Err e => (s, Err e)
  | Ok id => repo_put KV WriteOptions_default id (mkEntry (kvh_owner h) (kvh_ns h) key (to_value t)) s
  end.

Definition kv_delete (h : Kv) (key : string) (s : D) : D * StoreResult bool :=
  match kv_id h key with
  | Err e => (s, Err e)
  | Ok id => doc_delete KV id PreNone s
  end.

(** One page: [Some] out, the flag says whether the range ended. *)
Fixpoint take_page (prefix : string) (items : list KvEntry) (out : list (string * T))
    : StoreResult (list (string * T) * bool) :=
  match items with
  | [] => Ok (out, false)
  | e :: rest =>
      if starts_with prefix (kv_key e)
      then let? t := parse_value (kv_value e) in take_page prefix rest (out ++ [(kv_key e, t)])
      else Ok (out, true)
  end.

Fixpoint list_loop (fuel : nat) (h : Kv) (prefix : string) (after : option Cursor)
    (out : list (string * T)) (s : D) : StoreResult (list (string * T)) :=
  match fuel with
  | 0 => Err (backend "out of fuel")
  | S fuel' =>
      let? page := kv_query h prefix after s in
      let? taken := take_page prefix page.1 out in
      if taken.2 then Ok taken.1
      else match page.2 with
           | Some cursor => list_loop fuel' h prefix (Some cursor) taken.1 s
           | None => Ok taken.1
           end
  end.

Definition kv_list (fuel : nat) (h : Kv) (prefix : string) (s : D)
    : StoreResult (list (string * T)) := list_loop fuel h prefix None [] s.

(** ** What a listing returns *)

(** The entries a walk over the pages sees. *)
Inductive pages (h : Kv) (prefix : string) (s : D) : option Cursor → list KvEntry → Prop :=
| last_page after items :
    kv_query h prefix after s = Ok (items, None) → pages h prefix s after items
| more_pages after items cursor rest :
    kv_query h prefix after s = Ok (items, Some cursor) → pages h prefix s (Some cursor) rest →
    pages h prefix s after (items ++ rest).

Lemma prefix_convex p : ∀ a b,
  String.leb p a = true → String.leb a b = true → starts_with p b = true → starts_with p a = true.
Proof.
  unfold String.leb, starts_with. induction p as [|c p IH]; intros [|x a] [|y b]; try done.
  cbn. unfold Ascii.compare. intros Hpa Hab Hpb.
  destruct (ascii_dec c y) as [<-|]; [|done].
  destruct (N.compare_spec (N_of_ascii c) (N_of_ascii x)) as [Hcx|Hcx|Hcx]; [| |done].
  - rewrite Hcx, N.compare_refl in Hab.
    assert (c = x) as <- by (rewrite <- (ascii_N_embedding c), Hcx; apply ascii_N_embedding).
    destruct (ascii_dec c c); [|done]. by apply (IH a b).
  - rewrite (proj2 (N.compare_gt_iff (N_of_ascii x) (N_of_ascii c))) in Hab by lia. done.
Qed.

(** The entries a listing keeps, with their parsed values. *)
Definition listed (prefix : string) (entries : list KvEntry) : list (string * T) :=
  omap (λ e, (λ t, (kv_key e, t)) <$> of_value (kv_value e))
    (filter (λ e, Is_true (starts_with prefix (kv_key e))) entries).

Definition parses (entries : list KvEntry) : Prop :=
  Forall (λ e, is_Some (of_value (kv_value e))) entries.

Definition key_sorted (entries : list KvEntry) : Prop :=
  StronglySorted (λ a b, String.leb (kv_key a) (kv_key b) = true) entries.

(** In a sorted range above the prefix, nothing follows the first miss. *)
Lemma miss_ends prefix e rest :
  key_sorted (e :: rest) → String.leb prefix (kv_key e) = true →
  starts_with prefix (kv_key e) = false → listed prefix (e :: rest) = [].
Proof.
  intros [_ Hall]%StronglySorted_inv Hlow Hm. unfold listed.
  rewrite filter_cons_False by (rewrite Hm; intros []). rewrite Forall_forall in Hall.
  enough (filter (λ e, Is_true (starts_with prefix (kv_key e))) rest = []) as ->; [done|].
  induction rest as [|x rest IH]; [done|]. rewrite filter_cons_False.
  - apply IH. intros y Hy. apply Hall. by right.
  - intros Hp%Is_true_true. rewrite (prefix_convex prefix (kv_key e) (kv_key x)) in Hm; [done|done| |done].
    apply Hall. left.
Qed.

Lemma take_page_app prefix more : ∀ items out,
  take_page prefix (items ++ more) out =
  let? taken := take_page prefix items out in
  if taken.2 then Ok taken else take_page prefix more taken.1.
Proof.
  induction items as [|e items IH]; intros out; [done|]. cbn.
  destruct (starts_with prefix (kv_key e)); [|done].
  destruct (parse_value (kv_value e)) as [t|err]; cbn; [apply IH|done].
Qed.

Lemma list_loop_pages h prefix s after entries : pages h prefix s after entries →
  ∃ fuel, ∀ out, list_loop fuel h prefix after out s =
    let? taken := take_page prefix entries out in Ok taken.1.
Proof.
  induction 1 as [after items Hq|after items cursor rest Hq _ (fuel & IH)].
  - exists 1. intros out. cbn. rewrite Hq. cbn.
    by destruct (take_page prefix items out) as [[o []]|].
  - exists (S fuel). intros out. cbn. rewrite Hq. cbn. rewrite take_page_app.
    destruct (take_page prefix items out) as [[o []]|]; cbn; [done|apply IH|done].
Qed.

Lemma take_page_sorted prefix : ∀ entries out,
  key_sorted entries → Forall (λ e, String.leb prefix (kv_key e) = true) entries → parses entries →
  ∃ ended, take_page prefix entries out = Ok (out ++ listed prefix entries, ended).
Proof.
  induction entries as [|e entries IH]; intros out Hs Hlow Hp; cbn [take_page].
  { exists false. unfold listed. cbn. by rewrite app_nil_r. }
  destruct (starts_with prefix (kv_key e)) eqn:Em.
  - apply StronglySorted_inv in Hs as [Hs _]. apply Forall_cons in Hlow as [_ Hlow].
    apply Forall_cons in Hp as [[t Ht] Hp]. unfold parse_value. rewrite Ht. cbn [rbind].
    destruct (IH (out ++ [(kv_key e, t)]) Hs Hlow Hp) as [b ->]. exists b.
    unfold listed. rewrite filter_cons_True by (rewrite Em; exact I). cbn [omap list_omap]. rewrite Ht. cbn.
    by rewrite <- app_assoc.
  - exists true. rewrite miss_ends by (done || by apply Forall_cons in Hlow as [? _]).
    by rewrite app_nil_r.
Qed.

(** ** Reading what was written *)

Context (Hvalue : ∀ t, of_value (to_value t) = Some t) `{!LawfulDocs D}.

Lemma kv_get_put h key t s s' v :
  kv_put h key t s = (s', Ok v) → kv_get h key s' = Ok (Some t).
Proof.
  unfold kv_put, kv_get. destruct (kv_id h key) as [id|e]; cbn; [|done]. intros Hw.
  destruct (put_ok _ _ _ _ _ _ _ _ Hw) as (_ & (d & Hd & Hb & _) & _).
  unfold repo_get. rewrite Hd. cbn. unfold decode. rewrite Hb, decode_encode by done. cbn.
  unfold parse_value. by rewrite Hvalue.
Qed.
End Kv.
