(* ===== verification/StorageTheorems.v ===== *)
(** * Correctness of the storage helpers

    Keys round-trip, the compare-and-swap loop is atomic under interference,
    leases fence out ended tenures, counters never repeat, listings are exact.
    The witnesses run over a small document store with versions per document. *)

From stdpp Require Import sorting.
From S2P Require Import Prelude Json StorageKey Repo Leases StoragePrimitives.
From Stdlib Require Import Ascii.
From Stdlib Require String.

(** ** A document store *)

Notation MemDocs := (gmap (string * string) (Versioned value)).

Definition md_next (current : option (Versioned value)) : N :=
  match current with Some d => (ver_version d + 1)%N | None => 1%N end.

#[export] Instance holds_dec p current : Decision (holds p current).
Proof. destruct p, current; cbn; apply _. Defined.

#[export] Instance MemDocs_store : DocumentStore MemDocs := {|
  doc_get c i s := Ok (s !! (c, i));
  doc_put_with c i body p o s :=
    if decide (holds p (s !! (c, i)))
    then (<[(c, i) := mkVersioned i (md_next (s !! (c, i))) body
                        (mkMeta (default 0%N (wo_schema o)) 0 (wo_expires_ms o))]> s,
          Ok (md_next (s !! (c, i))))
    else (s, Err (mkStorageError Conflict "version conflict"));
  doc_delete c i p s :=
    if decide (holds p (s !! (c, i))) then (delete (c, i) s, Ok (bool_decide (is_Some (s !! (c, i)))))
    else (s, Err (mkStorageError Conflict "version conflict"))
|}.

#[export] Instance MemDocs_lawful : LawfulDocs MemDocs.
Proof.
  split; cbn; intros c i.
  - intros body p o s s' v. case_decide; [|done]. intros [= <- <-]. split_and!.
    + by exists (s !! (c, i)).
    + eexists. split; [by rewrite lookup_insert_eq|done].
    + intros c' i' Hne. by rewrite lookup_insert_ne.
  - intros body p o s s' e. case_decide; [done|]. by intros [= <- _].
  - intros p s s' removed. case_decide; [|done]. intros [= <- <-]. split_and!.
    + by exists (s !! (c, i)).
    + by rewrite lookup_delete_eq.
    + intros c' i' Hne. by rewrite lookup_delete_ne.
  - intros p s s' e. case_decide; [done|]. by intros [= <- _].
Qed.

(** Another writer that puts [body] before call number [at_]. *)
Definition rival (at_ : nat) (c i : string) (body : value) : Interference MemDocs :=
  λ k s, if decide (k = at_) then (doc_put_with c i body PreNone WriteOptions_default s).1 else s.
Definition alone : Interference MemDocs := λ _ s, s.

Lemma rival_keeps_versions at_ c i body : keeps_versions (rival at_ c i body).
Proof.
  intros k s c' i' d d' [= Hd] Hd' Hv. unfold rival in Hd'. cbn in Hd'.
  case_decide; [|congruence]. rewrite decide_True in Hd' by done. cbn in Hd'.
  injection Hd' as Hd'. destruct (decide ((c, i) = (c', i'))) as [Heq|Hne].
  - rewrite Heq, lookup_insert_eq, Hd in Hd'. injection Hd' as <-. cbn in Hv. lia.
  - rewrite lookup_insert_ne in Hd' by done. congruence.
Qed.

Lemma alone_keeps_versions : keeps_versions alone.
Proof. intros k s c i d d' [= H1] [= H2] _. unfold alone in H2. congruence. Qed.

(** The id rules, with the limit of the drivers. *)
Definition sample_limit : nat := 512.
Definition sample_validate (s : string) : StoreResult unit :=
  if decide (s ≠ "" ∧ String.length s ≤ sample_limit ∧
             ascii_of_nat 0 ∉ String.list_ascii_of_string s)
  then Ok tt else Err (invalid_input "invalid id").

(** ** Keys *)

Lemma escape_char_clean c : ascii_of_nat 0 ∉ String.list_ascii_of_string (escape_char c).
Proof.
  unfold escape_char. repeat case_decide; cbn; [set_solver..|].
  rewrite not_elem_of_cons. split; [congruence|set_solver].
Qed.

Lemma clean_app a b :
  ascii_of_nat 0 ∉ String.list_ascii_of_string a → ascii_of_nat 0 ∉ String.list_ascii_of_string b →
  ascii_of_nat 0 ∉ String.list_ascii_of_string (a +:+ b).
Proof.
  induction a as [|c a IH]; [done|]. intros [Hc Ha]%not_elem_of_cons Hb.
  apply not_elem_of_cons. auto.
Qed.

Lemma escape_chars_clean s : ascii_of_nat 0 ∉ String.list_ascii_of_string (escape_chars s).
Proof.
  induction s as [|c s IH]; [cbn; set_solver|]. by apply clean_app; [apply escape_char_clean|].
Qed.

Lemma join_clean parts : ∀ first, ascii_of_nat 0 ∉ String.list_ascii_of_string (join_parts first parts).
Proof.
  induction parts as [|p parts IH]; intros first; [cbn; set_solver|]. cbn [join_parts].
  apply clean_app; [destruct first; cbn; set_solver|]. apply clean_app; [|apply IH].
  destruct p as [|c rest]; [cbn; set_solver|]. apply clean_app; [|apply escape_chars_clean].
  destruct (first && _); [cbn; set_solver|apply escape_char_clean].
Qed.

Lemma join_not_empty parts : parts ≠ [] → parts ≠ [""] → join_parts true parts ≠ "".
Proof.
  destruct parts as [|[|c rest] [|q parts]]; try done; intros _ _.
  - change (escape_into (String.String c rest) true +:+ "" ≠ "").
    intros He. pose proof (f_equal unescape He) as Hu. rewrite app_empty_r, unescape_escape_into in Hu.
    done.
  - intros He. pose proof (split_join (String.String c rest) (q :: parts)) as Hs. by rewrite He in Hs.
Qed.

(** A document key built from parts splits back into exactly those parts,
    whatever bytes they hold, as long as it is within the length limit; so no two
    lists of parts share a key. *)
Theorem key_roundtrip MAX_ID_LEN validate_id digest_base32 parts :
  (∀ s, validate_id s = Ok tt ↔ s ≠ "" ∧ String.length s ≤ MAX_ID_LEN ∧
        ascii_of_nat 0 ∉ String.list_ascii_of_string s) →
  parts ≠ [] → parts ≠ [""] → String.length (join_parts true parts) ≤ MAX_ID_LEN →
  ∃ key, key_of MAX_ID_LEN validate_id digest_base32 parts = Ok key ∧ key_split key = Some parts.
Proof.
  intros Hvalid H1 H2 Hlen. exists (join_parts true parts). split; [|by apply key_split_join].
  unfold key_of, key_new. destruct parts as [|p parts]; [done|].
  rewrite decide_False by lia.
  assert (validate_id (join_parts true (p :: parts)) = Ok tt) as ->; [|done].
  apply Hvalid. split_and!; [by apply join_not_empty|done|apply join_clean].
Qed.

Lemma key_roundtrip_witness :
  ∃ key, key_of sample_limit sample_validate (λ _, "") ["job"; "a/b%"; ""; "~"] = Ok key ∧
    key_split key = Some ["job"; "a/b%"; ""; "~"].
Proof.
  apply (key_roundtrip sample_limit sample_validate (λ _, "") ["job"; "a/b%"; ""; "~"]);
    [|done|done|apply (bool_decide_unpack _); by vm_compute].
  intros s. unfold sample_validate. case_decide; naive_solver.
Defined.

(** ** The compare-and-swap loop *)

(** [Repo::update] is atomic: whatever other writers do between its calls of
    the port, it either writes nothing, or at one instant replaces the value its
    closure was given, which is still the stored one, by the value the closure
    returned. *)
Theorem repo_update_atomic {D} `{!DocumentStore D, !LawfulDocs D} {T} `{!Codec T, !LawfulCodec T}
    collection options retry env id {S} (f : S → option T → S * StoreResult (option T)) st s :
  keeps_versions env →
  let '(s', st', r) := repo_update collection options retry env id f st s in
  (interfered env s s' ∧ ∀ x, r ≠ Ok (Some x)) ∨
  ∃ s0 st0 current next v,
    interfered env s s0 ∧ value_at collection id s0 current ∧
    f st0 current = (st', Ok (Some next)) ∧ r = Ok (Some (next, v)) ∧
    (codec_ok next → value_at collection id s' (Some next)) ∧
    ∀ c' i', (c', i') ≠ (collection, id) → doc_get c' i' s' = doc_get c' i' s0.
Proof.
  intros Henv.
  pose proof (repo_update_effect collection options retry env Henv id f st s) as He.
  destruct (repo_update collection options retry env id f st s) as [[s' st'] r].
  destruct He as [s' st' r Hi Hr|s0 st0 st1 current next v s1 Hi Hv Hf [p Hw] Hv']; [by left|].
  right. exists s0, st0, current, next, v. split_and!; [done..|].
  intros c' i' Hne. by eapply repo_write_frame.
Qed.

(** A rival writes 7 between the read and the write of an increment. *)
Definition rival_counter : Interference MemDocs :=
  rival 1 COUNTERS "c" (encode (mkCounter 7)).

Lemma repo_update_atomic_witness :
  ∃ s0, interfered rival_counter ∅ s0 ∧ value_at COUNTERS "c" s0 (Some (mkCounter 7)) ∧
    (repo_update COUNTERS WriteOptions_default RetryPolicy_immediate rival_counter "c"
       (stateless next_body) () (∅ : MemDocs)).2 = Ok (Some (mkCounter 8, 2%N)).
Proof.
  pose proof (repo_update_atomic COUNTERS WriteOptions_default RetryPolicy_immediate rival_counter "c"
    (stateless next_body) () (∅ : MemDocs) (rival_keeps_versions _ _ _ _)) as H.
  assert (Hr : (repo_update COUNTERS WriteOptions_default RetryPolicy_immediate rival_counter "c"
    (stateless next_body) () (∅ : MemDocs)).2 = Ok (Some (mkCounter 8, 2%N))) by by vm_compute.
  destruct (repo_update COUNTERS WriteOptions_default RetryPolicy_immediate rival_counter "c"
    (stateless next_body) () (∅ : MemDocs)) as [[s' u] r]. cbn in Hr. subst r.
  destruct H as [[_ Hn]|(s0 & st0 & current & next & v & Hi & Hv & Hf & Hr & _)];
    [by destruct (Hn (mkCounter 8, 2%N))|].
  injection Hr as <- <-. exists s0. split_and!; [done| |done].
  injection Hf as _ Hf. apply next_body_Ok in Hf as [Hf _]. cbn in Hf.
  destruct current as [[n]|]; cbn in Hf; [|done]. by assert (n = 7%Z) as -> by lia.
Defined.

(** ** Leases *)

(** C4: leases fence.  Over any sequence of acquires, guarded acquires, renewals,
    releases and compactions of one record: a live lease is untouched by every
    operation that names another holder (its own holder may end it, or open a new
    epoch with a guarded acquire); as long as no compaction drops the
    record, its epoch never goes down, an epoch belongs to one holder, and a
    tenure that has lapsed or been released is never written, hence never live,
    again; and a compaction drops nothing but the very tenure, holder and epoch,
    it names.  (After one, the epochs of the key restart: see
    [compaction_restarts].) *)
Theorem lease_fencing (ops : list LeaseOp) (b : LeaseBody) :
  (Forall (λ op, op_holder op ≠ lb_holder b ∧ live (op_time op) b = true) ops →
     run_ops ops (Some b) = Some b) ∧
  match compacted ops (Some b) with
  | false => ∃ b', run_ops ops (Some b) = Some b' ∧
      (lb_epoch b ≤ lb_epoch b')%Z ∧
      (lb_epoch b' = lb_epoch b → lb_holder b' = lb_holder b) ∧
      ∀ now, Forall (λ op, (now ≤ op_time op)%Z) ops → live now b = false →
        lb_epoch b' = lb_epoch b → b' = b
  | true => ∃ pre h e t post b1, ops = pre ++ OpCompact h e t :: post ∧
      compacted pre (Some b) = false ∧ run_ops pre (Some b) = Some b1 ∧
      lb_holder b1 = h ∧ lb_epoch b1 = e
  end.
Proof.
  split; [apply run_ops_exclusive|]. destruct (compacted ops (Some b)) eqn:Hc.
  - by apply compacted_tenure.
  - by apply run_ops_fenced.
Qed.

(** A tenure that lapsed at 50 is renewed by its holder too late, then taken over. *)
Definition lapsed : LeaseBody := mkLeaseBody "h1" 1 50 None false.
Definition takeover : list LeaseOp := [OpRenew "h1" 1 20 60; OpAcquire "h2" 20 61].

Lemma lease_fencing_witness :
  run_ops takeover (Some lapsed) = Some (mkLeaseBody "h2" 2 81 None false) ∧ (1 ≤ 2)%Z.
Proof.
  destruct (lease_fencing takeover lapsed) as [_ H].
  assert (compacted takeover (Some lapsed) = false) as Hc by by vm_compute. rewrite Hc in H.
  destruct H as (b' & Hr & He & _). vm_compute in Hr. injection Hr as <-.
  split; [by vm_compute|exact He].
Defined.

(** What the compaction gives up, as its documentation says: the key acquired
    again restarts at epoch 1, the epoch of the tenure that was dropped. *)
Example compaction_restarts :
  run_ops [OpCompact "h1" 1 60; OpAcquire "h2" 20 61] (Some lapsed)
    = Some (mkLeaseBody "h2" 1 81 None false).
Proof. by vm_compute. Qed.

(** C31: an acquire of the store is one transition of the lease: when it returns a
    lease, then at one instant, whatever other processes did, the record was
    [current], the rules granted [b] over it, and [b] is what the store holds and
    the caller was told; when it returns no lease nothing was written. *)
Theorem acquire_refines {D} `{!DocumentStore D, !LawfulDocs D} env retry max validate digest clock
    owner key holder ttl_ms (s s' : D) r :
  keeps_versions env →
  acquire env retry max validate digest clock owner key holder ttl_ms s = (s', Ok r) →
  match r with
  | Some lease => ∃ id s0 i current b,
      lease_id max validate digest owner key = Ok id ∧ interfered env s s0 ∧
      value_at LEASES id s0 current ∧ op_write (OpAcquire holder ttl_ms (clock i)) current = Ok (Some b) ∧
      lease = lease_of_body id b ∧ (lease_ok b → value_at LEASES id s' (Some b))
  | None => interfered env s s'
  end.
Proof.
  intros Henv. unfold acquire. destruct (lease_id max validate digest owner key) as [id|e]; [|done].
  pose proof (repo_update_effect LEASES WriteOptions_default retry env Henv id
    (timed clock (acquire_body holder ttl_ms)) 0 s) as He. unfold lease_update.
  destruct (repo_update _ _ _ _ _ _ _ _) as [[s1 st1] stored].
  destruct He as [s1 st1 stored Hi Hn|s0 i i1 current b v s1 Hi Hv Hf _ Hv']; intros [= <- Hr].
  - destruct stored as [[[b v]|]|]; cbn in Hr; [by destruct (Hn (b, v))| |done]. by injection Hr as <-.
  - subst r. unfold timed in Hf. apply (f_equal snd) in Hf. cbn [snd] in Hf.
    exists id, s0, i, current, b. by split_and!.
Qed.

Definition free_lease : MemDocs :=
  (doc_put_with LEASES "o/k" (encode lapsed) PreNone WriteOptions_default (∅ : MemDocs)).1.

Lemma acquire_refines_witness :
  ∃ current b, value_at LEASES "o/k" free_lease current ∧
    op_write (OpAcquire "h2" 20 61) current = Ok (Some b) ∧ lb_epoch b = 2%Z.
Proof.
  destruct (acquire alone RetryPolicy_immediate sample_limit sample_validate (λ _, "") (λ _, 61%Z)
    "o" "k" "h2" 20 free_lease) as [s' r] eqn:E.
  assert (Hr : r = Ok (Some (mkLease "o/k" "h2" 2 81 None))).
  { apply (f_equal snd) in E. cbn [snd] in E. rewrite <- E. by vm_compute. }
  subst r. apply acquire_refines in E; [|apply alone_keeps_versions].
  destruct E as (id & s0 & i & current & b & Hid & Hi & Hv & Hw & Hl & _).
  assert (id = "o/k") as ->.
  { assert (lease_id sample_limit sample_validate (λ _, "") "o" "k" = Ok "o/k") as Hk by by vm_compute.
    rewrite Hid in Hk. by injection Hk. }
  assert (s0 = free_lease) as -> by (clear -Hi; induction Hi as [|k s1 _ IH]; [done|exact IH]).
  exists current, b. split_and!; [done|done|by injection Hl].
Defined.

(** C32: a lease that nobody holds can be taken: when the record is absent, lapsed
    or released, no other writer interferes and the port works, [acquire] grants
    the lease to the caller, at epoch 1 or the next one. *)
Theorem free_lease_acquired {D} `{!DocumentStore D, !LawfulDocs D} retry max validate digest
    (clock : nat → Z) owner key holder ttl_ms (s : D) id current :
  lease_id max validate digest owner key = Ok id → value_at LEASES id s current →
  (∀ body p o c i s', (∃ now, doc_get c i s' = Ok now ∧ holds p now) →
     ∃ s'' v, doc_put_with c i body p o s' = (s'', Ok v)) →
  (0 < ttl_ms)%Z → (0 ≤ clock 0%nat ∧ clock 0%nat + ttl_ms ≤ i64_max)%Z →
  match current with
  | Some b => live (clock 0) b = false ∧ (0 ≤ lb_epoch b < u64_max)%Z
  | None => True
  end →
  ∃ s', acquire (λ _ s, s) retry max validate digest clock owner key holder ttl_ms s =
    (s', Ok (Some (mkLease id holder
       (match current with Some b => lb_epoch b + 1 | None => 1 end)%Z (clock 0%nat + ttl_ms)%Z None))).
Proof.
  intros Hid (found & Hget & Hc) Hput Httl Hclk Hfree. unfold acquire. rewrite Hid.
  unfold lease_update, repo_update, budget.
  destruct (Nat.max (rp_attempts retry) 1) as [|n] eqn:En; [lia|]. cbn [update_loop].
  unfold read_current, repo_get. rewrite Hget. cbn [rbind].
  assert (Hdl : deadline (clock 0) ttl_ms = Ok (clock 0, (clock 0%nat + ttl_ms)%Z)).
  { unfold deadline. rewrite decide_False, !decide_True by lia. done. }
  destruct found as [d|], current as [b|]; try done; cbn [decode_opt rbind].
  - unfold decode. cbn [decode_body LeaseBody_codec] in Hc |- *. rewrite Hc. cbn [rbind ver_doc ver_version].
    destruct Hfree as [Hl [He1 He2]]. unfold timed, acquire_body. rewrite Hdl. cbn [rbind]. rewrite Hl.
    unfold next_epoch. rewrite decide_True by (unfold u64_max in *; lia). cbn [rbind].
    unfold repo_write.
    match goal with |- context [doc_put_with _ _ ?body ?p ?o _] =>
      destruct (Hput body p o LEASES id s) as (s'' & v & ->) end; [by exists (Some d)|by eexists].
  - unfold timed, acquire_body. rewrite Hdl. cbn [rbind]. unfold repo_write.
    match goal with |- context [doc_put_with _ _ ?body ?p ?o _] =>
      destruct (Hput body p o LEASES id s) as (s'' & v & ->) end; [by exists None|by eexists].
Qed.

Lemma free_lease_acquired_witness :
  ∃ s', acquire alone RetryPolicy_default sample_limit sample_validate (λ _, "") (λ _, 61%Z)
    "o" "k" "h2" 20 free_lease = (s', Ok (Some (mkLease "o/k" "h2" 2 81 None))).
Proof.
  apply (free_lease_acquired RetryPolicy_default sample_limit sample_validate (λ _, "") (λ _, 61%Z)
    "o" "k" "h2" 20 free_lease "o/k" (Some lapsed)); [by vm_compute| | |done| |].
  - eexists. split; [by vm_compute|]. by vm_compute.
  - intros body p o c i s' (now & [= <-] & Hh). cbn. rewrite decide_True by done. by eexists _, _.
  - by vm_compute.
  - by vm_compute.
Defined.

(** ** Counters and entries *)

(** Counters never repeat: [next] returns one more than the value stored at
    the instant it wrote, whatever other writers did in between, and never passes
    [i64::MAX]. *)
Theorem counter_next_unique {D} `{!DocumentStore D, !LawfulDocs D} env retry max validate digest
    owner name (s s' : D) n :
  keeps_versions env →
  counter_next env retry max validate digest owner name s = (s', Ok n) →
  ∃ id s0 current, counter_id max validate digest owner name = Ok id ∧ interfered env s s0 ∧
    value_at COUNTERS id s0 current ∧
    n = (match current with Some c => ct_value c | None => 0 end + 1)%Z ∧ (n ≤ i64_max)%Z ∧
    value_at COUNTERS id s' (Some (mkCounter n)).
Proof.
  intros Henv. unfold counter_next, counter_update.
  destruct (counter_id max validate digest owner name) as [id|e]; [|done].
  pose proof (repo_update_effect COUNTERS WriteOptions_default retry env Henv id
    (stateless next_body) () s) as He.
  destruct (repo_update _ _ _ _ _ _ _ _) as [[s1 st1] stored].
  destruct He as [s1 st1 stored Hi Hn|s0 u u1 current b v s1 Hi Hv Hf _ Hv']; intros [= <- Hr].
  - destruct stored as [[[b v]|]|]; cbn in Hr; [by destruct (Hn (b, v))|done|done].
  - subst n. injection Hf as _ Hf. apply next_body_Ok in Hf as [Hn Hmax].
    exists id, s0, current. split_and!; [done..|]. destruct b. by apply Hv'.
Qed.

Lemma counter_next_unique_witness :
  ∃ id s0, interfered (rival 1 COUNTERS "o/c" (encode (mkCounter 7))) ∅ s0 ∧
    value_at COUNTERS id s0 (Some (mkCounter 7)).
Proof.
  destruct (counter_next (rival 1 COUNTERS "o/c" (encode (mkCounter 7))) RetryPolicy_default
    sample_limit sample_validate (λ _, "") "o" "c" (∅ : MemDocs)) as [s' r] eqn:E.
  assert (Hr : r = Ok 8%Z).
  { apply (f_equal snd) in E. cbn [snd] in E. rewrite <- E. by vm_compute. }
  subst r. apply counter_next_unique in E; [|apply rival_keeps_versions].
  destruct E as (id & s0 & current & _ & Hi & Hv & Hn & _). exists id, s0. split; [done|].
  destruct current as [[n]|]; cbn in Hn; [|done]. by assert (n = 7%Z) as -> by lia.
Defined.

(** A listing is exact: over the pages of a namespace, sorted by key from the
    prefix on, [list] returns every entry whose key starts with the prefix, in
    order, and no other, and it stops. *)
Theorem kv_list_exact {D T Cursor} (of_value : value → option T)
    (kv_query : Kv → string → option Cursor → D → StoreResult (list KvEntry * option Cursor))
    h prefix (s : D) entries :
  pages kv_query h prefix s None entries → key_sorted entries →
  Forall (λ e, String.leb prefix (kv_key e) = true) entries → parses of_value entries →
  ∃ fuel, kv_list of_value kv_query fuel h prefix s = Ok (listed of_value prefix entries).
Proof.
  intros Hp Hs Hlow Hparse. destruct (list_loop_pages of_value kv_query h prefix s None entries Hp)
    as [fuel Hf]. exists fuel. unfold kv_list. rewrite Hf.
  destruct (take_page_sorted of_value prefix entries [] Hs Hlow Hparse) as [b ->]. done.
Qed.

Definition sample_entry (key : string) : KvEntry := mkEntry "o" "n" key (Str key).
(** Two pages: the second holds a key past the prefix. *)
Definition sample_query (_ : Kv) (_ : string) (after : option nat) (_ : unit)
    : StoreResult (list KvEntry * option nat) :=
  match after with
  | None => Ok ([sample_entry "ab"; sample_entry "abc"], Some 2)
  | Some _ => Ok ([sample_entry "abd"; sample_entry "ac"], None)
  end.

Lemma kv_list_exact_witness :
  ∃ fuel, kv_list as_str sample_query fuel (mkKv "o" "n") "ab" () =
    Ok [("ab", "ab"); ("abc", "abc"); ("abd", "abd")].
Proof.
  apply (kv_list_exact as_str sample_query (mkKv "o" "n") "ab" ()
    ([sample_entry "ab"; sample_entry "abc"] ++ [sample_entry "abd"; sample_entry "ac"])).
  - eapply more_pages; [done|]. by apply last_page.
  - repeat constructor.
  - repeat constructor.
  - repeat constructor; by eexists.
Defined.
