(* ===== verification/DriverCheckpoint.v ===== *)
(** * The checkpointer over a document store

    [crates/tinyflows-drivers/src/checkpoint.rs], [checkpoint_layout.rs] and
    [checkpoint_import.rs]: graph checkpoints and their pending writes as
    documents, with a counter per thread for the order of insertion.

    The store is the class [DocumentStore] of [Repo] with the queries this code
    makes, [DocQueries]; the class [LawfulQueries] states what it relies on: a
    reachable store answers a query with exactly the matching documents, in the
    order asked for.  [serde]'s codecs of a checkpoint and of pending writes are
    arguments with the law that what was written is read back.  The declaration
    of the collections is left out.

    [driver_ops] is the instance of [CheckpointerOps] the executor runs on; its
    state is a store in which the documents of the namespace are as this code
    writes them ([layout_ok]), which every operation keeps. *)

From stdpp Require Import sorting.
From S2P Require Import Prelude Json GraphTypes Checkpoint StorageKey Repo.

(** ** Queries *)

(** A conjunction: each field is one of the listed strings. *)
Definition Filter_ : Type := list (string * list string).
Definition filter_eq (field v : string) : Filter_ := [(field, [v])].
Definition filter_one_of (field : string) (vs : list string) : Filter_ := [(field, vs)].

Definition field_in (doc : value) (fv : string * list string) : bool :=
  match get fv.1 doc with Some (Str s) => bool_decide (s ∈ fv.2) | _ => false end.
Definition filter_matches (f : Filter_) (doc : value) : bool := forallb (field_in doc) f.

(** The number a document is sorted by. *)
Definition sort_key (field : string) (d : Versioned value) : Z := default 0%Z (get field (ver_doc d) >>? as_u64).

Class DocQueries (D : Type) := {
  doc_query_all : string → Filter_ → option string → D → StoreResult (list (Versioned value));
  doc_query_newest : string → Filter_ → string → D → StoreResult (list (Versioned value));
  doc_count : string → Filter_ → D → StoreResult nat;
  doc_delete_where : string → Filter_ → D → D * StoreResult nat
}.

Definition matching (f : Filter_) (m : gmap string (Versioned value)) : gmap string (Versioned value) :=
  filter (λ kd, filter_matches f (ver_doc kd.2) = true) m.

(** [doc_query_newest] is a query in descending order, limited to one. *)
Class LawfulQueries (D : Type) `{!DocumentStore D} `{!DocQueries D} := {
  contents : string → D → gmap string (Versioned value);
  contents_get c i s : doc_get c i s = Ok (contents c s !! i);
  query_all_ok c f k s : ∃ l, doc_query_all c f k s = Ok l ∧
    l ≡ₚ (map_to_list (matching f (contents c s))).*2 ∧
    match k with Some field => Sorted (λ a b, sort_key field a ≤ sort_key field b)%Z l | None => True end;
  query_newest_ok c f field s : ∃ l, doc_query_newest c f field s = Ok l ∧
    match l with
    | [] => matching f (contents c s) = ∅
    | d :: _ => (∃ i, matching f (contents c s) !! i = Some d) ∧
        ∀ i d', matching f (contents c s) !! i = Some d' → (sort_key field d' ≤ sort_key field d)%Z
    end;
  count_ok c f s : doc_count c f s = Ok (size (matching f (contents c s)));
  delete_where_ok c f s s' n : doc_delete_where c f s = (s', Ok n) →
    n = size (matching f (contents c s)) ∧
    contents c s' = contents c s ∖ matching f (contents c s) ∧ ∀ c', c' ≠ c → contents c' s' = contents c' s;
  delete_where_err c f s s' e : doc_delete_where c f s = (s', Err e) → s' = s
}.

(** ** The layout ([checkpoint_layout.rs]) *)

Definition CHECKPOINT_SCHEMA_VERSION : N := 4.
Definition CHECKPOINTS : string := "graph.checkpoints".
Definition THREADS : string := "graph.threads".
Definition WRITES : string := "graph.writes".
Definition NAMESPACE : string := "flows".

Record CheckpointBody := mkCpBody {
  cb_ns : string; cb_thread : string; cb_subgraph : string; cb_seq : N; cb_checkpoint_id : string; cb_checkpoint : value
}.
Record ThreadBody := mkThreadBody { tb_ns : string; tb_thread : string; tb_next : N }.
(** The set of imported identities is a list without duplicates. *)
Record WritesBody := mkWritesBody {
  wb_ns : string; wb_thread : string; wb_subgraph : string; wb_checkpoint_id : string;
  wb_writes : list PendingWrite; wb_imported : list (string * Z)
}.

#[export] Instance CheckpointBody_codec : Codec CheckpointBody := {
  encode b := json_object [("ns", Str (cb_ns b)); ("thread", Str (cb_thread b)); ("subgraph", Str (cb_subgraph b));
                           ("seq", Number (PosInt (Z.of_N (cb_seq b)))); ("checkpoint_id", Str (cb_checkpoint_id b));
                           ("checkpoint", cb_checkpoint b)];
  decode_body v :=
    get "ns" v >>? as_str >>? λ ns, get "thread" v >>? as_str >>? λ thread, get "subgraph" v >>? as_str >>? λ subgraph,
    get "seq" v >>? as_u64 >>? λ seq, get "checkpoint_id" v >>? as_str >>? λ id, get "checkpoint" v >>? λ cp,
    Some (mkCpBody ns thread subgraph (Z.to_N seq) id cp)
}.
#[export] Instance ThreadBody_codec : Codec ThreadBody := {
  encode b := json_object [("ns", Str (tb_ns b)); ("thread", Str (tb_thread b));
                           ("next", Number (PosInt (Z.of_N (tb_next b))))];
  decode_body v :=
    get "ns" v >>? as_str >>? λ ns, get "thread" v >>? as_str >>? λ thread, get "next" v >>? as_u64 >>? λ next,
    Some (mkThreadBody ns thread (Z.to_N next))
}.

(** The codecs [serde] derives, and [Display] of a storage error. *)
Record CheckpointWire (State : Type) := mkCpWire {
  cw_encode : Checkpoint State → result string value;
  cw_decode : value → result string (Checkpoint State);
  cw_encode_writes : list PendingWrite → value;
  cw_decode_writes : value → result string (list PendingWrite);
  cw_encode_ids : list (string * Z) → value;
  cw_decode_ids : value → option (list (string * Z));
  cw_storage_error : StorageError → string
}.
Arguments cw_encode {State}.
Arguments cw_decode {State}.
Arguments cw_encode_writes {State}.
Arguments cw_decode_writes {State}.
Arguments cw_encode_ids {State}.
Arguments cw_decode_ids {State}.
Arguments cw_storage_error {State}.

Class LawfulWire {State} (wire : CheckpointWire State) : Prop := {
  wire_checkpoint c v : cw_encode wire c = Ok v → cw_decode wire v = Ok c;
  wire_writes l : cw_decode_writes wire (cw_encode_writes wire l) = Ok l;
  wire_ids l : cw_decode_ids wire (cw_encode_ids wire l) = Some l
}.

Definition WritesBody_codec {State} (wire : CheckpointWire State) : Codec WritesBody := {|
  encode b := json_object ([("ns", Str (wb_ns b)); ("thread", Str (wb_thread b)); ("subgraph", Str (wb_subgraph b));
                            ("checkpoint_id", Str (wb_checkpoint_id b)); ("writes", cw_encode_writes wire (wb_writes b))] ++
                           (if decide (wb_imported b = []) then []
                            else [("imported_control_writes", cw_encode_ids wire (wb_imported b))]));
  decode_body v :=
    get "ns" v >>? as_str >>? λ ns, get "thread" v >>? as_str >>? λ thread, get "subgraph" v >>? as_str >>? λ subgraph,
    get "checkpoint_id" v >>? as_str >>? λ id, get "writes" v >>? λ ws,
    match cw_decode_writes wire ws with Ok writes => Some writes | Err _ => None end >>? λ writes,
    match get "imported_control_writes" v with None => Some [] | Some ids => cw_decode_ids wire ids end >>? λ imported,
    Some (mkWritesBody ns thread subgraph id writes imported)
|}.

(** [u64] in decimal, padded with zeros to twenty digits. *)
Definition padded20 (n : N) : string :=
  let s := pretty n in String.concat "" (replicate (20 - String.length s) "0") +:+ s.

Section Layout.
Context (key_of_ : list string → result StorageError string).

Definition layout_key (parts : list string) : string := match key_of_ parts with Ok k => k | Err _ => "" end.
Definition subgraph_key (namespace : list string) : string :=
  match namespace with [] => "" | _ => layout_key ("n" :: namespace) end.
Definition checkpoint_id_key (ns thread : string) (seq : N) : string := layout_key [ns; thread; padded20 seq].
Definition thread_id_key (ns thread : string) : string := layout_key [ns; thread].
Definition writes_id_key (ns thread subgraph checkpoint_id : string) : string :=
  layout_key [ns; thread; subgraph; checkpoint_id].
End Layout.

(** ** The checkpointer ([checkpoint.rs]) *)

Section Driver.
Context {D : Type} `{!DocumentStore D} `{!DocQueries D} {State : Type}.
Context (wire : CheckpointWire State) (key_of_ : list string → result StorageError string) (ns : string).

#[local] Hint Extern 0 (Codec WritesBody) => exact (WritesBody_codec wire) : typeclass_instances.

Definition driver_options : WriteOptions := mkOptions (Some CHECKPOINT_SCHEMA_VERSION) None.
(** No other writer acts between two calls. *)
Definition alone : Interference D := λ _ s, s.

Definition map_error (e : StorageError) : GraphError := CheckpointErr ("storage driver: " +:+ cw_storage_error wire e).
Definition mapped {A} (r : StoreResult A) : Result A := match r with Ok a => Ok a | Err e => Err (map_error e) end.

Definition drv_next_seq (s : D) (thread : string) : D * Result N :=
  let '(s', _, r) := repo_update THREADS driver_options RetryPolicy_default alone (thread_id_key key_of_ ns thread)
    (λ (_ : unit) (current : option ThreadBody),
       (tt, Ok (Some (mkThreadBody ns thread (match current with Some b => tb_next b + 1 | None => 1 end)%N)))) tt s in
  (s', match r with
       | Err e => Err (map_error e)
       | Ok None => Err (CheckpointErr ("could not reserve a checkpoint sequence for thread `" +:+ thread +:+ "`"))
       | Ok (Some (stored, _)) => Ok (tb_next stored - 1)%N
       end).

Definition thread_filter (thread : string) : Filter_ := filter_eq "ns" ns ++ filter_eq "thread" thread.

Definition decode_checkpoint (d : Versioned value) : Result (Checkpoint State) :=
  match cw_decode wire (default Null (get "checkpoint" (ver_doc d))) with
  | Ok c => Ok c
  | Err e => Err (CheckpointErr ("storage driver checkpointer: decode record: " +:+ e))
  end.

Fixpoint decode_all (ds : list (Versioned value)) : Result (list (Checkpoint State)) :=
  match ds with
  | [] => Ok []
  | d :: ds => let? c := decode_checkpoint d in let? cs := decode_all ds in Ok (c :: cs)
  end.

Definition newest (s : D) (f : Filter_) : Result (option (Checkpoint State)) :=
  let? page := mapped (doc_query_newest CHECKPOINTS f "seq" s) in
  match page with
  | [] => Ok None
  | d :: _ => let? c := decode_checkpoint d in Ok (Some c)
  end.

Definition drv_put (s : D) (c : Checkpoint State) : D * Result CheckpointId :=
  let '(s1, reserved) := drv_next_seq s (cp_thread_id c) in
  match reserved with
  | Err e => (s1, Err e)
  | Ok seq =>
      match cw_encode wire c with
      | Err e => (s1, Err (GraphTypes.Serialization e))
      | Ok v =>
          let body := mkCpBody ns (cp_thread_id c) (subgraph_key key_of_ (cp_namespace c)) seq (cp_checkpoint_id c) v in
          let '(s2, r) := repo_insert CHECKPOINTS driver_options
                            (checkpoint_id_key key_of_ ns (cp_thread_id c) seq) body s1 in
          (s2, match mapped r with Ok _ => Ok (cp_checkpoint_id c) | Err e => Err e end)
      end
  end.

Definition with_id (id : option string) (f : Filter_) : Filter_ :=
  match id with Some id => f ++ filter_eq "checkpoint_id" id | None => f end.

Definition drv_get (s : D) (thread : string) (id : option string) : Result (option (Checkpoint State)) :=
  newest s (with_id id (thread_filter thread)).
Definition scoped_filter (thread : string) (namespace : list string) : Filter_ :=
  thread_filter thread ++ filter_eq "subgraph" (subgraph_key key_of_ namespace).
Definition drv_get_scoped (s : D) (thread : string) (id : option string) (namespace : list string)
    : Result (option (Checkpoint State)) :=
  newest s (with_id id (scoped_filter thread namespace)).

Definition thread_docs (s : D) (thread : string) : Result (list (Versioned value)) :=
  mapped (doc_query_all CHECKPOINTS (thread_filter thread) (Some "seq") s).
Definition drv_get_thread (s : D) (thread : string) : Result (list (Checkpoint State)) :=
  let? docs := thread_docs s thread in decode_all docs.
Definition drv_list (s : D) (thread : string) : Result (list CheckpointMetadata) :=
  let? cs := drv_get_thread s thread in Ok (to_metadata <$> cs).

Fixpoint live_threads (s : D) (counters : list (Versioned value)) : Result (list string) :=
  match counters with
  | [] => Ok []
  | counter :: counters =>
      match get "thread" (ver_doc counter) >>? as_str with
      | None => live_threads s counters
      | Some thread =>
          let? live := mapped (doc_count CHECKPOINTS (thread_filter thread) s) in
          let? rest := live_threads s counters in
          Ok (if decide (0 < live) then thread :: rest else rest)
      end
  end.
Definition drv_list_threads (s : D) : Result (list string) :=
  let? counters := mapped (doc_query_all THREADS (filter_eq "ns" ns) None s) in
  live_threads s counters.

Definition drop_writes (s : D) (f : Filter_) : D * Result unit :=
  let '(s', r) := doc_delete_where WRITES f s in (s', match mapped r with Ok _ => Ok tt | Err e => Err e end).

Definition drv_delete_thread (s : D) (thread : string) : D * Result unit :=
  match doc_delete_where CHECKPOINTS (thread_filter thread) s with
  | (s1, Err e) => (s1, Err (map_error e))
  | (s1, Ok _) => drop_writes s1 (thread_filter thread)
  end.

Definition drv_delete_checkpoints (s : D) (thread : string) (ids : list string) : D * Result nat :=
  match ids with
  | [] => (s, Ok 0)
  | _ =>
      let f := thread_filter thread ++ filter_one_of "checkpoint_id" ids in
      match doc_delete_where CHECKPOINTS f s with
      | (s1, Err e) => (s1, Err (map_error e))
      | (s1, Ok removed) =>
          let '(s2, r) := drop_writes s1 f in (s2, match r with Ok _ => Ok removed | Err e => Err e end)
      end
  end.

(** ** Pending writes ([checkpoint_import.rs]) *)

Definition fresh_writes (config : CheckpointConfig) (subgraph id : string) : WritesBody :=
  mkWritesBody ns (cfg_thread_id config) subgraph id [] [].
Definition set_writes (b : WritesBody) (ws : list PendingWrite) (imported : list (string * Z)) : WritesBody :=
  mkWritesBody (wb_ns b) (wb_thread b) (wb_subgraph b) (wb_checkpoint_id b) ws imported.

(** A live write that is accepted takes its identity from the importer. *)
Definition relinquish (stored : list PendingWrite) (imported : list (string * Z)) (w : PendingWrite) : list (string * Z) :=
  if is_control_plane w || negb (bool_decide (write_identity w ∈ write_identity <$> stored))
  then filter (λ k, k ≠ write_identity w) imported else imported.

Definition live_merge (b : WritesBody) (ws : list PendingWrite) : WritesBody :=
  set_writes b (merge_writes (wb_writes b) ws).1 (foldl (relinquish (wb_writes b)) (wb_imported b) ws).

Definition drv_put_writes (s : D) (config : CheckpointConfig) (ws : list PendingWrite) : D * Result unit :=
  match require_checkpoint_id config with
  | Err e => (s, Err e)
  | Ok id =>
      match ws with
      | [] => (s, Ok tt)
      | _ =>
          let subgraph := subgraph_key key_of_ (cfg_namespace config) in
          let '(s', _, r) := repo_update WRITES driver_options RetryPolicy_default alone
            (writes_id_key key_of_ ns (cfg_thread_id config) subgraph id)
            (λ (_ : unit) current, (tt, Ok (Some (live_merge (default (fresh_writes config subgraph id) current) ws)))) tt s in
          (s', match r with
               | Ok _ => Ok tt
               | Err e =>
                   if decide (se_kind e = Conflict)
                   then Err (CheckpointErr ("could not record pending writes for thread `" +:+ cfg_thread_id config +:+ "`"))
                   else Err (map_error e)
               end)
      end
  end.

Definition drv_get_writes (s : D) (config : CheckpointConfig) : Result (list PendingWrite) :=
  let? target := match cfg_checkpoint_id config with
                 | Some id => Ok (Some id)
                 | None => let? c := drv_get_scoped s (cfg_thread_id config) None (cfg_namespace config) in
                           Ok (cp_checkpoint_id <$> c)
                 end in
  match target with
  | None => Ok []
  | Some id =>
      let? found := mapped (repo_get WRITES (writes_id_key key_of_ ns (cfg_thread_id config)
                              (subgraph_key key_of_ (cfg_namespace config)) id) s) in
      Ok (match found with Some d => wb_writes (ver_doc d) | None => [] end)
  end.

(** The identities of an import, with the last control write and the number of
    records of each. *)
Fixpoint add_incoming (grouped : list (PendingWrite * nat)) (w : PendingWrite) : list (PendingWrite * nat) :=
  match grouped with
  | [] => [(w, 1)]
  | (known, count) :: rest =>
      if decide (write_identity known = write_identity w)
      then (if is_control_plane w then w else known, S count) :: rest
      else (known, count) :: add_incoming rest w
  end.
Definition group_incoming (incoming : list PendingWrite) : list (PendingWrite * nat) := foldl add_incoming [] incoming.

(** The body, and how many records were written and how many were held. *)
Definition import_one (acc : WritesBody * nat * nat) (wc : PendingWrite * nat) : WritesBody * nat * nat :=
  let '(b, written, existing) := acc in
  let '(w, count) := wc in
  match list_find (λ x, write_identity x = write_identity w) (wb_writes b) with
  | Some (index, held) =>
      if is_control_plane w && bool_decide (write_identity w ∈ wb_imported b) then
        if decide (held = w) then (b, written, existing + count)
        else (set_writes b (<[index := w]> (wb_writes b)) (wb_imported b), written + count, existing)
      else (b, written, existing + count)
  | None =>
      if is_control_plane w then
        (set_writes b (wb_writes b ++ [w])
           (if decide (write_identity w ∈ wb_imported b) then wb_imported b else wb_imported b ++ [write_identity w]),
         written + count, existing)
      else (set_writes b (wb_writes b ++ [w]) (wb_imported b), written + 1, existing + (count - 1))
  end.

Definition import_writes_if_absent (s : D) (config : CheckpointConfig) (incoming : list PendingWrite)
    : D * Result (nat * nat) :=
  match require_checkpoint_id config with
  | Err e => (s, Err e)
  | Ok id =>
      match incoming with
      | [] => (s, Ok (0, 0))
      | _ =>
          let grouped := group_incoming incoming in
          let subgraph := subgraph_key key_of_ (cfg_namespace config) in
          let '(s', counts, r) := repo_update WRITES driver_options RetryPolicy_default alone
            (writes_id_key key_of_ ns (cfg_thread_id config) subgraph id)
            (λ (_ : nat * nat) current,
               let '(b, written, existing) :=
                 foldl import_one (default (fresh_writes config subgraph id) current, 0, 0) grouped in
               ((written, existing), Ok (if decide (0 < written) then Some b else None))) (0, 0) s in
          (s', match r with Ok _ => Ok counts | Err e => Err (map_error e) end)
      end
  end.

(** ** History in two reads *)

Fixpoint writes_by_id (ds : list (Versioned value)) (m : gmap string (list PendingWrite))
    : Result (gmap string (list PendingWrite)) :=
  match ds with
  | [] => Ok m
  | d :: ds =>
      match get "checkpoint_id" (ver_doc d) >>? as_str with
      | None => writes_by_id ds m
      | Some id =>
          match cw_decode_writes wire (default Null (get "writes" (ver_doc d))) with
          | Err e => Err (GraphTypes.Serialization e)
          | Ok batch => writes_by_id ds (<[id := batch]> m)
          end
      end
  end.

Definition tuple_of (c : Checkpoint State) (ws : option (list PendingWrite)) : CheckpointTuple State :=
  mkTuple (mkConfig (cp_thread_id c) (Some (cp_checkpoint_id c)) (cp_namespace c)) c
    ((λ parent, mkConfig (cp_thread_id c) (Some parent) (cp_namespace c)) <$> cp_parent_checkpoint_id c)
    (match ws with Some (w :: l) => w :: l | _ => cp_pending_writes c end).

(** Each step removes a record; one unit of fuel more than there are records. *)
Fixpoint walk_records (fuel : nat) (by_id : gmap string (Checkpoint State)) (writes : gmap string (list PendingWrite))
    (limit : option nat) (cursor : option string) (out : list (CheckpointTuple State)) : list (CheckpointTuple State) :=
  match fuel, cursor with
  | S fuel, Some id =>
      if match limit with Some l => bool_decide (l ≤ length out) | None => false end then out
      else
        match by_id !! id with
        | None => out
        | Some c =>
            walk_records fuel (delete id by_id) (delete (cp_checkpoint_id c) writes) limit (cp_parent_checkpoint_id c)
              (out ++ [tuple_of c (writes !! cp_checkpoint_id c)])
        end
  | _, _ => out
  end.

Definition index_records (cs : list (Checkpoint State)) : gmap string (Checkpoint State) :=
  foldl (λ m c, <[cp_checkpoint_id c := c]> m) ∅ cs.

Definition drv_state_history (s : D) (thread : string) (namespace : list string) (limit : option nat)
    : Result (list (CheckpointTuple State)) :=
  let? records := mapped (doc_query_all CHECKPOINTS (scoped_filter thread namespace) (Some "seq") s) in
  match records with
  | [] => Ok []
  | _ =>
      let? stored := mapped (doc_query_all WRITES (scoped_filter thread namespace) None s) in
      let? writes := writes_by_id stored ∅ in
      let? cs := decode_all records in
      let by_id := index_records cs in
      Ok (walk_records (S (size by_id)) by_id writes limit (cp_checkpoint_id <$> last cs) [])
  end.
End Driver.

(** ** Writes of a store nobody else uses *)

Section Alone.
Context {D : Type} `{!DocumentStore D} `{!LawfulDocs D} `{!DocQueries D} `{!LawfulQueries D}.

(** One document was written, and nothing else changed. *)
Definition wrote (c i : string) (body : value) (s s' : D) : Prop :=
  ∃ d, ver_doc d = body ∧ contents c s' = <[i := d]> (contents c s) ∧ ∀ c', c' ≠ c → contents c' s' = contents c' s.

Lemma put_wrote c i body p o s s' v :
  doc_put_with c i body p o s = (s', Ok v) → wrote c i body s s' ∧ holds p (contents c s !! i).
Proof.
  intros Hp. apply put_ok in Hp as ((current & Hc & Hh) & (d & Hd & Hb & _) & Hf).
  rewrite contents_get in Hc, Hd. injection Hc as <-. injection Hd as Hd. split; [|done].
  assert (Hsame : ∀ c' i', (c', i') ≠ (c, i) → contents c' s' !! i' = contents c' s !! i').
  { intros c' i' Hne. specialize (Hf c' i' Hne). rewrite !contents_get in Hf. by injection Hf. }
  exists d. split_and!; [done| |].
  - apply map_eq. intros i'. destruct (decide (i' = i)) as [->|Hne]; [by rewrite lookup_insert_eq|].
    rewrite lookup_insert_ne by done. apply Hsame. congruence.
  - intros c' Hc'. apply map_eq. intros i'. apply Hsame. congruence.
Qed.

Context {T : Type} `{!Codec T}.

(** What an update finds. *)
Definition found_as (c i : string) (s : D) (current : option T) : Prop :=
  match contents c s !! i with Some d => decode_body (ver_doc d) = current ∧ is_Some current | None => current = None end.

Lemma read_found c i s p current : read_current c i s = Ok (p, current) → found_as c i s current.
Proof.
  unfold read_current, repo_get, found_as. rewrite contents_get. cbn [rbind].
  destruct (contents c s !! i) as [d|]; cbn; [|by intros [= _ <-]].
  unfold decode. destruct (decode_body (ver_doc d)) as [t|]; [|done]. cbn. by intros [= _ <-].
Qed.

Lemma update_alone {S} c o retry id (h : S → option T → S * StoreResult (option T)) st s s' st' r :
  repo_update c o retry alone id h st s = (s', st', r) →
  (s' = s ∧ match r with
            | Ok (Some _) => False
            | Ok None => ∃ st0 current, found_as c id s current ∧ h st0 current = (st', Ok None)
            | Err _ => True
            end) ∨
  ∃ st0 current next v, found_as c id s current ∧ h st0 current = (st', Ok (Some next)) ∧ r = Ok (Some (next, v)) ∧
    wrote c id (encode next) s s'.
Proof.
  unfold repo_update. generalize 0 as k. assert (Hb : budget retry ≠ 0) by (unfold budget; lia).
  revert Hb. generalize (budget retry) as fuel. intros fuel Hb k. revert st k Hb.
  induction fuel as [|fuel IH]; intros st k Hb; [done|]. cbn.
  change (alone (Datatypes.S k) (alone k s)) with s. change (alone k s) with s.
  destruct (read_current c id s) as [[p current]|e] eqn:Hr; [|intros [= <- <- <-]; by left]. apply read_found in Hr.
  destruct (h st current) as [st1 [[next|]|e]] eqn:Hh; [|intros [= <- <- <-]; left; split; [done|]; by eauto..].
  destruct (repo_write c o id next p _) as [s3 [v|e]] eqn:Hw.
  - intros [= <- <- <-]. right. exists st, current, next, v. apply put_wrote in Hw as [Hw _]. by split_and!.
  - unfold repo_write in Hw. apply put_err in Hw. subst s3.
    case_decide as Hc; [apply IH, Hc|]. intros [= <- <- <-]. by left.
Qed.
End Alone.

(** ** Imported writes *)

Lemma ledger_find_list k l : ledger_find k l = snd <$> list_find (λ x, write_identity x = k) l.
Proof.
  induction l as [|x l IH]; [done|]. rewrite ledger_find_cons, IH. cbn. case_decide; [done|]. by destruct (list_find _ l) as [[]|].
Qed.
Lemma ledger_find_snoc k l w :
  ledger_find k (l ++ [w]) = match ledger_find k l with
                             | Some x => Some x
                             | None => if decide (write_identity w = k) then Some w else None
                             end.
Proof. induction l as [|x l IH]; cbn [app]; rewrite !ledger_find_cons; [done|]. rewrite IH. by destruct (decide (write_identity x = k)). Qed.
Lemma ledger_find_insert k l w i x :
  list_find (λ x, write_identity x = write_identity w) l = Some (i, x) →
  ledger_find k (<[i := w]> l) = if decide (write_identity w = k) then Some w else ledger_find k l.
Proof.
  revert i. induction l as [|y l IH]; intros i; [done|]. cbn [list_find]. destruct (decide (write_identity y = write_identity w)) as [Hy|Hy].
  - intros [= <- <-]. change (<[0 := w]> (y :: l)) with (w :: l). rewrite !ledger_find_cons, Hy. by case_decide.
  - destruct (list_find _ l) as [[j z]|]; [|done]. intros [= <- <-]. change (<[Datatypes.S j := w]> (y :: l)) with (y :: <[j := w]> l).
    rewrite !ledger_find_cons, (IH j) by done.
    repeat case_decide; congruence.
Qed.
Lemma ledger_find_identity k l x : ledger_find k l = Some x → write_identity x = k.
Proof. induction l as [|y l IH]; [done|]. rewrite ledger_find_cons. case_decide; [by intros [= <-]|done]. Qed.

(** The importer may replace what is held under an identity. *)
Definition replaces (b : WritesBody) (w : PendingWrite) : bool :=
  is_control_plane w && bool_decide (write_identity w ∈ wb_imported b).

Lemma import_one_effect b written existing w count b' written' existing' :
  1 ≤ count → import_one (b, written, existing) (w, count) = (b', written', existing') →
  written' + existing' = written + existing + count ∧ written ≤ written' ∧
  (∀ k, ledger_find k (wb_writes b') =
     if decide (write_identity w = k) then
       match ledger_find k (wb_writes b) with Some x => if replaces b w then Some w else Some x | None => Some w end
     else ledger_find k (wb_writes b)) ∧
  (∀ k, k ∈ wb_imported b' ↔ k ∈ wb_imported b ∨
     (k = write_identity w ∧ is_control_plane w = true ∧ ledger_find k (wb_writes b) = None)) ∧
  (written' = written → b' = b).
Proof.
  intros Hc. unfold import_one, replaces.
  destruct (list_find _ (wb_writes b)) as [[i x]|] eqn:Hf;
    pose proof (ledger_find_list (write_identity w) (wb_writes b)) as Hl; rewrite Hf in Hl; cbn [fmap option_fmap option_map snd] in Hl.
  - destruct (is_control_plane w && _) eqn:Hr.
    + destruct (decide (x = w)) as [Hx|Hx]; intros [= <- <- <-]; subst; (split_and!; [lia|lia| | |lia || done]); cbn [wb_writes wb_imported set_writes].
      * intros k. destruct (decide (write_identity w = k)) as [<-|Hk]; [by rewrite Hl|done].
      * intros k. split; [by left|]. intros [?|(-> & _ & ?)]; [done|congruence].
      * intros k. rewrite (ledger_find_insert _ _ _ _ _ Hf). destruct (decide (write_identity w = k)) as [<-|Hk]; [by rewrite Hl|done].
      * intros k. split; [by left|]. intros [?|(-> & _ & ?)]; [done|congruence].
    + intros [= <- <- <-]. (split_and!; [lia|lia| | |done]).
      * intros k. destruct (decide (write_identity w = k)) as [<-|Hk]; [by rewrite Hl|done].
      * intros k. split; [by left|]. intros [?|(-> & _ & ?)]; [done|congruence].
  - assert (Hpush : ∀ k, ledger_find k (wb_writes b ++ [w]) =
      if decide (write_identity w = k) then
        match ledger_find k (wb_writes b) with
        | Some x => if is_control_plane w && bool_decide (write_identity w ∈ wb_imported b) then Some w else Some x
        | None => Some w
        end
      else ledger_find k (wb_writes b)).
    { intros k. rewrite ledger_find_snoc. destruct (decide (write_identity w = k)) as [<-|Hk]; [by rewrite Hl|]. by destruct (ledger_find k _). }
    destruct (is_control_plane w) eqn:Hw; intros [= <- <- <-]; (split_and!; [lia|lia|exact Hpush| |lia]); cbn [wb_imported set_writes]; intros k.
    + destruct (decide (write_identity w ∈ wb_imported b)); [|rewrite elem_of_app, list_elem_of_singleton]; naive_solver.
    + naive_solver.
Qed.

Definition group_ids (g : list (PendingWrite * nat)) : list (string * Z) := (λ wc, write_identity wc.1) <$> g.
Definition group_total (g : list (PendingWrite * nat)) : nat := sum_list g.*2.
(** Each identity once, with at least one record. *)
Definition grouped_ok (g : list (PendingWrite * nat)) : Prop := NoDup (group_ids g) ∧ Forall (λ wc, 1 ≤ wc.2) g.

Lemma add_incoming_spec g w :
  group_ids (add_incoming g w) =
    group_ids g ++ (if decide (write_identity w ∈ group_ids g) then [] else [write_identity w]) ∧
  group_total (add_incoming g w) = S (group_total g) ∧
  (Forall (λ wc, 1 ≤ wc.2) g → Forall (λ wc, 1 ≤ wc.2) (add_incoming g w)).
Proof.
  induction g as [|[x n] g (IHi & IHt & IHf)]; [split_and!; [done..|]; by repeat constructor|]. cbn [add_incoming].
  destruct (decide (write_identity x = write_identity w)) as [E|E].
  - split_and!.
    + cbn. rewrite decide_True by (rewrite E; left). rewrite app_nil_r. by destruct (is_control_plane w); rewrite ?E.
    + done.
    + intros [_ Hf]%Forall_cons. constructor; [cbn; lia|done].
  - split_and!.
    + cbn. change ((λ wc, write_identity wc.1) <$> ?l) with (group_ids l). rewrite IHi. cbn.
      destruct (decide (write_identity w ∈ group_ids g)) as [Hi|Hi]; [by rewrite decide_True by by right|].
      rewrite decide_False; [done|]. intros [?|?]%elem_of_cons; congruence.
    + unfold group_total in *. cbn. lia.
    + intros [Hn Hf]%Forall_cons. constructor; auto.
Qed.

Lemma group_incoming_spec incoming :
  grouped_ok (group_incoming incoming) ∧ group_total (group_incoming incoming) = length incoming ∧
  ∀ w, w ∈ incoming → write_identity w ∈ group_ids (group_incoming incoming).
Proof.
  unfold group_incoming, grouped_ok. induction incoming as [|w l ([Hn Hf] & Ht & Hi)] using rev_ind.
  { split_and!; [constructor|constructor|done|]. intros w Hw. by apply not_elem_of_nil in Hw. }
  rewrite foldl_snoc. destruct (add_incoming_spec (foldl add_incoming [] l) w) as (Ei & Et & Ef). rewrite Ei, Et, length_app, Ht. cbn.
  split_and!; [|by apply Ef|lia|].
  - case_decide as Hd; [by rewrite app_nil_r|]. apply NoDup_app. split_and!; [done| |apply NoDup_singleton].
    by intros x Hx ->%list_elem_of_singleton.
  - intros w' [Hw'|Hw'%list_elem_of_singleton]%elem_of_app; rewrite elem_of_app; [left; by apply Hi|subst w'].
    case_decide; [by left|right; by left].
Qed.

(** Nothing is left to import under the identity of [w]. *)
Definition settled (b : WritesBody) (w : PendingWrite) : Prop :=
  ∃ held, ledger_find (write_identity w) (wb_writes b) = Some held ∧ (replaces b w = true → held = w).

Lemma settled_import_one b w count written existing :
  settled b w → import_one (b, written, existing) (w, count) = (b, written, existing + count).
Proof.
  intros (held & Hh & Hr). unfold import_one. rewrite ledger_find_list in Hh.
  destruct (list_find _ (wb_writes b)) as [[i x]|]; [|done]. injection Hh as ->. unfold replaces in Hr.
  destruct (is_control_plane w && _); [|done]. by rewrite decide_True by by apply Hr.
Qed.
Lemma settled_import grouped b written existing :
  (∀ wc, wc ∈ grouped → settled b wc.1) →
  foldl import_one (b, written, existing) grouped = (b, written, existing + group_total grouped).
Proof.
  revert existing. induction grouped as [|[w n] g IH]; intros existing Hs; [cbn; by rewrite Nat.add_0_r|].
  cbn [foldl]. rewrite settled_import_one by (apply (Hs (w, n)); by left).
  rewrite IH by (intros; apply Hs; by right). unfold group_total. cbn. by rewrite Nat.add_assoc.
Qed.

Lemma import_fold_effect grouped : ∀ b written existing b' written' existing',
  grouped_ok grouped → foldl import_one (b, written, existing) grouped = (b', written', existing') →
  written' + existing' = written + existing + group_total grouped ∧ written ≤ written' ∧ (written' = written → b' = b) ∧
  (∀ k x, ledger_find k (wb_writes b) = Some x → k ∉ wb_imported b →
     ledger_find k (wb_writes b') = Some x ∧ k ∉ wb_imported b') ∧
  (∀ wc, wc ∈ grouped → settled b' wc.1) ∧
  (∀ w, settled b w → write_identity w ∉ group_ids grouped → settled b' w).
Proof.
  induction grouped as [|[w n] g IH]; intros b written existing b' written' existing' [Hnd Hf] Hfold.
  { injection Hfold as <- <- <-. split_and!; try done; try (unfold group_total; cbn; lia); by intros wc Hw%not_elem_of_nil. }
  cbn [foldl] in Hfold. destruct (import_one (b, written, existing) (w, n)) as [[b1 w1] e1] eqn:H1.
  apply Forall_cons in Hf as [Hn Hf]. cbn in Hnd. apply NoDup_cons in Hnd as [Hw Hnd].
  destruct (import_one_effect _ _ _ _ _ _ _ _ Hn H1) as (Hsum & Hle & Hfind & Hmark & Hsame).
  destruct (IH _ _ _ _ _ _ (conj Hnd Hf) Hfold) as (Hsum' & Hle' & Hsame' & Hkeep & Hset & Hold).
  assert (Hsettle : settled b1 w).
  { unfold settled, replaces. rewrite Hfind, decide_True by done. unfold replaces.
    destruct (ledger_find (write_identity w) (wb_writes b)) as [x|] eqn:Hx; [|by exists w].
    destruct (is_control_plane w) eqn:Hc; cbn; [|by eexists]. 
    assert (Hiff : write_identity w ∈ wb_imported b1 ↔ write_identity w ∈ wb_imported b) by (rewrite Hmark; naive_solver).
    rewrite (bool_decide_ext _ _ Hiff). case_bool_decide; by eexists. }
  assert (Hother : ∀ x, write_identity x ≠ write_identity w → settled b x → settled b1 x).
  { intros x Hne (h & Hh & Hr). exists h. rewrite Hfind, decide_False by congruence. split; [done|].
    intros Hr1. apply Hr. revert Hr1. unfold replaces. rewrite !andb_true_iff, !bool_decide_eq_true, Hmark. naive_solver. }
  split_and!.
  - change (group_total ((w, n) :: g)) with (n + group_total g). cbn [snd] in Hsum. lia.
  - lia.
  - intros. assert (w1 = written) by lia. subst w1. rewrite Hsame' by lia. by apply Hsame.
  - intros k x Hx Hk. apply Hkeep.
    + rewrite Hfind. destruct (decide (write_identity w = k)) as [<-|]; [|done]. rewrite Hx. unfold replaces.
      by rewrite (bool_decide_eq_false_2 _ Hk), andb_false_r.
    + rewrite Hmark. intros [?|(_ & _ & ?)]; [done|congruence].
  - intros wc [->|Hin]%elem_of_cons; [by apply Hold|by apply Hset].
  - intros x Hx Hnin. cbn in Hnin. apply not_elem_of_cons in Hnin as [Hne Hnin]. apply Hold; [|done]. by apply Hother.
Qed.

(** ** The documents of the namespace *)

Section DriverFacts.
Context {D : Type} `{!DocumentStore D} `{!LawfulDocs D} `{!DocQueries D} `{!LawfulQueries D} {State : Type}.
Context (wire : CheckpointWire State) `{!LawfulWire wire} (key_of_ : list string → result StorageError string) (ns : string).
Implicit Types (s : D) (c : Checkpoint State).

#[local] Hint Extern 0 (Codec WritesBody) => exact (WritesBody_codec wire) : typeclass_instances.

Definition record_body c (seq : N) (v : value) : CheckpointBody :=
  mkCpBody ns (cp_thread_id c) (subgraph_key key_of_ (cp_namespace c)) seq (cp_checkpoint_id c) v.

(** The next number of a thread. *)
Definition counter s (thread : string) : option N :=
  contents THREADS s !! thread_id_key key_of_ ns thread >>? λ d, tb_next <$> decode_body (ver_doc d).

Record layout_ok s : Prop := {
  lo_records i d : contents CHECKPOINTS s !! i = Some d → get "ns" (ver_doc d) = Some (Str ns) →
    ∃ c v seq next, cw_encode wire c = Ok v ∧ ver_doc d = encode (record_body c seq v) ∧
      i = checkpoint_id_key key_of_ ns (cp_thread_id c) seq ∧
      counter s (cp_thread_id c) = Some next ∧ (seq < next)%N;
  lo_writes i d : contents WRITES s !! i = Some d →
    ∃ b, ver_doc d = encode b ∧
      i = writes_id_key key_of_ (wb_ns b) (wb_thread b) (wb_subgraph b) (wb_checkpoint_id b)
}.

(** The record [c] is stored at the place [seq] of its thread. *)
Definition stored s (seq : N) c : Prop :=
  ∃ d v, contents CHECKPOINTS s !! checkpoint_id_key key_of_ ns (cp_thread_id c) seq = Some d ∧
    cw_encode wire c = Ok v ∧ ver_doc d = encode (record_body c seq v).

Definition selected (thread : string) (id : option string) (subgraph : string) c : Prop :=
  cp_thread_id c = thread ∧ subgraph_key key_of_ (cp_namespace c) = subgraph ∧
  match id with Some i => cp_checkpoint_id c = i | None => True end.

Lemma body_fields c seq v :
  get "ns" (encode (record_body c seq v)) = Some (Str ns) ∧
  get "seq" (encode (record_body c seq v)) = Some (Number (PosInt (Z.of_N seq))) ∧
  get "checkpoint" (encode (record_body c seq v)) = Some v ∧
  get "thread" (encode (record_body c seq v)) = Some (Str (cp_thread_id c)) ∧
  get "subgraph" (encode (record_body c seq v)) = Some (Str (subgraph_key key_of_ (cp_namespace c))) ∧
  get "checkpoint_id" (encode (record_body c seq v)) = Some (Str (cp_checkpoint_id c)).
Proof. done. Qed.

Lemma body_decodes d c seq v :
  cw_encode wire c = Ok v → ver_doc d = encode (record_body c seq v) → decode_checkpoint wire d = Ok c.
Proof.
  intros Hv Hd. unfold decode_checkpoint. rewrite Hd.
  destruct (body_fields c seq v) as (_ & _ & -> & _). cbn. by rewrite (wire_checkpoint c v Hv).
Qed.

Lemma eq_filter_matches field v doc : filter_matches (filter_eq field v) doc = true ↔ get field doc = Some (Str v).
Proof.
  unfold filter_matches, filter_eq. cbn. rewrite andb_true_r. unfold field_in. cbn.
  destruct (get field doc) as [[| | |x| |]|]; split; try done.
  - intros ->%bool_decide_eq_true%list_elem_of_singleton. done.
  - intros [= ->]. by apply bool_decide_eq_true, list_elem_of_singleton.
Qed.
Lemma app_filter_matches f g doc : filter_matches (f ++ g) doc = filter_matches f doc && filter_matches g doc.
Proof. apply forallb_app. Qed.
Lemma ns_filtered doc thread : filter_matches (thread_filter ns thread) doc = true → get "ns" doc = Some (Str ns).
Proof. unfold thread_filter. rewrite app_filter_matches, andb_true_iff, !eq_filter_matches. tauto. Qed.

Lemma body_matches c seq v thread id namespace :
  filter_matches (with_id id (scoped_filter key_of_ ns thread namespace)) (encode (record_body c seq v)) = true ↔
  selected thread id (subgraph_key key_of_ namespace) c.
Proof.
  unfold with_id, scoped_filter, thread_filter, selected.
  destruct (body_fields c seq v) as (Hn & _ & _ & Ht & Hg & Hi).
  destruct id; rewrite !app_filter_matches, !andb_true_iff, !eq_filter_matches, Hn, Ht, Hg, ?Hi; split.
  - by intros (((_ & [= ->]) & [= ->]) & [= ->]).
  - by intros (-> & -> & ->).
  - by intros ((_ & [= ->]) & [= ->]).
  - by intros (-> & -> & _).
Qed.

Lemma encode_body_inj d c c' seq seq' v v' :
  cw_encode wire c = Ok v → cw_encode wire c' = Ok v' →
  ver_doc d = encode (record_body c seq v) → ver_doc d = encode (record_body c' seq' v') → c = c' ∧ seq = seq'.
Proof.
  intros Hv Hv' H H'. pose proof (body_decodes _ _ _ _ Hv H) as E. rewrite (body_decodes _ _ _ _ Hv' H') in E.
  injection E as ->. split; [done|]. rewrite H in H'. apply (f_equal (get "seq")) in H'.
  destruct (body_fields c seq v) as (_ & Hq & _). rewrite Hq in H'.
  destruct (body_fields c seq' v') as (_ & Hq' & _). rewrite Hq' in H'. injection H' as H'. lia.
Qed.

(** The filter [f] selects the records that satisfy [P]. *)
Definition selects (f : Filter_) (P : Checkpoint State → Prop) : Prop :=
  (∀ doc, filter_matches f doc = true → get "ns" doc = Some (Str ns)) ∧
  ∀ c seq v, filter_matches f (encode (record_body c seq v)) = true ↔ P c.

Lemma scoped_selects thread id namespace :
  selects (with_id id (scoped_filter key_of_ ns thread namespace)) (selected thread id (subgraph_key key_of_ namespace)).
Proof.
  split; [|intros c seq v; apply body_matches]. intros doc Hm. eapply ns_filtered with (thread := thread).
  revert Hm. unfold with_id, scoped_filter. destruct id; rewrite !app_filter_matches, !andb_true_iff; tauto.
Qed.

(** A matching document is a stored record that is selected. *)
Lemma matching_stored s f P i d :
  layout_ok s → selects f P →
  matching f (contents CHECKPOINTS s) !! i = Some d ↔
  ∃ c seq v, contents CHECKPOINTS s !! i = Some d ∧ i = checkpoint_id_key key_of_ ns (cp_thread_id c) seq ∧
    cw_encode wire c = Ok v ∧ ver_doc d = encode (record_body c seq v) ∧ P c.
Proof.
  intros Hl [Hns Hf]. unfold matching. rewrite map_lookup_filter_Some. cbn [fst snd]. split.
  - intros [Hi Hm]. destruct (lo_records s Hl i d Hi (Hns _ Hm)) as (c & v & seq & next & Hv & Hd & Hk & _).
    exists c, seq, v. split_and!; try done. rewrite Hd in Hm. by apply Hf in Hm.
  - intros (c & seq & v & Hi & Hk & Hv & Hd & Hs). split; [done|]. rewrite Hd. by apply Hf.
Qed.

(** What a read of the newest record answers. *)
Definition newest_of s (P : Checkpoint State → Prop) (o : option (Checkpoint State)) : Prop :=
  match o with
  | None => ∀ seq c, stored s seq c → ¬ P c
  | Some c => ∃ seq, stored s seq c ∧ P c ∧ ∀ seq' c', stored s seq' c' → P c' → (seq' ≤ seq)%N
  end.

Lemma stored_unique s seq c c' : stored s seq c → stored s seq c' → cp_thread_id c = cp_thread_id c' → c = c'.
Proof.
  intros (d & v & Hd & Hv & He) (d' & v' & Hd' & Hv' & He') Ht. rewrite Ht, Hd' in Hd. injection Hd as ->.
  by destruct (encode_body_inj d c c' seq seq v v' Hv Hv' He He').
Qed.

Lemma newest_of_unique s thread (P : Checkpoint State → Prop) o o' :
  (∀ c, P c → cp_thread_id c = thread) → newest_of s P o → newest_of s P o' → o = o'.
Proof.
  intros Hth. destruct o as [c|], o' as [c'|]; cbn; [|by intros (q & Hs & Hsel & _) H; destruct (H q c Hs)|
    by intros H (q & Hs & Hsel & _); destruct (H q c' Hs)|done].
  intros (q & Hs & Hsel & Hmax) (q' & Hs' & Hsel' & Hmax').
  assert (q = q') as -> by (apply N.le_antisymm; eauto). f_equal.
  eapply stored_unique; [done..|]. by rewrite (Hth c), (Hth c').
Qed.

Lemma newest_selected s f P : layout_ok s → selects f P → ∃ o, newest wire s f = Ok o ∧ newest_of s P o.
Proof.
  intros Hl Hf. unfold newest. destruct (query_newest_ok CHECKPOINTS f "seq" s) as (l & -> & Hm).
  assert (Hin : ∀ q c, stored s q c → P c → ∃ d v, ver_doc d = encode (record_body c q v) ∧ 
                 matching f (contents CHECKPOINTS s) !! checkpoint_id_key key_of_ ns (cp_thread_id c) q = Some d).
  { intros q c (d & v & Hd & Hv & He) HP. exists d, v. split; [done|]. apply (matching_stored s f P); [done..|]. eauto 10. }
  cbn [mapped rbind]. destruct l as [|d l].
  - exists None. split; [done|]. intros seq c Hst HP. destruct (Hin seq c Hst HP) as (d & v & _ & Hd). by rewrite Hm in Hd.
  - destruct Hm as [[i Hi] Hmax]. apply (matching_stored s f P) in Hi as (c & seq & v & Hi & Hk & Hv & He & Hsel); [|done..].
    rewrite (body_decodes d c seq v) by done. exists (Some c). split; [done|]. subst i.
    exists seq. split_and!; [by exists d, v|done|].
    intros seq' c' Hst' HP'. destruct (Hin seq' c' Hst' HP') as (d' & v' & He' & Hin').
    specialize (Hmax _ _ Hin'). unfold sort_key in Hmax. rewrite He, He' in Hmax.
    destruct (body_fields c seq v) as (_ & Hq & _), (body_fields c' seq' v') as (_ & Hq' & _).
    rewrite Hq, Hq' in Hmax. cbn in Hmax. lia.
Qed.

Lemma get_scoped_newest s thread id namespace :
  layout_ok s → ∃ o, drv_get_scoped wire key_of_ ns s thread id namespace = Ok o ∧
    newest_of s (selected thread id (subgraph_key key_of_ namespace)) o.
Proof. intros Hl. apply newest_selected; [done|apply scoped_selects]. Qed.

Lemma selected_thread thread id subgraph c : selected thread id subgraph c → cp_thread_id c = thread.
Proof. by intros [? _]. Qed.

Lemma get_scoped_same s s' thread id namespace :
  layout_ok s → layout_ok s' → (∀ seq c, cp_thread_id c = thread → stored s' seq c ↔ stored s seq c) →
  drv_get_scoped wire key_of_ ns s' thread id namespace = drv_get_scoped wire key_of_ ns s thread id namespace.
Proof.
  intros Hl Hl' Hst. destruct (get_scoped_newest s thread id namespace Hl) as (o & -> & Ho).
  destruct (get_scoped_newest s' thread id namespace Hl') as (o' & -> & Ho'). f_equal.
  eapply newest_of_unique; [apply selected_thread|exact Ho'|]. revert Ho. unfold newest_of. destruct o as [c|].
  - intros (q & Hs & Hsel & Hmax). exists q. split_and!; [by apply Hst; [apply Hsel|]|done|].
    intros q' c' Hs' Hsel'. apply (Hmax q' c'); [|done]. apply Hst; [apply Hsel'|done].
  - intros H q c Hs Hsel. apply (H q c); [|done]. apply Hst; [apply Hsel|done].
Qed.

(** ** What the operations change *)

Lemma thread_body_roundtrip (b : ThreadBody) : decode_body (encode b) = Some b.
Proof.
  destruct b as [n th next].
  change (Some (mkThreadBody n th (Z.to_N (Z.of_N next))) = Some (mkThreadBody n th next)). by rewrite N2Z.id.
Qed.
Lemma writes_body_roundtrip (b : WritesBody) : decode_body (encode b) = Some b.
Proof.
  destruct b as [n th sg id ws imp]. unfold encode, WritesBody_codec. cbn [wb_imported].
  destruct (decide (imp = [])) as [->|Hne].
  - change ((match cw_decode_writes wire (cw_encode_writes wire ws) with Ok w => Some w | Err _ => None end) >>?
      (λ w, Some (mkWritesBody n th sg id w [])) = Some (mkWritesBody n th sg id ws [])). by rewrite wire_writes.
  - change ((match cw_decode_writes wire (cw_encode_writes wire ws) with Ok w => Some w | Err _ => None end) >>?
      (λ w, cw_decode_ids wire (cw_encode_ids wire imp) >>? λ i, Some (mkWritesBody n th sg id w i))
      = Some (mkWritesBody n th sg id ws imp)). rewrite wire_writes. cbn. by rewrite wire_ids.
Qed.

Definition counters_grow s s' : Prop :=
  ∀ thread next, counter s thread = Some next → ∃ next', counter s' thread = Some next' ∧ (next ≤ next')%N.

Lemma layout_sub s s' :
  contents CHECKPOINTS s' ⊆ contents CHECKPOINTS s → contents WRITES s' ⊆ contents WRITES s → counters_grow s s' →
  layout_ok s → layout_ok s'.
Proof.
  intros Hc Hw Hg [Hr Hwr]. split.
  - intros i d Hi Hns. destruct (Hr i d) as (c & v & seq & next & Hv & Hd & Hk & Hn & Hlt); [by eapply lookup_weaken|done|].
    destruct (Hg _ _ Hn) as (next' & Hn' & Hle). exists c, v, seq, next'. split_and!; try done. lia.
  - intros i d Hi. apply Hwr. by eapply lookup_weaken.
Qed.
Lemma layout_mono s s' :
  contents CHECKPOINTS s' = contents CHECKPOINTS s → contents WRITES s' = contents WRITES s → counters_grow s s' →
  layout_ok s → layout_ok s'.
Proof. intros Hc Hw. apply layout_sub; by rewrite ?Hc, ?Hw. Qed.
Lemma counters_same s s' : contents THREADS s' = contents THREADS s → counters_grow s s'.
Proof. intros Ht thread next Hn. exists next. unfold counter in *. by rewrite Ht. Qed.

Lemma reserve_effect s thread s' r :
  drv_next_seq wire key_of_ ns s thread = (s', r) →
  (s' = s ∧ ∃ e, r = Err e) ∨
  ∃ seq, r = Ok seq ∧ contents CHECKPOINTS s' = contents CHECKPOINTS s ∧ contents WRITES s' = contents WRITES s ∧
    counters_grow s s' ∧ counter s' thread = Some (seq + 1)%N ∧
    (∀ next, counter s thread = Some next → next = seq).
Proof.
  unfold drv_next_seq. destruct (repo_update _ _ _ _ _ _ _ _) as [[s1 u] res] eqn:Hu. intros [= <- <-].
  apply update_alone in Hu as [[-> Hres]|(st0 & current & next & v & Hf & [= <- <-] & -> & (d & Hd & Hc & Ho))].
  { left. split; [done|]. destruct res as [[x|]|e]; [done|by eexists..]. }
  right. set (k := thread_id_key key_of_ ns thread) in *.
  set (n := match current with Some b => (tb_next b + 1)%N | None => 1%N end) in *.
  exists (n - 1)%N. cbn [tb_next].
  assert (Hn : (n - 1 + 1)%N = n) by (unfold n; destruct current; lia).
  assert (Hnew : ∀ t', thread_id_key key_of_ ns t' = k → counter s1 t' = Some n).
  { intros t' Ht'. unfold counter. rewrite Ht', Hc, lookup_insert_eq. cbn [and_then]. by rewrite Hd, thread_body_roundtrip. }
  assert (Hold : ∀ t' next, thread_id_key key_of_ ns t' = k → counter s t' = Some next → (next = n - 1)%N ∧ (next ≤ n)%N).
  { intros t' next Ht' Hn'. unfold counter in Hn'. rewrite Ht' in Hn'. unfold found_as in Hf.
    destruct (contents THREADS s !! k) as [d0|]; [|done]. destruct Hf as [Hf _]. cbn [and_then] in Hn'. rewrite Hf in Hn'.
    destruct current as [b|]; [|done]. injection Hn' as <-. unfold n. lia. }
  split_and!; [done|by apply Ho|by apply Ho| |by rewrite Hn; apply Hnew|by intros next Hnx; apply (Hold thread next eq_refl)].
  intros t' next Hn'. destruct (decide (thread_id_key key_of_ ns t' = k)) as [Ht'|Ht'].
  - exists n. split; [by apply Hnew|]. by apply (Hold t' next).
  - exists next. split; [|done]. unfold counter in *. by rewrite Hc, lookup_insert_ne.
Qed.

Lemma stored_contents s s' seq c : contents CHECKPOINTS s' = contents CHECKPOINTS s → stored s' seq c ↔ stored s seq c.
Proof. intros Hc. unfold stored. by rewrite Hc. Qed.

Lemma stored_below s seq c next : layout_ok s → stored s seq c → counter s (cp_thread_id c) = Some next → (seq < next)%N.
Proof.
  intros Hl (d & v & Hd & Hv & He) Hn.
  assert (Hns : get "ns" (ver_doc d) = Some (Str ns)) by (rewrite He; apply body_fields).
  destruct (lo_records s Hl _ d Hd Hns) as (c' & v' & seq' & next' & Hv' & He' & _ & Hn' & Hlt).
  destruct (encode_body_inj d c c' seq seq' v v' Hv Hv' He He') as [-> ->]. by simplify_eq.
Qed.
Lemma stored_counted s seq c : layout_ok s → stored s seq c → is_Some (counter s (cp_thread_id c)).
Proof.
  intros Hl (d & v & Hd & Hv & He).
  assert (Hns : get "ns" (ver_doc d) = Some (Str ns)) by (rewrite He; apply body_fields).
  destruct (lo_records s Hl _ d Hd Hns) as (c' & v' & seq' & next' & Hv' & He' & _ & Hn' & Hlt).
  destruct (encode_body_inj d c c' seq seq' v v' Hv Hv' He He') as [-> _]. by eexists.
Qed.

Lemma put_effect s c s' r :
  layout_ok s → drv_put wire key_of_ ns s c = (s', r) →
  layout_ok s' ∧ contents WRITES s' = contents WRITES s ∧
  match r with
  | Ok id => id = cp_checkpoint_id c ∧ ∃ seq,
      (∀ q c', stored s' q c' ↔ stored s q c' ∨ (q = seq ∧ c' = c)) ∧
      (∀ q c', stored s q c' → cp_thread_id c' = cp_thread_id c → (q < seq)%N)
  | Err _ => True
  end.
Proof.
  intros Hl. unfold drv_put. destruct (drv_next_seq wire key_of_ ns s (cp_thread_id c)) as [s1 res] eqn:Hn.
  apply reserve_effect in Hn as [[-> [e ->]]|(seq & -> & Hc1 & Hw1 & Hg & Hnext & Hold)]; [by intros [= <- <-]|].
  assert (Hl1 : layout_ok s1) by by eapply layout_mono.
  destruct (cw_encode wire c) as [v|e] eqn:Hv; [|intros [= <- <-]; by split_and!].
  destruct (repo_insert _ _ _ _ _) as [s2 r2] eqn:Hi. intros [= <- <-].
  destruct r2 as [ver|e]; cbn; [|unfold repo_insert, repo_write in Hi; apply put_err in Hi as ->; by split_and!].
  unfold repo_insert, repo_write in Hi. apply put_wrote in Hi as [(d & Hd & Hc2 & Ho2) Habs].
  set (k := checkpoint_id_key key_of_ ns (cp_thread_id c) seq) in *.
  assert (Hnone : contents CHECKPOINTS s !! k = None) by (rewrite <- Hc1; by destruct (contents CHECKPOINTS s1 !! k)).
  assert (Hgrow : counters_grow s1 s2) by (intros t next Ht; exists next; unfold counter in *; by rewrite Ho2).
  split_and!; [|by rewrite Ho2|done|].
  - split.
    + intros i d' Hi' Hns'. rewrite Hc2 in Hi'. apply lookup_insert_Some in Hi' as [[<- <-]|[Hne Hi']].
      * exists c, v, seq, (seq + 1)%N. split_and!; try done; [|lia]. unfold counter in *. by rewrite Ho2.
      * destruct (lo_records s1 Hl1 i d' Hi' Hns') as (c' & v' & q & next & ? & ? & ? & Hcn & ?).
        destruct (Hgrow _ _ Hcn) as (next' & ? & ?). exists c', v', q, next'. split_and!; try done. lia.
    + intros i d'. rewrite Ho2 by done. apply (lo_writes s1 Hl1).
  - exists seq. split.
    + intros q c'. rewrite <- (stored_contents s s1 q c') by done. unfold stored. rewrite Hc2. split.
      * intros (d' & v' & Hd' & Hv' & He'). apply lookup_insert_Some in Hd' as [[Hk <-]|[Hne Hd']]; [right|left; eauto].
        by destruct (encode_body_inj d c c' seq q v v' Hv Hv' Hd He').
      * intros [(d' & v' & Hd' & Hv' & He')|[-> ->]].
        -- exists d', v'. split_and!; try done. rewrite lookup_insert_ne; [done|]. intros Hk. rewrite <- Hk, Hc1 in Hd'. congruence.
        -- exists d, v. by rewrite lookup_insert_eq.
    + intros q c' Hs Ht. destruct (stored_counted s q c' Hl Hs) as [next Hnx].
      pose proof (stored_below s q c' next Hl Hs Hnx) as Hlt. rewrite Ht in Hnx. by rewrite <- (Hold next Hnx).
Qed.

Lemma delete_sub coll f s s' r :
  doc_delete_where coll f s = (s', r) →
  ∀ other, contents other s' ⊆ contents other s ∧ (other ≠ coll → contents other s' = contents other s).
Proof.
  intros Hd other. destruct r as [n|e]; [|apply delete_where_err in Hd as ->; done].
  apply delete_where_ok in Hd as (_ & Hc & Ho). split; [|by apply Ho].
  destruct (decide (other = coll)) as [->|Hne]; [|by rewrite Ho]. rewrite Hc. by apply map_subseteq_difference_l.
Qed.
Lemma delete_layout coll f s s' r :
  coll ≠ THREADS → doc_delete_where coll f s = (s', r) → layout_ok s → layout_ok s'.
Proof.
  intros Hc Hd. pose proof (delete_sub _ _ _ _ _ Hd) as Hs. apply layout_sub; [apply Hs..|].
  apply counters_same, Hs. congruence.
Qed.
Lemma drop_writes_layout s f s' r : drop_writes wire s f = (s', r) → layout_ok s → layout_ok s'.
Proof.
  unfold drop_writes. destruct (doc_delete_where WRITES f s) as [s1 r1] eqn:Hd. intros [= <- _]. by (eapply delete_layout; [|exact Hd|..]).
Qed.
Lemma delete_thread_layout s thread s' r : drv_delete_thread wire ns s thread = (s', r) → layout_ok s → layout_ok s'.
Proof.
  unfold drv_delete_thread. destruct (doc_delete_where _ _ s) as [s1 [n|e]] eqn:Hd.
  - intros Hw Hl. eapply drop_writes_layout; [exact Hw|]. by (eapply delete_layout; [|exact Hd|..]).
  - intros [= <- _]. by (eapply delete_layout; [|exact Hd|..]).
Qed.
Lemma delete_checkpoints_layout s thread ids s' r :
  drv_delete_checkpoints wire ns s thread ids = (s', r) → layout_ok s → layout_ok s'.
Proof.
  unfold drv_delete_checkpoints. destruct ids as [|i ids]; [by intros [= <- _]|].
  destruct (doc_delete_where _ _ s) as [s1 [n|e]] eqn:Hd; [|intros [= <- _]; by (eapply delete_layout; [|exact Hd|..])].
  destruct (drop_writes _ _ _) as [s2 r2] eqn:Hw. intros [= <- _] Hl. eapply drop_writes_layout; [exact Hw|]. by (eapply delete_layout; [|exact Hd|..]).
Qed.

(** A body of writes keeps the place it names. *)
Definition same_place (b b' : WritesBody) : Prop :=
  wb_ns b' = wb_ns b ∧ wb_thread b' = wb_thread b ∧ wb_subgraph b' = wb_subgraph b ∧ wb_checkpoint_id b' = wb_checkpoint_id b.

Lemma writes_update_layout config id s s' (current : option WritesBody) next :
  let subgraph := subgraph_key key_of_ (cfg_namespace config) in
  let k := writes_id_key key_of_ ns (cfg_thread_id config) subgraph id in
  found_as WRITES k s current → same_place (default (fresh_writes ns config subgraph id) current) next →
  wrote WRITES k (encode next) s s' → layout_ok s → layout_ok s'.
Proof.
  intros subgraph k Hf Hp (d & Hd & Hc & Ho) Hl. split.
  - rewrite Ho by done. intros i d' Hi Hns. destruct (lo_records s Hl i d' Hi Hns) as (c & v & seq & nx & ? & ? & ? & Hcn & ?).
    exists c, v, seq, nx. split_and!; try done. unfold counter in *. by rewrite Ho.
  - intros i d' Hi. rewrite Hc in Hi. apply lookup_insert_Some in Hi as [[<- <-]|[Hne Hi]]; [|by apply (lo_writes s Hl)].
    exists next. split; [done|]. destruct Hp as (-> & -> & -> & ->). unfold found_as in Hf.
    destruct (contents WRITES s !! k) as [d0|] eqn:Hk; [|by subst current].
    destruct Hf as [Hf [b ->]]. destruct (lo_writes s Hl k d0 Hk) as (b0 & Hb0 & Hkey).
    rewrite Hb0, writes_body_roundtrip in Hf. injection Hf as ->. exact Hkey.
Qed.

Lemma get_writes_at s config id :
  cfg_checkpoint_id config = Some id →
  drv_get_writes wire key_of_ ns s config =
  match contents WRITES s !! writes_id_key key_of_ ns (cfg_thread_id config) (subgraph_key key_of_ (cfg_namespace config)) id with
  | None => Ok []
  | Some d => match decode_body (ver_doc d) with
              | Some b => Ok (wb_writes b)
              | None => Err (map_error wire serialization_error)
              end
  end.
Proof.
  intros Hid. unfold drv_get_writes. rewrite Hid. cbn [rbind]. unfold repo_get. rewrite contents_get. cbn [rbind].
  destruct (contents WRITES s !! _) as [d|]; [|done]. cbn [decode_opt]. unfold decode.
  by destruct (decode_body (ver_doc d)).
Qed.

Lemma put_writes_effect s config ws s' r :
  layout_ok s → drv_put_writes wire key_of_ ns s config ws = (s', r) →
  layout_ok s' ∧ contents CHECKPOINTS s' = contents CHECKPOINTS s ∧
  (r = Ok tt → is_Some (cfg_checkpoint_id config) → ∀ old, drv_get_writes wire key_of_ ns s config = Ok old →
   drv_get_writes wire key_of_ ns s' config = Ok (merge_writes old ws).1).
Proof.
  intros Hl. unfold drv_put_writes, require_checkpoint_id. destruct (cfg_checkpoint_id config) as [id|] eqn:Hid; cbn [ok_or].
  2:{ intros [= <- <-]. by split_and!. }
  destruct ws as [|w ws]; [intros [= <- <-]; split_and!; [done..|]; intros _ _ old ->; done|].
  destruct (repo_update _ _ _ _ _ _ _ _) as [[s1 u] res] eqn:Hu. intros [= <- <-].
  apply update_alone in Hu as [[-> Hres]|(st0 & current & next & v & Hf & [= <- <-] & -> & Hw)].
  { split_and!; [done..|]. destruct res as [[x|]|e]; [done|by destruct Hres as (? & ? & _ & ?)|by case_decide]. }
  split_and!.
  - by (eapply writes_update_layout; [exact Hf| |exact Hw|exact Hl]).
  - destruct Hw as (d & _ & _ & Ho). by apply Ho.
  - intros _ _ old. rewrite !(get_writes_at _ _ _ Hid). destruct Hw as (d & Hd & Hc & _). rewrite Hc, lookup_insert_eq, Hd.
    rewrite writes_body_roundtrip. unfold found_as in Hf.
    destruct (contents WRITES s !! _) as [d0|]; [|subst current; by intros [= <-]].
    destruct Hf as [Hb [b ->]]. change (decode_body (ver_doc d0) = Some b) in Hb. rewrite Hb. by intros [= <-].
Qed.
Lemma import_one_place acc wc : same_place acc.1.1 (import_one acc wc).1.1.
Proof.
  destruct acc as [[b written] existing], wc as [w count]. cbn.
  destruct (list_find _ _) as [[index held]|]; repeat case_match; done.
Qed.
Lemma import_fold_place grouped acc : same_place acc.1.1 (foldl import_one acc grouped).1.1.
Proof.
  revert acc. induction grouped as [|wc grouped IH]; intros acc; [done|]. cbn.
  specialize (IH (import_one acc wc)). pose proof (import_one_place acc wc) as Hp. unfold same_place in *. intuition congruence.
Qed.

(** What an import finds and what it leaves. *)
Lemma import_effect s config id incoming s' r :
  let subgraph := subgraph_key key_of_ (cfg_namespace config) in
  let k := writes_id_key key_of_ ns (cfg_thread_id config) subgraph id in
  cfg_checkpoint_id config = Some id → incoming ≠ [] →
  import_writes_if_absent wire key_of_ ns s config incoming = (s', r) →
  (∃ e, s' = s ∧ r = Err e) ∨
  ∃ current b written existing, found_as WRITES k s current ∧
    foldl import_one (default (fresh_writes ns config subgraph id) current, 0, 0) (group_incoming incoming) = (b, written, existing) ∧
    r = Ok (written, existing) ∧
    if decide (0 < written) then wrote WRITES k (encode b) s s' else s' = s.
Proof.
  intros subgraph k Hid Hne. unfold import_writes_if_absent, require_checkpoint_id. rewrite Hid. cbn [ok_or].
  destruct incoming as [|w ws]; [done|]. destruct (repo_update _ _ _ _ _ _ _ _) as [[s1 counts] res] eqn:Hu. intros [= <- <-].
  apply update_alone in Hu as [[-> Hres]|(st0 & current & next & v & Hf & Hh & -> & Hw)].
  - destruct res as [[x|]|e]; [done| |left; by eauto]. destruct Hres as (st0 & current & Hf & Hh). right.
    destruct (foldl _ _ _) as [[b written] existing] eqn:Hfold in Hh. exists current, b, written, existing.
    case_decide; simplify_eq. split_and!; try done.
  - right. destruct (foldl _ _ _) as [[b written] existing] eqn:Hfold in Hh. exists current, b, written, existing.
    case_decide; simplify_eq. split_and!; done.
Qed.

Lemma import_layout s config incoming s' r :
  import_writes_if_absent wire key_of_ ns s config incoming = (s', r) → layout_ok s → layout_ok s'.
Proof.
  intros Hi Hl. destruct (cfg_checkpoint_id config) as [id|] eqn:Hid.
  2:{ unfold import_writes_if_absent, require_checkpoint_id in Hi. rewrite Hid in Hi. by injection Hi as <- _. }
  destruct incoming as [|w ws]; [unfold import_writes_if_absent, require_checkpoint_id in Hi; rewrite Hid in Hi; by injection Hi as <- _|].
  apply (import_effect _ _ _ _ _ _ Hid) in Hi as [(e & -> & _)|(current & b & written & existing & Hf & Hfold & _ & Hw)]; [done| |done].
  case_decide; [|by subst].
  eapply writes_update_layout; [exact Hf| |exact Hw|exact Hl].
  pose proof (import_fold_place (group_incoming (w :: ws)) (default (fresh_writes ns config (subgraph_key key_of_ (cfg_namespace config)) id) current, 0, 0)) as Hp.
  rewrite Hfold in Hp. exact Hp.
Qed.

(** ** The backend the executor runs on *)

Definition Kept : Type := {s : D | layout_ok s}.

(** An operation on a store that keeps the layout. *)
Definition kept_op {A} (f : D → D * A) (keeps : ∀ s s' r, f s = (s', r) → layout_ok s → layout_ok s') (s : Kept) : Kept * A :=
  (exist layout_ok (f (`s)).1 (keeps (`s) _ _ (surjective_pairing _) (proj2_sig s)), (f (`s)).2).

Lemma kept_op_eq {A} f keeps (s s' : Kept) (r : A) : kept_op f keeps s = (s', r) → f (`s) = (`s', r).
Proof. unfold kept_op. intros [= <- <-]. apply surjective_pairing. Qed.

Definition driver_ops : CheckpointerOps State Kept := {|
  ck_put k c := kept_op (λ s, drv_put wire key_of_ ns s c) (λ s s' r H Hl, proj1 (put_effect s c s' r Hl H)) k;
  ck_get k := drv_get wire ns (`k);
  ck_list k := drv_list wire ns (`k);
  ck_list_threads k := drv_list_threads wire ns (`k);
  ck_delete_thread k t := kept_op (λ s, drv_delete_thread wire ns s t) (λ s s' r, delete_thread_layout s t s' r) k;
  ck_delete_checkpoints k t ids := kept_op (λ s, drv_delete_checkpoints wire ns s t ids) (λ s s' r, delete_checkpoints_layout s t ids s' r) k;
  ck_put_writes k cfg ws := kept_op (λ s, drv_put_writes wire key_of_ ns s cfg ws)
                              (λ s s' r H Hl, proj1 (put_writes_effect s cfg ws s' r Hl H)) k;
  ck_get_writes k := drv_get_writes wire key_of_ ns (`k);
  ck_get_scoped k := drv_get_scoped wire key_of_ ns (`k);
  ck_get_thread k := drv_get_thread wire ns (`k)
|}.

Lemma put_newest s c s' id0 id :
  layout_ok s → drv_put wire key_of_ ns s c = (s', Ok id0) → id = None ∨ id = Some (cp_checkpoint_id c) →
  drv_get_scoped wire key_of_ ns s' (cp_thread_id c) id (cp_namespace c) = Ok (Some c).
Proof.
  intros Hl Hp Hid. apply put_effect in Hp as (Hl' & _ & _ & seq & Hst & Hlt); [|done].
  destruct (get_scoped_newest s' (cp_thread_id c) id (cp_namespace c) Hl') as (o & -> & Ho). f_equal.
  eapply newest_of_unique; [apply selected_thread|exact Ho|]. exists seq. split_and!; [apply Hst; by right|by destruct Hid as [-> | ->]|].
  intros q c' [Hs|[-> _]]%Hst [Ht _]; [|done]. specialize (Hlt q c' Hs Ht). lia.
Qed.

#[export] Instance driver_is_lawful : LawfulCheckpointer driver_ops.
Proof.
  split; cbn [driver_ops ck_put ck_get_scoped ck_get_writes ck_put_writes].
  - intros s c s' id H%kept_op_eq. by apply put_effect in H as (_ & _ & ? & _); [|apply (proj2_sig s)].
  - intros s c s' id H%kept_op_eq. eapply put_newest; [apply (proj2_sig s)|exact H|by left].
  - intros s c s' id H%kept_op_eq. eapply put_newest; [apply (proj2_sig s)|exact H|by right].
  - intros s c s' id t i namespace H%kept_op_eq Hne.
    apply get_scoped_same; [apply (proj2_sig s)|apply (proj2_sig s')|]. intros q c' Ht.
    apply put_effect in H as (_ & _ & _ & seq & Hst & _); [|apply (proj2_sig s)]. rewrite Hst. naive_solver.
  - intros s c s' id cfg H%kept_op_eq [i Hi]. apply put_effect in H as (_ & Hw & _); [|apply (proj2_sig s)].
    rewrite !(get_writes_at _ _ _ Hi). by rewrite Hw.
  - intros s cfg ws s' old Hid Hold H%kept_op_eq. apply put_writes_effect in H as (_ & _ & Hm); [|apply (proj2_sig s)]. by apply Hm.
  - intros s cfg ws s' t i namespace H%kept_op_eq. apply get_scoped_same; [apply (proj2_sig s)|apply (proj2_sig s')|].
    intros q c' _. apply put_writes_effect in H as (_ & Hc & _); [|apply (proj2_sig s)]. by apply stored_contents.
Qed.
End DriverFacts.
