(* ===== verification/DriverTheorems.v ===== *)
(** * Correctness of the checkpointer over a document store

    The history read in two queries is the one the trait's default walk reads,
    an import keeps what a live run wrote and can be repeated, and the in-memory
    backend simulates the driver: the relation [sim] says the two hold the same
    threads and ledgers.  The witnesses run over the document store of
    [StorageTheorems], with queries. *)

From stdpp Require Import sorting.
From S2P Require Import Prelude Json GraphTypes Checkpoint StorageKey Repo StorageTheorems DriverCheckpoint.

Section DriverTheorems.
Context {D : Type} `{!DocumentStore D} `{!LawfulDocs D} `{!DocQueries D} `{!LawfulQueries D} {State : Type}.
Context (wire : CheckpointWire State) `{!LawfulWire wire} (key_of_ : list string → result StorageError string) (ns : string).
Implicit Types (s : D) (c : Checkpoint State).

#[local] Hint Extern 0 (Codec WritesBody) => exact (WritesBody_codec wire) : typeclass_instances.

#[local] Notation record_body := (record_body key_of_ ns).
#[local] Notation layout_ok := (layout_ok wire key_of_ ns).
#[local] Notation stored := (stored wire key_of_ ns).
#[local] Notation selected := (selected key_of_).
#[local] Notation newest_of := (newest_of wire key_of_ ns).
#[local] Notation Kept := (Kept wire key_of_ ns).
#[local] Notation driver_ops := (driver_ops wire key_of_ ns).

(** ** History in two reads *)

Definition before (a b : N * Checkpoint State) : Prop := (a.1 ≤ b.1)%N.
#[local] Instance before_trans : Transitive before.
Proof. unfold before. intros x y z. lia. Qed.

(** A record with the place it is stored at. *)
Definition placed (d : Versioned value) (r : N * Checkpoint State) : Prop :=
  ∃ v, cw_encode wire r.2 = Ok v ∧ ver_doc d = encode (record_body r.2 r.1 v).

Lemma placed_decode ds rs : Forall2 placed ds rs → decode_all wire ds = Ok rs.*2.
Proof.
  induction 1 as [|d [q c] ds rs (v & Hv & Hd) _ IH]; [done|]. cbn. by rewrite (body_decodes wire key_of_ ns d c q v), IH.
Qed.
Lemma placed_sorted ds rs :
  Forall2 placed ds rs → Sorted (λ a b, sort_key "seq" a ≤ sort_key "seq" b)%Z ds → Sorted before rs.
Proof.
  assert (Hkey : ∀ d r, placed d r → sort_key "seq" d = Z.of_N r.1).
  { intros d [q c] (v & Hv & Hd). cbn [fst snd] in *. unfold sort_key. rewrite Hd. by destruct (body_fields key_of_ ns c q v) as (_ & -> & _). }
  induction 1 as [|d r ds rs Hp Hps IH]; [done|]. intros [Hs Hh]%Sorted_inv. constructor; [by apply IH|].
  destruct Hps as [|d' r' ds rs Hp' _]; constructor. unfold before. apply HdRel_inv in Hh. rewrite (Hkey _ _ Hp), (Hkey _ _ Hp') in Hh. lia.
Qed.
(** The records a query in ascending order reads. *)
Definition records_of s (P : Checkpoint State → Prop) (rs : list (N * Checkpoint State)) : Prop :=
  Sorted before rs ∧ NoDup rs ∧ ∀ q c, (q, c) ∈ rs ↔ stored s q c ∧ P c.

Lemma selected_records s f P :
  layout_ok s → selects key_of_ ns f P → ∃ ds rs,
    doc_query_all CHECKPOINTS f (Some "seq") s = Ok ds ∧ Forall2 placed ds rs ∧ records_of s P rs.
Proof.
  intros Hl Hf. destruct (query_all_ok CHECKPOINTS f (Some "seq") s) as (ds & Hq & Hp & Hs).
  assert (Hin : ∀ d, d ∈ ds ↔ ∃ i, matching f (contents CHECKPOINTS s) !! i = Some d).
  { intros d. rewrite Hp, list_elem_of_fmap. split.
    - intros ([i d'] & -> & Hi%elem_of_map_to_list). by exists i.
    - intros [i Hi]. exists (i, d). split; [done|]. by apply elem_of_map_to_list. }
  assert (Hkeyed : ∀ d q c v, d ∈ ds → cw_encode wire c = Ok v → ver_doc d = encode (record_body c q v) →
    contents CHECKPOINTS s !! checkpoint_id_key key_of_ ns (cp_thread_id c) q = Some d ∧ P c).
  { intros d q c v [i Hi]%Hin Hv He.
    apply (matching_stored wire key_of_ ns s f P) in Hi as (c' & q' & v' & Hc & -> & Hv' & He' & Hsel); [|done..].
    by destruct (encode_body_inj wire key_of_ ns d c c' q q' v v' Hv Hv' He He') as [<- <-]. }
  assert (Hnd : NoDup ds).
  { rewrite Hp. apply NoDup_fmap_2_strong; [|apply NoDup_map_to_list].
    intros [i d] [j d'] Hi%elem_of_map_to_list Hj%elem_of_map_to_list ?. cbn in *. subst d'. f_equal.
    apply (matching_stored wire key_of_ ns s f P) in Hi as (c & q & v & _ & -> & Hv & He & _); [|done..].
    apply (matching_stored wire key_of_ ns s f P) in Hj as (c' & q' & v' & _ & -> & Hv' & He' & _); [|done..].
    by destruct (encode_body_inj wire key_of_ ns d c c' q q' v v' Hv Hv' He He') as [<- <-]. }
  assert (Hall : ∀ l, (∀ d, d ∈ l → d ∈ ds) → ∃ rs, Forall2 placed l rs).
  { induction l as [|d l IH]; intros Hd; [by exists []|]. destruct IH as [rs Hrs]; [intros; apply Hd; by right|].
    destruct (proj1 (Hin d) (Hd d ltac:(by left))) as [i Hi].
    apply (matching_stored wire key_of_ ns s f P) in Hi as (c & q & v & _ & _ & Hv & He & _); [|done..].
    exists ((q, c) :: rs). constructor; [by exists v|done]. }
  destruct (Hall ds ltac:(done)) as [rs Hrs]. exists ds, rs. split_and!; [done|done|].
  assert (Hat : ∀ k q c, rs !! k = Some (q, c) → ∃ d v, ds !! k = Some d ∧ cw_encode wire c = Ok v ∧
    ver_doc d = encode (record_body c q v) ∧ contents CHECKPOINTS s !! checkpoint_id_key key_of_ ns (cp_thread_id c) q = Some d ∧ P c).
  { intros k q c Hk. destruct (Forall2_lookup_r _ _ _ _ _ Hrs Hk) as (d & Hd & v & Hv & He). exists d, v. split_and!; try done;
      eapply (Hkeyed d q c v); try done; by eapply list_elem_of_lookup_2. }
  split; [by eapply placed_sorted|]. split.
  { apply NoDup_alt. intros i j [q c] (d & v & Hd & _ & _ & Hk & _)%Hat (d' & v' & Hd' & _ & _ & Hk' & _)%Hat.
    rewrite Hk in Hk'. injection Hk' as <-. by eapply NoDup_lookup. }
  intros q c. split.
  - intros (k & (d & v & _ & Hv & He & Hc & Hsel)%Hat)%list_elem_of_lookup. split; [by exists d, v|done].
  - intros [(d & v & Hd & Hv & He) Hsel].
    assert (Hm : d ∈ ds) by (apply Hin; eexists; apply (matching_stored wire key_of_ ns s f P); [done..|]; by eauto 10).
    apply list_elem_of_lookup in Hm as [k Hk]. destruct (Forall2_lookup_l _ _ _ _ _ Hrs Hk) as ([q' c'] & Hr & v' & Hv' & He').
    destruct (encode_body_inj wire key_of_ ns d c c' q q' v v' Hv Hv' He He') as [-> ->]. by eapply list_elem_of_lookup_2.
Qed.

Lemma index_records_rfind (cs : list (Checkpoint State)) id :
  index_records cs !! id = rfind (λ c, bool_decide (cp_checkpoint_id c = id)) cs.
Proof.
  unfold index_records. induction cs as [|c cs IH] using rev_ind; [done|]. rewrite foldl_snoc, rfind_snoc, lookup_insert.
  destruct (decide (cp_checkpoint_id c = id)) as [->|Hne]; [by rewrite bool_decide_eq_true_2|].
  by rewrite bool_decide_eq_false_2.
Qed.

(** The last record that passes is the newest. *)
Lemma rfind_newest s (P Q : Checkpoint State → Prop) (p : Checkpoint State → bool) rs :
  records_of s P rs → (∀ c, Q c ↔ P c ∧ p c = true) → newest_of s Q (rfind p rs.*2).
Proof.
  intros (Hs & _ & Hin) Hp. rewrite rfind_fmap.
  assert (Hsel : ∀ q c, stored s q c → Q c → (q, c) ∈ rs ∧ p c = true) by (intros q c ? [? ?]%Hp; by rewrite Hin).
  destruct (rfind _ rs) as [[q c]|] eqn:Hr; cbn.
  - pose proof (rfind_Some _ _ _ Hr) as [Hel Hpc]. apply Hin in Hel as [Hst Hn]. exists q. split_and!; [done|by apply Hp|].
    intros q' c' Hst' Hsel'. destruct (Hsel q' c' Hst' Hsel') as [Hel' Hp']. clear -Hs Hr Hel' Hp'.
    apply (Sorted_StronglySorted before) in Hs.
    induction rs as [|[q1 c1] rs IH] using rev_ind; [by apply not_elem_of_nil in Hel'|].
    rewrite rfind_snoc in Hr. cbn [fst snd] in Hr.
    destruct (p c1) eqn:E.
    + simplify_eq. apply elem_of_app in Hel' as [Hel'|Hel'%list_elem_of_singleton]; [|by simplify_eq].
      apply (StronglySorted_app_1_elem_of _ _ _ _ (q, c) Hs Hel'). by left.
    + apply elem_of_app in Hel' as [Hel'|Hel'%list_elem_of_singleton]; [|simplify_eq; congruence].
      apply StronglySorted_app_1_l in Hs. by apply IH.
  - intros q c Hst Hs'. destruct (Hsel q c Hst Hs') as [Hel Hpc]. pose proof (proj1 (rfind_None _ _) Hr _ Hel) as Hf. cbn in Hf. congruence.
Qed.
Lemma last_newest s P rs : records_of s P rs → newest_of s P (last rs.*2).
Proof.
  intros Hr. replace (last rs.*2) with (rfind (λ _, true) rs.*2); [by apply (rfind_newest s P); [|tauto]|].
  clear. induction (rs.*2) as [|c l IH] using rev_ind; [done|]. by rewrite rfind_snoc, last_snoc.
Qed.

(** Both ways of finding a record agree. *)
Lemma scoped_index s thread namespace rs :
  layout_ok s → records_of s (selected thread None (subgraph_key key_of_ namespace)) rs →
  (∀ id, drv_get_scoped wire key_of_ ns s thread (Some id) namespace = Ok (index_records rs.*2 !! id)) ∧
  drv_get_scoped wire key_of_ ns s thread None namespace = Ok (last rs.*2).
Proof.
  intros Hl Hr. split.
  - intros id. destruct (get_scoped_newest wire key_of_ ns s thread (Some id) namespace Hl) as (o & -> & Ho). f_equal.
    eapply (newest_of_unique wire key_of_ ns); [apply selected_thread|exact Ho|]. rewrite index_records_rfind.
    eapply rfind_newest; [exact Hr|]. intros c. rewrite bool_decide_eq_true. unfold DriverCheckpoint.selected. naive_solver.
  - destruct (get_scoped_newest wire key_of_ ns s thread None namespace Hl) as (o & -> & Ho). f_equal.
    eapply (newest_of_unique wire key_of_ ns); [apply selected_thread|exact Ho|]. by apply last_newest.
Qed.

Lemma writes_fields (b : WritesBody) :
  get "ns" (encode b) = Some (Str (wb_ns b)) ∧ get "thread" (encode b) = Some (Str (wb_thread b)) ∧
  get "subgraph" (encode b) = Some (Str (wb_subgraph b)) ∧
  get "checkpoint_id" (encode b) = Some (Str (wb_checkpoint_id b)) ∧
  get "writes" (encode b) = Some (cw_encode_writes wire (wb_writes b)).
Proof. unfold encode, WritesBody_codec. by destruct (decide (wb_imported b = [])). Qed.

Lemma writes_encode_inj (b b' : WritesBody) : encode b = encode b' → b = b'.
Proof. intros H. apply (f_equal (λ v, decode_body v : option WritesBody)) in H. rewrite !(writes_body_roundtrip wire) in H. congruence. Qed.

Lemma writes_by_id_spec (ds : list (Versioned value)) m :
  (∀ d, d ∈ ds → ∃ b : WritesBody, ver_doc d = encode b) →
  ∃ m', writes_by_id wire ds m = Ok m' ∧ ∀ id,
    (∃ d (b : WritesBody), d ∈ ds ∧ ver_doc d = encode b ∧ wb_checkpoint_id b = id ∧ m' !! id = Some (wb_writes b)) ∨
    (m' !! id = m !! id ∧ ∀ d (b : WritesBody), d ∈ ds → ver_doc d = encode b → wb_checkpoint_id b ≠ id).
Proof.
  revert m. induction ds as [|d ds IH]; intros m Hall.
  { exists m. split; [done|]. intros id. right. split; [done|]. intros d b Hd. by apply not_elem_of_nil in Hd. }
  destruct (Hall d) as [b Hb]; [by left|]. cbn [writes_by_id]. rewrite Hb.
  destruct (writes_fields b) as (_ & _ & _ & -> & ->). cbn. rewrite (wire_writes (wire := wire)).
  destruct (IH (<[wb_checkpoint_id b := wb_writes b]> m)) as (m' & -> & Hm'); [intros; apply Hall; by right|].
  exists m'. split; [done|]. intros id. destruct (Hm' id) as [(d' & b' & Hd' & ?)|[Hid Hno]].
  { left. exists d', b'. split; [by right|done]. }
  destruct (decide (wb_checkpoint_id b = id)) as [Hbi|Hbi].
  - left. exists d, b. split_and!; [by left|done..|]. by rewrite Hid, Hbi, lookup_insert_eq.
  - right. rewrite Hid, lookup_insert_ne by done. split; [done|]. intros d' b' [->|Hd']%elem_of_cons Hb'; [|by eapply Hno].
    rewrite Hb in Hb'. by apply writes_encode_inj in Hb' as <-.
Qed.

(** Keys name their parts; see [key_of_lawful]. *)
Record lawful_keys : Prop := {
  keys_injective p q : p ≠ [] → q ≠ [] → layout_key key_of_ p = layout_key key_of_ q → p = q;
  subgraph_nonempty parts : layout_key key_of_ ("n" :: parts) ≠ ""
}.

Lemma writes_match (b : WritesBody) thread namespace :
  filter_matches (scoped_filter key_of_ ns thread namespace) (encode b) = true ↔
  wb_ns b = ns ∧ wb_thread b = thread ∧ wb_subgraph b = subgraph_key key_of_ namespace.
Proof.
  unfold scoped_filter, thread_filter. destruct (writes_fields b) as (Hn & Ht & Hs & _).
  rewrite !app_filter_matches, !andb_true_iff, !eq_filter_matches, Hn, Ht, Hs. split.
  - by intros (([= ->] & [= ->]) & [= ->]).
  - by intros (-> & -> & ->).
Qed.

(** One read of the ledgers answers what a read of each would. *)
Lemma scoped_writes s thread namespace :
  layout_ok s → lawful_keys → ∃ ds m,
    doc_query_all WRITES (scoped_filter key_of_ ns thread namespace) None s = Ok ds ∧ writes_by_id wire ds ∅ = Ok m ∧
    ∀ id namespace', subgraph_key key_of_ namespace' = subgraph_key key_of_ namespace →
      drv_get_writes wire key_of_ ns s (mkConfig thread (Some id) namespace') = Ok (default [] (m !! id)).
Proof.
  intros Hl Hinj. destruct (query_all_ok WRITES (scoped_filter key_of_ ns thread namespace) None s) as (ds & Hq & Hp & _).
  assert (Hin : ∀ d, d ∈ ds ↔ ∃ b : WritesBody, ver_doc d = encode b ∧ wb_ns b = ns ∧ wb_thread b = thread ∧
    wb_subgraph b = subgraph_key key_of_ namespace ∧
    contents WRITES s !! writes_id_key key_of_ ns thread (subgraph_key key_of_ namespace) (wb_checkpoint_id b) = Some d).
  { intros d. rewrite Hp, list_elem_of_fmap. unfold matching. split.
    - intros ([i d'] & -> & [Hi Hm]%elem_of_map_to_list%map_lookup_filter_Some). cbn [fst snd] in *.
      destruct (lo_writes wire key_of_ ns s Hl i d' Hi) as (b & Hb & ->). rewrite Hb in Hm. apply writes_match in Hm as (Hn & Ht & Hs).
      exists b. rewrite Hn, Ht, Hs in Hi. by split_and!.
    - intros (b & Hb & Hn & Ht & Hs & Hi). eexists (_, d). split; [done|]. apply elem_of_map_to_list, map_lookup_filter_Some.
      split; [exact Hi|]. cbn [snd]. rewrite Hb. by apply writes_match. }
  destruct (writes_by_id_spec ds ∅) as (m & Hm & Hspec); [intros d (b & ? & _)%Hin; by exists b|].
  exists ds, m. split_and!; [done..|]. intros id namespace' Hns. rewrite (get_writes_at wire key_of_ ns _ _ id) by done. cbn [cfg_thread_id cfg_namespace].
  rewrite Hns. destruct (Hspec id) as [(d & b & Hd & Hb & Hid & ->)|[Hnone Hno]].
  - apply Hin in Hd as (b' & Hb' & _ & _ & _ & Hi). rewrite Hb in Hb'. apply writes_encode_inj in Hb' as <-.
    by rewrite <- Hid, Hi, Hb, (writes_body_roundtrip wire).
  - rewrite Hnone, lookup_empty. destruct (contents WRITES s !! _) as [d|] eqn:Hi; [|done].
    destruct (lo_writes wire key_of_ ns s Hl _ d Hi) as (b & Hb & Hk). apply (keys_injective Hinj) in Hk; [|done..]. injection Hk as Hn Ht Hs Hid.
    destruct (Hno d b); [|done|done]. apply Hin. exists b. rewrite <- Hid. by split_and!.
Qed.
Section Walk.
Context (k : Kept) (thread : string) (namespace : list string) (limit : option nat).
Context (by_id : gmap string (Checkpoint State)) (writes : gmap string (list PendingWrite)).
Hypothesis Hget : ∀ id, drv_get_scoped wire key_of_ ns (`k) thread (Some id) namespace = Ok (by_id !! id).
Hypothesis Hwrites : ∀ id namespace', subgraph_key key_of_ namespace' = subgraph_key key_of_ namespace →
  drv_get_writes wire key_of_ ns (`k) (mkConfig thread (Some id) namespace') = Ok (default [] (writes !! id)).
Hypothesis Hsel : ∀ id c, by_id !! id = Some c → selected thread (Some id) (subgraph_key key_of_ namespace) c.

Lemma driver_tuple id :
  get_tuple driver_ops k (mkConfig thread (Some id) namespace) =
  Ok ((λ c, tuple_of c (writes !! id)) <$> by_id !! id).
Proof.
  unfold get_tuple, resolved_writes. cbn [driver_ops ck_get_scoped ck_get_writes cfg_thread_id cfg_checkpoint_id cfg_namespace].
  rewrite Hget. cbn [rbind]. destruct (by_id !! id) as [c|] eqn:Hc; [|done].
  destruct (Hsel id c Hc) as (Ht & Hs & Hi). rewrite Ht, Hwrites by done. cbn. unfold tuple_of. rewrite Ht, Hi.
  by destruct (writes !! id) as [[]|].
Qed.

Lemma driver_walk fuel : ∀ fuel' id visited by_id' writes' out,
  size by_id' < fuel → size by_id' < fuel' →
  (∀ i, by_id' !! i = if decide (i ∈ visited) then None else by_id !! i) →
  (∀ i, i ∉ visited → writes' !! i = writes !! i) →
  history_walk driver_ops fuel k thread namespace limit (Some id) visited out =
  Some (Ok (walk_records fuel' by_id' writes' limit (Some id) out)).
Proof.
  induction fuel as [|fuel IH]; intros fuel' id visited by_id' writes' out Hf Hf' Hb Hw; [lia|].
  destruct fuel' as [|fuel']; [lia|]. cbn [history_walk walk_records]. destruct (match limit with Some _ => _ | None => _ end); [done|].
  rewrite driver_tuple, Hb. destruct (by_id !! id) as [c|] eqn:Hc; cbn; [|by case_decide].
  destruct (Hsel id c Hc) as (_ & _ & Hi). rewrite Hi. destruct (decide (id ∈ visited)) as [Hv|Hv]; [done|].
  rewrite ?Hi, Hw by done. destruct (cp_parent_checkpoint_id c) as [parent|]; [|by destruct fuel'].
  assert (Hs : Datatypes.S (size (delete id by_id')) = size by_id').
  { rewrite map_size_delete, Hb, decide_False, Hc by done. cbn.
    assert (size by_id' ≠ 0); [|lia]. eapply (map_size_ne_0_lookup_2 _ id). by rewrite Hb, decide_False, Hc. }
  apply IH; [lia..| |].
  - intros i. destruct (decide (i = id)) as [->|Hne]; [by rewrite lookup_delete_eq, decide_True by set_solver|].
    rewrite lookup_delete_ne, Hb by done. by repeat case_decide; set_solver.
  - intros i Hi'. rewrite lookup_delete_ne by set_solver. apply Hw. set_solver.
Qed.
End Walk.

(** C37: The history the driver reads in two queries is the history the trait's
    default walk reads checkpoint by checkpoint, for every limit: the walk
    ends, and with the fuel given it returns that list. *)
Theorem driver_history_is_default (k : Kept) thread namespace limit :
  lawful_keys → ∃ enough, ∀ fuel, enough ≤ fuel →
  state_history driver_ops fuel k thread namespace limit = Some (drv_state_history wire key_of_ ns (`k) thread namespace limit).
Proof.
  intros Hinj. destruct (selected_records (`k) _ _ (proj2_sig k) (scoped_selects key_of_ ns thread None namespace)) as (ds & rs & Hq & Hp & Hr).
  cbn [with_id] in Hq.
  destruct (scoped_writes (`k) thread namespace (proj2_sig k) Hinj) as (ws & m & Hqw & Hm & Hget).
  destruct (scoped_index (`k) thread namespace rs (proj2_sig k) Hr) as [Hid Hlast].
  exists (Datatypes.S (size (index_records rs.*2))). intros fuel Hf.
  unfold drv_state_history, state_history. rewrite Hq, Hqw. cbn [mapped rbind]. rewrite Hm, (placed_decode _ _ Hp). cbn [rbind].
  assert (Hsel : ∀ id c, index_records rs.*2 !! id = Some c → selected thread (Some id) (subgraph_key key_of_ namespace) c).
  { intros id c. rewrite index_records_rfind. intros [Hc Hb%bool_decide_eq_true]%rfind_Some.
    apply list_elem_of_fmap in Hc as ([q c'] & -> & [_ (? & ? & _)]%Hr). by split_and!. }
  assert (Hempty : match ds with [] => last rs.*2 = None | _ => is_Some (last rs.*2) end).
  { destruct Hp as [|d r ds rs' _ _]; [done|]. rewrite fmap_cons, last_cons. case_match; by eexists. }
  destruct fuel as [|fuel]; [lia|]. destruct (last rs.*2) as [c|] eqn:El.
  2:{ destruct ds; [|by destruct Hempty]. cbn [history_walk]. unfold get_tuple.
      cbn [driver_ops ck_get_scoped cfg_thread_id cfg_checkpoint_id cfg_namespace]. rewrite Hlast. cbn. by case_match. }
  destruct ds; [done|].
  assert (Hc : index_records rs.*2 !! cp_checkpoint_id c = Some c).
  { rewrite index_records_rfind. destruct (rs.*2) as [|c0 l] using rev_ind; [done|]. rewrite last_snoc in El. injection El as ->.
    by rewrite rfind_snoc, bool_decide_eq_true_2. }
  cbn [rbind]. change (cp_checkpoint_id <$> Some c) with (Some (cp_checkpoint_id c)).
  rewrite <- (driver_walk k thread namespace limit _ m Hid Hget Hsel (Datatypes.S fuel) _ _ ∅); [|lia..|done|done].
  cbn [history_walk]. unfold get_tuple.
  cbn [driver_ops ck_get_scoped cfg_thread_id cfg_checkpoint_id cfg_namespace]. by rewrite Hlast, Hid, Hc.
Qed.
(** ** Importing into a ledger *)

(** The ledger of a checkpoint as the store holds it. *)
Definition ledger_body s (config : CheckpointConfig) (id : string) : WritesBody :=
  let subgraph := subgraph_key key_of_ (cfg_namespace config) in
  default (fresh_writes ns config subgraph id)
    (contents WRITES s !! writes_id_key key_of_ ns (cfg_thread_id config) subgraph id >>? λ d, decode_body (ver_doc d)).

Lemma found_ledger s config id (current : option WritesBody) :
  let subgraph := subgraph_key key_of_ (cfg_namespace config) in
  found_as WRITES (writes_id_key key_of_ ns (cfg_thread_id config) subgraph id) s current →
  default (fresh_writes ns config subgraph id) current = ledger_body s config id.
Proof.
  intros subgraph. unfold found_as, ledger_body. fold subgraph. destruct (contents WRITES s !! _) as [d|]; [|by intros ->].
  cbn [and_then]. by intros [-> _].
Qed.

Lemma ledger_writes s config id :
  layout_ok s → cfg_checkpoint_id config = Some id →
  drv_get_writes wire key_of_ ns s config = Ok (wb_writes (ledger_body s config id)).
Proof.
  intros Hl Hid. rewrite (get_writes_at wire key_of_ ns _ _ id Hid). unfold ledger_body.
  destruct (contents WRITES s !! _) as [d|] eqn:Hd; [|done]. destruct (lo_writes wire key_of_ ns s Hl _ d Hd) as (b & Hb & _).
  cbn [and_then]. rewrite Hb. by rewrite (writes_body_roundtrip wire).
Qed.

(** The fold of a successful import, from the ledger it found to the one it left. *)
Lemma import_ledger s config id incoming s' written existing :
  layout_ok s → cfg_checkpoint_id config = Some id →
  import_writes_if_absent wire key_of_ ns s config incoming = (s', Ok (written, existing)) →
  layout_ok s' ∧
  foldl import_one (ledger_body s config id, 0, 0) (group_incoming incoming) = (ledger_body s' config id, written, existing).
Proof.
  intros Hl Hid Hi. split; [by eapply import_layout|]. destruct incoming as [|w ws].
  { unfold import_writes_if_absent, require_checkpoint_id in Hi. rewrite Hid in Hi. injection Hi as <- <- <-. done. }
  apply (import_effect wire key_of_ ns _ _ _ _ _ _ Hid) in Hi; [|done].
  destruct Hi as [(e & _ & [=])|(current & b & w0 & e0 & Hf & Hfold & [= <- <-] & Hs)].
  rewrite (found_ledger _ _ _ _ Hf) in Hfold. rewrite Hfold. f_equal. f_equal.
  destruct (decide (0 < written)) as [Hw|Hw].
  - destruct Hs as (d & Hd & Hc & _). unfold ledger_body. rewrite Hc, lookup_insert_eq. cbn [and_then].
    rewrite Hd. by rewrite (writes_body_roundtrip wire).
  - subst s'. apply import_fold_effect in Hfold as (_ & _ & Hsame & _); [|apply group_incoming_spec]. apply Hsame. lia.
Qed.

(** An import accounts for every record it is given, holds a write under
    every identity given, and leaves what a live run wrote: a write held under
    an identity the importer did not supply is read back unchanged. *)
Theorem import_keeps_live s config id incoming s' written existing :
  layout_ok s → cfg_checkpoint_id config = Some id →
  import_writes_if_absent wire key_of_ ns s config incoming = (s', Ok (written, existing)) →
  ∃ old new, drv_get_writes wire key_of_ ns s config = Ok old ∧ drv_get_writes wire key_of_ ns s' config = Ok new ∧
    written + existing = length incoming ∧
    (∀ w, w ∈ incoming → is_Some (ledger_find (write_identity w) new)) ∧
    (∀ k w, ledger_find k old = Some w → k ∉ wb_imported (ledger_body s config id) → ledger_find k new = Some w).
Proof.
  intros Hl Hid Hi. destruct (import_ledger _ _ _ _ _ _ _ Hl Hid Hi) as [Hl' Hfold].
  rewrite (ledger_writes s _ _ Hl Hid), (ledger_writes s' _ _ Hl' Hid). eexists _, _. split_and!; [done..| | |].
  all: destruct (group_incoming_spec incoming) as (Hg & Ht & Hin);
    apply import_fold_effect in Hfold as (Hsum & _ & _ & Hkeep & Hset & _); [|done].
  - lia.
  - intros w Hw. apply Hin in Hw. unfold group_ids in Hw. apply list_elem_of_fmap in Hw as (wc & -> & Hwc).
    destruct (Hset wc Hwc) as (h & -> & _). by eexists.
  - intros k w Hk Hm. by apply (Hkeep k w Hk Hm).
Qed.

(** Importing the same records again changes nothing and counts every one
    as held. *)
Theorem import_idempotent s config id incoming s' written existing :
  layout_ok s → cfg_checkpoint_id config = Some id →
  import_writes_if_absent wire key_of_ ns s config incoming = (s', Ok (written, existing)) →
  import_writes_if_absent wire key_of_ ns s' config incoming = (s', Ok (0, length incoming)).
Proof.
  intros Hl Hid Hi. destruct (import_ledger _ _ _ _ _ _ _ Hl Hid Hi) as [Hl' Hfold].
  destruct (group_incoming_spec incoming) as (Hg & Ht & _). apply import_fold_effect in Hfold as (_ & _ & _ & _ & Hset & _); [|done].
  pose proof (settled_import _ _ 0 0 Hset) as Hagain. rewrite Ht in Hagain. cbn [Nat.add] in Hagain.
  unfold import_writes_if_absent, require_checkpoint_id. rewrite Hid. cbn [ok_or]. destruct incoming as [|w ws]; [done|].
  set (k := writes_id_key _ _ _ _ _).
  assert (Hread : ∃ p (current : option WritesBody), read_current WRITES k s' = Ok (p, current) ∧ found_as WRITES k s' current).
  { unfold read_current, repo_get. rewrite contents_get. cbn [rbind]. destruct (contents WRITES s' !! k) as [d|] eqn:Hd.
    - destruct (lo_writes wire key_of_ ns s' Hl' k d Hd) as (b & Hb & _). cbn [decode_opt]. unfold decode. rewrite Hb.
      rewrite (writes_body_roundtrip wire). cbn [rbind]. eexists _, _. split; [done|]. unfold found_as. rewrite Hd, Hb. split; [|by eexists].
      by rewrite (writes_body_roundtrip wire).
    - cbn. eexists _, _. split; [done|]. unfold found_as. by rewrite Hd. }
  destruct Hread as (p & current & Hread & Hf). apply found_ledger in Hf.
  unfold repo_update. change (budget RetryPolicy_default) with (Datatypes.S (pred (budget RetryPolicy_default))). cbn [update_loop].
  change (alone 0 s') with s'. rewrite Hread. rewrite Hf, Hagain. by rewrite decide_False by lia.
Qed.
(** ** The in-memory backend simulates the driver *)

Lemma thread_selects thread : selects key_of_ ns (thread_filter ns thread) (λ c, cp_thread_id c = thread).
Proof.
  split; [intros doc; apply ns_filtered|]. intros c q v. unfold thread_filter. destruct (body_fields key_of_ ns c q v) as (Hn & _ & _ & Ht & _).
  rewrite app_filter_matches, andb_true_iff, !eq_filter_matches, Hn, Ht. naive_solver.
Qed.
Lemma one_of_matches field vs doc v : get field doc = Some (Str v) → filter_matches (filter_one_of field vs) doc = true ↔ v ∈ vs.
Proof. intros Hg. unfold filter_matches, filter_one_of, field_in. cbn. rewrite Hg, andb_true_r. apply bool_decide_eq_true. Qed.
Lemma ids_selects thread ids :
  selects key_of_ ns (thread_filter ns thread ++ filter_one_of "checkpoint_id" ids)
    (λ c, cp_thread_id c = thread ∧ cp_checkpoint_id c ∈ ids).
Proof.
  destruct (thread_selects thread) as [Hn Hf]. split.
  - intros doc. rewrite app_filter_matches, andb_true_iff. intros [? _]. by apply Hn.
  - intros c q v. destruct (body_fields key_of_ ns c q v) as (_ & _ & _ & _ & _ & Hi).
    by rewrite app_filter_matches, andb_true_iff, Hf, (one_of_matches _ _ _ _ Hi).
Qed.
Lemma get_selects thread id :
  selects key_of_ ns (with_id id (thread_filter ns thread))
    (λ c, cp_thread_id c = thread ∧ match id with Some i => cp_checkpoint_id c = i | None => True end).
Proof.
  destruct (thread_selects thread) as [Hn Hf]. destruct id as [i|]; cbn [with_id].
  - destruct (ids_selects thread [i]) as [Hn' Hf']. split; [exact Hn'|]. intros c q v.
    change (filter_eq "checkpoint_id" i) with (filter_one_of "checkpoint_id" [i]). by rewrite Hf', list_elem_of_singleton.
  - split; [done|]. intros c q v. rewrite Hf. tauto.
Qed.

Lemma records_unique thread s s' (P P' : Checkpoint State → Prop) rs rs' :
  (∀ c, P c → cp_thread_id c = thread) → (∀ q c, stored s q c ∧ P c ↔ stored s' q c ∧ P' c) →
  records_of s P rs → records_of s' P' rs' → rs = rs'.
Proof.
  intros Ht Hiff (Hs & Hn & Hin) (Hs' & Hn' & Hin').
  assert (Hsame : ∀ x, x ∈ rs ↔ x ∈ rs') by (intros [q c]; by rewrite Hin, Hin').
  apply (Sorted_unique_strong before); [|done..|by apply NoDup_Permutation].
  unfold before. intros [q c] [q' c'] Hx Hy%Hsame Hle Hge. cbn in *. apply Hin in Hx as [Hx Hp], Hy as [Hy Hp'].
  assert (q = q') as -> by lia. f_equal. eapply (stored_unique wire key_of_ ns); [done..|]. by rewrite (Ht c), (Ht c').
Qed.

Notation of_thread thread := (λ c, cp_thread_id c = thread).

Lemma thread_records s thread :
  layout_ok s → ∃ rs, drv_get_thread wire ns s thread = Ok rs.*2 ∧ records_of s (of_thread thread) rs.
Proof.
  intros Hl. destruct (selected_records s _ _ Hl (thread_selects thread)) as (ds & rs & Hq & Hp & Hr).
  exists rs. split; [|done]. unfold drv_get_thread, thread_docs. rewrite Hq. cbn [mapped rbind]. by apply placed_decode.
Qed.
Lemma thread_records_eq s thread rs :
  layout_ok s → records_of s (of_thread thread) rs → drv_get_thread wire ns s thread = Ok rs.*2.
Proof.
  intros Hl Hr. destruct (thread_records s thread Hl) as (rs' & -> & Hr'). do 2 f_equal.
  by eapply (records_unique thread s s (of_thread thread) (of_thread thread)).
Qed.

(** A thread after a [put]. *)
Lemma put_thread s c s' id thread l :
  layout_ok s → drv_put wire key_of_ ns s c = (s', Ok id) → drv_get_thread wire ns s thread = Ok l →
  drv_get_thread wire ns s' thread = Ok (l ++ if decide (thread = cp_thread_id c) then [c] else []).
Proof.
  intros Hl Hp. apply put_effect in Hp as (Hl' & _ & _ & seq & Hst & Hlt); [|done..].
  destruct (thread_records s thread Hl) as (rs & -> & Hs & Hn & Hin). intros [= <-].
  set (more := if decide (thread = cp_thread_id c) then [(seq, c)] else []).
  assert (Hmore : ∀ q c', (q, c') ∈ more → q = seq ∧ c' = c ∧ cp_thread_id c = thread).
  { intros q c'. unfold more. case_decide as Hd; [intros ?%list_elem_of_singleton; by simplify_eq|by intros ?%not_elem_of_nil]. }
  assert (Hbelow : ∀ x y, x ∈ rs → y ∈ more → (x.1 < y.1)%N).
  { intros [q c1] [q' c2] [Hx Ht]%Hin (-> & -> & Hc)%Hmore. cbn. apply (Hlt q c1 Hx). congruence. }
  rewrite (thread_records_eq s' thread (rs ++ more) Hl').
  { rewrite fmap_app. unfold more. by case_decide. }
  split_and!.
  - apply StronglySorted_Sorted, StronglySorted_app. apply (Sorted_StronglySorted before) in Hs.
    split_and!; [|done|unfold more; case_decide; repeat constructor]. intros x y Hx Hy. specialize (Hbelow x y Hx Hy). unfold before. lia.
  - apply NoDup_app. split_and!; [done| |unfold more; case_decide; [apply NoDup_singleton|constructor]].
    intros x Hx Hy. specialize (Hbelow x x Hx Hy). lia.
  - intros q c'. rewrite elem_of_app, Hst, Hin. split.
    + intros [[? ?]|(-> & -> & ?)%Hmore]; tauto.
    + intros [[?|[-> ->]] Ht]; [tauto|]. right. unfold more. rewrite decide_True by done. by left.
Qed.

(** A thread after a deletion. *)
Lemma delete_stored s f P s' n q c :
  layout_ok s → selects key_of_ ns f P → doc_delete_where CHECKPOINTS f s = (s', Ok n) →
  stored s' q c ↔ stored s q c ∧ ¬ P c.
Proof.
  intros Hl Hf (_ & Hc & _)%delete_where_ok. unfold DriverCheckpoint.stored. rewrite Hc. split.
  - intros (d & v & [Hd Hm]%lookup_difference_Some & Hv & He). split; [by exists d, v|]. intros HP.
    assert (Hin : matching f (contents CHECKPOINTS s) !! checkpoint_id_key key_of_ ns (cp_thread_id c) q = Some d); [|congruence].
    apply (matching_stored wire key_of_ ns s f P); [done..|]. eauto 10.
  - intros [(d & v & Hd & Hv & He) HP]. exists d, v. split_and!; try done. apply lookup_difference_Some. split; [done|].
    destruct (matching f _ !! _) as [d'|] eqn:Hm; [|done].
    apply (matching_stored wire key_of_ ns s f P) in Hm as (c' & q' & v' & Hd' & _ & Hv' & He' & HP'); [|done..].
    rewrite Hd in Hd'. injection Hd' as <-. by destruct (encode_body_inj wire key_of_ ns d c c' q q' v v' Hv Hv' He He') as [<- <-].
Qed.
Lemma deleted_thread s (P : Checkpoint State → Prop) `{!∀ c, Decision (P c)} s' thread l :
  layout_ok s → layout_ok s' → (∀ q c, stored s' q c ↔ stored s q c ∧ ¬ P c) →
  drv_get_thread wire ns s thread = Ok l → drv_get_thread wire ns s' thread = Ok (filter (λ c, ¬ P c) l).
Proof.
  intros Hl Hl' Hst. destruct (thread_records s thread Hl) as (rs & -> & Hs & Hn & Hin). intros [= <-].
  rewrite (thread_records_eq s' thread (filter (λ r, ¬ P r.2) rs) Hl').
  { f_equal. clear. induction rs as [|[q c] rs IH]; [done|]. rewrite fmap_cons, !filter_cons. cbn. by case_decide; rewrite ?fmap_cons, IH. }
  split_and!.
  - apply StronglySorted_Sorted, StronglySorted_filter. by apply (Sorted_StronglySorted before).
  - by apply NoDup_filter.
  - intros q c. rewrite list_elem_of_filter, Hin, Hst. cbn. tauto.
Qed.

(** How many records a deletion removes. *)
Lemma deleted_count s f (P : Checkpoint State → Prop) `{!∀ c, Decision (P c)} s' n thread l :
  layout_ok s → selects key_of_ ns f P → (∀ c, P c → cp_thread_id c = thread) →
  doc_delete_where CHECKPOINTS f s = (s', Ok n) → drv_get_thread wire ns s thread = Ok l →
  n = length (filter P l).
Proof.
  intros Hl Hf HP (-> & _ & _)%delete_where_ok. destruct (thread_records s thread Hl) as (rs & -> & Hs & Hn & Hin). intros [= <-].
  destruct (selected_records s f P Hl Hf) as (ds & rs' & Hq & Hp & Hr').
  destruct (query_all_ok CHECKPOINTS f (Some "seq") s) as (ds' & Hq' & Hperm & _). rewrite Hq in Hq'. injection Hq' as <-.
  rewrite <- length_map_to_list, <- (length_fmap snd), <- Hperm, (Forall2_length _ _ _ Hp).
  assert (Heq : filter (λ r, P r.2) rs = rs').
  { eapply (records_unique thread s s P P); [exact HP|done| |exact Hr']. split_and!.
    - apply StronglySorted_Sorted, StronglySorted_filter. by apply (Sorted_StronglySorted before).
    - by apply NoDup_filter.
    - intros q c. rewrite list_elem_of_filter, Hin. cbn. naive_solver. }
  rewrite <- Heq. clear. induction rs as [|[q c] rs IH]; [done|]. rewrite fmap_cons, !filter_cons. cbn. case_decide; cbn; by rewrite ?IH.
Qed.

(** A ledger after a deletion by a filter on its place. *)
Lemma dropped_ledger s f s' config id :
  let fresh := fresh_writes ns config (subgraph_key key_of_ (cfg_namespace config)) id in
  layout_ok s → lawful_keys → cfg_checkpoint_id config = Some id →
  (∀ b b' : WritesBody, same_place b b' → filter_matches f (encode b) = filter_matches f (encode b')) →
  drop_writes wire s f = (s', Ok tt) →
  drv_get_writes wire key_of_ ns s' config =
  if filter_matches f (encode fresh) then Ok [] else drv_get_writes wire key_of_ ns s config.
Proof.
  intros fresh Hl Hkeys Hid Hplace. unfold drop_writes. destruct (doc_delete_where WRITES f s) as [s1 [n|e]] eqn:Hd; [|done].
  intros [= <-]. apply delete_where_ok in Hd as (_ & Hc & _). rewrite !(get_writes_at wire key_of_ ns _ _ id Hid).
  set (k := writes_id_key _ _ _ _ _). rewrite Hc. destruct (contents WRITES s !! k) as [d|] eqn:Hk.
  - destruct (lo_writes wire key_of_ ns s Hl k d Hk) as (b & Hb & Heq). apply (keys_injective Hkeys) in Heq; [|done..].
    injection Heq as Hn Ht Hs Hi. assert (Hm : filter_matches f (encode fresh) = filter_matches f (ver_doc d)).
    { rewrite Hb. apply Hplace. by split_and!. }
    rewrite Hm. destruct (filter_matches f (ver_doc d)) eqn:E.
    + assert (Hnone : (contents WRITES s ∖ matching f (contents WRITES s)) !! k = None); [|by rewrite Hnone].
      apply lookup_difference_None. right. exists d. by apply map_lookup_filter_Some.
    + assert (Hsome : (contents WRITES s ∖ matching f (contents WRITES s)) !! k = Some d); [|by rewrite Hsome].
      apply lookup_difference_Some. split; [done|]. apply map_lookup_filter_None. right. intros x Hx. cbn. congruence.
  - assert (Hnone : (contents WRITES s ∖ matching f (contents WRITES s)) !! k = None); [|rewrite Hnone; by case_match].
    apply lookup_difference_None. by left.
Qed.

(** What the two filters answer of a ledger. *)
Lemma thread_filter_writes (b : WritesBody) thread :
  filter_matches (thread_filter ns thread) (encode b) = true ↔ wb_ns b = ns ∧ wb_thread b = thread.
Proof.
  unfold thread_filter. destruct (writes_fields b) as (Hn & Ht & _).
  rewrite app_filter_matches, andb_true_iff, !eq_filter_matches, Hn, Ht. naive_solver.
Qed.
Lemma ids_filter_writes (b : WritesBody) thread ids :
  filter_matches (thread_filter ns thread ++ filter_one_of "checkpoint_id" ids) (encode b) = true ↔
  (wb_ns b = ns ∧ wb_thread b = thread) ∧ wb_checkpoint_id b ∈ ids.
Proof.
  destruct (writes_fields b) as (_ & _ & _ & Hi & _).
  by rewrite app_filter_matches, andb_true_iff, thread_filter_writes, (one_of_matches _ _ _ _ Hi).
Qed.

(** A ledger that is not the one written to. *)
Lemma subgraph_injective a b : lawful_keys → subgraph_key key_of_ a = subgraph_key key_of_ b → a = b.
Proof.
  intros Hk. destruct a as [|x a], b as [|y b]; cbn; [done|intros H..|].
  - by destruct (subgraph_nonempty Hk (y :: b)).
  - by destruct (subgraph_nonempty Hk (x :: a)).
  - intros H%(keys_injective Hk); [|done..]. by injection H as -> ->.
Qed.
Lemma put_writes_other s config ws s' r config' id id' :
  lawful_keys → cfg_checkpoint_id config = Some id → cfg_checkpoint_id config' = Some id' →
  (cfg_thread_id config', cfg_namespace config', id') ≠ (cfg_thread_id config, cfg_namespace config, id) →
  drv_put_writes wire key_of_ ns s config ws = (s', r) →
  drv_get_writes wire key_of_ ns s' config' = drv_get_writes wire key_of_ ns s config'.
Proof.
  intros Hkeys Hid Hid' Hne. unfold drv_put_writes, require_checkpoint_id. rewrite Hid. cbn [ok_or].
  destruct ws as [|w ws]; [by intros [= <- _]|].
  destruct (repo_update _ _ _ _ _ _ _ _) as [[s1 u] res] eqn:Hu. intros [= <- _].
  apply update_alone in Hu as [[-> _]|(st0 & current & next & v & _ & _ & _ & (d & _ & Hc & _))]; [done|].
  rewrite !(get_writes_at wire key_of_ ns _ _ id' Hid'), Hc. rewrite lookup_insert_ne; [done|].
  intros Heq. apply (keys_injective Hkeys) in Heq; [|done..]. injection Heq as Ht Hs Hi.
  apply (subgraph_injective _ _ Hkeys) in Hs. destruct Hne. congruence.
Qed.

(** The changes a backend is asked to make. *)
Inductive StoreOp : Type :=
| OpPut (c : Checkpoint State)
| OpDeleteThread (thread : string)
| OpDeleteCheckpoints (thread : string) (ids : list string)
| OpPutWrites (config : CheckpointConfig) (ws : list PendingWrite).

Inductive Answer : Type := AId (id : CheckpointId) | AUnit | ACount (n : nat).

Definition run_op {C} (ops : CheckpointerOps State C) (s : C) (op : StoreOp) : C * Result Answer :=
  match op with
  | OpPut c => let '(s', r) := ck_put ops s c in (s', match r with Ok id => Ok (AId id) | Err e => Err e end)
  | OpDeleteThread t => let '(s', r) := ck_delete_thread ops s t in (s', match r with Ok _ => Ok AUnit | Err e => Err e end)
  | OpDeleteCheckpoints t ids =>
      let '(s', r) := ck_delete_checkpoints ops s t ids in (s', match r with Ok n => Ok (ACount n) | Err e => Err e end)
  | OpPutWrites cfg ws => let '(s', r) := ck_put_writes ops s cfg ws in (s', match r with Ok _ => Ok AUnit | Err e => Err e end)
  end.

(** The two backends answer alike. *)
Record sim (k : Kept) (m : MemStore State) : Prop := {
  sim_thread t : drv_get_thread wire ns (`k) t = Ok (mem_thread m t);
  sim_writes config id : cfg_checkpoint_id config = Some id →
    drv_get_writes wire key_of_ ns (`k) config = mem_get_writes m config
}.

(** The in-memory backend leaves the writes of a thread it does not know. *)
Definition known_thread (m : MemStore State) (op : StoreOp) : Prop :=
  match op with OpDeleteCheckpoints t _ => is_Some (mem_inner m !! t) | _ => True end.

Lemma mem_get_writes_at (m : MemStore State) config id :
  cfg_checkpoint_id config = Some id →
  mem_get_writes m config = Ok (default [] (mem_writes m !! (cfg_thread_id config, cfg_namespace config, id))).
Proof. intros Hid. unfold mem_get_writes. by rewrite Hid. Qed.

Lemma sim_put k m c k' id :
  sim k m → ck_put driver_ops k c = (k', Ok id) → id = cp_checkpoint_id c ∧ sim k' (mem_put m c).1.
Proof.
  intros [Ht Hw] Hp. cbn [ck_put DriverCheckpoint.driver_ops] in Hp. apply kept_op_eq in Hp.
  pose proof (put_effect wire key_of_ ns _ _ _ _ (proj2_sig k) Hp) as (_ & Hsame & -> & _). split; [done|]. split.
  - intros t. rewrite (put_thread _ _ _ _ _ _ (proj2_sig k) Hp (Ht t)). f_equal. unfold mem_thread. cbn. rewrite lookup_insert.
    case_decide as H1; case_decide as H2; subst; rewrite ?app_nil_r; congruence || done.
  - intros config i Hid. rewrite (mem_get_writes_at (mem_put m c).1 config i Hid).
    change (mem_writes (mem_put m c).1) with (mem_writes m). rewrite <- (mem_get_writes_at m config i Hid), <- (Hw config i Hid).
    by rewrite !(get_writes_at wire key_of_ ns _ _ i Hid), Hsame.
Qed.

Lemma sim_put_writes k m config ws k' :
  lawful_keys → sim k m → ck_put_writes driver_ops k config ws = (k', Ok tt) →
  ∃ m', mem_put_writes m config ws = (m', Ok tt) ∧ sim k' m'.
Proof.
  intros Hkeys [Ht Hw] Hp. cbn [ck_put_writes DriverCheckpoint.driver_ops] in Hp. apply kept_op_eq in Hp.
  pose proof (put_writes_effect wire key_of_ ns _ _ _ _ _ (proj2_sig k) Hp) as (_ & Hrec & Hmerge).
  destruct (cfg_checkpoint_id config) as [id|] eqn:Hid.
  2:{ unfold drv_put_writes, require_checkpoint_id in Hp. by rewrite Hid in Hp. }
  destruct (mem_put_writes m config ws) as [m' r] eqn:Hm.
  assert (r = Ok tt) as -> by (unfold mem_put_writes, require_checkpoint_id in Hm; rewrite Hid in Hm; cbn [ok_or] in Hm; destruct ws; by injection Hm as _ <-).
  exists m'. split; [done|]. pose proof (mem_writes_records m config ws m' _ Hm) as Hinner. split.
  - intros t. unfold mem_thread. rewrite Hinner. change (default [] (mem_inner m !! t)) with (mem_thread m t). rewrite <- Ht.
    destruct (thread_records (`k) t (proj2_sig k)) as (rs & -> & Hr). eapply thread_records_eq; [apply (proj2_sig k')|].
    destruct Hr as (Hs & Hn & Hin). split_and!; [done..|]. intros q c. rewrite Hin. by rewrite (stored_contents wire key_of_ ns _ _ q c Hrec).
  - intros config' id' Hid'.
    destruct (decide ((cfg_thread_id config', cfg_namespace config', id') = (cfg_thread_id config, cfg_namespace config, id))) as [Heq|Hne].
    + assert (config' = config) as ->.
      { destruct config, config'; cbn in *; simplify_eq. done. }
      rewrite Hid in Hid'. injection Hid' as <-. specialize (Hw config id Hid). rewrite (mem_get_writes_at _ _ _ Hid) in Hw.
      rewrite (Hmerge eq_refl ltac:(eauto) _ Hw), (mem_get_writes_at _ _ _ Hid).
      unfold mem_put_writes, require_checkpoint_id in Hm. rewrite Hid in Hm. cbn [ok_or] in Hm.
      destruct ws as [|w ws]; injection Hm as <-; [done|]. cbn [mem_writes]. by rewrite lookup_insert_eq.
    + rewrite (put_writes_other _ _ _ _ _ _ _ _ Hkeys Hid Hid' Hne Hp), (Hw _ _ Hid'), !(mem_get_writes_at _ _ _ Hid').
      unfold mem_put_writes, require_checkpoint_id in Hm. rewrite Hid in Hm. cbn [ok_or] in Hm.
      destruct ws as [|w ws]; injection Hm as <-; [done|]. cbn [mem_writes]. by rewrite lookup_insert_ne.
Qed.

(** Both deletions, by what is deleted. *)
Lemma sim_deleted k m k' m' (f : Filter_) (s1 : D) n (P : Checkpoint State → Prop) `{!∀ c, Decision (P c)} :
  lawful_keys → sim k m → selects key_of_ ns f P →
  doc_delete_where CHECKPOINTS f (`k) = (s1, Ok n) → drop_writes wire s1 f = (`k', Ok tt) →
  (∀ b b' : WritesBody, same_place b b' → filter_matches f (encode b) = filter_matches f (encode b')) →
  (∀ t, mem_thread m' t = filter (λ c, ¬ P c) (mem_thread m t)) →
  (∀ config id, cfg_checkpoint_id config = Some id →
     mem_get_writes m' config = if filter_matches f (encode (fresh_writes ns config (subgraph_key key_of_ (cfg_namespace config)) id))
                                then Ok [] else mem_get_writes m config) →
  sim k' m'.
Proof.
  intros Hkeys [Ht Hw] Hf Hd Hdrop Hplace Hmt Hmw.
  assert (Hl1 : layout_ok s1) by (eapply delete_layout; [|exact Hd|apply (proj2_sig k)]; done).
  pose proof (delete_sub _ _ _ _ _ Hd) as Hsub.
  assert (Hrec : contents CHECKPOINTS (`k') = contents CHECKPOINTS s1).
  { unfold drop_writes in Hdrop. destruct (doc_delete_where WRITES f s1) as [s2 r2] eqn:Hd2. injection Hdrop as <- _.
    by apply (delete_sub _ _ _ _ _ Hd2). }
  split.
  - intros t. rewrite Hmt. eapply deleted_thread; [apply (proj2_sig k)|apply (proj2_sig k')| |apply Ht].
    intros q c. rewrite (stored_contents wire key_of_ ns _ _ q c Hrec). by eapply delete_stored; [apply (proj2_sig k)| |].
  - intros config id Hid. rewrite (dropped_ledger _ _ _ _ _ Hl1 Hkeys Hid Hplace Hdrop), (Hmw _ _ Hid).
    case_match; [done|]. rewrite <- (Hw _ _ Hid). rewrite !(get_writes_at wire key_of_ ns _ _ id Hid). by rewrite (proj2 (Hsub WRITES)).
Qed.

Lemma sim_owned k m t c : sim k m → c ∈ mem_thread m t → cp_thread_id c = t.
Proof.
  intros [Ht _]. specialize (Ht t). destruct (thread_records (`k) t (proj2_sig k)) as (rs & Hrs & _ & _ & Hin).
  rewrite Hrs in Ht. injection Ht as <-. intros ([q c'] & -> & [_ Hc]%Hin)%list_elem_of_fmap. done.
Qed.

Lemma sim_delete_thread k m t k' :
  lawful_keys → sim k m → ck_delete_thread driver_ops k t = (k', Ok tt) → sim k' (mem_delete_thread m t).1.
Proof.
  intros Hkeys Hsim Hp. cbn [ck_delete_thread DriverCheckpoint.driver_ops] in Hp. apply kept_op_eq in Hp.
  unfold drv_delete_thread in Hp. destruct (doc_delete_where CHECKPOINTS _ _) as [s1 [n|e]] eqn:Hd; [|done].
  eapply (sim_deleted k m k' _ _ s1 n (λ c, cp_thread_id c = t)); [done|done|apply thread_selects|exact Hd|exact Hp| | |].
  - intros b b' (H1 & H2 & _). apply eq_true_iff_eq. by rewrite !thread_filter_writes, H1, H2.
  - intros t'. unfold mem_thread at 1. cbn. rewrite lookup_delete. case_decide as Heq.
    + subst t'. cbn. symmetry. apply filter_nil_all. intros c Hc Hne. by apply Hne, (sim_owned k m).
    + symmetry. apply filter_all. intros c Hc Hct. by rewrite <- (sim_owned k m t' c Hsim Hc) in Heq.
  - intros config id Hid. rewrite !(mem_get_writes_at _ _ _ Hid). cbn [mem_delete_thread fst mem_writes].
    destruct (filter_matches _ _) eqn:Hm.
    + apply thread_filter_writes in Hm as [_ Hm]. do 2 f_equal. rewrite (map_lookup_filter_None_2); [done|].
      right. intros x _ Hx. apply Hx. exact Hm.
    + f_equal. rewrite map_lookup_filter. destruct (mem_writes m !! _) as [ws|]; [|done]. cbn.
      rewrite option_guard_True; [done|]. intros Heq. apply not_true_iff_false in Hm. apply Hm, thread_filter_writes. done.
Qed.

Lemma sim_delete_checkpoints k m t ids k' n :
  lawful_keys → sim k m → is_Some (mem_inner m !! t) → ck_delete_checkpoints driver_ops k t ids = (k', Ok n) →
  ∃ m', mem_delete_checkpoints m t ids = (m', Ok n) ∧ sim k' m'.
Proof.
  intros Hkeys Hsim [l Hl] Hp. cbn [ck_delete_checkpoints DriverCheckpoint.driver_ops] in Hp. apply kept_op_eq in Hp.
  assert (Hmt : mem_thread m t = l) by (unfold mem_thread; by rewrite Hl).
  unfold drv_delete_checkpoints, mem_delete_checkpoints in *. destruct ids as [|i ids].
  { injection Hp as Hk <-. exists m. split; [done|]. destruct Hsim as [Ht Hw]. split; by rewrite <- Hk. }
  rewrite Hl. set (all := i :: ids) in *. destruct (doc_delete_where CHECKPOINTS _ _) as [s1 [removed|e]] eqn:Hd; [|done].
  destruct (drop_writes _ _ _) as [s2 [[]|e]] eqn:Hdrop; [|done]. injection Hp as Hk <-. subst s2.
  eexists. split.
  { do 2 f_equal. rewrite (deleted_count (`k) _ (λ c, cp_thread_id c = t ∧ cp_checkpoint_id c ∈ all) s1 removed t l
      (proj2_sig k) (ids_selects t all) ltac:(by intros c [? _]) Hd) by (by rewrite (sim_thread k m Hsim), Hmt).
    assert (Hown : ∀ c, c ∈ l → cp_thread_id c = t) by (intros c Hc; apply (sim_owned k m); [done|by rewrite Hmt]). clear -Hown.
    induction l as [|c l IH]; [done|]. rewrite !filter_cons.
    specialize (IH ltac:(intros; apply Hown; by right)). pose proof (length_filter (λ c, cp_checkpoint_id c ∉ all) l) as Hle.
    specialize (Hown c ltac:(by left)). repeat case_decide; cbn; try tauto; lia. }
  eapply (sim_deleted k m k' _ _ s1 removed (λ c, cp_thread_id c = t ∧ cp_checkpoint_id c ∈ all)); [done|done|apply ids_selects|exact Hd|exact Hdrop| | |].
  - intros b b' (H1 & H2 & _ & H4). apply eq_true_iff_eq. by rewrite !ids_filter_writes, H1, H2, H4.
  - intros t'. unfold mem_thread at 1. cbn. rewrite lookup_insert. case_decide as Heq.
    + subst t'. rewrite Hmt. cbn. apply filter_ext_in. intros c Hc. rewrite <- Hmt in Hc. pose proof (sim_owned k m t c Hsim Hc). tauto.
    + symmetry. apply filter_all. intros c Hc [Hct _]. by rewrite <- (sim_owned k m t' c Hsim Hc) in Heq.
  - intros config id Hid. rewrite !(mem_get_writes_at _ _ _ Hid). cbn [mem_writes]. unfold drop_writes_for.
    destruct (filter_matches _ _) eqn:Hm.
    + apply ids_filter_writes in Hm as [[_ Ht] Hi]. do 2 f_equal. rewrite (map_lookup_filter_None_2); [done|].
      right. intros x _ Hx. by apply Hx.
    + f_equal. rewrite map_lookup_filter. destruct (mem_writes m !! _) as [ws|]; [|done]. cbn.
      rewrite option_guard_True; [done|]. intros [Ht Hi]. apply not_true_iff_false in Hm. apply Hm, ids_filter_writes. done.
Qed.

(** The reads of related backends agree. *)
Lemma sim_get k m t id : sim k m → ck_get driver_ops k t id = ck_get mem_ops m t id.
Proof.
  intros Hsim. cbn [ck_get DriverCheckpoint.driver_ops mem_ops]. rewrite mem_get_eq. unfold drv_get.
  destruct (newest_selected wire key_of_ ns (`k) _ _ (proj2_sig k) (get_selects t id)) as (o & -> & Ho). f_equal.
  destruct (thread_records (`k) t (proj2_sig k)) as (rs & Hrs & Hr). rewrite (sim_thread k m Hsim) in Hrs. injection Hrs as ->.
  eapply (newest_of_unique wire key_of_ ns _ t); [|exact Ho|]; [by intros c [? _]|]. destruct id as [i|].
  - eapply rfind_newest; [exact Hr|]. intros c. by rewrite bool_decide_eq_true.
  - apply last_newest. destruct Hr as (Hs & Hn & Hin). split_and!; [done..|]. intros q c. rewrite Hin. tauto.
Qed.
(** C19: The driver is a checkpointer in the sense of the trait.  With storage
    keys that are lawful (distinct coordinates get distinct documents), an
    operation that succeeds answers what the in-memory backend answers, and
    leaves the two holding the same threads in the same order, the same write
    ledgers and the same answer to every read by id; of the deletions of
    checkpoints, this is about those of a thread the in-memory backend knows,
    since for an unknown thread it leaves the pending writes that the driver
    drops. *)
Theorem driver_simulates_memory k m op k' a :
  lawful_keys → sim k m → known_thread m op → run_op driver_ops k op = (k', Ok a) →
  ∃ m', run_op mem_ops m op = (m', Ok a) ∧ sim k' m' ∧ ∀ t id, ck_get driver_ops k' t id = ck_get mem_ops m' t id.
Proof.
  intros Hkeys Hsim Hop Hrun.
  enough (∃ m', run_op mem_ops m op = (m', Ok a) ∧ sim k' m') as (m' & Hm & Hs).
  { exists m'. split_and!; [done..|]. intros t id. by apply sim_get. }
  destruct op as [c|t|t ids|config ws]; cbn [run_op known_thread] in *.
  - destruct (ck_put driver_ops k c) as [k1 [id|e]] eqn:Hp; simplify_eq.
    destruct (sim_put _ _ _ _ _ Hsim Hp) as [-> Hs]. by exists (mem_put m c).1.
  - destruct (ck_delete_thread driver_ops k t) as [k1 [[]|e]] eqn:Hp; simplify_eq.
    exists (mem_delete_thread m t).1. split; [done|]. by eapply sim_delete_thread.
  - destruct (ck_delete_checkpoints driver_ops k t ids) as [k1 [n|e]] eqn:Hp; simplify_eq.
    destruct (sim_delete_checkpoints _ _ _ _ _ _ Hkeys Hsim Hop Hp) as (m' & Hm & Hs). exists m'. split; [|done].
    cbn [ck_delete_checkpoints mem_ops]. by rewrite Hm.
  - destruct (ck_put_writes driver_ops k config ws) as [k1 [[]|e]] eqn:Hp; simplify_eq.
    destruct (sim_put_writes _ _ _ _ _ Hkeys Hsim Hp) as (m' & Hm & Hs). exists m'. split; [|done].
    cbn [ck_put_writes mem_ops]. by rewrite Hm.
Qed.
End DriverTheorems.

(** ** Keys *)

(** With ids that are valid and a digest that does not collide. *)
Lemma key_of_lawful limit validate digest :
  (∀ i, validate i = Ok tt) → (∀ x y, digest x = digest y → x = y) → lawful_keys (key_of limit validate digest).
Proof.
  intros Hv Hd.
  assert (Hkey : ∀ p, p ≠ [] → layout_key (key_of limit validate digest) p =
    if decide (limit < String.length (join_parts true p)) then String.String HASH_MARK (digest (join_parts true p))
    else join_parts true p).
  { intros [|x p] Hp; [done|]. unfold layout_key, key_of, key_new. by rewrite Hv. }
  assert (Hjoin : ∀ p q, p ≠ [] → q ≠ [] → join_parts true p = join_parts true q → p = q).
  { intros p q Hp Hq He. pose proof (key_split_join p Hp) as H. rewrite He, (key_split_join q Hq) in H. by injection H. }
  assert (Hhash : ∀ p x, join_parts true p ≠ String.String HASH_MARK x).
  { intros p x He. pose proof (escaped_not_hashed p) as H. rewrite He in H. done. }
  split.
  - intros p q Hp Hq. rewrite !Hkey by done. repeat case_decide; [|by intros He; symmetry in He; apply Hhash in He
      |by intros He%Hhash|by apply Hjoin].
    intros [= He%Hd]. by apply Hjoin.
  - intros parts. rewrite Hkey by done. by case_decide.
Qed.

(** ** A document store with queries *)

Definition md_contents (c : string) (s : MemDocs) : gmap string (Versioned value) :=
  default ∅ (map_curry (M1 := gmap string) (M2 := gmap string) s !! c).

Lemma md_lookup c i s : md_contents c s !! i = s !! (c, i).
Proof.
  rewrite <- (lookup_map_curry (M1 := gmap string) (M2 := gmap string) s c i). unfold md_contents.
  by destruct (map_curry s !! c).
Qed.

Definition by_field (field : string) (a b : Versioned value) : Prop := (sort_key field a ≤ sort_key field b)%Z.
#[export] Instance by_field_dec field a b : Decision (by_field field a b).
Proof. unfold by_field. apply _. Defined.
#[export] Instance by_field_total field : Total (by_field field).
Proof. intros a b. unfold by_field. lia. Qed.
#[export] Instance by_field_trans field : Transitive (by_field field).
Proof. intros a b c. unfold by_field. lia. Qed.
#[export] Instance by_field_refl field : Reflexive (by_field field).
Proof. intros a. unfold by_field. lia. Qed.

Definition md_rows (c : string) (f : Filter_) (s : MemDocs) : list (Versioned value) :=
  (map_to_list (matching f (md_contents c s))).*2.

#[export] Instance MemDocs_queries : DocQueries MemDocs := {|
  doc_query_all c f k s :=
    Ok (match k with Some field => merge_sort (by_field field) (md_rows c f s) | None => md_rows c f s end);
  doc_query_newest c f field s := Ok (option_list (last (merge_sort (by_field field) (md_rows c f s))));
  doc_count c f s := Ok (size (matching f (md_contents c s)));
  doc_delete_where c f s :=
    (filter (λ kd : (string * string) * Versioned value, ¬ (kd.1.1 = c ∧ filter_matches f (ver_doc kd.2) = true)) s,
     Ok (size (matching f (md_contents c s))))
|}.

Lemma last_maximal {A} (R : A → A → Prop) `{!Reflexive R} l x : StronglySorted R l → last l = Some x → ∀ y, y ∈ l → R y x.
Proof.
  induction l as [|z l IH] using rev_ind; [done|]. rewrite last_snoc. intros Hs [= <-] y [Hy|Hy%list_elem_of_singleton]%elem_of_app.
  - eapply StronglySorted_app_1_elem_of; [exact Hs|done|by left].
  - by subst.
Qed.

#[export] Instance MemDocs_query_laws : LawfulQueries MemDocs.
Proof.
  refine {| contents := md_contents |}.
  - intros c i s. cbn. by rewrite md_lookup.
  - intros c f [field|] s; cbn; eexists; (split; [done|]); [|by split].
    split; [by rewrite merge_sort_Permutation|]. apply (Sorted_merge_sort (by_field field)).
  - intros c f field s. cbn. eexists. split; [done|].
    pose proof (merge_sort_Permutation (by_field field) (md_rows c f s)) as Hp.
    pose proof (StronglySorted_merge_sort (by_field field) (md_rows c f s)) as Hs.
    assert (Hin : ∀ d, d ∈ merge_sort (by_field field) (md_rows c f s) ↔ ∃ i, matching f (md_contents c s) !! i = Some d).
    { intros d. rewrite Hp. unfold md_rows. rewrite list_elem_of_fmap. split.
      - intros ([i d'] & -> & Hi%elem_of_map_to_list). by exists i.
      - intros [i Hi]. exists (i, d). split; [done|]. by apply elem_of_map_to_list. }
    destruct (last _) as [d|] eqn:Hl; cbn.
    + split; [apply Hin; by apply last_Some_elem_of|]. intros i d' Hd'.
      apply (last_maximal (by_field field) _ d Hs Hl d'). apply Hin. by exists i.
    + apply last_None in Hl. apply map_empty. intros i. destruct (matching _ _ !! i) as [d|] eqn:Hd; [|done].
      exfalso. eapply not_elem_of_nil. rewrite <- Hl. apply Hin. by exists i.
  - done.
  - intros c f s s' n [= <- <-]. split_and!; [done| |].
    + apply map_eq. intros i. rewrite lookup_difference, !md_lookup. unfold matching.
      rewrite map_lookup_filter, map_lookup_filter, md_lookup. destruct (s !! (c, i)) as [d|]; [|done]. cbn.
      destruct (decide (filter_matches f (ver_doc d) = true)) as [Hm|Hm].
      * by rewrite option_guard_False, option_guard_True by naive_solver.
      * by rewrite option_guard_True, option_guard_False by naive_solver.
    + intros c' Hc'. apply map_eq. intros i. rewrite !md_lookup, map_lookup_filter. destruct (s !! (c', i)) as [d|]; [|done].
      cbn. by rewrite option_guard_True by naive_solver.
  - done.
Defined.

(** ** Sample codecs and records *)

Definition strs_value (l : list string) : value := Array (Str <$> l).
Definition value_strs (v : value) : option (list string) :=
  match v with Array l => mapM as_str l | _ => None end.
Lemma value_strs_value l : value_strs (strs_value l) = Some l.
Proof. cbn. induction l as [|x l IH]; [done|]. cbn. by rewrite IH. Qed.

(** The records of a run that has ended: nothing pending. *)
Definition sample_encode (c : Checkpoint value) : result string value :=
  match c with
  | mkCheckpoint thread id None parent namespace state [] [] [] [] None [] metadata =>
      Ok (Array [Str thread; Str id; match parent with Some p => Str p | None => Null end; strs_value namespace; state; metadata])
  | _ => Err "pending work"
  end.
Definition sample_decode (v : value) : result string (Checkpoint value) :=
  match v with
  | Array [Str thread; Str id; parent; namespace; state; metadata] =>
      match value_strs namespace with
      | Some namespace => Ok (mkCheckpoint thread id None (as_str parent) namespace state [] [] [] [] None [] metadata)
      | None => Err "namespace"
      end
  | _ => Err "record"
  end.
Definition sample_write_value (w : PendingWrite) : value :=
  Array [Str (pw_node w); Str (pw_task_id w); Number (PosInt (pw_idx w)); Str (pw_channel w); pw_payload w].
Definition sample_value_write (v : value) : option PendingWrite :=
  match v with
  | Array [Str node; Str task; Number (PosInt idx); Str channel; payload] => Some (mkWrite node task idx channel payload)
  | _ => None
  end.
Definition sample_id_value (k : string * Z) : value := Array [Str k.1; Number (PosInt k.2)].
Definition sample_value_id (v : value) : option (string * Z) :=
  match v with Array [Str task; Number (PosInt idx)] => Some (task, idx) | _ => None end.
Definition items {A} (f : value → option A) (v : value) : option (list A) := match v with Array l => mapM f l | _ => None end.
Lemma items_array {A} (f : value → option A) (g : A → value) l : (∀ a, f (g a) = Some a) → items f (Array (g <$> l)) = Some l.
Proof. intros Hfg. cbn. induction l as [|x l IH]; [done|]. cbn. by rewrite Hfg, IH. Qed.

Definition sample_wire : CheckpointWire value := {|
  cw_encode := sample_encode;
  cw_decode := sample_decode;
  cw_encode_writes l := Array (sample_write_value <$> l);
  cw_decode_writes v := match items sample_value_write v with Some l => Ok l | None => Err "writes" end;
  cw_encode_ids l := Array (sample_id_value <$> l);
  cw_decode_ids := items sample_value_id;
  cw_storage_error e := se_message e
|}.
#[export] Instance sample_wire_lawful : LawfulWire sample_wire.
Proof.
  split.
  - intros [thread id [] parent namespace state [] [] [] [] [] [] metadata] v; try done. intros [= <-].
    unfold cw_decode, sample_wire, sample_decode. rewrite value_strs_value. by destruct parent.
  - intros l. unfold cw_decode_writes, cw_encode_writes, sample_wire. rewrite items_array; [done|]. by intros [].
  - intros l. apply items_array. by intros [].
Qed.

(** Keys, with a digest that keeps the text. *)
Definition sample_key : list string → StoreResult string := key_of 512 (λ _, Ok tt) (λ text, text).
Lemma sample_key_lawful : lawful_keys sample_key.
Proof. by apply key_of_lawful. Qed.

Lemma empty_layout : layout_ok sample_wire sample_key NAMESPACE (∅ : MemDocs).
Proof. split; intros i d Hi; cbn in Hi; by rewrite md_lookup, lookup_empty in Hi. Qed.

Notation sample_ops := (driver_ops sample_wire sample_key NAMESPACE).
Definition driver_empty : Kept (D := MemDocs) sample_wire sample_key NAMESPACE := exist _ ∅ empty_layout.

Definition sample_record (id : string) (parent : option string) : Checkpoint value :=
  mkCheckpoint "t" id None parent [] (Str id) [] [] [] [] None [] Null.
Definition driver_two : Kept (D := MemDocs) sample_wire sample_key NAMESPACE :=
  (ck_put sample_ops (ck_put sample_ops driver_empty (sample_record "a" None)).1 (sample_record "b" (Some "a"))).1.

Lemma driver_history_is_default_witness : ∃ enough, ∀ fuel, enough ≤ fuel →
  state_history sample_ops fuel driver_two "t" [] None =
  Some (Ok [tuple_of (sample_record "b" (Some "a")) None; tuple_of (sample_record "a" None) None]).
Proof.
  destruct (driver_history_is_default sample_wire sample_key NAMESPACE driver_two "t" [] None sample_key_lawful) as [n Hn].
  exists n. intros fuel Hf. rewrite (Hn fuel Hf). vm_compute. reflexivity.
Defined.

Lemma driver_empty_sim : sim sample_wire sample_key NAMESPACE driver_empty mem_new.
Proof.
  split; [done|]. intros config id Hid. rewrite (mem_get_writes_at _ _ _ Hid).
  change (`driver_empty) with (∅ : MemDocs). rewrite (get_writes_at sample_wire sample_key NAMESPACE (∅ : MemDocs) _ id Hid). cbn. by rewrite md_lookup, !lookup_empty.
Qed.

Lemma driver_simulates_memory_witness : ∃ m',
  run_op mem_ops mem_new (OpPut (sample_record "a" None)) = (m', Ok (AId "a")) ∧
  ∀ t id, ck_get sample_ops (ck_put sample_ops driver_empty (sample_record "a" None)).1 t id = ck_get mem_ops m' t id.
Proof.
  destruct (driver_simulates_memory sample_wire sample_key NAMESPACE driver_empty mem_new (OpPut (sample_record "a" None))
    (ck_put sample_ops driver_empty (sample_record "a" None)).1 (AId "a") sample_key_lawful driver_empty_sim I) as (m' & Hm & _ & Hg).
  - cbn [run_op]. rewrite (surjective_pairing (ck_put sample_ops driver_empty (sample_record "a" None))). f_equal; vm_compute; reflexivity.
  - exists m'. split; [exact Hm|exact Hg].
Defined.

(** An interrupt imported twice in a batch, and a data write. *)
Definition sample_config : CheckpointConfig := mkConfig "t" (Some "a") [].
Definition sample_imports : list PendingWrite :=
  [mkWrite "n" "task" (-3) "c" (Str "old"); mkWrite "n" "task" 0 "c" (Str "data"); mkWrite "n" "task" (-3) "c" (Str "new")].
Definition imported_store : MemDocs :=
  (import_writes_if_absent sample_wire sample_key NAMESPACE (∅ : MemDocs) sample_config sample_imports).1.

Lemma sample_imported :
  import_writes_if_absent sample_wire sample_key NAMESPACE (∅ : MemDocs) sample_config sample_imports = (imported_store, Ok (3, 0)).
Proof.
  assert (Hr : (import_writes_if_absent sample_wire sample_key NAMESPACE (∅ : MemDocs) sample_config sample_imports).2 = Ok (3, 0))
    by (vm_compute; reflexivity).
  unfold imported_store. rewrite <- Hr. apply surjective_pairing.
Qed.

Lemma import_keeps_live_witness : ∃ old new,
  drv_get_writes sample_wire sample_key NAMESPACE (∅ : MemDocs) sample_config = Ok old ∧
  drv_get_writes sample_wire sample_key NAMESPACE imported_store sample_config = Ok new ∧
  3 + 0 = length sample_imports ∧ is_Some (ledger_find ("task", (-3)%Z) new).
Proof.
  destruct (import_keeps_live sample_wire sample_key NAMESPACE (∅ : MemDocs) sample_config "a" sample_imports imported_store 3 0
    empty_layout eq_refl sample_imported) as (old & new & Ho & Hn & Hl & Hin & _).
  exists old, new. split; [exact Ho|]. split; [exact Hn|]. split; [exact Hl|]. apply (Hin (mkWrite "n" "task" (-3) "c" (Str "old"))). left.
Defined.

Lemma import_idempotent_witness :
  import_writes_if_absent sample_wire sample_key NAMESPACE imported_store sample_config sample_imports = (imported_store, Ok (0, 3)).
Proof.
  exact (import_idempotent sample_wire sample_key NAMESPACE (∅ : MemDocs) sample_config "a" sample_imports imported_store 3 0
    empty_layout eq_refl sample_imported).
Defined.
