(* ===== verification/Text.v ===== *)
(** * Text handling of the standard library

    The [str] operations the schedule code uses: splitting, joining, trimming,
    case-insensitive comparison and parsing of unsigned numbers.  Strings are
    UTF-8 bytes; a separator is always ASCII, so a byte at a time is the same as
    a [char] at a time, and the multi-byte white space characters are spelled
    out by their encodings. *)

From S2P Require Import Prelude.
From S2P Require Import Workflow.
From Stdlib Require Import Ascii.
From Stdlib Require String.

Notation EmptyString := String.EmptyString.
Notation SCons := String.String.

(** ** Splitting and joining *)

(** [str::split(c)]. *)
Fixpoint split_char (sep : ascii) (s : string) : list string :=
  match s with
  | EmptyString => [""]
  | SCons c rest =>
      if decide (c = sep) then "" :: split_char sep rest
      else match split_char sep rest with
           | seg :: segs => SCons c seg :: segs
           | [] => [SCons c ""]
           end
  end.

(** [str::split_once(c)]. *)
Fixpoint split_once (sep : ascii) (s : string) : option (string * string) :=
  match s with
  | EmptyString => None
  | SCons c rest =>
      if decide (c = sep) then Some ("", rest)
      else prod_map (SCons c) id <$> split_once sep rest
  end.

(** [[T]::join]. *)
Fixpoint join_with (sep : string) (l : list string) : string :=
  match l with
  | [] => ""
  | [a] => a
  | a :: rest => a +:+ sep +:+ join_with sep rest
  end.

(** [str::strip_prefix]. *)
Fixpoint strip_prefix (prefix s : string) : option string :=
  match prefix, s with
  | EmptyString, _ => Some s
  | SCons a prefix', SCons b s' => if decide (a = b) then strip_prefix prefix' s' else None
  | SCons _ _, EmptyString => None
  end.

Lemma strip_prefix_app p s : strip_prefix p (p +:+ s) = Some s.
Proof.
  induction p as [|a p IH]; [done|]. change (SCons a p +:+ s) with (SCons a (p +:+ s)).
  cbn [strip_prefix]. by rewrite decide_True.
Qed.

Lemma strip_prefix_Some p s t : strip_prefix p s = Some t → s = p +:+ t.
Proof.
  revert s. induction p as [|a p IH]; intros s; cbn; [by intros [= <-]|].
  destruct s as [|b s]; [done|]. case_decide; [|done]. subst. by intros ->%IH.
Qed.

(** ** White space *)

(** What follows the white space character the text starts with, if it starts
    with one: the [White_Space] characters of Unicode in UTF-8. *)
Definition skip_white (s : string) : option string :=
  let code a := N_of_ascii a in
  match s with
  | SCons a rest =>
      if bool_decide (9 ≤ code a ≤ 13)%N || bool_decide (code a = 32%N) then Some rest
      else match rest with
      | SCons b rest2 =>
          if bool_decide (code a = 0xC2%N)
             && (bool_decide (code b = 0x85%N) || bool_decide (code b = 0xA0%N)) then Some rest2
          else match rest2 with
          | SCons c rest3 =>
              if (bool_decide (code a = 0xE1%N) && bool_decide (code b = 0x9A%N)
                    && bool_decide (code c = 0x80%N))
                 || (bool_decide (code a = 0xE2%N) && bool_decide (code b = 0x80%N)
                       && (bool_decide (0x80 ≤ code c ≤ 0x8A)%N || bool_decide (code c = 0xA8%N)
                             || bool_decide (code c = 0xA9%N) || bool_decide (code c = 0xAF%N)))
                 || (bool_decide (code a = 0xE2%N) && bool_decide (code b = 0x81%N)
                       && bool_decide (code c = 0x9F%N))
                 || (bool_decide (code a = 0xE3%N) && bool_decide (code b = 0x80%N)
                       && bool_decide (code c = 0x80%N))
              then Some rest3 else None
          | EmptyString => None
          end
      | EmptyString => None
      end
  | EmptyString => None
  end.

(** The text without its leading white space; the fuel is its length. *)
Fixpoint trim_start_fuel (fuel : nat) (s : string) : string :=
  match fuel with
  | 0 => s
  | S fuel => match skip_white s with Some rest => trim_start_fuel fuel rest | None => s end
  end.
Definition trim_start (s : string) : string := trim_start_fuel (String.length s) s.

(** A byte that does not start a white space suffix is kept: a continuation
    byte is never a white space character of its own. *)
Fixpoint trim_end (s : string) : string :=
  match s with
  | EmptyString => ""
  | SCons c rest =>
      if decide (trim_start s = "") then "" else SCons c (trim_end rest)
  end.

Definition trim (s : string) : string := trim_end (trim_start s).

(** [str::split_whitespace]: the maximal runs without white space. *)
Fixpoint words_fuel (fuel : nat) (s : string) : list string :=
  match fuel with
  | 0 => []
  | S fuel =>
      match s with
      | EmptyString => []
      | SCons c rest =>
          match skip_white s with
          | Some rest => words_fuel fuel rest
          | None =>
              match rest with
              | EmptyString => [SCons c ""]
              | _ =>
                  match skip_white rest with
                  | Some rest' => SCons c "" :: words_fuel fuel rest'
                  | None =>
                      match words_fuel fuel rest with
                      | w :: ws => SCons c w :: ws
                      | [] => [SCons c ""]
                      end
                  end
              end
          end
      end
  end.
Definition split_whitespace (s : string) : list string := words_fuel (String.length s) s.

(** ** Characters and numbers *)

(** The characters of a UTF-8 text: every byte outside [0x80..0xBF] starts one. *)
Definition continuation_byte (c : ascii) : bool :=
  bool_decide (0x80 ≤ N_of_ascii c < 0xC0)%N.
Fixpoint utf8_chars (s : string) : list string :=
  match s with
  | EmptyString => []
  | SCons c rest =>
      match utf8_chars rest with
      | SCons d x :: more =>
          if continuation_byte d then SCons c (SCons d x) :: more
          else SCons c "" :: SCons d x :: more
      | _ => [SCons c ""]
      end
  end.

Definition is_ascii_digit (c : ascii) : bool := ascii_in "0"%char "9"%char c.
Definition digit_value (c : ascii) : N := N_of_ascii c - 48.

Definition to_lower (c : ascii) : ascii :=
  if ascii_in "A"%char "Z"%char c then ascii_of_N (N_of_ascii c + 32) else c.

Fixpoint eq_ignore_ascii_case (s t : string) : bool :=
  match s, t with
  | EmptyString, EmptyString => true
  | SCons a s', SCons b t' => bool_decide (to_lower a = to_lower b) && eq_ignore_ascii_case s' t'
  | _, _ => false
  end.

(** The digits of a number with the given bound; [None] on any other character
    or when the bound is passed. *)
Fixpoint parse_digits (bound acc : N) (s : string) : option N :=
  match s with
  | EmptyString => Some acc
  | SCons c rest =>
      if is_ascii_digit c then
        let next := (10 * acc + digit_value c)%N in
        if bool_decide (next ≤ bound)%N then parse_digits bound next rest else None
      else None
  end.

(** [str::parse] of an unsigned integer: one leading plus sign is allowed, no
    digits at all is an error. *)
Definition parse_unsigned (bound : N) (s : string) : option N :=
  match s with
  | EmptyString => None
  | SCons c rest =>
      if decide (c = "+"%char) then
        match rest with EmptyString => None | _ => parse_digits bound 0 rest end
      else parse_digits bound 0 s
  end.

Definition u32_max_N : N := 2 ^ 32 - 1.
Definition parse_u32 : string → option N := parse_unsigned u32_max_N.

(** [str::find] of the first character that fails a test, as the split there. *)
Fixpoint span_digits (s : string) : string * string :=
  match s with
  | EmptyString => ("", "")
  | SCons c rest =>
      if is_ascii_digit c then prod_map (SCons c) id (span_digits rest) else ("", s)
  end.

(** ** Facts *)

Definition lacks (c : ascii) (s : string) : Prop := c ∉ String.list_ascii_of_string s.

#[export] Instance lacks_dec c s : Decision (lacks c s).
Proof. unfold lacks. apply _. Defined.

Lemma lacks_cons c d s : lacks c (SCons d s) ↔ c ≠ d ∧ lacks c s.
Proof. unfold lacks. simpl. rewrite not_elem_of_cons. done. Qed.

Lemma lacks_app c a b : lacks c (a +:+ b) ↔ lacks c a ∧ lacks c b.
Proof.
  induction a as [|d a IH].
  - change ("" +:+ b) with b. split; [|by intros [_ ?]]. intros ?. split; [|done].
    unfold lacks. simpl. apply not_elem_of_nil.
  - change (SCons d a +:+ b) with (SCons d (a +:+ b)). rewrite !lacks_cons, IH. tauto.
Qed.

Lemma split_char_lacks sep s : lacks sep s → split_char sep s = [s].
Proof.
  induction s as [|c s IH]; [done|]. intros [Hc Hs]%lacks_cons. simpl.
  rewrite decide_False by congruence. by rewrite (IH Hs).
Qed.

Lemma split_char_app sep a s :
  lacks sep a → split_char sep (a +:+ SCons sep s) = a :: split_char sep s.
Proof.
  induction a as [|c a IH].
  - intros _. change ("" +:+ SCons sep s) with (SCons sep s). simpl. by rewrite decide_True.
  - intros [Hc Ha]%lacks_cons. change (SCons c a +:+ SCons sep s) with (SCons c (a +:+ SCons sep s)).
    simpl. rewrite decide_False by congruence. by rewrite (IH Ha).
Qed.

(** Splitting undoes joining. *)
Lemma split_join_with sep l :
  l ≠ [] → Forall (lacks sep) l → split_char sep (join_with (SCons sep "") l) = l.
Proof.
  induction l as [|a [|b l] IH]; [done| |].
  - intros _ Hl. apply split_char_lacks. by inversion Hl.
  - intros _ [Ha Hl]%Forall_cons.
    change (join_with (SCons sep "") (a :: b :: l))
      with (a +:+ SCons sep (join_with (SCons sep "") (b :: l))).
    rewrite split_char_app by done. f_equal. by apply IH.
Qed.

Lemma split_once_app sep a s : lacks sep a → split_once sep (a +:+ SCons sep s) = Some (a, s).
Proof.
  induction a as [|c a IH].
  - intros _. change ("" +:+ SCons sep s) with (SCons sep s). simpl. by rewrite decide_True.
  - intros [Hc Ha]%lacks_cons. change (SCons c a +:+ SCons sep s) with (SCons c (a +:+ SCons sep s)).
    simpl. rewrite decide_False by congruence. by rewrite (IH Ha).
Qed.

Lemma split_once_lacks sep a : lacks sep a → split_once sep a = None.
Proof.
  induction a as [|c a IH]; [done|]. intros [Hc Ha]%lacks_cons. simpl.
  rewrite decide_False by congruence. by rewrite (IH Ha).
Qed.

(** *** Printed numbers parse back *)

Lemma pretty_N_char_digit x : (x < 10)%N → is_ascii_digit (pretty_N_char x) = true ∧
  digit_value (pretty_N_char x) = x.
Proof.
  intros Hx. assert (Hc : (x = 0 ∨ x = 1 ∨ x = 2 ∨ x = 3 ∨ x = 4 ∨ x = 5 ∨ x = 6 ∨ x = 7 ∨ x = 8 ∨ x = 9)%N)
    by lia.
  repeat (destruct Hc as [->|Hc]; [by split|]). subst. by split.
Qed.

Fixpoint digits_of (s : string) : bool :=
  match s with EmptyString => true | SCons c rest => is_ascii_digit c && digits_of rest end.

Lemma parse_digits_go bound x : ∀ s,
  (x ≤ bound)%N → parse_digits bound 0 (pretty_N_go x s) = parse_digits bound x s.
Proof.
  induction (N.lt_wf_0 x) as [x _ IH]. intros s Hx.
  destruct (decide (x = 0%N)) as [->|Hx0]; [by rewrite pretty_N_go_0|].
  rewrite pretty_N_go_step by lia.
  destruct (pretty_N_char_digit (x `mod` 10)%N) as [Hd Hv]; [by apply N.mod_lt|].
  pose proof (N.div_mod x 10 ltac:(done)) as Hdm.
  assert (Hlt : (x `div` 10 < x)%N) by (apply N.div_lt; lia).
  rewrite IH by lia. cbn [parse_digits]. by rewrite Hd, Hv, <- Hdm, bool_decide_true.
Qed.

Lemma pretty_N_pos (x : N) : x ≠ 0%N → pretty x = pretty_N_go x "".
Proof. intros. unfold pretty, pretty_N. by rewrite decide_False. Qed.

Lemma pretty_N_digits (x : N) : ∃ c s, pretty x = SCons c s ∧ is_ascii_digit c = true ∧ digits_of s = true.
Proof.
  destruct (decide (x = 0%N)) as [->|Hx]; [by exists "0"%char, ""|]. rewrite pretty_N_pos by done.
  assert (H : ∀ y, y ≠ 0%N → ∀ s, digits_of s = true →
    ∃ c t, pretty_N_go y s = SCons c t ∧ is_ascii_digit c = true ∧ digits_of t = true); [|by apply H].
  intros y. induction (N.lt_wf_0 y) as [y _ IH]. intros Hy s Hs.
  rewrite pretty_N_go_step by lia.
  destruct (pretty_N_char_digit (y `mod` 10)%N) as [Hd _]; [by apply N.mod_lt|].
  destruct (decide (y `div` 10 = 0)%N) as [->|Hq].
  - rewrite pretty_N_go_0. by exists (pretty_N_char (y `mod` 10)), s.
  - apply IH; [apply N.div_lt; lia|done|]. simpl. by rewrite Hd, Hs.
Qed.

Lemma parse_unsigned_pretty bound (x : N) : (x ≤ bound)%N → parse_unsigned bound (pretty x) = Some x.
Proof.
  intros Hx. destruct (decide (x = 0%N)) as [->|Hx0].
  { change (pretty 0%N) with "0". simpl. by rewrite bool_decide_true. }
  destruct (pretty_N_digits x) as (c & s & E & Hd & _).
  assert (Hp : parse_digits bound 0 (pretty x) = Some x).
  { by rewrite pretty_N_pos, parse_digits_go by done. }
  rewrite E in *. simpl. destruct (decide (c = "+"%char)) as [->|]; [discriminate Hd|]. exact Hp.
Qed.

Lemma digits_lack c s : is_ascii_digit c = false → digits_of s = true → lacks c s.
Proof.
  intros Hc. induction s as [|d s IH]; intros Hs; [apply not_elem_of_nil|]. simpl in Hs.
  apply andb_true_iff in Hs as [Hd Hs]. apply lacks_cons. split; [congruence|by apply IH].
Qed.

Lemma pretty_lacks c (x : N) : is_ascii_digit c = false → lacks c (pretty x).
Proof.
  intros Hc. destruct (pretty_N_digits x) as (d & s & -> & Hd & Hs). apply lacks_cons.
  split; [congruence|by apply digits_lack].
Qed.
