(* ===== verification/Weekday.v ===== *)
(** * POSIX weekday fields

    [crates/tinyflows-schedule/src/posix_weekday.rs]: a crontab numbers the days
    0 to 7 with Sunday at both ends, the [cron] crate 1 to 7 with Sunday first;
    a weekday field is rewritten item by item.  What a rewritten field means is
    the crate's business: [CrateWeekdays] states the numbering and list, range
    and step notation it documents, and the translation is proved against it. *)

From S2P Require Import Prelude.
From S2P Require Import Workflow.
From S2P Require Import StorageKey.
From S2P Require Import Text.
From Stdlib Require Import Ascii.
From Stdlib Require String.

Definition POSIX_SUNDAY_ALIAS : N := 7.
Definition CRATE_SUNDAY : N := 1.

Definition posix_day (text : string) : result string N :=
  match parse_u32 text with
  | Some day =>
      if bool_decide (day ≤ POSIX_SUNDAY_ALIAS)%N then Ok day
      else Err ("day of week `" +:+ text +:+ "` must be a number from 0 to 7 or a day name")
  | None => Err ("day of week `" +:+ text +:+ "` must be a number from 0 to 7 or a day name")
  end.

Definition parse_step (text : string) : result string N :=
  match parse_u32 text with
  | Some step =>
      if bool_decide (0 < step)%N then Ok step
      else Err ("day of week step `" +:+ text +:+ "` must be a positive number")
  | None => Err ("day of week step `" +:+ text +:+ "` must be a positive number")
  end.

Definition crate_day (posix : N) : N :=
  if bool_decide (posix = 0%N) || bool_decide (posix = POSIX_SUNDAY_ALIAS) then CRATE_SUNDAY
  else (posix + 1)%N.

(** A range of days rewritten; the second component of the walk is the step. *)
Definition translate_range (item : string) (start finish : N) (step : option N) : result string string :=
  if bool_decide (finish < start)%N then Err ("day of week range `" +:+ item +:+ "` runs backwards")
  else
    let step := default 1%N step in
    let suffix := if bool_decide (step = 1%N) then "" else "/" +:+ pretty step in
    if bool_decide (finish < POSIX_SUNDAY_ALIAS)%N then
      Ok (pretty (start + 1)%N +:+ "-" +:+ pretty (finish + 1)%N +:+ suffix)
    else if bool_decide (start = 0%N) then Ok (pretty CRATE_SUNDAY +:+ "-7" +:+ suffix)
    else
      let lands_on_sunday := bool_decide ((POSIX_SUNDAY_ALIAS - start) `mod` step = 0)%N in
      Ok (join_with ","
            ((if bool_decide (start < POSIX_SUNDAY_ALIAS)%N
              then [pretty (start + 1)%N +:+ "-7" +:+ suffix] else []) ++
             (if lands_on_sunday then [pretty CRATE_SUNDAY] else []))).

Definition translate_base (item base : string) (step : option N) : result string string :=
  if bool_decide (base = "*") || bool_decide (base = "?") then
    match step with
    | Some step_val => Ok ("1-7/" +:+ pretty step_val)
    | None => Ok item
    end
  else if existsb is_ascii_alphabetic (String.list_ascii_of_string base) then Ok item
  else
    match split_once "-"%char base with
    | Some (start, finish) =>
        let? start := posix_day start in
        let? finish := posix_day finish in
        translate_range item start finish step
    | None =>
        match step with
        | Some _ =>
            let? start := posix_day base in
            translate_range item start POSIX_SUNDAY_ALIAS step
        | None => let? day := posix_day base in Ok (pretty (crate_day day))
        end
    end.

Definition translate_item (item : string) : result string string :=
  match split_once "/"%char item with
  | Some (base, step) => let? step := parse_step step in translate_base item base (Some step)
  | None => translate_base item item None
  end.

(** [collect] of results: the first error, or every value. *)
Fixpoint collect_results {E A} (l : list (result E A)) : result E (list A) :=
  match l with
  | [] => Ok []
  | x :: rest => let? a := x in let? r := collect_results rest in Ok (a :: r)
  end.

Definition posix_to_crate_weekdays (field : string) : result string string :=
  let? items := collect_results (translate_item <$> split_char ","%char field) in
  Ok (join_with "," items).

(** ** What the two notations mean *)

(** The items of a POSIX weekday field, as they are written. *)
Inductive PosixItem :=
| Every
| EveryNth (step : N)
| OnDay (day : N)
| From (day step : N)
| Between (start finish : N)
| BetweenNth (start finish step : N).

Definition show_item (i : PosixItem) : string :=
  match i with
  | Every => "*"
  | EveryNth n => "*/" +:+ pretty n
  | OnDay d => pretty d
  | From d n => pretty d +:+ "/" +:+ pretty n
  | Between a b => pretty a +:+ "-" +:+ pretty b
  | BetweenNth a b n => pretty a +:+ "-" +:+ pretty b +:+ "/" +:+ pretty n
  end.
Definition show_field (l : list PosixItem) : string := join_with "," (show_item <$> l).

(** The walk start, start+step, … up to finish. *)
Definition walks (start finish step n : N) : bool :=
  bool_decide (start ≤ n ≤ finish)%N && bool_decide ((n - start) `mod` step = 0)%N.

Definition posix_numbers (i : PosixItem) (n : N) : bool :=
  match i with
  | Every => walks 0 7 1 n
  | EveryNth k => walks 0 7 k n
  | OnDay d => walks d d 1 n
  | From d k => walks d 7 k n
  | Between a b => walks a b 1 n
  | BetweenNth a b k => walks a b k n
  end.

(** A day of the week counted from Sunday: Sunday is hit through 0 or 7. *)
Definition posix_fires (i : PosixItem) (day : N) : bool :=
  posix_numbers i day || (bool_decide (day = 0%N) && posix_numbers i 7).

Definition item_ok (i : PosixItem) : Prop :=
  match i with
  | Every => True
  | EveryNth n => (1 ≤ n ≤ 7)%N
  | OnDay d => (d ≤ 7)%N
  | From d n => (d ≤ 7 ∧ 1 ≤ n ≤ 7)%N
  | Between a b => (a ≤ b ≤ 7)%N
  | BetweenNth a b n => (a ≤ b ≤ 7 ∧ 1 ≤ n ≤ 7)%N
  end.

(** The crate's documented reading of a weekday field: [fires field day] with
    days 1 (Sunday) to 7. *)
Class CrateWeekdays (fires : string → N → bool) := {
  crate_any : ∀ d, (1 ≤ d ≤ 7)%N → fires "*" d = true;
  crate_single : ∀ n d, (1 ≤ n ≤ 7 ∧ 1 ≤ d ≤ 7)%N → fires (pretty n) d = bool_decide (d = n);
  crate_range : ∀ a b d, (1 ≤ a ≤ b ∧ b ≤ 7 ∧ 1 ≤ d ≤ 7)%N →
    fires (pretty a +:+ "-" +:+ pretty b) d = walks a b 1 d;
  crate_range_step : ∀ a b n d, (1 ≤ a ≤ b ∧ b ≤ 7 ∧ 1 ≤ n ≤ 7 ∧ 1 ≤ d ≤ 7)%N →
    fires (pretty a +:+ "-" +:+ pretty b +:+ "/" +:+ pretty n) d = walks a b n d;
  crate_list : ∀ a b d, fires (a +:+ "," +:+ b) d = fires a d || fires b d
}.

(** ** Reading the items back *)

Lemma posix_day_pretty d : (d ≤ 7)%N → posix_day (pretty d) = Ok d.
Proof.
  intros Hd. unfold posix_day, parse_u32. rewrite parse_unsigned_pretty by (unfold u32_max_N; lia).
  by rewrite bool_decide_true.
Qed.

Lemma parse_step_pretty n : (1 ≤ n ≤ 7)%N → parse_step (pretty n) = Ok n.
Proof.
  intros Hn. unfold parse_step, parse_u32. rewrite parse_unsigned_pretty by (unfold u32_max_N; lia).
  rewrite bool_decide_true by lia. done.
Qed.

(** A base made of digits and dashes is neither a wildcard nor a name. *)
Definition numeric_char (c : ascii) : bool := is_ascii_digit c || bool_decide (c = "-"%char).

Lemma numeric_not_alphabetic c : numeric_char c = true → is_ascii_alphabetic c = false.
Proof. destruct c as [[] [] [] [] [] [] [] []]; vm_compute; congruence. Qed.

Definition numeric (s : string) : bool := forallb numeric_char (String.list_ascii_of_string s).

Lemma numeric_app a b : numeric (a +:+ b) = numeric a && numeric b.
Proof.
  induction a as [|c a IH]; [done|]. change (SCons c a +:+ b) with (SCons c (a +:+ b)).
  unfold numeric in *. simpl. by rewrite IH, andb_assoc.
Qed.

Lemma digits_numeric s : digits_of s = true → numeric s = true.
Proof.
  induction s as [|c s IH]; [done|]. simpl. intros [Hc Hs]%andb_true_iff.
  unfold numeric, numeric_char in *. simpl. by rewrite Hc, IH.
Qed.

Lemma pretty_numeric (x : N) : numeric (pretty x) = true.
Proof.
  destruct (pretty_N_digits x) as (c & s & -> & Hc & Hs). apply digits_numeric. simpl.
  by rewrite Hc, Hs.
Qed.

Lemma numeric_lacks c s : numeric_char c = false → numeric s = true → lacks c s.
Proof.
  intros Hc Hs Hin. unfold numeric in Hs. rewrite forallb_forall in Hs.
  apply list_elem_of_In, Hs in Hin. congruence.
Qed.

Lemma translate_base_numeric item base step :
  numeric base = true →
  translate_base item base step =
  match split_once "-"%char base with
  | Some (start, finish) =>
      let? start := posix_day start in
      let? finish := posix_day finish in
      translate_range item start finish step
  | None =>
      match step with
      | Some _ =>
          let? start := posix_day base in translate_range item start POSIX_SUNDAY_ALIAS step
      | None => let? day := posix_day base in Ok (pretty (crate_day day))
      end
  end.
Proof.
  intros Hn. unfold translate_base.
  rewrite !bool_decide_false by (intros ->; discriminate Hn). simpl.
  destruct (existsb _ _) eqn:He; [|done]. apply existsb_exists in He as (c & Hin & Hc).
  unfold numeric in Hn. rewrite forallb_forall in Hn. apply Hn, numeric_not_alphabetic in Hin. congruence.
Qed.

Section Correct.
Context (fires : string → N → bool) `{!CrateWeekdays fires}.

(** An emitted range with its optional step. *)
Lemma fires_range a b n d :
  (1 ≤ a ≤ b ∧ b ≤ 7 ∧ 1 ≤ n ≤ 7 ∧ 1 ≤ d ≤ 7)%N →
  fires (pretty a +:+ "-" +:+ pretty b +:+ (if bool_decide (n = 1%N) then "" else "/" +:+ pretty n)) d
  = walks a b n d.
Proof.
  intros H. destruct (bool_decide_reflect (n = 1%N)) as [->|Hn].
  - rewrite app_empty_r. apply crate_range. tauto.
  - apply crate_range_step. tauto.
Qed.

Lemma dash_seven x : "-7" +:+ x = "-" +:+ pretty 7%N +:+ x.
Proof. reflexivity. Qed.

Lemma walks_shift a b n d : walks (a + 1) (b + 1) n (d + 1) = walks a b n d.
Proof.
  unfold walks. f_equal; [apply bool_decide_ext; lia|].
  by replace (d + 1 - (a + 1))%N with (d - a)%N by lia.
Qed.

Lemma walks_refl a b n : (a ≤ b ∧ n ≠ 0)%N → walks a b n a = true.
Proof.
  intros [Hab Hn]. unfold walks. rewrite bool_decide_true by lia.
  rewrite N.sub_diag, (N.mod_0_l n) by done. done.
Qed.

Lemma walks_outside a b n d : (d < a ∨ b < d)%N → walks a b n d = false.
Proof. intros. unfold walks. by rewrite bool_decide_false by lia. Qed.

Lemma walks_upto_6 a n d : (d < 7)%N → walks a 7 n d = walks a 6 n d.
Proof. intros. unfold walks. f_equal. apply bool_decide_ext. lia. Qed.

(** A translated range fires on the days its POSIX numbers name. *)
Lemma translate_range_fires item a b step n :
  (a ≤ b ≤ 7 ∧ 1 ≤ n ≤ 7)%N → default 1%N step = n →
  ∃ out, translate_range item a b step = Ok out ∧
  ∀ day, (day < 7)%N →
    fires out (day + 1)%N = walks a b n day || (bool_decide (day = 0%N) && walks a b n 7).
Proof.
  intros (Hab & Hn) Hstep. unfold translate_range, POSIX_SUNDAY_ALIAS, CRATE_SUNDAY. rewrite Hstep.
  rewrite bool_decide_false by lia.
  destruct (bool_decide_reflect (b < 7)%N) as [Hb|Hb].
  { eexists. split; [done|]. intros day Hday. rewrite fires_range by lia.
    rewrite walks_shift, (walks_outside a b n 7) by lia. by rewrite andb_false_r, orb_false_r. }
  assert (b = 7%N) as -> by lia. clear Hb.
  destruct (bool_decide_reflect (a = 0%N)) as [->|Ha].
  { eexists. split; [done|]. intros day Hday.
    rewrite dash_seven, fires_range by lia. change 1%N with (0 + 1)%N at 1.
    change 7%N with (6 + 1)%N at 1. rewrite walks_shift, walks_upto_6 by done.
    destruct (bool_decide_reflect (day = 0%N)) as [->|]; [|by rewrite orb_false_r].
    by rewrite walks_refl by lia. }
  assert (Hland : walks a 7 n 7 = bool_decide ((7 - a) `mod` n = 0)%N).
  { unfold walks. by rewrite bool_decide_true by lia. }
  destruct (bool_decide_reflect (a < 7)%N) as [Ha7|Ha7].
  - destruct (bool_decide ((7 - a) `mod` n = 0)%N) eqn:E; (eexists; split; [done|]); intros day Hday;
      cbn [app join_with]; rewrite dash_seven.
    all: rewrite ?crate_list, fires_range, ?Hland by lia.
    all: change 7%N with (6 + 1)%N at 1; rewrite walks_shift, walks_upto_6 by done.
    all: try rewrite (crate_single 1) by lia.
    all: destruct (bool_decide_reflect (day = 0%N)) as [->|];
      rewrite ?(walks_outside a 6 n 0) by lia; simpl; try done.
    all: try rewrite (bool_decide_false (day + 1 = 1)%N) by lia.
    all: by rewrite !orb_false_r.
  - assert (a = 7%N) as -> by lia. simpl in *.
    eexists. split; [done|]. intros day Hday.
    rewrite crate_single, Hland, (walks_outside 7 7 n day) by lia. simpl.
    rewrite andb_true_r. apply bool_decide_ext. lia.
Qed.

(** Every item is accepted and fires on its own days. *)
Lemma translate_item_fires i :
  item_ok i →
  ∃ out, translate_item (show_item i) = Ok out ∧
  ∀ day, (day < 7)%N → fires out (day + 1)%N = posix_fires i day.
Proof.
  assert (Hdash : ∀ x : N, lacks "-"%char (pretty x)) by (intros; by apply pretty_lacks).
  assert (Hslash : ∀ x : N, lacks "/"%char (pretty x)) by (intros; by apply pretty_lacks).
  assert (Hrange : ∀ a b : N, numeric (pretty a +:+ "-" +:+ pretty b) = true).
  { intros. by rewrite !numeric_app, !pretty_numeric. }
  assert (Hsplit : ∀ a b : N, split_once "-"%char (pretty a +:+ "-" +:+ pretty b)
                          = Some (pretty a, pretty b)) by (intros; by apply split_once_app).
  assert (Hstep : ∀ s (n : N), lacks "/"%char s →
            split_once "/"%char (s +:+ "/" +:+ pretty n) = Some (s, pretty n))
    by (intros; by apply split_once_app).
  assert (Hnone : ∀ s, numeric s = true → split_once "/"%char s = None)
    by (intros; by apply split_once_lacks, numeric_lacks).
  destruct i as [|n|d|d n|a b|a b n]; intros Hok; simpl in Hok; unfold translate_item, show_item.
  - exists "*". split; [done|]. intros day Hday. rewrite crate_any by lia.
    unfold posix_fires, posix_numbers, walks. rewrite N.mod_1_r, bool_decide_true by lia. done.
  - change ("*/" +:+ pretty n) with ("*" +:+ "/" +:+ pretty n).
    rewrite Hstep by (by apply (bool_decide_unpack _)). simpl.
    rewrite parse_step_pretty by done. simpl. eexists. split; [done|]. intros day Hday.
    change ("1-7/" +:+ pretty n) with (pretty 1%N +:+ "-" +:+ pretty 7%N +:+ "/" +:+ pretty n).
    rewrite crate_range_step by lia. unfold posix_fires, posix_numbers.
    change 7%N with (6 + 1)%N at 1. change 1%N with (0 + 1)%N at 1.
    rewrite walks_shift, walks_upto_6 by done.
    destruct (bool_decide_reflect (day = 0%N)) as [->|]; [|by rewrite orb_false_r].
    by rewrite walks_refl by lia.
  - rewrite Hnone, translate_base_numeric by apply pretty_numeric.
    rewrite split_once_lacks, posix_day_pretty by done. simpl. eexists. split; [done|].
    intros day Hday. unfold posix_fires, posix_numbers, crate_day, POSIX_SUNDAY_ALIAS, CRATE_SUNDAY.
    assert (Hw : ∀ m, walks d d 1 m = bool_decide (m = d)).
    { intros m. unfold walks. rewrite N.mod_1_r, andb_true_r. apply bool_decide_ext. lia. }
    rewrite !Hw. repeat (case_bool_decide; simpl); rewrite crate_single by lia; case_bool_decide; lia.
  - rewrite Hstep by done. simpl. rewrite parse_step_pretty by tauto. simpl.
    rewrite translate_base_numeric, split_once_lacks, posix_day_pretty by (done || tauto || apply pretty_numeric).
    apply translate_range_fires; [unfold POSIX_SUNDAY_ALIAS; lia|done].
  - rewrite Hnone, translate_base_numeric, Hsplit by done. simpl.
    rewrite !posix_day_pretty by lia. simpl. apply translate_range_fires; [lia|done].
  - change ("-" +:+ pretty b +:+ "/" +:+ pretty n) with ("-" +:+ (pretty b +:+ "/" +:+ pretty n)).
    replace (pretty a +:+ "-" +:+ pretty b +:+ "/" +:+ pretty n)
      with ((pretty a +:+ "-" +:+ pretty b) +:+ "/" +:+ pretty n).
    2: { clear. induction (pretty a) as [|c s IH]; [done|]. by apply (f_equal (SCons c)). }
    rewrite Hstep by (by apply numeric_lacks). simpl. rewrite parse_step_pretty by lia. simpl.
    rewrite translate_base_numeric, Hsplit by done. simpl.
    rewrite !posix_day_pretty by lia. simpl. apply translate_range_fires; [lia|done].
Qed.

Lemma fires_join l day : l ≠ [] → fires (join_with "," l) day = existsb (λ s, fires s day) l.
Proof.
  induction l as [|a [|b l] IH]; [done| |]; intros _; simpl; [by rewrite orb_false_r|].
  rewrite crate_list. f_equal. by apply IH.
Qed.

(** An item holds no comma. *)
Lemma show_item_no_comma i : lacks ","%char (show_item i).
Proof.
  destruct i; simpl; rewrite ?lacks_app; repeat split; try (by apply pretty_lacks);
    by apply (bool_decide_unpack _).
Qed.

Lemma collect_translated l :
  Forall item_ok l →
  ∃ outs, collect_results (translate_item <$> (show_item <$> l)) = Ok outs ∧ length outs = length l ∧
  ∀ day, (day < 7)%N → existsb (λ s, fires s (day + 1)%N) outs = existsb (λ i, posix_fires i day) l.
Proof.
  induction l as [|i l IH]; intros Hl; [by exists []|].
  apply Forall_cons in Hl as [Hi Hl]. destruct (IH Hl) as (outs & E & Hlen & Hf).
  destruct (translate_item_fires i Hi) as (out & Eo & Ho). exists (out :: outs).
  rewrite !fmap_cons. cbn [collect_results]. rewrite Eo. simpl. rewrite E. simpl. split; [done|]. split; [by rewrite Hlen|].
  intros day Hday. by rewrite Ho, Hf.
Qed.

End Correct.
