(* ===== verification/Schedule.v ===== *)
(** * Schedules and their occurrences

    [crates/tinyflows-schedule/src/schedule.rs], [validation.rs] and [store.rs]
    over the records of [crates/tinyflows-bus/src/schedule]: cron, one-shot and
    fixed-interval schedules, the next run of each, the closest pair of runs, and
    the delivery and delay checks beside them.

    Instants are nanoseconds since the epoch and a wall-clock time is written
    the same way, as [naive_local().and_utc()] does.  The cron crate, the time
    zone database and the parsing of a clock time are third-party code: the
    class [Calendar] holds them, with what they document as [LawfulCalendar].
    Errors are the outermost message of an [anyhow] error. *)

From S2P Require Import Prelude.
From S2P Require Import Json.
From S2P Require Import Text.
From S2P Require Import Weekday.
From Stdlib Require Import Ascii.
From Stdlib Require String.
Local Open Scope Z_scope.

(** ** Records *)

Inductive JobType := JShell | JAgent | JFlow.
Inductive SessionTarget := Isolated | Main | Current.
Inductive DeliveryStatus := Delivered | Suppressed | DFailed | NotRequested.

#[export] Instance JobType_eq_dec : EqDecision JobType.
Proof. solve_decision. Defined.
#[export] Instance SessionTarget_eq_dec : EqDecision SessionTarget.
Proof. solve_decision. Defined.
#[export] Instance DeliveryStatus_eq_dec : EqDecision DeliveryStatus.
Proof. solve_decision. Defined.

Definition job_type_as_str (t : JobType) : string :=
  match t with JShell => "shell" | JAgent => "agent" | JFlow => "flow" end.
Definition job_type_parse (raw : string) : JobType :=
  if eq_ignore_ascii_case raw "agent" then JAgent
  else if eq_ignore_ascii_case raw "flow" then JFlow
  else JShell.

Definition session_target_as_str (t : SessionTarget) : string :=
  match t with Isolated => "isolated" | Main => "main" | Current => "current" end.
Definition session_target_parse (raw : string) : SessionTarget :=
  if eq_ignore_ascii_case raw "main" then Main
  else if eq_ignore_ascii_case raw "current" then Current
  else Isolated.

Definition delivery_status_as_str (s : DeliveryStatus) : string :=
  match s with
  | Delivered => "delivered" | Suppressed => "suppressed"
  | DFailed => "failed" | NotRequested => "not_requested"
  end.
Definition delivery_status_parse (raw : string) : option DeliveryStatus :=
  find_first (λ s, eq_ignore_ascii_case raw (delivery_status_as_str s))
    [Delivered; Suppressed; DFailed; NotRequested].

(** The durable session binding of a channel origin is opaque to the module. *)
Inductive JobOrigin :=
| OriginWeb (thread_id : string) (agent_id : option string)
| OriginChannel (channel reply_target history_key : string)
    (sender thread_id : option string) (channel_session : option value).
#[export] Instance JobOrigin_eq_dec : EqDecision JobOrigin.
Proof. solve_decision. Defined.

Definition kind_str (o : JobOrigin) : string :=
  match o with OriginWeb _ _ => "web" | OriginChannel _ _ _ _ _ _ => "channel" end.

Record ActiveHours := mkActiveHours { ah_start : string; ah_end : string }.
#[export] Instance ActiveHours_eq_dec : EqDecision ActiveHours.
Proof. solve_decision. Defined.

Inductive Schedule :=
| SCron (expr : string) (tz : option string) (active_hours : option ActiveHours)
| SAt (at_ : Z)
| SEvery (every_ms : Z).
#[export] Instance Schedule_eq_dec : EqDecision Schedule.
Proof. solve_decision. Defined.

Definition MODE_NONE : string := "none".
Definition ANNOUNCE : string := "announce".
Definition PROACTIVE : string := "proactive".
Definition ORIGIN : string := "origin".

Record DeliveryConfig := mkDelivery {
  dc_mode : string; dc_channel : option string; dc_to : option string; dc_best_effort : bool
}.
#[export] Instance DeliveryConfig_eq_dec : EqDecision DeliveryConfig.
Proof. solve_decision. Defined.
Definition DeliveryConfig_default : DeliveryConfig := mkDelivery MODE_NONE None None true.

Record JobPolicy := mkPolicy { jp_retries : option N; jp_single_flight : bool }.
#[export] Instance JobPolicy_eq_dec : EqDecision JobPolicy.
Proof. solve_decision. Defined.
Definition JobPolicy_default : JobPolicy := mkPolicy None false.
Definition policy_is_default (p : JobPolicy) : bool := bool_decide (p = JobPolicy_default).

Record CronJob := mkCronJob {
  cj_claim_generation : Z;
  cj_policy : JobPolicy;
  cj_id : string;
  cj_expression : string;
  cj_schedule : Schedule;
  cj_command : string;
  cj_prompt : option string;
  cj_name : option string;
  cj_job_type : JobType;
  cj_session_target : SessionTarget;
  cj_model : option string;
  cj_agent_id : option string;
  cj_enabled : bool;
  cj_delivery : DeliveryConfig;
  cj_delete_after_run : bool;
  cj_created_at : Z;
  cj_next_run : Z;
  cj_last_run : option Z;
  cj_last_status : option string;
  cj_last_output : option string;
  cj_origin : option JobOrigin
}.
#[export] Instance CronJob_eq_dec : EqDecision CronJob.
Proof. solve_decision. Defined.

Definition same_execution_definition (a b : CronJob) : bool :=
  bool_decide (cj_command a = cj_command b)
  && bool_decide (cj_prompt a = cj_prompt b)
  && bool_decide (cj_job_type a = cj_job_type b)
  && bool_decide (cj_session_target a = cj_session_target b)
  && bool_decide (cj_model a = cj_model b)
  && bool_decide (cj_agent_id a = cj_agent_id b)
  && bool_decide (cj_delivery a = cj_delivery b)
  && bool_decide (cj_origin a = cj_origin b)
  && bool_decide (cj_policy a = cj_policy b)
  && bool_decide (cj_delete_after_run a = cj_delete_after_run b).

(** A patch: an absent field leaves the job alone; the nullable ones tell
    clearing from no change. *)
Record CronJobPatch := mkPatch {
  pt_policy : option JobPolicy;
  pt_schedule : option Schedule;
  pt_command : option string;
  pt_prompt : option string;
  pt_name : option string;
  pt_enabled : option bool;
  pt_delivery : option DeliveryConfig;
  pt_model : option string;
  pt_session_target : option SessionTarget;
  pt_delete_after_run : option bool;
  pt_agent_id : option (option string);
  pt_origin : option (option JobOrigin)
}.

Definition check_patch (job : CronJob) (patch : CronJobPatch) : result string unit :=
  if bool_decide (cj_job_type job = JFlow) &&
     match pt_command patch with
     | Some command => negb (bool_decide (command = cj_command job))
     | None => false
     end
  then Err ("Cron job '" +:+ cj_id job +:+ "' fires flow '" +:+ cj_command job +:+
            "'; its command cannot be changed. Remove it and register a schedule job for the other flow instead")
  else Ok tt.

(** ** Bounded run output *)

Definition MAX_CRON_OUTPUT_BYTES : nat := N.to_nat 16384.
Definition TRUNCATED_OUTPUT_MARKER : string :=
  SCons (Ascii.ascii_of_nat 10) "...[truncated]".

(** A byte index is a boundary at the end of the text or where no continuation
    byte starts. *)
Definition is_char_boundary (s : string) (i : nat) : bool :=
  match String.get i s with
  | Some c => negb (bool_decide (0x80 ≤ N_of_ascii c < 0xC0)%N)
  | None => bool_decide (i = String.length s)
  end.

Fixpoint char_cutoff (s : string) (cutoff : nat) : nat :=
  match cutoff with
  | O => O
  | S c => if is_char_boundary s cutoff then cutoff else char_cutoff s c
  end.

Definition truncate_output (bound : nat) (output : string) : string :=
  if (String.length output <=? bound)%nat then output
  else if (bound <=? String.length TRUNCATED_OUTPUT_MARKER)%nat then TRUNCATED_OUTPUT_MARKER
  else String.substring 0 (char_cutoff output (bound - String.length TRUNCATED_OUTPUT_MARKER)) output
       +:+ TRUNCATED_OUTPUT_MARKER.
Definition truncate_cron_output : string → string := truncate_output MAX_CRON_OUTPUT_BYTES.

(** ** Delays and delivery *)

Definition SECOND : Z := 1000000000.
Definition MINUTE : Z := 60 * SECOND.

(** [chrono::Duration::try_seconds] in nanoseconds: bounded by [i64::MAX]
    milliseconds. *)
Definition try_seconds (seconds : Z) : option Z :=
  if bool_decide (Z.abs seconds ≤ i64_max / 1000) then Some (seconds * SECOND) else None.

Definition delay_multiplier (unit_ : string) : option Z :=
  if bool_decide (unit_ = "s") then Some 1
  else if bool_decide (unit_ = "") || bool_decide (unit_ = "m") then Some 60
  else if bool_decide (unit_ = "h") then Some 3600
  else if bool_decide (unit_ = "d") then Some 86400
  else None.

(** The text of a number parse error is the standard library's. *)
Definition parse_human_delay (parse_error : string → string) (input : string) : result string Z :=
  let input := trim input in
  if bool_decide (input = "") then Err "delay must not be empty"
  else
    let '(num, unit_) := span_digits input in
    match parse_unsigned (Z.to_N i64_max) num with
    | None => Err (parse_error num)
    | Some amount =>
        match delay_multiplier unit_ with
        | None => Err ("unsupported delay unit '" +:+ unit_ +:+ "', use s/m/h/d")
        | Some multiplier =>
            let seconds := Z.of_N amount * multiplier in
            if bool_decide (seconds ≤ i64_max) then ok_or (try_seconds seconds) "delay is too large"
            else Err "delay is too large"
        end
    end.

Definition default_delivery (origin : option JobOrigin) : DeliveryConfig :=
  mkDelivery (match origin with Some _ => ORIGIN | None => PROACTIVE end) None None true.

Definition check_origin_requirements (target : SessionTarget) (delivery : DeliveryConfig)
    (origin : option JobOrigin) : result string unit :=
  match origin with
  | Some _ => Ok tt
  | None =>
      if eq_ignore_ascii_case (trim (dc_mode delivery)) ORIGIN then
        Err "delivery mode 'origin' needs the conversation the job is created from; this job has none (use 'proactive' or 'announce')"
      else match target with
      | Current => Err "session_target 'current' needs the conversation the job is created from; this job has none (use 'isolated')"
      | _ => Ok tt
      end
  end.

(** A trimmed field that is not empty. *)
Definition present (field : option string) : option string :=
  match trim <$> field with
  | Some s => if bool_decide (s = "") then None else Some s
  | None => None
  end.

Definition answers_origin (channel to : string) (origin : option JobOrigin) : bool :=
  match origin with
  | Some (OriginChannel original reply_target _ _ _ _) =>
      eq_ignore_ascii_case channel original && bool_decide (to = reply_target)
  | _ => false
  end.

Definition validate_delivery (delivery : DeliveryConfig) (origin : option JobOrigin)
    (allowed_users : option (list string)) : result string unit :=
  let mode := trim (dc_mode delivery) in
  if eq_ignore_ascii_case mode ORIGIN then check_origin_requirements Isolated delivery origin
  else if negb (eq_ignore_ascii_case mode ANNOUNCE) then Ok tt
  else
    let? channel := ok_or (present (dc_channel delivery)) "delivery.channel is required for announce mode" in
    let? to := ok_or (present (dc_to delivery)) "delivery.to is required for announce mode" in
    if answers_origin channel to origin then Ok tt
    else if eq_ignore_ascii_case channel "web" then Ok tt
    else match allowed_users with
    | Some users =>
        if bool_decide (users = []) || bool_decide (to ∈ users) then Ok tt
        else Err ("delivery target '" +:+ to +:+ "' on channel '" +:+ channel +:+
                  "' is not in allowed_users for that channel; refusing to schedule cross-tenant delivery")
    | None => Err ("delivery channel '" +:+ channel +:+ "' is not configured; cannot validate target")
    end.

(** ** Gaps between runs *)

Definition MIN_AGENT_JOB_INTERVAL : Z := 5 * MINUTE.

Inductive TooFrequent :=
| FixedInterval (gap : Z)
| ConsecutiveRuns (first second : Z).

Definition too_frequent_gap (t : TooFrequent) : Z :=
  match t with FixedInterval gap => gap | ConsecutiveRuns first second => second - first end.

Definition count_unit (n : Z) (unit_ : string) : string :=
  if bool_decide (n = 1) then pretty n +:+ " " +:+ unit_ else pretty n +:+ " " +:+ unit_ +:+ "s".

(** Whole seconds, rounded towards zero. *)
Definition describe_gap (gap : Z) : string :=
  let seconds := Z.quot gap SECOND in
  let m := Z.quot seconds 60 in
  let s := Z.rem seconds 60 in
  if bool_decide (m = 0) then count_unit s "second"
  else if bool_decide (s = 0) then count_unit m "minute"
  else count_unit m "minute" +:+ " " +:+ count_unit s "second".

(** ** Calendar *)

Inductive LocalResult := LSingle (at_ : Z) | LAmbiguous (earlier later : Z) | LNone.

Definition earliest (r : LocalResult) : option Z :=
  match r with LSingle t => Some t | LAmbiguous t _ => Some t | LNone => None end.

Class Calendar := {
  cal_cron : Type;
  cal_parse_cron : string → option cal_cron;
  (** The wall-clock times an expression matches after a given one. *)
  cal_after : cal_cron → Z → list Z;
  cal_zone : Type;
  cal_parse_zone : string → option cal_zone;
  cal_local : cal_zone;
  cal_wall : cal_zone → Z → Z;
  cal_from_local : cal_zone → Z → LocalResult;
  (** A [%H:%M] clock time, in minutes. *)
  cal_parse_clock : string → option Z;
  cal_max_utc : Z;
  cal_fmt : Z → string
}.

Definition normalize_expression (expression : string) : result string string :=
  let expression := trim expression in
  let fields := split_whitespace expression in
  match fields with
  | [minute; hour; day; month; weekday] =>
      match posix_to_crate_weekdays weekday with
      | Ok weekday => Ok ("0 " +:+ join_with " " [minute; hour; day; month] +:+ " " +:+ weekday)
      | Err err => Err ("Invalid cron expression: " +:+ expression +:+ " (" +:+ err +:+ ")")
      end
  | [_; _; _; _; _; _] | [_; _; _; _; _; _; _] => Ok expression
  | _ => Err ("Invalid cron expression: " +:+ expression +:+
              " (expected 5, 6, or 7 fields, got " +:+ pretty (length fields) +:+ ")")
  end.

Definition schedule_cron_expression (s : Schedule) : option string :=
  match s with SCron expr _ _ => Some expr | _ => None end.

(** A window of the day in minutes; one that ends before it starts spans
    midnight. *)
Record ActiveWindow := mkWindow { aw_start : Z; aw_end : Z }.

Definition window_contains (w : ActiveWindow) (time : Z) : bool :=
  if bool_decide (aw_start w ≤ aw_end w) then bool_decide (aw_start w ≤ time) && bool_decide (time ≤ aw_end w)
  else bool_decide (aw_start w ≤ time) || bool_decide (time ≤ aw_end w).

Definition ACTIVE_WINDOW_CANDIDATE_LIMIT : nat := N.to_nat 100000.
Definition RUN_GAP_SCAN_OCCURRENCES : nat := N.to_nat 1000.

Section Plans.
Context {Cal : Calendar}.

Definition window_parse (active : ActiveHours) : result string ActiveWindow :=
  let? start := ok_or (cal_parse_clock (ah_start active))
                  ("Invalid active_hours.start: " +:+ ah_start active) in
  let? finish := ok_or (cal_parse_clock (ah_end active))
                  ("Invalid active_hours.end: " +:+ ah_end active) in
  Ok (mkWindow start finish).

Definition window_opt (active : option ActiveHours) : result string (option ActiveWindow) :=
  match active with
  | Some active => let? w := window_parse active in Ok (Some w)
  | None => Ok None
  end.

Inductive ScheduleTimeZone := ZLocal | ZNamed (z : cal_zone).

Definition zone_parse (tz : option string) : result string ScheduleTimeZone :=
  match tz with
  | Some name =>
      let? z := ok_or (cal_parse_zone name) ("Invalid IANA timezone: " +:+ name) in Ok (ZNamed z)
  | None => Ok ZLocal
  end.

Definition zone_of (z : ScheduleTimeZone) : cal_zone :=
  match z with ZLocal => cal_local | ZNamed z => z end.

(** The first valid minute after a wall-clock time that a gap skips. *)
Definition after_gap (z : cal_zone) (wall : Z) : list Z :=
  match list_find is_Some
          ((λ minutes, earliest (cal_from_local z (wall + Z.of_nat minutes * MINUTE))) <$> seq 1 180) with
  | Some (_, Some t) => [t]
  | _ => []
  end.

(** The instants a wall-clock time stands for. *)
Definition instants (z : cal_zone) (wall : Z) : list Z :=
  match cal_from_local z wall with
  | LSingle t => [t]
  | LAmbiguous earlier later => [earlier; later]
  | LNone => after_gap z wall
  end.

Fixpoint first_run_after (z : cal_zone) (from : Z) (walls : list Z) : option Z :=
  match walls with
  | [] => None
  | wall :: rest =>
      match find_first (λ t, bool_decide (from < t)) (instants z wall) with
      | Some t => Some t
      | None => first_run_after z from rest
      end
  end.

Definition next_wall_clock_run (z : cal_zone) (cron : cal_cron) (from : Z) : option Z :=
  first_run_after z from (cal_after cron (cal_wall z from)).

Definition zone_next_after (z : ScheduleTimeZone) (cron : cal_cron) (from : Z) (expr : string)
    : result string Z :=
  ok_or (next_wall_clock_run (zone_of z) cron from) ("No future occurrence for expression: " +:+ expr).

Definition local_time_of_day (z : ScheduleTimeZone) (time : Z) : Z :=
  (cal_wall (zone_of z) time / MINUTE) mod 1440.

Record CronPlan := mkPlan {
  pl_expr : string;
  pl_cron : cal_cron;
  pl_timezone : ScheduleTimeZone;
  pl_window : option ActiveWindow
}.

Definition plan_parse (expr : string) (tz : option string) (active_hours : option ActiveHours)
    : result string CronPlan :=
  let? normalized := normalize_expression expr in
  let? cron := ok_or (cal_parse_cron normalized) ("Invalid cron expression: " +:+ expr) in
  let? timezone := zone_parse tz in
  let? active_window := window_opt active_hours in
  Ok (mkPlan expr cron timezone active_window).

Definition in_window (p : CronPlan) (t : Z) : bool :=
  match pl_window p with
  | Some active => window_contains active (local_time_of_day (pl_timezone p) t)
  | None => true
  end.

(** The candidate budget is both argument and result: it is what the loop
    spends. *)
Fixpoint plan_next_after (p : CronPlan) (from : Z) (budget : nat) : nat * result string Z :=
  match budget with
  | O => (O, Err "No future occurrence found within active hours after 100,000 attempts")
  | S budget =>
      match zone_next_after (pl_timezone p) (pl_cron p) from (pl_expr p) with
      | Err e => (budget, Err e)
      | Ok next_utc =>
          match pl_window p with
          | None => (budget, Ok next_utc)
          | Some active =>
              if window_contains active (local_time_of_day (pl_timezone p) next_utc)
              then (budget, Ok next_utc)
              else plan_next_after p next_utc budget
          end
      end
  end.

Definition next_run_for_schedule (s : Schedule) (from : Z) : result string Z :=
  match s with
  | SCron expr tz active_hours =>
      let? plan := plan_parse expr tz active_hours in
      (plan_next_after plan from ACTIVE_WINDOW_CANDIDATE_LIMIT).2
  | SAt t => Ok t
  | SEvery every_ms =>
      if bool_decide (every_ms = 0) then Err "Invalid schedule: every_ms must be > 0"
      else if bool_decide (i64_max < every_ms) then Err "every_ms is too large"
      else
        let at_ := from + every_ms * 1000000 in
        if bool_decide (at_ ≤ cal_max_utc) then Ok at_ else Err "every_ms overflowed DateTime"
  end.

Definition validate_schedule (s : Schedule) (now : Z) : result string unit :=
  match s with
  | SCron expr tz active_hours =>
      let? _ := normalize_expression expr in
      let? _ := window_opt active_hours in
      let? _ := zone_parse tz in
      let? _ := next_run_for_schedule s now in
      Ok tt
  | SAt t => if bool_decide (t ≤ now) then Err "Invalid schedule: 'at' must be in the future" else Ok tt
  | SEvery every_ms =>
      if bool_decide (every_ms = 0) then Err "Invalid schedule: every_ms must be > 0" else Ok tt
  end.

(** One comparison of the closest-pair scan. *)
Definition keep_closest (min_gap previous next : Z) (closest : option TooFrequent) : option TooFrequent :=
  let gap := next - previous in
  if bool_decide (gap < min_gap) &&
     match closest with Some seen => bool_decide (gap < too_frequent_gap seen) | None => true end
  then Some (ConsecutiveRuns previous next) else closest.

Fixpoint gap_scan (n : nat) (p : CronPlan) (min_gap previous : Z) (budget : nat)
    (closest : option TooFrequent) : option TooFrequent :=
  match n with
  | O => closest
  | S n =>
      match plan_next_after p previous budget with
      | (budget, Ok next) => gap_scan n p min_gap next budget (keep_closest min_gap previous next closest)
      | (_, Err _) => closest
      end
  end.

Definition runs_closer_than (s : Schedule) (from min_gap : Z) : option TooFrequent :=
  match s with
  | SAt _ => None
  | SEvery every_ms =>
      if bool_decide (i64_max < every_ms) then None
      else
        let gap := every_ms * 1000000 in
        if bool_decide (gap < min_gap) then Some (FixedInterval gap) else None
  | SCron expr tz active_hours =>
      match plan_parse expr tz active_hours with
      | Err _ => None
      | Ok plan =>
          match plan_next_after plan from ACTIVE_WINDOW_CANDIDATE_LIMIT with
          | (_, Err _) => None
          | (budget, Ok previous) =>
              gap_scan (RUN_GAP_SCAN_OCCURRENCES - 1) plan min_gap previous budget None
          end
      end
  end.

Definition too_frequent_to_string (t : TooFrequent) : string :=
  match t with
  | FixedInterval gap => "fires every " +:+ describe_gap gap
  | ConsecutiveRuns first second =>
      "fires at " +:+ cal_fmt first +:+ " and again at " +:+ cal_fmt second +:+ ", " +:+
      describe_gap (second - first) +:+ " apart"
  end.

Definition validate_agent_schedule (s : Schedule) (now : Z) : result string unit :=
  let? _ := validate_schedule s now in
  match runs_closer_than s now MIN_AGENT_JOB_INTERVAL with
  | Some too_frequent =>
      Err ("Invalid schedule: agent jobs must run at least " +:+ describe_gap MIN_AGENT_JOB_INTERVAL +:+
           " apart, but this schedule " +:+ too_frequent_to_string too_frequent)
  | None => Ok tt
  end.

End Plans.
