(* ===== verification/CronPort.v ===== *)
(** * Cron jobs and runs as documents

    [crates/tinyflows-drivers/src/schedule/codec.rs]: the bodies of the
    [cron.jobs] and [cron.runs] collections, and the job and run each one holds.

    Instants are nanoseconds since the epoch; a document keeps milliseconds.
    The [Serialize] and [Deserialize] implementations of the nested records and
    the range of chrono's instants are the class [CronWire].  Of an [anyhow]
    error the model keeps what the code inspects: the storage error in its
    chain, if there is one; a context only adds text. *)
From Stdlib Require Import Ascii.
From Stdlib Require String.
From S2P Require Import Prelude Json StorageKey Repo Schedule.

Local Open Scope Z_scope.

(** ** Errors *)

Inductive CronError :=
| CStorage (e : StorageError)
| CMessage (message : string)
| CPanic.

Notation CronResult := (result CronError).

Definition storage_error {A} (r : StoreResult A) : CronResult A :=
  match r with Ok a => Ok a | Err e => Err (CStorage e) end.

Definition job_not_found (job_id : string) : CronError :=
  CMessage ("Cron job '" +:+ job_id +:+ "' not found").

(** ** What the codec is given *)

Class CronWire := {
  valid_ms : Z → bool;
  ser_schedule : Schedule → value;
  de_schedule : value → option Schedule;
  ser_delivery : DeliveryConfig → value;
  de_delivery : value → option DeliveryConfig;
  ser_origin : JobOrigin → value;
  de_origin : value → option JobOrigin;
  ser_policy : JobPolicy → value;
  de_policy : value → option JobPolicy
}.

(** [serde] reads back what it wrote, and writes the variant of a schedule as
    its [kind]. *)
Class LawfulWire `{!CronWire} := {
  schedule_kind s : get "kind" (ser_schedule s) =
    Some (Str match s with SCron _ _ _ => "cron" | SAt _ => "at" | SEvery _ => "every" end);
  de_ser_schedule s : de_schedule (ser_schedule s) = Some s;
  de_ser_delivery d : de_delivery (ser_delivery d) = Some d;
  de_ser_origin o : de_origin (ser_origin o) = Some o;
  de_ser_policy p : de_policy (ser_policy p) = Some p
}.

(** ** Fields *)

Definition text (doc : value) (field : string) : option string := get field doc >>? as_str.

Definition optional (doc : value) (field : string) : CronResult (option string) :=
  match get field doc with
  | None => Ok None
  | Some (Str s) => Ok (Some s)
  | Some _ => Err (CMessage ("cron store: `" +:+ field +:+ "` is not a string"))
  end.

Definition required (doc : value) (field : string) : CronResult string :=
  let? found := optional doc field in
  match found with
  | Some s => Ok s
  | None => Err (CMessage ("cron store: document has no `" +:+ field +:+ "`"))
  end.

Definition integer (doc : value) (field : string) : CronResult (option Z) :=
  match get field doc with
  | None => Ok None
  | Some v =>
      match as_i64 v with
      | Some n => Ok (Some n)
      | None => Err (CMessage ("cron store: `" +:+ field +:+ "` is not an integer"))
      end
  end.

Definition bool_field (doc : value) (field : string) : CronResult bool :=
  match get field doc with
  | None => Ok false
  | Some (Bool b) => Ok b
  | Some _ => Err (CMessage ("cron store: `" +:+ field +:+ "` is not a boolean"))
  end.

Definition stored_job_type (raw : string) : CronResult JobType :=
  match find_first (λ known, bool_decide (job_type_as_str known = raw)) [JShell; JAgent; JFlow] with
  | Some t => Ok t
  | None => Err (CMessage ("cron store: unknown job type `" +:+ raw +:+ "`"))
  end.

Definition INCARNATION : string := "incarnation".
Definition incarnation (doc : value) : option string := text doc INCARNATION.

(** [timestamp_millis] rounds towards the past. *)
Definition MILLI : Z := 1000000.
Definition timestamp_millis (instant : Z) : Z := instant / MILLI.

(** [set]: an absent value removes the field. *)
Definition set_opt (doc : list (string * value)) (field : string) (v : option value)
    : list (string * value) :=
  match v with Some v => obj_insert field v doc | None => obj_remove field doc end.

Definition set_next_run (doc : list (string * value)) (next_run : Z) : list (string * value) :=
  obj_insert "next_run_ms" (value_of_i64 (timestamp_millis next_run)) doc.

Definition set_last_run (doc : list (string * value)) (finished_at : Z) (success : bool)
    (output : string) : list (string * value) :=
  obj_insert "last_output" (Str output)
    (obj_insert "last_status" (Str (if success then "ok" else "error"))
       (obj_insert "last_run_ms" (value_of_i64 (timestamp_millis finished_at)) doc)).

(** ** Jobs *)

Section Codec.
Context `{!CronWire}.

Definition from_ms (ms : Z) : CronResult Z :=
  if valid_ms ms then Ok (ms * MILLI)
  else Err (CMessage ("cron store: " +:+ pretty ms +:+ " is not a valid instant")).

Definition schedule_to_value (s : Schedule) : value :=
  match s with
  | SAt at_ => json_object [("kind", Str "at"); ("at_ms", value_of_i64 (timestamp_millis at_))]
  | _ => ser_schedule s
  end.

Definition schedule_from_value (v : value) : CronResult Schedule :=
  if decide (text v "kind" = Some "at") then
    let? ms := integer v "at_ms" in
    match ms with
    | Some ms => let? at_ := from_ms ms in Ok (SAt at_)
    | None => Err (CMessage "cron schedule has no `at_ms`")
    end
  else
    match de_schedule v with
    | Some s => Ok s
    | None => Err (CMessage "Failed to parse cron schedule")
    end.

Definition job_to_doc (job : CronJob) : value :=
  let doc := obj_insert "claim_generation" (Number (PosInt (cj_claim_generation job))) [] in
  let doc := if policy_is_default (cj_policy job) then doc
             else obj_insert "policy" (ser_policy (cj_policy job)) doc in
  let doc := obj_insert "expression" (Str (cj_expression job)) doc in
  let doc := obj_insert "command" (Str (cj_command job)) doc in
  let doc := obj_insert "schedule" (schedule_to_value (cj_schedule job)) doc in
  let doc := obj_insert "job_type" (Str (job_type_as_str (cj_job_type job))) doc in
  let doc := obj_insert "session_target" (Str (session_target_as_str (cj_session_target job))) doc in
  let doc := obj_insert "enabled" (Bool (cj_enabled job)) doc in
  let doc := obj_insert "delivery" (ser_delivery (cj_delivery job)) doc in
  let doc := obj_insert "delete_after_run" (Bool (cj_delete_after_run job)) doc in
  let doc := set_next_run doc (cj_next_run job) in
  let doc := set_opt doc "prompt" (Str <$> cj_prompt job) in
  let doc := set_opt doc "name" (Str <$> cj_name job) in
  let doc := set_opt doc "model" (Str <$> cj_model job) in
  let doc := set_opt doc "agent_id" (Str <$> cj_agent_id job) in
  let doc := set_opt doc "origin" (ser_origin <$> cj_origin job) in
  let doc := set_opt doc "last_run_ms" ((λ at_, value_of_i64 (timestamp_millis at_)) <$> cj_last_run job) in
  let doc := set_opt doc "last_status" (Str <$> cj_last_status job) in
  Object (set_opt doc "last_output" (Str <$> cj_last_output job)).

Definition job_created_ms (doc : value) (metadata_created_ms : Z) : CronResult Z :=
  let? found := integer doc "created_ms" in Ok (default metadata_created_ms found).

(** [from_value] of an optional field that defaults when absent. *)
Definition parsed_or {A} (v : option value) (parse : value → option A) (default_ : A) (message : string)
    : CronResult A :=
  match v with
  | None => Ok default_
  | Some v => match parse v with Some a => Ok a | None => Err (CMessage message) end
  end.

Definition doc_to_job (stored : Versioned value) : CronResult CronJob :=
  let doc := ver_doc stored in
  let? raw := match get "schedule" doc with
              | Some raw => Ok raw
              | None => Err (CMessage "cron store: document has no `schedule`")
              end in
  let? schedule := schedule_from_value raw in
  let? delivery := parsed_or (get "delivery" doc) de_delivery DeliveryConfig_default
                     "Failed to parse cron delivery" in
  let? origin := parsed_or (get "origin" doc) (λ v, Some <$> de_origin v) None
                   "Failed to parse cron origin" in
  let? claim_generation := parsed_or (get "claim_generation" doc) as_u64 0 "invalid claim generation" in
  let? policy := parsed_or (get "policy" doc) de_policy JobPolicy_default "invalid policy" in
  let? expression := required doc "expression" in
  let? command := required doc "command" in
  let? prompt := optional doc "prompt" in
  let? name := optional doc "name" in
  let? raw_type := required doc "job_type" in
  let? job_type := stored_job_type raw_type in
  let? target := optional doc "session_target" in
  let? model := optional doc "model" in
  let? agent_id := optional doc "agent_id" in
  let? enabled := bool_field doc "enabled" in
  let? delete_after_run := bool_field doc "delete_after_run" in
  let? created_ms := job_created_ms doc (meta_created_ms (ver_meta stored)) in
  let? created_at := from_ms created_ms in
  let? next_ms := integer doc "next_run_ms" in
  let? next_run := match next_ms with
                   | Some ms => from_ms ms
                   | None => Err (CMessage "cron store: document has no `next_run_ms`")
                   end in
  let? last_ms := integer doc "last_run_ms" in
  let? last_run := match last_ms with
                   | Some ms => let? at_ := from_ms ms in Ok (Some at_)
                   | None => Ok None
                   end in
  let? last_status := optional doc "last_status" in
  let? last_output := optional doc "last_output" in
  Ok (mkCronJob claim_generation policy (ver_id stored) expression schedule command prompt name
        job_type (session_target_parse (default "isolated" target)) model agent_id enabled delivery
        delete_after_run created_at next_run last_run last_status last_output origin).
End Codec.

(** ** Runs *)

Record CronRun := mkCronRun {
  cr_id : Z;
  cr_job_id : string;
  cr_run_id : option string;
  cr_started_at : Z;
  cr_finished_at : Z;
  cr_status : string;
  cr_output : option string;
  cr_duration_ms : option Z;
  cr_delivery_status : option DeliveryStatus
}.

(** [format!("{seq:020}")]: the sign first, then zeros up to twenty characters. *)
Fixpoint zeros (n : nat) : string :=
  match n with O => "" | S n => String.String "0" (zeros n) end.
Definition cron_run_id (seq : Z) : string :=
  let digits := pretty (Z.to_N (Z.abs seq)) in
  let sign := if decide (seq < 0) then "-" else "" in
  sign +:+ zeros (20 - String.length sign - String.length digits) +:+ digits.

Definition run_to_doc (seq : Z) (job_id : string) (run_id_ incarnation_ : option string)
    (started_at finished_at : Z) (status : string) (output : option string) (duration_ms : Z)
    (delivery_status : option DeliveryStatus) : value :=
  let doc := obj_insert "seq" (value_of_i64 seq) [] in
  let doc := obj_insert "job_id" (Str job_id) doc in
  let doc := set_opt doc "run_id" (Str <$> run_id_) in
  let doc := obj_insert "started_ms" (value_of_i64 (timestamp_millis started_at)) doc in
  let doc := obj_insert "finished_ms" (value_of_i64 (timestamp_millis finished_at)) doc in
  let doc := obj_insert "status" (Str status) doc in
  let doc := obj_insert "duration_ms" (value_of_i64 duration_ms) doc in
  let doc := set_opt doc INCARNATION (Str <$> incarnation_) in
  let doc := set_opt doc "output" (Str <$> output) in
  Object (set_opt doc "delivery_status" ((λ s, Str (delivery_status_as_str s)) <$> delivery_status)).

Section RunCodec.
Context `{!CronWire}.

Definition run_instant (doc : value) (field : string) : CronResult Z :=
  let? ms := integer doc field in
  match ms with
  | Some ms => from_ms ms
  | None => Err (CMessage ("cron store: run has no `" +:+ field +:+ "`"))
  end.

Definition doc_to_run (stored : Versioned value) : CronResult CronRun :=
  let doc := ver_doc stored in
  let? seq := integer doc "seq" in
  let? id := match seq with
             | Some id => Ok id
             | None => Err (CMessage "cron store: run document has no `seq`")
             end in
  let? job_id := required doc "job_id" in
  let? invocation := optional doc "run_id" in
  let? started_at := run_instant doc "started_ms" in
  let? finished_at := run_instant doc "finished_ms" in
  let? status := required doc "status" in
  let? output := optional doc "output" in
  let? duration_ms := integer doc "duration_ms" in
  let? delivery_status := optional doc "delivery_status" in
  Ok (mkCronRun id job_id invocation started_at finished_at status output duration_ms
        (delivery_status >>? delivery_status_parse)).
End RunCodec.

(** * The storage port of the cron store, and programs over it

    [crates/tinyflows-drivers/src/schedule] talks to a document store with
    queries and atomic batches.  The store is another repository's: [CronPort]
    holds the operations the code calls beside those of [DocumentStore], and
    [LawfulPort] what it relies on, over [content], the documents the store
    really has whether or not a call for them succeeds.

    An operation of the cron store is a [Cron] program: it threads the store and
    the number of calls made so far, and may fail.  Before each call of the port
    the other writers act ([env]); the clock and the random ids are read from the
    same count.  [triple] is the program logic the theorems use: its assertions
    have to hold whatever the other writers do ([stable]). *)

Local Close Scope Z_scope.

(** ** Batches and queries *)

Inductive WriteOp :=
| WPut (collection id : string) (doc : value) (precondition : Precondition)
| WDelete (collection id : string) (precondition : Precondition).

Inductive WriteResult := ResPut (version : N) | ResDelete (removed : bool).

Definition op_target (op : WriteOp) : string * string :=
  match op with WPut c i _ _ | WDelete c i _ => (c, i) end.
Definition op_pre (op : WriteOp) : Precondition :=
  match op with WPut _ _ _ p | WDelete _ _ p => p end.

Inductive Filter :=
| FEq (field : string) (v : value)
| FNe (field : string) (v : value)
| FLte (field : string) (v : value)
| FExists (field : string) (present : bool)
| FAnd (a b : Filter).

Record Query := mkQuery {
  q_filter : option Filter;
  q_sort : list (string * bool);
  q_limit : option nat
}.
Definition Query_all : Query := mkQuery None [] None.

Class CronPort (D : Type) := {
  transactions : bool;
  ensure_collection : string → D → D * StoreResult unit;
  atomic_batch : list WriteOp → D → D * StoreResult (list WriteResult);
  query_all : string → Query → D → StoreResult (list (Versioned value));
  doc_count : string → Filter → D → StoreResult N;
  delete_where : string → Filter → D → D * StoreResult N
}.

(** [Versioned::unchanged]. *)
Definition unchanged {T} (d : Versioned T) : Precondition := PreVersion (ver_version d).

(** A write, deletion or batch that answers an error changed nothing: like
    [LawfulDocs], these laws leave out errors after which a write may have taken
    effect all the same.  [delete_where] may have deleted part of what it selects. *)
Class LawfulPort (D : Type) `{!DocumentStore D} `{!CronPort D} := {
  content : D → string → string → option (Versioned value);
  (** Whether a document is one a filter selects. *)
  selects : Filter → string → value → bool;
  content_id s c i d : content s c i = Some d → ver_id d = i;
  get_law c i s r : doc_get c i s = Ok r → r = content s c i;
  put_law c i body p o s s' r : doc_put_with c i body p o s = (s', r) →
    match r with
    | Ok v => holds p (content s c i) ∧
        (∃ d, content s' c i = Some d ∧ ver_doc d = body ∧ ver_version d = v ∧
              ∀ d0, content s c i = Some d0 → (ver_version d0 < ver_version d)%N) ∧
        ∀ c' i', (c', i') ≠ (c, i) → content s' c' i' = content s c' i'
    | Err _ => content s' = content s
    end;
  delete_law c i p s s' r : doc_delete c i p s = (s', r) →
    match r with
    | Ok _ => holds p (content s c i) ∧ content s' c i = None ∧
        ∀ c' i', (c', i') ≠ (c, i) → content s' c' i' = content s c' i'
    | Err _ => content s' = content s
    end;
  batch_law ops s s' r : atomic_batch ops s = (s', r) →
    match r with
    | Ok rs =>
        (∀ op, op ∈ ops → holds (op_pre op) (content s (op_target op).1 (op_target op).2)) ∧
        (∀ c i, (∀ op, op ∈ ops → op_target op ≠ (c, i)) → content s' c i = content s c i) ∧
        (∀ op, op ∈ ops → (∀ op', op' ∈ ops → op_target op' = op_target op → op' = op) →
          match op with
          | WPut c i doc _ => ∃ d, content s' c i = Some d ∧ ver_doc d = doc ∧
              ∀ d0, content s c i = Some d0 → (ver_version d0 < ver_version d)%N
          | WDelete c i _ => content s' c i = None
          end) ∧
        Forall2 (λ op r, match op, r with
                         | WPut _ _ _ _, ResPut _ => True
                         | WDelete c i _, ResDelete removed => removed = bool_decide (is_Some (content s c i))
                         | _, _ => False
                         end) ops rs
    | Err _ => content s' = content s
    end;
  query_law c q s rows : query_all c q s = Ok rows →
    (∀ row, row ∈ rows → content s c (ver_id row) = Some row) ∧ NoDup (ver_id <$> rows) ∧
    (q = Query_all → ∀ i d, content s c i = Some d → d ∈ rows);
  delete_where_law c f s s' r : delete_where c f s = (s', r) →
    (∀ c' i, c' ≠ c → content s' c' i = content s c' i) ∧
    ∀ i, content s' c i = content s c i ∨
         content s' c i = None ∧ ∃ d, content s c i = Some d ∧ selects f i (ver_doc d) = true;
  ensure_law c s s' r : ensure_collection c s = (s', r) → content s' = content s;
  selects_and f g i d : selects (FAnd f g) i d = selects f i d && selects g i d;
  selects_eq field v i d : field ≠ "_id" → selects (FEq field v) i d = bool_decide (get field d = Some v);
  selects_absent field i d : selects (FExists field false) i d = bool_decide (get field d = None)
}.

(** ** Programs *)

Record World (D : Type) := mkWorld {
  w_env : Interference D;
  w_clock : nat → Z;
  w_uuid : nat → string
}.
Arguments mkWorld {D}.
Arguments w_env {D}.
Arguments w_clock {D}.
Arguments w_uuid {D}.

Section Programs.
Context {D : Type} `{!DocumentStore D} `{!CronPort D} (w : World D).

Definition Cron (A : Type) : Type := nat → D → nat * D * CronResult A.

Definition cret {A} (a : A) : Cron A := λ k s, (k, s, Ok a).
Definition cfail {A} (e : CronError) : Cron A := λ k s, (k, s, Err e).
Definition cbind {A B} (m : Cron A) (f : A → Cron B) : Cron B := λ k s,
  match m k s with
  | (k1, s1, Ok a) => f a k1 s1
  | (k1, s1, Err e) => (k1, s1, Err e)
  end.
Definition clift {A} (r : CronResult A) : Cron A := λ k s, (k, s, r).

(** The outcome of a program as a value: [match m.await { Ok .. Err .. }]. *)
Definition catch {A} (m : Cron A) : Cron (CronResult A) := λ k s,
  let '(k1, s1, r) := m k s in (k1, s1, Ok r).

Definition call_read {A} (f : D → StoreResult A) : Cron A := λ k s,
  let s1 := w_env w k s in (S k, s1, storage_error (f s1)).
Definition call_write {A} (f : D → D * StoreResult A) : Cron A := λ k s,
  let '(s1, r) := f (w_env w k s) in (S k, s1, storage_error r).

(** A routine of the storage crate that makes up to [calls] calls of its own. *)
Definition call_many {A} (calls : nat) (f : Interference D → D → D * StoreResult A) : Cron A := λ k s,
  let '(s1, r) := f (λ j, w_env w (k + j)) s in (k + calls, s1, storage_error r).

Definition utc_now : Cron Z := λ k s, (S k, s, Ok (w_clock w k)).
Definition new_uuid : Cron string := λ k s, (S k, s, Ok (w_uuid w k)).

(** [for _ in 0..n { .. } bail!(..)]: [None] is [continue]. *)
Fixpoint retry_loop {A} (n : nat) (body : Cron (option A)) (exhausted : CronError) : Cron A :=
  match n with
  | 0 => cfail exhausted
  | S n => cbind body (λ r, match r with Some a => cret a | None => retry_loop n body exhausted end)
  end.

(** [for x in l]. *)
Fixpoint for_each {A} (l : list A) (body : A → Cron unit) : Cron unit :=
  match l with
  | [] => cret tt
  | x :: l => cbind (body x) (λ _, for_each l body)
  end.

(** [iter().map(f).collect::<Result<Vec<_>>>()]. *)
Fixpoint collect_all {A B} (f : A → CronResult B) (l : list A) : CronResult (list B) :=
  match l with
  | [] => Ok []
  | x :: l => let? y := f x in let? ys := collect_all f l in Ok (y :: ys)
  end.
End Programs.

Notation "'let!' x := m 'in' k" := (cbind m (λ x, k))
  (at level 200, x binder, m at level 100, k at level 200, right associativity) : tf_scope.

(** ** The logic *)

Section Logic.
Context {D : Type} `{!DocumentStore D} `{!CronPort D} (w : World D).

Definition triple {A} (P : D → Prop) (m : Cron (D := D) A) (Q : CronResult A → D → Prop) : Prop :=
  ∀ k s, P s → let '(_, s', r) := m k s in Q r s'.

Definition stable (P : D → Prop) : Prop := ∀ k s, P s → P (w_env w k s).

Lemma triple_run {A} P (m : Cron A) Q k s k' s' r :
  triple P m Q → P s → m k s = (k', s', r) → Q r s'.
Proof. intros H HP E. specialize (H k s HP). by rewrite E in H. Qed.

Lemma triple_conseq {A} P P' (m : Cron A) Q Q' :
  triple P' m Q' → (∀ s, P s → P' s) → (∀ r s, Q' r s → Q r s) → triple P m Q.
Proof.
  intros H HP HQ k s Hs. specialize (H k s (HP s Hs)). destruct (m k s) as [[k' s'] r]. by apply HQ.
Qed.

Lemma triple_ret {A} P (a : A) Q : (∀ s, P s → Q (Ok a) s) → triple P (cret a) Q.
Proof. intros H k s Hs. by apply H. Qed.
Lemma triple_fail {A} P e (Q : CronResult A → D → Prop) :
  (∀ s, P s → Q (Err e) s) → triple P (cfail e) Q.
Proof. intros H k s Hs. by apply H. Qed.
Lemma triple_lift {A} P (r : CronResult A) Q : (∀ s, P s → Q r s) → triple P (clift r) Q.
Proof. intros H k s Hs. by apply H. Qed.

Lemma triple_bind {A B} P (m : Cron A) (f : A → Cron B) (R : A → D → Prop) Q :
  triple P m (λ r s, match r with Ok a => R a s | Err e => Q (Err e) s end) →
  (∀ a, triple (R a) (f a) Q) → triple P (cbind m f) Q.
Proof.
  intros Hm Hf k s Hs. specialize (Hm k s Hs). unfold cbind.
  destruct (m k s) as [[k1 s1] [a|e]]; [|done]. by apply Hf.
Qed.

Lemma triple_catch {A} P (m : Cron A) Q :
  triple P m (λ r s, Q (Ok r) s) → triple P (catch m) Q.
Proof. intros H k s Hs. specialize (H k s Hs). unfold catch. by destruct (m k s) as [[k1 s1] r]. Qed.

Lemma triple_read {A} P (f : D → StoreResult A) Q :
  stable P → (∀ s, P s → Q (storage_error (f s)) s) → triple P (call_read w f) Q.
Proof. intros HP H k s Hs. apply H, HP, Hs. Qed.

Lemma triple_write {A} P (f : D → D * StoreResult A) Q :
  stable P → (∀ s s' r, P s → f s = (s', r) → Q (storage_error r) s') → triple P (call_write w f) Q.
Proof.
  intros HP H k s Hs. unfold call_write. destruct (f (w_env w k s)) as [s1 r] eqn:E.
  exact (H _ _ _ (HP _ _ Hs) E).
Qed.

Lemma triple_now P Q : (∀ t s, P s → Q (Ok t) s) → triple P (utc_now w) Q.
Proof. intros H k s Hs. by apply H. Qed.
Lemma triple_uuid P Q : (∀ u s, P s → Q (Ok u) s) → triple P (new_uuid w) Q.
Proof. intros H k s Hs. by apply H. Qed.

Lemma triple_loop {A} I (body : Cron (option A)) exhausted Q n :
  triple I body (λ r s, match r with
                        | Ok None => I s
                        | Ok (Some a) => Q (Ok a) s
                        | Err e => Q (Err e) s
                        end) →
  (∀ s, I s → Q (Err exhausted) s) → triple I (retry_loop n body exhausted) Q.
Proof.
  intros Hb He. induction n as [|n IH]; cbn; [by apply triple_fail|].
  eapply (triple_bind _ _ _ (λ r s, match r with Some a => Q (Ok a) s | None => I s end)).
  - eapply triple_conseq; [exact Hb|done|]. by intros [[?|]|?].
  - intros [a|]; [by apply triple_ret|done].
Qed.

Lemma triple_for {A} (I : D → Prop) (l : list A) body Q :
  (∀ x, x ∈ l → triple I (body x) (λ r s, match r with Ok _ => I s | Err e => Q (Err e) s end)) →
  (∀ s, I s → Q (Ok tt) s) → triple I (for_each l body) Q.
Proof.
  intros Hb He. induction l as [|x l IH]; cbn; [by apply triple_ret|].
  eapply (triple_bind _ _ _ (λ _, I)); [apply Hb; set_solver|].
  intros _. apply IH. intros y Hy. apply Hb. set_solver.
Qed.

(** A program that leaves an assertion alone. *)
Definition keeps {A} (P : D → Prop) (m : Cron (D := D) A) : Prop := triple P m (λ _ s, P s).

Lemma keeps_ret {A} P (a : A) : keeps P (cret a). Proof. by apply triple_ret. Qed.
Lemma keeps_fail {A} P e : keeps P (cfail (A := A) e). Proof. by apply triple_fail. Qed.
Lemma keeps_lift {A} P (r : CronResult A) : keeps P (clift r). Proof. by apply triple_lift. Qed.
Lemma keeps_bind {A B} P (m : Cron A) (f : A → Cron B) :
  keeps P m → (∀ a, keeps P (f a)) → keeps P (cbind m f).
Proof.
  intros Hm Hf. eapply triple_bind; [|exact Hf].
  eapply triple_conseq; [exact Hm|done|]. by intros [?|?].
Qed.
Lemma keeps_catch {A} P (m : Cron A) : keeps P m → keeps P (catch m).
Proof. intros H. by apply triple_catch. Qed.
Lemma keeps_read {A} P (f : D → StoreResult A) : stable P → keeps P (call_read w f).
Proof. intros H. by apply triple_read. Qed.
Lemma keeps_write {A} P (f : D → D * StoreResult A) :
  stable P → (∀ s s' r, P s → f s = (s', r) → P s') → keeps P (call_write w f).
Proof. intros H Hf. apply triple_write; [done|eauto]. Qed.
Lemma keeps_now P : keeps P (utc_now w). Proof. by apply triple_now. Qed.
Lemma keeps_uuid P : keeps P (new_uuid w). Proof. by apply triple_uuid. Qed.
Lemma keeps_loop {A} P (body : Cron (option A)) e n : keeps P body → keeps P (retry_loop n body e).
Proof.
  intros H. apply triple_loop; [|done].
  eapply triple_conseq; [exact H|done|]. by intros [[?|]|?].
Qed.
Lemma keeps_for {A} P (l : list A) body : (∀ x, keeps P (body x)) → keeps P (for_each l body).
Proof.
  intros H. apply triple_for; [|done]. intros x _.
  eapply triple_conseq; [apply H|done|]. by intros [?|?].
Qed.
End Logic.

#[export] Hint Resolve keeps_ret keeps_fail keeps_lift keeps_bind keeps_catch keeps_read keeps_now
  keeps_uuid keeps_loop keeps_for : cron.
