(* ===== verification/ScheduleFacts.v ===== *)
(** * Facts about schedules

    The candidate walk behind the next run, its exactness in a zone with a fixed
    offset, the closest pair of a scan, delays and bounded output. *)

From stdpp Require Import sorting.
From S2P Require Import Prelude.
From S2P Require Import Json.
From S2P Require Import Text.
From S2P Require Import Weekday.
From S2P Require Import Schedule.
From Stdlib Require Import Ascii.
From Stdlib Require String.
Local Open Scope Z_scope.

(** ** What the cron crate and a fixed-offset zone document *)

(** An expression's upcoming times are its matches, in order. *)
Class LawfulCron `{Cal : Calendar} (matches : cal_cron → Z → Prop) := {
  after_elem : ∀ c w t, t ∈ cal_after c w ↔ matches c t ∧ w < t;
  after_sorted : ∀ c w, StronglySorted Z.lt (cal_after c w)
}.

Definition fixed_zone `{Calendar} (z : cal_zone) (offset : Z) : Prop :=
  (∀ t, cal_wall z t = t + offset) ∧ (∀ w, cal_from_local z w = LSingle (w - offset)).

Section Walk.
Context `{Cal : Calendar}.
Implicit Types p : CronPlan.

Lemma first_run_after_gt z from walls t : first_run_after z from walls = Some t → from < t.
Proof.
  induction walls as [|w walls IH]; [done|]. simpl.
  destruct (find_first _ _) as [u|] eqn:E; [|done]. intros [= ->].
  apply find_first_Some in E as [_ Hp]. by apply bool_decide_eq_true in Hp.
Qed.

(** The next candidate of a plan, whatever the window. *)
Definition candidate (p : CronPlan) (from : Z) : option Z :=
  next_wall_clock_run (zone_of (pl_timezone p)) (pl_cron p) from.

Lemma candidate_gt p from t : candidate p from = Some t → from < t.
Proof. apply first_run_after_gt. Qed.

(** The first candidate inside the window after at most [k] candidates outside
    it. *)
Inductive first_in_window (p : CronPlan) : nat → Z → Z → Prop :=
| first_here k from t :
    candidate p from = Some t → in_window p t = true → first_in_window p (S k) from t
| first_later k from u t :
    candidate p from = Some u → in_window p u = false →
    first_in_window p k u t → first_in_window p (S k) from t.

Lemma plan_next_after_first p budget : ∀ from t,
  (plan_next_after p from budget).2 = Ok t ↔ first_in_window p budget from t.
Proof.
  induction budget as [|budget IH]; intros from t.
  { split; [done|]. by inversion 1. }
  cbn [plan_next_after]. unfold zone_next_after.
  change (next_wall_clock_run (zone_of (pl_timezone p)) (pl_cron p) from) with (candidate p from).
  destruct (candidate p from) as [u|] eqn:Ec; simpl.
  2: { split; [done|]. inversion 1; congruence. }
  assert (Hw : in_window p u = match pl_window p with
     | Some a => window_contains a (local_time_of_day (pl_timezone p) u) | None => true end) by done.
  destruct (pl_window p) as [a|] eqn:Ew.
  - destruct (window_contains a _) eqn:Ea; simpl.
    + split; [intros [= ->]; by constructor|]. inversion 1; congruence.
    + rewrite IH. split; [by intros ?; eapply first_later|]. inversion 1; congruence.
  - simpl. split; [intros [= ->]; by constructor|]. inversion 1; congruence.
Qed.

Lemma first_in_window_spec p k from t :
  first_in_window p k from t → from < t ∧ in_window p t = true.
Proof.
  induction 1 as [k from t Hc|k from u t Hc _ _ IH].
  - split; [by eapply candidate_gt|done].
  - apply candidate_gt in Hc. split; [lia|tauto].
Qed.

Lemma plan_next_after_gt p from budget t :
  (plan_next_after p from budget).2 = Ok t → from < t ∧ in_window p t = true.
Proof. rewrite plan_next_after_first. apply first_in_window_spec. Qed.

(** The budget only shrinks, and by at least one when a run is found. *)
Lemma plan_next_after_budget p budget : ∀ from, ((plan_next_after p from budget).1 ≤ budget)%nat.
Proof.
  induction budget as [|budget IH]; intros from; [done|]. cbn [plan_next_after].
  destruct (zone_next_after _ _ _ _) as [u|]; simpl; [|lia].
  destruct (pl_window p); simpl; [|lia]. destruct (window_contains _ _); simpl; [lia|].
  specialize (IH u). lia.
Qed.

(** ** Exactness in a zone with a fixed offset *)

Section Fixed.
Context (matches : cal_cron → Z → Prop) `{!LawfulCron matches}.
Context (p : CronPlan) (offset : Z) (Hzone : fixed_zone (zone_of (pl_timezone p)) offset).

(** An instant at which the expression matches on the wall clock. *)
Definition occurs (t : Z) : Prop := matches (pl_cron p) (t + offset).

Lemma first_run_after_fixed from walls :
  first_run_after (zone_of (pl_timezone p)) from walls =
  (λ w, w - offset) <$> find_first (λ w, bool_decide (from < w - offset)) walls.
Proof.
  destruct Hzone as [_ Hl]. induction walls as [|w walls IH]; [done|]. cbn [first_run_after].
  unfold instants. rewrite Hl, !find_first_cons. case_bool_decide; [done|]. exact IH.
Qed.

(** The candidate is the earliest occurrence after an instant. *)
Lemma candidate_fixed from t :
  candidate p from = Some t ↔ from < t ∧ occurs t ∧ ∀ u, from < u → occurs u → t ≤ u.
Proof.
  destruct Hzone as [Hw _]. unfold candidate, next_wall_clock_run. rewrite first_run_after_fixed, Hw.
  set (l := cal_after _ _).
  assert (Hel : ∀ u, occurs u ∧ from < u ↔ u + offset ∈ l).
  { intros u. unfold l, occurs. rewrite after_elem. split; intros [? ?]; split; lia || done. }
  assert (Hall : Forall (λ w, from < w - offset) l).
  { apply Forall_forall. intros w Hin. apply after_elem in Hin. lia. }
  pose proof (after_sorted (pl_cron p) (from + offset)) as Hs. fold l in Hs.
  destruct l as [|w l'] eqn:El.
  { split; [done|]. intros (Hlt & Ho & _). assert (Hin : t + offset ∈ @nil Z) by (apply Hel; done).
    by apply elem_of_nil in Hin. }
  apply Forall_cons in Hall as [Hwlt _]. rewrite find_first_cons, bool_decide_true by done.
  assert (Hmin : ∀ u, from < u → occurs u → w - offset ≤ u).
  { intros u Hu Ho. assert (Hin : u + offset ∈ w :: l') by (apply Hel; done).
    apply elem_of_cons in Hin as [?|Hin]; [lia|]. inversion_clear Hs as [|? ? _ Hf].
    rewrite Forall_forall in Hf. specialize (Hf _ Hin). lia. }
  assert (Ho : occurs (w - offset) ∧ from < w - offset).
  { apply Hel. replace (w - offset + offset) with w by lia. apply elem_of_cons. by left. }
  split.
  - intros [= <-]. tauto.
  - intros (Hlt & Hot & Hleast). simpl. f_equal. apply Z.le_antisymm; [by apply Hmin|]. apply Hleast; tauto.
Qed.

(** The earliest occurrence inside the window, however many candidates it
    takes. *)
Definition earliest_run (from t : Z) : Prop :=
  from < t ∧ occurs t ∧ in_window p t = true ∧
  ∀ u, from < u → occurs u → in_window p u = true → t ≤ u.

Lemma first_in_window_earliest k from t : first_in_window p k from t → earliest_run from t.
Proof.
  induction 1 as [k from t Hc Hin|k from u t Hc Hout _ (Hut & Ht & Hw & Hmin)].
  - apply candidate_fixed in Hc as (Hlt & Ho & Hmin). repeat split; auto.
  - apply candidate_fixed in Hc as (Hlt & Ho & Hleast). repeat split; [lia|done|done|].
    intros v Hv Hov Hinv. apply Hmin; try done. specialize (Hleast v Hv Hov).
    destruct (decide (u = v)) as [->|]; [congruence|lia].
Qed.

(** The budget is enough when fewer occurrences than it lie before the run. *)
Lemma earliest_first_in_window k : ∀ from t skipped,
  earliest_run from t →
  (∀ u, from < u → u < t → occurs u → u ∈ skipped) → (length skipped < k)%nat →
  first_in_window p k from t.
Proof.
  induction k as [|k IH]; intros from t skipped (Hlt & Ho & Hw & Hmin) Hsk Hk; [lia|].
  assert (Hex : ∃ u, candidate p from = Some u).
  { destruct (candidate p from) as [u|] eqn:E; [by eauto|]. exfalso.
    unfold candidate, next_wall_clock_run in E. rewrite first_run_after_fixed in E.
    destruct Hzone as [Hwall _]. rewrite Hwall in E.
    destruct (find_first _ _) eqn:Ef; [done|]. rewrite find_first_None in Ef.
    assert (Hin : t + offset ∈ cal_after (pl_cron p) (from + offset)) by (apply after_elem; split; [done|lia]).
    apply Ef in Hin. rewrite bool_decide_eq_false in Hin. lia. }
  destruct Hex as [u Hc]. pose proof Hc as (Hfu & Hou & Hleast)%candidate_fixed.
  assert (Hut : u ≤ t) by (by apply Hleast).
  destruct (in_window p u) eqn:Hwu.
  - assert (u = t) as -> by (apply Z.le_antisymm; [done|by apply Hmin]). by constructor.
  - assert (u < t) as Hult by (destruct (decide (u = t)) as [->|]; [congruence|lia]).
    eapply first_later; [done|done|]. apply (IH u t (filter (λ v, v ≠ u) skipped)).
    + repeat split; try done. intros v Hv. apply Hmin. lia.
    + intros v Hv Hvt Hov. apply list_elem_of_filter. split; [lia|]. apply Hsk; [lia|done|done].
    + assert (Hu : u ∈ skipped) by (apply Hsk; done).
      apply (Nat.lt_le_trans _ (length skipped)); [|lia].
      apply length_filter_lt with u; [done|]. intros Hne. by apply Hne.
Qed.

End Fixed.
End Walk.

(** ** The closest pair of a scan *)

Section Gaps.
Context `{Cal : Calendar}.

(** The runs a scan walks after a given one, spending one shared budget. *)
Fixpoint occurrences (n : nat) (p : CronPlan) (previous : Z) (budget : nat) : list Z :=
  match n with
  | O => []
  | S n =>
      match plan_next_after p previous budget with
      | (budget, Ok next) => next :: occurrences n p next budget
      | (_, Err _) => []
      end
  end.

Fixpoint pairs (a : Z) (l : list Z) : list (Z * Z) :=
  match l with [] => [] | b :: l => (a, b) :: pairs b l end.

Lemma gap_scan_fold n p g : ∀ previous budget closest,
  gap_scan n p g previous budget closest =
  fold_left (λ c ab, keep_closest g ab.1 ab.2 c) (pairs previous (occurrences n p previous budget)) closest.
Proof.
  induction n as [|n IH]; intros previous budget closest; [done|]. simpl.
  destruct (plan_next_after p previous budget) as [b [next|e]]; [apply IH|done].
Qed.

Lemma occurrences_sorted n p : ∀ previous budget,
  Forall (λ ab, ab.1 < ab.2) (pairs previous (occurrences n p previous budget)).
Proof.
  induction n as [|n IH]; intros previous budget; [constructor|]. simpl.
  pose proof (plan_next_after_gt p previous budget) as Hgt.
  destruct (plan_next_after p previous budget) as [b [next|e]]; [|constructor]. constructor; [|apply IH].
  by apply (Hgt next).
Qed.

(** The verdict of a scan over a list of gaps: none under the floor, or the
    first of the smallest. *)
Definition closest_pair (g : Z) (l : list (Z * Z)) (r : option TooFrequent) : Prop :=
  match r with
  | None => ∀ a b, (a, b) ∈ l → g ≤ b - a
  | Some (ConsecutiveRuns a b) => ∃ l1 l2, l = l1 ++ (a, b) :: l2 ∧ b - a < g ∧
      (∀ x y, (x, y) ∈ l1 → b - a < y - x) ∧ (∀ x y, (x, y) ∈ l2 → b - a ≤ y - x)
  | Some (FixedInterval _) => False
  end.

Lemma keep_closest_step g l r a b :
  closest_pair g l r → closest_pair g (l ++ [(a, b)]) (keep_closest g a b r).
Proof.
  unfold keep_closest. intros Hc.
  destruct (bool_decide_reflect (b - a < g)) as [Hlt|Hge]; simpl.
  - destruct r as [[|x y]|]; simpl in *; [done| |].
    + destruct Hc as (l1 & l2 & -> & Hxy & H1 & H2).
      destruct (bool_decide_reflect (b - a < y - x)) as [Hs|Hs]; simpl.
      * exists (l1 ++ (x, y) :: l2), []. rewrite <- (assoc _). split; [done|]. split; [done|].
        split; [|by intros ? ? ?%elem_of_nil].
        intros u v [Hin|[[= -> ->]|Hin]%elem_of_cons]%elem_of_app; [specialize (H1 _ _ Hin)|done|specialize (H2 _ _ Hin)]; lia.
      * exists l1, (l2 ++ [(a, b)]). rewrite <- (assoc _). repeat split; [done|done|].
        intros u v [Hin|[= -> ->]%list_elem_of_singleton]%elem_of_app; [by apply H2|lia].
    + exists l, []. repeat split; [done| |by intros ? ? ?%elem_of_nil].
      intros u v Hin. specialize (Hc _ _ Hin). lia.
  - destruct r as [[|x y]|]; simpl in *; [done| |].
    + destruct Hc as (l1 & l2 & -> & Hxy & H1 & H2). exists l1, (l2 ++ [(a, b)]).
      rewrite <- (assoc _). repeat split; [done|done|].
      intros u v [Hin|[= -> ->]%list_elem_of_singleton]%elem_of_app; [by apply H2|lia].
    + intros u v [Hin|[= -> ->]%list_elem_of_singleton]%elem_of_app; [by apply Hc|lia].
Qed.

Lemma fold_closest g l : ∀ l0 r,
  closest_pair g l0 r →
  closest_pair g (l0 ++ l) (fold_left (λ c ab, keep_closest g ab.1 ab.2 c) l r).
Proof.
  induction l as [|[a b] l IH]; intros l0 r Hc; simpl; [by rewrite app_nil_r|].
  replace (l0 ++ (a, b) :: l) with ((l0 ++ [(a, b)]) ++ l) by (by rewrite <- (assoc _)).
  apply IH. by apply keep_closest_step.
Qed.

Lemma gap_scan_closest n p g previous budget :
  closest_pair g (pairs previous (occurrences n p previous budget))
    (gap_scan n p g previous budget None).
Proof. rewrite gap_scan_fold. apply (fold_closest g _ []). by intros ? ? ?%elem_of_nil. Qed.

End Gaps.

(** ** Delays and bounded output *)

Definition delay_units : list (string * Z) := [("s", 1); ("m", 60); ("", 60); ("h", 3600); ("d", 86400)].

Lemma span_digits_app s u :
  digits_of s = true → (∀ c r, u = SCons c r → is_ascii_digit c = false) →
  span_digits (s +:+ u) = (s, u).
Proof.
  intros Hs Hu. induction s as [|c s IH].
  - change ("" +:+ u) with u. destruct u as [|c r]; [done|]. simpl. by rewrite (Hu c r).
  - change (SCons c s +:+ u) with (SCons c (s +:+ u)). simpl in *.
    apply andb_true_iff in Hs as [Hc Hs]. rewrite Hc, (IH Hs). done.
Qed.

(** A digit is not white space, nor is a text of digits and a unit letter. *)
Definition plain_char (c : ascii) : bool :=
  bool_decide (32 < N_of_ascii c < 0x80)%N.
Definition plain (s : string) : bool := forallb plain_char (String.list_ascii_of_string s).

Lemma skip_white_plain c s : plain_char c = true → skip_white (SCons c s) = None.
Proof.
  unfold plain_char. intros H%bool_decide_eq_true. cbn [skip_white].
  assert (E : ∀ (P : Prop) `{!Decision P}, ¬ P → bool_decide P = false)
    by (intros; by apply bool_decide_eq_false).
  rewrite !E by lia. simpl. destruct s as [|b [|d s]]; try done; rewrite !E by lia; done.
Qed.

Lemma trim_start_plain c s : plain_char c = true → trim_start (SCons c s) = SCons c s.
Proof. intros H. unfold trim_start. cbn [trim_start_fuel String.length]. by rewrite skip_white_plain. Qed.

Lemma trim_plain s : plain s = true → trim s = s.
Proof.
  intros Hs. unfold trim.
  assert (Ht : trim_start s = s).
  { destruct s as [|c s]; [done|]. apply trim_start_plain. unfold plain in Hs. simpl in Hs.
    by apply andb_true_iff in Hs as [? _]. }
  rewrite Ht. clear Ht. induction s as [|c s IH]; [done|]. unfold plain in Hs. simpl in Hs.
  apply andb_true_iff in Hs as [Hc Hs]. cbn [trim_end].
  rewrite trim_start_plain by done. rewrite decide_False by done. by rewrite IH.
Qed.

Lemma digit_plain c : is_ascii_digit c = true → plain_char c = true.
Proof. destruct c as [[] [] [] [] [] [] [] []]; vm_compute; congruence. Qed.

Lemma digits_plain s : digits_of s = true → plain s = true.
Proof.
  induction s as [|c s IH]; [done|]. simpl. intros [Hc Hs]%andb_true_iff. unfold plain in *. simpl.
  by rewrite digit_plain, IH.
Qed.

Lemma plain_app a b : plain (a +:+ b) = plain a && plain b.
Proof.
  induction a as [|c a IH]; [done|]. change (SCons c a +:+ b) with (SCons c (a +:+ b)).
  unfold plain in *. simpl. by rewrite IH, andb_assoc.
Qed.

(** A printed amount with a unit parses to that many units, up to the bound. *)
Lemma parse_delay_printed err (n : N) u m :
  (u, m) ∈ delay_units → Z.of_N n ≤ i64_max →
  parse_human_delay err (pretty n +:+ u) =
  if bool_decide (Z.of_N n * m ≤ i64_max / 1000) then Ok (Z.of_N n * m * SECOND) else Err "delay is too large".
Proof.
  intros Hu Hn. unfold parse_human_delay.
  destruct (pretty_N_digits n) as (c & s & E & Hc & Hs).
  assert (Hd : digits_of (pretty n) = true) by (rewrite E; simpl; by rewrite Hc, Hs).
  assert (Hpu : plain u = true ∧ (∀ c r, u = SCons c r → is_ascii_digit c = false) ∧
                delay_multiplier u = Some m ∧ 1 ≤ m).
  { unfold delay_units in Hu. rewrite !elem_of_cons, elem_of_nil in Hu.
    destruct Hu as [[= -> ->]|[[= -> ->]|[[= -> ->]|[[= -> ->]|[[= -> ->]|[]]]]]];
      (split; [done|]); (split; [|by split]); by intros ? ? [= <- _]. }
  destruct Hpu as (Hpl & Hnd & Hmul & Hm).
  rewrite trim_plain by (rewrite plain_app; by rewrite digits_plain, Hpl).
  rewrite bool_decide_false by (by rewrite E).
  rewrite span_digits_app by done. rewrite parse_unsigned_pretty by lia.
  rewrite Hmul. unfold try_seconds.
  assert (Hmax : i64_max / 1000 ≤ i64_max) by (vm_compute; congruence).
  destruct (bool_decide_reflect (Z.of_N n * m ≤ i64_max / 1000)) as [Hb|Hb].
  - rewrite bool_decide_true by lia. rewrite bool_decide_true by (rewrite Z.abs_eq; lia). done.
  - destruct (bool_decide (Z.of_N n * m ≤ i64_max)); [|done].
    rewrite bool_decide_false by (rewrite Z.abs_eq; lia). done.
Qed.

Lemma char_cutoff_spec s n : (char_cutoff s n ≤ n)%nat ∧
  (char_cutoff s n = O ∨ is_char_boundary s (char_cutoff s n) = true).
Proof.
  induction n as [|n IH]; simpl; [by auto|]. destruct (is_char_boundary s (S n)) eqn:E; [by auto|].
  destruct IH as [Hle H]. split; [lia|done].
Qed.

Lemma length_app_str a b : String.length (a +:+ b) = (String.length a + String.length b)%nat.
Proof.
  induction a as [|c a IH]; [done|]. change (SCons c a +:+ b) with (SCons c (a +:+ b)). simpl. by rewrite IH.
Qed.

Lemma substring_prefix n : ∀ s, (n ≤ String.length s)%nat →
  String.length (String.substring 0 n s) = n ∧ ∃ rest, s = String.substring 0 n s +:+ rest.
Proof.
  induction n as [|n IH]; intros [|c s] Hn; simpl in *; try lia.
  - split; [done|]. by exists "".
  - split; [done|]. by exists (SCons c s).
  - destruct (IH s) as (Hl & rest & Hr); [lia|]. split; [by rewrite Hl|]. exists rest.
    change (SCons c (String.substring 0 n s) +:+ rest) with (SCons c (String.substring 0 n s +:+ rest)).
    by rewrite <- Hr.
Qed.

(** Cut output fits the bound and is a prefix at a character boundary plus the
    marker. *)
Lemma truncate_output_cut bound output :
  (String.length TRUNCATED_OUTPUT_MARKER < bound < String.length output)%nat →
  ∃ kept rest, truncate_output bound output = kept +:+ TRUNCATED_OUTPUT_MARKER ∧
    output = kept +:+ rest ∧
    (String.length (truncate_output bound output) ≤ bound)%nat ∧
    (kept = "" ∨ is_char_boundary output (String.length kept) = true).
Proof.
  intros [Hm Ho]. unfold truncate_output.
  replace (String.length output <=? bound)%nat with false by (symmetry; apply Nat.leb_gt; lia).
  replace (bound <=? String.length TRUNCATED_OUTPUT_MARKER)%nat with false by (symmetry; apply Nat.leb_gt; lia).
  set (n := char_cutoff _ _).
  destruct (char_cutoff_spec output (bound - String.length TRUNCATED_OUTPUT_MARKER)) as [Hn Hb]. fold n in Hn, Hb.
  destruct (substring_prefix n output) as (Hl & rest & Hr); [lia|].
  exists (String.substring 0 n output), rest.
  rewrite length_app_str, Hl. repeat split; [done|lia|].
  destruct Hb as [E|Hb]; [left|by right]. apply (f_equal (λ k, String.substring 0 k output)) in E.
  rewrite E. by destruct output.
Qed.
