(* ===== verification/ScheduleRuntime.v ===== *)
(** * Executing a claimed occurrence

    [crates/tinyflows-schedule/src/runtime/execution.rs] and the renewal loop of
    [runtime/mod.rs]: attempts with backoff, one delivery, the terminal
    projection and the durable completion of one claimed occurrence.

    Everything behind a port is the host's: [Host] answers each call from the
    calls made so far, so a reply may depend on everything that happened before
    and the stop flag may change between any two reads of it.  A run returns the
    list of its calls with their replies. *)

From S2P Require Import Prelude Json Schedule ScheduleFacts.

Local Open Scope Z_scope.

(** ** Records *)

Record Attempt := mkAttempt {
  at_success : bool; at_output : string; at_retryable : bool; at_raw_detail : option string
}.

Record RunRecord := mkRunRecord {
  rr_run_id : string;
  rr_job_id : string;
  rr_job_created_at : Z;
  rr_started_at : Z;
  rr_finished_at : Z;
  rr_status : string;
  rr_output : string;
  rr_delivery_status : option DeliveryStatus
}.

Record Completion := mkCompletion {
  cp_advance_schedule : bool;
  cp_remove : bool;
  cp_disable : bool;
  cp_next_run : option Z;
  cp_finished_at : Z;
  cp_success : bool;
  cp_output : string
}.

Record OccurrenceClaim := mkClaim {
  oc_receipt : string;
  oc_job : CronJob;
  oc_occurrence : Z;
  oc_started_at : Z;
  oc_owner : string;
  oc_run_id : option string
}.

Record DeliveryProjection := mkProjection {
  dp_job : CronJob;
  dp_run_id : string;
  dp_attempt : Attempt;
  dp_success : bool;
  dp_delivery_status : option DeliveryStatus
}.

Inductive ManualDelivery := Requested | NotRequestedDelivery.

Record ManualRunOutcome := mkOutcome {
  mo_attempt : Attempt; mo_success : bool; mo_delivery_status : option DeliveryStatus
}.

Record SchedulerConfig := mkSchedulerConfig {
  sc_poll_secs : Z; sc_max_concurrent : nat; sc_retries : N; sc_backoff_ms : Z
}.
Definition SchedulerConfig_default : SchedulerConfig := mkSchedulerConfig 30 4 2 200.

Definition OCCURRENCE_LEASE : Z := 2 * 60 * MINUTE.

(** ** Calls to the ports *)

(** How a backoff wait ended: it elapsed, or the stop channel changed first,
    with whether it is still open and what it says. *)
Inductive Wake := Slept | StopChanged (open flag : bool).

Inductive Call :=
| CallStop (flag : bool)
| CallNow (now : Z)
| CallRenew (reply : result string bool)
| CallRun (job_type : JobType) (reply : result string Attempt)
| CallFailed (attempt : Attempt)
| CallSleep (delay_ms : Z) (wake : Wake)
| CallSend (attempt : Attempt) (reply : result string DeliveryStatus)
| CallDeliver (projection : DeliveryProjection) (reply : result string unit)
| CallComplete (record : RunRecord) (completion : Completion) (reply : result string bool)
| CallRelease (reply : result string bool).

Notation Trace := (list Call).

Record Host := mkHost {
  h_now : Trace → Z;
  h_stop : Trace → bool;
  h_renew : Trace → result string bool;
  h_run : Trace → result string Attempt;
  h_sleep : Trace → Wake;
  h_send : Trace → result string DeliveryStatus;
  h_deliver : Trace → result string unit;
  h_complete : Trace → result string bool;
  h_release : Trace → result string bool
}.

Section Execution.
Context {Cal : Calendar} (h : Host).

(** [stop] is whether the run has a stop channel; reading it is a call. *)
Definition read_stop (stop : bool) (tr : Trace) : Trace * bool :=
  if stop then let b := h_stop h tr in (tr ++ [CallStop b], b) else (tr, false).

Definition read_now (tr : Trace) : Trace * Z := let t := h_now h tr in (tr ++ [CallNow t], t).

Definition renew_call (tr : Trace) : Trace * result string bool :=
  let '(tr, _) := read_now tr in
  let r := h_renew h tr in (tr ++ [CallRenew r], r).

(** [anyhow::ensure!] on a renewal. *)
Definition ensure_renewed (message : string) (tr : Trace) : Trace * result string unit :=
  match renew_call tr with
  | (tr, Err e) => (tr, Err e)
  | (tr, Ok true) => (tr, Ok tt)
  | (tr, Ok false) => (tr, Err message)
  end.

Definition ensure_claim_owned (claimed : bool) (callback : string) (tr : Trace)
    : Trace * result string unit :=
  if claimed then ensure_renewed ("scheduler lost the occurrence before " +:+ callback) tr else (tr, Ok tt).

(** ** Attempts *)

(** The reply of one attempt: an error of the port is a retryable failure. *)
Definition attempt_of (reply : result string Attempt) : Attempt :=
  match reply with Ok a => a | Err e => mkAttempt false e true None end.

(** The last non-empty detail survives later attempts without one. *)
Definition keep_detail (last : option string) (a : Attempt) : option string :=
  match at_raw_detail a with
  | Some detail => if bool_decide (detail = "") then last else Some detail
  | None => last
  end.

Definition with_detail (last : option string) (a : Attempt) : Attempt :=
  mkAttempt (at_success a) (at_output a) (at_retryable a) last.

Definition jitter_ms (now : Z) : Z := (now mod SECOND / 1000000) mod 250.
Definition saturating_add_u64 (a b : Z) : Z := Z.min (a + b) u64_max.
Definition next_backoff (backoff_ms : Z) : Z := Z.min (Z.min (backoff_ms * 2) u64_max) 30000.

(** Wait before the next attempt; [false] when a stop ended the wait. *)
Definition backoff_wait (stop : bool) (backoff_ms : Z) (tr : Trace) : Trace * bool :=
  let '(tr, now) := read_now tr in
  let delay := saturating_add_u64 backoff_ms (jitter_ms now) in
  if stop then
    let wake := h_sleep h tr in
    let tr := tr ++ [CallSleep delay wake] in
    match wake with
    | Slept => (tr, true)
    | StopChanged open flag => (tr, negb (open && flag))
    end
  else (tr ++ [CallSleep delay Slept], true).

(** The last failure is reported once, under a checked claim. *)
Definition final_failure (claimed stop : bool) (failure : Attempt) (tr : Trace)
    : Trace * result string (option Attempt) :=
  let '(tr, stopped) := read_stop stop tr in
  if stopped then (tr, Ok None)
  else
    match ensure_claim_owned claimed "final failure callback" tr with
    | (tr, Err e) => (tr, Err e)
    | (tr, Ok _) =>
        let '(tr, stopped) := read_stop stop tr in
        if stopped then (tr, Ok None)
        else (tr ++ [CallFailed failure], Ok (Some failure))
    end.

(** [remaining] counts the attempts after this one: the loop ends because they
    run out. *)
Fixpoint attempts_loop (remaining : nat) (job : CronJob) (claimed stop : bool) (backoff_ms : Z)
    (last : option string) (tr : Trace) : Trace * result string (option Attempt) :=
  let '(tr, stopped) := read_stop stop tr in
  if stopped then (tr, Ok None)
  else
    match ensure_claim_owned claimed "retry attempt" tr with
    | (tr, Err e) => (tr, Err e)
    | (tr, Ok _) =>
        let '(tr, stopped) := read_stop stop tr in
        if stopped then (tr, Ok None)
        else
          let reply := h_run h tr in
          let tr := tr ++ [CallRun (cj_job_type job) reply] in
          let '(tr, stopped) := read_stop stop tr in
          if stopped then (tr, Ok None)
          else
            let attempt := attempt_of reply in
            let last := keep_detail last attempt in
            let attempt := with_detail last attempt in
            if at_success attempt then (tr, Ok (Some attempt))
            else if negb (at_retryable attempt) then final_failure claimed stop attempt tr
            else
              match remaining with
              | O => final_failure claimed stop attempt tr
              | S remaining =>
                  match backoff_wait stop backoff_ms tr with
                  | (tr, false) => (tr, Ok None)
                  | (tr, true) =>
                      attempts_loop remaining job claimed stop (next_backoff backoff_ms) last tr
                  end
              end
    end.

Definition retries_of (config : SchedulerConfig) (job : CronJob) : nat :=
  N.to_nat (default (sc_retries config) (jp_retries (cj_policy job))).

Definition execute_with_retry_impl (config : SchedulerConfig) (job : CronJob) (claimed stop : bool)
    (tr : Trace) : Trace * result string (option Attempt) :=
  attempts_loop (retries_of config job) job claimed stop (Z.max (sc_backoff_ms config) 200) None tr.

Definition execute_with_retry (config : SchedulerConfig) (job : CronJob) (tr : Trace)
    : Trace * result string Attempt :=
  match execute_with_retry_impl config job false false tr with
  | (tr, Err e) => (tr, Err e)
  | (tr, Ok (Some a)) => (tr, Ok a)
  | (tr, Ok None) => (tr, Err "non-cooperative execution was stopped")
  end.

(** ** Delivery and completion *)

Definition send_delivery (delivery : ManualDelivery) (attempt : Attempt) (tr : Trace)
    : Trace * (option DeliveryStatus * option string) :=
  match delivery with
  | NotRequestedDelivery => (tr, (None, None))
  | Requested =>
      let r := h_send h tr in
      (tr ++ [CallSend attempt r],
       match r with Ok status => (Some status, None) | Err e => (Some DFailed, Some e) end)
  end.

Definition run_succeeded (job : CronJob) (attempt : Attempt) (status : option DeliveryStatus)
    (error : option string) : bool :=
  at_success attempt &&
  (dc_best_effort (cj_delivery job) ||
   (bool_decide (error = None) && negb (bool_decide (status = Some DFailed)))).

Definition is_one_shot (s : Schedule) : bool := match s with SAt _ => true | _ => false end.

Definition completion_of (job : CronJob) (advance_schedule success : bool) (finished_at : Z)
    (output : string) : result string Completion :=
  let one_shot := is_one_shot (cj_schedule job) in
  let remove := advance_schedule && one_shot && cj_delete_after_run job && success in
  let? next_run :=
    (if negb advance_schedule || one_shot then Ok None
     else let? t := next_run_for_schedule (cj_schedule job) finished_at in Ok (Some t)) in
  Ok (mkCompletion advance_schedule remove (advance_schedule && one_shot && negb remove)
        next_run finished_at success output).

(** The terminal phase after delivery: projection, then the fenced commit. *)
Definition commit_phase (claim : OccurrenceClaim) (run_id : string) (advance_schedule stop success : bool)
    (attempt : Attempt) (status : option DeliveryStatus) (tr : Trace)
    : Trace * result string (option ManualRunOutcome) :=
  let job := oc_job claim in
  let projection := mkProjection job run_id attempt success status in
  let '(tr, stopped) := read_stop stop tr in
  let '(tr, delivered) :=
    (if stopped then (tr, Ok tt)
     else let r := h_deliver h tr in (tr ++ [CallDeliver projection r], r)) in
  match delivered with
  | Err e => (tr, Err e)
  | Ok _ =>
      let '(tr, finished_at) := read_now tr in
      match completion_of job advance_schedule success finished_at (at_output attempt) with
      | Err e => (tr, Err e)
      | Ok completion =>
          let record := mkRunRecord run_id (cj_id job) (cj_created_at job) (oc_started_at claim)
                          finished_at (if success then "ok" else "error") (at_output attempt) status in
          let r := h_complete h tr in
          let tr := tr ++ [CallComplete record completion r] in
          match r with
          | Err e => (tr, Err e)
          | Ok false => (tr, Err "scheduler lost the occurrence before terminal commit")
          | Ok true => (tr, Ok (Some (mkOutcome attempt success status)))
          end
      end
  end.

(** [fresh] is the identity minted for a run without one. *)
Definition execute_and_persist_inner (config : SchedulerConfig) (fresh : string) (claim : OccurrenceClaim)
    (delivery : ManualDelivery) (advance_schedule stop : bool) (tr : Trace)
    : Trace * result string (option ManualRunOutcome) :=
  let job := oc_job claim in
  let run_id := default fresh (oc_run_id claim) in
  match execute_with_retry_impl config job true stop tr with
  | (tr, Err e) => (tr, Err e)
  | (tr, Ok None) => (tr, Ok None)
  | (tr, Ok (Some attempt)) =>
      match ensure_renewed "scheduler lost the occurrence before delivery" tr with
      | (tr, Err e) => (tr, Err e)
      | (tr, Ok _) =>
          let '(tr, stopped) := read_stop stop tr in
          if stopped then (tr, Ok None)
          else
            let '(tr, (status, error)) := send_delivery delivery attempt tr in
            let success := run_succeeded job attempt status error in
            match ensure_renewed "scheduler lost the occurrence before terminal projection" tr with
            | (tr, Err e) => (tr, Err e)
            | (tr, Ok _) => commit_phase claim run_id advance_schedule stop success attempt status tr
            end
      end
  end.

Definition execute_and_persist_cooperative (config : SchedulerConfig) (fresh : string)
    (claim : OccurrenceClaim) (delivery : ManualDelivery) (tr : Trace)
    : Trace * result string (option ManualRunOutcome) :=
  execute_and_persist_inner config fresh claim delivery false true tr.

(** The work a dispatched claim does once it holds its permit; [cancelled] is
    the scheduler's cancellation flag when it is read. *)
Definition claim_work (config : SchedulerConfig) (fresh : string) (claim : OccurrenceClaim)
    (delivery : ManualDelivery) (advance_schedule cancelled : bool) (tr : Trace)
    : Trace * result string ManualRunOutcome :=
  match ensure_renewed "scheduler lost the occurrence before execution" tr with
  | (tr, Err e) => (tr, Err e)
  | (tr, Ok _) =>
      if cancelled then (tr, Err "scheduler stopped before execution")
      else
        match execute_and_persist_inner config fresh claim delivery advance_schedule true tr with
        | (tr, Err e) => (tr, Err e)
        | (tr, Ok (Some outcome)) => (tr, Ok outcome)
        | (tr, Ok None) => (tr, Err "scheduler stopped before occurrence completion")
        end
  end.

Definition release_claim_after_work_error (result_ : result string ManualRunOutcome) (tr : Trace)
    : Trace * result string ManualRunOutcome :=
  match result_ with
  | Err _ => let '(tr, _) := read_now tr in let r := h_release h tr in (tr ++ [CallRelease r], result_)
  | Ok _ => (tr, result_)
  end.

End Execution.

(** ** The renewal loop around the work *)

(** What the biased select of [run_claim_with_renewal] sees, in order: the
    scheduler's cancellation channel changed, the renewal timer fired and its
    renewal was answered, or the work finished. *)
Inductive SelectEvent :=
| CancelChanged (open flag : bool)
| LeaseTick (reply : result string bool)
| WorkDone (result_ : result string ManualRunOutcome).

(** The loop's variables: whether renewals are still on, whether the work was
    told to stop, and the renewals made. *)
Record RenewalState := mkRenewal { rn_enabled : bool; rn_stop : bool; rn_renewals : nat }.

Definition select_step (st : RenewalState) (e : SelectEvent)
    : RenewalState * option (result string ManualRunOutcome) :=
  match e with
  | CancelChanged open flag =>
      (if open && flag then mkRenewal (rn_enabled st) true (rn_renewals st) else st, None)
  | LeaseTick reply =>
      if rn_enabled st then
        match reply with
        | Ok true => (mkRenewal true (rn_stop st) (S (rn_renewals st)), None)
        | _ => (mkRenewal false true (S (rn_renewals st)), None)
        end
      else (st, None)
  | WorkDone r => (st, Some r)
  end.

Fixpoint select_loop (st : RenewalState) (events : list SelectEvent)
    : RenewalState * option (result string ManualRunOutcome) :=
  match events with
  | [] => (st, None)
  | e :: events =>
      match select_step st e with
      | (st, Some r) => (st, Some r)
      | (st, None) => select_loop st events
      end
  end.

(** * Facts about executing an occurrence

    An audit reads the calls of a run in order: what each callback to the host
    needs of the renewals of the claim, and how often each is made.  Every
    operation keeps the audit. *)

(** ** The audit *)

(** What the last renewal still covers: nothing, because it was refused or a
    callback was made since; any one callback; or, once the projection was made
    under it, the commit alone. *)
Inductive Grant := Spent | Fresh | CommitOnly.

Record Audit := mkAudit {
  au_grant : Grant; au_runs : nat; au_failed : nat; au_sent : nat; au_projected : nat;
  au_done : nat; au_committed : nat
}.
Definition audit_start : Audit := mkAudit Spent 0 0 0 0 0 0.

(** An attempt, a failure report, a send and the projection each need a renewal
    answered yes with no callback since; the commit needs one with at most the
    projection since, which the store checks again. *)
Definition audit_step (a : option Audit) (c : Call) : option Audit :=
  match a with
  | None => None
  | Some (mkAudit grant runs failed sent projected done committed) =>
      match c with
      | CallStop _ | CallNow _ | CallSleep _ _ | CallRelease _ => a
      | CallRenew (Ok true) => Some (mkAudit Fresh runs failed sent projected done committed)
      | CallRenew _ => Some (mkAudit Spent runs failed sent projected done committed)
      | CallRun _ _ =>
          match grant with Fresh => Some (mkAudit Spent (S runs) failed sent projected done committed) | _ => None end
      | CallFailed _ =>
          match grant with Fresh => Some (mkAudit Spent runs (S failed) sent projected done committed) | _ => None end
      | CallSend _ _ =>
          match grant with Fresh => Some (mkAudit Spent runs failed (S sent) projected done committed) | _ => None end
      | CallDeliver _ _ =>
          match grant with Fresh => Some (mkAudit CommitOnly runs failed sent (S projected) done committed) | _ => None end
      | CallComplete _ _ reply =>
          match grant with
          | Spent => None
          | Fresh | CommitOnly =>
              Some (mkAudit Spent runs failed sent projected (S done)
                      (match reply with Ok true => S committed | _ => committed end))
          end
      end
  end.
Definition audit (tr : Trace) : option Audit := foldl audit_step (Some audit_start) tr.

Lemma audit_snoc tr c : audit (tr ++ [c]) = audit_step (audit tr) c.
Proof. unfold audit. by rewrite foldl_app. Qed.

Definition with_grant (g : Grant) (a : Audit) : Audit :=
  mkAudit g (au_runs a) (au_failed a) (au_sent a) (au_projected a) (au_done a) (au_committed a).

Section Facts.
Context {Cal : Calendar} (h : Host).

Lemma read_stop_audit stop tr : audit (read_stop h stop tr).1 = audit tr.
Proof. unfold read_stop. destruct stop; [|done]. simpl. rewrite audit_snoc. by destruct (audit tr) as [[]|]. Qed.

Lemma read_now_audit tr : audit (read_now h tr).1 = audit tr.
Proof. unfold read_now. simpl. rewrite audit_snoc. by destruct (audit tr) as [[]|]. Qed.

Lemma ensure_renewed_audit msg tr a :
  audit tr = Some a →
  match ensure_renewed h msg tr with
  | (tr', Ok _) => audit tr' = Some (with_grant Fresh a)
  | (tr', Err _) => audit tr' = Some (with_grant Spent a)
  end.
Proof.
  intros Ha. unfold ensure_renewed, renew_call, read_now. destruct a.
  destruct (h_renew h _) as [[]|]; simpl; rewrite audit_snoc, audit_snoc, Ha; done.
Qed.

Lemma backoff_wait_audit stop b tr : audit (backoff_wait h stop b tr).1 = audit tr.
Proof.
  unfold backoff_wait, read_now. destruct stop; simpl.
  - destruct (h_sleep h _); simpl; rewrite !audit_snoc; by destruct (audit tr) as [[]|].
  - rewrite !audit_snoc. by destruct (audit tr) as [[]|].
Qed.

(** Steps through the reads of the stop flag. *)
Ltac audit_reads :=
  repeat match goal with
  | |- context [read_stop h ?s ?tr] =>
      let E := fresh "Er" in
      pose proof (read_stop_audit s tr) as E; destruct (read_stop h s tr) as [? []]; simpl in E
  | |- context [read_now h ?tr] =>
      let E := fresh "En" in
      pose proof (read_now_audit tr) as E; destruct (read_now h tr) as [? ?]; simpl in E
  end.

(** What an execution of attempts leaves: at most that many runs, and one
    failure report exactly when it returns a failed attempt. *)
Definition attempts_audit (a a' : Audit) (runs : nat) (r : result string (option Attempt)) : Prop :=
  (au_runs a' ≤ au_runs a + runs)%nat ∧ au_sent a' = au_sent a ∧ au_projected a' = au_projected a ∧
  au_done a' = au_done a ∧ au_committed a' = au_committed a ∧
  au_failed a' = (au_failed a + match r with Ok (Some at_) => if at_success at_ then 0 else 1 | _ => 0 end)%nat ∧
  match r with Ok (Some _) => (au_runs a < au_runs a')%nat | _ => True end.

Lemma final_failure_audit stop failure tr a :
  audit tr = Some a → at_success failure = false →
  ∃ a', audit (final_failure h true stop failure tr).1 = Some a' ∧
    au_runs a' = au_runs a ∧ au_sent a' = au_sent a ∧ au_projected a' = au_projected a ∧
    au_done a' = au_done a ∧ au_committed a' = au_committed a ∧
    au_failed a' = (au_failed a + match (final_failure h true stop failure tr).2 with
                                  | Ok (Some at_) => if at_success at_ then 0 else 1 | _ => 0 end)%nat.
Proof.
  intros Ha Hs. unfold final_failure, ensure_claim_owned. audit_reads; simpl.
  - exists a. rewrite Er, Ha, Nat.add_0_r. done.
  - rewrite <- Er in Ha.
    pose proof (ensure_renewed_audit "scheduler lost the occurrence before final failure callback" _ _ Ha) as Hr.
    destruct (ensure_renewed h _ l) as [tr2 [[]|e]]; simpl in *.
    + audit_reads; simpl.
      * exists (with_grant Fresh a). rewrite Er0, Hr. destruct a. simpl. by rewrite Nat.add_0_r.
      * rewrite audit_snoc, Er0, Hr, Hs. destruct a. simpl. eexists. split; [done|]. simpl.
        repeat split. lia.
    + exists (with_grant Spent a). rewrite Hr. destruct a. simpl. by rewrite Nat.add_0_r.
Qed.

Lemma attempts_loop_audit job stop remaining : ∀ backoff last tr a,
  audit tr = Some a →
  ∃ a', audit (attempts_loop h remaining job true stop backoff last tr).1 = Some a' ∧
    attempts_audit a a' (S remaining) (attempts_loop h remaining job true stop backoff last tr).2.
Proof.
  induction remaining as [|remaining IH]; intros backoff last tr a Ha; cbn [attempts_loop];
    unfold ensure_claim_owned; audit_reads; simpl.
  1,3: exists a; rewrite Er, Ha; unfold attempts_audit; repeat split; try done; lia.
  all: rewrite <- Er in Ha.
  all: pose proof (ensure_renewed_audit "scheduler lost the occurrence before retry attempt" _ _ Ha) as Hr;
    destruct (ensure_renewed h _ l) as [tr2 [[]|e]]; simpl in *.
  2,4: exists (with_grant Spent a); rewrite Hr; unfold attempts_audit; destruct a; simpl; repeat split; lia.
  all: audit_reads; simpl.
  1,4: exists (with_grant Fresh a); rewrite Er0, Hr; unfold attempts_audit; destruct a; simpl; repeat split; lia.
  all: set (reply := h_run h l0) in *; rewrite audit_snoc, Er0, Hr in Er1; simpl in Er1;
    set (a1 := mkAudit Spent (S (au_runs a)) (au_failed a) (au_sent a) (au_projected a) (au_done a) (au_committed a)) in *.
  1,3: exists a1; rewrite Er1; unfold attempts_audit, a1; simpl; repeat split; lia.
  all: set (at_ := with_detail _ _) in *; destruct (at_success (attempt_of reply)) eqn:Hsucc; simpl.
  1,3: exists a1; rewrite Er1; unfold attempts_audit, a1; simpl; rewrite Hsucc; repeat split; lia.
  all: change (at_success at_ = false) in Hsucc;
    destruct (final_failure_audit stop at_ l1 a1 Er1 Hsucc) as (a2 & E2 & Hr2 & Hs2 & Hp2 & Hd2 & Hc2 & Hf2).
  all: destruct (negb (at_retryable (attempt_of reply))).
  1,2,3: exists a2; split; [done|]; unfold attempts_audit, a1 in *; simpl in *;
    repeat split; try (done || lia); destruct (final_failure h true stop at_ l1).2 as [[]|]; done || lia.
  pose proof (backoff_wait_audit stop backoff l1) as Hb.
  destruct (backoff_wait h stop backoff l1) as [tr3 []]; simpl in *; rewrite Er1 in Hb.
  - destruct (IH (next_backoff backoff) (keep_detail last (attempt_of reply)) tr3 a1 Hb) as (a3 & E3 & H2).
    exists a3. split; [done|]. unfold attempts_audit, a1 in *. simpl in *.
    destruct H2 as (? & ? & ? & ? & ? & ? & H2). repeat split; try (done || lia).
    destruct (attempts_loop _ _ _ _ _ _ _ _).2 as [[]|]; done || lia.
  - exists a1. rewrite Hb. unfold attempts_audit, a1. simpl. repeat split; lia.
Qed.

(** The whole run: what each callback count can be, by the outcome. *)
Definition run_audit (a a' : Audit) (runs : nat) (r : result string (option ManualRunOutcome)) : Prop :=
  (au_runs a' ≤ au_runs a + runs)%nat ∧ (au_failed a' ≤ S (au_failed a))%nat ∧
  (au_sent a' ≤ S (au_sent a))%nat ∧ (au_projected a' ≤ S (au_projected a))%nat ∧
  (au_done a' ≤ S (au_done a))%nat ∧
  au_committed a' = (au_committed a + match r with Ok (Some _) => 1 | _ => 0 end)%nat.

Lemma commit_phase_audit claim run_id adv stop success attempt status tr a :
  audit tr = Some a → au_grant a = Fresh →
  ∃ a', audit (commit_phase h claim run_id adv stop success attempt status tr).1 = Some a' ∧
    au_runs a' = au_runs a ∧ au_failed a' = au_failed a ∧ au_sent a' = au_sent a ∧
    (au_projected a' ≤ S (au_projected a))%nat ∧ (au_done a' ≤ S (au_done a))%nat ∧
    au_committed a' = (au_committed a +
      match (commit_phase h claim run_id adv stop success attempt status tr).2 with
      | Ok (Some _) => 1 | _ => 0 end)%nat.
Proof.
  intros Ha Harm. unfold commit_phase.
  pose proof (read_stop_audit stop tr) as Er. destruct (read_stop h stop tr) as [tr1 stopped]. simpl in Er.
  set (proj := mkProjection _ _ _ _ _).
  assert (Hd : ∃ tr2 r a2, (if stopped then (tr1, Ok tt)
      else (tr1 ++ [CallDeliver proj (h_deliver h tr1)], h_deliver h tr1)) = (tr2, r) ∧
      audit tr2 = Some a2 ∧ au_grant a2 ≠ Spent ∧ au_runs a2 = au_runs a ∧ au_failed a2 = au_failed a ∧
      au_sent a2 = au_sent a ∧ (au_projected a2 ≤ S (au_projected a))%nat ∧ au_done a2 = au_done a ∧
      au_committed a2 = au_committed a).
  { destruct a. simpl in Harm. subst. destruct stopped; do 3 eexists; (split; [done|]).
    - rewrite Er, Ha. split; [done|]. repeat split; try done. simpl. lia.
    - rewrite audit_snoc, Er, Ha. split; [done|]. simpl. repeat split; try (done || lia). }
  destruct Hd as (tr2 & r & a2 & E & Ha2 & Harm2 & ? & ? & ? & ? & ? & ?). simpl. rewrite E.
  destruct r as [u|e]; [|exists a2; simpl; repeat split; try (done || lia)].
  assert (En : audit (tr2 ++ [CallNow (h_now h tr2)]) = Some a2) by (rewrite audit_snoc, Ha2; by destruct a2).
  simpl. set (tr3 := tr2 ++ _) in *. set (now := h_now h tr2).
  destruct (completion_of _ _ _ _ _) as [c|e]; [|exists a2; simpl; rewrite En; repeat split; try (done || lia)].
  destruct (h_complete h tr3) as [[]|] eqn:Ec; simpl; rewrite audit_snoc, En;
    destruct a2 as [[] ? ? ? ? ? ?]; simpl in *; try done; subst; simpl; (eexists; split; [done|]); simpl; repeat split; lia.
Qed.

Lemma execute_audit config fresh claim delivery adv stop tr a :
  audit tr = Some a →
  ∃ a', audit (execute_and_persist_inner h config fresh claim delivery adv stop tr).1 = Some a' ∧
    run_audit a a' (S (retries_of config (oc_job claim)))
      (execute_and_persist_inner h config fresh claim delivery adv stop tr).2.
Proof.
  intros Ha. unfold execute_and_persist_inner, execute_with_retry_impl.
  destruct (attempts_loop_audit (oc_job claim) stop (retries_of config (oc_job claim))
              (Z.max (sc_backoff_ms config) 200) None tr a Ha) as (a1 & E1 & H1).
  destruct (attempts_loop _ _ _ _ _ _ _ _) as [tr1 r1]. simpl in *.
  destruct H1 as (Hruns & Hsent & Hproj & Hdone & Hcom & Hfail & _).
  assert (Hf1 : (au_failed a1 ≤ S (au_failed a))%nat).
  { destruct r1 as [[at_|]|]; [destruct (at_success at_)| |]; lia. }
  destruct r1 as [[attempt|]|e]; simpl.
  2,3: exists a1; rewrite E1; unfold run_audit; repeat split; try (done || lia).
  pose proof (ensure_renewed_audit "scheduler lost the occurrence before delivery" _ _ E1) as Hr.
  destruct (ensure_renewed h _ tr1) as [tr2 [[]|e]]; simpl.
  2: exists (with_grant Spent a1); rewrite Hr; unfold run_audit; simpl; repeat split; try (done || lia).
  audit_reads; simpl.
  { exists (with_grant Fresh a1). rewrite Er, Hr. unfold run_audit. simpl. repeat split; try (done || lia). }
  rewrite Hr in Er.
  assert (Hsend : ∃ tr3 p a3, send_delivery h delivery attempt l = (tr3, p) ∧ audit tr3 = Some a3 ∧
    au_runs a3 = au_runs a1 ∧ au_failed a3 = au_failed a1 ∧ (au_sent a3 ≤ S (au_sent a1))%nat ∧
    au_projected a3 = au_projected a1 ∧ au_done a3 = au_done a1 ∧ au_committed a3 = au_committed a1).
  { destruct a1. destruct delivery; simpl; do 3 eexists; (split; [done|]).
    - rewrite audit_snoc, Er. split; [done|]. simpl. repeat split; lia.
    - rewrite Er. split; [done|]. simpl. repeat split; lia. }
  destruct Hsend as (tr3 & [status error] & a3 & E3 & Ha3 & ? & ? & ? & ? & ? & ?). rewrite E3.
  pose proof (ensure_renewed_audit "scheduler lost the occurrence before terminal projection" _ _ Ha3) as Hr3.
  destruct (ensure_renewed h _ tr3) as [tr4 [[]|e]]; simpl.
  2: exists (with_grant Spent a3); rewrite Hr3; unfold run_audit; simpl; repeat split; try (done || lia).
  destruct (commit_phase_audit claim (default fresh (oc_run_id claim)) adv stop
              (run_succeeded (oc_job claim) attempt status error) attempt status tr4 _ Hr3 eq_refl)
    as (a4 & E4 & Hruns4 & Hfail4 & Hsent4 & Hproj4 & Hdone4 & Hout).
  exists a4. split; [exact E4|]. unfold run_audit. simpl in *.
  destruct (commit_phase _ _ _ _ _ _ _ _ _).2 as [[]|]; repeat split; try (done || lia).
Qed.

(** ** Completions *)

(** A scheduled run removes, disables or reschedules its job, exactly one of
    them; a manual run touches none. *)
Lemma completion_exclusive job adv success finished out c :
  completion_of job adv success finished out = Ok c →
  cp_success c = success ∧ cp_finished_at c = finished ∧
  (if adv then
     if is_one_shot (cj_schedule job) then
       cp_next_run c = None ∧ cp_disable c = negb (cp_remove c) ∧
       cp_remove c = cj_delete_after_run job && success
     else cp_remove c = false ∧ cp_disable c = false ∧
          ∃ t, cp_next_run c = Some t ∧ next_run_for_schedule (cj_schedule job) finished = Ok t
   else cp_remove c = false ∧ cp_disable c = false ∧ cp_next_run c = None).
Proof.
  unfold completion_of. intros H. destruct adv; simpl in H.
  - destruct (is_one_shot (cj_schedule job)) eqn:Eo; simpl in H.
    + by simplify_eq.
    + destruct (next_run_for_schedule _ _) as [t|e] eqn:En; simpl in H; simplify_eq. simpl.
      repeat split; try done. by exists t.
  - by simplify_eq.
Qed.

End Facts.

(** ** The renewal loop *)

(** Once the claim was lost the work is told to stop and nothing renews it
    again; cancellation stops the work too. *)
Lemma select_loop_lost st events :
  rn_enabled st = false → rn_stop st = true →
  rn_enabled (select_loop st events).1 = false ∧ rn_stop (select_loop st events).1 = true ∧
  rn_renewals (select_loop st events).1 = rn_renewals st.
Proof.
  revert st. induction events as [|e events IH]; intros st He Hs; [done|]. cbn [select_loop].
  destruct e as [open flag|reply|r]; cbn [select_step].
  - destruct (open && flag); [|by apply IH]. by apply (IH (mkRenewal (rn_enabled st) true (rn_renewals st))).
  - rewrite He. by apply IH.
  - done.
Qed.

(** * Polling for due jobs

    The poll and dispatch passes of [Scheduler] in
    [crates/tinyflows-schedule/src/runtime/mod.rs]: due jobs are claimed one at a
    time until the batch's size is reached, and either every claim is dispatched
    or every claim is given back.

    The store answers from the calls made so far; a dispatched claim is a
    spawned task, whose work is [ScheduleRuntime.claim_work]. *)

Inductive TickCall :=
| TDue (reply : result string (list CronJob))
| TDueExcluding (excluded : list string) (reply : result string (list CronJob))
| TClaim (job : CronJob) (reply : result string (option OccurrenceClaim))
| TRelease (claim : OccurrenceClaim) (reply : result string bool)
| TSpawn (claim : OccurrenceClaim).

Notation TickTrace := (list TickCall).

Record TickStore := mkTickStore {
  ts_due : TickTrace → result string (list CronJob);
  ts_due_excluding : TickTrace → list string → result string (list CronJob);
  ts_claim : TickTrace → CronJob → result string (option OccurrenceClaim);
  ts_release : TickTrace → OccurrenceClaim → result string bool
}.

Section Tick.
Context (store : TickStore).

(** A failed release is logged and the others still go out. *)
Definition release_claims (claims : list OccurrenceClaim) (tr : TickTrace) : TickTrace :=
  foldl (λ tr c, tr ++ [TRelease c (ts_release store tr c)]) tr claims.

Definition dispatch_claims (claims : list OccurrenceClaim) (tr : TickTrace) : TickTrace * nat :=
  (tr ++ (TSpawn <$> claims), length claims).

Definition claim_due (job : CronJob) (tr : TickTrace)
    : TickTrace * result string (option OccurrenceClaim) :=
  let r := ts_claim store tr job in (tr ++ [TClaim job r], r).

(** The jobs of one batch, until enough are selected: the ids examined, the
    claims selected, and the error that ended it. *)
Fixpoint claim_batch (limit : nat) (batch : list CronJob) (examined : list string)
    (selected : list OccurrenceClaim) (tr : TickTrace)
    : TickTrace * list string * list OccurrenceClaim * option string :=
  match batch with
  | [] => (tr, examined, selected, None)
  | job :: batch =>
      if bool_decide (limit ≤ length selected)%nat then (tr, examined, selected, None)
      else
        let examined := examined ++ [cj_id job] in
        match claim_due job tr with
        | (tr, Err e) => (release_claims selected tr, examined, selected, Some e)
        | (tr, Ok None) => claim_batch limit batch examined selected tr
        | (tr, Ok (Some claim)) => claim_batch limit batch examined (selected ++ [claim]) tr
        end
  end.

(** [None] stands for fuel that ran out; see [tick_terminates]. *)
Fixpoint tick_loop (fuel limit : nat) (batch : list CronJob) (examined : list string)
    (selected : list OccurrenceClaim) (tr : TickTrace) : TickTrace * option (result string nat) :=
  match fuel with
  | O => (tr, None)
  | S fuel =>
      let '(tr, examined, selected, error) := claim_batch limit batch examined selected tr in
      match error with
      | Some e => (tr, Some (Err e))
      | None =>
          if bool_decide (limit ≤ length selected)%nat then
            let '(tr, n) := dispatch_claims selected tr in (tr, Some (Ok n))
          else
            let r := ts_due_excluding store tr examined in
            let tr := tr ++ [TDueExcluding examined r] in
            match r with
            | Err e => (release_claims selected tr, Some (Err e))
            | Ok [] => let '(tr, n) := dispatch_claims selected tr in (tr, Some (Ok n))
            | Ok batch =>
                if existsb (λ job, bool_decide (cj_id job ∈ examined)) batch
                then (release_claims selected tr, Some (Err "job store returned an excluded due job"))
                else tick_loop fuel limit batch examined selected tr
            end
      end
  end.

Definition tick (fuel : nat) (stopped : bool) (tr : TickTrace) : TickTrace * option (result string nat) :=
  if stopped then (tr, Some (Err "scheduler is stopped"))
  else
    let r := ts_due store tr in
    let tr := tr ++ [TDue r] in
    match r with
    | Err e => (tr, Some (Err e))
    | Ok [] => (tr, Some (Ok O))
    | Ok batch => tick_loop fuel (length batch) batch [] [] tr
    end.

(** [Scheduler::dispatch] of jobs the caller chose. *)
Fixpoint dispatch_jobs (jobs : list CronJob) (claims : list OccurrenceClaim) (tr : TickTrace)
    : TickTrace * result string nat :=
  match jobs with
  | [] => let '(tr, n) := dispatch_claims claims tr in (tr, Ok n)
  | job :: jobs =>
      match claim_due job tr with
      | (tr, Err e) => (release_claims claims tr, Err e)
      | (tr, Ok None) => dispatch_jobs jobs claims tr
      | (tr, Ok (Some claim)) => dispatch_jobs jobs (claims ++ [claim]) tr
      end
  end.

Definition dispatch (stopped : bool) (jobs : list CronJob) (tr : TickTrace) : TickTrace * result string nat :=
  if stopped then (tr, Err "scheduler is stopped") else dispatch_jobs jobs [] tr.

(** ** Accounts *)

Definition claimed (tr : TickTrace) : list OccurrenceClaim :=
  omap (λ c, match c with TClaim _ (Ok (Some claim)) => Some claim | _ => None end) tr.
Definition released (tr : TickTrace) : list OccurrenceClaim :=
  omap (λ c, match c with TRelease claim _ => Some claim | _ => None end) tr.
Definition spawned (tr : TickTrace) : list OccurrenceClaim :=
  omap (λ c, match c with TSpawn claim => Some claim | _ => None end) tr.

(** The accounts of a trace, in one piece. *)
Definition accounts (tr : TickTrace) (c r s : list OccurrenceClaim) : Prop :=
  claimed tr = c ∧ released tr = r ∧ spawned tr = s.

Lemma accounts_app tr1 tr2 c r s c' r' s' :
  accounts tr1 c r s → accounts tr2 c' r' s' → accounts (tr1 ++ tr2) (c ++ c') (r ++ r') (s ++ s').
Proof.
  intros (H1 & H2 & H3) (H4 & H5 & H6). unfold accounts, claimed, released, spawned in *.
  rewrite !omap_app. by rewrite H1, H2, H3, H4, H5, H6.
Qed.

Lemma accounts_neutral tr c r s call :
  accounts [call] [] [] [] → accounts tr c r s → accounts (tr ++ [call]) c r s.
Proof. intros H1 H2. pose proof (accounts_app _ _ _ _ _ _ _ _ H2 H1) as H. by rewrite !app_nil_r in H. Qed.

Lemma release_claims_accounts claims : ∀ tr c r s,
  accounts tr c r s → accounts (release_claims claims tr) c (r ++ claims) s.
Proof.
  induction claims as [|x claims IH]; intros tr c r s H; simpl; [by rewrite app_nil_r|].
  replace (r ++ x :: claims) with ((r ++ [x]) ++ claims) by (by rewrite <- (assoc _)).
  apply IH. pose proof (accounts_app tr [TRelease x (ts_release store tr x)] c r s [] [x] [] H) as H'.
  rewrite !app_nil_r in H'. by apply H'.
Qed.

Lemma dispatch_claims_accounts claims tr c r s :
  accounts tr c r s → accounts (dispatch_claims claims tr).1 c r (s ++ claims).
Proof.
  intros H. simpl.
  assert (Hs : accounts (TSpawn <$> claims) [] [] claims).
  { clear. unfold accounts, claimed, released, spawned.
    induction claims as [|x claims (H1 & H2 & H3)]; [done|]. rewrite fmap_cons.
    split; [exact H1|]. split; [exact H2|]. by apply (f_equal (cons x)). }
  pose proof (accounts_app _ _ _ _ _ _ _ _ H Hs) as H'. by rewrite !app_nil_r in H'.
Qed.

Lemma claim_due_accounts job tr c r s :
  accounts tr c r s →
  accounts (claim_due job tr).1 (c ++ match (claim_due job tr).2 with Ok (Some x) => [x] | _ => [] end) r s.
Proof.
  intros H. unfold claim_due. simpl. set (reply := ts_claim store tr job).
  pose proof (accounts_app tr [TClaim job reply] c r s
    match reply with Ok (Some x) => [x] | _ => [] end [] [] H) as H'.
  rewrite !app_nil_r in H'. apply H'. by destruct reply as [[]|].
Qed.

Lemma claim_batch_accounts limit batch : ∀ examined selected tr,
  accounts tr selected [] [] →
  let '(tr', _, selected', error) := claim_batch limit batch examined selected tr in
  match error with
  | None => accounts tr' selected' [] []
  | Some _ => accounts tr' selected' selected' []
  end.
Proof.
  induction batch as [|job batch IH]; intros examined selected tr H; cbn [claim_batch]; [done|].
  case_bool_decide; [done|].
  pose proof (claim_due_accounts job tr selected [] [] H) as Hc.
  destruct (claim_due job tr) as [tr1 [[claim|]|e]]; cbn [fst snd] in *.
  - by apply IH.
  - rewrite app_nil_r in Hc. by apply IH.
  - rewrite app_nil_r in Hc. by apply (release_claims_accounts selected tr1 selected [] []).
Qed.

(** A pass ends with every claim dispatched, or every claim given back. *)
Definition settled (tr : TickTrace) (r : result string nat) : Prop :=
  match r with
  | Ok n => ∃ claims, accounts tr claims [] claims ∧ n = length claims
  | Err _ => ∃ claims, accounts tr claims claims []
  end.

Lemma tick_loop_settled fuel limit : ∀ batch examined selected tr r,
  accounts tr selected [] [] →
  (tick_loop fuel limit batch examined selected tr).2 = Some r →
  settled (tick_loop fuel limit batch examined selected tr).1 r.
Proof.
  induction fuel as [|fuel IH]; intros batch examined selected tr r H; [done|]. cbn [tick_loop].
  pose proof (claim_batch_accounts limit batch examined selected tr H) as Hb.
  destruct (claim_batch _ _ _ _ _) as [[[tr1 examined1] selected1] [e|]].
  { intros [= <-]. by exists selected1. }
  case_bool_decide.
  { intros [= <-]. exists selected1. split; [|done].
    by apply (dispatch_claims_accounts selected1 tr1 selected1 [] []). }
  cbn zeta. set (reply := ts_due_excluding store tr1 examined1).
  assert (Hn : accounts (tr1 ++ [TDueExcluding examined1 reply]) selected1 [] [])
    by (by apply accounts_neutral).
  destruct reply as [[|job jobs]|e].
  - intros [= <-]. exists selected1. split; [|done].
    by apply (dispatch_claims_accounts selected1 _ selected1 [] []).
  - destruct (existsb _ _).
    + intros [= <-]. exists selected1. by apply (release_claims_accounts selected1 _ selected1 [] []).
    + by apply IH.
  - intros [= <-]. exists selected1. by apply (release_claims_accounts selected1 _ selected1 [] []).
Qed.

Lemma dispatch_jobs_settled jobs : ∀ claims tr,
  accounts tr claims [] [] → settled (dispatch_jobs jobs claims tr).1 (dispatch_jobs jobs claims tr).2.
Proof.
  induction jobs as [|job jobs IH]; intros claims tr H; cbn [dispatch_jobs].
  { exists claims. split; [|done]. by apply (dispatch_claims_accounts claims tr claims [] []). }
  pose proof (claim_due_accounts job tr claims [] [] H) as Hc.
  destruct (claim_due job tr) as [tr1 [[claim|]|e]]; cbn [fst snd] in *.
  - by apply IH.
  - rewrite app_nil_r in Hc. by apply IH.
  - rewrite app_nil_r in Hc. exists claims. by apply (release_claims_accounts claims tr1 claims [] []).
Qed.

(** *** Bounds *)

Lemma claim_batch_bound limit batch : ∀ examined selected tr,
  (length selected ≤ limit)%nat →
  let '(_, _, selected', _) := claim_batch limit batch examined selected tr in
  (length selected' ≤ limit)%nat.
Proof.
  induction batch as [|job batch IH]; intros examined selected tr H; cbn [claim_batch]; [done|].
  case_bool_decide; [done|]. destruct (claim_due job tr) as [tr1 [[claim|]|e]]; simpl; [| |done].
  - apply IH. rewrite length_app. simpl. lia.
  - by apply IH.
Qed.

(** *** Termination *)

(** A batch that does not fill the pass is examined whole. *)
Lemma claim_batch_examined limit batch : ∀ examined selected tr,
  let '(_, examined', selected', error) := claim_batch limit batch examined selected tr in
  error = None → (length selected' < limit)%nat → examined' = examined ++ (cj_id <$> batch).
Proof.
  induction batch as [|job batch IH]; intros examined selected tr; cbn [claim_batch]; [by rewrite app_nil_r|].
  case_bool_decide; [intros; lia|].
  destruct (claim_due job tr) as [tr1 [[claim|]|e]]; simpl; [| |done].
  - specialize (IH (examined ++ [cj_id job]) (selected ++ [claim]) tr1).
    destruct (claim_batch _ _ _ _ _) as [[[]] []]; [done|]. intros _ Hl. rewrite IH by done.
    by rewrite <- (assoc _).
  - specialize (IH (examined ++ [cj_id job]) selected tr1).
    destruct (claim_batch _ _ _ _ _) as [[[]] []]; [done|]. intros _ Hl. rewrite IH by done.
    by rewrite <- (assoc _).
Qed.

(** The ids a store can return. *)
Definition bounded_store (ids : list string) : Prop :=
  (∀ tr jobs job, ts_due store tr = Ok jobs → job ∈ jobs → cj_id job ∈ ids) ∧
  (∀ tr ex jobs job, ts_due_excluding store tr ex = Ok jobs → job ∈ jobs → cj_id job ∈ ids).

(** Ids not examined yet. *)
Definition fresh_ids (ids examined : list string) : list string := filter (.∉ examined) ids.

Lemma fresh_ids_less ids examined new x :
  x ∈ ids → x ∉ examined → x ∈ new →
  (length (fresh_ids ids (examined ++ new)) < length (fresh_ids ids examined))%nat.
Proof.
  intros Hid Hex Hnew. unfold fresh_ids.
  replace (filter (.∉ examined ++ new) ids) with (filter (.∉ examined ++ new) (filter (.∉ examined) ids)).
  2: { rewrite list_filter_filter. apply list_filter_iff. intros y. rewrite elem_of_app. tauto. }
  apply length_filter_lt with x; [by apply list_elem_of_filter|]. rewrite elem_of_app. tauto.
Qed.

Lemma tick_loop_total ids limit : bounded_store ids → ∀ fuel batch examined selected tr,
  batch ≠ [] → (∀ job, job ∈ batch → cj_id job ∈ ids ∧ cj_id job ∉ examined) →
  (length (fresh_ids ids examined) < fuel)%nat →
  is_Some (tick_loop fuel limit batch examined selected tr).2.
Proof.
  intros [_ Hst]. induction fuel as [|fuel IH]; intros batch examined selected tr Hne Hb Hf; [lia|].
  cbn [tick_loop]. pose proof (claim_batch_examined limit batch examined selected tr) as He.
  destruct (claim_batch _ _ _ _ _) as [[[tr1 examined1] selected1] [e|]]; [by eexists|].
  case_bool_decide as Hl; [by eexists|]. cbn zeta.
  destruct (ts_due_excluding store tr1 examined1) as [[|job jobs]|e] eqn:Er; [by eexists| |by eexists].
  destruct (existsb _ _) eqn:Ex; [by eexists|]. apply IH; [done| |].
  - intros j Hj. split; [by eapply Hst|].
    intros Hin. assert (Ht : existsb (λ job, bool_decide (cj_id job ∈ examined1)) (job :: jobs) = true);
      [|congruence].
    apply existsb_exists. exists j. split; [by apply list_elem_of_In|by apply bool_decide_eq_true].
  - rewrite He by (done || lia). destruct batch as [|j batch]; [done|].
    destruct (Hb j) as [Hj1 Hj2]; [apply elem_of_cons; by left|].
    assert (Hin : cj_id j ∈ cj_id <$> j :: batch) by (apply elem_of_cons; by left).
    pose proof (fresh_ids_less ids examined (cj_id <$> j :: batch) (cj_id j) Hj1 Hj2 Hin). lia.
Qed.

End Tick.
