(* ===== verification/ScheduleTheorems.v ===== *)
(** * What the scheduler guarantees

    The properties of schedules and of their execution, with their witnesses. *)

From stdpp Require Import sorting.
From S2P Require Import Prelude.
From S2P Require Import Json.
From S2P Require Import Text.
From S2P Require Import Weekday.
From S2P Require Import Schedule.
From S2P Require Import ScheduleFacts.
From S2P Require Import ScheduleRuntime.
From Stdlib Require Import Ascii.
From Stdlib Require String.
Local Open Scope Z_scope.

(** ** A reading of crate weekday fields *)

(** One item as the crate documents it: a star, a day, a range, a stepped
    range. *)
Definition read_item (item : string) (d : N) : bool :=
  if bool_decide (item = "*") then true
  else
    let '(base, step) := match split_once "/"%char item with
                         | Some (base, step) => (base, default 1%N (parse_u32 step))
                         | None => (item, 1%N)
                         end in
    let '(a, b) := match split_once "-"%char base with
                   | Some (a, b) => (default 0%N (parse_u32 a), default 0%N (parse_u32 b))
                   | None => (default 0%N (parse_u32 base), default 0%N (parse_u32 base))
                   end in
    walks a b step d.
Definition read_field (field : string) (d : N) : bool :=
  existsb (λ i, read_item i d) (split_char ","%char field).

(** The numbers of a weekday field. *)
Definition weekdays : list N := [1; 2; 3; 4; 5; 6; 7]%N.

Lemma weekdays_all (P : N → bool) n : forallb P weekdays = true → (1 ≤ n ≤ 7)%N → P n = true.
Proof.
  intros H Hn. unfold weekdays in H. simpl in H. rewrite !andb_true_iff in H.
  assert (Hc : (n = 1 ∨ n = 2 ∨ n = 3 ∨ n = 4 ∨ n = 5 ∨ n = 6 ∨ n = 7)%N) by lia.
  destruct Hc as [->|[->|[->|[->|[->|[->| ->]]]]]]; tauto.
Qed.

Lemma split_char_ne sep s : split_char sep s ≠ [].
Proof. destruct s as [|c s]; [done|]. simpl. destruct (decide _); [done|]. by destruct (split_char sep s). Qed.

Lemma split_char_cat sep a b :
  split_char sep (a +:+ SCons sep b) = split_char sep a ++ split_char sep b.
Proof.
  induction a as [|c a IH].
  - change ("" +:+ SCons sep b) with (SCons sep b). simpl. by rewrite decide_True.
  - change (SCons c a +:+ SCons sep b) with (SCons c (a +:+ SCons sep b)). simpl. rewrite IH.
    destruct (decide (c = sep)); [done|]. destruct (split_char sep a) eqn:E; [|done].
    by apply split_char_ne in E.
Qed.

(** The documented notation, checked over the seven days. *)
Definition reads_single (n d : N) : bool := Bool.eqb (read_field (pretty n) d) (bool_decide (d = n)).
Definition reads_range (a b d : N) : bool :=
  negb (bool_decide (a ≤ b)%N) ||
  Bool.eqb (read_field (pretty a +:+ "-" +:+ pretty b) d) (walks a b 1 d).
Definition reads_step (a b n d : N) : bool :=
  negb (bool_decide (a ≤ b)%N) ||
  Bool.eqb (read_field (pretty a +:+ "-" +:+ pretty b +:+ "/" +:+ pretty n) d) (walks a b n d).

#[export] Instance read_field_crate : CrateWeekdays read_field.
Proof.
  split.
  - intros d Hd. apply (weekdays_all (read_field "*") d); [by vm_compute|done].
  - intros n d [Hn Hd]. apply Bool.eqb_prop. change (reads_single n d = true).
    apply (weekdays_all _ d); [|done].
    apply (weekdays_all (λ n, forallb (reads_single n) weekdays) n); [by vm_compute|done].
  - intros a b d H. apply Bool.eqb_prop. assert (Hr : reads_range a b d = true).
    { apply (weekdays_all _ d); [|lia].
      apply (weekdays_all (λ b, forallb (reads_range a b) weekdays) b); [|lia].
      apply (weekdays_all (λ a, forallb (λ b, forallb (reads_range a b) weekdays) weekdays) a); [by vm_compute|lia]. }
    unfold reads_range in Hr. by rewrite bool_decide_true in Hr by lia.
  - intros a b n d H. apply Bool.eqb_prop. assert (Hr : reads_step a b n d = true).
    { apply (weekdays_all _ d); [|lia].
      apply (weekdays_all (λ n, forallb (reads_step a b n) weekdays) n); [|lia].
      apply (weekdays_all (λ b, forallb (λ n, forallb (reads_step a b n) weekdays) weekdays) b); [|lia].
      apply (weekdays_all (λ a, forallb (λ b, forallb (λ n, forallb (reads_step a b n) weekdays) weekdays) weekdays) a);
        [by vm_compute|lia]. }
    unfold reads_step in Hr. by rewrite bool_decide_true in Hr by lia.
  - intros a b d. unfold read_field. change ("," +:+ b) with (SCons ","%char b).
    rewrite split_char_cat. apply existsb_app.
Qed.

(** A POSIX weekday field made of days 0 to 7, ranges, steps and stars is
    always accepted, and the rewritten field fires, in the numbering of any crate
    that reads lists, ranges and steps as documented, exactly on the days the
    POSIX field names, Sunday through 0 or 7. *)
Theorem weekday_translation (fires : string → N → bool) `{!CrateWeekdays fires} (l : list PosixItem) :
  l ≠ [] → Forall item_ok l →
  ∃ out, posix_to_crate_weekdays (show_field l) = Ok out ∧
  ∀ day, (day < 7)%N → fires out (day + 1)%N = existsb (λ i, posix_fires i day) l.
Proof.
  intros Hne Hok. unfold posix_to_crate_weekdays, show_field.
  rewrite split_join_with.
  2: { by destruct l. }
  2: { apply Forall_fmap, Forall_true. intros i. apply show_item_no_comma. }
  destruct (collect_translated fires l Hok) as (outs & E & Hlen & Hf). rewrite E. simpl.
  eexists. split; [done|]. intros day Hday. rewrite (fires_join fires).
  - by apply Hf.
  - intros ->. by destruct l.
Qed.

Lemma weekday_translation_witness :
  posix_to_crate_weekdays "5-7,1/2" = Ok "6-7,1,2-7/2,1" ∧
  ∀ day, (day < 7)%N →
    read_field "6-7,1,2-7/2,1" (day + 1)%N = existsb (λ i, posix_fires i day) [Between 5 7; From 1 2].
Proof.
  destruct (weekday_translation read_field [Between 5 7; From 1 2]) as (out & E & H).
  - discriminate.
  - repeat constructor; vm_compute; discriminate.
  - assert (Ok (E := string) "6-7,1,2-7/2,1" = Ok out) as [= <-] by (by rewrite <- E).
    split; [exact E|exact H].
Defined.

(** ** The next run *)

(** C38: the next run of a parsed cron schedule is strictly after the instant
    asked about and inside its active hours, in any time zone; in a zone with a
    fixed offset it is the earliest such occurrence, and the search finds it
    whenever fewer occurrences than the candidate limit come before it. *)
Theorem next_run_exact `{Cal : Calendar} (matches : cal_cron → Z → Prop) `{!LawfulCron matches}
    expr tz hours p from t :
  plan_parse expr tz hours = Ok p →
  (next_run_for_schedule (SCron expr tz hours) from = Ok t → from < t ∧ in_window p t = true) ∧
  ∀ offset, fixed_zone (zone_of (pl_timezone p)) offset →
    (next_run_for_schedule (SCron expr tz hours) from = Ok t → earliest_run matches p offset from t) ∧
    ∀ skipped, earliest_run matches p offset from t →
      (∀ u, from < u → u < t → occurs matches p offset u → u ∈ skipped) →
      (length skipped < ACTIVE_WINDOW_CANDIDATE_LIMIT)%nat →
      next_run_for_schedule (SCron expr tz hours) from = Ok t.
Proof.
  intros Hp. unfold next_run_for_schedule. rewrite Hp. cbn [rbind]. split; [apply plan_next_after_gt|].
  intros offset Hz. rewrite plan_next_after_first. split.
  - by apply first_in_window_earliest.
  - intros skipped He Hs Hl. apply plan_next_after_first. by apply (earliest_first_in_window matches p offset Hz _ from t skipped).
Qed.

(** A calendar with three matching times of one day, in UTC. *)
Definition HOUR : Z := 60 * MINUTE.
Definition sample_times : list Z := [8 * HOUR; 9 * HOUR; 10 * HOUR].
#[export] Instance sample_calendar : Calendar := {
  cal_cron := unit;
  cal_parse_cron _ := Some tt;
  cal_after _ w := filter (λ t, w < t) sample_times;
  cal_zone := unit;
  cal_parse_zone _ := Some tt;
  cal_local := tt;
  cal_wall _ t := t;
  cal_from_local _ w := LSingle w;
  cal_parse_clock s := if bool_decide (s = "09:00") then Some 540 else if bool_decide (s = "12:00") then Some 720 else None;
  cal_max_utc := 10 ^ 22;
  cal_fmt _ := "a time"
}.
Definition sample_matches (c : cal_cron) (t : Z) : Prop := t ∈ sample_times.

#[export] Instance sample_cron_lawful : LawfulCron sample_matches.
Proof.
  split.
  - intros c w t. unfold sample_matches, cal_after. simpl. rewrite list_elem_of_filter. tauto.
  - intros c w. apply StronglySorted_filter. unfold sample_times.
    repeat constructor.
Qed.

Definition sample_hours : ActiveHours := mkActiveHours "09:00" "12:00".
Definition sample_cron : Schedule := SCron "0 * * * *" None (Some sample_hours).
Definition sample_plan : CronPlan := mkPlan "0 * * * *" tt ZLocal (Some (mkWindow 540 720)).

Lemma next_run_exact_witness :
  next_run_for_schedule sample_cron 0 = Ok (9 * HOUR) ∧
  earliest_run sample_matches sample_plan 0 0 (9 * HOUR).
Proof.
  destruct (next_run_exact sample_matches "0 * * * *" None (Some sample_hours) sample_plan 0 (9 * HOUR))
    as [_ H]; [reflexivity|].
  destruct (H 0) as [H1 _].
  { split; intros; simpl; [lia|]. f_equal. lia. }
  assert (E : next_run_for_schedule sample_cron 0 = Ok (9 * HOUR)) by reflexivity.
  split; [exact E|]. apply H1. exact E.
Defined.

(** ** The cadence floor *)

(** The closest-pair scan reports exactly the first of the smallest gaps
    under the floor among the runs it walks, or nothing when every gap keeps the
    floor; an accepted agent schedule therefore keeps five minutes between all
    the runs scanned, and walked runs always move forward. *)
Theorem closest_gap_reported `{Cal : Calendar} expr tz hours p from min_gap first budget :
  plan_parse expr tz hours = Ok p →
  plan_next_after p from ACTIVE_WINDOW_CANDIDATE_LIMIT = (budget, Ok first) →
  let walked := pairs first (occurrences (RUN_GAP_SCAN_OCCURRENCES - 1) p first budget) in
  closest_pair min_gap walked (runs_closer_than (SCron expr tz hours) from min_gap) ∧
  Forall (λ ab, ab.1 < ab.2) walked ∧
  (validate_agent_schedule (SCron expr tz hours) from = Ok tt →
   ∀ a b, (a, b) ∈ walked → MIN_AGENT_JOB_INTERVAL ≤ b - a).
Proof.
  intros Hp Hf walked.
  assert (Hc : ∀ g, closest_pair g walked (runs_closer_than (SCron expr tz hours) from g)).
  { intros g. unfold runs_closer_than. rewrite Hp, Hf. apply gap_scan_closest. }
  split; [apply Hc|]. split; [apply occurrences_sorted|].
  unfold validate_agent_schedule. destruct (validate_schedule _ _); [|done]. cbn [rbind].
  specialize (Hc MIN_AGENT_JOB_INTERVAL).
  destruct (runs_closer_than _ _ MIN_AGENT_JOB_INTERVAL); [done|]. intros _. exact Hc.
Qed.

Lemma closest_gap_reported_witness :
  closest_pair (2 * HOUR) [(9 * HOUR, 10 * HOUR)] (runs_closer_than sample_cron 0 (2 * HOUR)) ∧
  runs_closer_than sample_cron 0 (2 * HOUR) = Some (ConsecutiveRuns (9 * HOUR) (10 * HOUR)).
Proof.
  destruct (closest_gap_reported "0 * * * *" None (Some sample_hours) sample_plan 0 (2 * HOUR) (9 * HOUR)
              (ACTIVE_WINDOW_CANDIDATE_LIMIT - 2)) as [H _]; [reflexivity|reflexivity|].
  split; [|reflexivity].
  change [(9 * HOUR, 10 * HOUR)] with (pairs (9 * HOUR) [10 * HOUR]).
  assert (E : occurrences (RUN_GAP_SCAN_OCCURRENCES - 1) sample_plan (9 * HOUR)
                (ACTIVE_WINDOW_CANDIDATE_LIMIT - 2) = [10 * HOUR]) by reflexivity.
  rewrite E in H. exact H.
Defined.

(** ** Executing an occurrence *)

(** C33: an execution of a claimed occurrence makes an attempt, the failure report,
    the send and the terminal projection each only under a renewal of the claim
    answered yes since the callback before it; the commit follows such a renewal
    with at most the projection in between, so it is not renewed for again.  It
    makes at most one attempt more than the retry budget and at most one failure
    report, send, projection and commit, and it reports an outcome exactly when the
    store answered yes to the commit. *)
Theorem occurrence_callbacks_fenced `{Cal : Calendar} (h : Host) config fresh claim delivery adv stop :
  ∃ a, audit (execute_and_persist_inner h config fresh claim delivery adv stop []).1 = Some a ∧
    run_audit audit_start a (S (retries_of config (oc_job claim)))
      (execute_and_persist_inner h config fresh claim delivery adv stop []).2.
Proof. by apply execute_audit. Qed.

(** ** Polling *)

(** Over a store with finitely many job ids a poll pass ends, and it either
    dispatches every claim it acquired or gives every one of them back. *)
Theorem tick_settles (store : TickStore) (ids : list string) (stopped : bool) :
  bounded_store store ids →
  ∃ r, (tick store (S (length ids)) stopped []).2 = Some r ∧
       settled (tick store (S (length ids)) stopped []).1 r.
Proof.
  intros Hb. unfold tick. destruct stopped.
  { eexists. split; [done|]. by exists []. }
  cbn zeta. destruct (ts_due store []) as [[|job jobs]|e] eqn:Ed; simpl app.
  - eexists. split; [done|]. exists []. done.
  - destruct (tick_loop_total store ids (length (job :: jobs)) Hb (S (length ids)) (job :: jobs) [] []
                [TDue (Ok (job :: jobs))]) as [r Hr].
    + done.
    + intros j Hj. split; [|by apply not_elem_of_nil]. destruct Hb as [Hd _]. by eapply Hd.
    + unfold fresh_ids. pose proof (length_filter (.∉ @nil string) ids). lia.
    + exists r. split; [exact Hr|]. apply (tick_loop_settled store); [done|exact Hr].
  - eexists. split; [done|]. by exists [].
Qed.

Definition sample_job : CronJob :=
  mkCronJob 0 JobPolicy_default "job-1" "" (SEvery 60000) "echo" None None JShell Isolated None None true
    DeliveryConfig_default false 0 0 None None None None.
Definition sample_claim : OccurrenceClaim := mkClaim "receipt" sample_job 0 0 "owner" None.
Definition sample_store : TickStore :=
  mkTickStore (λ _, Ok [sample_job]) (λ _ ex, if bool_decide ("job-1" ∈ ex) then Ok [] else Ok [sample_job])
    (λ _ _, Ok (Some sample_claim)) (λ _ _, Ok true).

Lemma tick_settles_witness :
  bounded_store sample_store ["job-1"] ∧
  settled (tick sample_store 2 false []).1 (Ok 1%nat).
Proof.
  assert (Hb : bounded_store sample_store ["job-1"]).
  { split.
    - intros tr jobs job [= <-] ->%list_elem_of_singleton. by apply list_elem_of_singleton.
    - intros tr ex jobs job. simpl. case_bool_decide; intros [= <-]; [by intros ?%elem_of_nil|].
      intros ->%list_elem_of_singleton. by apply list_elem_of_singleton. }
  split; [exact Hb|]. destruct (tick_settles sample_store ["job-1"] false Hb) as (r & Hr & Hs).
  assert (r = Ok 1%nat) as -> by (vm_compute in Hr; congruence). exact Hs.
Defined.

(** ** An interval that validates and has no next run *)

Theorem every_accepted_unrunnable `{Cal : Calendar} (now from : Z) :
  validate_schedule (SEvery u64_max) now = Ok tt ∧
  next_run_for_schedule (SEvery u64_max) from = Err "every_ms is too large".
Proof. by vm_compute. Qed.
