(* ===== verification/Expr.v ===== *)
(** * Expressions

    [crates/tinyflows/src/expr.rs] and the expression walk of [bindings.rs]: the
    [=]-expressions of a node's configuration, resolved against a scope.

    The jq interpreter (the [jaq] crates: loading, compiling and running a
    program, first output only) is the argument [jq]; [None] is any of its
    failures or an empty output.  What decides whether a text goes to the
    interpreter, how the program is repaired first, and how a configuration is
    walked is the code's own and is modelled here. *)

From S2P Require Import Prelude Json Workflow Text.
From Stdlib Require Import Ascii.
From Stdlib Require String.

Record NullResolution := mkMiss { miss_location : string; miss_expression : string }.
#[export] Instance NullResolution_eq_dec : EqDecision NullResolution.
Proof. solve_decision. Defined.

Definition is_expression (s : string) : bool :=
  match s with SCons c _ => bool_decide (c = "="%char) | EmptyString => false end.

(** ** Paths *)

Definition ident_start (c : ascii) : bool := bool_decide (c = "_"%char) || is_ascii_alphabetic c.
Definition ident_char (c : ascii) : bool :=
  bool_decide (c = "_"%char) || bool_decide (c = "-"%char) || is_ascii_alphanumeric c.

Definition is_ident (seg : string) : bool :=
  match seg with
  | EmptyString => false
  | SCons c rest => ident_start c && forallb ident_char (String.list_ascii_of_string rest)
  end.

Definition is_simple_dotted_path (s : string) : bool :=
  bool_decide (s ≠ "") && forallb is_ident (split_char "."%char s).

(** The walk over one list of segments; a missing one is [null]. *)
Fixpoint walk_segments (segments : list string) (v : value) : value :=
  match segments with
  | [] => v
  | seg :: rest => match get seg v with Some next => walk_segments rest next | None => Null end
  end.

Definition resolve_dotted (path : string) (scope : value) : value :=
  walk_segments (filter (λ s, s ≠ "") (split_char "."%char path)) scope.

(** ** Programs *)

(** The leading identifier characters and what follows them. *)
Fixpoint span_ident (s : string) : string * string :=
  match s with
  | EmptyString => ("", "")
  | SCons c rest => if ident_char c then prod_map (SCons c) id (span_ident rest) else ("", s)
  end.

(** A program that starts with a bare key of the scope gets a leading dot. *)
Definition normalize_bare_scope_ref (program : string) (scope : value) : string :=
  match program with
  | EmptyString => program
  | SCons first rest =>
      if ident_start first then
        let '(more, after) := span_ident rest in
        match get (SCons first more) scope with
        | None => program
        | Some _ =>
            let boundary_ok :=
              match after with
              | EmptyString => true
              | SCons c _ => bool_decide (c ∈ ["."%char; "|"%char; "["%char; " "%char])
              end in
            if boundary_ok then "." +:+ program else program
        end
      else program
  end.

Section Resolve.
Context (jq : string → value → option value).

Definition run_jq (program : string) (scope : value) : value :=
  default Null (jq (normalize_bare_scope_ref program scope) scope).

(** The text after the [=]. *)
Definition body_of (s : string) : string :=
  match s with SCons _ rest => rest | EmptyString => "" end.

Definition evaluate (v scope : value) : value :=
  match as_str v with
  | Some s =>
      if is_expression s then
        let expr := trim (body_of s) in
        if is_simple_dotted_path expr then resolve_dotted expr scope else run_jq expr scope
      else v
  | None => v
  end.

(** ** Whole configurations *)

Fixpoint resolve (v scope : value) {struct v} : value :=
  match v with
  | Object m => Object (map (λ kv, (kv.1, resolve kv.2 scope)) m)
  | Array items => Array (map (λ x, resolve x scope) items)
  | Str s => if is_expression s then evaluate v scope else v
  | _ => v
  end.

Definition with_segment (location segment : string) : string :=
  if decide (location = "") then segment else location +:+ "." +:+ segment.

Fixpoint resolve_traced_inner (scope : value) (v : value) (location : string)
    : value * list NullResolution :=
  match v with
  | Object m =>
      let fields :=
        (fix fields (m : list (string * value)) : list (string * value) * list NullResolution :=
           match m with
           | [] => ([], [])
           | (k, x) :: rest =>
               let '(x', misses) := resolve_traced_inner scope x (with_segment location k) in
               let '(rest', more) := fields rest in
               ((k, x') :: rest', misses ++ more)
           end) m in
      (Object fields.1, fields.2)
  | Array items =>
      let elements :=
        (fix elements (i : nat) (l : list value) : list value * list NullResolution :=
           match l with
           | [] => ([], [])
           | x :: rest =>
               let '(x', misses) := resolve_traced_inner scope x (with_segment location (pretty i)) in
               let '(rest', more) := elements (S i) rest in
               (x' :: rest', misses ++ more)
           end) 0 items in
      (Array elements.1, elements.2)
  | Str s =>
      if is_expression s then
        let resolved := evaluate v scope in
        (resolved, if is_null resolved then [mkMiss location s] else [])
      else (v, [])
  | _ => (v, [])
  end.

Definition resolve_traced (v scope : value) : value * list NullResolution :=
  resolve_traced_inner scope v "".
End Resolve.

(** Every expression of a value with its location ([bindings.rs]). *)
Fixpoint walk_expressions (v : value) (location : string) : list (string * string) :=
  match v with
  | Object m =>
      (fix fields (m : list (string * value)) : list (string * string) :=
         match m with
         | [] => []
         | (k, x) :: rest => walk_expressions x (with_segment location k) ++ fields rest
         end) m
  | Array items =>
      (fix elements (i : nat) (l : list value) : list (string * string) :=
         match l with
         | [] => []
         | x :: rest =>
             walk_expressions x (with_segment location (pretty i)) ++ elements (S i) rest
         end) 0 items
  | Str s => if is_expression s then [(location, s)] else []
  | _ => []
  end.

Definition collect_expressions (v : value) : list (string * string) := walk_expressions v "".

(** ** Facts *)

(** Induction over values that goes through arrays and objects. *)
Section ValueInd.
Context (P : value → Prop).
Context (Hnull : P Null) (Hbool : ∀ b, P (Bool b)) (Hnum : ∀ n, P (Number n)).
Context (Hstr : ∀ s, P (Str s)) (Harr : ∀ l, Forall P l → P (Array l)).
Context (Hobj : ∀ m, Forall (λ kv, P kv.2) m → P (Object m)).

Fixpoint value_ind_nested (v : value) : P v :=
  match v with
  | Null => Hnull
  | Bool b => Hbool b
  | Number n => Hnum n
  | Str s => Hstr s
  | Array l =>
      Harr l ((fix go (l : list value) : Forall P l :=
                 match l with
                 | [] => List.Forall_nil P
                 | x :: l => List.Forall_cons P x l (value_ind_nested x) (go l)
                 end) l)
  | Object m =>
      Hobj m ((fix go (m : list (string * value)) : Forall (λ kv, P kv.2) m :=
                 match m with
                 | [] => List.Forall_nil _
                 | (k, x) :: m => List.Forall_cons (λ kv, P kv.2) (k, x) m (value_ind_nested x) (go m)
                 end) m)
  end.
End ValueInd.

Section Facts.
Context (jq : string → value → option value).

(** What a traced walk reports at a location: the expressions found there whose
    value is [null]. *)
Definition null_misses (scope : value) (found : list (string * string)) : list NullResolution :=
  (λ e, mkMiss e.1 e.2) <$> filter (λ e, evaluate jq (Str e.2) scope = Null) found.

Lemma null_misses_app scope l k :
  null_misses scope (l ++ k) = null_misses scope l ++ null_misses scope k.
Proof. unfold null_misses. by rewrite filter_app, fmap_app. Qed.

Lemma resolve_traced_inner_spec scope v : ∀ location,
  resolve_traced_inner jq scope v location =
  (resolve jq v scope, null_misses scope (walk_expressions v location)).
Proof.
  induction v as [| | |s|l IH|m IH] using value_ind_nested; intros location; try done.
  - cbn [resolve_traced_inner resolve walk_expressions].
    destruct (is_expression s) eqn:E; [|done]. f_equal. unfold null_misses. rewrite filter_cons.
    destruct (evaluate jq (Str s) scope) eqn:Ev; cbn [snd fst];
      by rewrite ?decide_True, ?decide_False by congruence.
  - cbn [resolve_traced_inner resolve walk_expressions]. generalize 0 as i.
    induction IH as [|x l Hx _ IHl]; intros i; [done|]. rewrite Hx. cbn [map].
    specialize (IHl (S i)). rewrite null_misses_app.
    destruct ((fix elements (i : nat) (l : list value) {struct l} :
      list value * list NullResolution := _) (S i) l) as [l' more].
    cbn in *. injection IHl as -> ->. done.
  - cbn [resolve_traced_inner resolve walk_expressions].
    induction IH as [|[k x] m Hx _ IHm]; [done|]. cbn in Hx. rewrite Hx. cbn [map fst snd].
    rewrite null_misses_app.
    destruct ((fix fields (m : list (string * value)) :
      list (string * value) * list NullResolution := _) m) as [m' more].
    cbn in *. injection IHm as -> ->. done.
Qed.

(** Without expressions nothing changes. *)
Lemma resolve_literal scope v : ∀ location,
  walk_expressions v location = [] → resolve jq v scope = v.
Proof.
  induction v as [| | |s|l IH|m IH] using value_ind_nested; intros location; try done.
  - cbn. by destruct (is_expression s).
  - cbn. intros Hw. f_equal. revert Hw. generalize 0 as i.
    induction IH as [|x l Hx _ IHl]; intros i Hw; [done|]. apply app_eq_nil in Hw as [Hw1 Hw2].
    cbn. f_equal; [by eapply Hx|by eapply IHl].
  - cbn. intros Hw. f_equal. revert Hw.
    induction IH as [|[k x] m Hx _ IHm]; intros Hw; [done|]. apply app_eq_nil in Hw as [Hw1 Hw2].
    cbn. f_equal; [f_equal; by eapply Hx|by apply IHm].
Qed.
End Facts.
