(* ===== verification/Postcondition.v ===== *)
(** * Node postconditions

    [crates/tinyflows/src/postcondition.rs] and the part of
    [engine/build/activation.rs] that turns the outcome of an executor into the
    outcome of an attempt.

    The derived decoder of [Postcondition] is generated code: it is the argument
    [de].  [satisfies] says declaratively what a postcondition asks of an item;
    [check] is proved to decide it, and the gate of the engine to let nothing
    else through. *)

From S2P Require Import Prelude Json GraphTypes Workflow WfState WfActivation Text Expr.
From Stdlib Require Import Ascii.
From Stdlib Require String.

Definition REQUIREMENTS : list string := ["non_empty"; "field_present"; "non_empty_list"].

Record Postcondition := mkPost { pc_require : string; pc_field : option string }.
#[export] Instance Postcondition_eq_dec : EqDecision Postcondition.
Proof. solve_decision. Defined.

(** A dotted path through nested objects. *)
Definition resolve_path (v : value) (path : string) : option value :=
  foldl (λ acc key, acc >>? as_object >>? obj_get key) (Some v) (split_char "."%char path).

(** [Option::filter] of the texts that are not empty. *)
Definition non_blank (s : option string) : option string :=
  match s with Some "" | None => None | Some s => Some s end.

Definition check_list (described : string) (target : option value) : result string unit :=
  match target with
  | Some (Array (_ :: _)) => Ok tt
  | Some (Array []) => Err (described +:+ " is an empty list — nothing came back to advance on.")
  | Some Null | None => Err (described +:+ " is missing — nothing came back to advance on.")
  | Some _ => Err (described +:+ " is not a list — the shape does not match.")
  end.

Definition check (p : Postcondition) (output : value) : result string unit :=
  let field := non_blank (pc_field p) in
  if decide (pc_require p = "non_empty") then
    let text := default "" (get "text" output >>? as_str) in
    if decide (trim text = "") then
      Err "the output was empty — nothing was produced to advance on."
    else Ok tt
  else if decide (pc_require p = "field_present") then
    match field with
    | None => Err ("the postcondition requires `field_present` but names no `field` to check — " +:+
                   "refusing to advance on an unverifiable gate.")
    | Some path =>
        match resolve_path output path with
        | Some v =>
            if is_null v then
              Err ("the output is missing `" +:+ path +:+ "` — the expected field never landed.")
            else Ok tt
        | None => Err ("the output is missing `" +:+ path +:+ "` — the expected field never landed.")
        end
    end
  else if decide (pc_require p = "non_empty_list") then
    match field with
    | Some path => check_list ("`" +:+ path +:+ "`") (resolve_path output path)
    | None =>
        check_list "the output"
          (match get "json" output with Some v => Some v | None => Some output end)
    end
  else Err ("the postcondition requires `" +:+ pc_require p +:+
            "`, which this build does not know how to check — refusing to advance rather than " +:+
            "silently pass an unevaluated gate.").

Definition item_gap (total : nat) (index : nat) (gap : string) : string :=
  if decide (total = 1) then gap else "item " +:+ pretty index +:+ ": " +:+ gap.

Definition check_items (p : Postcondition) (items : list Item) : result string unit :=
  match items with
  | [] => Err ("the node emitted no items, so nothing can satisfy `" +:+ pc_require p +:+ "`.")
  | _ =>
      for_each (λ ix, match check p (it_json ix.2) with
                      | Ok _ => Ok tt
                      | Err gap => Err (item_gap (length items) ix.1 gap)
                      end) (imap pair items)
  end.

(** The check when the workflow is authored. *)
Definition validate_postcondition (p : Postcondition) : result string unit :=
  if decide (pc_require p ∉ REQUIREMENTS) then
    Err ("unknown `postcondition.require` `" +:+ pc_require p +:+ "` — use one of " +:+
         join_with ", " REQUIREMENTS)
  else
    let field := trim <$> pc_field p in
    if decide (pc_require p = "field_present" ∧ non_blank field = None) then
      Err ("`postcondition.require = " +:+ quoted "field_present" +:+
           "` needs a `field` naming what it must find")
    else
      match non_blank field with
      | Some path =>
          if is_expression path || bool_decide ("" ∈ split_char "."%char path) then
            Err ("`postcondition.field` `" +:+ path +:+
                 "` must be a literal dotted path into the node's output (e.g. `json.items`); " +:+
                 "it is never expression-resolved")
          else Ok tt
      | None => Ok tt
      end.

Section Gate.
Context (f : Fmt) (de : value → result string Postcondition).

Definition from_config (config : value) : option (result string Postcondition) :=
  match get "postcondition" config with
  | None => None
  | Some declared =>
      if is_object declared then
        Some (match de declared with
              | Ok p => Ok p
              | Err err => Err ("the node's `postcondition` is malformed: " +:+ err)
              end)
      else Some (Err ("the node's `postcondition` is malformed: expected an object like {" +:+
                      quoted "require" +:+ ": " +:+ quoted "non_empty" +:+ "}, got " +:+
                      fmt_json f declared))
  end.

(** The gate after a successful executor. *)
Definition enforce (n : Node) (output : NodeOutput) : result EngineError unit :=
  match out_control output with
  | Some _ => Ok tt
  | None =>
      match from_config (nd_config n) with
      | None => Ok tt
      | Some declared =>
          match (let? p := declared in check_items p (out_items output)) with
          | Ok _ => Ok tt
          | Err gap =>
              Err (ECapability ("node '" +:+ nd_id n +:+ "' failed its postcondition: " +:+ gap))
          end
      end
  end.

(** One attempt: [None] is an attempt the timer of [node_timeout] ended. *)
Definition attempt_outcome (timeout_secs : N) (n : Node)
    (executed : nat → option (result EngineError NodeOutput)) (i : nat)
    : result EngineError NodeOutput :=
  match executed i with
  | Some (Ok out) => let? _ := enforce n out in Ok out
  | Some (Err err) => Err err
  | None => Err (ECapability ("node '" +:+ nd_id n +:+ "' attempt " +:+ pretty (S i) +:+
                              " timed out after " +:+ pretty timeout_secs +:+ "s"))
  end.

End Gate.

(** ** What a postcondition asks *)

(** [leads v path w]: following the keys of [path] through objects goes from [v]
    to [w]. *)
Inductive leads : value → list string → value → Prop :=
| leads_here v : leads v [] v
| leads_key m k v path w :
    obj_get k m = Some v → leads v path w → leads (Object m) (k :: path) w.

Definition list_target (p : Postcondition) (v w : value) : Prop :=
  match non_blank (pc_field p) with
  | Some path => leads v (split_char "."%char path) w
  | None => get "json" v = Some w ∨ (get "json" v = None ∧ w = v)
  end.

Inductive satisfies (p : Postcondition) (v : value) : Prop :=
| sat_non_empty text :
    pc_require p = "non_empty" → get "text" v = Some (Str text) → trim text ≠ "" → satisfies p v
| sat_field path w :
    pc_require p = "field_present" → pc_field p = Some path → path ≠ "" →
    leads v (split_char "."%char path) w → w ≠ Null → satisfies p v
| sat_list items :
    pc_require p = "non_empty_list" → list_target p v (Array items) → items ≠ [] →
    satisfies p v.

(** ** Facts *)

Lemma foldl_path_None path :
  foldl (λ acc key, acc >>? as_object >>? obj_get key) None path = None.
Proof. by induction path. Qed.

Lemma resolve_path_leads v path w :
  resolve_path v path = Some w ↔ leads v (split_char "."%char path) w.
Proof.
  unfold resolve_path. generalize (split_char "."%char path) as keys. intros keys. revert v.
  induction keys as [|k keys IH]; intros v; cbn.
  - split; [intros [= ->]; constructor|]. by inversion 1.
  - split.
    + intros H. destruct v as [| | | | |m]; cbn in H; try by rewrite foldl_path_None in H.
      destruct (obj_get k m) as [x|] eqn:E; [|by rewrite foldl_path_None in H].
      econstructor; [done|]. by apply IH.
    + inversion 1; subst; cbn. match goal with H : obj_get _ _ = _ |- _ => rewrite H end.
      by apply IH.
Qed.

Lemma non_blank_Some s t : non_blank s = Some t ↔ s = Some t ∧ t ≠ "".
Proof. destruct s as [[|c s]|]; cbn; naive_solver. Qed.

Lemma check_list_Ok d t : check_list d t = Ok tt ↔ ∃ l, t = Some (Array l) ∧ l ≠ [].
Proof. destruct t as [[| | | |[|x l]|m]|]; cbn; naive_solver. Qed.

(** [check] decides [satisfies]. *)
Lemma check_satisfies p v : check p v = Ok tt ↔ satisfies p v.
Proof.
  unfold check. repeat case_decide.
  - split; [done|]. inversion 1; try congruence.
    match goal with H : get _ _ = _ |- _ => rewrite H in * end. done.
  - split; [|done]. intros _.
    destruct (get "text" v) as [[| | |s| |]|] eqn:E; cbn in *; try done. by eapply sat_non_empty.
  - split.
    + destruct (non_blank (pc_field p)) as [path|] eqn:Ep; [|done].
      apply non_blank_Some in Ep as [Hp Hne].
      destruct (resolve_path v path) as [w|] eqn:Er; [|done].
      destruct (is_null w) eqn:En; [done|]. intros _. apply resolve_path_leads in Er.
      eapply sat_field; eauto. by intros ->.
    + inversion 1; try congruence.
      match goal with H : pc_field p = Some ?x, H' : ?x ≠ "" |- _ =>
        rewrite (proj2 (non_blank_Some _ _) (conj H H')) end.
      match goal with H : leads _ _ _ |- _ => apply resolve_path_leads in H; rewrite H end.
      by destruct w.
  - split.
    + intros Hok. assert (∃ l, list_target p v (Array l) ∧ l ≠ []) as (l & Hl & Hne).
      { unfold list_target. destruct (non_blank (pc_field p)).
        - apply check_list_Ok in Hok as (l & Hr & ?). exists l. by rewrite <- resolve_path_leads.
        - apply check_list_Ok in Hok as (l & Hr & ?). exists l.
          destruct (get "json" v); inv_ok; naive_solver. }
      by eapply sat_list.
    + inversion 1 as [|? ? ? ? ? ? ?|l ? Ht Hne]; try congruence. revert Ht. unfold list_target.
      destruct (non_blank (pc_field p)) as [path|].
      * intros Ht. apply check_list_Ok. exists l. by rewrite resolve_path_leads.
      * intros [Hj|[Hj Hv]]; rewrite Hj; apply check_list_Ok; exists l; [done|]. by rewrite <- Hv.
  - split; [done|]. inversion 1; congruence.
Qed.

Lemma imap_pair_Forall {A} (P : A → Prop) (l : list A) :
  Forall (λ ix : nat * A, P ix.2) (imap pair l) ↔ Forall P l.
Proof.
  rewrite !Forall_forall. split.
  - intros H x Hx. apply list_elem_of_lookup in Hx as [i Hi].
    apply (H (i, x)). by apply elem_of_enumerate.
  - intros H [i x] Hx. apply elem_of_enumerate in Hx. apply H. by eapply list_elem_of_lookup_2.
Qed.

Lemma check_items_satisfies p items :
  check_items p items = Ok tt ↔ items ≠ [] ∧ Forall (λ i, satisfies p (it_json i)) items.
Proof.
  destruct items as [|i items]; [cbn; naive_solver|].
  unfold check_items. rewrite for_each_Ok.
  rewrite <- (imap_pair_Forall (λ i, satisfies p (it_json i))).
  assert (Hiff : ∀ ix : nat * Item,
    match check p (it_json ix.2) with
    | Ok _ => Ok tt
    | Err gap => Err (item_gap (length (i :: items)) ix.1 gap)
    end = Ok tt ↔ satisfies p (it_json ix.2)).
  { intros ix. rewrite <- check_satisfies. by destruct (check p (it_json ix.2)) as [[]|]. }
  rewrite !Forall_forall. setoid_rewrite Hiff. naive_solver.
Qed.

(** A value that has [w] at the end of the path. *)
Fixpoint at_path (path : list string) (w : value) : value :=
  match path with [] => w | k :: path => Object [(k, at_path path w)] end.

Lemma leads_at_path path w : leads (at_path path w) path w.
Proof. induction path as [|k path IH]; econstructor; [cbn; by rewrite decide_True|done]. Qed.

(** A declaration that passes the check at authoring time can be met. *)
Lemma validated_satisfiable p : validate_postcondition p = Ok tt → ∃ v, satisfies p v.
Proof.
  unfold validate_postcondition. case_decide as Hr; [done|].
  set (item := Array [Null]). unfold REQUIREMENTS in Hr. rewrite !elem_of_cons in Hr.
  destruct Hr as [Hr|[Hr|[Hr|Hr]]]; [| | |by apply elem_of_nil in Hr].
  - intros _. exists (Object [("text", Str "x")]). by eapply sat_non_empty.
  - case_decide as Hf; [done|]. intros _.
    destruct (pc_field p) as [path|] eqn:Ep; [|by destruct Hf].
    exists (at_path (split_char "."%char path) item).
    eapply sat_field; [done|done| |apply leads_at_path|done].
    intros ->. apply Hf. by split.
  - intros _. destruct (non_blank (pc_field p)) as [path|] eqn:Ep.
    + exists (at_path (split_char "."%char path) item).
      eapply (sat_list _ _ [Null]); [done| |done]. unfold list_target. rewrite Ep.
      apply leads_at_path.
    + exists item. eapply (sat_list _ _ [Null]); [done| |done]. unfold list_target. rewrite Ep.
      by right.
Qed.
