(* ===== verification/WfConfig.v ===== *)
(** * Validation of node and agent configuration

    [crates/tinyflows/src/validate/node_config.rs] and [validate/agents.rs]: the
    checks of [validate_all] that read configuration objects, and with them the
    whole validation [validate_graph].

    The decoders serde derives are generated code: they are the record [Serde],
    each giving the decoded data or the message of the failure. *)

From stdpp Require Import sorting.
From S2P Require Import Prelude Json GraphTypes Workflow WfAnalysis WfValidate WfState WfActivation.
From S2P Require Import Text Expr Postcondition.
From Stdlib Require Import Ascii.
From Stdlib Require String.

Record Serde := mkSerde {
  de_postcondition : value → result string Postcondition;
  de_grants : value → result string (list ToolGrant);
  de_sources : value → result string (list ContextSource);
  de_limits : value → result string AgentLimits;
  de_metadata : value → result string (list (string * value));
  de_agent : value → result string AgentDefinition;
  ser_agent : AgentDefinition → result string value
}.

(** [str::ends_with]. *)
Fixpoint ends_with (suffix s : string) : bool :=
  bool_decide (s = suffix) ||
  match s with EmptyString => false | SCons _ rest => ends_with suffix rest end.

(** ** Node configuration ([validate/node_config.rs]) *)

Section NodeConfig.
Context (f : Fmt) (sd : Serde).

Definition postcondition_errors (n : Node) : list ValidationError :=
  match from_config f (de_postcondition sd) (nd_config n) with
  | Some declared =>
      match (let? p := declared in validate_postcondition p) with
      | Err reason => [InvalidNodeConfig (nd_id n) reason]
      | Ok _ => []
      end
  | None => []
  end.

(** A key that holds a string with something in it. *)
Definition has_text (key : string) (n : Node) : bool :=
  match get key (nd_config n) >>? as_str with
  | Some s => bool_decide (s ≠ "")
  | None => false
  end.

Definition sub_workflow_errors (n : Node) : list ValidationError :=
  if decide (nd_kind n = SubWorkflow) then
    if Bool.eqb (bool_decide (is_Some (get "workflow" (nd_config n)))) (has_text "workflow_id" n)
    then [InvalidNodeConfig (nd_id n)
            ("sub_workflow requires exactly one of `workflow` (inline) or `workflow_id` " +:+
             "(reference)")]
    else []
  else [].

(** *** Per-item fan-out *)

Definition fans_out (k : NodeKind) : bool :=
  bool_decide (k ∈ [Agent; ToolCall; HttpRequest; Memory; SubWorkflow]).

Definition execution_errors (n : Node) : list ValidationError :=
  match get "execution" (nd_config n) with
  | None => []
  | Some execution =>
      if decide (as_str execution ∈ [Some "once"; Some "per_item"]) then
        if fans_out (nd_kind n) then []
        else [InvalidNodeConfig (nd_id n)
                ("`execution` is not supported on a " +:+ kind_name (nd_kind n) +:+
                 " node (only agent, tool_call, http_request, memory, and sub_workflow map over " +:+
                 "their input)")]
      else [InvalidNodeConfig (nd_id n)
              ("unknown `execution` value " +:+ fmt_json f execution +:+ " (expected " +:+
               quoted "once" +:+ " or " +:+ quoted "per_item" +:+ ")")]
  end.

Definition per_item (n : Node) : bool :=
  let execution := get "execution" (nd_config n) >>? as_str in
  if decide (execution = Some "per_item") then true
  else if decide (execution = Some "once") then false
  else bool_decide (nd_kind n ∈ [ToolCall; HttpRequest; Memory]).

Definition knob_ok (key : string) (v : value) : bool :=
  if decide (key = "concurrency") then
    bool_decide (is_Some (as_u64 v)) || bool_decide (as_str v = Some "all")
  else bool_decide (as_str v ∈ [Some "collect"; Some "fail_fast"; Some "skip"]).

Definition knob_expected (key : string) : string :=
  if decide (key = "concurrency") then "a non-negative integer or " +:+ quoted "all"
  else quoted "collect" +:+ ", " +:+ quoted "fail_fast" +:+ ", or " +:+ quoted "skip".

Definition knob_errors (n : Node) (key : string) : list ValidationError :=
  match get key (nd_config n) with
  | None => []
  | Some v =>
      if negb (per_item n) then
        [InvalidNodeConfig (nd_id n)
           ("`" +:+ key +:+ "` has no effect without `execution: " +:+ quoted "per_item" +:+
            "` on a " +:+ kind_name (nd_kind n) +:+ " node")]
      else if knob_ok key v then []
      else [InvalidNodeConfig (nd_id n)
              ("`" +:+ key +:+ "` must be " +:+ knob_expected key +:+ ", got " +:+ fmt_json f v)]
  end.

Definition fan_out_errors (n : Node) : list ValidationError :=
  execution_errors n ++ concat (knob_errors n <$> ["concurrency"; "on_item_error"]).

(** *** Memory *)

Definition MEMORY_OPERATIONS : list string :=
  ["recall"; "search"; "flavour"; "people"; "remember"; "forget"].
Definition MEMORY_SCOPES : list string := ["user"; "flow"; "flows"].

Definition config_error (n : Node) (bad : bool) (reason : string) : list ValidationError :=
  if bad then [InvalidNodeConfig (nd_id n) reason] else [].

Definition memory_operation_errors (n : Node) (operation : string) (scope : option string)
    : list ValidationError :=
  let one_of ops := bool_decide (operation ∈ ops) in
  let op := fmt_debug f operation in
  config_error n (one_of ["remember"; "forget"] && bool_decide (scope ∈ [Some "user"; Some "flows"]))
    ("memory node operation " +:+ op +:+ " may not target scope " +:+
     fmt_debug f (default "" scope) +:+ " — remember/forget may only write scope " +:+
     quoted "flow" +:+ "; scopes " +:+ quoted "user" +:+ " and " +:+ quoted "flows" +:+
     " are read-only from a workflow") ++
  (match scope with
   | Some s => config_error n (bool_decide (s ∉ MEMORY_SCOPES))
                 ("memory node has unknown scope " +:+ fmt_debug f s +:+
                  " (expected user|flow|flows)")
   | None => []
   end) ++
  config_error n (one_of ["recall"; "remember"; "forget"] && bool_decide (scope = None))
    ("memory node operation " +:+ op +:+ " requires `scope`") ++
  config_error n (one_of ["recall"; "search"] && negb (has_text "query" n))
    ("memory node operation " +:+ op +:+ " requires `query`") ++
  config_error n (one_of ["flavour"] && negb (has_text "flavour" n))
    ("memory node operation " +:+ quoted "flavour" +:+ " requires `flavour` (slug)") ++
  config_error n (one_of ["remember"; "forget"] && negb (has_text "key" n))
    ("memory node operation " +:+ op +:+ " requires `key`") ++
  config_error n (one_of ["remember"] && bool_decide (get "value" (nd_config n) = None))
    ("memory node operation " +:+ quoted "remember" +:+ " requires `value`").

Definition memory_errors (n : Node) : list ValidationError :=
  if decide (nd_kind n = Memory) then
    match get "operation" (nd_config n) >>? as_str with
    | None =>
        [InvalidNodeConfig (nd_id n)
           "memory node requires `operation` (recall|search|flavour|people|remember|forget)"]
    | Some operation =>
        if decide (operation ∈ MEMORY_OPERATIONS) then
          memory_operation_errors n operation (get "scope" (nd_config n) >>? as_str)
        else
          [InvalidNodeConfig (nd_id n)
             ("memory node has unknown operation " +:+ fmt_debug f operation +:+
              " (expected one of recall|search|flavour|people|remember|forget)")]
    end
  else [].

(** *** Dedup and approval *)

Definition dedup_errors (n : Node) : list ValidationError :=
  if decide (nd_kind n = Dedup) then
    config_error n (negb (has_text "key" n))
      ("dedup node requires `key` (an " +:+ quoted "=expr" +:+ " resolved per item, e.g. " +:+
       quoted "=item.id" +:+ ")")
  else [].

Definition APPROVAL_ENUMS : list (string * list string) :=
  [("wait_mode", ["suspend"; "poll"]); ("on_reject", ["route"; "error"; "drop"]);
   ("on_timeout", ["error"; "reject"; "route"])].

Definition approval_enum_errors (n : Node) (entry : string * list string) : list ValidationError :=
  match get entry.1 (nd_config n) with
  | None => []
  | Some v =>
      config_error n (negb (bool_decide (as_str v ∈ Some <$> entry.2)))
        ("approval node has unknown `" +:+ entry.1 +:+ "` " +:+ fmt_json f v +:+
         " (expected one of " +:+ join_with ", " (fmt_debug f <$> entry.2) +:+ ")")
  end.

Definition assignees_ok (v : value) : bool :=
  match as_array v with
  | Some (x :: l) => forallb (λ x, bool_decide (is_Some (as_str x))) (x :: l)
  | _ => false
  end.

Definition approval_errors (n : Node) : list ValidationError :=
  if decide (nd_kind n = Approval) then
    concat (approval_enum_errors n <$> APPROVAL_ENUMS) ++
    match get "assignees" (nd_config n) with
    | None => []
    | Some v =>
        config_error n (negb (assignees_ok v))
          ("approval node `assignees` must be a non-empty array of strings (a single reviewer is " +:+
           "a one-element array)")
    end
  else [].

Definition validate_node_configs (g : WorkflowGraph) : list ValidationError :=
  concat (postcondition_errors <$> wg_nodes g) ++
  concat (sub_workflow_errors <$> wg_nodes g) ++
  concat (fan_out_errors <$> wg_nodes g) ++
  concat (memory_errors <$> wg_nodes g) ++
  concat (dedup_errors <$> wg_nodes g) ++
  concat (approval_errors <$> wg_nodes g).
End NodeConfig.

(** ** Agents ([validate/agents.rs]) *)

(** The label of a context source ([model/agent.rs]). *)
Definition label_or_index (s : ContextSource) (index : nat) : string :=
  match src_label s with
  | Some label => label
  | None =>
      match src_kind s with
      | CSHost source _ => source
      | CSFlavour slug => slug
      | CSMemory scope _ _ => "memory:" +:+ scope
      | CSText _ | CSItems => "context_" +:+ pretty index
      end
  end.

Section Agents.
Context (f : Fmt) (sd : Serde).

Definition tool_grant_problem (g : ToolGrant) : option string :=
  let slug := grant_slug g in
  if decide (slug = "") then Some "tool grant requires a non-empty `slug`"
  else if is_expression slug then
    Some ("tool grant `slug` must be a literal, not the expression " +:+ fmt_debug f slug +:+
          " — a tool chosen by run data is a tool chosen by whatever wrote that data")
  else if bool_decide (slug = "*") || (bool_decide (¬ lacks "*"%char slug) && negb (ends_with ".*" slug))
  then
    Some ("tool grant slug " +:+ fmt_debug f slug +:+ " is not a valid pattern — only a trailing " +:+
          "`.*` on a non-empty prefix is allowed (e.g. " +:+ quoted "github.*" +:+
          "); to use the harness's default tools, omit `tools` entirely")
  else
    match grant_connection_ref g with
    | Some conn =>
        if is_expression conn then
          Some ("tool grant `connection_ref` must be a literal, not the expression " +:+
                fmt_debug f conn +:+ " — a credential selected by run data is the " +:+
                "prompt-injection shape this field exists to prevent")
        else None
    | None => None
    end.

Definition context_source_problem (s : ContextSource) (index : nat) : option string :=
  let label := label_or_index s index in
  match src_kind s with
  | CSText text =>
      if is_null text || bool_decide (as_str text = Some "")
      then Some ("context source `" +:+ label +:+ "` has empty `text`") else None
  | CSMemory scope query _ =>
      if decide (scope ∉ MEMORY_SCOPES) then
        Some ("context source `" +:+ label +:+ "` has unknown memory scope " +:+
              fmt_debug f scope +:+ " (expected a literal user|flow|flows)")
      else if decide (query = "") then
        Some ("context source `" +:+ label +:+ "` has an empty memory `query`")
      else None
  | CSFlavour slug =>
      if decide (slug = "") then
        Some ("context source `" +:+ label +:+ "` has an empty flavour `slug`") else None
  | CSHost name _ =>
      if decide (name = "") then
        Some ("context source `" +:+ label +:+ "` has an empty host `source`")
      else if is_expression name then
        Some ("context source `" +:+ label +:+ "` host `source` must be a literal, not the " +:+
              "expression " +:+ fmt_debug f name +:+ " — which corpus an agent reads from should " +:+
              "not be chosen by run data")
      else None
  | CSItems => None
  end.

Definition limits_problem (l : AgentLimits) : option string :=
  (λ kv : string * option N, "`limits." +:+ kv.1 +:+
     "` must be greater than 0 (an agent that may take 0 steps cannot run); omit it for no bound") <$>
  find_first (λ kv, bool_decide (kv.2 = Some 0%N))
    [("max_steps", max_steps l); ("max_tool_calls", max_tool_calls l);
     ("agent_timeout_secs", agent_timeout_secs l); ("tool_timeout_secs", tool_timeout_secs l)].

Definition option_list {A B} (h : A → B) (o : option A) : list B :=
  match o with Some a => [h a] | None => [] end.

(** The registry of the graph, with the ids seen so far. *)
Fixpoint registry_errors (seen : gset string) (agents : list AgentDefinition)
    : list ValidationError :=
  match agents with
  | [] => []
  | a :: rest =>
      (if decide (ag_id a = "") then
         [InvalidAgentDefinition "" "agent definition requires a non-empty `id`"]
       else if decide (ag_id a ∈ seen) then [DuplicateAgentId (ag_id a)] else []) ++
      concat ((λ g, option_list (InvalidAgentDefinition (ag_id a)) (tool_grant_problem g)) <$>
                ag_tools a) ++
      concat (imap (λ index s,
        option_list (InvalidAgentDefinition (ag_id a)) (context_source_problem s index))
        (ag_context a)) ++
      option_list (InvalidAgentDefinition (ag_id a)) (limits_problem (ag_limits a)) ++
      registry_errors (if decide (ag_id a = "") then seen else {[ag_id a]} ∪ seen) rest
  end.

(** A configuration key that is there and not [null]. *)
Definition non_null (key : string) (config : value) : option value :=
  match get key config with
  | Some raw => if is_null raw then None else Some raw
  | None => None
  end.

Definition agent_ref_errors (n : Node) : list ValidationError :=
  match get "agent_ref" (nd_config n) with
  | Some (Str agent_ref) =>
      config_error n (is_expression agent_ref)
        ("`agent_ref` must be a literal, not the expression " +:+ fmt_debug f agent_ref +:+
         " — an expression resolves from run data, which would let upstream (possibly " +:+
         "model-influenced) data select a differently-privileged agent type")
  | Some v => config_error n (negb (is_null v)) "`agent_ref` must be a string"
  | None => []
  end.

(** A grant of the node that no grant of its agent type is related to. *)
Definition ungranted_errors (g : WorkflowGraph) (n : Node) (grants : list ToolGrant)
    : list ValidationError :=
  match get "agent_ref" (nd_config n) >>? as_str with
  | None => []
  | Some agent_ref =>
      match wf_agent g agent_ref with
      | None => []
      | Some definition =>
          if decide (ag_tools definition = []) then []
          else concat ((λ grant,
            config_error n
              (negb (existsb (λ d, covers d (grant_slug grant) || covers grant (grant_slug d))
                       (ag_tools definition)))
              ("tool " +:+ fmt_debug f (grant_slug grant) +:+ " is not granted by agent " +:+
               fmt_debug f agent_ref +:+
               " — a node may narrow its agent's tools, never widen them")) <$> grants)
      end
  end.

Definition tools_errors (g : WorkflowGraph) (n : Node) : list ValidationError :=
  match non_null "tools" (nd_config n) with
  | None => []
  | Some raw =>
      match de_grants sd raw with
      | Ok grants =>
          concat ((λ grant, option_list (InvalidNodeConfig (nd_id n)) (tool_grant_problem grant))
                    <$> grants) ++
          ungranted_errors g n grants
      | Err e => [InvalidNodeConfig (nd_id n) ("invalid `tools`: " +:+ e)]
      end
  end.

Definition context_errors (n : Node) : list ValidationError :=
  match non_null "context" (nd_config n) with
  | None => []
  | Some raw =>
      match de_sources sd raw with
      | Ok sources =>
          concat (imap (λ index s,
            option_list (InvalidNodeConfig (nd_id n)) (context_source_problem s index)) sources)
      | Err e => [InvalidNodeConfig (nd_id n) ("invalid `context`: " +:+ e)]
      end
  end.

Definition limits_errors (n : Node) : list ValidationError :=
  match non_null "limits" (nd_config n) with
  | None => []
  | Some raw =>
      match de_limits sd raw with
      | Ok limits => option_list (InvalidNodeConfig (nd_id n)) (limits_problem limits)
      | Err e => [InvalidNodeConfig (nd_id n) ("invalid `limits`: " +:+ e)]
      end
  end.

Definition agent_node_errors (g : WorkflowGraph) (n : Node) : list ValidationError :=
  if decide (nd_kind n = Agent) then
    agent_ref_errors n ++ tools_errors g n ++ context_errors n ++ limits_errors n
  else [].

Definition validate_agents (g : WorkflowGraph) : list ValidationError :=
  registry_errors ∅ (wg_agents g) ++ concat (agent_node_errors g <$> wg_nodes g).
End Agents.

Definition unresolved_agent_refs (g : WorkflowGraph) : list (string * string) :=
  omap (λ n, match get "agent_ref" (nd_config n) >>? as_str with
             | Some agent_ref =>
                 if decide (agent_ref ≠ "" ∧ wf_agent g agent_ref = None)
                 then Some (nd_id n, agent_ref) else None
             | None => None
             end) (filter (λ n, nd_kind n = Agent) (wg_nodes g)).

(** ** The whole validation *)

Definition validate_graph (f : Fmt) (sd : Serde) (g : WorkflowGraph) : list ValidationError :=
  validate_all f (validate_node_configs f sd) (validate_agents f sd) g.
