(* ===== verification/ControlNodes.v ===== *)
(** * Control-flow node executors

    [crates/tinyflows/src/nodes/mod.rs], [nodes/execution.rs], [nodes/release.rs]
    and the executors of [nodes/control_flow/]: what a native node does with the
    context of one activation.  [dedup], which reads a durable store, is in
    [Dedup.v].

    The fields of the code's [NodeContext] the native executors read are
    [ExecContext]; [jq] is the jq interpreter of [Expr.v]. *)

From S2P Require Import Prelude Json GraphTypes Workflow WfAnalysis WfState WfBuild WfActivation.
From S2P Require Import Text Expr.
From Stdlib Require Import SpecFloat Ascii.
From Stdlib Require String.

(** ** Context and scope ([nodes/mod.rs]) *)

Record ExecContext := mkExec {
  ec_node : Node;
  ec_input : list Item;
  ec_run : value;
  ec_nodes : value;
  ec_agents : list AgentDefinition;
  ec_lane : option LaneContext;
  ec_resume : option value;
  ec_step : nat
}.

(** The slices of the run state an activation hands its executor
    ([activation/input.rs]). *)
Definition run_meta (state : value) : value := default Null (get "run" state).
Definition nodes_state (state : value) : value := default Null (get "nodes" state).

(** [NodeOutput]'s constructors. *)
Definition output_main (items : list Item) : NodeOutput := mkOutput items None None None.
Definition output_routed (items : list Item) (port : string) : NodeOutput :=
  mkOutput items (Some port) None None.
Definition with_meta (out : NodeOutput) (meta : value) : NodeOutput :=
  mkOutput (out_items out) (out_port out) (Some meta) (out_control out).
Definition with_control (out : NodeOutput) (c : NodeControl) : NodeOutput :=
  mkOutput (out_items out) (out_port out) (out_meta out) (Some c).
Definition reenter_after (after_ms : Z) (meta : value) : NodeOutput :=
  with_control (with_meta empty_output meta) (CReenter after_ms).
Definition scatter_output (lanes : list (list Item)) (meta : value) : NodeOutput :=
  with_control (with_meta empty_output meta) (CScatter lanes).
Definition interrupt_output (id : string) (payload : value) : NodeOutput :=
  with_control empty_output (CInterrupt id payload).

Definition paired_with (i : Item) (index : nat) : Item :=
  mkItem (it_json i) (it_binary i) (Some index).

(** *** Execution mode *)

Inductive ExecutionMode := Once | PerItem.
#[export] Instance ExecutionMode_eq_dec : EqDecision ExecutionMode.
Proof. solve_decision. Defined.

Definition execution_mode (config : value) (dflt : ExecutionMode) : ExecutionMode :=
  let execution := get "execution" config >>? as_str in
  if decide (execution = Some "per_item") then PerItem
  else if decide (execution = Some "once") then Once
  else dflt.

(** *** Scopes *)

Definition starts_with_underscore (s : string) : bool := String.prefix "_" s.

(** The entry of one node in the scope: its items, and what it recorded about
    itself. *)
Definition scope_entry (slot : value) (items : list value) : value :=
  let jsons := (λ item, default Null (get "json" item)) <$> items in
  let entry := object_or_empty (json_object
    [("item", default Null (head jsons)); ("items", Array jsons)]) in
  Object (foldl (λ e kv, obj_insert kv.1 kv.2 e) entry
    (filter (λ kv : string * value,
       kv.1 ≠ "items" ∧ kv.1 ≠ "port" ∧ starts_with_underscore kv.1 = false)
       (object_or_empty slot))).

Definition nodes_scope (nodes : value) : value :=
  Object (foldl (λ scope kv,
    match get "items" kv.2 >>? as_array with
    | Some items => obj_insert kv.1 (scope_entry kv.2 items) scope
    | None => scope
    end) [] (object_or_empty nodes)).

Definition build_expr_scope (item : value) (items : list value) (run nodes : value) : value :=
  json_object [("item", item); ("items", Array items); ("run", run); ("nodes", nodes);
               ("inputs", default Null (get "inputs" run))].

Definition expr_scope_for (c : ExecContext) (item : value) : value :=
  build_expr_scope item (it_json <$> ec_input c) (ec_run c) (nodes_scope (ec_nodes c)).

Definition first_json (items : list Item) : value :=
  match items with i :: _ => it_json i | [] => Null end.

Definition expr_scope (c : ExecContext) : value := expr_scope_for c (first_json (ec_input c)).

(** ** Truth of a value *)

Definition is_truthy (v : value) : bool :=
  match v with
  | Null => false
  | Bool b => b
  | Number _ => match as_f64 v with Some (S754_zero _) | None => false | Some _ => true end
  | Str s => bool_decide (s ≠ "")
  | Array l => match l with [] => false | _ => true end
  | Object m => match m with [] => false | _ => true end
  end.

(** ** Release policies ([nodes/release.rs]) *)

Inductive ReleasePolicy :=
| RAll | RAny | RFirstN (n : Z) | RQuorum (n : Z) | RTimeoutPartial.

Inductive Release := Emit | Wait | Timeout.
#[export] Instance Release_eq_dec : EqDecision Release.
Proof. solve_decision. Defined.

Definition release_count (f : Fmt) (config : value) (node_id : string) : result EngineError Z :=
  match get "n" config >>? as_u64 with
  | Some n => if decide (0 < n)%Z then Ok n
              else Err (ECapability ("node " +:+ fmt_debug f node_id +:+
                     ": `release` needs a positive integer `n`"))
  | None => Err (ECapability ("node " +:+ fmt_debug f node_id +:+
                   ": `release` needs a positive integer `n`"))
  end.

Definition release_from_config (f : Fmt) (config : value) (node_id : string)
    : result EngineError ReleasePolicy :=
  match get "release" config >>? as_str with
  | None => Ok RAll
  | Some release =>
      if decide (release = "all") then Ok RAll
      else if decide (release = "any") then Ok RAny
      else if decide (release = "first_n") then
        let? n := release_count f config node_id in Ok (RFirstN n)
      else if decide (release = "quorum") then
        let? n := release_count f config node_id in Ok (RQuorum n)
      else if decide (release = "timeout_partial") then Ok RTimeoutPartial
      else Err (ECapability ("node " +:+ fmt_debug f node_id +:+ ": unknown `release` policy " +:+
             fmt_debug f release +:+
             "; expected one of all, any, first_n, quorum, timeout_partial"))
  end.

Definition threshold (p : ReleasePolicy) (expected : Z) : Z :=
  match p with
  | RAll | RTimeoutPartial => expected
  | RAny => Z.min 1 expected
  | RFirstN n | RQuorum n => Z.min n expected
  end.

Definition release_evaluate (p : ReleasePolicy) (arrived expected : Z) (budget_spent : bool)
    : Release :=
  if decide (threshold p expected ≤ arrived)%Z then Emit
  else if negb budget_spent then Wait
  else match p with RTimeoutPartial => Emit | _ => Timeout end.

Section Executors.
Context (f : Fmt) (jq : string → value → option value).

(** An expression is evaluated, a literal stands. *)
Definition evaluate_if_expression (v scope : value) : value :=
  match as_str v with
  | Some s => if is_expression s then evaluate jq v scope else v
  | None => v
  end.

(** ** Stateless nodes *)

Definition execute_trigger (c : ExecContext) : result EngineError NodeOutput :=
  Ok (output_main (ec_input c)).

Definition execute_merge (c : ExecContext) : result EngineError NodeOutput :=
  Ok (output_main (ec_input c)).

Definition condition_value (c : ExecContext) (item : Item) : value :=
  match get "field" (nd_config (ec_node c)) >>? as_str with
  | Some field =>
      if is_expression field then evaluate jq (Str field) (expr_scope c)
      else default Null (get field (it_json item))
  | None => it_json item
  end.

Definition execute_condition (c : ExecContext) : result EngineError NodeOutput :=
  let truthy := match ec_input c with
                | item :: _ => is_truthy (condition_value c item)
                | [] => false
                end in
  Ok (output_routed (ec_input c) (if truthy then "true" else "false")).

Definition switch_value (c : ExecContext) : value :=
  let scope := expr_scope c in
  match get "expression" (nd_config (ec_node c)) with
  | Some expr => evaluate jq expr scope
  | None =>
      match get "field" (nd_config (ec_node c)) >>? as_str with
      | Some field => default Null (get "item" scope >>? get field)
      | None => Null
      end
  end.

Definition switch_port (v : value) : string :=
  match v with
  | Str s => s
  | Number _ => fmt_json f v
  | Bool b => if b then "true" else "false"
  | Null | Object _ | Array _ => "default"
  end.

Definition execute_switch (c : ExecContext) : result EngineError NodeOutput :=
  Ok (output_routed (ec_input c) (switch_port (switch_value c))).

Definition resolve_dotted_path (v : value) (path : string) : value :=
  walk_segments (split_char "."%char path) v.

Definition split_item (path : option string) (index : nat) (item : Item) : list Item :=
  let v := match path with
           | Some p => if decide (p ≠ "") then resolve_dotted_path (it_json item) p
                       else it_json item
           | None => it_json item
           end in
  match v with
  | Array elements => (λ e, paired_with (item_new e) index) <$> elements
  | other => [paired_with (item_new other) index]
  end.

Definition execute_split_out (c : ExecContext) : result EngineError NodeOutput :=
  let path := get "path" (nd_config (ec_node c)) >>? as_str in
  Ok (output_main (concat (imap (split_item path) (ec_input c)))).

Definition transform_item (c : ExecContext) (set : option (list (string * value))) (index : nat)
    (item : Item) : Item :=
  let scope := build_expr_scope (it_json item) (it_json <$> ec_input c) (ec_run c)
                 (nodes_scope (ec_nodes c)) in
  let json :=
    match set with
    | Some set =>
        Object (foldl (λ obj kv, obj_insert kv.1 (evaluate jq kv.2 scope) obj)
                  (object_or_empty (it_json item)) set)
    | None => it_json item
    end in
  paired_with (item_new json) index.

Definition execute_transform (c : ExecContext) : result EngineError NodeOutput :=
  let set := get "set" (nd_config (ec_node c)) >>? as_object in
  Ok (output_main (imap (transform_item c set) (ec_input c))).

Definition execute_void (c : ExecContext) : result EngineError NodeOutput :=
  Ok (with_meta empty_output (json_object [("discarded", value_of_nat (length (ec_input c)))])).

(** ** Scatter *)

Definition MAX_LANES : Z := 256.

(** [slice::chunks] of a positive size; the fuel is the length. *)
Fixpoint chunks_fuel {A} (fuel size : nat) (l : list A) : list (list A) :=
  match fuel, l with
  | S fuel, _ :: _ => take size l :: chunks_fuel fuel size (drop size l)
  | _, _ => []
  end.
Definition chunks {A} (size : nat) (l : list A) : list (list A) := chunks_fuel (length l) size l.

(** [usize::div_ceil]. *)
Definition div_ceil (a b : Z) : Z := (a / b + if decide (a mod b = 0)%Z then 0 else 1)%Z.

Definition split_lanes (items : list Item) (lanes : option Z) : list (list Item) :=
  match items with
  | [] => []
  | _ =>
      let total := Z.of_nat (length items) in
      let requested := Z.max 1 (Z.min (default total lanes) MAX_LANES) in
      if decide (total ≤ requested)%Z then (λ item, [item]) <$> items
      else chunks (Z.to_nat (div_ceil total requested)) items
  end.

(** What the scatter splits: the array its [path] names, or its input. *)
Definition scatter_items (c : ExecContext) : list Item :=
  match get "path" (nd_config (ec_node c)) >>? as_str with
  | Some path =>
      let source := it_json <$> head (ec_input c) in
      match foldl (λ v segment, v >>? get segment) source (split_char "."%char path) >>? as_array with
      | Some values => item_new <$> values
      | None => ec_input c
      end
  | None => ec_input c
  end.

Definition requested_lanes (config : value) : option Z :=
  match get "lanes" config >>? as_u64 with
  | Some n => if decide (0 < n)%Z then Some n else None
  | None => None
  end.

Definition execute_scatter (c : ExecContext) : result EngineError NodeOutput :=
  match ec_lane c with
  | Some _ =>
      Err (ECapability ("scatter node " +:+ fmt_debug f (nd_id (ec_node c)) +:+
             ": nested scatter is not supported — this activation is already inside a lane"))
  | None =>
      let lanes := split_lanes (scatter_items c) (requested_lanes (nd_config (ec_node c))) in
      Ok (scatter_output lanes (json_object [("lane_count", value_of_nat (length lanes))]))
  end.

(** ** Gather *)

Definition DEFAULT_POLL_INTERVAL_MS : Z := 5.
Definition DEFAULT_MAX_POLLS : Z := 500.
Definition POLLS_KEY : string := "polls".

Inductive OnLaneError := LaneCollect | LaneSkip | LaneFailFast.
#[export] Instance OnLaneError_eq_dec : EqDecision OnLaneError.
Proof. solve_decision. Defined.

Definition on_lane_error_from (config : value) : OnLaneError :=
  let policy := get "on_lane_error" config >>? as_str in
  if decide (policy = Some "skip") then LaneSkip
  else if decide (policy = Some "fail_fast") then LaneFailFast
  else LaneCollect.

Record Arrived := mkArrived { ar_index : nat; ar_items : list Item; ar_failed : option string }.

Definition arrived_of (slot : value) : Arrived :=
  mkArrived
    (default 0 (get "index" slot >>? as_usize))
    (match get "items" slot >>? as_array with
     | Some items => omap item_of_value items
     | None => []
     end)
    (if decide ((get "status" slot >>? as_str) = Some "failed")
     then Some (default "lane failed" (get "error" slot >>? as_str)) else None).

Definition arrivals (nodes : value) (predecessors : list string) : list Arrived :=
  concat ((λ pred, match get pred nodes >>? get "lanes" >>? as_object with
                   | Some lanes => arrived_of <$> lanes.*2
                   | None => []
                   end) <$> predecessors).

(** [find_map] over the slots, in the order of their ids. *)
Definition expected_lanes (nodes : value) : option nat :=
  match as_object nodes with
  | Some slots => head (omap (λ slot, get "lane_count" slot >>? as_usize) slots.*2)
  | None => None
  end.

Definition gather_positive (config : value) (key : string) (dflt : Z) : Z :=
  match get key config >>? as_u64 with
  | Some n => if decide (0 < n)%Z then n else dflt
  | None => dflt
  end.

Fixpoint insert_lane (a : Arrived) (l : list Arrived) : list Arrived :=
  match l with
  | [] => [a]
  | b :: rest => if decide (ar_index a ≤ ar_index b) then a :: l else b :: insert_lane a rest
  end.
(** [sort_by_key], which is stable. *)
Definition sort_lanes (l : list Arrived) : list Arrived := foldr insert_lane [] l.

Definition emit_lane (policy : OnLaneError) (a : Arrived) : list Item :=
  match ar_failed a with
  | Some error =>
      if decide (policy = LaneSkip) then []
      else [paired_with (item_new (json_object
              [("failed", Bool true); ("error", Str error); ("lane", value_of_nat (ar_index a))]))
              (ar_index a)]
  | None => (λ i, paired_with i (ar_index a)) <$> ar_items a
  end.
Definition emit_items (arrived : list Arrived) (policy : OnLaneError) : list Item :=
  concat (emit_lane policy <$> sort_lanes arrived).

Definition gather_from (config : value) : list string :=
  match get "from" config >>? as_array with Some l => omap as_str l | None => [] end.

Definition gather_polls (c : ExecContext) : Z :=
  default 0%Z (get (nd_id (ec_node c)) (ec_nodes c) >>? get POLLS_KEY >>? as_u64).

Definition failed_lanes (arrived : list Arrived) : nat :=
  length (filter (λ a, is_Some (ar_failed a)) arrived).

Definition execute_gather (c : ExecContext) : result EngineError NodeOutput :=
  let config := nd_config (ec_node c) in
  let id := nd_id (ec_node c) in
  let? policy := release_from_config f config id in
  let arrived := arrivals (ec_nodes c) (gather_from config) in
  let count := length arrived in
  let expected := default count (expected_lanes (ec_nodes c)) in
  let polls := gather_polls c in
  let max_polls := gather_positive config "max_polls" DEFAULT_MAX_POLLS in
  let on_lane_error := on_lane_error_from config in
  let first_failure :=
    if decide (on_lane_error = LaneFailFast) then head (omap ar_failed arrived) else None in
  match first_failure with
  | Some failure =>
      Err (ECapability ("gather node " +:+ fmt_debug f id +:+
             ": lane failed and `on_lane_error` is " +:+ quoted "fail_fast" +:+ ": " +:+ failure))
  | None =>
      let fields :=
        [(POLLS_KEY, value_of_i64 (polls + 1)); ("lanes", value_of_nat expected);
         ("arrived", value_of_nat count); ("failed", value_of_nat (failed_lanes arrived))] in
      match release_evaluate policy (Z.of_nat count) (Z.of_nat expected)
              (bool_decide (max_polls ≤ polls)%Z) with
      | Wait =>
          Ok (reenter_after (gather_positive config "poll_interval_ms" DEFAULT_POLL_INTERVAL_MS)
                (json_object fields))
      | Timeout =>
          Err (ECapability ("gather node " +:+ fmt_debug f id +:+ ": only " +:+ pretty count +:+
                 " of " +:+ pretty expected +:+ " lanes arrived within " +:+ pretty max_polls +:+
                 " polls; raise `max_polls`, relax `release`, or use `release: " +:+
                 quoted "timeout_partial" +:+ "`"))
      | Emit =>
          Ok (with_meta (output_main (emit_items arrived on_lane_error))
                (json_object (fields ++ [("partial", Bool (bool_decide (count < expected)))])))
      end
  end.

(** ** Loop *)

Inductive EmitMode := EmitItems | EmitState | EmitBoth.

Definition emit_mode_from (config : value) : EmitMode :=
  let emit := get "emit" config >>? as_str in
  if decide (emit = Some "state") then EmitState
  else if decide (emit = Some "both") then EmitBoth
  else EmitItems.

Definition emit_mode_items (m : EmitMode) (items : list Item) (state : value) : list Item :=
  match m with
  | EmitItems => items
  | EmitState => [item_new state]
  | EmitBoth => items ++ [item_new state]
  end.

Definition continues_on_exceeded (config : value) : bool :=
  bool_decide ((get "on_exceeded" config >>? as_str) = Some "continue").

Definition success_port (config : value) : bool :=
  default false (get "success_port" config >>? as_bool).

Definition loop_slot (c : ExecContext) : option value := get (nd_id (ec_node c)) (ec_nodes c).

Definition current_iteration (c : ExecContext) : Z :=
  default 0%Z (loop_slot c >>? get "iteration" >>? as_u64).

Definition current_state (c : ExecContext) : option value := loop_slot c >>? get "state".

Definition initial_state (c : ExecContext) : value :=
  match get "state" (nd_config (ec_node c)) >>? get "init" with
  | Some init => evaluate_if_expression init (expr_scope c)
  | None => Null
  end.

Definition scope_with_state (c : ExecContext) (state : value) : value :=
  match expr_scope c with
  | Object m => Object (obj_insert "state" state m)
  | scope => scope
  end.

Definition fold_state (c : ExecContext) : value :=
  let previous := match current_state c with Some s => s | None => initial_state c end in
  match get "state" (nd_config (ec_node c)) >>? get "update" with
  | None => previous
  | Some update =>
      let scope := scope_with_state c previous in
      match update with
      | Object fields =>
          Object (foldl (λ next kv, obj_insert kv.1 (evaluate_if_expression kv.2 scope) next)
                    (object_or_empty previous) fields)
      | raw => evaluate_if_expression raw scope
      end
  end.

Definition until_holds (c : ExecContext) (state : value) : bool :=
  match get "until" (nd_config (ec_node c)) with
  | Some until => is_truthy (evaluate_if_expression until (scope_with_state c state))
  | None => false
  end.

Definition condition_holds (c : ExecContext) : bool :=
  match get "condition" (nd_config (ec_node c)) with
  | Some condition => is_truthy (evaluate_if_expression condition (expr_scope c))
  | None => true
  end.

Definition max_iterations (c : ExecContext) : Z :=
  default DEFAULT_MAX_ITERATIONS (get "max_iterations" (nd_config (ec_node c)) >>? as_u64).

Definition loop_state (c : ExecContext) : value :=
  if decide (0 < current_iteration c)%Z then fold_state c else initial_state c.

Definition loop_exit (c : ExecContext) (reason port : string) : NodeOutput :=
  let state := loop_state c in
  with_meta (output_routed (emit_mode_items (emit_mode_from (nd_config (ec_node c)))
                              (ec_input c) state) port)
    (json_object [("iteration", value_of_i64 (current_iteration c)); ("state", replace state);
                  ("exit_reason", Str reason)]).

Definition execute_loop (c : ExecContext) : result EngineError NodeOutput :=
  let config := nd_config (ec_node c) in
  let iteration := current_iteration c in
  let state := loop_state c in
  if until_holds c state then
    Ok (loop_exit c "until" (if success_port config then "success" else "done"))
  else if negb (condition_holds c) then Ok (loop_exit c "condition" "done")
  else if decide (max_iterations c ≤ iteration)%Z then
    if continues_on_exceeded config then Ok (loop_exit c "max_iterations" "done")
    else Err (ELoopLimit (nd_id (ec_node c)) (Z.to_N (max_iterations c)))
  else
    Ok (with_meta (output_routed (ec_input c) "body")
          (json_object [("iteration", value_of_i64 (iteration + 1)); ("state", replace state)])).

(** ** Dispatch ([executor_for])

    The capability-backed kinds and [dedup] are executed by [host]. *)
Definition executor_for (host : NodeKind → ExecContext → result EngineError NodeOutput)
    (k : NodeKind) (c : ExecContext) : result EngineError NodeOutput :=
  match k with
  | Trigger => execute_trigger c
  | Condition => execute_condition c
  | Switch => execute_switch c
  | Merge => execute_merge c
  | SplitOut => execute_split_out c
  | Transform => execute_transform c
  | Void => execute_void c
  | Scatter => execute_scatter c
  | Gather => execute_gather c
  | Loop => execute_loop c
  | _ => host k c
  end.
End Executors.
