(* ===== verification/Dedup.v ===== *)
(** * The dedup node and its settlement

    [crates/tinyflows/src/nodes/control_flow/dedup.rs] (the filter that runs
    inside a workflow) and [dedup_settle.rs] (what the host does when the run is
    over).

    Both talk to a key/value store the host provides: [KeyValue], with the laws
    [LawfulKv].  A call may fail; a failed write may or may not have taken
    effect.  Sets are [gset string]; the stored form is the sorted array. *)
From stdpp Require Import sorting.
From Stdlib Require String.
From S2P Require Import Prelude Json GraphTypes Search Workflow WfAnalysis WfValidate WfState WfActivation.
From S2P Require Import Text Expr ControlNodes WfSamples.

(** ** The store *)

Record KeyValue (S E : Type) := mkKeyValue {
  kv_get : string → S → result E (option value) * S;
  kv_set : string → value → S → result E unit * S;
  kv_delete : string → S → result E unit * S
}.
Arguments mkKeyValue {S E}.
Arguments kv_get {S E}.
Arguments kv_set {S E}.
Arguments kv_delete {S E}.

Class LawfulKv {S E} (kv : KeyValue S E) (contents : S → gmap string value) := {
  kv_get_law k s :
    contents (kv_get kv k s).2 = contents s ∧
    ∀ v, (kv_get kv k s).1 = Ok v → v = contents s !! k;
  kv_set_law k v s :
    match (kv_set kv k v s).1 with
    | Ok _ => contents (kv_set kv k v s).2 = <[k := v]> (contents s)
    | Err _ => contents (kv_set kv k v s).2 = contents s ∨
               contents (kv_set kv k v s).2 = <[k := v]> (contents s)
    end;
  kv_delete_law k s :
    match (kv_delete kv k s).1 with
    | Ok _ => contents (kv_delete kv k s).2 = delete k (contents s)
    | Err _ => contents (kv_delete kv k s).2 = contents s ∨
               contents (kv_delete kv k s).2 = delete k (contents s)
    end
}.

(** ** Keys and key sets *)

Definition committed_key (node_id : string) : string := "dedup:" +:+ node_id +:+ ":committed".
Definition tentative_key (node_id : string) (run_id : option string) : string :=
  match run_id with
  | Some run_id => "dedup:" +:+ node_id +:+ ":tentative:" +:+ run_id
  | None => "dedup:" +:+ node_id +:+ ":tentative"
  end.
Definition carryover_key (node_id : string) : string := "dedup:" +:+ node_id +:+ ":uncommitted".

(** What is stored, read as a set: anything else is the empty set. *)
Definition key_set_of (stored : option value) : gset string :=
  match stored >>? as_array with
  | Some l => list_to_set (omap as_str l)
  | None => ∅
  end.
Definition key_set_value (set : gset string) : value :=
  json_strings (merge_sort string_le (elements set)).

(** [run.id]. *)
Definition run_id (c : ExecContext) : option string := get "id" (ec_run c) >>? as_str.

Definition resolve_key (f : Fmt) (cfg : value) : option string :=
  match get "key" cfg with
  | None | Some Null => None
  | Some (Str s) => if decide (s = "") then None else Some s
  | Some other => Some (fmt_json f other)
  end.

Section Ops.
Context {S E : Type} (kv : KeyValue S E).

Definition load_key_set (key : string) (s : S) : result E (gset string) * S :=
  match kv_get kv key s with
  | (Ok stored, s) => (Ok (key_set_of stored), s)
  | (Err e, s) => (Err e, s)
  end.

Definition store_key_set (key : string) (set : gset string) (s : S) : result E unit * S :=
  kv_set kv key (key_set_value set) s.
End Ops.

(** ** The node ([dedup.rs]) *)

Section Node.
Context (f : Fmt) (jq : string → value → option value).

(** The key of an item: the configuration resolved for that item. *)
Definition item_key (c : ExecContext) (i : Item) : option string :=
  resolve_key f (resolve_traced jq (nd_config (ec_node c)) (expr_scope_for c (it_json i))).1.

Definition dedup_item (c : ExecContext) (committed : gset string)
    (acc : gset string * list Item) (i : Item) : gset string * list Item :=
  let '(seen, passed) := acc in
  match item_key c i with
  | None => (seen, passed ++ [i])
  | Some key =>
      if decide (key ∈ committed) then (seen, passed)
      else if decide (key ∈ seen) then (seen, passed)
      else ({[key]} ∪ seen, passed ++ [i])
  end.

Definition execute_dedup {S} (kv : KeyValue S EngineError) (c : ExecContext) (s : S)
    : result EngineError NodeOutput * S :=
  let node_id := nd_id (ec_node c) in
  match load_key_set kv (committed_key node_id) s with
  | (Err e, s) => (Err e, s)
  | (Ok committed, s) =>
      let '(seen, passed) := foldl (dedup_item c committed) (∅, []) (ec_input c) in
      if decide (seen = ∅) then (Ok (output_main passed), s)
      else
        let key := tentative_key node_id (run_id c) in
        match load_key_set kv key s with
        | (Err e, s) => (Err e, s)
        | (Ok tentative, s) =>
            match store_key_set kv key (seen ∪ tentative) s with
            | (Err e, s) => (Err e, s)
            | (Ok _, s) => (Ok (output_main passed), s)
            end
        end
  end.
End Node.

(** ** Settlement ([dedup_settle.rs]) *)

Inductive CommitOutcome :=
| NothingTentative
| CommitFailed (error : string)
| Committed (added committed_len : nat) (clear_error : option string).

Inductive Settlement :=
| SettledCommit (outcome : CommitOutcome)
| SettledRelease (r : result string unit).

Definition is_success_status (status : string) : bool :=
  bool_decide (status ∈ ["completed"; "completed_with_warnings"]).

Section Settle.
Context {S : Type} (kv : KeyValue S string).

Definition park_for_retry (tentative_key : string) (park_key : option string)
    (tentative : gset string) (carryover : option (gset string)) (error : string) (s : S)
    : CommitOutcome * S :=
  match park_key, carryover with
  | Some key, Some carryover =>
      if decide (tentative = ∅) then (CommitFailed error, s)
      else
        match store_key_set kv key (carryover ∪ tentative) s with
        | (Ok _, s) => (CommitFailed error, (kv_delete kv tentative_key s).2)
        | (Err _, s) => (CommitFailed error, s)
        end
  | _, _ => (CommitFailed error, s)
  end.

Definition result_err {A} (r : result string A) : option string :=
  match r with Ok _ => None | Err e => Some e end.

Definition commit (node_id : string) (run_id : option string) (s : S) : CommitOutcome * S :=
  let tentative_key := tentative_key node_id run_id in
  let committed_key := committed_key node_id in
  let carryover_key := carryover_key node_id in
  match load_key_set kv tentative_key s with
  | (Err e, s) => (CommitFailed e, s)
  | (Ok tentative, s) =>
      let '(carried, s) := load_key_set kv carryover_key s in
      let carryover := match carried with Ok set => Some set | Err _ => None end in
      let park_key := match run_id with Some _ => Some carryover_key | None => None end in
      if decide (tentative = ∅ ∧ default ∅ carryover = ∅) then (NothingTentative, s)
      else
        match load_key_set kv committed_key s with
        | (Err e, s) => park_for_retry tentative_key park_key tentative carryover e s
        | (Ok committed, s) =>
            let added := size ((tentative ∪ default ∅ carryover) ∖ committed) in
            let committed' := committed ∪ (tentative ∪ default ∅ carryover) in
            match store_key_set kv committed_key committed' s with
            | (Err e, s) => park_for_retry tentative_key park_key tentative carryover e s
            | (Ok _, s) =>
                let '(cleared, s) := kv_delete kv tentative_key s in
                if decide (default ∅ carryover = ∅) then
                  (Committed added (size committed') (result_err cleared), s)
                else
                  let '(cleared', s) := kv_delete kv carryover_key s in
                  (Committed added (size committed')
                     (match cleared with Err e => Some e | Ok _ => result_err cleared' end), s)
            end
        end
  end.

Definition dedup_release (node_id : string) (run_id : option string) (s : S) : result string unit * S :=
  kv_delete kv (tentative_key node_id run_id) s.

Definition settle (node_id : string) (run_id : option string) (success : bool) (s : S)
    : Settlement * S :=
  if success then let '(outcome, s) := commit node_id run_id s in (SettledCommit outcome, s)
  else let '(r, s) := dedup_release node_id run_id s in (SettledRelease r, s).
End Settle.

(** ** Facts *)

Lemma key_set_roundtrip set : key_set_of (Some (key_set_value set)) = set.
Proof.
  unfold key_set_of, key_set_value, json_strings. cbn.
  assert (Hom : ∀ l : list string, omap as_str (Str <$> l) = l).
  { induction l as [|x l IH]; [done|]. cbn. by f_equal. }
  rewrite Hom. apply leibniz_equiv. intros x. rewrite elem_of_list_to_set, merge_sort_Permutation.
  apply elem_of_elements.
Qed.

(** The three keys of one node are three keys. *)
Lemma append_inj_l a b c : a +:+ b = a +:+ c → b = c.
Proof. apply (inj (String.append a)). Qed.

Lemma dedup_keys_distinct id r :
  committed_key id ≠ tentative_key id r ∧ committed_key id ≠ carryover_key id ∧
  tentative_key id r ≠ carryover_key id.
Proof.
  unfold committed_key, tentative_key, carryover_key.
  split_and!; [destruct r| |destruct r]; intros H; do 2 apply append_inj_l in H; discriminate H.
Qed.

(** * Properties of the dedup node and its settlement *)

(** ** The operations, seen as changes of key sets *)

Section Sets.
Context {S E : Type} (kv : KeyValue S E) (contents : S → gmap string value) `{!LawfulKv kv contents}.

Definition keys_at (key : string) (s : S) : gset string := key_set_of (contents s !! key).

Lemma load_spec k s r s' :
  load_key_set kv k s = (r, s') → contents s' = contents s ∧ ∀ set, r = Ok set → set = keys_at k s.
Proof.
  unfold load_key_set. pose proof (kv_get_law k s) as [Hc Hv].
  destruct (kv_get kv k s) as [[v|e] s1]; intros [= <- <-]; cbn in *; split; try done.
  intros set [= <-]. unfold keys_at. by rewrite <- (Hv v eq_refl).
Qed.

Lemma store_spec k set s r s' :
  store_key_set kv k set s = (r, s') →
  (∀ j, j ≠ k → keys_at j s' = keys_at j s) ∧
  (keys_at k s' = set ∨ (keys_at k s' = keys_at k s ∧ is_ok r = false)).
Proof.
  unfold store_key_set. pose proof (kv_set_law k (key_set_value set) s) as Hlaw.
  destruct (kv_set kv k (key_set_value set) s) as [r0 s1]. intros [= <- <-]. cbn in Hlaw.
  assert (Hnew : contents s1 = <[k := key_set_value set]> (contents s) →
    (∀ j, j ≠ k → keys_at j s1 = keys_at j s) ∧ keys_at k s1 = set).
  { intros H. unfold keys_at. split.
    - intros j Hj. by rewrite H, lookup_insert_ne.
    - rewrite H, lookup_insert_eq. apply key_set_roundtrip. }
  assert (Hold : contents s1 = contents s → ∀ j, keys_at j s1 = keys_at j s).
  { intros H j. unfold keys_at. by rewrite H. }
  destruct r0; [naive_solver|]. destruct Hlaw as [H|H]; [|naive_solver].
  split; [intros; by apply Hold|]. right. split; [by apply Hold|done].
Qed.

Lemma delete_spec k s r s' :
  kv_delete kv k s = (r, s') →
  (∀ j, j ≠ k → keys_at j s' = keys_at j s) ∧
  (keys_at k s' = ∅ ∨ (keys_at k s' = keys_at k s ∧ is_ok r = false)).
Proof.
  pose proof (kv_delete_law k s) as Hlaw. destruct (kv_delete kv k s) as [r0 s1].
  intros [= <- <-]. cbn in Hlaw.
  assert (Hnew : contents s1 = delete k (contents s) →
    (∀ j, j ≠ k → keys_at j s1 = keys_at j s) ∧ keys_at k s1 = ∅).
  { intros H. unfold keys_at. split.
    - intros j Hj. by rewrite H, lookup_delete_ne.
    - by rewrite H, lookup_delete_eq. }
  destruct r0; [naive_solver|]. destruct Hlaw as [H|H]; [|naive_solver].
  split; [intros j _; unfold keys_at; by rewrite H|]. right. split; [unfold keys_at; by rewrite H|done].
Qed.

Lemma keys_at_same s s' k : contents s' = contents s → keys_at k s' = keys_at k s.
Proof. unfold keys_at. by intros ->. Qed.
End Sets.

(** ** Settlement under failures *)

Section Settlement.
Context {S : Type} (kv : KeyValue S string) (contents : S → gmap string value) `{!LawfulKv kv contents}.
Context (id : string) (r : option string).
Notation committed s := (keys_at contents (committed_key id) s).
Notation tentative s := (keys_at contents (tentative_key id r) s).
Notation carryover s := (keys_at contents (carryover_key id) s).

(** No key is dropped on the way from [s] to [s']. *)
Definition keeps (s s' : S) : Prop :=
  committed s ⊆ committed s' ∧
  tentative s ∪ carryover s ⊆ committed s' ∪ tentative s' ∪ carryover s'.

Lemma park_keeps park_key t c e s :
  (∀ k, park_key = Some k → k = carryover_key id) → t = tentative s →
  (∀ set, c = Some set → set = carryover s) →
  keeps s (park_for_retry kv (tentative_key id r) park_key t c e s).2.
Proof.
  intros Hk -> Hc. destruct (dedup_keys_distinct id r) as (Hct & Hcc & Htc).
  unfold park_for_retry. destruct park_key as [k|]; [|split; set_solver].
  destruct c as [set|]; [|split; set_solver]. specialize (Hk k eq_refl) as ->.
  specialize (Hc set eq_refl) as ->. case_decide; [split; set_solver|].
  destruct (store_key_set _ _ _ _) as [o s1] eqn:Es.
  destruct (store_spec kv contents _ _ _ _ _ Es) as [Hne Hset].
  destruct o; cbn [snd].
  - destruct (kv_delete kv _ s1) as [d s2] eqn:Ed.
    destruct (delete_spec kv contents _ _ _ _ Ed) as [Hne' Hdel]. cbn [snd].
    destruct Hset as [Hset|[_ Hf]]; [|done]. unfold keeps.
    rewrite (Hne' (committed_key id)), (Hne (committed_key id)) by done.
    rewrite (Hne' (carryover_key id)), Hset by done. split; set_solver.
  - unfold keeps. rewrite (Hne (committed_key id)), (Hne (tentative_key id r)) by done.
    destruct Hset as [->|[-> _]]; split; set_solver.
Qed.

Lemma keeps_same s1 s2 s3 : contents s2 = contents s1 → keeps s2 s3 → keeps s1 s3.
Proof.
  intros H. unfold keeps. rewrite !(keys_at_same contents s1 s2) by done. done.
Qed.

Lemma keeps_trans s1 s2 s3 : keeps s1 s2 → keeps s2 s3 → keeps s1 s3.
Proof. unfold keeps. intros [? ?] [? ?]. split; set_solver. Qed.

Lemma park_failed tk pk t c e s : (park_for_retry kv tk pk t c e s).1 = CommitFailed e.
Proof. unfold park_for_retry. by repeat case_match. Qed.

(** Parking after a failure from a state that has the keys of [s]. *)
Lemma park_after pk t c e s s4 :
  pk = match r with Some _ => Some (carryover_key id) | None => None end →
  t = tentative s4 → (∀ set, c = Some set → set = carryover s4) → keeps s s4 →
  let '(outcome, s') := park_for_retry kv (tentative_key id r) pk t c e s4 in
  keeps s s' ∧ (∀ a n e', outcome = Committed a n e' → tentative s ⊆ committed s' ∧ n = size (committed s')).
Proof.
  intros -> Ht Hc Hk. pose proof (park_failed (tentative_key id r)
    (match r with Some _ => Some (carryover_key id) | None => None end) t c e s4) as Hf.
  destruct (park_for_retry _ _ _ _ _ _ _) as [o s5] eqn:Ep. cbn in Hf. subst o. split; [|done].
  apply (keeps_trans s s4); [done|]. change s5 with (CommitFailed e, s5).2. rewrite <- Ep.
  apply park_keeps; [|done|done]. by destruct r; intros k [= <-].
Qed.

Lemma keeps_contents s1 s2 : contents s2 = contents s1 → keeps s1 s2.
Proof. intros H. apply (keeps_same _ s2); [done|]. split; set_solver. Qed.

Lemma commit_keeps s :
  let '(outcome, s') := commit kv id r s in
  keeps s s' ∧
  (∀ a n e, outcome = Committed a n e → tentative s ⊆ committed s' ∧ n = size (committed s')).
Proof.
  destruct (dedup_keys_distinct id r) as (Hct & Hcc & Htc). unfold commit.
  destruct (load_key_set kv (tentative_key id r) s) as [[t|e] s1] eqn:E1;
    destruct (load_spec kv contents _ _ _ _ E1) as [H1 Ht].
  2: { split; [|done]. by apply (keeps_same _ s1); [|split; set_solver]. }
  specialize (Ht t eq_refl).
  destruct (load_key_set kv (carryover_key id) s1) as [carried s2] eqn:E2.
  destruct (load_spec kv contents _ _ _ _ E2) as [H2 Hc].
  set (c := match carried with Ok set => Some set | Err _ => None end).
  assert (H20 : contents s2 = contents s) by congruence.
  assert (Ht2 : t = tentative s2) by (by rewrite Ht, (keys_at_same contents s s2)).
  assert (Hc2 : ∀ set, c = Some set → set = carryover s2).
  { intros set. unfold c. destruct carried; [|done]. intros [= <-].
    rewrite (keys_at_same contents s1 s2) by done. by apply Hc. }
  case_decide as Hnone.
  { split; [|done]. by apply (keeps_same _ s2); [|split; set_solver]. }
  destruct (load_key_set kv (committed_key id) s2) as [[m|e] s3] eqn:E3;
    destruct (load_spec kv contents _ _ _ _ E3) as [H3 Hm].
  2: { apply park_after; [done| | |apply keeps_contents; congruence].
       - by rewrite (keys_at_same contents s2 s3).
       - intros set Hs. rewrite (keys_at_same contents s2 s3) by done. by apply Hc2. }
  specialize (Hm m eq_refl).
  assert (Hms : m = committed s) by (rewrite Hm; by apply keys_at_same).
  set (m' := m ∪ (t ∪ default ∅ c)).
  destruct (store_key_set _ _ _ _) as [o s4] eqn:E4.
  destruct (store_spec kv contents _ _ _ _ _ E4) as [Hne Hset].
  assert (H30 : contents s3 = contents s) by congruence.
  assert (Ht4 : tentative s4 = tentative s) by (rewrite Hne by done; by apply keys_at_same).
  assert (Hc4 : carryover s4 = carryover s) by (rewrite Hne by done; by apply keys_at_same).
  assert (Hts : t = tentative s) by (rewrite Ht2; by apply keys_at_same).
  assert (Hcs : ∀ set, c = Some set → set = carryover s).
  { intros set Hs. rewrite (Hc2 set Hs). by apply keys_at_same. }
  destruct o as [u|e].
  2: { apply park_after; [done|congruence|by rewrite Hc4|].
       assert (Hsub : committed s ⊆ committed s4); [|split; [done|rewrite Ht4, Hc4; set_solver]].
       destruct Hset as [->|[-> _]]; [set_solver|]. by rewrite (keys_at_same contents s s3). }
  destruct Hset as [Hset|[_ ?]]; [|done].
  destruct (kv_delete kv (tentative_key id r) s4) as [d s5] eqn:E5.
  destruct (delete_spec kv contents _ _ _ _ E5) as [Hne5 _].
  assert (Hc5 : committed s5 = m') by (by rewrite Hne5).
  case_decide as Hcar.
  - split; [|intros a n e [= <- <- <-]; rewrite Hc5; set_solver].
    split; [set_solver|]. rewrite (Hne5 (carryover_key id)), Hc4, Hc5 by done. set_solver.
  - destruct (kv_delete kv (carryover_key id) s5) as [d' s6] eqn:E6.
    destruct (delete_spec kv contents _ _ _ _ E6) as [Hne6 _].
    assert (Hc6 : committed s6 = m') by (by rewrite Hne6).
    split; [|intros a n e [= <- <- <-]; rewrite Hc6; set_solver].
    split; [set_solver|]. rewrite Hc6. destruct c as [set|] eqn:Ec; [|done].
    rewrite <- (Hcs set eq_refl). set_solver.
Qed.
End Settlement.

(** C23: a settlement never loses a key. Whatever calls of the store fail, and
    whether or not a failed write took effect, committing a run keeps every key
    that was committed, and keeps every tentative or parked key somewhere a later
    commit finds it; when it reports success all of the run's keys are committed,
    in the number reported. Releasing a run touches no committed or parked key. *)
Theorem settlement_keeps_keys {S} (kv : KeyValue S string) contents `{!LawfulKv kv contents} id r s :
  let at_ k x := keys_at contents k x in
  let '(settled, s') := settle kv id r true s in
  let '(released, s'') := settle kv id r false s in
  (at_ (committed_key id) s ⊆ at_ (committed_key id) s' ∧
   at_ (tentative_key id r) s ∪ at_ (carryover_key id) s ⊆
     at_ (committed_key id) s' ∪ at_ (tentative_key id r) s' ∪ at_ (carryover_key id) s') ∧
  (∀ a n e, settled = SettledCommit (Committed a n e) →
     at_ (tentative_key id r) s ⊆ at_ (committed_key id) s' ∧
     n = size (at_ (committed_key id) s')) ∧
  at_ (committed_key id) s'' = at_ (committed_key id) s ∧
  at_ (carryover_key id) s'' = at_ (carryover_key id) s.
Proof.
  cbv zeta. unfold settle. pose proof (commit_keeps kv contents id r s) as Hc.
  destruct (commit kv id r s) as [o s'], (dedup_release kv id r s) as [rel s''] eqn:Er.
  destruct Hc as [Hk Ho]. unfold dedup_release in Er.
  destruct (delete_spec kv contents _ _ _ _ Er) as [Hne _].
  destruct (dedup_keys_distinct id r) as (? & ? & ?).
  split_and!; [apply Hk|apply Hk| |by apply Hne|by apply Hne].
  intros a n e [= ->]. by eapply Ho.
Qed.

(** A store whose writes to the committed set fail. *)
Definition flaky_kv (id : string) : KeyValue (gmap string value) string :=
  mkKeyValue (λ k s, (Ok (s !! k), s))
       (λ k v s, if decide (k = committed_key id) then (Err "disk full", s) else (Ok tt, <[k := v]> s))
       (λ k s, (Ok tt, delete k s)).
#[export] Instance flaky_kv_lawful id : LawfulKv (flaky_kv id) (λ s, s).
Proof.
  split.
  - intros k s. cbn. split; [done|]. by intros v [= <-].
  - intros k v s. cbn. case_decide; cbn; [by left|done].
  - intros k s. done.
Qed.

Definition staged : gmap string value := {[tentative_key "n" (Some "r") := json_strings ["k"]]}.

Lemma settlement_keeps_keys_witness :
  settle (flaky_kv "n") "n" (Some "r") true staged =
    (SettledCommit (CommitFailed "disk full"), {[carryover_key "n" := json_strings ["k"]]}) ∧
  keys_at (λ s, s) (tentative_key "n" (Some "r")) staged ⊆
  keys_at (λ s, s) (carryover_key "n") {[carryover_key "n" := json_strings ["k"]]}.
Proof.
  assert (Hs : settle (flaky_kv "n") "n" (Some "r") true staged =
    (SettledCommit (CommitFailed "disk full"), {[carryover_key "n" := json_strings ["k"]]}))
    by (vm_compute; reflexivity).
  split; [exact Hs|].
  pose proof (settlement_keeps_keys (flaky_kv "n") (λ s, s) "n" (Some "r") staged) as H.
  cbv zeta in H. rewrite Hs in H. destruct (settle _ _ _ false _) as [rel s'']. destruct H as [[_ H] _].
  assert (Hc : keys_at (λ s, s) (committed_key "n") {[carryover_key "n" := json_strings ["k"]]} = ∅)
    by (vm_compute; reflexivity).
  assert (Ht : keys_at (λ s, s) (tentative_key "n" (Some "r"))
    {[carryover_key "n" := json_strings ["k"]]} = ∅) by (vm_compute; reflexivity).
  rewrite Hc, Ht in H. set_solver.
Defined.

(** ** Exactly once *)

Definition mem_kv {E} : KeyValue (gmap string value) E :=
  mkKeyValue (λ k s, (Ok (s !! k), s)) (λ k v s, (Ok tt, <[k := v]> s)) (λ k s, (Ok tt, delete k s)).
#[export] Instance mem_kv_lawful {E} : LawfulKv (@mem_kv E) (λ s, s).
Proof.
  split; [|done|done]. intros k s. cbn. split; [done|]. by intros v [= <-].
Qed.

Section Once.
Context (f : Fmt) (jq : string → value → option value).

(** A run: the activations of the node in it, in order (several when the node is
    in a loop), the id of the run, and how it ended. *)
Record DedupRun := mkDedupRun { dr_ctxs : list ExecContext; dr_run : option string; dr_success : bool }.

(** What each activation let through. *)
Fixpoint activations (cs : list ExecContext) (s : gmap string value) : list (list Item) * gmap string value :=
  match cs with
  | [] => ([], s)
  | c :: cs =>
      let '(out, s1) := execute_dedup f jq mem_kv c s in
      let '(outs, s2) := activations cs s1 in
      (match out with Ok o => out_items o | Err _ => [] end :: outs, s2)
  end.

Definition dedup_run (id : string) (s : gmap string value) (r : DedupRun)
    : list (list Item) * gmap string value :=
  let '(passed, s1) := activations (dr_ctxs r) s in
  (passed, (settle mem_kv id (dr_run r) (dr_success r) s1).2).

(** What each run of a history let through, activation by activation. *)
Fixpoint history (id : string) (s : gmap string value) (rs : list DedupRun) : list (list (list Item)) :=
  match rs with
  | [] => []
  | r :: rs => let '(passed, s') := dedup_run id s r in passed :: history id s' rs
  end.

(** The activations are of the node [id] in the run they are part of. *)
Definition of_run (id : string) (r : DedupRun) : Prop :=
  Forall (λ c, nd_id (ec_node c) = id ∧ run_id c = dr_run r) (dr_ctxs r).

Definition keys_of (c : ExecContext) (items : list Item) : list string := omap (item_key f jq c) items.

(** *** The filter *)

Definition filtered (c : ExecContext) (committed : gset string) (done : list Item)
    (acc : gset string * list Item) : Prop :=
  let '(seen, passed) := acc in
  seen = list_to_set (keys_of c passed) ∧ NoDup (keys_of c passed) ∧
  (∀ k, k ∈ seen → k ∉ committed) ∧ passed `sublist_of` done ∧
  ∀ x, x ∈ done → x ∈ passed ∨ ∃ k, item_key f jq c x = Some k ∧ (k ∈ committed ∨ k ∈ seen).

Lemma filtered_step c committed done acc i :
  filtered c committed done acc →
  filtered c committed (done ++ [i]) (dedup_item f jq c committed acc i).
Proof.
  destruct acc as [seen passed]. intros (Hs & Hnd & Hc & Hsub & Hall). unfold dedup_item.
  assert (Hold : ∀ p, p = passed ∨ p = passed ++ [i] → ∀ x, x ∈ done →
    x ∈ p ∨ ∃ k, item_key f jq c x = Some k ∧ (k ∈ committed ∨ k ∈ seen)).
  { intros p Hp x Hx. destruct (Hall x Hx); [left|by right]. destruct Hp; subst; set_solver. }
  assert (Hdrop : ∀ k, item_key f jq c i = Some k → k ∈ committed ∨ k ∈ seen →
    filtered c committed (done ++ [i]) (seen, passed)).
  { intros k Hk Hin. split_and!; try done; [by apply sublist_inserts_r|].
    intros x [Hx| ->%list_elem_of_singleton]%elem_of_app; [by apply Hall|]. right. by exists k. }
  destruct (item_key f jq c i) as [k|] eqn:Ek.
  - case_decide; [eauto|]. case_decide; [eauto|].
    unfold filtered. assert (Hkeys : keys_of c (passed ++ [i]) = keys_of c passed ++ [k]).
    { unfold keys_of. rewrite omap_app. cbn. by rewrite Ek. }
    rewrite Hkeys. split_and!.
    + set_solver.
    + apply NoDup_app. split_and!; [done| |apply NoDup_singleton].
      intros x Hx ->%list_elem_of_singleton. subst seen. set_solver.
    + set_solver.
    + by apply sublist_app.
    + intros x [Hx| ->%list_elem_of_singleton]%elem_of_app; [|set_solver].
      destruct (Hold _ (or_intror eq_refl) x Hx) as [?|(k' & ? & ?)]; [by left|right].
      exists k'. set_solver.
  - unfold filtered. assert (Hkeys : keys_of c (passed ++ [i]) = keys_of c passed).
    { unfold keys_of. rewrite omap_app. cbn. by rewrite Ek, app_nil_r. }
    rewrite Hkeys. split_and!; try done; [by apply sublist_app|].
    intros x [Hx| ->%list_elem_of_singleton]%elem_of_app; [|set_solver].
    by apply (Hold _ (or_intror eq_refl)).
Qed.

Lemma filtered_fold c committed items : ∀ done acc,
  filtered c committed done acc →
  filtered c committed (done ++ items) (foldl (dedup_item f jq c committed) acc items).
Proof.
  induction items as [|i items IH]; intros done acc Ha; [by rewrite app_nil_r|].
  cbn. rewrite (assoc_L (++) done [i] items : done ++ i :: items = _).
  apply IH. by apply filtered_step.
Qed.
(** *** Runs *)

Notation at_ key store := (keys_at (λ x : gmap string value, x) key store).

(** Between runs: [committed] is what is committed, and nothing is pending. *)
Definition settled_store (id : string) (committed : gset string) (s : gmap string value) : Prop :=
  at_ (committed_key id) s = committed ∧ (∀ r, at_ (tentative_key id r) s = ∅) ∧
  at_ (carryover_key id) s = ∅.

Lemma at_insert k j set (s : gmap string value) :
  at_ k (<[j := key_set_value set]> s) = if decide (j = k) then set else at_ k s.
Proof.
  unfold keys_at. case_decide as H; [subst; rewrite lookup_insert_eq; apply key_set_roundtrip|].
  by rewrite lookup_insert_ne.
Qed.
Lemma at_delete k j (s : gmap string value) :
  at_ k (delete j s) = if decide (j = k) then ∅ else at_ k s.
Proof.
  unfold keys_at. case_decide as H; [subst; by rewrite lookup_delete_eq|]. by rewrite lookup_delete_ne.
Qed.

Lemma load_mem {E} k (s : gmap string value) : load_key_set (@mem_kv E) k s = (Ok (at_ k s), s).
Proof. done. Qed.

(** During a run: [staged] is what its activations staged so far. *)
Definition running_store (id : string) (run : option string) (committed staged : gset string) (s : gmap string value) : Prop :=
  at_ (committed_key id) s = committed ∧ at_ (tentative_key id run) s = staged ∧
  (∀ r, tentative_key id r ≠ tentative_key id run → at_ (tentative_key id r) s = ∅) ∧
  at_ (carryover_key id) s = ∅.

Lemma settled_running id run committed s :
  settled_store id committed s → running_store id run committed ∅ s.
Proof. intros (Hc & Ht & Hk). by split_and!. Qed.

Lemma execute_dedup_mem c committed staged s seen passed :
  running_store (nd_id (ec_node c)) (run_id c) committed staged s →
  foldl (dedup_item f jq c committed) (∅, []) (ec_input c) = (seen, passed) →
  ∃ s', execute_dedup f jq mem_kv c s = (Ok (output_main passed), s') ∧
    running_store (nd_id (ec_node c)) (run_id c) committed (seen ∪ staged) s'.
Proof.
  intros (Hc & Ht & Hr & Hk) Hf. unfold execute_dedup. rewrite load_mem, Hc, Hf.
  destruct (decide (seen = ∅)) as [->|He].
  { exists s. by rewrite union_empty_l_L. }
  rewrite load_mem, Ht. eexists. split; [done|].
  destruct (dedup_keys_distinct (nd_id (ec_node c)) (run_id c)) as (Hct & Hcc & Htc).
  split_and!; [..|intros r Hne|]; rewrite at_insert.
  - by rewrite decide_False.
  - by rewrite decide_True.
  - rewrite decide_False by done. by apply Hr.
  - by rewrite decide_False.
Qed.

Lemma settle_mem id r (success : bool) committed staged s :
  running_store id r committed staged s →
  settled_store id (if success then committed ∪ staged else committed) (settle mem_kv id r success s).2.
Proof.
  intros (Hc & Ht & Hr & Hk). destruct (dedup_keys_distinct id r) as (Hct & Hcc & Htc).
  set (tk := tentative_key id r) in *.
  assert (Hother : ∀ r', at_ (tentative_key id r') (delete tk s) = ∅).
  { intros r'. rewrite at_delete. case_decide; [done|]. by apply Hr. }
  unfold settle. destruct success; cbn [snd].
  - unfold commit. fold tk. rewrite load_mem, Ht, load_mem. cbn [default]. rewrite Hk. case_decide as He.
    + destruct He as [-> _]. cbn [snd]. rewrite union_empty_r_L. split_and!; [done| |done].
      intros r'. destruct (decide (tentative_key id r' = tk)) as [->|Hne]; [done|by apply Hr].
    + rewrite load_mem, Hc. unfold store_key_set. cbn [kv_set mem_kv].
      change (Datatypes.id (∅ : gset string)) with (∅ : gset string). cbn [kv_delete mem_kv].
      rewrite decide_True by done. cbn [snd]. rewrite !union_empty_r_L.
      split_and!.
      * by rewrite at_delete, decide_False, at_insert, decide_True by done.
      * intros r'. destruct (dedup_keys_distinct id r') as (? & _). rewrite at_delete.
        case_decide as Hd; [done|]. rewrite at_insert, decide_False by done. by apply Hr.
      * by rewrite at_delete, decide_False, at_insert, decide_False by done.
  - unfold dedup_release. cbn [kv_delete mem_kv snd]. fold tk. split_and!; [|done|].
    + by rewrite at_delete, decide_False by done.
    + by rewrite at_delete, decide_False by done.
Qed.

(** Every activation filters against what earlier runs committed. *)
Lemma activations_spec id run committed cs : ∀ staged s,
  Forall (λ c, nd_id (ec_node c) = id ∧ run_id c = run) cs → running_store id run committed staged s →
  let '(outs, s') := activations cs s in
  (∃ staged', running_store id run committed staged' s' ∧
     ∀ k, k ∈ staged' ↔ k ∈ staged ∨ ∃ a c p, cs !! a = Some c ∧ outs !! a = Some p ∧ k ∈ keys_of c p) ∧
  ∀ a c p, cs !! a = Some c → outs !! a = Some p →
    ∃ seen, filtered c committed (ec_input c) (seen, p).
Proof.
  induction cs as [|c cs IH]; intros staged s Hof Hs; cbn [activations].
  { split; [|done]. exists staged. split; [done|]. intros k. split; [by left|].
    intros [?|(? & ? & ? & ? & _)]; done. }
  apply Forall_cons in Hof as [[<- <-] Hof].
  destruct (foldl (dedup_item f jq c committed) (∅, []) (ec_input c)) as [seen passed] eqn:Ef.
  assert (Hfil : filtered c committed (ec_input c) (seen, passed)).
  { rewrite <- Ef. apply (filtered_fold c committed (ec_input c) [] (∅, [])).
    repeat split; [constructor|set_solver|constructor|set_solver]. }
  destruct (execute_dedup_mem c committed staged s seen passed Hs Ef) as (s1 & -> & Hs1).
  specialize (IH _ s1 Hof Hs1). destruct (activations cs s1) as [outs s2].
  destruct IH as [(staged' & Hs2 & Hst) Hall]. split.
  - exists staged'. split; [done|]. intros k. rewrite Hst, elem_of_union.
    destruct Hfil as (-> & _). rewrite elem_of_list_to_set. split.
    + intros [[Hk|Hk]|(a & c' & p & H1 & H2 & H3)]; [right; by exists 0, c, passed|by left|right].
      by exists (S a), c', p.
    + intros [Hk|([|a] & c' & p & H1 & H2 & H3)]; [by left; right| |right; by exists a, c', p].
      cbn in H1, H2. simplify_eq. by left; left.
  - intros [|a] c' p H1 H2; cbn in H1, H2; [simplify_eq; by exists seen|by eapply Hall].
Qed.

(** The keys let through by the runs before run [j] that succeeded. *)
Definition committed_before (rs : list DedupRun) (outs : list (list (list Item))) (j : nat) (k : string)
    : Prop :=
  ∃ i r ps a c p, i < j ∧ rs !! i = Some r ∧ outs !! i = Some ps ∧ dr_success r = true ∧
    dr_ctxs r !! a = Some c ∧ ps !! a = Some p ∧ k ∈ keys_of c p.

Lemma history_spec id rs : ∀ committed s j r ps,
  Forall (of_run id) rs → settled_store id committed s →
  rs !! j = Some r → history id s rs !! j = Some ps →
  ∃ C, (∀ a c p, dr_ctxs r !! a = Some c → ps !! a = Some p →
          ∃ seen, filtered c C (ec_input c) (seen, p)) ∧
    ∀ k, k ∈ C ↔ k ∈ committed ∨ committed_before rs (history id s rs) j k.
Proof.
  induction rs as [|r0 rs IH]; intros committed s j r ps Hids Hs Hr Hp; [done|].
  apply Forall_cons in Hids as [Hid Hids]. cbn [history] in *. unfold dedup_run in *.
  pose proof (activations_spec id (dr_run r0) committed (dr_ctxs r0) ∅ s Hid (settled_running _ _ _ _ Hs)) as Hrun.
  destruct (activations (dr_ctxs r0) s) as [p0 s1]. destruct Hrun as [(staged & Hs1 & Hst) Hfil].
  apply (settle_mem id (dr_run r0) (dr_success r0)) in Hs1.
  destruct j as [|j]; cbn in Hr, Hp.
  - injection Hr as <-. injection Hp as <-. exists committed. split; [done|].
    intros k. split; [by left|]. intros [?|(i & ? & ? & ? & ? & ? & ? & _)]; [done|lia].
  - destruct (IH _ _ j r ps Hids Hs1 Hr Hp) as (C & Hf & HC). exists C. split; [done|].
    intros k. rewrite HC. split.
    + intros [Hin|(i & r1 & ps1 & a & c & p & Hi & H1 & H2 & H3 & H4)].
      * destruct (dr_success r0) eqn:Esucc; [|by left].
        apply elem_of_union in Hin as [Hin|Hin]; [by left|]. right.
        apply Hst in Hin as [Hin|(a & c & p & ? & ? & ?)]; [set_solver|].
        exists 0, r0, p0, a, c, p. split_and!; try done. lia.
      * right. exists (S i), r1, ps1, a, c, p. split_and!; try done; [lia|apply H4..].
    + intros [Hin|([|i] & r1 & ps1 & a & c & p & Hi & H1 & H2 & H3 & H4)].
      * left. destruct (dr_success r0); set_solver.
      * cbn in H1, H2. simplify_eq. left. rewrite H3. apply elem_of_union. right.
        apply Hst. right. by exists a, c, p.
      * right. exists i, r1, ps1, a, c, p. split_and!; try done; [lia|apply H4..].
Qed.
End Once.

(** C22: exactly once, across runs. Over any history of runs of a flow, one after
    the other on a fresh store whose calls succeed, each run with any number of
    activations of the node and settled by how it ended: a key let through by a
    run that succeeded is never let through by a later run; no activation lets
    one key through twice; and no item is lost: each item of an activation is let
    through, or its key was let through earlier in the same activation, or by an
    earlier run that succeeded. Items without a key always pass, and what passes
    keeps its order. (Two activations of one run can let the same key through:
    [reactivation_repeats].) *)
Theorem dedup_exactly_once f jq id rs :
  Forall (of_run id) rs →
  let outs := history f jq id ∅ rs in
  ∀ j r ps a c p, rs !! j = Some r → outs !! j = Some ps → dr_ctxs r !! a = Some c → ps !! a = Some p →
    let keys := keys_of f jq c p in
    NoDup keys ∧ p `sublist_of` ec_input c ∧
    (∀ k, committed_before f jq rs outs j k → k ∉ keys) ∧
    (∀ x, x ∈ ec_input c →
       x ∈ p ∨ ∃ k, item_key f jq c x = Some k ∧ (k ∈ keys ∨ committed_before f jq rs outs j k)).
Proof.
  cbv zeta. intros Hids j r ps a c p Hr Hps Hc Hp.
  assert (H0 : settled_store id ∅ ∅) by done.
  destruct (history_spec f jq id rs ∅ ∅ j r ps Hids H0 Hr Hps) as (C & Hf & HC).
  destruct (Hf a c p Hc Hp) as (seen & Hseen & Hnd & Hdisj & Hsub & Hall). split_and!; [done|done| |].
  - intros k Hk Hin. apply (Hdisj k); [subst seen; by apply elem_of_list_to_set|].
    apply HC. by right.
  - intros x Hx. destruct (Hall x Hx) as [?|(k & Hk & Hin)]; [by left|right].
    exists k. split; [done|]. destruct Hin as [Hin|Hin].
    + apply HC in Hin as [Hin|Hin]; [set_solver|by right].
    + left. subst seen. by apply elem_of_list_to_set in Hin.
Qed.

(** A run that fails, one that succeeds, and one that sees the same item. *)
Definition dedup_node : Node := sample_node "d" Dedup (json_object [("key", Str "=item.id")]).
Definition dedup_activation (n : string) : ExecContext :=
  mkExec dedup_node [item_new (json_object [("id", Str "k")])] (json_object [("id", Str n)]) Null [] None None 1.
Definition dedup_sample (n : string) (success : bool) : DedupRun :=
  mkDedupRun [dedup_activation n] (run_id (dedup_activation n)) success.
Definition dedup_runs : list DedupRun :=
  [dedup_sample "r1" false; dedup_sample "r2" true; dedup_sample "r3" true].

Lemma dedup_exactly_once_witness :
  map (map length) (history sample_fmt (λ _ _, None) "d" ∅ dedup_runs) = [[1]; [1]; [0]] ∧
  ∀ ps p, history sample_fmt (λ _ _, None) "d" ∅ dedup_runs !! 2 = Some ps → ps !! 0 = Some p →
    NoDup (keys_of sample_fmt (λ _ _, None) (dedup_activation "r3") p).
Proof.
  split; [vm_compute; reflexivity|]. intros ps p Hps Hp.
  refine (proj1 (dedup_exactly_once sample_fmt (λ _ _, None) "d" dedup_runs _ 2
    (dedup_sample "r3" true) ps 0 (dedup_activation "r3") p eq_refl Hps eq_refl Hp)).
  repeat constructor.
Defined.

(** The node filters on committed keys only, so a node that a loop activates
    again in the same run lets the same key through again. *)
Example reactivation_repeats :
  map (map length) (history sample_fmt (λ _ _, None) "d" ∅
    [mkDedupRun [dedup_activation "r1"; dedup_activation "r1"] (run_id (dedup_activation "r1")) true])
  = [[1; 1]].
Proof. vm_compute. reflexivity. Qed.
