(* ===== verification/EngineRun.v ===== *)
(** * Run entry points

    [crates/tinyflows/src/engine.rs], [engine/run_config.rs],
    [engine/run_state.rs], [engine/resumable.rs] with
    [resumable/continuation.rs] and the entry points of [engine/api.rs]: how a
    caller's input becomes the first state of a run, how a run is driven and
    reported, how approvals are merged into a re-run, and how a checkpointed
    thread is continued after a pause or a failure.

    The steps the node handlers recorded in the run's shared list and the error
    a stopping node left in the shared slot are the record [Recorded]; what the
    cancellation token says when the run has been driven is a [bool].  Journals
    are the flag of the compiled graph; log lines are left out. *)

From S2P Require Import Prelude Json GraphTypes Checkpoint Builder Executor RunLoop Workflow WfAnalysis WfState.
From S2P Require Import WfBuild Text Postcondition ControlNodes Routing StepExec ExecFacts WfBuildFacts WfActivation.

(** ** Inputs ([engine.rs]) *)

Record RunInput := mkRunInput {
  rin_trigger : value;
  rin_inputs : list (string * value);
  rin_approvals : list string;
  rin_run_id : option string
}.

Definition run_input (trigger : value) : RunInput := mkRunInput trigger [] [] None.
Definition with_inputs (i : RunInput) (inputs : list (string * value)) : RunInput :=
  mkRunInput (rin_trigger i) inputs (rin_approvals i) (rin_run_id i).
Definition with_approvals (i : RunInput) (approvals : list string) : RunInput :=
  mkRunInput (rin_trigger i) (rin_inputs i) approvals (rin_run_id i).
Definition with_run_id (i : RunInput) (id : string) : RunInput :=
  mkRunInput (rin_trigger i) (rin_inputs i) (rin_approvals i) (Some id).

Record RunOutcome := mkRunOutcome {
  ro_output : value;
  ro_pending_approvals : list string;
  ro_cancelled : bool
}.

Record GraphRunIds := mkGraphRunIds { gr_run_id : RunId; gr_root_run_id : RunId }.

(** ** Observers ([observability.rs]) *)

Inductive StepStatus := StepSuccess | StepError.
Inductive RunStatus := RunRunning | RunCompleted | RunCompletedWithErrors | RunFailed.
#[export] Instance RunStatus_eq_dec : EqDecision RunStatus.
Proof. solve_decision. Defined.

Record ExecutionStep := mkStep { es_node : string; es_status : StepStatus; es_output : value }.
Record ObservedRun := mkRunRecord {
  rr_id : string;
  rr_status : RunStatus;
  rr_steps : list ExecutionStep
}.

Definition step_failed (s : ExecutionStep) : bool :=
  match es_status s with StepError => true | StepSuccess => false end.
Definition failed_node_ids (r : ObservedRun) : list string :=
  es_node <$> filter (λ s, step_failed s = true) (rr_steps r).

(** The calls of an observer made by the entry points. *)
Inductive ObserverCall := OnRunStart (run_id : string) | OnRunFinish (r : ObservedRun).

(** What the handlers left in the run's shared list and slot. *)
Record Recorded := mkRecorded {
  rec_steps : list ExecutionStep;
  rec_terminal : option EngineError
}.

Definition run_status (steps : list ExecutionStep) : RunStatus :=
  if existsb step_failed steps then RunCompletedWithErrors else RunCompleted.

(** ** Configuration ([run_config.rs]) *)

Record RunConfig (C : Type) := mkRunConfig {
  rcf_checkpointer : CheckpointerOps value C;
  rcf_thread_id : string;
  rcf_journal : bool;
  rcf_overlay : option value
}.
Arguments mkRunConfig {C}.
Arguments rcf_checkpointer {C}.
Arguments rcf_thread_id {C}.
Arguments rcf_journal {C}.
Arguments rcf_overlay {C}.

Definition default_thread_id (g : WorkflowGraph) : result EngineError string :=
  let? t := ok_or (trigger g) (EValidation MissingTrigger) in Ok (nd_id t).

Definition run_config {C} (in_memory : CheckpointerOps value C) (g : WorkflowGraph)
    : result EngineError (RunConfig C) :=
  let? thread := default_thread_id g in Ok (mkRunConfig in_memory thread false None).
Definition with_checkpointer {C} (ops : CheckpointerOps value C) (thread : string)
    (c : RunConfig C) : RunConfig C := mkRunConfig ops thread (rcf_journal c) (rcf_overlay c).
Definition with_journal {C} (c : RunConfig C) : RunConfig C :=
  mkRunConfig (rcf_checkpointer c) (rcf_thread_id c) true (rcf_overlay c).
Definition with_overlay {C} (overlay : value) (c : RunConfig C) : RunConfig C :=
  mkRunConfig (rcf_checkpointer c) (rcf_thread_id c) (rcf_journal c) (Some overlay).

(** ** The first state ([build_and_run]) *)

(** Merge [fields] into the [run] slot. *)
Definition merge_run (state : value) (fields : value) : value :=
  wf_merge state (json_object [("run", fields)]).
Definition merge_run_opt (state : value) (key : string) (v : option value) : value :=
  match v with Some v => merge_run state (json_object [(key, v)]) | None => state end.

(** The trigger's [workspace], trimmed and not blank. *)
Definition trigger_workspace (g : WorkflowGraph) : option string :=
  non_blank (trim <$> (trigger g >>? λ t, get "workspace" (nd_config t) >>? as_str)).

Definition trigger_depth_cap (g : WorkflowGraph) : option Z :=
  trigger g >>? λ t, positive_u64 "max_sub_workflow_depth" (nd_config t).

Definition seed_state (g : WorkflowGraph) (trigger_id : string) (i : RunInput)
    (inputs : list (string * value)) (overlay : option value) : value :=
  let s := json_object [("run", json_object
    [("trigger", rin_trigger i); ("inputs", Object inputs);
     ("approvals", json_strings (rin_approvals i))])] in
  let s := merge_run_opt s "id" (Str <$> rin_run_id i) in
  let s := wf_merge s (items_update trigger_id [item_new (rin_trigger i)] None) in
  let s := merge_run_opt s "max_sub_workflow_depth" (value_of_i64 <$> trigger_depth_cap g) in
  let s := merge_run_opt s "workspace" (Str <$> trigger_workspace g) in
  match overlay with Some o => merge_run s o | None => s end.

(** ** Spawned tasks *)

Definition ticket_of (item : value) : option string :=
  get "json" item >>? get "ticket" >>? as_str.

(** The items of a slot and of its lanes. *)
Definition slot_item_lists (slot : value) : list value :=
  default [] (get "items" slot >>? as_array) ++
  concat ((λ lane, default [] (get "items" lane >>? as_array)) <$>
            (default [] (get "lanes" slot >>? as_object)).*2).

(** The tickets [cancel_spawned_tasks] cancels, in order. *)
Definition spawned_tickets (g : WorkflowGraph) (state : value) : list string :=
  concat ((λ n, match get "nodes" state >>? get (nd_id n) with
                | Some slot => omap ticket_of (slot_item_lists slot)
                | None => []
                end) <$> filter (λ n, nd_kind n = Spawn) (wg_nodes g)).

(** ** Driving a run *)

(** How an entry point ends: a result, a panic of the runtime, or fuel that did
    not suffice. *)
Inductive Driven (A : Type) :=
| Drove (r : result EngineError A)
| DrivePanicked
| DriveOutOfFuel.
Arguments Drove {A}.
Arguments DrivePanicked {A}.
Arguments DriveOutOfFuel {A}.

Record RunReport := mkReport {
  rep_calls : list ObserverCall;
  rep_cancelled_tickets : list string;
  rep_end : Driven (RunOutcome * GraphRunIds)
}.

Definition local_run_id (n : N) : string := "run-" +:+ pretty n.

Definition outcome_of (e : GraphExecution value) (cancelled : bool) : RunOutcome * GraphRunIds :=
  (mkRunOutcome (ge_state e) (int_id <$> ge_interrupts e) cancelled,
   mkGraphRunIds (ge_run_id e) (ge_root_run_id e)).

Section Drive.
Context {C : Type} (handler : HandlerData → NodeHandler value value).

(** [local] is the process's run counter, [has_tasks] whether a task runner is
    injected, [cancelled] what the token says once the graph has been driven. *)
Definition build_and_run (fuel : nat) (env : Env) (seq local : N) (rec : Recorded)
    (cancelled has_tasks : bool) (g : WorkflowGraph) (i : RunInput) (config : RunConfig C)
    : M C RunReport :=
  match resolve_inputs (wg_inputs g) (rin_inputs i) with
  | Err e => mret (mkReport [] [] (Drove (Err (EInput e))))
  | Ok inputs =>
      let run_id := local_run_id local in
      match build_graph handler seq (rcf_checkpointer config) (rcf_journal config) g with
      | Err e => mret (mkReport [OnRunStart run_id] [] (Drove (Err e)))
      | Ok (compiled, trigger_id) =>
          let initial := seed_state g trigger_id i inputs (rcf_overlay config) in
          let! execution := run_with_thread fuel env compiled (rcf_thread_id config) initial in
          let finish status := OnRunFinish (mkRunRecord run_id status (rec_steps rec)) in
          mret (match execution with
          | Returned (Ok e) =>
              mkReport [OnRunStart run_id; finish (run_status (rec_steps rec))]
                (if cancelled && has_tasks then spawned_tickets g (ge_state e) else [])
                (Drove (Ok (outcome_of e cancelled)))
          | Returned (Err e) =>
              mkReport [OnRunStart run_id; finish RunFailed] []
                (Drove (Err (default (ECapability (error_to_string e)) (rec_terminal rec))))
          | Panicked => mkReport [OnRunStart run_id] [] DrivePanicked
          | OutOfFuel => mkReport [OnRunStart run_id] [] DriveOutOfFuel
          end)
      end
  end.

(** ** Re-running with approvals *)

Definition push_new (l : list string) (id : string) : list string :=
  if decide (id ∈ l) then l else l ++ [id].

Definition listed_strings (v : option value) : list string :=
  match v >>? as_array with Some l => omap as_str l | None => [] end.

Definition merge_approvals (i : RunInput) (newly_approved : list string) : RunInput :=
  let explicit := foldl push_new [] (newly_approved ++ rin_approvals i) in
  let union := foldl push_new (listed_strings (get "approvals" (rin_trigger i))) explicit in
  let trigger :=
    match rin_trigger i with
    | Object m => Object (obj_insert "approvals" (json_strings union) m)
    | _ => json_object [("approvals", json_strings union)]
    end in
  mkRunInput trigger (rin_inputs i) explicit (rin_run_id i).

(** [run] and [resume] of a workflow: the in-memory checkpointer, keyed by the trigger. *)
Definition run_workflow (in_memory : CheckpointerOps value C) (fuel : nat) (env : Env) (seq local : N)
    (rec : Recorded) (cancelled has_tasks : bool) (g : WorkflowGraph) (i : RunInput)
    : M C RunReport :=
  match run_config in_memory g with
  | Err e => mret (mkReport [] [] (Drove (Err e)))
  | Ok config => build_and_run fuel env seq local rec cancelled has_tasks g i config
  end.

Definition resume_workflow (in_memory : CheckpointerOps value C) (fuel : nat) (env : Env) (seq local : N)
    (rec : Recorded) (cancelled has_tasks : bool) (g : WorkflowGraph) (i : RunInput)
    (newly_approved : list string) : M C RunReport :=
  run_workflow in_memory fuel env seq local rec cancelled has_tasks g (merge_approvals i newly_approved).

(** The run of a child workflow: the depth counters and the workspace are laid
    over its [run] slot. *)
Definition sub_overlay (depth max_depth : Z) (workspace : option string) : value :=
  let o := obj_insert "max_sub_workflow_depth" (value_of_i64 max_depth)
             (obj_insert "sub_workflow_depth" (value_of_i64 depth) []) in
  Object (match workspace with Some w => obj_insert "workspace" (Str w) o | None => o end).

Definition run_sub_workflow (in_memory : CheckpointerOps value C) (fuel : nat) (env : Env)
    (seq local : N) (rec : Recorded) (cancelled has_tasks : bool) (g : WorkflowGraph) (i : RunInput)
    (depth max_depth : Z) (workspace : option string) : M C RunReport :=
  match run_config in_memory g with
  | Err e => mret (mkReport [] [] (Drove (Err e)))
  | Ok config =>
      build_and_run fuel env seq local rec cancelled has_tasks g i
        (with_overlay (sub_overlay depth max_depth workspace) config)
  end.

Definition run_with_checkpointer (in_memory : CheckpointerOps value C) (fuel : nat) (env : Env)
    (seq local : N) (rec : Recorded) (cancelled has_tasks : bool) (g : WorkflowGraph) (i : RunInput)
    (checkpointer : CheckpointerOps value C) (thread_id : string) (journal : bool)
    : M C RunReport :=
  match run_config in_memory g with
  | Err e => mret (mkReport [] [] (Drove (Err e)))
  | Ok config =>
      let config := with_checkpointer checkpointer thread_id config in
      build_and_run fuel env seq local rec cancelled has_tasks g i
        (if journal then with_journal config else config)
  end.

(** ** Continuing a checkpointed thread ([resumable.rs]) *)

Inductive Continuation := Approvals (approved rejected : list string) | RetryFailed.

Definition continuation_command (c : Continuation) : Command value :=
  match c with
  | Approvals approved rejected =>
      with_update
        (command_resume (json_object
           [("approved", json_strings approved); ("rejected", json_strings rejected)]))
        (json_object [("run", json_object [("trigger", json_object
           [("approvals", json_strings approved)])])])
  | RetryFailed => command_new
  end.

Definition resume_with_checkpointer_inner (in_memory : CheckpointerOps value C) (fuel : nat)
    (env : Env) (seq : N) (rec : Recorded) (cancelled : bool) (g : WorkflowGraph)
    (checkpointer : CheckpointerOps value C) (thread_id : string) (continuation : Continuation)
    (journal : bool) : M C (Driven (RunOutcome * GraphRunIds)) :=
  match run_config in_memory g with
  | Err e => mret (Drove (Err e))
  | Ok config =>
      let config := with_checkpointer checkpointer thread_id config in
      let config := if journal then with_journal config else config in
      match build_graph handler seq (rcf_checkpointer config) (rcf_journal config) g with
      | Err e => mret (Drove (Err e))
      | Ok (compiled, _) =>
          let! execution :=
            RunLoop.resume fuel env compiled thread_id (continuation_command continuation) in
          mret (match execution with
          | Returned (Ok e) => Drove (Ok (outcome_of e cancelled))
          | Returned (Err e) =>
              Drove (Err (default (ECapability (error_to_string e)) (rec_terminal rec)))
          | Panicked => DrivePanicked
          | OutOfFuel => DriveOutOfFuel
          end)
      end
  end.

(** [ResumableRun::resume], on the graph the run was compiled to. *)
Definition resumable_resume (fuel : nat) (env : Env) (compiled : CompiledGraph value value C)
    (thread_id : string) (newly_approved : list string) : M C (Driven RunOutcome) :=
  let! execution := RunLoop.resume fuel env compiled thread_id
    (with_update (command_resume (json_object [("approved", json_strings newly_approved)]))
       (json_object [("run", json_object [("trigger", json_object
          [("approvals", json_strings newly_approved)])])])) in
  mret (match execution with
  | Returned (Ok e) => Drove (Ok (mkRunOutcome (ge_state e) (int_id <$> ge_interrupts e) false))
  | Returned (Err e) => Drove (Err (ECapability (error_to_string e)))
  | Panicked => DrivePanicked
  | OutOfFuel => DriveOutOfFuel
  end).

(** ** Failure boundaries *)

Record FailureBoundary := mkBoundary {
  fb_failed_node : string;
  fb_error : string;
  fb_checkpoint_id : CheckpointId;
  fb_step : nat;
  fb_pending : list NodeId
}.

Definition boundary_of (c : Checkpoint value) : option FailureBoundary :=
  (get "failed_node" (cp_metadata c) >>? as_str) >>? λ failed,
    Some (mkBoundary failed
      (default "" (get "error" (cp_metadata c) >>? as_str))
      (cp_checkpoint_id c)
      (default 0 (get "step" (cp_metadata c) >>? as_usize))
      (cp_next_nodes c)).

Definition failure_boundary (ops : CheckpointerOps value C) (s : C) (thread_id : string)
    : result EngineError (option FailureBoundary) :=
  match ck_get ops s thread_id None with
  | Err e => Err (ECapability (error_to_string e))
  | Ok found => Ok (found >>? boundary_of)
  end.
End Drive.

(** * Facts about runs of workflows

    What the lowering registers, and the [run] slot of the state: every update
    an activation makes writes under [nodes] only, so the slot stays what the
    entry point seeded. *)

(** The handler of a node: one activation, whose attempts may read the context
    (the resume value, the lane). *)
Definition activation_handler (f : Fmt) (token : Token) (hook : option Interceptor)
    (attempt : NodeContext → HandlerData → value → list Item → nat → result EngineError NodeOutput)
    (elapsed : HandlerData → NodeContext → N) (h : HandlerData) : NodeHandler value value :=
  λ state ctx, mkFuture (elapsed h ctx) []
                 (WfActivation.execute f token hook (attempt ctx) h state ctx).

(** ** The lowered graph *)

Lemma wire_nodes_keep g le ns : ∀ b,
  gb_nodes (foldl (wire_node g le) b ns) = gb_nodes b ∧
  gb_reducer (foldl (wire_node g le) b ns) = gb_reducer b.
Proof.
  induction ns as [|n ns IH]; intros b; cbn; [done|]. destruct (IH (wire_node g le b n)) as [-> ->].
  unfold wire_node. destruct (wire_routing_same g le (nd_id n)
    (if gated n then mark_interrupt (nd_id n) b else b)) as [_ _ _ -> -> _ _].
  by destruct (gated n).
Qed.

Lemma register_handlers_lookup execute g le nt b id node :
  gb_nodes (register_handlers execute g le nt b) !! id = Some node →
  gb_nodes b !! id = Some node ∨ ∃ h, node_handler node = execute h.
Proof.
  unfold register_handlers. revert b. induction (wg_nodes g) as [|n ns IH]; intros b; cbn; [by left|].
  intros [Hb|Hh]%IH; [|by right]. cbn in Hb. apply lookup_insert_Some in Hb as [[_ <-]|[_ Hb]].
  - right. by eexists.
  - by left.
Qed.

Lemma build_graph_handlers {C} execute seq (ck : CheckpointerOps value C) jr g cg tid :
  build_graph execute seq ck jr g = Ok (cg, tid) →
  cg_reducer cg = merge_reducer ∧
  ∀ id node, cg_nodes cg !! id = Some node → ∃ h, node_handler node = execute h.
Proof.
  unfold build_graph. destruct (trigger g) as [t|]; [|done].
  destruct (compile _) as [cg0|e] eqn:Ec; [|done]. apply compile_Ok in Ec as (red & entry & Hr & _ & -> & _).
  set (b := build_builder execute seq g t) in *.
  assert (Hb : gb_reducer b = Some merge_reducer ∧
    ∀ id node, gb_nodes b !! id = Some node → ∃ h, node_handler node = execute h).
  { unfold b, build_builder, wire_graph. set (b0 := limit_builder _ _ _). set (nt := positive_u64 _ _).
    assert (E : gb_nodes b0 = ∅ ∧ gb_reducer b0 = Some merge_reducer).
    { unfold b0, limit_builder. destruct (max_concurrency_of t), (positive_u64 "recursion_limit" _);
        [done|destruct (derived_limit g); done|done|destruct (derived_limit g); done]. }
    destruct E as [E1 E2]. set (b1 := set_entry _ _).
    destruct (wire_all_reliefs_keep g (back_edges g) (wg_nodes g)
      (foldl (wire_node g (back_edges g)) b1 (wg_nodes g))) as [rs ->].
    destruct (wire_nodes_keep g (back_edges g) (wg_nodes g) b1) as [Hn Hrd].
    cbn. rewrite Hn, Hrd. unfold b1. cbn. split.
    - rewrite register_handlers_keep. done.
    - intros id node [H|H]%register_handlers_lookup; [|done]. by rewrite E1, lookup_empty in H. }
  destruct Hb as [Hred Hn]. rewrite Hred in Hr. injection Hr as <-.
  intros [= <- <-]. destruct jr, (visit_policy t); done.
Qed.

(** ** The [run] slot *)

(** An update that leaves every slot but [nodes] of an object as it is. *)
Definition nodes_only (u : value) : Prop :=
  u = Object [] ∨ ∃ v, u = Object [("nodes", v)].

Lemma nodes_only_merge u s k :
  nodes_only u → k ≠ "nodes" → get k (wf_merge s u) = get k (Object (object_or_empty s)).
Proof.
  intros [->|[v ->]] Hk; [done|]. rewrite wf_merge_single by done. cbn.
  by rewrite obj_get_insert_ne.
Qed.

Lemma items_update_nodes id items port meta : nodes_only (items_update_with_meta id items port meta).
Proof. right. eexists. reflexivity. Qed.

Lemma lane_items_update_nodes id lane items port st meta :
  nodes_only (lane_items_update id lane items port st meta).
Proof. right. eexists. reflexivity. Qed.

Lemma stamp_nodes u id step : nodes_only u → nodes_only (stamp_activation_step u id step).
Proof.
  intros [->|[v ->]]; [by left|]. right.
  unfold stamp_activation_step. cbn [obj_get]. rewrite decide_True by done.
  destruct v as [| | | | |nodes]; try (eexists; reflexivity).
  destruct (obj_get id nodes) as [[| | | | |slot]|]; eexists; reflexivity.
Qed.
#[export] Hint Resolve items_update_nodes lane_items_update_nodes stamp_nodes : tf.

(** The update a node result carries, if it carries one, writes [nodes] only. *)
Definition result_nodes_only (r : Result (NodeResult value)) : Prop :=
  match r with
  | Ok (NRUpdate u) => nodes_only u
  | Ok (NRCommand c) => ∀ u, cmd_update c = Some u → nodes_only u
  | _ => True
  end.

Lemma command_nodes c u : nodes_only u → result_nodes_only (Ok (NRCommand (with_update c u))).
Proof. by intros Hu ? [= <-]. Qed.

Lemma emit_result_nodes h lane step u port items :
  nodes_only u → result_nodes_only (Ok (emit_result h lane step u port items)).
Proof.
  intros Hu. unfold emit_result. destruct lane; cbn; [by intros ? [= <-]|].
  destruct (hd_routing h); cbn; try intros ? [= <-]; by apply stamp_nodes.
Qed.

Lemma gates_nodes h cancelled lane step resume state r :
  gates h cancelled lane step resume state = Some r → result_nodes_only r.
Proof.
  unfold gates. destruct cancelled.
  { intros H. apply (inj Some) in H as <-.
    destruct lane; [apply items_update_nodes|apply stamp_nodes, items_update_nodes]. }
  destruct (hd_is_trigger h). { intros [= <-]. apply emit_result_nodes. by left. }
  repeat case_match; intros [= <-]; try done. apply emit_result_nodes, items_update_nodes.
Qed.

Lemma slot_update_nodes id lane items port meta : nodes_only (slot_update id lane items port meta).
Proof. unfold slot_update. destruct lane; eauto with tf. Qed.

Lemma finish_execution_nodes f h lane step token output last_err :
  result_nodes_only (finish_execution f h lane step token output last_err).
Proof.
  unfold finish_execution. destruct output as [out|].
  - destruct (out_control out) as [[| |]|].
    + exact I.
    + case_match; [apply items_update_nodes|apply command_nodes, items_update_nodes].
    + apply command_nodes, stamp_nodes, items_update_nodes.
    + apply emit_result_nodes, slot_update_nodes.
  - destruct last_err as [e|]; [|apply emit_result_nodes, items_update_nodes].
    repeat case_match; try exact I; apply emit_result_nodes; first [apply slot_update_nodes|apply lane_items_update_nodes].
Qed.

Lemma execute_nodes f token attempt h state ctx :
  result_nodes_only (WfActivation.execute f token None attempt h state ctx).
Proof.
  unfold WfActivation.execute. destruct (gates _ _ _ _ _ _) as [r|] eqn:Hg; [by eapply gates_nodes|].
  cbn. destruct (attempts _ _ _ _ _ _) as [|output last_err]; [apply items_update_nodes|].
  pose proof (finish_execution_nodes f h (lane_context (ctx_send_arg ctx)) (ctx_step ctx) token
    output last_err) as Hf.
  destruct (finish_execution _ _ _ _ _ _ _) as [r|e]; [|done]. done.
Qed.

(** The state is an object whose [run] slot is [run]. *)
Definition run_slot_is (run : option value) (s : value) : Prop :=
  is_object s = true ∧ get "run" s = run.

Lemma nodes_only_run_slot run u s :
  nodes_only u → run_slot_is run s → run_slot_is run (wf_merge s u).
Proof.
  intros Hu [Ho Hr]. destruct s as [| | | | |m]; try done. split.
  - destruct Hu as [->|[v ->]]; done.
  - by rewrite nodes_only_merge.
Qed.

Section RunSlot.
Context {C : Type} (f : Fmt) (token : Token)
  (attempt : NodeContext → HandlerData → value → list Item → nat → result EngineError NodeOutput)
  (elapsed : HandlerData → NodeContext → N).
Notation handler := (activation_handler f token None attempt elapsed).

Lemma built_good seq (ck : CheckpointerOps value C) jr g cg tid run id node s ctx :
  build_graph handler seq ck jr g = Ok (cg, tid) → cg_nodes cg !! id = Some node →
  good_result cg (run_slot_is run) (fut_output (node_handler node s ctx)).
Proof.
  intros [Hred Hn]%build_graph_handlers Hid. destruct (Hn id node Hid) as [h ->]. cbn.
  pose proof (execute_nodes f token (attempt ctx) h s ctx) as He.
  unfold good_result, good_update. rewrite Hred.
  destruct (WfActivation.execute _ _ _ _ _ _ _) as [[u|c|i]|e]; cbn in He; try done.
  - intros s0 s' Hs [= <-]. by apply nodes_only_run_slot.
  - intros u Hu s0 s' Hs [= <-]. apply nodes_only_run_slot; auto.
Qed.

Lemma journal_good seq (ck : CheckpointerOps value C) jr g cg tid run id node s ctx :
  build_graph handler seq ck jr g = Ok (cg, tid) →
  cg_nodes (clone_with_journal_sink cg) !! id = Some node →
  good_result (clone_with_journal_sink cg) (run_slot_is run) (fut_output (node_handler node s ctx)).
Proof.
  intros Hb Hid. unfold clone_with_journal_sink in *.
  destruct (cg_journal cg); by eapply built_good in Hb.
Qed.

Lemma execute_run_slot seq (ck : CheckpointerOps value C) jr g cg tid run fuel env s act th rm bar par w e :
  build_graph handler seq ck jr g = Ok (cg, tid) → run_slot_is run s →
  (RunLoop.execute fuel env cg s act th rm bar par w).2 = Returned (Ok e) → run_slot_is run (ge_state e).
Proof.
  intros Hb Hs. unfold RunLoop.execute. unfold mbind at 1.
  destruct (new_run_id env w) as [w1 rid]. intros He.
  refine (execute_run_kept (clone_with_journal_sink cg) (run_slot_is run) _ fuel env rid s act th rm bar par Hs w1 e _).
  - intros id node s0 ctx Hid _. by eapply journal_good.
  - exact He.
Qed.
End RunSlot.

Lemma seed_state_object g tid i inputs overlay : is_object (seed_state g tid i inputs overlay) = true.
Proof.
  unfold seed_state, merge_run_opt, merge_run.
  destruct (rin_run_id i), (trigger_depth_cap g), (trigger_workspace g), overlay; reflexivity.
Qed.
