(* ===== verification/NodeFacts.v ===== *)
(** * Facts about the control-flow executors

    Lemmas behind the properties of [NodeTheorems.v]: chunking for [scatter],
    the order-independent emission of [gather], and what the state keeps of a
    [loop] activation. *)

From stdpp Require Import sorting.
From S2P Require Import Prelude Json GraphTypes Workflow WfState WfActivation.
From S2P Require Import WfPortFacts Text Expr ControlNodes.
From Stdlib Require String.

(** ** Chunks *)

Section Chunks.
Context {A : Type}.
Implicit Types l : list A.

Lemma chunks_fuel_concat size l : ∀ fuel,
  0 < size → length l ≤ fuel → concat (chunks_fuel fuel size l) = l.
Proof.
  intros fuel Hs. revert l. induction fuel as [|fuel IH]; intros [|a l] Hl; cbn in Hl; try done; [lia|].
  change (take size (a :: l) ++ concat (chunks_fuel fuel size (drop size (a :: l))) = a :: l).
  rewrite IH; [apply take_drop|]. rewrite length_drop. cbn. lia.
Qed.

Lemma chunks_fuel_bounds size l : ∀ fuel,
  0 < size → length l ≤ fuel →
  length (chunks_fuel fuel size l) * size < length l + size ∧
  Forall (λ c, 0 < length c ≤ size) (chunks_fuel fuel size l).
Proof.
  intros fuel Hs. revert l. induction fuel as [|fuel IH]; intros [|a l] Hl; cbn in Hl;
    [by split; [cbn; lia|]|lia|by split; [cbn; lia|]|].
  destruct (IH (drop size (a :: l))) as [Hn Hall]; [rewrite length_drop; cbn; lia|].
  rewrite length_drop in Hn. split.
  - change (S (length (chunks_fuel fuel size (drop size (a :: l)))) * size
      < length (a :: l) + size). cbn [length] in *. destruct (decide (size ≤ S (length l))); [lia|].
    rewrite drop_ge by (cbn; lia). destruct fuel; cbn; lia.
  - constructor; [rewrite length_take; cbn; lia|done].
Qed.
End Chunks.

Lemma div_ceil_covers a b : (0 < a → 0 < b → a ≤ b * div_ceil a b ∧ 0 < div_ceil a b)%Z.
Proof.
  intros Ha Hb. unfold div_ceil. pose proof (Z.div_mod a b ltac:(lia)).
  pose proof (Z.mod_pos_bound a b Hb). pose proof (Z.div_pos a b ltac:(lia) Hb).
  case_decide; [|nia]. split; [lia|]. nia.
Qed.

(** What a scatter does with its items: the lanes are non-empty, in order, and
    no more than asked for, than the ceiling, or than there are items. *)
Lemma split_lanes_spec items lanes :
  let out := split_lanes items lanes in
  concat out = items ∧ Forall (λ l, l ≠ []) out ∧ (length out ≤ length items) ∧
  (Z.of_nat (length out) ≤ MAX_LANES)%Z ∧
  (∀ n, lanes = Some n → (0 < n → Z.of_nat (length out) ≤ n)%Z).
Proof.
  destruct items as [|i items]; [cbn; repeat split; try done; unfold MAX_LANES; lia|].
  unfold split_lanes. set (l := i :: items). cbv zeta.
  assert (Hl : 0 < length l) by (cbn; lia).
  set (total := Z.of_nat (length l)). set (requested := Z.max 1 (Z.min (default total lanes) MAX_LANES)).
  assert (Hreq : (0 < requested ≤ MAX_LANES)%Z) by (unfold requested, MAX_LANES; lia).
  assert (Hask : ∀ n, lanes = Some n → (0 < n → requested ≤ n)%Z).
  { intros n -> ?. unfold requested. cbn. lia. }
  case_decide as Hle.
  - repeat split.
    + clear. induction l as [|x l IH]; [done|]. cbn. by f_equal.
    + apply Forall_fmap, Forall_true. done.
    + by rewrite length_fmap.
    + rewrite length_fmap. lia.
    + intros n E Hn. rewrite length_fmap. specialize (Hask n E Hn). lia.
  - destruct (div_ceil_covers total requested) as [Hcov Hpos]; [lia|lia|].
    set (size := Z.to_nat (div_ceil total requested)).
    destruct (chunks_fuel_bounds size l (length l)) as [Hn Hall]; [lia|done|].
    fold (chunks size l) in Hn, Hall.
    assert (Hcount : (Z.of_nat (length (chunks size l)) ≤ requested)%Z).
    { assert (Hz : (Z.of_nat (length (chunks size l)) * div_ceil total requested
        < total + div_ceil total requested)%Z) by lia. nia. }
    repeat split.
    + by apply chunks_fuel_concat; [lia|].
    + eapply Forall_impl; [exact Hall|]. intros [|? ?]; cbn; [lia|done].
    + lia.
    + lia.
    + intros n E Hp. specialize (Hask n E Hp). lia.
Qed.

(** ** Gathering *)

Lemma insert_lane_perm a l : insert_lane a l ≡ₚ a :: l.
Proof.
  induction l as [|b l IH]; [done|]. cbn. case_decide; [done|]. rewrite IH. apply Permutation_swap.
Qed.
Lemma sort_lanes_perm l : sort_lanes l ≡ₚ l.
Proof. induction l as [|a l IH]; [done|]. cbn. by rewrite insert_lane_perm, IH. Qed.

Definition lanes_sorted (l : list Arrived) : Prop := StronglySorted (λ a b, ar_index a ≤ ar_index b) l.

Lemma insert_lane_sorted a l : lanes_sorted l → lanes_sorted (insert_lane a l).
Proof.
  induction 1 as [|b l Hs IH Hb]; cbn; [repeat constructor|]. case_decide as Hle.
  - constructor; [by constructor|]. constructor; [done|].
    eapply Forall_impl; [exact Hb|]. cbn. lia.
  - constructor; [done|]. rewrite insert_lane_perm. constructor; [lia|done].
Qed.
Lemma sort_lanes_sorted l : lanes_sorted (sort_lanes l).
Proof. induction l as [|a l IH]; [constructor|]. by apply insert_lane_sorted. Qed.

(** Two sorted arrangements of lanes with distinct indices are the same. *)
Lemma lanes_sorted_unique l : ∀ k,
  NoDup (ar_index <$> l) → l ≡ₚ k → lanes_sorted l → lanes_sorted k → l = k.
Proof.
  induction l as [|a l IH]; intros k Hnd Hp Hl Hk; [by apply Permutation_nil in Hp|].
  destruct k as [|b k]; [by apply Permutation_sym, Permutation_nil in Hp|].
  apply StronglySorted_inv in Hl as [Hl Ha]. apply StronglySorted_inv in Hk as [Hk Hb].
  assert (a = b) as <-.
  { assert (Hin : a ∈ b :: k) by (rewrite <- Hp; left).
    assert (Hin' : b ∈ a :: l) by (rewrite Hp; left).
    apply elem_of_cons in Hin as [->|Hin]; [done|].
    apply elem_of_cons in Hin' as [->|Hin']; [done|].
    rewrite Forall_forall in Ha, Hb. specialize (Ha b Hin'). specialize (Hb a Hin).
    assert (E : ar_index a = ar_index b) by lia.
    rewrite fmap_cons in Hnd. apply NoDup_cons in Hnd as [Hnd _]. destruct Hnd.
    rewrite E. by apply list_elem_of_fmap_2. }
  rewrite fmap_cons in Hnd. apply NoDup_cons in Hnd as [_ Hnd].
  f_equal. apply IH; try done. by eapply Permutation_cons_inv.
Qed.

Lemma emit_items_perm l k policy :
  NoDup (ar_index <$> l) → l ≡ₚ k → emit_items l policy = emit_items k policy.
Proof.
  intros Hnd Hp. unfold emit_items.
  rewrite (lanes_sorted_unique (sort_lanes l) (sort_lanes k)); [done|..].
  - by rewrite (sort_lanes_perm l).
  - by rewrite (sort_lanes_perm l), (sort_lanes_perm k).
  - apply sort_lanes_sorted.
  - apply sort_lanes_sorted.
Qed.

Lemma sort_lanes_id l : lanes_sorted l → sort_lanes l = l.
Proof.
  induction 1 as [|a l Hs IH Ha]; [done|].
  change (sort_lanes (a :: l)) with (insert_lane a (sort_lanes l)). rewrite IH.
  destruct Ha as [|b l Hb _]; [done|]. cbn. by rewrite decide_True.
Qed.

(** ** The slot a gather reads of a lane *)

(** The fields [lane_items_update] records for a lane that went well. *)
Definition lane_slot (index : nat) (items : list Item) (port : option string) : value :=
  json_object [("items", items_to_value items); ("port", opt_str port); ("status", Str "ok");
               ("index", value_of_nat index)].

Lemma lane_items_update_slot id lane items port :
  lane_items_update id lane items port "ok" None =
  json_object [("nodes", json_object [(id, json_object [("lanes",
    json_object [(lane_id lane, lane_slot (lane_index lane) items port)])])])].
Proof. done. Qed.

Lemma arrived_of_lane_slot index items port :
  Forall (λ i, it_binary i ≠ Some Null) items →
  arrived_of (lane_slot index items port) = mkArrived index items None.
Proof.
  intros Hb. unfold arrived_of, lane_slot, json_object. cbn [foldl fst snd].
  unfold get. autorewrite with tf. rewrite !obj_get_insert_ne by done. autorewrite with tf.
  cbn. rewrite items_roundtrip by done. by rewrite Nat2Z.id.
Qed.

(** Decides a closed proposition by evaluation. *)
Ltac by_decision := apply (bool_decide_eq_true_1 _); vm_compute; reflexivity.

(** ** What the state keeps of a node's metadata *)

(** The update an ordinary activation of a node makes. *)
Definition activation_update (id : string) (out : NodeOutput) (step : nat) : value :=
  stamp_activation_step (items_update_with_meta id (out_items out) (out_port out) (out_meta out))
    id step.

Lemma inserts_field_is k u extra : ∀ fs,
  (∀ v', (k, v') ∈ extra → v' = u) → (∀ v', (k, v') ∈ fs → v' = u) →
  k ∈ extra.*1 ∨ k ∈ fs.*1 →
  field_is k u (foldl (λ s kv, obj_insert kv.1 kv.2 s) fs extra).
Proof.
  induction extra as [|[j w] extra IH]; intros fs He Hf Hin.
  - destruct Hin as [?%elem_of_nil|Hin]; [done|]. by split.
  - cbn. apply IH.
    + intros; apply He; by right.
    + intros v' [[= <- <-]|?]%elem_of_obj_insert; [apply He; left|by apply Hf].
    + rewrite obj_insert_keys. rewrite fmap_cons, elem_of_cons in Hin. cbn in Hin. naive_solver.
Qed.

(** A metadata field under a key of its own reads back from the merged state. *)
Lemma recorded_meta k u v id out extra step s l1 l2 :
  out_meta out = Some (Object extra) → field_is k u extra →
  k ≠ "port" → k ≠ "items" → k ≠ "_activation_step" →
  id ≠ REPLACE → k ≠ REPLACE → (∀ b, wf_merge b u = v) → Forall (elsewhere id) l2 →
  node_slot (foldl wf_merge s (l1 ++ activation_update id out step :: l2)) id >>? get k = Some v.
Proof.
  intros Hm [Hin Hall] Hp Hi Hs Hid Hk Hv Hl2. unfold activation_update.
  rewrite stamped_update_fields, Hm. apply recorded_field_to with (u := u); try done.
  apply field_is_insert; [done|]. apply inserts_field_is; [done| |by left].
  intros v' [[= -> ->]|[[= -> ->]|[]%elem_of_nil]%elem_of_obj_insert]%elem_of_obj_insert; done.
Qed.

(** A numeric field. *)
Lemma number_field k (z : Z) id out extra step s l1 l2 :
  out_meta out = Some (Object extra) → field_is k (value_of_i64 z) extra → (0 ≤ z)%Z →
  k ∉ ["port"; "items"; "_activation_step"; REPLACE] → id ≠ REPLACE → Forall (elsewhere id) l2 →
  node_slot (foldl wf_merge s (l1 ++ activation_update id out step :: l2)) id >>? get k >>? as_u64
  = Some z.
Proof.
  intros Hm Hf Hz Hk Hid Hl2. rewrite !not_elem_of_cons in Hk. destruct Hk as (?&?&?&?&_).
  rewrite (recorded_meta k (value_of_i64 z) (value_of_i64 z) id out extra); try done;
    unfold value_of_i64; by rewrite decide_True.
Qed.

(** ** Lanes in the merged state *)

Lemma obj_insert_perm k v m : k ∉ m.*1 → obj_insert k v m ≡ₚ (k, v) :: m.
Proof.
  induction m as [|[j w] m IH]; [done|]. rewrite fmap_cons, not_elem_of_cons. cbn. intros [Hj Hm].
  rewrite decide_False by done. destruct (String.ltb k j); [done|].
  rewrite IH by done. apply Permutation_swap.
Qed.

Lemma obj_get_None k m : k ∉ m.*1 → obj_get k m = None.
Proof.
  intros Hk. destruct (obj_get k m) as [v|] eqn:E; [|done]. apply obj_get_Some_elem in E.
  destruct Hk. apply list_elem_of_fmap. by exists (k, v).
Qed.

(** The lanes the slot of a node holds. *)
Definition lanes_of (s : value) (id : string) : list (string * value) :=
  object_or_empty (default Null (node_slot s id >>? get "lanes")).

Lemma lanes_of_update s id lid slot : id ≠ REPLACE → lid ≠ REPLACE → lid ∉ (lanes_of s id).*1 →
  node_slot (wf_merge s (nodes_update id (Object [("lanes", Object [(lid, slot)])]))) id
    >>? get "lanes" = Some (Object (obj_insert lid (wf_merge Null slot) (lanes_of s id))).
Proof.
  intros Hid Hlid Hfresh. rewrite node_slot_update_eq by done. cbn [and_then].
  rewrite wf_merge_single by done. cbn [get]. rewrite obj_get_insert_eq.
  rewrite wf_merge_single by done.
  assert (E : object_or_empty (default Null (obj_get "lanes"
      (object_or_empty (default Null (node_slot s id))))) = lanes_of s id).
  { unfold lanes_of. destruct (node_slot s id) as [[]|]; done. }
  rewrite E, obj_get_None by done. done.
Qed.

Lemma lane_slot_merged index items port :
  wf_merge Null (lane_slot index items port) = lane_slot index items port.
Proof. by destruct port. Qed.

(** A lane's report: its id, index, items and port. *)
Definition lane_report (id : string) (r : LaneContext * list Item) (port : option string) : value :=
  lane_items_update id r.1 r.2 port "ok" None.
Definition lane_entry (port : option string) (r : LaneContext * list Item) : string * value :=
  (lane_id r.1, lane_slot (lane_index r.1) r.2 port).

Lemma merged_lanes id port rs : ∀ s,
  id ≠ REPLACE → NoDup (lane_id ∘ fst <$> rs) → REPLACE ∉ (lane_id ∘ fst <$> rs) →
  (∀ x, x ∈ (lane_id ∘ fst <$> rs) → x ∉ (lanes_of s id).*1) → rs ≠ [] →
  ∃ m, node_slot (foldl wf_merge s ((λ r, lane_report id r port) <$> rs)) id >>? get "lanes" =
         Some (Object m) ∧
       m ≡ₚ (lane_entry port <$> rs) ++ lanes_of s id.
Proof.
  induction rs as [|r rs IH]; intros s Hid Hnd Hrep Hfresh Hne; [done|].
  rewrite fmap_cons in Hnd, Hrep, Hfresh. apply NoDup_cons in Hnd as [Hr Hnd].
  apply not_elem_of_cons in Hrep as [Hr1 Hrep].
  set (s' := wf_merge s (lane_report id r port)).
  assert (Hs' : node_slot s' id >>? get "lanes" =
    Some (Object (obj_insert (lane_id r.1) (lane_slot (lane_index r.1) r.2 port) (lanes_of s id)))).
  { unfold s', lane_report. rewrite lane_items_update_slot, <- (lane_slot_merged _ _ port) at 1.
    change (json_object _) with (nodes_update id (Object [("lanes", Object [(lane_id r.1,
      wf_merge Null (lane_slot (lane_index r.1) r.2 port))])])).
    rewrite lanes_of_update; [by rewrite !lane_slot_merged|done| |].
    - intros E. by apply Hr1.
    - apply Hfresh. left. }
  assert (Hl' : lanes_of s' id =
    obj_insert (lane_id r.1) (lane_slot (lane_index r.1) r.2 port) (lanes_of s id)).
  { unfold lanes_of at 1. by rewrite Hs'. }
  assert (Hp : lanes_of s' id ≡ₚ lane_entry port r :: lanes_of s id).
  { rewrite Hl'. apply obj_insert_perm. apply Hfresh. left. }
  cbn [fmap list_fmap foldl]. fold s'. destruct rs as [|r' rs'].
  - exists (lanes_of s' id). split; [|done].
    change (node_slot s' id >>? get "lanes" = Some (Object (lanes_of s' id))). by rewrite Hs', Hl'.
  - destruct (IH s') as (m & Hm & Hmp); try done.
    + intros x Hx. rewrite Hp, fmap_cons, not_elem_of_cons. split; [by intros ->|].
      apply Hfresh. by right.
    + exists m. split; [done|]. rewrite Hmp, Hp. cbn. rewrite !app_comm_cons.
      by rewrite <- Permutation_middle.
Qed.

(** A field of a literal object. *)
Lemma json_object_field k v fields :
  (k, v) ∈ fields → NoDup fields.*1 →
  ∃ extra, json_object fields = Object extra ∧ field_is k v extra.
Proof.
  intros Hin Hnd. eexists. split; [done|]. apply inserts_field_is.
  - intros v' Hv'. apply list_elem_of_lookup in Hin as [i Hi]. apply list_elem_of_lookup in Hv' as [j Hj].
    assert (i = j) as ->; [|congruence].
    eapply (NoDup_lookup fields.*1); [done|..]; rewrite list_lookup_fmap; [by rewrite Hi|by rewrite Hj].
  - intros v' []%elem_of_nil.
  - left. apply list_elem_of_fmap. by exists (k, v).
Qed.

Lemma release_wait p a e spent : release_evaluate p a e spent = Wait → spent = false.
Proof. unfold release_evaluate. case_decide; [done|]. destruct spent; [by destruct p|done]. Qed.

Lemma release_all_emit a e spent : release_evaluate RAll a e spent = Emit → (e ≤ a)%Z.
Proof. unfold release_evaluate. case_decide; [done|]. by destruct spent. Qed.
