(* ===== verification/AgentRequest.v ===== *)
(** * Working directories and agent requests

    [crates/tinyflows/src/workdir.rs] and [nodes/integration/agent_request.rs]:
    how the request of an agent turn is put together from the agent type, the
    node's overrides and what the host answers.

    The host is the records [AgentRunner] and [MemoryProvider]; an operation that
    can be called more than once while a request is put together is told the
    position of the context source it is called for, so that its answers need
    not be the same each time.  The file system is [Fs].  Paths are Unix paths. *)

From S2P Require Import Prelude Json GraphTypes Workflow WfState WfActivation.
From S2P Require Import Text Expr Postcondition WfConfig ControlNodes.
From Stdlib Require Import Ascii.
From Stdlib Require String.

(** ** Working directories ([workdir.rs]) *)

Inductive Absolute := Refuse | AllowInside.
#[export] Instance Absolute_eq_dec : EqDecision Absolute.
Proof. solve_decision. Defined.

(** [canonicalize] of the file system (or why it failed) and [is_dir]. *)
Record Fs := mkFs { fs_canonicalize : string → result string string; fs_is_dir : string → bool }.

Definition is_absolute (path : string) : bool :=
  match path with SCons c _ => bool_decide (c = "/"%char) | EmptyString => false end.

(** [Path::components], without the root: empty parts are skipped, and so is
    [.] except at the start of the path. *)
Definition parts (path : string) : list string :=
  match filter (λ p, p ≠ "") (split_char "/"%char path) with
  | [] => []
  | p :: rest =>
      (if decide (p = "." ∧ is_absolute path = true) then [] else [p]) ++ filter (λ q, q ≠ ".") rest
  end.

(** [Path::starts_with]. *)
Definition path_starts_with (path base : string) : bool :=
  Bool.eqb (is_absolute path) (is_absolute base) && bool_decide (parts base `prefix_of` parts path).

(** [Path::join] of a relative path. *)
Definition path_join (base path : string) : string :=
  if ends_with "/" base || bool_decide (base = "") then base +:+ path
  else base +:+ "/" +:+ path.

Definition run_workspace (run : value) : option string :=
  non_blank (trim <$> match get "workspace" run >>? as_str with
                      | Some w => Some w
                      | None => get "trigger" run >>? get "workspace" >>? as_str
                      end).

Definition check_shape (raw field : string) (absolute : Absolute) : result string unit :=
  if is_absolute raw then
    if decide (absolute = Refuse) then
      Err ("`" +:+ field +:+ "` ('" +:+ raw +:+
           "') must be relative to the workspace, not absolute")
    else Ok tt
  else if decide (".." ∈ parts raw) then
    Err ("`" +:+ field +:+ "` ('" +:+ raw +:+ "') must not traverse outside the workspace")
  else Ok tt.

Section Workdir.
Context (fs : Fs).

Definition resolve_in_workspace (workspace raw field : string) (absolute : Absolute)
    : result string string :=
  let? _ := check_shape raw field absolute in
  let? ws := match fs_canonicalize fs workspace with
             | Ok ws => Ok ws
             | Err err => Err ("the configured workspace (" +:+ workspace +:+ ") is unreadable: " +:+
                               err)
             end in
  let joined := if is_absolute raw then raw else path_join ws raw in
  let? resolved :=
    match fs_canonicalize fs joined with
    | Ok p => Ok p
    | Err err => Err ("`" +:+ field +:+ "` ('" +:+ raw +:+
                      "') does not resolve inside the workspace (" +:+ joined +:+ "): " +:+ err)
    end in
  if path_starts_with resolved ws then Ok resolved
  else Err ("`" +:+ field +:+ "` ('" +:+ raw +:+ "') resolves outside the workspace (" +:+ ws +:+
            ")").

Definition resolve_dir_in_workspace (workspace raw field : string) (absolute : Absolute)
    : result string string :=
  let? resolved := resolve_in_workspace workspace raw field absolute in
  if fs_is_dir fs resolved then Ok resolved
  else Err ("`" +:+ field +:+ "` ('" +:+ raw +:+ "') is not a directory in the workspace").

Inductive WorkdirCheck :=
| Resolved (path : string)
| Refused (message : string)
| Unmanaged.

(** [managed] is the answer of the harness, when one is wired. *)
Definition resolve_node_dir (managed : option (string → string → WorkdirCheck)) (run : value)
    (raw field surface : string) : result EngineError string :=
  match run_workspace run with
  | None => Ok raw
  | Some workspace =>
      let refuse {A} (r : result string A) : result EngineError A :=
        match r with Ok a => Ok a | Err m => Err (ECapability (surface +:+ ": " +:+ m)) end in
      let? _ := refuse (check_shape raw field AllowInside) in
      let local := refuse (resolve_dir_in_workspace workspace raw field AllowInside) in
      match managed with
      | Some resolve_workdir =>
          match resolve_workdir workspace raw with
          | Resolved path => Ok path
          | Refused message =>
              refuse (Err ("`" +:+ field +:+ "` ('" +:+ raw +:+ "') " +:+ message))
          | Unmanaged => local
          end
      | None => local
      end
  end.
End Workdir.

(** ** The request ([caps/agent.rs]) *)

Record AgentRunIdentity := mkIdentity {
  ri_run_id : option string;
  ri_workflow_id : option string;
  ri_node_id : string;
  ri_depth : Z;
  ri_item_index : option nat
}.

Record ContextBlock := mkBlock {
  cb_label : string;
  cb_source_kind : string;
  cb_text : option string;
  cb_data : value
}.
Definition block_text (label kind text : string) : ContextBlock := mkBlock label kind (Some text) Null.
Definition block_data (label kind : string) (data : value) : ContextBlock :=
  mkBlock label kind None data.

Record ToolDescriptor := mkTool {
  td_slug : string;
  td_name : option string;
  td_description : option string;
  td_input_schema : option value;
  td_connection_ref : option string
}.
Definition from_grant (g : ToolGrant) (fallback : option string) : ToolDescriptor :=
  mkTool (grant_slug g) None None None
    (match grant_connection_ref g with Some c => Some c | None => fallback end).

(** The request; its model selection and input are the fields [rq_model] to
    [rq_data]. *)
Record AgentRunRequest := mkRequest {
  rq_agent : AgentDefinition;
  rq_model : option string;
  rq_provider : option string;
  rq_text : string;
  rq_data : list value;
  rq_context : list ContextBlock;
  rq_tools : list ToolDescriptor;
  rq_connection_ref : option string;
  rq_working_dir : option string;
  rq_identity : AgentRunIdentity;
  rq_metadata : list (string * value);
  rq_output_schema : option value;
  rq_config : value
}.

Record AgentRunner := mkRunner {
  ar_resolve_agent : string → result EngineError (option AgentDefinition);
  ar_resolve_workdir : string → string → WorkdirCheck;
  ar_resolve_context : nat → string → value → AgentRunIdentity →
                       result EngineError (option ContextBlock);
  ar_resolve_tools : list ToolGrant → option string → result EngineError (list ToolDescriptor)
}.

Record MemoryProvider := mkMemory {
  mp_recall : nat → string → string → value → result EngineError value;
  mp_flavour : nat → string → result EngineError value
}.

(** What the assembly of a request asks the host for. *)
Inductive ContextCall :=
| AskAgent (agent_ref : string)
| AskWorkdir (workspace raw : string)
| AskRecall (scope query : string) (opts : value)
| AskFlavour (slug : string)
| AskContext (source : string) (params : value) (identity : AgentRunIdentity)
| AskTools (grants : list ToolGrant) (conn : option string).

(** A computation with the calls it made. *)
Definition Assembly (A : Type) : Type := list ContextCall * result EngineError A.
Definition assembled {A} (r : result EngineError A) : Assembly A := ([], r).
Definition asking {A} (call : ContextCall) (answer : result EngineError A) : Assembly A := ([call], answer).
Definition abind {A B} (m : Assembly A) (k : A → Assembly B) : Assembly B :=
  match m.2 with Ok a => (m.1 ++ (k a).1, (k a).2) | Err e => (m.1, Err e) end.
Notation "'let+' x := m 'in' k" := (abind m (λ x, k))
  (at level 200, x name, m at level 100, k at level 200, right associativity) : tf_scope.

Lemma abind_Ok {A B} (m : Assembly A) (k : A → Assembly B) (b : B) :
  (abind m k).2 = Ok b → ∃ a, m.2 = Ok a ∧ (abind m k).1 = m.1 ++ (k a).1 ∧ (k a).2 = Ok b.
Proof. unfold abind. destruct (m.2) as [a|e]; [|done]. eauto. Qed.
Lemma abind_calls {A B} (P : ContextCall → Prop) (m : Assembly A) (k : A → Assembly B) :
  Forall P m.1 → (∀ a, Forall P (k a).1) → Forall P (abind m k).1.
Proof. intros Hm Hk. unfold abind. destruct (m.2) as [a|e]; [|done]. by apply Forall_app. Qed.

(** ** Assembly ([agent_request.rs]) *)

Definition agent_ref_of (cfg : value) : option string :=
  non_blank (get "agent_ref" cfg >>? as_str).

(** An optional field of a configuration: absent and [null] are the default. *)
Definition field {A} (de : value → result string A) (dflt : A) (cfg : value) (key node_id : string)
    : result EngineError A :=
  match non_null key cfg with
  | None => Ok dflt
  | Some raw =>
      match de raw with
      | Ok a => Ok a
      | Err e => Err (ECapability ("agent node " +:+ node_id +:+ ": invalid `" +:+ key +:+ "`: " +:+ e))
      end
  end.

Definition agent_new (id : string) : AgentDefinition :=
  mkAgent id "" "" None None None None (mkLimits None None None None) [] [] [].

Definition resolve_definition (agents : list AgentDefinition) (runner : option AgentRunner)
    (agent_ref : string) : Assembly AgentDefinition :=
  match find_first (λ a, bool_decide (ag_id a = agent_ref)) agents with
  | Some a => assembled (Ok a)
  | None =>
      match runner with
      | Some r =>
          let+ answer := asking (AskAgent agent_ref) (ar_resolve_agent r agent_ref) in
          assembled (Ok (default (agent_new agent_ref) answer))
      | None => assembled (Ok (agent_new agent_ref))
      end
  end.

(** [resolve_node_dir] for an agent: the harness is asked once the shape of the
    path has passed. *)
Definition resolve_agent_dir (fs : Fs) (runner : option AgentRunner) (run : value)
    (raw field surface : string) : Assembly string :=
  (match runner, run_workspace run with
   | Some _, Some workspace =>
       match check_shape raw field AllowInside with Ok _ => [AskWorkdir workspace raw] | Err _ => [] end
   | _, _ => []
   end,
   resolve_node_dir fs (ar_resolve_workdir <$> runner) run raw field surface).

Definition narrow_tools (granted requested : list ToolGrant) : list ToolGrant :=
  filter (λ g, existsb (λ w, covers w (grant_slug g) || covers g (grant_slug w)) requested = true)
    granted.

Fixpoint declared_working_dir_in (keys : list string) (cfg : value) (node_id : string)
    : result EngineError (option string) :=
  match keys with
  | [] => Ok None
  | key :: rest =>
      match get key cfg with
      | None => declared_working_dir_in rest cfg node_id
      | Some Null =>
          Err (ECapability ("agent node " +:+ node_id +:+ ": `" +:+ key +:+
            "` resolved to null; an expression that reads a missing path fails the step rather " +:+
            "than falling back to another directory"))
      | Some (Str dir) =>
          if decide (trim dir = "") then
            Err (ECapability ("agent node " +:+ node_id +:+ ": `" +:+ key +:+
                   "` must be a non-empty path when present"))
          else Ok (Some dir)
      | Some _ =>
          Err (ECapability ("agent node " +:+ node_id +:+ ": `" +:+ key +:+ "` must be a string"))
      end
  end.
Definition declared_working_dir : value → string → result EngineError (option string) :=
  declared_working_dir_in ["cwd"; "working_dir"].

(** [Option::or]. *)
Definition or_else {A} (a b : option A) : option A := match a with Some _ => a | None => b end.

Definition newline : string := SCons (ascii_of_nat 10) "".

Definition merged_instructions (base : option string) (cfg : value) : option string :=
  match get "instructions" cfg >>? as_str with
  | Some extra =>
      if decide (extra = "") then base
      else match non_blank base with
           | Some base => Some (base +:+ newline +:+ newline +:+ extra)
           | None => Some extra
           end
  | None => base
  end.

Definition merge_node_overrides (sd : Serde) (d : AgentDefinition) (cfg : value) (node_id : string)
    : result EngineError AgentDefinition :=
  let? dir := declared_working_dir cfg node_id in
  let? node_context := field (de_sources sd) [] cfg "context" node_id in
  let? node_tools := field (de_grants sd) [] cfg "tools" node_id in
  let? node_limits := field (de_limits sd) (mkLimits None None None None) cfg "limits" node_id in
  let? node_metadata := field (de_metadata sd) [] cfg "metadata" node_id in
  Ok (mkAgent (ag_id d) (ag_name d) (ag_description d)
        (merged_instructions (ag_instructions d) cfg)
        (or_else (get "model" cfg >>? as_str) (ag_model d))
        (or_else (get "provider" cfg >>? as_str) (ag_provider d))
        (or_else dir (ag_working_dir d))
        (narrowed_by (ag_limits d) node_limits)
        (match node_tools, ag_tools d with
         | [], granted => granted
         | _, [] => node_tools
         | _, granted => narrow_tools granted node_tools
         end)
        (ag_context d ++ node_context)
        (foldl (λ m kv, obj_insert kv.1 kv.2 m) (ag_metadata d) node_metadata)).

Definition source_kind (k : ContextSourceKind) : string :=
  match k with
  | CSText _ => "text" | CSItems => "items" | CSMemory _ _ _ => "memory"
  | CSFlavour _ => "flavour" | CSHost _ _ => "host"
  end.

Definition recall_opts (limit : option N) : value :=
  Object (match limit with
          | Some l => obj_insert "limit" (Number (PosInt (Z.of_N l)))
                        (obj_insert "operation" (Str "recall") [])
          | None => obj_insert "operation" (Str "recall") []
          end).

Section Context_.
Context (f : Fmt) (runner : option AgentRunner) (memory : option MemoryProvider).
Context (input : list Item) (identity : AgentRunIdentity).

(** One source: [None] when no capability answers for it. *)
Definition resolve_source (index : nat) (s : ContextSource) : Assembly (option ContextBlock) :=
  let label := label_or_index s index in
  let kind := source_kind (src_kind s) in
  match src_kind s with
  | CSText (Str t) => assembled (Ok (Some (block_text label kind t)))
  | CSText Null => assembled (Ok (Some (block_text label kind "")))
  | CSText other => assembled (Ok (Some (mkBlock label kind (Some (fmt_json f other)) other)))
  | CSItems => assembled (Ok (Some (block_data label kind (Array (it_json <$> input)))))
  | CSMemory scope query limit =>
      match memory with
      | Some m =>
          let+ data := asking (AskRecall scope query (recall_opts limit))
                         (mp_recall m index scope query (recall_opts limit)) in
          assembled (Ok (Some (block_data label kind data)))
      | None => assembled (Ok None)
      end
  | CSFlavour slug =>
      match memory with
      | Some m =>
          let+ data := asking (AskFlavour slug) (mp_flavour m index slug) in
          assembled (Ok (Some (block_data label kind data)))
      | None => assembled (Ok None)
      end
  | CSHost source params =>
      match runner with
      | Some r => asking (AskContext source params identity) (ar_resolve_context r index source params identity)
      | None => assembled (Ok None)
      end
  end.

Definition unresolved_source (s : ContextSource) (index : nat) : EngineError :=
  ECapability ("agent node " +:+ ri_node_id identity +:+ ": context source `" +:+
    label_or_index s index +:+ "` (" +:+ source_kind (src_kind s) +:+
    ") could not be resolved — the host wired no capability for it, or does not recognize it; " +:+
    "set `" +:+ quoted "optional" +:+ ": true` on the source to make this survivable").

(** The loop over the sources from [index] on, with the blocks so far. *)
Fixpoint resolve_sources (index : nat) (sources : list ContextSource) (blocks : list ContextBlock)
    : Assembly (list ContextBlock) :=
  match sources with
  | [] => assembled (Ok blocks)
  | s :: rest =>
      let+ resolved := resolve_source index s in
      match resolved with
      | Some block => resolve_sources (S index) rest (blocks ++ [block])
      | None =>
          if src_optional s then resolve_sources (S index) rest blocks
          else assembled (Err (unresolved_source s index))
      end
  end.

Definition resolve_context (sources : list ContextSource) : Assembly (list ContextBlock) :=
  resolve_sources 0 sources [].
End Context_.

Definition identity_of (c : ExecContext) (item_index : option nat) : AgentRunIdentity :=
  mkIdentity (get "run_id" (ec_run c) >>? as_str) (get "workflow_id" (ec_run c) >>? as_str)
    (nd_id (ec_node c))
    (default 0%Z (get "sub_workflow_depth" (ec_run c) >>? as_u64) mod 2 ^ 32)%Z item_index.

Definition output_schema (cfg : value) : option value :=
  match get "output_parser" cfg >>? get "schema" with
  | Some s => if is_null s then None else Some s
  | None => None
  end.

Definition resolved_definition (jq : string → value → option value) (sd : Serde) (node_id : string)
    (agent_ref : string) (scope : value) (d : AgentDefinition) : result EngineError AgentDefinition :=
  match ser_agent sd d with
  | Err e => Err (ECapability ("agent node " +:+ node_id +:+ ": " +:+ e))
  | Ok raw =>
      match de_agent sd (resolve_traced jq raw scope).1 with
      | Ok d => Ok d
      | Err e => Err (ECapability ("agent node " +:+ node_id +:+ ": agent definition `" +:+
                   agent_ref +:+ "` did not survive expression resolution: " +:+ e))
      end
  end.

Definition set_working_dir (d : AgentDefinition) (dir : option string) : AgentDefinition :=
  mkAgent (ag_id d) (ag_name d) (ag_description d) (ag_instructions d) (ag_model d) (ag_provider d)
    dir (ag_limits d) (ag_tools d) (ag_context d) (ag_metadata d).

Definition assemble (f : Fmt) (jq : string → value → option value) (sd : Serde) (fs : Fs)
    (runner : option AgentRunner) (memory : option MemoryProvider) (c : ExecContext)
    (cfg : value) (agent_ref : string) (scope : value) (item_index : option nat)
    : Assembly AgentRunRequest :=
  let node_id := nd_id (ec_node c) in
  let+ definition := resolve_definition (ec_agents c) runner agent_ref in
  let+ definition := assembled (resolved_definition jq sd node_id agent_ref scope definition) in
  let+ agent := assembled (merge_node_overrides sd definition cfg node_id) in
  let+ agent :=
    match ag_working_dir agent with
    | Some raw =>
        let key := match get "cwd" cfg with Some _ => "cwd" | None => "working_dir" end in
        let+ dir := resolve_agent_dir fs runner (ec_run c) raw ("config." +:+ key)
                      ("agent node " +:+ node_id) in
        assembled (Ok (set_working_dir agent (Some dir)))
    | None => assembled (Ok agent)
    end in
  let identity := identity_of c item_index in
  let conn := get "connection_ref" cfg >>? as_str in
  let+ context := resolve_context f runner memory (ec_input c) identity (ag_context agent) in
  let+ tools :=
    match runner with
    | Some r => asking (AskTools (ag_tools agent) conn) (ar_resolve_tools r (ag_tools agent) conn)
    | None => assembled (Ok ((λ g, from_grant g conn) <$> ag_tools agent))
    end in
  assembled (Ok (mkRequest agent (ag_model agent) (ag_provider agent)
        (default "" (get "prompt" cfg >>? as_str)) (it_json <$> ec_input c) context tools conn
        (ag_working_dir agent) identity (ag_metadata agent) (output_schema cfg) cfg)).
