(* ===== verification/ConfigTheorems.v ===== *)
(** * Properties of expressions, configuration checks and postconditions *)
From Stdlib Require Import Ascii.
From Stdlib Require String.
From S2P Require Import Prelude Json GraphTypes Search Workflow WfAnalysis WfValidate WfBuildFacts WfState.
From S2P Require Import WfActivation WfSamples Text Expr Postcondition WfConfig ControlNodes AgentRequest.

(** ** Expressions *)

(** Tracing changes nothing: the configuration [resolve_traced] returns is
    the one [resolve] returns, and the misses it reports are, in order, exactly
    the expressions [collect_expressions] finds, with the same locations, whose
    value is [null]. A configuration without expressions is returned as it is. *)
Theorem traced_resolution_exact jq (v scope : value) :
  resolve_traced jq v scope =
    (resolve jq v scope,
     (λ e, mkMiss e.1 e.2) <$>
       filter (λ e, evaluate jq (Str e.2) scope = Null) (collect_expressions v)) ∧
  (collect_expressions v = [] → resolve jq v scope = v).
Proof.
  split; [apply (resolve_traced_inner_spec jq scope v "")|]. apply (resolve_literal jq scope v "").
Qed.

(** ** Postconditions *)

Lemma attempts_settled n token attempt : ∀ fuel i last out err,
  attempts fuel n token attempt i last = Settled (Some out) err → ∃ k, attempt k = Ok out.
Proof.
  induction fuel as [|fuel IH]; intros i last out err; cbn; [done|].
  destruct (tk_attempt token i); [done|]. destruct (attempt i) as [o|e] eqn:E.
  - intros [= -> _]. by exists i.
  - destruct (_ && _ && _); [done|]. apply IH.
Qed.

Lemma enforce_Ok f de n out :
  out_control out = None →
  enforce f de n out = Ok tt ↔
  match from_config f de (nd_config n) with
  | None => True
  | Some declared =>
      ∃ p, declared = Ok p ∧ out_items out ≠ [] ∧ Forall (λ i, satisfies p (it_json i)) (out_items out)
  end.
Proof.
  intros Hc. unfold enforce. rewrite Hc. destruct (from_config _ _ _) as [[p|e]|]; [| |done].
  - cbn [rbind]. split.
    + destruct (check_items p (out_items out)) as [[]|] eqn:E; [|done]. intros _.
      apply check_items_satisfies in E. by exists p.
    + intros (q & [= <-] & Hs). by rewrite (proj2 (check_items_satisfies p _) Hs).
  - cbn. split; [done|]. by intros (q & ? & _).
Qed.

(** The postcondition of a node is a gate that fails closed. An output the
    retry loop settles on, without a control request, under a declared
    postcondition has a readable declaration, at least one item, and every item
    satisfies the declared predicate; an output that does is never refused; and
    a declaration accepted when the workflow is authored can be satisfied. *)
Theorem postcondition_gate f de secs n token executed fuel out err declared :
  attempts fuel n token (attempt_outcome f de secs n executed) 0 None = Settled (Some out) err →
  out_control out = None → from_config f de (nd_config n) = Some declared →
  (∃ p, declared = Ok p ∧ out_items out ≠ [] ∧
        Forall (λ i, satisfies p (it_json i)) (out_items out) ∧
        (∀ i, executed i = Some (Ok out) → attempt_outcome f de secs n executed i = Ok out)) ∧
  (∀ p, validate_postcondition p = Ok tt → ∃ v, satisfies p v).
Proof.
  intros Ha Hc Hd. split; [|apply validated_satisfiable].
  apply attempts_settled in Ha as [k Hk].
  assert (Hen : enforce f de n out = Ok tt).
  { revert Hk. unfold attempt_outcome. destruct (executed k) as [[o|]|]; [|done|done].
    destruct (enforce f de n o) as [[]|] eqn:E; [|done]. by intros [= ->]. }
  pose proof Hen as Hen'. apply enforce_Ok in Hen' as Hsat; [|done]. rewrite Hd in Hsat.
  destruct Hsat as (p & -> & Hne & Hall). exists p. split_and!; [done|done|done|].
  intros i Hi. unfold attempt_outcome. by rewrite Hi, Hen.
Qed.

(** A node that wants a non-empty list and an executor whose second attempt
    delivers one. *)
Definition listing_node : Node :=
  sample_node "n" ToolCall (json_object [("postcondition", Object []);
    ("retry", json_object [("max_attempts", Number (PosInt 2))])]).
Definition listing_output : NodeOutput :=
  mkOutput [item_new (json_object [("json", Array [Null])])] None None None.
Definition listing_executed (i : nat) : option (result EngineError NodeOutput) :=
  if decide (i = 0) then Some (Ok (mkOutput [item_new (Object [])] None None None))
  else Some (Ok listing_output).
Definition listing_de (_ : value) : result string Postcondition :=
  Ok (mkPost "non_empty_list" None).

Lemma postcondition_gate_witness :
  out_items listing_output ≠ [] ∧
  Forall (λ i, satisfies (mkPost "non_empty_list" None) (it_json i)) (out_items listing_output).
Proof.
  edestruct (postcondition_gate sample_fmt listing_de 1 listing_node no_cancel listing_executed 2
    listing_output) as [(p & E & Hne & Hall & _) _]; [vm_compute; reflexivity|done|reflexivity|].
  injection E as <-. split; [exact Hne|exact Hall].
Defined.

(** ** Configuration *)

Section Valid.
Context (f : Fmt) (sd : Serde) (g : WorkflowGraph).
Hypothesis Hvalid : validate_graph f sd g = [].

Lemma valid_configs : validate_node_configs f sd g = [] ∧ validate_agents f sd g = [].
Proof.
  unfold validate_graph, validate_all in Hvalid.
  do 11 (apply app_nil in Hvalid as [? Hvalid]). done.
Qed.

Lemma valid_memory n : n ∈ wg_nodes g → memory_errors f n = [].
Proof.
  intros Hn. destruct valid_configs as [Hc _]. unfold validate_node_configs in Hc.
  do 3 (apply app_nil in Hc as [_ Hc]). apply app_nil in Hc as [Hc _].
  by apply (proj1 (concat_nil _ _) Hc n).
Qed.

Lemma valid_agent_node n :
  n ∈ wg_nodes g → nd_kind n = Agent →
  agent_ref_errors f n = [] ∧ tools_errors f sd g n = [] ∧ context_errors f sd n = [] ∧
  limits_errors sd n = [].
Proof.
  intros Hn Hk. destruct valid_configs as [_ Hc]. unfold validate_agents in Hc.
  apply app_nil in Hc as [_ Hc]. pose proof (proj1 (concat_nil _ _) Hc n Hn) as H.
  unfold agent_node_errors in H. rewrite decide_True in H by done.
  do 3 (apply app_nil in H as [? H]). done.
Qed.

Lemma registry_nil agents : ∀ seen, registry_errors f seen agents = [] →
  Forall (λ a, (∀ gr, gr ∈ ag_tools a → tool_grant_problem f gr = None) ∧
               (∀ i s, ag_context a !! i = Some s → context_source_problem f s i = None) ∧
               limits_problem (ag_limits a) = None) agents.
Proof.
  induction agents as [|a agents IH]; intros seen Hr; [constructor|]. cbn in Hr.
  apply app_nil in Hr as [_ Hr]. apply app_nil in Hr as [Ht Hr]. apply app_nil in Hr as [Hs Hr].
  apply app_nil in Hr as [Hl Hr]. constructor; [|by eapply IH]. split_and!.
  - intros gr Hin. pose proof (proj1 (concat_nil _ _) Ht gr Hin) as H. cbv beta in H.
    by destruct (tool_grant_problem f gr).
  - intros i s Hi. apply concat_nil_Forall in Hs. rewrite Forall_forall in Hs.
    assert (Hin : option_list (InvalidAgentDefinition (ag_id a)) (context_source_problem f s i) ∈
      imap (λ index s, option_list (InvalidAgentDefinition (ag_id a))
              (context_source_problem f s index)) (ag_context a)).
    { apply list_elem_of_lookup. exists i. rewrite list_lookup_imap, Hi. done. }
    specialize (Hs _ Hin). by destruct (context_source_problem f s i).
  - by destruct (limits_problem (ag_limits a)).
Qed.
End Valid.

Lemma get_resolve jq k config scope : get k (resolve jq config scope) = (λ v, resolve jq v scope) <$> get k config
  ∨ (∃ s, config = Str s ∧ is_expression s = true).
Proof.
  destruct config as [| | |s| |m]; try by left.
  - cbn. destruct (is_expression s) eqn:E; [right; by exists s|by left].
  - left. cbn. induction m as [|[j w] m IH]; [done|]. cbn. case_decide; [done|]. apply IH.
Qed.

(** A literal of an object keeps its place through the resolution. *)
Lemma resolve_keeps_literal jq k config scope s :
  get k config = Some (Str s) → is_expression s = false →
  get k (resolve jq config scope) = Some (Str s).
Proof.
  intros Hk Hs. destruct (get_resolve jq k config scope) as [->|(t & -> & _)]; [|done].
  rewrite Hk. cbn. by rewrite Hs.
Qed.

Lemma config_error_nil n b reason : config_error n b reason = [] ↔ b = false.
Proof. by destruct b. Qed.

Lemma as_str_Some v s : v >>? as_str = Some s ↔ v = Some (Str s).
Proof. destruct v as [[]|]; cbn; naive_solver. Qed.

Lemma has_text_Some k n : has_text k n = true → ∃ s, get k (nd_config n) = Some (Str s) ∧ s ≠ "".
Proof.
  unfold has_text. destruct (get k (nd_config n) >>? as_str) as [s|] eqn:E; [|done].
  intros Hs%bool_decide_eq_true. apply as_str_Some in E. by exists s.
Qed.

(** A validated workflow cannot write outside its own memory. Every [memory]
    node names its operation literally, and one that writes ([remember] or
    [forget]) names the scope [flow] literally and a key; since both are
    literals, they are what the executor finds after every resolution of the
    configuration, whatever the run's data. *)
Theorem memory_writes_confined f sd g n :
  validate_graph f sd g = [] → n ∈ wg_nodes g → nd_kind n = Memory →
  ∃ op, op ∈ MEMORY_OPERATIONS ∧
    (∀ jq scope, get "operation" (resolve jq (nd_config n) scope) = Some (Str op)) ∧
    (op ∈ ["remember"; "forget"] →
       (∀ jq scope, get "scope" (resolve jq (nd_config n) scope) = Some (Str "flow")) ∧
       ∃ key, get "key" (nd_config n) = Some (Str key) ∧ key ≠ "").
Proof.
  intros Hv Hn Hk. pose proof (valid_memory f sd g Hv n Hn) as Hm. unfold memory_errors in Hm.
  rewrite decide_True in Hm by done.
  destruct (get "operation" (nd_config n) >>? as_str) as [op|] eqn:Eop; [|done].
  apply as_str_Some in Eop. case_decide as Hop; [|done]. exists op. split; [done|].
  assert (Hlit : ∀ o, o ∈ MEMORY_OPERATIONS → is_expression o = false).
  { apply Forall_forall. repeat constructor. }
  split; [intros; by apply resolve_keeps_literal; [|apply Hlit]|]. intros Hw.
  unfold memory_operation_errors in Hm. rewrite (bool_decide_true _ Hw) in Hm.
  apply app_nil in Hm as [H1 Hm]. apply app_nil in Hm as [H2 Hm]. apply app_nil in Hm as [H3 Hm].
  do 2 apply app_nil in Hm as [_ Hm]. apply app_nil in Hm as [H6 _].
  apply config_error_nil in H1, H3, H6. apply negb_false_iff, has_text_Some in H6.
  split; [|done]. intros jq scope. apply resolve_keeps_literal; [|done].
  destruct (get "scope" (nd_config n) >>? as_str) as [s|] eqn:Es.
  - apply as_str_Some in Es. rewrite Es. do 2 f_equal.
    apply config_error_nil, bool_decide_eq_false in H2. apply dec_stable in H2.
    apply bool_decide_eq_false in H1. unfold MEMORY_SCOPES in H2. set_solver.
  - assert (op ∈ ["recall"; "remember"; "forget"]) as Hr by set_solver.
    by rewrite (bool_decide_true _ Hr) in H3.
Qed.

(** A decoder that accepts nothing, for workflows without such configuration. *)
Definition no_serde : Serde :=
  mkSerde (λ _, Err "") (λ _, Err "") (λ _, Err "") (λ _, Err "") (λ _, Err "") (λ _, Err "")
    (λ _, Err "").

Definition remember_node : Node :=
  sample_node "m" Memory (json_object
    [("operation", Str "remember"); ("scope", Str "flow"); ("key", Str "k"); ("value", Str "=item")]).
Definition remember_workflow : WorkflowGraph :=
  sample_workflow [sample_node "t" Trigger Null; remember_node] [sample_edge "t" "main" "m"].

Lemma memory_writes_confined_witness :
  ∃ op, op ∈ MEMORY_OPERATIONS ∧
    ∀ jq scope, get "operation" (resolve jq (nd_config remember_node) scope) = Some (Str op).
Proof.
  destruct (memory_writes_confined sample_fmt no_serde remember_workflow remember_node)
    as (op & Hop & Hres & _); [vm_compute; reflexivity|right; left|reflexivity|].
  exists op. split; [exact Hop|exact Hres].
Defined.

(** *** Agents *)

Definition literal_grant (gr : ToolGrant) : Prop :=
  grant_slug gr ≠ "" ∧ is_expression (grant_slug gr) = false ∧
  (∀ conn, grant_connection_ref gr = Some conn → is_expression conn = false).
Definition literal_source (s : ContextSource) : Prop :=
  match src_kind s with
  | CSMemory scope _ _ => scope ∈ MEMORY_SCOPES
  | CSHost name _ => name ≠ "" ∧ is_expression name = false
  | _ => True
  end.
Definition positive_limits (l : AgentLimits) : Prop :=
  max_steps l ≠ Some 0%N ∧ max_tool_calls l ≠ Some 0%N ∧ agent_timeout_secs l ≠ Some 0%N ∧
  tool_timeout_secs l ≠ Some 0%N.

Lemma tool_grant_literal f gr : tool_grant_problem f gr = None → literal_grant gr.
Proof.
  unfold tool_grant_problem, literal_grant. case_decide; [done|].
  destruct (is_expression (grant_slug gr)); [done|]. destruct (_ || _); [done|].
  destruct (grant_connection_ref gr) as [conn|]; [|done].
  destruct (is_expression conn) eqn:E; [done|]. intros _. by split_and!; [| |intros ? [= <-]].
Qed.

Lemma context_source_literal f s i : context_source_problem f s i = None → literal_source s.
Proof.
  unfold context_source_problem, literal_source. destruct (src_kind s); try done.
  - by case_decide.
  - case_decide; [done|]. by destruct (is_expression source).
Qed.

Lemma limits_positive l : limits_problem l = None → positive_limits l.
Proof.
  unfold limits_problem. intros H%fmap_None. rewrite find_first_None in H.
  assert (Hall : ∀ k v, (k, v) ∈ [("max_steps", max_steps l); ("max_tool_calls", max_tool_calls l);
     ("agent_timeout_secs", agent_timeout_secs l); ("tool_timeout_secs", tool_timeout_secs l)] →
     v ≠ Some 0%N).
  { intros k v Hkv. specialize (H _ Hkv). by apply bool_decide_eq_false in H. }
  repeat split; [apply (Hall "max_steps")|apply (Hall "max_tool_calls")
    |apply (Hall "agent_timeout_secs")|apply (Hall "tool_timeout_secs")]; set_solver.
Qed.

(** In a validated workflow nothing that selects a privilege comes from run
    data. The grants, memory scopes and host sources of every agent type, and of
    every agent node whose configuration decodes, are literals; declared limits
    are positive; what a node's [agent_ref] names survives every resolution of
    its configuration unchanged. *)
Theorem agent_privileges_literal f sd g :
  validate_graph f sd g = [] →
  (∀ a, a ∈ wg_agents g →
     Forall literal_grant (ag_tools a) ∧ Forall literal_source (ag_context a) ∧
     positive_limits (ag_limits a)) ∧
  (∀ n, n ∈ wg_nodes g → nd_kind n = Agent →
     (∀ raw, non_null "tools" (nd_config n) = Some raw →
        ∃ grants, de_grants sd raw = Ok grants ∧ Forall literal_grant grants) ∧
     (∀ raw, non_null "context" (nd_config n) = Some raw →
        ∃ sources, de_sources sd raw = Ok sources ∧ Forall literal_source sources) ∧
     (∀ raw, non_null "limits" (nd_config n) = Some raw →
        ∃ limits, de_limits sd raw = Ok limits ∧ positive_limits limits) ∧
     (∀ jq scope r, get "agent_ref" (nd_config n) = Some r → ¬ is_null r = true →
        ∃ name, r = Str name ∧
          get "agent_ref" (resolve jq (nd_config n) scope) = Some (Str name))).
Proof.
  intros Hv. split.
  - intros a Ha. destruct (valid_configs f sd g Hv) as [_ Hc]. apply app_nil in Hc as [Hc _].
    apply registry_nil in Hc. rewrite Forall_forall in Hc. destruct (Hc a Ha) as (Ht & Hs & Hl).
    split_and!; [| |by apply limits_positive]; rewrite Forall_forall.
    + intros gr Hgr. by eapply tool_grant_literal, Ht.
    + intros s [i Hi]%list_elem_of_lookup. by eapply context_source_literal, Hs.
  - intros n Hn Hk. destruct (valid_agent_node f sd g Hv n Hn Hk) as (Hr & Ht & Hc & Hl). split_and!.
    + intros raw Hraw. unfold tools_errors in Ht. rewrite Hraw in Ht.
      destruct (de_grants sd raw) as [grants|]; [|done]. exists grants. split; [done|].
      apply app_nil in Ht as [Ht _]. rewrite Forall_forall. intros gr Hgr.
      pose proof (proj1 (concat_nil _ _) Ht gr Hgr) as H. cbv beta in H.
      apply (tool_grant_literal f). by destruct (tool_grant_problem f gr).
    + intros raw Hraw. unfold context_errors in Hc. rewrite Hraw in Hc.
      destruct (de_sources sd raw) as [sources|]; [|done]. exists sources. split; [done|].
      apply concat_nil_Forall in Hc. rewrite Forall_forall in Hc. rewrite Forall_forall.
      intros s [i Hi]%list_elem_of_lookup. apply (context_source_literal f s i).
      specialize (Hc (option_list (InvalidNodeConfig (nd_id n)) (context_source_problem f s i))).
      destruct (context_source_problem f s i) eqn:E; [|done]. discriminate Hc.
      apply list_elem_of_lookup. exists i. rewrite list_lookup_imap, Hi. cbn. by rewrite E.
    + intros raw Hraw. unfold limits_errors in Hl. rewrite Hraw in Hl.
      destruct (de_limits sd raw) as [limits|]; [|done]. exists limits. split; [done|].
      apply limits_positive. by destruct (limits_problem limits).
    + intros jq scope r Hr' Hnn. unfold agent_ref_errors in Hr. rewrite Hr' in Hr.
      destruct r as [| | |name| |]; try done. exists name. split; [done|].
      apply resolve_keeps_literal; [done|]. by apply config_error_nil in Hr.
Qed.

(** An agent type with one literal grant, and a node that asks for it. *)
Definition helper_agent : AgentDefinition :=
  mkAgent "helper" "" "" None None None None (mkLimits (Some 3%N) None None None)
    [mkGrant "github.read" None] [] [].
Definition helper_node : Node :=
  sample_node "a" Agent (json_object [("agent_ref", Str "helper"); ("tools", Array [])]).
Definition helper_workflow : WorkflowGraph :=
  mkWorkflow 1 None "" [] [helper_agent] [sample_node "t" Trigger Null; helper_node]
    [sample_edge "t" "main" "a"].
Definition helper_serde : Serde :=
  mkSerde (λ _, Err "") (λ _, Ok [mkGrant "github.read" None]) (λ _, Err "") (λ _, Err "")
    (λ _, Err "") (λ _, Err "") (λ _, Err "").

Lemma agent_privileges_literal_witness :
  Forall literal_grant (ag_tools helper_agent) ∧
  ∃ grants, de_grants helper_serde (Array []) = Ok grants ∧ Forall literal_grant grants.
Proof.
  destruct (agent_privileges_literal sample_fmt helper_serde helper_workflow) as [Ha Hn];
    [vm_compute; reflexivity|]. split.
  - apply (Ha helper_agent). left.
  - apply (Hn helper_node ltac:(right; left) eq_refl). reflexivity.
Defined.

(** * Properties of agent requests *)

Lemma string_app_empty_r s : s +:+ "" = s.
Proof.
  induction s as [|c s IH]; [done|].
  change (String.String c s +:+ "") with (String.String c (s +:+ "")). by rewrite IH.
Qed.

(** [a] declares a bound at least as tight wherever [d] declares one. *)
Definition tightens (d a : option N) : Prop :=
  match d with Some n => ∃ m, a = Some m ∧ (m ≤ n)%N | None => True end.

Lemma lower_tightens a b : tightens a (lower a b).
Proof. destruct a as [n|], b as [m|]; cbn; [| |done|done]; eexists; split; [done|lia|done|lia]. Qed.

(** A node narrows its agent type and never widens it. When the overrides
    apply, the agent keeps its id; with grants in the type, the tools are among
    those grants, with the type's own connection references; every declared
    limit is as tight or tighter; the type's context comes first; and its
    instructions are kept whole, at the front. *)
Theorem overrides_never_widen sd d cfg node_id a :
  merge_node_overrides sd d cfg node_id = Ok a →
  ag_id a = ag_id d ∧
  (ag_tools d ≠ [] → ag_tools a `sublist_of` ag_tools d) ∧
  tightens (max_steps (ag_limits d)) (max_steps (ag_limits a)) ∧
  tightens (max_tool_calls (ag_limits d)) (max_tool_calls (ag_limits a)) ∧
  tightens (agent_timeout_secs (ag_limits d)) (agent_timeout_secs (ag_limits a)) ∧
  tightens (tool_timeout_secs (ag_limits d)) (tool_timeout_secs (ag_limits a)) ∧
  ag_context d `prefix_of` ag_context a ∧
  (∀ base, ag_instructions d = Some base → ∃ extra, ag_instructions a = Some (base +:+ extra)).
Proof.
  unfold merge_node_overrides. intros Hm. inv_ok.
  cbn [ag_id ag_tools ag_limits ag_context ag_instructions narrowed_by max_steps max_tool_calls
       agent_timeout_secs tool_timeout_secs].
  split_and!; try apply lower_tightens; try done.
  - intros Hne. destruct x1 as [|w ws]; [done|]. destruct (ag_tools d) as [|g gs] eqn:E; [done|].
    unfold narrow_tools. apply sublist_filter.
  - by apply prefix_app_r.
  - intros base Hb. rewrite Hb. unfold merged_instructions.
    destruct (get "instructions" cfg >>? as_str) as [extra|]; [case_decide|].
    + exists "". by rewrite string_app_empty_r.
    + destruct base as [|ch base]; cbn [non_blank]; [by exists extra|].
      by exists (newline +:+ newline +:+ extra).
    + exists "". by rewrite string_app_empty_r.
Qed.

(** A type that grants two tools, and a node that asks for one of them, for one
    more, and for a higher limit. *)
Definition reader_agent : AgentDefinition :=
  mkAgent "reader" "" "" (Some "read") None None None (mkLimits (Some 3%N) None None None)
    [mkGrant "github.read" (Some "conn"); mkGrant "slack.post" None] [] [].
Definition reader_config : value :=
  json_object [("tools", Array []); ("limits", Object []); ("instructions", Str "carefully")].
Definition reader_serde : Serde :=
  mkSerde (λ _, Err "") (λ _, Ok [mkGrant "github.read" (Some "other"); mkGrant "shell.run" None])
    (λ _, Err "") (λ _, Ok (mkLimits (Some 9%N) None None None)) (λ _, Err "")
    (λ _, Ok reader_agent) (λ _, Ok Null).
Definition reader_merged : AgentDefinition :=
  match merge_node_overrides reader_serde reader_agent reader_config "n" with
  | Ok a => a
  | Err _ => reader_agent
  end.

Lemma overrides_never_widen_witness :
  ag_tools reader_merged = [mkGrant "github.read" (Some "conn")] ∧
  ag_tools reader_merged `sublist_of` ag_tools reader_agent ∧
  tightens (max_steps (ag_limits reader_agent)) (max_steps (ag_limits reader_merged)).
Proof.
  destruct (overrides_never_widen reader_serde reader_agent reader_config "n" reader_merged)
    as (_ & Ht & Hl & _); [vm_compute; reflexivity|].
  split; [vm_compute; reflexivity|]. split; [apply Ht; discriminate|exact Hl].
Defined.

(** A working directory stays inside the workspace. On a run pinned to a
    workspace, with no harness that answers for directories, whatever directory
    a node names is resolved to an existing directory whose canonical path is
    under the canonical path of the workspace, or it is refused; a relative path
    that goes up is refused before the file system is asked. *)
Theorem workdir_contained fs run raw field surface workspace :
  run_workspace run = Some workspace →
  match resolve_node_dir fs None run raw field surface with
  | Ok path =>
      ∃ root named, fs_canonicalize fs workspace = Ok root ∧ fs_canonicalize fs named = Ok path ∧
        fs_is_dir fs path = true ∧ is_absolute path = is_absolute root ∧
        parts root `prefix_of` parts path ∧
        (is_absolute raw = false → ".." ∉ parts raw ∧ named = path_join root raw)
  | Err _ => True
  end.
Proof.
  intros Hw. unfold resolve_node_dir. rewrite Hw. destruct (check_shape raw field AllowInside) as [[]|] eqn:Hs;
    [|done]. cbn [rbind].
  unfold resolve_dir_in_workspace, resolve_in_workspace. rewrite Hs. cbn [rbind].
  destruct (fs_canonicalize fs workspace) as [root|] eqn:Hr; [|done]. cbn [rbind].
  set (named := if is_absolute raw then raw else path_join root raw).
  destruct (fs_canonicalize fs named) as [path|] eqn:Hp; [|done]. cbn [rbind].
  destruct (path_starts_with path root) eqn:Hin; [|done]. cbn [rbind].
  destruct (fs_is_dir fs path) eqn:Hd; [|done]. unfold path_starts_with in Hin.
  apply andb_true_iff in Hin as [Ha Hpre]. apply Bool.eqb_prop in Ha.
  apply bool_decide_eq_true in Hpre. exists root, named. split_and!; try done.
  intros Hrel. unfold named. rewrite Hrel. split; [|done].
  unfold check_shape in Hs. rewrite Hrel in Hs. by case_decide.
Qed.

(** A file system with a workspace and a link inside it that points outside. *)
Definition link_fs : Fs :=
  mkFs (λ p, if decide (p = "/w/link") then Ok "/etc" else Ok p) (λ _, true).
Definition pinned_run : value := json_object [("workspace", Str "/w")].

Lemma workdir_contained_witness :
  is_ok (resolve_node_dir link_fs None pinned_run "link" "cwd" "s") = false ∧
  match resolve_node_dir link_fs None pinned_run "src" "cwd" "s" with
  | Ok path => ∃ root named, fs_canonicalize link_fs "/w" = Ok root ∧
      fs_canonicalize link_fs named = Ok path ∧
      fs_is_dir link_fs path = true ∧ is_absolute path = is_absolute root ∧
      parts root `prefix_of` parts path ∧
      (is_absolute "src" = false → ".." ∉ parts "src" ∧ named = path_join root "src")
  | Err _ => True
  end.
Proof.
  split; [vm_compute; reflexivity|].
  apply (workdir_contained link_fs pinned_run "src" "cwd" "s" "/w"). vm_compute. reflexivity.
Defined.

(** ** A connection from run data *)

Definition borrowed_node : Node :=
  sample_node "a" Agent (json_object
    [("agent_ref", Str "reader"); ("connection_ref", Str "=item.conn")]).
Definition borrowed_workflow : WorkflowGraph :=
  mkWorkflow 1 None "" [] [reader_agent] [sample_node "t" Trigger Null; borrowed_node]
    [sample_edge "t" "main" "a"].
Definition borrowed_context (conn : string) : ExecContext :=
  mkExec borrowed_node [item_new (json_object [("conn", Str conn)])] Null Null [reader_agent]
    None None 0.
Definition borrowed_request (conn : string) : result EngineError AgentRunRequest :=
  let c := borrowed_context conn in
  let scope := expr_scope c in
  (assemble sample_fmt (λ _ _, None) reader_serde link_fs None None c
    (resolve_traced (λ _ _, None) (nd_config borrowed_node) scope).1 "reader" scope None).2.

(** The connection an agent's tools act as can come from run data. The
    workflow validates, yet its node's [connection_ref] is an expression, and
    whatever the run's data holds there becomes the connection of every tool
    grant that names none of its own. *)
Theorem connection_from_run_data (conn : string) :
  validate_graph sample_fmt reader_serde borrowed_workflow = [] ∧
  match borrowed_request conn with
  | Ok rq => rq_connection_ref rq = Some conn ∧
      rq_tools rq = [mkTool "github.read" None None None (Some "conn");
                     mkTool "slack.post" None None None (Some conn)]
  | Err _ => False
  end.
Proof. split; [vm_compute; reflexivity|]. vm_compute. split; reflexivity. Qed.
