(* ===== verification/MapItems.v ===== *)
(** * Mapping a node over its items

    [crates/tinyflows/src/nodes/map.rs]: the per-item fan-out with bounded
    concurrency, and the envelope of [nodes/integration/envelope.rs].

    The items complete in the order [order], an argument: the concurrency stream
    yields them as they finish.  The reference the code is compared with,
    [map_reference], does not know the order.  Observer calls are left out. *)

From S2P Require Import Prelude Json GraphTypes Workflow WfState WfActivation.
From S2P Require Import Text Expr ControlNodes.

(** ** The envelope *)

Definition text_of (v : value) : option string :=
  match v with
  | Str s => Some s
  | Object m => obj_get "text" m >>? as_str
  | _ => None
  end.
Definition structured_of (v : value) : value :=
  match v with Object _ | Array _ => v | _ => Null end.
Definition envelope_parts (json : value) (text : option string) (raw : value) : value :=
  json_object [("json", json); ("text", opt_str text); ("raw", raw)].
Definition envelope_parts_with_meta (json : value) (text : option string) (raw meta : value) : value :=
  json_object [("json", json); ("text", opt_str text); ("raw", raw); ("meta", meta)].
Definition wrap (v : value) : value := envelope_parts (structured_of v) (text_of v) v.

(** ** Options *)

Definition MAX_CONCURRENCY : Z := 64.

Inductive ItemErrorPolicy := Collect | FailFast | Skip.
#[export] Instance ItemErrorPolicy_eq_dec : EqDecision ItemErrorPolicy.
Proof. solve_decision. Defined.

Record MapOptions := mkMapOptions { mo_concurrency : Z; mo_on_item_error : ItemErrorPolicy }.
Definition map_options_default : MapOptions := mkMapOptions 1 FailFast.

Definition run_item_cap (run : value) : option Z :=
  match get "trigger" run >>? get "max_item_concurrency" >>? as_u64 with
  | Some n => if decide (0 < n)%Z then Some (Z.min n MAX_CONCURRENCY) else None
  | None => None
  end.

Definition requested_concurrency (config : value) : Z :=
  match get "concurrency" config with
  | Some (Number n) => default 1%Z (as_u64 (Number n))
  | Some (Str s) => if decide (s = "all") then 0%Z else 1%Z
  | _ => 1%Z
  end.

Definition map_options (config run : value) : MapOptions :=
  let requested := requested_concurrency config in
  let concurrency := if decide (MAX_CONCURRENCY < requested)%Z then MAX_CONCURRENCY else requested in
  let concurrency :=
    match run_item_cap run with
    | Some cap => if decide (concurrency = 0 ∨ cap < concurrency)%Z then cap else concurrency
    | None => concurrency
    end in
  let policy := get "on_item_error" config >>? as_str in
  mkMapOptions concurrency
    (if decide (policy = Some "fail_fast") then FailFast
     else if decide (policy = Some "skip") then Skip
     else if decide (policy = Some "collect") then Collect
     else if decide (concurrency = 1)%Z then FailFast else Collect).

(** How many items are in flight at most. *)
Definition in_flight (o : MapOptions) (total : nat) : Z :=
  if decide (mo_concurrency o = 0)%Z then Z.max (Z.of_nat total) 1 else mo_concurrency o.

(** ** The map *)

Definition MappedItem : Type := Item * list NullResolution.

Definition map_error_item (message : string) : Item :=
  item_new (envelope_parts (json_object [("error", Str message); ("failed", Bool true)])
              (Some message) Null).

Definition Slot : Type := option (result string MappedItem).

Record Draining := mkDraining {
  dr_slots : list Slot;
  dr_error : option (nat * EngineError)
}.

Section Map.
Context (f : Fmt) (policy : ItemErrorPolicy) (body : nat → result EngineError MappedItem).

(** The first failure in input order seen so far. *)
Definition keep_lowest (seen : option (nat * EngineError)) (index : nat) (err : EngineError)
    : nat * EngineError :=
  match seen with
  | Some (i, e) => if decide (index < i) then (index, err) else (i, e)
  | None => (index, err)
  end.

Fixpoint drain_items (order : list nat) (d : Draining) : Draining :=
  match order with
  | [] => d
  | index :: rest =>
      match body index with
      | Ok mapped => drain_items rest (mkDraining (<[index := Some (Ok mapped)]> (dr_slots d)) (dr_error d))
      | Err err =>
          if decide (policy = FailFast) then
            let slots := <[index := Some (Err "")]> (dr_slots d) in
            let lowest := keep_lowest (dr_error d) index err in
            let d' := mkDraining slots (Some lowest) in
            if forallb (λ s, bool_decide (is_Some s)) (take lowest.1 slots) then d'
            else drain_items rest d'
          else
            drain_items rest (mkDraining
              (<[index := Some (Err (engine_error_to_string f err))]> (dr_slots d)) (dr_error d))
      end
  end.

Definition emit_slot (index : nat) (s : Slot) : list Item * list NullResolution :=
  match s with
  | Some (Ok (item, diags)) => ([paired_with item index], diags)
  | Some (Err message) =>
      (if decide (policy = Collect) then [paired_with (map_error_item message) index] else [], [])
  | None => ([], [])
  end.

Definition emit_slots (slots : list Slot) : list Item * list NullResolution :=
  let out := imap emit_slot slots in (concat out.*1, concat out.*2).

Definition map_items (total : nat) (order : list nat)
    : result EngineError (list Item * list NullResolution) :=
  let d := drain_items order (mkDraining (replicate total None) None) in
  match dr_error d with
  | Some (_, err) => Err err
  | None => Ok (emit_slots (dr_slots d))
  end.

(** ** The reference *)

(** The failure with the lowest index. *)
Definition first_failure (total : nat) : option EngineError :=
  head (omap (λ i, match body i with Err e => Some e | Ok _ => None end) (seq 0 total)).

Definition item_slot (i : nat) : Slot :=
  Some (match body i with Ok m => Ok m | Err e => Err (engine_error_to_string f e) end).

Definition map_reference (total : nat) : result EngineError (list Item * list NullResolution) :=
  match policy, first_failure total with
  | FailFast, Some err => Err err
  | _, _ => Ok (emit_slots (item_slot <$> seq 0 total))
  end.

(** ** The map agrees with the reference *)

(** The slots after the items of [seen] completed. *)
Definition drained (total : nat) (seen : list nat) (slots : list Slot) : Prop :=
  length slots = total ∧
  ∀ i, i < total →
    slots !! i = Some (if decide (i ∈ seen) then
      match body i with
      | Ok m => Some (Ok m)
      | Err e => Some (Err (if decide (policy = FailFast) then "" else engine_error_to_string f e))
      end else None).

Lemma drained_nil total : drained total [] (replicate total None).
Proof.
  split; [apply length_replicate|]. intros i Hi. by rewrite lookup_replicate_2, decide_False by set_solver.
Qed.

Lemma drained_cons total seen slots i (s : Slot) :
  drained total seen slots → i < total →
  s = match body i with
      | Ok m => Some (Ok m)
      | Err e => Some (Err (if decide (policy = FailFast) then "" else engine_error_to_string f e))
      end → drained total (i :: seen) (<[i := s]> slots).
Proof.
  intros [Hlen Hl] Hi ->. split; [by rewrite length_insert|]. intros j Hj.
  destruct (decide (j = i)) as [->|Hne].
  - rewrite list_lookup_insert_eq by (change (i < @length Slot slots); lia). by rewrite decide_True by left.
  - rewrite list_lookup_insert_ne, Hl by done. f_equal.
    destruct (decide (j ∈ seen)); [by rewrite decide_True by by right|].
    by rewrite decide_False by (intros [->|?]%elem_of_cons; done).
Qed.

(** The error kept is the failure of the lowest index among [seen]. *)
Definition lowest_failure (seen : list nat) (e : option (nat * EngineError)) : Prop :=
  match e with
  | Some (i, err) =>
      policy = FailFast ∧ i ∈ seen ∧ body i = Err err ∧
      ∀ j, j ∈ seen → j < i → ∃ m, body j = Ok m
  | None => policy = FailFast → ∀ j, j ∈ seen → ∃ m, body j = Ok m
  end.

(** When the draining ends: everything completed, or the failure is final. *)
Definition drained_enough (total : nat) (d : Draining) : Prop :=
  match dr_error d with
  | Some (i, err) =>
      policy = FailFast ∧ i < total ∧ body i = Err err ∧ ∀ j, j < i → ∃ m, body j = Ok m
  | None => drained total (seq 0 total) (dr_slots d) ∧
            (policy = FailFast → ∀ j, j < total → ∃ m, body j = Ok m)
  end.

Lemma drained_Permutation total seen seen' slots :
  seen ≡ₚ seen' → drained total seen slots → drained total seen' slots.
Proof.
  intros Hp [Hlen Hl]. split; [done|]. intros i Hi. rewrite Hl by done. f_equal.
  destruct (decide (i ∈ seen)) as [H|H]; rewrite Hp in H; [by rewrite decide_True|by rewrite decide_False].
Qed.

Lemma drain_spec total : ∀ order seen d,
  seen ++ order ≡ₚ seq 0 total →
  drained total seen (dr_slots d) → lowest_failure seen (dr_error d) →
  drained_enough total (drain_items order d).
Proof.
  induction order as [|index order IH]; intros seen d Hp Hd Hlow.
  { rewrite app_nil_r in Hp. cbn. unfold drained_enough, lowest_failure in *.
    assert (Hin : ∀ j, j ∈ seen ↔ j < total) by (intros j; rewrite Hp, elem_of_seq; lia).
    destruct (dr_error d) as [[i err]|].
    - destruct Hlow as (? & Hi & He & Hj). split_and!; [done|by apply Hin|done|].
      intros j Hlt. apply Hj; [|done]. apply Hin in Hi. apply Hin. lia.
    - split; [by eapply drained_Permutation|]. intros Hff j Hj. apply Hlow; [done|]. by apply Hin. }
  assert (Hidx : index < total).
  { assert (index ∈ seq 0 total) as ?%elem_of_seq by (rewrite <- Hp; set_solver). lia. }
  assert (Hp' : (index :: seen) ++ order ≡ₚ seq 0 total).
  { rewrite <- Hp. cbn. by rewrite Permutation_middle. }
  assert (Hnew : index ∉ seen).
  { assert (Hnd : NoDup (seen ++ index :: order)) by (rewrite Hp; apply NoDup_seq).
    apply NoDup_app in Hnd as (_ & Hdisj & _). intros Hin. apply (Hdisj index Hin). left. }
  cbn. destruct (body index) as [m|err] eqn:Eb.
  - apply (IH (index :: seen)); [done| |].
    + apply drained_cons; [done|done|by rewrite Eb].
    + unfold lowest_failure in *. cbn. destruct (dr_error d) as [[i e]|].
      * destruct Hlow as (? & Hi & He & Hj). split_and!; [done|by right|done|].
        intros j [->|Hin]%elem_of_cons Hlt; [by exists m|by apply Hj].
      * intros Hff j [->|Hin]%elem_of_cons; [by exists m|by apply Hlow].
  - case_decide as Hff.
    + set (slots := <[index := Some (Err "")]> (dr_slots d)).
      set (lowest := keep_lowest (dr_error d) index err).
      assert (Hds : drained total (index :: seen) slots).
      { apply drained_cons; [done|done|]. by rewrite Eb, decide_True. }
      assert (Hl' : lowest_failure (index :: seen) (Some lowest)).
      { unfold lowest, keep_lowest, lowest_failure in *. destruct (dr_error d) as [[i e]|].
        - destruct Hlow as (? & Hi & He & Hj). case_decide as Hlt.
          + split_and!; [done|left|done|]. intros j [->|Hin]%elem_of_cons Hlt'; [lia|]. apply Hj; [done|lia].
          + split_and!; [done|by right|done|]. intros j [->|Hin]%elem_of_cons Hlt'; [lia|by apply Hj].
        - split_and!; [done|left|done|]. intros j [->|Hin]%elem_of_cons Hlt; [lia|by apply Hlow]. }
      destruct (forallb _ _) eqn:Eall; [|by apply (IH (index :: seen))].
      unfold drained_enough. cbn [dr_error]. destruct lowest as [i e] eqn:El. cbn in Hl', Eall.
      destruct Hl' as (_ & Hi & He & Hj). destruct Hds as [Hlen Hl].
      assert (Hit : i < total).
      { assert (i ∈ seq 0 total) as ?%elem_of_seq by (rewrite <- Hp'; set_solver). lia. }
      split_and!; [done|done|done|]. intros j Hlt. apply Hj; [|done].
      assert (Hjs : slots !! j = Some (if decide (j ∈ index :: seen) then
        match body j with
        | Ok m => Some (Ok m)
        | Err e => Some (Err (if decide (policy = FailFast) then "" else engine_error_to_string f e))
        end else None)) by (apply Hl; lia).
      destruct (decide (j ∈ index :: seen)) as [?|Hn]; [done|].
      rewrite forallb_forall in Eall. specialize (Eall None).
      assert (Hin : In None (take i slots)); [|by specialize (Eall Hin)].
      apply list_elem_of_In. apply list_elem_of_lookup. exists j. by rewrite lookup_take_lt.
    + apply (IH (index :: seen)); [done| |].
      * apply drained_cons; [done|done|]. by rewrite Eb, decide_False.
      * unfold lowest_failure in *. cbn. destruct (dr_error d) as [[i e]|]; [|done].
        by destruct Hlow.
Qed.

Lemma emit_slots_drained total slots :
  drained total (seq 0 total) slots → policy ≠ FailFast ∨ (∀ j, j < total → ∃ m, body j = Ok m) →
  emit_slots slots = emit_slots (item_slot <$> seq 0 total).
Proof.
  intros [Hlen Hl] Hok. f_equal. apply list_eq. intros i. rewrite list_lookup_fmap.
  destruct (decide (i < total)) as [Hi|Hi].
  - rewrite Hl, decide_True by (done || apply elem_of_seq; lia).
    rewrite (proj2 (lookup_seq 0 total i i)) by lia. cbn. f_equal. unfold item_slot.
    destruct (body i) as [m|e] eqn:E; [done|]. do 2 f_equal.
    destruct Hok as [Hne|Hok]; [by rewrite decide_False|]. destruct (Hok i Hi) as [m Hm]. congruence.
  - rewrite lookup_ge_None_2 by lia. by rewrite lookup_seq_ge by lia.
Qed.

Lemma first_failure_lowest total i err :
  i < total → body i = Err err → (∀ j, j < i → ∃ m, body j = Ok m) → first_failure total = Some err.
Proof.
  intros Hi He Hj. unfold first_failure. replace total with (i + S (total - S i)) by lia.
  rewrite seq_app, omap_app.
  replace (omap _ (seq 0 i)) with (@nil EngineError).
  - cbn. by rewrite He.
  - symmetry. apply elem_of_nil_inv. intros x (j & Hjs & Hx)%list_elem_of_omap.
    apply elem_of_seq in Hjs. destruct (Hj j) as [m Hm]; [lia|]. by rewrite Hm in Hx.
Qed.

Lemma first_failure_None total :
  (∀ j, j < total → ∃ m, body j = Ok m) → first_failure total = None.
Proof.
  intros Hok. unfold first_failure. replace (omap _ _) with (@nil EngineError); [done|].
  symmetry. apply elem_of_nil_inv. intros x (j & Hjs & Hx)%list_elem_of_omap.
  apply elem_of_seq in Hjs. destruct (Hok j) as [m Hm]; [lia|]. by rewrite Hm in Hx.
Qed.

Lemma map_items_reference total order :
  order ≡ₚ seq 0 total → map_items total order = map_reference total.
Proof.
  intros Hp. unfold map_items, map_reference.
  pose proof (drain_spec total order [] (mkDraining (replicate total None) None) Hp
    (drained_nil total) ltac:(by intros _ j []%elem_of_nil)) as Hd.
  unfold drained_enough in Hd. destruct (dr_error _) as [[i err]|] eqn:Ee.
  - destruct Hd as (-> & Hi & He & Hj). by rewrite (first_failure_lowest total i err).
  - destruct Hd as [Hd Hok]. rewrite emit_slots_drained with (total := total); [|done|].
    + destruct (decide (policy = FailFast)) as [Hff|Hff].
      * rewrite first_failure_None by auto. by destruct policy.
      * by destruct policy.
    + destruct (decide (policy = FailFast)); auto.
Qed.
End Map.
