(* ===== verification/NodeTheorems.v ===== *)
(** * Properties of the control-flow nodes *)

From stdpp Require Import sorting.
From S2P Require Import Prelude Json GraphTypes Workflow WfState WfActivation.
From S2P Require Import WfAnalysis WfBuild WfPortFacts WfSamples Text Expr WfConfig ConfigTheorems.
From S2P Require Import ControlNodes NodeFacts MapItems.
From Stdlib Require Import Ascii.
From Stdlib Require String.

(** ** Scatter and gather *)

(** The lanes a scatter [origin] opens over [lanes], each with its items. *)
Definition lane_at (origin : string) (count : nat) (i : nat) (items : list Item)
    : LaneContext * list Item :=
  (mkLane (origin +:+ "#" +:+ pretty i) origin i count, items).






Lemma slot_of_nodes_state s id : get id (nodes_state s) = node_slot s id.
Proof. unfold nodes_state, node_slot. by destruct (get "nodes" s). Qed.








Definition scattered_state : value :=
  json_object [("nodes", json_object [("s", json_object [("lane_count", value_of_nat 2)])])].
Definition gather_node : Node := sample_node "g" Gather (json_object [("from", Array [Str "w"])]).


(** A scatter outside a lane splits its items into lanes that are non-empty
    and keep the items in order, at most as many as asked for and never more
    than [MAX_LANES], and records how many it opened; inside a lane it is
    refused. *)
Theorem scatter_partitions f c :
  match execute_scatter f c with
  | Ok out =>
      ec_lane c = None ∧
      ∃ lanes, out_control out = Some (CScatter lanes) ∧ concat lanes = scatter_items c ∧
        Forall (λ l, l ≠ []) lanes ∧ (Z.of_nat (length lanes) ≤ MAX_LANES)%Z ∧
        (∀ n, requested_lanes (nd_config (ec_node c)) = Some n → (Z.of_nat (length lanes) ≤ n)%Z) ∧
        out_meta out = Some (json_object [("lane_count", value_of_nat (length lanes))])
  | Err _ => is_Some (ec_lane c)
  end.
Proof.
  unfold execute_scatter. destruct (ec_lane c); [done|]. split; [done|].
  destruct (split_lanes_spec (scatter_items c) (requested_lanes (nd_config (ec_node c))))
    as (Hc & Hne & _ & Hmax & Hreq).
  eexists. split_and!; [done|done|done|done| |done]. intros n Hn. apply Hreq; [done|].
  unfold requested_lanes in Hn. destruct (_ >>? _) as [m|]; [|done]. case_decide; by simplify_eq.
Qed.

(** ** Polling *)

(** A gather waits at most [max_polls] times. It asks to be run again only
    while its recorded polls are below the budget and the lanes that arrived
    below what the policy needs; and the update it commits with that request
    makes the next activation read one poll more, whatever other nodes commit in
    between. With the policy [all] it emits only when every expected lane has
    arrived. *)
Theorem gather_wait_bounded f c out after state l1 l2 step :
  execute_gather f c = Ok out → out_control out = Some (CReenter after) →
  nd_id (ec_node c) ≠ REPLACE → Forall (elsewhere (nd_id (ec_node c))) l2 →
  (0 ≤ gather_polls c)%Z →
  let id := nd_id (ec_node c) in
  (gather_polls c < gather_positive (nd_config (ec_node c)) "max_polls" DEFAULT_MAX_POLLS)%Z ∧
  (∀ c', ec_node c' = ec_node c →
     ec_nodes c' = nodes_state (foldl wf_merge state (l1 ++ activation_update id out step :: l2)) →
     gather_polls c' = (gather_polls c + 1)%Z) ∧
  (∀ a e spent, release_evaluate RAll a e spent = Emit → (e ≤ a)%Z).
Proof.
  intros He Hc Hid Hl2 Hpos. cbv zeta. unfold execute_gather in He.
  apply bind_Ok_inv in He as (policy & _ & He).
  set (arrived := arrivals _ _) in He. set (count := length arrived) in He.
  destruct (if decide _ then _ else _) as [failure|]; [done|].
  set (expected := default count _) in He.
  destruct (release_evaluate policy _ _ _) eqn:Er; [|apply release_wait in Er|done];
    injection He as <-; [done|]. split_and!.
  - apply bool_decide_eq_false in Er. lia.
  - intros c' Hn Hns. unfold gather_polls at 1. rewrite Hn, Hns, slot_of_nodes_state.
    destruct (json_object_field POLLS_KEY (value_of_i64 (gather_polls c + 1))
      [(POLLS_KEY, value_of_i64 (gather_polls c + 1)); ("lanes", value_of_nat expected);
       ("arrived", value_of_nat count); ("failed", value_of_nat (failed_lanes arrived))])
      as (extra & Hx & Hf); [left|by_decision|].
    rewrite (number_field POLLS_KEY (gather_polls c + 1) _ _ extra); try done;
      [cbn; by rewrite Hx|lia|by_decision].
  - apply release_all_emit.
Qed.

Definition waiting_context : ExecContext :=
  mkExec gather_node [] Null (nodes_state scattered_state) [] None None 3.
Definition waiting_output : NodeOutput :=
  match execute_gather sample_fmt waiting_context with Ok out => out | Err _ => empty_output end.

Lemma gather_wait_bounded_witness :
  (gather_polls waiting_context < 500)%Z ∧
  gather_polls (mkExec gather_node [] Null
    (nodes_state (foldl wf_merge scattered_state [activation_update "g" waiting_output 4]))
    [] None None 5) = 1%Z.
Proof.
  destruct (gather_wait_bounded sample_fmt waiting_context waiting_output 5 scattered_state [] [] 4)
    as (Hlt & Hnext & _); [vm_compute; reflexivity|vm_compute; reflexivity|discriminate|constructor|
      vm_compute; discriminate|].
  split; [exact Hlt|]. rewrite Hnext; [vm_compute; reflexivity|reflexivity|reflexivity].
Defined.

(** ** Loops *)

(** The next activation of the loop after one whose output was committed, with
    whatever other nodes committed around it. *)
Definition follows (c : ExecContext) (out : NodeOutput) (c' : ExecContext) : Prop :=
  ∃ state l1 l2 step,
    ec_node c' = ec_node c ∧ Forall (elsewhere (nd_id (ec_node c))) l2 ∧
    ec_nodes c' = nodes_state (foldl wf_merge state
      (l1 ++ activation_update (nd_id (ec_node c)) out step :: l2)).

(** What an activation of a loop leaves for the next. *)
Lemma loop_recorded c out c' z st fields :
  nd_id (ec_node c) ≠ REPLACE → follows c out c' → (0 ≤ z)%Z →
  out_meta out = Some (json_object fields) → NoDup fields.*1 →
  ("iteration", value_of_i64 z) ∈ fields → ("state", replace st) ∈ fields →
  current_iteration c' = z ∧ current_state c' = Some st.
Proof.
  intros Hid (state & l1 & l2 & step & Hn & Hl2 & Hns) Hz Hm Hnd Hi Hs.
  unfold current_iteration, current_state, loop_slot. rewrite Hn, Hns, slot_of_nodes_state.
  destruct (json_object_field _ _ _ Hi Hnd) as (extra & Hx & Hf).
  destruct (json_object_field _ _ _ Hs Hnd) as (extra' & Hx' & Hf').
  rewrite Hx in Hm, Hx'. injection Hx' as <-. split.
  - rewrite (number_field "iteration" z _ _ extra); try done. by_decision.
  - by apply (recorded_meta "state" (replace st) st _ _ extra).
Qed.

Lemma execute_loop_body jq c out :
  execute_loop jq c = Ok out → out_port out = Some "body" →
  (current_iteration c < max_iterations c)%Z ∧
  out_meta out = Some (json_object [("iteration", value_of_i64 (current_iteration c + 1));
                                    ("state", replace (loop_state jq c))]).
Proof.
  unfold execute_loop. destruct (until_holds jq c _).
  { intros [= <-]. cbn. by destruct (success_port _). }
  destruct (negb (condition_holds jq c)); [by intros [= <-]|].
  destruct (decide (max_iterations c ≤ current_iteration c)%Z).
  { destruct (continues_on_exceeded _); [by intros [= <-]|done]. }
  intros [= <-] _. split; [lia|done].
Qed.

Lemma execute_loop_exit jq c out :
  execute_loop jq c = Ok out → out_port out ≠ Some "body" →
  ∃ reason, out_meta out = Some (json_object
    [("iteration", value_of_i64 (current_iteration c)); ("state", replace (loop_state jq c));
     ("exit_reason", Str reason)]).
Proof.
  unfold execute_loop. destruct (until_holds jq c _); [intros [= <-]; by eexists|].
  destruct (negb (condition_holds jq c)); [intros [= <-]; by eexists|].
  destruct (decide (max_iterations c ≤ current_iteration c)%Z); [|by intros [= <-]].
  destruct (continues_on_exceeded _); [intros [= <-]; by eexists|done].
Qed.

(** [passes c n c']: from the activation [c] the loop went through its body [n]
    times in a row, and [c'] is the activation after that. *)
Inductive passes (jq : string → value → option value) : ExecContext → nat → ExecContext → Prop :=
| passes_none c : passes jq c 0 c
| passes_one c out c' n c'' :
    execute_loop jq c = Ok out → out_port out = Some "body" → follows c out c' →
    passes jq c' n c'' → passes jq c (S n) c''.

Lemma passes_count jq c n c' :
  passes jq c n c' → nd_id (ec_node c) ≠ REPLACE → (0 ≤ current_iteration c)%Z →
  current_iteration c' = (current_iteration c + Z.of_nat n)%Z ∧ ec_node c' = ec_node c ∧
  (0 < n → (current_iteration c' ≤ max_iterations c)%Z).
Proof.
  induction 1 as [|c out c' n c'' He Hp Hf Hrest IH]; intros Hid Hpos; [repeat split; lia|].
  destruct (execute_loop_body jq c out He Hp) as [Hlt Hm].
  pose proof Hf as (? & ? & ? & ? & Hn & _).
  destruct (loop_recorded c out c' (current_iteration c + 1) (loop_state jq c) _ Hid Hf
    ltac:(lia) Hm) as [Hi _]; [by_decision|left|right; left|].
  destruct IH as (IH1 & IH2 & IH3); [by rewrite Hn|lia|].
  split_and!; [lia|congruence|]. intros _. destruct n; [lia|].
  unfold max_iterations in *. rewrite Hn in IH3. apply IH3. lia.
Qed.

(** A loop ends. A loop node that has not run yet goes through its body at
    most [max_iterations] times (25 unless configured); after each pass the next
    activation reads exactly one iteration more, and the accumulator the pass
    folded, as a whole: no key of an earlier accumulator survives unless the
    fold kept it. *)
Theorem loop_bounded jq c n c' :
  passes jq c n c' → loop_slot c = None → nd_id (ec_node c) ≠ REPLACE →
  current_iteration c' = Z.of_nat n ∧ (0 < n → (Z.of_nat n ≤ max_iterations c)%Z) ∧
  (∀ d out d', ec_node d = ec_node c → (0 ≤ current_iteration d)%Z →
     execute_loop jq d = Ok out → out_port out = Some "body" → follows d out d' →
     current_iteration d' = (current_iteration d + 1)%Z ∧ current_state d' = Some (loop_state jq d)).
Proof.
  intros Hp Hslot Hid.
  assert (H0 : current_iteration c = 0%Z) by (unfold current_iteration; by rewrite Hslot).
  destruct (passes_count jq c n c' Hp Hid ltac:(lia)) as (Hc & _ & Hmax).
  split_and!; [lia|intros Hpos; specialize (Hmax Hpos); lia|].
  intros d out d' Hd Hpos He Hb Hf. destruct (execute_loop_body jq d out He Hb) as [_ Hm].
  apply (loop_recorded d out d' (current_iteration d + 1) _ _ ltac:(by rewrite Hd) Hf ltac:(lia) Hm);
    [by_decision|left|right; left].
Qed.

(** A loop of at most one pass, before it and after it. *)
Definition once_loop : Node :=
  sample_node "l" Loop (json_object [("max_iterations", Number (PosInt 1))]).
Definition loop_context (nodes : value) : ExecContext :=
  mkExec once_loop [item_new (Str "x")] Null nodes [] None None 1.
Definition loop_fresh : ExecContext := loop_context Null.
Definition no_jq : string → value → option value := λ _ _, None.
Definition loop_out (c : ExecContext) : NodeOutput :=
  match execute_loop no_jq c with Ok out => out | Err _ => empty_output end.
Definition loop_after : ExecContext :=
  loop_context (nodes_state (wf_merge Null (activation_update "l" (loop_out loop_fresh) 1))).

Lemma loop_follows : follows loop_fresh (loop_out loop_fresh) loop_after.
Proof. exists Null, [], [], 1. split_and!; [done|constructor|done]. Qed.

Lemma loop_bounded_witness :
  current_iteration loop_after = 1%Z ∧ execute_loop no_jq loop_after = Err (ELoopLimit "l" 1).
Proof.
  split; [|vm_compute; reflexivity].
  refine (proj1 (loop_bounded no_jq loop_fresh 1 loop_after _ eq_refl ltac:(discriminate))).
  apply (passes_one _ _ (loop_out loop_fresh) loop_after);
    [vm_compute; reflexivity|reflexivity|exact loop_follows|constructor].
Defined.

(** A loop that is entered again does not start again. When a loop leaves
    through [done] or [success] and is activated later from outside, as the
    inner of two nested loops is on every pass of the outer one, it still counts
    the iterations it had made and still has its accumulator; the next
    activation reads its input from the back-edges, not from the edge that
    entered it. *)
Theorem loop_reentry_not_reset jq c out c' :
  execute_loop jq c = Ok out → out_port out ≠ Some "body" → follows c out c' →
  nd_id (ec_node c) ≠ REPLACE → (0 ≤ current_iteration c)%Z →
  current_iteration c' = current_iteration c ∧ current_state c' = Some (loop_state jq c) ∧
  (∀ h state, hd_node h = ec_node c → hd_back_incoming h ≠ [] →
     nodes_state state = ec_nodes c' → is_null (default Null (loop_slot c')) = false →
     derive_input h None state =
     collect_input_since state (hd_back_incoming h) (latest_step state (hd_back_incoming h))).
Proof.
  intros He Hp Hf Hid Hpos. destruct (execute_loop_exit jq c out He Hp) as [reason Hm].
  pose proof Hf as (? & ? & ? & ? & Hn & _).
  destruct (loop_recorded c out c' (current_iteration c) (loop_state jq c) _ Hid Hf Hpos Hm)
    as [Hi Hs]; [by_decision|left|right; left|].
  split_and!; [done|done|]. intros h state Hh Hb Hns Hnn. unfold derive_input, re_entry.
  destruct (hd_back_incoming h); [done|].
  unfold loop_slot in Hnn. rewrite <- Hns, slot_of_nodes_state, Hn, <- Hh in Hnn.
  destruct (node_slot state (nd_id (hd_node h))) as [slot|]; [|done]. cbn in Hnn. by rewrite Hnn.
Qed.

(** A loop that stops once it has made an iteration; its second activation
    leaves it, and the third, from outside, leaves at once. *)
Definition until_loop : Node :=
  sample_node "l" Loop (json_object [("until", Str "=nodes.l.iteration")]).
Definition until_context (nodes : value) : ExecContext :=
  mkExec until_loop [item_new (Str "x")] Null nodes [] None None 1.
Definition until_nodes_1 : value :=
  nodes_state (wf_merge Null (activation_update "l" (loop_out (until_context Null)) 1)).
Definition until_nodes_2 : value :=
  nodes_state (wf_merge (json_object [("nodes", until_nodes_1)])
    (activation_update "l" (loop_out (until_context until_nodes_1)) 2)).

Lemma loop_reentry_not_reset_witness :
  out_port (loop_out (until_context Null)) = Some "body" ∧
  out_port (loop_out (until_context until_nodes_1)) = Some "done" ∧
  current_iteration (until_context until_nodes_2) = 1%Z ∧
  out_port (loop_out (until_context until_nodes_2)) = Some "done".
Proof.
  split; [vm_compute; reflexivity|]. split; [vm_compute; reflexivity|].
  split; [|vm_compute; reflexivity].
  refine (eq_trans (proj1 (loop_reentry_not_reset no_jq (until_context until_nodes_1)
    (loop_out (until_context until_nodes_1)) (until_context until_nodes_2) _ _ _ _ _)) _).
  - vm_compute. reflexivity.
  - vm_compute. discriminate.
  - exists (json_object [("nodes", until_nodes_1)]), [], [], 2.
    split; [reflexivity|]. split; [constructor|reflexivity].
  - discriminate.
  - vm_compute. discriminate.
  - vm_compute. reflexivity.
Defined.

(** ** Two scatters in one workflow *)

Definition gather_of (id from : string) : Node :=
  sample_node id Gather (json_object [("from", Array [Str from])]).
Definition two_scatters : WorkflowGraph :=
  sample_workflow
    [sample_node "t" Trigger Null; sample_node "a" Scatter Null; sample_node "w" Transform Null;
     gather_of "g" "w"; sample_node "b" Scatter Null; sample_node "x" Transform Null;
     gather_of "h" "x"]
    [sample_edge "t" "main" "a"; sample_edge "a" "main" "w"; sample_edge "w" "main" "g";
     sample_edge "g" "main" "b"; sample_edge "b" "main" "x"; sample_edge "x" "main" "h"].
(** The first scatter opened one lane, the second two; one lane of the second
    has reported. *)
Definition two_scatters_state : value :=
  foldl wf_merge (json_object [("nodes", json_object
      [("a", json_object [("lane_count", value_of_nat 1)]);
       ("b", json_object [("lane_count", value_of_nat 2)])])])
    [lane_report "x" (lane_at "b" 2 0 [item_new (Str "first")]) None].
Definition second_gather : ExecContext :=
  mkExec (gather_of "h" "x") [] Null (nodes_state two_scatters_state) [] None None 9.

(** A gather counts the lanes of the wrong scatter. In a workflow that
    validates, with two scatters one after the other, the gather of the second
    reads the lane count of whichever scatter has the smaller id: with one lane
    opened by the first and two by the second, it emits on the first lane that
    arrives, under the policy [all], and reports the result complete. *)
Theorem gather_counts_first_scatter :
  validate_graph sample_fmt no_serde two_scatters = [] ∧
  match execute_gather sample_fmt second_gather with
  | Ok out =>
      out_control out = None ∧ it_json <$> out_items out = [Str "first"] ∧
      (out_meta out >>? get "partial") = Some (Bool false) ∧
      (node_slot two_scatters_state "b" >>? get "lane_count") = Some (value_of_nat 2)
  | Err _ => False
  end.
Proof. split; [vm_compute; reflexivity|]. vm_compute. repeat split. Qed.

(** ** Per-item execution *)

(** The result of a fan-out does not depend on timing. Whatever order the
    items complete in, [map_items] returns what the reference computes from the
    items alone: the outputs in input order, each paired with its input, failed
    items replaced or dropped by the policy, or, under [FailFast], the failure
    with the lowest input index; so it never depends on which of several
    failures came first. *)
Theorem map_items_deterministic f policy body total order :
  order ≡ₚ seq 0 total →
  map_items f policy body total order = map_reference f policy body total.
Proof. apply map_items_reference. Qed.

(** Three items of which the last two fail; the last completes first. *)
Definition two_fail (i : nat) : result EngineError MappedItem :=
  if decide (i = 0) then Ok (item_new (Str "ok"), []) else Err (ECapability (pretty i)).

Lemma map_items_deterministic_witness :
  map_items sample_fmt FailFast two_fail 3 [2; 0; 1] = Err (ECapability "1") ∧
  map_items sample_fmt Skip two_fail 3 [2; 1; 0] = Ok ([paired_with (item_new (Str "ok")) 0], []).
Proof.
  assert (Hp : [2; 0; 1] ≡ₚ seq 0 3) by (cbn; solve_Permutation).
  assert (Hp' : [2; 1; 0] ≡ₚ seq 0 3) by (cbn; solve_Permutation).
  split.
  - rewrite (map_items_deterministic sample_fmt FailFast two_fail 3 _ Hp). vm_compute. reflexivity.
  - rewrite (map_items_deterministic sample_fmt Skip two_fail 3 _ Hp'). vm_compute. reflexivity.
Defined.

(** How many items of a node run at a time. A run-level cap bounds every
    node; without one, a node that asks for a number gets at most
    [MAX_CONCURRENCY]; only [0] and [all] go past that ceiling, to as many items
    as there are. A node that asks for nothing runs one item at a time and stops
    at the first failure. *)
Theorem map_concurrency_bounded config run total :
  let o := map_options config run in
  (∀ cap, run_item_cap run = Some cap → (in_flight o total ≤ cap ≤ MAX_CONCURRENCY)%Z) ∧
  (requested_concurrency config ≠ 0%Z → (in_flight o total ≤ MAX_CONCURRENCY)%Z) ∧
  (requested_concurrency config = 0%Z → run_item_cap run = None →
     in_flight o total = Z.max (Z.of_nat total) 1) ∧
  (get "concurrency" config = None → get "on_item_error" config = None →
     o = map_options_default).
Proof.
  cbv zeta. unfold in_flight, map_options. cbn [mo_concurrency].
  assert (Hcap : ∀ cap, run_item_cap run = Some cap → (0 < cap ≤ MAX_CONCURRENCY)%Z).
  { intros cap. unfold run_item_cap, MAX_CONCURRENCY. destruct (_ >>? _ >>? _); [|done].
    case_decide; [|done]. intros [= <-]. lia. }
  set (r := requested_concurrency config).
  destruct (run_item_cap run) as [cap|] eqn:Ec.
  - specialize (Hcap cap eq_refl). split_and!.
    + intros ? [= <-]. unfold MAX_CONCURRENCY in *. repeat case_decide; lia.
    + intros _. unfold MAX_CONCURRENCY in *. repeat case_decide; lia.
    + done.
    + intros H1 H2. unfold r, requested_concurrency. rewrite H1, H2. unfold MAX_CONCURRENCY.
      repeat case_decide; try lia; done.
  - split_and!.
    + done.
    + intros Hr. unfold MAX_CONCURRENCY in *. repeat case_decide; lia.
    + intros Hr _. rewrite Hr. unfold MAX_CONCURRENCY. repeat case_decide; lia.
    + intros H1 H2. unfold r, requested_concurrency. rewrite H1, H2. done.
Qed.
