(* ===== verification/GraphOps.v ===== *)
(** * Structured edits of a workflow graph

    [crates/tinyflows/src/graph_ops.rs]: a batch of edits applied to a copy of a
    graph, and the gate of [crates/tinyflows-adaptive/src/closing/resume.rs]
    that decides whether a run of the edited graph may continue from the prefix
    the unedited one committed.  Canvas positions are not part of the model's
    nodes, so [SetNodePosition] only checks that its node is there. *)

From S2P Require Import Prelude Json GraphTypes Search Workflow.

(** ** Edits *)

Inductive GraphOp :=
| AddNode (node : Node)
| UpdateNodeConfig (id : string) (config : value)
| SetNodeName (id name : string)
| RenameNode (id new_id : string)
| RemoveNode (id : string)
| AddEdge (edge : Edge)
| RemoveEdge (from_node_ from_port_ to_node_ to_port_ : string)
| SetNodePosition (id : string)
| SetWorkflowInputs (inputs : list WorkflowInput).

Definition op_name (op : GraphOp) : string :=
  match op with
  | AddNode _ => "add_node"
  | UpdateNodeConfig _ _ => "update_node_config"
  | SetNodeName _ _ => "set_node_name"
  | RenameNode _ _ => "rename_node"
  | RemoveNode _ => "remove_node"
  | AddEdge _ => "add_edge"
  | RemoveEdge _ _ _ _ => "remove_edge"
  | SetNodePosition _ => "set_node_position"
  | SetWorkflowInputs _ => "set_workflow_inputs"
  end.

Inductive GraphOpErrorKind :=
| NodeNotFound (id : string)
| NodeIdExists (id : string)
| EmptyNodeId
| EdgeEndpointMissing (id : string)
| EdgeExists (edge : Edge)
| EdgeNotFound (edge : Edge).

Definition edge_ref (e : Edge) : string :=
  from_node e +:+ "." +:+ from_port e +:+ " -> " +:+ to_node e +:+ "." +:+ to_port e.
Definition op_error_kind_to_string (k : GraphOpErrorKind) : string :=
  match k with
  | NodeNotFound id => "no node with id " +:+ id
  | NodeIdExists id => "a node with id " +:+ id +:+ " already exists"
  | EmptyNodeId => "node id must not be empty"
  | EdgeEndpointMissing id => "edge references unknown node id " +:+ id
  | EdgeExists e => "edge " +:+ edge_ref e +:+ " already exists"
  | EdgeNotFound e => "no edge " +:+ edge_ref e +:+ " to remove"
  end.

Record GraphOpError := mkOpError { oe_index : nat; oe_op : string; oe_kind : GraphOpErrorKind }.
Definition op_error_to_string (e : GraphOpError) : string :=
  "op " +:+ pretty (oe_index e) +:+ " (" +:+ oe_op e +:+ "): " +:+ op_error_kind_to_string (oe_kind e).

(** [json_merge_patch]: RFC 7386, on an object patch key by key, a [null]
    removing the key. *)
Fixpoint json_merge_patch (target patch : value) {struct patch} : value :=
  match patch with
  | Object fields =>
      let start := match target with Object m => m | _ => [] end in
      Object ((fix go (m fields : list (string * value)) : list (string * value) :=
                 match fields with
                 | [] => m
                 | (key, v) :: rest =>
                     go (if is_null v then obj_remove key m
                         else obj_insert key (json_merge_patch (default Null (obj_get key m)) v) m) rest
                 end) start fields)
  | _ => patch
  end.

Definition node_exists (g : WorkflowGraph) (id : string) : bool :=
  existsb (λ n, bool_decide (nd_id n = id)) (wg_nodes g).

Definition set_nodes (g : WorkflowGraph) (nodes : list Node) : WorkflowGraph :=
  mkWorkflow (wg_schema_version g) (wg_id g) (wg_name g) (wg_inputs g) (wg_agents g) nodes (wg_edges g).
Definition set_edges (g : WorkflowGraph) (edges : list Edge) : WorkflowGraph :=
  mkWorkflow (wg_schema_version g) (wg_id g) (wg_name g) (wg_inputs g) (wg_agents g) (wg_nodes g) edges.
Definition set_inputs (g : WorkflowGraph) (inputs : list WorkflowInput) : WorkflowGraph :=
  mkWorkflow (wg_schema_version g) (wg_id g) (wg_name g) inputs (wg_agents g) (wg_nodes g) (wg_edges g).

Definition set_node_id (n : Node) (id : string) : Node :=
  mkWfNode id (nd_kind n) (nd_type_version n) (nd_name n) (nd_config n) (nd_ports n).
Definition set_node_name (n : Node) (name : string) : Node :=
  mkWfNode (nd_id n) (nd_kind n) (nd_type_version n) name (nd_config n) (nd_ports n).
Definition set_node_config (n : Node) (config : value) : Node :=
  mkWfNode (nd_id n) (nd_kind n) (nd_type_version n) (nd_name n) config (nd_ports n).

(** [graph.nodes[node_index(id)]] changed by [f]: the first node of that id. *)
Fixpoint update_first (id : string) (f : Node → Node) (nodes : list Node) : list Node :=
  match nodes with
  | [] => []
  | n :: rest => if decide (nd_id n = id) then f n :: rest else n :: update_first id f rest
  end.

Definition rename (id new_id x : string) : string := if decide (x = id) then new_id else x.
Definition rename_edge (id new_id : string) (e : Edge) : Edge :=
  mkEdge (rename id new_id (from_node e)) (from_port e) (rename id new_id (to_node e)) (to_port e).

Definition changed_node (g : WorkflowGraph) (id : string) (f : Node → Node)
    : result GraphOpErrorKind WorkflowGraph :=
  if node_exists g id then Ok (set_nodes g (update_first id f (wg_nodes g))) else Err (NodeNotFound id).

Definition apply_one (g : WorkflowGraph) (op : GraphOp) : result GraphOpErrorKind WorkflowGraph :=
  match op with
  | AddNode node =>
      if decide (nd_id node = "") then Err EmptyNodeId
      else if node_exists g (nd_id node) then Err (NodeIdExists (nd_id node))
      else Ok (set_nodes g (wg_nodes g ++ [node]))
  | UpdateNodeConfig id config =>
      changed_node g id (λ n, set_node_config n (json_merge_patch (nd_config n) config))
  | SetNodeName id name => changed_node g id (λ n, set_node_name n name)
  | RenameNode id new_id =>
      if decide (new_id = "") then Err EmptyNodeId
      else if node_exists g id then
        if bool_decide (new_id ≠ id) && node_exists g new_id then Err (NodeIdExists new_id)
        else Ok (set_edges (set_nodes g ((λ n, set_node_id n (rename id new_id (nd_id n))) <$> wg_nodes g))
                   (rename_edge id new_id <$> wg_edges g))
      else Err (NodeNotFound id)
  | RemoveNode id =>
      if node_exists g id then
        Ok (set_edges (set_nodes g (filter (λ n, nd_id n ≠ id) (wg_nodes g)))
              (filter (λ e, from_node e ≠ id ∧ to_node e ≠ id) (wg_edges g)))
      else Err (NodeNotFound id)
  | AddEdge edge =>
      if negb (node_exists g (from_node edge)) then Err (EdgeEndpointMissing (from_node edge))
      else if negb (node_exists g (to_node edge)) then Err (EdgeEndpointMissing (to_node edge))
      else if decide (edge ∈ wg_edges g) then Err (EdgeExists edge)
      else Ok (set_edges g (wg_edges g ++ [edge]))
  | RemoveEdge from_node_ from_port_ to_node_ to_port_ =>
      let edge := mkEdge from_node_ from_port_ to_node_ to_port_ in
      if decide (edge ∈ wg_edges g) then Ok (set_edges g (filter (λ e, e ≠ edge) (wg_edges g)))
      else Err (EdgeNotFound edge)
  | SetNodePosition id => if node_exists g id then Ok g else Err (NodeNotFound id)
  | SetWorkflowInputs inputs => Ok (set_inputs g inputs)
  end.

Definition apply_ops (base : WorkflowGraph) (ops : list GraphOp) : result GraphOpError WorkflowGraph :=
  fold_result (λ g iop,
    match apply_one g iop.2 with
    | Ok g => Ok g
    | Err kind => Err (mkOpError iop.1 (op_name iop.2) kind)
    end) base (imap pair ops).

(** ** Continuing across an edit ([resume.rs]) *)

(** The nodes an edge leads from into [node], in edge order. *)
Definition incoming (g : WorkflowGraph) (node : string) : list string :=
  from_node <$> filter (λ e, to_node e = node) (wg_edges g).

(** One pass over the predecessors: the unseen ones are marked and pushed. *)
Definition push_unseen (acc : list string * gset string) (from : string)
    : list string * gset string :=
  if decide (from ∈ acc.2) then acc else (from :: acc.1, {[from]} ∪ acc.2).

Fixpoint ancestors_loop (g : WorkflowGraph) (fuel : nat) (queue : list string) (seen : gset string)
    : option (gset string) :=
  match fuel with
  | 0 => None
  | S fuel =>
      match queue with
      | [] => Some seen
      | node :: rest =>
          let '(queue, seen) := foldl push_unseen (rest, seen) (incoming g node) in
          ancestors_loop g fuel queue seen
      end
  end.
Definition ancestors (g : WorkflowGraph) (target : string) : gset string :=
  default ∅ (ancestors_loop g (S (S (length (wg_edges g)))) [target] ∅).

Definition op_names (op : GraphOp) : option (gset string) :=
  match op with
  | AddNode node => Some {[nd_id node]}
  | UpdateNodeConfig id _ | SetNodeName id _ | RemoveNode id | SetNodePosition id => Some {[id]}
  | RenameNode id new_id => Some {[id; new_id]}
  | AddEdge edge => Some {[from_node edge; to_node edge]}
  | RemoveEdge from_node_ _ to_node_ _ => Some {[from_node_; to_node_]}
  | SetWorkflowInputs _ => None
  end.

(** [None] as soon as an edit reaches every node. *)
Fixpoint touched (ops : list GraphOp) : option (gset string) :=
  match ops with
  | [] => Some ∅
  | op :: ops => op_names op >>? λ names, touched ops >>? λ more, Some (names ∪ more)
  end.

Definition may_continue (parent child : WorkflowGraph) (failed_node : string) (ops : list GraphOp) : bool :=
  if decide (failed_node = "") then false
  else if node_exists parent failed_node then
    let upstream := ancestors parent failed_node ∪ ancestors child failed_node in
    match touched ops with
    | None => bool_decide (upstream = ∅)
    | Some edited => bool_decide (upstream ## edited)
    end
  else false.

(** ** Well-formed graphs stay well-formed *)

(** Node ids are unique and edges lead between nodes of the graph. *)
Definition linked (g : WorkflowGraph) : Prop :=
  NoDup (nd_id <$> wg_nodes g) ∧
  ∀ e, e ∈ wg_edges g → from_node e ∈ nd_id <$> wg_nodes g ∧ to_node e ∈ nd_id <$> wg_nodes g.

Lemma node_exists_spec g id : node_exists g id = true ↔ id ∈ nd_id <$> wg_nodes g.
Proof.
  unfold node_exists. rewrite existsb_exists. setoid_rewrite <- list_elem_of_In.
  rewrite list_elem_of_fmap. setoid_rewrite bool_decide_eq_true. naive_solver.
Qed.

Lemma update_first_ids id f nodes :
  (∀ n, nd_id (f n) = nd_id n) → nd_id <$> update_first id f nodes = nd_id <$> nodes.
Proof.
  intros Hf. induction nodes as [|n nodes IH]; [done|]. cbn. case_decide; cbn; [by rewrite Hf|by rewrite IH].
Qed.

Lemma linked_update g id f :
  (∀ n, nd_id (f n) = nd_id n) → linked g → linked (set_nodes g (update_first id f (wg_nodes g))).
Proof. intros Hf [Hd He]. unfold linked. cbn. by rewrite update_first_ids. Qed.

Lemma rename_inj id new_id x y :
  (new_id = id ∨ x ≠ new_id) → (new_id = id ∨ y ≠ new_id) → rename id new_id x = rename id new_id y → x = y.
Proof. unfold rename. repeat case_decide; naive_solver. Qed.

Lemma NoDup_rename id new_id l :
  new_id = id ∨ new_id ∉ l → NoDup l → NoDup (rename id new_id <$> l).
Proof.
  intros Hnew Hd. induction Hd as [|x l Hx Hd IH]; [constructor|]. rewrite fmap_cons. apply NoDup_cons. split.
  - intros (y & Heq & Hy)%list_elem_of_fmap. apply Hx. apply rename_inj in Heq as ->; set_solver.
  - apply IH. set_solver.
Qed.

Lemma linked_rename g id new_id :
  new_id = id ∨ new_id ∉ nd_id <$> wg_nodes g → linked g →
  linked (set_edges (set_nodes g ((λ n, set_node_id n (rename id new_id (nd_id n))) <$> wg_nodes g))
            (rename_edge id new_id <$> wg_edges g)).
Proof.
  intros Hnew [Hd He]. unfold linked. cbn.
  assert (Hids : nd_id <$> ((λ n, set_node_id n (rename id new_id (nd_id n))) <$> wg_nodes g) =
                 rename id new_id <$> (nd_id <$> wg_nodes g)).
  { rewrite <- !list_fmap_compose. by apply list_fmap_ext. }
  rewrite Hids. split.
  - by apply NoDup_rename.
  - intros e (e0 & -> & H0)%list_elem_of_fmap. destruct (He e0 H0) as [Hf Ht]. cbn.
    split; apply list_elem_of_fmap; eauto.
Qed.

Lemma apply_one_linked g op g' : apply_one g op = Ok g' → linked g → linked g'.
Proof.
  intros H Hl. destruct op; cbn [apply_one] in H; unfold changed_node in H;
    repeat (case_decide || case_match); simplify_eq; try done; try by apply linked_update.
  - destruct Hl as [Hd He]. split; cbn; rewrite fmap_app.
    + apply NoDup_app. split_and!; [done| |apply NoDup_singleton].
      intros x Hx Hs. apply list_elem_of_singleton in Hs as ->.
      apply node_exists_spec in Hx. congruence.
    + intros e Hin. destruct (He e Hin). set_solver.
  - apply linked_rename; [by left|done].
  - apply linked_rename; [right|done]. intros Hx. apply node_exists_spec in Hx.
    match goal with H : _ && _ = false |- _ => rewrite Hx, andb_true_r in H; by apply bool_decide_eq_false in H end.
  - destruct Hl as [Hd He]. split; cbn.
    + assert (Hsub : sublist (nd_id <$> filter (λ n, nd_id n ≠ id) (wg_nodes g)) (nd_id <$> wg_nodes g)).
      { apply fmap_sublist, sublist_filter. }
      by eapply sublist_NoDup.
    + intros e [[Hf Ht] Hin]%list_elem_of_filter. destruct (He e Hin) as [Ha Hb].
      rewrite list_elem_of_fmap in Ha, Hb. destruct Ha as (n & Hn & Hn'), Hb as (m & Hm & Hm').
      split; apply list_elem_of_fmap; [exists n|exists m]; rewrite list_elem_of_filter; by rewrite <- ?Hn, <- ?Hm.
  - destruct Hl as [Hd He]. split; [done|]. cbn. intros e [Hin| ->%list_elem_of_singleton]%elem_of_app; [by apply He|].
    match goal with H1 : negb _ = false, H2 : negb _ = false |- _ =>
      apply negb_false_iff, node_exists_spec in H1; apply negb_false_iff, node_exists_spec in H2 end. done.
  - destruct Hl as [Hd He]. split; [done|]. cbn. intros e [_ Hin]%list_elem_of_filter. by apply He.
Qed.

(** A batch that applies keeps node ids unique and edges between nodes of the
    graph, whatever its edits; a batch that does not apply names the first edit
    that failed, and the edits before it do apply. *)
Theorem edits_keep_linked (base : WorkflowGraph) (ops : list GraphOp) :
  linked base →
  match apply_ops base ops with
  | Ok g => linked g
  | Err e => ∃ op g, ops !! oe_index e = Some op ∧ oe_op e = op_name op ∧
      apply_ops base (take (oe_index e) ops) = Ok g ∧ apply_one g op = Err (oe_kind e)
  end.
Proof.
  unfold apply_ops. intros Hl. induction ops as [|op ops IH] using rev_ind; [done|].
  rewrite imap_app, fold_result_app. cbn -[apply_one].
  destruct (fold_result _ base (imap pair ops)) as [g|e] eqn:E; cbn -[apply_one].
  - rewrite Nat.add_0_r. destruct (apply_one g op) as [g'|k] eqn:Eo; cbn.
    + by eapply apply_one_linked.
    + exists op, g. rewrite lookup_app_r, Nat.sub_diag, take_app_length by lia. done.
  - destruct IH as (op' & g & Hop & Hname & Hpre & Herr). apply lookup_lt_Some in Hop as Hlt.
    exists op', g. rewrite lookup_app_l, take_app_le by lia. done.
Qed.

(** ** Ancestors *)

Definition edge_step (g : WorkflowGraph) (a b : string) : Prop :=
  ∃ e, e ∈ wg_edges g ∧ from_node e = a ∧ to_node e = b.

Lemma incoming_spec g a b : a ∈ incoming g b ↔ edge_step g a b.
Proof.
  unfold incoming, edge_step. rewrite list_elem_of_fmap. setoid_rewrite list_elem_of_filter. naive_solver.
Qed.

(** What the edges still unseen sources could add to the queue. *)
Definition unseen_sources (g : WorkflowGraph) (seen : gset string) : nat :=
  length (filter (λ e, from_node e ∉ seen) (wg_edges g)).

Lemma unseen_sources_le g seen : unseen_sources g seen ≤ length (wg_edges g).
Proof. apply length_filter. Qed.

Lemma unseen_sources_mark g seen a b :
  edge_step g a b → a ∉ seen → unseen_sources g ({[a]} ∪ seen) < unseen_sources g seen.
Proof.
  intros (e & He & <- & _) Hn. unfold unseen_sources.
  induction He as [e l|e e' l He IH]; rewrite !filter_cons.
  - rewrite decide_False, decide_True by set_solver. cbn.
    assert (Hle : ∀ l : list Edge, length (filter (λ e', from_node e' ∉ {[from_node e]} ∪ seen) l) ≤
                  length (filter (λ e', from_node e' ∉ seen) l)).
    { induction l0 as [|x l0 IHl]; [done|]. rewrite !filter_cons. repeat case_decide; cbn; set_solver by lia. }
    specialize (Hle l). lia.
  - repeat case_decide; cbn; set_solver by lia.
Qed.

Lemma push_unseen_spec g target l q s q' s' :
  (∀ a, a ∈ l → edge_step g a target) →
  foldl push_unseen (q, s) l = (q', s') →
  s' = list_to_set l ∪ s ∧ (∀ x, x ∈ q' ↔ x ∈ q ∨ (x ∈ l ∧ x ∉ s)) ∧
  length q' + unseen_sources g s' ≤ length q + unseen_sources g s.
Proof.
  revert q s. induction l as [|a l IH]; intros q s Hl; cbn.
  { intros [= <- <-]. split_and!; [set_solver|set_solver|lia]. }
  unfold push_unseen at 2. cbn. case_decide as Ha; intros H.
  - apply IH in H as (-> & Hq & Hm); [|set_solver]. split_and!; [set_solver| |done].
    intros x. rewrite Hq. destruct (decide (x = a)); set_solver.
  - apply IH in H as (-> & Hq & Hm); [|set_solver]. split_and!; [set_solver| |].
    + intros x. rewrite Hq. destruct (decide (x = a)); set_solver.
    + pose proof (unseen_sources_mark g s a target ltac:(set_solver) Ha). cbn in Hm. lia.
Qed.

Lemma ancestors_loop_spec g target fuel queue seen :
  length queue + unseen_sources g seen < fuel →
  (∀ x, x ∈ seen → tc (edge_step g) x target) →
  (∀ x, x ∈ queue → x = target ∨ tc (edge_step g) x target) →
  (∀ x, x = target ∨ x ∈ seen → x ∈ queue ∨ ∀ y, edge_step g y x → y ∈ seen) →
  ∃ out, ancestors_loop g fuel queue seen = Some out ∧ ∀ x, x ∈ out ↔ tc (edge_step g) x target.
Proof.
  revert queue seen. induction fuel as [|fuel IH]; intros queue seen Hf Hs Hq Hc; [lia|].
  cbn [ancestors_loop]. destruct queue as [|n rest].
  { exists seen. split; [done|]. intros x. split; [apply Hs|]. intros Ht.
    assert (Hclosed : ∀ x, x = target ∨ x ∈ seen → ∀ y, edge_step g y x → y ∈ seen).
    { intros y Hy. destruct (Hc y Hy) as [Hin|]; [by apply elem_of_nil in Hin|done]. }
    remember target as z eqn:Hz in Ht. induction Ht as [x y Hxy|x y z Hxy Hyz IHt]; subst; eauto. }
  destruct (foldl push_unseen (rest, seen) (incoming g n)) as [q' s'] eqn:E.
  apply (push_unseen_spec g n) in E as (-> & Hmem & Hm); [|by intros a Ha; apply incoming_spec].
  assert (Hn : n = target ∨ tc (edge_step g) n target) by (apply Hq; left).
  assert (Hto : ∀ x, x ∈ incoming g n → tc (edge_step g) x target).
  { intros x Hx%incoming_spec. destruct Hn as [->|Hn]; [by apply tc_once|by eapply tc_l]. }
  apply IH.
  - cbn in Hf. lia.
  - intros x [Hx%elem_of_list_to_set|Hx]%elem_of_union; auto.
  - intros x [Hx|[Hx _]]%Hmem; [apply Hq; by right|right; auto].
  - intros x Hx. destruct (decide (x ∈ q')) as [|Hnq]; [by left|right]. intros y Hy.
    assert (x ∉ rest) as Hnr by (intros ?; apply Hnq, Hmem; by left).
    destruct (decide (x = n)) as [->|Hne].
    { apply elem_of_union_l, elem_of_list_to_set, incoming_spec, Hy. }
    assert (x = target ∨ x ∈ seen) as Hold.
    { destruct Hx as [|[Hx%elem_of_list_to_set|]%elem_of_union]; [by left| |by right].
      right. destruct (decide (x ∈ seen)); [done|]. destruct Hnq. apply Hmem. by right. }
    destruct (Hc x Hold) as [[->|]%elem_of_cons|Hcl]; [done..|]. set_solver.
Qed.

Lemma ancestors_spec g target x : x ∈ ancestors g target ↔ tc (edge_step g) x target.
Proof.
  destruct (ancestors_loop_spec g target (S (S (length (wg_edges g)))) [target] ∅) as (out & Ho & Hs).
  - pose proof (unseen_sources_le g ∅). cbn [length]. lia.
  - set_solver.
  - intros y Hy. left. set_solver.
  - intros y [->|Hy]; [left; set_solver|set_solver].
  - unfold ancestors. by rewrite Ho.
Qed.

(** ** What a continued run takes on trust *)

Definition is_rename (op : GraphOp) : bool := match op with RenameNode _ _ => true | _ => false end.
Definition nodes_of (g : WorkflowGraph) (id : string) : list Node :=
  filter (λ n, nd_id n = id) (wg_nodes g).
Definition edges_into (g : WorkflowGraph) (id : string) : list Edge :=
  filter (λ e, to_node e = id) (wg_edges g).

Lemma update_first_other id f nodes a :
  (∀ n, nd_id (f n) = nd_id n) → a ≠ id →
  filter (λ n, nd_id n = a) (update_first id f nodes) = filter (λ n, nd_id n = a) nodes.
Proof.
  intros Hf Ha. induction nodes as [|n nodes IH]; [done|]. cbn [update_first].
  case_decide as Hn; rewrite !filter_cons; [|by rewrite IH].
  pose proof (Hf n). by rewrite !decide_False by congruence.
Qed.

(** An edit that does not name [a] leaves its node alone, adds no edge from or
    into it, and leaves the edges into it alone unless it removed the node one
    of them starts at. *)
Lemma apply_one_frame g op g' names a :
  apply_one g op = Ok g' → is_rename op = false → op_names op = Some names → a ∉ names →
  nodes_of g' a = nodes_of g a ∧
  (∀ e, e ∈ wg_edges g' → from_node e = a → e ∈ wg_edges g) ∧
  ((∀ e, e ∈ edges_into g a → from_node e ∉ names) → edges_into g' a = edges_into g a) ∧
  wg_inputs g' = wg_inputs g.
Proof.
  intros H Hr Hn Ha. unfold nodes_of, edges_into.
  destruct op; cbn [apply_one op_names is_rename] in *; unfold changed_node in H;
    repeat (case_decide || case_match); simplify_eq; cbn [wg_nodes wg_edges wg_inputs set_nodes set_edges];
    split_and!; try done; try (apply update_first_other; set_solver).
  - rewrite filter_app, filter_cons, decide_False by set_solver. by rewrite app_nil_r.
  - rewrite list_filter_filter. apply list_filter_iff. set_solver.
  - intros e [_ ?]%list_elem_of_filter. done.
  - intros Hfrom. rewrite list_filter_filter. apply filter_ext_in. intros e Hi. split; [naive_solver|].
    intros Hto. split; [done|]. split; [|set_solver].
    specialize (Hfrom e). rewrite list_elem_of_filter in Hfrom.
    set_solver.
  - intros e [| ->%list_elem_of_singleton]%elem_of_app; set_solver.
  - intros _. rewrite filter_app, filter_cons, decide_False by set_solver. by rewrite app_nil_r.
  - intros e [_ ?]%list_elem_of_filter. done.
  - intros _. rewrite list_filter_filter. apply list_filter_iff. intros e. split; [naive_solver|].
    intros <-. split; [done|]. intros ->. cbn in *. set_solver.
Qed.

Lemma apply_ops_run base ops g : apply_ops base ops = Ok g → fold_result apply_one base ops = Ok g.
Proof.
  unfold apply_ops. revert g. induction ops as [|op ops IH] using rev_ind; intros g; [by intros [= ->]|].
  rewrite imap_app, !fold_result_app. cbn -[apply_one].
  intros (g1 & H1 & H2)%bind_Ok_inv. rewrite (IH g1 H1). cbn -[apply_one].
  destruct (apply_one g1 op); cbn in *; congruence.
Qed.

Lemma batch_frame ops g g' names a :
  fold_result apply_one g ops = Ok g' → Forall (λ op, is_rename op = false) ops →
  touched ops = Some names → a ∉ names →
  nodes_of g' a = nodes_of g a ∧
  (∀ e, e ∈ wg_edges g' → from_node e = a → e ∈ wg_edges g) ∧
  ((∀ e, e ∈ edges_into g a → from_node e ∉ names) → edges_into g' a = edges_into g a) ∧
  wg_inputs g' = wg_inputs g.
Proof.
  revert g names. induction ops as [|op ops IH]; intros g names; cbn -[apply_one].
  { intros [= ->] _ [= <-] _. done. }
  intros (g1 & Hop & Hrun)%bind_Ok_inv [Hr Hrs]%Forall_cons
    (n1 & Hn1 & (n2 & Hn2 & [= <-])%and_then_Some)%and_then_Some Ha.
  destruct (apply_one_frame g op g1 n1 a) as (Hn & He & Hi & Hin); [done..|set_solver|].
  destruct (IH g1 n2) as (Hn' & He' & Hi' & Hin'); [done..|set_solver|].
  split_and!; [congruence|auto| |congruence].
  intros Hfrom. assert (edges_into g1 a = edges_into g a) as Heq by (apply Hi; set_solver).
  rewrite Hi'; [done|]. rewrite Heq. set_solver.
Qed.

Lemma edges_into_step g a b : edge_step g a b ↔ ∃ e, e ∈ edges_into g b ∧ from_node e = a.
Proof. unfold edge_step, edges_into. setoid_rewrite list_elem_of_filter. naive_solver. Qed.

Lemma prefix_kept (parent child : WorkflowGraph) (failed : string) (ops : list GraphOp)
    (Hops : apply_ops parent ops = Ok child) (Hrenames : Forall (λ op, is_rename op = false) ops)
    (Hgate : may_continue parent child failed ops = true) :
  ∀ a, a ∈ ancestors parent failed ∪ ancestors child failed →
    tc (edge_step parent) a failed ∧
    nodes_of child a = nodes_of parent a ∧ edges_into child a = edges_into parent a ∧
    wg_inputs child = wg_inputs parent.
Proof.
  unfold may_continue in Hgate. case_decide; [done|]. destruct (node_exists parent failed); [|done].
  intros a Ha. destruct (touched ops) as [edited|] eqn:Et; apply bool_decide_eq_true in Hgate; [|set_solver].
  apply apply_ops_run in Hops.
  assert (Hframe := λ x Hx, batch_frame ops parent child edited x Hops Hrenames Et Hx).
  assert (Hup : ∀ x, tc (edge_step child) x failed → tc (edge_step parent) x failed).
  { intros x Hx. remember failed as z eqn:Hz in Hx. revert Hz.
    induction Hx as [x y (e & He & <- & Hto)|x y z (e & He & <- & Hto) Hyz IH]; intros ->.
    - apply tc_once. exists e. split_and!; [|done..].
      eapply Hframe; [|done|done]. intros Hin. apply (Hgate (from_node e)); [|done].
      apply elem_of_union_r, ancestors_spec, tc_once. by exists e.
    - eapply tc_l; [|by apply IH]. exists e. split_and!; [|done..].
      eapply Hframe; [|done|done]. intros Hin. apply (Hgate (from_node e)); [|done].
      apply elem_of_union_r, ancestors_spec. eapply tc_l; [by exists e|done]. }
  assert (Htc : tc (edge_step parent) a failed).
  { apply elem_of_union in Ha as [Ha|Ha]; apply ancestors_spec in Ha; auto. }
  destruct (Hframe a) as (Hn & _ & Hi & Hin); [by intros ?; apply (Hgate a)|].
  split_and!; [done|done| |done]. apply Hi. intros e He Hin'. apply (Hgate (from_node e)); [|done].
  apply elem_of_union_l, ancestors_spec. eapply tc_l; [|done]. apply edges_into_step. eauto.
Qed.

(** When the gate lets an attempt continue the run its predecessor broke,
    everything that run committed still stands: every node upstream of the
    failed one in either graph was upstream of it in the graph that ran, has the
    same node and the same incoming edges in the repaired graph, and the
    declared inputs are the same.  (The repair refuses renames before it gets
    here.) *)
Theorem continue_keeps_prefix (parent child : WorkflowGraph) (failed : string) (ops : list GraphOp)
    (Hops : apply_ops parent ops = Ok child) (Hrenames : Forall (λ op, is_rename op = false) ops)
    (Hgate : may_continue parent child failed ops = true) :
  ∀ a, a ∈ ancestors parent failed ∪ ancestors child failed →
    tc (edge_step parent) a failed ∧
    nodes_of child a = nodes_of parent a ∧ edges_into child a = edges_into parent a ∧
    wg_inputs child = wg_inputs parent.
Proof. exact (prefix_kept parent child failed ops Hops Hrenames Hgate). Qed.

(** ** A repair in the middle of a chain *)

Definition chain_node (id : string) (kind : NodeKind) : Node :=
  mkWfNode id kind 1 id (json_object [("prompt", Str id)]) [].
Definition chain_edge (a b : string) : Edge := mkEdge a "main" b "main".
Definition chain : WorkflowGraph :=
  mkWorkflow CURRENT_SCHEMA_VERSION None "chain" [] []
    [chain_node "start" Trigger; chain_node "fetch" Agent; chain_node "post" Agent]
    [chain_edge "start" "fetch"; chain_edge "fetch" "post"].
Definition chain_fix : list GraphOp := [UpdateNodeConfig "post" (json_object [("prompt", Str "again")])].

Lemma continue_keeps_prefix_witness :
  ∃ child, apply_ops chain chain_fix = Ok child ∧ may_continue chain child "post" chain_fix = true ∧
    "fetch" ∈ ancestors chain "post" ∧ nodes_of child "fetch" = nodes_of chain "fetch".
Proof.
  eexists. split; [reflexivity|]. split; [by vm_compute|].
  assert (Hin : "fetch" ∈ ancestors chain "post").
  { apply ancestors_spec, tc_once. exists (chain_edge "fetch" "post"). split_and!; [|done..].
    right. left. }
  split; [done|].
  refine (proj1 (proj2 (continue_keeps_prefix chain _ "post" chain_fix eq_refl _ _ "fetch" _))).
  - by repeat constructor.
  - by vm_compute.
  - by apply elem_of_union_l.
Defined.
