(* ===== verification/AgentPrompt.v ===== *)
(** * From a completion request to messages, and from a reply to a value

    [crates/tinyflows/src/nodes/integration/agent_prompt.rs] and
    [agent_prompt/json_extract.rs]: the messages and the single run prompt a
    host makes of a request, the fence around upstream data, precedence of
    models and timeouts, and the extraction of JSON from a reply.  The parser
    and the pretty-printer of [serde_json] are arguments. *)

From Stdlib Require Import Ascii.
From S2P Require Import Prelude Json GraphTypes Workflow Text Expr AgentRequest.

(** ** Messages *)

Record CompletionMessage := mkMessage { cm_role : string; cm_content : string }.

Definition known_role (role : string) : string :=
  if decide (role = "system") then "system"
  else if decide (role = "assistant") then "assistant"
  else if decide (role = "tool") then "tool" else "user".

Definition message_of (entry : value) : option CompletionMessage :=
  get "content" entry >>? as_str >>? λ content,
  Some (mkMessage (known_role (default "user" (get "role" entry >>? as_str))) content).

(** The node's own messages, else its prompt as one. *)
Definition own_messages (request : value) : list CompletionMessage :=
  let prompt := [mkMessage "user" (default "" (get "prompt" request >>? as_str))] in
  match get "messages" request >>? as_array with
  | Some [] | None => prompt
  | Some entries => omap message_of entries
  end.

Definition INPUT_CONTEXT_MAX_LEN : N := 50000.

(** The lengths of the runs of backticks, those of length zero included. *)
Fixpoint backtick_runs (run : nat) (s : string) : list nat :=
  match s with
  | EmptyString => [run]
  | SCons c rest =>
      if decide (c = "`"%char) then backtick_runs (S run) rest else run :: backtick_runs 0 rest
  end.
Definition longest_backtick_run (s : string) : nat := max_list (backtick_runs 0 s).

(** The largest character boundary at or below [n]. *)
Definition is_char_boundary (s : string) (n : nat) : bool :=
  match String.get n s with
  | Some c => negb (continuation_byte c)
  | None => bool_decide (n = String.length s)
  end.
Fixpoint floor_boundary (s : string) (n : nat) : nat :=
  if is_char_boundary s n then n
  else match n with 0 => 0 | S n => floor_boundary s n end.

Definition truncated (serialized : string) : string :=
  if decide (INPUT_CONTEXT_MAX_LEN < N.of_nat (String.length serialized))%N then
    String.substring 0 (floor_boundary serialized (N.to_nat INPUT_CONTEXT_MAX_LEN)) serialized +:+ "…(truncated)"
  else serialized.

Fixpoint repeat_char (c : ascii) (n : nat) : string :=
  match n with 0 => "" | S n => SCons c (repeat_char c n) end.
Definition fence_for (payload : string) : string :=
  repeat_char "`" (Nat.max (longest_backtick_run payload + 1) 3).

Section Prompts.
Context (f : Fmt) (pretty_json : value → string).

Definition input_context_block (request : value) : option string :=
  get "input_context" request >>? λ ctx,
  if is_null ctx then None
  else
    let serialized := pretty_json ctx in
    if decide (serialized = "" ∨ serialized = "null") then None
    else
      let payload := truncated serialized in
      let fence := fence_for payload in
      Some ("Here is the data from the previous step:" +:+ newline +:+ fence +:+ "json" +:+ newline +:+
            payload +:+ newline +:+ fence +:+ newline +:+
            "Use this data to complete the task described below.").

Definition parser_schema (request : value) : option value :=
  match get "output_parser" request >>? get "schema" with
  | Some s => if is_null s then None else Some s
  | None => None
  end.
Definition structured_output_requested (request : value) : bool :=
  bool_decide (is_Some (parser_schema request)) ||
  bool_decide (get "response_format" request >>? as_str = Some "json").

Definition structured_output_instruction (request : value) : option string :=
  if structured_output_requested request then
    let schema := parser_schema request in
    let kind := if decide (schema >>? get "type" >>? as_str = Some "array") then "array" else "object" in
    let instruction := "Respond with a single JSON " +:+ kind +:+
                       " only — no prose, no markdown code fences." in
    Some (match schema with
          | Some s => instruction +:+ " The " +:+ kind +:+ " must match this JSON Schema:" +:+ newline +:+
                      fmt_json f s
          | None => instruction
          end)
  else None.

Definition opt_to_list {A} (o : option A) : list A := match o with Some a => [a] | None => [] end.

Definition build_completion_messages (request : value) : list CompletionMessage :=
  opt_to_list (mkMessage "user" <$> input_context_block request) ++
  opt_to_list (mkMessage "system" <$> structured_output_instruction request) ++
  own_messages request.

Definition prompt_line (entry : value) : option string :=
  get "content" entry >>? as_str >>? λ content,
  if decide (trim content = "") then None
  else Some (default "user" (get "role" entry >>? as_str) +:+ ": " +:+ trim content).

Definition node_request_to_prompt (request : value) : string :=
  let flattened :=
    match get "messages" request >>? as_array with
    | Some entries => join_with (newline +:+ newline) (omap prompt_line entries)
    | None => ""
    end in
  match get "prompt" request >>? as_str with
  | Some prompt => if decide (trim prompt = "") then flattened else trim prompt
  | None => flattened
  end.

Definition non_blank_trimmed (o : option string) : option string :=
  o >>? λ m, if decide (trim m = "") then None else Some (trim m).
Definition resolve_node_model (request : value) (entry_model : option string) : option string :=
  or_else (non_blank_trimmed (get "model" request >>? as_str)) (non_blank_trimmed entry_model).

Definition resolve_completion_model (is_raw : string → bool) (node_model : option string)
    (resolved_model : string) : string :=
  match node_model with
  | Some pinned => if is_raw pinned then pinned else resolved_model
  | None => resolved_model
  end.

Definition build_harness_run_prompt (request : value) : string :=
  let own := node_request_to_prompt request in
  join_with (newline +:+ newline)
    (opt_to_list (input_context_block request) ++ opt_to_list (structured_output_instruction request) ++
     if decide (own = "") then [] else [own]).
End Prompts.

(** ** Timeouts: [u64] seconds, saturating *)

Definition clamp_run_timeout_secs (requested : option Z) : Z :=
  match requested with Some s => Z.max 10 (Z.min s 600) | None => 240 end.
Definition scale_timeout_for_iteration_cap (base cap : Z) : Z :=
  if decide (10 < cap)%Z then Z.max base (Z.min (Z.min (cap * 12) u64_max) 600) else base.
Definition resolve_run_timeout_secs (requested : option Z) (cap : Z) : Z :=
  let base := clamp_run_timeout_secs requested in
  match requested with Some _ => base | None => scale_timeout_for_iteration_cap base cap end.

(** ** A system message of the host's *)

Definition prepend_system_message (request : value) (system_prompt : string) : value :=
  match request with
  | Object m =>
      let system := json_object [("role", Str "system"); ("content", Str system_prompt)] in
      match obj_get "messages" m >>? as_array with
      | Some (e :: entries) => Object (obj_insert "messages" (Array (system :: e :: entries)) m)
      | _ =>
          let user := match obj_get "prompt" m >>? as_str with
                      | Some prompt => [json_object [("role", Str "user"); ("content", Str prompt)]]
                      | None => []
                      end in
          Object (obj_insert "messages" (Array (system :: user)) m)
      end
  | _ => request
  end.

(** ** JSON from a reply ([json_extract.rs]) *)

(** [str::find] and [str::rfind] of a text. *)
Fixpoint find_str (pat s : string) : option nat :=
  if String.prefix pat s then Some 0
  else match s with EmptyString => None | SCons _ rest => S <$> find_str pat rest end.
Fixpoint rfind_str (pat s : string) : option nat :=
  match s with
  | EmptyString => if decide (pat = "") then Some 0 else None
  | SCons _ rest =>
      match rfind_str pat rest with
      | Some i => Some (S i)
      | None => if String.prefix pat s then Some 0 else None
      end
  end.
Fixpoint drop_bytes (n : nat) (s : string) : string :=
  match n, s with S n, SCons _ rest => drop_bytes n rest | _, _ => s end.

Section Extract.
Context (parse_json : string → option value).

Definition parse_structured (candidate : string) : option value :=
  parse_json candidate >>? λ v, match v with Object _ | Array _ => Some v | _ => None end.

Definition strip_json_tag (s : string) : string := default s (strip_prefix "json" s).

Definition parse_llm_json (text : string) : option value :=
  let trimmed := trim text in
  parse_structured
    match strip_prefix "```" trimmed with
    | Some rest =>
        let rest := strip_json_tag rest in
        match rfind_str "```" rest with
        | Some close => trim (String.substring 0 close rest)
        | None => trimmed
        end
    | None => trimmed
    end.

Definition extract_fenced_json_block (text : string) : option value :=
  let text := trim text in
  find_str "```" text >>? λ fence_start,
  let content := trim (strip_json_tag (trim (drop_bytes (fence_start + 3) text))) in
  rfind_str "```" content >>? λ close,
  parse_structured (trim (String.substring 0 close content)).

(** How the scan for the end of a span ends: [SpanEnd n] after [n] bytes, at the
    end of the text, or on a depth outside [u32]. *)
Inductive SpanScan := SpanEnd (n : nat) | SpanOpen | SpanOverflow.

Definition backslash : ascii := ascii_of_nat 92.
Definition double_quote : ascii := ascii_of_nat 34.

Fixpoint scan_span (opening closing : ascii) (depth : N) (in_string escaped : bool) (taken : nat)
    (s : string) : SpanScan :=
  match s with
  | EmptyString => SpanOpen
  | SCons b rest =>
      if in_string then
        if escaped then scan_span opening closing depth true false (S taken) rest
        else if decide (b = backslash) then scan_span opening closing depth true true (S taken) rest
        else scan_span opening closing depth (negb (bool_decide (b = double_quote))) false (S taken) rest
      else if decide (b = double_quote) then scan_span opening closing depth true escaped (S taken) rest
      else if decide (b = opening) then
        if decide (depth + 1 ≤ u32_max_N)%N
        then scan_span opening closing (depth + 1) false escaped (S taken) rest
        else SpanOverflow
      else if decide (b = closing) then
        if decide (depth = 0%N) then SpanOverflow
        else if decide (depth = 1%N) then SpanEnd (S taken)
        else scan_span opening closing (depth - 1) false escaped (S taken) rest
      else scan_span opening closing depth false escaped (S taken) rest
  end.

Definition brackets_of (c : ascii) : option (ascii * ascii) :=
  if decide (c = "{"%char) then Some ("{"%char, "}"%char)
  else if decide (c = "["%char) then Some ("["%char, "]"%char) else None.

Fixpoint balanced_from (s : string) : option value :=
  match s with
  | EmptyString => None
  | SCons c rest =>
      match brackets_of c with
      | Some (opening, closing) =>
          match scan_span opening closing 0 false false 0 s with
          | SpanEnd n =>
              match parse_structured (String.substring 0 n s) with
              | Some v => Some v
              | None => balanced_from rest
              end
          | SpanOpen => balanced_from rest
          | SpanOverflow => None
          end
      | None => balanced_from rest
      end
  end.
Definition extract_balanced_json (text : string) : option value := balanced_from (trim text).

Definition extract_structured_json (text : string) : option value :=
  or_else (parse_llm_json text)
    (or_else (extract_fenced_json_block text) (extract_balanced_json text)).

Definition build_agent_result (agent_ref final_text : string) (request : value) : value :=
  let plain := json_object [("text", Str final_text); ("agent_ref", Str agent_ref)] in
  if structured_output_requested request then default plain (extract_structured_json final_text)
  else plain.
End Extract.

(** ** The fence around upstream data *)

Lemma str_app_assoc (a b c : string) : (a +:+ b) +:+ c = a +:+ b +:+ c.
Proof. induction a as [|x a IH]; [done|]. change (SCons x ((a +:+ b) +:+ c) = SCons x (a +:+ b +:+ c)). by rewrite IH. Qed.
Lemma str_app_nil (a : string) : a +:+ "" = a.
Proof. induction a as [|x a IH]; [done|]. change (SCons x (a +:+ "") = SCons x a). by rewrite IH. Qed.
Lemma str_app_length (a b : string) : String.length (a +:+ b) = String.length a + String.length b.
Proof. induction a as [|x a IH]; [done|]. change (S (String.length (a +:+ b)) = S (String.length a + String.length b)). by rewrite IH. Qed.

Lemma run_counted r s : r ≤ max_list (backtick_runs r s).
Proof.
  revert r. induction s as [|c s IH]; intros r; cbn; [lia|]. case_decide; cbn; [|lia].
  specialize (IH (S r)). lia.
Qed.
Lemma run_repeated r k q :
  r + k ≤ max_list (backtick_runs r (repeat_char "`" k +:+ q)).
Proof.
  revert r. induction k as [|k IH]; intros r.
  - rewrite Nat.add_0_r. apply run_counted.
  - change (repeat_char "`" (S k) +:+ q) with (SCons "`"%char (repeat_char "`" k +:+ q)).
    cbn [backtick_runs]. rewrite decide_True by done. specialize (IH (S r)). lia.
Qed.
Lemma run_inside r p k q : k ≤ max_list (backtick_runs r (p +:+ repeat_char "`" k +:+ q)).
Proof.
  revert r. induction p as [|c p IH]; intros r.
  - pose proof (run_repeated r k q). change ("" +:+ ?x) with x. lia.
  - change (SCons c p +:+ ?x) with (SCons c (p +:+ x)). cbn [backtick_runs].
    case_decide; cbn [max_list foldr]; [apply IH|]. specialize (IH 0). unfold max_list in *. lia.
Qed.

Lemma repeat_char_length c n : String.length (repeat_char c n) = n.
Proof. induction n as [|n IH]; cbn; [done|]. by rewrite IH. Qed.

Lemma substring_is_prefix n s : ∃ rest, s = String.substring 0 n s +:+ rest.
Proof.
  revert s. induction n as [|n IH]; intros [|c s]; cbn; [by exists ""|by eexists|by exists ""|].
  destruct (IH s) as [rest Hr]. exists rest. change (SCons c s = SCons c (String.substring 0 n s +:+ rest)).
  by rewrite <- Hr.
Qed.
Lemma substring_length n s : String.length (String.substring 0 n s) ≤ n.
Proof. revert s. induction n as [|n IH]; intros [|c s]; cbn; [lia..|]. specialize (IH s). lia. Qed.
Lemma floor_boundary_le s n : floor_boundary s n ≤ n.
Proof. induction n as [|n IH]; cbn [floor_boundary]; destruct (is_char_boundary s _); lia. Qed.

Lemma truncated_length s : (N.of_nat (String.length (truncated s)) ≤ INPUT_CONTEXT_MAX_LEN + 14)%N.
Proof.
  unfold truncated. case_decide; [|lia]. rewrite str_app_length.
  pose proof (substring_length (floor_boundary s (N.to_nat INPUT_CONTEXT_MAX_LEN)) s).
  pose proof (floor_boundary_le s (N.to_nat INPUT_CONTEXT_MAX_LEN)).
  change (String.length "…(truncated)") with 14. lia.
Qed.

(** C30: Upstream data cannot break out of its block: the payload between the
    fences is at most the size cap (and the truncation mark), it is the
    serialised data or a prefix of it with the mark, and it contains the closing
    fence nowhere, however many backticks it holds. *)
Theorem context_fence_unbreakable (pretty_json : value → string) (request : value) (block : string)
    (Hblock : input_context_block pretty_json request = Some block) :
  ∃ ctx payload, get "input_context" request = Some ctx ∧
    block = "Here is the data from the previous step:" +:+ newline +:+ fence_for payload +:+ "json" +:+
            newline +:+ payload +:+ newline +:+ fence_for payload +:+ newline +:+
            "Use this data to complete the task described below." ∧
    (payload = pretty_json ctx ∨ ∃ kept rest, pretty_json ctx = kept +:+ rest ∧ payload = kept +:+ "…(truncated)") ∧
    (N.of_nat (String.length payload) ≤ INPUT_CONTEXT_MAX_LEN + 14)%N ∧
    (∀ p q, payload ≠ p +:+ fence_for payload +:+ q) ∧ 3 ≤ String.length (fence_for payload).
Proof.
  apply and_then_Some in Hblock as (ctx & Hctx & H). destruct (is_null ctx); [done|]. cbv zeta in H.
  case_decide; [done|]. injection H as <-. exists ctx, (truncated (pretty_json ctx)).
  split_and!; [done|done| |apply truncated_length| |].
  - unfold truncated. case_decide; [right|by left].
    destruct (substring_is_prefix (floor_boundary (pretty_json ctx) (N.to_nat INPUT_CONTEXT_MAX_LEN)) (pretty_json ctx))
      as [rest Hr]. by eexists _, rest.
  - intros p q Heq. set (payload := truncated (pretty_json ctx)) in *. unfold fence_for in Heq.
    pose proof (run_inside 0 p (Nat.max (longest_backtick_run payload + 1) 3) q) as Hrun.
    rewrite <- Heq in Hrun. unfold longest_backtick_run in *. lia.
  - unfold fence_for. rewrite repeat_char_length. lia.
Qed.

(** ** Timeouts *)

(** A turn always has between 10 and 600 seconds; a limit the author wrote is
    taken as written inside that range, whatever the iteration cap; without one
    the bound only grows with the cap. *)
Theorem run_timeout_bounds (requested : option Z) (cap : Z) :
  (10 ≤ resolve_run_timeout_secs requested cap ≤ 600)%Z ∧
  (∀ s, requested = Some s → (10 ≤ s ≤ 600)%Z → resolve_run_timeout_secs requested cap = s) ∧
  (requested = None → (240 ≤ resolve_run_timeout_secs requested cap)%Z).
Proof.
  unfold resolve_run_timeout_secs, scale_timeout_for_iteration_cap, clamp_run_timeout_secs, u64_max.
  destruct requested; [|case_decide]; split_and!; try lia; intros; simplify_eq; lia.
Qed.

(** ** The host's system message *)

Lemma own_messages_prepend m prompt :
  own_messages (prepend_system_message (Object m) prompt) =
  mkMessage "system" prompt ::
  match obj_get "messages" m >>? as_array, obj_get "prompt" m >>? as_str with
  | (None | Some []), None => []
  | _, _ => own_messages (Object m)
  end.
Proof.
  unfold own_messages. cbn [get prepend_system_message].
  destruct (obj_get "messages" m >>? as_array) as [[|e entries]|] eqn:Em;
    [destruct (obj_get "prompt" m >>? as_str) eqn:Ep| |destruct (obj_get "prompt" m >>? as_str) eqn:Ep];
    cbn [get]; rewrite obj_get_insert_eq; reflexivity.
Qed.

(** Prepending a system message puts it before the node's own messages and
    changes nothing else of what the model reads: the fenced data and the
    steering instruction still come first, the node's messages (or its prompt)
    follow unchanged. *)
Theorem prepend_keeps_conversation (f : Fmt) (pretty_json : value → string)
    (m : list (string * value)) (prompt : string)
    (Hown : is_Some (obj_get "prompt" m >>? as_str) ∨
            ∃ e l, obj_get "messages" m >>? as_array = Some (e :: l)) :
  ∃ prelude, build_completion_messages f pretty_json (Object m) = prelude ++ own_messages (Object m) ∧
    build_completion_messages f pretty_json (prepend_system_message (Object m) prompt) =
      prelude ++ mkMessage "system" prompt :: own_messages (Object m).
Proof.
  assert (Hkeep : ∀ k, k ≠ "messages" → get k (prepend_system_message (Object m) prompt) = get k (Object m)).
  { intros k Hk. cbn [prepend_system_message]. destruct (obj_get "messages" m >>? as_array) as [[|]|];
      cbn [get]; by rewrite obj_get_insert_ne. }
  assert (Hblock : input_context_block pretty_json (prepend_system_message (Object m) prompt) =
          input_context_block pretty_json (Object m)).
  { unfold input_context_block. by rewrite Hkeep. }
  assert (Hsteer : structured_output_instruction f (prepend_system_message (Object m) prompt) =
          structured_output_instruction f (Object m)).
  { unfold structured_output_instruction, structured_output_requested, parser_schema. by rewrite !Hkeep. }
  assert (Hmine : own_messages (prepend_system_message (Object m) prompt) =
          mkMessage "system" prompt :: own_messages (Object m)).
  { rewrite own_messages_prepend. destruct Hown as [[p ->]|(e & l & ->)]; [|done].
    by destruct (obj_get "messages" m >>? as_array) as [[]|]. }
  exists (opt_to_list (mkMessage "user" <$> input_context_block pretty_json (Object m)) ++
          opt_to_list (mkMessage "system" <$> structured_output_instruction f (Object m))).
  unfold build_completion_messages. rewrite Hblock, Hsteer, Hmine, <- !app_assoc. done.
Qed.

(** ** What extraction returns *)

(** [part_of c s]: [c] is a contiguous part of [s]. *)
Definition part_of (c s : string) : Prop := ∃ p q, s = p +:+ c +:+ q.

Lemma part_refl s : part_of s s.
Proof. exists "", "". change (s = s +:+ ""). by rewrite str_app_nil. Qed.
Lemma part_trans a b c : part_of a b → part_of b c → part_of a c.
Proof.
  intros (p & q & ->) (p' & q' & ->). exists (p' +:+ p), (q +:+ q'). by rewrite !str_app_assoc.
Qed.
Lemma part_suffix p s : part_of s (p +:+ s).
Proof. exists p, "". by rewrite str_app_nil. Qed.
Lemma part_cons c s : part_of s (SCons c s).
Proof. apply (part_suffix (SCons c "")). Qed.
Lemma part_substring n s : part_of (String.substring 0 n s) s.
Proof. destruct (substring_is_prefix n s) as [q Hq]. exists "", q. exact Hq. Qed.
Lemma part_drop n s : part_of (drop_bytes n s) s.
Proof.
  revert s. induction n as [|n IH]; intros [|c s]; cbn; [apply part_refl..|].
  eapply part_trans; [apply IH|apply part_cons].
Qed.

Lemma skip_white_part s rest : skip_white s = Some rest → part_of rest s.
Proof.
  unfold skip_white. intros H. repeat (case_match; simplify_eq); try done;
    repeat first [apply part_refl|eapply part_trans; [|apply part_cons]].
Qed.
Lemma trim_start_part s : part_of (trim_start s) s.
Proof.
  unfold trim_start. generalize (String.length s) as n. intros n. revert s.
  induction n as [|n IH]; intros s; cbn; [apply part_refl|].
  destruct (skip_white s) as [rest|] eqn:E; [|apply part_refl].
  eapply part_trans; [apply IH|by apply skip_white_part].
Qed.
Lemma trim_end_prefix s : ∃ q, s = trim_end s +:+ q.
Proof.
  induction s as [|c s [q IH]]; cbn [trim_end]; [by exists ""|].
  case_decide; [by eexists|]. exists q. change (SCons c s = SCons c (trim_end s +:+ q)). by rewrite <- IH.
Qed.
Lemma trim_part s : part_of (trim s) s.
Proof.
  eapply part_trans; [|apply trim_start_part]. destruct (trim_end_prefix (trim_start s)) as [q Hq].
  exists "", q. exact Hq.
Qed.
Lemma strip_prefix_part p s t : strip_prefix p s = Some t → part_of t s.
Proof. intros ->%strip_prefix_Some. apply part_suffix. Qed.
Lemma strip_json_tag_part s : part_of (strip_json_tag s) s.
Proof.
  unfold strip_json_tag. destruct (strip_prefix "json" s) eqn:E; [by eapply strip_prefix_part|apply part_refl].
Qed.
Section ExtractFacts.
Context (parse_json : string → option value).

(** [v] is an object or array and some part of [text] reads as it. *)
Definition read_from (text : string) (v : value) : Prop :=
  (is_object v = true ∨ is_array v = true) ∧ ∃ c, part_of c text ∧ parse_json c = Some v.

Lemma parse_structured_read c text v :
  part_of c text → parse_structured parse_json c = Some v → read_from text v.
Proof.
  intros Hp (w & Hw & H)%and_then_Some. destruct w; try done; injection H as <-; (split; [|by exists c]);
    [by right|by left].
Qed.

Lemma balanced_read s text v : part_of s text → balanced_from parse_json s = Some v → read_from text v.
Proof.
  induction s as [|c s IH]; cbn [balanced_from]; [done|]. intros Hp.
  assert (part_of s text) as Hs by (eapply part_trans; [apply part_cons|done]).
  destruct (brackets_of c) as [[o cl]|]; [|by apply IH].
  destruct (scan_span _ _ _ _ _ _ _); [|by apply IH|done].
  destruct (parse_structured parse_json _) eqn:E; [|by apply IH]. intros [= <-].
  eapply parse_structured_read; [|done]. eapply part_trans; [apply part_substring|done].
Qed.

(** Whatever the reply looks like, the structured value extracted from it is an
    object or an array that some contiguous part of the reply spells out; the
    extraction makes nothing up.  A reply that is itself such a value, not
    fenced, is read whole. *)
Theorem extraction_reads_reply (text : string) :
  (∀ v, extract_structured_json parse_json text = Some v → read_from text v) ∧
  (∀ v, strip_prefix "```" (trim text) = None → parse_structured parse_json (trim text) = Some v →
     extract_structured_json parse_json text = Some v).
Proof.
  split.
  - intros v. unfold extract_structured_json, or_else, parse_llm_json, extract_fenced_json_block,
      extract_balanced_json.
    destruct (parse_structured parse_json _) eqn:E1.
    { intros [= <-]. eapply parse_structured_read; [|exact E1].
      destruct (strip_prefix "```" (trim text)) as [rest|] eqn:Es; [|apply trim_part].
      destruct (rfind_str "```" _); [|apply trim_part]. apply strip_prefix_part in Es.
      eapply part_trans; [apply trim_part|]. eapply part_trans; [apply part_substring|].
      eapply part_trans; [apply strip_json_tag_part|]. eapply part_trans; [exact Es|apply trim_part]. }
    destruct (find_str "```" (trim text) >>? _) eqn:E2; [intros [= <-]|by apply balanced_read, trim_part].
    apply and_then_Some in E2 as (n & _ & E2). apply and_then_Some in E2 as (close & _ & E2).
    eapply parse_structured_read; [|exact E2]. eapply part_trans; [apply trim_part|].
    eapply part_trans; [apply part_substring|]. eapply part_trans; [apply trim_part|].
    eapply part_trans; [apply strip_json_tag_part|]. eapply part_trans; [apply trim_part|].
    eapply part_trans; [apply part_drop|apply trim_part].
  - intros v Hs Hp. unfold extract_structured_json, parse_llm_json. by rewrite Hs, Hp.
Qed.
End ExtractFacts.

Lemma context_fence_unbreakable_witness :
  let pretty_json (_ : value) := "a ```` b ```" in
  let request := json_object [("input_context", Str "x")] in
  is_Some (input_context_block pretty_json request) ∧
  ∃ payload, 3 ≤ String.length (fence_for payload) ∧ ∀ p q, payload ≠ p +:+ fence_for payload +:+ q.
Proof.
  intros pretty_json request. split; [by eexists|].
  destruct (context_fence_unbreakable pretty_json request _ eq_refl)
    as (ctx & payload & _ & _ & _ & _ & Hno & Hlen). by exists payload.
Defined.
