(* ===== verification/Capability.v ===== *)
(** * Capability nodes

    The nodes of [crates/tinyflows/src/nodes/integration/] that act through a
    capability of the host: [output_parser.rs] and the validator [schema.rs] it
    shares with agents, [tool_call.rs], [http_request.rs], [code.rs],
    [shell.rs], [memory.rs] and [agent.rs] (whose request is assembled in
    [AgentRequest]), with the records of [caps/agent/outcome.rs] and
    [caps/shell.rs].

    A host is the record [CapHost].  It answers each call from the calls the same
    activation made before it, so its answers may depend on the history; a
    program over it is a [Hosted] computation, which returns the calls it made.
    The calls that fetch context while a request is assembled are the
    [ContextCall]s of [AgentRequest], logged like the others.  Under [per_item] execution each item's turn talks to a host
    of its own, which covers every dependence between concurrent turns. *)

From Stdlib Require Import SpecFloat.
From S2P Require Import Prelude Json GraphTypes Workflow WfAnalysis WfState WfActivation.
From S2P Require Import Text Expr Postcondition WfConfig ControlNodes AgentRequest MapItems.

(** ** Shell requests ([caps/shell.rs]) and agent outcomes ([outcome.rs]) *)

Inductive CodeLanguage := JavaScript | Python.

Inductive ShellInterpreter := Sh | Bash.
#[export] Instance ShellInterpreter_eq_dec : EqDecision ShellInterpreter.
Proof. solve_decision. Defined.

Definition interpreter_as_str (i : ShellInterpreter) : string :=
  match i with Sh => "sh" | Bash => "bash" end.
Definition interpreter_parse (name : string) : option ShellInterpreter :=
  if decide (name = "sh") then Some Sh
  else if decide (name = "bash") then Some Bash else None.

Inductive ShellScript := Inline (source : string) | ScriptPath (path : string).

Record ShellRequest := mkShell {
  sh_interpreter : ShellInterpreter;
  sh_script : ShellScript;
  sh_cwd : option string;
  sh_env : list (string * string);
  sh_input : value
}.
Record ShellOutcome := mkShellOutcome { so_exit_code : Z; so_stdout : string; so_stderr : string }.
Definition shell_success (o : ShellOutcome) : bool := bool_decide (so_exit_code o = 0%Z).

Inductive StopReason :=
| Finished
| LimitStop (limit : string)
| Paused (token : option string) (reason : string) (payload : value).

Definition stop_as_str (s : StopReason) : string :=
  match s with Finished => "finished" | LimitStop _ => "limit_stop" | Paused _ _ _ => "paused" end.

Record AgentUsage := mkUsage {
  us_input_tokens : option Z; us_output_tokens : option Z;
  us_steps : option Z; us_tool_calls : option Z
}.
Record AgentRunOutcome := mkAgentOutcome {
  ao_stop : StopReason;
  ao_text : option string;
  ao_json : value;
  ao_raw : value;
  ao_usage : option AgentUsage
}.

Definition outcome_finished (v : value) : AgentRunOutcome :=
  mkAgentOutcome Finished (text_of v) (structured_of v) v None.
Definition outcome_limit_stop (v : value) (limit : string) : AgentRunOutcome :=
  let o := outcome_finished v in
  mkAgentOutcome (LimitStop limit) (ao_text o) (ao_json o) (ao_raw o) (ao_usage o).
Definition outcome_paused (token : option string) (reason : string) (payload : value)
    : AgentRunOutcome :=
  let o := outcome_finished Null in
  mkAgentOutcome (Paused token reason payload) (ao_text o) (ao_json o) (ao_raw o) (ao_usage o).
Definition is_finished (o : AgentRunOutcome) : bool :=
  match ao_stop o with Finished => true | _ => false end.

(** ** Talking to the host *)

Inductive HostCall :=
| Complete (request : value) (conn : option string)
| InvokeTool (slug : string) (args : value) (conn : option string)
| HttpRequest (request : value) (conn : option string)
| RunCode (language : CodeLanguage) (source : string) (input : value)
| RunShell (request : ShellRequest)
| RunAgent (request : AgentRunRequest)
| FetchContext (call : ContextCall)
| Recall (scope query : string) (opts : value)
| Flavour (slug : string)
| People (query : option string)
| Remember (scope key : string) (v : value)
| Forget (scope key : string).

(** [None] where the host did not wire the optional capability.  The harness and
    the memory come with the functions [AgentRequest] fetches context through. *)
Record CapHost := mkHost {
  h_complete : list HostCall → value → option string → result EngineError value;
  h_invoke : list HostCall → string → value → option string → result EngineError value;
  h_http : list HostCall → value → option string → result EngineError value;
  h_code : list HostCall → CodeLanguage → string → value → result EngineError value;
  h_shell : option (list HostCall → ShellRequest → result EngineError ShellOutcome);
  h_agent : option (AgentRunner * (list HostCall → AgentRunRequest → result EngineError AgentRunOutcome));
  h_memory : option MemoryProvider;
  h_recall : list HostCall → string → string → value → result EngineError value;
  h_flavour : list HostCall → string → result EngineError value;
  h_people : list HostCall → option string → result EngineError value;
  h_remember : list HostCall → string → string → value → result EngineError unit;
  h_forget : list HostCall → string → string → result EngineError unit
}.

Definition Hosted (A : Type) : Type := list HostCall → list HostCall * result EngineError A.
Definition hret {A} (r : result EngineError A) : Hosted A := λ log, (log, r).
Definition hbind {A B} (m : Hosted A) (k : A → Hosted B) : Hosted B := λ log,
  match m log with
  | (log', Ok a) => k a log'
  | (log', Err e) => (log', Err e)
  end.
Notation "'let!' x := m 'in' k" := (hbind m (λ x, k))
  (at level 200, x name, m at level 100, k at level 200, right associativity) : tf_scope.

(** One call: it is logged, whatever the answer. *)
Definition ask {A} (c : HostCall) (answer : list HostCall → result EngineError A) : Hosted A :=
  λ log, (log ++ [c], answer log).

(** The calls an assembly made, and its result. *)
Definition fetched {A} (m : Assembly A) : Hosted A := λ log, (log ++ (FetchContext <$> m.1), m.2).

(** The calls and the result of a whole computation. *)
Definition hosted {A} (m : Hosted A) : list HostCall * result EngineError A := m [].

(** ** The validator ([schema.rs]) *)

(** [PartialEq] of [Value]: representations of numbers are compared apart,
    floats as IEEE numbers ([0.0 == -0.0]). *)
Definition number_eqb (a b : number) : bool :=
  match a, b with
  | PosInt n, PosInt m | NegInt n, NegInt m => bool_decide (n = m)
  | Float x, Float y => SFeqb x y
  | _, _ => false
  end.
Fixpoint json_eqb (v w : value) {struct v} : bool :=
  match v, w with
  | Null, Null => true
  | Bool a, Bool b => bool_decide (a = b)
  | Number a, Number b => number_eqb a b
  | Str a, Str b => bool_decide (a = b)
  | Array a, Array b =>
      (fix go (l k : list value) : bool :=
         match l, k with
         | [], [] => true
         | x :: l, y :: k => json_eqb x y && go l k
         | _, _ => false
         end) a b
  | Object a, Object b =>
      (fix go (l k : list (string * value)) : bool :=
         match l, k with
         | [], [] => true
         | (s, x) :: l, (t, y) :: k => bool_decide (s = t) && json_eqb x y && go l k
         | _, _ => false
         end) a b
  | _, _ => false
  end.

(** [f.fract() == 0.0]. *)
Definition whole_float (f : spec_float) : bool :=
  match f with
  | S754_zero _ => true
  | S754_finite _ m e => (0 <=? e)%Z || (Z.pos m mod 2 ^ (- e) =? 0)%Z
  | _ => false
  end.

Definition type_matches (ty : string) (v : value) : bool :=
  if decide (ty = "object") then is_object v
  else if decide (ty = "array") then is_array v
  else if decide (ty = "string") then bool_decide (is_Some (as_str v))
  else if decide (ty = "number") then match v with Number _ => true | _ => false end
  else if decide (ty = "integer") then
    is_i64 v || bool_decide (is_Some (as_u64 v)) ||
    match as_f64 v with Some f => whole_float f | None => false end
  else if decide (ty = "boolean") then bool_decide (is_Some (as_bool v))
  else if decide (ty = "null") then is_null v
  else true.

Definition type_name (v : value) : string :=
  match v with
  | Null => "null" | Bool _ => "boolean" | Number _ => "number" | Str _ => "string"
  | Array _ => "array" | Object _ => "object"
  end.

(** The types a [type] keyword lists. *)
Definition listed_types (ty : value) : list string :=
  match ty with
  | Str s => [s]
  | Array l => omap as_str l
  | _ => []
  end.

Definition enum_errors (path : string) (v : value) (schema : list (string * value)) : list string :=
  match obj_get "enum" schema with
  | Some (Array allowed) =>
      if existsb (λ a, json_eqb a v) allowed then []
      else [path +:+ ": value is not one of the allowed `enum` values"]
  | _ => []
  end.

Definition required_errors (path : string) (m : list (string * value)) (schema : list (string * value))
    : list string :=
  match obj_get "required" schema with
  | Some (Array required) =>
      omap (λ name, match obj_get name m with
                    | Some _ => None
                    | None => Some (path +:+ ": missing required property `" +:+ name +:+ "`")
                    end) (omap as_str required)
  | _ => []
  end.

(** Looks a key up among checks labelled like the fields they belong to. *)
Fixpoint assoc {A} (k : string) (l : list (string * A)) : option A :=
  match l with
  | [] => None
  | (k', a) :: l => if decide (k = k') then Some a else assoc k l
  end.

Section Validator.
Context (f : Fmt).

(** Whether the [type] keyword rejects the value, which stops the checks. *)
Definition type_error (path : string) (v : value) (schema : list (string * value)) : option string :=
  match obj_get "type" schema with
  | Some ty =>
      let types := listed_types ty in
      if decide (types = []) then None
      else if existsb (λ t, type_matches t v) types then None
      else Some (path +:+ ": expected type " +:+ debug_list f types +:+ ", got `" +:+
                 type_name v +:+ "`")
  | None => None
  end.

Fixpoint validate_at (v : value) (path : string) (schema : value) {struct v} : list string :=
  match schema with
  | Object s =>
      enum_errors path v s ++
      match type_error path v s with
      | Some e => [e]
      | None =>
          match v with
          | Object m =>
              let checks := map (λ kc, (kc.1, validate_at kc.2)) m in
              required_errors path m s ++
              match obj_get "properties" s with
              | Some (Object props) =>
                  props ≫= (λ kp,
                    match assoc kp.1 checks with
                    | Some check => check (path +:+ "." +:+ kp.1) kp.2
                    | None => []
                    end)
              | _ => []
              end
          | Array l =>
              match obj_get "items" s with
              | Some items =>
                  concat (imap (λ i check, check (path +:+ "[" +:+ pretty i +:+ "]") items)
                            (map validate_at l))
              | None => []
              end
          | _ => []
          end
      end
  | _ => []
  end.

(** [validate] of [schema.rs]. *)
Definition validate_json (v schema : value) : list string := validate_at v "$" schema.

Definition parse_and_validate (h : CapHost) (v schema : value) (auto_fix : bool) (conn : option string)
    : Hosted value :=
  match validate_json v schema with
  | [] => hret (Ok v)
  | errors =>
      if auto_fix then
        let request := json_object [("task", Str "coerce_to_schema"); ("schema", schema);
                                    ("value", v); ("errors", json_strings errors)] in
        let! response := ask (Complete request conn) (λ log, h_complete h log request conn) in
        let fixed := default response (get "value" response) in
        match validate_json fixed schema with
        | [] => hret (Ok fixed)
        | remaining =>
            hret (Err (ECapability
              ("output_parser: value failed schema validation after auto-fix: " +:+
               join_with "; " remaining)))
        end
      else
        hret (Err (ECapability
          ("output_parser: value failed schema validation: " +:+ join_with "; " errors)))
  end.

(** ** [output_parser.rs] *)

Fixpoint parse_items (h : CapHost) (schema : value) (auto_fix : bool) (conn : option string)
    (items : list Item) : Hosted (list Item) :=
  match items with
  | [] => hret (Ok [])
  | item :: items =>
      let! validated := parse_and_validate h (it_json item) schema auto_fix conn in
      let! rest := parse_items h schema auto_fix conn items in
      hret (Ok (item_new validated :: rest))
  end.

Definition execute_output_parser (h : CapHost) (c : ExecContext) : Hosted NodeOutput :=
  let cfg := nd_config (ec_node c) in
  match get "schema" cfg with
  | Some schema =>
      if is_null schema then hret (Ok (output_main (ec_input c)))
      else
        let! out := parse_items h schema (default true (get "auto_fix" cfg >>? as_bool))
                      (get "connection_ref" cfg >>? as_str) (ec_input c) in
        hret (Ok (output_main out))
  | None => hret (Ok (output_main (ec_input c)))
  end.
End Validator.

(** ** One activation, once or per item *)

Section Nodes.
Context (f : Fmt) (jq : string → value → option value).

(** An activation runs [turn] once against the first item's scope, or, when
    [per_item], once per item against that item's scope.  The result lists the
    calls of each turn (under [fail_fast] a turn may be dropped before it made
    all of its own). *)
Definition per_item_of (dflt : ExecutionMode) (c : ExecContext) : bool :=
  bool_decide (execution_mode (nd_config (ec_node c)) dflt = PerItem ∧ ec_input c ≠ []).

Definition once_scope (c : ExecContext) : value * value :=
  (resolve jq (nd_config (ec_node c)) (expr_scope c), expr_scope c).
Definition item_scope (c : ExecContext) (item : value) : value * value :=
  (resolve jq (nd_config (ec_node c)) (expr_scope_for c item), expr_scope_for c item).
Definition item_at (c : ExecContext) (i : nat) : value :=
  match ec_input c !! i with Some item => it_json item | None => Null end.

Definition turn_at (turn : CapHost → value → value → option nat → Hosted Item) (hosts : nat → CapHost)
    (c : ExecContext) (i : nat) : list HostCall * result EngineError Item :=
  let '(cfg, scope) := item_scope c (item_at c i) in hosted (turn (hosts i) cfg scope (Some i)).

Definition execute_turns (dflt : ExecutionMode)
    (turn : CapHost → value → value → option nat → Hosted Item)
    (hosts : nat → CapHost) (order : list nat) (c : ExecContext)
    : list (list HostCall) * result EngineError NodeOutput :=
  if per_item_of dflt c then
    let total := length (ec_input c) in
    let opts := map_options (nd_config (ec_node c)) (ec_run c) in
    let body i := let? item := (turn_at turn hosts c i).2 in
                  Ok (item, (resolve_traced jq (nd_config (ec_node c))
                               (expr_scope_for c (item_at c i))).2) in
    ((λ i, (turn_at turn hosts c i).1) <$> seq 0 total,
     let? out := map_items f (mo_on_item_error opts) body total order in
     Ok (output_main out.1))
  else
    let '(cfg, scope) := once_scope c in
    let '(log, r) := hosted (turn (hosts 0) cfg scope None) in
    ([log], let? item := r in Ok (output_main [item])).

Definition enveloped (m : Hosted value) : Hosted Item :=
  let! v := m in hret (Ok (item_new (wrap v))).

(** ** [tool_call.rs], [http_request.rs], [code.rs] *)

Definition invoke_tool (h : CapHost) (cfg : value) : Hosted value :=
  match get "slug" cfg >>? as_str with
  | None => hret (Err (ECapability "tool_call node: missing `slug` in config"))
  | Some slug =>
      let args := default Null (get "args" cfg) in
      let conn := get "connection_ref" cfg >>? as_str in
      ask (InvokeTool slug args conn) (λ log, h_invoke h log slug args conn)
  end.

Definition execute_tool_call :=
  execute_turns PerItem (λ h cfg _ _, enveloped (invoke_tool h cfg)).

Definition http_call (h : CapHost) (cfg : value) : Hosted value :=
  let conn := get "connection_ref" cfg >>? as_str in
  ask (HttpRequest cfg conn) (λ log, h_http h log cfg conn).

Definition execute_http_request :=
  execute_turns PerItem (λ h cfg _ _, enveloped (http_call h cfg)).

Definition code_language (config : value) : CodeLanguage :=
  if decide (get "language" config >>? as_str = Some "python") then Python else JavaScript.

Definition execute_code (h : CapHost) (c : ExecContext) : Hosted NodeOutput :=
  let config := nd_config (ec_node c) in
  let language := code_language config in
  let source := default "" (get "source" config >>? as_str) in
  let input := items_to_value (ec_input c) in
  let! v := ask (RunCode language source input) (λ log, h_code h log language source input) in
  hret (Ok (output_main [item_new v])).

(** ** [shell.rs] *)

Definition interpreter_of (config : value) : result EngineError ShellInterpreter :=
  match get "interpreter" config with
  | None => Ok Sh
  | Some named =>
      let? named := ok_or (as_str named) (ECapability "shell: config.interpreter must be a string") in
      ok_or (interpreter_parse named)
        (ECapability ("shell: unsupported interpreter '" +:+ named +:+ "'; expected 'sh' or 'bash'"))
  end.

Definition non_empty_text (v : value) (not_string blank : string) : result EngineError string :=
  let? s := ok_or (as_str v) (ECapability not_string) in
  if decide (trim s = "") then Err (ECapability blank) else Ok s.

Definition script_of (config : value) : result EngineError ShellScript :=
  match get "source" config, get "script_path" config with
  | Some _, Some _ =>
      Err (ECapability "shell: set config.source or config.script_path, not both")
  | Some source, None =>
      let? s := non_empty_text source "shell: config.source must be a string"
                  "shell: config.source must be a non-empty script" in Ok (Inline s)
  | None, Some path =>
      let? s := non_empty_text path "shell: config.script_path must be a string"
                  "shell: config.script_path must be a non-empty path" in Ok (ScriptPath s)
  | None, None =>
      Err (ECapability
        "shell: config.source (inline script) or config.script_path (script file) is required")
  end.

Definition cwd_of (config : value) : result EngineError (option string) :=
  match get "cwd" config with
  | None => Ok None
  | Some cwd =>
      let? s := non_empty_text cwd "shell: config.cwd must be a string"
                  "shell: config.cwd must be a non-empty path when present" in Ok (Some s)
  end.

Definition kind_of (v : value) : string :=
  match v with
  | Null => "null" | Bool _ => "a boolean" | Number _ => "a number" | Str _ => "a string"
  | Array _ => "an array" | Object _ => "an object"
  end.

Definition env_of (config : value) : result EngineError (list (string * string)) :=
  match get "env" config with
  | None => Ok []
  | Some env =>
      let? fields := ok_or (as_object env)
                       (ECapability "shell: config.env must be an object of strings") in
      fold_result (λ acc nv,
        match as_str nv.2 with
        | Some s => Ok (acc ++ [(nv.1, s)])
        | None => Err (ECapability ("shell: config.env." +:+ nv.1 +:+ " must be a string, not " +:+
                                    kind_of nv.2))
        end) [] fields
  end.

Definition STDERR_TAIL_LIMIT : nat := 2000.
(** The last [limit] characters, an ellipsis before them when some are cut. *)
Definition tail_chars (text : string) (limit : nat) : string :=
  let text := trim text in
  let chars := utf8_chars text in
  if decide (length chars ≤ limit) then text
  else "…" +:+ join_with "" (drop (length chars - limit) chars).

Definition execute_shell (parse_json : string → option value) (h : CapHost) (c : ExecContext)
    : Hosted NodeOutput :=
  match h_shell h with
  | None =>
      hret (Err (ECapability
        "shell: this host has no shell capability, so `shell` nodes cannot run"))
  | Some run =>
      let config := (once_scope c).1 in
      let request : result EngineError ShellRequest :=
        let? interpreter := interpreter_of config in
        let? script := script_of config in
        let? cwd := cwd_of config in
        let? env := env_of config in
        Ok (mkShell interpreter script cwd env (items_to_value (ec_input c))) in
      let! request := hret request in
      let! outcome := ask (RunShell request) (λ log, run log request) in
      if shell_success outcome then
        hret (Ok (output_main [item_new (json_object
          [("exit_code", value_of_i64 (so_exit_code outcome)); ("stdout", Str (so_stdout outcome));
           ("stderr", Str (so_stderr outcome));
           ("stdout_json", default Null (parse_json (trim (so_stdout outcome))))])]))
      else
        hret (Err (ECapability
          ("shell: script exited with status " +:+ pretty (so_exit_code outcome) +:+ ": " +:+
           tail_chars (so_stderr outcome) STDERR_TAIL_LIMIT)))
  end.

(** ** [memory.rs] *)

Definition insert_opt (key : string) (v : option value) (m : list (string * value))
    : list (string * value) :=
  match v with Some v => obj_insert key v m | None => m end.

Definition recall_query (operation : string) (cfg : value) : value :=
  Object (insert_opt "min_score" (get "min_score" cfg)
           (insert_opt "limit" (get "limit" cfg) [("operation", Str operation)])).

Definition write_guard {A} (operation scope : string) (k : Hosted A) : Hosted A :=
  if decide (scope = "flow") then k
  else hret (Err (ECapability ("memory node: `" +:+ operation +:+ "` may only write scope " +:+
               quoted "flow" +:+ ", got " +:+ fmt_debug f scope))).

Definition required_str (cfg : value) (key message : string) : Hosted string :=
  hret (ok_or (get key cfg >>? as_str) (ECapability message)).

Definition call_provider (h : CapHost) (cfg : value) : Hosted value :=
  match h_memory h with
  | None =>
      hret (Err (ECapability "memory node: host has not wired a MemoryProvider capability"))
  | Some _ =>
      let! operation := required_str cfg "operation" "memory node: missing `operation` in config" in
      let scope := default "" (get "scope" cfg >>? as_str) in
      if decide (operation = "recall" ∨ operation = "search") then
        let! query := required_str cfg "query"
                        ("memory node: `" +:+ operation +:+ "` operation requires `query`") in
        let opts := recall_query operation cfg in
        ask (Recall scope query opts) (λ log, h_recall h log scope query opts)
      else if decide (operation = "flavour") then
        let! slug := required_str cfg "flavour"
                       "memory node: `flavour` operation requires `flavour` (slug)" in
        ask (Flavour slug) (λ log, h_flavour h log slug)
      else if decide (operation = "people") then
        let query := get "query" cfg >>? as_str in
        ask (People query) (λ log, h_people h log query)
      else if decide (operation = "remember") then
        write_guard operation scope (
          let! key := required_str cfg "key" "memory node: `remember` operation requires `key`" in
          let! v := hret (ok_or (get "value" cfg)
                      (ECapability "memory node: `remember` operation requires `value`")) in
          let! _ := ask (Remember scope key v) (λ log, h_remember h log scope key v) in
          hret (Ok (json_object [("ok", Bool true); ("operation", Str "remember"); ("key", Str key)])))
      else if decide (operation = "forget") then
        write_guard operation scope (
          let! key := required_str cfg "key" "memory node: `forget` operation requires `key`" in
          let! _ := ask (Forget scope key) (λ log, h_forget h log scope key) in
          hret (Ok (json_object [("ok", Bool true); ("operation", Str "forget"); ("key", Str key)])))
      else
        hret (Err (ECapability ("memory node: unknown operation " +:+ fmt_debug f operation)))
  end.

Definition execute_memory :=
  execute_turns PerItem (λ h cfg _ _, enveloped (call_provider h cfg)).

(** ** [agent.rs] *)

Definition output_parser_of (cfg : value) (conn : option string)
    : option (value * bool * option string) :=
  match get "output_parser" cfg with
  | Some parser =>
      if is_null parser then None
      else match get "schema" parser with
           | Some schema =>
               if is_null schema then None
               else Some (schema, default true (get "auto_fix" parser >>? as_bool),
                          or_else (get "connection_ref" parser >>? as_str) conn)
           | None => None
           end
  | None => None
  end.

Definition parse_output (h : CapHost) (cfg : value) (conn : option string) (v : value) : Hosted value :=
  match output_parser_of cfg conn with
  | Some (schema, auto_fix, parser_conn) => parse_and_validate f h v schema auto_fix parser_conn
  | None => hret (Ok v)
  end.

(** [meta[key] = v]. *)
Definition set_key (key : string) (v : value) (meta : value) : value :=
  match meta with Object m => Object (obj_insert key v m) | _ => meta end.

Definition usage_value (u : AgentUsage) : value :=
  let count (key : string) (n : option Z) := insert_opt key ((λ n, Number (PosInt n)) <$> n) in
  Object (count "tool_calls" (us_tool_calls u) (count "steps" (us_steps u)
           (count "output_tokens" (us_output_tokens u)
             (count "input_tokens" (us_input_tokens u) [])))).

Definition agent_meta (agent_ref : string) (o : AgentRunOutcome) : value :=
  let meta := json_object [("stop", Str (stop_as_str (ao_stop o))); ("agent_ref", Str agent_ref)] in
  let meta := match ao_stop o with LimitStop limit => set_key "limit" (Str limit) meta | _ => meta end in
  match ao_usage o with Some u => set_key "usage" (usage_value u) meta | None => meta end.

Definition finish_agent_run (h : CapHost) (node_id : string) (cfg : value) (conn : option string)
    (agent_ref : string) (o : AgentRunOutcome) : Hosted Item :=
  match ao_stop o with
  | Paused _ reason _ =>
      hret (Err (ECapability ("agent node " +:+ node_id +:+ ": agent `" +:+ agent_ref +:+
        "` paused (" +:+ reason +:+ "); resuming a paused agent is not supported yet, so the run " +:+
        "cannot continue")))
  | _ =>
      let! v := if is_finished o then parse_output h cfg conn (ao_json o) else hret (Ok (ao_json o)) in
      hret (Ok (item_new (envelope_parts_with_meta (structured_of v) (ao_text o) (ao_raw o)
                            (agent_meta agent_ref o))))
  end.

Definition block_value (b : ContextBlock) : value :=
  let m := [("label", Str (cb_label b)); ("source_kind", Str (cb_source_kind b))] in
  let m := insert_opt "text" (Str <$> cb_text b) m in
  Object (if is_null (cb_data b) then m else obj_insert "data" (cb_data b) m).

Section AgentNode.
Context (sd : Serde) (fs : Fs).

(** The completion request of the path without a harness: the configuration,
    its declared context replaced by the resolved blocks and its working
    directory checked and written back. *)
Definition completion_request (h : CapHost) (c : ExecContext) (cfg : value) (item_index : option nat)
    : Assembly value :=
  let node_id := nd_id (ec_node c) in
  let runner := fst <$> h_agent h in
  let+ request :=
    match get "context" cfg with
    | Some raw =>
        if is_null raw then assembled (Ok cfg)
        else
          match de_sources sd raw with
          | Err e => assembled (Err (ECapability ("agent node " +:+ node_id +:+ ": invalid `context`: " +:+ e)))
          | Ok sources =>
              let+ blocks := resolve_context f runner (h_memory h) (ec_input c)
                               (identity_of c item_index) sources in
              assembled (Ok (set_key "context" (Array (block_value <$> blocks)) cfg))
          end
    | None => assembled (Ok cfg)
    end in
  let+ declared := assembled (declared_working_dir cfg node_id) in
  match declared with
  | Some raw =>
      let key := match get "cwd" cfg with Some _ => "cwd" | None => "working_dir" end in
      let+ dir := resolve_agent_dir fs runner (ec_run c) raw ("config." +:+ key)
                    ("agent node " +:+ node_id) in
      assembled (Ok (set_key "working_dir" (Str dir) (set_key "cwd" (Str dir) request)))
  | None => assembled (Ok request)
  end.

(** The tool the response elects, when it is one of the offered ones: its slug,
    the arguments and the connection of the offer, else of the node. *)
Definition offered_tool (cfg : value) (slug : string) : option value :=
  get "tools" cfg >>? as_array >>? λ tools,
    list_find (λ t, get "slug" t >>? as_str = Some slug) tools >>? λ found, Some found.2.

Definition elected_tool (cfg response : value) (conn : option string)
    : option (string * value * option string) :=
  get "tool_call" response >>? λ tool_call,
  get "slug" tool_call >>? as_str >>? λ slug,
  offered_tool cfg slug >>? λ tool,
  Some (slug, default Null (get "args" tool_call),
        or_else (get "connection_ref" tool >>? as_str) conn).

Definition tool_hop (h : CapHost) (cfg response : value) (conn : option string) : Hosted value :=
  match elected_tool cfg response conn with
  | Some (slug, args, tool_conn) =>
      let! r := ask (InvokeTool slug args tool_conn) (λ log, h_invoke h log slug args tool_conn) in
      hret (Ok (set_key "tool_result" r response))
  | None => hret (Ok response)
  end.

Definition run_turn_indexed (c : ExecContext) (h : CapHost) (cfg scope : value) (item_index : option nat)
    : Hosted Item :=
  let conn := get "connection_ref" cfg >>? as_str in
  match agent_ref_of cfg, h_agent h with
  | Some agent_ref, Some (runner, run) =>
      let! request := fetched (assemble f jq sd fs (Some runner) (h_memory h) c cfg agent_ref scope
                                 item_index) in
      let! outcome := ask (RunAgent request) (λ log, run log request) in
      finish_agent_run h (nd_id (ec_node c)) cfg conn agent_ref outcome
  | _, _ =>
      let! request := fetched (completion_request h c cfg item_index) in
      let! response := ask (Complete request conn) (λ log, h_complete h log request conn) in
      let! v := tool_hop h cfg response conn in
      let! v := parse_output h cfg conn v in
      hret (Ok (item_new (envelope_parts (structured_of v) (text_of response) response)))
  end.

Definition execute_agent (hosts : nat → CapHost) (order : list nat) (c : ExecContext)
    : list (list HostCall) * result EngineError NodeOutput :=
  execute_turns Once (run_turn_indexed c) hosts order c.
End AgentNode.
End Nodes.
