(* ===== verification/CapabilityTheorems.v ===== *)
(** * Guarantees of the capability nodes

    The validator accepts exactly the values that conform to the schema, an
    output parser emits only such values and asks the model at most once per
    item, and an agent turn acts on the host only as its configuration allows,
    whatever the model answers. *)

From Stdlib Require Import SpecFloat.
From S2P Require Import Prelude Json GraphTypes Workflow WfAnalysis WfState WfActivation.
From S2P Require Import WfSamples Text Expr Postcondition WfConfig ConfigTheorems ControlNodes.
From S2P Require Import AgentRequest MapItems Capability.

(** ** What the supported subset of JSON Schema means *)

(** A number without a fractional part: a float [m * 2 ^ e] that is some
    integer. *)
Inductive integral : number → Prop :=
| integral_pos n : integral (PosInt n)
| integral_neg n : integral (NegInt n)
| integral_zero s : integral (Float (S754_zero s))
| integral_finite s m e z :
    (Z.pos m * 2 ^ Z.max e 0 = z * 2 ^ Z.max (- e) 0)%Z → integral (Float (S754_finite s m e)).

(** The values of each type; a name the subset does not know constrains
    nothing. *)
Inductive has_type : string → value → Prop :=
| type_object m : has_type "object" (Object m)
| type_array l : has_type "array" (Array l)
| type_string s : has_type "string" (Str s)
| type_number n : has_type "number" (Number n)
| type_integer n : integral n → has_type "integer" (Number n)
| type_boolean b : has_type "boolean" (Bool b)
| type_null : has_type "null" Null
| type_unknown t v :
    t ∉ ["object"; "array"; "string"; "number"; "integer"; "boolean"; "null"] → has_type t v.

(** A [type] keyword names one type or lists some. *)
Definition names_type (ty : value) (t : string) : Prop :=
  ty = Str t ∨ ∃ l, ty = Array l ∧ Str t ∈ l.

(** Equality of JSON values: floats as IEEE numbers, integers by value, and no
    integer equals a float. *)
Inductive json_eq : value → value → Prop :=
| eq_null : json_eq Null Null
| eq_bool b : json_eq (Bool b) (Bool b)
| eq_pos n : json_eq (Number (PosInt n)) (Number (PosInt n))
| eq_neg n : json_eq (Number (NegInt n)) (Number (NegInt n))
| eq_float x y : SFeqb x y = true → json_eq (Number (Float x)) (Number (Float y))
| eq_str s : json_eq (Str s) (Str s)
| eq_array l k : Forall2 json_eq l k → json_eq (Array l) (Array k)
| eq_object m n : Forall2 (λ p q, p.1 = q.1 ∧ json_eq p.2 q.2) m n → json_eq (Object m) (Object n).

(** [conforms v schema]: the keywords the subset knows hold of the value, and
    of its parts the subschemas that are declared for them.  A schema that is
    no object accepts everything. *)
Inductive conforms : value → value → Prop :=
| conforms_any v schema : is_object schema = false → conforms v schema
| conforms_schema v s :
    (∀ allowed, obj_get "enum" s = Some (Array allowed) → ∃ a, a ∈ allowed ∧ json_eq a v) →
    (∀ ty t, obj_get "type" s = Some ty → names_type ty t → ∃ t', names_type ty t' ∧ has_type t' v) →
    (∀ m required name, v = Object m → obj_get "required" s = Some (Array required) →
       Str name ∈ required → is_Some (obj_get name m)) →
    (∀ m props key sub child, v = Object m → obj_get "properties" s = Some (Object props) →
       (key, sub) ∈ props → obj_get key m = Some child → conforms child sub) →
    (∀ l items child, v = Array l → obj_get "items" s = Some items → child ∈ l →
       conforms child items) →
    conforms v (Object s).

(** *** The validator's own tests decide these *)

Lemma whole_float_integral x : whole_float x = true ↔ integral (Float x).
Proof.
  destruct x as [s|s| |s m e]; cbn; try (split; [done|by inversion 1]); [split; [constructor|done]|].
  rewrite orb_true_iff, Z.leb_le, Z.eqb_eq. split.
  - intros [He|Hm].
    + apply (integral_finite s m e (Z.pos m * 2 ^ e)). rewrite Z.max_l, Z.max_r by lia. by rewrite Z.mul_1_r.
    + destruct (Z.le_gt_cases 0 e) as [He|He].
      { apply (integral_finite s m e (Z.pos m * 2 ^ e)). rewrite Z.max_l, Z.max_r by lia. by rewrite Z.mul_1_r. }
      apply Z.mod_divide in Hm as [z Hz]; [|apply Z.pow_nonzero; lia].
      apply (integral_finite s m e z). rewrite Z.max_r, Z.max_l by lia. by rewrite Z.mul_1_r.
  - inversion 1 as [| | |? ? ? z Hz]; subst. destruct (Z.le_gt_cases 0 e) as [He|He]; [by left|right].
    rewrite Z.max_r, Z.max_l, Z.mul_1_r in Hz by lia. rewrite Hz. apply Z.mod_mul. apply Z.pow_nonzero; lia.
Qed.

Lemma type_matches_has_type t v : type_matches t v = true ↔ has_type t v.
Proof.
  unfold type_matches. repeat (destruct (decide (t = _)) as [->|?]).
  1-4,6-7: by (split; [destruct v; (done || by constructor)|by inversion 1; subst; set_solver]).
  - destruct v as [| |num| | |]; try (split; [done|by inversion 1; subst; set_solver]).
    transitivity (integral num); [|split; [by constructor|inversion 1; subst; [done|set_solver]]].
    destruct num as [z|z|x]; cbn [is_i64 as_i64 as_u64 as_f64].
    + split; [constructor|intros _]. by rewrite (bool_decide_eq_true_2 (is_Some (Some z))), orb_true_r by by eexists.
    + split; [constructor|done].
    + rewrite <- whole_float_integral. unfold is_i64. cbn. by destruct (whole_float x).
  - split; [intros _; apply type_unknown; set_solver|done].
Qed.

Lemma names_type_listed ty t : t ∈ listed_types ty ↔ names_type ty t.
Proof.
  unfold names_type. destruct ty as [| | |s|l|]; cbn; try (rewrite elem_of_nil; naive_solver).
  - rewrite list_elem_of_singleton. naive_solver.
  - rewrite list_elem_of_omap. split.
    + intros (v & Hv & Hs). destruct v; try done. injection Hs as ->. eauto.
    + intros [[=]|(? & [= <-] & Hin)]. by exists (Str t).
Qed.

Lemma number_eqb_eq a b : number_eqb a b = true ↔ json_eq (Number a) (Number b).
Proof.
  destruct a, b; cbn; try (split; [done|by inversion 1]); rewrite ?bool_decide_eq_true;
    (split; [intros; subst; by constructor|by inversion 1; subst]).
Qed.

Lemma json_eqb_eq v w : json_eqb v w = true ↔ json_eq v w.
Proof.
  revert w. induction v as [| | | |l IH|m IH] using value_ind_nested; intros w; destruct w as [| | | |k|m'];
    try (split; [done|by inversion 1]).
  - split; [constructor|done].
  - cbn. rewrite bool_decide_eq_true. split; [intros ->; constructor|by inversion 1].
  - apply number_eqb_eq.
  - cbn. rewrite bool_decide_eq_true. split; [intros ->; constructor|by inversion 1].
  - transitivity (Forall2 json_eq l k); [|split; [by constructor|by inversion 1]].
    revert k. induction IH as [|v l Hv _ IHl]; intros [|w k]; cbn; try (split; [done|by inversion 1]).
    rewrite andb_true_iff, Hv, Forall2_cons. by rewrite <- IHl.
  - transitivity (Forall2 (λ p q, p.1 = q.1 ∧ json_eq p.2 q.2) m m'); [|split; [by constructor|by inversion 1]].
    revert m'. induction IH as [|[s v] m Hv _ IHm]; intros [|[s' w] m']; cbn; try (split; [done|by inversion 1]).
    rewrite !andb_true_iff, bool_decide_eq_true, Hv, Forall2_cons. cbn. by rewrite <- IHm.
Qed.

Lemma enum_errors_nil path v s :
  enum_errors path v s = [] ↔
  ∀ allowed, obj_get "enum" s = Some (Array allowed) → ∃ a, a ∈ allowed ∧ json_eq a v.
Proof.
  setoid_rewrite <- json_eqb_eq. unfold enum_errors. destruct (obj_get "enum" s) as [[]|]; try (split; [by intros _ ? [=]|done]).
  destruct (existsb _ items) eqn:E.
  - apply existsb_elem in E. split; [|done]. by intros _ ? [= <-].
  - split; [done|]. intros H. specialize (H _ eq_refl). apply existsb_elem in H. congruence.
Qed.

Lemma type_error_None f path v s :
  type_error f path v s = None ↔
  ∀ ty t, obj_get "type" s = Some ty → names_type ty t → ∃ t', names_type ty t' ∧ has_type t' v.
Proof.
  setoid_rewrite <- names_type_listed. setoid_rewrite <- type_matches_has_type.
  unfold type_error. destruct (obj_get "type" s) as [ty|]; [|split; [naive_solver|done]].
  case_decide as Hnil; [split; [intros _ ? t [= <-]; rewrite Hnil; by intros ?%elem_of_nil|done]|].
  destruct (existsb _ _) eqn:E.
  - apply existsb_elem in E. split; [|done]. by intros _ ? t [= <-] _.
  - split; [done|]. intros H. destruct (listed_types ty) as [|t ts] eqn:El; [done|].
    destruct (H ty t eq_refl) as (t' & Ht'); [rewrite El; left|]. rewrite El in Ht'.
    assert (existsb (λ t, type_matches t v) (t :: ts) = true) by (apply existsb_elem; eauto). congruence.
Qed.

Lemma omap_nil {A B} (g : A → option B) l : omap g l = [] ↔ ∀ x, x ∈ l → g x = None.
Proof.
  induction l as [|x l IH]; [set_solver|]. cbn. destruct (g x) eqn:E.
  - split; [done|]. intros H. specialize (H x). rewrite E in H. by discriminate H; left.
  - rewrite IH. set_solver.
Qed.

Lemma bind_nil {A B} (g : A → list B) l : l ≫= g = [] ↔ ∀ x, x ∈ l → g x = [].
Proof.
  induction l as [|x l IH]; [set_solver|]. cbn. rewrite app_nil. fold (l ≫= g). rewrite IH. set_solver.
Qed.

Lemma concat_empty {A} (l : list (list A)) : concat l = [] ↔ ∀ x, x ∈ l → x = [].
Proof. induction l as [|x l IH]; cbn; [set_solver|]. rewrite app_nil, IH. set_solver. Qed.

Lemma required_errors_nil path m s :
  required_errors path m s = [] ↔
  ∀ required name, obj_get "required" s = Some (Array required) → Str name ∈ required →
    is_Some (obj_get name m).
Proof.
  unfold required_errors. destruct (obj_get "required" s) as [[]|]; try (split; [naive_solver|done]).
  rewrite omap_nil. setoid_rewrite list_elem_of_omap. split.
  - intros H ? name [= <-] Hin. specialize (H name). destruct (obj_get name m); [done|].
    discriminate H. by exists (Str name).
  - intros H name (v & Hin & Hv). destruct v; try done. injection Hv as ->.
    by destruct (H _ _ eq_refl Hin) as [x ->].
Qed.

Lemma assoc_map {B} (g : value → B) k (m : list (string * value)) :
  assoc k (map (λ kc, (kc.1, g kc.2)) m) = g <$> obj_get k m.
Proof. induction m as [|[k' v] m IH]; cbn; [done|]. by case_decide. Qed.

(** One level of the validator, its children by the validator itself. *)
Lemma validate_at_nil f v path s :
  validate_at f v path (Object s) = [] ↔
  enum_errors path v s = [] ∧ type_error f path v s = None ∧
  match v with
  | Object m =>
      required_errors path m s = [] ∧
      ∀ props key sub child, obj_get "properties" s = Some (Object props) → (key, sub) ∈ props →
        obj_get key m = Some child → validate_at f child (path +:+ "." +:+ key) sub = []
  | Array l =>
      ∀ items i child, obj_get "items" s = Some items → l !! i = Some child →
        validate_at f child (path +:+ "[" +:+ pretty i +:+ "]") items = []
  | _ => True
  end.
Proof.
  assert (validate_at f v path (Object s) = enum_errors path v s ++
    match type_error f path v s with
    | Some e => [e]
    | None =>
      match v with
      | Object m =>
          required_errors path m s ++
          match obj_get "properties" s with
          | Some (Object props) =>
              props ≫= (λ kp, match assoc kp.1 (map (λ kc, (kc.1, validate_at f kc.2)) m) with
                              | Some check => check (path +:+ "." +:+ kp.1) kp.2
                              | None => []
                              end)
          | _ => []
          end
      | Array l =>
          match obj_get "items" s with
          | Some items =>
              concat (imap (λ i check, check (path +:+ "[" +:+ pretty i +:+ "]") items)
                        (map (validate_at f) l))
          | None => []
          end
      | _ => []
      end
    end) as -> by (destruct v; reflexivity).
  rewrite app_nil. apply and_iff_compat_l.
  destruct (type_error f path v s) eqn:Et; [split; [done|by intros [? _]]|].
  destruct v as [| | | |l|m]; try (split; [by intros _; split_and!|done]).
  - destruct (obj_get "items" s) as [items|]; [|split; [by intros _; split_and!|done]].
    rewrite concat_empty. split.
    + intros H. split; [done|]. intros ? i child [= <-] Hi. apply H.
      apply list_elem_of_lookup. exists i. rewrite list_lookup_imap, list_lookup_fmap, Hi. done.
    + intros [_ H] x Hx. apply list_elem_of_lookup in Hx as [i Hi].
      rewrite list_lookup_imap, list_lookup_fmap in Hi.
      destruct (l !! i) as [child|] eqn:El; [|done]. injection Hi as <-. by apply H.
  - rewrite app_nil. split.
    + intros [Hr H]. split_and!; [done..|]. intros props key sub child Hp Hin Hc. rewrite Hp in H.
      rewrite bind_nil in H. specialize (H _ Hin). cbn in H. by rewrite assoc_map, Hc in H.
    + intros (_ & Hr & H). split; [done|].
      destruct (obj_get "properties" s) as [[]|]; try done. apply bind_nil. intros [key sub] Hin. cbn.
      rewrite assoc_map. destruct (obj_get key m) as [child|] eqn:Hc; [|done]. cbn. by eapply H.
Qed.

(** The path only decorates the messages. *)
Lemma validate_at_conforms f v path schema : validate_at f v path schema = [] ↔ conforms v schema.
Proof.
  revert path schema. induction v as [| | | |l IH|m IH] using value_ind_nested; intros path schema;
    (destruct schema as [| | | | |sc]; [split; [by intros _; apply conforms_any|done]..|]);
    rewrite validate_at_nil, enum_errors_nil, type_error_None;
    (split; [intros (He & Ht & H); apply conforms_schema; try done
            |intros Hc; inversion Hc as [? ? Hno|? ? He Ht Hr Hp Hi]; subst; [done|split_and!; try done]]).
  - intros ? items child [= <-] Hit [i Hi]%list_elem_of_lookup.
    rewrite Forall_lookup in IH. rewrite <- (IH i child Hi). by apply H.
  - intros items i child Hit Hl. rewrite Forall_lookup in IH. apply (IH i child Hl).
    eapply Hi; [done..|]. by apply list_elem_of_lookup_2 in Hl.
  - intros ? required name [= <-]. destruct H as [H _]. rewrite required_errors_nil in H. apply H.
  - intros ? props key sub child [= <-] Hps Hin Hg. destruct H as [_ H].
    rewrite Forall_forall in IH. eapply (IH (key, child)); [by apply obj_get_Some_elem|].
    by eapply H.
  - apply required_errors_nil. intros required name. by apply Hr.
  - intros props key sub child Hps Hin Hg. rewrite Forall_forall in IH.
    apply (IH (key, child)); [by apply obj_get_Some_elem|]. by eapply Hp.
Qed.

Lemma validate_json_conforms f v schema : validate_json f v schema = [] ↔ conforms v schema.
Proof. exact (validate_at_conforms f v "$" schema). Qed.

(** C29: The validator of structured output decides exactly the supported subset
    of JSON Schema: it reports no error if and only if the value conforms, all
    the way down declared properties and array items; the early stop at a wrong
    type and the order of the messages make no difference. *)
Theorem schema_validation_exact (f : Fmt) (v schema : value) :
  validate_json f v schema = [] ↔ conforms v schema.
Proof. exact (validate_json_conforms f v schema). Qed.

(** ** One repair at most *)

Lemma parse_and_validate_spec f h v schema fix_ conn log :
  ∃ new r, parse_and_validate f h v schema fix_ conn log = (log ++ new, r) ∧
    new = (if decide (validate_json f v schema = []) then []
           else if fix_ then [Complete (json_object [("task", Str "coerce_to_schema"); ("schema", schema);
                ("value", v); ("errors", json_strings (validate_json f v schema))]) conn]
           else []) ∧
    (validate_json f v schema = [] → r = Ok v) ∧
    (fix_ = false → is_ok r = true → validate_json f v schema = []) ∧
    (∀ w, r = Ok w → validate_json f w schema = []).
Proof.
  unfold parse_and_validate. destruct (validate_json f v schema) as [|e errors] eqn:Ev.
  { exists [], (Ok v). rewrite decide_True, app_nil_r by done. split_and!; [done..|]. by intros ? [= <-]. }
  rewrite decide_False by done. destruct fix_.
  2:{ eexists [], _. rewrite app_nil_r. by split_and!. }
  unfold hbind, ask. destruct (h_complete h log _ conn) as [response|err].
  2:{ eexists _, _. by split_and!. }
  destruct (validate_json f (default response (get "value" response)) schema) eqn:Ef.
  - eexists _, _. split_and!; [done..|]. by intros ? [= <-].
  - eexists _, _. by split_and!.
Qed.

Lemma parse_items_spec f h schema fix_ conn items log log' out :
  parse_items f h schema fix_ conn items log = (log', Ok out) →
  Forall2 (λ i o, validate_json f (it_json o) schema = [] ∧
                  (validate_json f (it_json i) schema = [] → it_json o = it_json i)) items out ∧
  ∃ new, log' = log ++ new ∧
    length new = length (filter (λ i, validate_json f (it_json i) schema ≠ []) items).
Proof.
  revert log out. induction items as [|i items IH]; intros log out; cbn [parse_items].
  { intros [= <- <-]. split; [done|]. exists []. by rewrite app_nil_r. }
  unfold hbind at 1. destruct (parse_and_validate_spec f h (it_json i) schema fix_ conn log)
    as (new & r & -> & Hnew & Hkeep & Hfix & Hok).
  destruct r as [w|e]; [|done]. unfold hbind.
  destruct (parse_items f h schema fix_ conn items (log ++ new)) as [log2 [rest|e]] eqn:E; [|done].
  intros [= <- <-]. apply IH in E as (Hall & new' & -> & Hlen). split.
  { constructor; [|done]. split; [by apply Hok|]. intros H. by injection (Hkeep H) as ->. }
  exists (new ++ new'). rewrite app_assoc, length_app, Hlen, filter_cons. split; [done|].
  destruct (decide (validate_json f (it_json i) schema = [])) as [H|H].
  - rewrite decide_False by naive_solver. by rewrite Hnew.
  - rewrite decide_True by done. rewrite Hnew. destruct fix_; [done|].
    by specialize (Hfix eq_refl eq_refl).
Qed.

(** An output parser emits only values that conform to its schema, one for
    each item in order; an item that conforms already is passed on unchanged and
    costs no model call, any other costs exactly one, so a repaired value is
    checked again and never taken on trust. *)
Theorem output_parser_conforms (f : Fmt) (h : CapHost) (c : ExecContext) (schema : value)
    (calls : list HostCall) (out : NodeOutput)
    (Hschema : get "schema" (nd_config (ec_node c)) = Some schema) (Hnull : is_null schema = false)
    (Hexec : hosted (execute_output_parser f h c) = (calls, Ok out)) :
  Forall2 (λ i o, conforms (it_json o) schema ∧
                  (conforms (it_json i) schema → it_json o = it_json i)) (ec_input c) (out_items out) ∧
  length calls = length (filter (λ i, validate_json f (it_json i) schema ≠ []) (ec_input c)).
Proof.
  unfold hosted, execute_output_parser in Hexec. rewrite Hschema, Hnull in Hexec. unfold hbind in Hexec.
  destruct (parse_items f h schema _ _ (ec_input c) []) as [log [items|e]] eqn:E; [|done].
  injection Hexec as <- <-. apply parse_items_spec in E as (Hall & new & -> & Hlen).
  split; [|done]. eapply Forall2_impl; [exact Hall|]. cbn. intros i o [Ho Hi].
  split; [by rewrite <- (validate_json_conforms f)|]. intros Hc. apply Hi. by rewrite validate_json_conforms.
Qed.

(** ** What an agent turn may do *)

Section Turn.
Context (f : Fmt) (jq : string → value → option value) (sd : Serde) (fs : Fs).

Definition node_connection (cfg : value) : option string := get "connection_ref" cfg >>? as_str.

(** The calls a turn with the resolved configuration [cfg] may make. *)
Definition turn_call_allowed (h : CapHost) (cfg : value) (call : HostCall) : Prop :=
  match call with
  | Complete _ conn =>
      conn = node_connection cfg ∨
      ∃ schema fix_, output_parser_of cfg (node_connection cfg) = Some (schema, fix_, conn)
  | InvokeTool slug _ conn =>
      (agent_ref_of cfg = None ∨ h_agent h = None) ∧
      ∃ tools tool, get "tools" cfg >>? as_array = Some tools ∧ tool ∈ tools ∧
        get "slug" tool >>? as_str = Some slug ∧
        conn = or_else (get "connection_ref" tool >>? as_str) (node_connection cfg)
  | RunAgent request => is_Some (agent_ref_of cfg) ∧ rq_connection_ref request = node_connection cfg
  | _ => False
  end.

Definition is_invoke (call : HostCall) : bool :=
  match call with InvokeTool _ _ _ => true | _ => false end.

Lemma parse_output_spec h cfg conn v log :
  ∃ new r, parse_output f h cfg conn v log = (log ++ new, r) ∧ length new ≤ 1 ∧
    Forall (λ call, ∃ req schema fix_ parser_conn, call = Complete req parser_conn ∧
              output_parser_of cfg conn = Some (schema, fix_, parser_conn)) new ∧
    (∀ w schema fix_ parser_conn, r = Ok w →
       output_parser_of cfg conn = Some (schema, fix_, parser_conn) → conforms w schema).
Proof.
  unfold parse_output. destruct (output_parser_of cfg conn) as [[[schema fix_] pc]|].
  2:{ exists [], (Ok v). rewrite app_nil_r. split_and!; [done|cbn; lia|done|done]. }
  destruct (parse_and_validate_spec f h v schema fix_ pc log) as (new & r & -> & -> & _ & _ & Hok).
  eexists _, r. split_and!; [done| | |].
  - case_decide; [cbn; lia|]. destruct fix_; cbn; lia.
  - case_decide; [done|]. destruct fix_; [|done]. apply Forall_singleton. eauto 10.
  - intros w ? ? ? -> [= <- <- <-]. rewrite <- (validate_json_conforms f). by apply Hok.
Qed.

Lemma offered_tool_Some cfg slug tool :
  offered_tool cfg slug = Some tool →
  ∃ tools, get "tools" cfg >>? as_array = Some tools ∧ tool ∈ tools ∧
    get "slug" tool >>? as_str = Some slug.
Proof.
  unfold offered_tool. intros (tools & Ht & H)%and_then_Some. exists tools. split; [done|].
  apply and_then_Some in H as ([i t] & Hf & [= ->]).
  apply list_find_Some in Hf as (Hi & Hs & _). split; [by apply list_elem_of_lookup_2 in Hi|done].
Qed.

Lemma elected_tool_allowed h cfg response slug args conn :
  agent_ref_of cfg = None ∨ h_agent h = None →
  elected_tool cfg response (node_connection cfg) = Some (slug, args, conn) →
  turn_call_allowed h cfg (InvokeTool slug args conn).
Proof.
  intros Hpath (tc & _ & (s & _ & (tool & Ht & [= -> _ <-])%and_then_Some)%and_then_Some)%and_then_Some.
  split; [done|]. apply offered_tool_Some in Ht as (tools & ? & ? & ?). eauto 10.
Qed.

(** What is fetched while the request is put together: the agent type of the
    node, its tools under the node's credential, and context. *)
Definition read_allowed (cfg : value) (call : ContextCall) : Prop :=
  match call with
  | AskAgent agent_ref => agent_ref_of cfg = Some agent_ref
  | AskTools _ conn => is_Some (agent_ref_of cfg) ∧ conn = node_connection cfg
  | _ => True
  end.

Ltac assembly :=
  repeat first [apply abind_calls; [|intros ?] | case_match | progress cbn [assembled asking fst]
               | apply Forall_nil_2 | apply Forall_singleton; done].

Lemma resolve_sources_reads cfg runner memory input identity sources : ∀ index blocks,
  Forall (read_allowed cfg) (resolve_sources f runner memory input identity index sources blocks).1.
Proof.
  induction sources as [|s sources IH]; intros index blocks; cbn [resolve_sources]; [done|].
  apply abind_calls; [unfold resolve_source; assembly|]. intros [block|]; [apply IH|].
  destruct (src_optional s); [apply IH|done].
Qed.

Lemma agent_dir_reads cfg runner run raw field surface :
  Forall (read_allowed cfg) (resolve_agent_dir fs runner run raw field surface).1.
Proof. unfold resolve_agent_dir. assembly. Qed.

Lemma assemble_reads runner memory c cfg agent_ref scope ix :
  agent_ref_of cfg = Some agent_ref →
  Forall (read_allowed cfg) (assemble f jq sd fs runner memory c cfg agent_ref scope ix).1.
Proof.
  intros Hr. unfold assemble, resolve_definition, resolve_context. cbv zeta.
  repeat first [apply abind_calls; [|intros ?] | apply resolve_sources_reads | apply agent_dir_reads | case_match
               | apply Forall_nil_2 | apply Forall_singleton; cbn; rewrite ?Hr; done].
Qed.

Lemma completion_reads h c cfg ix : Forall (read_allowed cfg) (completion_request f sd fs h c cfg ix).1.
Proof.
  unfold completion_request, resolve_context. cbv zeta.
  repeat first [apply abind_calls; [|intros ?] | apply resolve_sources_reads | apply agent_dir_reads | case_match
               | apply Forall_nil_2].
Qed.

Lemma assemble_connection runner memory c cfg agent_ref scope ix request :
  (assemble f jq sd fs runner memory c cfg agent_ref scope ix).2 = Ok request →
  rq_connection_ref request = node_connection cfg.
Proof.
  unfold assemble. cbv zeta. intros H.
  repeat match type of H with (abind _ _).2 = Ok _ => apply abind_Ok in H as (? & _ & _ & H) end.
  by injection H as <-.
Qed.

(** What a turn leaves behind after what it fetched: only allowed calls, at most
    three and one tool among them, and an item that carries a conforming value
    if a parser is set and the agent was not cut short; of the value the item's
    [json] holds an object or an array, and [null] for anything else. *)
Definition turn_confined (h : CapHost) (cfg : value) (reads : list HostCall)
    (out : list HostCall * result EngineError Item) : Prop :=
  ∃ acts, out.1 = reads ++ acts ∧
  Forall (turn_call_allowed h cfg) acts ∧ length acts ≤ 3 ∧ length (List.filter is_invoke acts) ≤ 1 ∧
  ∀ item schema fix_ conn, out.2 = Ok item →
    output_parser_of cfg (node_connection cfg) = Some (schema, fix_, conn) →
    get "meta" (it_json item) >>? get "stop" = Some (Str "limit_stop") ∨
    ∃ v, conforms v schema ∧
      get "json" (it_json item) = Some (match v with Object _ | Array _ => v | _ => Null end).

Lemma parser_calls_allowed h cfg conn new :
  conn = node_connection cfg →
  Forall (λ call, ∃ req schema fix_ parser_conn, call = Complete req parser_conn ∧
            output_parser_of cfg conn = Some (schema, fix_, parser_conn)) new →
  Forall (turn_call_allowed h cfg) new ∧ List.filter is_invoke new = [].
Proof.
  intros ->. induction 1 as [|call new (req & schema & fix_ & pc & -> & Hp) _ [IH1 IH2]]; [done|].
  split; [constructor; [right; eauto|done]|]. done.
Qed.

Lemma finish_confined h node_id cfg agent_ref o request reads :
  is_Some (agent_ref_of cfg) → rq_connection_ref request = node_connection cfg →
  turn_confined h cfg reads
    (finish_agent_run f h node_id cfg (node_connection cfg) agent_ref o (reads ++ [RunAgent request])).
Proof.
  intros Href Hconn. unfold finish_agent_run, hbind, is_finished, turn_confined.
  assert (Hcall : turn_call_allowed h cfg (RunAgent request)) by done.
  destruct (ao_stop o) as [|limit|] eqn:Es.
  - destruct (parse_output_spec h cfg (node_connection cfg) (ao_json o) (reads ++ [RunAgent request]))
      as (new & r & -> & Hlen & Hnew & Hok).
    destruct (parser_calls_allowed h cfg _ new eq_refl Hnew) as [Hallow Hno].
    exists (RunAgent request :: new).
    destruct r as [w|e]; cbn [fst snd hret List.filter is_invoke length];
      (split; [by rewrite <- app_assoc|]); rewrite Hno; (split_and!; [by constructor|lia|cbn; lia|]); [|done].
    intros ? schema fix_ conn [= <-] Hp. right. exists w. by split; [eapply Hok|].
  - exists [RunAgent request]. cbn [fst snd hret]. split_and!; [done|by apply Forall_singleton|cbn; lia|cbn; lia|].
    intros ? schema fix_ conn [= <-] _. left. unfold agent_meta. rewrite Es.
    by destruct (ao_usage o).
  - exists [RunAgent request]. cbn [fst snd hret].
    split_and!; [done|by apply Forall_singleton|cbn; lia|cbn; lia|done].
Qed.

(** The parser, after a completion and perhaps a tool. *)
Lemma parsed_confined h cfg response v reads acts :
  Forall (turn_call_allowed h cfg) acts → length acts ≤ 2 → length (List.filter is_invoke acts) ≤ 1 →
  turn_confined h cfg reads (hbind (parse_output f h cfg (node_connection cfg) v) (λ v,
    hret (Ok (item_new (envelope_parts (structured_of v) (text_of response) response)))) (reads ++ acts)).
Proof.
  intros Hall Hlen Hone. unfold hbind, turn_confined.
  destruct (parse_output_spec h cfg (node_connection cfg) v (reads ++ acts)) as (new & r & -> & Hn & Hnew & Hok).
  destruct (parser_calls_allowed h cfg _ new eq_refl Hnew) as [Hallow Hno]. exists (acts ++ new).
  destruct r as [w|e]; cbn [fst snd hret]; rewrite List.filter_app, Hno, !length_app, Forall_app;
    (split; [by rewrite app_assoc|]); (split_and!; [done|done|cbn; lia|cbn; lia|]); [|done].
  intros ? schema fix_ conn [= <-] Hp. right. exists w. by split; [eapply Hok|].
Qed.

Lemma completion_confined h cfg request (response : value) reads :
  agent_ref_of cfg = None ∨ h_agent h = None →
  turn_confined h cfg reads (hbind (tool_hop h cfg response (node_connection cfg)) (λ v,
    hbind (parse_output f h cfg (node_connection cfg) v) (λ v,
      hret (Ok (item_new (envelope_parts (structured_of v) (text_of response) response)))))
    (reads ++ [Complete request (node_connection cfg)])).
Proof.
  intros Hpath. unfold hbind at 1, tool_hop.
  assert (Hc : turn_call_allowed h cfg (Complete request (node_connection cfg))) by by left.
  destruct (elected_tool cfg response (node_connection cfg)) as [[[slug args] conn]|] eqn:Et.
  2:{ apply parsed_confined; [by apply Forall_singleton|cbn; lia|cbn; lia]. }
  pose proof (elected_tool_allowed h cfg response slug args conn Hpath Et) as Hinv.
  unfold ask, hbind at 1. rewrite <- app_assoc. cbn [fst snd app].
  destruct (h_invoke h _ slug args conn) as [r|e]; cbn [hret].
  - apply parsed_confined; [by apply Forall_cons; split; [|apply Forall_singleton]|cbn; lia|cbn; lia].
  - eexists. split_and!; [done|by apply Forall_cons; split; [|apply Forall_singleton]|cbn; lia|cbn; lia|done].
Qed.

(** C16: Whatever the model and the host answer, an agent turn acts only as its
    configuration allows.  First it fetches what the request is made of: agent
    type, working directory, context and, under the node's credential, tools.
    After that it invokes at most one tool, only one the configuration offers,
    with the credential of the offer or of the node and none the model names,
    and no tool at all when a harness runs the agent; it completes only with the
    node's or the parser's credential; these calls are at most three.  If a
    parser is set, the item says that a limit stopped the agent, or its [json] is
    a value that conforms to the parser's schema ([null] where that value is
    neither object nor array). *)
Theorem agent_turn_confined (c : ExecContext) (h : CapHost) (cfg scope : value) (ix : option nat) :
  ∃ reads, Forall (read_allowed cfg) reads ∧
    turn_confined h cfg (FetchContext <$> reads) (hosted (run_turn_indexed f jq sd fs c h cfg scope ix)).
Proof.
  assert (Hnone : ∀ reads e, turn_confined h cfg reads (reads, Err e)).
  { intros reads e. exists []. rewrite app_nil_r. by split_and!; [|constructor|cbn; lia|cbn; lia|]. }
  assert (Hpath : agent_ref_of cfg = None ∨ h_agent h = None → ∃ reads, Forall (read_allowed cfg) reads ∧
    turn_confined h cfg (FetchContext <$> reads) (hbind (fetched (completion_request f sd fs h c cfg ix)) (λ request,
      hbind (ask (Complete request (node_connection cfg)) (λ log, h_complete h log request (node_connection cfg)))
        (λ response, hbind (tool_hop h cfg response (node_connection cfg)) (λ v,
          hbind (parse_output f h cfg (node_connection cfg) v) (λ v,
            hret (Ok (item_new (envelope_parts (structured_of v) (text_of response) response))))))) [])).
  { intros Hp. exists (completion_request f sd fs h c cfg ix).1. split; [apply completion_reads|].
    unfold hbind at 1, fetched. cbn [app].
    destruct (completion_request f sd fs h c cfg ix) as [reads [request|e]]; cbn [fst snd]; [|apply Hnone].
    unfold hbind at 1, ask. destruct (h_complete h _ request _) as [response|e].
    - by apply completion_confined.
    - eexists. split_and!; [done|apply Forall_singleton; by left|cbn; lia|cbn; lia|done]. }
  unfold hosted, run_turn_indexed. fold (node_connection cfg).
  destruct (agent_ref_of cfg) as [agent_ref|] eqn:Er; [|by apply Hpath; left].
  destruct (h_agent h) as [[runner run]|] eqn:Ea; [|by apply Hpath; right].
  exists (assemble f jq sd fs (Some runner) (h_memory h) c cfg agent_ref scope ix).1.
  split; [by apply assemble_reads|]. unfold hbind at 1, fetched. cbn [app].
  destruct (assemble _ _ _ _ _ _ _ _ _ _ _) as [reads [request|e]] eqn:Eas; cbn [fst snd]; [|apply Hnone].
  assert (rq_connection_ref request = node_connection cfg) as Hcn
    by (eapply assemble_connection; by rewrite Eas).
  unfold hbind, ask. destruct (run _ request) as [o|e].
  - apply finish_confined; [by rewrite Er|done].
  - eexists. split_and!; [done|apply Forall_singleton; split; [by rewrite Er|done]|cbn; lia|cbn; lia|done].
Qed.
End Turn.

(** ** Memory and scripts *)

Definition writes_flow (call : HostCall) : Prop :=
  match call with
  | Remember scope _ _ | Forget scope _ => scope = "flow"
  | Recall _ _ _ | Flavour _ | People _ => True
  | _ => False
  end.

Lemma call_provider_flow f h cfg log :
  Forall writes_flow log → Forall writes_flow (call_provider f h cfg log).1.
Proof.
  intros Hlog. unfold call_provider, hbind, required_str, write_guard, ask, hret.
  repeat (case_match || case_decide); simplify_eq; cbn; try done;
    apply Forall_app; by split; [|apply Forall_singleton].
Qed.

Lemma execute_turns_calls f jq dflt turn hosts order c (P : HostCall → Prop) :
  (∀ h cfg scope ix, Forall P (hosted (turn h cfg scope ix)).1) →
  Forall (Forall P) (execute_turns f jq dflt turn hosts order c).1.
Proof.
  intros H. unfold execute_turns. destruct (per_item_of dflt c); cbn.
  - apply Forall_fmap, Forall_true. intros i. apply H.
  - specialize (H (hosts 0) (once_scope jq c).1 (once_scope jq c).2 None). revert H. cbn.
    destruct (hosted _). intros H. by apply Forall_singleton.
Qed.

(** Whatever its configuration says and resolves to, even in a workflow that was
    never validated, a memory node calls nothing but the memory, and writes or
    forgets in the scope [flow] alone. *)
Theorem memory_node_confined (f : Fmt) (jq : string → value → option value) (hosts : nat → CapHost)
    (order : list nat) (c : ExecContext) :
  Forall (Forall writes_flow) (execute_memory f jq hosts order c).1.
Proof.
  apply execute_turns_calls. intros h cfg _ _. unfold hosted, enveloped, hbind.
  pose proof (call_provider_flow f h cfg [] (Forall_nil_2 _)) as H. revert H.
  by destruct (call_provider f h cfg []) as [log [v|e]].
Qed.

(** A shell step that succeeds ran exactly one script, the one its configuration
    declares, and the script exited with status zero. *)
Theorem shell_step_exact (jq : string → value → option value)
    (parse_json : string → option value) (h : CapHost) (c : ExecContext) (calls : list HostCall)
    (out : NodeOutput)
    (Hexec : hosted (execute_shell jq parse_json h c) = (calls, Ok out)) :
  ∃ request outcome run, h_shell h = Some run ∧ calls = [RunShell request] ∧
    script_of (once_scope jq c).1 = Ok (sh_script request) ∧
    run [] request = Ok outcome ∧ so_exit_code outcome = 0%Z.
Proof.
  unfold hosted, execute_shell, hbind, ask, hret in Hexec.
  destruct (h_shell h) as [run|]; [|done].
  destruct (interpreter_of _); cbn in Hexec; [|done]. destruct (script_of _) eqn:Es; cbn in Hexec; [|done].
  destruct (cwd_of _); cbn in Hexec; [|done]. destruct (env_of _); cbn in Hexec; [|done].
  destruct (run [] _) as [outcome|] eqn:Er; [|done].
  destruct (shell_success outcome) eqn:Ez; [|done]. apply bool_decide_eq_true in Ez.
  injection Hexec as <- _. naive_solver.
Qed.
