(* ===== verification/Diagnosis.v ===== *)
(** * Reading what a run did

    [crates/tinyflows/src]: the bindings a graph's expressions make
    ([bindings.rs]), the findings a green run hides ([diagnostics.rs]), bounded
    copies of values and of transcripts ([evidence.rs], [transcript.rs]); and
    [crates/tinyflows-adaptive/src/execute]: the record of a run as it crosses
    to the loop ([wire.rs]) and what the loop rebuilds from it ([mod.rs]).  The
    printer of [serde_json] is the [fmt_json] of the argument [Fmt]. *)

From Stdlib Require Import SpecFloat Ascii.
From S2P Require Import Prelude Json GraphTypes Workflow Text Expr WfState EngineRun GraphOps AgentRequest AgentPrompt.

(** ** Bindings ([bindings.rs]) *)

Definition ENVELOPE_FIELDS : list string := ["json"; "text"; "raw"].
Definition reads_the_envelope_itself (field_path : string) : bool :=
  bool_decide (field_path ∈ ENVELOPE_FIELDS).

Definition wraps_output (kind : NodeKind) : bool :=
  bool_decide (kind ∈ [Agent; ToolCall; HttpRequest]).

Definition kind_article (kind : NodeKind) : string :=
  match kind with
  | Agent => "an agent" | ToolCall => "a tool_call" | HttpRequest => "an http_request" | _ => "a node"
  end.

Definition node_of (g : WorkflowGraph) (id : string) : option Node :=
  snd <$> list_find (λ n, nd_id n = id) (wg_nodes g).

Definition JQ_KEYWORDS : list string :=
  ["and"; "or"; "not"; "if"; "then"; "elif"; "else"; "end"; "as"; "def"; "reduce"; "foreach"; "try"; "catch";
   "import"; "include"; "label"].

Record NodeBinding := mkNodeBinding {
  nb_node_id : string; nb_through_envelope : bool; nb_field_path : string
}.


(** The longest prefix whose characters pass, and what follows it. *)
Fixpoint take_while (ok : ascii → bool) (s : string) : string * string :=
  match s with
  | EmptyString => ("", "")
  | SCons c rest =>
      if ok c then let '(a, b) := take_while ok rest in (SCons c a, b) else ("", s)
  end.
Definition take_leading (first later : ascii → bool) (s : string) : option (string * string) :=
  match s with
  | SCons c rest =>
      if first c then let '(a, b) := take_while later rest in Some (SCons c a, b) else None
  | EmptyString => None
  end.

Definition take_identifier (s : string) : option (string * string) :=
  take_leading ident_start
    (λ c, is_ascii_alphanumeric c || bool_decide (c = "_"%char) || bool_decide (c = "-"%char)) s.

(** [trim_end_matches] of one character. *)
Fixpoint trim_end_char (c : ascii) (s : string) : string :=
  match s with
  | EmptyString => ""
  | SCons d rest =>
      match trim_end_char c rest with
      | EmptyString => if decide (d = c) then "" else SCons d ""
      | t => SCons d t
      end
  end.
Definition take_field_path (s : string) : option (string * string) :=
  match take_leading ident_start
          (λ c, is_ascii_alphanumeric c || bool_decide (c = "_"%char) || bool_decide (c = "."%char)) s with
  | Some (matched, rest) =>
      let trimmed := trim_end_char "." matched in
      if decide (trimmed = "") then None else Some (trimmed, rest)
  | None => None
  end.

(** One step of the path: an index in brackets, or a dot and a field path. *)
Definition path_step (field_path remainder : string) : option (string * string) :=
  let index :=
    match strip_prefix "[" remainder with
    | Some after_open =>
        match split_once "]" after_open with
        | Some (inside, after) =>
            if bool_decide (inside ≠ "") && digits_of inside then
              Some (field_path +:+ "[" +:+ inside +:+ "]", after)
            else None
        | None => None
        end
    | None => None
    end in
  match index with
  | Some next => Some next
  | None =>
      match strip_prefix "." remainder with
      | Some after_dot =>
          match take_field_path after_dot with
          | Some (tail, after_tail) =>
              Some ((if decide (field_path = "") then "" else field_path +:+ ".") +:+ tail, after_tail)
          | None => None
          end
      | None => None
      end
  end.
Fixpoint path_loop (fuel : nat) (field_path remainder : string) : string * string :=
  match fuel with
  | 0 => (field_path, remainder)
  | S fuel =>
      match path_step field_path remainder with
      | Some (path, rest) => path_loop fuel path rest
      | None => (field_path, remainder)
      end
  end.

Definition starts_with_any (cs : list ascii) (s : string) : bool :=
  match s with SCons c _ => bool_decide (c ∈ cs) | EmptyString => false end.

Definition parse_node_binding (expr : string) : option NodeBinding :=
  strip_prefix "=nodes." expr >>? λ rest,
  take_identifier rest >>? λ '(node_id, rest),
  strip_prefix ".item" rest >>? λ rest,
  let '(through, rest) :=
    match strip_prefix ".json" rest with
    | Some after => if starts_with_any ["."; "["]%char after then (true, after) else (false, rest)
    | None => (false, rest)
    end in
  let '(field_path, remainder) := path_loop (String.length rest) "" rest in
  if decide (field_path = "") then None
  else if decide (trim remainder = "") then
    Some (mkNodeBinding node_id (through || bool_decide (field_path ∈ ["text"; "raw"])) field_path)
  else None.

(** The text outside string literals. *)
Fixpoint strip_literals (in_string : bool) (s : string) : string :=
  match s with
  | EmptyString => ""
  | SCons c rest =>
      if in_string && bool_decide (c = ascii_of_nat 92) then
        match rest with EmptyString => "" | SCons _ rest => strip_literals in_string rest end
      else if decide (c = ascii_of_nat 34) then strip_literals (negb in_string) rest
      else if in_string then strip_literals in_string rest else SCons c (strip_literals in_string rest)
  end.

Fixpoint drop_front (ok : ascii → bool) (s : string) : string :=
  match s with SCons c rest => if ok c then drop_front ok rest else s | EmptyString => "" end.
Fixpoint drop_back (ok : ascii → bool) (s : string) : string :=
  match s with
  | EmptyString => ""
  | SCons c rest =>
      match drop_back ok rest with
      | EmptyString => if ok c then "" else SCons c ""
      | t => SCons c t
      end
  end.
Definition trim_matches (ok : ascii → bool) (s : string) : string := drop_back ok (drop_front ok s).

Fixpoint lower_ascii (s : string) : string :=
  match s with EmptyString => "" | SCons c s => SCons (to_lower c) (lower_ascii s) end.

Definition bare_word (token : string) : bool :=
  let core := trim_matches (λ c, negb (is_ascii_alphabetic c)) token in
  bool_decide (core ≠ "") && forallb is_ascii_alphabetic (String.list_ascii_of_string core) &&
  bool_decide ("."%char ∉ String.list_ascii_of_string token) && bool_decide (lower_ascii core ∉ JQ_KEYWORDS).
Fixpoint two_bare (consecutive : bool) (tokens : list string) : bool :=
  match tokens with
  | [] => false
  | t :: ts => if bare_word t then if consecutive then true else two_bare true ts else two_bare false ts
  end.
Definition reads_as_prose (expr_body : string) : bool :=
  two_bare false (split_whitespace (strip_literals false expr_body)).

(** ** Bounded copies ([evidence.rs], [transcript.rs]) *)

Definition MAX_EVIDENCE_BYTES : N := 64 * 1024.
Definition TRUNCATED_KEY : string := "_flowsTruncated".
Definition LEGACY_TRUNCATED_KEY : string := "_medullaTruncated".
Definition is_truncated (v : value) : bool :=
  existsb (λ key, bool_decide (get key v >>? as_bool = Some true)) [TRUNCATED_KEY; LEGACY_TRUNCATED_KEY].

(** The text up to the last character that starts at or below [budget]; every
    caller has a text longer than its budget. *)
Definition cut (budget : nat) (s : string) : string := String.substring 0 (floor_boundary s budget) s.

Section Bounded.
Context (f : Fmt).

Definition bounded_within (v : value) (max_bytes : nat) : value :=
  let serialized := fmt_json f v in
  if decide (String.length serialized ≤ max_bytes) then v
  else
    json_object [(TRUNCATED_KEY, Bool true);
                 ("originalBytes", value_of_nat (String.length serialized));
                 ("preview", Str (cut (max_bytes / 2 - 256) serialized))].
Definition bounded_evidence (v : value) : value := bounded_within v (N.to_nat MAX_EVIDENCE_BYTES).
End Bounded.

Definition MAX_ENTRY_TEXT_BYTES : nat := N.to_nat (4 * 1024).
Definition TRUNCATION_MARKER : string := " …[truncated]".

Record TranscriptEntry := mkEntry { te_at_ms : Z; te_kind : string; te_text : string }.

Definition entry_bounded (at_ms : Z) (kind text : string) : TranscriptEntry :=
  mkEntry at_ms kind
    (if decide (MAX_ENTRY_TEXT_BYTES < String.length text) then
       cut (MAX_ENTRY_TEXT_BYTES - String.length TRUNCATION_MARKER) text +:+ TRUNCATION_MARKER
     else text).

(** ** The record of a run ([execute/wire.rs]) *)

Definition RECORD_BUDGET : nat := N.to_nat (256 * 1024).
Definition TRANSCRIPT_BUDGET : nat := RECORD_BUDGET.
Definition TRANSCRIPT_EDGE : nat := 32.
Definition TRANSCRIPT_KIND_BYTES : nat := 128.
Definition PROMPT_BUDGET : nat := N.to_nat (4 * 1024).

Definition entry_cost (e : TranscriptEntry) : nat := String.length (te_kind e) + String.length (te_text e).

Definition rebound (e : TranscriptEntry) : TranscriptEntry :=
  let kind := te_kind e in
  entry_bounded (te_at_ms e)
    (if decide (TRANSCRIPT_KIND_BYTES < String.length kind) then cut TRANSCRIPT_KIND_BYTES kind else kind)
    (te_text e).

(** How many leading entries fit in [half], at most [edge] of them. *)
Fixpoint fitting (half edge spent : nat) (es : list TranscriptEntry) : nat :=
  match edge, es with
  | S edge, e :: es =>
      if decide (half < spent + entry_cost e) then 0 else S (fitting half edge (spent + entry_cost e) es)
  | _, _ => 0
  end.

Definition total_cost (es : list TranscriptEntry) : nat := sum_list (entry_cost <$> es).

Definition elision_marker (at_ms : Z) (dropped : nat) : TranscriptEntry :=
  entry_bounded at_ms "error"
    ("…[" +:+ pretty dropped +:+ " transcript entries elided to fit the record budget]").

Definition bounded_transcript (entries : list TranscriptEntry) : list TranscriptEntry :=
  let out := rebound <$> entries in
  if decide (total_cost out ≤ TRANSCRIPT_BUDGET) then out
  else
    let half := TRANSCRIPT_BUDGET / 2 in
    let head := fitting half TRANSCRIPT_EDGE 0 out in
    let tail := fitting half TRANSCRIPT_EDGE 0 (take (length out - head) (rev out)) in
    let dropped := length out - head - tail in
    if decide (dropped = 0) then out
    else
      let at_ms := match out !! head with Some e => te_at_ms e | None => 0%Z end in
      take head out ++ [elision_marker at_ms dropped] ++ drop (length out - tail) out.

(** [ExecutionStep] of the engine with its duration, its diagnostics and its
    transcript, which the run model leaves out. *)
Record TracedStep := mkTraced {
  ts_node_id : string; ts_status : StepStatus; ts_output : value; ts_duration_ms : N;
  ts_diagnostics : list NullResolution; ts_transcript : list TranscriptEntry
}.

Inductive StepOutcome := OutSuccess | OutError.
#[export] Instance StepOutcome_eq_dec : EqDecision StepOutcome.
Proof. solve_decision. Defined.
Record StepRecord := mkStepRecord {
  sr_node_id : string; sr_status : StepOutcome; sr_output : value; sr_duration_ms : N;
  sr_null_bindings : list NullResolution; sr_transcript : list TranscriptEntry
}.

Definition step_bounded (f : Fmt) (step : TracedStep) (budget : nat) : StepRecord :=
  mkStepRecord (ts_node_id step)
    match ts_status step with StepSuccess => OutSuccess | StepError => OutError end
    (bounded_within f (ts_output step) budget)
    (N.min (ts_duration_ms step) (2 ^ 64 - 1))
    (ts_diagnostics step) (bounded_transcript (ts_transcript step)).

Definition to_step (r : StepRecord) : TracedStep :=
  mkTraced (sr_node_id r) match sr_status r with OutSuccess => StepSuccess | OutError => StepError end
    (sr_output r) (sr_duration_ms r) (sr_null_bindings r) (sr_transcript r).

(** ** What a green run hides ([diagnostics.rs]) *)

Record NullBinding := mkNullBinding {
  nl_node_id : string; nl_location : string; nl_expression : string; nl_unverifiable : bool;
  nl_reads_from : option string; nl_suggestion : string
}.
Record HiddenError := mkHiddenError { he_node_id : string; he_message : option string }.
Record NeverRan := mkNeverRan { nr_node_id : string; nr_routed_by : option string }.
Record Diagnosis := mkDiagnosis {
  dg_null_bindings : list NullBinding;
  dg_empty_prompts : list string;
  dg_hidden_errors : list HiddenError;
  dg_never_ran : list NeverRan
}.

Definition is_clean (d : Diagnosis) : bool :=
  forallb nl_unverifiable (dg_null_bindings d) && bool_decide (dg_empty_prompts d = []) &&
  bool_decide (length (dg_hidden_errors d) = 0).

Definition is_agent (n : Node) : bool := bool_decide (nd_kind n = Agent).

Definition null_binding (g : WorkflowGraph) (node_id : string) (null : NullResolution) : NullBinding :=
  let reads_from :=
    match parse_node_binding (miss_expression null) with
    | Some b => if node_exists g (nb_node_id b) then Some (nb_node_id b) else None
    | None => None
    end in
  let unverifiable :=
    match reads_from >>? node_of g with Some n => is_agent n | None => false end in
  let suggestion :=
    if unverifiable then
      "reads from agent node `" +:+ default "" reads_from +:+
      "`, whose real output is whatever the harness replies — a dry run cannot confirm this field exists. " +:+
      "Check it against what you asked that node to produce rather than re-wiring against the sandbox."
    else
      "resolved to null, so this step ran with an empty value. Check the path against the upstream node's " +:+
      "actual output shape; `workflow_catalog` describes each kind's." in
  mkNullBinding node_id (miss_location null) (miss_expression null) unverifiable reads_from suggestion.

(** One pass over the edges into [current]: a condition ends the search. *)
Fixpoint scan_upstream (g : WorkflowGraph) (froms : list string) (queue : list string) (seen : gset string)
    : string + list string * gset string :=
  match froms with
  | [] => inr (queue, seen)
  | from :: froms =>
      if decide (from ∈ seen) then scan_upstream g froms queue seen
      else if existsb (λ n, bool_decide (nd_id n = from) && bool_decide (nd_kind n = Condition)) (wg_nodes g)
      then inl from
      else scan_upstream g froms (queue ++ [from]) ({[from]} ∪ seen)
  end.
Fixpoint upstream_loop (g : WorkflowGraph) (fuel : nat) (queue : list string) (seen : gset string)
    : option string :=
  match fuel, queue with
  | S fuel, current :: queue =>
      match scan_upstream g (incoming g current) queue seen with
      | inl found => Some found
      | inr (queue, seen) => upstream_loop g fuel queue seen
      end
  | _, _ => None
  end.
Definition nearest_upstream_condition (g : WorkflowGraph) (node_id : string) : option string :=
  upstream_loop g (S (S (length (wg_edges g)))) [node_id] {[node_id]}.

Section Diagnose.
Context (f : Fmt).

Definition error_message (output : value) : option string :=
  match get "error" output with
  | Some e =>
      let message := match as_str e with Some s => s | None => fmt_json f e end in
      if decide (trim message = "") then None else Some message
  | None => None
  end.

Definition node_error_message (output : value) (node_id : string) : option string :=
  get "nodes" output >>? get node_id >>? get "items" >>? as_array >>? λ items,
  head (omap (λ item, get "json" item >>? error_message) items).

Definition is_prompt_miss (node : option Node) (null : NullResolution) : bool :=
  match node with Some n => is_agent n | None => false end &&
  bool_decide (miss_location null ∈ ["prompt"; "instruction"]).

Definition outside_work (kind : NodeKind) : bool := bool_decide (kind ∈ [Agent; ToolCall; HttpRequest]).

(** The walk over the steps and the misses of each, in order. *)
Definition of_misses {A} (k : TracedStep → NullResolution → list A) (steps : list TracedStep) : list A :=
  concat ((λ s, concat (k s <$> ts_diagnostics s)) <$> steps).

Definition diagnose (g : WorkflowGraph) (steps : list TracedStep) : Diagnosis :=
  mkDiagnosis
    (of_misses (λ s null, if is_prompt_miss (node_of g (ts_node_id s)) null then []
                          else [null_binding g (ts_node_id s) null]) steps)
    (of_misses (λ s null, if is_prompt_miss (node_of g (ts_node_id s)) null then [ts_node_id s] else []) steps)
    (omap (λ s, match ts_status s with
                | StepError => Some (mkHiddenError (ts_node_id s) (error_message (ts_output s)))
                | StepSuccess => None
                end) steps)
    (omap (λ n, if outside_work (nd_kind n) && bool_decide (nd_id n ∉ ts_node_id <$> steps)
                then Some (mkNeverRan (nd_id n) (nearest_upstream_condition g (nd_id n))) else None)
       (wg_nodes g)).

(** ** What the loop rebuilds ([RunReport::into_ran]) *)

Record LoopResumePoint := mkResumePoint { rp_thread : string; rp_failed_node : string; rp_workflow : string }.

Record WireReport := mkRunReport {
  rt_attempt_id : string;
  rt_steps : list StepRecord;
  rt_pending_approvals : list string;
  rt_cancelled : bool;
  rt_changed : string;
  rt_failed : option string;
  rt_cost_usd : spec_float
}.

Record Ran := mkRan {
  rn_outcome : RunOutcome;
  rn_diagnosis : Diagnosis;
  rn_changed : string;
  rn_failed : option string;
  rn_steps : list StepRecord;
  rn_cost_usd : spec_float;
  rn_resume : option LoopResumePoint
}.

Definition into_ran (r : WireReport) (g : WorkflowGraph) : Ran :=
  let nodes := foldl (λ m s, obj_insert (sr_node_id s) (bounded_within f (sr_output s) PROMPT_BUDGET) m)
                 [] (rt_steps r) in
  let output := if decide (nodes = []) then [] else obj_insert "nodes" (Object nodes) [] in
  let output := match rt_failed r with Some m => obj_insert "error" (Str m) output | None => output end in
  mkRan (mkRunOutcome (Object output) (rt_pending_approvals r) (rt_cancelled r))
    (diagnose g (to_step <$> rt_steps r)) (rt_changed r) (rt_failed r) (rt_steps r) (rt_cost_usd r) None.

(** [report], [serve], [unreported] and the two runners of [execute/mod.rs]: a
    run of the engine is what its observer captured and how it ended. *)
Definition report (attempt_id : string) (captured : list TracedStep) (changed : string)
    (failed : option string) (outcome : RunOutcome) : WireReport :=
  mkRunReport attempt_id ((λ s, step_bounded f s RECORD_BUDGET) <$> captured)
    (ro_pending_approvals outcome) (ro_cancelled outcome) changed failed (S754_zero false).

Inductive EngineRunEnd :=
| DidNotCompile (error : string)
| RunErrored (error : string)
| RunEnded (outcome : RunOutcome).

Definition serve (attempt_id : string) (captured : list TracedStep) (changed : string) (e : EngineRunEnd)
    : WireReport :=
  let empty := mkRunOutcome (Object []) [] false in
  match e with
  | DidNotCompile error => report attempt_id [] changed (Some error) empty
  | RunErrored error => report attempt_id captured changed (Some error) empty
  | RunEnded outcome => report attempt_id captured changed None outcome
  end.

Definition run_attempt (g : WorkflowGraph) (captured : list TracedStep) (changed : string) (e : EngineRunEnd)
    : Ran := into_ran (serve "" captured changed e) g.

Definition unreported (g : WorkflowGraph) (why : string) : Ran :=
  into_ran (mkRunReport "" [] [] false
    ("unknown — the runner did not report (" +:+ why +:+
     "). Whether the run did any of the work is not established either way.")
    (Some ("no report from the runner: " +:+ why)) (S754_zero false)) g.

Definition remote_run (dispatch : result string WireReport) (g : WorkflowGraph) : Ran :=
  match dispatch with Ok r => into_ran r g | Err why => unreported g why end.
End Diagnose.

(** ** Bounds *)

Lemma cut_length n s : String.length (cut n s) ≤ n.
Proof. unfold cut. etrans; [apply substring_length|apply floor_boundary_le]. Qed.

Lemma entry_bounded_text at_ms kind text : String.length (te_text (entry_bounded at_ms kind text)) ≤ MAX_ENTRY_TEXT_BYTES.
Proof.
  unfold entry_bounded. cbn [te_text]. case_decide as Ht; [|lia]. rewrite str_app_length.
  pose proof (cut_length (MAX_ENTRY_TEXT_BYTES - String.length TRUNCATION_MARKER) text).
  assert (String.length TRUNCATION_MARKER ≤ MAX_ENTRY_TEXT_BYTES) by (vm_compute; lia). lia.
Qed.

Lemma fitting_spec half edge spent es :
  spent ≤ half →
  let n := fitting half edge spent es in
  n ≤ length es ∧ n ≤ edge ∧ spent + total_cost (take n es) ≤ half.
Proof.
  revert spent es. induction edge as [|edge IH]; intros spent es Hs; cbn.
  { rewrite take_0. unfold total_cost. cbn. split_and!; lia. }
  destruct es as [|e es]; cbn; [unfold total_cost; cbn; split_and!; lia|].
  case_decide as Hc; cbn; [rewrite ?take_0; unfold total_cost; cbn; split_and!; lia|].
  destruct (IH (spent + entry_cost e) es) as (H1 & H2 & H3); [lia|].
  unfold total_cost in *. cbn. split_and!; lia.
Qed.

Lemma total_cost_app a b : total_cost (a ++ b) = total_cost a + total_cost b.
Proof. unfold total_cost. rewrite fmap_app. induction (entry_cost <$> a) as [|x l IH]; cbn; [done|lia]. Qed.
Lemma total_cost_rev a : total_cost (rev a) = total_cost a.
Proof. induction a as [|x a IH]; [done|]. cbn [rev]. rewrite total_cost_app, IH. unfold total_cost. cbn. lia. Qed.

Lemma rebound_kind e : String.length (te_kind (rebound e)) ≤ TRANSCRIPT_KIND_BYTES.
Proof. unfold rebound, entry_bounded. cbn [te_kind]. case_decide; [apply cut_length|lia]. Qed.

Lemma two_halves b : b / 2 + b / 2 ≤ b.
Proof. pose proof (Nat.div_mod b 2). lia. Qed.

Lemma marker_kind at_ms n : String.length (te_kind (elision_marker at_ms n)) ≤ TRANSCRIPT_KIND_BYTES.
Proof. unfold elision_marker, entry_bounded, TRANSCRIPT_KIND_BYTES. cbn. lia. Qed.

(** A list between its first [h] and its last [t] elements. *)
Lemma split_ends {A} (l : list A) h t :
  h + t ≤ length l →
  ∃ middle, l = take h l ++ middle ++ drop (length l - t) l ∧ length middle = length l - h - t.
Proof.
  intros Hle. exists (take (length l - h - t) (drop h l)). split.
  - rewrite <- (take_drop h l) at 1. f_equal.
    rewrite <- (take_drop (length l - h - t) (drop h l)) at 1. f_equal.
    rewrite drop_drop. f_equal. lia.
  - rewrite length_take, length_drop. lia.
Qed.

(** The transcript kept of a step is bounded, and it keeps both ends.  Every
    entry's text and kind are capped; a transcript within the budget is kept
    whole; otherwise what is kept is a head and a tail of at most 32 entries
    each, each within half the budget, around one marker that says how many
    entries were left out, unless nothing was. *)
Theorem transcript_bounded (entries : list TranscriptEntry) :
  let out := rebound <$> entries in
  let kept := bounded_transcript entries in
  Forall (λ e, String.length (te_text e) ≤ MAX_ENTRY_TEXT_BYTES ∧
               String.length (te_kind e) ≤ TRANSCRIPT_KIND_BYTES) kept ∧
  ((kept = out ∧ total_cost out ≤ TRANSCRIPT_BUDGET) ∨
   ∃ head middle tail at_ms,
     out = head ++ middle ++ tail ∧ kept = head ++ [elision_marker at_ms (length middle)] ++ tail ∧
     middle ≠ [] ∧ length head ≤ TRANSCRIPT_EDGE ∧ length tail ≤ TRANSCRIPT_EDGE ∧
     total_cost head ≤ TRANSCRIPT_BUDGET / 2 ∧ total_cost tail ≤ TRANSCRIPT_BUDGET / 2).
Proof.
  intros out kept.
  assert (Hout : Forall (λ e, String.length (te_text e) ≤ MAX_ENTRY_TEXT_BYTES ∧
                              String.length (te_kind e) ≤ TRANSCRIPT_KIND_BYTES) out).
  { apply Forall_fmap, Forall_true. intros e. split; [apply entry_bounded_text|apply rebound_kind]. }
  subst kept. unfold bounded_transcript. fold out.
  case_decide as Hbudget; [by split; [|left]|].
  set (half := TRANSCRIPT_BUDGET / 2).
  destruct (fitting_spec half TRANSCRIPT_EDGE 0 out) as (Hh & Hhe & Hhc); [lia|].
  set (h := fitting half TRANSCRIPT_EDGE 0 out) in *.
  destruct (fitting_spec half TRANSCRIPT_EDGE 0 (take (length out - h) (rev out))) as (Ht & Hte & Htc); [lia|].
  set (t := fitting half TRANSCRIPT_EDGE 0 (take (length out - h) (rev out))) in *.
  rewrite length_take, length_rev in Ht.
  assert (Htail : total_cost (drop (length out - t) out) ≤ half).
  { rewrite take_take, Nat.min_l in Htc by lia. rewrite firstn_rev, total_cost_rev in Htc. lia. }
  destruct (split_ends out h t) as (middle & Hsplit & Hm); [lia|].
  case_decide as Hd.
  - exfalso. apply Hbudget. rewrite Hsplit. rewrite (nil_length_inv middle) by lia.
    rewrite total_cost_app. cbn [app]. etrans; [|apply (two_halves TRANSCRIPT_BUDGET)].
    fold half. clearbody half. lia.
  - split.
    + rewrite Hsplit in Hout. rewrite !Forall_app in Hout |- *. destruct Hout as (? & _ & ?).
      split_and!; [done| |done]. apply Forall_singleton. split; [apply entry_bounded_text|apply marker_kind].
    + right. eexists (take h out), middle, (drop (length out - t) out), _. rewrite Hm.
      split_and!; [done|done| | | | |done].
      * intros Hnil%(f_equal length). rewrite Hm in Hnil. by apply Hd.
      * rewrite length_take. lia.
      * rewrite length_drop. lia.
      * lia.
Qed.

(** The budget of a transcript is not a bound on what is kept of it: the two
    ends may use it up, and the marker between them is added on top. *)
Theorem transcript_over_budget :
  ∃ entries, TRANSCRIPT_BUDGET < total_cost (bounded_transcript entries).
Proof.
  set (line := mkEntry 0 "" (repeat_char "x" MAX_ENTRY_TEXT_BYTES)).
  exists (replicate 65 line). apply Nat.ltb_lt. vm_compute. reflexivity.
Qed.

(** ** The condition that routed past a node *)

Definition condition_node (g : WorkflowGraph) (x : string) : Prop :=
  ∃ n, n ∈ wg_nodes g ∧ nd_id n = x ∧ nd_kind n = Condition.
Lemma condition_node_spec g x :
  existsb (λ n, bool_decide (nd_id n = x) && bool_decide (nd_kind n = Condition)) (wg_nodes g) = true
  ↔ condition_node g x.
Proof.
  rewrite existsb_exists. unfold condition_node. setoid_rewrite <- list_elem_of_In.
  setoid_rewrite andb_true_iff. by setoid_rewrite bool_decide_eq_true.
Qed.

Lemma scan_upstream_spec g current froms queue seen :
  (∀ a, a ∈ froms → edge_step g a current) →
  match scan_upstream g froms queue seen with
  | inl found => found ∈ froms ∧ condition_node g found
  | inr (queue', seen') =>
      seen' = list_to_set froms ∪ seen ∧ (∀ x, x ∈ queue' ↔ x ∈ queue ∨ (x ∈ froms ∧ x ∉ seen)) ∧
      (∀ x, x ∈ froms → x ∉ seen → ¬ condition_node g x) ∧
      length queue' + unseen_sources g seen' ≤ length queue + unseen_sources g seen
  end.
Proof.
  revert queue seen. induction froms as [|a froms IH]; intros queue seen Hl; cbn [scan_upstream].
  { split_and!; set_solver by lia. }
  case_decide as Ha.
  { specialize (IH queue seen ltac:(set_solver)). destruct (scan_upstream _ _ _ _) as [found|[q s]]; [set_solver|].
    destruct IH as (-> & Hq & Hc & Hm). split_and!; [set_solver| |set_solver|done].
    intros x. rewrite Hq. destruct (decide (x = a)); set_solver. }
  destruct (existsb _ _) eqn:Hcond; [apply condition_node_spec in Hcond; set_solver|].
  assert (Hno : ¬ condition_node g a) by (rewrite <- condition_node_spec; congruence).
  specialize (IH (queue ++ [a]) ({[a]} ∪ seen) ltac:(set_solver)).
  destruct (scan_upstream _ _ _ _) as [found|[q s]]; [set_solver|].
  destruct IH as (-> & Hq & Hc & Hm). split_and!; [set_solver| | |].
  - intros x. rewrite Hq. destruct (decide (x = a)); set_solver.
  - intros x. destruct (decide (x = a)) as [->|]; [done|]. intros. apply Hc; set_solver.
  - pose proof (unseen_sources_mark g seen a current ltac:(set_solver) Ha). rewrite length_app in Hm. cbn in Hm. lia.
Qed.

Lemma upstream_loop_spec g target fuel queue seen :
  length queue + unseen_sources g seen < fuel →
  target ∈ seen →
  (∀ x, x ∈ queue → x = target ∨ tc (edge_step g) x target) →
  (∀ x, x ∈ seen → x = target ∨ ¬ condition_node g x) →
  (∀ x, x ∈ seen → x ∈ queue ∨ ∀ y, edge_step g y x → y ∈ seen) →
  match upstream_loop g fuel queue seen with
  | Some c => condition_node g c ∧ tc (edge_step g) c target
  | None => ∀ x, tc (edge_step g) x target → x = target ∨ ¬ condition_node g x
  end.
Proof.
  revert queue seen. induction fuel as [|fuel IH]; intros queue seen Hf Ht Hq Hs Hc; [lia|].
  cbn [upstream_loop]. destruct queue as [|n rest].
  { intros x Hx. apply Hs. remember target as z eqn:Hz in Hx.
    assert (Hclosed : ∀ x, x ∈ seen → ∀ y, edge_step g y x → y ∈ seen).
    { intros y Hy. destruct (Hc y Hy) as [Hin|]; [by apply elem_of_nil in Hin|done]. }
    induction Hx as [x y Hxy|x y z Hxy Hyz IHt]; subst; eauto. }
  pose proof (scan_upstream_spec g n (incoming g n) rest seen) as Hscan.
  specialize (Hscan ltac:(by intros a Ha; apply incoming_spec)).
  assert (Hto : ∀ x, x ∈ incoming g n → tc (edge_step g) x target).
  { intros x Hx%incoming_spec. destruct (Hq n ltac:(left)) as [->|Hn]; [by apply tc_once|by eapply tc_l]. }
  destruct (scan_upstream _ _ _ _) as [found|[q' s']]; [naive_solver|].
  destruct Hscan as (-> & Hmem & Hno & Hm). apply IH.
  - cbn in Hf. lia.
  - set_solver.
  - intros x [Hx|[Hx _]]%Hmem; [apply Hq; by right|right; auto].
  - intros x Hx. destruct (decide (x ∈ seen)) as [|Hnew]; [auto|]. right. apply Hno; set_solver.
  - intros x Hx. destruct (decide (x ∈ q')) as [|Hnq]; [by left|right]. intros y Hy.
    destruct (decide (x = n)) as [->|Hne].
    { apply elem_of_union_l, elem_of_list_to_set, incoming_spec, Hy. }
    assert (x ∈ seen) as Hold.
    { apply elem_of_union in Hx as [Hx%elem_of_list_to_set|]; [|done].
      destruct (decide (x ∈ seen)); [done|]. destruct Hnq. apply Hmem. by right. }
    destruct (Hc x Hold) as [[->|Hr]%elem_of_cons|Hcl]; [done| |set_solver].
    destruct Hnq. apply Hmem. by left.
Qed.

(** A node that never ran is explained by a condition exactly when there is
    one to blame: the search upstream ends, names only a condition node from
    which the node can be reached, and names none only when no other node
    upstream is a condition. *)
Theorem upstream_condition_exact (g : WorkflowGraph) (node_id : string) :
  match nearest_upstream_condition g node_id with
  | Some c => condition_node g c ∧ tc (edge_step g) c node_id
  | None => ∀ x, tc (edge_step g) x node_id → x = node_id ∨ ¬ condition_node g x
  end.
Proof.
  apply upstream_loop_spec; [|set_solver..].
  pose proof (unseen_sources_le g {[node_id]}). cbn [length]. lia.
Qed.
