(* ===== verification/HostGuards.v ===== *)
(** * The host side of http, shell and code nodes

    [crates/tinyflows/src/caps/http_credential.rs] and [caps/host/]: the
    outbound HTTP client with its allowlist and its refusal of private addresses
    ([http.rs]), the checks on script paths, environments and interpreters
    ([script_policy.rs], [script.rs]), the staging of a script and the seam to
    the process that runs it ([script/runner.rs], [script/spawner.rs]), and the
    two runners over it ([shell.rs], [code.rs]).

    Arguments are what the code takes from outside: the URL parser and the
    transport of [reqwest], the resolver, base64, the file system, the temporary
    directory and the spawned process.  The parser of [std::net::IpAddr] and its
    classification of addresses are modelled. *)

From S2P Require Import Prelude Json GraphTypes Workflow Text Postcondition WfConfig AgentRequest AgentPrompt Capability Diagnosis.
From Stdlib Require Import Ascii.

(** ** Addresses ([std::net]) *)

Inductive IpAddr :=
| V4 (a b c d : Z)
| V6 (segments : list Z).
#[export] Instance IpAddr_eq_dec : EqDecision IpAddr.
Proof. solve_decision. Defined.

Definition hex_value (c : ascii) : option Z :=
  if is_ascii_digit c then Some (Z.of_N (N_of_ascii c) - 48)%Z
  else if ascii_in "a"%char "f"%char (to_lower c) then Some (Z.of_N (N_of_ascii (to_lower c)) - 87)%Z
  else None.
Definition digit_in (radix : Z) (c : ascii) : option Z :=
  hex_value c >>? λ v, if decide (v < radix)%Z then Some v else None.

(** [Parser::read_number]: the digits are all read, more than [max_digits] of
    them are refused, and so is a leading zero where none is allowed. *)
Fixpoint read_digits (radix : Z) (room : nat) (acc : Z) (count : nat) (s : string) {struct s}
    : option (Z * nat * string) :=
  match s with
  | SCons c rest =>
      match digit_in radix c with
      | Some v =>
          match room with
          | 0 => None
          | S room => read_digits radix room (acc * radix + v)%Z (S count) rest
          end
      | None => Some (acc, count, s)
      end
  | EmptyString => Some (acc, count, s)
  end.
Definition read_number (radix : Z) (max_digits : nat) (zero_prefix : bool) (bound : Z) (s : string)
    : option (Z * string) :=
  let leading_zero := match s with SCons c _ => bool_decide (c = "0"%char) | EmptyString => false end in
  read_digits radix max_digits 0%Z 0 s >>? λ '(v, count, rest),
  if decide (count = 0) then None
  else if negb zero_prefix && leading_zero && bool_decide (1 < count) then None
  else if decide (v ≤ bound)%Z then Some (v, rest) else None.

Definition given_char (c : ascii) (s : string) : option string :=
  match s with SCons d rest => if decide (d = c) then Some rest else None | EmptyString => None end.
(** [Parser::read_separator]: nothing before the first element. *)
Definition after_separator {A} (sep : ascii) (index : nat) (inner : string → option (A * string)) (s : string)
    : option (A * string) :=
  if decide (index = 0) then inner s else given_char sep s >>? inner.

Definition read_octet : string → option (Z * string) := read_number 10 3 false 255%Z.
Definition read_ipv4 (s : string) : option ((Z * Z * Z * Z) * string) :=
  after_separator "." 0 read_octet s >>? λ '(a, s),
  after_separator "." 1 read_octet s >>? λ '(b, s),
  after_separator "." 2 read_octet s >>? λ '(c, s),
  after_separator "." 3 read_octet s >>? λ '(d, s), Some ((a, b, c, d), s).

(** [read_groups] with [left] groups still to fill from index [i] on: the groups
    read, whether an embedded IPv4 address ended them, and the rest. *)
Fixpoint read_groups (left i : nat) (s : string) : list Z * bool * string :=
  match left with
  | 0 => ([], false, s)
  | S left' =>
      match (if decide (1 < left) then after_separator ":" i read_ipv4 s else None) with
      | Some ((a, b, c, d), rest) => ([a * 256 + b; c * 256 + d]%Z, true, rest)
      | None =>
          match after_separator ":" i (read_number 16 4 true 65535%Z) s with
          | Some (g, rest) => let '(gs, v4, rest) := read_groups left' (S i) rest in (g :: gs, v4, rest)
          | None => ([], false, s)
          end
      end
  end.
Definition read_ipv6 (s : string) : option (list Z * string) :=
  let '(head, v4, rest) := read_groups 8 0 s in
  if decide (length head = 8) then Some (head, rest)
  else if v4 : bool then None
  else
    given_char ":" rest >>? given_char ":" >>? λ rest,
    let '(tail, _, rest) := read_groups (8 - (length head + 1)) 0 rest in
    Some (head ++ replicate (8 - length head - length tail) 0%Z ++ tail, rest).

(** [str::parse::<IpAddr>]. *)
Definition parse_ip (s : string) : option IpAddr :=
  match read_ipv4 s with
  | Some ((a, b, c, d), rest) => if decide (rest = "") then Some (V4 a b c d) else None
  | None => read_ipv6 s >>? λ '(g, rest), if decide (rest = "") then Some (V6 g) else None
  end.

(** ** Private addresses ([http.rs]) *)

Definition is_private_v4 (a b c d : Z) : bool :=
  (let shared := bool_decide (a = 100) && bool_decide (Z.land b 192 = 64) in
  let is_loopback := bool_decide (a = 127) in
  let is_private := bool_decide (a = 10) || (bool_decide (a = 172) && bool_decide (16 ≤ b ≤ 31)) ||
                    (bool_decide (a = 192) && bool_decide (b = 168)) in
  let is_link_local := bool_decide (a = 169) && bool_decide (b = 254) in
  let is_unspecified := bool_decide (a = 0 ∧ b = 0 ∧ c = 0 ∧ d = 0) in
  is_loopback || is_private || is_link_local || is_unspecified || shared)%Z.

Definition to_ipv4_mapped (segments : list Z) : option (Z * Z * Z * Z) :=
  match segments with
  | [0; 0; 0; 0; 0; 65535; ab; cd]%Z =>
      Some (Z.shiftr ab 8, Z.land ab 255, Z.shiftr cd 8, Z.land cd 255)
  | _ => None
  end.

Definition is_private_addr (addr : IpAddr) : bool :=
  match addr with
  | V4 a b c d => is_private_v4 a b c d
  | V6 segments =>
      match to_ipv4_mapped segments with
      | Some (a, b, c, d) => is_private_v4 a b c d
      | None =>
          let first := default 0%Z (segments !! 0) in
          bool_decide (segments = [0; 0; 0; 0; 0; 0; 0; 1]%Z) || bool_decide (segments = replicate 8 0%Z) ||
          bool_decide (Z.land first 65472 = 65152)%Z || bool_decide (Z.land first 65024 = 64512)%Z
      end
  end.

Definition bracket (c : ascii) : bool := bool_decide (c = "["%char) || bool_decide (c = "]"%char).

Definition is_private_host (host : string) : bool :=
  let host := lower_ascii (trim_matches bracket host) in
  if bool_decide (host = "localhost") || ends_with ".localhost" host || ends_with ".internal" host then true
  else match parse_ip host with Some addr => is_private_addr addr | None => false end.

(** ** The allowlist ([http.rs]) *)

Record HostAllowlist := mkAllowlist { al_entries : list string }.

Definition allowlist_allows (l : HostAllowlist) (host : string) : bool :=
  let host := lower_ascii (trim host) in
  if decide (host = "") then false
  else existsb (λ allowed,
         let allowed := lower_ascii (trim allowed) in
         if decide (allowed = "") then false
         else bool_decide (host = allowed) || ends_with ("." +:+ allowed) host) (al_entries l).
Definition allowlist_is_empty (l : HostAllowlist) : bool :=
  forallb (λ entry, bool_decide (trim entry = "")) (al_entries l).

(** ** Credentials ([http_credential.rs]) *)

Definition HTTP_CRED_PREFIX : string := "http_cred:".

Definition http_cred_name (conn : option string) : result EngineError (option string) :=
  match non_blank (trim <$> conn) with
  | None => Ok None
  | Some conn =>
      match strip_prefix HTTP_CRED_PREFIX conn with
      | Some name =>
          if decide (name = "") then
            Err (ECapability ("http_request: unrecognised connection_ref '" +:+ conn +:+ "'; expected '" +:+
                              HTTP_CRED_PREFIX +:+ "<name>'"))
          else Ok (Some name)
      | None =>
          Err (ECapability ("http_request: unrecognised connection_ref '" +:+ conn +:+ "'; expected '" +:+
                            HTTP_CRED_PREFIX +:+ "<name>'"))
      end
  end.

Definition upper_char (c : ascii) : ascii :=
  if ascii_in "a"%char "z"%char c then ascii_of_N (N_of_ascii c - 32) else c.
Fixpoint upper_ascii (s : string) : string :=
  match s with EmptyString => "" | SCons c s => SCons (upper_char c) (upper_ascii s) end.

Definition method_of (request : value) : string := upper_ascii (default "GET" (get "method" request >>? as_str)).
Definition redacted_summary (request : value) : string :=
  method_of request +:+ " " +:+ default "" (get "url" request >>? as_str).

Record HttpCredential := mkCredential { hc_header : string; hc_value : string }.

Inductive HttpCredentialTemplate :=
| TBearer (secret : string)
| TBasic (username secret : string)
| THeader (header secret : string)
| TResolved (header v : string).

Definition render_credential (base64 : string → string) (t : HttpCredentialTemplate)
    : result EngineError HttpCredential :=
  match t with
  | TBearer secret =>
      if decide (trim secret = "") then Err (ECapability "http_request: bearer credential is empty")
      else Ok (mkCredential "Authorization" ("Bearer " +:+ secret))
  | TBasic username secret =>
      Ok (mkCredential "Authorization" ("Basic " +:+ base64 (username +:+ ":" +:+ secret)))
  | THeader header secret =>
      if decide (trim header = "") then Err (ECapability "http_request: custom credential header is empty")
      else if decide (trim secret = "") then Err (ECapability "http_request: custom credential value is empty")
      else Ok (mkCredential (trim header) secret)
  | TResolved header v => Ok (mkCredential header v)
  end.

Definition inject_credential (request : value) (cred : HttpCredential) : result EngineError value :=
  match request with
  | Object fields =>
      let headers := match obj_get "headers" fields with
                     | None | Some Null => Object []
                     | Some h => h
                     end in
      match headers with
      | Object hs =>
          let kept := filter (λ kv, eq_ignore_ascii_case kv.1 (hc_header cred) = false) hs in
          Ok (Object (obj_insert "headers" (Object (obj_insert (hc_header cred) (Str (hc_value cred)) kept)) fields))
      | _ => Err (ECapability "http_request: headers must be an object or null")
      end
  | _ => Err (ECapability "http_request: request must be an object")
  end.

(** ** The client ([http.rs]) *)

Record SocketAddr := mkSocket { sk_ip : IpAddr; sk_port : Z }.
Record Url := mkUrl { ur_scheme : string; ur_host : option string; ur_port : option Z }.

(** The settings a client is built with: which redirects it follows, the one
    name it resolves by itself and to which addresses, and its timeouts in
    seconds. *)
Inductive RedirectPolicy := FollowNone | FollowUpTo (max : nat).
Record Client := mkClient {
  cl_redirect : RedirectPolicy;
  cl_resolve : option (string * list SocketAddr);
  cl_connect_timeout : option Z;
  cl_read_timeout : option Z
}.

Record Sent := mkSent {
  sn_client : Client; sn_method : string; sn_url : Url;
  sn_headers : list (string * string); sn_body : option value
}.

(** How the lookup on the blocking pool ended. *)
Inductive Lookup := Answered (addrs : result string (list SocketAddr)) | LookupPanicked | LookupTimedOut.

(** [he_send] answers the requests that left, each with its URL and the address
    that was connected to, and the response; [he_proxied] says whether a proxy of
    the environment takes the URL. *)
Record HttpEnv := mkHttpEnv {
  he_parse_url : string → result string Url;
  he_lookup : string → Z → Lookup;
  he_build : Client → result string unit;
  he_method : string → result string string;
  he_send : Sent → list (Url * IpAddr) * result string (Z * result string string);
  he_proxied : Url → bool;
  he_parse_json : string → option value;
  he_print_ip : IpAddr → string
}.

Section Http.
Context (env : HttpEnv) (allowlist : HostAllowlist) (credentials : gmap string HttpCredential).

Definition refuse_http (message : string) : EngineError := ECapability ("http_request: " +:+ message).

Definition vet_resolution (host : string) (answer : result string (list SocketAddr))
    : result EngineError (list SocketAddr) :=
  match answer with
  | Err err => Err (refuse_http ("cannot resolve '" +:+ host +:+ "': " +:+ err))
  | Ok resolved =>
      match find_first (λ a, is_private_addr (sk_ip a)) resolved with
      | Some private =>
          Err (refuse_http ("refusing '" +:+ host +:+ "': it resolves to " +:+ he_print_ip env (sk_ip private) +:+
                            ", which is loopback or private"))
      | None =>
          if decide (resolved = []) then
            Err (refuse_http ("cannot resolve '" +:+ host +:+ "': it has no addresses"))
          else Ok resolved
      end
  end.

Definition resolve_with_timeout (host : string) (port : Z) : result EngineError (list SocketAddr) :=
  match he_lookup env host port with
  | Answered answer => vet_resolution host answer
  | LookupPanicked => Err (refuse_http "dns lookup task panicked")
  | LookupTimedOut => Err (refuse_http "dns lookup timed out")
  end.

Definition permit (request : value) : result EngineError (Url * list SocketAddr) :=
  let? raw := ok_or (get "url" request >>? as_str) (refuse_http "no url") in
  let? url := match he_parse_url env raw with
              | Ok url => Ok url
              | Err err => Err (refuse_http ("invalid url: " +:+ err))
              end in
  if negb (bool_decide (ur_scheme url = "http") || bool_decide (ur_scheme url = "https")) then
    Err (refuse_http ("refusing scheme '" +:+ ur_scheme url +:+ "'"))
  else
    let? host := ok_or (ur_host url) (refuse_http "url has no host") in
    if is_private_host host then
      Err (refuse_http ("refusing '" +:+ host +:+ "': loopback and private addresses are not reachable from a workflow"))
    else if negb (allowlist_allows allowlist host) then
      Err (refuse_http ("'" +:+ host +:+ "' is not in the configured http allowlist"))
    else
      let port := default (if decide (ur_scheme url = "https") then 443%Z else 80%Z) (ur_port url) in
      let? vetted := resolve_with_timeout host port in
      Ok (url, vetted).

Definition CONNECT_TIMEOUT : Z := 15.
Definition READ_TIMEOUT : Z := 300.

Definition plain_client : Client := mkClient FollowNone None (Some CONNECT_TIMEOUT) (Some READ_TIMEOUT).

Definition pinned (host : string) (addrs : list SocketAddr) : result EngineError Client :=
  let bare := trim_matches bracket host in
  if decide (addrs = []) then Ok plain_client
  else if decide (is_Some (parse_ip bare)) then Ok plain_client
  else
    let client := mkClient FollowNone (Some (bare, addrs)) (Some CONNECT_TIMEOUT) (Some READ_TIMEOUT) in
    match he_build env client with
    | Ok _ => Ok client
    | Err err => Err (refuse_http ("cannot build client: " +:+ err))
    end.

Definition resolve_credential (conn : option string) : result EngineError (option HttpCredential) :=
  let? name := http_cred_name conn in
  match name with
  | None => Ok None
  | Some name =>
      match credentials !! name with
      | Some cred => Ok (Some cred)
      | None => Err (refuse_http ("unknown credential '" +:+ name +:+ "'"))
      end
  end.

Definition header_pair (kv : string * value) : option (string * string) :=
  match kv.2 with Str s => Some (kv.1, s) | _ => None end.
Definition header_pairs (request : value) : list (string * string) :=
  match get "headers" request >>? as_object with
  | Some headers => omap header_pair headers
  | None => []
  end.

(** What is sent and under which summary, or the refusal. *)
Definition prepare (request : value) (conn : option string) : result EngineError Sent :=
  let? permitted := permit request in
  let '(url, vetted) := permitted in
  let? client := pinned (default "" (ur_host url)) vetted in
  let? credential := resolve_credential conn in
  if bool_decide (is_Some credential) && bool_decide (ur_scheme url = "http") then
    Err (refuse_http "refusing to send a credential over plain http")
  else
    let? request := match credential with Some cred => inject_credential request cred | None => Ok request end in
    let? method := match he_method env (method_of request) with
                   | Ok m => Ok m
                   | Err err => Err (refuse_http err)
                   end in
    Ok (mkSent client method url (header_pairs request) (get "body" request)).

Definition http_request (request : value) (conn : option string) : list Sent * result EngineError value :=
  match prepare request conn with
  | Err e => ([], Err e)
  | Ok sent =>
      let summary := redacted_summary request in
      ([sent],
       match (he_send env sent).2 with
       | Err err => Err (refuse_http (summary +:+ ": " +:+ err))
       | Ok (_, Err err) => Err (refuse_http (summary +:+ ": " +:+ err))
       | Ok (status, Ok text) =>
           Ok (json_object [("status", Number (PosInt status)); ("text", Str text);
                            ("json", default Null (he_parse_json env text))])
       end)
  end.
End Http.

(** ** Script arguments ([script_policy.rs]) *)

Definition refused_shell (message : string) : EngineError := ECapability ("shell: " +:+ message).

Record ScriptPolicy := mkPolicy { po_workspace : option string }.

Section Policy.
Context (fs : Fs) (is_file : string → bool).

Definition policy_new (workspace : string) : ScriptPolicy :=
  mkPolicy (if negb (bool_decide (trim workspace = "")) && fs_is_dir fs workspace then Some workspace else None).

Definition resolve_script_path (p : ScriptPolicy) (raw field : string) : result EngineError string :=
  match po_workspace p with
  | None =>
      Err (refused_shell ("`args." +:+ field +:+
        "` needs a configured workspace to resolve against, and this host has none; pass `args.script` instead"))
  | Some workspace =>
      match resolve_in_workspace fs workspace raw ("args." +:+ field) Refuse with
      | Ok path => Ok path
      | Err m => Err (refused_shell m)
      end
  end.
Definition resolve_script (p : ScriptPolicy) (raw : string) : result EngineError string :=
  let? resolved := resolve_script_path p raw "script_path" in
  if is_file resolved then Ok resolved
  else Err (refused_shell ("`args.script_path` ('" +:+ raw +:+ "') is not a file in the workspace")).
Definition resolve_cwd (p : ScriptPolicy) (raw : string) : result EngineError string :=
  let? resolved := resolve_script_path p raw "cwd" in
  if fs_is_dir fs resolved then Ok resolved
  else Err (refused_shell ("`args.cwd` ('" +:+ raw +:+ "') is not a directory in the workspace")).
End Policy.

Definition is_valid_env_name (name : string) : bool :=
  let alphanumeric_ c := is_ascii_alphabetic c || is_ascii_digit c || bool_decide (c = "_"%char) in
  match name with
  | EmptyString => false
  | SCons first rest =>
      (is_ascii_alphabetic first || bool_decide (first = "_"%char)) &&
      forallb alphanumeric_ (String.list_ascii_of_string rest)
  end.

Definition NUL : ascii := ascii_of_nat 0.
Definition has_nul (s : string) : bool := bool_decide (NUL ∈ String.list_ascii_of_string s).

Definition read_env (v : option value) : result EngineError (list (string * string)) :=
  match v with
  | None => Ok []
  | Some v =>
      let? fields := ok_or (as_object v)
        (refused_shell "`args.env` must be an object mapping variable names to string values") in
      fold_result (λ acc nv,
        if negb (is_valid_env_name nv.1) then
          Err (refused_shell ("`args.env` has an invalid variable name '" +:+ nv.1 +:+
            "'; expected letters, digits, and underscores, not starting with a digit"))
        else
          match as_str nv.2 with
          | None => Err (refused_shell ("`args.env." +:+ nv.1 +:+ "` must be a string, not " +:+ kind_of nv.2))
          | Some s =>
              if has_nul s then
                Err (refused_shell ("`args.env." +:+ nv.1 +:+
                       "` contains a NUL byte, which cannot be passed to a process"))
              else Ok (acc ++ [(nv.1, s)])
          end) [] fields
  end.

(** ** Languages and interpreters ([script.rs]) *)

Definition INPUT_ENV : string := "TINYFLOWS_INPUT".
Definition DEFAULT_SHELL : string := "bash".
Definition USER_SHELL : string := "user".

Inductive ScriptLanguage := LangJavaScript | LangPython | LangShell.
#[export] Instance ScriptLanguage_eq_dec : EqDecision ScriptLanguage.
Proof. solve_decision. Defined.

Definition language_program (l : ScriptLanguage) : string * string :=
  match l with LangJavaScript => ("node", "js") | LangPython => ("python3", "py") | LangShell => (DEFAULT_SHELL, "sh") end.
Definition language_as_str (l : ScriptLanguage) : string :=
  match l with LangJavaScript => "javascript" | LangPython => "python" | LangShell => "shell" end.
Definition language_parse (name : string) : option ScriptLanguage :=
  let name := lower_ascii (trim name) in
  if decide (name ∈ ["javascript"; "js"; "node"; "nodejs"]) then Some LangJavaScript
  else if decide (name ∈ ["python"; "python3"; "py"]) then Some LangPython
  else if decide (name ∈ ["shell"; "sh"; "bash"]) then Some LangShell else None.
Definition pins_interpreter (name : string) : bool :=
  let name := lower_ascii (trim name) in bool_decide (name ∈ ["bash"; "sh"]).
Definition language_of_code (l : CodeLanguage) : ScriptLanguage :=
  match l with JavaScript => LangJavaScript | Python => LangPython end.

Record Interpreter := mkInterpreter { it_program : string; it_args : list string }.

Definition refused_script (message : string) : EngineError := ECapability ("script: " +:+ message).

Definition validated (f : Fmt) (program : string) (args : list string) : result EngineError Interpreter :=
  let program := trim program in
  if decide (program = "") then Err (refused_script "the interpreter must not be empty")
  else if has_nul program then
    Err (refused_script ("the interpreter " +:+ fmt_debug f program +:+
           " contains a NUL byte, which cannot be passed to a process"))
  else if bool_decide ("/"%char ∈ String.list_ascii_of_string program) && negb (is_absolute program) then
    Err (refused_script ("the interpreter " +:+ fmt_debug f program +:+
           " is a relative path; name a program on PATH (" +:+ quoted "zsh" +:+ ") or give an absolute path (" +:+
           quoted "/bin/zsh" +:+ ")"))
  else
    match find_first has_nul args with
    | Some arg =>
        Err (refused_script ("the interpreter argument " +:+ fmt_debug f arg +:+
               " contains a NUL byte, which cannot be passed to a process"))
    | None => Ok (mkInterpreter program args)
    end.

Definition resolve_interpreter (f : Fmt) (configured : string) (args : list string) (login_shell : option string)
    : result EngineError Interpreter :=
  let configured := trim configured in
  let program :=
    if decide (configured = "") then DEFAULT_SHELL
    else if decide (configured = USER_SHELL) then default DEFAULT_SHELL (non_blank (trim <$> login_shell))
    else configured in
  validated f program args.

(** ** Spawners ([script/spawner.rs]) *)

Record SpawnSpec := mkSpawn {
  sp_program : string; sp_args : list string; sp_env : gmap string string; sp_cwd : string;
  sp_staging_dir : string; sp_stdin : string; sp_timeout_ns : N
}.
Record SpawnOutput := mkSpawned { so_code : Z; so_out : string; so_err : string }.

(** What becomes of the child process. *)
Inductive Process :=
| CannotRun (err : string)
| Outlived
| WaitFailed (err : string)
| Exited (code : option Z) (out err : string).

Definition direct_spawn (process : SpawnSpec → Process) (spec : SpawnSpec) : result EngineError SpawnOutput :=
  match process spec with
  | CannotRun err =>
      Err (refused_script ("cannot run `" +:+ sp_program spec +:+ "` (" +:+ err +:+ "). Is it installed and on PATH?"))
  | Outlived => Err (refused_script ("timed out after " +:+ pretty (sp_timeout_ns spec / 10 ^ 9)%N +:+ "s"))
  | WaitFailed err => Err (refused_script (sp_program spec +:+ ": " +:+ err))
  | Exited code out err => Ok (mkSpawned (default (-1)%Z code) out err)
  end.

Record SpawnerState := mkSpawnerState {
  ss_installed : option (SpawnSpec → result EngineError SpawnOutput); ss_required : bool
}.
Definition spawner_initial : SpawnerState := mkSpawnerState None false.
Definition install_script_spawner sp (s : SpawnerState) : SpawnerState := mkSpawnerState (Some sp) (ss_required s).
Definition clear_script_spawner (s : SpawnerState) : SpawnerState := mkSpawnerState None (ss_required s).
Definition require_script_spawner (required : bool) (s : SpawnerState) : SpawnerState :=
  mkSpawnerState (ss_installed s) required.

Inductive Via := Jailed | Direct.
#[export] Instance Via_eq_dec : EqDecision Via.
Proof. solve_decision. Defined.

Definition current_spawner (process : SpawnSpec → Process) (s : SpawnerState)
    : result EngineError (Via * (SpawnSpec → result EngineError SpawnOutput)) :=
  match ss_installed s, ss_required s with
  | Some sp, _ => Ok (Jailed, sp)
  | None, true =>
      Err (refused_script "refused, a script spawner is required but none is installed (fail closed)")
  | None, false => Ok (Direct, direct_spawn process)
  end.

(** ** Staging and running ([script/runner.rs]) *)

Inductive ScriptSource := InlineSource (source : string) | FileSource (path : string).

Record ScriptRequest := mkScript {
  sr_language : ScriptLanguage; sr_interpreter : option Interpreter; sr_source : ScriptSource; sr_input : value;
  sr_timeout_ns : N; sr_cwd : option string; sr_env : gmap string string
}.
Definition script_plain (l : ScriptLanguage) (source : string) (input : value) (timeout : N) (env : gmap string string)
    : ScriptRequest :=
  mkScript l None (InlineSource source) input timeout None env.
Definition request_program (r : ScriptRequest) : string :=
  match sr_interpreter r with Some chosen => it_program chosen | None => (language_program (sr_language r)).1 end.

Record ScriptCompletion := mkCompletion { sc_exit_code : Z; sc_stdout : string; sc_stderr : string }.
Record ScriptOutput := mkScriptOutput { sd_value : value; sd_stderr : string }.

(** The temporary directory, writing a file, [serde_json::to_vec], the decoding
    of output, and the child process of [DirectSpawner]. *)
Record ScriptEnv := mkScriptEnv {
  pe_tempdir : result string string;
  pe_write : string → string → result string unit;
  pe_encode : value → result string string;
  pe_lossy : string → string;
  pe_process : SpawnSpec → Process;
  pe_parse_json : string → option value
}.

Section Scripts.
Context (f : Fmt) (env : ScriptEnv) (state : SpawnerState).

Definition staged {A} (r : result string A) : result EngineError A :=
  match r with Ok a => Ok a | Err err => Err (refused_script err) end.

(** The launch a request comes to, and the spawner it goes through. *)
Definition stage (r : ScriptRequest) : result EngineError (Via * (SpawnSpec → result EngineError SpawnOutput) * SpawnSpec) :=
  let '(default_program, extension) := language_program (sr_language r) in
  let '(program, leading) := match sr_interpreter r with
                             | Some chosen => (it_program chosen, it_args chosen)
                             | None => (default_program, [])
                             end in
  let? dir := staged (pe_tempdir env) in
  let? script := match sr_source r with
                 | InlineSource source =>
                     let path := path_join dir ("script." +:+ extension) in
                     let? _ := staged (pe_write env path source) in Ok path
                 | FileSource path => Ok path
                 end in
  let input_path := path_join dir "input.json" in
  let? body := staged (pe_encode env (sr_input r)) in
  let? _ := staged (pe_write env input_path body) in
  let? spawner := current_spawner (pe_process env) state in
  Ok (spawner,
      mkSpawn program (leading ++ [script; input_path]) (sr_env r ∪ {[INPUT_ENV := input_path]})
        (default dir (sr_cwd r)) dir body (sr_timeout_ns r)).

(** The launches made (none or one) and the result. *)
Definition run_script_capture (r : ScriptRequest) : list (Via * SpawnSpec) * result EngineError ScriptCompletion :=
  match stage r with
  | Err e => ([], Err e)
  | Ok (via, spawn, spec) =>
      ([(via, spec)],
       let? output := spawn spec in
       Ok (mkCompletion (so_code output) (trim (pe_lossy env (so_out output))) (trim (pe_lossy env (so_err output)))))
  end.

Definition MAX_STDERR_BYTES : nat := 4 * 1024.
Definition bounded_stderr (stderr : string) : string :=
  if decide (MAX_STDERR_BYTES < String.length stderr) then
    String.substring 0 (floor_boundary stderr MAX_STDERR_BYTES) stderr +:+ " …[truncated]"
  else stderr.

Definition run_script (r : ScriptRequest) : list (Via * SpawnSpec) * result EngineError ScriptOutput :=
  let '(launched, completion) := run_script_capture r in
  (launched,
   let? c := completion in
   if decide (sc_exit_code c = 0%Z) then
     Ok (mkScriptOutput (default (Str (sc_stdout c)) (pe_parse_json env (sc_stdout c))) (sc_stderr c))
   else
     let stderr := bounded_stderr (sc_stderr c) in
     Err (refused_script (request_program r +:+ " exited with " +:+ pretty (sc_exit_code c) +:+
            (if decide (stderr = "") then "" else ": " +:+ stderr)))).

(** ** The runners ([shell.rs], [code.rs]) *)

Context (fs : Fs) (is_file : string → bool) (policy : ScriptPolicy) (timeout : N).

Definition working_dir (requested : option string) : result EngineError (option string) :=
  match non_blank (trim <$> requested) with
  | Some cwd => let? dir := resolve_cwd fs policy cwd in Ok (Some dir)
  | None => Ok (po_workspace policy)
  end.

Definition shell_script_request (request : ShellRequest) : result EngineError ScriptRequest :=
  let? interpreter := validated f (interpreter_as_str (sh_interpreter request)) [] in
  let? staged := match sh_script request with
                 | ScriptPath raw => let? path := resolve_script fs is_file policy raw in Ok (Some path)
                 | Inline _ => Ok None
                 end in
  let? dir := working_dir (sh_cwd request) in
  let source := match sh_script request, staged with
                | Inline source, _ => InlineSource source
                | ScriptPath _, Some path => FileSource path
                | ScriptPath raw, None => InlineSource raw
                end in
  Ok (mkScript LangShell (Some interpreter) source (sh_input request) timeout dir (list_to_map (sh_env request))).

Definition shell_run (request : ShellRequest) : list (Via * SpawnSpec) * result EngineError ShellOutcome :=
  match shell_script_request request with
  | Err e => ([], Err e)
  | Ok script =>
      let '(launched, completion) := run_script_capture script in
      (launched, let? c := completion in Ok (mkShellOutcome (sc_exit_code c) (sc_stdout c) (sc_stderr c)))
  end.

Definition denied_code_run : result EngineError value :=
  Err (ECapability ("code nodes are disabled: this host has no sandbox, so workflow code would run with the daemon's " +:+
    "full privileges. Enable `workflows.allowCode` only where that is acceptable, or use a `transform` node's " +:+
    "expressions instead.")).

Definition code_run (language : CodeLanguage) (source : string) (input : value)
    : list (Via * SpawnSpec) * result EngineError value :=
  let '(launched, output) := run_script (script_plain (language_of_code language) source input timeout ∅) in
  (launched, let? o := output in Ok (sd_value o)).
End Scripts.

(** ** Case does not matter to the address parser *)

Definition lowered {A} (o : option (A * string)) : option (A * string) := (λ '(a, r), (a, lower_ascii r)) <$> o.
(** A parser that reads the same from a text in lower case. *)
Definition caseless {A} (p : string → option (A * string)) : Prop := ∀ s, p (lower_ascii s) = lowered (p s).

Lemma hex_value_lower c : hex_value (to_lower c) = hex_value c.
Proof. destruct c as [[] [] [] [] [] [] [] []]; reflexivity. Qed.
Lemma to_lower_eq c d : ascii_in "A"%char "Z"%char d = false → ascii_in "a"%char "z"%char d = false → to_lower c = d ↔ c = d.
Proof.
  intros Hu Hl. split; [|intros ->; unfold to_lower; by rewrite Hu]. unfold to_lower.
  destruct (ascii_in "A"%char "Z"%char c) eqn:E; [|done]. intros <-. exfalso.
  destruct c as [[] [] [] [] [] [] [] []]; vm_compute in E, Hl; done.
Qed.

Lemma read_digits_lower radix room acc count s :
  read_digits radix room acc count (lower_ascii s) =
  (λ '(v, n, r), (v, n, lower_ascii r)) <$> read_digits radix room acc count s.
Proof.
  revert room acc count. induction s as [|c s IH]; intros room acc count; [done|]. cbn.
  unfold digit_in. rewrite hex_value_lower. destruct (hex_value c >>? _) as [v|]; [|done].
  destruct room; [done|]. apply IH.
Qed.
Lemma read_number_caseless radix max zp bound : caseless (read_number radix max zp bound).
Proof.
  intros s. unfold read_number. rewrite read_digits_lower.
  assert (match lower_ascii s with SCons c _ => bool_decide (c = "0"%char) | EmptyString => false end
          = match s with SCons c _ => bool_decide (c = "0"%char) | EmptyString => false end) as ->.
  { destruct s; [done|]. cbn. apply bool_decide_ext. by apply to_lower_eq. }
  destruct (read_digits _ _ _ _ s) as [[[v n] rest]|]; [|done]. cbn.
  case_decide; [done|]. destruct (_ && _); [done|]. by case_decide.
Qed.
Lemma given_char_lower c s :
  ascii_in "A"%char "Z"%char c = false → ascii_in "a"%char "z"%char c = false →
  given_char c (lower_ascii s) = lower_ascii <$> given_char c s.
Proof.
  intros Hu Hl. destruct s as [|d s]; [done|]. cbn.
  pose proof (to_lower_eq d c Hu Hl). repeat case_decide; by tauto.
Qed.
Lemma after_separator_caseless {A} sep i (p : string → option (A * string)) :
  ascii_in "A"%char "Z"%char sep = false → ascii_in "a"%char "z"%char sep = false →
  caseless p → caseless (after_separator sep i p).
Proof.
  intros Hu Hl Hp s. unfold after_separator. case_decide; [apply Hp|].
  rewrite given_char_lower by done. destruct (given_char sep s); [apply Hp|done].
Qed.
Lemma read_ipv4_caseless : caseless read_ipv4.
Proof.
  assert (Ho : ∀ i, caseless (after_separator "." i read_octet))
    by (intros i; apply after_separator_caseless; [done..|apply read_number_caseless]).
  intros s. unfold read_ipv4. rewrite (Ho 0).
  destruct (after_separator "." 0 read_octet s) as [[a s1]|]; [|done]. cbn [lowered fmap option_fmap option_map and_then].
  rewrite (Ho 1). destruct (after_separator "." 1 read_octet s1) as [[b s2]|]; [|done].
  cbn [lowered fmap option_fmap option_map and_then].
  rewrite (Ho 2). destruct (after_separator "." 2 read_octet s2) as [[c s3]|]; [|done].
  cbn [lowered fmap option_fmap option_map and_then].
  rewrite (Ho 3). by destruct (after_separator "." 3 read_octet s3) as [[d s4]|].
Qed.
Lemma read_groups_lower left i s :
  read_groups left i (lower_ascii s) = (λ '(gs, v4, r), (gs, v4, lower_ascii r)) (read_groups left i s).
Proof.
  revert i s. induction left as [|left IH]; intros i s; [done|]. cbn [read_groups].
  assert (Hv4 : caseless (after_separator ":" i read_ipv4))
    by (apply after_separator_caseless; [done..|apply read_ipv4_caseless]).
  assert (Hg : caseless (after_separator ":" i (read_number 16 4 true 65535)))
    by (apply after_separator_caseless; [done..|apply read_number_caseless]).
  rewrite Hv4, Hg.
  destruct (after_separator ":" i (read_number 16 4 true 65535) s) as [[g rest]|]; case_decide;
    destruct (after_separator ":" i read_ipv4 s) as [[[[[a b] c] d] r4]|]; cbn; try done;
    rewrite IH; by destruct (read_groups left (S i) rest) as [[gs v4] r].
Qed.
Lemma read_ipv6_caseless : caseless read_ipv6.
Proof.
  intros s. unfold read_ipv6. rewrite read_groups_lower. destruct (read_groups 8 0 s) as [[head v4] rest].
  case_decide; [done|]. destruct v4; [done|]. rewrite given_char_lower by done.
  destruct (given_char ":" rest) as [r1|]; [|done]. cbn. rewrite given_char_lower by done.
  destruct (given_char ":" r1) as [r2|]; [|done]. cbn. rewrite read_groups_lower.
  by destruct (read_groups _ 0 r2) as [[tail b] r].
Qed.
Lemma parse_ip_lower s : parse_ip (lower_ascii s) = parse_ip s.
Proof.
  unfold parse_ip. rewrite read_ipv4_caseless. destruct (read_ipv4 s) as [[[[[a b] c] d] rest]|]; cbn.
  - by destruct rest.
  - rewrite read_ipv6_caseless. destruct (read_ipv6 s) as [[g rest]|]; [|done]. cbn.
    by destruct rest.
Qed.

(** ** The allowlist matches whole labels *)

Lemma ends_with_spec suffix s : ends_with suffix s = true ↔ ∃ p, s = p +:+ suffix.
Proof.
  induction s as [|c s IH]; cbn; rewrite orb_true_iff, bool_decide_eq_true.
  - split; [intros [<-|]; [by exists ""|done]|]. intros [[|d p] Hp]; [by left|done].
  - rewrite IH. split.
    + intros [->|[p ->]]; [by exists ""|by exists (SCons c p)].
    + intros [[|d p] Hp]; [by left|]. injection Hp as -> ->. right. by exists p.
Qed.

Lemma split_char_nonempty sep s : split_char sep s ≠ [].
Proof. destruct s; cbn; [done|]. case_decide; [done|]. by destruct (split_char sep s). Qed.
Lemma split_char_at sep a s : split_char sep (a +:+ SCons sep s) = split_char sep a ++ split_char sep s.
Proof.
  induction a as [|c a IH].
  - change ("" +:+ SCons sep s) with (SCons sep s). cbn. by rewrite decide_True.
  - change (SCons c a +:+ SCons sep s) with (SCons c (a +:+ SCons sep s)). cbn. rewrite IH.
    case_decide; [done|]. pose proof (split_char_nonempty sep a). by destruct (split_char sep a).
Qed.
Lemma join_with_app sep l k : l ≠ [] → k ≠ [] → join_with sep (l ++ k) = join_with sep l +:+ sep +:+ join_with sep k.
Proof.
  intros Hl Hk. induction l as [|a l IH]; [done|]. destruct l as [|b l]; [by destruct k|].
  change (join_with sep ((a :: b :: l) ++ k)) with (a +:+ sep +:+ join_with sep ((b :: l) ++ k)).
  rewrite IH by done. change (join_with sep (a :: b :: l)) with (a +:+ sep +:+ join_with sep (b :: l)).
  by rewrite !str_app_assoc.
Qed.
Lemma join_split sep s : join_with (SCons sep "") (split_char sep s) = s.
Proof.
  induction s as [|c s IH]; [done|]. cbn. pose proof (split_char_nonempty sep s).
  destruct (split_char sep s) as [|x l] eqn:E; [done|]. case_decide as Hc.
  - subst c. change (join_with (SCons sep "") ("" :: x :: l)) with (SCons sep (join_with (SCons sep "") (x :: l))).
    by rewrite IH.
  - destruct l as [|y l]; cbn in *; [by rewrite IH|]. by rewrite <- IH.
Qed.

Lemma suffix_labels sep e s :
  split_char sep e `suffix_of` split_char sep s ↔ s = e ∨ ends_with (SCons sep e) s = true.
Proof.
  rewrite ends_with_spec. split.
  - intros [l Hl]. pose proof (join_split sep s) as Hs. rewrite Hl in Hs.
    destruct (decide (l = [])) as [->|Hne]; [left; by rewrite <- Hs, app_nil_l, join_split|].
    right. exists (join_with (SCons sep "") l). rewrite <- Hs.
    rewrite join_with_app by (done || apply split_char_nonempty). by rewrite join_split.
  - intros [->|[p ->]]; [done|]. rewrite split_char_at. by apply suffix_app_r.
Qed.

(** The dot-separated labels of a host name, case and outer blanks aside. *)
Definition labels (s : string) : list string := split_char "." (lower_ascii (trim s)).

(** The allowlist matches whole labels.  A host is let through exactly when
    it is not blank and the labels of some entry that is not blank are the last
    labels of the host: an entry permits itself and its subdomains, and no other
    name that happens to end in its text. *)
Theorem allows_by_labels (l : HostAllowlist) (host : string) :
  allowlist_allows l host = true ↔
  lower_ascii (trim host) ≠ "" ∧
  ∃ entry, entry ∈ al_entries l ∧ lower_ascii (trim entry) ≠ "" ∧ labels entry `suffix_of` labels host.
Proof.
  unfold allowlist_allows, labels. case_decide as Hh; [naive_solver|]. rewrite existsb_exists. split.
  - intros (e & He & Hm). split; [done|]. exists e. rewrite suffix_labels.
    split; [by apply list_elem_of_In|]. case_decide as Hb; [done|]. split; [done|].
    apply orb_true_iff in Hm as [Hm%bool_decide_eq_true|Hm]; auto.
  - intros (_ & e & He & Hb & Hs). exists e. split; [by apply list_elem_of_In|]. rewrite decide_False by done.
    rewrite suffix_labels in Hs. apply orb_true_iff. rewrite bool_decide_eq_true. exact Hs.
Qed.

(** ** Where a request can go *)

(** What [reqwest] documents of a client: with redirects refused it sends the
    request it was given and no other; a URL no proxy takes and whose host is an
    address literal is connected to there; and a name that [resolve_to_addrs]
    overrides is connected to at one of the given addresses. *)
Record LawfulTransport (env : HttpEnv) : Prop := {
  send_once sent : cl_redirect (sn_client sent) = FollowNone →
    (he_send env sent).1 = [] ∨ ∃ addr, (he_send env sent).1 = [(sn_url sent, addr)];
  send_literal sent url addr host ip : (url, addr) ∈ (he_send env sent).1 → he_proxied env url = false →
    ur_host url = Some host → parse_ip (trim_matches bracket host) = Some ip → addr = ip;
  send_pinned sent url addr host addrs : (url, addr) ∈ (he_send env sent).1 → he_proxied env url = false →
    ur_host url = Some host → parse_ip (trim_matches bracket host) = None →
    cl_resolve (sn_client sent) = Some (trim_matches bracket host, addrs) → addr ∈ sk_ip <$> addrs
}.

(** The requests that leave the process. *)
Definition leaving (env : HttpEnv) (sends : list Sent) : list (Url * IpAddr) :=
  concat ((λ s, (he_send env s).1) <$> sends).

Section HttpFacts.
Context (env : HttpEnv) (allowlist : HostAllowlist) (credentials : gmap string HttpCredential).

Lemma vet_resolution_public host answer addrs :
  vet_resolution env host answer = Ok addrs → addrs ≠ [] ∧ Forall (λ a, is_private_addr (sk_ip a) = false) addrs.
Proof.
  unfold vet_resolution. destruct answer as [resolved|]; [|done].
  destruct (find_first _ _) eqn:Ef; [done|]. case_decide; [done|]. intros [= <-]. split; [done|].
  apply Forall_forall. intros a Ha. by apply (proj1 (find_first_None _ _) Ef).
Qed.
Lemma private_literal host a : is_private_host host = false → parse_ip (trim_matches bracket host) = Some a → is_private_addr a = false.
Proof.
  unfold is_private_host. destruct (_ || _); [done|]. rewrite parse_ip_lower. intros H Ha. by rewrite Ha in H.
Qed.

Lemma permit_spec request url addrs :
  permit env allowlist request = Ok (url, addrs) →
  (ur_scheme url = "http" ∨ ur_scheme url = "https") ∧
  ∃ host, ur_host url = Some host ∧ allowlist_allows allowlist host = true ∧ is_private_host host = false ∧
    addrs ≠ [] ∧ Forall (λ a, is_private_addr (sk_ip a) = false) addrs.
Proof.
  unfold permit. destruct (ok_or _ _) as [raw|]; [|done]. cbn.
  destruct (he_parse_url env raw) as [u|]; [|done]. cbn.
  destruct (negb _) eqn:Es; [done|]. apply negb_false_iff, orb_true_iff in Es. rewrite !bool_decide_eq_true in Es.
  destruct (ur_host u) as [host|] eqn:Eh; [|done]. cbn. destruct (is_private_host host) eqn:Ep; [done|].
  destruct (negb (allowlist_allows allowlist host)) eqn:Ea; [done|]. apply negb_false_iff in Ea.
  unfold resolve_with_timeout. destruct (he_lookup env host _); [|done..].
  destruct (vet_resolution env host addrs0) as [vetted|] eqn:Ev; [|done]. cbn. intros [= <- <-].
  split; [done|]. exists host. split_and!; try done; by apply vet_resolution_public in Ev as [??].
Qed.

(** A pinned client looks no name up: its host is a literal that is not private,
    or it is pinned to vetted addresses. *)
Definition vetted_client (c : Client) (host : string) : Prop :=
  match parse_ip (trim_matches bracket host) with
  | Some ip => is_private_addr ip = false
  | None => ∃ addrs, cl_resolve c = Some (trim_matches bracket host, addrs) ∧ addrs ≠ [] ∧
      Forall (λ a, is_private_addr (sk_ip a) = false) addrs
  end.

Lemma pinned_vetted host addrs c :
  is_private_host host = false → addrs ≠ [] → Forall (λ a, is_private_addr (sk_ip a) = false) addrs →
  pinned env host addrs = Ok c → cl_redirect c = FollowNone ∧ vetted_client c host.
Proof.
  intros Hp Hne Hpub. unfold pinned, vetted_client. rewrite decide_False by done. case_decide as Hlit.
  - intros [= <-]. destruct Hlit as [a Ha]. rewrite Ha. split; [done|]. by eapply private_literal.
  - destruct (he_build env _); [|done]. intros [= <-]. split; [done|].
    destruct (parse_ip _); [by destruct Hlit; eexists|]. by exists addrs.
Qed.

Lemma leaving_public sent host :
  LawfulTransport env → he_proxied env (sn_url sent) = false → ur_host (sn_url sent) = Some host →
  cl_redirect (sn_client sent) = FollowNone → vetted_client (sn_client sent) host →
  length (leaving env [sent]) ≤ 1 ∧
  Forall (λ x, x.1 = sn_url sent ∧ is_private_addr x.2 = false) (leaving env [sent]).
Proof.
  intros [Honce Hlit Hpin] Hprox Hh Hr Hv. unfold leaving. cbn [fmap list_fmap concat]. rewrite app_nil_r.
  specialize (Hlit sent (sn_url sent)). specialize (Hpin sent (sn_url sent)).
  destruct (Honce sent Hr) as [E|[addr E]]; rewrite E in *; cbn; (split; [lia|]); [done|].
  apply Forall_singleton. split; [done|]. cbn. unfold vetted_client in Hv.
  destruct (parse_ip _) as [ip|] eqn:Ep.
  - by rewrite (Hlit addr host ip) by (done || left).
  - destruct Hv as (addrs & Hc & _ & Hall).
    assert (Hin : addr ∈ sk_ip <$> addrs) by (eapply Hpin; done || left).
    apply list_elem_of_fmap in Hin as (a & -> & Ha). rewrite Forall_forall in Hall. by apply Hall.
Qed.


(** Header names equal up to case. *)
Definition header_named (name : string) (kv : string * string) : Prop := eq_ignore_ascii_case kv.1 name = true.
#[local] Instance header_named_dec name kv : Decision (header_named name kv) := decide (_ = true).

Lemma omap_step {A B} (g : A → option B) a (l : list A) :
  omap g (a :: l) = match g a with Some b => b :: omap g l | None => omap g l end.
Proof. done. Qed.
Lemma filter_header_pairs (P : string → bool) (m : list (string * value)) :
  filter (λ kv : string * string, P kv.1 = true) (omap header_pair m)
  = omap (λ kv, if P kv.1 then header_pair kv else None) m.
Proof.
  induction m as [|[k v] m IH]; [done|]. rewrite !omap_step. cbv beta. unfold header_pair at 1 3. cbn [fst snd].
  destruct v, (P k) eqn:E; try exact IH.
  - rewrite filter_cons_True by done. by rewrite IH.
  - rewrite filter_cons_False by (cbn; congruence). exact IH.
Qed.
Lemma omap_none {A B} (g : A → option B) (l : list A) : Forall (λ a, g a = None) l → omap g l = [].
Proof. induction 1 as [|a l Ha _ IH]; [done|]. by rewrite omap_step, Ha. Qed.

Lemma obj_insert_pairs (P : string → bool) k s (m : list (string * value)) :
  P k = true → Forall (λ kv : string * value, P kv.1 = false) m →
  filter (λ kv : string * string, P kv.1 = true) (omap header_pair (obj_insert k (Str s) m)) = [(k, s)].
Proof.
  intros Hk Hm. rewrite filter_header_pairs.
  assert (Hnil : ∀ m, Forall (λ kv : string * value, P kv.1 = false) m →
    omap (λ kv, if P kv.1 then header_pair kv else None) m = []).
  { intros m' Hm'. apply omap_none. eapply Forall_impl; [exact Hm'|]. cbv beta. by intros a ->. }
  induction Hm as [|[k' v] m Hv Hm IH]; [cbn; by rewrite Hk|]. cbn [obj_insert]. cbn in Hv.
  case_decide; [congruence|]. destruct (String.ltb k k').
  - rewrite omap_step. cbn [fst snd]. rewrite Hk. cbn [header_pair snd fst]. by rewrite Hnil by by constructor.
  - rewrite omap_step. cbn [fst snd]. by rewrite Hv.
Qed.

Lemma eq_ignore_case_refl s : eq_ignore_ascii_case s s = true.
Proof. induction s as [|c s IH]; [done|]. cbn. by rewrite bool_decide_true. Qed.

Lemma inject_headers request cred request' :
  inject_credential request cred = Ok request' →
  filter (header_named (hc_header cred)) (header_pairs request') = [(hc_header cred, hc_value cred)].
Proof.
  unfold inject_credential. destruct request as [| | | | |fields]; try done. cbv zeta. intros Hi.
  destruct (match obj_get "headers" fields with None | Some Null => _ | Some h => h end) as [| | | | |hs]; try done.
  injection Hi as <-. unfold header_pairs. cbn [get]. rewrite obj_get_insert_eq. cbn [and_then as_object].
  apply (obj_insert_pairs (λ k, eq_ignore_ascii_case k (hc_header cred))); [apply eq_ignore_case_refl|].
  apply Forall_forall. by intros kv [? _]%list_elem_of_filter.
Qed.

(** What [prepare] hands to the transport. *)
Lemma prepare_spec request conn sent :
  prepare env allowlist credentials request conn = Ok sent →
  (ur_scheme (sn_url sent) = "http" ∨ ur_scheme (sn_url sent) = "https") ∧
  (∃ host, ur_host (sn_url sent) = Some host ∧ is_private_host host = false ∧
     allowlist_allows allowlist host = true ∧ vetted_client (sn_client sent) host) ∧
  cl_redirect (sn_client sent) = FollowNone ∧
  match resolve_credential credentials conn with
  | Ok (Some cred) =>
      ur_scheme (sn_url sent) = "https" ∧
      filter (header_named (hc_header cred)) (sn_headers sent) = [(hc_header cred, hc_value cred)]
  | Ok None => sn_headers sent = header_pairs request
  | Err _ => False
  end.
Proof.
  unfold prepare. destruct (permit env allowlist request) as [[url addrs]|] eqn:Hpm; [|done]. cbn.
  apply permit_spec in Hpm as (Hs & host & Hh & Ha & Hpriv & Hne & Hpub). rewrite Hh. cbn.
  destruct (pinned env host addrs) as [c|] eqn:Hc; [|done]. cbn.
  destruct (pinned_vetted host addrs c Hpriv Hne Hpub Hc) as [Hr Hv].
  destruct (resolve_credential credentials conn) as [[cred|]|]; [| |done]; cbn.
  - case_bool_decide as Hsch; [done|]. destruct Hs as [Hs|Hs]; [done|].
    destruct (inject_credential request cred) as [request'|] eqn:Hi; [|done]. cbn.
    destruct (he_method env _); [|done]. cbn. intros [= <-]. cbn.
    split_and!; [by right|by exists host|done|done|by eapply inject_headers].
  - destruct (he_method env _); [|done]. cbn. intros [= <-]. cbn. split_and!; [done|by exists host|done|done].
Qed.

(** C25: an http node reaches public, permitted addresses only.  Whatever the
    request says and the resolver answers, at most one request is handed to the
    transport: its scheme is http or https, its host is not a private name and is
    on the allowlist, and its client refuses redirects and is pinned to vetted
    addresses (or the host is a literal that is not private).  A credential goes
    out over https only, as the one header of its name; without a reference none
    is attached and an unknown one sends nothing.  With a transport that behaves
    as documented and no proxy in the way, at most one request leaves, for that
    URL, to an address that is not loopback, link-local or private. *)
Theorem http_request_confined (request : value) (conn : option string) :
  let sends := (http_request env allowlist credentials request conn).1 in
  length sends ≤ 1 ∧
  Forall (λ sent,
    (ur_scheme (sn_url sent) = "http" ∨ ur_scheme (sn_url sent) = "https") ∧
    (∃ host, ur_host (sn_url sent) = Some host ∧ is_private_host host = false ∧
       allowlist_allows allowlist host = true ∧ vetted_client (sn_client sent) host) ∧
    cl_redirect (sn_client sent) = FollowNone ∧
    match resolve_credential credentials conn with
    | Ok (Some cred) =>
        ur_scheme (sn_url sent) = "https" ∧
        filter (header_named (hc_header cred)) (sn_headers sent) = [(hc_header cred, hc_value cred)]
    | Ok None => sn_headers sent = header_pairs request
    | Err _ => False
    end) sends ∧
  (LawfulTransport env → (∀ url, he_proxied env url = false) →
   length (leaving env sends) ≤ 1 ∧
   Forall (λ x, x.1 ∈ sn_url <$> sends ∧ is_private_addr x.2 = false) (leaving env sends)).
Proof.
  cbv zeta. unfold http_request. destruct (prepare env allowlist credentials request conn) as [sent|] eqn:Hp;
    [|split_and!; [cbn; lia|constructor|intros _ _; split; [cbn; lia|constructor]]].
  cbn [fst]. rewrite Forall_singleton.
  assert (Hsent : (ur_scheme (sn_url sent) = "http" ∨ ur_scheme (sn_url sent) = "https") ∧
    (∃ host, ur_host (sn_url sent) = Some host ∧ is_private_host host = false ∧
       allowlist_allows allowlist host = true ∧ vetted_client (sn_client sent) host) ∧
    cl_redirect (sn_client sent) = FollowNone ∧
    match resolve_credential credentials conn with
    | Ok (Some cred) =>
        ur_scheme (sn_url sent) = "https" ∧
        filter (header_named (hc_header cred)) (sn_headers sent) = [(hc_header cred, hc_value cred)]
    | Ok None => sn_headers sent = header_pairs request
    | Err _ => False
    end); [by eapply prepare_spec|].
  split_and!; [done|apply Hsent..|].
  intros Ht Hprox. destruct Hsent as (_ & (host & Hh & _ & _ & Hv) & Hr & _).
  destruct (leaving_public sent host Ht (Hprox _) Hh Hr Hv) as [Hlen Hall]. split; [done|].
  eapply Forall_impl; [exact Hall|]. intros x [-> ?]. split; [by left|done].
Qed.
End HttpFacts.

(** An allowlisted name that resolves to a public address, and a transport that
    connects where it is told. *)
Definition public_ip : IpAddr := V4 93 184 216 34.
Definition told_address (sent : Sent) : option IpAddr :=
  ur_host (sn_url sent) >>? λ host,
  match parse_ip (trim_matches bracket host) with
  | Some ip => Some ip
  | None =>
      match cl_resolve (sn_client sent) with
      | Some (name, a :: _) => if decide (name = trim_matches bracket host) then Some (sk_ip a) else None
      | _ => None
      end
  end.
Definition told_env : HttpEnv :=
  mkHttpEnv (λ _, Ok (mkUrl "https" (Some "api.example.com") None)) (λ _ port, Answered (Ok [mkSocket public_ip port]))
    (λ _, Ok tt) Ok
    (λ sent, (match told_address sent with Some ip => [(sn_url sent, ip)] | None => [] end, Ok (200%Z, Ok "")))
    (λ _, false) (λ _, None) (λ _, "").

Lemma told_lawful : LawfulTransport told_env.
Proof.
  split; unfold told_env; cbn.
  - intros sent _. destruct (told_address sent); eauto.
  - intros sent url addr host ip Hin _ Hh Hip. unfold told_address in Hin.
    destruct (ur_host (sn_url sent)) as [host'|] eqn:E; cbn in Hin; [|by apply elem_of_nil in Hin].
    destruct (parse_ip (trim_matches bracket host')) as [ip'|] eqn:Ep.
    + apply list_elem_of_singleton in Hin as [= -> ->]. congruence.
    + assert (url = sn_url sent) as -> by (repeat case_match; set_solver). congruence.
  - intros sent url addr host addrs Hin _ Hh Hip Hc. unfold told_address in Hin. rewrite Hc in Hin.
    destruct (ur_host (sn_url sent)) as [host'|] eqn:E; cbn in Hin; [|by apply elem_of_nil in Hin].
    assert (url = sn_url sent) as -> by (repeat case_match; set_solver).
    assert (host' = host) as -> by congruence. rewrite Hip in Hin.
    destruct addrs as [|a addrs]; [by apply elem_of_nil in Hin|]. rewrite decide_True in Hin by done.
    apply list_elem_of_singleton in Hin as [= ->]. left.
Qed.

Lemma http_request_confined_witness :
  let sends := (http_request told_env (mkAllowlist ["example.com"]) ∅ (json_object [("url", Str "https://api.example.com/")]) None).1 in
  leaving told_env sends = [(mkUrl "https" (Some "api.example.com") None, public_ip)] ∧
  Forall (λ x, is_private_addr x.2 = false) (leaving told_env sends).
Proof.
  cbv zeta. split; [vm_compute; reflexivity|].
  destruct (http_request_confined told_env (mkAllowlist ["example.com"]) ∅
              (json_object [("url", Str "https://api.example.com/")]) None) as (_ & _ & H).
  destruct (H told_lawful) as [_ Hall]; [done|]. eapply Forall_impl; [exact Hall|]. by intros x [_ ?].
Defined.

(** ** The private ranges *)

(** [n] has the first [len] bits of [base] among its 32. *)
Definition in_block (base : Z * Z * Z * Z) (len : Z) (addr : Z * Z * Z * Z) : Prop :=
  let number '(a, b, c, d) := (((a * 256 + b) * 256 + c) * 256 + d)%Z in
  (number addr / 2 ^ (32 - len) = number base / 2 ^ (32 - len))%Z.

Definition private_blocks : list ((Z * Z * Z * Z) * Z) :=
  [((127, 0, 0, 0), 8); ((10, 0, 0, 0), 8); ((172, 16, 0, 0), 12); ((192, 168, 0, 0), 16);
   ((169, 254, 0, 0), 16); ((0, 0, 0, 0), 32); ((100, 64, 0, 0), 10)]%Z.
Definition octet (z : Z) : Prop := (0 ≤ z < 256)%Z.

Lemma shared_bits b : octet b → (Z.land b 192 = 64 ↔ 64 ≤ b < 128)%Z.
Proof.
  intros Hb. assert (H : forallb (λ n, Bool.eqb (bool_decide (Z.land (Z.of_nat n) 192 = 64)%Z)
                                        (bool_decide (64 ≤ Z.of_nat n < 128)%Z)) (seq 0 256) = true) by by vm_compute.
  rewrite forallb_forall in H. specialize (H (Z.to_nat b)). unfold octet in Hb.
  assert (Hin : In (Z.to_nat b) (seq 0 256)) by (apply in_seq; lia).
  apply H, eqb_prop in Hin. rewrite Z2Nat.id in Hin by lia. revert Hin. by repeat case_bool_decide.
Qed.

Lemma in_block_range base len addr :
  (len ≤ 32)%Z →
  in_block base len addr ↔
  (let number '(a, b, c, d) := ((a * 256 + b) * 256 + c) * 256 + d in
   let start := number base / 2 ^ (32 - len) * 2 ^ (32 - len) in
   start ≤ number addr < start + 2 ^ (32 - len))%Z.
Proof.
  intros Hl. unfold in_block. destruct base as [[[a b] c] d], addr as [[[a' b'] c'] d']. cbv zeta.
  assert (Hp : (0 < 2 ^ (32 - len))%Z) by (apply Z.pow_pos_nonneg; lia).
  set (k := (2 ^ (32 - len))%Z) in *. set (n := (((a' * 256 + b') * 256 + c') * 256 + d')%Z).
  set (m := ((((a * 256 + b) * 256 + c) * 256 + d) / k)%Z). split.
  - intros <-. pose proof (Z.mul_div_le n k Hp). pose proof (Z.mul_succ_div_gt n k Hp). lia.
  - intros [H1 H2]. symmetry. apply (Z.div_unique n k m (n - m * k)); lia.
Qed.

Ltac block_bounds :=
  rewrite !in_block_range by done; cbv beta iota zeta;
  repeat match goal with
  | |- context [(?x / ?k * ?k)%Z] =>
      let v := eval vm_compute in (x / k * k)%Z in change (x / k * k)%Z with v
  end;
  repeat match goal with |- context [(2 ^ ?e)%Z] => let v := eval vm_compute in (2 ^ e)%Z in change (2 ^ e)%Z with v end.

Section Blocks.
Context (a b c d : Z) (Ha : octet a) (Hb : octet b) (Hc : octet c) (Hd : octet d).
Lemma loopback_block : (in_block (127, 0, 0, 0) 8 (a, b, c, d) ↔ a = 127)%Z.
Proof using All. unfold octet in *. block_bounds. lia. Qed.
Lemma ten_block : (in_block (10, 0, 0, 0) 8 (a, b, c, d) ↔ a = 10)%Z.
Proof using All. unfold octet in *. block_bounds. lia. Qed.
Lemma seventeen_two_block : (in_block (172, 16, 0, 0) 12 (a, b, c, d) ↔ a = 172 ∧ 16 ≤ b ≤ 31)%Z.
Proof using All. unfold octet in *. block_bounds. lia. Qed.
Lemma one_nine_two_block : (in_block (192, 168, 0, 0) 16 (a, b, c, d) ↔ a = 192 ∧ b = 168)%Z.
Proof using All. unfold octet in *. block_bounds. lia. Qed.
Lemma link_local_block : (in_block (169, 254, 0, 0) 16 (a, b, c, d) ↔ a = 169 ∧ b = 254)%Z.
Proof using All. unfold octet in *. block_bounds. lia. Qed.
Lemma zero_block : (in_block (0, 0, 0, 0) 32 (a, b, c, d) ↔ a = 0 ∧ b = 0 ∧ c = 0 ∧ d = 0)%Z.
Proof using All. unfold octet in *. block_bounds. lia. Qed.
Lemma shared_block : (in_block (100, 64, 0, 0) 10 (a, b, c, d) ↔ a = 100 ∧ 64 ≤ b < 128)%Z.
Proof using All. unfold octet in *. block_bounds. lia. Qed.
End Blocks.

(** The guard refuses exactly the private blocks: an IPv4 address is refused
    if and only if it lies in loopback, one of the three RFC 1918 blocks,
    link-local, the shared block of RFC 6598, or is the unspecified address; and
    an IPv4-mapped IPv6 address is judged as the IPv4 address it carries. *)
Theorem private_blocks_exact (a b c d : Z) :
  octet a → octet b → octet c → octet d →
  (is_private_addr (V4 a b c d) = true ↔ Exists (λ bl, in_block bl.1 bl.2 (a, b, c, d)) private_blocks) ∧
  is_private_addr (V6 [0; 0; 0; 0; 0; 65535; a * 256 + b; c * 256 + d]%Z) = is_private_addr (V4 a b c d).
Proof.
  intros Ha Hb Hc Hd. pose proof (shared_bits b Hb) as Hsh. unfold octet in *. split.
  - cbn [is_private_addr]. unfold is_private_v4, private_blocks. rewrite !Exists_cons, Exists_nil.
    rewrite !orb_true_iff, !andb_true_iff, !bool_decide_eq_true, Hsh. cbn [fst snd].
    rewrite loopback_block, ten_block, seventeen_two_block, one_nine_two_block, link_local_block, zero_block,
      shared_block by done. tauto.
  - cbn -[Z.mul Z.add]. rewrite !Z.shiftr_div_pow2 by lia. change 255%Z with (Z.ones 8). rewrite !Z.land_ones by lia.
    change (2 ^ 8)%Z with 256%Z. rewrite !Z.div_add_l, !Z.div_small, !Z.add_0_r by lia.
    by rewrite !(Z.add_comm (_ * 256)), !Z.mod_add, !Z.mod_small by lia.
Qed.

Lemma private_blocks_exact_witness :
  is_private_addr (V4 100 64 0 1) = true ∧ Exists (λ bl, in_block bl.1 bl.2 (100, 64, 0, 1)%Z) private_blocks.
Proof.
  split; [reflexivity|].
  apply (private_blocks_exact 100 64 0 1); [split; reflexivity + discriminate..|]. reflexivity.
Defined.

(** ** What a script step can launch *)

Section ScriptFacts.
Context (f : Fmt) (env : ScriptEnv) (state : SpawnerState) (fs : Fs) (is_file : string → bool) (policy : ScriptPolicy).
Context (timeout : N).

(** The path is what the file system says of a relative path below the
    workspace, and lies in it. *)
Definition inside_workspace (path : string) : Prop :=
  ∃ workspace ws raw, po_workspace policy = Some workspace ∧ fs_canonicalize fs workspace = Ok ws ∧
    is_absolute raw = false ∧ ".." ∉ parts raw ∧
    fs_canonicalize fs (path_join ws raw) = Ok path ∧ path_starts_with path ws = true.

Lemma resolve_script_path_inside raw field path :
  resolve_script_path fs policy raw field = Ok path → inside_workspace path.
Proof.
  unfold resolve_script_path. destruct (po_workspace policy) as [workspace|] eqn:Hw; [|done].
  destruct (resolve_in_workspace _ _ _ _ _) as [p|] eqn:Hr; [|done]. intros [= <-]. revert Hr.
  unfold resolve_in_workspace, check_shape. destruct (is_absolute raw) eqn:Ha; [by rewrite decide_True|].
  case_decide as Hp; [done|]. cbn. destruct (fs_canonicalize fs workspace) as [ws|] eqn:Hc; [|done]. cbn.
  destruct (fs_canonicalize fs (path_join ws raw)) as [p'|] eqn:Hj; [|done]. cbn.
  destruct (path_starts_with p' ws) eqn:Hs; [|done]. intros [= ->]. by exists workspace, ws, raw.
Qed.

Definition script_of_launch (spec : SpawnSpec) (r : ShellRequest) (path : string) : Prop :=
  match sh_script r with
  | Inline source =>
      path = path_join (sp_staging_dir spec) "script.sh" ∧ pe_write env path source = Ok tt
  | ScriptPath _ => inside_workspace path ∧ is_file path = true
  end.

Lemma validated_plain i : validated f (interpreter_as_str i) [] = Ok (mkInterpreter (interpreter_as_str i) []).
Proof. by destruct i. Qed.

Lemma working_dir_inside requested dir :
  working_dir fs policy requested = Ok dir →
  match dir with
  | Some path => po_workspace policy = Some path ∨ (inside_workspace path ∧ fs_is_dir fs path = true)
  | None => po_workspace policy = None
  end.
Proof.
  unfold working_dir. destruct (non_blank (trim <$> requested)) as [cwd|].
  - unfold resolve_cwd. destruct (resolve_script_path fs policy cwd "cwd") as [p|] eqn:Hr; [|done]. cbn.
    destruct (fs_is_dir fs p) eqn:Hd; [|done]. cbn. intros [= <-]. right. split; [by eapply resolve_script_path_inside|done].
  - intros [= <-]. destruct (po_workspace policy); auto.
Qed.

Lemma shell_script_spec request r :
  shell_script_request f fs is_file policy timeout request = Ok r →
  sr_language r = LangShell ∧
  sr_interpreter r = Some (mkInterpreter (interpreter_as_str (sh_interpreter request)) []) ∧
  sr_timeout_ns r = timeout ∧ sr_env r = list_to_map (sh_env request) ∧
  match sr_cwd r with
  | Some path => po_workspace policy = Some path ∨ (inside_workspace path ∧ fs_is_dir fs path = true)
  | None => po_workspace policy = None
  end ∧
  match sh_script request, sr_source r with
  | Inline source, InlineSource source' => source' = source
  | ScriptPath _, FileSource path => inside_workspace path ∧ is_file path = true
  | _, _ => False
  end.
Proof.
  unfold shell_script_request. rewrite validated_plain. cbn [rbind]. destruct (sh_script request) as [source|raw].
  - cbn [rbind]. destruct (working_dir _ _ _) as [dir|] eqn:Hd; [|done]. cbn. intros [= <-].
    apply working_dir_inside in Hd. by split_and!.
  - unfold resolve_script. destruct (resolve_script_path fs policy raw "script_path") as [path|] eqn:Hr; [|done]. cbn [rbind].
    destruct (is_file path) eqn:Hf; [|done]. cbn [rbind].
    destruct (working_dir _ _ _) as [dir|] eqn:Hd; [|done]. cbn. intros [= <-].
    apply working_dir_inside in Hd. apply resolve_script_path_inside in Hr. by split_and!.
Qed.

Lemma stage_spec r via spawn spec :
  stage env state r = Ok ((via, spawn), spec) →
  (via = Jailed ∧ ss_installed state = Some spawn ∨
   via = Direct ∧ ss_installed state = None ∧ ss_required state = false) ∧
  sp_program spec = request_program r ∧ sp_timeout_ns spec = sr_timeout_ns r ∧
  pe_tempdir env = Ok (sp_staging_dir spec) ∧ sp_cwd spec = default (sp_staging_dir spec) (sr_cwd r) ∧
  (∃ script, sp_args spec = (match sr_interpreter r with Some i => it_args i | None => [] end) ++
                            [script; path_join (sp_staging_dir spec) "input.json"] ∧
     match sr_source r with
     | InlineSource source =>
         script = path_join (sp_staging_dir spec) ("script." +:+ (language_program (sr_language r)).2) ∧
         pe_write env script source = Ok tt
     | FileSource path => script = path
     end) ∧
  pe_write env (path_join (sp_staging_dir spec) "input.json") (sp_stdin spec) = Ok tt ∧
  sp_env spec = sr_env r ∪ {[INPUT_ENV := path_join (sp_staging_dir spec) "input.json"]} ∧
  pe_encode env (sr_input r) = Ok (sp_stdin spec).
Proof.
  unfold stage. destruct (language_program (sr_language r)) as [prog ext] eqn:Hl.
  destruct (match sr_interpreter r with Some _ => _ | None => _ end) as [program leading] eqn:Hpl.
  assert (program = request_program r ∧ leading = match sr_interpreter r with Some i => it_args i | None => [] end)
    as [Hp Hle] by (unfold request_program; rewrite Hl; destruct (sr_interpreter r); by injection Hpl as <- <-).
  destruct (pe_tempdir env) as [dir|] eqn:Ht; [|done]. cbn [staged rbind].
  destruct (match sr_source r with InlineSource _ => _ | FileSource _ => _ end) as [script|] eqn:Hs; [|done]. cbn [rbind].
  destruct (pe_encode env (sr_input r)) as [body|] eqn:He; [|done]. cbn [staged rbind].
  destruct (pe_write env (path_join dir "input.json") body) as [[]|] eqn:Hw; [|done]. cbn [staged rbind].
  destruct (current_spawner (pe_process env) state) as [[v sp]|] eqn:Hc; [|done]. cbn [rbind].
  intros [= -> -> <-]. cbn. split_and!; try done.
  - unfold current_spawner in Hc. destruct (ss_installed state), (ss_required state); naive_solver.
  - exists script. split; [by rewrite Hle|]. destruct (sr_source r) as [source|path]; [|by injection Hs].
    destruct (pe_write env _ source) as [[]|] eqn:Hws; [|done]. injection Hs as <-. done.
Qed.

(** C26: a shell step launches what its host agreed to and nothing else.  Whatever
    the node asks for, at most one process is started: the shell the node named,
    without arguments of its own, on [script.sh] of the staging directory, where
    the inline source was written, or on a regular file the file system places
    inside the workspace; the encoded input was written beside it and is its
    standard input; and it runs in the workspace, a directory inside it, or the
    staging directory when there is no workspace.  With a spawner installed it goes
    through that spawner; with one required and none installed nothing is started. *)
Theorem shell_run_confined (request : ShellRequest) :
  let launched := (shell_run f env state fs is_file policy timeout request).1 in
  length launched ≤ 1 ∧
  Forall (λ '(via, spec),
    (via = Jailed ↔ is_Some (ss_installed state)) ∧ (via = Direct → ss_required state = false) ∧
    sp_program spec = interpreter_as_str (sh_interpreter request) ∧ sp_timeout_ns spec = timeout ∧
    (∃ script, sp_args spec = [script; path_join (sp_staging_dir spec) "input.json"] ∧
       script_of_launch spec request script) ∧
    (po_workspace policy = Some (sp_cwd spec) ∨ (inside_workspace (sp_cwd spec) ∧ fs_is_dir fs (sp_cwd spec) = true) ∨
     (po_workspace policy = None ∧ sp_cwd spec = sp_staging_dir spec)) ∧
    pe_encode env (sh_input request) = Ok (sp_stdin spec) ∧
    pe_write env (path_join (sp_staging_dir spec) "input.json") (sp_stdin spec) = Ok tt) launched.
Proof.
  cbv zeta. unfold shell_run. destruct (shell_script_request _ _ _ _ _ request) as [r|] eqn:Hr;
    [|split; [cbn; lia|constructor]].
  pose proof (shell_script_spec _ _ Hr) as (Hl & Hi & Ht & _ & Hd & Hs).
  assert (Hin : sr_input r = sh_input request).
  { revert Hr. unfold shell_script_request. rewrite validated_plain. cbn [rbind].
    destruct (match sh_script request with ScriptPath _ => _ | Inline _ => _ end); [|done]. cbn [rbind].
    destruct (working_dir _ _ _); [|done]. cbn. by intros [= <-]. }
  unfold run_script_capture. destruct (stage env state r) as [[[via spawn] spec]|] eqn:Hst; cbn; [|split; [lia|constructor]].
  apply stage_spec in Hst as (Hv & Hp & Hto & _ & Hc & (script & Ha & Hsc) & Hw & _ & He).
  split; [done|]. constructor; [|constructor]. rewrite Hin in He. split_and!; try done.
  - destruct Hv as [[-> ->]|(-> & -> & _)]; split; (done || by intros [??]).
  - by destruct Hv as [[-> _]|(_ & _ & ?)].
  - rewrite Hp. unfold request_program. by rewrite Hi.
  - congruence.
  - exists script. rewrite Ha, Hi. split; [done|]. unfold script_of_launch.
    destruct (sh_script request), (sr_source r); try done; subst; [by rewrite Hl in Hsc|done].
  - rewrite Hc. destruct (sr_cwd r); cbn; tauto.
Qed.

(** The input path in the environment is the caller's word, not the host's: a
    step that declares [TINYFLOWS_INPUT] itself replaces it. *)
Theorem input_env_overridden (r : ScriptRequest) (other : string) via spawn spec :
  sr_env r !! INPUT_ENV = Some other → stage env state r = Ok ((via, spawn), spec) →
  sp_env spec !! INPUT_ENV = Some other.
Proof.
  intros Ho Hst. apply stage_spec in Hst as (_ & _ & _ & _ & _ & _ & _ & -> & _).
  by apply lookup_union_Some_l.
Qed.
End ScriptFacts.

(** An inline step in a subdirectory of the workspace, with a spawner installed and
    required. *)
Definition script_env : ScriptEnv :=
  mkScriptEnv (Ok "/tmp/t") (λ _ _, Ok tt) (λ _, Ok "{}") id (λ _, Outlived) (λ _, None).
Definition jailed_state : SpawnerState :=
  mkSpawnerState (Some (λ _, Ok (mkSpawned 0 "out" ""))) true.
Definition inline_step : ShellRequest := mkShell Bash (Inline "echo out") (Some "sub") [] (Object []).
Definition inline_spec : SpawnSpec :=
  mkSpawn "bash" ["/tmp/t/script.sh"; "/tmp/t/input.json"] {[INPUT_ENV := "/tmp/t/input.json"]} "/w/sub" "/tmp/t" "{}" 5.

Lemma shell_run_confined_witness :
  let fs := mkFs (λ p, Ok p) (λ p, bool_decide (p = "/w/sub")) in
  (shell_run (mkFmt id (λ _, "")) script_env jailed_state fs (λ _, false) (mkPolicy (Some "/w")) 5 inline_step).1
    = [(Jailed, inline_spec)] ∧
  inside_workspace fs (mkPolicy (Some "/w")) (sp_cwd inline_spec) ∧
  script_of_launch script_env fs (λ _, false) (mkPolicy (Some "/w")) inline_spec inline_step "/tmp/t/script.sh".
Proof.
  cbv zeta. set (fs := mkFs _ _).
  assert (E : (shell_run (mkFmt id (λ _, "")) script_env jailed_state fs (λ _, false) (mkPolicy (Some "/w")) 5
                 inline_step).1 = [(Jailed, inline_spec)]) by by vm_compute.
  pose proof (shell_run_confined (mkFmt id (λ _, "")) script_env jailed_state fs (λ _, false) (mkPolicy (Some "/w")) 5
                inline_step) as [_ H].
  rewrite E, Forall_singleton in H. destruct H as (_ & _ & _ & _ & (script & Ha & Hs) & Hc & _).
  injection Ha as <-. split; [done|]. split; [|done].
  destruct Hc as [Hc|[[Hc _]|[Hc _]]]; [done|exact Hc|done].
Defined.
