(* ===== verification/Ledger.v ===== *)
(** * The ledger of the adaptive loop

    [crates/tinyflows-adaptive/src]: the types the loop turns on
    ([contracts.rs]), the ledger it remembers attempts in ([ledger/mod.rs]) with
    its in-memory backend ([ledger/memory.rs]), which member of a repaired
    family is offered ([promotion.rs]), which lessons a planner sees
    ([recall.rs]) and whether an authored graph can be reused ([reuse.rs]).

    The trait [Ledger] is a class over a backend's state; every operation may
    fail and may change that state.  What the loop relies on is the class
    [LawfulLedger], stated over two views of the state: the rows of an episode
    and the stored episodes.  Counters are natural numbers, the [f64] of a help
    rate is a [spec_float]. *)

From Stdlib Require Import SpecFloat Ascii.
From S2P Require Import Prelude Json GraphTypes Workflow Text Expr WfState EngineRun Diagnosis.

(** ** Contracts ([contracts.rs]) *)

Inductive Blocker :=
| BlockNone | Unverified | GoalNotMet | MissingEvidence | NeedsInput | ExternalWait.
#[export] Instance Blocker_eq_dec : EqDecision Blocker.
Proof. solve_decision. Defined.

Definition continuable (b : Blocker) : bool :=
  match b with Unverified | GoalNotMet => true | _ => false end.

Definition blocker_parse (raw : string) : Blocker :=
  let s := lower_ascii (trim raw) in
  if decide (s = "none" ∨ s = "") then BlockNone
  else if decide (s = "unverified") then Unverified
  else if decide (s = "missing_evidence") then MissingEvidence
  else if decide (s = "needs_input") then NeedsInput
  else if decide (s = "external_wait") then ExternalWait
  else GoalNotMet.

Definition blocker_debug (b : Blocker) : string :=
  match b with
  | BlockNone => "None" | Unverified => "Unverified" | GoalNotMet => "GoalNotMet"
  | MissingEvidence => "MissingEvidence" | NeedsInput => "NeedsInput" | ExternalWait => "ExternalWait"
  end.

Record Verdict := mkVerdict {
  vd_satisfied : bool;
  vd_blocker : Blocker;
  vd_gap : string;
  vd_attributed_to : string;
  vd_evidence : string;
  vd_advanced : bool
}.

Record Budget := mkBudget { bg_attempts : N; bg_min_attempts : N; bg_stall_limit : N }.
Definition budget_default : Budget := mkBudget 12 3 2.
Definition exhausted (b : Budget) (spent : N) : bool := bool_decide (bg_attempts b ≤ spent)%N.

Definition should_retry (v : Verdict) (spent stalled : N) (b : Budget) : bool :=
  if vd_satisfied v || negb (continuable (vd_blocker v)) then false
  else if exhausted b spent then false
  else if decide (spent < bg_min_attempts b)%N then true
  else bool_decide (stalled < bg_stall_limit b)%N.

Inductive Tier := TSelect | TAuthor | TJudge | TConsolidate | TRepair | TGeneralise.
Definition tier_as_str (t : Tier) : string :=
  match t with
  | TSelect => "select" | TAuthor => "author" | TJudge => "judge" | TConsolidate => "consolidate"
  | TRepair => "repair" | TGeneralise => "generalise"
  end.

Record Goal_ := mkGoal { gl_text : string; gl_success_criteria : string }.
Definition goal_new (text : string) : Goal_ := mkGoal text "".

Inductive Approach :=
| Selected (workflow_id why : string)
| Authored (why fingerprint : string)
| Errand (why : string).

Definition signature (a : Approach) : string :=
  match a with
  | Selected workflow_id _ => "selected:" +:+ workflow_id
  | Authored _ fingerprint => "authored:" +:+ fingerprint
  | Errand _ => "errand"
  end.

(** ** Rows, lessons, episodes ([ledger/mod.rs]) *)

Inductive LedgerError := LedgerBackend (message : string) | LedgerCorrupt (message : string).

Record LedgerRow := mkLedgerRow {
  lr_id : string;
  lr_episode : string;
  lr_attempt : N;
  lr_approach_sig : string;
  lr_approach_desc : string;
  lr_workflow_id : option string;
  lr_outcome : string;
  lr_cause : string;
  lr_cost_usd : spec_float;
  lr_at : string;
  lr_satisfied : bool;
  lr_advanced : bool
}.
Definition set_row_id (r : LedgerRow) (id : string) : LedgerRow :=
  mkLedgerRow id (lr_episode r) (lr_attempt r) (lr_approach_sig r) (lr_approach_desc r)
    (lr_workflow_id r) (lr_outcome r) (lr_cause r) (lr_cost_usd r) (lr_at r) (lr_satisfied r)
    (lr_advanced r).

Inductive LessonKind := Strategy | Constraint_ | FailureMode | Calibration.
#[export] Instance LessonKind_eq_dec : EqDecision LessonKind.
Proof. solve_decision. Defined.

Definition lesson_kind_parse (raw : string) : LessonKind :=
  let s := lower_ascii (trim raw) in
  if decide (s = "constraint") then Constraint_
  else if decide (s = "failure_mode") then FailureMode
  else if decide (s = "calibration") then Calibration else Strategy.

Record Lesson := mkLesson {
  ls_id : string;
  ls_kind : LessonKind;
  ls_trigger : string;
  ls_mechanism : string;
  ls_claim : string;
  ls_applied : N;
  ls_helped : N;
  ls_scope_key : option string
}.
Definition set_lesson (l : Lesson) (id : string) (applied helped : N) (scope : option string) : Lesson :=
  mkLesson id (ls_kind l) (ls_trigger l) (ls_mechanism l) (ls_claim l) applied helped scope.

Record Score := mkScore { sc_applied : N; sc_helped : N }.
#[export] Instance Score_eq_dec : EqDecision Score.
Proof. solve_decision. Defined.
Definition score_default : Score := mkScore 0 0.

(** [helped / applied] in binary64, zero without trials. *)
Definition rate (applied helped : N) : spec_float :=
  if decide (applied = 0%N) then S754_zero false
  else SFdiv 53 1024 (f64_of_Z (Z.of_N helped)) (f64_of_Z (Z.of_N applied)).
Definition help_rate (s : Score) : spec_float := rate (sc_applied s) (sc_helped s).
Definition lesson_help_rate (l : Lesson) : spec_float := rate (ls_applied l) (ls_helped l).

Definition MAX_LINEAGE_DEPTH : nat := 8.
Definition MAX_FAMILY : nat := 64.

Definition signatures (rows : list LedgerRow) : list string :=
  foldl (λ seen r, if decide (lr_approach_sig r ∈ seen) then seen else seen ++ [lr_approach_sig r]) [] rows.

(** [usize] bounds of a listing, counted down along the list. *)
Fixpoint take_n {A} (n : N) (l : list A) : list A :=
  match l with [] => [] | x :: l => if decide (n = 0%N) then [] else x :: take_n (n - 1) l end.
Fixpoint drop_n {A} (n : N) (l : list A) : list A :=
  match l with [] => [] | x :: l' => if decide (n = 0%N) then l else drop_n (n - 1) l' end.

Record Page := mkPage { pg_limit : N; pg_offset : N }.
Definition page_all : Page := mkPage (2 ^ 64 - 1) 0.
Definition page_first (n : N) : Page := mkPage n 0.
Definition page_apply {A} (p : Page) (items : list A) : list A :=
  if decide (N.of_nat (length items) ≤ pg_offset p)%N then []
  else take_n (pg_limit p) (drop_n (pg_offset p) items).

Inductive EpisodeStatus := EpRunning | EpSatisfied | EpStoodDown (reason : string).
#[export] Instance EpisodeStatus_eq_dec : EqDecision EpisodeStatus.
Proof. solve_decision. Defined.

Record Episode := mkEpisode {
  ep_id : string;
  ep_goal : Goal_;
  ep_scope_key : option string;
  ep_status : EpisodeStatus;
  ep_attempt : N;
  ep_stalled : N;
  ep_started_at : string;
  ep_updated_at : string
}.

(** ** The trait *)

Definition Led (L A : Type) : Type := L → L * result LedgerError A.

Class Ledger (L : Type) := {
  append : LedgerRow → Led L string;
  rows : string → Led L (list LedgerRow);
  promote : Lesson → list string → Led L string;
  lessons : option LessonKind → Led L (list Lesson);
  evidence : string → Led L (list LedgerRow);
  score_lesson : string → bool → Led L unit;
  score_workflow : string → bool → Led L unit;
  workflow_score : string → Led L Score;
  link_variant : string → string → Led L unit;
  parent_of : string → Led L (option string);
  children_of : string → Led L (list string);
  save_episode : Episode → Led L unit;
  episode : string → Led L (option Episode);
  episodes : bool → Page → Led L (list Episode);
  save_steps : string → list StepRecord → Led L unit;
  steps : string → Led L (list StepRecord)
}.

Definition lret {L A} (a : A) : Led L A := λ l, (l, Ok a).
Definition lbind {L A B} (m : Led L A) (k : A → Led L B) : Led L B := λ l,
  match m l with (l', Ok a) => k a l' | (l', Err e) => (l', Err e) end.

Section Provided.
Context {L : Type} `{Ledger L}.

Definition tried (ep : string) : Led L (list string) := lbind (rows ep) (λ rs, lret (signatures rs)).

(** The walk up: at most [n] parents. *)
Fixpoint walk_up (n : nat) (root : string) : Led L string :=
  match n with
  | 0 => lret root
  | S n =>
      lbind (parent_of root) (λ p,
        match p with
        | Some parent => if decide (parent = root) then lret root else walk_up n parent
        | None => lret root
        end)
  end.

Definition add_children (family children : list string) : list string :=
  foldl (λ fam c, if decide (c ∈ fam) then fam else fam ++ [c]) family children.

(** The walk down, breadth first: member [next] is expanded while it exists and
    the family is below the cap. *)
Fixpoint walk_down (fuel next : nat) (family : list string) : Led L (list string) :=
  match fuel with
  | 0 => lret family
  | S fuel =>
      match family !! next with
      | Some member =>
          if decide (length family < MAX_FAMILY) then
            lbind (children_of member) (λ cs, walk_down fuel (S next) (add_children family cs))
          else lret family
      | None => lret family
      end
  end.

Definition lineage (id : string) : Led L (list string) :=
  lbind (walk_up MAX_LINEAGE_DEPTH id) (λ root, walk_down MAX_FAMILY 0 [root]).
End Provided.

(** ** The ledger in memory ([ledger/memory.rs]) *)

Record Inner := mkInner {
  mi_rows : list (string * LedgerRow);
  mi_lessons : list Lesson;
  mi_evidence : list (string * string);
  mi_scores : gmap (string * string) Score;
  mi_variants : gmap (string * string) string;
  mi_episodes : list Episode;
  mi_steps : gmap (string * string) (list StepRecord)
}.
Definition inner_default : Inner := mkInner [] [] [] ∅ ∅ [] ∅.

Record MemoryLedger := mkMemoryLedger { ml_inner : Inner; ml_scope : option string }.
Definition memory_new : MemoryLedger := mkMemoryLedger inner_default None.
Definition for_tenant (m : MemoryLedger) (scope : string) : MemoryLedger :=
  mkMemoryLedger (ml_inner m) (Some scope).
Definition bucket (scope : option string) : string := default "" scope.
Definition visible (own scope : option string) : bool :=
  bool_decide (scope = None) || bool_decide (scope = own).

(** [format!("{:08}")]. *)
Fixpoint zeros (n : nat) : string := match n with 0 => "" | S n => SCons "0"%char (zeros n) end.
Definition padded8 (n : nat) : string :=
  let s := pretty n in zeros (8 - String.length s) +:+ s.

Definition set_inner (m : MemoryLedger) (i : Inner) : MemoryLedger := mkMemoryLedger i (ml_scope m).

Definition mem_append (r : LedgerRow) : Led MemoryLedger string := λ m,
  let i := ml_inner m in
  let id := "ldg_" +:+ padded8 (S (length (mi_rows i))) in
  (set_inner m (mkInner (mi_rows i ++ [(bucket (ml_scope m), set_row_id r id)]) (mi_lessons i) (mi_evidence i)
                  (mi_scores i) (mi_variants i) (mi_episodes i) (mi_steps i)), Ok id).

Definition mem_rows (ep : string) : Led MemoryLedger (list LedgerRow) := λ m,
  (m, Ok (filter (λ p, p.1 = bucket (ml_scope m) ∧ lr_episode p.2 = ep) (mi_rows (ml_inner m))).*2).

Definition mem_promote (l : Lesson) (cites : list string) : Led MemoryLedger string := λ m,
  let i := ml_inner m in
  let id := "les_" +:+ padded8 (S (length (mi_lessons i))) in
  let evidence := foldl (λ ev row, if decide ((id, row) ∈ ev) then ev else ev ++ [(id, row)])
                    (mi_evidence i) cites in
  (set_inner m (mkInner (mi_rows i)
     (mi_lessons i ++ [set_lesson l id (ls_applied l) (ls_helped l) (ml_scope m)]) evidence
     (mi_scores i) (mi_variants i) (mi_episodes i) (mi_steps i)), Ok id).

Definition mem_lessons (kind : option LessonKind) : Led MemoryLedger (list Lesson) := λ m,
  (m, Ok (filter (λ l, visible (ml_scope m) (ls_scope_key l) = true ∧
                       (kind = None ∨ kind = Some (ls_kind l)))
            (mi_lessons (ml_inner m)))).

Definition scope_of_bucket (b : string) : option string := if decide (b = "") then None else Some b.

Definition mem_evidence (lesson_id : string) : Led MemoryLedger (list LedgerRow) := λ m,
  let i := ml_inner m in
  let cited := (filter (λ e, e.1 = lesson_id) (mi_evidence i)).*2 in
  (m, Ok (filter (λ p, visible (ml_scope m) (scope_of_bucket p.1) = true ∧ lr_id p.2 ∈ cited) (mi_rows i)).*2).

(** The first visible lesson of that id is scored. *)
Fixpoint score_first (own : option string) (lesson_id : string) (helped : bool) (ls : list Lesson)
    : list Lesson :=
  match ls with
  | [] => []
  | l :: rest =>
      if visible own (ls_scope_key l) && bool_decide (ls_id l = lesson_id) then
        set_lesson l (ls_id l) (ls_applied l + 1) (ls_helped l + if helped then 1 else 0) (ls_scope_key l) :: rest
      else l :: score_first own lesson_id helped rest
  end.
Definition mem_score_lesson (lesson_id : string) (helped : bool) : Led MemoryLedger unit := λ m,
  let i := ml_inner m in
  (set_inner m (mkInner (mi_rows i) (score_first (ml_scope m) lesson_id helped (mi_lessons i)) (mi_evidence i)
                  (mi_scores i) (mi_variants i) (mi_episodes i) (mi_steps i)), Ok tt).

Definition mem_workflow_score (id : string) : Led MemoryLedger Score := λ m,
  (m, Ok (default score_default (mi_scores (ml_inner m) !! (bucket (ml_scope m), id)))).

Definition mem_score_workflow (id : string) (helped : bool) : Led MemoryLedger unit := λ m,
  let i := ml_inner m in
  let key := (bucket (ml_scope m), id) in
  let s := default score_default (mi_scores i !! key) in
  let s := mkScore (sc_applied s + 1) (sc_helped s + if helped then 1 else 0) in
  (set_inner m (mkInner (mi_rows i) (mi_lessons i) (mi_evidence i) (<[key := s]> (mi_scores i))
                  (mi_variants i) (mi_episodes i) (mi_steps i)), Ok tt).

(** An entry that exists is kept. *)
Definition mem_link_variant (parent variant : string) : Led MemoryLedger unit := λ m,
  let i := ml_inner m in
  let key := (bucket (ml_scope m), variant) in
  let variants := match mi_variants i !! key with
                  | Some _ => mi_variants i
                  | None => <[key := parent]> (mi_variants i)
                  end in
  (set_inner m (mkInner (mi_rows i) (mi_lessons i) (mi_evidence i) (mi_scores i) variants
                  (mi_episodes i) (mi_steps i)), Ok tt).

Definition mem_parent_of (id : string) : Led MemoryLedger (option string) := λ m,
  (m, Ok (mi_variants (ml_inner m) !! (bucket (ml_scope m), id))).

(** A stable sort by a comparison ([slice::sort_by]). *)
Section SortBy.
Context {A : Type} (cmp : A → A → comparison).
Fixpoint insert_by (x : A) (l : list A) : list A :=
  match l with
  | [] => [x]
  | y :: rest => match cmp x y with Gt => y :: insert_by x rest | _ => x :: l end
  end.
Definition sort_by (l : list A) : list A := foldr insert_by [] l.
End SortBy.

Definition then_with (a b : comparison) : comparison := match a with Eq => b | _ => a end.

Definition mem_children_of (id : string) : Led MemoryLedger (list string) := λ m,
  (m, Ok (sort_by String.compare
            (filter (λ p, p.1.1 = bucket (ml_scope m) ∧ p.2 = id) (map_to_list (mi_variants (ml_inner m)))).*1.*2)).

(** An update leaves when the episode started and its scope alone. *)
Fixpoint upsert_episode (stored : Episode) (own : option string) (es : list Episode) : list Episode :=
  match es with
  | [] => [stored]
  | e :: rest =>
      if decide (ep_id e = ep_id stored ∧ ep_scope_key e = own) then
        mkEpisode (ep_id stored) (ep_goal stored) (ep_scope_key e) (ep_status stored) (ep_attempt stored)
          (ep_stalled stored) (ep_started_at e) (ep_updated_at stored) :: rest
      else e :: upsert_episode stored own rest
  end.
Definition mem_save_episode (e : Episode) : Led MemoryLedger unit := λ m,
  let i := ml_inner m in
  let stored := mkEpisode (ep_id e) (ep_goal e) (ml_scope m) (ep_status e) (ep_attempt e) (ep_stalled e)
                  (ep_started_at e) (ep_updated_at e) in
  (set_inner m (mkInner (mi_rows i) (mi_lessons i) (mi_evidence i) (mi_scores i) (mi_variants i)
                  (upsert_episode stored (ml_scope m) (mi_episodes i)) (mi_steps i)), Ok tt).

Definition mem_episode (id : string) : Led MemoryLedger (option Episode) := λ m,
  (m, Ok (snd <$> list_find (λ e, ep_id e = id ∧ ep_scope_key e = ml_scope m) (mi_episodes (ml_inner m)))).

Definition latest_first (a b : Episode) : comparison :=
  then_with (String.compare (ep_updated_at b) (ep_updated_at a)) (String.compare (ep_id a) (ep_id b)).
Definition mem_episodes (running_only : bool) (p : Page) : Led MemoryLedger (list Episode) := λ m,
  (m, Ok (page_apply p (sort_by latest_first
            (filter (λ e, ep_scope_key e = ml_scope m ∧ (running_only = false ∨ ep_status e = EpRunning))
               (mi_episodes (ml_inner m)))))).

Definition mem_save_steps (row_id : string) (ss : list StepRecord) : Led MemoryLedger unit := λ m,
  let i := ml_inner m in
  (set_inner m (mkInner (mi_rows i) (mi_lessons i) (mi_evidence i) (mi_scores i) (mi_variants i)
                  (mi_episodes i) (<[(bucket (ml_scope m), row_id) := ss]> (mi_steps i))), Ok tt).
Definition mem_steps (row_id : string) : Led MemoryLedger (list StepRecord) := λ m,
  (m, Ok (default [] (mi_steps (ml_inner m) !! (bucket (ml_scope m), row_id)))).

#[export] Instance memory_ledger : Ledger MemoryLedger := {
  append := mem_append; rows := mem_rows; promote := mem_promote; lessons := mem_lessons;
  evidence := mem_evidence; score_lesson := mem_score_lesson; score_workflow := mem_score_workflow;
  workflow_score := mem_workflow_score; link_variant := mem_link_variant; parent_of := mem_parent_of;
  children_of := mem_children_of; save_episode := mem_save_episode; episode := mem_episode;
  episodes := mem_episodes; save_steps := mem_save_steps; steps := mem_steps
}.

(** ** Which member of a family is offered ([promotion.rs]) *)

Definition MIN_TRIALS : N := 3.

Inductive Standing := Unproven | Champion | Beaten.

Definition band (s : Score) : N :=
  if decide (MIN_TRIALS ≤ sc_applied s)%N then if decide (0 < sc_helped s)%N then 0 else 2 else 1.

(** [f64::total_cmp]: sign, then exponent and mantissa of the canonical form. *)
Definition float_key (f : spec_float) : Z * Z * Z :=
  match f with
  | S754_nan => (3, 0, 0)
  | S754_infinity false => (2, 0, 0)
  | S754_finite false m e => (1, e, Z.pos m)
  | S754_zero false => (0, 1, 0)
  | S754_zero true => (0, 0, 0)
  | S754_finite true m e => (-1, - e, Z.neg m)
  | S754_infinity true => (-2, 0, 0)
  end%Z.
Definition key_compare (a b : Z * Z * Z) : comparison :=
  then_with (Z.compare a.1.1 b.1.1) (then_with (Z.compare a.1.2 b.1.2) (Z.compare a.2 b.2)).
Definition total_cmp (x y : spec_float) : comparison := key_compare (float_key x) (float_key y).

Definition RankedMember : Type := nat * (string * Score).
Definition rank_members (a b : RankedMember) : comparison :=
  then_with (N.compare (band a.2.2) (band b.2.2))
    (then_with (total_cmp (help_rate b.2.2) (help_rate a.2.2))
       (then_with (N.compare (sc_applied b.2.2) (sc_applied a.2.2)) (Nat.compare a.1 b.1))).

(** [Iterator::min_by]: the first of the least. *)
Definition min_by {A} (cmp : A → A → comparison) (l : list A) : option A :=
  match l with
  | [] => None
  | x :: l => Some (foldl (λ best y, match cmp best y with Gt => y | _ => best end) x l)
  end.

Definition champion (family : list (string * Score)) : option string :=
  (λ m : RankedMember, m.2.1) <$> min_by rank_members (imap pair family).

Definition standing (id : string) (family : list (string * Score)) : Standing :=
  match list_find (λ m, m.1 = id) family with
  | None => Unproven
  | Some (_, (_, s)) =>
      if decide (band s = 1%N) then Unproven
      else if decide (champion family = Some id) then Champion else Beaten
  end.

(** ** Which lessons a planner sees ([recall.rs]) *)

Definition RECALL_LIMIT : N := 2 ^ 64 - 1.

Definition lesson_band (l : Lesson) : N :=
  if decide (0 < ls_applied l ∧ 0 < ls_helped l)%N then 0
  else if decide (ls_applied l = 0%N) then 1 else 2.

Definition rank_lessons (a b : Lesson) : comparison :=
  then_with (N.compare (lesson_band a) (lesson_band b))
    (then_with (total_cmp (lesson_help_rate b) (lesson_help_rate a)) (String.compare (ls_id a) (ls_id b))).

Definition always_loaded (l : Lesson) : bool := bool_decide (ls_kind l = Constraint_).

Definition retrieve (ls : list Lesson) (kind : option LessonKind) (k : N) : list Lesson :=
  let pool := sort_by rank_lessons (filter (λ l, kind = None ∨ kind = Some (ls_kind l)) ls) in
  filter (λ l, always_loaded l = true) pool ++ take_n k (filter (λ l, always_loaded l = false) pool).

Definition nl : string := SCons (ascii_of_nat 10) "".

Definition render_lesson (l : Lesson) : string :=
  let mechanism := if decide (ls_mechanism l = "") then "" else " (" +:+ ls_mechanism l +:+ ")" in
  let record := if decide (ls_applied l = 0%N) then "not yet applied"
                else "applied " +:+ pretty (ls_applied l) +:+ "×, helped " +:+ pretty (ls_helped l) +:+ "×" in
  "- when " +:+ ls_trigger l +:+ ": " +:+ ls_claim l +:+ mechanism +:+ " [" +:+ record +:+ "]".
Definition render_lessons (ls : list Lesson) : string :=
  if decide (ls = []) then ""
  else nl +:+ nl +:+ "# Learned from earlier episodes" +:+ nl +:+ join_with nl (render_lesson <$> ls).

Definition render_row (r : LedgerRow) : string :=
  let because := if decide (lr_cause r = "") then "" else nl +:+ "  still missing: " +:+ lr_cause r in
  pretty (lr_attempt r) +:+ ". [" +:+ lr_approach_sig r +:+ "] " +:+ lr_approach_desc r +:+ " → " +:+
  lr_outcome r +:+ because.
Definition render_history (rs : list LedgerRow) : string :=
  if decide (rs = []) then ""
  else nl +:+ nl +:+ "# Already tried this episode — do not propose any of these again" +:+ nl +:+
       join_with nl (render_row <$> rs).

(** ** Whether a graph is a procedure or a one-off ([reuse.rs]) *)

Definition LONG_ENOUGH : nat := 8.
Definition DISTINCTIVE_CHARS : list ascii := ["/"; "."; ":"; "@"; "_"; "-"]%char.

Definition distinctive (v : string) : bool :=
  let n := length (utf8_chars v) in
  bool_decide (LONG_ENOUGH ≤ n) ||
  existsb (λ c, bool_decide (c ∈ DISTINCTIVE_CHARS)) (String.list_ascii_of_string v) ||
  (bool_decide (4 ≤ n) && existsb is_ascii_digit (String.list_ascii_of_string v)).

(** [str::contains]. *)
Fixpoint str_contains (pat s : string) : bool :=
  String.prefix pat s || match s with EmptyString => false | SCons _ rest => str_contains pat rest end.

(** Every string leaf of a value, keys left out. *)
Fixpoint collect_strings (v : value) : list string :=
  match v with
  | Str s => [s]
  | Array l => concat (map collect_strings l)
  | Object m => concat (map (λ kv, collect_strings kv.2) m)
  | _ => []
  end.

(** The quoted literals of an expression; [current] is the literal being read,
    its characters reversed. *)
Definition unescaped (c : ascii) : ascii :=
  if decide (c = "n"%char) then ascii_of_nat 10
  else if decide (c = "t"%char) then ascii_of_nat 9
  else if decide (c = "r"%char) then ascii_of_nat 13 else c.
Fixpoint literals_from (current : option (list ascii)) (s : string) : list string :=
  let closed acc := String.string_of_list_ascii (rev acc) in
  match s with
  | EmptyString => []
  | SCons c rest =>
      if decide (c = ascii_of_nat 34) then
        match current with
        | Some acc => closed acc :: literals_from None rest
        | None => literals_from (Some []) rest
        end
      else
        match current with
        | None => literals_from None rest
        | Some acc =>
            if decide (c = ascii_of_nat 92) then
              match rest with
              | SCons e rest' => literals_from (Some (unescaped e :: acc)) rest'
              | EmptyString => []
              end
            else literals_from (Some (c :: acc)) rest
        end
  end.
Definition quoted_literals (expression : string) : list string := literals_from None expression.

Definition pasted (leaf v : string) : bool :=
  if String.prefix "=" leaf then existsb (str_contains v) (quoted_literals leaf) else str_contains v leaf.

Definition distinctive_inputs (inputs : list (string * value)) : list string :=
  filter (λ v, distinctive v = true) (trim <$> omap as_str inputs.*2).

Definition baked_in (g : WorkflowGraph) (inputs : list (string * value)) : list string :=
  let found := concat ((λ n, concat ((λ leaf, filter (λ v, pasted leaf v = true) (distinctive_inputs inputs))
                                       <$> collect_strings (nd_config n))) <$> wg_nodes g) in
  foldl (λ seen v, if decide (v ∈ seen) then seen else seen ++ [v]) [] found.

(** [digest_hex]: FNV-1a over bytes, 64 bits, in 16 hexadecimal digits. *)
Definition fnv1a (bytes : list Z) : Z :=
  foldl (λ hash b, (Z.lxor hash b * 0x100000001b3) mod 2 ^ 64)%Z 0xcbf29ce484222325%Z bytes.
Definition hex_digit (d : Z) : ascii :=
  ascii_of_nat (Z.to_nat (if decide (d < 10)%Z then 48 + d else 87 + d)%Z).
Fixpoint hex_digits (n : nat) (z : Z) (acc : string) : string :=
  match n with 0 => acc | S n => hex_digits n (z / 16)%Z (SCons (hex_digit (z mod 16)%Z) acc) end.
Definition digest_hex (bytes : list Z) : string := hex_digits 16 (fnv1a bytes) "".

(** ** Total comparisons *)

Lemma list_find_filter {A} (P : A → Prop) `{!∀ x, Decision (P x)} (l : list A) :
  snd <$> list_find P l = head (filter P l).
Proof.
  induction l as [|x l IH]; [done|]. rewrite filter_cons. cbn [list_find]. case_decide; [done|].
  rewrite <- IH. by destruct (list_find P l) as [[]|].
Qed.

Class TotalCmp {A} (cmp : A → A → comparison) : Prop := {
  cmp_opp x y : cmp y x = CompOpp (cmp x y);
  cmp_trans x y z : cmp x y ≠ Gt → cmp y z ≠ Gt → cmp x z ≠ Gt
}.

#[export] Instance Z_total : TotalCmp Z.compare.
Proof. split; [intros; apply Z.compare_antisym|]. intros x y z. rewrite !Z.compare_ngt_iff. lia. Qed.
#[export] Instance N_total : TotalCmp N.compare.
Proof. split; [intros; apply N.compare_antisym|]. intros x y z. rewrite !N.compare_ngt_iff. lia. Qed.
#[export] Instance nat_total : TotalCmp Nat.compare.
Proof. split; [intros; apply Nat.compare_antisym|]. intros x y z. rewrite !Nat.compare_ngt_iff. lia. Qed.

Lemma cmp_eq_sym {A} cmp `{!TotalCmp cmp} (x y : A) : cmp x y = Eq → cmp y x = Eq.
Proof. intros H. by rewrite cmp_opp, H. Qed.
Lemma cmp_refl {A} cmp `{!TotalCmp cmp} (x : A) : cmp x x = Eq.
Proof. pose proof (cmp_opp x x). by destruct (cmp x x). Qed.
Lemma cmp_eq_trans {A} cmp `{!TotalCmp cmp} (x y z : A) : cmp x y = Eq → cmp y z = Eq → cmp x z = Eq.
Proof.
  intros H1 H2.
  assert (cmp x z ≠ Gt) as Hxz by (apply (cmp_trans x y z); congruence).
  assert (cmp z x ≠ Gt) as Hzx.
  { apply (cmp_trans z y x); rewrite cmp_opp; [rewrite H2|rewrite H1]; done. }
  rewrite cmp_opp in Hzx. by destruct (cmp x z).
Qed.
Lemma cmp_lt_trans {A} cmp `{!TotalCmp cmp} (x y z : A) :
  cmp x y ≠ Gt → cmp y z ≠ Gt → cmp x z = Eq → cmp x y = Eq ∧ cmp y z = Eq.
Proof.
  intros H1 H2 H3. assert (cmp z x = Eq) by by apply cmp_eq_sym.
  assert (cmp y x ≠ Gt) by (apply (cmp_trans y z x); congruence).
  assert (cmp z y ≠ Gt) by (apply (cmp_trans z x y); congruence).
  rewrite cmp_opp in *. split; [destruct (cmp x y) eqn:E|destruct (cmp y z) eqn:E]; try done;
    rewrite ?(cmp_opp x y), ?(cmp_opp y z), E in *; done.
Qed.

Lemma by_key_total {A B} (f : A → B) cmp :
  TotalCmp cmp → TotalCmp (λ x y, cmp (f x) (f y)).
Proof. split; intros; [apply cmp_opp|by eapply cmp_trans]. Qed.
Lemma flip_total {A} (cmp : A → A → comparison) : TotalCmp cmp → TotalCmp (λ x y, cmp y x).
Proof. split; intros; [apply cmp_opp|by eapply cmp_trans]. Qed.
Lemma then_total {A} (c1 c2 : A → A → comparison) :
  TotalCmp c1 → TotalCmp c2 → TotalCmp (λ x y, then_with (c1 x y) (c2 x y)).
Proof.
  split.
  - intros x y. rewrite (cmp_opp x y), (cmp_opp (cmp := c2) x y). by destruct (c1 x y).
  - intros x y z H1 H2. unfold then_with in *.
    assert (c1 x y ≠ Gt) as Hxy by (destruct (c1 x y); done).
    assert (c1 y z ≠ Gt) as Hyz by (destruct (c1 y z); done).
    pose proof (cmp_trans x y z Hxy Hyz) as Hxz. destruct (c1 x z) eqn:E; [|done..].
    destruct (cmp_lt_trans c1 x y z Hxy Hyz E) as [E1 E2]. rewrite E1 in H1. rewrite E2 in H2.
    by eapply cmp_trans.
Qed.

#[export] Instance key_compare_total : TotalCmp key_compare.
Proof.
  apply (then_total (λ a b : Z * Z * Z, Z.compare a.1.1 b.1.1)
           (λ a b, then_with (Z.compare a.1.2 b.1.2) (Z.compare a.2 b.2)));
    [apply (by_key_total (λ a : Z * Z * Z, a.1.1)); exact Z_total|].
  apply (then_total (λ a b : Z * Z * Z, Z.compare a.1.2 b.1.2) (λ a b, Z.compare a.2 b.2));
    [apply (by_key_total (λ a : Z * Z * Z, a.1.2))|apply (by_key_total (λ a : Z * Z * Z, a.2))];
    exact Z_total.
Qed.
#[export] Instance total_cmp_total : TotalCmp total_cmp.
Proof. apply (by_key_total float_key). exact key_compare_total. Qed.
#[export] Instance rank_members_total : TotalCmp rank_members.
Proof.
  apply (then_total (λ a b : RankedMember, N.compare (band a.2.2) (band b.2.2)));
    [apply (by_key_total (λ a : RankedMember, band a.2.2)); exact N_total|].
  apply (then_total (λ a b : RankedMember, total_cmp (help_rate b.2.2) (help_rate a.2.2)));
    [apply (flip_total (λ a b : RankedMember, total_cmp (help_rate a.2.2) (help_rate b.2.2)));
     apply (by_key_total (λ a : RankedMember, help_rate a.2.2)); exact total_cmp_total|].
  apply (then_total (λ a b : RankedMember, N.compare (sc_applied b.2.2) (sc_applied a.2.2)));
    [apply (flip_total (λ a b : RankedMember, N.compare (sc_applied a.2.2) (sc_applied b.2.2)));
     apply (by_key_total (λ a : RankedMember, sc_applied a.2.2)); exact N_total|].
  apply (by_key_total (λ a : RankedMember, a.1)). exact nat_total.
Qed.

Lemma min_by_spec {A} cmp `{!TotalCmp cmp} (l : list A) m :
  min_by cmp l = Some m → m ∈ l ∧ ∀ x, x ∈ l → cmp m x ≠ Gt.
Proof.
  destruct l as [|x l]; [done|]. cbn. intros [= <-].
  assert (Hgen : ∀ l x, let m := foldl (λ best y, match cmp best y with Gt => y | _ => best end) x l in
    m ∈ x :: l ∧ ∀ y, y ∈ x :: l → cmp m y ≠ Gt); [|apply Hgen].
  clear l x. induction l as [|y l IH]; intros x; cbn.
  - split; [left|]. intros z [->|Hz]%elem_of_cons; [by rewrite (cmp_refl cmp)|by apply elem_of_nil in Hz].
  - destruct (IH (match cmp x y with Gt => y | _ => x end)) as [Hin Hle]. split.
    + destruct (cmp x y); set_solver.
    + intros z Hz. assert (Hhead := Hle (match cmp x y with Gt => y | _ => x end) ltac:(left)).
      apply elem_of_cons in Hz as [->|[->|Hz]%elem_of_cons].
      * eapply cmp_trans; [exact Hhead|]. destruct (cmp x y) eqn:E; rewrite ?(cmp_refl cmp); [done..|].
        by rewrite cmp_opp, E.
      * eapply cmp_trans; [exact Hhead|]. destruct (cmp x y) eqn:E; rewrite ?E, ?(cmp_refl cmp); done.
      * apply Hle. by right.
Qed.
