(* ===== verification/LedgerTheorems.v ===== *)
(** * What the adaptive ledger guarantees

    Theorems about [Ledger]: the member of a repaired family that is offered, the
    lessons a planner sees, the families a lineage walk returns, and that a
    tenant's writes leave what another tenant reads alone. *)

From Stdlib Require Import SpecFloat.
From stdpp Require Import sorting.
From S2P Require Import Prelude Json GraphTypes Workflow Text Expr WfState EngineRun Diagnosis Ledger.

(** ** Sorting by a comparison *)

Section SortByFacts.
Context {A : Type} (cmp : A → A → comparison) `{!TotalCmp cmp}.
Definition not_after (x y : A) : Prop := cmp x y ≠ Gt.

Lemma insert_by_perm x l : insert_by cmp x l ≡ₚ x :: l.
Proof.
  induction l as [|y l IH]; cbn; [done|]. destruct (cmp x y); [done..|]. rewrite IH. apply Permutation_swap.
Qed.
Lemma sort_by_perm l : sort_by cmp l ≡ₚ l.
Proof. induction l as [|x l IH]; cbn; [done|]. by rewrite insert_by_perm, IH. Qed.

Lemma insert_by_sorted x l : StronglySorted not_after l → StronglySorted not_after (insert_by cmp x l).
Proof.
  induction 1 as [|y l Hl IH Hy]; cbn; [repeat constructor|].
  assert (Hle : cmp x y ≠ Gt → Forall (not_after x) (y :: l)).
  { intros Hxy. constructor; [done|]. eapply Forall_impl; [exact Hy|]. intros z Hz. by eapply cmp_trans. }
  destruct (cmp x y) eqn:E; [constructor; [by constructor|apply Hle; congruence]..|].
  constructor; [exact IH|]. rewrite insert_by_perm. constructor; [|done].
  unfold not_after. by rewrite cmp_opp, E.
Qed.
Lemma sort_by_sorted l : StronglySorted not_after (sort_by cmp l).
Proof. induction l as [|x l IH]; cbn; [constructor|by apply insert_by_sorted]. Qed.
End SortByFacts.

Lemma take_n_take {A} k (l : list A) : take_n k l = take (N.to_nat k) l.
Proof.
  revert k. induction l as [|x l IH]; intros k; cbn; [by rewrite take_nil|].
  case_decide as Hk; [by rewrite Hk|]. rewrite IH. by replace (N.to_nat k) with (S (N.to_nat (k - 1))) by lia.
Qed.
Lemma drop_n_drop {A} k (l : list A) : drop_n k l = drop (N.to_nat k) l.
Proof.
  revert k. induction l as [|x l IH]; intros k; cbn; [by rewrite drop_nil|].
  case_decide as Hk; [by rewrite Hk|]. rewrite IH. by replace (N.to_nat k) with (S (N.to_nat (k - 1))) by lia.
Qed.

(** ** Recall *)

Lemma String_compare_total : TotalCmp String.compare.
Proof.
  split; [intros; apply String.compare_antisym|].
  assert (Hac : ∀ a b c, Ascii.compare a b = Lt → Ascii.compare b c = Lt → Ascii.compare a c = Lt).
  { intros a b c. unfold Ascii.compare. rewrite !N.compare_lt_iff. lia. }
  intros x y z. revert y z. induction x as [|a x IH]; intros [|b y] [|c z]; cbn; try done.
  destruct (Ascii.compare a b) eqn:E1; destruct (Ascii.compare b c) eqn:E2; try done; intros H1 H2.
  - apply Ascii.compare_eq_iff in E1 as ->, E2 as ->. unfold Ascii.compare. rewrite N.compare_refl.
    by eapply IH.
  - apply Ascii.compare_eq_iff in E1 as ->. by rewrite E2.
  - apply Ascii.compare_eq_iff in E2 as ->. by rewrite E1.
  - by rewrite (Hac _ _ _ E1 E2).
Qed.

#[export] Instance rank_lessons_total : TotalCmp rank_lessons.
Proof.
  apply (then_total (λ a b, N.compare (lesson_band a) (lesson_band b)));
    [apply (by_key_total lesson_band); exact N_total|].
  apply (then_total (λ a b, total_cmp (lesson_help_rate b) (lesson_help_rate a)));
    [apply (flip_total (λ a b, total_cmp (lesson_help_rate a) (lesson_help_rate b)));
     apply (by_key_total lesson_help_rate); exact total_cmp_total|].
  apply (by_key_total ls_id). exact String_compare_total.
Qed.

Definition lessons_of (kind : option LessonKind) (ls : list Lesson) : list Lesson :=
  filter (λ l, kind = None ∨ kind = Some (ls_kind l)) ls.

(** Recall orders and never loses what matters: every constraint of the pool is
    returned whatever the limit, nothing outside the pool is, nothing is
    duplicated, a lesson cut by the limit ranks no better than one that was kept,
    and with [RECALL_LIMIT] the answer is the whole pool reordered. *)
Theorem recall_keeps_best (ls : list Lesson) (kind : option LessonKind) (k : N) :
  let pool := lessons_of kind ls in
  let out := retrieve ls kind k in
  (∃ cut, out ++ cut ≡ₚ pool ∧ Forall (λ l, ls_kind l ≠ Constraint_) cut ∧
     (∀ x y, x ∈ out → ls_kind x ≠ Constraint_ → y ∈ cut → rank_lessons x y ≠ Gt)) ∧
  ((N.of_nat (length pool) ≤ k)%N → out ≡ₚ pool).
Proof.
  intros pool out. subst pool out. unfold retrieve. fold (lessons_of kind ls).
  set (sorted := sort_by rank_lessons (lessons_of kind ls)).
  set (rest := filter (λ l, always_loaded l = false) sorted).
  assert (Hp : sorted ≡ₚ lessons_of kind ls) by apply (sort_by_perm rank_lessons).
  assert (Hsplit : filter (λ l, always_loaded l = true) sorted ++ rest ≡ₚ lessons_of kind ls).
  { rewrite <- Hp. etrans; [|apply (filter_app_complement (λ l, always_loaded l = true) sorted)].
    apply Permutation_app_head. subst rest. 
    rewrite (list_filter_iff (λ l, always_loaded l = false) (λ l, always_loaded l ≠ true)); [done|].
    intros l. by rewrite not_true_iff_false. }
  rewrite take_n_take. split.
  - exists (drop (N.to_nat k) rest). rewrite <- app_assoc, take_drop. split; [done|]. split.
    + apply Forall_forall. intros l Hl. apply (subseteq_drop (N.to_nat k)) in Hl.
      apply list_elem_of_filter in Hl as [Hl _]. unfold always_loaded in Hl. by apply bool_decide_eq_false in Hl.
    + intros x y [Hx|Hx]%elem_of_app Hk Hy.
      * apply list_elem_of_filter in Hx as [Hx _]. by apply bool_decide_eq_true in Hx.
      * apply (StronglySorted_app_1_elem_of (not_after rank_lessons) (take (N.to_nat k) rest) (drop (N.to_nat k) rest)); [|done..].
        rewrite take_drop. apply StronglySorted_filter, sort_by_sorted. apply _.
  - intros Hk. rewrite take_ge; [done|]. apply Permutation_length in Hsplit. rewrite length_app in Hsplit. lia.
Qed.

(** ** Promotion *)

Definition proven (s : Score) : Prop := (MIN_TRIALS ≤ sc_applied s ∧ 0 < sc_helped s)%N.
Definition useless (s : Score) : Prop := (MIN_TRIALS ≤ sc_applied s ∧ sc_helped s = 0)%N.

Lemma band_proven s : proven s ↔ band s = 0%N.
Proof. unfold band, proven. repeat case_decide; split; try done; lia. Qed.
Lemma band_useless s : useless s ↔ band s = 2%N.
Proof. unfold band, useless. repeat case_decide; split; try done; lia. Qed.
Lemma band_le s : (band s ≤ 2)%N.
Proof. unfold band. repeat case_decide; lia. Qed.

Lemma rank_band a b : rank_members a b ≠ Gt → (band a.2.2 ≤ band b.2.2)%N.
Proof.
  unfold rank_members, then_with. destruct (N.compare_spec (band a.2.2) (band b.2.2)); [lia..|done].
Qed.

Lemma imap_pair_elem {A} (l : list A) i x : (i, x) ∈ imap pair l ↔ l !! i = Some x.
Proof.
  rewrite list_elem_of_lookup. setoid_rewrite list_lookup_imap_Some. split.
  - intros (j & y & Hj & [= -> ->]). done.
  - intros H. by exists i, x.
Qed.

Lemma champion_spec family id :
  champion family = Some id →
  ∃ i s, family !! i = Some (id, s) ∧
    ∀ j m, family !! j = Some m → rank_members (i, (id, s)) (j, m) ≠ Gt.
Proof.
  unfold champion. intros ([i [id' s]] & Hm & ->)%fmap_Some.
  apply (min_by_spec rank_members) in Hm as [Hin Hle]. exists i, s.
  apply imap_pair_elem in Hin. split; [done|]. intros j m Hj. apply Hle. by apply imap_pair_elem.
Qed.

(** The member a family offers is the best supported one.  A family always
    offers one of its members; no member outranks it; it is proven (tried three
    times and of help) as soon as any member is, and it is one that was tried
    three times and never helped only when every member is; and in a family
    nobody has tried the root, its first member, is offered. *)
Theorem champion_best (root : string * Score) (variants : list (string * Score)) :
  let family := root :: variants in
  ∃ i id s, champion family = Some id ∧ family !! i = Some (id, s) ∧
    (∀ j m, family !! j = Some m → rank_members (i, (id, s)) (j, m) ≠ Gt) ∧
    (Exists (λ m, proven m.2) family → proven s) ∧
    (useless s → Forall (λ m, useless m.2) family) ∧
    (Forall (λ m, m.2 = score_default) family → i = 0).
Proof.
  intros family. destruct (champion family) as [id|] eqn:Hc; [|by destruct root].
  destruct (champion_spec family id Hc) as (i & s & Hi & Hbest). exists i, id, s.
  assert (Hband : ∀ m, m ∈ family → (band s ≤ band m.2)%N).
  { intros m [j Hj]%list_elem_of_lookup. apply (rank_band (i, (id, s)) (j, m)). by apply Hbest. }
  split_and!; [done..| | |].
  - rewrite Exists_exists. intros (m & Hm & Hp). rewrite band_proven in Hp |- *.
    specialize (Hband m Hm). lia.
  - intros Hu%band_useless. apply Forall_forall. intros m Hm. apply band_useless.
    specialize (Hband m Hm). pose proof (band_le m.2). lia.
  - intros Hall. pose proof (Hbest 0 root eq_refl) as H0.
    rewrite Forall_forall in Hall. pose proof (Hall _ (list_elem_of_lookup_2 _ _ _ Hi)) as Hs. cbn in Hs.
    pose proof (Hall root ltac:(left)) as Hr. destruct root as [r sr]. cbn in Hr. subst s sr.
    unfold rank_members in H0. cbn in H0. by destruct i.
Qed.

(** ** Families *)

(** A walk down that never meets the cap returns exactly the descendants. *)
Lemma add_children_spec family cs :
  (∃ new, add_children family cs = family ++ new) ∧
  (∀ x, x ∈ add_children family cs ↔ x ∈ family ∨ x ∈ cs) ∧
  (NoDup family → NoDup (add_children family cs)).
Proof.
  unfold add_children. revert family. induction cs as [|c cs IH]; intros family; cbn.
  - split_and!; [exists []; by rewrite app_nil_r|set_solver|done].
  - destruct (IH (if decide (c ∈ family) then family else family ++ [c])) as ((new & Hn) & Hel & Hnd).
    split_and!.
    + case_decide; [by exists new|]. exists (c :: new). by rewrite Hn, <- app_assoc.
    + intros x. rewrite Hel. case_decide; set_solver.
    + intros Hf. apply Hnd. case_decide; [done|]. apply NoDup_app. split_and!; [done| |apply NoDup_singleton].
      set_solver.
Qed.

Section Lineage.
Context {L : Type} `{Ledger L} (l : L) (kids : string → list string) (up : string → option string).
Hypothesis children_read : ∀ id, children_of id l = (l, Ok (kids id)).
Hypothesis parent_read : ∀ id, parent_of id l = (l, Ok (up id)).

Definition child (a b : string) : Prop := b ∈ kids a.
Definition reaches := rtc child.

Lemma walk_down_spec root fuel next family :
  MAX_FAMILY ≤ fuel + next →
  NoDup family → next ≤ length family → family !! 0 = Some root → Forall (reaches root) family →
  (∀ j m c, j < next → family !! j = Some m → child m c → c ∈ family) →
  ∃ out, walk_down fuel next family l = (l, Ok out) ∧ NoDup out ∧ out !! 0 = Some root ∧
    Forall (reaches root) out ∧
    (length out < MAX_FAMILY → ∀ m, reaches root m → m ∈ out).
Proof.
  revert next family. induction fuel as [|fuel IH]; intros next family Hfuel Hnd Hnext Hroot Hreach Hclosed; cbn.
  - exists family. split_and!; try done. intros ?. lia.
  - destruct (family !! next) as [member|] eqn:Hm; cbn.
    + case_decide as Hcap; [|by exists family].
      unfold lbind. rewrite children_read. destruct (add_children_spec family (kids member)) as ((new & Hnew) & Hel & Hdup).
      apply IH; [lia|by apply Hdup| | | |].
      * rewrite Hnew, length_app. apply lookup_lt_Some in Hm. lia.
      * rewrite Hnew. by apply lookup_app_l_Some.
      * apply Forall_forall. intros x [Hx|Hx]%Hel; rewrite Forall_forall in Hreach; [by apply Hreach|].
        eapply rtc_r; [apply Hreach; by eapply list_elem_of_lookup_2|done].
      * intros j m c Hj Hl Hc. apply Hel. rewrite Hnew in Hl.
        assert (j < length family) by (apply lookup_lt_Some in Hm; lia). rewrite lookup_app_l in Hl by done.
        destruct (decide (j = next)) as [->|]; [right; by simplify_eq|left; apply (Hclosed j m c); [lia|done..]].
    + exists family. split_and!; try done. intros _ m Hrm. apply lookup_ge_None in Hm.
      assert (root ∈ family) as Hin by by eapply list_elem_of_lookup_2.
      revert Hin. clear -Hrm Hclosed Hm. induction Hrm as [|x y z Hxy _ IHr]; [done|].
      intros [j Hj]%list_elem_of_lookup. apply IHr. apply (Hclosed j x y); [|done..].
      apply lookup_lt_Some in Hj. lia.
Qed.

Inductive ancestor_in (id : string) : nat → string → Prop :=
| anc_stop n root : up root = None ∨ up root = Some root ∨ n = 0 → root = id → ancestor_in id n root
| anc_step n parent root :
    up id = Some parent → parent ≠ id → ancestor_in parent n root → ancestor_in id (S n) root.

Lemma walk_up_spec n id : ∃ root, walk_up n id l = (l, Ok root) ∧ ancestor_in id n root.
Proof.
  revert id. induction n as [|n IH]; intros id; cbn.
  - exists id. split; [done|]. apply anc_stop; [by right; right|done].
  - unfold lbind. rewrite parent_read. destruct (up id) as [parent|] eqn:Hu.
    + case_decide as Hp; [subst; exists id; split; [done|apply anc_stop; auto]|].
      destruct (IH parent) as (root & -> & Ha). exists root. split; [done|]. by eapply anc_step.
    + exists id. split; [done|]. apply anc_stop; auto.
Qed.

Lemma lineage_spec id :
  ∃ root out, lineage id l = (l, Ok out) ∧ ancestor_in id MAX_LINEAGE_DEPTH root ∧
    NoDup out ∧ out !! 0 = Some root ∧ Forall (reaches root) out ∧
    (length out < MAX_FAMILY → ∀ m, reaches root m → m ∈ out).
Proof.
  destruct (walk_up_spec MAX_LINEAGE_DEPTH id) as (root & Hup & Ha).
  unfold lineage, lbind. rewrite Hup.
  destruct (walk_down_spec root MAX_FAMILY 0 [root]) as (out & Hd & Hrest);
    [lia|apply NoDup_singleton|cbn; lia|done|by constructor|intros; lia|].
  exists root, out. split; [exact Hd|]. by split_and!; try apply Hrest.
Qed.
End Lineage.

(** The direct variants of a workflow, and what it was derived from, in the
    memory of one scope. *)
Definition mem_kids (m : MemoryLedger) (id : string) : list string :=
  sort_by String.compare
    (filter (λ p, p.1.1 = bucket (ml_scope m) ∧ p.2 = id) (map_to_list (mi_variants (ml_inner m)))).*1.*2.
Definition mem_up (m : MemoryLedger) (id : string) : option string :=
  mi_variants (ml_inner m) !! (bucket (ml_scope m), id).

(** A lineage read always answers, and with one family.  Whatever links were
    written, cycles included, it returns without duplicates the members below
    one workflow, that workflow first, which is the one reached by following the
    parents of [id] until there is none (at most eight times); and when it
    returns fewer members than the cap, it returns every one of them. *)
Theorem lineage_family (m : MemoryLedger) (id : string) :
  ∃ root out, lineage id m = (m, Ok out) ∧ ancestor_in (mem_up m) id MAX_LINEAGE_DEPTH root ∧
    NoDup out ∧ out !! 0 = Some root ∧ Forall (reaches (mem_kids m) root) out ∧
    (length out < MAX_FAMILY → ∀ x, reaches (mem_kids m) root x → x ∈ out).
Proof. by apply (lineage_spec m (mem_kids m) (mem_up m)). Qed.

(** The cap is not a bound on what a lineage returns: all the variants of one
    member are added at once, so a root with seventy variants answers
    seventy-one members. *)
Theorem lineage_over_cap :
  ∃ m out, (lineage "root" m).2 = Ok out ∧ MAX_FAMILY < length out.
Proof.
  set (m := foldl (λ m i, (link_variant "root" ("v" +:+ padded8 i) m).1) memory_new (seq 0 70)).
  assert (match (lineage "root" m).2 with Ok out => MAX_FAMILY <? length out | Err _ => false end = true) as H
    by (vm_compute; reflexivity).
  exists m. destruct (lineage "root" m).2 as [out|]; [|done]. exists out. split; [done|by apply Nat.ltb_lt].
Qed.

(** ** Tenants *)

Inductive LedgerWrite :=
| WAppend (r : LedgerRow) | WPromote (l : Lesson) (cites : list string)
| WScoreLesson (id : string) (helped : bool) | WScoreWorkflow (id : string) (helped : bool)
| WLinkVariant (parent variant : string) | WSaveEpisode (e : Episode)
| WSaveSteps (row : string) (ss : list StepRecord).

Definition write_inner (scope : option string) (w : LedgerWrite) (i : Inner) : Inner :=
  let m := mkMemoryLedger i scope in
  ml_inner match w with
           | WAppend r => (append r m).1
           | WPromote l cites => (promote l cites m).1
           | WScoreLesson id helped => (score_lesson id helped m).1
           | WScoreWorkflow id helped => (score_workflow id helped m).1
           | WLinkVariant parent variant => (link_variant parent variant m).1
           | WSaveEpisode e => (save_episode e m).1
           | WSaveSteps row ss => (save_steps row ss m).1
           end.

(** A lesson recorded for everyone, without its counters. *)
Definition uncounted (l : Lesson) : Lesson :=
  if decide (ls_scope_key l = None) then set_lesson l (ls_id l) 0 0 None else l.
Definition lessons_read (kind : option LessonKind) (m : MemoryLedger) : option (list Lesson) :=
  match (lessons kind m).2 with Ok ls => Some (uncounted <$> ls) | Err _ => None end.

(** What a scope reads, apart from the counters of lessons everyone shares. *)
Record SameReads (own : option string) (i j : Inner) : Prop := {
  sr_rows ep : (rows ep (mkMemoryLedger i own)).2 = (rows ep (mkMemoryLedger j own)).2;
  sr_score id : (workflow_score id (mkMemoryLedger i own)).2 = (workflow_score id (mkMemoryLedger j own)).2;
  sr_parent id : (parent_of id (mkMemoryLedger i own)).2 = (parent_of id (mkMemoryLedger j own)).2;
  sr_children id : mem_kids (mkMemoryLedger i own) id ≡ₚ mem_kids (mkMemoryLedger j own) id;
  sr_episode id : (episode id (mkMemoryLedger i own)).2 = (episode id (mkMemoryLedger j own)).2;
  sr_episodes running p : (episodes running p (mkMemoryLedger i own)).2 = (episodes running p (mkMemoryLedger j own)).2;
  sr_steps id : (steps id (mkMemoryLedger i own)).2 = (steps id (mkMemoryLedger j own)).2;
  sr_lessons kind : lessons_read kind (mkMemoryLedger i own) = lessons_read kind (mkMemoryLedger j own)
}.

#[export] Instance SameReads_equiv own : PreOrder (SameReads own).
Proof.
  split; [by split|]. intros i j k [] []. split; intros; etrans; eauto.
Qed.

(** Scoring a lesson of another tenant, or one of everyone's, changes nothing a
    scope sees but the counters. *)
Lemma score_first_other own w id helped (P : Lesson → Prop) `{!∀ l, Decision (P l)} ls :
  w ≠ own → w ≠ None → (∀ l, P l → visible own (ls_scope_key l) = true) →
  (∀ l n m, P (set_lesson l (ls_id l) n m (ls_scope_key l)) ↔ P l) →
  uncounted <$> filter P (score_first w id helped ls) = uncounted <$> filter P ls.
Proof.
  intros Hw Hn HP Hset. induction ls as [|l ls IH]; cbn -[filter]; [done|].
  destruct (visible w (ls_scope_key l) && _) eqn:E; rewrite !filter_cons.
  - rewrite (decide_ext _ _ _ _ (Hset l _ _)). destruct (decide (P l)) as [Hl|]; [|done]. rewrite !fmap_cons. f_equal.
    apply HP in Hl. apply andb_true_iff in E as [E _]. unfold visible in Hl, E.
    unfold uncounted, set_lesson. cbn [ls_scope_key ls_id ls_kind ls_trigger ls_mechanism ls_claim].
    destruct (decide (ls_scope_key l = None)) as [Hk|Hk]; [done|]. rewrite !bool_decide_eq_false_2 in Hl, E by done. cbn in Hl, E.
    apply bool_decide_eq_true in Hl, E. congruence.
  - destruct (decide (P l)); [rewrite !fmap_cons; by f_equal|exact IH].
Qed.

Lemma upsert_other own w stored es (P : Episode → Prop) `{!∀ e, Decision (P e)} :
  (∀ e, P e → ep_scope_key e = own) → ep_scope_key stored = w → w ≠ own →
  filter P (upsert_episode stored w es) = filter P es.
Proof.
  intros HP Hs Hw. assert (Hno : ∀ e, ep_scope_key e = w → ¬ P e) by (intros e He HPe%HP; congruence).
  induction es as [|e es IH]; cbn -[filter].
  - rewrite filter_cons_False by by apply Hno. done.
  - case_decide as He; rewrite !filter_cons; [|by rewrite IH].
    destruct He as [_ He]. rewrite !decide_False; [done|by apply Hno..].
Qed.

Lemma filter_app_other {A} (P : A → Prop) `{!∀ x, Decision (P x)} (l : list A) x :
  ¬ P x → filter P (l ++ [x]) = filter P l.
Proof. intros Hx. by rewrite filter_app, filter_cons_False, filter_nil, app_nil_r. Qed.

Lemma variants_insert_other (vs : gmap (string * string) string) own a v parent id :
  own ≠ a → vs !! (a, v) = None →
  (filter (λ p, p.1.1 = own ∧ p.2 = id) (map_to_list (<[(a, v) := parent]> vs))).*1.*2
  ≡ₚ (filter (λ p, p.1.1 = own ∧ p.2 = id) (map_to_list vs)).*1.*2.
Proof.
  intros Ho Hv. rewrite map_to_list_insert by done. rewrite filter_cons_False; [done|]. intros [H _]. by apply Ho.
Qed.

(** One write of tenant [a] leaves the reads of another scope alone. *)
Lemma write_other own a w i :
  a ≠ "" → bucket own ≠ a → SameReads own (write_inner (Some a) w i) i.
Proof.
  intros Ha Hb. assert (Hown : Some a ≠ own) by (intros <-; done).
  assert (Hkey : ∀ x y : string, (a, x) ≠ (bucket own, y)) by (intros x y [=]; congruence).
  destruct w as [r|ls cites|id helped|id helped|parent variant|e|row ss]; split; try done; intros; cbn -[filter].
  - do 2 f_equal. apply filter_app_other. intros [H _]. by apply Hb.
  - unfold lessons_read. cbn -[filter]. do 2 f_equal. apply filter_app_other. cbn [ls_scope_key set_lesson].
    unfold visible. rewrite bool_decide_eq_false_2 by done. cbn. intros [H%bool_decide_eq_true _]. congruence.
  - unfold lessons_read. cbn -[filter]. f_equal. by apply (score_first_other own); [..|naive_solver|].
  - by rewrite lookup_insert_ne by apply Hkey.
  - destruct (mi_variants i !! (a, variant)); [done|]. by rewrite lookup_insert_ne by apply Hkey.
  - unfold mem_kids. cbn -[filter]. rewrite !sort_by_perm.
    destruct (mi_variants i !! (a, variant)) eqn:E; [done|]. by apply variants_insert_other.
  - rewrite !list_find_filter. do 2 f_equal. by apply (upsert_other own); [naive_solver|..].
  - do 3 f_equal. by apply (upsert_other own); [naive_solver|..].
  - by rewrite lookup_insert_ne by apply Hkey.
Qed.

(** C17: tenants are isolated in the memory of the loop.  Whatever a tenant with a
    non-empty name writes (rows, lessons, scores, variant links, episodes,
    transcripts, in any number and order), every other scope goes on reading the
    same rows, workflow scores, families, episodes, transcripts and lessons;
    only the counters of lessons recorded for everyone move. *)
Theorem tenants_isolated (own : option string) (a : string) (ws : list LedgerWrite) (i : Inner) :
  a ≠ "" → bucket own ≠ a → SameReads own (foldl (λ i w, write_inner (Some a) w i) i ws) i.
Proof.
  intros Ha Hb. revert i. induction ws as [|w ws IH]; intros i; cbn; [reflexivity|].
  etrans; [apply IH|by apply write_other].
Qed.

(** A tenant promotes a lesson and scores a workflow. *)
Definition private_writes : list LedgerWrite :=
  [WPromote (mkLesson "" Constraint_ "on deploy" "" "ask first" 0 0 None) []; WScoreWorkflow "wf" true].

Lemma tenants_isolated_witness :
  let i := foldl (λ i w, write_inner (Some "a") w i) inner_default private_writes in
  length (mi_lessons i) = 1 ∧ (lessons None (mkMemoryLedger i (Some "b"))).2 = Ok [] ∧
  SameReads (Some "b") i inner_default.
Proof.
  split; [by vm_compute|]. split; [by vm_compute|].
  apply (tenants_isolated (Some "b") "a" private_writes); done.
Defined.
