(* ===== verification/Recipe.v ===== *)
(** * From a plan to a runnable graph

    [crates/tinyflows-adaptive/src]: what intake decides and how it fails
    ([intake/mod.rs]), the workflows a store keeps ([tinyflows/src/store/types]),
    the plan a model writes and the graph it is lowered to ([intake/recipe.rs],
    [intake/recipe/lowering.rs]), and what the host permits ([host.rs]).  The
    printer of [serde_json] is the argument [Fmt]. *)

From Stdlib Require Import Ascii.
From S2P Require Import Prelude Json GraphTypes Workflow Text Expr WfState EngineRun GraphOps AgentRequest AgentPrompt Diagnosis Ledger.

(** ** Records of the store ([store/types/workflow.rs]) *)

Record WorkflowDefaults := mkDefaults { df_harness : option string; df_model : option string }.
Definition defaults_default : WorkflowDefaults := mkDefaults None None.
Definition defaults_is_empty (d : WorkflowDefaults) : bool :=
  bool_decide (df_harness d = None) && bool_decide (df_model d = None).

Record WorkflowRecord := mkWfRecord {
  wr_id : string; wr_name : string; wr_description : string; wr_enabled : bool;
  wr_defaults : WorkflowDefaults; wr_graph : WorkflowGraph; wr_source_path : option string
}.
Record WorkflowSummary := mkWfSummary {
  ws_id : string; ws_name : string; ws_description : string; ws_enabled : bool; ws_node_count : nat;
  ws_trigger_kind : option string; ws_inputs : list WorkflowInput
}.

(** ** What intake answers ([intake/mod.rs]) *)

Inductive IntakeError :=
| StoreErr (message : string)
| LedgerErr (e : LedgerError)
| Inference (message : string)
| Invalid (message : string)
| Unsupported (message : string)
| Unbindable (id missing : string).

Definition ledger_error_to_string (e : LedgerError) : string :=
  match e with
  | LedgerBackend m => "ledger backend: " +:+ m
  | LedgerCorrupt m => "ledger holds a row it cannot read: " +:+ m
  end.
Definition intake_error_to_string (e : IntakeError) : string :=
  match e with
  | StoreErr m => "workflow store: " +:+ m
  | LedgerErr e => "ledger: " +:+ ledger_error_to_string e
  | Inference m => "inference: " +:+ m
  | Invalid m => "authored an invalid graph: " +:+ m
  | Unsupported m => "this host cannot run that graph: " +:+ m
  | Unbindable id missing => "workflow " +:+ id +:+ " needs an input nothing supplied: " +:+ missing
  end.

Record PlannedAttempt := mkAttempt {
  at_approach : Approach;
  at_graph : WorkflowGraph;
  at_inputs : list (string * value);
  at_resume : option LoopResumePoint;
  at_lessons_shown : list string
}.

(** ** Plans ([recipe.rs]) *)

(** [value[key]]. *)
Definition vfield (key : string) (v : value) : value := default Null (get key v).
Definition text_field (key : string) (v : value) : string := default "" (as_str (vfield key v)).
Definition given_text (key : string) (v : value) : option string :=
  non_blank_trimmed (as_str (vfield key v)).

Record Callable := mkCallable {
  ca_id : string; ca_name : string; ca_description : string; ca_inputs : list (string * bool)
}.

Definition render_inputs (inputs : list (string * bool)) : string :=
  join_with ", " ((λ i, if i.2 : bool then i.1 else i.1 +:+ " (optional)") <$> inputs).

Definition render_callable (c : Callable) : string :=
  let name := if decide (ca_name c = "") then ca_id c else ca_name c in
  let description := if decide (ca_description c = "")
                     then "(no description — do not call this; nobody can say what it does)"
                     else ca_description c in
  let inputs := if decide (ca_inputs c = []) then "takes no inputs"
                else "with: " +:+ render_inputs (ca_inputs c) in
  "- id: " +:+ ca_id c +:+ nl +:+ "  name: " +:+ name +:+ nl +:+ "  " +:+ inputs +:+ nl +:+ "  " +:+ description.
Definition render_callables (cs : list Callable) : string :=
  if decide (ca_id <$> cs = []) then ""
  else "# Saved workflows you can call with a `use` step" +:+ nl +:+ join_with nl (render_callable <$> cs).

Inductive Action :=
| ARun (script : string)
| AAsk (prompt : string) (worker : option string)
| AUse (workflow_id : string) (with_ : list (string * value)).
Record Step := mkPlanStep { st_id : string; st_action : Action; st_reads : list string }.

(** A declared input: name, description, whether it is required. *)
Definition Declared : Type := string * string * bool.

(** ** Identifiers and jq text ([lowering.rs]) *)

Definition sane_char (ch : string) : ascii :=
  match ch with
  | SCons c EmptyString => if is_ascii_alphanumeric c then to_lower c else "_"%char
  | _ => "_"%char
  end.
Definition sanitize_id (raw : string) : string :=
  trim_matches (λ c, bool_decide (c = "_"%char))
    (String.string_of_list_ascii (sane_char <$> utf8_chars (trim raw))).

Definition backslash : ascii := ascii_of_nat 92.
Definition jq_char (c : ascii) (rest : string) : string :=
  if decide (c = ascii_of_nat 34) then SCons backslash (SCons c rest)
  else if decide (c = backslash) then SCons backslash (SCons c rest)
  else if decide (c = ascii_of_nat 10) then SCons backslash (SCons "n"%char rest)
  else if decide (c = ascii_of_nat 13) then SCons backslash (SCons "r"%char rest)
  else if decide (c = ascii_of_nat 9) then SCons backslash (SCons "t"%char rest)
  else SCons c rest.
Definition dq : string := SCons (ascii_of_nat 34) "".
Fixpoint jq_escape (text : string) : string :=
  match text with EmptyString => dq | SCons c rest => jq_char c (jq_escape rest) end.
Definition jq_quote (text : string) : string := SCons (ascii_of_nat 34) (jq_escape text).

Definition jq_field (name : string) : string := "[" +:+ jq_quote name +:+ "]".

Definition child_answer (id : string) : string :=
  "([((.nodes" +:+ jq_field id +:+ ".item.nodes // {}) | to_entries[]) | . as $step " +:+
  "| ((.value.items // []) | .[-1] | .json) as $out " +:+
  "| (($out | if type == " +:+ dq +:+ "object" +:+ dq +:+ " then " +:+
  "(.text // .stdout // (.json | if type == " +:+ dq +:+ "object" +:+ dq +:+ " then .stdout else null end)) " +:+
  "else null end) // empty) as $said " +:+
  "| " +:+ dq +:+ "## " +:+ dq +:+ " + $step.key + " +:+ dq +:+ "\n" +:+ dq +:+ " + ($said | tostring)] " +:+
  "| join(" +:+ dq +:+ "\n\n" +:+ dq +:+ ") " +:+
  "| if . == " +:+ dq +:+ dq +:+ " then null else . end)".

Definition action_of (id : string) (steps : list Step) : option Action :=
  st_action <$> (snd <$> list_find (λ s, st_id s = id) steps).

Definition output_of (id : string) (action : option Action) : string :=
  match action with
  | Some (ARun _) => ".nodes" +:+ jq_field id +:+ ".item.json.stdout"
  | Some (AUse _ _) => child_answer id
  | _ => ".nodes" +:+ jq_field id +:+ ".item.text"
  end.

Definition ask_expression (prompt : string) (reads : list string) (steps : list Step) (declared : list Declared)
    : string :=
  let inputs := foldl (λ program d,
    program +:+ " + " +:+ jq_quote (nl +:+ nl +:+ "# Input `" +:+ d.1.1 +:+ "`" +:+ nl) +:+
    " + ((.run.inputs" +:+ jq_field d.1.1 +:+ " // " +:+ dq +:+ "(not provided)" +:+ dq +:+ ") | tostring)")
    ("=" +:+ jq_quote prompt) declared in
  foldl (λ program read,
    program +:+ " + " +:+ jq_quote (nl +:+ nl +:+ "# Output of step `" +:+ read +:+ "`" +:+ nl) +:+ " + ((" +:+
    output_of read (action_of read steps) +:+ " // " +:+ dq +:+ "(no output)" +:+ dq +:+ ") | tostring)")
    inputs reads.

(** ** Reading a plan *)

Definition parse_declared (answer : value) : list Declared :=
  match as_array (vfield "declared" answer) with
  | None => []
  | Some declared =>
      omap (λ input,
        let name := sanitize_id (text_field "name" input) in
        if decide (name = "") then None
        else Some (name, text_field "description" input, default false (as_bool (vfield "required" input))))
        declared
  end.

Definition filled (inputs : list (string * value)) (name : string) : bool :=
  match obj_get name inputs with
  | Some v => negb (is_null v) && negb (bool_decide (as_str v = Some ""))
  | None => false
  end.

Definition forward (v : value) (declared : list Declared) (earlier : list Step) : result string value :=
  match as_str v >>? strip_prefix "@" with
  | None => Ok v
  | Some reference =>
      match strip_prefix "input." reference with
      | Some name =>
          let name := sanitize_id name in
          if decide (name ∈ (λ d : Declared, d.1.1) <$> declared) then
            Ok (Str ("=.run.inputs" +:+ jq_field name))
          else Err ("`@input." +:+ name +:+ "` names an input you did not declare — add it to `declared`")
      | None =>
          match strip_prefix "step." reference with
          | Some step =>
              let step := sanitize_id step in
              match action_of step earlier with
              | Some action => Ok (Str ("=" +:+ output_of step (Some action)))
              | None => Err ("`@step." +:+ step +:+ "` names a step that is not an EARLIER step of this plan")
              end
          | None =>
              Err ("`" +:+ reference +:+
                   "` is not a reference this understands — write `@input.<name>`, `@step.<id>`, or a plain value")
          end
      end
  end.

Fixpoint forward_all (id workflow_id : string) (callable : Callable) (declared : list Declared)
    (earlier : list Step) (given forwarded : list (string * value)) : result string (list (string * value)) :=
  match given with
  | [] => Ok forwarded
  | (name, v) :: given =>
      if decide (name ∈ (ca_inputs callable).*1) then
        match forward v declared earlier with
        | Ok v => forward_all id workflow_id callable declared earlier given (obj_insert name v forwarded)
        | Err why => Err ("step `" +:+ id +:+ "`: " +:+ why)
        end
      else
        Err ("step `" +:+ id +:+ "`: `" +:+ workflow_id +:+ "` declares no input `" +:+ name +:+
             "` — it takes " +:+
             (if decide (ca_inputs callable = []) then "none" else join_with ", " (ca_inputs callable).*1))
  end.

Definition call (id workflow_id : string) (with_ : value) (callables : list Callable)
    (declared : list Declared) (earlier : list Step) : result string Action :=
  match snd <$> list_find (λ c, ca_id c = workflow_id) callables with
  | None =>
      Err (if decide (ca_id <$> callables = []) then
             "step `" +:+ id +:+ "` uses `" +:+ workflow_id +:+
             "`, but this host has no saved workflows to call — write the step yourself"
           else
             "step `" +:+ id +:+ "` uses `" +:+ workflow_id +:+
             "`, which is not one of the workflows you can call (" +:+ join_with ", " (ca_id <$> callables) +:+ ")")
  | Some callable =>
      match with_ with
      | Null | Object _ =>
          let given := match with_ with Object m => m | _ => [] end in
          match head (filter (λ i : string * bool, i.2 = true ∧ filled given i.1 = false) (ca_inputs callable)) with
          | Some (name, _) =>
              Err ("step `" +:+ id +:+ "`: `" +:+ workflow_id +:+ "` requires the input `" +:+ name +:+
                   "` and `with` does not supply it")
          | None =>
              match forward_all id workflow_id callable declared earlier given [] with
              | Ok forwarded => Ok (AUse workflow_id forwarded)
              | Err problem => Err problem
              end
          end
      | _ => Err ("step `" +:+ id +:+ "`: `with` must be an object mapping `" +:+ workflow_id +:+
                  "`'s input names to values")
      end
  end.

(** One entry of [steps]: the step it adds, if any, and the problems it has. *)
Definition read_reads (id : string) (raw : value) (steps : list Step) : list string * list string :=
  match as_array (vfield "reads" raw) with
  | None => ([], [])
  | Some raw_reads =>
      foldl (λ acc raw_read,
        let read := sanitize_id (default "" (as_str raw_read)) in
        if decide (read ∈ st_id <$> steps) then (acc.1 ++ [read], acc.2)
        else (acc.1, acc.2 ++ ["step `" +:+ id +:+ "` reads `" +:+ read +:+ "`, which is not an EARLIER step id"]))
        ([], []) raw_reads
  end.

Definition given_count (o1 o2 o3 : option string) : nat :=
  length (filter is_Some [o1; o2; o3]).

Definition read_action (id : string) (raw : value) (callables : list Callable) (declared : list Declared)
    (steps : list Step) : result string Action :=
  let run := given_text "run" raw in
  let ask := given_text "ask" raw in
  let called := given_text "use" raw in
  if decide (1 < given_count run ask called) then
    Err ("step `" +:+ id +:+
         "` has more than one of `run`, `ask` and `use` — a step does exactly one thing, so split it")
  else
    match run, ask, called with
    | Some script, _, _ => Ok (ARun script)
    | _, Some prompt, _ => Ok (AAsk prompt (given_text "worker" raw))
    | _, _, Some workflow_id => call id workflow_id (vfield "with" raw) callables declared steps
    | None, None, None =>
        Err ("step `" +:+ id +:+ "` has none of a `run` script, an `ask` instruction or a `use` workflow id")
    end.

Definition misplaced_reads (id : string) (action : Action) (reads : list string) : list string :=
  match action with
  | ARun _ =>
      if decide (reads = []) then []
      else ["step `" +:+ id +:+ "`: `reads` only works on ask steps — a run script sees nothing"]
  | AUse _ _ =>
      if decide (reads = []) then []
      else ["step `" +:+ id +:+ "`: `reads` only works on ask steps — a called workflow takes what you pass it, " +:+
            "so put `" +:+ dq +:+ "@step.<id>" +:+ dq +:+ "` in `with` instead"]
  | AAsk _ _ => []
  end.

Definition read_step (callables : list Callable) (declared : list Declared)
    (acc : list string * list Step) (entry : nat * value) : list string * list Step :=
  let '(problems, steps) := acc in
  let '(index, raw) := entry in
  let id := sanitize_id (text_field "id" raw) in
  if decide (id = "") then (problems ++ ["step " +:+ pretty index +:+ " has no usable `id`"], steps)
  else if decide (id = "start" ∨ id ∈ st_id <$> steps) then
    (problems ++ ["step id `" +:+ id +:+ "` is taken — ids must be unique"], steps)
  else
    match read_action id raw callables declared steps with
    | Err problem => (problems ++ [problem], steps)
    | Ok action =>
        let '(reads, unknown) := read_reads id raw steps in
        (problems ++ unknown ++ misplaced_reads id action reads, steps ++ [mkPlanStep id action reads])
    end.

Definition parse_steps (answer : value) (callables : list Callable) (declared : list Declared)
    : result IntakeError (list Step) :=
  match as_array (vfield "steps" answer) with
  | Some (x :: l) =>
      let '(problems, steps) := foldl (read_step callables declared) ([], []) (imap pair (x :: l)) in
      if decide (problems = []) then Ok steps else Err (Invalid (join_with "; " problems))
  | _ => Err (Invalid ("the reply has no `steps` — return at least one step with an `id` and a `run` script, " +:+
                       "an `ask` instruction or a `use` workflow id"))
  end.

(** Asks that restate a declared value. *)
Definition pasted_values (steps : list Step) (declared : list Declared) (inputs : list (string * value))
    : list string :=
  concat ((λ s, match st_action s with
    | AAsk prompt _ =>
        omap (λ d : Declared,
          match trim <$> (obj_get d.1.1 inputs >>? as_str) with
          | Some v =>
              if distinctive v && str_contains v prompt then
                Some ("step `" +:+ st_id s +:+ "` pastes the value of input `" +:+ d.1.1 +:+
                      "` into its ask — remove it; declared values are attached automatically, and a pasted value " +:+
                      "makes the plan single-use")
              else None
          | None => None
          end) declared
    | _ => []
    end) <$> steps).

(** ** Lowering ([recipe::lower]) *)

Definition graph_name (why : string) (steps : list Step) : string :=
  let words := join_with " " (take 6 (split_whitespace why)) in
  if decide (words = "") then join_with " → " (st_id <$> steps) else words.

Definition start_node : Node :=
  mkWfNode "start" Trigger 1 "start" (json_object [("trigger_kind", Str "manual")]) [].

Definition ask_config (expression : string) (worker : option string) : value :=
  Object (match worker with
          | Some w => obj_insert "agent_ref" (Str w) [("prompt", Str expression)]
          | None => [("prompt", Str expression)]
          end).

Definition step_node (steps : list Step) (declared : list Declared) (s : Step) : Node :=
  match st_action s with
  | ARun script => mkWfNode (st_id s) Shell 1 (st_id s) (json_object [("source", Str script)]) []
  | AAsk prompt worker =>
      mkWfNode (st_id s) Agent 1 (st_id s)
        (ask_config (ask_expression prompt (st_reads s) steps declared) worker) []
  | AUse workflow_id with_ =>
      mkWfNode (st_id s) SubWorkflow 1 (st_id s)
        (json_object [("workflow_id", Str workflow_id); ("inputs", Object with_)]) []
  end.

(** Each step follows the one before it. *)
Fixpoint chain_edges (previous : string) (steps : list Step) : list Edge :=
  match steps with
  | [] => []
  | s :: steps => mkEdge previous "main" (st_id s) "main" :: chain_edges (st_id s) steps
  end.

Definition declared_input (d : Declared) : WorkflowInput :=
  mkWfInput d.1.1 ITString (Some d.1.2) d.2 None.

Definition lower_plan (answer : value) (callables : list Callable)
    : result IntakeError (WorkflowGraph * list (string * value) * string) :=
  let why := text_field "why" answer in
  let declared := parse_declared answer in
  match parse_steps answer callables declared with
  | Err e => Err e
  | Ok steps =>
      let inputs := default [] (as_object (vfield "inputs" answer)) in
      let pasted := pasted_values steps declared inputs in
      if decide (pasted = []) then
        Ok (mkWorkflow 1 None (graph_name why steps) (declared_input <$> declared) []
              (start_node :: (step_node steps declared <$> steps)) (chain_edges "start" steps), inputs, why)
      else Err (Invalid (join_with "; " pasted))
  end.

Definition errand (goal : string) : result IntakeError WorkflowGraph :=
  let recipe := json_object [
    ("why", Str "one turn of work, no procedure in it");
    ("declared", Array []);
    ("inputs", Object []);
    ("steps", Array [json_object [("id", Str "errand"); ("ask", Str (trim goal))]])] in
  match lower_plan recipe [] with Ok (g, _, _) => Ok g | Err e => Err e end.

(** ** What a host permits ([host.rs]) *)

Record ToolFact := mkToolFact { tf_slug : string; tf_args : string }.
Record HostFacts := mkHostFacts {
  hf_default_worker : option string;
  hf_workers : list string;
  hf_harnesses : list string;
  hf_default_harness : option string;
  hf_default_model : option string;
  hf_native_tools : list string;
  hf_tool_allowlist : list string;
  hf_tools : list ToolFact;
  hf_http_allowlist : list string;
  hf_allow_code : option bool;
  hf_shell_available : option bool;
  hf_trigger_kinds : list string;
  hf_max_loop_iterations : option Z;
  hf_max_parallel_agents : option N;
  hf_run_timeout_secs : option N;
  hf_notes : list string
}.
Definition facts_unknown : HostFacts :=
  mkHostFacts None [] [] None None [] [] [] [] None None [] None None None [].

Definition is_none {A} (o : option A) : bool := match o with None => true | Some _ => false end.
Definition is_empty {A} (l : list A) : bool := match l with [] => true | _ => false end.
Definition is_unknown (h : HostFacts) : bool :=
  is_none (hf_default_worker h) && is_empty (hf_workers h) && is_empty (hf_harnesses h) &&
  is_none (hf_default_harness h) && is_none (hf_default_model h) && is_none (hf_max_parallel_agents h) &&
  is_none (hf_run_timeout_secs h) && is_empty (hf_native_tools h) && is_empty (hf_tool_allowlist h) &&
  is_empty (hf_tools h) && is_empty (hf_http_allowlist h) && is_none (hf_allow_code h) &&
  is_none (hf_shell_available h) && is_empty (hf_trigger_kinds h) && is_none (hf_max_loop_iterations h) &&
  is_empty (hf_notes h).

Definition config_text (config : value) (key : string) : option string :=
  non_blank_trimmed (get key config >>? as_str).
Definition render_list (items : list string) : string := join_with ", " items.

(** The text after the first [sep], if there is one. *)
Fixpoint after_first (sep s : string) : option string :=
  match strip_prefix sep s with
  | Some rest => Some rest
  | None => match s with SCons _ rest => after_first sep rest | EmptyString => None end
  end.
Fixpoint after_last (c : ascii) (s : string) : option string :=
  match s with
  | EmptyString => None
  | SCons d rest => match after_last c rest with
                    | Some r => Some r
                    | None => if decide (d = c) then Some rest else None
                    end
  end.
Definition until (stops : list ascii) (s : string) : string := (take_while (λ c, bool_decide (c ∉ stops)) s).1.

Definition host_of (url : string) : option string :=
  let rest := default url (after_first "://" url) in
  let authority := until ["/"; "?"; "#"]%char rest in
  let host := default authority (after_last "@" authority) in
  let host := until [":"]%char host in
  if decide (host = "") then None else Some host.

(** [str::ends_with]. *)
Fixpoint has_suffix (suffix s : string) : bool :=
  bool_decide (s = suffix) || match s with EmptyString => false | SCons _ rest => has_suffix suffix rest end.

Section HostChecks.
Context (h : HostFacts).

Definition check_agent (n : Node) : list string :=
  match config_text (nd_config n) "agent_ref" with
  | None =>
      if is_none (hf_default_worker h) && negb (is_empty (hf_workers h)) then
        ["node `" +:+ nd_id n +:+
         "`: this host has no default worker, so every agent node must name `config.agent_ref` (one of: " +:+
         render_list (hf_workers h) +:+ ")"]
      else []
  | Some reference =>
      if negb (is_empty (hf_workers h)) && bool_decide (reference ∉ hf_workers h) then
        ["node `" +:+ nd_id n +:+ "`: no worker named `" +:+ reference +:+ "` on this host (have: " +:+
         render_list (hf_workers h) +:+ ")"]
      else []
  end ++
  match config_text (nd_config n) "harness" with
  | Some harness =>
      if negb (is_empty (hf_harnesses h)) && bool_decide (harness ∉ hf_harnesses h) then
        ["node `" +:+ nd_id n +:+ "`: no harness named `" +:+ harness +:+ "` here (have: " +:+
         render_list (hf_harnesses h) +:+ ")"]
      else []
  | None => []
  end.

Definition check_tool (n : Node) : list string :=
  match config_text (nd_config n) "slug" with
  | None => []
  | Some slug =>
      if is_empty (hf_native_tools h) && is_empty (hf_tool_allowlist h) then []
      else if decide (slug ∈ hf_native_tools h ++ hf_tool_allowlist h) then []
      else ["node `" +:+ nd_id n +:+ "`: the tool slug `" +:+ slug +:+ "` does not resolve here (native: " +:+
            render_list (hf_native_tools h) +:+ "; allowed: " +:+ render_list (hf_tool_allowlist h) +:+ ")"]
  end.

Definition host_allowed (host allowed : string) : bool :=
  bool_decide (host = allowed) || has_suffix ("." +:+ allowed) host.
Definition check_http (n : Node) : list string :=
  if is_empty (hf_http_allowlist h) then []
  else
    match config_text (nd_config n) "url" with
    | None => []
    | Some url =>
        if is_expression url then []
        else
          match host_of url with
          | None => []
          | Some host =>
              let host := lower_ascii host in
              if existsb (λ allowed, host_allowed host (lower_ascii allowed)) (hf_http_allowlist h) then []
              else ["node `" +:+ nd_id n +:+ "`: this host may not reach `" +:+ host +:+ "` (allowed: " +:+
                    render_list (hf_http_allowlist h) +:+ ")"]
          end
    end.

Definition check_code (n : Node) : list string :=
  if decide (hf_allow_code h = Some false) then
    ["node `" +:+ nd_id n +:+ "`: `code` nodes are disabled on this host"]
  else [].
Definition check_shell (n : Node) : list string :=
  if decide (hf_shell_available h = Some false) then
    ["node `" +:+ nd_id n +:+ "`: this host refuses POSIX shell rather than emulating it — " +:+
     "use a `code` node with javascript or python"]
  else [].
Definition check_loop (n : Node) : list string :=
  match hf_max_loop_iterations h, get "max_iterations" (nd_config n) >>? as_u64 with
  | Some ceiling, Some asked =>
      if decide (ceiling < asked)%Z then
        ["node `" +:+ nd_id n +:+ "`: max_iterations " +:+ pretty asked +:+ " is above this host's ceiling of " +:+
         pretty ceiling +:+ ", so the loop stops earlier than the graph says"]
      else []
  | _, _ => []
  end.
Definition check_trigger (n : Node) : list string :=
  if is_empty (hf_trigger_kinds h) then []
  else
    let kind := default "manual" (config_text (nd_config n) "trigger_kind") in
    if decide (kind ∈ hf_trigger_kinds h) then []
    else ["node `" +:+ nd_id n +:+ "`: a `" +:+ kind +:+
          "` trigger is stored but never dispatched here — this host fires: " +:+
          render_list (hf_trigger_kinds h)].

Definition check_node (n : Node) : list string :=
  match nd_kind n with
  | Agent => check_agent n
  | ToolCall => check_tool n
  | HttpRequest => check_http n
  | Code => check_code n
  | Shell => check_shell n
  | Loop => check_loop n
  | Trigger => check_trigger n
  | _ => []
  end.
Definition host_check (g : WorkflowGraph) : list string := concat (check_node <$> wg_nodes g).

Definition say (label text : string) : list string :=
  if decide (text = "") then [] else ["- " +:+ label +:+ ": " +:+ text].
Definition facts_render : string :=
  if is_unknown h then ""
  else
    join_with nl (
      ["# What this host permits — enforced at run time"] ++
      say "default worker" (default "none — every agent node must name config.agent_ref" (hf_default_worker h)) ++
      say "workers" (render_list (hf_workers h)) ++
      say "harnesses" (render_list (hf_harnesses h)) ++
      say "default harness" (default "" (hf_default_harness h)) ++
      say "default model" (default "" (hf_default_model h)) ++
      say "tool slugs that resolve" (render_list (hf_native_tools h)) ++
      say "tool slugs also allowed" (render_list (hf_tool_allowlist h)) ++
      concat ((λ t, say ("tool `" +:+ tf_slug t +:+ "` args") (tf_args t)) <$> hf_tools h) ++
      say "http hosts reachable" (render_list (hf_http_allowlist h)) ++
      match hf_allow_code h with
      | Some allowed => say "code nodes" (if allowed then "permitted" else "DISABLED")
      | None => []
      end ++
      (if decide (hf_shell_available h = Some false) then
         say "posix shell" "refused, not emulated — use javascript or python" else []) ++
      say "triggers that fire" (render_list (hf_trigger_kinds h)) ++
      match hf_max_loop_iterations h with
      | Some cap => say "loop ceiling" (pretty cap +:+ " iterations, whatever a graph asks for")
      | None => []
      end ++
      match hf_max_parallel_agents h with Some cap => say "agents at once" (pretty cap) | None => [] end ++
      match hf_run_timeout_secs h with Some secs => say "run timeout" (pretty secs +:+ "s") | None => [] end ++
      ((λ note, "- " +:+ note) <$> hf_notes h)).
End HostChecks.

(** ** Identity of a graph ([reuse.rs]) *)

(** The bytes of the printed nodes, edges and inputs; [encode] is the encoder of
    the graph's parts. *)
Definition bytes_of (s : string) : list Z := Z.of_nat ∘ nat_of_ascii <$> String.list_ascii_of_string s.
Section Identity.
Context (encode : list Node → list Edge → list WorkflowInput → string).
Definition shape_bytes (g : WorkflowGraph) : list Z := bytes_of (encode (wg_nodes g) (wg_edges g) (wg_inputs g)).
Definition shape_id (g : WorkflowGraph) : string := "learned-" +:+ digest_hex (shape_bytes g).
Definition fingerprint (g : WorkflowGraph) : string := digest_hex (shape_bytes g).
End Identity.

(** Config strings that mention a binding path without being an expression
    ([author.rs]). *)
Definition BINDING_PATHS : list string := ["run.inputs."; "run.trigger."; "=run."; "=nodes."; ".nodes."].
Definition prose_message (node field_ : string) : string :=
  "node `" +:+ node +:+ "` config `" +:+ field_ +:+
  "` embeds a binding path in literal text, which the engine passes through as those exact characters. " +:+
  "Make the whole string one expression instead: =" +:+ dq +:+ "… \(.run.inputs.name) …" +:+ dq.
Fixpoint scan_prose (node field_ : string) (v : value) : list string :=
  match v with
  | Str s =>
      if negb (is_expression s) && existsb (λ p, str_contains p s) BINDING_PATHS then [prose_message node field_]
      else []
  | Object m => concat (map (λ kv, scan_prose node kv.1 kv.2) m)
  | Array l => concat (map (scan_prose node field_) l)
  | _ => []
  end.
Definition prose_bindings (g : WorkflowGraph) : list string :=
  concat ((λ n, scan_prose (nd_id n) "config" (nd_config n)) <$> wg_nodes g).

(** ** Quoting *)

Lemma str_app_nil_r (s : string) : s +:+ "" = s.
Proof. induction s as [|c s IH]; [done|]. change (SCons c (s +:+ "") = SCons c s). by rewrite IH. Qed.

Lemma literals_from_quoted s acc rest :
  literals_from (Some acc) (jq_escape s +:+ rest) =
  String.string_of_list_ascii (rev acc ++ String.list_ascii_of_string s) :: literals_from None rest.
Proof.
  revert acc. induction s as [|c s IH]; intros acc; cbn [jq_escape].
  { cbn. by rewrite app_nil_r. }
  assert (Hmid : rev acc ++ String.list_ascii_of_string (SCons c s)
                 = rev (c :: acc) ++ String.list_ascii_of_string s).
  { cbn [rev String.list_ascii_of_string]. by rewrite <- app_assoc. }
  rewrite Hmid, <- IH. unfold jq_char.
  repeat case_decide; subst; [reflexivity..|].
  change (SCons c (jq_escape s) +:+ rest) with (SCons c (jq_escape s +:+ rest)).
  cbn [literals_from]. rewrite !decide_False by done. reflexivity.
Qed.

Lemma quoted_first text rest : quoted_literals (jq_quote text +:+ rest) = text :: literals_from None rest.
Proof.
  unfold quoted_literals, jq_quote.
  change (SCons (ascii_of_nat 34) (jq_escape text) +:+ rest) with (SCons (ascii_of_nat 34) (jq_escape text +:+ rest)).
  cbn [literals_from]. rewrite decide_True by done.
  rewrite literals_from_quoted. cbn. by rewrite String.string_of_list_ascii_of_string.
Qed.

(** Quoting a text for jq loses nothing: the literals read back out of the
    quoted text are exactly that text, whatever quotes, backslashes, line ends
    or other characters it holds. *)
Theorem jq_quote_roundtrip (text : string) : quoted_literals (jq_quote text) = [text].
Proof. rewrite <- (str_app_nil_r (jq_quote text)). by rewrite quoted_first. Qed.

Lemma foldl_append {A} (g : A → string) l s : ∃ rest, foldl (λ p x, p +:+ g x) s l = s +:+ rest.
Proof.
  revert s. induction l as [|x l IH]; intros s; cbn [foldl]; [exists ""; by rewrite str_app_nil_r|].
  destruct (IH (s +:+ g x)) as [rest ->]. exists (g x +:+ rest). by rewrite str_app_assoc.
Qed.

Lemma ask_expression_starts prompt reads steps declared :
  ∃ rest, ask_expression prompt reads steps declared = "=" +:+ (jq_quote prompt +:+ rest).
Proof.
  unfold ask_expression. cbv zeta.
  edestruct (foldl_append (A := string)) as [r1 ->]. edestruct (foldl_append (A := Declared)) as [r2 ->].
  exists (r2 +:+ r1). by rewrite !str_app_assoc.
Qed.

(** A value inside the instruction of an ask is found in the expression it is
    lowered to. *)
Lemma ask_paste_found prompt reads steps declared v :
  str_contains v prompt = true → pasted (ask_expression prompt reads steps declared) v = true.
Proof.
  intros Hv. destruct (ask_expression_starts prompt reads steps declared) as [rest ->].
  unfold pasted. change (String.prefix "=" ("=" +:+ (jq_quote prompt +:+ rest))) with true. cbv iota.
  assert (quoted_literals ("=" +:+ (jq_quote prompt +:+ rest)) = quoted_literals (jq_quote prompt +:+ rest)) as ->
    by reflexivity.
  rewrite quoted_first. cbn [existsb]. by rewrite Hv.
Qed.

(** ** Lowered plans *)
























