(* ===== verification/Episode.v ===== *)
(** * One episode of the adaptive loop

    [crates/tinyflows-adaptive/src]: choosing or writing a graph for a goal
    ([intake/mod.rs], [intake/select.rs], [intake/author.rs]), judging,
    recording, keeping, repairing and learning from what it did
    ([closing/mod.rs], [judge.rs], [keep.rs], [consolidate.rs], [repair.rs]) and
    the loop that drives an episode to its end ([driver.rs]).

    The ledger is any instance of [Ledger]; the language model, the workflow
    store with its policy, the runner and the clock are the class [EpisodeHost]
    over their common state.  Every step is a function from the state of both to
    their next state and a result.  The system prompts, the encoders and decoders
    of [serde_json] and the printers are arguments. *)

From Stdlib Require Import SpecFloat Ascii.
From S2P Require Import Prelude Json GraphTypes Workflow Text Expr WfValidate WfConfig WfState EngineRun GraphOps AgentRequest AgentPrompt Diagnosis Ledger Recipe.

(** ** The world of an episode *)

Class EpisodeHost (H : Type) := {
  complete : value → option string → H → H * result string value;
  store_list : H → H * result string (list WorkflowSummary);
  store_get : string → H → H * result string (option WorkflowRecord);
  store_save : WorkflowRecord → H → H * result string unit;
  check_graph : string → WorkflowGraph → H → H * result string unit;
  run_planned : PlannedAttempt → H → H * Ran;
  clock_now : H → H * string
}.

(** What the code takes from [serde_json] and its constant texts. *)
Record Texts := mkTexts {
  tx_system : Tier → string;
  tx_parse_json : string → option value;
  tx_pretty_json : value → string;
  tx_pretty_graph : WorkflowGraph → result string string;
  tx_encode_shape : list Node → list Edge → list WorkflowInput → string;
  tx_encode_ops : list GraphOp → string;
  tx_decode_ops : value → result string (list GraphOp)
}.

Section Episodes.
Context {L : Type} {LD : Ledger L} {HS : Type} {EH : EpisodeHost HS}.
Context (f : Fmt) (sd : Serde) (tx : Texts) (conn : option string) (facts : HostFacts) (budget : Budget).

Definition Ep (A : Type) : Type := L * HS → (L * HS) * result IntakeError A.
Definition eret {A} (a : A) : Ep A := λ w, (w, Ok a).
Definition efail {A} (e : IntakeError) : Ep A := λ w, (w, Err e).
Definition ebind {A B} (m : Ep A) (k : A → Ep B) : Ep B := λ w,
  match m w with (w', Ok a) => k a w' | (w', Err e) => (w', Err e) end.
(** The outcome of a step whose failure the code looks at itself. *)
Definition etry {A} (m : Ep A) : Ep (result IntakeError A) := λ w, let '(w', r) := m w in (w', Ok r).

Definition on_ledger {A} (m : Led L A) : Ep A := λ w,
  let '(l, r) := m w.1 in ((l, w.2), match r with Ok a => Ok a | Err e => Err (LedgerErr e) end).
Definition on_host {A} (err : string → IntakeError) (m : HS → HS * result string A) : Ep A := λ w,
  let '(h, r) := m w.2 in ((w.1, h), match r with Ok a => Ok a | Err e => Err (err e) end).
Definition asked_host {A} (m : HS → HS * A) : Ep A := λ w, let '(h, a) := m w.2 in ((w.1, h), Ok a).

#[local] Instance ep_bind : MBind Ep := λ A B k m, ebind m k.

(** ** Asking the model ([intake/mod.rs]) *)

(** [value[i]] on a list. *)
Definition vindex (i : nat) (v : value) : value :=
  match v with Array l => default Null (l !! i) | _ => Null end.

Fixpoint find_char (c : ascii) (s : string) : option nat :=
  match s with
  | EmptyString => None
  | SCons d rest => if decide (d = c) then Some 0 else S <$> find_char c rest
  end.
Fixpoint rfind_char (c : ascii) (s : string) : option nat :=
  match s with
  | EmptyString => None
  | SCons d rest =>
      match rfind_char c rest with
      | Some n => Some (S n)
      | None => if decide (d = c) then Some 0 else None
      end
  end.

Definition from_text (text : string) : option value :=
  match tx_parse_json tx (trim text) with
  | Some v => Some v
  | None =>
      find_char "{" text >>? λ start,
      rfind_char "}" text >>? λ end_,
      if decide (start ≤ S end_) then tx_parse_json tx (String.substring start (S end_ - start) text) else None
  end.

Definition extract (answer : value) : option value :=
  if is_object answer && negb (is_array (vfield "choices" answer)) && is_none (get "text" answer) then Some answer
  else
    let content := as_str (vfield "content" (vfield "message" (vindex 0 (vfield "choices" answer)))) in
    or_else content (or_else (as_str (vfield "text" answer)) (as_str (vfield "content" answer))) >>? from_text.

Definition peek (v : value) : string :=
  let text := fmt_json f v in
  String.substring 0 (floor_boundary text (Nat.min (String.length text) 200)) text.

Definition ask (tier : Tier) (user : string) : Ep value :=
  let request := json_object [
    ("tier", Str (tier_as_str tier));
    ("messages", Array [json_object [("role", Str "system"); ("content", Str (tx_system tx tier))];
                        json_object [("role", Str "user"); ("content", Str user)]]);
    ("response_format", json_object [("type", Str "json_object")])] in
  answer ← on_host Inference (complete request conn);
  match extract answer with
  | Some v => eret v
  | None => efail (Inference ("no JSON object in the reply: " +:+ peek answer))
  end.

(** ** Choosing a stored workflow ([select.rs]) *)

Record Candidate := mkCandidate {
  cd_id : string; cd_name : string; cd_description : string; cd_node_count : nat;
  cd_applied : N; cd_helped : N; cd_inputs : list (string * bool)
}.

Definition render_candidate (c : Candidate) : string :=
  let name := if decide (cd_name c = "") then cd_id c else cd_name c in
  let description := if decide (cd_description c = "")
                     then "(no description — nobody can choose this on purpose)" else cd_description c in
  let record := if decide (cd_applied c = 0%N) then "never run"
                else "run " +:+ pretty (cd_applied c) +:+ "×, satisfied " +:+ pretty (cd_helped c) +:+ "×" in
  let inputs := if decide (cd_inputs c = []) then "" else nl +:+ "  inputs: " +:+ render_inputs (cd_inputs c) in
  "- id: " +:+ cd_id c +:+ nl +:+ "  name: " +:+ name +:+ nl +:+ "  steps: " +:+ pretty (cd_node_count c) +:+ ", " +:+
  record +:+ inputs +:+ nl +:+ "  " +:+ description.

Definition inputs_of (answer : value) : list (string * value) := default [] (as_object (vfield "inputs" answer)).

Definition select_prompt (goal : Goal_) (candidates : list Candidate) (past : string) (errand_allowed : bool)
    : string :=
  let shelf := if is_empty candidates
    then "# Saved workflows" +:+ nl +:+
         "(none yet — nothing to choose from, so the only question is whether this is an errand)"
    else "# Saved workflows" +:+ nl +:+ join_with nl (render_candidate <$> candidates) in
  let spent := if errand_allowed then ""
    else nl +:+ nl +:+ "# This episode has already spent its errand" +:+ nl +:+
         "One turn was tried and did not finish the goal, so it is not an errand. " +:+
         "Choose a workflow or decline; `errand` will be ignored." in
  "# Goal" +:+ nl +:+ trim (gl_text goal) +:+ nl +:+ nl +:+ shelf +:+ past +:+ spent.

(** What the answer of the model chooses. *)
Definition chosen (candidates : list Candidate) (errand_allowed : bool) (answer : value) : option PlannedAttempt :=
  let why := text_field "why" answer in
  match as_str (vfield "workflow_id" answer) with
  | Some id =>
      if decide (trim id = "") then
        if errand_allowed && default false (as_bool (vfield "errand" answer)) then
          Some (mkAttempt (Errand why) workflow_default [] None [])
        else None
      else if decide (id ∈ cd_id <$> candidates) then
        Some (mkAttempt (Selected id why) workflow_default (inputs_of answer) None [])
      else None
  | None =>
      if errand_allowed && default false (as_bool (vfield "errand" answer)) then
        Some (mkAttempt (Errand why) workflow_default [] None [])
      else None
  end.

Definition select (goal : Goal_) (candidates : list Candidate) (past : string) (errand_allowed : bool)
    : Ep (option PlannedAttempt) :=
  if is_empty candidates && negb errand_allowed then eret None
  else
    answer ← ask TSelect (select_prompt goal candidates past errand_allowed);
    eret (chosen candidates errand_allowed answer).

(** The first required input without a value. *)
Definition first_unfilled (declared : list WorkflowInput) (inputs : list (string * value)) : option string :=
  head (in_name <$> filter (λ i, in_required i = true ∧ filled inputs (in_name i) = false) declared).
Definition retain_declared (declared : list WorkflowInput) (inputs : list (string * value))
    : list (string * value) :=
  filter (λ kv, kv.1 ∈ in_name <$> declared) inputs.

Definition bind (attempt : PlannedAttempt) : Ep PlannedAttempt :=
  match at_approach attempt with
  | Selected workflow_id _ =>
      found ← on_host StoreErr (store_get workflow_id);
      match found with
      | None => efail (StoreErr ("workflow " +:+ workflow_id +:+ " vanished"))
      | Some record =>
          match first_unfilled (wg_inputs (wr_graph record)) (at_inputs attempt) with
          | Some missing => efail (Unbindable workflow_id missing)
          | None =>
              eret (mkAttempt (at_approach attempt) (wr_graph record)
                      (retain_declared (wg_inputs (wr_graph record)) (at_inputs attempt))
                      (at_resume attempt) (at_lessons_shown attempt))
          end
      end
  | _ => eret attempt
  end.

(** ** Writing one ([author.rs]) *)

Definition ROUNDS : nat := 3.

Definition problems_text (ps : list ValidationError) : string := join_with "; " (validation_to_string f <$> ps).

Definition gated (answer : value) (callables : list Callable) : Ep PlannedAttempt :=
  match lower_plan answer callables with
  | Err e => efail e
  | Ok (g, inputs, why) =>
      match validate_graph f sd g with
      | (_ :: _) as problems => efail (Invalid (problems_text problems))
      | [] =>
          match prose_bindings g with
          | (_ :: _) as prose => efail (Invalid (join_with "; " prose))
          | [] =>
              match host_check facts g with
              | (_ :: _) as refused => efail (Unsupported (join_with "; " refused))
              | [] =>
                  _ ← on_host Unsupported (check_graph (default "authored" (wg_id g)) g);
                  match first_unfilled (wg_inputs g) inputs with
                  | Some name =>
                      efail (Invalid ("the graph declares required input `" +:+ name +:+
                        "` but the reply's `inputs`                  supplies no value for it — supply one, or make it " +:+
                        "optional, or                  drop the declaration"))
                  | None =>
                      eret (mkAttempt (Authored why (fingerprint (tx_encode_shape tx) g)) g
                              (retain_declared (wg_inputs g) inputs) None [])
                  end
              end
          end
      end
  end.

Fixpoint author_rounds (rounds : nat) (callables : list Callable) (prompt : string) (last : IntakeError)
    : Ep PlannedAttempt :=
  match rounds with
  | 0 => efail last
  | S rounds =>
      answer ← etry (ask TAuthor prompt);
      match answer with
      | Err e => author_rounds rounds callables prompt e
      | Ok answer =>
          attempt ← etry (gated answer callables);
          match attempt with
          | Ok attempt => eret attempt
          | Err e =>
              author_rounds rounds callables
                (prompt +:+ nl +:+ nl +:+ "# Your previous graph was refused — fix exactly this" +:+ nl +:+
                 intake_error_to_string e +:+ nl +:+ nl +:+ "Return the corrected, complete JSON reply.") e
          end
      end
  end.

Definition author (goal : Goal_) (callables : list Callable) (past : string) : Ep PlannedAttempt :=
  let section s := if decide (s = "") then "" else nl +:+ nl +:+ s in
  author_rounds ROUNDS callables
    ("# Goal" +:+ nl +:+ trim (gl_text goal) +:+ section (facts_render facts) +:+
     section (render_callables callables) +:+ past)
    (Inference "the author was never asked").

(** ** Deciding how to attempt a goal ([intake/mod.rs]) *)

Definition declared_inputs (s : WorkflowSummary) : list (string * bool) :=
  (λ i, (in_name i, in_required i)) <$> ws_inputs s.
Definition callables_of (listed : list WorkflowSummary) : list Callable :=
  (λ s, mkCallable (ws_id s) (ws_name s) (ws_description s) (declared_inputs s)) <$>
    filter (λ s, ws_enabled s = true) listed.

Fixpoint offered (listed : list WorkflowSummary) (tried_ : list string) : Ep (list Candidate) :=
  match listed with
  | [] => eret []
  | s :: listed =>
      if ws_enabled s && bool_decide ("selected:" +:+ ws_id s ∉ tried_) then
        score ← on_ledger (workflow_score (ws_id s));
        rest ← offered listed tried_;
        eret (mkCandidate (ws_id s) (ws_name s) (ws_description s) (ws_node_count s) (sc_applied score)
                (sc_helped score) (declared_inputs s) :: rest)
      else offered listed tried_
  end.

Fixpoint family_scores (ids : list string) : Ep (list (string * Score)) :=
  match ids with
  | [] => eret []
  | id :: ids =>
      score ← on_ledger (workflow_score id);
      rest ← family_scores ids;
      eret ((id, score) :: rest)
  end.

Definition find_candidate (candidates : list Candidate) (id : string) : option Candidate :=
  snd <$> list_find (λ c, cd_id c = id) candidates.

(** The best member of the family that is on offer. *)
Definition family_offer (candidates : list Candidate) (candidate : Candidate) (lineage_ : list string)
    (family : list (string * Score)) : Candidate :=
  let best := default (cd_id candidate) (champion family) in
  default candidate
    (or_else (find_candidate candidates best) (head (omap (find_candidate candidates) lineage_))).

Fixpoint collapse (all pending kept : list Candidate) (settled : list string) : Ep (list Candidate) :=
  match pending with
  | [] => eret kept
  | candidate :: pending =>
      if decide (cd_id candidate ∈ settled) then collapse all pending kept settled
      else
        lineage_ ← on_ledger (lineage (cd_id candidate));
        if decide (length lineage_ ≤ 1) then
          collapse all pending (kept ++ [candidate]) (settled ++ [cd_id candidate])
        else
          family ← family_scores lineage_;
          let offer := family_offer all candidate lineage_ family in
          collapse all pending (if decide (cd_id offer ∈ settled) then kept else kept ++ [offer])
            (settled ++ lineage_)
  end.
Definition collapse_families (candidates : list Candidate) : Ep (list Candidate) :=
  collapse candidates candidates [] [].

Definition catalogue (listed : list WorkflowSummary) (tried_ : list string) : Ep (list Candidate) :=
  out ← offered listed tried_;
  collapse_families out.

Definition with_lessons (shown : list string) (a : PlannedAttempt) : PlannedAttempt :=
  mkAttempt (at_approach a) (at_graph a) (at_inputs a) (at_resume a) shown.
Definition with_graph (g : WorkflowGraph) (a : PlannedAttempt) : PlannedAttempt :=
  mkAttempt (at_approach a) g (at_inputs a) (at_resume a) (at_lessons_shown a).

Definition errand_attempt (goal : Goal_) (choice : PlannedAttempt) (shown : list string) : Ep PlannedAttempt :=
  match errand (gl_text goal) with
  | Err e => efail e
  | Ok g =>
      match validate_graph f sd g with
      | (_ :: _) as problems => efail (Invalid (problems_text problems))
      | [] =>
          match host_check facts g with
          | (_ :: _) as refused => efail (Unsupported (join_with "; " refused))
          | [] => eret (with_lessons shown (with_graph g choice))
          end
      end
  end.

Definition noted (past : string) (refusal : IntakeError) : string :=
  past +:+ nl +:+ nl +:+ "# A selection just failed to bind" +:+ nl +:+ intake_error_to_string refusal +:+ nl +:+
  "Supply a value for every required input this time, or decline so a graph is written instead.".

Definition is_unbindable (e : IntakeError) : bool := match e with Unbindable _ _ => true | _ => false end.

(** A second selection after one that did not bind, then the author. *)
Definition retry_selection (goal : Goal_) (candidates : list Candidate) (callables : list Callable)
    (past : string) (shown : list string) (refusal : IntakeError) : Ep PlannedAttempt :=
  let noted_ := noted past refusal in
  let written := a ← author goal callables noted_; eret (with_lessons shown a) in
  retry ← select goal candidates noted_ false;
  match retry with
  | None => written
  | Some retry =>
      bound ← etry (bind retry);
      match bound with
      | Ok attempt => eret (with_lessons shown attempt)
      | Err e => if is_unbindable e then written else efail e
      end
  end.

Definition decide_attempt (goal : Goal_) (ep : string) : Ep PlannedAttempt :=
  rs ← on_ledger (rows ep);
  let tried_ := signatures rs in
  listed ← on_host StoreErr store_list;
  candidates ← catalogue listed tried_;
  let callables := callables_of listed in
  ls ← on_ledger (lessons None);
  let recalled := retrieve ls None RECALL_LIMIT in
  let past := render_history rs +:+ render_lessons recalled in
  let shown := ls_id <$> recalled in
  let errand_allowed := bool_decide ("errand" ∉ tried_) in
  choice ← select goal candidates past errand_allowed;
  match choice with
  | None => a ← author goal callables past; eret (with_lessons shown a)
  | Some choice =>
      match at_approach choice with
      | Errand _ => errand_attempt goal choice shown
      | _ =>
          bound ← etry (bind choice);
          match bound with
          | Ok attempt => eret (with_lessons shown attempt)
          | Err e =>
              if is_unbindable e then retry_selection goal candidates callables past shown e else efail e
          end
      end
  end.

(** ** Judging a run ([closing/judge.rs]) *)

Record Evidence := mkEvidence {
  ev_outcome : RunOutcome; ev_diagnosis : Diagnosis; ev_changed : string; ev_failed : option string
}.
Definition evidence_of (r : Ran) : Evidence :=
  mkEvidence (rn_outcome r) (rn_diagnosis r) (rn_changed r) (rn_failed r).

Definition tail_text (prefix : string) (o : option string) (suffix : string) : string :=
  match o with Some s => prefix +:+ s +:+ suffix | None => "" end.
Definition findings (e : Evidence) : list string :=
  let d := ev_diagnosis e in
  ((λ b, "node `" +:+ nl_node_id b +:+ "`: `" +:+ nl_expression b +:+ "` at " +:+ nl_location b +:+
         " resolved to null" +:+ tail_text ", reading from `" (nl_reads_from b) "`" +:+ " — " +:+ nl_suggestion b)
     <$> filter (λ b, nl_unverifiable b = false) (dg_null_bindings d)) ++
  ((λ n, "node `" +:+ n +:+ "`: dispatched an agent session with an empty prompt") <$> dg_empty_prompts d) ++
  ((λ h, "node `" +:+ he_node_id h +:+ "`: errored, and its on_error policy swallowed it" +:+
         tail_text " — " (he_message h) "") <$> dg_hidden_errors d) ++
  ((λ s, "node `" +:+ nr_node_id s +:+ "`: never ran" +:+ tail_text ", routed past by `" (nr_routed_by s) "`")
     <$> dg_never_ran d).

Definition evidence_render (e : Evidence) : string :=
  let found := findings e in
  let diagnosis := if is_empty found then "the engine found nothing wrong with the steps"
                   else join_with (nl +:+ "- ") found in
  "# Run outcome" +:+ nl +:+ tx_pretty_json tx (bounded_evidence f (ro_output (ev_outcome e))) +:+ nl +:+ nl +:+
  "# What the engine's diagnosis found" +:+ nl +:+ "- " +:+ diagnosis +:+ nl +:+ nl +:+
  "# What changed outside the run" +:+ nl +:+
  (if decide (ev_changed e = "") then "(nothing reported)" else ev_changed e).

Definition no_nodes (output : value) : bool :=
  match get "nodes" output with
  | Some (Object m) => is_empty m
  | _ => true
  end.

Definition without_a_model (e : Evidence) : option Verdict :=
  let outcome := ev_outcome e in
  match ro_pending_approvals outcome with
  | first :: _ =>
      Some (mkVerdict false NeedsInput ("parked for approval at: " +:+ join_with ", " (ro_pending_approvals outcome))
              first "" true)
  | [] =>
      if ro_cancelled outcome then
        Some (mkVerdict false ExternalWait "the run was cancelled before it finished" "" "" true)
      else if negb (is_empty (dg_never_ran (ev_diagnosis e))) && no_nodes (ro_output outcome) &&
              bool_decide (ev_changed e = "") then
        Some (mkVerdict false MissingEvidence "no node produced anything and nothing changed outside the run"
                "" "" false)
      else None
  end.

(** The verdict a model's answer amounts to. *)
Definition judged_blocker (failed : option string) (satisfied : bool) (answer : value) : Blocker :=
  if satisfied then BlockNone
  else
    let claimed := blocker_parse (text_field "blocker" answer) in
    if negb (is_none failed) && negb (continuable claimed) &&
       negb (bool_decide (claimed = NeedsInput ∨ claimed = ExternalWait)) then GoalNotMet
    else claimed.
Definition read_verdict (e : Evidence) (answer : value) : Verdict :=
  let satisfied := default false (as_bool (vfield "satisfied" answer)) in
  mkVerdict satisfied (judged_blocker (ev_failed e) satisfied answer)
    (text_field "gap" answer) (text_field "attributed_to" answer) (join_with "; " (findings e))
    (default true (as_bool (vfield "advanced" answer))).

Definition judge (goal : Goal_) (e : Evidence) : Ep Verdict :=
  match without_a_model e with
  | Some settled => eret settled
  | None =>
      let criteria := if decide (trim (gl_success_criteria goal) = "") then ""
                      else nl +:+ nl +:+ "# Done when" +:+ nl +:+ trim (gl_success_criteria goal) in
      answer ← ask TJudge ("# Goal" +:+ nl +:+ trim (gl_text goal) +:+ criteria +:+ nl +:+ nl +:+ evidence_render e);
      eret (read_verdict e answer)
  end.

(** ** Closing an attempt ([closing/mod.rs]) *)

Inductive Next := NextDone | NextRetry | NextStandDown (reason : string).
#[export] Instance Next_eq_dec : EqDecision Next.
Proof using. solve_decision. Defined.

Record Closed := mkClosed { cl_verdict : Verdict; cl_row_id : string; cl_next : Next; cl_stalled : N }.

Definition literal_call (n : Node) : option string :=
  if decide (nd_kind n = SubWorkflow) then
    trim <$> (get "workflow_id" (nd_config n) >>? as_str) >>? λ id,
    if bool_decide (id ≠ "") && negb (is_expression id) then Some id else None
  else None.
Definition calls_of (g : WorkflowGraph) : gmap string string :=
  foldl (λ m n, match literal_call n with Some id => <[nd_id n := id]> m | None => m end) ∅ (wg_nodes g).
Definition called_workflows (g : WorkflowGraph) (ss : list StepRecord) : list (string * bool) :=
  omap (λ s, (λ id, (id, bool_decide (sr_status s = OutSuccess))) <$> calls_of g !! sr_node_id s) ss.

Definition why_of (a : Approach) : string :=
  match a with Selected _ why | Authored why _ | Errand why => why end.
Definition outcome_line (v : Verdict) : string :=
  if vd_satisfied v then "satisfied"
  else if decide (vd_gap v = "") then blocker_debug (vd_blocker v) else vd_gap v.

Definition decide_next (v : Verdict) (attempt stalled : N) : Next :=
  if vd_satisfied v then NextDone
  else if should_retry v attempt stalled budget then NextRetry
  else NextStandDown
    (if negb (continuable (vd_blocker v)) then blocker_debug (vd_blocker v) +:+ " — " +:+ vd_gap v
     else if exhausted budget attempt then "out of attempts after " +:+ pretty attempt
     else pretty stalled +:+ " attempts in a row made no progress").

Definition status_of (n : Next) : EpisodeStatus :=
  match n with NextDone => EpSatisfied | NextRetry => EpRunning | NextStandDown reason => EpStoodDown reason end.

Fixpoint score_called (satisfied : bool) (called : list (string * bool)) : Ep unit :=
  match called with
  | [] => eret tt
  | (id, worked) :: called =>
      _ ← on_ledger (score_workflow id (worked && satisfied));
      score_called satisfied called
  end.

Definition fresh_episode (ep : string) (goal : Goal_) (now : string) : Ledger.Episode :=
  mkEpisode ep goal None EpRunning 0 0 now now.

Definition workflow_of (a : Approach) : option string :=
  match a with Selected id _ => Some id | Authored _ _ | Errand _ => None end.

Definition close (goal : Goal_) (ep : string) (attempt : N) (approach : Approach) (g : WorkflowGraph) (ran : Ran)
    (now : string) : Ep Closed :=
  verdict ← judge goal (evidence_of ran);
  found ← on_ledger (episode ep);
  let record := default (fresh_episode ep goal now) found in
  row_id ← on_ledger (append (mkLedgerRow "" ep attempt (signature approach) (why_of approach)
             (workflow_of approach) (outcome_line verdict) (vd_gap verdict) (rn_cost_usd ran) now
             (vd_satisfied verdict) (vd_advanced verdict)));
  _ ← etry (on_ledger (save_steps row_id (rn_steps ran)));
  _ ← match workflow_of approach with
      | Some id => on_ledger (score_workflow id (vd_satisfied verdict))
      | None => eret tt
      end;
  _ ← score_called (vd_satisfied verdict) (called_workflows g (rn_steps ran));
  let stalled := if vd_satisfied verdict || vd_advanced verdict then 0%N else (ep_stalled record + 1)%N in
  let next := decide_next verdict attempt stalled in
  _ ← on_ledger (save_episode (mkEpisode (ep_id record) (ep_goal record) (ep_scope_key record) (status_of next)
                   attempt stalled (ep_started_at record) now));
  eret (mkClosed verdict row_id next stalled).

(** ** Keeping what worked ([closing/keep.rs]) *)

Definition keep (goal : Goal_) (g : WorkflowGraph) (inputs : list (string * value)) : Ep (option WorkflowRecord) :=
  match baked_in g inputs with
  | _ :: _ => eret None
  | [] =>
      let declared := if is_empty (wg_inputs g) then "(none)"
                      else join_with nl ((λ i, "- " +:+ in_name i) <$> wg_inputs g) in
      match tx_pretty_graph tx g with
      | Err e => efail (StoreErr e)
      | Ok printed =>
          answer ← ask TGeneralise ("# The goal it achieved" +:+ nl +:+ trim (gl_text goal) +:+ nl +:+ nl +:+
                     "# Its declared inputs" +:+ nl +:+ declared +:+ nl +:+ nl +:+ "# The graph" +:+ nl +:+ printed);
          let description := trim (text_field "description" answer) in
          if negb (default false (as_bool (vfield "reusable" answer))) then eret None
          else if decide (description = "") then eret None
          else
            let name := trim (text_field "name" answer) in
            let id := shape_id (tx_encode_shape tx) g in
            let record := mkWfRecord id (if decide (name = "") then id else name) description true defaults_default
                            (mkWorkflow (wg_schema_version g) (Some id) (wg_name g) (wg_inputs g) (wg_agents g)
                               (wg_nodes g) (wg_edges g)) None in
            _ ← on_host StoreErr (store_save record);
            eret (Some record)
      end
  end.

(** ** Learning ([closing/consolidate.rs]) *)

Definition was_a_plain_errand (satisfied : bool) (rs : list LedgerRow) : bool :=
  satisfied && match rs with [r] => bool_decide (lr_approach_sig r = "errand") | _ => false end.

Definition read_lesson (raw : value) : option Lesson :=
  let trigger := trim (text_field "trigger" raw) in
  let claim := trim (text_field "claim" raw) in
  if decide (trigger = "" ∨ claim = "") then None
  else Some (mkLesson "" (lesson_kind_parse (text_field "kind" raw)) trigger (trim (text_field "mechanism" raw))
               claim 0 0 None).

Definition cited (raw : value) (rs : list LedgerRow) : list string :=
  let ids := match as_array (vfield "evidence" raw) with
             | Some l => omap (λ v, as_u64 v >>? λ i, lr_id <$> rs !! Z.to_nat i) l
             | None => []
             end in
  foldl (λ seen id, if decide (id ∈ seen) then seen else seen ++ [id]) [] ids.

Definition kind_debug (k : LessonKind) : string :=
  match k with
  | Strategy => "Strategy" | Constraint_ => "Constraint" | FailureMode => "FailureMode" | Calibration => "Calibration"
  end.
Definition render_trail (goal : Goal_) (satisfied : bool) (rs : list LedgerRow) (existing : list Lesson) : string :=
  let attempts := join_with nl (imap (λ i r,
    pretty i +:+ ". [" +:+ lr_approach_sig r +:+ "] " +:+ lr_approach_desc r +:+ " → " +:+ lr_outcome r +:+
    (if decide (lr_cause r = "") then "" else " (because " +:+ lr_cause r +:+ ")")) rs) in
  "Goal: " +:+ trim (gl_text goal) +:+ nl +:+ nl +:+ "Outcome: " +:+
  (if satisfied then "satisfied" else "not satisfied") +:+ " after " +:+ pretty (length rs) +:+ " attempts" +:+
  nl +:+ nl +:+ "Attempts:" +:+ nl +:+ attempts +:+
  (if is_empty existing then ""
   else nl +:+ nl +:+ "Already stored (corroborate by id rather than restating):" +:+ nl +:+
        join_with "" ((λ l, "- " +:+ ls_id l +:+ ": [" +:+ kind_debug (ls_kind l) +:+ "] when " +:+ ls_trigger l +:+
                            " — " +:+ ls_claim l +:+ nl) <$> existing)).

Fixpoint promote_all (rs : list LedgerRow) (raws : list value) : Ep (list Lesson) :=
  match raws with
  | [] => eret []
  | raw :: raws =>
      match read_lesson raw with
      | None => promote_all rs raws
      | Some lesson =>
          match cited raw rs with
          | [] => promote_all rs raws
          | cites =>
              id ← etry (on_ledger (promote lesson cites));
              rest ← promote_all rs raws;
              eret (match id with
                    | Ok id => set_lesson lesson id (ls_applied lesson) (ls_helped lesson) (ls_scope_key lesson) :: rest
                    | Err _ => rest
                    end)
          end
      end
  end.
Fixpoint score_lessons (helped : bool) (ids : list string) : Ep unit :=
  match ids with
  | [] => eret tt
  | id :: ids => _ ← etry (on_ledger (score_lesson id helped)); score_lessons helped ids
  end.

Definition corroborated (answer : value) : list string :=
  match as_array (vfield "corroborate" answer) with
  | Some l => filter (λ s, s ≠ "") (omap as_str l)
  | None => []
  end.

Definition consolidate (goal : Goal_) (ep : string) (satisfied : bool) : Ep (list Lesson) :=
  read ← etry (on_ledger (rows ep));
  match read with
  | Err _ => eret []
  | Ok [] => eret []
  | Ok rs =>
      if was_a_plain_errand satisfied rs then eret []
      else
        stored ← etry (on_ledger (lessons None));
        let existing := match stored with Ok ls => ls | Err _ => [] end in
        answered ← etry (ask TConsolidate (render_trail goal satisfied rs existing));
        match answered with
        | Err _ => eret []
        | Ok answer =>
            kept ← promote_all rs (default [] (as_array (vfield "lessons" answer)));
            _ ← score_lessons true (corroborated answer);
            eret kept
        end
  end.

(** ** Repairing ([closing/repair.rs]) *)

Record Variant_ := mkVariant {
  va_record : WorkflowRecord; va_parent_id : string; va_ops : list GraphOp; va_why : string
}.

Definition graph_is_suspect (v : Verdict) (e : Evidence) : bool :=
  let d := ev_diagnosis e in
  existsb (λ b, negb (nl_unverifiable b)) (dg_null_bindings d) || negb (is_empty (dg_empty_prompts d)) ||
  negb (is_empty (dg_hidden_errors d)) || negb (is_empty (dg_never_ran d)) ||
  bool_decide (trim (vd_attributed_to v) ≠ "").

Definition read_ops (answer : value) : result IntakeError (list GraphOp) :=
  match get "ops" answer with
  | None | Some Null => Ok []
  | Some raw =>
      match tx_decode_ops tx raw with
      | Err e => Err (Invalid ("not a batch of graph ops: " +:+ e))
      | Ok ops =>
          if existsb is_rename ops then
            Err (Invalid ("a repair may not rename a node: edges are rewired but `=nodes.<id>` expressions in " +:+
                          "other nodes are not, and the graph would validate and run wrong"))
          else Ok ops
      end
  end.

Definition variant_id (parent_id : string) (ops : list GraphOp) : string :=
  parent_id +:+ "-fix-" +:+ digest_hex (bytes_of (tx_encode_ops tx ops)).

Definition variant_record (parent : WorkflowRecord) (parent_id : string) (ops : list GraphOp) (why : string)
    (g : WorkflowGraph) : WorkflowRecord :=
  mkWfRecord (variant_id parent_id ops) (wr_name parent +:+ " (repaired)")
    (if decide (why = "") then "Variant of " +:+ parent_id +:+ "."
     else "Variant of " +:+ parent_id +:+ ": " +:+ why)
    (wr_enabled parent) (wr_defaults parent) g None.

Definition repair_prompt (goal : Goal_) (v : Verdict) (e : Evidence) (printed : string) : string :=
  "# Goal" +:+ nl +:+ trim (gl_text goal) +:+ nl +:+ nl +:+ "# The workflow that ran" +:+ nl +:+ printed +:+ nl +:+ nl +:+
  "# What is still missing" +:+ nl +:+ vd_gap v +:+
  (if decide (trim (vd_attributed_to v) = "") then ""
   else nl +:+ nl +:+ "The judge attributed this to node `" +:+ vd_attributed_to v +:+ "`.") +:+ nl +:+ nl +:+
  evidence_render e.

Definition repair (goal : Goal_) (v : Verdict) (e : Evidence) (parent_id : string) : Ep (option Variant_) :=
  if negb (graph_is_suspect v e) then eret None
  else
    found ← on_host StoreErr (store_get parent_id);
    match found with
    | None => efail (StoreErr ("no workflow '" +:+ parent_id +:+ "'"))
    | Some parent =>
        match tx_pretty_graph tx (wr_graph parent) with
        | Err e => efail (StoreErr e)
        | Ok printed =>
            answer ← ask TRepair (repair_prompt goal v e printed);
            match read_ops answer with
            | Err e => efail e
            | Ok [] => eret None
            | Ok ops =>
                match apply_ops (wr_graph parent) ops with
                | Err e => efail (Invalid ("the repair does not apply: " +:+ op_error_to_string e))
                | Ok g =>
                    match validate_graph f sd g with
                    | (_ :: _) as problems => efail (Invalid (problems_text problems))
                    | [] =>
                        let why := trim (text_field "why" answer) in
                        let record := variant_record parent parent_id ops why g in
                        _ ← on_host Unsupported (check_graph (wr_id record) g);
                        _ ← on_host StoreErr (store_save record);
                        _ ← on_ledger (link_variant parent_id (wr_id record));
                        eret (Some (mkVariant record parent_id ops why))
                    end
                end
            end
        end
    end.

(** ** Driving an episode ([driver.rs]) *)

Definition start (ep : string) (goal : Goal_) : Ep Ledger.Episode :=
  found ← on_ledger (episode ep);
  match found with
  | Some existing => eret existing
  | None =>
      now ← asked_host clock_now;
      let record := fresh_episode ep goal now in
      _ ← on_ledger (save_episode record);
      eret record
  end.

Definition keep_if_it_generalises (goal : Goal_) (planned : PlannedAttempt) : Ep unit :=
  match at_approach planned with
  | Authored _ _ =>
      kept ← etry (keep goal (at_graph planned) (at_inputs planned));
      match kept with
      | Ok (Some record) => _ ← etry (on_ledger (score_workflow (wr_id record) true)); eret tt
      | _ => eret tt
      end
  | _ => eret tt
  end.

Definition repair_if_the_graph_is_at_fault (goal : Goal_) (closed : Closed) (planned : PlannedAttempt) (ran : Ran)
    : Ep (option LoopResumePoint) :=
  if vd_satisfied (cl_verdict closed) then eret None
  else
    match at_approach planned with
    | Selected parent _ =>
        let e := evidence_of ran in
        if negb (graph_is_suspect (cl_verdict closed) e) then eret None
        else
          repaired ← etry (repair goal (cl_verdict closed) e parent);
          match repaired with
          | Ok (Some variant) =>
              eret (rn_resume ran >>? λ stopped,
                    if may_continue (at_graph planned) (wr_graph (va_record variant)) (rp_failed_node stopped)
                         (va_ops variant)
                    then Some (mkResumePoint (rp_thread stopped) (rp_failed_node stopped) (wr_id (va_record variant)))
                    else None)
          | _ => eret None
          end
    | _ => eret None
    end.

(** The continuation applies to the workflow the repair produced only. *)
Definition continued (from : option LoopResumePoint) (planned : PlannedAttempt) : PlannedAttempt :=
  match from, at_approach planned with
  | Some point, Selected workflow_id _ =>
      if decide (workflow_id = rp_workflow point) then
        mkAttempt (at_approach planned) (at_graph planned) (at_inputs planned) (Some point) (at_lessons_shown planned)
      else planned
  | _, _ => planned
  end.

Definition attempt_continuing (ep : string) (goal : Goal_) (from : option LoopResumePoint)
    : Ep (Closed * option LoopResumePoint) :=
  record ← start ep goal;
  let attempt := (ep_attempt record + 1)%N in
  planned ← decide_attempt goal ep;
  let planned := continued from planned in
  ran ← asked_host (run_planned planned);
  now ← asked_host clock_now;
  closed ← close goal ep attempt (at_approach planned) (at_graph planned) ran now;
  _ ← score_lessons (vd_satisfied (cl_verdict closed)) (at_lessons_shown planned);
  next ← (if vd_satisfied (cl_verdict closed)
          then _ ← keep_if_it_generalises goal planned; eret None
          else repair_if_the_graph_is_at_fault goal closed planned ran);
  eret (closed, next).

Record Finished := mkFinished {
  fi_status : EpisodeStatus; fi_attempts : N; fi_verdict : Verdict; fi_lessons : list Lesson
}.

(** The loop has no bound of its own; [None] is a run of more than [fuel]
    attempts. *)
Fixpoint run_from (fuel : nat) (ep : string) (goal : Goal_) (carry : option LoopResumePoint)
    : L * HS → option ((L * HS) * result IntakeError Finished) := λ w,
  match fuel with
  | 0 => None
  | S fuel =>
      match attempt_continuing ep goal carry w with
      | (w, Err e) => Some (w, Err e)
      | (w, Ok (closed, next)) =>
          match cl_next closed with
          | NextRetry => run_from fuel ep goal next w
          | ended =>
              Some ((ls ← consolidate goal ep (vd_satisfied (cl_verdict closed));
                     found ← on_ledger (episode ep);
                     let attempts := match found with Some r => ep_attempt r | None => 0%N end in
                     eret (mkFinished (status_of ended) attempts (cl_verdict closed) ls)) w)
          end
      end
  end.
Definition run_episode (fuel : nat) (ep : string) (goal : Goal_) := run_from fuel ep goal None.

Definition unfinished : Ep (list Ledger.Episode) := on_ledger (episodes true page_all).
End Episodes.
