(* ===== verification/EpisodeTheorems.v ===== *)
(** * What an episode guarantees

    Theorems about [Episode] against the class [LawfulLedger]: an episode ends
    within its budget of attempts, it never repeats a stored workflow nor takes a
    second errand, what it offers a planner, when a run is continued, what is
    kept and what a repair leaves alone.  [MemoryLedger] is shown lawful. *)

From Stdlib Require Import SpecFloat Ascii.
From S2P Require Import Prelude Json GraphTypes Workflow Text Expr WfValidate WfConfig WfState EngineRun GraphOps AgentRequest AgentPrompt Diagnosis Ledger LedgerTheorems Recipe Episode WfSamples ConfigTheorems.

(** ** What the loop relies on a ledger for *)

Class LawfulLedger (L : Type) `{Ledger L} := {
  rows_view : L → string → list LedgerRow;
  episode_view : L → string → option Ledger.Episode;
  same_views (l l' : L) : Prop :=
    (∀ ep, rows_view l' ep = rows_view l ep) ∧ (∀ id, episode_view l' id = episode_view l id);
  view_id l id e : episode_view l id = Some e → ep_id e = id;
  rows_law ep l : same_views l (rows ep l).1 ∧ ∀ rs, (rows ep l).2 = Ok rs → rs = rows_view l ep;
  episode_law id l : same_views l (episode id l).1 ∧ ∀ o, (episode id l).2 = Ok o → o = episode_view l id;
  append_law r l :
    (∀ id, episode_view (append r l).1 id = episode_view l id) ∧
    ((∃ id, ∀ ep, rows_view (append r l).1 ep =
        if decide (ep = lr_episode r) then rows_view l ep ++ [set_row_id r id] else rows_view l ep)
     ∨ (∀ ep, rows_view (append r l).1 ep = rows_view l ep) ∧ ∀ id, (append r l).2 ≠ Ok id);
  save_law e l :
    (∀ ep, rows_view (save_episode e l).1 ep = rows_view l ep) ∧
    ((∃ e', ep_id e' = ep_id e ∧ ep_attempt e' = ep_attempt e ∧ ep_stalled e' = ep_stalled e ∧
        ep_status e' = ep_status e ∧
        ∀ id, episode_view (save_episode e l).1 id = if decide (id = ep_id e) then Some e' else episode_view l id)
     ∨ (∀ id, episode_view (save_episode e l).1 id = episode_view l id) ∧ (save_episode e l).2 ≠ Ok tt);
  lessons_law k l : same_views l (lessons k l).1;
  promote_law x c l : same_views l (promote x c l).1;
  score_lesson_law id b l : same_views l (score_lesson id b l).1;
  score_workflow_law id b l : same_views l (score_workflow id b l).1;
  workflow_score_law id l : same_views l (workflow_score id l).1;
  link_variant_law p v l : same_views l (link_variant p v l).1;
  parent_law id l : same_views l (parent_of id l).1;
  children_law id l : same_views l (children_of id l).1;
  save_steps_law id ss l : same_views l (save_steps id ss l).1
}.

Lemma upsert_reads own stored es :
  ep_scope_key stored = own →
  ∃ e', ep_id e' = ep_id stored ∧ ep_attempt e' = ep_attempt stored ∧ ep_stalled e' = ep_stalled stored ∧
    ep_status e' = ep_status stored ∧
    ∀ id, head (filter (λ e, ep_id e = id ∧ ep_scope_key e = own) (upsert_episode stored own es)) =
          if decide (id = ep_id stored) then Some e'
          else head (filter (λ e, ep_id e = id ∧ ep_scope_key e = own) es).
Proof.
  intros Hown. induction es as [|e es (e' & H1 & H2 & H3 & H4 & IH)]; cbn [upsert_episode].
  - exists stored. split_and!; [done..|]. intros id. rewrite filter_cons, filter_nil.
    repeat case_decide; naive_solver.
  - case_decide as He.
    + eexists (mkEpisode _ _ _ _ _ _ _ _). split_and!; [reflexivity..|]. intros id. rewrite !filter_cons.
      cbn [ep_id ep_scope_key]. repeat case_decide; naive_solver.
    + exists e'. split_and!; [done..|]. intros id. rewrite !filter_cons.
      case_decide as Hid; [|apply IH]. cbn [head]. rewrite decide_False; [done|]. naive_solver.
Qed.

#[export] Instance memory_lawful : LawfulLedger MemoryLedger.
Proof.
  refine {|
    rows_view m ep := (filter (λ p, p.1 = bucket (ml_scope m) ∧ lr_episode p.2 = ep) (mi_rows (ml_inner m))).*2;
    episode_view m id := snd <$> list_find (λ e, ep_id e = id ∧ ep_scope_key e = ml_scope m) (mi_episodes (ml_inner m))
  |}; try done; intros; cbn -[filter]; try by repeat split.
  - rewrite list_find_filter in *. destruct (head (filter _ _)) eqn:E; [|done].
    apply head_Some_elem_of, list_elem_of_filter in E. naive_solver.
  - split; [done|]. by intros rs [= <-].
  - split; [done|]. by intros o [= <-].
  - split; [done|]. left. eexists. intros ep. rewrite filter_app, fmap_app.
    rewrite (filter_cons _ _ []), filter_nil. cbn [fst snd set_row_id lr_episode].
    repeat case_decide; subst; try done; [naive_solver..|by rewrite app_nil_r].
  - split; [done|]. left.
    destruct (upsert_reads (ml_scope l) (mkEpisode (ep_id e) (ep_goal e) (ml_scope l) (ep_status e) (ep_attempt e)
      (ep_stalled e) (ep_started_at e) (ep_updated_at e)) (mi_episodes (ml_inner l)) eq_refl) as (e' & ? & ? & ? & ? & Hr).
    exists e'. split_and!; [done..|]. intros id. rewrite !list_find_filter. apply Hr.
Defined.

(** ** Reasoning about the monad *)

Create HintDb episode.

Section Quiet.
Context {L : Type} `{LawfulLedger L} {HS : Type} {EH : EpisodeHost HS}.

#[export] Instance same_views_preorder : PreOrder (same_views (L := L)).
Proof. split; [by split|]. intros a b c [H1 H2] [H3 H4]. split; intros; [by rewrite H3|by rewrite H4]. Qed.

(** What holds between the worlds before and after every step but a run: it is
    kept by the calls of the ledger that touch neither rows nor episodes, and by
    every call of the host that runs nothing. *)
Class Settled (R : relation (L * HS)) := {
  settled_preorder :: PreOrder R;
  settled_ledger l l' h : same_views l l' → R (l, h) (l', h);
  settled_complete v c w : R w (w.1, (complete v c w.2).1);
  settled_list w : R w (w.1, (store_list w.2).1);
  settled_get id w : R w (w.1, (store_get id w.2).1);
  settled_save r w : R w (w.1, (store_save r w.2).1);
  settled_check s g w : R w (w.1, (check_graph s g w.2).1);
  settled_clock w : R w (w.1, (clock_now w.2).1)
}.

(** The rows and the episodes are the same. *)
Definition views_kept : relation (L * HS) := λ w w', same_views w.1 w'.1.
#[export] Instance views_settled : Settled views_kept.
Proof.
  split; unfold views_kept; try (intros; cbn; reflexivity); [|done].
  split; [intros w; reflexivity|]. intros w1 w2 w3 H1 H2. by etrans.
Qed.

(** A step that keeps the relation, however it ends. *)
Definition quiet (R : relation (L * HS)) {A} (m : Ep (L := L) (HS := HS) A) : Prop := ∀ w, R w (m w).1.

Section Steps.
Context (R : relation (L * HS)) `{!Settled R}.
Lemma quiet_ret {A} (a : A) : quiet R (eret a).
Proof. intros w. reflexivity. Qed.
Lemma quiet_fail {A} e : quiet R (efail (A := A) e).
Proof. intros w. reflexivity. Qed.
Lemma quiet_bind {A B} (m : Ep A) (k : A → Ep B) : quiet R m → (∀ a, quiet R (k a)) → quiet R (ebind m k).
Proof.
  intros Hm Hk w. unfold ebind. specialize (Hm w). destruct (m w) as [w' [a|e]]; cbn in *; [|done].
  etrans; [exact Hm|apply Hk].
Qed.
Lemma quiet_try {A} (m : Ep A) : quiet R m → quiet R (etry m).
Proof. intros Hm w. unfold etry. specialize (Hm w). by destruct (m w). Qed.
Lemma quiet_host {A} err (m : HS → HS * result string A) :
  (∀ w, R w (w.1, (m w.2).1)) → quiet R (on_host err m).
Proof. intros Hm w. unfold on_host. specialize (Hm w). by destruct (m w.2). Qed.
Lemma quiet_asked {A} (m : HS → HS * A) : (∀ w, R w (w.1, (m w.2).1)) → quiet R (asked_host m).
Proof. intros Hm w. unfold asked_host. specialize (Hm w). by destruct (m w.2). Qed.
Lemma quiet_ledger {A} (m : Led L A) : (∀ l, same_views l (m l).1) → quiet R (on_ledger m).
Proof.
  intros Hm w. unfold on_ledger. specialize (Hm w.1). destruct w as [l h]. cbn in *.
  destruct (m l). by apply settled_ledger.
Qed.
End Steps.

Lemma quiet_lbind {A B} (m : Led L A) (k : A → Led L B) :
  (∀ l, same_views l (m l).1) → (∀ a l, same_views l (k a l).1) → ∀ l, same_views l (lbind m k l).1.
Proof.
  intros Hm Hk l. unfold lbind. specialize (Hm l). destruct (m l) as [l' [a|]]; cbn in *; [|done].
  etrans; [exact Hm|apply Hk].
Qed.
Lemma lineage_quiet id l : same_views l (lineage id l).1.
Proof.
  apply quiet_lbind.
  - generalize MAX_LINEAGE_DEPTH. intros n. revert id. induction n as [|n IH]; intros id l'; [reflexivity|].
    cbn [walk_up]. apply quiet_lbind; [apply parent_law|]. intros [p|] l''; [|reflexivity].
    case_decide; [reflexivity|apply IH].
  - intros root. generalize MAX_FAMILY at 1. intros n. generalize 0, [root].
    induction n as [|n IH]; intros next family l'; [reflexivity|]. cbn [walk_down].
    destruct (family !! next); [|reflexivity]. case_decide; [|reflexivity].
    apply quiet_lbind; [apply children_law|]. intros cs. apply IH.
Qed.

(** What a step that succeeds answers. *)
Definition yields {A} (m : Ep (L := L) (HS := HS) A) (R : A → Prop) : Prop := ∀ w a, (m w).2 = Ok a → R a.
Lemma yields_ret {A} (a : A) (R : A → Prop) : R a → yields (eret a) R.
Proof. by intros HR w a' [= <-]. Qed.
Lemma yields_fail {A} e (R : A → Prop) : yields (efail e) R.
Proof. by intros w a'. Qed.
Lemma yields_bind {A B} (m : Ep A) (k : A → Ep B) (S : A → Prop) (R : B → Prop) :
  yields m S → (∀ a, S a → yields (k a) R) → yields (ebind m k) R.
Proof.
  intros Hm Hk w b. unfold ebind. specialize (Hm w). destruct (m w) as [w' [a|]]; cbn in *; [|done].
  apply Hk. by apply Hm.
Qed.
Lemma yields_bind_any {A B} (m : Ep A) (k : A → Ep B) (R : B → Prop) :
  (∀ a, yields (k a) R) → yields (ebind m k) R.
Proof. intros Hk. apply (yields_bind m k (λ _, True)); [by intros ???|auto]. Qed.
Lemma yields_try {A} (m : Ep A) (R : A → Prop) :
  yields m R → yields (etry m) (λ r, match r with Ok a => R a | Err _ => True end).
Proof.
  intros Hm w r. unfold etry. specialize (Hm w). destruct (m w) as [w' r']; cbn in *. intros [= <-].
  destruct r'; [by apply Hm|done].
Qed.
Lemma ebind_cases {A B} (m : Ep (L := L) (HS := HS) A) (k : A → Ep B) w :
  (∃ w1 a, m w = (w1, Ok a) ∧ ebind m k w = k a w1) ∨
  (∃ w1 e, m w = (w1, Err e) ∧ ebind m k w = (w1, Err e)).
Proof. unfold ebind. destruct (m w) as [w1 [a|e]]; [left|right]; eauto. Qed.

End Quiet.

(** The two ways a step in sequence goes on. *)
Ltac next_step w1 a E :=
  match goal with
  | |- context [ebind ?m ?k ?w0] => is_var w0; destruct (ebind_cases m k w0) as [(w1 & a & E & ->)|(w1 & a & E & ->)]
  end.
#[export] Hint Resolve quiet_ret quiet_fail quiet_bind quiet_try quiet_ledger
  lineage_quiet lessons_law promote_law score_lesson_law score_workflow_law workflow_score_law link_variant_law
  save_steps_law views_settled : episode.
#[export] Hint Resolve yields_ret yields_fail : episode.

(** Case analysis of the branches of a step, leaving the ledger calls. *)
Ltac host_call :=
  first [apply settled_complete | apply settled_list | apply settled_get | apply settled_save
        | apply settled_check | apply settled_clock].
Ltac quiet_step :=
  match goal with
  | |- quiet _ (ebind _ _) => apply quiet_bind; [apply _| |intros ?]
  | |- quiet _ (mbind _ _) => apply quiet_bind; [apply _| |intros ?]
  | |- quiet _ (match ?x with _ => _ end) => destruct x
  | |- quiet _ (let _ := _ in _) => cbv zeta
  | |- quiet _ (etry _) => apply quiet_try
  | |- quiet _ (on_host _ _) => apply quiet_host; [intros ?; host_call]
  | |- quiet _ (asked_host _) => apply quiet_asked; [intros ?; host_call]
  end.
Ltac solve_quiet := repeat first [solve [eauto with episode] | quiet_step]; eauto with episode.

Section EpisodeLaws.
Context {L : Type} `{LawfulLedger L} {HS : Type} {EH : EpisodeHost HS}.
Context (f : Fmt) (sd : Serde) (tx : Texts) (conn : option string) (facts : HostFacts) (budget : Budget).

(** ** Steps that run nothing and touch neither rows nor episodes *)

Section Settling.
Context (R : relation (L * HS)) `{!Settled R}.

Lemma ask_quiet tier user : quiet R (ask f tx conn tier user).
Proof. unfold ask. solve_quiet. Qed.
#[local] Hint Resolve ask_quiet : episode.
Lemma select_quiet goal cs past e : quiet R (select f tx conn goal cs past e).
Proof. unfold select. solve_quiet. Qed.
Lemma bind_quiet a : quiet R (bind a).
Proof. unfold bind. solve_quiet. Qed.
Lemma gated_quiet answer cs : quiet R (gated f sd tx facts answer cs).
Proof. unfold gated. solve_quiet. Qed.
#[local] Hint Resolve select_quiet bind_quiet gated_quiet : episode.
Lemma author_quiet goal cs past : quiet R (author f sd tx conn facts goal cs past).
Proof.
  unfold author. cbv zeta. generalize (Inference "the author was never asked").
  match goal with |- ∀ e, quiet _ (author_rounds _ _ _ _ _ _ _ ?p _) => generalize p end.
  generalize ROUNDS. intros n. induction n as [|n IH]; intros p e; cbn [author_rounds]; solve_quiet.
Qed.
Lemma offered_quiet listed tr : quiet R (offered listed tr).
Proof. induction listed as [|s listed IH]; cbn [offered]; solve_quiet. Qed.
Lemma scores_quiet ids : quiet R (family_scores ids).
Proof. induction ids as [|s ids IH]; cbn [family_scores]; solve_quiet. Qed.
#[local] Hint Resolve author_quiet offered_quiet scores_quiet : episode.
Lemma collapse_quiet all pending kept settled : quiet R (collapse all pending kept settled).
Proof.
  revert kept settled. induction pending as [|c pending IH]; intros kept settled; cbn [collapse]; solve_quiet.
Qed.
#[local] Hint Resolve collapse_quiet : episode.
Lemma rows_quiet ep : quiet R (on_ledger (rows ep)).
Proof. apply (quiet_ledger R). intros l. apply rows_law. Qed.
Lemma episode_quiet ep : quiet R (on_ledger (episode ep)).
Proof. apply (quiet_ledger R). intros l. apply episode_law. Qed.
#[local] Hint Resolve rows_quiet episode_quiet : episode.
Lemma decide_quiet goal ep : quiet R (decide_attempt f sd tx conn facts goal ep).
Proof. unfold decide_attempt, catalogue, collapse_families, errand_attempt, retry_selection. solve_quiet. Qed.
Lemma judge_quiet goal e : quiet R (judge f tx conn goal e).
Proof. unfold judge. solve_quiet. Qed.
Lemma score_called_quiet b called : quiet R (score_called b called).
Proof. induction called as [|[id w] called IH]; cbn [score_called]; solve_quiet. Qed.
Lemma score_lessons_quiet b ids : quiet R (score_lessons b ids).
Proof. induction ids as [|id ids IH]; cbn [score_lessons]; solve_quiet. Qed.
Lemma keep_if_quiet goal p : quiet R (keep_if_it_generalises f tx conn goal p).
Proof. unfold keep_if_it_generalises, keep. solve_quiet. Qed.
Lemma repair_if_quiet goal closed p ran : quiet R (repair_if_the_graph_is_at_fault f sd tx conn goal closed p ran).
Proof. unfold repair_if_the_graph_is_at_fault, repair. solve_quiet. Qed.
Lemma promote_all_quiet rs raws : quiet R (promote_all rs raws).
Proof. induction raws as [|raw raws IH]; cbn [promote_all]; solve_quiet. Qed.
#[local] Hint Resolve decide_quiet judge_quiet score_called_quiet score_lessons_quiet keep_if_quiet repair_if_quiet
  promote_all_quiet : episode.
Lemma consolidate_quiet goal ep b : quiet R (consolidate f tx conn goal ep b).
Proof. unfold consolidate. solve_quiet. Qed.
End Settling.
#[local] Hint Resolve rows_quiet episode_quiet decide_quiet judge_quiet score_called_quiet score_lessons_quiet
  keep_if_quiet repair_if_quiet consolidate_quiet : episode.

(** ** What intake may decide *)

Lemma signatures_elem rs x : x ∈ signatures rs ↔ x ∈ lr_approach_sig <$> rs.
Proof.
  unfold signatures.
  assert (Hgen : ∀ seen, x ∈ foldl (λ seen r, if decide (lr_approach_sig r ∈ seen) then seen
                                               else seen ++ [lr_approach_sig r]) seen rs
                         ↔ x ∈ seen ∨ x ∈ lr_approach_sig <$> rs).
  { induction rs as [|r rs IH]; intros seen; cbn; [set_solver|]. rewrite IH.
    case_decide as Hr; [|set_solver]. split; [set_solver|]. rewrite elem_of_cons.
    intros [Hx|[->|Hx]]; auto. }
  rewrite Hgen. set_solver.
Qed.

(** An approach the episode has not tried: a stored workflow not yet run in it,
    its first errand, or a graph written for it. *)
Definition fresh (rs : list LedgerRow) (a : Approach) : Prop :=
  match a with Authored _ _ => True | _ => signature a ∉ lr_approach_sig <$> rs end.

Lemma offered_yields listed tr :
  yields (L := L) (HS := HS) (offered listed tr) (Forall (λ c, "selected:" +:+ cd_id c ∉ tr)).
Proof.
  induction listed as [|s listed IH]; cbn [offered]; [by apply yields_ret|].
  destruct (ws_enabled s && _) eqn:E; [|done]. apply andb_true_iff in E as [_ E]. apply bool_decide_eq_true in E.
  apply yields_bind_any. intros score. eapply yields_bind; [exact IH|]. intros rest Hrest.
  apply yields_ret. by constructor.
Qed.

Lemma find_candidate_elem cs id c : find_candidate cs id = Some c → c ∈ cs.
Proof.
  unfold find_candidate. rewrite list_find_filter. intros Hc%head_Some_elem_of.
  by apply list_elem_of_filter in Hc as [_ Hc].
Qed.
Lemma family_offer_elem all c lin fam : c ∈ all → family_offer all c lin fam ∈ all.
Proof.
  intros Hc. unfold family_offer. destruct (find_candidate all _) as [b|] eqn:Hb; cbn; [by eapply find_candidate_elem|].
  destruct (head _) as [b|] eqn:Hh; cbn; [|done].
  apply head_Some_elem_of, list_elem_of_omap in Hh as (id & _ & Hid). by eapply find_candidate_elem.
Qed.
Lemma collapse_yields (P : Candidate → Prop) all pending kept settled :
  Forall P all → pending ⊆ all → Forall P kept →
  yields (L := L) (HS := HS) (collapse all pending kept settled) (Forall P).
Proof.
  intros Hall. revert kept settled. induction pending as [|c pending IH]; intros kept settled Hsub Hkept;
    cbn [collapse]; [by apply yields_ret|].
  assert (Hc : c ∈ all) by set_solver. assert (Hp : pending ⊆ all) by set_solver.
  rewrite Forall_forall in Hall.
  case_decide; [by apply IH|]. apply yields_bind_any. intros lin. case_decide.
  - apply IH; [done|]. apply Forall_app. split; [done|]. apply Forall_singleton. auto.
  - apply yields_bind_any. intros fam. cbv zeta. apply IH; [done|]. case_decide; [done|].
    apply Forall_app. split; [done|]. apply Forall_singleton. apply Hall. by apply family_offer_elem.
Qed.
Lemma catalogue_yields listed tr :
  yields (L := L) (HS := HS) (catalogue listed tr) (Forall (λ c, "selected:" +:+ cd_id c ∉ tr)).
Proof.
  unfold catalogue, collapse_families. eapply yields_bind; [apply offered_yields|]. intros out Hout.
  by apply collapse_yields.
Qed.

(** What a selection may answer. *)
Definition choice_ok (cs : list Candidate) (allowed : bool) (a : Approach) : Prop :=
  match a with
  | Selected id _ => id ∈ cd_id <$> cs
  | Errand _ => allowed = true
  | Authored _ _ => False
  end.
Lemma select_yields goal cs past allowed :
  yields (L := L) (HS := HS) (select f tx conn goal cs past allowed)
    (λ o, ∀ a, o = Some a → choice_ok cs allowed (at_approach a)).
Proof.
  unfold select. destruct (_ && _); [by apply yields_ret|]. apply yields_bind_any. intros answer.
  apply yields_ret. intros a. unfold chosen. cbv zeta.
  destruct (as_str (vfield "workflow_id" answer)) as [id|]; repeat case_decide; repeat case_match;
    intros [= <-]; cbn; try done; destruct allowed; done.
Qed.
Lemma bind_yields a : yields (L := L) (HS := HS) (bind a) (λ b, at_approach b = at_approach a).
Proof.
  unfold bind. destruct (at_approach a) eqn:E; try by apply yields_ret. apply yields_bind_any. intros [record|];
    [|apply yields_fail]. destruct (first_unfilled _ _); [apply yields_fail|by apply yields_ret].
Qed.
Lemma author_yields goal cs past :
  yields (L := L) (HS := HS) (author f sd tx conn facts goal cs past) (λ a, ∃ why fp, at_approach a = Authored why fp).
Proof.
  unfold author. cbv zeta. generalize (Inference "the author was never asked").
  match goal with |- ∀ e, yields (author_rounds _ _ _ _ _ _ _ ?p _) _ => generalize p end.
  generalize ROUNDS. intros n. induction n as [|n IH]; intros p e; cbn [author_rounds]; [apply yields_fail|].
  apply yields_bind_any. intros [answer|e']; [|apply IH].
  eapply yields_bind; [apply yields_try|].
  - assert (Hg : yields (L := L) (HS := HS) (gated f sd tx facts answer cs)
              (λ a, ∃ why fp, at_approach a = Authored why fp)); [|exact Hg].
    unfold gated. repeat case_match; try apply yields_fail; apply yields_bind_any; intros _;
      first [apply yields_fail|apply yields_ret; cbn; eauto].
  - cbn. intros [a|e'] Ha; [by apply yields_ret|apply IH].
Qed.

Lemma fresh_choice rs cs a :
  Forall (λ c, "selected:" +:+ cd_id c ∉ signatures rs) cs →
  choice_ok cs (bool_decide ("errand" ∉ signatures rs)) a → fresh rs a.
Proof.
  intros Hcs. destruct a as [id why|why fp|why]; cbn; [|done|].
  - intros (c & -> & Hc)%list_elem_of_fmap. rewrite Forall_forall in Hcs. rewrite <- signatures_elem. by apply Hcs.
  - intros Hb%bool_decide_eq_true. by rewrite <- signatures_elem.
Qed.

Lemma decide_fresh goal ep w a :
  (decide_attempt f sd tx conn facts goal ep w).2 = Ok a → fresh (rows_view w.1 ep) (at_approach a).
Proof.
  unfold decide_attempt. unfold mbind, ep_bind, ebind at 1, on_ledger at 1.
  destruct (rows_law ep w.1) as [_ Hrows]. destruct (rows ep w.1) as [l' [rs|e]]; [|done].
  cbn in Hrows. rewrite <- (Hrows rs eq_refl). clear Hrows.
  match goal with |- (?m _).2 = _ → _ => assert (Hm : yields m (λ a, fresh rs (at_approach a))); [|apply Hm] end.
  assert (Hauthor : ∀ cs past shown, yields (L := L) (HS := HS)
    (ebind (author f sd tx conn facts goal cs past) (λ a, eret (with_lessons shown a))) (λ a, fresh rs (at_approach a))).
  { intros. eapply yields_bind; [apply author_yields|]. intros b (why & fp & Hb). apply yields_ret. cbn. by rewrite Hb. }
  apply yields_bind_any. intros listed. eapply yields_bind; [apply catalogue_yields|]. intros cs Hcs.
  apply yields_bind_any. intros ls. cbv zeta.
  assert (Hselect : ∀ past allowed, (allowed = true → "errand" ∉ signatures rs) →
    yields (L := L) (HS := HS) (select f tx conn goal cs past allowed) (λ o, ∀ a, o = Some a → fresh rs (at_approach a))).
  { intros past allowed Hal w' o Ho b ->. eapply fresh_choice; [done|].
    pose proof (select_yields goal cs past allowed w' (Some b) Ho b eq_refl) as Hok.
    destruct (at_approach b); [done..|]. cbn in *. apply bool_decide_eq_true. auto. }
  assert (Hbind : ∀ c, fresh rs (at_approach c) → yields (L := L) (HS := HS) (etry (bind c))
    (λ r, match r with Ok a => fresh rs (at_approach a) | Err _ => True end)).
  { intros c Hc. apply yields_try. intros w' b Hb%bind_yields. by rewrite Hb. }
  eapply yields_bind; [apply Hselect; by intros Hb%bool_decide_eq_true|].
  intros [c|] Hc; [|apply Hauthor]. specialize (Hc c eq_refl).
  assert (Hgo : yields (L := L) (HS := HS)
    (ebind (etry (bind c)) (λ bound, match bound with
       | Ok attempt => eret (with_lessons (ls_id <$> retrieve ls None RECALL_LIMIT) attempt)
       | Err e => if is_unbindable e then retry_selection f sd tx conn facts goal cs (callables_of listed)
            (render_history rs +:+ render_lessons (retrieve ls None RECALL_LIMIT))
            (ls_id <$> retrieve ls None RECALL_LIMIT) e else efail e
       end)) (λ a, fresh rs (at_approach a))).
  { eapply yields_bind; [by apply Hbind|]. intros [b|e] Hb; [by apply yields_ret|].
    destruct (is_unbindable e); [|apply yields_fail]. unfold retry_selection. cbv zeta.
    eapply yields_bind; [by apply Hselect|]. intros [r|] Hr; [|apply Hauthor].
    eapply yields_bind; [apply Hbind; by apply Hr|]. intros [b|e'] Hb'; [by apply yields_ret|].
    destruct (is_unbindable e'); [apply Hauthor|apply yields_fail]. }
  destruct (at_approach c) as [id why|why fp|why] eqn:Eapp; [exact Hgo|exact Hgo|].
  unfold errand_attempt. repeat case_match; try apply yields_fail. apply yields_ret. cbn. by rewrite Eapp.
Qed.

(** ** What closing an attempt writes *)

Lemma quiet_step_views {A} (m : Ep (L := L) (HS := HS) A) w w' r :
  quiet views_kept m → m w = (w', r) → same_views w.1 w'.1.
Proof. intros Hm E. specialize (Hm w). by rewrite E in Hm. Qed.
Lemma quiet_any {A} (m : HS → HS * A) : quiet (L := L) views_kept (asked_host m).
Proof. apply (quiet_asked views_kept). intros w. unfold views_kept. reflexivity. Qed.

(** One row of the episode at most, and the record of no other episode. *)
Definition row_added (ep sg : string) (l l' : L) : Prop :=
  (∀ ep', ep' ≠ ep → rows_view l' ep' = rows_view l ep' ∧ episode_view l' ep' = episode_view l ep') ∧
  (rows_view l' ep = rows_view l ep ∨
   ∃ r, lr_approach_sig r = sg ∧ rows_view l' ep = rows_view l ep ++ [r]).
Lemma same_row_added ep sg l l' : same_views l l' → row_added ep sg l l'.
Proof. intros [Hr He]. split; [by intros; rewrite Hr, He|left; apply Hr]. Qed.
Lemma row_added_l ep sg l l1 l2 : same_views l l1 → row_added ep sg l1 l2 → row_added ep sg l l2.
Proof.
  intros [Hr He] [Ho Hrow]. split; [intros ep' Hne; by rewrite <- Hr, <- He; apply Ho|by rewrite <- Hr].
Qed.
Lemma row_added_r ep sg l l1 l2 : row_added ep sg l l1 → same_views l1 l2 → row_added ep sg l l2.
Proof.
  intros [Ho Hrow] [Hr He]. split; [intros ep' Hne; by rewrite Hr, He; apply Ho|by rewrite Hr].
Qed.

(** The end of [close]: the checkpoint, after the row. *)
Lemma save_closing e w :
  (∀ ep', rows_view (on_ledger (save_episode e) w).1.1 ep' = rows_view w.1 ep') ∧
  (∀ ep', ep' ≠ ep_id e → episode_view (on_ledger (HS := HS) (save_episode e) w).1.1 ep' = episode_view w.1 ep') ∧
  (∀ u, (on_ledger (HS := HS) (save_episode e) w).2 = Ok u →
     ∃ e', episode_view (on_ledger (HS := HS) (save_episode e) w).1.1 (ep_id e) = Some e' ∧
       ep_attempt e' = ep_attempt e ∧ ep_stalled e' = ep_stalled e ∧ ep_status e' = ep_status e).
Proof.
  unfold on_ledger. destruct (save_law e w.1) as [Hrows Hsave]. destruct (save_episode e w.1) as [l' r]. cbn in *.
  split; [done|]. destruct Hsave as [(e' & _ & Ha & Hs & Hst & Hview)|[Hview Hno]].
  - split; [intros ep' Hne; rewrite Hview; by rewrite decide_False|]. intros u _. exists e'.
    rewrite Hview, decide_True by done. done.
  - split; [done|]. intros []. destruct r as [[]|]; [by destruct Hno|done].
Qed.

Lemma append_row row w w' r :
  on_ledger (HS := HS) (append row) w = (w', r) → row_added (lr_episode row) (lr_approach_sig row) w.1 w'.1.
Proof.
  unfold on_ledger. destruct (append_law row w.1) as [Hep Hrow]. destruct (append row w.1) as [l' res].
  intros [= <- _]. cbn in *. split.
  - intros ep' Hne. split; [|apply Hep]. destruct Hrow as [(id & Hrow)|[Hrow _]]; rewrite Hrow; [|done].
    by rewrite decide_False.
  - destruct Hrow as [(id & Hrow)|[Hrow _]]; rewrite Hrow; [|by left]. right.
    exists (set_row_id row id). by rewrite decide_True.
Qed.

Lemma start_record goal ep now found w w' :
  on_ledger (HS := HS) (episode ep) w = (w', Ok found) → ep_id (default (fresh_episode ep goal now) found) = ep.
Proof.
  unfold on_ledger. destruct (episode_law ep w.1) as [_ Hf]. destruct (episode ep w.1) as [l' [o|]]; [|done].
  intros [= _ ->]. destruct found as [e|]; [|done]. cbn. apply (view_id w.1). symmetry. by apply Hf.
Qed.

Lemma close_spec goal ep attempt approach g ran now w :
  let '(w', r) := close f tx conn budget goal ep attempt approach g ran now w in
  row_added ep (signature approach) w.1 w'.1 ∧
  match r with
  | Ok c =>
      cl_next c = decide_next budget (cl_verdict c) attempt (cl_stalled c) ∧
      ∃ e, episode_view w'.1 ep = Some e ∧ ep_attempt e = attempt ∧ ep_stalled e = cl_stalled c ∧
        ep_status e = status_of (cl_next c)
  | Err _ => True
  end.
Proof.
  unfold close, mbind, ep_bind.
  next_step w1 v Ej; pose proof (quiet_step_views _ _ _ _ (judge_quiet views_kept goal (evidence_of ran)) Ej) as Q1;
    [|split; [by apply same_row_added|done]].
  next_step w2 found Ee; pose proof (quiet_step_views _ _ _ _ (episode_quiet views_kept ep) Ee) as Q2;
    [|split; [apply same_row_added; by etrans|done]].
  assert (Hid := start_record goal ep now _ _ _ Ee). cbv zeta. set (record := default _ _) in *. clearbody record.
  assert (Q : same_views w.1 w2.1) by by etrans.
  next_step w3 row_id Ea; apply append_row in Ea; (assert (R : row_added ep (signature approach) w.1 w3.1);
    [by eapply row_added_l|]); [|by split].
  clear Ea Ee Ej Q Q1 Q2.
  next_step w4 u1 E4; [|by unfold etry in E4; destruct (on_ledger _ _)].
  assert (Q4 : same_views w3.1 w4.1) by (eapply quiet_step_views; [|exact E4]; solve_quiet).
  next_step w5 u2 E5; (assert (Q5 : same_views w4.1 w5.1);
    [eapply quiet_step_views; [|exact E5]; destruct (workflow_of approach); solve_quiet|]);
    [|split; [do 2 (eapply row_added_r; [|eassumption]); done|done]].
  next_step w6 u3 E6; (assert (Q6 : same_views w5.1 w6.1);
    [eapply quiet_step_views; [|exact E6]; solve_quiet|]);
    [|split; [do 3 (eapply row_added_r; [|eassumption]); done|done]].
  assert (R6 : row_added ep (signature approach) w.1 w6.1)
    by (do 3 (eapply row_added_r; [|eassumption]); done).
  match goal with |- context [on_ledger (save_episode ?e)] => set (saved := e) end.
  destruct (save_closing saved w6) as (Hrows & Hother & Hsaved).
  next_step w7 u4 E7; rewrite E7 in Hrows, Hother, Hsaved; cbn in Hrows, Hother, Hsaved;
    (assert (R7 : row_added ep (signature approach) w.1 w7.1);
     [destruct R6 as [Ho Hr]; split;
      [intros ep' Hne; rewrite Hrows, Hother by (cbn; congruence); by apply Ho|by rewrite Hrows]|]); [|by split].
  cbn. split; [done|]. destruct (Hsaved u4 eq_refl) as (e' & He & H1 & H2 & H3). cbn in *. rewrite Hid in He.
  split; [done|]. by exists e'.
Qed.

(** A close that succeeds has recorded the attempt. *)
Lemma close_appends goal ep attempt approach g ran now w w' c :
  close f tx conn budget goal ep attempt approach g ran now w = (w', Ok c) →
  ∃ r, lr_approach_sig r = signature approach ∧ rows_view w'.1 ep = rows_view w.1 ep ++ [r].
Proof.
  unfold close, mbind, ep_bind.
  next_step w1 v Ej; pose proof (quiet_step_views _ _ _ _ (judge_quiet views_kept goal (evidence_of ran)) Ej) as Q1; [|done].
  next_step w2 found Ee; pose proof (quiet_step_views _ _ _ _ (episode_quiet views_kept ep) Ee) as Q2; [|done].
  cbv zeta. set (record := default _ _). clearbody record.
  next_step w3 row_id Ea; [|done].
  assert (Hrow : ∃ r, lr_approach_sig r = signature approach ∧ rows_view w3.1 ep = rows_view w.1 ep ++ [r]).
  { unfold on_ledger in Ea. match type of Ea with context [append ?r ?l] => destruct (append_law r l) as [_ Hr] end.
    destruct (append _ _) as [l' [id|]]; [|done]. injection Ea as <- _. cbn in Hr.
    destruct Hr as [(id' & Hr)|[_ Hno]]; [|by destruct (Hno id)]. eexists (set_row_id _ id'). split; [|].
    2:{ cbn. rewrite Hr. rewrite decide_True by done. by rewrite (proj1 Q2), (proj1 Q1). } done. }
  destruct Hrow as (r & Hsg & Hrow). clear Ea Ee Ej Q1 Q2.
  next_step w4 u1 E4; [|done].
  assert (Q4 : same_views w3.1 w4.1) by (eapply quiet_step_views; [|exact E4]; solve_quiet).
  next_step w5 u2 E5; [|done].
  assert (Q5 : same_views w4.1 w5.1)
    by (eapply quiet_step_views; [|exact E5]; destruct (workflow_of approach); solve_quiet).
  next_step w6 u3 E6; [|done].
  assert (Q6 : same_views w5.1 w6.1) by (eapply quiet_step_views; [|exact E6]; solve_quiet).
  match goal with |- context [on_ledger (save_episode ?e)] => destruct (save_closing e w6) as (Hrows & _ & _) end.
  next_step w7 u4 E7; [|done]. rewrite E7 in Hrows. cbn in Hrows. intros [= <- _]. exists r. split; [done|].
  by rewrite Hrows, (proj1 Q6), (proj1 Q5), (proj1 Q4).
Qed.

(** ** One attempt *)

(** Beside graphs written for it, an episode has tried nothing twice. *)
Definition exclusive (rs : list LedgerRow) : Prop :=
  NoDup (filter (λ sg, String.prefix "authored:" sg = false) (lr_approach_sig <$> rs)).
Lemma exclusive_snoc rs r a :
  fresh rs a → lr_approach_sig r = signature a → exclusive rs → exclusive (rs ++ [r]).
Proof.
  unfold exclusive. rewrite fmap_app, filter_app. intros Hf Hr Hrs. apply NoDup_app. split_and!; [done| |].
  - intros x [_ Hx]%list_elem_of_filter [Hp Hy]%list_elem_of_filter. cbn in Hy.
    apply list_elem_of_singleton in Hy as ->. rewrite Hr in Hp, Hx. destruct a as [|why fp|]; [done| |done].
    change (String.prefix "" fp = false) in Hp. by destruct fp.
  - apply NoDup_filter, NoDup_singleton.
Qed.

Definition attempts_of (l : L) (ep : string) : N :=
  match episode_view l ep with Some e => ep_attempt e | None => 0 end.

Lemma start_spec goal ep w :
  let '(w', r) := start ep goal w in
  (∀ ep', rows_view w'.1 ep' = rows_view w.1 ep') ∧
  (∀ ep', ep' ≠ ep → episode_view w'.1 ep' = episode_view w.1 ep') ∧
  match r with Ok e => ep_attempt e = attempts_of w.1 ep | Err _ => True end.
Proof.
  unfold start, mbind, ep_bind.
  next_step w1 found Ee; pose proof (quiet_step_views _ _ _ _ (episode_quiet views_kept ep) Ee) as [Q1 Q2]; [|done].
  assert (Hf : found = episode_view w.1 ep).
  { unfold on_ledger in Ee. destruct (episode_law ep w.1) as [_ Hf]. destruct (episode ep w.1) as [l' [o|]]; [|done].
    injection Ee as _ <-. by apply Hf. }
  unfold attempts_of. rewrite <- Hf. destruct found as [e|]; [done|].
  next_step w2 now En; [|by unfold asked_host in En; destruct (clock_now _)].
  assert (Q3 : same_views w1.1 w2.1) by (eapply quiet_step_views; [apply quiet_any|exact En]).
  destruct Q3 as [Q3 Q4]. cbv zeta.
  destruct (save_closing (fresh_episode ep goal now) w2) as (Hrows & Hother & _).
  next_step w3 u Es; rewrite Es in Hrows, Hother; cbn in *;
    (split; [intros; by rewrite Hrows, Q3, Q1|split; [intros; by rewrite Hother, Q4, Q2|done]]).
Qed.

Lemma continued_approach from a : at_approach (continued from a) = at_approach a.
Proof. unfold continued. by repeat case_match. Qed.

Lemma attempt_spec goal ep from w :
  let '(w', r) := attempt_continuing f sd tx conn facts budget ep goal from w in
  (∀ ep', ep' ≠ ep → rows_view w'.1 ep' = rows_view w.1 ep' ∧ episode_view w'.1 ep' = episode_view w.1 ep') ∧
  (exclusive (rows_view w.1 ep) → exclusive (rows_view w'.1 ep)) ∧
  match r with
  | Ok (c, _) =>
      let n := (attempts_of w.1 ep + 1)%N in
      cl_next c = decide_next budget (cl_verdict c) n (cl_stalled c) ∧ attempts_of w'.1 ep = n ∧
      ∃ e, episode_view w'.1 ep = Some e ∧ ep_status e = status_of (cl_next c)
  | Err _ => True
  end.
Proof.
  unfold attempt_continuing, mbind, ep_bind.
  next_step w1 record Es; pose proof (start_spec goal ep w) as Hs; rewrite Es in Hs; destruct Hs as (S1 & S2 & S3);
    [|split_and!; [by intros; rewrite S1, S2|by rewrite S1|done]].
  cbv zeta. rewrite S3.
  next_step w2 planned Ed; pose proof (quiet_step_views _ _ _ _ (decide_quiet views_kept goal ep) Ed) as Q2;
    [|destruct Q2 as [Q2 Q3]; split_and!; [by intros; rewrite Q2, Q3, S1, S2|by rewrite Q2, S1|done]].
  assert (Hfresh : fresh (rows_view w.1 ep) (at_approach planned)).
  { rewrite <- S1. apply (decide_fresh goal ep w1). by rewrite Ed. }
  rewrite continued_approach.
  next_step w3 ran Er; [|by unfold asked_host in Er; destruct (run_planned _ _)].
  next_step w4 now Ec; [|by unfold asked_host in Ec; destruct (clock_now _)].
  assert (Q : same_views w1.1 w4.1).
  { etrans; [exact Q2|]. etrans; [eapply quiet_step_views; [apply quiet_any|exact Er]|].
    eapply quiet_step_views; [apply quiet_any|exact Ec]. }
  clear Es Ed Er Ec Q2.
  next_step w5 closed Ec;
    (match type of Ec with close _ _ _ _ ?g ?e ?n ?a ?gr ?rn ?nw ?w0 = _ =>
       pose proof (close_spec g e n a gr rn nw w0) as Hc end); rewrite Ec in Hc; destruct Hc as [Hrow Hc];
    apply (row_added_l _ _ _ _ _ Q) in Hrow as [Ho Hrow];
    (assert (Hother : ∀ ep', ep' ≠ ep → rows_view w5.1 ep' = rows_view w.1 ep' ∧
                                        episode_view w5.1 ep' = episode_view w.1 ep');
     [intros ep' Hne; rewrite <- S1, <- (S2 ep') by done; by apply Ho|]);
    (assert (Hex : exclusive (rows_view w.1 ep) → exclusive (rows_view w5.1 ep));
     [intros Hx; rewrite S1 in Hrow; destruct Hrow as [->|(r & Hr & ->)]; [done|by eapply exclusive_snoc]|]);
    [|done].
  destruct Hc as (Hnext & e & He & Hn & _ & Hst).
  next_step w6 u6 E6;
    (assert (Q6 : same_views w5.1 w6.1); [eapply quiet_step_views; [apply (score_lessons_quiet views_kept)|exact E6]|]).
  2:{ destruct Q6 as [Qr Qe]. split_and!; [intros; rewrite Qr, Qe; by apply Hother|by rewrite Qr|done]. }
  next_step w7 u7 E7;
    (assert (Q7 : same_views w6.1 w7.1);
     [eapply quiet_step_views; [|exact E7]; destruct (vd_satisfied _); solve_quiet|]);
    pose proof (transitivity Q6 Q7) as [Qr Qe];
    (split; [intros; rewrite Qr, Qe; by apply Hother|split; [by rewrite Qr|]]); [|done].
  cbn. unfold attempts_of at 2. rewrite Qe, He. split_and!; [done|done|]. by exists e.
Qed.

(** ** The whole episode *)

Lemma retry_within v n stalled :
  decide_next budget v n stalled = NextRetry → (n < bg_attempts budget)%N.
Proof.
  unfold decide_next. destruct (vd_satisfied v) eqn:Es; [done|].
  unfold should_retry, exhausted. rewrite Es. cbn. destruct (negb _); [done|].
  destruct (bool_decide (bg_attempts budget ≤ n)%N) eqn:Eb; [done|]. intros _.
  apply bool_decide_eq_false in Eb. lia.
Qed.

(** What the driver does once the episode has ended. *)
Lemma ending_spec goal ep b status v w :
  let '(w', r) := ebind (consolidate f tx conn goal ep b) (λ ls, ebind (on_ledger (episode ep)) (λ found,
      eret (mkFinished status (match found with Some r => ep_attempt r | None => 0%N end) v ls))) w in
  same_views w.1 w'.1 ∧
  match r with Ok fin => fi_status fin = status ∧ fi_attempts fin = attempts_of w.1 ep | Err _ => True end.
Proof.
  next_step w1 ls Ec; pose proof (quiet_step_views _ _ _ _ (consolidate_quiet views_kept goal ep b) Ec) as Q1; [|done].
  next_step w2 found Ee; pose proof (quiet_step_views _ _ _ _ (episode_quiet views_kept ep) Ee) as Q2;
    [|split; [by etrans|done]].
  cbn. split; [by etrans|]. split; [done|]. unfold on_ledger in Ee. destruct (episode_law ep w1.1) as [_ Hf].
  destruct (episode ep w1.1) as [l' [o|]]; [|done]. injection Ee as _ <-. unfold attempts_of.
  rewrite (Hf o eq_refl). by rewrite (proj2 Q1).
Qed.

Lemma run_spec goal ep fuel carry w :
  match run_from f sd tx conn facts budget fuel ep goal carry w with
  | None => (fuel ≤ N.to_nat (bg_attempts budget - attempts_of w.1 ep))%nat
  | Some (w', r) =>
      (∀ ep', ep' ≠ ep → rows_view w'.1 ep' = rows_view w.1 ep' ∧ episode_view w'.1 ep' = episode_view w.1 ep') ∧
      (exclusive (rows_view w.1 ep) → exclusive (rows_view w'.1 ep)) ∧
      match r with
      | Ok fin =>
          (∃ e, episode_view w'.1 ep = Some e ∧ ep_attempt e = fi_attempts fin ∧ ep_status e = fi_status fin) ∧
          fi_status fin ≠ EpRunning ∧
          (attempts_of w.1 ep < fi_attempts fin ≤ N.max (bg_attempts budget) (attempts_of w.1 ep + 1))%N
      | Err _ => True
      end
  end.
Proof.
  revert carry w. induction fuel as [|fuel IH]; intros carry w; cbn [run_from]; [lia|].
  pose proof (attempt_spec goal ep carry w) as Ha.
  destruct (attempt_continuing _ _ _ _ _ _ _ _ _ w) as [w1 [[c next]|e]]; [|tauto].
  destruct Ha as (Ho & Hex & Hnext & Hn & e & He & Hst). cbn in Hnext, Hn.
  assert (Hend : ∀ ended, cl_next c = ended → ended ≠ NextRetry →
    let '(w', r) := ebind (consolidate f tx conn goal ep (vd_satisfied (cl_verdict c))) (λ ls,
      ebind (on_ledger (episode ep)) (λ found,
        eret (mkFinished (status_of ended) (match found with Some r => ep_attempt r | None => 0%N end)
                (cl_verdict c) ls))) w1 in
    (∀ ep', ep' ≠ ep → rows_view w'.1 ep' = rows_view w.1 ep' ∧ episode_view w'.1 ep' = episode_view w.1 ep') ∧
    (exclusive (rows_view w.1 ep) → exclusive (rows_view w'.1 ep)) ∧
    match r with
    | Ok fin =>
        (∃ e, episode_view w'.1 ep = Some e ∧ ep_attempt e = fi_attempts fin ∧ ep_status e = fi_status fin) ∧
        fi_status fin ≠ EpRunning ∧
        (attempts_of w.1 ep < fi_attempts fin ≤ N.max (bg_attempts budget) (attempts_of w.1 ep + 1))%N
    | Err _ => True
    end).
  { intros ended Hended Hne.
    pose proof (ending_spec goal ep (vd_satisfied (cl_verdict c)) (status_of ended) (cl_verdict c) w1) as Hs.
    destruct (ebind _ _ w1) as [w' r]. destruct Hs as [[Qr Qe] Hr].
    split; [intros; rewrite Qr, Qe; by apply Ho|]. split; [by rewrite Qr|]. destruct r as [fin|]; [|done].
    destruct Hr as [-> ->]. split_and!; [|by destruct ended|lia|lia].
    exists e. rewrite Qe. split_and!; [done|unfold attempts_of; by rewrite He|congruence]. }
  destruct (cl_next c) eqn:Ec; [by apply (Hend _ eq_refl)| |by apply (Hend _ eq_refl)].
  assert (Hlt := retry_within _ _ _ (eq_sym Hnext)). specialize (IH next w1). rewrite Hn in IH.
  destruct (run_from _ _ _ _ _ _ fuel _ _ _ _) as [[w' r]|]; [|lia].
  destruct IH as (Ho' & Hex' & Hr). split; [intros ep' Hne; destruct (Ho' ep' Hne) as [-> ->]; by apply Ho|].
  split; [auto|]. destruct r as [fin|]; [|done]. destruct Hr as (Hv & Hs & Hb). split_and!; [done|done|lia|lia].
Qed.

(** C13: an episode ends.  The loop of the driver has no bound of its own, yet
    whatever the model, the store and the runner answer, it returns within as
    many attempts as the budget has left (one at least); the answer it gives
    then is not that it is running, and the stored record of the episode says
    the same and counts the same attempts. *)
Theorem episode_ends (fuel : nat) (ep : string) (goal : Goal_) (w : L * HS) :
  (N.to_nat (bg_attempts budget - attempts_of w.1 ep) < fuel)%nat →
  ∃ w' r, run_episode f sd tx conn facts budget fuel ep goal w = Some (w', r) ∧
    match r with
    | Ok fin =>
        (∃ e, episode_view w'.1 ep = Some e ∧ ep_attempt e = fi_attempts fin ∧ ep_status e = fi_status fin) ∧
        fi_status fin ≠ EpRunning ∧
        (attempts_of w.1 ep < fi_attempts fin ≤ N.max (bg_attempts budget) (attempts_of w.1 ep + 1))%N
    | Err _ => True
    end.
Proof.
  intros Hfuel. unfold run_episode. pose proof (run_spec goal ep fuel None w) as Hs.
  destruct (run_from _ _ _ _ _ _ _ _ _ _ _) as [[w' r]|]; [|lia]. exists w', r. split; [done|]. apply Hs.
Qed.

(** ** Repairs and continuations *)

Lemma read_ops_no_rename answer ops : read_ops tx answer = Ok ops → Forall (λ op, is_rename op = false) ops.
Proof.
  unfold read_ops. destruct (get "ops" answer) as [raw|]; [|by intros [= <-]].
  assert (Hgo : match tx_decode_ops tx raw with
    | Err e => Err (Invalid ("not a batch of graph ops: " +:+ e))
    | Ok ops => if existsb is_rename ops then
        Err (Invalid ("a repair may not rename a node: edges are rewired but `=nodes.<id>` expressions in " +:+
                          "other nodes are not, and the graph would validate and run wrong"))
      else Ok ops end = Ok ops → Forall (λ op, is_rename op = false) ops).
  { destruct (tx_decode_ops tx raw) as [ops'|]; [|done]. destruct (existsb is_rename ops') eqn:E; [done|].
    intros [= <-]. apply Forall_forall. intros op Hop. destruct (is_rename op) eqn:Er; [|done].
    rewrite <- not_true_iff_false, existsb_exists in E. destruct E. exists op. by rewrite <- list_elem_of_In. }
  destruct raw; try apply Hgo. by intros [= <-].
Qed.

(** The runner is told to continue only for the workflow the point names. *)
Lemma continued_matches from a p :
  at_resume (continued from a) = Some p → at_resume a = None →
  from = Some p ∧ ∃ why, at_approach (continued from a) = Selected (rp_workflow p) why.
Proof.
  unfold continued. destruct from as [q|]; [|congruence]. destruct (at_approach a) eqn:E; try congruence.
  case_decide as Hw; [|congruence]. cbn. intros [= <-] _. subst. split; [done|]. eauto.
Qed.

(** ** Verdicts *)

(** A verdict is consistent and never strands a run that broke.  A satisfied
    verdict has no blocker; parked and cancelled runs are settled without asking;
    and when the model is asked about a run whose runner reported a failure, the
    verdict is satisfied, may be retried, or waits for something outside. *)
Theorem verdict_consistent (goal : Goal_) (e : Evidence) :
  yields (L := L) (HS := HS) (judge f tx conn goal e)
    (λ v, (vd_satisfied v = true → vd_blocker v = BlockNone) ∧
      (ro_pending_approvals (ev_outcome e) ≠ [] → vd_satisfied v = false ∧ vd_blocker v = NeedsInput) ∧
      (ro_pending_approvals (ev_outcome e) = [] → ro_cancelled (ev_outcome e) = true →
         vd_satisfied v = false ∧ vd_blocker v = ExternalWait) ∧
      (without_a_model e = None → is_Some (ev_failed e) →
         vd_satisfied v = true ∨ continuable (vd_blocker v) = true ∨
         vd_blocker v = NeedsInput ∨ vd_blocker v = ExternalWait)).
Proof.
  unfold judge. destruct (without_a_model e) as [settled|] eqn:Ew.
  - apply yields_ret. unfold without_a_model in Ew.
    destruct (ro_pending_approvals (ev_outcome e)) as [|a l]; [|by injection Ew as <-].
    destruct (ro_cancelled (ev_outcome e)) eqn:Ec; [by injection Ew as <-|].
    destruct (_ && _); [|done]. by injection Ew as <-.
  - cbv zeta. apply yields_bind_any. intros answer. apply yields_ret.
    unfold without_a_model in Ew. destruct (ro_pending_approvals (ev_outcome e)); [|done].
    destruct (ro_cancelled (ev_outcome e)); [done|].
    clear Ew. unfold read_verdict, judged_blocker. cbn. destruct (default false _); [by split_and!; auto|].
    split_and!; [done..|]. intros _ [m ->]. cbn. destruct (continuable (blocker_parse _)) eqn:Ek; cbn; [by right; left|].
    destruct (bool_decide _) eqn:Eb; cbn; [|by right; left]. apply bool_decide_eq_true in Eb. by do 2 right.
Qed.

(** A reply without a blocker ends the episode.  A model that answers only
    that the goal is not met, naming no blocker, is not read as any blocker that
    allows another attempt: whatever the budget left, the loop stands down. *)
Theorem missing_blocker_stands_down (e : Evidence) (n stalled : N) :
  ev_failed e = None →
  decide_next budget (read_verdict e (json_object [("satisfied", Bool false); ("advanced", Bool true)])) n stalled
  = NextStandDown "None — ".
Proof. intros He. unfold read_verdict, decide_next, should_retry, judged_blocker. by rewrite He. Qed.

(** A graph the engine refuses to compile is not retried.  Its run has no step,
    so with an agent in it and no report from the workspace the verdict is
    settled as missing evidence before anyone is asked, and the loop stands down
    on the first attempt although the runner reported the failure. *)
Theorem uncompiled_run_stands_down (g : WorkflowGraph) (n : Node) (error : string) (attempt stalled : N) :
  n ∈ wg_nodes g → nd_kind n = Agent →
  ∃ v, without_a_model (evidence_of (run_attempt f g [] "" (DidNotCompile error))) = Some v ∧
    ev_failed (evidence_of (run_attempt f g [] "" (DidNotCompile error))) = Some error ∧
    ∃ reason, decide_next budget v attempt stalled = NextStandDown reason.
Proof.
  intros Hn Hk. unfold without_a_model. cbn -[diagnose].
  assert (Hnever : dg_never_ran (diagnose f g []) ≠ []).
  { unfold diagnose. cbn [dg_never_ran]. intros Hnil. assert (Hin : mkNeverRan (nd_id n) (nearest_upstream_condition g (nd_id n)) ∈
      omap (λ n, if outside_work (nd_kind n) && bool_decide (nd_id n ∉ ts_node_id <$> [])
                 then Some (mkNeverRan (nd_id n) (nearest_upstream_condition g (nd_id n))) else None) (wg_nodes g)).
    { apply list_elem_of_omap. exists n. split; [done|]. rewrite Hk. cbn.
      by rewrite bool_decide_true by apply not_elem_of_nil. }
    rewrite Hnil in Hin. by apply elem_of_nil in Hin. }
  destruct (dg_never_ran (diagnose f g [])); [done|]. cbn. eexists. split; [reflexivity|].
  split; [done|]. by eexists.
Qed.

(** ** What is kept *)

Lemma dedup_nil {A} `{!EqDecision A} (l : list A) :
  foldl (λ seen v, if decide (v ∈ seen) then seen else seen ++ [v]) [] l = [] → l = [].
Proof.
  destruct l as [|x l]; [done|]. cbn. rewrite decide_False by apply not_elem_of_nil. cbn.
  assert (Hgen : ∀ seen, seen ≠ [] → foldl (λ seen v, if decide (v ∈ seen) then seen else seen ++ [v]) seen l ≠ []).
  { induction l as [|y l IH]; intros seen Hs; [done|]. cbn. apply IH. case_decide; [done|]. by destruct seen. }
  intros Hnil. by apply Hgen in Hnil.
Qed.

Lemma not_baked g inputs n leaf v :
  baked_in g inputs = [] → n ∈ wg_nodes g → leaf ∈ collect_strings (nd_config n) → v ∈ distinctive_inputs inputs →
  pasted leaf v = false.
Proof.
  intros Hb%dedup_nil Hn Hl Hv. eapply concat_fmap_nil in Hb; [|exact Hn].
  eapply concat_fmap_nil in Hb; [|exact Hl]. cbv beta in Hb.
  destruct (pasted leaf v) eqn:E; [|done]. exfalso.
  by apply (filter_nil_not_elem_of _ _ v Hb).
Qed.

(** Only a procedure is kept.  A graph is stored after a success only when none
    of its strings pastes a distinctive value of this run's inputs, in literal
    text or in a quoted part of an expression, so that no ask lowered into it
    carries one; it is stored under the digest of its shape, runs the same nodes
    and edges with the same inputs, and has a description to be found by. *)
Theorem kept_is_reusable (goal : Goal_) (g : WorkflowGraph) (inputs : list (string * value)) :
  yields (L := L) (HS := HS) (keep f tx conn goal g inputs)
    (λ o, ∀ r, o = Some r →
       (∀ n leaf v, n ∈ wg_nodes g → leaf ∈ collect_strings (nd_config n) → v ∈ distinctive_inputs inputs →
          pasted leaf v = false) ∧
       (∀ n prompt reads steps declared worker v,
          n ∈ wg_nodes g → nd_config n = ask_config (ask_expression prompt reads steps declared) worker →
          v ∈ distinctive_inputs inputs → str_contains v prompt = false) ∧
       wr_id r = shape_id (tx_encode_shape tx) g ∧ wr_description r ≠ "" ∧
       wg_nodes (wr_graph r) = wg_nodes g ∧ wg_edges (wr_graph r) = wg_edges g ∧ wg_inputs (wr_graph r) = wg_inputs g).
Proof.
  unfold keep. destruct (baked_in g inputs) eqn:Eb; [|by apply yields_ret]. cbv zeta.
  destruct (tx_pretty_graph tx g); [|apply yields_fail]. apply yields_bind_any. intros answer.
  destruct (negb _); [by apply yields_ret|]. case_decide as Hd; [by apply yields_ret|].
  apply yields_bind_any. intros _. apply yields_ret. intros r [= <-]. cbn.
  split; [intros; by eapply not_baked|]. split_and!; try done.
  intros n prompt reads steps declared worker v Hn Hc Hv.
  destruct (str_contains v prompt) eqn:E; [|done].
  rewrite <- (ask_paste_found prompt reads steps declared v E). eapply not_baked; [done..| |done].
  rewrite Hc. unfold ask_config. destruct worker; cbn; set_solver.
Qed.
End EpisodeLaws.

(** ** What the host was asked for

    Any host, recorded: the runs it made, the workflows it was asked for and the
    ones it stored, in order. *)

Inductive HostEvent :=
| EvRan (planned : PlannedAttempt) (ran : Ran)
| EvRead (id : string) (found : option WorkflowRecord)
| EvSaved (record : WorkflowRecord).

Definition runs (tr : list HostEvent) : list (PlannedAttempt * Ran) :=
  omap (λ e, match e with EvRan planned ran => Some (planned, ran) | _ => None end) tr.
Lemma runs_app tr1 tr2 : runs (tr1 ++ tr2) = runs tr1 ++ runs tr2.
Proof. apply omap_app. Qed.

Definition noting {HS A} (note : A → list HostEvent) (m : HS → HS * A) : HS * list HostEvent → (HS * list HostEvent) * A :=
  λ h, let '(h', a) := m h.1 in ((h', h.2 ++ note a), a).
Definition when_ok {E A} (note : A → list HostEvent) (r : result E A) : list HostEvent :=
  match r with Ok a => note a | Err _ => [] end.

#[export] Instance recorded {HS} `{!EpisodeHost HS} : EpisodeHost (HS * list HostEvent) := {
  complete v c := noting (λ _, []) (complete v c);
  store_list := noting (λ _, []) store_list;
  store_get id := noting (when_ok (λ found, [EvRead id found])) (store_get id);
  store_save r := noting (when_ok (λ _, [EvSaved r])) (store_save r);
  check_graph s g := noting (λ _, []) (check_graph s g);
  run_planned planned := noting (λ ran, [EvRan planned ran]) (run_planned planned);
  clock_now := noting (λ _, []) clock_now
}.

Section Recorded.
Context {L : Type} `{LawfulLedger L} {HS : Type} `{!EpisodeHost HS}.
Context (f : Fmt) (sd : Serde) (tx : Texts) (conn : option string) (facts : HostFacts) (budget : Budget).
Implicit Types (w : L * (HS * list HostEvent)).
Notation trace w := (w.2.2).

(** Nothing was run. *)
Definition unrun : relation (L * (HS * list HostEvent)) := λ w w',
  ∃ evs, trace w' = trace w ++ evs ∧ runs evs = [].
Lemma unrun_noting {A} (note : A → list HostEvent) (m : HS → HS * A) w :
  (∀ a, runs (note a) = []) → unrun w (w.1, (noting note m w.2).1).
Proof. intros Hn. unfold noting. destruct (m w.2.1) as [h a]. by exists (note a). Qed.
#[export] Instance unrun_settled : Settled unrun.
Proof.
  split; try (intros; apply unrun_noting; by intros [|]); try (intros; by apply unrun_noting).
  - split; [intros w; exists []; by rewrite app_nil_r|].
    intros w1 w2 w3 (e1 & T1 & R1) (e2 & T2 & R2).
    exists (e1 ++ e2). by rewrite T2, T1, runs_app, R1, R2, app_assoc.
  - intros l l' h _. exists []. by rewrite app_nil_r.
Qed.
Lemma unrun_ledger {A} (m : Led L A) : quiet unrun (on_ledger m).
Proof. intros w. unfold on_ledger. destruct (m w.1). exists []. by rewrite app_nil_r. Qed.
#[local] Hint Resolve unrun_settled unrun_ledger : episode.

Lemma unrun_step {A} (m : Ep (L := L) (HS := HS * list HostEvent) A) w w' r :
  quiet unrun m → m w = (w', r) → ∃ evs, trace w' = trace w ++ evs ∧ runs evs = [].
Proof. intros Hm E. specialize (Hm w). by rewrite E in Hm. Qed.

Lemma start_unrun ep goal : quiet unrun (start ep goal).
Proof. unfold start. solve_quiet. Qed.
Lemma close_unrun goal ep attempt approach g ran now :
  quiet unrun (close f tx conn budget goal ep attempt approach g ran now).
Proof.
  unfold close. repeat first [apply judge_quiet; apply _ | apply score_called_quiet; apply _ | quiet_step
                             | solve [eauto with episode]].
Qed.
#[local] Hint Resolve start_unrun close_unrun : episode.

(** What was done, but for the graphs written for the occasion. *)
Definition procedures (sgs : list string) : list string :=
  filter (λ sg, String.prefix "authored:" sg = false) sgs.
Definition approach_run (p : PlannedAttempt * Ran) : string := signature (at_approach p.1).

Lemma procedures_snoc rs a :
  fresh rs a → NoDup (procedures (lr_approach_sig <$> rs)) →
  NoDup (procedures ((lr_approach_sig <$> rs) ++ [signature a])).
Proof.
  unfold procedures. rewrite filter_app. intros Hf Hrs. apply NoDup_app. split_and!; [done| |].
  - intros x [_ Hx]%list_elem_of_filter [Hp Hy]%list_elem_of_filter.
    apply list_elem_of_singleton in Hy as ->. destruct a as [|why fp|]; [done| |done].
    change (String.prefix "" fp = false) in Hp. by destruct fp.
  - apply NoDup_filter, NoDup_singleton.
Qed.

(** What an attempt does after it is recorded. *)
Definition attempt_tail goal closed (planned : PlannedAttempt) ran
    : Ep (L := L) (HS := HS * list HostEvent) (Closed * option LoopResumePoint) :=
  ebind (score_lessons (vd_satisfied (cl_verdict closed)) (at_lessons_shown planned)) (λ _ : unit,
  ebind (if vd_satisfied (cl_verdict closed)
         then ebind (keep_if_it_generalises f tx conn goal planned) (λ _ : unit, eret None)
         else repair_if_the_graph_is_at_fault f sd tx conn goal closed planned ran)
    (λ next, eret (closed, next))).
Lemma tail_quiet (R : relation (L * (HS * list HostEvent))) `{!Settled R} goal closed planned ran : quiet R (attempt_tail goal closed planned ran).
Proof.
  unfold attempt_tail. repeat first [apply score_lessons_quiet; apply _ | apply keep_if_quiet; apply _
    | apply repair_if_quiet; apply _ | quiet_step | solve [eauto with episode]].
Qed.

Lemma run_trace planned ran w w' :
  asked_host (run_planned planned) w = (w', Ok ran) → w'.1 = w.1 ∧ trace w' = trace w ++ [EvRan planned ran].
Proof.
  unfold asked_host. cbn. unfold noting. destruct (run_planned planned w.2.1). by intros [= <- <-].
Qed.
Lemma clock_unrun : quiet unrun (asked_host clock_now : Ep (L := L) string).
Proof. solve_quiet. Qed.

(** One attempt runs one approach that is new to the episode, and records it
    unless it fails. *)
Lemma attempt_runs goal ep from w :
  let '(w', r) := attempt_continuing f sd tx conn facts budget ep goal from w in
  ∃ evs, trace w' = trace w ++ evs ∧
    ((runs evs = [] ∧ rows_view w'.1 ep = rows_view w.1 ep ∧ (∀ a, r ≠ Ok a)) ∨
     ∃ p, runs evs = [p] ∧ fresh (rows_view w.1 ep) (at_approach p.1) ∧
       (lr_approach_sig <$> rows_view w'.1 ep = (lr_approach_sig <$> rows_view w.1 ep) ++ [approach_run p] ∨
        rows_view w'.1 ep = rows_view w.1 ep ∧ ∀ a, r ≠ Ok a)).
Proof.
  unfold attempt_continuing, mbind, ep_bind.
  next_step w1 record Es; pose proof (start_spec goal ep w) as Hs; rewrite Es in Hs; destruct Hs as (S1 & _ & _);
    pose proof (unrun_step _ _ _ _ (start_unrun ep goal) Es) as (e1 & T1 & R1);
    [|exists e1; split; [done|left; by rewrite S1]].
  cbv zeta.
  next_step w2 planned Ed; pose proof (quiet_step_views _ _ _ _ (decide_quiet f sd tx conn facts views_kept goal ep) Ed) as [Q2 _];
    pose proof (unrun_step _ _ _ _ (decide_quiet f sd tx conn facts unrun goal ep) Ed) as (e2 & T2 & R2);
    [|exists (e1 ++ e2); split; [by rewrite T2, T1, app_assoc|left; by rewrite runs_app, R1, R2, Q2, S1]].
  assert (Hfresh : fresh (rows_view w.1 ep) (at_approach (continued from planned))).
  { rewrite continued_approach, <- S1. apply (decide_fresh f sd tx conn facts goal ep w1). by rewrite Ed. }
  set (p := continued from planned) in *. clearbody p.
  next_step w3 ran Er; [|by unfold asked_host in Er; destruct (run_planned _ _)].
  destruct (run_trace _ _ _ _ Er) as [V3 T3].
  next_step w4 now Ec; [|by unfold asked_host in Ec; destruct (clock_now _)].
  pose proof (quiet_step_views _ _ _ _ (quiet_any _) Ec) as [Q4 _].
  pose proof (unrun_step _ _ _ _ clock_unrun Ec) as (e4 & T4 & R4).
  assert (V4 : rows_view w4.1 ep = rows_view w.1 ep) by by rewrite Q4, V3, Q2, S1.
  assert (Hsofar : trace w4 = trace w ++ (e1 ++ e2 ++ EvRan p ran :: e4) ∧ runs (e1 ++ e2 ++ EvRan p ran :: e4) = [(p, ran)]).
  { split; [rewrite T4, T3, T2, T1; by rewrite <- !app_assoc|]. rewrite !runs_app, R1, R2. cbn.
    change (omap _ e4) with (runs e4). by rewrite R4. }
  destruct Hsofar as [T R]. set (evs := e1 ++ e2 ++ EvRan p ran :: e4) in *. clearbody evs.
  clear Es Ed Er Ec T1 T2 T3 T4 R1 R2 R4 Q2 Q4 V3.
  next_step w5 closed Ec; pose proof (unrun_step _ _ _ _ (close_unrun _ _ _ _ _ _ _) Ec) as (e5 & T5 & R5).
  2:{ exists (evs ++ e5). split; [by rewrite T5, T, app_assoc|]. right. exists (p, ran).
      rewrite runs_app, R, R5. split; [done|]. split; [done|].
      match type of Ec with close _ _ _ _ ?g ?e ?n ?a ?gr ?rn ?nw ?w0 = _ =>
        pose proof (close_spec f tx conn budget g e n a gr rn nw w0) as Hc end.
      rewrite Ec in Hc. destruct Hc as [[_ [Hrow|(r & Hr & Hrow)]] _]; rewrite V4 in Hrow; [by right|left].
      rewrite Hrow, fmap_app. cbn. by rewrite Hr. }
  apply close_appends in Ec as (row & Hr & Hrow). rewrite V4 in Hrow.
  pose proof (tail_quiet views_kept goal closed p ran w5) as Hv.
  pose proof (tail_quiet unrun goal closed p ran w5) as Hu. unfold attempt_tail in Hv, Hu.
  destruct (ebind (score_lessons _ _) _ w5) as [w6 r]. destruct Hv as [Hv _]. destruct Hu as (e6 & T6 & R6).
  exists (evs ++ e5 ++ e6). cbn in Hv, T6. split; [by rewrite T6, T5, T, <- !app_assoc|]. right. exists (p, ran).
  rewrite !runs_app, R, R5, R6. split; [done|]. split; [done|]. left. rewrite Hv, Hrow, fmap_app. cbn. by rewrite Hr.
Qed.

(** The runs of the whole loop, against the rows it found. *)
Lemma run_runs goal ep fuel : ∀ carry w w' r,
  run_from f sd tx conn facts budget fuel ep goal carry w = Some (w', r) →
  ∃ evs, trace w' = trace w ++ evs ∧
    let tried := lr_approach_sig <$> rows_view w.1 ep in
    let ran := approach_run <$> runs evs in
    (NoDup (procedures tried) → NoDup (procedures (tried ++ ran))) ∧
    (lr_approach_sig <$> rows_view w'.1 ep = tried ++ ran ∨
     (∀ fin, r ≠ Ok fin) ∧ ∃ last, tried ++ ran = (lr_approach_sig <$> rows_view w'.1 ep) ++ [last]).
Proof.
  induction fuel as [|fuel IH]; intros carry w w' r; cbn [run_from]; [done|].
  pose proof (attempt_runs goal ep carry w) as Ha.
  destruct (attempt_continuing _ _ _ _ _ _ _ _ _ w) as [w1 [[c next]|e]]; destruct Ha as (evs & T & Ha).
  2:{ intros [= <- <-]. exists evs. split; [done|]. cbn zeta.
      destruct Ha as [(-> & -> & _)|(p & -> & Hf & Ha)]; cbn.
      - rewrite app_nil_r. auto.
      - split; [by apply procedures_snoc|]. destruct Ha as [->|[-> _]]; [by left|right]. split; [done|by eexists]. }
  destruct Ha as [(_ & _ & Hno)|(p & R & Hf & Ha)]; [by destruct (Hno (c, next))|].
  destruct Ha as [Ha|[_ Hno]]; [|by destruct (Hno (c, next))].
  assert (Hend : ∀ fin, Some (ebind (consolidate f tx conn goal ep (vd_satisfied (cl_verdict c))) (λ ls : list Lesson,
      ebind (on_ledger (episode ep)) (λ found,
        eret (fin ls (match found with Some r => ep_attempt r | None => 0%N end) : Finished))) w1) = Some (w', r) →
    ∃ evs, trace w' = trace w ++ evs ∧
    let tried := lr_approach_sig <$> rows_view w.1 ep in
    let ran := approach_run <$> runs evs in
    (NoDup (procedures tried) → NoDup (procedures (tried ++ ran))) ∧
    (lr_approach_sig <$> rows_view w'.1 ep = tried ++ ran ∨
     (∀ fin, r ≠ Ok fin) ∧ ∃ last, tried ++ ran = (lr_approach_sig <$> rows_view w'.1 ep) ++ [last])).
  { intros fin [= Hw].
    match type of Hw with ?m _ = _ => assert (quiet views_kept m ∧ quiet unrun m) as [Hv Hu] end.
    { split; repeat first [apply consolidate_quiet; apply _ | apply episode_quiet; apply _ | quiet_step
                          | solve [eauto with episode]]. }
    specialize (Hv w1). specialize (Hu w1). rewrite Hw in Hv, Hu. destruct Hv as [Hv _]. destruct Hu as (e2 & T2 & R2).
    exists (evs ++ e2). cbn in Hv, T2. rewrite T2, T, runs_app, R, R2, Hv, app_assoc. cbn. split; [done|].
    split; [by apply procedures_snoc|by left]. }
  destruct (cl_next c); [by apply (Hend (λ ls n, mkFinished _ n (cl_verdict c) ls))| |
                         by apply (Hend (λ ls n, mkFinished _ n (cl_verdict c) ls))].
  intros (e2 & T2 & Hnd & Hrows)%IH. exists (evs ++ e2). rewrite T2, T, app_assoc. split; [done|]. cbn zeta in *.
  rewrite runs_app, R, fmap_app. cbn [fmap list_fmap]. rewrite Ha, <- app_assoc in *. split; [|done].
  intros Hx. apply Hnd. by apply procedures_snoc.
Qed.

(** C14: an episode repeats nothing that cannot come out differently.  Take the
    approaches its rows already name ([tried]) and the ones the host is asked to
    run in one drive of the loop ([ran], from the record of the host's calls).
    Whatever the model answers and however the drive ends, no stored workflow
    occurs twice in [tried] and [ran] together and at most one errand does, if
    that held of [tried].  Every approach that was run is recorded in its order
    when the drive returns an answer; when it fails the last one alone can be
    missing (a judge that errs leaves no row).  No other episode's rows or record
    change. *)
Theorem approaches_not_repeated (fuel : nat) (ep : string) (goal : Goal_) (l l' : L) (h h' : HS) tr r :
  run_episode f sd tx conn facts budget fuel ep goal (l, (h, [])) = Some ((l', (h', tr)), r) →
  let tried := lr_approach_sig <$> rows_view l ep in
  let ran := approach_run <$> runs tr in
  (NoDup (procedures tried) → NoDup (procedures (tried ++ ran))) ∧
  (lr_approach_sig <$> rows_view l' ep = tried ++ ran ∨
   (∀ fin, r ≠ Ok fin) ∧ ∃ last, tried ++ ran = (lr_approach_sig <$> rows_view l' ep) ++ [last]) ∧
  ∀ ep', ep' ≠ ep → rows_view l' ep' = rows_view l ep' ∧ episode_view l' ep' = episode_view l ep'.
Proof.
  unfold run_episode. intros Hrun. pose proof (run_spec f sd tx conn facts budget goal ep fuel None (l, (h, []))) as Hs.
  rewrite Hrun in Hs. destruct Hs as (Ho & _). apply run_runs in Hrun as (evs & T & Hnd & Hrows).
  cbn in T. subst evs. auto.
Qed.

(** *** Repairs and continuations *)

Lemma ask_trace tier user w w' r : ask f tx conn tier user w = (w', r) → trace w' = trace w.
Proof.
  unfold ask, mbind, ep_bind. next_step w1 answer E; unfold on_host in E; cbn in E; unfold noting in E;
    destruct (complete _ _ _) as [h x]; injection E as <- _; [|intros [= <- _]; cbn; by rewrite app_nil_r].
  destruct (extract tx answer); intros [= <- _]; cbn; by rewrite app_nil_r.
Qed.

(** A variant a repair made, with the record of the parent it was made from: the
    parent edited, valid, without renames, under an id of its own. *)
Definition variant_of (parent_id : string) (parent record : WorkflowRecord) (ops : list GraphOp) : Prop :=
  apply_ops (wr_graph parent) ops = Ok (wr_graph record) ∧ ops ≠ [] ∧
  Forall (λ op, is_rename op = false) ops ∧ validate_graph f sd (wr_graph record) = [] ∧
  wr_id record = variant_id tx parent_id ops ∧ wr_source_path record = None ∧
  wr_enabled record = wr_enabled parent.

(** A repair reads the parent, and stores what it answers. *)
Lemma repair_trace goal verdict e parent_id w w' v :
  repair f sd tx conn goal verdict e parent_id w = (w', Ok (Some v)) →
  graph_is_suspect verdict e = true ∧ ∃ parent,
    trace w' = trace w ++ [EvRead parent_id (Some parent); EvSaved (va_record v)] ∧
    variant_of parent_id parent (va_record v) (va_ops v).
Proof.
  unfold repair, mbind, ep_bind. destruct (graph_is_suspect verdict e); cbn [negb]; [|done].
  next_step w1 found E1; [|done].
  assert (trace w1 = trace w ++ [EvRead parent_id found]) as T1.
  { unfold on_host in E1. cbn in E1. unfold noting in E1. destruct (store_get _ _) as [h [x|]]; [|done].
    by injection E1 as <- <-. }
  destruct found as [parent|]; [|done]. destruct (tx_pretty_graph tx _); [|done].
  next_step w2 answer E2; [|done]. apply ask_trace in E2.
  destruct (read_ops tx answer) as [[|op ops]|] eqn:Eo; [done| |done].
  destruct (apply_ops _ _) as [g|] eqn:Eg; [|done]. destruct (validate_graph f sd g) eqn:Ev; [|done]. cbv zeta.
  next_step w3 u3 E3; [|done].
  assert (trace w3 = trace w2) as T3.
  { unfold on_host in E3. cbn in E3. unfold noting in E3. destruct (check_graph _ _ _) as [h x].
    injection E3 as <- _. cbn. by rewrite app_nil_r. }
  next_step w4 u4 E4; [|done]. set (record := variant_record _ _ _ _ _ _) in *.
  assert (trace w4 = trace w3 ++ [EvSaved record]) as T4.
  { unfold on_host in E4. cbn in E4. unfold noting in E4. destruct (store_save _ _) as [h [x|]]; [|done].
    by injection E4 as <- _. }
  next_step w5 u5 E5; [|done]. unfold on_ledger in E5. destruct (link_variant _ _ _). injection E5 as <- _.
  intros [= <- <-]. cbn. split; [done|]. exists parent. rewrite T4, T3, E2, T1, <- app_assoc. split; [done|].
  unfold variant_of. cbn. split_and!; try done. by apply read_ops_no_rename in Eo.
Qed.

Lemma repair_if_trace goal closed planned ran w w' p :
  repair_if_the_graph_is_at_fault f sd tx conn goal closed planned ran w = (w', Ok (Some p)) →
  vd_satisfied (cl_verdict closed) = false ∧ ∃ parent_id why stopped parent record ops,
    trace w' = trace w ++ [EvRead parent_id (Some parent); EvSaved record] ∧
    at_approach planned = Selected parent_id why ∧ rn_resume ran = Some stopped ∧
    variant_of parent_id parent record ops ∧
    p = mkResumePoint (rp_thread stopped) (rp_failed_node stopped) (wr_id record) ∧
    may_continue (at_graph planned) (wr_graph record) (rp_failed_node p) ops = true.
Proof.
  unfold repair_if_the_graph_is_at_fault, mbind, ep_bind.
  destruct (vd_satisfied (cl_verdict closed)); [done|].
  destruct (at_approach planned) as [parent_id why| |]; [|done..]. destruct (negb _); [done|].
  next_step w1 repaired E; [|done]. unfold etry in E.
  destruct (repair _ _ _ _ _ _ _ _ _) as [w2 r] eqn:Er. injection E as <- <-.
  destruct r as [[v|]|e]; try done. apply repair_trace in Er as (_ & parent & T & Hv).
  destruct (rn_resume ran) as [stopped|]; [|done]. cbn. destruct (may_continue _ _ _ _) eqn:Em; [|done].
  intros [= <- <-]. split; [done|]. exists parent_id, why, stopped, parent, (va_record v), (va_ops v).
  by split_and!.
Qed.

(** C15: a run is continued only where that is sound.  When an attempt hands a
    continuation to the next one, then in the record of the host's calls: the
    attempt ran one planned approach, a stored workflow, which fell short and
    left a boundary at a failed node; afterwards the workflow was read from the
    store once more and the last thing stored is the variant made of it, which
    validates and renames nothing; the continuation names that variant and the
    boundary's thread and node; and if the workflow read is still the graph that
    ran, every node upstream of the failed one, the edges into it and the
    declared inputs are the same in both graphs. *)
Theorem continuation_sound ep goal from w w' c p :
  attempt_continuing f sd tx conn facts budget ep goal from w = (w', Ok (c, Some p)) →
  vd_satisfied (cl_verdict c) = false ∧
  ∃ before planned ran between parent_id why stopped parent record ops,
    trace w' = trace w ++ before ++ EvRan planned ran ::
                 between ++ [EvRead parent_id (Some parent); EvSaved record] ∧
    runs before = [] ∧ runs between = [] ∧
    at_approach planned = Selected parent_id why ∧ rn_resume ran = Some stopped ∧
    p = mkResumePoint (rp_thread stopped) (rp_failed_node stopped) (wr_id record) ∧
    variant_of parent_id parent record ops ∧
    (wr_graph parent = at_graph planned →
     ∀ a, a ∈ ancestors (at_graph planned) (rp_failed_node p) ∪ ancestors (wr_graph record) (rp_failed_node p) →
       nodes_of (wr_graph record) a = nodes_of (at_graph planned) a ∧
       edges_into (wr_graph record) a = edges_into (at_graph planned) a ∧
       wg_inputs (wr_graph record) = wg_inputs (at_graph planned)).
Proof.
  unfold attempt_continuing, mbind, ep_bind.
  next_step w1 started Es; [|done]. apply (unrun_step _ _ _ _ (start_unrun ep goal)) in Es as (e1 & T1 & R1).
  cbv zeta. next_step w2 planned0 Ed; [|done].
  apply (unrun_step _ _ _ _ (decide_quiet f sd tx conn facts unrun goal ep)) in Ed as (e2 & T2 & R2).
  set (planned := continued from planned0) in *. clearbody planned.
  next_step w3 ran Er; [|done]. apply run_trace in Er as [_ T3].
  next_step w4 now Ec; [|done]. apply (unrun_step _ _ _ _ clock_unrun) in Ec as (e4 & T4 & R4).
  next_step w5 closed Ec; [|done]. apply (unrun_step _ _ _ _ (close_unrun _ _ _ _ _ _ _)) in Ec as (e5 & T5 & R5).
  next_step w6 u E6; [|done].
  apply (unrun_step _ _ _ _ (score_lessons_quiet unrun _ _)) in E6 as (e6 & T6 & R6).
  destruct (vd_satisfied (cl_verdict closed)) eqn:Esat.
  { next_step w7 x E7; [|done]. unfold ebind in E7. destruct (keep_if_it_generalises _ _ _ _ _ _) as [w8 [y|]]; [|done].
    injection E7 as _ <-. by intros [=]. }
  next_step w7 next E7; [|done]. intros [= <- <- ->].
  apply repair_if_trace in E7 as (_ & parent_id & why & stopped & parent & record & ops & T7 & Happ & Hres & Hv & -> & Hmay).
  split; [done|]. exists (e1 ++ e2), planned, ran, (e4 ++ e5 ++ e6), parent_id, why, stopped, parent, record, ops.
  split_and!; try done.
  - rewrite T7, T6, T5, T4, T3, T2, T1. by rewrite <- !app_assoc.
  - by rewrite runs_app, R1, R2.
  - by rewrite !runs_app, R4, R5, R6.
  - intros Heq a Ha. destruct Hv as (Hops & _ & Hren & _). rewrite Heq in Hops.
    by destruct (prefix_kept _ _ _ _ Hops Hren Hmay a Ha) as (_ & ? & ? & ?).
Qed.

End Recorded.

(** ** An episode against a scripted host *)

(** The model answers from a script, the store is empty, the runner reports a
    finished run. *)
Definition scripted_ran : Ran :=
  mkRan (mkRunOutcome (json_object [("nodes", json_object [("errand", Str "42")])]) [] false)
    (mkDiagnosis [] [] [] []) "" None [] (S754_zero false) None.
#[export] Instance scripted : EpisodeHost (list value) := {
  complete _ _ := λ h, match h with v :: h => (h, Ok v) | [] => ([], Err "no reply") end;
  store_list := λ h, (h, Ok []);
  store_get _ := λ h, (h, Ok None);
  store_save _ := λ h, (h, Ok tt);
  check_graph _ _ := λ h, (h, Ok tt);
  run_planned _ := λ h, (h, scripted_ran);
  clock_now := λ h, (h, "2026-01-01T00:00:00Z")
}.
Definition plain_texts : Texts :=
  mkTexts tier_as_str (λ _, None) (λ _, "") (λ _, Ok "") (λ _ _ _, "") (λ _, "") (λ _, Err "no ops").
Definition sample_script : list value :=
  [json_object [("errand", Bool true); ("why", Str "one turn")]; json_object [("satisfied", Bool true)]].
Definition sample_run :=
  run_episode (L := MemoryLedger) sample_fmt no_serde plain_texts None facts_unknown budget_default 13 "ep" (goal_new "how much disk").

Lemma episode_ends_witness :
  ∃ w r, sample_run (memory_new, sample_script) = Some (w, r) ∧
    (fi_status <$> match r with Ok fin => Some fin | Err _ => None end) = Some EpSatisfied.
Proof.
  destruct (episode_ends sample_fmt no_serde plain_texts None facts_unknown budget_default 13 "ep"
              (goal_new "how much disk") (memory_new, sample_script)) as (w & r & Hrun & _); [vm_compute; lia|].
  exists w, r. split; [exact Hrun|].
  assert (Hr : (λ o, match o with Some (_, Ok fin) => Some (fi_status fin) | _ => None end)
                 (sample_run (memory_new, sample_script)) = Some EpSatisfied) by (vm_compute; reflexivity).
  unfold sample_run in Hr. rewrite Hrun in Hr. destruct r; exact Hr.
Defined.

Definition recorded_run :=
  run_episode (L := MemoryLedger) sample_fmt no_serde plain_texts None facts_unknown budget_default 13 "ep"
    (goal_new "how much disk") (memory_new, (sample_script, [])).

Lemma approaches_not_repeated_witness :
  match recorded_run with
  | Some ((_, (_, tr)), _) => (approach_run <$> runs tr) = ["errand"] ∧ NoDup (procedures (approach_run <$> runs tr))
  | None => False
  end.
Proof.
  destruct recorded_run as [[[l' [h' tr]] r]|] eqn:E; [|vm_compute in E; discriminate].
  destruct (approaches_not_repeated sample_fmt no_serde plain_texts None facts_unknown budget_default 13 "ep"
              (goal_new "how much disk") memory_new l' sample_script h' tr r E) as (Hnd & _).
  split; [|apply Hnd; vm_compute; constructor].
  assert (Hr : match recorded_run with
               | Some ((_, (_, tr)), _) => approach_run <$> runs tr | None => [] end = ["errand"])
    by (vm_compute; reflexivity).
  rewrite E in Hr. exact Hr.
Defined.

(** A stored chain is run, stops at its last node, and is repaired there. *)
Definition chain_record : WorkflowRecord :=
  mkWfRecord "chain" "chain" "fetch and post" true defaults_default chain None.
Definition stopped_ran : Ran :=
  mkRan (mkRunOutcome (json_object [("nodes", json_object [("fetch", Str "42")])]) [] false)
    (mkDiagnosis [] [] [] []) "" (Some "post failed") [] (S754_zero false) (Some (mkResumePoint "t-1" "post" "chain")).
Definition stocked : EpisodeHost (list value) := {|
  complete _ _ := λ h, match h with v :: h => (h, Ok v) | [] => ([], Err "no reply") end;
  store_list := λ h, (h, Ok [mkWfSummary "chain" "chain" "fetch and post" true 3 None []]);
  store_get _ := λ h, (h, Ok (Some chain_record));
  store_save _ := λ h, (h, Ok tt);
  check_graph _ _ := λ h, (h, Ok tt);
  run_planned _ := λ h, (h, stopped_ran);
  clock_now := λ h, (h, "2026-01-01T00:00:00Z")
|}.
Definition repair_texts : Texts :=
  mkTexts tier_as_str (λ _, None) (λ _, "") (λ _, Ok "") (λ _ _ _, "") (λ _, "ops") (λ _, Ok chain_fix).
Definition repair_script : list value :=
  [json_object [("workflow_id", Str "chain"); ("why", Str "it fits")];
   json_object [("satisfied", Bool false); ("blocker", Str "goal_not_met"); ("gap", Str "nothing posted");
                ("attributed_to", Str "post")];
   json_object [("ops", Array []); ("why", Str "say it again")]].
Definition repaired_attempt :=
  attempt_continuing (L := MemoryLedger) (EH := recorded (EpisodeHost0 := stocked)) sample_fmt no_serde repair_texts
    None facts_unknown budget_default "ep" (goal_new "post it") None (memory_new, (repair_script, [])).

Lemma continuation_sound_witness :
  match repaired_attempt with
  | (w, Ok (_, Some p)) =>
      rp_failed_node p = "post" ∧ ∃ parent record ops,
        EvRead "chain" (Some parent) ∈ w.2.2 ∧ EvSaved record ∈ w.2.2 ∧
        variant_of sample_fmt no_serde repair_texts "chain" parent record ops
  | _ => False
  end.
Proof.
  destruct repaired_attempt as [w [[c [p|]]|e]] eqn:E; [|vm_compute in E; discriminate..].
  destruct (continuation_sound sample_fmt no_serde repair_texts None facts_unknown budget_default
              "ep" (goal_new "post it") None (memory_new, (repair_script, [])) w c p E)
    as (_ & before & planned & ran & between & parent_id & why & stopped & parent & record & ops &
        T & _ & _ & _ & _ & Hp & Hv & _).
  assert (Hr : match repaired_attempt with
               | (w, Ok (_, Some p)) => Some (rp_failed_node p, last (omap (λ e, match e with EvRead id _ => Some id | _ => None end) w.2.2))
               | _ => None end = Some ("post", Some "chain")) by (vm_compute; reflexivity).
  rewrite E in Hr. injection Hr as Hf Hl. split; [exact Hf|]. exists parent, record, ops.
  rewrite T in Hl. cbn [fst snd app] in Hl. rewrite app_comm_cons, app_assoc, omap_app in Hl.
  match type of Hl with last (_ ++ ?x) = _ => change x with [parent_id] in Hl end. rewrite last_snoc in Hl.
  injection Hl as ->.
  assert (Hin : ∀ e, e ∈ [EvRead "chain" (Some parent); EvSaved record] → e ∈ w.2.2).
  { intros e He. rewrite T. apply elem_of_app. right. apply elem_of_app. right. right. apply elem_of_app. by right. }
  split_and!; [apply Hin; left|apply Hin; right; left|exact Hv].
Defined.

Lemma missing_blocker_stands_down_witness :
  decide_next budget_default (read_verdict (evidence_of scripted_ran)
    (json_object [("satisfied", Bool false); ("advanced", Bool true)])) 1 0 = NextStandDown "None — ".
Proof. apply (missing_blocker_stands_down budget_default (evidence_of scripted_ran) 1 0). reflexivity. Defined.

Lemma uncompiled_run_stands_down_witness :
  ∃ v, without_a_model (evidence_of (run_attempt sample_fmt
         (mkWorkflow 1 None "" [] [] [mkWfNode "a" Agent 1 "a" Null []] []) [] "" (DidNotCompile "bad"))) = Some v ∧
    vd_blocker v = MissingEvidence.
Proof.
  destruct (uncompiled_run_stands_down sample_fmt budget_default
    (mkWorkflow 1 None "" [] [] [mkWfNode "a" Agent 1 "a" Null []] []) (mkWfNode "a" Agent 1 "a" Null []) "bad" 1 0)
    as (v & Hv & _); [left|reflexivity|].
  exists v. split; [exact Hv|]. vm_compute in Hv. injection Hv as <-. reflexivity.
Defined.
