(* ===== verification/ReviewNodes.v ===== *)
(** * Waiting nodes: approval, spawn and gate

    [crates/tinyflows/src/nodes/integration/approval.rs] with
    [approval_request.rs], [spawn.rs] and [gate.rs], and the in-process task
    runner of [caps/tasks.rs].

    What an executor asks of a host is part of its result: an approval node
    returns the calls it made of the provider, a gate the tickets it polled.
    The provider answers each request through a function, a task runner each
    ticket. *)

From S2P Require Import Prelude Json GraphTypes Workflow WfAnalysis WfState WfBuild WfActivation.
From S2P Require Import Text Expr ControlNodes.

(** ** Reviews ([caps/approval.rs]) *)

Record ApprovalSubject := mkSubject { sub_kind : string; sub_value : value }.
Record ApprovalRequest := mkApproval {
  rq_request_id : string;
  rq_node_id : string;
  rq_run_id : option string;
  rq_title : option string;
  rq_prompt : option string;
  rq_subject : ApprovalSubject;
  rq_assignees : list string;
  rq_metadata : value
}.
Record ApprovalDecision := mkDecision {
  dc_approved : bool;
  dc_decided_by : option string;
  dc_comment : option string;
  dc_payload : option value
}.
Definition decision_approved : ApprovalDecision := mkDecision true None None None.
Definition decision_rejected (comment : option string) : ApprovalDecision :=
  mkDecision false None comment None.

Inductive ApprovalOutcome := Pending | Decided (d : ApprovalDecision).

Definition ApprovalProvider : Type := ApprovalRequest → result EngineError ApprovalOutcome.
Inductive ProviderCall := CallDecide (r : ApprovalRequest) | CallCancel (id reason : string).

(** ** The request ([approval_request.rs]) *)

Definition DEFAULT_SUBJECT_KIND : string := "json".

Definition approval_run_id (c : ExecContext) : option string :=
  match get "id" (ec_run c) >>? as_str with
  | Some id => Some id
  | None => get "run_id" (ec_run c) >>? as_str
  end.

Definition string_field (config : value) (key : string) : option string := get key config >>? as_str.

Section Approval.
Context (f : Fmt) (jq : string → value → option value).

Definition approval_error (c : ExecContext) (message : string) : EngineError :=
  ECapability ("approval node " +:+ fmt_debug f (nd_id (ec_node c)) +:+ ": " +:+ message).

Definition approval_request_id (c : ExecContext) (config : value) : result EngineError string :=
  match string_field config "request_id" with
  | Some explicit => Ok explicit
  | None =>
      match approval_run_id c with
      | Some run => Ok (run +:+ ":" +:+ nd_id (ec_node c))
      | None => Err (approval_error c ("no `request_id` configured and no run-scoped identity " +:+
          "available (expected `run.id` or `run.run_id`, which a host seeds outside the " +:+
          "caller-supplied trigger payload); set `config.request_id` explicitly or seed a run id, " +:+
          "otherwise later runs could reuse an earlier run's decision"))
      end
  end.

Definition approval_assignee (c : ExecContext) (v : value) : result EngineError string :=
  match as_str v with
  | Some handle => Ok handle
  | None => Err (approval_error c ("`assignees` entry " +:+ fmt_json f v +:+ " is not a string; a " +:+
      "reviewer handle that resolved to something else would be dropped and the review routed to " +:+
      "a smaller audience than authored"))
  end.

Definition approval_assignees (c : ExecContext) (config : value) : result EngineError (list string) :=
  match get "assignees" config with
  | None => Ok []
  | Some v =>
      match as_array v with
      | None => Err (approval_error c ("`assignees` resolved to " +:+ fmt_json f v +:+
                       ", not an array of strings"))
      | Some values =>
          let? assignees := fold_result (λ acc v, let? handle := approval_assignee c v in
                                                  Ok (acc ++ [handle])) [] values in
          match assignees with
          | [] => Err (approval_error c ("`assignees` resolved to an empty array; a review with " +:+
                         "nobody assigned can never be resolved"))
          | _ => Ok assignees
          end
      end
  end.

Definition approval_subject_value (c : ExecContext) (config : value) : value :=
  match get "subject" config with
  | Some subject => subject
  | None => first_json (ec_input c)
  end.

Definition build_request (c : ExecContext) (config : value) : result EngineError ApprovalRequest :=
  let? request_id := approval_request_id c config in
  let? assignees := approval_assignees c config in
  Ok (mkApproval request_id (nd_id (ec_node c)) (approval_run_id c)
        (string_field config "title") (string_field config "prompt")
        (mkSubject (default DEFAULT_SUBJECT_KIND (string_field config "subject_kind"))
           (approval_subject_value c config))
        assignees (default Null (get "metadata" config))).

(** ** Decisions already in hand *)

Definition names (list : option value) (r : ApprovalRequest) : bool :=
  match list >>? as_array with
  | Some ids => existsb (λ id, bool_decide (id = rq_node_id r ∨ id = rq_request_id r)) (omap as_str ids)
  | None => false
  end.

(** Whom a verdict object addresses: [node_id], else [request_id]. *)
Definition verdict_named (verdict : value) : option string :=
  match get "node_id" verdict with
  | Some v => as_str v
  | None => get "request_id" verdict >>? as_str
  end.

Definition decision_from_resume (resume : value) (r : ApprovalRequest) : option ApprovalDecision :=
  if names (get "rejected" resume) r then
    Some (decision_rejected (string_field resume "comment"))
  else if names (get "approved" resume) r then Some decision_approved
  else
    let verdict := default resume (get "decision" resume) in
    verdict_named verdict >>? λ named,
      if decide (named ≠ rq_node_id r ∧ named ≠ rq_request_id r) then None
      else (get "approved" verdict >>? as_bool) >>? λ approved,
        Some (mkDecision approved (string_field verdict "decided_by") (string_field verdict "comment")
                (get "payload" verdict)).

Definition delivered_decision (c : ExecContext) (r : ApprovalRequest) : option ApprovalDecision :=
  match ec_resume c >>? (λ resume, decision_from_resume resume r) with
  | Some d => Some d
  | None => if names (get "approvals" (ec_run c)) r then Some decision_approved else None
  end.

Definition decided_item (r : ApprovalRequest) (d : ApprovalDecision) (input : value) : Item :=
  item_new (json_object
    [("approved", Bool (dc_approved d));
     ("subject", default (sub_value (rq_subject r)) (dc_payload d));
     ("subject_kind", Str (sub_kind (rq_subject r)));
     ("edited", Bool (bool_decide (is_Some (dc_payload d))));
     ("decided_by", opt_str (dc_decided_by d)); ("comment", opt_str (dc_comment d));
     ("request_id", Str (rq_request_id r)); ("input", input)]).

Definition decision_meta (d : ApprovalDecision) (r : ApprovalRequest) : value :=
  json_object [("decision", json_object
    [("approved", Bool (dc_approved d)); ("decided_by", opt_str (dc_decided_by d));
     ("comment", opt_str (dc_comment d)); ("request_id", Str (rq_request_id r))])].

(** ** The node ([approval.rs]) *)

Definition APPROVAL_POLL_INTERVAL_MS : Z := 1000.
Definition APPROVAL_MAX_POLLS : Z := 60.

Inductive ApprovalWait := WaitSuspend | WaitPoll.
Definition approval_wait (config : value) : ApprovalWait :=
  if decide (string_field config "wait_mode" = Some "poll") then WaitPoll else WaitSuspend.

Inductive OnReject := RejectRoute | RejectError | RejectDrop.
Definition on_reject (config : value) : OnReject :=
  if decide (string_field config "on_reject" = Some "error") then RejectError
  else if decide (string_field config "on_reject" = Some "drop") then RejectDrop
  else RejectRoute.

Inductive ApprovalTimeout := TimeoutError | TimeoutReject | TimeoutRoute.
Definition approval_timeout (config : value) : ApprovalTimeout :=
  if decide (string_field config "on_timeout" = Some "reject") then TimeoutReject
  else if decide (string_field config "on_timeout" = Some "route") then TimeoutRoute
  else TimeoutError.

Definition positive_or (config : value) (key : string) (dflt : Z) : Z :=
  default dflt (positive_u64 key config).

Definition recorded_polls (c : ExecContext) : Z :=
  default 0%Z (get (nd_id (ec_node c)) (ec_nodes c) >>? get POLLS_KEY >>? as_u64).

(** The calls of the provider an activation makes, in order; withdrawing is best
    effort, so its answer is not read. *)
Definition withdraw (provider : option ApprovalProvider) (id reason : string) : list ProviderCall :=
  match provider with Some _ => [CallCancel id reason] | None => [] end.

Definition suspend_payload (c : ExecContext) (r : ApprovalRequest) : value :=
  json_object
    [("kind", Str "approval"); ("node", Str (nd_id (ec_node c)));
     ("request_id", Str (rq_request_id r)); ("title", opt_str (rq_title r));
     ("prompt", opt_str (rq_prompt r)); ("subject", sub_value (rq_subject r));
     ("subject_kind", Str (sub_kind (rq_subject r))); ("assignees", json_strings (rq_assignees r));
     ("metadata", rq_metadata r)].

Definition timed_out_item (c : ExecContext) (r : ApprovalRequest) (comment : string) : Item :=
  item_new (json_object
    [("approved", Bool false); ("timed_out", Bool true); ("request_id", Str (rq_request_id r));
     ("subject", sub_value (rq_subject r)); ("subject_kind", Str (sub_kind (rq_subject r)));
     ("edited", Bool false); ("decided_by", Null); ("comment", Str comment);
     ("input", first_json (ec_input c))]).

Definition timed_out_meta (polls : Z) (r : ApprovalRequest) (comment : string) : value :=
  json_object
    [(POLLS_KEY, value_of_i64 (polls + 1)); ("request_id", Str (rq_request_id r));
     ("decision", json_object
        [("approved", Bool false); ("timed_out", Bool true); ("decided_by", Null);
         ("comment", Str comment); ("request_id", Str (rq_request_id r))])].

Definition approval_spent (c : ExecContext) (config : value) (r : ApprovalRequest) (polls max_polls : Z)
    : result EngineError NodeOutput :=
  let comment := "no decision after " +:+ pretty max_polls +:+ " polls" in
  let item := timed_out_item c r comment in
  let meta := timed_out_meta polls r comment in
  match approval_timeout config with
  | TimeoutError => Err (approval_error c ("no decision after " +:+ pretty max_polls +:+
      " polls; raise `max_polls`/`poll_interval_ms`, switch to `wait_mode: " +:+ quoted "suspend" +:+
      "`, or wire a `timeout` port"))
  | TimeoutRoute => Ok (with_meta (output_routed [item] "timeout") meta)
  | TimeoutReject =>
      match on_reject config with
      | RejectRoute => Ok (with_meta (output_routed [item] "rejected") meta)
      | RejectDrop => Ok (with_meta empty_output meta)
      | RejectError => Err (approval_error c ("no decision after " +:+ pretty max_polls +:+
          " polls, and `on_timeout: " +:+ quoted "reject" +:+ "` with `on_reject: " +:+
          quoted "error" +:+ "` fails the node"))
      end
  end.

Definition approval_waits (provider : option ApprovalProvider) (c : ExecContext) (config : value)
    (r : ApprovalRequest) : list ProviderCall * result EngineError NodeOutput :=
  match approval_wait config with
  | WaitSuspend => ([], Ok (interrupt_output (nd_id (ec_node c)) (suspend_payload c r)))
  | WaitPoll =>
      let polls := recorded_polls c in
      let max_polls := positive_or config "max_polls" APPROVAL_MAX_POLLS in
      if decide (polls + 1 < max_polls)%Z then
        ([], Ok (reenter_after (positive_or config "poll_interval_ms" APPROVAL_POLL_INTERVAL_MS)
                   (json_object [(POLLS_KEY, value_of_i64 (polls + 1));
                                 ("request_id", Str (rq_request_id r))])))
      else
        (withdraw provider (rq_request_id r) "approval node timed out",
         approval_spent c config r polls max_polls)
  end.

Definition approval_settled (c : ExecContext) (config : value) (r : ApprovalRequest)
    (d : ApprovalDecision) : result EngineError NodeOutput :=
  let meta := decision_meta d r in
  let item := decided_item r d (first_json (ec_input c)) in
  if dc_approved d then Ok (with_meta (output_routed [item] "approved") meta)
  else
    match on_reject config with
    | RejectRoute => Ok (with_meta (output_routed [item] "rejected") meta)
    | RejectDrop => Ok (with_meta empty_output meta)
    | RejectError => Err (approval_error c ("rejected by " +:+
        default "a reviewer" (dc_decided_by d) +:+
        match dc_comment d with Some comment => " (" +:+ comment +:+ ")" | None => "" end))
    end.

Definition execute_approval (provider : option ApprovalProvider) (c : ExecContext)
    : list ProviderCall * result EngineError NodeOutput :=
  let config := resolve jq (nd_config (ec_node c)) (expr_scope c) in
  match build_request c config with
  | Err e => ([], Err e)
  | Ok r =>
      match delivered_decision c r with
      | Some d => (withdraw provider (rq_request_id r) "resolved via resume",
                   approval_settled c config r d)
      | None =>
          match provider with
          | None => approval_waits None c config r
          | Some decide_review =>
              match decide_review r with
              | Err e => ([CallDecide r], Err e)
              | Ok (Decided d) => ([CallDecide r], approval_settled c config r d)
              | Ok Pending =>
                  let w := approval_waits (Some decide_review) c config r in
                  (CallDecide r :: w.1, w.2)
              end
          end
      end
  end.
End Approval.

(** ** Tasks ([caps/tasks.rs]) *)

Inductive TaskSpec :=
| TaskWorkflow (graph input : value)
| TaskTool (slug : string) (args : value)
| TaskHttp (request : value).

Inductive TaskState := TaskPending | TaskRunning | TaskDone (v : value) | TaskFailed (message : string).

Definition is_settled (s : TaskState) : bool :=
  match s with TaskDone _ | TaskFailed _ => true | TaskPending | TaskRunning => false end.

(** *** The in-process runner *)

Record TaskRunner := mkTaskRunner { tr_tasks : gmap string TaskState; tr_next : N }.
Definition task_runner_new : TaskRunner := mkTaskRunner ∅ 0.

Definition ticket_name (n : N) : string := "task-" +:+ pretty n.

(** [start] under a tokio runtime. *)
Definition task_start (r : TaskRunner) : TaskRunner * string :=
  let n := (tr_next r + 1)%N in
  (mkTaskRunner (<[ticket_name n := TaskPending]> (tr_tasks r)) n, ticket_name n).

Definition task_poll (f : Fmt) (r : TaskRunner) (ticket : string) : result EngineError TaskState :=
  ok_or (tr_tasks r !! ticket) (ECapability ("unknown task ticket " +:+ fmt_debug f ticket)).

(** The write of a settled or unsettled state: a settled task stays. *)
Definition task_set (r : TaskRunner) (ticket : string) (next : TaskState) : TaskRunner :=
  match tr_tasks r !! ticket with
  | Some s => if is_settled s then r else mkTaskRunner (<[ticket := next]> (tr_tasks r)) (tr_next r)
  | None => r
  end.

(** The two writes of the spawned worker. *)
Definition task_begin (r : TaskRunner) (ticket : string) : TaskRunner := task_set r ticket TaskRunning.
Definition task_finish (f : Fmt) (r : TaskRunner) (ticket : string) (res : result EngineError value)
    : TaskRunner :=
  task_set r ticket (match res with
                     | Ok v => TaskDone v
                     | Err e => TaskFailed (engine_error_to_string f e)
                     end).

Definition task_cancel (f : Fmt) (r : TaskRunner) (ticket : string) : TaskRunner * result EngineError unit :=
  match task_poll f r ticket with
  | Err e => (r, Err e)
  | Ok _ => (task_set r ticket (TaskFailed "cancelled"), Ok tt)
  end.

Definition record_spec (s : TaskSpec) : value :=
  match s with
  | TaskWorkflow graph input =>
      json_object [("spec", Str "workflow"); ("graph", graph); ("input", input)]
  | TaskTool slug args => json_object [("spec", Str "tool"); ("slug", Str slug); ("args", args)]
  | TaskHttp request => json_object [("spec", Str "http"); ("request", request)]
  end.

(** ** Spawn ([spawn.rs]) *)

Definition TICKET_KEY : string := "ticket".

Section Tasks.
Context (f : Fmt) (jq : string → value → option value).

Definition spawn_error (node_id message : string) : EngineError :=
  ECapability ("spawn node " +:+ fmt_debug f node_id +:+ ": " +:+ message).

Definition spec_from_config (config : value) (node_id : string) : result EngineError TaskSpec :=
  match string_field config "target" with
  | None => Err (spawn_error node_id "missing `target` (workflow, tool or http)")
  | Some target =>
      if decide (target = "workflow") then
        match get "workflow" config with
        | Some graph => Ok (TaskWorkflow graph (default Null (get "input" config)))
        | None => Err (spawn_error node_id ("`target: " +:+ quoted "workflow" +:+
                         "` needs a `workflow` graph"))
        end
      else if decide (target = "tool") then
        match string_field config "slug" with
        | Some slug => Ok (TaskTool slug (default Null (get "args" config)))
        | None => Err (spawn_error node_id ("`target: " +:+ quoted "tool" +:+ "` needs a `slug`"))
        end
      else if decide (target = "http") then Ok (TaskHttp (default Null (get "request" config)))
      else Err (spawn_error node_id ("unknown `target` " +:+ fmt_debug f target +:+
                  "; expected workflow, tool or http"))
  end.

(** [runner] starts a task and returns its ticket; without one [inline]
    performs it. *)
Definition execute_spawn (runner : option (TaskSpec → result EngineError string))
    (inline : TaskSpec → result EngineError value) (c : ExecContext) : result EngineError NodeOutput :=
  let id := nd_id (ec_node c) in
  let? spec := spec_from_config (nd_config (ec_node c)) id in
  let? item :=
    match runner with
    | Some start =>
        let? ticket := start spec in
        Ok (item_new (json_object [(TICKET_KEY, Str ticket); ("spawn", Str id);
                                   ("started_at_step", value_of_nat (ec_step c))]))
    | None =>
        let? res := inline spec in
        Ok (item_new (json_object [(TICKET_KEY, Null); ("spawn", Str id);
              ("started_at_step", value_of_nat (ec_step c)); ("inline", Bool true); ("result", res)]))
    end in
  Ok (output_main [item]).

Definition inline_result (item : value) : option TaskState :=
  if default false (get "inline" item >>? as_bool)
  then Some (TaskDone (default Null (get "result" item))) else None.

(** ** Gate ([gate.rs]) *)

Definition GATE_POLL_INTERVAL_MS : Z := 250.
Definition GATE_MAX_POLLS : Z := 200.

Inductive GateWait := GatePoll | GateSuspend.
Definition gate_wait (config : value) : GateWait :=
  if decide (string_field config "wait_mode" = Some "suspend") then GateSuspend else GatePoll.

Inductive GateTimeout := GatePartial | GateError | GateRoute.
Definition gate_timeout (config : value) : GateTimeout :=
  if decide (string_field config "on_timeout" = Some "partial") then GatePartial
  else if decide (string_field config "on_timeout" = Some "route") then GateRoute
  else GateError.

Record Awaited := mkAwaited { aw_ticket : option string; aw_settled : option TaskState }.

Definition awaited_item (item : value) : Awaited :=
  let json := default Null (get "json" item) in
  mkAwaited (get TICKET_KEY json >>? as_str) (inline_result json).

Definition awaited_from (c : ExecContext) (source : string) : list Awaited :=
  match get source (ec_nodes c) >>? get "items" >>? as_array with
  | Some items => awaited_item <$> items
  | None => []
  end.

Definition awaited (c : ExecContext) : result EngineError (list Awaited) :=
  let config := nd_config (ec_node c) in
  match get "from" config >>? as_array with
  | Some from => Ok (concat (awaited_from c <$> omap as_str from))
  | None =>
      match get "tickets" config with
      | None => Err (ECapability ("gate node " +:+ fmt_debug f (nd_id (ec_node c)) +:+
                  ": needs `from` (spawn node ids) or `tickets` (an expression)"))
      | Some raw =>
          let ids := match evaluate_if_expression jq raw (expr_scope c) with
                     | Array values => values
                     | Null => []
                     | single => [single]
                     end in
          Ok ((λ ticket, mkAwaited (Some ticket) None) <$> omap as_str ids)
      end
  end.

Definition delivered_results (c : ExecContext) : list (string * value) :=
  default [] (ec_resume c >>? get "delivered" >>? as_object).

(** Where one awaited task stands: in hand, delivered by a resume, or as the
    runner says. *)
Definition awaited_state (poll : option (string → result EngineError TaskState)) (c : ExecContext)
    (a : Awaited) : result EngineError (option TaskState) :=
  match aw_settled a with
  | Some s => Ok (Some s)
  | None =>
      match aw_ticket a with
      | None => Ok None
      | Some ticket =>
          match obj_get ticket (delivered_results c) with
          | Some v => Ok (Some (TaskDone v))
          | None =>
              match poll with
              | Some poll => let? s := poll ticket in Ok (Some s)
              | None => Err (ECapability ("gate node " +:+ fmt_debug f (nd_id (ec_node c)) +:+
                  ": waiting on ticket " +:+ fmt_debug f ticket +:+ " but no TaskRunner is " +:+
                  "injected; the spawn that made it must have used one"))
              end
          end
      end
  end.

Definition failed_result (message : string) : value :=
  json_object [("failed", Bool true); ("error", Str message)].

(** The collected results with their positions, and how many failed. *)
Fixpoint gate_results (poll : option (string → result EngineError TaskState)) (c : ExecContext)
    (index : nat) (l : list Awaited) : result EngineError (list (nat * value) * nat) :=
  match l with
  | [] => Ok ([], 0)
  | a :: rest =>
      let? s := awaited_state poll c a in
      let? r := gate_results poll c (S index) rest in
      Ok (match s with
          | Some (TaskDone v) => ((index, v) :: r.1, r.2)
          | Some (TaskFailed message) => ((index, failed_result message) :: r.1, S r.2)
          | _ => r
          end)
  end.

Fixpoint insert_result (r : nat * value) (l : list (nat * value)) : list (nat * value) :=
  match l with
  | [] => [r]
  | x :: rest => if decide (r.1 ≤ x.1) then r :: l else x :: insert_result r rest
  end.
Definition gate_items (results : list (nat * value)) : list Item :=
  (λ r, paired_with (item_new r.2) r.1) <$> foldr insert_result [] results.

Definition execute_gate (poll : option (string → result EngineError TaskState)) (c : ExecContext)
    : result EngineError NodeOutput :=
  let config := nd_config (ec_node c) in
  let id := nd_id (ec_node c) in
  let? policy := release_from_config f config id in
  let? awaiting := awaited c in
  let expected := length awaiting in
  let polls := recorded_polls c in
  let max_polls := positive_or config "max_polls" GATE_MAX_POLLS in
  let? collected := gate_results poll c 0 awaiting in
  let results := collected.1 in
  let meta := json_object
    [(POLLS_KEY, value_of_i64 (polls + 1)); ("arrived", value_of_nat (length results));
     ("expected", value_of_nat expected); ("failed", value_of_nat collected.2)] in
  match release_evaluate policy (Z.of_nat (length results)) (Z.of_nat expected)
          (bool_decide (max_polls ≤ polls)%Z) with
  | Wait =>
      match gate_wait config with
      | GateSuspend => Ok (interrupt_output id (json_object
          [("kind", Str "await"); ("node", Str id);
           ("tickets", json_strings (omap aw_ticket awaiting));
           ("arrived", value_of_nat (length results)); ("expected", value_of_nat expected)]))
      | GatePoll => Ok (reenter_after (positive_or config "poll_interval_ms" GATE_POLL_INTERVAL_MS) meta)
      end
  | Timeout =>
      match gate_timeout config with
      | GateError => Err (ECapability ("gate node " +:+ fmt_debug f id +:+ ": timed out after " +:+
          pretty max_polls +:+ " polls with " +:+ pretty (length results) +:+ " of " +:+
          pretty expected +:+ " results; raise `max_polls`/`poll_interval_ms`, relax `release`, " +:+
          "or wire a `timeout` port"))
      | GateRoute => Ok (with_meta (output_routed (gate_items results) "timeout") meta)
      | GatePartial => Ok (with_meta (output_main (gate_items results)) meta)
      end
  | Emit => Ok (with_meta (output_main (gate_items results)) meta)
  end.
End Tasks.
