(* ===== verification/SubWorkflow.v ===== *)
(** * The [sub_workflow] node

    [crates/tinyflows/src/nodes/integration/sub_workflow.rs] and
    [sub_workflow/execution.rs]: which child a node runs, with which input,
    approvals, depth and workspace, and what the node makes of the child's
    outcome.

    What a child run is started with is the record [ChildCall]; the run itself
    ([engine::run_sub_workflow]) is the argument [engine], the decoder of an
    inline graph [de_graph], the host's lookup of saved workflows [resolver].
    [token i] is what the parent's cancellation token says after child [i],
    [token_end] what it says after all of them. *)

From S2P Require Import Prelude Json GraphTypes Workflow WfAnalysis WfState WfBuild WfActivation.
From S2P Require Import Text Expr Postcondition WfConfig ControlNodes AgentRequest MapItems EngineRun.
From Stdlib Require String.

Definition MAX_SUB_WORKFLOW_DEPTH : Z := 8.
Definition GATE_NAMESPACE : string := "::".

Definition namespaced_gate (node_id gate : string) : string := node_id +:+ GATE_NAMESPACE +:+ gate.

(** [sort] and [dedup] of strings. *)
Fixpoint insert_string (x : string) (l : list string) : list string :=
  match l with
  | [] => [x]
  | y :: rest => if String.leb x y then x :: l else y :: insert_string x rest
  end.
Definition sort_strings (l : list string) : list string := foldr insert_string [] l.
Fixpoint dedup_strings (l : list string) : list string :=
  match l with
  | x :: ((y :: _) as rest) => if decide (x = y) then dedup_strings rest else x :: dedup_strings rest
  | l => l
  end.

Definition strip_gates (node_id : string) (ids : option value) : list string :=
  omap (strip_prefix (node_id +:+ GATE_NAMESPACE)) (listed_strings ids).

Definition approvals_for_child (c : ExecContext) : list string :=
  let id := nd_id (ec_node c) in
  dedup_strings (sort_strings
    (strip_gates id (get "trigger" (ec_run c) >>? get "approvals") ++
     strip_gates id (ec_resume c >>? get "approved"))).

Definition current_depth (run : value) : Z := default 0%Z (get "sub_workflow_depth" run >>? as_u64).

Definition nesting_cap (run : value) : Z :=
  default MAX_SUB_WORKFLOW_DEPTH (positive_u64 "max_sub_workflow_depth" run).

Definition references (child : WorkflowGraph) (workflow_id : string) : bool :=
  existsb (λ n, bool_decide ((get "workflow_id" (nd_config n) >>? as_str) = Some workflow_id))
    (filter (λ n, nd_kind n = SubWorkflow) (wg_nodes child)).

(** What [run_sub_workflow] is called with. *)
Record ChildCall := mkChildCall {
  cc_graph : WorkflowGraph;
  cc_input : RunInput;
  cc_depth : Z;
  cc_max_depth : Z;
  cc_workspace : option string
}.

Inductive ChildOutcome :=
| ChildFinished (item : Item)
| ChildCancelled
| ChildPaused (gates : list string).

Section SubWorkflow.
Context (f : Fmt) (jq : string → value → option value) (sd : Serde).
Context (de_graph : value → result string WorkflowGraph).
Context (resolver : string → result EngineError WorkflowGraph).
Context (fs : Fs) (managed : option (string → string → WorkdirCheck)).

Definition inline_child (workflow : value) : result EngineError WorkflowGraph :=
  match de_graph workflow with
  | Ok g => Ok g
  | Err e => Err (ECapability ("sub_workflow node: invalid workflow: " +:+ e))
  end.

Definition reject_self_reference (child : WorkflowGraph) (workflow_id : string)
    : result EngineError unit :=
  if references child workflow_id
  then Err (ECapability ("sub_workflow node: workflow_id " +:+ fmt_debug f workflow_id +:+
              " references itself (cycle)"))
  else Ok tt.

Definition child_inputs (config scope : value) : result EngineError (list (string * value)) :=
  match get "inputs" config with
  | None => Ok []
  | Some declared =>
      match as_object declared with
      | None => Err (ECapability ("sub_workflow node: `inputs` must be an object mapping the " +:+
                  "child's declared input names to values"))
      | Some fields => Ok ((λ kv, (kv.1, resolve jq kv.2 scope)) <$> fields)
      end
  end.

Definition child_workspace (c : ExecContext) (scope : value) : result EngineError (option string) :=
  let id := nd_id (ec_node c) in
  match opt_value (get "workspace" (nd_config (ec_node c))) with
  | None => Ok (run_workspace (ec_run c))
  | Some declared =>
      match as_str (resolve jq declared scope) with
      | None => Err (ECapability ("sub_workflow node " +:+ id +:+ ": `workspace` must be a string"))
      | Some raw =>
          if decide (trim raw = "")
          then Err (ECapability ("sub_workflow node " +:+ id +:+
                      ": `workspace` must be a non-empty path when present"))
          else
            let? dir := resolve_node_dir fs managed (ec_run c) raw "config.workspace"
                          ("sub_workflow node " +:+ id) in
            Ok (Some dir)
      end
  end.

(** [crate::compiler::compile]. *)
Definition compile_workflow (g : WorkflowGraph) : result EngineError WorkflowGraph :=
  match validate_graph f sd g with
  | [] => Ok g
  | e :: _ => Err (EValidation e)
  end.

(** Exactly one of an inline graph and a saved workflow. *)
Definition child_graph (c : ExecContext) (scope : value) : result EngineError WorkflowGraph :=
  let config := nd_config (ec_node c) in
  let id := match get "workflow_id" config with
            | Some v => match as_str (resolve jq v scope) with
                        | Some s => if decide (s = "") then None else Some s
                        | None => None
                        end
            | None => None
            end in
  match get "workflow" config, id with
  | Some _, Some _ => Err (ECapability ("sub_workflow node: set exactly one of `workflow` (inline) " +:+
                        "or `workflow_id` (reference), not both"))
  | None, None => Err (ECapability ("sub_workflow node: missing `workflow` (inline) or " +:+
                    "`workflow_id` (reference) in config"))
  | Some inline, None => inline_child inline
  | None, Some id =>
      let? child := resolver id in
      let? _ := reject_self_reference child id in
      Ok child
  end.

(** The checks of [run_child] up to the child's run. *)
Definition child_call (c : ExecContext) (scope : value) (input : list Item)
    : result EngineError ChildCall :=
  let? child := child_graph c scope in
  let depth := (current_depth (ec_run c) + 1)%Z in
  let cap := nesting_cap (ec_run c) in
  if decide (cap < depth)%Z
  then Err (ECapability ("sub_workflow node: maximum nesting depth " +:+ pretty cap +:+
              " exceeded (possible cycle)"))
  else
    let? compiled := compile_workflow child in
    let? inputs := child_inputs (nd_config (ec_node c)) scope in
    let? workspace := child_workspace c scope in
    Ok (mkChildCall compiled
          (with_approvals (with_inputs (run_input (items_to_value input)) inputs)
             (approvals_for_child c))
          depth cap workspace).

Section Run.
Context (engine : ChildCall → result EngineError RunOutcome).

Definition run_child (c : ExecContext) (token : bool) (scope : value) (input : list Item)
    : result EngineError ChildOutcome :=
  let? call := child_call c scope input in
  let? outcome := engine call in
  match ro_pending_approvals outcome with
  | [] =>
      if ro_cancelled outcome then
        if token then Ok ChildCancelled
        else Err (ECapability ("sub_workflow node " +:+ fmt_debug f (nd_id (ec_node c)) +:+
                    ": child run was cancelled before completing; the parent run is halted " +:+
                    "rather than falsely completed"))
      else Ok (ChildFinished (item_new (ro_output outcome)))
  | gates => Ok (ChildPaused (namespaced_gate (nd_id (ec_node c)) <$> gates))
  end.

Definition PAUSED_MARKER : string := "_sub_workflow_paused".

Definition pause_for_child_gates (node_id : string) (gates : list string) : NodeOutput :=
  interrupt_output (default node_id (head gates))
    (json_object [("kind", Str "sub_workflow_approval"); ("node", Str node_id);
                  ("pending", json_strings gates)]).

Definition child_item (o : ChildOutcome) : Item :=
  match o with
  | ChildFinished item => item
  | ChildCancelled => item_new Null
  | ChildPaused gates => item_new (json_object [(PAUSED_MARKER, json_strings gates)])
  end.

Definition paused_gates (items : list Item) : list string :=
  concat ((λ item, listed_strings (get PAUSED_MARKER (it_json item))) <$> items).

Definition child_body (c : ExecContext) (token : nat → bool) (index : nat)
    : result EngineError MappedItem :=
  match ec_input c !! index with
  | None => Err (ECapability "")
  | Some item =>
      let? child := run_child c (token index) (expr_scope_for c (it_json item)) [item] in
      Ok (child_item child, [])
  end.

Definition execute_sub_workflow (token : nat → bool) (token_end : bool) (order : list nat)
    (c : ExecContext) : result EngineError NodeOutput :=
  let id := nd_id (ec_node c) in
  let config := nd_config (ec_node c) in
  match execution_mode config Once, ec_input c with
  | PerItem, _ :: _ =>
      let? mapped := map_items f (mo_on_item_error (map_options config (ec_run c)))
                       (child_body c token) (length (ec_input c)) order in
      if token_end then Ok empty_output
      else
        match paused_gates mapped.1 with
        | [] => Ok (output_main mapped.1)
        | gates => Ok (pause_for_child_gates id gates)
        end
  | _, _ =>
      let? child := run_child c token_end (expr_scope c) (ec_input c) in
      Ok (match child with
          | ChildFinished item => output_main [item]
          | ChildCancelled => empty_output
          | ChildPaused gates => pause_for_child_gates id gates
          end)
  end.
End Run.
End SubWorkflow.
