(* ===== verification/Compat.v ===== *)
(** * Documents the engine cannot run

    [crates/tinyflows/src/compat.rs] and [compat/referenced.rs]: the refusal of
    topologies the fan-in lowering would run wrong, in a graph, its inline
    children and the saved workflows it refers to; and
    [crates/tinyflows/src/migrate.rs]: bringing a stored document to the current
    schema and naming the member a decoding error came from.

    The decoders of [serde_json] and the host's lookup of saved workflows are
    arguments.  Depths are natural numbers; sets of ports are lists without
    duplicates. *)

From S2P Require Import Prelude Json GraphTypes Search Workflow WfAnalysis WfState Text Postcondition WfConfig SubWorkflow.

(** ** Searches ([compat.rs]) *)

Definition ports_of (g : WorkflowGraph) (node : string) : list string :=
  remove_dups (from_port <$> outgoing g node).

Definition is_router (n : Node) : bool := bool_decide (nd_kind n = Condition ∨ nd_kind n = Switch).

Definition is_branching_node (g : WorkflowGraph) (node : string) : bool :=
  existsb (λ n, bool_decide (nd_id n = node) && is_router n) (wg_nodes g) ||
  bool_decide (2 ≤ length (ports_of g node)).

(** What an unconditional walk pushes: nothing beyond a branching node. *)
Definition plain_successors (g : WorkflowGraph) (node : string) : list string :=
  if is_branching_node g node then [] else main_successors g node.

Definition reaches_on_main_edges (g : WorkflowGraph) (from to stop : string) : bool :=
  if decide (from = to) then true
  else
    search_total (λ n, bool_decide (n = to)) (stopping stop (plain_successors g)) (edge_sources g)
      (reverse (plain_successors g from)).

Definition compat_reaches_via_port (g : WorkflowGraph) (brancher port target stop : string) : bool :=
  search_total (λ n, bool_decide (n = target)) (stopping stop (successors g)) (edge_sources g)
    (reverse (port_successors g brancher port)).

Definition reaches_deterministically_via_port (g : WorkflowGraph) (brancher port target stop : string) : bool :=
  existsb (λ e, reaches_on_main_edges g (to_node e) target stop)
    (filter (λ e, from_node e = brancher ∧ from_port e = port) (wg_edges g)).

(** ** The refusals ([compat.rs]) *)

Record CompatibilityError := mkCompat { ce_code : string; ce_message : string; ce_node_id : option string }.

Definition UNSUPPORTED_NESTED_CONDITIONAL_FAN_IN : string := "unsupported_nested_conditional_fan_in".
Definition UNSUPPORTED_MAIN_PORT_CONDITIONAL_FAN_IN : string := "unsupported_main_port_conditional_fan_in".

Definition fan_in_sources (g : WorkflowGraph) (loop_edges : gset (string * string)) (fan_in : string) : list string :=
  from_node <$> filter (λ e, to_node e = fan_in ∧ (from_node e, to_node e) ∉ loop_edges) (wg_edges g).

Definition choices_exhaustive (candidate : Node) (ports : list string) : bool :=
  match nd_kind candidate with
  | Condition => bool_decide ("true" ∈ ports) && bool_decide ("false" ∈ ports)
  | Switch => bool_decide ("default" ∈ ports)
  | _ => true
  end.

(** Whether a candidate decides if the predecessor runs ([None] when not), and
    whether it may do so through a port called [main]. *)
Definition controls (g : WorkflowGraph) (fan_in predecessor : string) (candidate : Node) : option bool :=
  let ports := ports_of g (nd_id candidate) in
  if bool_decide (length ports < 2) && negb (is_router candidate) then None
  else
    let target := if decide (nd_id candidate = predecessor) then fan_in else predecessor in
    let reaches port := compat_reaches_via_port g (nd_id candidate) port target fan_in in
    let provable := if is_router candidate then choices_exhaustive candidate ports
                    else bool_decide (2 ≤ length ports) in
    let every := provable &&
      forallb (λ port, reaches_deterministically_via_port g (nd_id candidate) port target fan_in) ports in
    if existsb reaches ports && negb every
    then Some (bool_decide ("main" ∈ ports) && reaches "main") else None.

Definition fan_in_error (g : WorkflowGraph) (trigger_id fan_in predecessor : string) : option CompatibilityError :=
  if negb (is_branching_node g predecessor) && reaches_on_main_edges g trigger_id predecessor fan_in then None
  else
    let controlling := omap (controls g fan_in predecessor) (wg_nodes g) in
    let refuse code routing_kind :=
      Some (mkCompat code
        ("Fan-in node '" +:+ fan_in +:+ "' has predecessor '" +:+ predecessor +:+ "' behind " +:+ routing_kind +:+
         "; this topology is temporarily unsupported because it can silently lose merged data. Flatten the " +:+
         "conditional branch or join it before this fan-in.") (Some fan_in)) in
    if existsb id controlling then
      refuse UNSUPPORTED_MAIN_PORT_CONDITIONAL_FAN_IN "a conditional branch labelled 'main'"
    else if bool_decide (2 ≤ length controlling) then
      refuse UNSUPPORTED_NESTED_CONDITIONAL_FAN_IN "nested conditional routing"
    else None.

Definition graph_errors (g : WorkflowGraph) : list CompatibilityError :=
  match trigger g with
  | None => []
  | Some t =>
      let loop_edges := back_edges g in
      concat ((λ fan_in,
        let incoming := fan_in_sources g loop_edges (nd_id fan_in) in
        if decide (length incoming ≤ 1) then []
        else omap (fan_in_error g (nd_id t) (nd_id fan_in)) incoming) <$> wg_nodes g)
  end.

Section Compat.
Context (de_graph : value → result string WorkflowGraph).

Definition decoded_child (n : Node) : option WorkflowGraph :=
  if decide (nd_kind n = SubWorkflow) then
    get "workflow" (nd_config n) >>? λ inline, match de_graph inline with Ok child => Some child | Err _ => None end
  else None.

Definition inside_inline (n : Node) (e : CompatibilityError) : CompatibilityError :=
  mkCompat (ce_code e) ("Inline sub_workflow node '" +:+ nd_id n +:+ "': " +:+ ce_message e) (ce_node_id e).

(** [remaining] is [max_depth - depth]. *)
Fixpoint collect_errors (remaining : nat) (g : WorkflowGraph) : list CompatibilityError :=
  graph_errors g ++
  match remaining with
  | 0 => []
  | S remaining =>
      concat ((λ n, match decoded_child n with
                    | Some child => inside_inline n <$> collect_errors remaining child
                    | None => []
                    end) <$> wg_nodes g)
  end.

Definition errors_with_max_depth (g : WorkflowGraph) (max_depth : nat) : list CompatibilityError :=
  collect_errors max_depth g.

Definition max_sub_workflow_depth (g : WorkflowGraph) : nat :=
  Z.to_nat (default MAX_SUB_WORKFLOW_DEPTH
    (trigger g >>? λ t, get "max_sub_workflow_depth" (nd_config t) >>? as_u64 >>? λ n,
     if decide (0 < n)%Z then Some n else None)).

Definition compat_errors (g : WorkflowGraph) : list CompatibilityError :=
  errors_with_max_depth g (max_sub_workflow_depth g).

Definition ensure_compatible (g : WorkflowGraph) : result string unit :=
  match compat_errors g with
  | e :: _ => Err (ce_code e +:+ ": " +:+ ce_message e)
  | [] => Ok tt
  end.

(** ** Saved children ([compat/referenced.rs]) *)

Record Frame_ := mkFrame_ { fr_graph : WorkflowGraph; fr_depth : nat; fr_path : list string; fr_next : nat }.
Record Reference := mkReference { rf_id : string; rf_depth : nat; rf_path : list string }.
Record ReferenceWalk := mkWalk {
  wk_max_depth : nat; wk_pending : list Frame_; wk_current : option Frame_; wk_visited : gmap string nat
}.

Definition walk_new (g : WorkflowGraph) : ReferenceWalk :=
  mkWalk (max_sub_workflow_depth g) [mkFrame_ g 0 [] 0] None ∅.

Definition named_workflow (n : Node) : option string :=
  non_blank (trim <$> (get "workflow_id" (nd_config n) >>? as_str)).

(** What a node adds to the walk: an inline child, a saved one, or nothing. *)
Inductive ChildRef := InlineRef (g : WorkflowGraph) | SavedRef (id : string).
Definition child_ref (n : Node) : option ChildRef :=
  if decide (nd_kind n = SubWorkflow) then
    match get "workflow" (nd_config n), named_workflow n with
    | Some _, Some _ => None
    | Some inline, None => match de_graph inline with Ok g => Some (InlineRef g) | Err _ => None end
    | None, Some id => if String.prefix "=" id then None else Some (SavedRef id)
    | None, None => None
    end
  else None.

(** The id was looked up with at least as much depth to go. *)
Definition visited_within (visited : gmap string nat) (id : string) (depth : nat) : bool :=
  match visited !! id with Some seen => bool_decide (seen ≤ depth) | None => false end.

(** One iteration of the loop of [ReferenceWalk::next]. *)
Inductive NextStep := NextNone | NextAgain (w : ReferenceWalk) | NextLookup (r : Reference) (w : ReferenceWalk).

Definition next_step (w : ReferenceWalk) : NextStep :=
  let with_current c := mkWalk (wk_max_depth w) (wk_pending w) c (wk_visited w) in
  match wk_current w with
  | None =>
      match wk_pending w with
      | [] => NextNone
      | frame :: rest => NextAgain (mkWalk (wk_max_depth w) rest (Some frame) (wk_visited w))
      end
  | Some frame =>
      if decide (wk_max_depth w ≤ fr_depth frame) then NextAgain (with_current None)
      else
        match wg_nodes (fr_graph frame) !! fr_next frame with
        | None => NextAgain (with_current None)
        | Some n =>
            let current := Some (mkFrame_ (fr_graph frame) (fr_depth frame) (fr_path frame) (S (fr_next frame))) in
            let path := fr_path frame ++ [nd_id n] in
            let depth := S (fr_depth frame) in
            match child_ref n with
            | None => NextAgain (with_current current)
            | Some (InlineRef g) =>
                NextAgain (mkWalk (wk_max_depth w) (mkFrame_ g depth path 0 :: wk_pending w) current (wk_visited w))
            | Some (SavedRef id) =>
                if visited_within (wk_visited w) id depth then NextAgain (with_current current)
                else NextLookup (mkReference id depth path)
                       (mkWalk (wk_max_depth w) (wk_pending w) current (<[id := depth]> (wk_visited w)))
            end
        end
  end.

Definition walk_resolved (w : ReferenceWalk) (r : Reference) (g : WorkflowGraph) : string + ReferenceWalk :=
  match errors_with_max_depth g (wk_max_depth w - rf_depth r) with
  | e :: _ =>
      inl ("Sub_workflow path '" +:+ join_with " -> " (rf_path r) +:+ "' references workflow_id '" +:+ rf_id r +:+
           "' with an unsupported engine topology: " +:+ ce_code e +:+ ": " +:+ ce_message e)
  | [] =>
      inr (mkWalk (wk_max_depth w) (mkFrame_ g (rf_depth r) (rf_path r) 0 :: wk_pending w) (wk_current w) (wk_visited w))
  end.

Section Walk.
Context (resolve : string → option WorkflowGraph).

(** [None] is a walk of more than [fuel] iterations. *)
Fixpoint walk_loop (fuel : nat) (w : ReferenceWalk) : option (list string) :=
  match fuel with
  | 0 => None
  | S fuel =>
      match next_step w with
      | NextNone => Some []
      | NextAgain w => walk_loop fuel w
      | NextLookup r w =>
          match resolve (rf_id r) with
          | None => walk_loop fuel w
          | Some child =>
              match walk_resolved w r child with
              | inl error => Some [error]
              | inr w => walk_loop fuel w
              end
          end
      end
  end.
Definition referenced_workflow_errors (fuel : nat) (g : WorkflowGraph) : option (list string) :=
  walk_loop fuel (walk_new g).
End Walk.

(** The asynchronous walk skips a failed lookup. *)
Definition referenced_workflow_errors_async (resolve : string → result EngineError WorkflowGraph) (fuel : nat)
    (g : WorkflowGraph) : option (list string) :=
  referenced_workflow_errors (λ id, match resolve id with Ok child => Some child | Err _ => None end) fuel g.

(** ** The walk ends *)

Section WalkEnds.
Context (resolve : string → option WorkflowGraph).

Definition ends (w : ReferenceWalk) : Prop := ∃ fuel r, walk_loop resolve fuel w = Some r.

Lemma ends_again w w' : next_step w = NextAgain w' → ends w' → ends w.
Proof. intros Hn (fuel & r & Hr). exists (S fuel), r. cbn. by rewrite Hn. Qed.

Lemma frame_ends k : ∀ f pend v max, max - fr_depth f ≤ k →
  (∀ v', ends (mkWalk max pend None v')) → ends (mkWalk max pend (Some f) v).
Proof.
  induction k as [|k IHk]; intros f pend v max Hk Hrest.
  { eapply ends_again; [|apply (Hrest v)]. cbn. by rewrite decide_True by lia. }
  remember (length (wg_nodes (fr_graph f)) - fr_next f) as left eqn:Hl.
  revert f pend v Hl Hk Hrest. induction left as [left IHl] using lt_wf_ind. intros f pend v Hl Hk Hrest.
  destruct (decide (max ≤ fr_depth f)) as [Hd|Hd].
  { eapply ends_again; [|apply (Hrest v)]. cbn. by rewrite decide_True. }
  destruct (wg_nodes (fr_graph f) !! fr_next f) as [n|] eqn:Hn.
  2:{ eapply ends_again; [|apply (Hrest v)]. cbn. by rewrite decide_False, Hn by done. }
  apply lookup_lt_Some in Hn as Hlt.
  set (f' := mkFrame_ (fr_graph f) (fr_depth f) (fr_path f) (S (fr_next f))).
  assert (Hnext : ∀ pend v, (∀ v', ends (mkWalk max pend None v')) → ends (mkWalk max pend (Some f') v))
    by (intros pend' v' Hr'; eapply IHl; [|reflexivity|done|done]; cbn; lia).
  assert (Hpush : ∀ c v, fr_depth c = S (fr_depth f) → ends (mkWalk max (c :: pend) (Some f') v)).
  { intros c v' Hc. apply Hnext. intros v''. eapply ends_again; [reflexivity|]. apply IHk; [cbn; lia|done]. }
  destruct (child_ref n) as [[g|id]|] eqn:Hc.
  - eapply ends_again; [cbn; by rewrite decide_False, Hn, Hc by done|]. by apply Hpush.
  - destruct (visited_within v id (S (fr_depth f))) eqn:Hs.
    { eapply ends_again; [cbn; by rewrite decide_False, Hn, Hc, Hs by done|]. by apply Hnext. }
    assert (Hstep : next_step (mkWalk max pend (Some f) v) =
      NextLookup (mkReference id (S (fr_depth f)) (fr_path f ++ [nd_id n])) (mkWalk max pend (Some f') (<[id := S (fr_depth f)]> v)))
      by (cbn; by rewrite decide_False, Hn, Hc, Hs by done).
    assert (Hskip : ends (mkWalk max pend (Some f') (<[id := S (fr_depth f)]> v))) by by apply Hnext.
    destruct (resolve id) as [child|] eqn:Er.
    + destruct (walk_resolved (mkWalk max pend (Some f') (<[id := S (fr_depth f)]> v))
                  (mkReference id (S (fr_depth f)) (fr_path f ++ [nd_id n])) child) as [e|w'] eqn:Ew.
      * exists 1, [e]. cbn [walk_loop]. rewrite Hstep. cbn [rf_id]. by rewrite Er, Ew.
      * assert (ends w') as (fuel & r & Hr).
        { unfold walk_resolved in Ew. destruct (errors_with_max_depth _ _); [|done]. injection Ew as <-. by apply Hpush. }
        exists (S fuel), r. cbn [walk_loop]. rewrite Hstep. cbn [rf_id]. by rewrite Er, Ew.
    + destruct Hskip as (fuel & r & Hr). exists (S fuel), r. cbn [walk_loop]. rewrite Hstep. cbn [rf_id]. by rewrite Er.
  - eapply ends_again; [cbn; by rewrite decide_False, Hn, Hc by done|]. by apply Hnext.
Qed.

Lemma walk_ends g : ends (walk_new g).
Proof.
  eapply ends_again; [reflexivity|]. eapply frame_ends; [done|]. intros v'. by exists 1, [].
Qed.

Lemma walk_fuel_mono fuel fuel' w r : walk_loop resolve fuel w = Some r → fuel ≤ fuel' → walk_loop resolve fuel' w = Some r.
Proof.
  revert fuel' w. induction fuel as [|fuel IH]; intros [|fuel'] w Hr Hle; try done; [lia|]. cbn in *.
  destruct (next_step w) as [|w'|rf w']; [done|apply IH; [done|lia]|].
  destruct (resolve (rf_id rf)); [|apply IH; [done|lia]]. destruct (walk_resolved w' rf _); [done|apply IH; [done|lia]].
Qed.
End WalkEnds.

(** ** What the walk decides *)

Lemma collect_errors_mono r r' g : r' ≤ r → collect_errors r g = [] → collect_errors r' g = [].
Proof.
  revert r' g. induction r as [|r IH]; intros [|r'] g Hle; cbn; try done; [lia| |].
  - by intros [-> _]%app_nil.
  - intros [-> Hc]%app_nil. cbn. apply concat_nil_Forall, Forall_forall. intros l (n & -> & Hn)%list_elem_of_fmap.
    assert (Hn' := concat_fmap_nil _ _ n Hc Hn). cbv beta in Hn'.
    destruct (decoded_child n); [|done]. apply fmap_nil_inv in Hn'. by rewrite (IH r') by (lia || done).
Qed.

Section WalkExact.
Context (resolve : string → option WorkflowGraph) (root : WorkflowGraph) (max : nat).

(** The graphs a run of [root] can be in, with the depth it has then. *)
Inductive within : WorkflowGraph → nat → Prop :=
| within_root : within root 0
| within_inline g d n child : within g d → d < max → n ∈ wg_nodes g → child_ref n = Some (InlineRef child) →
    within child (S d)
| within_saved g d n id child : within g d → d < max → n ∈ wg_nodes g → child_ref n = Some (SavedRef id) →
    resolve id = Some child → within child (S d).

Definition saved_at (child : WorkflowGraph) (d : nat) : Prop :=
  ∃ g n id, within g d ∧ d < max ∧ n ∈ wg_nodes g ∧ child_ref n = Some (SavedRef id) ∧ resolve id = Some child.

Section Invariant.
Context (present : WorkflowGraph → nat → Prop) (visited : gmap string nat).
Definition handled (n : Node) (d : nat) : Prop :=
  match child_ref n with
  | None => True
  | Some (InlineRef c) => ∃ d', d' ≤ S d ∧ present c d'
  | Some (SavedRef id) => ∃ d', d' ≤ S d ∧ visited !! id = Some d'
  end.
Definition lookups_ok : Prop := ∀ id d child, visited !! id = Some d → resolve id = Some child →
  collect_errors (max - d) child = [] ∧ present child d.
End Invariant.

Record walk_inv (present done : WorkflowGraph → nat → Prop) (w : ReferenceWalk) : Prop := {
  wi_max : wk_max_depth w = max;
  wi_root : present root 0;
  wi_within : ∀ f, f ∈ wk_pending w ∨ wk_current w = Some f → within (fr_graph f) (fr_depth f);
  wi_present : ∀ g d, present g d → done g d ∨
    ∃ f, (f ∈ wk_pending w ∨ wk_current w = Some f) ∧ fr_graph f = g ∧ fr_depth f = d;
  wi_done : ∀ g d n, done g d → d < max → n ∈ wg_nodes g → handled present (wk_visited w) n d;
  wi_pending : ∀ f, f ∈ wk_pending w → fr_next f = 0;
  wi_current : ∀ f i n, wk_current w = Some f → i < fr_next f → wg_nodes (fr_graph f) !! i = Some n →
    handled present (wk_visited w) n (fr_depth f);
  wi_lookups : lookups_ok present (wk_visited w)
}.

Lemma handled_mono (present present' : WorkflowGraph → nat → Prop) visited visited' n d :
  (∀ g d, present g d → present' g d) →
  (∀ id d, visited !! id = Some d → ∃ d', d' ≤ d ∧ visited' !! id = Some d') →
  handled present visited n d → handled present' visited' n d.
Proof.
  intros Hp Hv. unfold handled. destruct (child_ref n) as [[c|id]|]; [|..]; [| |done].
  - intros (d' & ? & ?). eauto.
  - intros (d' & ? & Hd'). destruct (Hv id d' Hd') as (d'' & ? & ?). exists d''. split; [lia|done].
Qed.

(** When nothing is left, everything reachable was looked at closely enough. *)
Lemma finished_covers present done w :
  walk_inv present done w → wk_pending w = [] → wk_current w = None →
  (∀ g d, within g d → ∃ d', d' ≤ d ∧ present g d') ∧
  (∀ child d, saved_at child d → collect_errors (max - S d) child = []).
Proof.
  intros I Hp Hc.
  assert (Hdone : ∀ g d, present g d → done g d).
  { intros g d [?|(f & [Hf|Hf] & _)]%(wi_present _ _ _ I); [done| |congruence]. rewrite Hp in Hf. by apply elem_of_nil in Hf. }
  assert (Hcov : ∀ g d, within g d → ∃ d', d' ≤ d ∧ present g d').
  { induction 1 as [|g d n child Hw (d' & Hd' & Hpr) Hlt Hn Hcr|g d n id child Hw (d' & Hd' & Hpr) Hlt Hn Hcr Hres].
    - exists 0. split; [done|apply I].
    - pose proof (wi_done _ _ _ I g d' n (Hdone _ _ Hpr) ltac:(lia) Hn) as Hh. unfold handled in Hh. rewrite Hcr in Hh.
      destruct Hh as (d'' & ? & ?). exists d''. split; [lia|done].
    - pose proof (wi_done _ _ _ I g d' n (Hdone _ _ Hpr) ltac:(lia) Hn) as Hh. unfold handled in Hh. rewrite Hcr in Hh.
      destruct Hh as (d'' & ? & Hv). destruct (wi_lookups _ _ _ I id d'' child Hv Hres) as [_ ?]. exists d''. split; [lia|done]. }
  split; [done|]. intros child d (g & n & id & Hw & Hlt & Hn & Hcr & Hres).
  destruct (Hcov g d Hw) as (d' & Hd' & Hpr).
  pose proof (wi_done _ _ _ I g d' n (Hdone _ _ Hpr) ltac:(lia) Hn) as Hh. unfold handled in Hh. rewrite Hcr in Hh.
  destruct Hh as (d'' & Hle & Hv). destruct (wi_lookups _ _ _ I id d'' child Hv Hres) as [He _].
  eapply collect_errors_mono; [|exact He]. lia.
Qed.

Definition also (P : WorkflowGraph → nat → Prop) (f : Frame_) (g : WorkflowGraph) (d : nat) : Prop :=
  P g d ∨ (g = fr_graph f ∧ d = fr_depth f).

(** A frame that has nothing left is closed. *)
Lemma inv_close present done pend f v :
  walk_inv present done (mkWalk max pend (Some f) v) →
  (fr_depth f < max → wg_nodes (fr_graph f) !! fr_next f = None) →
  walk_inv present (also done f) (mkWalk max pend None v).
Proof.
  intros I Hend. split; cbn.
  - done.
  - apply I.
  - intros f' [Hf|Hf]; [|done]. apply (wi_within _ _ _ I). by left.
  - intros g d [Hd|(f' & [Hf|Hf] & <- & <-)]%(wi_present _ _ _ I); cbn in *.
    + left. by left.
    + right. eauto.
    + injection Hf as ->. left. by right.
  - intros g d n [Hd|[-> ->]] Hlt Hn; [by apply (wi_done _ _ _ I g d n)|].
    apply list_elem_of_lookup in Hn as [i Hi]. apply (wi_current _ _ _ I f i n eq_refl); [|done].
    apply lookup_lt_Some in Hi. specialize (Hend Hlt). apply lookup_ge_None in Hend. lia.
  - apply I.
  - done.
  - apply I.
Qed.

(** The current frame moves past a node that is handled. *)
Lemma inv_advance present done pend f v n :
  walk_inv present done (mkWalk max pend (Some f) v) →
  wg_nodes (fr_graph f) !! fr_next f = Some n → handled present v n (fr_depth f) →
  walk_inv present done
    (mkWalk max pend (Some (mkFrame_ (fr_graph f) (fr_depth f) (fr_path f) (S (fr_next f)))) v).
Proof.
  intros I Hn Hh. split; cbn.
  - done.
  - apply I.
  - intros f' [Hf|Hf]; [apply (wi_within _ _ _ I); by left|]. injection Hf as <-. cbn. apply (wi_within _ _ _ I). by right.
  - intros g d [Hd|(f' & [Hf|Hf] & <- & <-)]%(wi_present _ _ _ I); cbn in *; [by left|right; eauto|].
    injection Hf as ->. right. eexists. split; [by right|done].
  - apply I.
  - apply I.
  - intros f' i n' [= <-] Hi Hn'. cbn in *. destruct (decide (i = fr_next f)) as [->|Hne]; [by simplify_eq|].
    apply (wi_current _ _ _ I f i n' eq_refl); [lia|done].
  - apply I.
Qed.

(** A frame is added for a graph that can be reached. *)
Lemma inv_push present done pend cur v c :
  walk_inv present done (mkWalk max pend cur v) → within (fr_graph c) (fr_depth c) → fr_next c = 0 →
  walk_inv (also present c) done (mkWalk max (c :: pend) cur v).
Proof.
  intros I Hw Hz.
  assert (Hm : ∀ n d, handled present v n d → handled (also present c) v n d)
    by (intros n d; apply handled_mono; [by left|eauto]).
  split; cbn.
  - done.
  - left. apply I.
  - intros f' [[->|Hf]%elem_of_cons|Hf]; [done|apply (wi_within _ _ _ I); by left|apply (wi_within _ _ _ I); by right].
  - intros g d [Hp|[-> ->]]; [|right; exists c; split; [left; by left|done]].
    destruct (wi_present _ _ _ I g d Hp) as [?|(f' & [Hf|Hf] & He)]; cbn in *;
      [by left|right; exists f'; split; [left; by right|done]|right; exists f'; split; [by right|done]].
  - intros g d n Hd Hlt Hn. by apply Hm, (wi_done _ _ _ I g d n).
  - intros f' [->|Hf]%elem_of_cons; [done|by apply I].
  - intros f' i n Hf Hi Hn. by apply Hm, (wi_current _ _ _ I f' i n).
  - intros id d child Hv Hr. destruct (wi_lookups _ _ _ I id d child Hv Hr). split; [done|by left].
Qed.

(** A lookup is recorded at less depth than before. *)
Lemma inv_visit present done pend cur v id d :
  walk_inv present done (mkWalk max pend cur v) → visited_within v id d = false →
  (∀ child, resolve id = Some child → collect_errors (max - d) child = [] ∧ present child d) →
  walk_inv present done (mkWalk max pend cur (<[id := d]> v)).
Proof.
  intros I Hv Hres.
  assert (Hm : ∀ n d', handled present v n d' → handled present (<[id := d]> v) n d').
  { intros n d'. apply handled_mono; [done|]. intros id' d0 Hd0. destruct (decide (id' = id)) as [->|Hne].
    - exists d. rewrite lookup_insert_eq. split; [|done]. unfold visited_within in Hv. rewrite Hd0 in Hv.
      apply bool_decide_eq_false in Hv. lia.
    - exists d0. by rewrite lookup_insert_ne by congruence. }
  destruct I. split; cbn in *; try done.
  - intros g d' n Hd Hlt Hn. by apply Hm, (wi_done0 g d' n).
  - intros f' i n Hf Hi Hn. by apply Hm, (wi_current0 f' i n).
  - intros id' d' child Hl Hr. destruct (decide (id' = id)) as [->|Hne].
    + rewrite lookup_insert_eq in Hl. injection Hl as <-. by apply Hres.
    + rewrite lookup_insert_ne in Hl by congruence. by apply (wi_lookups0 id' d' child).
Qed.

Definition verdict (r : list string) : Prop :=
  (r = [] ∧ ∀ child d, saved_at child d → collect_errors (max - S d) child = []) ∨
  (r ≠ [] ∧ ∃ child d, saved_at child d ∧ collect_errors (max - S d) child ≠ []).

Lemma walk_exact fuel : ∀ w r present done,
  walk_inv present done w → walk_loop resolve fuel w = Some r → verdict r.
Proof.
  induction fuel as [|fuel IH]; [done|]. intros [mx pend cur v] r present done I Hr.
  assert (Hmx : mx = max) by apply I. subst mx. cbn [walk_loop] in Hr.
  destruct cur as [f|].
  2:{ destruct pend as [|f pend]; cbn in Hr.
      - injection Hr as <-. left. split; [done|]. by eapply finished_covers in I as [_ ?].
      - eapply IH; [|exact Hr]. destruct I. split; cbn in *; try done.
        + intros f' [Hf|Hf]; [apply wi_within0; left; by right|]. injection Hf as <-. apply wi_within0. left. by left.
        + intros g d Hp. destruct (wi_present0 g d Hp) as [?|(f' & [Hf|Hf] & He)]; [by left| |done].
          right. exists f'. split; [|done]. apply elem_of_cons in Hf as [->|Hf]; auto.
        + intros f' Hf. apply wi_pending0. by right.
        + intros f' k n [= <-] Hk. rewrite (wi_pending0 f) in Hk by by left. lia. }
  cbn [next_step wk_current wk_max_depth wk_pending wk_visited] in Hr. case_decide as Hd.
  { eapply IH; [|exact Hr]. eapply inv_close; [exact I|lia]. }
  destruct (wg_nodes (fr_graph f) !! fr_next f) as [n|] eqn:Hn.
  2:{ eapply IH; [|exact Hr]. by eapply inv_close. }
  assert (Hw : within (fr_graph f) (fr_depth f)) by (apply (wi_within _ _ _ I); by right).
  assert (Hin : n ∈ wg_nodes (fr_graph f)) by by eapply list_elem_of_lookup_2.
  destruct (child_ref n) as [[g|id]|] eqn:Hc.
  - eapply IH; [|exact Hr]. eapply inv_advance; [|done|].
    + eapply inv_push; [exact I| |done]. cbn. eapply within_inline; eauto with lia.
    + unfold handled. rewrite Hc. exists (S (fr_depth f)). split; [done|]. by right.
  - destruct (visited_within v id (S (fr_depth f))) eqn:Hv.
    { eapply IH; [|exact Hr]. eapply inv_advance; [exact I|done|]. unfold handled. rewrite Hc.
      unfold visited_within in Hv. destruct (v !! id) as [seen|]; [|done]. apply bool_decide_eq_true in Hv. eauto. }
    assert (Hseen : ∀ p, handled p (<[id := S (fr_depth f)]> v) n (fr_depth f))
      by (intros p; unfold handled; rewrite Hc; exists (S (fr_depth f)); by rewrite lookup_insert_eq).
    cbn [rf_id] in Hr. destruct (resolve id) as [child|] eqn:Hres.
    + unfold walk_resolved in Hr. cbn [rf_depth wk_max_depth] in Hr.
      destruct (errors_with_max_depth child (max - S (fr_depth f))) as [|e l] eqn:He.
      * eapply IH; [|exact Hr]. eapply inv_advance; [|done|apply Hseen]. eapply inv_visit; [|done|].
        -- eapply inv_push; [exact I| |done]. cbn. eapply within_saved; eauto with lia.
        -- intros child' Hres'. replace child' with child by congruence. split; [exact He|]. by right.
      * injection Hr as <-. right. split; [done|]. exists child, (fr_depth f).
        split; [exists (fr_graph f), n, id; split_and!; (done || lia)|]. unfold errors_with_max_depth in He. by rewrite He.
    + eapply IH; [|exact Hr]. eapply inv_advance; [|done|apply Hseen]. eapply inv_visit; [exact I|done|].
      intros child' Hres'. congruence.
  - eapply IH; [|exact Hr]. eapply inv_advance; [exact I|done|]. unfold handled. by rewrite Hc.
Qed.
End WalkExact.

(** C27: the check of saved children decides what it promises.  Whatever workflows
    the store returns, with references in cycles or at several depths, the walk
    ends; it reports nothing exactly when every saved workflow a run of the root
    could reach through literal references and inline children, within the
    nesting the root allows, is free of unsafe topologies down to the depth such
    a run has left. *)
Theorem referenced_workflows_exact (resolve : string → option WorkflowGraph) (root : WorkflowGraph) :
  ∃ fuel r, (∀ fuel', fuel ≤ fuel' → referenced_workflow_errors resolve fuel' root = Some r) ∧
    (r = [] ↔ ∀ child d, saved_at resolve root (max_sub_workflow_depth root) child d →
       errors_with_max_depth child (max_sub_workflow_depth root - S d) = []).
Proof.
  destruct (walk_ends resolve root) as (fuel & r & Hr). exists fuel, r. split.
  { intros fuel' Hle. by eapply walk_fuel_mono. }
  assert (I : walk_inv resolve root (max_sub_workflow_depth root) (λ g d, g = root ∧ d = 0) (λ _ _, False) (walk_new root)).
  { split; cbn; try done.
    - intros f [->%list_elem_of_singleton|Hf]; [apply within_root|done].
    - intros g d [-> ->]. right. eexists. split; [left; by left|done].
    - by intros f ->%list_elem_of_singleton. }
  destruct (walk_exact _ _ _ fuel _ _ _ _ I Hr) as [[-> Hall]|[Hne (child & d & Hs & He)]].
  - split; [intros _; exact Hall|done].
  - split; [done|]. intros Hall. by destruct He; apply Hall.
Qed.
End Compat.

(** ** What is refused *)

Section Refusals.
Context (g : WorkflowGraph).

(** A walk along [main] edges that decides nothing, and any walk at all. *)
Definition plain_step (stop x y : string) : Prop := x ≠ stop ∧ y ∈ plain_successors g x.
Definition any_step (stop x y : string) : Prop := x ≠ stop ∧ y ∈ successors g x.
Definition surely (from to stop : string) : Prop :=
  from = to ∨ ∃ s, s ∈ plain_successors g from ∧ rtc (plain_step stop) s to.

Lemma plain_successor_source n m : m ∈ plain_successors g n → n ∈ edge_sources g.
Proof.
  unfold plain_successors. destruct (is_branching_node g n); [by intros ?%elem_of_nil|].
  apply filtered_source. naive_solver.
Qed.
Lemma reaches_on_main_edges_iff from to stop : reaches_on_main_edges g from to stop = true ↔ surely from to stop.
Proof.
  unfold reaches_on_main_edges, surely. case_decide as H; [naive_solver|].
  rewrite search_reaches by apply plain_successor_source. setoid_rewrite elem_of_reverse. unfold plain_step. naive_solver.
Qed.
Lemma compat_via_port_iff brancher port target stop :
  compat_reaches_via_port g brancher port target stop = true ↔
  ∃ s, s ∈ port_successors g brancher port ∧ rtc (any_step stop) s target.
Proof. apply reaches_via_port_iff. Qed.
Lemma surely_via_port_iff brancher port target stop :
  reaches_deterministically_via_port g brancher port target stop = true ↔
  ∃ s, s ∈ port_successors g brancher port ∧ surely s target stop.
Proof.
  unfold reaches_deterministically_via_port, port_successors. rewrite existsb_exists.
  setoid_rewrite reaches_on_main_edges_iff. setoid_rewrite <- list_elem_of_In. setoid_rewrite list_elem_of_fmap. naive_solver.
Qed.

(** A node decides whether [predecessor] runs: one of its ports can lead there,
    and its choices do not all surely lead there. *)
Definition decides (fan_in predecessor : string) (candidate : Node) : Prop :=
  let ports := ports_of g (nd_id candidate) in
  let target := if decide (nd_id candidate = predecessor) then fan_in else predecessor in
  (is_router candidate = true ∨ 2 ≤ length ports) ∧
  (∃ port s, port ∈ ports ∧ s ∈ port_successors g (nd_id candidate) port ∧ rtc (any_step fan_in) s target) ∧
  ¬ (choices_exhaustive candidate ports = true ∧
     ∀ port, port ∈ ports → ∃ s, s ∈ port_successors g (nd_id candidate) port ∧ surely s target fan_in).

(** It may do so through a port called [main]. *)
Definition decides_by_main (fan_in predecessor : string) (candidate : Node) : Prop :=
  let target := if decide (nd_id candidate = predecessor) then fan_in else predecessor in
  "main" ∈ ports_of g (nd_id candidate) ∧
  ∃ s, s ∈ port_successors g (nd_id candidate) "main" ∧ rtc (any_step fan_in) s target.

Lemma forallb_elem {A} (p : A → bool) l : forallb p l = true ↔ ∀ x, x ∈ l → p x = true.
Proof. rewrite forallb_forall. by setoid_rewrite list_elem_of_In. Qed.

Lemma controls_spec fan_in predecessor candidate :
  (is_Some (controls g fan_in predecessor candidate) ↔ decides fan_in predecessor candidate) ∧
  (controls g fan_in predecessor candidate = Some true ↔
   decides fan_in predecessor candidate ∧ decides_by_main fan_in predecessor candidate).
Proof.
  unfold controls, decides, decides_by_main. cbv zeta. set (ports := ports_of g (nd_id candidate)).
  set (target := if decide (nd_id candidate = predecessor) then fan_in else predecessor).
  destruct (bool_decide (length ports < 2) && negb (is_router candidate)) eqn:Eg.
  { apply andb_true_iff in Eg as [Hl%bool_decide_eq_true Hr%negb_true_iff]. split.
    - split; [by intros []|]. intros ([?|?] & _); [congruence|lia].
    - split; [done|]. intros (([?|?] & _) & _); [congruence|lia]. }
  assert (Hg : is_router candidate = true ∨ 2 ≤ length ports).
  { apply andb_false_iff in Eg as [Hl%bool_decide_eq_false|Hr%negb_false_iff]; [right; lia|by left]. }
  assert (Hprov : (if is_router candidate then choices_exhaustive candidate ports else bool_decide (2 ≤ length ports))
                  = choices_exhaustive candidate ports).
  { destruct (is_router candidate) eqn:Er; [done|]. destruct Hg as [?|Hg]; [done|]. rewrite bool_decide_true by done.
    unfold is_router in Er. apply bool_decide_eq_false in Er. unfold choices_exhaustive. destruct (nd_kind candidate); naive_solver. }
  rewrite Hprov. set (every := choices_exhaustive candidate ports && _).
  assert (He : every = true ↔ choices_exhaustive candidate ports = true ∧
     ∀ port, port ∈ ports → ∃ s, s ∈ port_successors g (nd_id candidate) port ∧ surely s target fan_in).
  { unfold every. rewrite andb_true_iff, forallb_elem. by setoid_rewrite surely_via_port_iff. }
  assert (Ha : existsb (λ port, compat_reaches_via_port g (nd_id candidate) port target fan_in) ports = true ↔
    ∃ port s, port ∈ ports ∧ s ∈ port_successors g (nd_id candidate) port ∧ rtc (any_step fan_in) s target).
  { rewrite existsb_elem. setoid_rewrite compat_via_port_iff. naive_solver. }
  rewrite <- He, <- Ha. rewrite not_true_iff_false, <- negb_true_iff.
  destruct (existsb _ ports); cbn [andb]; [|split; [split; [by intros []|naive_solver]|naive_solver]].
  destruct (negb every); [|split; [split; [by intros []|naive_solver]|naive_solver]].
  split; [by split; [intros _|intros _; eexists]|].
  rewrite <- compat_via_port_iff. split.
  - intros [= [Hm%bool_decide_eq_true Hr]%andb_true_iff]. by split_and!.
  - intros [_ [Hm Hr]]. by rewrite Hr, bool_decide_true.
Qed.

Lemma omap_le_one {A B} (h : A → option B) (l : list A) :
  length (omap h l) < 2 ↔ ∀ i j a b, l !! i = Some a → l !! j = Some b → is_Some (h a) → is_Some (h b) → i = j.
Proof.
  assert (Hnil : ∀ l : list A, omap h l = [] ↔ ∀ i a, l !! i = Some a → h a = None).
  { clear l. induction l as [|x l IH]; [done|]. cbn. destruct (h x) as [y|] eqn:Hx; cbn.
    - split; [done|]. intros H. specialize (H 0 x eq_refl). congruence.
    - rewrite IH. split; [intros H [|i] a Ha; cbn in Ha; [congruence|eauto]|]. intros H i a Ha. by apply (H (S i)). }
  induction l as [|x l IH]; [cbn; split; [done|lia]|]. cbn. destruct (h x) as [y|] eqn:Hx; cbn.
  - destruct (omap h l) as [|z k] eqn:Ho; cbn.
    + split; [|lia]. intros _ [|i] [|j] a b Ha Hb [? Sa] [? Sb]; try done; cbn in *; exfalso.
      * pose proof (proj1 (Hnil l) Ho j b Hb). congruence.
      * pose proof (proj1 (Hnil l) Ho i a Ha). congruence.
      * pose proof (proj1 (Hnil l) Ho i a Ha). congruence.
    + split; [lia|]. intros H. exfalso. assert (Hz : z ∈ omap h l) by (rewrite Ho; by left).
      apply list_elem_of_omap in Hz as (a & Ha & Hha). apply list_elem_of_lookup in Ha as [i Hi].
      by specialize (H 0 (S i) x a eq_refl Hi (mk_is_Some _ _ Hx) (mk_is_Some _ _ Hha)).
  - rewrite IH. split.
    + intros H [|i] [|j] a b Ha Hb Sa Sb; cbn in *; [done|injection Ha as ->; rewrite Hx in Sa; by destruct Sa|
        injection Hb as ->; rewrite Hx in Sb; by destruct Sb|]. f_equal. by eapply H.
    + intros H i j a b Ha Hb Sa Sb. by specialize (H (S i) (S j) a b Ha Hb Sa Sb) as [= ->].
Qed.

Lemma fan_in_error_None trigger_id fan_in predecessor :
  fan_in_error g trigger_id fan_in predecessor = None ↔
  (is_branching_node g predecessor = false ∧ surely trigger_id predecessor fan_in) ∨
  (∀ i j a b, wg_nodes g !! i = Some a → wg_nodes g !! j = Some b →
     decides fan_in predecessor a → decides fan_in predecessor b → i = j) ∧
  (∀ a, a ∈ wg_nodes g → decides fan_in predecessor a → ¬ decides_by_main fan_in predecessor a).
Proof.
  unfold fan_in_error. rewrite <- reaches_on_main_edges_iff.
  destruct (negb (is_branching_node g predecessor) && _) eqn:Ef.
  { apply andb_true_iff in Ef as [Hb%negb_true_iff Hr]. split; [by left|done]. }
  assert (Hf : ¬ (is_branching_node g predecessor = false ∧ reaches_on_main_edges g trigger_id predecessor fan_in = true)).
  { intros [Hb Hr]. by rewrite Hb, Hr in Ef. }
  assert (Hmain : existsb id (omap (controls g fan_in predecessor) (wg_nodes g)) = true ↔
    ∃ a, a ∈ wg_nodes g ∧ decides fan_in predecessor a ∧ decides_by_main fan_in predecessor a).
  { rewrite existsb_elem. setoid_rewrite list_elem_of_omap. split.
    - intros (b & (a & Ha & Hc) & Hb). cbn in Hb. subst b. exists a. split; [done|]. by apply controls_spec.
    - intros (a & Ha & Hd). exists true. split; [|done]. exists a. split; [done|]. by apply controls_spec. }
  assert (Huniq : length (omap (controls g fan_in predecessor) (wg_nodes g)) < 2 ↔
    ∀ i j a b, wg_nodes g !! i = Some a → wg_nodes g !! j = Some b →
      decides fan_in predecessor a → decides fan_in predecessor b → i = j).
  { assert (Hiff : ∀ a, is_Some (controls g fan_in predecessor a) ↔ decides fan_in predecessor a)
      by (intros a; apply (proj1 (controls_spec fan_in predecessor a))).
    rewrite omap_le_one. by setoid_rewrite Hiff. }
  cbv zeta. destruct (existsb id _) eqn:Ee.
  { split; [done|]. intros [?|[_ Hno]]; [done|]. destruct (proj1 Hmain eq_refl) as (a & Ha & Hd & Hm). by destruct (Hno a Ha Hd). }
  assert (Hnm : ∀ a, a ∈ wg_nodes g → decides fan_in predecessor a → ¬ decides_by_main fan_in predecessor a).
  { intros a Ha Hd Hm. by assert (false = true) by (apply Hmain; eauto). }
  case_bool_decide as H2.
  - split; [done|]. intros [?|[Hu _]]; [done|]. apply Huniq in Hu. lia.
  - split; [|done]. intros _. right. split; [|done]. apply Huniq. lia.
Qed.

(** The refusal is exact.  A graph with a trigger is refused no topology
    exactly when, at every node with several incoming edges that close no cycle,
    each predecessor runs for sure (it branches nowhere and is reached from the
    trigger without a decision), or one node at most decides whether it runs and
    none does so through a port called [main].  Reaching is walking along edges
    without passing the fan-in, and surely reaching is doing so along [main]
    edges past no branching node; the searches of the code decide both. *)
Theorem refusals_exact (t : Node) :
  trigger g = Some t →
  graph_errors g = [] ↔
  ∀ fan_in predecessor, fan_in ∈ wg_nodes g →
    let incoming := fan_in_sources g (back_edges g) (nd_id fan_in) in
    2 ≤ length incoming → predecessor ∈ incoming →
    (is_branching_node g predecessor = false ∧ surely (nd_id t) predecessor (nd_id fan_in)) ∨
    (∀ i j a b, wg_nodes g !! i = Some a → wg_nodes g !! j = Some b →
       decides (nd_id fan_in) predecessor a → decides (nd_id fan_in) predecessor b → i = j) ∧
    (∀ a, a ∈ wg_nodes g → decides (nd_id fan_in) predecessor a → ¬ decides_by_main (nd_id fan_in) predecessor a).
Proof.
  intros Ht. unfold graph_errors. rewrite Ht. cbv zeta. split.
  - intros Hc fan_in predecessor Hf Hl Hp. apply fan_in_error_None.
    eapply concat_fmap_nil in Hc; [|exact Hf]. cbv beta in Hc. rewrite decide_False in Hc by lia.
    destruct (fan_in_error g (nd_id t) (nd_id fan_in) predecessor) as [e|] eqn:He; [|done]. exfalso.
    assert (Hin : e ∈ omap (fan_in_error g (nd_id t) (nd_id fan_in)) (fan_in_sources g (back_edges g) (nd_id fan_in)))
      by (apply list_elem_of_omap; eauto). rewrite Hc in Hin. by apply elem_of_nil in Hin.
  - intros H. apply concat_nil_Forall, Forall_forall. intros es (fan_in & -> & Hf)%list_elem_of_fmap.
    case_decide as Hl; [done|]. destruct (omap _ _) as [|e es] eqn:Ho; [done|]. exfalso.
    assert (Hin : e ∈ e :: es) by by left. rewrite <- Ho in Hin. apply list_elem_of_omap in Hin as (p & Hp & He).
    assert (Hn : fan_in_error g (nd_id t) (nd_id fan_in) p = None) by (apply fan_in_error_None, (H fan_in p Hf); [lia|done]).
    congruence.
Qed.
End Refusals.

(** ** Migration ([migrate.rs]) *)

Definition u32_of_u64 (z : Z) : Z := z `mod` 2 ^ 32.

Definition migrate (v : value) : result EngineError value :=
  let version := u32_of_u64 (default 0%Z (get "schema_version" v >>? as_u64)) in
  if decide (Z.of_N CURRENT_SCHEMA_VERSION < version)%Z then
    Err (EValidation (SchemaVersionTooNew (Z.to_N version) CURRENT_SCHEMA_VERSION))
  else
    Ok (match v with
        | Object fields =>
            Object (obj_insert "schema_version" (Number (PosInt (Z.of_N CURRENT_SCHEMA_VERSION))) fields)
        | v => v
        end).

(** The decoders of the graph and of its members: a value or the message. *)
Record GraphDecoders := mkDecoders {
  gd_graph : value → result string WorkflowGraph;
  gd_node : value → option string;
  gd_input : value → option string;
  gd_agent : value → option string;
  gd_edge : value → option string
}.

Definition ELEMENT_ARRAYS : list string := ["nodes"; "inputs"; "agents"; "edges"].

Section Decode.
Context (f : Fmt) (gd : GraphDecoders).

Definition skeleton_of (migrated : value) : value :=
  match migrated with
  | Object fields =>
      Object (foldl (λ m field, match obj_get field m with
                                | Some (Array _) => obj_insert field (Array []) m
                                | _ => m
                                end) fields ELEMENT_ARRAYS)
  | v => v
  end.

Definition fails {A} (r : result string A) : option string := match r with Err e => Some e | Ok _ => None end.
Definition probe (key : string) (v : value) : option string := fails (gd_graph gd (Object [(key, v)])).

Definition locate_top_level_error (migrated : value) (err : string) : string :=
  match as_object migrated with
  | None => err
  | Some fields =>
      let collections := omap (λ key, obj_get key fields >>? λ v,
        if is_array v then None else (λ e, key +:+ ": " +:+ e) <$> probe key v) ELEMENT_ARRAYS in
      let members := omap (λ kv : string * value, (λ e, kv.1 +:+ ": " +:+ e) <$> probe kv.1 kv.2) fields in
      default err (head (collections ++ members))
  end.

(** The first element of an array that does not decode by itself. *)
Definition locate_in (migrated : value) (field : string) (decode : value → option string) : option string :=
  get field migrated >>? as_array >>? λ items,
  head (omap (λ ix : nat * value, (λ e, field +:+ "[" +:+ pretty ix.1 +:+ "]: " +:+ e) <$> decode ix.2) (imap pair items)).

Definition locate_graph_error (migrated : value) (err : string) : string :=
  match gd_graph gd (skeleton_of migrated) with
  | Err _ => locate_top_level_error migrated err
  | Ok _ =>
      default err (head (omap (λ fd : string * (value → option string), locate_in migrated fd.1 fd.2)
        [("nodes", gd_node gd); ("inputs", gd_input gd); ("agents", gd_agent gd); ("edges", gd_edge gd)]))
  end.

Definition deserialize_graph (v : value) : result string WorkflowGraph :=
  match migrate v with
  | Err e => Err (engine_error_to_string f e)
  | Ok migrated =>
      match gd_graph gd migrated with
      | Ok g => Ok g
      | Err e => Err (locate_graph_error migrated e)
      end
  end.
End Decode.

(** Migration brings a document to the current schema and touches nothing
    else.  A migrated object states the current version, every other member is
    what it was, migrating it again changes nothing, and a document of the
    current or an older version is never refused. *)
Theorem migrate_stamps (fields : list (string * value)) :
  (∀ v, migrate (Object fields) = Ok v →
     get "schema_version" v = Some (Number (PosInt (Z.of_N CURRENT_SCHEMA_VERSION))) ∧
     (∀ k, k ≠ "schema_version" → get k v = get k (Object fields)) ∧ migrate v = Ok v) ∧
  (∀ n, get "schema_version" (Object fields) = Some (Number (PosInt n)) → (0 ≤ n ≤ Z.of_N CURRENT_SCHEMA_VERSION)%Z →
     is_ok (migrate (Object fields)) = true) ∧
  (get "schema_version" (Object fields) = None → is_ok (migrate (Object fields)) = true).
Proof.
  unfold migrate. split_and!.
  - intros v. case_decide as Hv; [done|]. intros [= <-]. cbn [get]. rewrite obj_get_insert_eq.
    split_and!; [done|intros k Hk; by rewrite obj_get_insert_ne|]. cbn. rewrite obj_insert_twice. by vm_compute.
  - intros n Hn Hle. rewrite Hn. cbn. rewrite decide_False; [done|]. unfold u32_of_u64, CURRENT_SCHEMA_VERSION in *.
    cbn in *. rewrite Z.mod_small; lia.
  - intros ->. done.
Qed.

(** A version past 32 bits is cut to its low half before it is compared: such a
    document is not refused but rewritten as one of the current version. *)
Theorem migrate_downgrades_wrapped :
  migrate (json_object [("schema_version", Number (PosInt (2 ^ 32 + 1)))])
  = Ok (json_object [("schema_version", Number (PosInt 1))]).
Proof. reflexivity. Qed.

Section Located.
Context (f : Fmt) (gd : GraphDecoders).

Lemma locate_in_Some migrated field decode m :
  locate_in migrated field decode = Some m →
  ∃ items i item e, get field migrated = Some (Array items) ∧ items !! i = Some item ∧ decode item = Some e ∧
    m = field +:+ "[" +:+ pretty i +:+ "]: " +:+ e.
Proof.
  unfold locate_in. destruct (get field migrated) as [v|]; [|done]. cbn. destruct v as [| | | |items|]; try done. cbn.
  intros Hh%head_Some_elem_of. apply list_elem_of_omap in Hh as ([i item] & Hi & He). cbn in He.
  apply list_elem_of_lookup in Hi as [k Hk]. rewrite list_lookup_imap in Hk.
  destruct (items !! k) as [x|] eqn:Hx; [|done]. cbn in Hk. injection Hk as <- <-.
  destruct (decode x) as [e|] eqn:Hd; [|done]. injection He as <-. exists items, k, x, e. done.
Qed.
Lemma locate_in_None migrated field decode items :
  locate_in migrated field decode = None → get field migrated = Some (Array items) →
  Forall (λ item, decode item = None) items.
Proof.
  unfold locate_in. intros Hn Hg. rewrite Hg in Hn. cbn in Hn. apply head_None in Hn.
  apply Forall_forall. intros item [i Hi]%list_elem_of_lookup. destruct (decode item) as [e|] eqn:Hd; [|done]. exfalso.
  assert (Hin : field +:+ "[" +:+ pretty i +:+ "]: " +:+ e ∈ omap (λ ix : nat * value,
     (λ e, field +:+ "[" +:+ pretty ix.1 +:+ "]: " +:+ e) <$> decode ix.2) (imap pair items)).
  { apply list_elem_of_omap. exists (i, item). split; [|cbn; by rewrite Hd].
    apply list_elem_of_lookup. exists i. by rewrite list_lookup_imap, Hi. }
  rewrite Hn in Hin. by apply elem_of_nil in Hin.
Qed.

(** A decoding error is pinned on a member that really fails.  When the
    document's own fields decode, the message either names an element of one of
    the four member lists, at its position and with the decoder's message for
    that element alone, or it is the decoder's message for the whole document
    and every element decodes by itself. *)
Theorem located_error_exact (v migrated : value) (g : WorkflowGraph) (err : string) :
  migrate v = Ok migrated → gd_graph gd migrated = Err err → gd_graph gd (skeleton_of migrated) = Ok g →
  ∃ m, deserialize_graph f gd v = Err m ∧
    let lists := [("nodes", gd_node gd); ("inputs", gd_input gd); ("agents", gd_agent gd); ("edges", gd_edge gd)] in
    ((∃ field decode items i item e, (field, decode) ∈ lists ∧ get field migrated = Some (Array items) ∧
        items !! i = Some item ∧ decode item = Some e ∧ m = field +:+ "[" +:+ pretty i +:+ "]: " +:+ e) ∨
     (m = err ∧ ∀ field decode items, (field, decode) ∈ lists → get field migrated = Some (Array items) →
        Forall (λ item, decode item = None) items)).
Proof.
  intros Hm Hg Hs. unfold deserialize_graph. rewrite Hm, Hg. eexists. split; [reflexivity|]. cbv zeta.
  unfold locate_graph_error. rewrite Hs. set (lists := [_; _; _; _]). clearbody lists.
  destruct (head (omap _ lists)) as [m|] eqn:Hh; cbn.
  - left. apply head_Some_elem_of, list_elem_of_omap in Hh as ([field decode] & Hin & Hl).
    apply locate_in_Some in Hl as (items & i & item & e & ? & ? & ? & ?). by exists field, decode, items, i, item, e.
  - right. split; [done|]. intros field decode items Hin. apply locate_in_None. cbn in *.
    destruct (locate_in migrated field decode) as [m|] eqn:Hl; [|done]. exfalso. apply head_None in Hh.
    assert (Hx : m ∈ omap (λ fd : string * (value → option string), locate_in migrated fd.1 fd.2) lists)
      by (apply list_elem_of_omap; by exists (field, decode)).
    rewrite Hh in Hx. by apply elem_of_nil in Hx.
Qed.
End Located.

(** ** A fan-in of two sure predecessors *)

Definition joined : WorkflowGraph :=
  let node id kind := mkWfNode id kind 1 id Null [] in
  mkWorkflow CURRENT_SCHEMA_VERSION None "joined" [] []
    [node "t" Trigger; node "a" Transform; node "b" Transform; node "m" Merge]
    [mkEdge "t" "main" "a" "main"; mkEdge "t" "main" "b" "main"; mkEdge "a" "main" "m" "main";
     mkEdge "b" "main" "m" "main"].

Lemma refusals_exact_witness :
  graph_errors joined = [] ∧
  ((is_branching_node joined "a" = false ∧ surely joined "t" "a" "m") ∨
   (∀ i j a b, wg_nodes joined !! i = Some a → wg_nodes joined !! j = Some b →
      decides joined "m" "a" a → decides joined "m" "a" b → i = j) ∧
   (∀ a, a ∈ wg_nodes joined → decides joined "m" "a" a → ¬ decides_by_main joined "m" "a" a)).
Proof.
  assert (Hnil : graph_errors joined = []) by (vm_compute; reflexivity).
  split; [exact Hnil|].
  refine (proj1 (refusals_exact joined (mkWfNode "t" Trigger 1 "t" Null []) eq_refl) Hnil
            (mkWfNode "m" Merge 1 "m" Null []) "a" _ _ _).
  - do 3 right. left.
  - vm_compute. lia.
  - vm_compute. left.
Defined.

Definition sample_decoders : GraphDecoders :=
  mkDecoders (λ v, match get "nodes" v with Some (Array (_ :: _)) => Err "missing field `name`" | _ => Ok workflow_default end)
    (λ _, Some "missing field `name`") (λ _, None) (λ _, None) (λ _, None).

Lemma located_error_exact_witness :
  let v := json_object [("nodes", Array [Null])] in
  ∃ m, deserialize_graph (mkFmt id (λ _, "")) sample_decoders v = Err m ∧ m = "nodes[0]: missing field `name`".
Proof.
  intros v.
  destruct (located_error_exact (mkFmt id (λ _, "")) sample_decoders v
              (json_object [("nodes", Array [Null]); ("schema_version", Number (PosInt 1))])
              workflow_default "missing field `name`") as (m & Hm & _); [reflexivity..|].
  exists m. split; [exact Hm|]. vm_compute in Hm. injection Hm as <-. reflexivity.
Defined.
