(* ===== verification/EngineTheorems.v ===== *)
(** * Guarantees of runs, reviews and nested workflows *)

From S2P Require Import Prelude Json GraphTypes Checkpoint Builder Routing StepExec.
From S2P Require Import Executor RunLoop ExecFacts Workflow WfAnalysis WfState WfBuild WfBuildFacts.
From S2P Require Import WfPortFacts WfActivation WfSamples Text Expr Postcondition WfConfig ControlNodes NodeFacts.
From S2P Require Import AgentRequest MapItems ConfigTheorems NodeTheorems EngineRun ReviewNodes SubWorkflow.
From S2P Require Import Samples.
From Stdlib Require String.

(** ** The [run] slot *)

(** C12: What a run was started with cannot be changed from inside it: whatever
    its nodes emit, the [run] slot of the state it hands back (trigger payload,
    inputs, approvals, host id, depth counters, workspace) is the one the entry
    point seeded, and it is the [run] slot every activation of it reads. *)
Theorem run_slots_fixed {C} (f : Fmt) (token : Token)
    (attempt : NodeContext → HandlerData → value → list Item → nat → result EngineError NodeOutput)
    (elapsed : HandlerData → NodeContext → N) (fuel : nat) (env : Env) (seq local : N) (rec : Recorded)
    (cancelled tasks : bool) (g : WorkflowGraph) (i : RunInput) (config : RunConfig C) (w w' : World C)
    (rep : RunReport) (outcome : RunOutcome) (ids : GraphRunIds)
    (Hrun : build_and_run (activation_handler f token None attempt elapsed) fuel env seq local rec
              cancelled tasks g i config w = (w', rep))
    (Hend : rep_end rep = Drove (Ok (outcome, ids))) :
  ∃ inputs tid, resolve_inputs (wg_inputs g) (rin_inputs i) = Ok inputs ∧
    get "run" (ro_output outcome) = get "run" (seed_state g tid i inputs (rcf_overlay config)).
Proof.
  unfold build_and_run in Hrun.
  destruct (resolve_inputs _ _) as [inputs|e]; [|unfold mret in Hrun; by simplify_eq].
  destruct (build_graph _ _ _ _ _) as [[cg tid]|e] eqn:Hb; [|unfold mret in Hrun; by simplify_eq].
  unfold mbind, mret in Hrun.
  destruct (run_with_thread _ _ _ _ _ w) as [w1 o] eqn:Ho.
  destruct o as [[e|e]| |]; simplify_eq; cbn in Hend; simplify_eq.
  exists inputs, tid. split; [done|].
  refine (proj2 (execute_run_slot f token attempt elapsed seq _ _ g cg tid _ fuel env
    (seed_state g tid i inputs (rcf_overlay config)) _ _ _ _ _ w e Hb _ _)).
  - split; [apply seed_state_object|reflexivity].
  - unfold run_with_thread in Ho. by rewrite Ho.
Qed.

(** ** Fields of the seeded [run] slot *)

Lemma run_merge_keeps s k fields key :
  (∃ v, fields = Object [(k, v)] ∧ k ≠ REPLACE) → k ≠ key → is_object s = true →
  (∃ r, get "run" s = Some (Object r)) →
  is_object (merge_run s fields) = true ∧ (∃ r, get "run" (merge_run s fields) = Some (Object r)) ∧
  (get "run" (merge_run s fields) >>? get key) = (get "run" s >>? get key).
Proof.
  intros (v & -> & Hk) Hne Hs [r Hr]. destruct s as [| | | | |m]; try done. cbn in Hr.
  assert (E : merge_run (Object m) (Object [(k, v)]) =
    Object (obj_insert "run" (Object (obj_insert k (wf_merge (default Null (obj_get k r)) v) r)) m)).
  { unfold merge_run. change (json_object [("run", Object [(k, v)])])
      with (Object [("run", Object [(k, v)])]).
    rewrite wf_merge_single by done. change (object_or_empty (Object m)) with m. rewrite Hr.
    change (default Null (Some (Object r))) with (Object r). by rewrite wf_merge_single. }
  rewrite E. cbn [get is_object]. rewrite obj_get_insert_eq, Hr. split_and!; [done|by eexists|].
  cbn [and_then get]. by rewrite obj_get_insert_ne.
Qed.

Record seeded (s : value) (key : string) (v : option value) : Prop := {
  sd_object : is_object s = true;
  sd_run : ∃ r, get "run" s = Some (Object r);
  sd_field : (get "run" s >>? get key) = v
}.

Lemma seeded_opt s k x key v :
  seeded s key v → k ≠ key → k ≠ REPLACE → seeded (merge_run_opt s k x) key v.
Proof.
  intros [H1 H2 H3] Hne Hk. destruct x as [x|]; [|done]. cbn.
  destruct (run_merge_keeps s k (Object [(k, x)]) key) as (? & ? & E); eauto.
  split; [done|done|]. by rewrite <- H3, <- E.
Qed.

Lemma seeded_nodes s u key v : seeded s key v → nodes_only u → seeded (wf_merge s u) key v.
Proof.
  intros [H1 [r H2] H3] Hu. destruct (nodes_only_run_slot (get "run" s) u s Hu) as [Ho Hr]; [done|].
  split; [done|exists r; by rewrite Hr|by rewrite Hr].
Qed.

(** The approvals an activation of a top-level run reads are the caller's
    explicit ones. *)
Lemma seeded_approvals g tid i inputs :
  seeded (seed_state g tid i inputs None) "approvals" (Some (json_strings (rin_approvals i))).
Proof.
  unfold seed_state. do 2 (apply seeded_opt; [|done..]).
  apply seeded_nodes; [|apply items_update_nodes]. apply seeded_opt; [|done..].
  split; [done|by eexists|done].
Qed.

(** ** Reviews *)










(** ** Nested workflows *)

Section Nesting.
Context (f : Fmt) (jq : string → value → option value) (sd : Serde).
Context (de_graph : value → result string WorkflowGraph).
Context (resolver : string → result EngineError WorkflowGraph).
Context (fs : Fs) (managed : option (string → string → WorkdirCheck)).
Notation child_call := (child_call f jq sd de_graph resolver fs managed).

(** A node of a run whose [run] slot is [run] starts a child run whose [run] slot
    is [run']. *)
Definition nests (run run' : value) : Prop :=
  ∃ c scope input call inputs tid, ec_run c = run ∧ child_call c scope input = Ok call ∧
    get "run" (seed_state (cc_graph call) tid (cc_input call) inputs
      (Some (sub_overlay (cc_depth call) (cc_max_depth call) (cc_workspace call)))) = Some run'.

(** [run'] is the [run] slot of a run [n] levels below one with slot [run]. *)
Inductive nested : nat → value → value → Prop :=
| nested_here run : nested 0 run run
| nested_below n run run' run'' : nested n run run' → nests run' run'' → nested (S n) run run''.

Lemma child_call_depth c scope input call :
  child_call c scope input = Ok call →
  cc_depth call = (current_depth (ec_run c) + 1)%Z ∧ cc_max_depth call = nesting_cap (ec_run c) ∧
  (cc_depth call ≤ cc_max_depth call)%Z.
Proof.
  unfold SubWorkflow.child_call. intros (child & _ & H)%bind_Ok_inv. case_decide; [done|].
  apply bind_Ok_inv in H as (? & _ & H). apply bind_Ok_inv in H as (? & _ & H).
  apply bind_Ok_inv in H as (? & _ & H). injection H as <-. cbn. split_and!; [done|done|lia].
Qed.

Lemma sub_overlay_fields depth cap ws :
  sub_overlay depth cap ws =
  Object ([("max_sub_workflow_depth", value_of_i64 cap); ("sub_workflow_depth", value_of_i64 depth)] ++
          match ws with Some w => [("workspace", Str w)] | None => [] end).
Proof. by destruct ws. Qed.

(** The overlay of a child run decides its depth and cap, whatever its own
    trigger declares. *)
Lemma overlay_seeds s depth cap ws :
  is_object s = true → (∃ r, get "run" s = Some (Object r)) → (0 ≤ depth)%Z → (0 < cap)%Z →
  ∃ r, get "run" (merge_run s (sub_overlay depth cap ws)) = Some r ∧
    current_depth r = depth ∧ nesting_cap r = cap.
Proof.
  intros Hs [r Hr] Hd Hc. destruct s as [| | | | |m]; try done. cbn in Hr.
  assert (Hn : ∀ z, (0 ≤ z)%Z → value_of_i64 z = Number (PosInt z)).
  { intros z Hz. unfold value_of_i64. by rewrite decide_True. }
  unfold merge_run. rewrite sub_overlay_fields, !Hn by lia.
  assert (E : ∀ o, wf_merge (Object m) (json_object [("run", o)]) =
                   Object (obj_insert "run" (wf_merge (Object r) o) m)).
  { intros o. change (json_object [("run", o)]) with (Object [("run", o)]).
    rewrite wf_merge_single by done. change (object_or_empty (Object m)) with m. by rewrite Hr. }
  rewrite E. cbn [get]. rewrite obj_get_insert_eq. eexists. split; [done|].
  unfold current_depth, nesting_cap, positive_u64.
  destruct ws as [w|]; cbn [wf_merge get object_or_empty fmap option_fmap option_map app];
    repeat first [rewrite obj_get_insert_eq | rewrite obj_get_insert_ne by done]; cbn;
    by rewrite decide_True.
Qed.

Lemma initial_run_object g tid i inputs :
  let s := seed_state g tid i inputs None in
  is_object s = true ∧ ∃ r, get "run" s = Some (Object r).
Proof. destruct (seeded_approvals g tid i inputs) as [H1 H2 _]. done. Qed.

Lemma nests_depth run run' :
  (0 ≤ current_depth run)%Z → nests run run' →
  current_depth run' = (current_depth run + 1)%Z ∧ nesting_cap run' = nesting_cap run ∧
  (current_depth run' ≤ nesting_cap run')%Z.
Proof.
  intros Hpos (c & scope & input & call & inputs & tid & <- & Hcall & Hrun').
  destruct (child_call_depth _ _ _ _ Hcall) as (Hd & Hm & Hle).
  destruct (initial_run_object (cc_graph call) tid (cc_input call) inputs) as [Ho Hr].
  destruct (overlay_seeds _ (cc_depth call) (cc_max_depth call) (cc_workspace call) Ho Hr)
    as (r & Er & H1 & H2); [lia..|].
  change (seed_state (cc_graph call) tid (cc_input call) inputs
    (Some (sub_overlay (cc_depth call) (cc_max_depth call) (cc_workspace call)))) with
    (merge_run (seed_state (cc_graph call) tid (cc_input call) inputs None)
       (sub_overlay (cc_depth call) (cc_max_depth call) (cc_workspace call))) in Hrun'.
  rewrite Er in Hrun'. injection Hrun' as <-. rewrite H1, H2. split_and!; [lia|done|lia].
Qed.

(** C21: Nesting ends: however workflows refer to one another, directly, in a
    cycle, inline or by id, a run [n] levels below another has its depth counter
    exactly [n] higher and the same cap, and the counter never passes the cap;
    so a chain of nested runs is at most as long as the cap of its root. *)
Theorem nesting_bounded (n : nat) (run run' : value)
    (Hroot : (0 ≤ current_depth run)%Z) (Hchain : nested n run run') :
  current_depth run' = (current_depth run + Z.of_nat n)%Z ∧ nesting_cap run' = nesting_cap run ∧
  (n = 0 ∨ (current_depth run + Z.of_nat n ≤ nesting_cap run)%Z).
Proof.
  induction Hchain as [run|n run run' run'' _ IH Hn]; [split_and!; [lia|done|by left]|].
  destruct (IH Hroot) as (Hd & Hc & _). destruct (nests_depth run' run'') as (Hd' & Hc' & Hle); [lia|done|].
  rewrite Hc', Hd', Hc, Hd in *. split_and!; [lia|done|right; lia].
Qed.
End Nesting.

(** ** Approvals across the boundary *)

Lemma sort_strings_elem l x : x ∈ sort_strings l ↔ x ∈ l.
Proof.
  assert (Hi : ∀ y l, x ∈ insert_string y l ↔ x = y ∨ x ∈ l).
  { intros y m. induction m as [|z m IH]; cbn; [set_solver|]. destruct (String.leb y z); set_solver. }
  induction l as [|y l IH]; [done|]. unfold sort_strings in *. cbn. rewrite Hi. set_solver.
Qed.

Lemma dedup_strings_elem l x : x ∈ dedup_strings l ↔ x ∈ l.
Proof.
  induction l as [|y l IH]; [done|]. cbn. destruct l as [|z l]; [done|]. case_decide; set_solver.
Qed.

(** An approval crosses into a child exactly when it is addressed to it: a
    gate is approved for the child of a [sub_workflow] node if and only if the
    gate's namespaced id (the one the parent's pending list shows) is among the
    ids the run's trigger or the resume value approve; ids of the parent's own
    gates or of other nodes reach no child. *)
Theorem child_gates_exact (c : ExecContext) (gate : string) :
  gate ∈ approvals_for_child c ↔
  namespaced_gate (nd_id (ec_node c)) gate ∈
    listed_strings (get "trigger" (ec_run c) >>? get "approvals") ++
    listed_strings (ec_resume c >>? get "approved").
Proof.
  unfold approvals_for_child, strip_gates, namespaced_gate.
  rewrite dedup_strings_elem, sort_strings_elem, !elem_of_app, !list_elem_of_omap.
  set (p := nd_id (ec_node c) +:+ GATE_NAMESPACE).
  assert (Hp : nd_id (ec_node c) +:+ GATE_NAMESPACE +:+ gate = p +:+ gate).
  { unfold p. generalize (nd_id (ec_node c)). intros s. induction s as [|a s IH]; [done|].
    change (SCons a (s +:+ GATE_NAMESPACE +:+ gate) = SCons a ((s +:+ GATE_NAMESPACE) +:+ gate)).
    by rewrite IH. }
  rewrite Hp. split.
  - intros [(s & Hs & ->%strip_prefix_Some)|(s & Hs & ->%strip_prefix_Some)]; eauto.
  - intros [H|H]; [left|right]; exists (p +:+ gate); split; try done; apply strip_prefix_app.
Qed.

(** ** Samples *)

(** A workflow of a trigger and one node, whose attempts pass their input on. *)
Definition two_step : WorkflowGraph :=
  sample_workflow [sample_node "t" Trigger Null; sample_node "a" Transform Null]
    [sample_edge "t" "main" "a"].
Definition pass_attempt (_ : NodeContext) (_ : HandlerData) (_ : value) (input : list Item) (_ : nat)
    : result EngineError NodeOutput := Ok (output_main input).
Definition sample_handler_of : HandlerData → NodeHandler value value :=
  activation_handler sample_fmt no_cancel None pass_attempt (λ _ _, 0%N).
Definition sample_config : RunConfig (MemStore value) := mkRunConfig mem_ops "t" false None.
Definition sample_drive (g : WorkflowGraph) (i : RunInput) : World (MemStore value) * RunReport :=
  build_and_run sample_handler_of 10 (sample_env select_first) 0 0 (mkRecorded [] None) false false g i
    sample_config (mkWorld mem_new [] [] 0).
Definition sample_input : RunInput := with_approvals (run_input (Str "payload")) ["a"].
Definition sample_outcome : RunOutcome * GraphRunIds :=
  match rep_end (sample_drive two_step sample_input).2 with
  | Drove (Ok o) => o
  | _ => (mkRunOutcome Null [] false, mkGraphRunIds "" "")
  end.

Lemma run_slots_fixed_witness :
  get "run" (ro_output sample_outcome.1) = Some (json_object
    [("trigger", Str "payload"); ("inputs", Object []); ("approvals", json_strings ["a"])]).
Proof.
  destruct (run_slots_fixed sample_fmt no_cancel pass_attempt (λ _ _, 0%N) 10 (sample_env select_first)
    0 0 (mkRecorded [] None) false false two_step sample_input sample_config (mkWorld mem_new [] [] 0)
    (sample_drive two_step sample_input).1 (sample_drive two_step sample_input).2
    sample_outcome.1 sample_outcome.2) as (inputs & tid & Hi & Hr).
  - exact (surjective_pairing (sample_drive two_step sample_input)).
  - vm_compute. reflexivity.
  - rewrite Hr. vm_compute in Hi. injection Hi as <-. reflexivity.
Defined.

(** A review in front of a person, with the host's provider. *)
Definition review_node (id request_id : string) : Node :=
  sample_node id Approval (json_object [("request_id", Str request_id); ("subject", Str "draft")]).
Definition review_workflow : WorkflowGraph :=
  sample_workflow [sample_node "t" Trigger Null; review_node "review" "r-1"]
    [sample_edge "t" "main" "review"].
Definition run_slot (g : WorkflowGraph) (i : RunInput) (overlay : option value) : value :=
  default Null (get "run" (seed_state g "t" i [] overlay)).
Definition review_context (run : value) : ExecContext :=
  mkExec (review_node "review" "r-1") [] run Null [] None None 2.


(** The same review inside a child workflow, and the node that runs it. *)
Definition parent_node : Node :=
  sample_node "sub" SubWorkflow (json_object [("workflow", Str "child document")]).
Definition parent_workflow : WorkflowGraph :=
  sample_workflow [sample_node "t" Trigger Null; parent_node] [sample_edge "t" "main" "sub"].
Definition parent_context (i : RunInput) : ExecContext :=
  mkExec parent_node [] (run_slot parent_workflow i None) Null [] None None 2.
Definition any_dir : Fs := mkFs (λ p, Ok p) (λ _, true).
Definition sample_child_call (c : ExecContext) : result EngineError ChildCall :=
  child_call sample_fmt no_jq no_serde (λ _, Ok review_workflow) (λ id, Err (ECapability id)) any_dir None
    c (expr_scope c) (ec_input c).
Definition child_run_slot (call : ChildCall) : value :=
  run_slot (cc_graph call) (cc_input call)
    (Some (sub_overlay (cc_depth call) (cc_max_depth call) (cc_workspace call))).

Lemma nesting_bounded_witness :
  ∃ run', nested sample_fmt no_jq no_serde (λ _, Ok review_workflow) (λ id, Err (ECapability id)) any_dir None
            1 (run_slot parent_workflow (run_input Null) None) run' ∧
    current_depth run' = 1%Z ∧ nesting_cap run' = 8%Z.
Proof.
  set (call := match sample_child_call (parent_context (run_input Null)) with
               | Ok call => call
               | Err _ => mkChildCall parent_workflow (run_input Null) 0 0 None
               end).
  assert (Hn : nested sample_fmt no_jq no_serde (λ _, Ok review_workflow) (λ id, Err (ECapability id))
            any_dir None 1 (run_slot parent_workflow (run_input Null) None) (child_run_slot call)).
  { eapply nested_below; [apply nested_here|].
    exists (parent_context (run_input Null)), (expr_scope (parent_context (run_input Null))), [], call,
      [], "t". split; [reflexivity|]. split; vm_compute; reflexivity. }
  exists (child_run_slot call). split; [exact Hn|].
  destruct (nesting_bounded sample_fmt no_jq no_serde (λ _, Ok review_workflow)
    (λ id, Err (ECapability id)) any_dir None 1 (run_slot parent_workflow (run_input Null) None)
    (child_run_slot call)) as (Hd & Hc & _); [vm_compute; discriminate|exact Hn|].
  rewrite Hd, Hc. split; vm_compute; reflexivity.
Defined.

(** A caller can approve a review inside a child workflow by himself.  With a
    trigger payload that lists the namespaced id of the child's review and no
    approval of the host, the [sub_workflow] node starts the child with that
    review among its explicit approvals, and the review is approved although no
    provider was asked and nobody resumed the run. *)
Theorem child_review_self_approved :
  let caller := run_input (json_object [("approvals", json_strings ["sub::review"])]) in
  validate_graph sample_fmt no_serde parent_workflow = [] ∧
  validate_graph sample_fmt no_serde review_workflow = [] ∧
  rin_approvals caller = [] ∧
  ∃ call out, sample_child_call (parent_context caller) = Ok call ∧
    rin_approvals (cc_input call) = ["review"] ∧
    execute_approval sample_fmt no_jq None (review_context (child_run_slot call)) = ([], Ok out) ∧
    out_port out = Some "approved".
Proof.
  do 2 (split; [vm_compute; reflexivity|]). split; [reflexivity|].
  eexists _, _. split; [vm_compute; reflexivity|]. split; [reflexivity|].
  split; vm_compute; reflexivity.
Qed.

(** An observer that saw a run start may never see it finish: a workflow that
    validates but whose lowering fails ends with an error after
    [on_run_start] and without [on_run_finish]. *)
Theorem start_without_finish :
  validate_graph sample_fmt no_serde end_workflow = [] ∧
  ∃ e, (sample_drive end_workflow (run_input Null)).2 =
       mkReport [OnRunStart "run-0"] [] (Drove (Err e)).
Proof. split; [vm_compute; reflexivity|]. eexists. vm_compute. reflexivity. Qed.
