(* ===== verification/ReviewTheorems.v ===== *)
(** * Guarantees of waiting nodes and background tasks *)

From stdpp Require Import sorting.
From S2P Require Import Prelude Json GraphTypes Workflow WfAnalysis WfState WfBuild WfActivation.
From S2P Require Import WfPortFacts WfSamples Text Expr ControlNodes NodeFacts NodeTheorems ReviewNodes.
From Stdlib Require String.

(** ** Polling *)

Lemma recorded_polls_next c c' z fields out :
  nd_id (ec_node c) ≠ REPLACE → follows c out c' → (0 ≤ z)%Z →
  out_meta out = Some (json_object fields) → NoDup fields.*1 → (POLLS_KEY, value_of_i64 z) ∈ fields →
  recorded_polls c' = z.
Proof.
  intros Hid (state & l1 & l2 & step & Hn & Hl2 & Hns) Hz Hm Hnd Hin.
  unfold recorded_polls. rewrite Hn, Hns, slot_of_nodes_state.
  destruct (json_object_field _ _ _ Hin Hnd) as (extra & Hx & Hf). rewrite Hx in Hm.
  rewrite (number_field POLLS_KEY z _ _ extra); try done. by_decision.
Qed.

(** Activations of a node, each after the update of the one before was
    committed, all asking to be run again. *)
Inductive reentered (exec : ExecContext → result EngineError NodeOutput) : nat → ExecContext → ExecContext → Prop :=
| reentered_here c : reentered exec 0 c c
| reentered_next n c c' c'' out after :
    reentered exec n c c' → exec c' = Ok out → out_control out = Some (CReenter after) →
    follows c' out c'' → reentered exec (S n) c c''.

Lemma reentered_node exec n c c' : reentered exec n c c' → ec_node c' = ec_node c.
Proof. induction 1 as [|n c c' c'' out after _ IH _ _ (? & ? & ? & ? & Hn & _)]; [done|]. by rewrite Hn, IH. Qed.

(** Each request counts one poll and is only made below the budget. *)
Definition counts_polls (exec : ExecContext → result EngineError NodeOutput) (budget : Node → Z) : Prop :=
  ∀ c out after, exec c = Ok out → out_control out = Some (CReenter after) → (0 ≤ recorded_polls c)%Z →
    (recorded_polls c < budget (ec_node c))%Z ∧
    ∃ fields, out_meta out = Some (json_object fields) ∧ NoDup fields.*1 ∧
      (POLLS_KEY, value_of_i64 (recorded_polls c + 1)) ∈ fields.

Lemma reentered_bounded exec budget n c c' :
  counts_polls exec budget → nd_id (ec_node c) ≠ REPLACE → (0 ≤ recorded_polls c)%Z →
  reentered exec n c c' →
  recorded_polls c' = (recorded_polls c + Z.of_nat n)%Z ∧
  (n = 0 ∨ (recorded_polls c + Z.of_nat n ≤ budget (ec_node c))%Z).
Proof.
  intros Hc Hid H0. induction 1 as [c|n c c' c'' out after Hr IH He Hctl Hf]; [split; [lia|by left]|].
  destruct (IH Hid H0) as [Hp _]. pose proof (reentered_node _ _ _ _ Hr) as Hn.
  destruct (Hc c' out after He Hctl) as (Hlt & fields & Hm & Hnd & Hin); [lia|].
  rewrite (recorded_polls_next c' c'' (recorded_polls c' + 1) fields out); try done; [|by rewrite Hn|lia].
  rewrite Hn in Hlt. split; [lia|right; lia].
Qed.

Definition gate_budget (n : Node) : Z := positive_or (nd_config n) "max_polls" GATE_MAX_POLLS.

Lemma gate_counts f jq poll : counts_polls (execute_gate f jq poll) gate_budget.
Proof.
  intros c out after He Hctl Hpos. unfold execute_gate in He.
  apply bind_Ok_inv in He as (policy & _ & He). apply bind_Ok_inv in He as (aw & _ & He).
  apply bind_Ok_inv in He as (col & _ & He).
  destruct (release_evaluate _ _ _ _) eqn:Er; [by injection He as <-| |].
  - apply release_wait in Er. apply bool_decide_eq_false in Er.
    destruct (gate_wait _); injection He as <-; [|done]. split; [unfold gate_budget; lia|].
    eexists. split; [reflexivity|]. split; [by_decision|left].
  - destruct (gate_timeout _); by simplify_eq.
Qed.

(** A gate that waits by polling waits at most [max_polls] times: along any
    sequence of activations that each asked to be run again, whatever other
    nodes commit in between, the recorded polls count the requests exactly and
    stay within the budget. *)
Theorem gate_wait_bounded (f : Fmt) (jq : string → value → option value)
    (poll : option (string → result EngineError TaskState)) (n : nat) (c c' : ExecContext)
    (Hid : nd_id (ec_node c) ≠ REPLACE) (Hstart : recorded_polls c = 0%Z)
    (Hwaits : reentered (execute_gate f jq poll) n c c') :
  recorded_polls c' = Z.of_nat n ∧ (n = 0 ∨ (Z.of_nat n ≤ gate_budget (ec_node c))%Z).
Proof.
  destruct (reentered_bounded _ _ n c c' (gate_counts f jq poll) Hid) as [Hp Hb]; [lia|done|].
  rewrite Hstart in *. split; [lia|]. destruct Hb; [by left|right; lia].
Qed.

(** ** What a gate emits *)

(** What an awaited task contributes. *)
Definition settled_value (s : option TaskState) : option value :=
  match s with
  | Some (TaskDone v) => Some v
  | Some (TaskFailed m) => Some (failed_result m)
  | _ => None
  end.

Lemma gate_results_spec f poll c l : ∀ index rs failed,
  gate_results f poll c index l = Ok (rs, failed) →
  ∃ states, Forall2 (λ a s, awaited_state f poll c a = Ok s) l states ∧
    rs = omap (λ p, (λ v, (p.1, v)) <$> settled_value p.2) (imap (λ i s, (index + i, s)) states).
Proof.
  induction l as [|a l IH]; intros index rs failed; cbn.
  { intros [= <- <-]. exists []. split; [constructor|done]. }
  intros (s & Hs & H)%bind_Ok_inv. apply bind_Ok_inv in H as ([rs' failed'] & Hr & H).
  destruct (IH _ _ _ Hr) as (states & Hst & ->). exists (s :: states). split; [by constructor|].
  assert (Hi : imap ((λ i s, (index + i, s)) ∘ S) states = imap (λ i s, (S index + i, s)) states).
  { apply imap_ext. intros i x _. cbn. by rewrite Nat.add_succ_r. }
  cbn [imap omap list_omap]. rewrite Hi, Nat.add_0_r.
  destruct s as [[| |v|m]|]; cbn in *; by simplify_eq.
Qed.

Lemma gate_items_sorted (rs : list (nat * value)) :
  StronglySorted (λ a b, a.1 < b.1) rs → foldr insert_result [] rs = rs.
Proof.
  induction 1 as [|r rs Hs IH Hr]; [done|]. cbn. rewrite IH. destruct rs as [|x rs]; [done|].
  cbn. apply Forall_cons in Hr as [Hx _]. by rewrite decide_True by lia.
Qed.

Lemma omap_imap_sorted (states : list (option TaskState)) : ∀ index,
  StronglySorted (λ a b : nat * value, a.1 < b.1)
    (omap (λ p, (λ v, (p.1, v)) <$> settled_value p.2) (imap (λ i s, (index + i, s)) states)) ∧
  Forall (λ p : nat * value, index ≤ p.1)
    (omap (λ p, (λ v, (p.1, v)) <$> settled_value p.2) (imap (λ i s, (index + i, s)) states)).
Proof.
  induction states as [|s states IH]; intros index; [split; constructor|].
  assert (Hi : imap ((λ i s, (index + i, s)) ∘ S) states = imap (λ i s, (S index + i, s)) states).
  { apply imap_ext. intros i x _. cbn. by rewrite Nat.add_succ_r. }
  cbn [imap omap list_omap]. rewrite Hi, Nat.add_0_r. destruct (IH (S index)) as [Hs Hf].
  assert (Hf' : Forall (λ p : nat * value, index ≤ p.1)
    (omap (λ p, (λ v, (p.1, v)) <$> settled_value p.2) (imap (λ i s, (S index + i, s)) states))).
  { eapply Forall_impl; [done|]. intros p Hp. cbn in Hp. lia. }
  cbn [fst snd]. destruct (settled_value s) as [v|]; cbn [fmap option_fmap option_map]; [|by split].
  split; constructor; try done.
Qed.

(** A gate that lets results through emits them in the order the tickets were
    listed, whatever order they settled in: one item per settled task, paired
    with the task's position, a failed one as a failure item, and under the
    policy [all] one for every task. *)
Theorem gate_emits_in_order (f : Fmt) (jq : string → value → option value)
    (poll : option (string → result EngineError TaskState)) (c : ExecContext) (out : NodeOutput)
    (awaiting : list Awaited)
    (Haw : awaited f jq c = Ok awaiting)
    (Hexec : execute_gate f jq poll c = Ok out) (Hemit : out_control out = None) :
  ∃ states, Forall2 (λ a s, awaited_state f poll c a = Ok s) awaiting states ∧
    out_items out = omap (λ p, (λ v, paired_with (item_new v) p.1) <$> settled_value p.2)
                      (imap pair states) ∧
    (release_from_config f (nd_config (ec_node c)) (nd_id (ec_node c)) = Ok RAll →
     out_port out = None → gate_timeout (nd_config (ec_node c)) = GateError →
     length (out_items out) = length awaiting).
Proof.
  unfold execute_gate in Hexec. apply bind_Ok_inv in Hexec as (policy & Hpol & He).
  rewrite Haw in He. cbn [rbind] in He. apply bind_Ok_inv in He as ([rs failed] & Hc & He).
  destruct (gate_results_spec _ _ _ _ _ _ _ Hc) as (states & Hst & Hrs). exists states.
  split; [done|]. cbn [fst] in He.
  assert (Hitems : gate_items rs =
    omap (λ p, (λ v, paired_with (item_new v) p.1) <$> settled_value p.2) (imap pair states)).
  { unfold gate_items. rewrite gate_items_sorted by (rewrite Hrs; apply omap_imap_sorted).
    rewrite Hrs. clear. change (imap pair states) with (imap (λ i s, (0 + i, s)) states).
    generalize (imap (λ i s, (0 + i, s)) states). intros l.
    induction l as [|[i s] l IH]; [done|]. cbn. by destruct (settled_value s); cbn; rewrite IH. }
  assert (Hlen : length (gate_items rs) = length rs).
  { unfold gate_items. rewrite gate_items_sorted by (rewrite Hrs; apply omap_imap_sorted).
    apply length_fmap. }
  assert (Hle : length rs ≤ length awaiting).
  { rewrite Hrs, (Forall2_length _ _ _ Hst). clear. rewrite <- (length_imap (λ i s, (0 + i, s)) states).
    generalize (imap (λ i s, (0 + i, s)) states). intros l.
    induction l as [|p l IH]; [done|]. cbn. destruct (settled_value p.2); cbn; lia. }
  destruct (release_evaluate policy _ _ _) eqn:Er.
  - injection He as <-. split; [done|]. intros Hall _ _. rewrite Hall in Hpol. injection Hpol as <-.
    apply release_all_emit in Er. cbn [out_items with_meta output_main]. rewrite Hlen. lia.
  - destruct (gate_wait _); by simplify_eq.
  - destruct (gate_timeout _) eqn:Et; simplify_eq; (split; [done|]); intros ? ? ?; done.
Qed.

(** ** Background tasks *)

Inductive TaskOp :=
| OpStart | OpBegin (ticket : string) | OpFinish (ticket : string) (res : result EngineError value)
| OpCancel (ticket : string).

Definition task_step (f : Fmt) (r : TaskRunner) (op : TaskOp) : TaskRunner :=
  match op with
  | OpStart => (task_start r).1
  | OpBegin t => task_begin r t
  | OpFinish t res => task_finish f r t res
  | OpCancel t => (task_cancel f r t).1
  end.

(** Every ticket of the table was issued. *)
Definition issued (r : TaskRunner) : Prop :=
  ∀ t, is_Some (tr_tasks r !! t) → ∃ n, (n ≤ tr_next r)%N ∧ t = ticket_name n.

Lemma ticket_name_inj n m : ticket_name n = ticket_name m → n = m.
Proof. unfold ticket_name. intros H. by simplify_eq. Qed.

Lemma fresh_ticket r : issued r → tr_tasks r !! ticket_name (tr_next r + 1) = None.
Proof.
  intros Hi. destruct (tr_tasks r !! _) eqn:E; [|done].
  destruct (Hi (ticket_name (tr_next r + 1))) as (n & Hn & Ht%ticket_name_inj); [by rewrite E|lia].
Qed.

Lemma task_set_lookup r t s t' :
  tr_tasks (task_set r t s) !! t' =
  match tr_tasks r !! t' with
  | Some s' => if decide (t = t') then Some (if is_settled s' then s' else s) else Some s'
  | None => None
  end.
Proof.
  unfold task_set. destruct (tr_tasks r !! t) as [s0|] eqn:E.
  - destruct (is_settled s0) eqn:Es; cbn.
    + destruct (tr_tasks r !! t') eqn:E'; [|done]. case_decide; [|done]. subst. by simplify_eq; rewrite Es.
    + destruct (decide (t = t')) as [->|Hne].
      * rewrite lookup_insert_eq, E. by rewrite Es.
      * rewrite lookup_insert_ne by done. by destruct (tr_tasks r !! t').
  - destruct (tr_tasks r !! t') eqn:E'; [|done]. case_decide; [subst; congruence|done].
Qed.

Lemma task_set_next r t s : tr_next (task_set r t s) = tr_next r.
Proof. unfold task_set. destruct (tr_tasks r !! t) as [s0|]; [|done]. by destruct (is_settled s0). Qed.

Lemma task_step_cases f r op :
  (task_step f r op = (task_start r).1) ∨ (∃ t s, task_step f r op = task_set r t s) ∨ task_step f r op = r.
Proof.
  destruct op as [|t|t res|t]; cbn; [by left|right; left; by eexists _, _..|].
  unfold task_cancel. destruct (task_poll f r t); cbn; eauto.
Qed.

Lemma task_step_issued f r op : issued r → issued (task_step f r op).
Proof.
  intros Hi. destruct (task_step_cases f r op) as [->|[(t & s & ->)| ->]]; [| |done].
  - intros t [s Hs]. cbn in Hs |- *.
    apply lookup_insert_Some in Hs as [[<- _]|[_ H]]; [eexists; split; [|done]; lia|].
    destruct (Hi t) as (n & Hn & ->); [by eexists|]. exists n. split; [lia|done].
  - intros t' [s' H]. rewrite task_set_lookup in H. rewrite task_set_next. apply Hi.
    destruct (tr_tasks r !! t'); [by eexists|done].
Qed.

Lemma task_step_settled f r op t s :
  issued r → tr_tasks r !! t = Some s → is_settled s = true → tr_tasks (task_step f r op) !! t = Some s.
Proof.
  intros Hi Ht Hs. destruct (task_step_cases f r op) as [->|[(t' & s' & ->)| ->]]; [| |done].
  - cbn. rewrite lookup_insert_ne; [done|]. intros Heq. rewrite <- Heq, fresh_ticket in Ht; done.
  - rewrite task_set_lookup, Ht. case_decide; [|done]. by rewrite Hs.
Qed.

(** A background task settles once: after any operations on the runner, by
    its worker, by the run that cancels it or by others starting tasks, a
    settled task still has the result it settled with, and a ticket handed out
    is never one handed out before. *)
Theorem task_settles_once (f : Fmt) (before after : list TaskOp) (ticket : string) (s : TaskState)
    (Hpoll : task_poll f (foldl (task_step f) task_runner_new before) ticket = Ok s)
    (Hsettled : is_settled s = true) :
  let r := foldl (task_step f) task_runner_new (before ++ after) in
  task_poll f r ticket = Ok s ∧ (task_start r).2 ≠ ticket.
Proof.
  cbv zeta. rewrite foldl_app. set (r0 := foldl (task_step f) task_runner_new before) in *.
  assert (Hi0 : issued r0).
  { unfold r0. assert (H : issued task_runner_new) by (intros t [x Hx]; cbn in Hx; by rewrite lookup_empty in Hx).
    clear -H. revert H. generalize task_runner_new. induction before as [|op l IH]; intros r H; [done|].
    cbn. by apply IH, task_step_issued. }
  assert (Ht : tr_tasks r0 !! ticket = Some s).
  { unfold task_poll, ok_or in Hpoll. destruct (tr_tasks r0 !! ticket); by simplify_eq. }
  clear Hpoll. clearbody r0. revert r0 Hi0 Ht. induction after as [|op l IH]; intros r Hi Ht.
  - cbn. unfold task_poll. rewrite Ht. split; [done|]. cbn. intros <-.
    by rewrite fresh_ticket in Ht.
  - cbn. apply IH; [by apply task_step_issued|by apply task_step_settled].
Qed.

(** ** Samples *)

(** A gate on two tickets: the first running, the second done. *)
Definition ticket_gate (config : list (string * value)) : Node :=
  sample_node "g" Gate (json_object (("tickets", json_strings ["task-1"; "task-2"]) :: config)).
Definition gate_context (config : list (string * value)) (nodes : value) : ExecContext :=
  mkExec (ticket_gate config) [] Null nodes [] None None 3.
Definition second_done (ticket : string) : result EngineError TaskState :=
  Ok (if decide (ticket = "task-2") then TaskDone (Str "two") else TaskRunning).
Definition gate_out (poll : string → result EngineError TaskState) (c : ExecContext) : NodeOutput :=
  match execute_gate sample_fmt no_jq (Some poll) c with Ok out => out | Err _ => empty_output end.

Lemma gate_wait_bounded_witness :
  ∃ c', reentered (execute_gate sample_fmt no_jq (Some second_done)) 1 (gate_context [] Null) c' ∧
    recorded_polls c' = 1%Z.
Proof.
  set (c := gate_context [] Null).
  set (c' := gate_context [] (nodes_state (wf_merge Null (activation_update "g" (gate_out second_done c) 3)))).
  assert (Hr : reentered (execute_gate sample_fmt no_jq (Some second_done)) 1 c c').
  { eapply (reentered_next _ 0 c c c' (gate_out second_done c) 250).
    - apply reentered_here.
    - vm_compute. reflexivity.
    - vm_compute. reflexivity.
    - exists Null, [], [], 3. split; [reflexivity|]. split; [constructor|reflexivity]. }
  exists c'. split; [exact Hr|].
  destruct (gate_wait_bounded sample_fmt no_jq (Some second_done) 1 c c') as [Hp _];
    [discriminate|vm_compute; reflexivity|exact Hr|exact Hp].
Defined.

Definition any_gate : ExecContext := gate_context [("release", Str "any")] Null.

Lemma gate_emits_in_order_witness :
  ∃ states, Forall2 (λ a s, awaited_state sample_fmt (Some second_done) any_gate a = Ok s)
              [mkAwaited (Some "task-1") None; mkAwaited (Some "task-2") None] states ∧
    out_items (gate_out second_done any_gate) =
    omap (λ p, (λ v, paired_with (item_new v) p.1) <$> settled_value p.2) (imap pair states).
Proof.
  destruct (gate_emits_in_order sample_fmt no_jq (Some second_done) any_gate
    (gate_out second_done any_gate) [mkAwaited (Some "task-1") None; mkAwaited (Some "task-2") None])
    as (states & Hs & Hi & _); [vm_compute; reflexivity..|].
  exists states. split; [exact Hs|exact Hi].
Defined.

Lemma task_settles_once_witness :
  let ops := [OpStart; OpBegin "task-1"; OpCancel "task-1"] in
  task_poll sample_fmt (foldl (task_step sample_fmt) task_runner_new
    (ops ++ [OpFinish "task-1" (Ok Null); OpStart])) "task-1" = Ok (TaskFailed "cancelled").
Proof.
  refine (proj1 (task_settles_once sample_fmt [OpStart; OpBegin "task-1"; OpCancel "task-1"]
    [OpFinish "task-1" (Ok Null); OpStart] "task-1" (TaskFailed "cancelled") _ _)).
  - vm_compute. reflexivity.
  - reflexivity.
Defined.
