(* ===== verification/CronAdmission.v ===== *)
(** * The admission ledger and job writes

    [crates/tinyflows-drivers/src/schedule/{admission,mod,policy}.rs]: the
    ledger document that counts enabled jobs, the atomic write of a job together
    with its ledger entry, the compare-and-swap helper over it, and the upgrade of
    legacy policies every operation starts with.

    The ledger's [BTreeMap] is a [gmap]; it is written in key order. *)

From stdpp Require Import sorting.
From S2P Require Import Prelude Json StorageKey Repo Leases StoragePrimitives Schedule CronPort.
From Stdlib Require String.

Definition JOBS : string := "cron.jobs".
Definition RUNS : string := "cron.runs".
Definition ADMISSION : string := "cron.admission".
Definition LEGACY : string := "cron_job_policies".
Definition LEDGER : string := "ledger".
Definition SCHEMA_VERSION : N := 2.
Definition OWNER : string := "cron".
Definition RUN_COUNTER : string := "runs".
Definition CAS_ATTEMPTS : nat := 32.

(** ** The ledger *)

Record Member := mkMember {
  mb_job_id : string;
  mb_incarnation : option string;
  mb_enabled : bool
}.
#[export] Instance Member_eq_dec : EqDecision Member.
Proof. solve_decision. Defined.

Record Admission := mkAdmission { ad_limit : option Z; ad_jobs : gmap string Member }.
Definition Admission_default : Admission := mkAdmission None ∅.

(** [deny_unknown_fields]. *)
Definition only_fields (known : list string) (v : value) : bool :=
  match v with
  | Object m => forallb (λ kv : string * value, bool_decide (kv.1 ∈ known)) m
  | _ => false
  end.

Definition member_to_value (m : Member) : value :=
  json_object [("job_id", Str (mb_job_id m));
               ("incarnation", match mb_incarnation m with Some i => Str i | None => Null end);
               ("enabled", Bool (mb_enabled m))].

Definition member_from_value (v : value) : option Member :=
  if only_fields ["job_id"; "incarnation"; "enabled"] v then
    get "job_id" v >>? as_str >>? λ job_id,
    opt_string (get "incarnation" v) >>? λ inc,
    get "enabled" v >>? as_bool >>? λ enabled,
    Some (mkMember job_id inc enabled)
  else None.

Definition opt_u64 (v : option value) : option (option Z) :=
  match v with
  | None | Some Null => Some None
  | Some v => Some <$> as_u64 v
  end.

Definition string_le (a b : string) : Prop := String.leb a b = true.
#[export] Instance string_le_dec : RelDecision string_le.
Proof. intros a b. unfold string_le. apply _. Defined.
Definition entry_le (a b : string * Member) : Prop := string_le a.1 b.1.
#[export] Instance entry_le_dec : RelDecision entry_le.
Proof. intros a b. unfold entry_le. apply _. Defined.

(** [into_values]: in key order. *)
Definition members_in_order (jobs : gmap string Member) : list Member :=
  (merge_sort entry_le (map_to_list jobs)).*2.

Definition ledger_encode (state : Admission) : value :=
  json_object (match ad_limit state with Some l => [("limit", Number (PosInt l))] | None => [] end ++
               [("members", Array (member_to_value <$> members_in_order (ad_jobs state)))]).

(** [collect] into a map: a later member replaces an earlier one. *)
Definition members_to_map (members : list Member) : gmap string Member :=
  foldl (λ jobs m, <[mb_job_id m := m]> jobs) ∅ members.

Definition ledger_decode (doc : value) : CronResult Admission :=
  match (if only_fields ["limit"; "members"] doc then
           opt_u64 (get "limit" doc) >>? λ limit,
           get "members" doc >>? as_array >>? λ members,
           collect_option (member_from_value <$> members) >>? λ members,
           Some (mkAdmission limit (members_to_map members))
         else None)
  with
  | Some state => Ok state
  | None => Err (CMessage "invalid admission ledger")
  end.

Definition enabled_count (jobs : gmap string Member) : nat :=
  size (filter (λ kv : string * Member, mb_enabled kv.2 = true) jobs).

Definition admission_check (state : Admission) : CronResult unit :=
  match ad_limit state with
  | Some limit =>
      if decide (limit = 0 ∨ limit < Z.of_nat (enabled_count (ad_jobs state)))%Z
      then Err (CMessage "cron store: active job limit exceeded") else Ok tt
  | None => Ok tt
  end.

Definition member_of (id : string) (doc : value) : CronResult Member :=
  let? enabled := match get "enabled" doc with
                  | None => Ok false
                  | Some (Bool b) => Ok b
                  | Some _ => Err (CMessage "cron store: invalid enabled state")
                  end in
  Ok (mkMember id (incarnation doc) enabled).

Definition conflict (e : CronError) : bool :=
  match e with CStorage e => bool_decide (se_kind e = Conflict) | _ => false end.
Definition conflict_error (message : string) : CronError := CStorage (mkStorageError Conflict message).

Section Admission.
Context {D : Type} `{!DocumentStore D} `{!CronPort D} `{!CronWire} (w : World D).

Notation Cron := (Cron (D := D)).

Definition get_doc (collection id : string) : Cron (option (Versioned value)) :=
  call_read w (doc_get collection id).

(** A failed write that conflicted is tried again, any other failure returned. *)
Definition retry_on_conflict {A B} (m : Cron A) (done : A → Cron (option B)) : Cron (option B) :=
  let! r := catch m in
  match r with
  | Ok a => done a
  | Err e => if conflict e then cret None else cfail e
  end.

(** Every row of the jobs collection as a member, with the write that fences it. *)
Fixpoint snapshot (rows : list (Versioned value)) (jobs : gmap string Member) (ops : list WriteOp)
    : CronResult (gmap string Member * list WriteOp) :=
  match rows with
  | [] => Ok (jobs, ops)
  | row :: rows =>
      let? _ := doc_to_job row in
      let? m := member_of (ver_id row) (ver_doc row) in
      snapshot rows (<[ver_id row := m]> jobs)
        (ops ++ [WPut JOBS (ver_id row) (ver_doc row) (unchanged row)])
  end.

Definition admission : Cron (Versioned value) :=
  retry_loop CAS_ATTEMPTS
    (let! found := get_doc ADMISSION LEDGER in
     match found with
     | Some stored =>
         let! state := clift (ledger_decode (ver_doc stored)) in
         let! _ := clift (admission_check state) in
         cret (Some stored)
     | None =>
         let! rows := call_read w (query_all JOBS Query_all) in
         let! snap := clift (snapshot rows ∅ []) in
         let '(jobs, ops) := snap in
         retry_on_conflict
           (call_write w (atomic_batch
              (ops ++ [WPut ADMISSION LEDGER (ledger_encode (mkAdmission None jobs)) PreAbsent])))
           (λ _, cret None)
     end)
    (CMessage "cron store: admission initialization kept changing").

Definition require_transactions : Cron unit :=
  if transactions then cret tt
  else cfail (CStorage (mkStorageError OtherKind "transactions")).

Definition require_unlimited_backend : Cron unit :=
  let! found := get_doc ADMISSION LEDGER in
  match found with
  | Some _ => cfail (CMessage "cron store: transactions required for stored admission policy")
  | None => cret tt
  end.

Definition precondition_of (previous : option (Versioned value)) : Precondition :=
  match previous with Some d => unchanged d | None => PreAbsent end.

(** The ledger still has the incarnation the caller read. *)
Definition ledger_owns (previous : option (Versioned value)) (current : option Member) : bool :=
  match previous, current with
  | None, None => true
  | Some old, Some m => bool_decide (mb_incarnation m = incarnation (ver_doc old))
  | _, _ => false
  end.

(** The condition of the write: the job is still the document the caller read. *)
Definition job_condition (previous current : option (Versioned value)) : option Precondition :=
  match previous, current with
  | None, None => Some PreAbsent
  | Some old, Some now => if decide (ver_doc old = ver_doc now) then Some (unchanged now) else None
  | _, _ => None
  end.

Definition job_op (id : string) (next : option value) (p : Precondition) : WriteOp :=
  match next with Some doc => WPut JOBS id doc p | None => WDelete JOBS id p end.

Definition next_members (id : string) (next : option value) (jobs : gmap string Member)
    : CronResult (gmap string Member) :=
  match next with
  | Some doc => let? m := member_of id doc in Ok (<[id := m]> jobs)
  | None => Ok (delete id jobs)
  end.

Definition commit_job (id : string) (previous : option (Versioned value)) (next : option value)
    (extra : list WriteOp) : Cron (list WriteResult) :=
  if transactions then
    let! ledger := admission in
    let! state := clift (ledger_decode (ver_doc ledger)) in
    if ledger_owns previous (ad_jobs state !! id) then
      let! current := get_doc JOBS id in
      match job_condition previous current with
      | None => cfail (conflict_error "cron job changed")
      | Some p =>
          let! jobs := clift (next_members id next (ad_jobs state)) in
          let state' := mkAdmission (ad_limit state) jobs in
          let! _ := clift (admission_check state') in
          call_write w (atomic_batch
            (job_op id next p :: extra ++
             [WPut ADMISSION LEDGER (ledger_encode state') (unchanged ledger)]))
      end
    else cfail (conflict_error "cron job incarnation changed")
  else
    let! _ := require_unlimited_backend in
    match extra with
    | _ :: _ => cfail (CMessage "cron store: transactions required for atomic run writes")
    | [] =>
        match next with
        | Some doc =>
            let! v := call_write w (doc_put_with JOBS id doc (precondition_of previous)
                                      WriteOptions_default) in
            cret [ResPut v]
        | None =>
            let! removed := call_write w (doc_delete JOBS id (precondition_of previous)) in
            cret [ResDelete removed]
        end
    end.

(** ** Compare and swap on a job *)

Definition compare_job (id : string) (change : Versioned value → CronResult (option value))
    : Cron (option (Versioned value)) :=
  retry_loop CAS_ATTEMPTS
    (let! found := get_doc JOBS id in
     match found with
     | None => cret (Some None)
     | Some stored =>
         let! next := clift (change stored) in
         match next with
         | None => cret (Some None)
         | Some next =>
             retry_on_conflict (commit_job id (Some stored) (Some next) [])
               (λ results,
                  match results with
                  | ResPut version :: _ => cret (Some (Some (mkVersioned id version next (ver_meta stored))))
                  | _ => cfail (CMessage "cron store: invalid atomic write result")
                  end)
         end
     end)
    (CMessage ("cron store: " +:+ JOBS +:+ "/" +:+ id +:+ " kept changing under 32 attempts")).

(** ** The active-job cap *)

Definition set_max_active_jobs_body (limit : option Z) : Cron (option unit) :=
  let! stored := admission in
  let! _ := clift (ledger_decode (ver_doc stored)) in
  let! rows := call_read w (query_all JOBS Query_all) in
  let! snap := clift (snapshot rows ∅ []) in
  let '(jobs, ops) := snap in
  let state := mkAdmission limit jobs in
  let! _ := clift (admission_check state) in
  retry_on_conflict
    (call_write w (atomic_batch
       (ops ++ [WPut ADMISSION LEDGER (ledger_encode state) (unchanged stored)])))
    (λ _, cret (Some tt)).

(** ** Legacy policies *)

(** [doc[field] = v]: an object takes the field, [null] becomes an object, and
    anything else panics. *)
Definition index_set (field : string) (v doc : value) : CronResult value :=
  match doc with
  | Object m => Ok (Object (obj_insert field v m))
  | Null => Ok (Object [(field, v)])
  | _ => Err CPanic
  end.

Definition legacy_retries (policy : value) : CronResult (option N) :=
  match get "retries" policy with
  | None | Some Null => Ok None
  | Some v =>
      match as_u64 v with
      | Some n => if decide (n < 2 ^ 32)%Z then Ok (Some (Z.to_N n))
                  else Err (CMessage "Invalid legacy cron policy retries")
      | None => Err (CMessage "Invalid legacy cron policy retries")
      end
  end.

Definition with_policy (policy : value) (stored : Versioned value) : CronResult (option value) :=
  match get "policy" (ver_doc stored) with
  | Some _ => Ok None
  | None =>
      let? retries := legacy_retries policy in
      match get "single_flight" policy >>? as_bool with
      | None => Err (CMessage "Invalid legacy cron policy single_flight")
      | Some single_flight =>
          let? doc := index_set "policy" (ser_policy (mkPolicy retries single_flight)) (ver_doc stored) in
          Ok (Some doc)
      end
  end.

Definition migrate_policies : Cron unit :=
  let! _ := call_write w (ensure_collection LEGACY) in
  let! policies := call_read w (query_all LEGACY Query_all) in
  for_each policies (λ policy,
    let! _ := compare_job (ver_id policy) (with_policy (ver_doc policy)) in
    let! r := catch (call_write w (doc_delete LEGACY (ver_id policy) (unchanged policy))) in
    match r with
    | Ok _ => cret tt
    | Err e => if conflict e then cret tt else cfail e
    end).

Definition ensure : Cron unit :=
  let! _ := for_each [JOBS; RUNS; ADMISSION; COUNTERS; LEASES]
              (λ c, call_write w (ensure_collection c)) in
  migrate_policies.

Definition set_max_active_jobs (limit : option Z) : Cron unit :=
  let! _ := require_transactions in
  let! _ := ensure in
  retry_loop CAS_ATTEMPTS (set_max_active_jobs_body limit)
    (CMessage "cron store: admission policy kept changing").

(** ** Enrolment of imported jobs *)

Definition enrol (m : Member) : Cron unit :=
  retry_loop CAS_ATTEMPTS
    (let! ledger := admission in
     let! state := clift (ledger_decode (ver_doc ledger)) in
     let state' := mkAdmission (ad_limit state) (<[mb_job_id m := m]> (ad_jobs state)) in
     let! _ := clift (admission_check state') in
     retry_on_conflict
       (call_write w (atomic_batch [WPut ADMISSION LEDGER (ledger_encode state') (unchanged ledger)]))
       (λ _, cret (Some tt)))
    (CMessage "cron store: admission enrolment kept changing").

Definition insert_with_created (id : string) (doc : value) (created_ms : Z) : Cron unit :=
  match doc with
  | Object body =>
      let doc := Object (obj_insert "created_ms" (value_of_i64 created_ms) body) in
      let! m := clift (member_of id doc) in
      let! _ := if transactions then cret tt else require_unlimited_backend in
      let! _ := call_write w (doc_put_with JOBS id doc PreAbsent
                                (mkOptions (Some SCHEMA_VERSION) None)) in
      if transactions then
        let! enrolled := catch (enrol m) in
        match enrolled with
        | Ok _ => cret tt
        | Err e =>
            let! _ := catch (call_write w (doc_delete JOBS id PreNone)) in
            cfail e
        end
      else cret tt
  | _ => cfail (CMessage "cron store: imported job must be an object")
  end.
End Admission.
