(* ===== verification/CronJobs.v ===== *)
(** * Cron jobs and their run history

    [crates/tinyflows-drivers/src/schedule/{jobs,patch,removal,runs,import}.rs],
    with the parts of [claims.rs] they call: creating, patching, listing and
    removing jobs, the bounded run history, and the id-preserving import.

    Every write of a job goes through [commit_job].  The wait of
    [fresh_millisecond] is about this process's clock only and is left out; log
    lines are too. *)

From stdpp Require Import sorting.
From S2P Require Import Prelude Json StorageKey Repo Leases StoragePrimitives Text Schedule.
From S2P Require Import ScheduleRuntime CronPort CronAdmission.
From Stdlib Require String.

(** ** Documents *)

Definition QUEUED : string := "queued_run".

Definition flow_job_id (flow_id : string) : string := "flow:" +:+ flow_id.

Definition sched {A} (r : result string A) : CronResult A :=
  match r with Ok a => Ok a | Err m => Err (CMessage m) end.

Definition reschedule (doc : list (string * value)) (next_run : Z) (one_shot : bool)
    : list (string * value) :=
  let doc := set_next_run doc next_run in
  if one_shot then obj_insert "enabled" (Bool false) doc else doc.

(** [doc.as_object().cloned().unwrap_or_default()]. *)
Definition body_object (doc : value) : list (string * value) := default [] (as_object doc).

Definition runs_of (job_id : string) (doc : value) : Filter :=
  FAnd (FEq "job_id" (Str job_id))
    match incarnation doc with
    | Some i => FEq INCARNATION (Str i)
    | None => FExists INCARNATION false
    end.

Definition newest_first (f : Filter) : Query :=
  mkQuery (Some f) [("started_ms", false); ("seq", false)] None.

Definition queued_run (doc : value) : option Z := get QUEUED doc >>? as_i64.
Definition queued_run_cleanup (doc : value) : list WriteOp :=
  match queued_run doc with Some seq => [WDelete RUNS (cron_run_id seq) PreNone] | None => [] end.

(** ** Patches *)

Section Patch.
Context `{!Calendar}.

(** The readings of the clock are those of the validation and of the new run. *)
Definition apply_patch (now1 now2 : Z) (job : CronJob) (patch : CronJobPatch) : CronResult CronJob :=
  let? _ := sched (check_patch job patch) in
  let? _ := match pt_schedule patch with
            | Some s => sched (match cj_job_type job with
                               | JAgent => validate_agent_schedule s now1
                               | JShell | JFlow => validate_schedule s now1
                               end)
            | None => Ok tt
            end in
  let schedule := default (cj_schedule job) (pt_schedule patch) in
  let expression := match pt_schedule patch with
                    | Some s => default "" (schedule_cron_expression s)
                    | None => cj_expression job
                    end in
  let enabled := default (cj_enabled job) (pt_enabled patch) in
  let? next_run :=
    if bool_decide (is_Some (pt_schedule patch)) then sched (next_run_for_schedule schedule now2)
    else if enabled && negb (cj_enabled job) && bool_decide (cj_next_run job ≤ now2)%Z
    then sched (next_run_for_schedule schedule now2)
    else Ok (cj_next_run job) in
  Ok (mkCronJob (cj_claim_generation job)
        (default (cj_policy job) (pt_policy patch))
        (cj_id job) expression schedule
        (default (cj_command job) (pt_command patch))
        (match pt_prompt patch with Some p => Some p | None => cj_prompt job end)
        (match pt_name patch with Some n => Some n | None => cj_name job end)
        (cj_job_type job)
        (default (cj_session_target job) (pt_session_target patch))
        (match pt_model patch with Some m => Some m | None => cj_model job end)
        (default (cj_agent_id job) (pt_agent_id patch))
        enabled
        (default (cj_delivery job) (pt_delivery patch))
        (default (cj_delete_after_run job) (pt_delete_after_run patch))
        (cj_created_at job) next_run (cj_last_run job) (cj_last_status job) (cj_last_output job)
        (default (cj_origin job) (pt_origin patch))).

Definition new_job (id : string) (job_type : JobType) (schedule : Schedule) (now : Z)
    : CronResult CronJob :=
  let? next_run := sched (next_run_for_schedule schedule now) in
  Ok (mkCronJob 0 JobPolicy_default id (default "" (schedule_cron_expression schedule)) schedule ""
        None None job_type Isolated None None true DeliveryConfig_default false now next_run
        None None None None).
End Patch.

Definition with_name_command (name : option string) (command : string) (j : CronJob) : CronJob :=
  mkCronJob (cj_claim_generation j) (cj_policy j) (cj_id j) (cj_expression j) (cj_schedule j) command
    (cj_prompt j) name (cj_job_type j) (cj_session_target j) (cj_model j) (cj_agent_id j)
    (cj_enabled j) (cj_delivery j) (cj_delete_after_run j) (cj_created_at j) (cj_next_run j)
    (cj_last_run j) (cj_last_status j) (cj_last_output j) (cj_origin j).

Record AgentJobSpec := mkAgentJobSpec {
  as_name : option string;
  as_schedule : Schedule;
  as_prompt : string;
  as_session_target : SessionTarget;
  as_model : option string;
  as_delivery : option DeliveryConfig;
  as_delete_after_run : bool;
  as_agent_id : option string;
  as_enabled : bool;
  as_origin : option JobOrigin
}.

Definition from_spec (spec : AgentJobSpec) (j : CronJob) : CronJob :=
  mkCronJob (cj_claim_generation j) (cj_policy j) (cj_id j) (cj_expression j) (cj_schedule j)
    (cj_command j) (Some (as_prompt spec)) (as_name spec) (cj_job_type j) (as_session_target spec)
    (as_model spec) (as_agent_id spec) (as_enabled spec)
    (default DeliveryConfig_default (as_delivery spec)) (as_delete_after_run spec) (cj_created_at j)
    (cj_next_run j) (cj_last_run j) (cj_last_status j) (cj_last_output j) (as_origin spec).

(** The order duplicates are ranked in: most runs, then earliest, then smallest id. *)
Record Ranked := mkRanked { rk_runs : N; rk_created : Z; rk_stored : Versioned value }.
Definition rank_le (a b : Ranked) : Prop :=
  (rk_runs b < rk_runs a)%N ∨
  rk_runs a = rk_runs b ∧
  ((rk_created a < rk_created b)%Z ∨
   rk_created a = rk_created b ∧ string_le (ver_id (rk_stored a)) (ver_id (rk_stored b))).
#[export] Instance rank_le_dec : RelDecision rank_le.
Proof. intros a b. unfold rank_le. apply _. Defined.

Record ImportedJob := mkImported { im_id : string; im_written : bool }.

Record HistoryWrite := mkHistory {
  hw_job_id : string;
  hw_invocation_id : option string;
  hw_started_at : Z;
  hw_finished_at : Z;
  hw_status : string;
  hw_output : option string;
  hw_duration_ms : Z;
  hw_delivery_status : option DeliveryStatus;
  hw_expected_creation : option Z
}.

Definition is_taken (e : CronError) : bool :=
  match e with
  | CStorage e => bool_decide (se_kind e = Conflict ∨ se_kind e = AlreadyExists)
  | _ => false
  end.

Section Jobs.
Context {D : Type} `{!DocumentStore D} `{!CronPort D} `{!CronWire} `{!Calendar} (w : World D).
Context (MAX_ID_LEN : nat) (validate_id : string → StoreResult unit)
        (digest_base32 : string → string).
Context (max_run_history max_tasks : nat).

Notation Cron := (Cron (D := D)).

(** The calls one compare-and-swap loop of the storage crate can make. *)
Definition loop_calls : nat := 2 * budget RetryPolicy_default.

Definition new_job_doc (job : CronJob) : Cron value :=
  let! u := new_uuid w in clift (index_set INCARNATION (Str u) (job_to_doc job)).

Definition updated_job_doc (job : CronJob) (previous : value) : CronResult value :=
  let doc := job_to_doc job in
  let? doc := match incarnation previous with
              | Some i => index_set INCARNATION (Str i) doc
              | None => Ok doc
              end in
  match get "created_ms" previous with
  | Some created => index_set "created_ms" created doc
  | None => Ok doc
  end.

(** ** Keys of occurrences, and freeing a lease *)

Definition lease_key (job_id : string) (occurrence_ms : Z) : CronResult string :=
  storage_error (key_of MAX_ID_LEN validate_id digest_base32 [job_id; pretty occurrence_ms]).

Definition expire_lease (id : string) : Cron (option unit) :=
  let! found := catch (get_doc w LEASES id) in
  match found with
  | Err _ | Ok None => cret (Some tt)
  | Ok (Some found) =>
      if decide ((get "expires_ms" (ver_doc found) >>? as_i64) = Some 0%Z) then cret (Some tt)
      else
        let! body := clift (index_set "expires_ms" (value_of_i64 0) (ver_doc found)) in
        let! r := catch (call_write w (doc_put_with LEASES id body (unchanged found)
                                         WriteOptions_default)) in
        match r with
        | Ok _ => cret (Some tt)
        | Err e => if conflict e then cret None else cret (Some tt)
        end
  end.

(** A failure is logged, never returned. *)
Definition fence_claims (job_id : string) (job_doc : value) : Cron unit :=
  match get "next_run_ms" job_doc >>? as_i64 with
  | None => cret tt
  | Some occurrence =>
      match lease_key job_id occurrence with
      | Err _ => cret tt
      | Ok key =>
          match key_of MAX_ID_LEN validate_id digest_base32 [OWNER; key] with
          | Err _ => cret tt
          | Ok id =>
              let! r := catch (retry_loop CAS_ATTEMPTS (expire_lease id)
                                 (CMessage "a lease kept changing while it was freed")) in
              match r with
              | Ok tt => cret tt
              | Err CPanic => cfail CPanic
              | Err _ => cret tt
              end
          end
      end
  end.

(** ** Reading *)

Definition find_job (job_id : string) : Cron (option CronJob) :=
  let! _ := ensure w in
  let! found := get_doc w JOBS job_id in
  clift (match found with
         | Some stored => let? job := doc_to_job stored in Ok (Some job)
         | None => Ok None
         end).

Definition get_job (job_id : string) : Cron CronJob :=
  let! found := find_job job_id in
  match found with Some job => cret job | None => cfail (job_not_found job_id) end.

Definition job_doc (job_id : string) : Cron (Versioned value) :=
  let! found := get_doc w JOBS job_id in
  match found with Some d => cret d | None => cfail (job_not_found job_id) end.

Definition list_jobs : Cron (list CronJob) :=
  let! _ := ensure w in
  let! rows := call_read w (query_all JOBS
                              (mkQuery None [("next_run_ms", true); ("_id", true)] None)) in
  clift (collect_all doc_to_job rows).

Definition due_filter (now : Z) (excluded : list string) : Filter :=
  foldl (λ f id, FAnd f (FNe "_id" (Str id)))
    (FAnd (FEq "enabled" (Bool true)) (FLte "next_run_ms" (value_of_i64 (timestamp_millis now))))
    excluded.

Definition due_jobs_excluding (now : Z) (excluded : list string) : Cron (list CronJob) :=
  let! _ := ensure w in
  let! rows := call_read w (query_all JOBS
     (mkQuery (Some (due_filter now excluded)) [("next_run_ms", true); ("_id", true)]
        (Some max_tasks))) in
  clift (collect_all doc_to_job rows).

Definition due_jobs (now : Z) : Cron (list CronJob) := due_jobs_excluding now [].

Definition find_flow_schedule_job (flow_id : string) : Cron (option CronJob) :=
  find_job (flow_job_id flow_id).

(** ** Creating *)

Definition insert_job (job : CronJob) : Cron CronJob :=
  let! _ := ensure w in
  let! doc := new_job_doc job in
  retry_loop CAS_ATTEMPTS
    (retry_on_conflict (commit_job w (cj_id job) None (Some doc) [])
       (λ _, let! created := get_job (cj_id job) in cret (Some created)))
    (CMessage "cron store: insertion kept changing").

Definition add_shell_job (name : option string) (schedule : Schedule) (command : string)
    : Cron CronJob :=
  let! now := utc_now w in
  let! _ := clift (sched (validate_schedule schedule now)) in
  let! id := new_uuid w in
  let! job := clift (new_job id JShell schedule now) in
  insert_job (with_name_command name command job).

Definition add_job (expression command : string) : Cron CronJob :=
  add_shell_job None (SCron expression None None) command.

Definition add_agent_job_from_spec (spec : AgentJobSpec) : Cron CronJob :=
  let! now := utc_now w in
  let! _ := clift (sched (validate_agent_schedule (as_schedule spec) now)) in
  let! id := new_uuid w in
  let! job := clift (new_job id JAgent (as_schedule spec) now) in
  insert_job (from_spec spec job).

Definition add_agent_job_with_definition (name : option string) (schedule : Schedule)
    (prompt : string) (session_target : SessionTarget) (model : option string)
    (delivery : option DeliveryConfig) (delete_after_run : bool) (agent_id : option string)
    (enabled : bool) : Cron CronJob :=
  add_agent_job_from_spec (mkAgentJobSpec name schedule prompt session_target model delivery
                             delete_after_run agent_id enabled None).

Definition add_agent_job (name : option string) (schedule : Schedule) (prompt : string)
    (session_target : SessionTarget) (model : option string) (delivery : option DeliveryConfig)
    (delete_after_run : bool) : Cron CronJob :=
  add_agent_job_with_definition name schedule prompt session_target model delivery
    delete_after_run None true.

Definition flow_job (flow_id : string) (j : CronJob) : CronJob :=
  let j := with_name_command (Some ("flow:" +:+ flow_id)) flow_id j in
  mkCronJob (cj_claim_generation j) (cj_policy j) (flow_job_id flow_id) (cj_expression j)
    (cj_schedule j) (cj_command j) (cj_prompt j) (cj_name j) (cj_job_type j) (cj_session_target j)
    (cj_model j) (cj_agent_id j) (cj_enabled j) (cj_delivery j) (cj_delete_after_run j)
    (cj_created_at j) (cj_next_run j) (cj_last_run j) (cj_last_status j) (cj_last_output j)
    (cj_origin j).

Definition add_flow_schedule_job (flow_id : string) (schedule : Schedule) : Cron CronJob :=
  let! now := utc_now w in
  let! _ := clift (sched (validate_schedule schedule now)) in
  let! id := new_uuid w in
  let! job := clift (new_job id JFlow schedule now) in
  let job := flow_job flow_id job in
  let! _ := ensure w in
  let! doc := new_job_doc job in
  retry_loop CAS_ATTEMPTS
    (let! existing := find_flow_schedule_job flow_id in
     match existing with
     | Some existing => cret (Some existing)
     | None =>
         retry_on_conflict (commit_job w (cj_id job) None (Some doc) [])
           (λ _, let! created := get_job (cj_id job) in cret (Some created))
     end)
    (CMessage "cron store: flow registration kept changing").

(** ** Updating *)

Definition update_job (job_id : string) (patch : CronJobPatch) : Cron CronJob :=
  let! _ := ensure w in
  retry_loop CAS_ATTEMPTS
    (let! stored := job_doc job_id in
     let! old := clift (doc_to_job stored) in
     let! now1 := utc_now w in
     let! now2 := utc_now w in
     let! job := clift (apply_patch now1 now2 old patch) in
     let! doc := clift (updated_job_doc job (ver_doc stored)) in
     retry_on_conflict
       (commit_job w job_id (Some stored) (Some doc) (queued_run_cleanup (ver_doc stored)))
       (λ results,
          match results with
          | ResPut version :: _ =>
              let! _ := fence_claims job_id (ver_doc stored) in
              let! updated := clift (doc_to_job (mkVersioned job_id version doc (ver_meta stored))) in
              cret (Some updated)
          | _ => cfail (CMessage "cron store: invalid atomic write result")
          end))
    (CMessage ("cron store: job " +:+ job_id +:+ " kept changing under 32 attempts")).

(** ** Removing *)

Definition delete_runs_of (stored : Versioned value) : Cron unit :=
  let! _ := call_write w (delete_where RUNS (runs_of (ver_id stored) (ver_doc stored))) in cret tt.

Definition removed_by (results : list WriteResult) : bool :=
  match results with ResDelete true :: _ => true | _ => false end.

(** The conditional delete and what it reports; a conflict is no removal. *)
Definition commit_removal (stored : Versioned value) : Cron bool :=
  let! r := catch (commit_job w (ver_id stored) (Some stored) None []) in
  match r with
  | Ok results => cret (removed_by results)
  | Err e => if conflict e then cret false else cfail e
  end.

Definition remove_stored (stored : Versioned value) : Cron bool :=
  let! removed :=
    match transactions, incarnation (ver_doc stored) with
    | false, Some i =>
        let! _ := require_unlimited_backend w in
        let! n := call_write w (delete_where JOBS (FAnd (FEq "_id" (Str (ver_id stored)))
                                                    (FEq INCARNATION (Str i)))) in
        cret (bool_decide (0 < n)%N)
    | _, _ => commit_removal stored
    end in
  if removed then
    let! _ := fence_claims (ver_id stored) (ver_doc stored) in
    let! _ := delete_runs_of stored in
    cret true
  else cret false.

Definition remove_unchanged (stored : Versioned value) : Cron bool :=
  let! current := get_doc w JOBS (ver_id stored) in
  match current with
  | None => cret false
  | Some now =>
      if decide (ver_version now = ver_version stored ∧
                 incarnation (ver_doc now) = incarnation (ver_doc stored)) then
        if transactions then remove_stored stored
        else
          let! removed := commit_removal stored in
          if removed then let! _ := delete_runs_of stored in cret true else cret false
      else cret false
  end.

Definition remove_job (id : string) : Cron unit :=
  let! _ := ensure w in
  retry_loop CAS_ATTEMPTS
    (let! stored := job_doc id in
     let! removed := remove_stored stored in
     cret (if removed then Some tt else None))
    (CMessage ("cron store: job " +:+ id +:+ " kept changing under 32 attempts")).

Definition remove_current (stored : Versioned value) : Cron bool :=
  let! removed := remove_stored stored in
  if removed then cret true
  else
    retry_loop CAS_ATTEMPTS
      (let! current := get_doc w JOBS (ver_id stored) in
       match current with
       | None => cret (Some false)
       | Some now =>
           if decide (incarnation (ver_doc now) = incarnation (ver_doc stored)) then
             let! removed := remove_stored now in
             cret (if removed then Some true else None)
           else cret (Some false)
       end)
      (CMessage ("cron store: job " +:+ ver_id stored +:+ " kept changing under 32 attempts")).

(** A loop that counts the items its body answers [true] for. *)
Fixpoint count_true {A} (l : list A) (body : A → Cron bool) (n : nat) : Cron nat :=
  match l with
  | [] => cret n
  | x :: l => let! b := body x in count_true l body (if b then S n else n)
  end.

(** ** Runs *)

Definition next_run_number : Cron Z :=
  let! next := call_many w loop_calls (λ env, counter_next env RetryPolicy_default MAX_ID_LEN
                                                validate_id digest_base32 OWNER RUN_COUNTER) in
  if decide (next ≤ i64_max)%Z then cret next
  else cfail (CMessage "cron store: the run counter overflowed").

Definition prune_runs (job_id : string) (job : value) : Cron unit :=
  let! runs := call_read w (query_all RUNS (newest_first (runs_of job_id job))) in
  for_each (drop max_run_history runs) (λ run,
    let! _ := call_write w (doc_delete RUNS (ver_id run) PreNone) in cret tt).

Definition append_history (write : HistoryWrite) : Cron unit :=
  let! _ := ensure w in
  let! stored := job_doc (hw_job_id write) in
  let! _ :=
    match hw_expected_creation write with
    | Some expected =>
        let! ms := clift (job_created_ms (ver_doc stored) (meta_created_ms (ver_meta stored))) in
        let! at_ := clift (from_ms ms) in
        if decide (at_ = expected) then cret tt
        else cfail (CMessage "cron run belongs to a removed job creation")
    | None => cret tt
    end in
  let fired := incarnation (ver_doc stored) in
  let! seq := next_run_number in
  let doc := run_to_doc seq (hw_job_id write) (hw_invocation_id write) fired (hw_started_at write)
               (hw_finished_at write) (hw_status write) (truncate_cron_output <$> hw_output write)
               (hw_duration_ms write) (hw_delivery_status write) in
  let! _ := call_write w (doc_put_with RUNS (cron_run_id seq) doc PreAbsent
                            (mkOptions (Some SCHEMA_VERSION) None)) in
  let! current := get_doc w JOBS (hw_job_id write) in
  if decide ((λ d, incarnation (ver_doc d)) <$> current = Some fired)
  then prune_runs (hw_job_id write) (ver_doc stored)
  else
    let! _ := call_write w (doc_delete RUNS (cron_run_id seq) PreNone) in
    cfail (job_not_found (hw_job_id write)).

Definition record_run_with_delivery (job_id : string) (started_at finished_at : Z)
    (status : string) (output : option string) (duration_ms : Z)
    (delivery_status : option DeliveryStatus) : Cron unit :=
  append_history (mkHistory job_id None started_at finished_at status output duration_ms
                    delivery_status None).

Definition record_run (job_id : string) (started_at finished_at : Z) (status : string)
    (output : option string) (duration_ms : Z) : Cron unit :=
  record_run_with_delivery job_id started_at finished_at status output duration_ms None.

(** [num_milliseconds] of a difference rounds towards zero. *)
Definition record_claimed_run (r : RunRecord) : Cron unit :=
  append_history (mkHistory (rr_job_id r) (Some (rr_run_id r)) (rr_started_at r) (rr_finished_at r)
                    (rr_status r) (Some (rr_output r))
                    (Z.quot (rr_finished_at r - rr_started_at r) MILLI)
                    (rr_delivery_status r) (Some (rr_job_created_at r))).

Definition record_last_run (job_id : string) (finished_at : Z) (success : bool) (output : string)
    : Cron unit :=
  let! _ := ensure w in
  let output := truncate_cron_output output in
  let! _ := compare_job w job_id (λ stored,
    Ok (Some (Object (set_last_run (body_object (ver_doc stored)) finished_at success output)))) in
  cret tt.

Definition rescheduled (now next_run fired_ms : Z) (one_shot : bool) (fired_schedule : value)
    (success : bool) (output : string) (stored : Versioned value) : CronResult (option value) :=
  let doc := ver_doc stored in
  let next := set_last_run (body_object doc) now success output in
  let unmoved := bool_decide ((get "next_run_ms" doc >>? as_i64) = Some fired_ms) &&
                 bool_decide (get "schedule" doc = Some fired_schedule) in
  Ok (Some (Object (if unmoved then reschedule next next_run one_shot else next))).

Definition reschedule_after_run (job : CronJob) (success : bool) (output : string) : Cron unit :=
  let! _ := ensure w in
  let! now := utc_now w in
  let! next_run := clift (sched (next_run_for_schedule (cj_schedule job) now)) in
  let! _ := compare_job w (cj_id job)
    (rescheduled now next_run (timestamp_millis (cj_next_run job)) (is_one_shot (cj_schedule job))
       (schedule_to_value (cj_schedule job)) success (truncate_cron_output output)) in
  cret tt.

Definition delete_queued_runs (job_id : string) : Cron N :=
  let! _ := ensure w in
  call_write w (delete_where RUNS (FAnd (FEq "job_id" (Str job_id)) (FEq "status" (Str "queued")))).

Definition sweep_run (run : Versioned value) : Cron bool :=
  match text (ver_doc run) "job_id" with
  | None => cret false
  | Some job_id =>
      let! owner := get_doc w JOBS job_id in
      if decide ((λ d, incarnation (ver_doc d)) <$> owner = Some (incarnation (ver_doc run)))
      then cret false
      else
        let! r := catch (call_write w (doc_delete RUNS (ver_id run) (unchanged run))) in
        match r with
        | Ok removed => cret removed
        | Err e => if conflict e then cret false else cfail e
        end
  end.

Definition sweep_orphan_runs : Cron nat :=
  let! _ := ensure w in
  let! runs := call_read w (query_all RUNS Query_all) in
  count_true runs sweep_run 0.

Definition list_runs (job_id : string) (limit : nat) : Cron (list CronRun) :=
  let! _ := ensure w in
  let! job := get_doc w JOBS job_id in
  match job with
  | None => cret []
  | Some job =>
      let q := newest_first (runs_of job_id (ver_doc job)) in
      let! runs := call_read w (query_all RUNS (mkQuery (q_filter q) (q_sort q)
                                                 (Some (Nat.max limit 1)))) in
      clift (collect_all doc_to_run runs)
  end.

Definition clear_all_jobs : Cron nat :=
  let! _ := ensure w in
  let! jobs := call_read w (query_all JOBS Query_all) in
  let! removed := count_true jobs remove_current 0 in
  let! _ := sweep_orphan_runs in
  cret removed.

(** ** Duplicates *)

Definition named (rows : list (Versioned value)) (name : string) : list (Versioned value) :=
  filter (λ d, text (ver_doc d) "name" = Some name) rows.
Definition names_in_order (rows : list (Versioned value)) : list string :=
  merge_sort string_le (remove_dups (omap (λ d, text (ver_doc d) "name") rows)).

Fixpoint rank_all (jobs : list (Versioned value)) : Cron (list Ranked) :=
  match jobs with
  | [] => cret []
  | stored :: jobs =>
      let! runs := call_read w (doc_count RUNS (runs_of (ver_id stored) (ver_doc stored))) in
      let! created := clift (job_created_ms (ver_doc stored) (meta_created_ms (ver_meta stored))) in
      let! rest := rank_all jobs in
      cret (mkRanked runs created stored :: rest)
  end.

Fixpoint dedup_groups (rows : list (Versioned value)) (names : list string) (total : nat) : Cron nat :=
  match names with
  | [] => cret total
  | name :: names =>
      let jobs := named rows name in
      if decide (1 < length jobs) then
        let! ranked := rank_all jobs in
        let! deleted := count_true (tail (merge_sort rank_le ranked))
                          (λ r, remove_unchanged (rk_stored r)) 0 in
        dedup_groups rows names (total + deleted)
      else dedup_groups rows names total
  end.

Definition dedup_named_jobs : Cron nat :=
  let! _ := ensure w in
  let! rows := call_read w (query_all JOBS (mkQuery (Some (FExists "name" true)) [] None)) in
  dedup_groups rows (names_in_order rows) 0.

(** ** Import *)

Definition import_id (job : CronJob) : string :=
  match cj_job_type job with JFlow => flow_job_id (cj_command job) | _ => cj_id job end.

Definition import_job (job : CronJob) : Cron ImportedJob :=
  let! _ := ensure w in
  let id := import_id job in
  let! doc := new_job_doc job in
  retry_loop CAS_ATTEMPTS
    (let! found := get_doc w JOBS id in
     match found with
     | Some _ => cret (Some (mkImported id false))
     | None =>
         let! r := catch (insert_with_created w id doc (timestamp_millis (cj_created_at job))) in
         match r with
         | Ok _ => cret (Some (mkImported id true))
         | Err e => if conflict e || is_taken e then cret None else cfail e
         end
     end)
    (CMessage "cron store: job import kept changing").

Definition raise_run_counter (floor : Z) : Cron unit :=
  let last := Z.max (floor - 1) 0 in
  let! _ := call_many w (S loop_calls) (λ env, set_at_least env RetryPolicy_default MAX_ID_LEN
                                             validate_id digest_base32 OWNER RUN_COUNTER last) in
  cret tt.

(** The run number an import settles on: the loop has no bound of its own, so
    [fuel] is how many taken numbers it may meet.  [seq + 1] of the largest number
    overflows. *)
Fixpoint import_slot (fuel : nat) (run : CronRun) (fired : option string) (seq : Z)
    : Cron (option Z) :=
  match fuel with
  | 0 => cret None
  | S fuel =>
      let doc := run_to_doc seq (cr_job_id run) (cr_run_id run) fired (cr_started_at run)
                   (cr_finished_at run) (cr_status run) (cr_output run)
                   (default 0%Z (cr_duration_ms run)) (cr_delivery_status run) in
      let! r := catch (call_write w (doc_put_with RUNS (cron_run_id seq) doc PreAbsent
                                       (mkOptions (Some SCHEMA_VERSION) None))) in
      match r with
      | Ok _ => cret (Some seq)
      | Err e =>
          if is_taken e then
            let! next := next_run_number in import_slot fuel run fired next
          else cfail e
      end
  end.

Definition import_run (fuel : nat) (run : CronRun) : Cron (option bool) :=
  let! _ := ensure w in
  let! job := job_doc (cr_job_id run) in
  let same := FAnd (FAnd (runs_of (cr_job_id run) (ver_doc job))
                     (FEq "started_ms" (value_of_i64 (timestamp_millis (cr_started_at run)))))
                (FEq "status" (Str (cr_status run))) in
  let! known := call_read w (query_all RUNS (mkQuery (Some same) [] (Some 1))) in
  match known with
  | _ :: _ => cret (Some false)
  | [] =>
      let! seq := import_slot fuel run (incarnation (ver_doc job)) (Z.max (cr_id run) 1) in
      match seq with
      | None => cret None
      | Some seq =>
          if decide (seq < i64_max)%Z then let! _ := raise_run_counter (seq + 1) in cret (Some true)
          else cfail CPanic
      end
  end.
End Jobs.
