(* ===== verification/CronClaims.v ===== *)
(** * Occurrence claims

    [crates/tinyflows-drivers/src/schedule/claims.rs] and its submodules, and
    [runtime.rs]: acquiring one occurrence of a job under a lease, queueing,
    renewing, releasing and completing it, reconciling an ambiguous manual claim,
    and the unleased slot protocol.

    A claim is a lease record and two fields of the job document, [claim_epoch]
    and [claim_owner], written together with the rest of the job.  Durations are
    nanoseconds, like instants. *)

From S2P Require Import Prelude Json StorageKey Repo Leases StoragePrimitives Text Schedule.
From S2P Require Import ScheduleRuntime CronPort CronAdmission CronJobs.
From Stdlib Require String.

Definition COMPLETED : string := "completed_occurrence".
Definition CLAIM_OWNER : string := "claim_owner".
Definition CLAIM_EPOCH : string := "claim_epoch".

Record Receipt := mkReceipt {
  rc_owner : string;
  rc_token : string;
  rc_epoch : Z;
  rc_incarnation : string;
  rc_occurrence_ms : Z
}.
#[export] Instance Receipt_eq_dec : EqDecision Receipt.
Proof. solve_decision. Defined.

Definition receipt_to_value (r : Receipt) : value :=
  json_object [("owner", Str (rc_owner r)); ("token", Str (rc_token r));
               ("epoch", Number (PosInt (rc_epoch r))); ("incarnation", Str (rc_incarnation r));
               ("occurrence_ms", value_of_i64 (rc_occurrence_ms r))].

Definition receipt_from_value (v : value) : option Receipt :=
  if only_fields ["owner"; "token"; "epoch"; "incarnation"; "occurrence_ms"] v then
    get "owner" v >>? as_str >>? λ owner,
    get "token" v >>? as_str >>? λ token,
    get "epoch" v >>? as_u64 >>? λ epoch,
    get "incarnation" v >>? as_str >>? λ inc,
    get "occurrence_ms" v >>? as_i64 >>? λ occurrence_ms,
    Some (mkReceipt owner token epoch inc occurrence_ms)
  else None.

Definition receipt (doc : value) : CronResult (option Receipt) :=
  parsed_or (get COMPLETED doc) (λ v, Some <$> receipt_from_value v) None "invalid receipt".

Record ClaimLease := mkClaimLease {
  cl_owner : string;
  cl_token : string;
  cl_epoch : Z;
  cl_incarnation : string;
  cl_occurrence : Z;
  cl_started_at : Z;
  cl_expires_at : Z
}.

Record ClaimedOccurrence := mkClaimed { co_job : CronJob; co_lease : ClaimLease }.

Record RunCompletion := mkRunCompletion {
  rn_finished_at : Z;
  rn_success : bool;
  rn_output : string;
  rn_delivery_status : option DeliveryStatus;
  rn_run_id : option string
}.

Definition job_occurrence_ms (doc : value) : CronResult Z :=
  let? found := integer doc "next_run_ms" in
  match found with
  | Some ms => Ok ms
  | None => Err (CMessage "cron store: document has no `next_run_ms`")
  end.

Definition claim_epoch (doc : value) : option Z := get CLAIM_EPOCH doc >>? as_u64.

(** The job is the definition the caller captured. *)
Definition same_definition (job expected : CronJob) : bool :=
  bool_decide (cj_created_at job = cj_created_at expected) &&
  bool_decide (cj_claim_generation job = cj_claim_generation expected) &&
  same_execution_definition job expected &&
  bool_decide (cj_schedule job = cj_schedule expected) &&
  bool_decide (cj_next_run job = cj_next_run expected).

(** [checked_add(1)] of a [u64]. *)
Definition next_generation (generation : Z) : option Z :=
  if decide (generation + 1 ≤ u64_max)%Z then Some (generation + 1)%Z else None.

(** The document an acquisition writes. *)
Definition acquired_doc (inc owner : string) (epoch : Z) (doc : value) : CronResult value :=
  match doc with
  | Object m =>
      Ok (Object (obj_insert CLAIM_EPOCH (Number (PosInt epoch))
                    (obj_remove QUEUED (obj_remove COMPLETED
                       (obj_insert CLAIM_OWNER (Str owner) (obj_insert INCARNATION (Str inc) m))))))
  | _ => Err (CMessage "cron store: invalid job")
  end.

Definition receipt_of (claim : ClaimLease) : Receipt :=
  mkReceipt (cl_owner claim) (cl_token claim) (cl_epoch claim) (cl_incarnation claim)
    (timestamp_millis (cl_occurrence claim)).

(** The document a completion writes; [next] is the run it is advanced to. *)
Definition completed_doc (claim : ClaimLease) (c : RunCompletion) (next : option (Z * bool))
    (doc : value) : CronResult value :=
  match doc with
  | Object m =>
      let m := obj_remove CLAIM_OWNER (obj_remove CLAIM_EPOCH (obj_remove QUEUED m)) in
      let m := obj_insert COMPLETED (receipt_to_value (receipt_of claim)) m in
      let m := set_last_run m (rn_finished_at c) (rn_success c) (truncate_cron_output (rn_output c)) in
      Ok (Object match next with
                 | Some (next_run, one_shot) => reschedule m next_run one_shot
                 | None => m
                 end)
  | _ => Err (CMessage "cron store: invalid job")
  end.

(** Terminal history of a claim. *)
Definition completed_run (seq : Z) (job_id : string) (claim : ClaimLease) (c : RunCompletion) : value :=
  run_to_doc seq job_id (rn_run_id c) (Some (cl_incarnation claim)) (cl_started_at claim)
    (rn_finished_at c) (if rn_success c then "ok" else "error")
    (Some (truncate_cron_output (rn_output c)))
    (Z.quot (rn_finished_at c - cl_started_at claim) MILLI) (rn_delivery_status c).

Section Claims.
Context {D : Type} `{!DocumentStore D} `{!CronPort D} `{!CronWire} `{!Calendar} (w : World D).
Context (MAX_ID_LEN : nat) (validate_id : string → StoreResult unit)
        (digest_base32 : string → string).
Context (max_run_history : nat).

Notation Cron := (Cron (D := D)).
Notation lease_key := (lease_key MAX_ID_LEN validate_id digest_base32).

Definition expiry (now duration : Z) : CronResult Z :=
  if decide (duration ≤ 0)%Z then Err (CMessage "cron store: lease duration must be positive")
  else if valid_ms (timestamp_millis (now + duration)) then Ok (now + duration)%Z
  else Err (CMessage "cron store: lease expiry overflow").

(** ** Leases at the host's time *)

Definition lease_clock (now : Z) : nat → Z := λ _, Z.max 0 (timestamp_millis now).

Definition lease_current (now : Z) (key : string) : Cron (option Lease) :=
  call_read w (current MAX_ID_LEN validate_id digest_base32 (lease_clock now) OWNER key).
Definition lease_acquire (now : Z) (key token : string) (ttl_ms : Z) : Cron (option Lease) :=
  call_many w loop_calls (λ env, acquire env RetryPolicy_default MAX_ID_LEN validate_id digest_base32
                                   (lease_clock now) OWNER key token ttl_ms).
Definition lease_renew (now : Z) (key token : string) (epoch ttl_ms : Z) : Cron (option Lease) :=
  call_many w loop_calls (λ env, renew env RetryPolicy_default MAX_ID_LEN validate_id digest_base32
                                   (lease_clock now) OWNER key token epoch ttl_ms).
Definition lease_release (now : Z) (key token : string) (epoch : Z) : Cron bool :=
  call_many w loop_calls (λ env, release env RetryPolicy_default MAX_ID_LEN validate_id digest_base32
                                   (lease_clock now) OWNER key token epoch).
Definition lease_compact (key token : string) (epoch : Z) : Cron bool :=
  call_many w loop_calls (λ env, compact env RetryPolicy_default MAX_ID_LEN validate_id digest_base32
                                   OWNER key token epoch).

(** ** Ownership *)

Definition held_by (claim : ClaimLease) (held : option Lease) : bool :=
  match held with
  | Some l => bool_decide (ls_holder l = cl_token claim) && bool_decide (ls_epoch l = cl_epoch claim)
  | None => false
  end.

(** The part of [owns] the job document decides. *)
Definition fence (stored : Versioned value) (claim : ClaimLease) : CronResult bool :=
  if bool_decide (incarnation (ver_doc stored) = Some (cl_incarnation claim)) &&
     bool_decide (claim_epoch (ver_doc stored) = Some (cl_epoch claim))
  then let? job := doc_to_job stored in Ok (bool_decide (cj_next_run job = cl_occurrence claim))
  else Ok false.

Definition owns (stored : Versioned value) (claim : ClaimedOccurrence) (now : Z) : Cron bool :=
  let lease := co_lease claim in
  let! passed := clift (fence stored lease) in
  if passed then
    let! key := clift (lease_key (cj_id (co_job claim)) (timestamp_millis (cl_occurrence lease))) in
    let! held := lease_current now key in
    cret (held_by lease held)
  else cret false.

(** ** Acquisition *)

Definition give_back (now : Z) (key : string) (lease : Lease) : Cron unit :=
  let! _ := catch (lease_release now key (ls_holder lease) (ls_epoch lease)) in cret tt.

Definition claim_attempt (job_id : string) (expected : option CronJob) (owner : string)
    (now duration expires_at : Z) (force : bool) : Cron (option (option ClaimedOccurrence)) :=
  let! found := get_doc w JOBS job_id in
  match found with
  | None => cret (Some None)
  | Some stored =>
      let! job := clift (doc_to_job stored) in
      if match expected with Some e => negb (same_definition job e) | None => false end
      then cret (Some None)
      else if negb force && (negb (cj_enabled job) || bool_decide (now < cj_next_run job)%Z)
      then cret (Some None)
      else
        let! key := clift (lease_key job_id (timestamp_millis (cj_next_run job))) in
        let! occurrence_ms := clift (job_occurrence_ms (ver_doc stored)) in
        let! occurrence := clift (from_ms occurrence_ms) in
        let! inc := match incarnation (ver_doc stored) with
                    | Some i => cret i
                    | None => new_uuid w
                    end in
        let! _ := clift (acquired_doc inc owner 0 (ver_doc stored)) in
        let! token := new_uuid w in
        let! acquired := lease_acquire now key token (Z.max (Z.quot duration MILLI) 1) in
        match acquired with
        | None => cret (Some None)
        | Some lease =>
            let! doc := clift (acquired_doc inc owner (ls_epoch lease) (ver_doc stored)) in
            let! r := catch (commit_job w job_id (Some stored) (Some doc)
                               (queued_run_cleanup (ver_doc stored))) in
            match r with
            | Ok _ =>
                cret (Some (Some (mkClaimed job
                  (mkClaimLease owner token (ls_epoch lease) inc occurrence now expires_at))))
            | Err e =>
                let! _ := give_back now key lease in
                if conflict e then cret None else cfail e
            end
        end
  end.

Definition claim_occurrence (job_id : string) (expected : option CronJob) (owner : string)
    (now duration : Z) (force : bool) : Cron (option ClaimedOccurrence) :=
  if decide (trim owner = "") then cfail (CMessage "cron store: lease owner must not be empty")
  else
    let! expires_at := clift (expiry now duration) in
    let! _ := require_transactions in
    let! _ := ensure w in
    retry_loop CAS_ATTEMPTS (claim_attempt job_id expected owner now duration expires_at force)
      (CMessage "cron store: occurrence kept changing during acquisition").

Definition claim_due_job (job_id owner : string) (now duration : Z) : Cron (option ClaimedOccurrence) :=
  claim_occurrence job_id None owner now duration false.
Definition claim_due_job_for (expected : CronJob) (owner : string) (now duration : Z)
    : Cron (option ClaimedOccurrence) :=
  claim_occurrence (cj_id expected) (Some expected) owner now duration false.
Definition claim_job_now (expected : CronJob) (owner : string) (now duration : Z)
    : Cron (option ClaimedOccurrence) :=
  claim_occurrence (cj_id expected) (Some expected) owner now duration true.

(** ** Queueing *)

Definition queue_attempt (claim : ClaimedOccurrence) (queued_at : Z) (invocation_id : option string)
    : Cron (option bool) :=
  let job_id := cj_id (co_job claim) in
  let! found := get_doc w JOBS job_id in
  match found with
  | None => cret (Some false)
  | Some stored =>
      let! owned := owns stored claim queued_at in
      if negb owned then cret (Some false)
      else if bool_decide (is_Some (queued_run (ver_doc stored))) then cret (Some true)
      else
        let! seq := next_run_number w MAX_ID_LEN validate_id digest_base32 in
        let! doc := clift (index_set QUEUED (value_of_i64 seq) (ver_doc stored)) in
        let run := run_to_doc seq job_id invocation_id (Some (cl_incarnation (co_lease claim)))
                     queued_at queued_at "queued" None 0 None in
        retry_on_conflict
          (commit_job w job_id (Some stored) (Some doc) [WPut RUNS (cron_run_id seq) run PreAbsent])
          (λ _, cret (Some true))
  end.

Definition queue_claimed_run_with_id (claim : ClaimedOccurrence) (queued_at : Z)
    (invocation_id : option string) : Cron bool :=
  let! _ := require_transactions in
  let! _ := ensure w in
  retry_loop CAS_ATTEMPTS (queue_attempt claim queued_at invocation_id)
    (CMessage "cron store: occurrence changed while queueing run").
Definition queue_claimed_run (claim : ClaimedOccurrence) (queued_at : Z) : Cron bool :=
  queue_claimed_run_with_id claim queued_at None.

(** ** Renewal and release *)

Definition change_lease (key : string) (claim : ClaimedOccurrence) (now : Z) (expires_at : option Z)
    : Cron bool :=
  let lease := co_lease claim in
  match expires_at with
  | Some expires_at =>
      let! held := lease_current now key in
      let current_ms := match held with Some l => ls_expires_ms l | None => 0%Z end in
      let wanted := Z.max (timestamp_millis expires_at) current_ms in
      let! renewed := lease_renew now key (cl_token lease) (cl_epoch lease)
                        (Z.max (wanted - timestamp_millis now) 1) in
      cret (bool_decide (is_Some renewed))
  | None => lease_release now key (cl_token lease) (cl_epoch lease)
  end.

(** A release takes the queued placeholder back first; [false] is a lost race. *)
Definition drop_queued (job_id : string) (stored : Versioned value) : Cron bool :=
  match ver_doc stored with
  | Object m =>
      let! r := catch (commit_job w job_id (Some stored) (Some (Object (obj_remove QUEUED m)))
                         (queued_run_cleanup (ver_doc stored))) in
      match r with
      | Ok _ => cret true
      | Err e => if conflict e then cret false else cfail e
      end
  | _ => cfail (CMessage "cron store: invalid job")
  end.

Definition change_attempt (key : string) (claim : ClaimedOccurrence) (now : Z)
    (expires_at : option Z) : Cron (option bool) :=
  let job_id := cj_id (co_job claim) in
  let! found := get_doc w JOBS job_id in
  match found with
  | None => cret (Some false)
  | Some stored =>
      let! owned := owns stored claim now in
      if negb owned then cret (Some false)
      else
        let! clear :=
          if bool_decide (expires_at = None) && bool_decide (is_Some (queued_run (ver_doc stored)))
          then drop_queued job_id stored else cret true in
        if clear then let! changed := change_lease key claim now expires_at in cret (Some changed)
        else cret None
  end.

Definition change_claim (claim : ClaimedOccurrence) (now : Z) (expires_at : option Z) : Cron bool :=
  let! _ := require_transactions in
  let! _ := ensure w in
  let! key := clift (lease_key (cj_id (co_job claim))
                       (timestamp_millis (cl_occurrence (co_lease claim)))) in
  retry_loop CAS_ATTEMPTS (change_attempt key claim now expires_at)
    (CMessage "cron store: occurrence kept changing during lease change").

Definition renew_claim (claim : ClaimedOccurrence) (now duration : Z) : Cron bool :=
  let! expires_at := clift (expiry now duration) in change_claim claim now (Some expires_at).
Definition release_claim (claim : ClaimedOccurrence) (now : Z) : Cron bool :=
  change_claim claim now None.

(** ** Completion *)

(** Ending the lease of a completed claim and pruning its history: neither can
    fail the completion. *)
Definition end_lease (claim : ClaimedOccurrence) (c : RunCompletion) (advance : bool)
    (next_ms : option Z) : Cron unit :=
  let lease := co_lease claim in
  let occurrence_ms := timestamp_millis (cl_occurrence lease) in
  match lease_key (cj_id (co_job claim)) occurrence_ms with
  | Err _ => cret tt
  | Ok key =>
      let moved_past := match next_ms with
                        | Some next => bool_decide (occurrence_ms < next)%Z
                        | None => false
                        end in
      let! _ := catch (if advance && moved_past then lease_compact key (cl_token lease) (cl_epoch lease)
                       else lease_release (rn_finished_at c) key (cl_token lease) (cl_epoch lease)) in
      cret tt
  end.

Definition complete_attempt (claim : ClaimedOccurrence) (c : RunCompletion) (advance : bool)
    : Cron (option bool) :=
  let lease := co_lease claim in
  let! found := get_doc w JOBS (cj_id (co_job claim)) in
  match found with
  | None => cret (Some false)
  | Some stored =>
      let! owned := owns stored claim (rn_finished_at c) in
      if negb owned then cret (Some false)
      else
        let! job := clift (doc_to_job stored) in
        let! next :=
          if advance then
            let! next_run := clift (sched (next_run_for_schedule (cj_schedule job) (rn_finished_at c))) in
            cret (Some (next_run, is_one_shot (cj_schedule job)))
          else cret None in
        let! doc := clift (completed_doc lease c next (ver_doc stored)) in
        let! seq := next_run_number w MAX_ID_LEN validate_id digest_base32 in
        let extra := WPut RUNS (cron_run_id seq) (completed_run seq (cj_id job) lease c) PreAbsent
                     :: queued_run_cleanup (ver_doc stored) in
        let next_ms := match job_occurrence_ms doc with Ok ms => Some ms | Err _ => None end in
        retry_on_conflict
          (commit_job w (cj_id job) (Some stored) (Some doc) extra)
          (λ _, let! _ := end_lease claim c advance next_ms in
                let! _ := catch (prune_runs w max_run_history (cj_id job) (ver_doc stored)) in
                cret (Some true))
  end.

Definition complete_claim_mode (claim : ClaimedOccurrence) (c : RunCompletion) (advance : bool)
    : Cron bool :=
  let! _ := require_transactions in
  let! _ := ensure w in
  if decide (rn_finished_at c < cl_started_at (co_lease claim))%Z
  then cfail (CMessage "cron store: completion precedes acquisition")
  else retry_loop CAS_ATTEMPTS (complete_attempt claim c advance)
         (CMessage "cron store: occurrence kept changing during completion").

Definition complete_claim (claim : ClaimedOccurrence) (finished_at : Z) (success : bool)
    (output : string) (delivery_status : option DeliveryStatus) : Cron bool :=
  complete_claim_mode claim (mkRunCompletion finished_at success output delivery_status None) true.
Definition complete_claim_with_run (claim : ClaimedOccurrence) (c : RunCompletion) : Cron bool :=
  complete_claim_mode claim c true.
Definition complete_manual_claim (claim : ClaimedOccurrence) (finished_at : Z) (success : bool)
    (output : string) (delivery_status : option DeliveryStatus) : Cron bool :=
  complete_claim_mode claim (mkRunCompletion finished_at success output delivery_status None) false.
Definition complete_manual_claim_with_run (claim : ClaimedOccurrence) (c : RunCompletion) : Cron bool :=
  complete_claim_mode claim c false.

(** ** Removal of a completed job *)

Definition remove_completed_claim (claim : ClaimedOccurrence) : Cron bool :=
  let lease := co_lease claim in
  let! _ := require_transactions in
  let! _ := ensure w in
  retry_loop CAS_ATTEMPTS
    (let! found := get_doc w JOBS (cj_id (co_job claim)) in
     match found with
     | None => cret (Some false)
     | Some stored =>
         let! completed := clift (receipt (ver_doc stored)) in
         if bool_decide (completed = Some (receipt_of lease)) &&
            bool_decide (incarnation (ver_doc stored) = Some (cl_incarnation lease)) then
           let! removed := remove_unchanged w MAX_ID_LEN validate_id digest_base32 stored in
           cret (if removed then Some true else None)
         else cret (Some false)
     end)
    (CMessage "cron store: completed occurrence kept changing during removal").

(** ** Reconciling an ambiguous manual claim *)

Definition queued_start (doc : value) (now : Z) : Cron Z :=
  match queued_run doc with
  | None => cret now
  | Some seq =>
      let! run := get_doc w RUNS (cron_run_id seq) in
      cret (match run >>? (λ d, get "started_ms" (ver_doc d)) >>? as_i64 with
            | Some ms => match from_ms ms with Ok t => t | Err _ => now end
            | None => now
            end)
  end.

(** A same-document write fences the captured snapshot; the lease seen before it
    is released by its exact token and epoch. *)
Definition reconcile_fence (key : string) (expected : CronJob) (now : Z) (stored : Versioned value)
    (job : CronJob) (held : option Lease) : Cron (option (option ClaimedOccurrence)) :=
  if negb (same_definition job expected) then cret (Some None)
  else
    match next_generation (cj_claim_generation job) with
    | None => cfail (CMessage "cron store: claim generation exhausted")
    | Some generation =>
        let! doc := clift (index_set "claim_generation" (Number (PosInt generation)) (ver_doc stored)) in
        retry_on_conflict (commit_job w (cj_id job) (Some stored) (Some doc) [])
          (λ _,
             let! _ := match held with
                       | Some l => lease_release now key (ls_holder l) (ls_epoch l)
                       | None => cret true
                       end in
             cret (Some None))
    end.

Definition reconcile_attempt (key : string) (expected : CronJob) (owner : string) (now : Z)
    : Cron (option (option ClaimedOccurrence)) :=
  let! found := get_doc w JOBS (cj_id expected) in
  match found with
  | None => cret (Some None)
  | Some stored =>
      let doc := ver_doc stored in
      let! job := clift (doc_to_job stored) in
      let! held := lease_current now key in
      let committed := match held with
                       | Some l => bool_decide (claim_epoch doc = Some (ls_epoch l))
                       | None => false
                       end in
      match held, incarnation doc with
      | Some l, Some inc =>
          if committed && bool_decide (cj_next_run job = cj_next_run expected) then
            if decide (text doc CLAIM_OWNER = Some owner) then
              let! started_at := queued_start doc now in
              let! expires_at := clift (from_ms (ls_expires_ms l)) in
              cret (Some (Some (mkClaimed job (mkClaimLease owner (ls_holder l) (ls_epoch l) inc
                                                 (cj_next_run expected) started_at expires_at))))
            else cret (Some None)
          else if committed then cret (Some None)
          else reconcile_fence key expected now stored job held
      | _, _ =>
          if committed then cret (Some None) else reconcile_fence key expected now stored job held
      end
  end.

Definition reconcile_manual_claim_admission (expected : CronJob) (owner : string) (now : Z)
    : Cron (option ClaimedOccurrence) :=
  let! _ := require_transactions in
  if decide (trim owner = "") then cfail (CMessage "cron store: lease owner must not be empty")
  else
    let! key := clift (lease_key (cj_id expected) (timestamp_millis (cj_next_run expected))) in
    retry_loop CAS_ATTEMPTS (reconcile_attempt key expected owner now)
      (CMessage "cron store: manual admission reconciliation kept changing").

(** ** Slots without a lease *)

Definition slot_claimed (job : CronJob) (next : Z) (stored : Versioned value)
    : CronResult (option value) :=
  let? now := doc_to_job stored in
  if negb (cj_enabled now) || negb (same_definition now job) then Ok None
  else
    match next_generation (cj_claim_generation job) with
    | None => Err (CMessage "claim generation exhausted")
    | Some generation =>
        let doc := obj_insert "claim_generation" (Number (PosInt generation))
                     (body_object (ver_doc stored)) in
        Ok (Some (Object (reschedule doc next (is_one_shot (cj_schedule job)))))
    end.

Definition claim_slot (job : CronJob) (next : Z) : Cron bool :=
  let! _ := ensure w in
  let! stored := compare_job w (cj_id job) (slot_claimed job next) in
  cret (bool_decide (is_Some stored)).

(** The job is still the one whose slot was claimed. *)
Definition same_slot (now job : CronJob) : bool :=
  bool_decide (cj_created_at now = cj_created_at job) &&
  bool_decide (Some (cj_claim_generation now) = next_generation (cj_claim_generation job)).

Definition slot_completed (job : CronJob) (completion : Completion) (stored : Versioned value)
    : CronResult (option value) :=
  let? now := doc_to_job stored in
  if negb (same_slot now job) then Ok None
  else
    let same := bool_decide (cj_schedule now = cj_schedule job) in
    let next := set_last_run (body_object (ver_doc stored)) (cp_finished_at completion)
                  (cp_success completion) (truncate_cron_output (cp_output completion)) in
    let next := match cp_next_run completion with
                | Some time => if same && bool_decide (cj_next_run now ≤ time)%Z
                               then reschedule next time false else next
                | None => next
                end in
    Ok (Some (Object (if same && cp_disable completion && negb (is_one_shot (cj_schedule job))
                      then obj_insert "enabled" (Bool false) next else next))).

(** One attempt to delete the finished one-shot: [Some true] it is gone or another
    creation's, [Some false] it must be kept, [None] it changed meanwhile. *)
Definition remove_finished (job : CronJob) : Cron (option bool) :=
  let! found := get_doc w JOBS (cj_id job) in
  match found with
  | None => cret (Some true)
  | Some stored =>
      let! now := clift (doc_to_job stored) in
      if negb (same_slot now job) then cret (Some true)
      else if cj_enabled now || negb (cj_delete_after_run now) ||
              negb (bool_decide (cj_schedule now = cj_schedule job)) ||
              negb (bool_decide (cj_command now = cj_command job)) ||
              negb (bool_decide (cj_prompt now = cj_prompt job))
      then cret (Some false)
      else
        let! removed := remove_unchanged w MAX_ID_LEN validate_id digest_base32 stored in
        cret (if removed then Some true else None)
  end.

Definition complete_run (job : CronJob) (completion : Completion) : Cron unit :=
  let! _ := ensure w in
  let! finished :=
    if cp_remove completion then
      retry_loop CAS_ATTEMPTS (remove_finished job)
        (CMessage "completion deletion kept changing under 32 attempts")
    else cret false in
  if finished then cret tt
  else let! _ := compare_job w (cj_id job) (slot_completed job completion) in cret tt.
End Claims.
