(* ===== verification/CronFacts.v ===== *)
(** * What the cron store relies on and guarantees

    Writers of the job collection coordinate through the version of the admission
    ledger.  [participates] is what each of them promises the others about one
    change of the store, and [Accounts] the invariant of the ledger.  [cron_step]
    collects the atomic writes of the operations; [closed_step] assertions survive
    all of them. *)

From stdpp Require Import sorting.
From S2P Require Import Prelude Json StorageKey Repo Leases StoragePrimitives Schedule.
From S2P Require Import CronPort CronAdmission CronJobs.

(** ** The ledger as JSON *)

Lemma only_fields_json known fields :
  Forall (λ kv : string * value, kv.1 ∈ known) fields → only_fields known (json_object fields) = true.
Proof.
  intros H. cbn. apply forallb_forall. intros [k v] Hin%list_elem_of_In.
  apply bool_decide_eq_true. cbn.
  enough (Hk : ∀ m, Forall (λ kv : string * value, kv.1 ∈ known) m →
            Forall (λ kv : string * value, kv.1 ∈ known)
              (foldl (λ m kv, obj_insert kv.1 kv.2 m) m fields)).
  { by apply (proj1 (Forall_forall _ _) (Hk [] (Forall_nil_2 _)) (k, v)). }
  clear Hin. induction H as [|[k' v'] fields Hk' _ IH]; intros m Hm; cbn; [done|].
  apply IH. clear IH. cbn in Hk'.
  induction Hm as [|[j u] m Hj Hm IH]; cbn; [by repeat constructor|].
  repeat case_match; repeat constructor; done.
Qed.

Lemma member_value_roundtrip m : member_from_value (member_to_value m) = Some m.
Proof. destruct m as [id [i|] e]; reflexivity. Qed.

Lemma collect_option_map {A B} (f : A → option B) (g : B → A) l :
  (∀ x, f (g x) = Some x) → collect_option (f <$> (g <$> l)) = Some l.
Proof. intros H. induction l as [|x l IH]; cbn; [done|]. rewrite H. cbn. by rewrite IH. Qed.

Definition ledger_wf (st : Admission) : Prop :=
  ∀ id m, ad_jobs st !! id = Some m → mb_job_id m = id.

Lemma members_to_map_snoc l m : members_to_map (l ++ [m]) = <[mb_job_id m := m]> (members_to_map l).
Proof. unfold members_to_map. by rewrite foldl_app. Qed.

Lemma members_to_map_wf l id m : members_to_map l !! id = Some m → mb_job_id m = id.
Proof.
  induction l as [|x l IH] using rev_ind; [done|]. rewrite members_to_map_snoc.
  rewrite lookup_insert_Some. intros [[<- <-]|[_ H]]; auto.
Qed.

Lemma members_to_map_list l :
  NoDup (mb_job_id <$> l) → members_to_map l = list_to_map ((λ m, (mb_job_id m, m)) <$> l).
Proof.
  induction l as [|x l IH] using rev_ind; [done|]. rewrite members_to_map_snoc, !fmap_app.
  rewrite NoDup_app. intros (Hl & Hx & _). rewrite (IH Hl).
  cbn [fmap list_fmap]. rewrite list_to_map_snoc; [done|].
  rewrite <- list_fmap_compose. intros (m & E & Hm)%list_elem_of_fmap. apply (Hx (mb_job_id x)); [|left].
  apply list_elem_of_fmap. by exists m.
Qed.

Lemma members_in_order_map st : ledger_wf st → members_to_map (members_in_order (ad_jobs st)) = ad_jobs st.
Proof.
  intros Hwf. unfold members_in_order.
  pose proof (merge_sort_Permutation entry_le (map_to_list (ad_jobs st))) as Hp.
  set (l := merge_sort entry_le (map_to_list (ad_jobs st))) in *.
  assert (Hl : (λ m, (mb_job_id m, m)) <$> l.*2 = l).
  { assert (H : ∀ p, p ∈ l → mb_job_id p.2 = p.1).
    { intros [id m] Hin. rewrite Hp in Hin. apply elem_of_map_to_list in Hin. by apply Hwf. }
    clearbody l. clear Hp. induction l as [|[id m] l IH]; [done|]. cbn. f_equal.
    - f_equal. by apply (H (id, m)); left.
    - apply IH. intros p Hin. apply H. by right. }
  assert (Hn : NoDup l.*1) by (rewrite Hp; apply NoDup_fst_map_to_list).
  rewrite members_to_map_list.
  - rewrite Hl. rewrite (list_to_map_proper l (map_to_list (ad_jobs st)) Hn Hp). apply list_to_map_to_list.
  - assert (E : mb_job_id <$> l.*2 = l.*1); [|by rewrite E].
    rewrite <- Hl at 2. rewrite <- !list_fmap_compose. by apply list_fmap_ext.
Qed.

Lemma ledger_roundtrip st : ledger_wf st → ledger_decode (ledger_encode st) = Ok st.
Proof.
  intros Hwf. unfold ledger_decode, ledger_encode. destruct st as [limit jobs]. cbn [ad_limit ad_jobs].
  rewrite only_fields_json by (destruct limit; repeat constructor; set_solver).
  set (ms := member_to_value <$> members_in_order jobs).
  set (doc := json_object _).
  assert (Hl : get "limit" doc = (λ l, Number (PosInt l)) <$> limit) by by destruct limit.
  assert (Hm : get "members" doc = Some (Array ms)) by by destruct limit.
  rewrite Hl, Hm. unfold ms. cbn [and_then as_array].
  rewrite (collect_option_map _ _ _ member_value_roundtrip).
  pose proof (members_in_order_map (mkAdmission limit jobs) Hwf) as E. cbn in E.
  destruct limit; cbn; by rewrite E.
Qed.

Lemma ledger_decode_wf doc st : ledger_decode doc = Ok st → ledger_wf st.
Proof.
  unfold ledger_decode. destruct (only_fields _ _); [|done]. cbn.
  destruct (opt_u64 _) as [lim|]; cbn; [|done].
  destruct (get "members" doc >>? as_array) as [ms|]; cbn; [|done].
  destruct (collect_option _) as [members|]; cbn; [|done].
  intros [= <-] id m. apply members_to_map_wf.
Qed.

Lemma next_members_wf id next st jobs :
  ledger_wf st → next_members id next (ad_jobs st) = Ok jobs → ledger_wf (mkAdmission (ad_limit st) jobs).
Proof.
  intros Hwf. unfold next_members, member_of. destruct next as [doc|]; cbn.
  - destruct (get "enabled" doc) as [[]|]; cbn; intros [= <-] j m; cbn;
      rewrite lookup_insert_Some; intros [[<- <-]|[_ H]]; auto.
  - intros [= <-] j m; cbn. rewrite lookup_delete_Some. intros [_ H]. auto.
Qed.

Section Facts.
Context {D : Type} `{Docs : !DocumentStore D} `{Port : !CronPort D} `{Wire : !CronWire} `{Laws : !LawfulPort D}.
Context (w : World D).

Definition body (s : D) (c i : string) : option value := ver_doc <$> content s c i.
Definition ledger (s : D) : option (Versioned value) := content s ADMISSION LEDGER.

Definition enrolled (doc : value) (id : string) : Prop :=
  ∃ st, ledger_decode doc = Ok st ∧ is_Some (ad_jobs st !! id).

(** ** The rely *)

(** One change of the store by a writer that coordinates through the ledger: the
    ledger is never removed, and while its version stands so do its body and the
    jobs it enrols; before there is a ledger, jobs only appear. *)
Definition participates (s s' : D) : Prop :=
  (∀ d, ledger s = Some d → ∃ d', ledger s' = Some d' ∧ (ver_version d ≤ ver_version d')%N ∧
     (ver_version d' = ver_version d → ver_doc d' = ver_doc d ∧
        ∀ id, enrolled (ver_doc d) id → body s' JOBS id = body s JOBS id)) ∧
  (ledger s' = None → ∀ id b, body s JOBS id = Some b → body s' JOBS id = Some b).

#[export] Instance participates_preorder : PreOrder participates.
Proof.
  split.
  - intros s. split; [|done]. intros d Hd. exists d. done.
  - intros s1 s2 s3 [H1 N1] [H2 N2]. split.
    + intros d Hd. destruct (H1 d Hd) as (d2 & Hd2 & Hle2 & Heq2).
      destruct (H2 d2 Hd2) as (d3 & Hd3 & Hle3 & Heq3). exists d3. split; [done|]. split; [lia|].
      intros Hv. destruct Heq2 as [Hb2 Hj2]; [lia|]. destruct Heq3 as [Hb3 Hj3]; [lia|].
      split; [congruence|]. intros id He. rewrite Hj3 by (by rewrite Hb2). by apply Hj2.
    + intros H3 id b Hb. apply N2; [done|]. apply N1; [|done].
      destruct (ledger s2) as [d2|] eqn:E; [|done]. destruct (H2 d2 eq_refl) as (d3 & ? & _). congruence.
Qed.

(** ** Atomic writes *)

(** What a successful [commit_job] did at one instant. *)
Record committed (id : string) (previous : option (Versioned value)) (next : option value)
    (extra : list WriteOp) (s s' : D) : Prop := {
  cm_before : body s JOBS id = ver_doc <$> previous;
  cm_after : body s' JOBS id = next;
  cm_ledger : ∃ d st jobs d',
    ledger s = Some d ∧ ledger_decode (ver_doc d) = Ok st ∧
    ledger_owns previous (ad_jobs st !! id) = true ∧
    next_members id next (ad_jobs st) = Ok jobs ∧
    admission_check (mkAdmission (ad_limit st) jobs) = Ok tt ∧
    ledger s' = Some d' ∧ ver_doc d' = ledger_encode (mkAdmission (ad_limit st) jobs) ∧
    (ver_version d < ver_version d')%N;
  cm_extra : ∀ op, op ∈ extra →
    holds (op_pre op) (content s (op_target op).1 (op_target op).2) ∧
    ((∀ op', op' ∈ extra → op_target op' = op_target op → op' = op) →
     match op with
     | WPut c i doc _ => body s' c i = Some doc
     | WDelete c i _ => body s' c i = None
     end);
  cm_frame : ∀ c i, (c, i) ≠ (JOBS, id) → (c, i) ≠ (ADMISSION, LEDGER) →
    (∀ op, op ∈ extra → op_target op ≠ (c, i)) → content s' c i = content s c i
}.

(** Every member names a stored job and says what it says. *)
Definition truthful (jobs : gmap string Member) (s : D) : Prop :=
  ∀ id m, jobs !! id = Some m → ∃ doc, body s JOBS id = Some doc ∧ member_of id doc = Ok m.

(** A ledger that accounts for the stored jobs, newer than the one before. *)
Definition rebuilt (s s' : D) : Prop :=
  ∃ d' st, ledger s' = Some d' ∧ ver_doc d' = ledger_encode st ∧ ledger_wf st ∧
    admission_check st = Ok tt ∧ truthful (ad_jobs st) s' ∧
    ∀ d, ledger s = Some d → (ver_version d < ver_version d')%N.

(** The ledger created from the jobs of a store that had none. *)
Definition initialised (s s' : D) : Prop :=
  (∀ c i, (c, i) ≠ (ADMISSION, LEDGER) → body s' c i = body s c i) ∧ ledger s = None ∧ rebuilt s s'.

(** A cap installed: the ledger is rebuilt and the jobs it enrolled are as they
    were. *)
Definition capped (s s' : D) : Prop :=
  (∀ c i, c ≠ JOBS → (c, i) ≠ (ADMISSION, LEDGER) → content s' c i = content s c i) ∧
  (∀ d id, ledger s = Some d → enrolled (ver_doc d) id → body s' JOBS id = body s JOBS id) ∧
  rebuilt s s'.

(** A write to another collection. *)
Definition elsewhere (s s' : D) : Prop :=
  ∀ c i, c = JOBS ∨ c = ADMISSION → content s' c i = content s c i.

(** A write outside the collections of jobs, of runs and of the ledger. *)
Definition apart (s s' : D) : Prop :=
  ∀ c i, c = JOBS ∨ c = ADMISSION ∨ c = RUNS → content s' c i = content s c i.

(** Runs deleted; jobs and ledger as they were, and no run written. *)
Definition trims (s s' : D) : Prop :=
  elsewhere s s' ∧ ∀ i, content s' RUNS i = content s RUNS i ∨ content s' RUNS i = None.

Lemma apart_elsewhere s s' : apart s s' → elsewhere s s'.
Proof. intros H c i Hc. apply H. naive_solver. Qed.

Inductive cron_step (s s' : D) : Prop :=
| step_commit id previous next extra : committed id previous next extra s s' → 
    Forall (λ op, (op_target op).1 = RUNS) extra → cron_step s s'
| step_init : initialised s s' → cron_step s s'
| step_cap : capped s s' → cron_step s s'
| step_elsewhere : elsewhere s s' → cron_step s s'.

Lemma committed_content id previous next extra s s' c i :
  committed id previous next extra s s' → Forall (λ op, (op_target op).1 = RUNS) extra →
  c = JOBS ∨ c = ADMISSION → (c, i) ≠ (JOBS, id) → (c, i) ≠ (ADMISSION, LEDGER) →
  content s' c i = content s c i.
Proof.
  intros H Hx Hc H1 H2. apply (cm_frame _ _ _ _ _ _ H); [done..|].
  intros op Hop E. rewrite Forall_forall in Hx. specialize (Hx op Hop). rewrite E in Hx.
  cbn in Hx. subst. by destruct Hc.
Qed.

Lemma rebuilt_participates s s' : rebuilt s s' → participates s s'.
Proof.
  intros (d' & st & Hd' & _ & _ & _ & _ & Hv). split; [|congruence].
  intros d Hd. exists d'. specialize (Hv d Hd). split; [done|]. split; [lia|]. intros E. exfalso. lia.
Qed.

(** The guarantee: the operations keep the promise they rely on. *)
Lemma cron_step_participates s s' : cron_step s s' → participates s s'.
Proof.
  intros [id previous next extra H _|(_ & _ & Hr)|(_ & _ & Hr)|He].
  - destruct (cm_ledger _ _ _ _ _ _ H) as (d & st & jobs & d' & Hd & _ & _ & _ & _ & Hd' & _ & Hv).
    split; [|congruence]. intros d0 Hd0. assert (d0 = d) as -> by congruence.
    exists d'. split; [done|]. split; [lia|]. intros E. exfalso. lia.
  - by apply rebuilt_participates.
  - by apply rebuilt_participates.
  - assert (Hl : ledger s' = ledger s) by (apply He; by right).
    assert (Hj : ∀ id, body s' JOBS id = body s JOBS id) by (intros id; unfold body; rewrite He; auto).
    split; [|by intros _ id b; rewrite Hj]. intros d Hd. exists d. rewrite Hl. auto.
Qed.

(** ** The invariant of the ledger *)

Definition Accounts (s : D) : Prop :=
  ∀ d, ledger s = Some d → ∃ st, ledger_decode (ver_doc d) = Ok st ∧
    admission_check st = Ok tt ∧ truthful (ad_jobs st) s.

Lemma committed_truthful id previous next extra s s' st jobs :
  committed id previous next extra s s' → Forall (λ op, (op_target op).1 = RUNS) extra →
  truthful (ad_jobs st) s → next_members id next (ad_jobs st) = Ok jobs → truthful jobs s'.
Proof.
  intros H Hx Ht Hn j m Hj.
  destruct (decide (j = id)) as [->|Hne].
  - rewrite (cm_after _ _ _ _ _ _ H). unfold next_members in Hn. destruct next as [doc|]; cbn in Hn.
    + destruct (member_of id doc) as [m'|] eqn:E; cbn in Hn; [|done]. injection Hn as <-.
      rewrite lookup_insert_eq in Hj. injection Hj as <-. eauto.
    + injection Hn as <-. by rewrite lookup_delete_eq in Hj.
  - assert (Hj' : ad_jobs st !! j = Some m).
    { unfold next_members in Hn. destruct next as [doc|]; cbn in Hn.
      - destruct (member_of id doc); cbn in Hn; [|done]. injection Hn as <-.
        by rewrite lookup_insert_ne in Hj.
      - injection Hn as <-. by rewrite lookup_delete_ne in Hj. }
    unfold body. rewrite (committed_content _ _ _ _ _ _ JOBS j H Hx); [|by left|congruence|done].
    by apply Ht.
Qed.

Lemma rebuilt_accounts s s' : rebuilt s s' → Accounts s'.
Proof.
  intros (d' & st & Hd' & He & Hwf & Hc & Ht & _) d Hd. assert (d = d') as -> by congruence.
  rewrite He. exists st. split; [by apply ledger_roundtrip|done].
Qed.

Lemma cron_step_accounts s s' : Accounts s → cron_step s s' → Accounts s'.
Proof.
  intros HA [id previous next extra H Hx|(_ & _ & Hr)|(_ & _ & Hr)|He].
  - destruct (cm_ledger _ _ _ _ _ _ H) as (d & st & jobs & d' & Hd & Hst & _ & Hn & Hc & Hd' & Henc & _).
    destruct (HA d Hd) as (st' & Hst' & _ & Ht). assert (st' = st) as -> by congruence.
    intros d0 Hd0. assert (d0 = d') as -> by congruence. rewrite Henc.
    exists (mkAdmission (ad_limit st) jobs). split; [|split; [done|]].
    + apply ledger_roundtrip, (next_members_wf id next); [by eapply ledger_decode_wf|done].
    + cbn. by eapply committed_truthful.
  - by eapply rebuilt_accounts.
  - by eapply rebuilt_accounts.
  - intros d Hd. assert (Hl : ledger s' = ledger s) by (apply He; by right). rewrite Hl in Hd.
    destruct (HA d Hd) as (st & ? & ? & Ht). exists st. split; [done|]. split; [done|].
    intros id m Hm. unfold body. rewrite He by auto. by apply Ht.
Qed.

(** ** Rebuilding the ledger *)

Definition fence_op (row : Versioned value) : WriteOp :=
  WPut JOBS (ver_id row) (ver_doc row) (unchanged row).

Lemma member_of_id id doc m : member_of id doc = Ok m → mb_job_id m = id.
Proof. unfold member_of. by destruct (get "enabled" doc) as [[]|]; cbn; intros [= <-]. Qed.

Lemma snapshot_ok rows : ∀ jobs ops jobs' ops',
  snapshot rows jobs ops = Ok (jobs', ops') →
  ops' = ops ++ (fence_op <$> rows) ∧
  ∀ id m, jobs' !! id = Some m →
    jobs !! id = Some m ∨ ∃ row, row ∈ rows ∧ ver_id row = id ∧ member_of id (ver_doc row) = Ok m.
Proof.
  induction rows as [|row rows IH]; intros jobs ops jobs' ops'; cbn.
  { intros [= <- <-]. split; [by rewrite app_nil_r|auto]. }
  destruct (doc_to_job row); cbn; [|done].
  destruct (member_of (ver_id row) (ver_doc row)) as [m0|] eqn:Em; cbn; [|done].
  intros [-> Hj]%IH. split; [by rewrite <- app_assoc|].
  intros id m [Hm|(r & Hr & H1 & H2)]%Hj.
  - apply lookup_insert_Some in Hm as [[<- <-]|[_ Hm]]; [|by left].
    right. exists row. split; [left|done].
  - right. exists r. split; [by right|done].
Qed.

(** What the batch that writes a rebuilt ledger does. *)
Lemma rebuild_batch rows jobs ops limit p s s' rs :
  snapshot rows ∅ [] = Ok (jobs, ops) → NoDup (ver_id <$> rows) →
  admission_check (mkAdmission limit jobs) = Ok tt →
  atomic_batch (ops ++ [WPut ADMISSION LEDGER (ledger_encode (mkAdmission limit jobs)) p]) s = (s', Ok rs) →
  holds p (ledger s) ∧ rebuilt s s' ∧
  (∀ c i, c ≠ JOBS → (c, i) ≠ (ADMISSION, LEDGER) → content s' c i = content s c i) ∧
  (∀ row, row ∈ rows → body s' JOBS (ver_id row) = Some (ver_doc row)) ∧
  (∀ id, id ∉ (ver_id <$> rows) → content s' JOBS id = content s JOBS id).
Proof.
  intros [-> Hj]%snapshot_ok Hnd Hc Hb. cbn in Hb.
  destruct (batch_law _ _ _ _ Hb) as (Hpre & Hframe & Hw & _).
  set (lop := WPut ADMISSION LEDGER _ p) in *.
  assert (Hlop : lop ∈ (fence_op <$> rows) ++ [lop]) by set_solver.
  assert (Hrow : ∀ row, row ∈ rows → body s' JOBS (ver_id row) = Some (ver_doc row)).
  { intros row Hrow. destruct (Hw (fence_op row)) as (d & Hd & Hdoc & _).
    - apply elem_of_app. left. by apply list_elem_of_fmap_2.
    - intros op' [(r & -> & Hr)%list_elem_of_fmap|Hop]%elem_of_app E.
      + cbn in E. f_equal. injection E as E.
        apply list_elem_of_lookup in Hr as [i Hi]. apply list_elem_of_lookup in Hrow as [j Hj'].
        assert (i = j) as ->; [|congruence].
        apply (NoDup_lookup (ver_id <$> rows) i j (ver_id row)); [done| |];
          rewrite list_lookup_fmap; [rewrite Hi|rewrite Hj']; cbn; congruence.
      + apply list_elem_of_singleton in Hop as ->. done.
    - unfold body. rewrite Hd. cbn. by rewrite Hdoc. }
  destruct (Hw lop Hlop) as (d' & Hd' & Hdoc & Hnew).
  { intros op' [(r & -> & Hr)%list_elem_of_fmap|Hop]%elem_of_app E; [done|].
    by apply list_elem_of_singleton in Hop as ->. }
  split; [by apply (Hpre lop)|]. split; [|split; [|split]]; [| |done|].
  - exists d', (mkAdmission limit jobs). split; [done|]. split; [done|].
    assert (Hj' : ∀ id m, jobs !! id = Some m →
              ∃ row, row ∈ rows ∧ ver_id row = id ∧ member_of id (ver_doc row) = Ok m).
    { intros id m [H|H]%Hj; [by rewrite lookup_empty in H|done]. }
    split; [|split; [done|split; [|done]]].
    + intros id m (row & _ & <- & Hm)%Hj'. by eapply member_of_id.
    + intros id m (row & Hr & <- & Hm)%Hj'. eauto.
  - intros c i Hc1 Hc2. apply Hframe.
    intros op [(r & -> & Hr)%list_elem_of_fmap|Hop%list_elem_of_singleton]%elem_of_app; [|subst op]; cbn; congruence.
  - intros id Hid. apply Hframe.
    intros op [(r & -> & Hr)%list_elem_of_fmap|Hop%list_elem_of_singleton]%elem_of_app; [|by subst op]. cbn.
    intros [= <-]. apply Hid. by apply list_elem_of_fmap_2.
Qed.
End Facts.
