(* ===== verification/CronCommit.v ===== *)
(** * [commit_job] is one atomic step

    The specifications of [admission] and [commit_job] against writers that
    coordinate through the ledger, and what follows for every operation of the
    cron store: an assertion all the atomic writes keep is kept by the operation
    ([keeps]). *)

From S2P Require Import Prelude Json StorageKey Repo Leases StoragePrimitives Schedule ScheduleRuntime CronPort.
From S2P Require Import CronAdmission CronJobs CronClaims CronFacts.

Section Commit.
Context {D : Type} `{Docs : !DocumentStore D} `{Port : !CronPort D} `{Wire : !CronWire}
        `{Laws : !LawfulPort D} (w : World D).
Notation Cron := (Cron (D := D)).
Context (Htx : transactions = true).
Context (Hrely : ∀ k s, participates s (w_env w k s)).

(** Assertions other writers, a first ledger and calls that change no document
    leave alone. *)
Record steady (P : D → Prop) : Prop := {
  steady_env : stable w P;
  steady_init s s' : P s → initialised s s' → P s';
  steady_same s s' : P s → content s' = content s → P s'
}.

(** Those that writes outside the jobs, the runs and the ledger leave alone too. *)
Record calm (P : D → Prop) : Prop := {
  calm_steady : steady P;
  calm_apart s s' : P s → apart s s' → P s'
}.

(** Those that deletions of runs leave alone as well. *)
Record relaxed (P : D → Prop) : Prop := {
  relaxed_calm : calm P;
  relaxed_trims s s' : P s → trims s s' → P s'
}.

(** Those every write of the operations leaves alone. *)
Record closed (P : D → Prop) : Prop := {
  closed_env : stable w P;
  closed_step s s' : P s → cron_step s s' → P s'
}.

(** A call that changes no document. *)
Lemma apart_same s s' : content s' = content s → apart s s'.
Proof. intros E c i _. by rewrite E. Qed.

Lemma closed_relaxed P : closed P → relaxed P.
Proof.
  intros [He Hs]. split; [split; [split; [done| |]|]|]; intros s s' HP H; apply (Hs s s' HP).
  - by apply step_init.
  - by apply step_elsewhere, apart_elsewhere, apart_same.
  - by apply step_elsewhere, apart_elsewhere.
  - by apply step_elsewhere, H.
Qed.
Lemma closed_calm P : closed P → calm P.
Proof. intros H. by apply relaxed_calm, closed_relaxed. Qed.

Lemma closed_accounts : stable w Accounts → closed Accounts.
Proof. intros H. split; [done|]. intros. by eapply cron_step_accounts. Qed.

Lemma closed_participates s0 : closed (participates s0).
Proof.
  split.
  - intros k s H. by rewrite H.
  - intros s s' H Hs. rewrite H. by apply cron_step_participates.
Qed.

(** Knowing that the ledger has moved on from [d], and a fact that lasts as long
    as it has not. *)
Definition since (d : Versioned value) (s : D) : Prop :=
  ∃ d', ledger s = Some d' ∧ (ver_version d ≤ ver_version d')%N ∧
    (ver_version d' = ver_version d → ver_doc d' = ver_doc d).

Definition job_since (d : Versioned value) (id : string) (b : option value) (s : D) : Prop :=
  since d s ∧ ∀ d', ledger s = Some d' → ver_version d' = ver_version d → body s JOBS id = b.

Lemma since_now d s : ledger s = Some d → since d s.
Proof. intros H. exists d. done. Qed.

Lemma stable_since d : stable w (since d).
Proof.
  intros k s (d1 & H1 & Hle & Heq). destruct (Hrely k s) as [Hp _].
  destruct (Hp d1 H1) as (d2 & H2 & Hle2 & Heq2). exists d2. split; [done|]. split; [lia|].
  intros Hv. destruct Heq2 as [-> _]; [lia|]. apply Heq. lia.
Qed.

Lemma stable_job_since d id b : enrolled (ver_doc d) id → stable w (job_since d id b).
Proof.
  intros He k s [Hs Hb]. split; [by apply stable_since|].
  intros d2 H2 Hv. destruct Hs as (d1 & H1 & Hle & Heq). destruct (Hrely k s) as [Hp _].
  destruct (Hp d1 H1) as (d2' & H2' & Hle2 & Heq2). assert (d2' = d2) as -> by congruence.
  assert (Hv1 : ver_version d1 = ver_version d) by lia. destruct Heq2 as [_ Hj]; [lia|].
  rewrite Hj by (by rewrite Heq). by eapply Hb.
Qed.

Lemma stable_and P Q : stable w P → stable w Q → stable w (λ s, P s ∧ Q s).
Proof. intros HP HQ k s [? ?]. split; [by apply HP|by apply HQ]. Qed.

Lemma stable_pure (φ : Prop) : stable w (λ _, φ).
Proof. by intros k s. Qed.

(** ** The ledger *)

Lemma get_doc_spec P c i (Q : CronResult (option (Versioned value)) → D → Prop) :
  stable w P → (∀ s, P s → Q (Ok (content s c i)) s) → (∀ e s, P s → Q (Err e) s) →
  triple P (get_doc w c i) Q.
Proof.
  intros HP Hok Herr. apply triple_read; [done|]. intros s Hs.
  destruct (doc_get c i s) as [r|e] eqn:E; cbn; [|by apply Herr].
  rewrite (get_law _ _ _ _ E). by apply Hok.
Qed.

Lemma triple_retry {A B} P (m : Cron A) (R : A → D → Prop) (f : A → Cron (option B)) Q :
  triple P m (λ r s, match r with Ok a => R a s | Err e => Q (Ok None) s ∧ Q (Err e) s end) →
  (∀ a, triple (R a) (f a) Q) → triple P (retry_on_conflict m f) Q.
Proof.
  intros Hm Hf. eapply (triple_bind _ _ _
    (λ r s, match r with Ok a => R a s | Err e => Q (Ok None) s ∧ Q (Err e) s end)).
  - by apply triple_catch.
  - intros [a|e]; [apply Hf|]. destruct (conflict e).
    + apply triple_ret. by intros s [? _].
    + apply triple_fail. by intros s [_ ?].
Qed.

Lemma keeps_retry {A B} P (m : Cron A) (f : A → Cron (option B)) :
  keeps P m → (∀ a, keeps P (f a)) → keeps P (retry_on_conflict m f).
Proof.
  intros Hm Hf. eapply triple_retry; [|exact Hf].
  eapply triple_conseq; [exact Hm|done|]. by intros [?|?].
Qed.

(** The store has been found without a ledger, and these were its jobs. *)
Definition listed (rows : list (Versioned value)) (s : D) : Prop :=
  ledger s = None → ∀ row, row ∈ rows → body s JOBS (ver_id row) = Some (ver_doc row).

Lemma stable_listed rows : stable w (listed rows).
Proof.
  intros k s H Hl row Hr. destruct (Hrely k s) as [Hp Hn]. apply Hn; [done|]. apply H; [|done].
  destruct (ledger s) as [d|] eqn:E; [|done]. destruct (Hp d eq_refl) as (d' & ? & _). congruence.
Qed.

Lemma init_batch rows jobs ops s s' rs :
  snapshot rows ∅ [] = Ok (jobs, ops) → NoDup (ver_id <$> rows) → listed rows s →
  atomic_batch (ops ++ [WPut ADMISSION LEDGER (ledger_encode (mkAdmission None jobs)) PreAbsent]) s
    = (s', Ok rs) → initialised s s'.
Proof.
  intros Hs Hn Hl Hb.
  destruct (rebuild_batch rows jobs ops None PreAbsent s s' rs Hs Hn eq_refl Hb)
    as (Habs & Hr & Hf & Hrow & Hother).
  assert (Hnone : ledger s = None) by (by destruct (ledger s)).
  split; [|done]. intros c i Hne. destruct (decide (c = JOBS)) as [->|Hc].
  - destruct (decide (i ∈ (ver_id <$> rows))) as [(row & -> & Hr')%list_elem_of_fmap|Hi].
    + rewrite Hrow by done. symmetry. by apply Hl.
    + unfold body. by rewrite Hother.
  - unfold body. by rewrite Hf.
Qed.

Lemma admission_spec P :
  steady P →
  triple P (admission w) (λ r s, P s ∧
    match r with Ok d => since d s ∧ ∃ st, ledger_decode (ver_doc d) = Ok st | Err _ => True end).
Proof.
  intros HP. apply triple_loop; [|done].
  eapply (triple_bind _ _ _ (λ found s, P s ∧ found = ledger s)).
  { apply get_doc_spec; [apply HP|done|done]. }
  intros [d|].
  - eapply (triple_bind _ _ _ (λ st s, P s ∧ Some d = ledger s ∧ ledger_decode (ver_doc d) = Ok st)).
    { apply triple_lift. intros s [Hs Hd]. destruct (ledger_decode (ver_doc d)); done. }
    intros st. eapply (triple_bind _ _ _ (λ _ s, P s ∧ Some d = ledger s ∧ ledger_decode (ver_doc d) = Ok st)).
    { apply triple_lift. intros s Hs. destruct (admission_check st); [done|]. by destruct Hs. }
    intros _. apply triple_ret. intros s (Hs & Hd & Hst). split; [done|]. split; [by apply since_now|eauto].
  - eapply (triple_bind _ _ _ (λ rows s, (P s ∧ listed rows s) ∧ NoDup (ver_id <$> rows))).
    { eapply triple_conseq; [apply (triple_read w P _ (λ r s, P s ∧
        match r with Ok rows => listed rows s ∧ NoDup (ver_id <$> rows) | Err _ => True end))| |].
      - apply HP.
      - intros s Hs. destruct (query_all JOBS Query_all s) as [rows|e] eqn:E; cbn; [|done].
        destruct (query_law _ _ _ _ E) as (Hr & Hn & _). split; [done|]. split; [|done].
        intros _ row Hrow. unfold body. by rewrite Hr.
      - by intros s [? _].
      - intros [rows|e] s; naive_solver. }
    intros rows.
    eapply (triple_bind _ _ _ (λ snap s, ((P s ∧ listed rows s) ∧ NoDup (ver_id <$> rows)) ∧
                                         snapshot rows ∅ [] = Ok snap)).
    { apply triple_lift. intros s Hs. destruct (snapshot rows ∅ []); naive_solver. }
    intros [jobs ops]. eapply (triple_retry _ _ (λ _, P)); [|intros; by apply triple_ret].
    apply triple_write.
    { repeat apply stable_and; [apply HP|apply stable_listed|apply stable_pure..]. }
    intros s s' r (((Hs & Hl) & Hn) & Hsnap) E. pose proof (batch_law _ _ _ _ E) as Hb.
    destruct r as [rs|e]; cbn.
    + eapply steady_init; [done|exact Hs|by eapply init_batch].
    + assert (P s') by (by eapply steady_same). done.
Qed.

(** ** The atomic write of a job *)

(** What the first result of the batch says. *)
Definition reported (previous : option (Versioned value)) (next : option value)
    (rs : list WriteResult) : Prop :=
  match next, rs with
  | Some _, ResPut _ :: _ => True
  | None, ResDelete removed :: _ => removed = bool_decide (is_Some previous)
  | _, _ => False
  end.

Lemma job_op_target id next p : op_target (job_op id next p) = (JOBS, id).
Proof. by destruct next. Qed.
Lemma job_op_pre id next p : op_pre (job_op id next p) = p.
Proof. by destruct next. Qed.

Lemma batch_commit id previous next extra p d st jobs s s' rs :
  Forall (λ op, (op_target op).1 = RUNS) extra →
  since d s → ledger_decode (ver_doc d) = Ok st →
  ledger_owns previous (ad_jobs st !! id) = true → next_members id next (ad_jobs st) = Ok jobs →
  admission_check (mkAdmission (ad_limit st) jobs) = Ok tt →
  (∀ d', ledger s = Some d' → ver_version d' = ver_version d → holds p (content s JOBS id) →
     body s JOBS id = ver_doc <$> previous) →
  atomic_batch (job_op id next p :: extra ++
    [WPut ADMISSION LEDGER (ledger_encode (mkAdmission (ad_limit st) jobs)) (unchanged d)]) s = (s', Ok rs) →
  committed id previous next extra s s' ∧ reported previous next rs.
Proof.
  intros Hx (d0 & Hd0 & _ & Hsame) Hst Ho Hn Hc Hbody Hb. set (lop := WPut _ _ _ _) in Hb.
  set (jop := job_op id next p) in Hb. set (ops := jop :: extra ++ [lop]) in Hb.
  destruct (batch_law _ _ _ _ Hb) as (Hpre & Hframe & Hw & Hrs).
  assert (Hjin : jop ∈ ops) by (unfold ops; left).
  assert (Hlin : lop ∈ ops) by (unfold ops; set_solver).
  assert (Hxin : ∀ op, op ∈ extra → op ∈ ops) by (unfold ops; set_solver).
  assert (Hcase : ∀ op, op ∈ ops → op = jop ∨ op ∈ extra ∨ op = lop).
  { intros op [->|[?|?%list_elem_of_singleton]%elem_of_app]%elem_of_cons; auto. }
  assert (Hruns : ∀ op, op ∈ extra → (op_target op).1 = RUNS) by by apply Forall_forall.
  assert (Hjt : op_target jop = (JOBS, id)) by apply job_op_target.
  pose proof (Hpre lop Hlin) as Hlpre. cbn in Hlpre. fold (ledger s) in Hlpre. rewrite Hd0 in Hlpre. cbn in Hlpre.
  pose proof (Hpre jop Hjin) as Hjpre. rewrite Hjt in Hjpre. unfold jop in Hjpre. rewrite job_op_pre in Hjpre. cbn in Hjpre.
  assert (Hju : ∀ op, op ∈ ops → op_target op = op_target jop → op = jop).
  { intros op [->|[Hop| ->]]%Hcase E; [done| |by rewrite Hjt in E]. apply Hruns in Hop. rewrite E, Hjt in Hop. done. }
  pose proof (Hw jop Hjin Hju) as Hwj.
  destruct (Hw lop Hlin) as (d' & Hd' & Hdoc & Hnew).
  { intros op [->|[Hop| ->]]%Hcase E; [by rewrite Hjt in E| |done]. apply Hruns in Hop. by rewrite E in Hop. }
  specialize (Hbody d0 Hd0 Hlpre Hjpre). split.
  - split; [done| | | |].
    + unfold jop, job_op in Hwj. destruct next as [doc|]; unfold body; [|by rewrite Hwj].
      destruct Hwj as (dj & -> & <- & _). done.
    + exists d0, st, jobs, d'. rewrite (Hsame Hlpre). repeat (split; [done|]). by apply Hnew.
    + intros op Hop. split; [by apply Hpre, Hxin|]. intros Huniq.
      assert (Hxu : ∀ op', op' ∈ ops → op_target op' = op_target op → op' = op).
      { intros op' [->|[Hop'| ->]]%Hcase E; [|by apply Huniq|]; apply Hruns in Hop;
          rewrite <- E in Hop; [by rewrite Hjt in Hop|done]. }
      pose proof (Hw op (Hxin op Hop) Hxu) as Hwx.
      unfold body. destruct op; [|by rewrite Hwx]. destruct Hwx as (dx & -> & <- & _). done.
    + intros c i H1 H2 H3. apply Hframe. intros op [->|[Hop| ->]]%Hcase; [by rewrite Hjt|by apply H3|done].
  - unfold ops, jop in Hrs. inversion Hrs as [|op0 r0 ops0 rs0 Hr0 _]; subst. unfold reported.
    destruct next; cbn in Hr0; [by destruct r0|]. destruct r0 as [|removed]; [done|]. rewrite Hr0.
    apply bool_decide_ext. unfold body in Hbody. destruct (content s JOBS id), previous; cbn in *; naive_solver.
Qed.

Lemma commit_job_spec P id previous next extra :
  steady P → Forall (λ op, (op_target op).1 = RUNS) extra →
  triple P (commit_job w id previous next extra) (λ r s,
    match r with
    | Ok rs => ∃ s0, P s0 ∧ committed id previous next extra s0 s ∧ reported previous next rs
    | Err _ => P s
    end).
Proof.
  intros HP Hx. unfold commit_job. rewrite Htx.
  eapply (triple_bind _ _ _ (λ d s, P s ∧ since d s)).
  { eapply triple_conseq; [by apply admission_spec|done|]. intros [d|e] s; naive_solver. }
  intros d. eapply (triple_bind _ _ _ (λ st s, (P s ∧ since d s) ∧ ledger_decode (ver_doc d) = Ok st)).
  { apply triple_lift. intros s Hs. destruct (ledger_decode (ver_doc d)); naive_solver. }
  intros st. destruct (ledger_owns previous (ad_jobs st !! id)) eqn:Ho; [|apply triple_fail; naive_solver].
  eapply (triple_bind _ _ _ (λ current s, ((P s ∧ since d s) ∧ ledger_decode (ver_doc d) = Ok st) ∧
                                          body s JOBS id = ver_doc <$> current)).
  { apply get_doc_spec; [|done|naive_solver].
    repeat apply stable_and; [apply HP|apply stable_since|apply stable_pure]. }
  intros current. destruct (job_condition previous current) as [p|] eqn:Hc; [|apply triple_fail; naive_solver].
  eapply (triple_bind _ _ _ (λ jobs s, (((P s ∧ since d s) ∧ ledger_decode (ver_doc d) = Ok st) ∧
            body s JOBS id = ver_doc <$> current) ∧ next_members id next (ad_jobs st) = Ok jobs)).
  { apply triple_lift. intros s Hs. destruct (next_members id next (ad_jobs st)); naive_solver. }
  intros jobs. set (st' := mkAdmission (ad_limit st) jobs).
  eapply (triple_bind _ _ _ (λ _ s, ((((P s ∧ since d s) ∧ ledger_decode (ver_doc d) = Ok st) ∧
            body s JOBS id = ver_doc <$> current) ∧ next_members id next (ad_jobs st) = Ok jobs) ∧
            admission_check st' = Ok tt)).
  { apply triple_lift. intros s Hs. destruct (admission_check st') as [[]|]; naive_solver. }
  intros _.
  eapply (triple_conseq _ (λ s, (P s ∧ since d s) ∧ (ledger_decode (ver_doc d) = Ok st ∧
            next_members id next (ad_jobs st) = Ok jobs ∧ admission_check st' = Ok tt) ∧
            (previous = None ∨ enrolled (ver_doc d) id ∧ job_since d id (ver_doc <$> previous) s)));
    [| |intros r s Hr; exact Hr].
  - apply triple_write.
    { intros k s ((HPs & Hsi) & Hpure & Hj). split; [split; [by apply HP|by apply stable_since]|].
      split; [done|]. destruct Hj as [?|[He Hj]]; [by left|right]. split; [done|]. by apply stable_job_since. }
    intros s s' [rs|e] ((HPs & Hsi) & (Hst & Hn & Hck) & Hj) E; cbn.
    + exists s. split; [done|].
      eapply batch_commit; [done|exact Hsi|exact Hst|done|exact Hn|done| |exact E].
      intros d' Hd' Hv Hh. destruct Hj as [->|[_ [_ Hj]]]; [|by eapply Hj].
      cbn in Hc. destruct current; [done|]. injection Hc as <-. unfold body.
      by destruct (content s JOBS id).
    + pose proof (batch_law _ _ _ _ E) as Hsame. by eapply steady_same.
  - intros s (((((HPs & Hsi) & Hst) & Hcur) & Hn) & Hck). split; [done|]. split; [done|].
    destruct previous as [old|]; [right|by left]. split.
    + cbn in Ho. destruct (ad_jobs st !! id) as [m|] eqn:Em; [|done]. exists st. by rewrite Em.
    + split; [done|]. intros d' _ _. rewrite Hcur.
      unfold job_condition in Hc. destruct current as [now|]; [|done]. case_decide as E; [|done]. cbn. congruence.
Qed.

(** ** Every operation *)

Lemma put_apart c i b p o s s' r :
  doc_put_with c i b p o s = (s', r) → c ∉ [JOBS; ADMISSION; RUNS] → apart s s'.
Proof.
  intros H Hne. apply put_law in H. destruct r; [|by apply apart_same].
  intros c' i' Hc. apply H. clear Htx Hrely. set_solver.
Qed.
Lemma put_elsewhere c i b p o s s' r :
  doc_put_with c i b p o s = (s', r) → c ∉ [JOBS; ADMISSION] → elsewhere s s'.
Proof.
  intros H Hne. apply put_law in H. destruct r; [|by apply apart_elsewhere, apart_same].
  intros c' i' Hc. apply H. clear Htx Hrely. set_solver.
Qed.
Lemma delete_apart c i p s s' r :
  doc_delete c i p s = (s', r) → c ∉ [JOBS; ADMISSION; RUNS] → apart s s'.
Proof.
  intros H Hne. apply delete_law in H. destruct r; [|by apply apart_same].
  intros c' i' Hc. apply H. clear Htx Hrely. set_solver.
Qed.
Lemma delete_trims i p s s' r : doc_delete RUNS i p s = (s', r) → trims s s'.
Proof.
  intros H. apply delete_law in H. destruct r as [v|e]; [|by split; [intros c j _|intros j; left]; rewrite H].
  destruct H as (_ & Hn & Hf). split.
  - intros c j Hc. apply Hf. destruct Hc; by subst.
  - intros j. destruct (decide (j = i)) as [->|]; [by right|left; apply Hf; congruence].
Qed.
Lemma delete_where_trims f s s' r : delete_where RUNS f s = (s', r) → trims s s'.
Proof.
  intros [Hf Hd]%delete_where_law. split.
  - intros c i Hc. apply Hf. destruct Hc; by subst.
  - intros i. destruct (Hd i) as [?|[? _]]; auto.
Qed.

Section Keeps.
Context (P : D → Prop) (HP : calm P).

Lemma keeps_put_apart c i b p o :
  c ∉ [JOBS; ADMISSION; RUNS] → keeps P (call_write w (doc_put_with c i b p o)).
Proof.
  intros. apply keeps_write; [apply HP|]. intros. eapply calm_apart; [done..|]. by eapply put_apart.
Qed.
Lemma keeps_delete_apart c i p :
  c ∉ [JOBS; ADMISSION; RUNS] → keeps P (call_write w (doc_delete c i p)).
Proof.
  intros. apply keeps_write; [apply HP|]. intros. eapply calm_apart; [done..|]. by eapply delete_apart.
Qed.
Lemma keeps_ensure_collection c : keeps P (call_write w (ensure_collection c)).
Proof.
  apply keeps_write; [apply HP|]. intros s s' r Hs E. eapply steady_same; [apply HP|exact Hs|].
  by eapply ensure_law.
Qed.
Lemma keeps_get_doc c i : keeps P (get_doc w c i).
Proof. apply keeps_read, HP. Qed.
Lemma keeps_query {A} (f : D → StoreResult A) : keeps P (call_read w f).
Proof. apply keeps_read, HP. Qed.

(** The storage crate's own loops write one collection. *)
Lemma update_loop_keeps {T} `{!Codec T} {St} collection options env fuel :
  collection ∉ [JOBS; ADMISSION; RUNS] → (∀ k s, P s → P (env k s)) →
  ∀ k id (f : St → option T → St * StoreResult (option T)) st s, P s →
  P (update_loop collection options env fuel k id f st s).1.1.
Proof.
  intros Hc Henv. induction fuel as [|fuel IH]; intros k id f st s Hs; cbn; [done|].
  assert (P (env k s)) by by apply Henv.
  destruct (read_current collection id (env k s)) as [[p cur]|e]; cbn; [|done].
  destruct (f st cur) as [st1 [[next|]|e]]; cbn; [|done..].
  destruct (repo_write _ _ _ _ _ _) as [s3 [v|e]] eqn:Ew; cbn;
    assert (P s3) by (eapply calm_apart; [done| |by eapply put_apart]; auto); [done|].
  case_decide; [by apply IH|done].
Qed.

Lemma delete_if_loop_keeps {T} `{!Codec T} collection env fuel :
  collection ∉ [JOBS; ADMISSION; RUNS] → (∀ k s, P s → P (env k s)) →
  ∀ k id (m : T → bool) s, P s → P (delete_if_loop collection env fuel k id m s).1.
Proof.
  intros Hc Henv. induction fuel as [|fuel IH]; intros k id m s Hs; cbn; [done|].
  assert (P (env k s)) by by apply Henv.
  destruct (repo_get collection id (env k s)) as [[found|]|e]; cbn; [|done..].
  destruct (m (ver_doc found)); cbn; [|done].
  destruct (doc_delete _ _ _ _) as [s3 [v|e]] eqn:Ew; cbn;
    assert (P s3) by (eapply calm_apart; [done| |by eapply delete_apart]; auto); [done|].
  case_decide; [by apply IH|done].
Qed.

Lemma keeps_many {A} n (f : Interference D → D → D * StoreResult A) :
  (∀ env s, (∀ k s, P s → P (env k s)) → P s → P (f env s).1) → keeps P (call_many w n f).
Proof.
  intros H k s Hs. unfold call_many. specialize (H (λ j, w_env w (k + j)) s).
  destruct (f _ s) as [s1 r]. apply H; [|done]. intros j s0. apply HP.
Qed.
End Keeps.

(** Runs are only deleted by an operation that has committed, or by one whose
    assertion does not look at runs. *)
Lemma keeps_delete_run P i p : relaxed P → keeps P (call_write w (doc_delete RUNS i p)).
Proof.
  intros HP. apply keeps_write; [apply HP|]. intros. eapply relaxed_trims; [done..|]. by eapply delete_trims.
Qed.
Lemma keeps_delete_runs P f : relaxed P → keeps P (call_write w (delete_where RUNS f)).
Proof.
  intros HP. apply keeps_write; [apply HP|]. intros. eapply relaxed_trims; [done..|]. by eapply delete_where_trims.
Qed.
Lemma keeps_put_run P i b p o : closed P → keeps P (call_write w (doc_put_with RUNS i b p o)).
Proof.
  intros HP. apply keeps_write; [apply HP|]. intros s s' r Hs E. eapply closed_step; [done|exact Hs|].
  eapply step_elsewhere, put_elsewhere; [exact E|clear Htx Hrely; set_solver].
Qed.
End Commit.

(** * Every operation of the cron store keeps what its atomic writes keep

    One lemma per operation, all by the same automation: an operation is a program
    over [commit_job], reads, and writes to the run, lease and counter
    collections, so an assertion closed under [cron_step] is kept by it. *)

Create HintDb cron_ops.

(** By the head of the program. *)
Ltac keep_step :=
  lazymatch goal with
  | |- keeps _ (cbind _ _) => apply keeps_bind; [|intros ?]
  | |- keeps _ (cret _) => apply keeps_ret
  | |- keeps _ (cfail _) => apply keeps_fail
  | |- keeps _ (clift _) => apply keeps_lift
  | |- keeps _ (utc_now _) => apply keeps_now
  | |- keeps _ (new_uuid _) => apply keeps_uuid
  | |- keeps _ (catch _) => apply keeps_catch
  | |- keeps _ (retry_loop _ _ _) => apply keeps_loop
  | |- keeps _ (retry_on_conflict _ _) => apply keeps_retry; [|intros ?]
  | |- keeps _ (for_each _ _) => apply keeps_for; intros ?
  | |- keeps _ (match _ with _ => _ end) => case_match
  | |- keeps _ _ => solve [eauto with cron_ops]
  end.
Ltac keep := repeat keep_step.

Section Ops.
Context {D : Type} `{Docs : !DocumentStore D} `{Port : !CronPort D} `{Wire : !CronWire}
        `{Cal : !Calendar} `{Laws : !LawfulPort D} (w : World D).
Context (Htx : transactions = true).
Context (Hrely : ∀ k s, participates s (w_env w k s)).
Context (MAX_ID_LEN : nat) (validate_id : string → StoreResult unit)
        (digest_base32 : string → string).
Context (max_run_history max_tasks : nat).

Notation params f := (f w MAX_ID_LEN validate_id digest_base32) (only parsing).

Section Calm.
Context (P : D → Prop) (HPc : calm w P).
#[local] Hint Resolve HPc : cron_ops.
#[local] Hint Resolve keeps_put_apart keeps_delete_apart
  keeps_ensure_collection keeps_get_doc keeps_query : cron_ops.
#[local] Hint Extern 2 (_ ∉ _) => (clear; set_solver) : cron_ops.

(** ** Leases and counters *)

Lemma keeps_lease_update {St} env id (f : St → option LeaseBody → St * StoreResult (option LeaseBody)) st s :
  (∀ k s, P s → P (env k s)) → P s → P (lease_update env RetryPolicy_default id f st s).1.1.
Proof. intros He Hs. apply (update_loop_keeps w P HPc LEASES); [clear; set_solver|done..]. Qed.

Lemma keeps_acquire now key token ttl :
  keeps P (lease_acquire w MAX_ID_LEN validate_id digest_base32 now key token ttl).
Proof.
  apply (keeps_many w P HPc). intros env s He Hs. unfold acquire. case_match; [|done].
  pose proof (keeps_lease_update env a (timed (lease_clock now) (acquire_body token ttl)) 0 s He Hs).
  by destruct (lease_update _ _ _ _ _ _) as [[s' st'] r].
Qed.
Lemma keeps_renew now key token epoch ttl :
  keeps P (lease_renew w MAX_ID_LEN validate_id digest_base32 now key token epoch ttl).
Proof.
  apply (keeps_many w P HPc). intros env s He Hs. unfold renew. case_match; [|done].
  pose proof (keeps_lease_update env a (timed (lease_clock now) (renew_body token epoch ttl)) 0 s He Hs).
  by destruct (lease_update _ _ _ _ _ _) as [[s' st'] r].
Qed.
Lemma keeps_release now key token epoch :
  keeps P (lease_release w MAX_ID_LEN validate_id digest_base32 now key token epoch).
Proof.
  apply (keeps_many w P HPc). intros env s He Hs. unfold release. do 2 (case_match; [|done]).
  pose proof (keeps_lease_update env a (λ (u : unit) c, (u, release_body token epoch a0 c)) tt s He Hs).
  by destruct (lease_update _ _ _ _ _ _) as [[s' st'] r].
Qed.
Lemma keeps_compact key token epoch :
  keeps P (lease_compact w MAX_ID_LEN validate_id digest_base32 key token epoch).
Proof.
  apply (keeps_many w P HPc). intros env s He Hs. unfold compact. case_match; [|done].
  apply (delete_if_loop_keeps w P HPc LEASES); [clear; set_solver|done..].
Qed.
Lemma keeps_next_run_number : keeps P (next_run_number w MAX_ID_LEN validate_id digest_base32).
Proof.
  apply keeps_bind; [|intros; case_decide; keep].
  apply (keeps_many w P HPc). intros env s He Hs. unfold counter_next. case_match; [|done].
  pose proof (update_loop_keeps (T := CounterBody) w P HPc COUNTERS WriteOptions_default env (budget RetryPolicy_default)
    ltac:(clear; set_solver) He 0 a (stateless next_body) tt s Hs) as Hk.
  unfold counter_update, repo_update.
  by destruct (update_loop COUNTERS _ _ _ _ _ _ _ _) as [[s' st'] r].
Qed.
Lemma keeps_raise_run_counter floor :
  keeps P (raise_run_counter w MAX_ID_LEN validate_id digest_base32 floor).
Proof.
  apply keeps_bind; [|intros; keep].
  apply (keeps_many w P HPc). intros env s He Hs. unfold set_at_least. case_decide; [done|].
  case_match; [|done]. set (m := Z.max (floor - 1) 0).
  pose proof (update_loop_keeps (T := CounterBody) w P HPc COUNTERS WriteOptions_default env (budget RetryPolicy_default)
    ltac:(clear; set_solver) He 0 a (stateless (at_least_body m)) tt s Hs) as Hk.
  unfold counter_update, repo_update.
  by destruct (update_loop COUNTERS _ _ _ _ _ _ _ _) as [[s' st'] [[[]|]|]].
Qed.
#[local] Hint Resolve keeps_acquire keeps_renew keeps_release keeps_compact keeps_next_run_number
  keeps_raise_run_counter : cron_ops.

(** ** Reads and bookkeeping *)

Lemma keeps_fence_claims id doc : keeps P (params fence_claims id doc).
Proof. unfold fence_claims, expire_lease. keep. Qed.
#[local] Hint Resolve keeps_fence_claims : cron_ops.
Lemma keeps_current now key : keeps P (lease_current w MAX_ID_LEN validate_id digest_base32 now key).
Proof. apply keeps_read, HPc. Qed.
#[local] Hint Resolve keeps_current : cron_ops.
Lemma keeps_owns stored claim now : keeps P (params owns stored claim now).
Proof. unfold owns. keep. Qed.
#[local] Hint Resolve keeps_owns : cron_ops.
End Calm.

Lemma keeps_prune P id job : relaxed w P → keeps P (prune_runs w max_run_history id job).
Proof.
  intros HP. unfold prune_runs. apply keeps_bind; [apply keeps_query, HP|]. intros runs. apply keeps_for.
  intros run. apply keeps_bind; [by apply keeps_delete_run|]. intros. apply keeps_ret.
Qed.

Section Closed.
Context (P : D → Prop) (HP : closed w P).

Let HPr : relaxed w P := closed_relaxed w P HP.
Let HPc : calm w P := closed_calm w P HP.
Let HPs : steady w P := calm_steady w P HPc.
#[local] Hint Resolve HP HPr HPc HPs : cron_ops.
#[local] Hint Resolve keeps_put_apart keeps_delete_apart keeps_put_run keeps_delete_run keeps_delete_runs
  keeps_ensure_collection keeps_get_doc keeps_query : cron_ops.
#[local] Hint Extern 2 (_ ∉ _) => (clear; set_solver) : cron_ops.
#[local] Hint Resolve keeps_acquire keeps_renew keeps_release keeps_compact keeps_next_run_number
  keeps_raise_run_counter keeps_fence_claims keeps_prune keeps_current keeps_owns : cron_ops.

(** ** The write of a job *)

Lemma keeps_commit_job id previous next extra :
  Forall (λ op, (op_target op).1 = RUNS) extra → keeps P (commit_job w id previous next extra).
Proof.
  intros Hx. eapply triple_conseq; [by apply commit_job_spec|done|].
  intros [rs|e] s; [|done]. intros (s0 & Hs & Hc & _). eapply closed_step; [done|exact Hs|].
  by eapply step_commit.
Qed.
Lemma cleanup_in_runs doc : Forall (λ op, (op_target op).1 = RUNS) (queued_run_cleanup doc).
Proof. unfold queued_run_cleanup. case_match; by repeat constructor. Qed.
#[local] Hint Resolve keeps_commit_job cleanup_in_runs : cron_ops.
#[local] Hint Resolve Forall_nil_2 Forall_cons_2 : cron_ops.
#[local] Hint Extern 2 (_ = RUNS) => reflexivity : cron_ops.

Lemma keeps_compare_job id change : keeps P (compare_job w id change).
Proof. unfold compare_job. keep. Qed.
#[local] Hint Resolve keeps_compare_job : cron_ops.
Lemma keeps_ensure : keeps P (ensure w).
Proof. unfold ensure, migrate_policies. keep. Qed.
Lemma keeps_require_transactions : keeps P (require_transactions (D := D)).
Proof. unfold require_transactions. keep. Qed.
#[local] Hint Resolve keeps_ensure keeps_require_transactions : cron_ops.

(** ** Jobs *)


Lemma keeps_find_job id : keeps P (find_job w id).
Proof. unfold find_job. keep. Qed.
#[local] Hint Resolve keeps_find_job : cron_ops.
Lemma keeps_get_job id : keeps P (get_job w id).
Proof. unfold get_job. keep. Qed.
Lemma keeps_job_doc id : keeps P (job_doc w id).
Proof. unfold job_doc. keep. Qed.
#[local] Hint Resolve keeps_get_job keeps_job_doc : cron_ops.
Lemma keeps_insert_job job : keeps P (insert_job w job).
Proof. unfold insert_job, new_job_doc. keep. Qed.
#[local] Hint Resolve keeps_insert_job : cron_ops.
Lemma keeps_add_shell_job name schedule command : keeps P (add_shell_job w name schedule command).
Proof. unfold add_shell_job. keep. Qed.
Lemma keeps_add_agent_job spec : keeps P (add_agent_job_from_spec w spec).
Proof. unfold add_agent_job_from_spec. keep. Qed.
Lemma keeps_add_flow_job flow schedule : keeps P (add_flow_schedule_job w flow schedule).
Proof. unfold add_flow_schedule_job, find_flow_schedule_job, new_job_doc. keep. Qed.
Lemma keeps_update_job id patch : keeps P (params update_job id patch).
Proof. unfold update_job. keep. Qed.
Lemma keeps_commit_removal stored : keeps P (commit_removal w stored).
Proof. unfold commit_removal. keep. Qed.
#[local] Hint Resolve keeps_commit_removal : cron_ops.
Lemma keeps_remove_stored stored : keeps P (params remove_stored stored).
Proof. unfold remove_stored, delete_runs_of. rewrite Htx. keep. Qed.
#[local] Hint Resolve keeps_remove_stored : cron_ops.
Lemma keeps_remove_unchanged stored : keeps P (params remove_unchanged stored).
Proof. unfold remove_unchanged. rewrite Htx. keep. Qed.
Lemma keeps_remove_current stored : keeps P (params remove_current stored).
Proof. unfold remove_current. keep. Qed.
#[local] Hint Resolve keeps_remove_unchanged keeps_remove_current : cron_ops.
Lemma keeps_remove_job id : keeps P (params remove_job id).
Proof. unfold remove_job. keep. Qed.
Lemma keeps_count_true {A} (l : list A) body n : (∀ x, keeps P (body x)) → keeps P (count_true l body n).
Proof. intros H. revert n. induction l as [|x l IH]; intros n; cbn; keep; auto. Qed.
Lemma keeps_sweep : keeps P (sweep_orphan_runs w).
Proof. unfold sweep_orphan_runs. keep. apply keeps_count_true. intros run. unfold sweep_run. keep. Qed.
#[local] Hint Resolve keeps_sweep : cron_ops.
Lemma keeps_clear : keeps P (params clear_all_jobs).
Proof.
  unfold clear_all_jobs. keep. apply keeps_count_true. intros. keep.
Qed.
Lemma keeps_rank_all jobs : keeps P (rank_all w jobs).
Proof. induction jobs as [|d jobs IH]; cbn; keep; auto. Qed.
#[local] Hint Resolve keeps_rank_all : cron_ops.
Lemma keeps_dedup : keeps P (params dedup_named_jobs).
Proof.
  unfold dedup_named_jobs. keep. rename a0 into rows. generalize (names_in_order rows), 0.
  intros names. induction names as [|n names IH]; intros total; cbn [dedup_groups]; [keep|].
  case_decide; [|apply IH]. keep. apply keeps_count_true. intros. keep.
Qed.

(** ** Runs *)

Lemma keeps_append_history write : keeps P (append_history w MAX_ID_LEN validate_id digest_base32 max_run_history write).
Proof. unfold append_history. keep. Qed.
Lemma keeps_record_last_run id at_ ok output : keeps P (record_last_run w id at_ ok output).
Proof. unfold record_last_run. keep. Qed.
Lemma keeps_reschedule_after_run job ok output : keeps P (reschedule_after_run w job ok output).
Proof. unfold reschedule_after_run. keep. Qed.
Lemma keeps_delete_queued_runs id : keeps P (delete_queued_runs w id).
Proof. unfold delete_queued_runs. keep. Qed.
Lemma keeps_import_slot fuel run fired : ∀ seq, keeps P (params import_slot fuel run fired seq).
Proof. induction fuel as [|fuel IH]; intros seq; cbn [import_slot]; keep. Qed.
#[local] Hint Resolve keeps_import_slot : cron_ops.
Lemma keeps_import_run fuel run : keeps P (params import_run fuel run).
Proof. unfold import_run. keep. Qed.

(** ** Claims *)

Lemma keeps_claim_occurrence id expected owner now duration force :
  keeps P (params claim_occurrence id expected owner now duration force).
Proof. unfold claim_occurrence, claim_attempt, give_back. keep. Qed.
Lemma keeps_queue claim at_ invocation : keeps P (params queue_claimed_run_with_id claim at_ invocation).
Proof. unfold queue_claimed_run_with_id, queue_attempt. keep. Qed.
Lemma keeps_change_claim claim now expires_at : keeps P (params change_claim claim now expires_at).
Proof. unfold change_claim, change_attempt, change_lease, drop_queued. keep. Qed.
Lemma keeps_complete claim c advance :
  keeps P (complete_claim_mode w MAX_ID_LEN validate_id digest_base32 max_run_history claim c advance).
Proof. unfold complete_claim_mode, complete_attempt, end_lease. keep. Qed.
Lemma keeps_remove_completed claim : keeps P (params remove_completed_claim claim).
Proof. unfold remove_completed_claim. keep. Qed.
Lemma keeps_reconcile expected owner now :
  keeps P (params reconcile_manual_claim_admission expected owner now).
Proof. unfold reconcile_manual_claim_admission, reconcile_attempt, reconcile_fence, queued_start. keep. Qed.
Lemma keeps_claim_slot job next : keeps P (claim_slot w job next).
Proof. unfold claim_slot. keep. Qed.
Lemma keeps_complete_run job completion : keeps P (params complete_run job completion).
Proof. unfold complete_run, remove_finished. keep. Qed.

(** ** The cap *)

(** The rows were read after the ledger [d], and the enrolled ones stand while it does. *)
Definition rows_since (d : Versioned value) (rows : list (Versioned value)) (s : D) : Prop :=
  since d s ∧ ∀ d', ledger s = Some d' → ver_version d' = ver_version d →
    ∀ row, row ∈ rows → enrolled (ver_doc d) (ver_id row) → body s JOBS (ver_id row) = Some (ver_doc row).

Lemma stable_rows_since d rows : stable w (rows_since d rows).
Proof.
  intros k s [Hs Hr]. split; [by apply stable_since|]. intros d2 H2 Hv row Hrow He.
  refine (proj2 (stable_job_since w Hrely d (ver_id row) (Some (ver_doc row)) He k s _) d2 H2 Hv).
  split; [done|]. intros d1 H1 Hv1. by eapply Hr.
Qed.

Lemma cap_batch d rows jobs ops limit s s' rs :
  rows_since d rows s → snapshot rows ∅ [] = Ok (jobs, ops) → NoDup (ver_id <$> rows) →
  admission_check (mkAdmission limit jobs) = Ok tt →
  atomic_batch (ops ++ [WPut ADMISSION LEDGER (ledger_encode (mkAdmission limit jobs)) (unchanged d)]) s
    = (s', Ok rs) → capped s s'.
Proof.
  intros [(d0 & Hd0 & _ & Hsame) Hr] Hsnap Hn Hc Hb.
  destruct (rebuild_batch rows jobs ops limit (unchanged d) s s' rs Hsnap Hn Hc Hb)
    as (Hh & Hreb & Hf & Hrow & Hother).
  rewrite Hd0 in Hh. cbn in Hh. split; [done|]. split; [|done].
  intros d1 id Hd1 He. assert (d1 = d0) as -> by congruence. rewrite (Hsame Hh) in He.
  destruct (decide (id ∈ (ver_id <$> rows))) as [(row & -> & Hin)%list_elem_of_fmap|Hid].
  - rewrite Hrow by done. symmetry. by eapply Hr.
  - unfold body. by rewrite Hother.
Qed.

Lemma keeps_set_max limit : keeps P (set_max_active_jobs w limit).
Proof.
  unfold set_max_active_jobs. apply keeps_bind; [keep|]. intros _. apply keeps_bind; [keep|]. intros _.
  apply keeps_loop. unfold set_max_active_jobs_body.
  eapply (triple_bind _ _ _ (λ d s, P s ∧ since d s)).
  { eapply triple_conseq; [by apply admission_spec|done|]. intros [d|e] s; naive_solver. }
  intros d. eapply (triple_bind _ _ _ (λ _ s, P s ∧ since d s)).
  { apply triple_lift. intros s Hs. case_match; naive_solver. }
  intros _. eapply (triple_bind _ _ _ (λ rows s, (P s ∧ rows_since d rows s) ∧ NoDup (ver_id <$> rows))).
  { apply triple_read; [apply stable_and; [apply HP|by apply stable_since]|].
    intros s [Hs Hd]. destruct (query_all JOBS Query_all s) as [rows|e] eqn:E; cbn; [|done].
    destruct (query_law _ _ _ _ E) as (Hr & Hn & _). split; [|done]. split; [done|].
    split; [done|]. intros d' _ _ row Hrow _. unfold body. by rewrite Hr. }
  intros rows. eapply (triple_bind _ _ _ (λ snap s, ((P s ∧ rows_since d rows s) ∧ NoDup (ver_id <$> rows)) ∧
                                                  snapshot rows ∅ [] = Ok snap)).
  { apply triple_lift. intros s Hs. case_match; naive_solver. }
  intros [jobs ops]. set (st := mkAdmission limit jobs).
  eapply (triple_bind _ _ _ (λ _ s, (((P s ∧ rows_since d rows s) ∧ NoDup (ver_id <$> rows)) ∧
                               snapshot rows ∅ [] = Ok (jobs, ops)) ∧ admission_check st = Ok tt)).
  { apply triple_lift. intros s Hs. destruct (admission_check st) as [[]|]; naive_solver. }
  intros _. eapply (triple_retry _ _ (λ _, P)); [|intros; by apply triple_ret].
  apply triple_write.
  { do 3 (apply stable_and; [|apply stable_pure]). apply stable_and; [apply HP|apply stable_rows_since]. }
  intros s s' r ((((Hs & Hr) & Hn) & Hsnap) & Hck) E. pose proof (batch_law _ _ _ _ E) as Hb.
  destruct r as [rs|e]; cbn.
  - eapply closed_step; [done|exact Hs|]. eapply step_cap, cap_batch; done.
  - assert (P s') by (by eapply steady_same). done.
Qed.
End Closed.
End Ops.
