(* ===== verification/CronSamples.v ===== *)
(** * A concrete cron store

    An in-memory document store with transactions that keeps the laws of the port,
    wire forms of the nested records, and runs of the store's operations on them. *)

From stdpp Require Import sorting.
From S2P Require Import Prelude Json StorageKey Repo Leases StoragePrimitives StorageTheorems Schedule.
From S2P Require Import ScheduleRuntime ScheduleTheorems CronPort CronAdmission CronJobs CronClaims CronFacts.
From Stdlib Require String.

(** ** Documents in memory *)

Notation CronMem := (gmap (string * string) (N * value)).

Definition cm_content (s : CronMem) (c i : string) : option (Versioned value) :=
  (λ d : N * value, mkVersioned i d.1 d.2 (mkMeta 2 0 None)) <$> s !! (c, i).

Definition cm_put (c i : string) (doc : value) (s : CronMem) : CronMem :=
  <[(c, i) := (match s !! (c, i) with Some d => d.1 + 1 | None => 1 end, doc)%N]> s.

Definition mem_conflict {A} : StoreResult A := Err (mkStorageError Conflict "conflict").

#[export] Instance CronMem_docs : DocumentStore CronMem := {|
  doc_get c i s := Ok (cm_content s c i);
  doc_put_with c i doc p _ s :=
    if decide (holds p (cm_content s c i)) then
      (cm_put c i doc s, Ok (match s !! (c, i) with Some d => d.1 + 1 | None => 1 end)%N)
    else (s, mem_conflict);
  doc_delete c i p s :=
    if decide (holds p (cm_content s c i)) then
      (delete (c, i) s, Ok (bool_decide (is_Some (s !! (c, i)))))
    else (s, mem_conflict)
|}.

Definition cm_apply (s : CronMem) (op : WriteOp) : CronMem :=
  match op with WPut c i doc _ => cm_put c i doc s | WDelete c i _ => delete (c, i) s end.
Definition cm_result (s : CronMem) (op : WriteOp) : WriteResult :=
  match op with
  | WPut c i _ _ => ResPut (match s !! (c, i) with Some d => d.1 + 1 | None => 1 end)%N
  | WDelete c i _ => ResDelete (bool_decide (is_Some (cm_content s c i)))
  end.
Definition op_holds (s : CronMem) (op : WriteOp) : Prop :=
  holds (op_pre op) (cm_content s (op_target op).1 (op_target op).2).

Fixpoint cm_selects (f : Filter) (i : string) (doc : value) : bool :=
  match f with
  | FEq field v => if decide (field = "_id") then bool_decide (v = Str i)
                   else bool_decide (get field doc = Some v)
  | FNe field v => if decide (field = "_id") then negb (bool_decide (v = Str i))
                   else negb (bool_decide (get field doc = Some v))
  | FLte field v => match get field doc >>? as_i64, as_i64 v with
                    | Some a, Some b => bool_decide (a ≤ b)%Z
                    | _, _ => false
                    end
  | FExists field present => Bool.eqb (bool_decide (is_Some (get field doc))) present
  | FAnd a b => cm_selects a i doc && cm_selects b i doc
  end.

Definition cm_rows (c : string) (s : CronMem) : list (Versioned value) :=
  omap (λ kv : (string * string) * (N * value),
          if decide (kv.1.1 = c) then cm_content s c kv.1.2 else None) (map_to_list s).
Definition cm_query (c : string) (q : Query) (s : CronMem) : list (Versioned value) :=
  match q_filter q with
  | Some f => filter (λ d, cm_selects f (ver_id d) (ver_doc d) = true) (cm_rows c s)
  | None => cm_rows c s
  end.

#[export] Instance CronMem_port : CronPort CronMem := {|
  transactions := true;
  ensure_collection _ s := (s, Ok tt);
  atomic_batch ops s :=
    if decide (Forall (op_holds s) ops) then (foldl cm_apply s ops, Ok (cm_result s <$> ops))
    else (s, mem_conflict);
  query_all c q s := Ok (cm_query c q s);
  doc_count c f s := Ok (N.of_nat (length (cm_query c (mkQuery (Some f) [] None) s)));
  delete_where c f s :=
    (filter (λ kv : (string * string) * (N * value),
               ¬ (kv.1.1 = c ∧ cm_selects f kv.1.2 kv.2.2 = true)) s,
     Ok (N.of_nat (length (cm_query c (mkQuery (Some f) [] None) s))))
|}.

(** ** Its laws *)

Lemma cm_put_eq c i doc s : ∃ d, cm_content (cm_put c i doc s) c i = Some d ∧ ver_doc d = doc ∧
  ver_version d = match s !! (c, i) with Some d => d.1 + 1 | None => 1 end%N.
Proof. unfold cm_content, cm_put. rewrite lookup_insert_eq. eexists. by split. Qed.
Lemma cm_put_ne c i doc s c' i' : (c', i') ≠ (c, i) → cm_content (cm_put c i doc s) c' i' = cm_content s c' i'.
Proof. intros H. unfold cm_content, cm_put. by rewrite lookup_insert_ne. Qed.
Lemma cm_delete_eq c i s : cm_content (delete (c, i) s) c i = None.
Proof. unfold cm_content. by rewrite lookup_delete_eq. Qed.
Lemma cm_delete_ne c i s c' i' : (c', i') ≠ (c, i) → cm_content (delete (c, i) s) c' i' = cm_content s c' i'.
Proof. intros H. unfold cm_content. by rewrite lookup_delete_ne. Qed.

Lemma cm_version s c i d : cm_content s c i = Some d → ∃ b, s !! (c, i) = Some (ver_version d, b).
Proof. unfold cm_content. destruct (s !! (c, i)) as [[v b]|]; [|done]. intros [= <-]. by exists b. Qed.

Lemma cm_put_newer c i doc s d d0 :
  cm_content (cm_put c i doc s) c i = Some d → cm_content s c i = Some d0 → (ver_version d0 < ver_version d)%N.
Proof.
  destruct (cm_put_eq c i doc s) as (d1 & -> & _ & Hv). intros [= <-] (b & E)%cm_version.
  rewrite Hv, E. cbn. lia.
Qed.

Lemma cm_apply_ne s op c i : op_target op ≠ (c, i) → cm_content (cm_apply s op) c i = cm_content s c i.
Proof. destruct op; cbn; intros H; [apply cm_put_ne|apply cm_delete_ne]; congruence. Qed.

Lemma cm_foldl_ne ops : ∀ s c i, (∀ op, op ∈ ops → op_target op ≠ (c, i)) →
  cm_content (foldl cm_apply s ops) c i = cm_content s c i.
Proof.
  induction ops as [|op ops IH]; intros s c i H; cbn; [done|].
  rewrite IH by (intros; apply H; by right). apply cm_apply_ne, H. by left.
Qed.

(** A target only one operation writes ends as that operation leaves it. *)
Definition cm_wrote (op : WriteOp) (s s' : CronMem) : Prop :=
  match op with
  | WPut c i doc _ => ∃ d, cm_content s' c i = Some d ∧ ver_doc d = doc ∧
      ∀ d0, cm_content s c i = Some d0 → (ver_version d0 < ver_version d)%N
  | WDelete c i _ => cm_content s' c i = None
  end.

Lemma cm_apply_wrote s op : cm_wrote op s (cm_apply s op).
Proof.
  destruct op as [c i doc p|c i p]; cbn; [|apply cm_delete_eq].
  destruct (cm_put_eq c i doc s) as (d & Hd & Hdoc & _). exists d. split; [done|]. split; [done|].
  intros d0. by apply cm_put_newer with (doc := doc).
Qed.

Definition cm_untouched (op : WriteOp) (s s' : CronMem) : Prop :=
  cm_content s' (op_target op).1 (op_target op).2 = cm_content s (op_target op).1 (op_target op).2.

Lemma cm_apply_again op s0 s : cm_wrote op s0 s ∨ cm_untouched op s0 s → cm_wrote op s0 (cm_apply s op).
Proof.
  intros Hs. pose proof (cm_apply_wrote s op) as Hw. destruct op as [c i doc p|c i p]; [|done].
  destruct Hw as (d & Hd & Hdoc & Hnew). exists d. split; [done|]. split; [done|]. intros d0 Hd0.
  destruct Hs as [(d1 & Hd1 & _ & Hold)|Hu].
  - specialize (Hold d0 Hd0). specialize (Hnew d1 Hd1). lia.
  - apply Hnew. unfold cm_untouched in Hu. cbn in Hu. congruence.
Qed.

Lemma cm_apply_other op x s0 s : op_target x ≠ op_target op →
  (cm_wrote op s0 s → cm_wrote op s0 (cm_apply s x)) ∧ (cm_untouched op s0 s → cm_untouched op s0 (cm_apply s x)).
Proof.
  intros Hne. unfold cm_untouched. destruct (op_target op) as [c i] eqn:E. cbn.
  rewrite cm_apply_ne by done. split; [|done].
  destruct op as [c' i' doc p|c' i' p]; cbn in *; injection E as -> ->; by rewrite cm_apply_ne.
Qed.

Lemma cm_batch_wrote op s0 ops : ∀ s, op ∈ ops ∨ cm_wrote op s0 s →
  cm_wrote op s0 s ∨ cm_untouched op s0 s →
  (∀ op', op' ∈ ops → op_target op' = op_target op → op' = op) → cm_wrote op s0 (foldl cm_apply s ops).
Proof.
  induction ops as [|x ops IH]; intros s Hin Hs H; cbn.
  { destruct Hin as [Hin|?]; [by apply elem_of_nil in Hin|done]. }
  assert (H' : ∀ op', op' ∈ ops → op_target op' = op_target op → op' = op) by (intros; apply H; [by right|done]).
  destruct (decide (op_target x = op_target op)) as [E|Hne].
  - assert (x = op) as -> by (apply H; [left|done]).
    assert (cm_wrote op s0 (cm_apply s op)) by by apply cm_apply_again. apply IH; auto.
  - destruct (cm_apply_other op x s0 s Hne) as [H1 H2].
    apply IH; [|destruct Hs; auto|done]. destruct Hin as [[->|?]%elem_of_cons|?]; [done|auto..].
Qed.

Lemma cm_rows_spec c s d : d ∈ cm_rows c s ↔ cm_content s c (ver_id d) = Some d.
Proof.
  unfold cm_rows. rewrite list_elem_of_omap. split.
  - intros ([[c' i] [v b]] & Hin & E). cbn in E. case_decide; [subst c'|done].
    assert (ver_id d = i) as ->; [|done]. unfold cm_content in E. destruct (s !! (c, i)); [|done].
    by injection E as <-.
  - intros E. unfold cm_content in E. destruct (s !! (c, ver_id d)) as [x|] eqn:Es; [|done].
    exists ((c, ver_id d), x). split; [by apply elem_of_map_to_list|]. cbn. rewrite decide_True by done.
    unfold cm_content. by rewrite Es.
Qed.

Lemma cm_rows_nodup c s : NoDup (ver_id <$> cm_rows c s).
Proof.
  unfold cm_rows. pose proof (NoDup_fst_map_to_list s) as Hn.
  assert (Hl : ∀ p, p ∈ map_to_list s → s !! p.1 = Some p.2).
  { intros [k x] H. by apply elem_of_map_to_list in H. }
  induction (map_to_list s) as [|[[c' i] x] l IH]; cbn; [constructor|].
  cbn in Hn. apply NoDup_cons in Hn as [Hk Hn].
  assert (IH' := IH Hn (λ p Hp, Hl p (list_elem_of_further _ _ _ Hp))). clear IH.
  case_decide as Hc; [subst c'|done].
  assert (Es : s !! (c, i) = Some x) by (apply (Hl ((c, i), x)); left).
  unfold cm_content at 1. rewrite Es. cbn. apply NoDup_cons. split; [|done].
  intros (d & Hi & Hd)%list_elem_of_fmap. apply list_elem_of_omap in Hd as ([[c2 i2] x2] & Hin & E).
  cbn in E. case_decide as Hc; [subst c2|done]. unfold cm_content in E.
  destruct (s !! (c, i2)); [|done]. injection E as <-. cbn in Hi. subst i2.
  apply Hk. apply list_elem_of_fmap. by exists ((c, i), x2).
Qed.

#[export] Instance CronMem_lawful : LawfulPort CronMem.
Proof.
  refine {| content := cm_content; selects := cm_selects |}.
  - intros s c i d. unfold cm_content. destruct (s !! (c, i)); [|done]. by intros [= <-].
  - by intros c i s r [= <-].
  - intros c i doc p o s s' r. cbn. case_decide; intros [= <- <-]; [|done]. split; [done|].
    split; [|intros; by apply cm_put_ne]. destruct (cm_put_eq c i doc s) as (d & Hd & Hdoc & Hv).
    exists d. split; [done|]. split; [done|]. split; [done|]. intros d0. by apply cm_put_newer with (doc := doc).
  - intros c i p s s' r. cbn. case_decide; intros [= <- <-]; [|done].
    split; [done|]. split; [apply cm_delete_eq|]. intros. by apply cm_delete_ne.
  - intros ops s s' r. cbn. case_decide as Hall; intros [= <- <-]; [|done].
    rewrite Forall_forall in Hall. split; [done|]. split; [intros; by apply cm_foldl_ne|]. split.
    + intros op Hin Hu. refine (cm_batch_wrote op s ops s (or_introl Hin) (or_intror _) Hu). done.
    + clear Hall. induction ops as [|op ops IH]; constructor; [by destruct op|done].
  - intros c q s rows. cbn. intros [= <-]. unfold cm_query. destruct (q_filter q) as [f|] eqn:Ef.
    + split; [|split].
      * intros row [_ H]%list_elem_of_filter. by apply cm_rows_spec.
      * eapply sublist_NoDup; [apply cm_rows_nodup|]. apply fmap_sublist, sublist_filter.
      * by intros ->.
    + split; [|split].
      * intros row H. by apply cm_rows_spec.
      * apply cm_rows_nodup.
      * intros _ i d Hd. assert (ver_id d = i) as <-; [|by apply cm_rows_spec].
        unfold cm_content in Hd. destruct (s !! (c, i)); [|done]. by injection Hd as <-.
  - intros c f s s' r. cbn. intros [= <- _]. split.
    + intros c' i Hc. unfold cm_content. f_equal. apply option_eq. intros x.
      rewrite map_lookup_filter_Some. cbn. naive_solver.
    + intros i. unfold cm_content. destruct (s !! (c, i)) as [[v b]|] eqn:E.
      * destruct (cm_selects f i b) eqn:Es.
        -- right. split; [|by eexists]. rewrite (proj2 (map_lookup_filter_None _ _ _)); [done|].
           right. cbn. intros x Hx. rewrite E in Hx. injection Hx as <-. naive_solver.
        -- left. rewrite (proj2 (map_lookup_filter_Some _ s (c, i) (v, b))); [done|].
           split; [done|]. cbn. rewrite Es. naive_solver.
      * left. rewrite (proj2 (map_lookup_filter_None _ _ _)); [done|]. by left.
  - by intros c s s' r [= <- _].
  - done.
  - intros field v i d Hf. cbn. by rewrite decide_False.
  - intros field i d. cbn. destruct (get field d); reflexivity.
Defined.

(** ** Wire forms *)

Definition opt_str (v : option string) : value := match v with Some s => Str s | None => Null end.
Definition opt_field (v : value) (field : string) : option (option string) := opt_string (get field v).

Definition hours_to (h : option ActiveHours) : value :=
  match h with
  | Some h => json_object [("start", Str (ah_start h)); ("end", Str (ah_end h))]
  | None => Null
  end.
Definition hours_of (v : option value) : option (option ActiveHours) :=
  match v with
  | None | Some Null => Some None
  | Some v => get "start" v >>? as_str >>? λ a, get "end" v >>? as_str >>? λ b, Some (Some (mkActiveHours a b))
  end.

#[export] Instance sample_wire : CronWire := {|
  valid_ms ms := bool_decide (- 2 ^ 52 ≤ ms ≤ 2 ^ 52)%Z;
  ser_schedule s :=
    match s with
    | SCron expr tz hours => json_object [("kind", Str "cron"); ("expr", Str expr); ("tz", opt_str tz);
                                          ("active_hours", hours_to hours)]
    | SAt at_ => json_object [("kind", Str "at"); ("at", value_of_i64 at_)]
    | SEvery ms => json_object [("kind", Str "every"); ("every_ms", Number (PosInt ms))]
    end;
  de_schedule v :=
    get "kind" v >>? as_str >>? λ kind,
    if decide (kind = "cron") then
      get "expr" v >>? as_str >>? λ expr, opt_field v "tz" >>? λ tz,
      hours_of (get "active_hours" v) >>? λ hours, Some (SCron expr tz hours)
    else if decide (kind = "at") then
      match get "at" v with
      | Some (Number (PosInt n)) | Some (Number (NegInt n)) => Some (SAt n)
      | _ => None
      end
    else get "every_ms" v >>? as_u64 >>? λ ms, Some (SEvery ms);
  ser_delivery d := json_object [("mode", Str (dc_mode d)); ("channel", opt_str (dc_channel d));
                                 ("to", opt_str (dc_to d)); ("best_effort", Bool (dc_best_effort d))];
  de_delivery v :=
    get "mode" v >>? as_str >>? λ mode, opt_field v "channel" >>? λ channel, opt_field v "to" >>? λ to,
    get "best_effort" v >>? as_bool >>? λ best, Some (mkDelivery mode channel to best);
  ser_origin o :=
    match o with
    | OriginWeb thread agent => json_object [("kind", Str "web"); ("thread_id", Str thread);
                                             ("agent_id", opt_str agent)]
    | OriginChannel channel reply history sender thread session =>
        json_object [("kind", Str "channel"); ("channel", Str channel); ("reply_target", Str reply);
                     ("history_key", Str history); ("sender", opt_str sender);
                     ("thread_id", opt_str thread);
                     ("channel_session", Array match session with Some v => [v] | None => [] end)]
    end;
  de_origin v :=
    get "kind" v >>? as_str >>? λ kind,
    if decide (kind = "web") then
      get "thread_id" v >>? as_str >>? λ thread, opt_field v "agent_id" >>? λ agent,
      Some (OriginWeb thread agent)
    else
      get "channel" v >>? as_str >>? λ channel, get "reply_target" v >>? as_str >>? λ reply,
      get "history_key" v >>? as_str >>? λ history, opt_field v "sender" >>? λ sender,
      opt_field v "thread_id" >>? λ thread, get "channel_session" v >>? as_array >>? λ session,
      Some (OriginChannel channel reply history sender thread (head session));
  ser_policy p := json_object [("retries", match jp_retries p with
                                           | Some n => Number (PosInt (Z.of_N n)) | None => Null end);
                               ("single_flight", Bool (jp_single_flight p))];
  de_policy v :=
    opt_u64 (get "retries" v) >>? λ retries, get "single_flight" v >>? as_bool >>? λ single,
    Some (mkPolicy (Z.to_N <$> retries) single)
|}.

#[export] Instance sample_wire_lawful : LawfulWire.
Proof.
  split.
  - by intros [].
  - intros [expr [tz|] [[a b]|]|at_|ms]; cbn -[value_of_i64]; try done.
    unfold value_of_i64. destruct (decide (0 ≤ at_)%Z); cbn; reflexivity.
  - by intros [mode [c|] [t|] b].
  - intros [thread [a|]|c r h [s|] [t|] [x|]]; done.
  - intros [[[|n]|] b]; reflexivity.
Qed.

(** ** A run of the store *)

Definition quiet_world : World CronMem :=
  mkWorld (λ _ s, s) (λ k, (1000 + Z.of_nat k) * MILLI)%Z (λ k, "id-" +:+ pretty k).
Definition any_id (_ : string) : StoreResult unit := Ok tt.
Definition no_digest (s : string) : string := s.

Notation with_ids f := (f quiet_world 200 any_id no_digest) (only parsing).

Definition sample_every : Schedule := SEvery 60000.
Definition sample_script : Cron (D := CronMem) (CronJob * option ClaimedOccurrence * bool * bool) :=
  let! job := add_shell_job quiet_world (Some "nightly") sample_every "backup" in
  let due := cj_next_run job in
  let! claim := with_ids claim_due_job (cj_id job) "worker" due (60 * SECOND)%Z in
  match claim with
  | None => cret (job, None, false, false)
  | Some c =>
      let! _ := with_ids queue_claimed_run c due in
      let! first := complete_claim quiet_world 200 any_id no_digest 50 c (due + SECOND)%Z true "done" None in
      let! second := complete_claim quiet_world 200 any_id no_digest 50 c (due + SECOND)%Z true "done" None in
      cret (job, claim, first, second)
  end.
