(* ===== verification/ClaimFacts.v ===== *)
(** * What the claim operations commit

    The specifications of completion, acquisition, edits and removal: each one's
    only write of a job is one atomic commit against the document it checked.  The
    import of a job, which is none, comes last. *)

From S2P Require Import Prelude Json StorageKey Repo Leases StoragePrimitives Schedule ScheduleRuntime.
From S2P Require Import CronPort CronAdmission CronJobs CronClaims CronFacts CronCommit.

Section Background.
Context {D : Type} `{Docs : !DocumentStore D} `{Port : !CronPort D} `{Wire : !CronWire}
        `{Laws : !LawfulPort D} (w : World D).

(** The upgrade of one legacy policy. *)
Definition migrated (s s' : D) : Prop :=
  ∃ id policy stored next, with_policy policy stored = Ok (Some next) ∧
    committed id (Some stored) (Some next) [] s s'.

(** What a write of a job may leave beside its batch: what the other writers did,
    and the ledger of a store that had none. *)
Inductive around (s : D) : D → Prop :=
| ar_refl : around s s
| ar_env k s' : around s s' → around s (w_env w k s')
| ar_init s' s'' : around s s' → initialised s' s'' → around s s''
| ar_same s' s'' : around s s' → content s'' = content s' → around s s''.

(** What an operation may leave beside its own commit: other writers, the first
    ledger, upgraded policies, and writes outside the jobs, the runs and the
    ledger.  The operation itself writes no run. *)
Inductive beside (s : D) : D → Prop :=
| bg_refl : beside s s
| bg_env k s' : beside s s' → beside s (w_env w k s')
| bg_init s' s'' : beside s s' → initialised s' s'' → beside s s''
| bg_migrated s' s'' : beside s s' → migrated s' s'' → beside s s''
| bg_apart s' s'' : beside s s' → apart s' s'' → beside s s''.

(** What may follow the commit: other writers, the leases and counters, and runs
    that are deleted. *)
Inductive settling (s : D) : D → Prop :=
| st_refl : settling s s
| st_env k s' : settling s s' → settling s (w_env w k s')
| st_init s' s'' : settling s s' → initialised s' s'' → settling s s''
| st_apart s' s'' : settling s s' → apart s' s'' → settling s s''
| st_trims s' s'' : settling s s' → trims s' s'' → settling s s''.

Record patient (P : D → Prop) : Prop := {
  patient_calm : calm w P;
  patient_migrated s s' : P s → migrated s s' → P s'
}.

Lemma steady_around s : steady w (around s).
Proof.
  split; intros.
  - intros k s' H. by apply ar_env.
  - by eapply ar_init.
  - by eapply ar_same.
Qed.

Lemma patient_background s : patient (beside s).
Proof.
  split; [split; [split|]|]; intros.
  - intros k s' H. by apply bg_env.
  - by eapply bg_init.
  - by eapply bg_apart, apart_same.
  - by eapply bg_apart.
  - by eapply bg_migrated.
Qed.

(** A property of the jobs survives the background when the other writers keep it
    and it does not look at policies. *)
Lemma background_body_ind (Q : value → Prop) id s s' :
  (∀ k s, from_option Q True (body s JOBS id) → from_option Q True (body (w_env w k s) JOBS id)) →
  (∀ stored next policy, with_policy policy stored = Ok (Some next) → Q (ver_doc stored) → Q next) →
  beside s s' → from_option Q True (body s JOBS id) → from_option Q True (body s' JOBS id).
Proof.
  intros Henv Hpol. induction 1 as [|k s' _ IH|s1 s2 _ IH Hi|s1 s2 _ IH Hm|s1 s2 _ IH He]; intros Hs.
  - done.
  - by apply Henv, IH.
  - destruct Hi as [Hb _]. rewrite Hb by done. by apply IH.
  - destruct Hm as (j & policy & stored & next & Hw & Hc). specialize (IH Hs).
    destruct (decide (j = id)) as [->|Hne].
    + rewrite (cm_before _ _ _ _ _ _ Hc) in IH. rewrite (cm_after _ _ _ _ _ _ Hc). cbn in *. by eapply Hpol.
    + unfold body. rewrite (cm_frame _ _ _ _ _ _ Hc); [done| | |]; [congruence|done|set_solver].
  - unfold body. rewrite He by auto. by apply IH.
Qed.

Lemma settling_body_ind (Q : value → Prop) id s s' :
  (∀ k s, from_option Q True (body s JOBS id) → from_option Q True (body (w_env w k s) JOBS id)) →
  settling s s' → from_option Q True (body s JOBS id) → from_option Q True (body s' JOBS id).
Proof.
  intros Henv. induction 1 as [|k s' _ IH|s1 s2 _ IH [Hi _]|s1 s2 _ IH He|s1 s2 _ IH [He _]]; intros Hs.
  - done.
  - by apply Henv, IH.
  - rewrite Hi by done. by apply IH.
  - unfold body. rewrite He by auto. by apply IH.
  - unfold body. rewrite He by auto. by apply IH.
Qed.
End Background.

Section Claims.
Context {D : Type} `{Docs : !DocumentStore D} `{Port : !CronPort D} `{Wire : !CronWire}
        `{Cal : !Calendar} `{Laws : !LawfulPort D} (w : World D).
Context (Htx : transactions = true).
Context (Hrely : ∀ k s, participates s (w_env w k s)).
Context (MAX_ID_LEN : nat) (validate_id : string → StoreResult unit)
        (digest_base32 : string → string) (max_run_history : nat).

Notation params f := (f w MAX_ID_LEN validate_id digest_base32) (only parsing).
Notation IN_RUNS := (Forall (λ op, (op_target op).1 = RUNS)).

(** ** Before the loop *)

(** The document an operation reads, with what is known of it for good. *)
Lemma read_job_spec P id (Q : CronResult (option (Versioned value)) → D → Prop) :
  calm w P → (∀ stored s, ver_id stored = id → P s → Q (Ok (Some stored)) s) →
  (∀ s, P s → Q (Ok None) s) → (∀ e s, P s → Q (Err e) s) → triple P (get_doc w JOBS id) Q.
Proof.
  intros HP Hs Hn He. apply get_doc_spec; [apply HP| |done]. intros s HPs.
  destruct (content s JOBS id) as [d|] eqn:E; [|by apply Hn]. apply Hs; [by eapply content_id|done].
Qed.

(** A pure computation whose success is remembered. *)
Lemma triple_lift_eq {A B} (P : D → Prop) (r : CronResult A) (f : A → Cron (D := D) B) Q :
  (∀ a, r = Ok a → triple P (f a) Q) → (∀ e s, P s → Q (Err e) s) → triple P (cbind (clift r) f) Q.
Proof.
  intros Hok Herr k s Hs. unfold cbind, clift. destruct r as [a|e]; [by apply Hok|by apply Herr].
Qed.

Lemma triple_pre {A} (P P' : D → Prop) (m : Cron (D := D) A) Q :
  triple P' m Q → (∀ s, P s → P' s) → triple P m Q.
Proof. intros H HP. by eapply triple_conseq. Qed.

Lemma triple_pure {A} (P : D → Prop) (φ : Prop) (m : Cron (D := D) A) Q :
  (φ → triple P m Q) → triple (λ s, P s ∧ φ) m Q.
Proof. intros H k s [Hs Hφ]. by apply H. Qed.

Lemma compare_job_keeps P id change :
  calm w P →
  (∀ s s' stored next, P s → change stored = Ok (Some next) →
     committed id (Some stored) (Some next) [] s s' → P s') →
  keeps P (compare_job w id change).
Proof.
  intros HP Hc. unfold compare_job. apply keeps_loop. apply keeps_bind; [by apply keeps_get_doc|].
  intros [stored|]; [|keep]. apply triple_lift_eq; [|done]. intros [next|] E; [|apply keeps_ret].
  apply keeps_retry; [|intros; keep].
  eapply triple_conseq; [apply (commit_job_spec w Htx Hrely P); [by apply calm_steady|constructor]|done|].
  intros [rs|e] s; [|done]. intros (s0 & Hs & Hcm & _). by eapply Hc.
Qed.

Lemma patient_ensure P : patient w P → keeps P (ensure w).
Proof.
  intros [HP Hm]. unfold ensure, migrate_policies. apply keeps_bind.
  { apply keeps_for. intros c. by apply keeps_ensure_collection. }
  intros _. apply keeps_bind; [by apply keeps_ensure_collection|]. intros _.
  apply keeps_bind; [by apply keeps_query|]. intros policies. apply keeps_for. intros policy.
  apply keeps_bind.
  - apply compare_job_keeps; [done|]. intros s s' stored next Hs Hw Hc. eapply Hm; [exact Hs|].
    by exists (ver_id policy), (ver_doc policy), stored, next.
  - intros _. apply keeps_bind; [|intros; keep]. apply keeps_catch. apply keeps_delete_apart; [done|clear; set_solver].
Qed.

Lemma require_transactions_ok P : keeps P (require_transactions (D := D)).
Proof. unfold require_transactions. rewrite Htx. keep. Qed.

(** ** Ownership *)

(** [owns] is a read: [true] only for a document that passes the fence. *)
Lemma owns_spec P stored claim now :
  calm w P →
  triple P (params owns stored claim now) (λ r s, P s ∧
    match r with Ok true => fence stored (co_lease claim) = Ok true | _ => True end).
Proof.
  intros HP. unfold owns. apply triple_lift_eq; [|done]. intros [] E; [|by apply triple_ret].
  apply triple_lift_eq; [|done]. intros key _.
  eapply (triple_bind _ _ _ (λ _, P)).
  - eapply triple_conseq; [by apply keeps_current|done|]. by intros [?|?].
  - intros held. apply triple_ret. intros s Hs. split; [done|]. by destruct (held_by _ _).
Qed.

(** ** Completion *)

(** The atomic write of a completion. *)
Definition completes (claim : ClaimedOccurrence) (c : RunCompletion) (advance : bool) (s s' : D) : Prop :=
  ∃ stored job next doc seq,
    let id := cj_id (co_job claim) in
    fence stored (co_lease claim) = Ok true ∧ doc_to_job stored = Ok job ∧
    (if advance
     then ∃ next_run, next_run_for_schedule (cj_schedule job) (rn_finished_at c) = Ok next_run ∧
            next = Some (next_run, is_one_shot (cj_schedule job))
     else next = None) ∧
    completed_doc (co_lease claim) c next (ver_doc stored) = Ok doc ∧
    committed id (Some stored) (Some doc)
      (WPut RUNS (cron_run_id seq) (completed_run seq id (co_lease claim) c) PreAbsent
       :: queued_run_cleanup (ver_doc stored)) s s'.

Lemma doc_to_job_id stored job : doc_to_job stored = Ok job → cj_id job = ver_id stored.
Proof.
  unfold doc_to_job. intros H. repeat (let x := fresh in let E := fresh in
    match type of H with rbind ?m _ = Ok _ => destruct m as [x|x] eqn:E; cbn [rbind] in H; [|done] end).
  by injection H as <-.
Qed.

(** Ending the lease cannot fail the completion, nor can pruning. *)
Lemma triple_catch_keeps {A B} (P : D → Prop) (m : Cron (D := D) A) (f : CronResult A → Cron (D := D) B) Q :
  keeps P m → (∀ r, triple P (f r) Q) → triple P (cbind (catch m) f) Q.
Proof.
  intros Hm Hf. eapply (triple_bind _ _ _ (λ _, P)); [|done]. apply triple_catch.
  eapply triple_conseq; [exact Hm|done|done].
Qed.

Lemma end_lease_spec P claim c advance next_ms :
  calm w P → triple P (params end_lease claim c advance next_ms) (λ r s, r = Ok tt ∧ P s).
Proof.
  intros HP. unfold end_lease. case_match; [|by apply triple_ret].
  apply triple_catch_keeps; [|intros; by apply triple_ret].
  case_match; [by apply keeps_compact|by apply keeps_release].
Qed.

Lemma relaxed_settling (R : D → Prop) : relaxed w (λ s, ∃ s1, R s1 ∧ settling w s1 s).
Proof.
  split; [split; [split|]|].
  - intros k s (s1 & HR & Hb). exists s1. split; [done|]. by apply st_env.
  - intros s s' (s1 & HR & Hb) ?. exists s1. split; [done|]. by eapply st_init.
  - intros s s' (s1 & HR & Hb) ?. exists s1. split; [done|]. by eapply st_apart, apart_same.
  - intros s s' (s1 & HR & Hb) ?. exists s1. split; [done|]. by eapply st_apart.
  - intros s s' (s1 & HR & Hb) ?. exists s1. split; [done|]. by eapply st_trims.
Qed.

Lemma sched_Ok {A} (r : result string A) a : sched r = Ok a → r = Ok a.
Proof. destruct r; [by intros [= ->]|done]. Qed.

Lemma complete_attempt_spec P claim c advance :
  patient w P →
  triple P (complete_attempt w MAX_ID_LEN validate_id digest_base32 max_run_history claim c advance)
    (λ r s, match r with
            | Ok (Some true) => ∃ s1, (∃ s0, P s0 ∧ completes claim c advance s0 s1) ∧ settling w s1 s
            | _ => P s
            end).
Proof.
  intros [HP Hm]. unfold complete_attempt.
  eapply (triple_bind _ _ _ (λ found s, P s ∧ from_option (λ d, ver_id d = cj_id (co_job claim)) True found)).
  { apply read_job_spec; naive_solver. }
  intros [stored|]; [|apply triple_ret; naive_solver]. cbn.
  eapply (triple_bind _ _ _ (λ owned s, (P s ∧ ver_id stored = cj_id (co_job claim)) ∧
            (owned = true → fence stored (co_lease claim) = Ok true))).
  { eapply triple_conseq; [apply (owns_spec (λ s, P s ∧ ver_id stored = cj_id (co_job claim)))|done|].
    - destruct HP as [[He Hi Hs] Ha]. split; [split; [by apply stable_and; [|apply stable_pure]|naive_solver..]|naive_solver].
    - intros [[]|e] s; naive_solver. }
  intros []; [|apply triple_ret; naive_solver]. cbn [negb].
  apply (triple_pre _ (λ s, P s ∧ (ver_id stored = cj_id (co_job claim) ∧
                                   fence stored (co_lease claim) = Ok true))); [|naive_solver].
  apply triple_pure. intros [Hid Hf].
  apply triple_lift_eq; [|done]. intros job Hjob.
  eapply (triple_bind _ _ _ (λ next s, P s ∧
    if advance then ∃ next_run, next_run_for_schedule (cj_schedule job) (rn_finished_at c) = Ok next_run ∧
                      next = Some (next_run, is_one_shot (cj_schedule job))
    else next = None)).
  { destruct advance; [|by apply triple_ret]. apply triple_lift_eq; [|done]. intros next_run E.
    apply triple_ret. intros s Hs. split; [done|]. exists next_run. split; [|done].
    by apply sched_Ok. }
  intros next. apply triple_pure. intros Hnext.
  apply triple_lift_eq; [|done]. intros doc Hdoc.
  eapply (triple_bind _ _ _ (λ _, P)).
  { eapply triple_conseq; [by apply keeps_next_run_number|done|]. by intros [?|?]. }
  intros seq. set (extra := WPut _ _ _ _ :: _).
  set (R := λ s, ∃ s1, (∃ s0, P s0 ∧ completes claim c advance s0 s1) ∧ settling w s1 s).
  eapply (triple_retry _ _ (λ _, R)).
  - eapply triple_conseq; [apply (commit_job_spec w Htx Hrely P)|done|].
    + by apply calm_steady.
    + constructor; [done|]. apply cleanup_in_runs.
    + intros [rs|e] s; [|done]. intros (s0 & Hs & Hcm & _). exists s. split; [|constructor].
      exists s0. split; [done|]. exists stored, job, next, doc, seq. repeat (split; [done|]).
      assert (Hj : cj_id job = cj_id (co_job claim)) by (by rewrite (doc_to_job_id _ _ Hjob)).
      by rewrite <- Hj.
  - intros rs. assert (HR : relaxed w R) by apply relaxed_settling.
    eapply (triple_bind _ _ _ (λ _, R)).
    { eapply triple_conseq; [by apply end_lease_spec, HR|done|]. by intros r s [-> Hs]. }
    intros _. apply triple_catch_keeps; [by apply keeps_prune|]. intros _. by apply triple_ret.
Qed.

Lemma complete_spec P claim c advance :
  patient w P →
  triple P (complete_claim_mode w MAX_ID_LEN validate_id digest_base32 max_run_history claim c advance)
    (λ r s, match r with
            | Ok true => ∃ s1, (∃ s0, P s0 ∧ completes claim c advance s0 s1) ∧ settling w s1 s
            | _ => P s
            end).
Proof.
  intros HP. unfold complete_claim_mode. apply (triple_bind _ _ _ (λ _, P)).
  { eapply triple_conseq; [apply require_transactions_ok|done|]. by intros [?|?]. }
  intros _. apply (triple_bind _ _ _ (λ _, P)).
  { eapply triple_conseq; [by apply patient_ensure|done|]. by intros [?|?]. }
  intros _. case_decide; [by apply triple_fail|]. apply triple_loop; [|done].
  eapply triple_conseq; [by apply complete_attempt_spec|done|]. intros [[[]|]|e] s; done.
Qed.

(** The end of an operation: before its commit [P] holds, after it the commit [R]
    has happened and the rest is background. *)
Definition since_commit (P : D → Prop) (R : D → D → Prop) (s : D) : Prop :=
  ∃ s1, (∃ s0, P s0 ∧ R s0 s1) ∧ settling w s1 s.

Lemma relaxed_since_commit P R : relaxed w (since_commit P R).
Proof. apply relaxed_settling. Qed.
Lemma calm_since_commit P R : calm w (since_commit P R).
Proof. apply relaxed_calm, relaxed_since_commit. Qed.

Lemma commit_since P (R : D → D → Prop) id previous next extra :
  calm w P → IN_RUNS extra →
  (∀ s s', committed id previous next extra s s' → R s s') →
  triple P (commit_job w id previous next extra)
    (λ r s, match r with Ok rs => since_commit P R s ∧ reported previous next rs | Err _ => P s end).
Proof.
  intros HP Hx HR. eapply triple_conseq; [by apply (commit_job_spec w Htx Hrely P); [apply calm_steady|]|done|].
  intros [rs|e] s; [|done]. intros (s0 & Hs & Hc & Hrep). split; [|done].
  exists s. split; [|constructor]. exists s0. split; [done|]. by apply HR.
Qed.

(** Whether an operation committed is known only by its answer, and an error may
    come from either side of the commit. *)
Definition maybe (P : D → Prop) (R : D → D → Prop) (s : D) : Prop := P s ∨ since_commit P R s.

Lemma keeps_triple {A} (P : D → Prop) (m : Cron (D := D) A) (Q : CronResult A → D → Prop) :
  keeps P m → (∀ r s, P s → Q r s) → triple P m Q.
Proof. intros Hm HQ. by eapply triple_conseq. Qed.

(** ** Edits *)

Definition edits (id : string) (patch : CronJobPatch) (s s' : D) : Prop :=
  ∃ stored old now1 now2 job doc, doc_to_job stored = Ok old ∧ apply_patch now1 now2 old patch = Ok job ∧
    updated_job_doc job (ver_doc stored) = Ok doc ∧
    committed id (Some stored) (Some doc) (queued_run_cleanup (ver_doc stored)) s s'.

Lemma update_spec P id patch :
  patient w P →
  triple P (params update_job id patch)
    (λ r s, match r with Ok _ => since_commit P (edits id patch) s | Err _ => maybe P (edits id patch) s end).
Proof.
  intros HP. pose proof (patient_calm _ _ HP) as HPc. set (R := edits id patch).
  assert (HL : ∀ s, P s → maybe P R s) by (intros; by left).
  assert (HRt : ∀ s, since_commit P R s → maybe P R s) by (intros; by right).
  pose proof (calm_since_commit P R) as HRc. unfold update_job.
  eapply (triple_bind _ _ _ (λ _, P)); [eapply keeps_triple; [by apply patient_ensure|]; intros [?|?]; auto|].
  intros _. apply triple_loop; [|auto].
  eapply (triple_bind _ _ _ (λ _, P)).
  { eapply keeps_triple; [unfold job_doc; apply keeps_bind; [by apply keeps_get_doc|]; intros; keep|].
    intros [?|?]; auto. }
  intros stored. apply triple_lift_eq; [|auto]. intros old Hold.
  eapply (triple_bind _ _ _ (λ _, P)); [by apply triple_now|]. intros now1.
  eapply (triple_bind _ _ _ (λ _, P)); [by apply triple_now|]. intros now2.
  apply triple_lift_eq; [|auto]. intros job Hjob. apply triple_lift_eq; [|auto]. intros doc Hdoc.
  eapply (triple_retry _ _ (λ _, since_commit P R)).
  - eapply triple_conseq; [apply (commit_since P R)|done|].
    + done.
    + apply cleanup_in_runs.
    + intros s s' Hc. by exists stored, old, now1, now2, job, doc.
    + intros [rs|e] s; [by intros [? _]|auto].
  - intros rs. assert (Hfail : ∀ e, triple (since_commit P R) (cfail (A := option CronJob) e)
      (λ r s, match r with Ok None => P s | Ok (Some _) => since_commit P R s | Err _ => maybe P R s end)).
    { intros e. apply triple_fail. auto. }
    destruct rs as [|[version|] rs]; [apply Hfail| |apply Hfail].
    eapply (triple_bind _ _ _ (λ _, since_commit P R)).
    { eapply keeps_triple; [by apply keeps_fence_claims|]. intros [?|?]; auto. }
    intros _. apply triple_lift_eq; [|auto]. intros updated _. by apply triple_ret.
Qed.

(** ** Acquisition *)

(** The atomic write of an acquisition, which gives out [claim]. *)
Definition acquires (expected : option CronJob) (force : bool) (owner : string) (now : Z)
    (claim : ClaimedOccurrence) (id : string) (s s' : D) : Prop :=
  ∃ stored doc,
    doc_to_job stored = Ok (co_job claim) ∧
    (∀ e, expected = Some e → same_definition (co_job claim) e = true) ∧
    (force = false → cj_enabled (co_job claim) = true ∧ (cj_next_run (co_job claim) ≤ now)%Z) ∧
    (∀ i, incarnation (ver_doc stored) = Some i → cl_incarnation (co_lease claim) = i) ∧
    (∃ ms, job_occurrence_ms (ver_doc stored) = Ok ms ∧ from_ms ms = Ok (cl_occurrence (co_lease claim))) ∧
    cl_owner (co_lease claim) = owner ∧
    acquired_doc (cl_incarnation (co_lease claim)) owner (cl_epoch (co_lease claim)) (ver_doc stored) = Ok doc ∧
    committed id (Some stored) (Some doc) (queued_run_cleanup (ver_doc stored)) s s'.

Lemma keeps_give_back P now key lease : calm w P → keeps P (params give_back now key lease).
Proof. intros HP. unfold give_back. apply keeps_bind; [|intros; keep]. apply keeps_catch. by apply keeps_release. Qed.

Lemma claim_attempt_spec P id expected owner now duration expires_at force :
  calm w P →
  triple P (params claim_attempt id expected owner now duration expires_at force)
    (λ r s, match r with
            | Ok (Some (Some claim)) => since_commit P (acquires expected force owner now claim id) s
            | _ => P s
            end).
Proof.
  intros HP. unfold claim_attempt.
  eapply (triple_bind _ _ _ (λ _, P)); [eapply keeps_triple; [by apply keeps_get_doc|]; by intros [?|?]|].
  intros [stored|]; [|by apply triple_ret]. apply triple_lift_eq; [|done]. intros job Hjob.
  destruct (match expected with Some e => negb (same_definition job e) | None => false end) eqn:Hexp; [by apply triple_ret|].
  destruct (negb force && _) eqn:Hdue; [by apply triple_ret|].
  apply triple_lift_eq; [|done]. intros key _. apply triple_lift_eq; [|done]. intros ms Hms.
  apply triple_lift_eq; [|done]. intros occurrence Hocc.
  eapply (triple_bind _ _ _ (λ inc s, P s ∧ ∀ i, incarnation (ver_doc stored) = Some i → inc = i)).
  { destruct (incarnation (ver_doc stored)); [apply triple_ret|apply triple_uuid]; naive_solver. }
  intros inc. apply triple_pure. intros Hinc. apply triple_lift_eq; [|done]. intros _ _.
  eapply (triple_bind _ _ _ (λ _, P)); [by apply triple_uuid|]. intros token.
  eapply (triple_bind _ _ _ (λ _, P)); [eapply keeps_triple; [by apply keeps_acquire|]; by intros [?|?]|].
  intros [lease|]; [|by apply triple_ret]. apply triple_lift_eq; [|done]. intros doc Hdoc.
  set (claim := mkClaimed job _). set (R := acquires expected force owner now claim id).
  eapply (triple_bind _ _ _ (λ r s, match r with Ok _ => since_commit P R s | Err _ => P s end)).
  - apply triple_catch. eapply triple_conseq; [apply (commit_since P R)|done|].
    + done.
    + apply cleanup_in_runs.
    + intros s s' Hc. exists stored, doc. split; [done|]. split.
      { intros e ->. by apply negb_false_iff in Hexp. }
      split. { intros ->. cbn in Hdue. apply orb_false_iff in Hdue as [H1%negb_false_iff H2%bool_decide_eq_false].
               split; [done|]. cbn. lia. }
      split; [done|]. split; [by exists ms|]. done.
    + intros [rs|e] s; [by intros [? _]|done].
  - intros [rs|e]; [by apply triple_ret|].
    eapply (triple_bind _ _ _ (λ _, P)); [eapply keeps_triple; [by apply keeps_give_back|]; by intros [?|?]|].
    intros _. destruct (conflict e); [by apply triple_ret|by apply triple_fail].
Qed.

Lemma claim_spec P id expected owner now duration force :
  patient w P →
  triple P (params claim_occurrence id expected owner now duration force)
    (λ r s, match r with
            | Ok (Some claim) => since_commit P (acquires expected force owner now claim id) s
            | _ => P s
            end).
Proof.
  intros HP. unfold claim_occurrence. case_decide; [by apply triple_fail|].
  apply triple_lift_eq; [|done]. intros expires_at _.
  eapply (triple_bind _ _ _ (λ _, P)); [eapply keeps_triple; [apply require_transactions_ok|]; by intros [?|?]|].
  intros _. eapply (triple_bind _ _ _ (λ _, P)); [eapply keeps_triple; [by apply patient_ensure|]; by intros [?|?]|].
  intros _. apply triple_loop; [|done].
  eapply triple_conseq; [by apply claim_attempt_spec, patient_calm|done|]. by intros [[[]|]|].
Qed.

(** ** Removal *)

Definition removes (stored : Versioned value) (s s' : D) : Prop :=
  committed (ver_id stored) (Some stored) None [] s s'.

Lemma remove_stored_spec P stored :
  calm w P →
  triple P (params remove_stored stored)
    (λ r s, match r with
            | Ok true => since_commit P (removes stored) s
            | Ok false => P s
            | Err _ => maybe P (removes stored) s
            end).
Proof.
  intros HP. set (R := removes stored). pose proof (calm_since_commit P R) as HRc.
  unfold remove_stored. rewrite Htx.
  eapply (triple_bind _ _ _ (λ b s, match b with true => since_commit P R s | false => P s end)).
  - unfold commit_removal.
    eapply (triple_bind _ _ _ (λ r s, match r with
              | Ok rs => since_commit P R s ∧ removed_by rs = true | Err _ => P s end)).
    + apply triple_catch. eapply triple_conseq; [by apply (commit_since P R)|done|].
      intros [rs|e] s; [|done]. intros [H Hrep]. split; [done|]. unfold reported in Hrep. cbn in Hrep.
      by destruct rs as [|[|removed] rs]; [| |subst].
    + intros [rs|e]; [apply triple_ret; by intros s [? ->]|].
      destruct (conflict e); [by apply triple_ret|apply triple_fail; intros; by left].
  - intros []; [|by apply triple_ret].
    eapply (triple_bind _ _ _ (λ _, since_commit P R)).
    { eapply keeps_triple; [by apply keeps_fence_claims|]. intros [?|?]; [done|by right]. }
    intros _. eapply (triple_bind _ _ _ (λ _, since_commit P R)); [|intros; by apply triple_ret].
    eapply keeps_triple; [unfold delete_runs_of; apply keeps_bind; [apply keeps_delete_runs, relaxed_since_commit|]; intros; keep|].
    intros [?|?]; [done|by right].
Qed.

(** A job is removed for a completed claim only with that claim's receipt. *)
Definition removes_completed (claim : ClaimedOccurrence) (s s' : D) : Prop :=
  ∃ stored, receipt (ver_doc stored) = Ok (Some (receipt_of (co_lease claim))) ∧
    incarnation (ver_doc stored) = Some (cl_incarnation (co_lease claim)) ∧
    committed (cj_id (co_job claim)) (Some stored) None [] s s'.

Lemma since_commit_mono P (R R' : D → D → Prop) s :
  (∀ s s', R s s' → R' s s') → since_commit P R s → since_commit P R' s.
Proof. intros H (s1 & (s0 & HP & HR) & Hb). exists s1. split; [|done]. exists s0. split; [done|]. by apply H. Qed.

Lemma remove_completed_spec P claim :
  patient w P →
  triple P (params remove_completed_claim claim)
    (λ r s, match r with
            | Ok true => since_commit P (removes_completed claim) s
            | Ok false => P s
            | Err _ => maybe P (removes_completed claim) s
            end).
Proof.
  intros HP. pose proof (patient_calm _ _ HP) as HPc. set (R := removes_completed claim).
  assert (HL : ∀ s, P s → maybe P R s) by (intros; by left).
  unfold remove_completed_claim.
  eapply (triple_bind _ _ _ (λ _, P)); [eapply keeps_triple; [apply require_transactions_ok|]; intros [?|?]; auto|].
  intros _. eapply (triple_bind _ _ _ (λ _, P)); [eapply keeps_triple; [by apply patient_ensure|]; intros [?|?]; auto|].
  intros _. apply triple_loop; [|auto].
  eapply (triple_bind _ _ _ (λ found s, P s ∧ from_option (λ d, ver_id d = cj_id (co_job claim)) True found)).
  { apply read_job_spec; naive_solver. }
  intros [stored|]; [|apply triple_ret; naive_solver]. cbn [from_option]. apply triple_pure. intros Hid.
  apply triple_lift_eq; [|auto]. intros completed Hrec.
  destruct (bool_decide _ && bool_decide _) eqn:E; [|by apply triple_ret].
  apply andb_true_iff in E as [E1%bool_decide_eq_true E2%bool_decide_eq_true]. subst completed.
  assert (Hmono : ∀ s s', removes stored s s' → R s s').
  { intros s s' Hr. exists stored. unfold removes in Hr. rewrite Hid in Hr. done. }
  eapply (triple_bind _ _ _ (λ b s, match b with true => since_commit P R s | false => P s end));
    [|intros []; by apply triple_ret].
  unfold remove_unchanged. eapply (triple_bind _ _ _ (λ _, P)).
  { eapply keeps_triple; [by apply keeps_get_doc|]. intros [?|?]; auto. }
  intros [now|]; [|by apply triple_ret]. case_decide; [|by apply triple_ret]. rewrite Htx.
  eapply triple_conseq; [by apply remove_stored_spec|done|]. intros [[]|e] s; [by apply since_commit_mono|done|].
  intros [?|Hs]; [by left|right]. by eapply since_commit_mono.
Qed.
End Claims.

(** ** Imports

    An import writes the job first and enrols it second, outside the discipline
    of [cron_step].  With the store to itself and a ledger in place it keeps the
    ledger an exact account all the same. *)
Section JobImports.
Context {D : Type} `{Docs : !DocumentStore D} `{Port : !CronPort D} `{Wire : !CronWire}
        `{Cal : !Calendar} `{Laws : !LawfulPort D} (w : World D).
Context (Htx : transactions = true).

(** No other handle writes. *)
Definition alone : World D := mkWorld (λ _ s, s) (w_clock w) (w_uuid w).

Definition ledgered (s : D) : Prop := Accounts s ∧ is_Some (ledger s).

Lemma closed_ledgered (v : World D) :
  (∀ k s, participates s (w_env v k s)) → stable v Accounts → closed v ledgered.
Proof.
  assert (Hkeep : ∀ s s', is_Some (ledger s) → participates s s' → is_Some (ledger s')).
  { intros s s' [d Hd] [Hp _]. destruct (Hp d Hd) as (d' & Hd' & _). by exists d'. }
  intros Hrely Hacc. split.
  - intros k s [HA Hl]. split; [by apply Hacc|]. by eapply Hkeep.
  - intros s s' [HA Hl] Hs. split; [by eapply cron_step_accounts|]. by eapply Hkeep, cron_step_participates.
Qed.

(** The job is stored under an id the ledger does not know. *)
Definition unlisted (id : string) (doc : value) (s : D) : Prop :=
  ledgered s ∧ body s JOBS id = Some doc ∧
  ∀ d st, ledger s = Some d → ledger_decode (ver_doc d) = Ok st → ad_jobs st !! id = None.

Lemma same_ledgered s s' : content s' = content s → ledgered s → ledgered s'.
Proof. intros E. unfold ledgered, Accounts, truthful, ledger, body. by rewrite E. Qed.

Lemma steady_unlisted id doc : steady alone (unlisted id doc).
Proof.
  split.
  - by intros k s.
  - intros s s' [[_ [d Hd]] _] (_ & Hn & _). congruence.
  - intros s s' (Hl & Hb & Hn) E. split; [by eapply same_ledgered|]. unfold body, ledger in *. by rewrite E.
Qed.

Lemma put_unlisted id doc o s s' v :
  doc_put_with JOBS id doc PreAbsent o s = (s', Ok v) → ledgered s → unlisted id doc s'.
Proof.
  intros (Habs & (d & Hd & Hdoc & _) & Hf)%put_law [HA [dl Hl]].
  assert (Hl' : ledger s' = ledger s) by by apply Hf.
  assert (Hnone : content s JOBS id = None) by (by destruct (content s JOBS id)).
  destruct (HA dl Hl) as (st & Hst & Hc & Ht).
  assert (Hno : ad_jobs st !! id = None).
  { destruct (ad_jobs st !! id) as [m|] eqn:Em; [|done]. destruct (Ht id m Em) as (b & Hb & _).
    unfold body in Hb. by rewrite Hnone in Hb. }
  split; [split|split].
  - intros d' Hd'. rewrite Hl' in Hd'. assert (d' = dl) as -> by congruence. exists st. split_and!; [done..|].
    intros j m Hm. unfold body. rewrite Hf by congruence. by apply Ht.
  - rewrite Hl'. by exists dl.
  - unfold body. rewrite Hd. cbn. by rewrite Hdoc.
  - intros d' st' Hd' Hst'. rewrite Hl' in Hd'. congruence.
Qed.

Lemma enrol_batch id doc m d st s s' rs :
  unlisted id doc s → since d s → member_of id doc = Ok m → ledger_decode (ver_doc d) = Ok st →
  admission_check (mkAdmission (ad_limit st) (<[id := m]> (ad_jobs st))) = Ok tt →
  atomic_batch [WPut ADMISSION LEDGER
    (ledger_encode (mkAdmission (ad_limit st) (<[id := m]> (ad_jobs st)))) (unchanged d)] s = (s', Ok rs) →
  ledgered s'.
Proof.
  intros ([HA _] & Hb & _) (d0 & Hd0 & _ & Hsame) Hm Hst Hck (Hpre & Hf & Hw & _)%batch_law.
  specialize (Hpre _ (list_elem_of_here _ _)). cbn in Hpre. unfold ledger in Hd0. rewrite Hd0 in Hpre.
  cbn in Hpre. apply Hsame in Hpre. destruct (Hw _ (list_elem_of_here _ _)) as (d' & Hd' & Hdoc & _).
  { by intros op' ->%list_elem_of_singleton. }
  destruct (HA d0 Hd0) as (st0 & Hst0 & _ & Ht). rewrite Hpre in Hst0. assert (st0 = st) as -> by congruence.
  assert (Hj : ∀ j, body s' JOBS j = body s JOBS j).
  { intros j. unfold body. rewrite Hf; [done|]. by intros op ->%list_elem_of_singleton. }
  split; [|by exists d']. intros d1 Hd1. assert (d1 = d') as -> by (unfold ledger in Hd1; congruence). rewrite Hdoc.
  exists (mkAdmission (ad_limit st) (<[id := m]> (ad_jobs st))). split_and!; [|done|].
  - apply ledger_roundtrip, (next_members_wf id (Some doc)); [by eapply ledger_decode_wf|].
    unfold next_members. by rewrite Hm.
  - intros j n. cbn. rewrite lookup_insert_Some, Hj. intros [[<- <-]|[_ Hn]]; [eauto|by apply Ht].
Qed.

Lemma enrol_spec id doc m :
  member_of id doc = Ok m →
  triple (unlisted id doc) (enrol alone m)
    (λ r s, match r with Ok _ => ledgered s | Err _ => unlisted id doc s end).
Proof.
  intros Hm. pose proof (member_of_id _ _ _ Hm) as Hid. apply triple_loop; [|done].
  eapply (triple_bind _ _ _ (λ d s, unlisted id doc s ∧ since d s)).
  { eapply triple_conseq; [apply admission_spec; [done|apply steady_unlisted]|done|].
    intros [d|e] s; naive_solver. }
  intros d. apply triple_lift_eq; [|naive_solver]. intros st Hst. rewrite Hid.
  apply triple_lift_eq; [|naive_solver]. intros [] Hck.
  eapply (triple_retry _ _ (λ _, ledgered)); [|intros; by apply triple_ret].
  apply triple_write; [by intros k s|]. intros s s' [rs|e] [Hu Hs] E.
  - by eapply enrol_batch.
  - apply batch_law in E. assert (unlisted id doc s') by by eapply steady_same; [apply steady_unlisted|..]. done.
Qed.

Lemma keeps_insert_with_created id doc ms : keeps ledgered (insert_with_created alone id doc ms).
Proof.
  unfold insert_with_created. rewrite Htx. destruct doc as [| | | | |fields]; try apply keeps_fail.
  set (doc := Object (obj_insert _ _ _)). apply triple_lift_eq; [|done]. intros m Hm.
  apply keeps_bind; [apply keeps_ret|]. intros _.
  eapply (triple_bind _ _ _ (λ _, unlisted id doc)).
  { apply triple_write; [by intros k s|]. intros s s' [v|e] Hs E; [by eapply put_unlisted|].
    apply put_law in E. by eapply same_ledgered. }
  intros _. eapply (triple_bind _ _ _ (λ r s, match r with Ok _ => ledgered s | Err _ => unlisted id doc s end)).
  { apply triple_catch. by apply enrol_spec. }
  intros [[]|e]; [by apply triple_ret|]. eapply (triple_bind _ _ _ (λ _, ledgered)); [|intros; by apply triple_fail].
  apply triple_catch, triple_write; [by intros k s|]. intros s s' r ([HA Hl] & Hb & Hn) E. apply delete_law in E.
  destruct r as [b|e']; [|by eapply same_ledgered]. destruct E as (_ & Hgone & Hf). destruct Hl as [dl Hl].
  assert (Hl' : ledger s' = ledger s) by by apply Hf. split; [|by exists dl; rewrite Hl'].
  intros d Hd. rewrite Hl' in Hd. destruct (HA d Hd) as (st & Hst & Hc & Ht). exists st. split_and!; [done..|].
  intros j n Hj. assert (j ≠ id) by (intros ->; by rewrite (Hn d st Hd Hst) in Hj).
  unfold body. rewrite Hf by congruence. by apply Ht.
Qed.

Lemma keeps_import_job job : keeps ledgered (import_job alone job).
Proof.
  assert (Hrely : ∀ k s, participates s (w_env alone k s)) by by intros.
  assert (HP : closed alone ledgered) by (apply closed_ledgered; [done|by intros k s]).
  unfold import_job, new_job_doc. apply keeps_bind; [by apply keeps_ensure|]. intros _.
  apply keeps_bind; [keep|]. intros doc. apply keeps_loop. apply keeps_bind; [by apply keeps_get_doc, closed_calm|].
  intros [stored|]; [apply keeps_ret|]. apply keeps_bind; [apply keeps_catch, keeps_insert_with_created|].
  intros [[]|e]; [apply keeps_ret|]. case_match; [apply keeps_ret|apply keeps_fail].
Qed.
End JobImports.
