(* ===== verification/CronTheorems.v ===== *)
(** * Theorems about the cron store

    The codec's round trip, the ledger's account of the jobs, atomicity of job
    writes, and the fencing of occurrence claims. *)

From S2P Require Import Prelude Json StorageKey Repo Leases StoragePrimitives Schedule ScheduleRuntime ScheduleTheorems.
From S2P Require Import CronPort CronAdmission CronJobs CronClaims CronFacts CronCommit ClaimFacts CronSamples.

(** ** Job documents *)

Lemma obj_get_set_opt k k' v m :
  obj_get k' (set_opt m k v) = if decide (k = k') then v else obj_get k' m.
Proof. destruct v; cbn; [apply obj_get_insert|apply obj_get_remove]. Qed.
Lemma obj_get_set_opt_eq k v m : obj_get k (set_opt m k v) = v.
Proof. rewrite obj_get_set_opt. by rewrite decide_True. Qed.
Lemma obj_get_set_opt_ne k k' v m : k ≠ k' → obj_get k' (set_opt m k v) = obj_get k' m.
Proof. intros. rewrite obj_get_set_opt. by rewrite decide_False. Qed.

(** Reads one field through the writes of a document. *)
Ltac read_field :=
  repeat first
    [ rewrite obj_get_insert_eq
    | rewrite obj_get_set_opt_eq
    | rewrite obj_get_insert_ne by discriminate
    | rewrite obj_get_set_opt_ne by discriminate ].

Lemma as_i64_of_i64 z : (i64_min ≤ z ≤ i64_max)%Z → as_i64 (value_of_i64 z) = Some z.
Proof.
  intros [_ Hz]. unfold value_of_i64. case_decide; cbn; [|done]. by rewrite decide_True.
Qed.

Section JobDoc.
Context `{Wire : !CronWire} (job : CronJob).

(** The fields of a job document. *)
Lemma job_to_doc_get field :
  get field (job_to_doc job) =
  if decide (field = "claim_generation") then Some (Number (PosInt (cj_claim_generation job)))
  else if decide (field = "policy")
  then if policy_is_default (cj_policy job) then None else Some (ser_policy (cj_policy job))
  else if decide (field = "expression") then Some (Str (cj_expression job))
  else if decide (field = "command") then Some (Str (cj_command job))
  else if decide (field = "schedule") then Some (schedule_to_value (cj_schedule job))
  else if decide (field = "job_type") then Some (Str (job_type_as_str (cj_job_type job)))
  else if decide (field = "session_target") then Some (Str (session_target_as_str (cj_session_target job)))
  else if decide (field = "enabled") then Some (Bool (cj_enabled job))
  else if decide (field = "delivery") then Some (ser_delivery (cj_delivery job))
  else if decide (field = "delete_after_run") then Some (Bool (cj_delete_after_run job))
  else if decide (field = "next_run_ms") then Some (value_of_i64 (timestamp_millis (cj_next_run job)))
  else if decide (field = "prompt") then Str <$> cj_prompt job
  else if decide (field = "name") then Str <$> cj_name job
  else if decide (field = "model") then Str <$> cj_model job
  else if decide (field = "agent_id") then Str <$> cj_agent_id job
  else if decide (field = "origin") then ser_origin <$> cj_origin job
  else if decide (field = "last_run_ms")
  then (λ at_, value_of_i64 (timestamp_millis at_)) <$> cj_last_run job
  else if decide (field = "last_status") then Str <$> cj_last_status job
  else if decide (field = "last_output") then Str <$> cj_last_output job
  else None.
Proof.
  unfold job_to_doc, set_next_run. cbn [get].
  repeat (case_decide; [subst field; destruct (policy_is_default (cj_policy job)); by read_field|]).
  destruct (policy_is_default (cj_policy job)); read_field;
    repeat first [rewrite obj_get_set_opt_ne by congruence | rewrite obj_get_insert_ne by congruence]; done.
Qed.
End JobDoc.

Lemma required_Str doc field s : get field doc = Some (Str s) → required doc field = Ok s.
Proof. unfold required, optional. by intros ->. Qed.
Lemma optional_fmap doc field o : get field doc = Str <$> o → optional doc field = Ok o.
Proof. unfold optional. intros ->. by destruct o. Qed.
Lemma flag_Bool doc field b : get field doc = Some (Bool b) → bool_field doc field = Ok b.
Proof. unfold bool_field. by intros ->. Qed.
Lemma integer_i64 doc field z :
  get field doc = Some (value_of_i64 z) → (i64_min ≤ z ≤ i64_max)%Z → integer doc field = Ok (Some z).
Proof. unfold integer. intros -> Hz. by rewrite as_i64_of_i64. Qed.

(** An instant a document can keep: of whole milliseconds in range. *)
Definition storable `{!CronWire} (instant : Z) : Prop :=
  (instant mod MILLI = 0)%Z ∧ valid_ms (timestamp_millis instant) = true ∧
  (i64_min ≤ timestamp_millis instant ≤ i64_max)%Z.

Lemma from_ms_storable `{!CronWire} t : storable t → from_ms (timestamp_millis t) = Ok t.
Proof.
  intros (Hm & Hv & _). unfold from_ms. rewrite Hv. f_equal. unfold timestamp_millis in *.
  pose proof (Z.div_mod t MILLI ltac:(done)). lia.
Qed.

Lemma stored_job_type_as_str t : stored_job_type (job_type_as_str t) = Ok t.
Proof. by destruct t. Qed.
Lemma session_target_roundtrip t : session_target_parse (session_target_as_str t) = t.
Proof. by destruct t. Qed.

Lemma schedule_value_roundtrip `{!CronWire} `{!LawfulWire} s :
  (∀ t, s = SAt t → storable t) → schedule_from_value (schedule_to_value s) = Ok s.
Proof.
  intros Hat. unfold schedule_from_value, schedule_to_value, text. destruct s as [e tz h|t|ms].
  - rewrite schedule_kind. cbn. by rewrite de_ser_schedule.
  - pose proof (Hat t eq_refl) as Ht. rewrite decide_True by done.
    rewrite (integer_i64 _ _ (timestamp_millis t)); [|done|apply Ht]. cbn [rbind]. by rewrite from_ms_storable.
  - rewrite schedule_kind. cbn. by rewrite de_ser_schedule.
Qed.

(** A document that holds a job is read back as that job: the shape the codec
    writes, with the creation time in the metadata or in the body. *)
Definition storable_job `{!CronWire} (job : CronJob) (stored : Versioned value) : Prop :=
  ver_id stored = cj_id job ∧ storable (cj_created_at job) ∧ storable (cj_next_run job) ∧
  (∀ t, cj_schedule job = SAt t → storable t) ∧ (∀ t, cj_last_run job = Some t → storable t) ∧
  job_created_ms (ver_doc stored) (meta_created_ms (ver_meta stored))
    = Ok (timestamp_millis (cj_created_at job)).

Definition job_fields : list string :=
  ["claim_generation"; "policy"; "expression"; "command"; "schedule"; "job_type"; "session_target";
   "enabled"; "delivery"; "delete_after_run"; "next_run_ms"; "prompt"; "name"; "model"; "agent_id";
   "origin"; "last_run_ms"; "last_status"; "last_output"].

Section ReadBack.
Context `{Wire : !CronWire} `{Lawful : !LawfulWire} (job : CronJob) (doc : value).
Context (Hdoc : ∀ field, field ∈ job_fields → get field doc = get field (job_to_doc job)).

Lemma field_kept field v :
  bool_decide (field ∈ job_fields) = true → get field (job_to_doc job) = v → get field doc = v.
Proof. intros Hf%bool_decide_eq_true <-. by apply Hdoc. Qed.

Ltac kept := apply field_kept; [reflexivity|rewrite job_to_doc_get; reflexivity].

Lemma read_schedule : get "schedule" doc = Some (schedule_to_value (cj_schedule job)).
Proof. kept. Qed.
Lemma read_delivery :
  parsed_or (get "delivery" doc) de_delivery DeliveryConfig_default "Failed to parse cron delivery"
  = Ok (cj_delivery job).
Proof.
  rewrite (field_kept "delivery" (Some (ser_delivery (cj_delivery job)))); [|done|by rewrite job_to_doc_get].
  cbn. by rewrite de_ser_delivery.
Qed.
Lemma read_origin :
  parsed_or (get "origin" doc) (λ v, Some <$> de_origin v) None "Failed to parse cron origin"
  = Ok (cj_origin job).
Proof.
  rewrite (field_kept "origin" (ser_origin <$> cj_origin job)); [|done|by rewrite job_to_doc_get].
  destruct (cj_origin job); cbn; [|done]. by rewrite de_ser_origin.
Qed.
Lemma read_generation :
  parsed_or (get "claim_generation" doc) as_u64 0%Z "invalid claim generation" = Ok (cj_claim_generation job).
Proof.
  by rewrite (field_kept "claim_generation" (Some (Number (PosInt (cj_claim_generation job)))));
    [|done|rewrite job_to_doc_get].
Qed.
Lemma read_policy :
  parsed_or (get "policy" doc) de_policy JobPolicy_default "invalid policy" = Ok (cj_policy job).
Proof.
  rewrite (field_kept "policy" (if policy_is_default (cj_policy job) then None
                                else Some (ser_policy (cj_policy job)))); [|done|by rewrite job_to_doc_get].
  destruct (policy_is_default (cj_policy job)) eqn:E; cbn; [|by rewrite de_ser_policy].
  by apply bool_decide_eq_true in E as <-.
Qed.
Lemma read_last_run :
  (∀ t, cj_last_run job = Some t → storable t) →
  integer doc "last_run_ms" = Ok (timestamp_millis <$> cj_last_run job).
Proof.
  intros Hlr. assert (E : get "last_run_ms" doc = (λ t, value_of_i64 (timestamp_millis t)) <$> cj_last_run job) by kept.
  destruct (cj_last_run job) as [t|]; [|by unfold integer; rewrite E].
  apply integer_i64; [done|by apply Hlr].
Qed.
Lemma read_strings :
  required doc "expression" = Ok (cj_expression job) ∧ required doc "command" = Ok (cj_command job) ∧
  required doc "job_type" = Ok (job_type_as_str (cj_job_type job)).
Proof. split_and!; apply required_Str; kept. Qed.
Lemma read_optionals :
  optional doc "prompt" = Ok (cj_prompt job) ∧ optional doc "name" = Ok (cj_name job) ∧
  optional doc "session_target" = Ok (Some (session_target_as_str (cj_session_target job))) ∧
  optional doc "model" = Ok (cj_model job) ∧ optional doc "agent_id" = Ok (cj_agent_id job) ∧
  optional doc "last_status" = Ok (cj_last_status job) ∧ optional doc "last_output" = Ok (cj_last_output job).
Proof. split_and!; apply optional_fmap; kept. Qed.
Lemma read_flags : bool_field doc "enabled" = Ok (cj_enabled job) ∧ bool_field doc "delete_after_run" = Ok (cj_delete_after_run job).
Proof. split; apply flag_Bool; kept. Qed.
Lemma read_next_run :
  storable (cj_next_run job) → integer doc "next_run_ms" = Ok (Some (timestamp_millis (cj_next_run job))).
Proof. intros Hn. apply integer_i64; [kept|apply Hn]. Qed.
End ReadBack.

(** A cron job written as a document is read back unchanged: every field
    survives the encoding, whatever other fields (an incarnation, a creation time,
    those of a claim) the stored document carries beside them, as long as its
    instants are whole milliseconds in the range of stored times. *)
Theorem cron_job_roundtrip `{!CronWire} `{!LawfulWire} (job : CronJob) (stored : Versioned value)
    (Hjob : storable_job job stored)
    (Hdoc : ∀ field, field ∈ job_fields → get field (ver_doc stored) = get field (job_to_doc job)) :
  doc_to_job stored = Ok job.
Proof.
  destruct Hjob as (Hid & Hcr & Hnx & Hat & Hlr & Hcms). unfold doc_to_job.
  destruct (read_strings _ _ Hdoc) as (E1 & E2 & E3). destruct (read_flags _ _ Hdoc) as (F1 & F2).
  destruct (read_optionals _ _ Hdoc) as (O1 & O2 & O3 & O4 & O5 & O6 & O7).
  rewrite (read_schedule _ _ Hdoc). cbn [rbind]. rewrite (schedule_value_roundtrip _ Hat). cbn [rbind].
  rewrite (read_delivery _ _ Hdoc). cbn [rbind]. rewrite (read_origin _ _ Hdoc). cbn [rbind].
  rewrite (read_generation _ _ Hdoc). cbn [rbind]. rewrite (read_policy _ _ Hdoc). cbn [rbind].
  rewrite E1. cbn [rbind]. rewrite E2. cbn [rbind]. rewrite O1. cbn [rbind]. rewrite O2. cbn [rbind].
  rewrite E3. cbn [rbind]. rewrite stored_job_type_as_str. cbn [rbind]. rewrite O3. cbn [rbind].
  rewrite O4. cbn [rbind]. rewrite O5. cbn [rbind]. rewrite F1. cbn [rbind]. rewrite F2. cbn [rbind].
  rewrite Hcms. cbn [rbind]. rewrite (from_ms_storable _ Hcr). cbn [rbind].
  rewrite (read_next_run _ _ Hdoc Hnx). cbn [rbind]. rewrite (from_ms_storable _ Hnx). cbn [rbind].
  rewrite (read_last_run _ _ Hdoc Hlr). cbn [rbind]. rewrite O6, O7. rewrite Hid. clear -Hlr.
  destruct (cj_last_run job) as [t|] eqn:El; cbn [fmap option_fmap option_map rbind].
  - rewrite (from_ms_storable _ (Hlr t eq_refl)). cbn. rewrite session_target_roundtrip, <- El. by destruct job.
  - cbn. rewrite session_target_roundtrip, <- El. by destruct job.
Qed.

(** ** The operations, as requests *)

(** Every write operation of the store on a transactional backend. *)
Inductive CronOp :=
| OpAddShell (name : option string) (schedule : Schedule) (command : string)
| OpAddAgent (spec : AgentJobSpec)
| OpAddFlow (flow : string) (schedule : Schedule)
| OpUpdate (id : string) (patch : CronJobPatch)
| OpRemove (id : string)
| OpClear
| OpDedup
| OpSweep
| OpRecord (write : HistoryWrite)
| OpRecordLast (id : string) (at_ : Z) (success : bool) (output : string)
| OpReschedule (job : CronJob) (success : bool) (output : string)
| OpDeleteQueued (id : string)
| OpImportRun (fuel : nat) (run : CronRun)
| OpImportJob (job : CronJob)
| OpSetMax (limit : option Z)
| OpClaim (id : string) (expected : option CronJob) (owner : string) (now duration : Z) (force : bool)
| OpQueue (claim : ClaimedOccurrence) (at_ : Z) (invocation : option string)
| OpChange (claim : ClaimedOccurrence) (now : Z) (expires_at : option Z)
| OpComplete (claim : ClaimedOccurrence) (c : RunCompletion) (advance : bool)
| OpRemoveCompleted (claim : ClaimedOccurrence)
| OpReconcile (expected : CronJob) (owner : string) (now : Z)
| OpClaimSlot (job : CronJob) (next : Z)
| OpCompleteRun (job : CronJob) (completion : Completion).

(** The import of a job writes it before it enrols it, and takes it back when the
    enrolment fails. *)
Definition imports_job (op : CronOp) : bool := match op with OpImportJob _ => true | _ => false end.

Section Theorems.
Context {D : Type} `{Docs : !DocumentStore D} `{Port : !CronPort D} `{Wire : !CronWire}
        `{Cal : !Calendar} `{Laws : !LawfulPort D}.
Context (MAX_ID_LEN : nat) (validate_id : string → StoreResult unit)
        (digest_base32 : string → string) (max_run_history : nat).

Notation params f := (f MAX_ID_LEN validate_id digest_base32) (only parsing).

Definition discard {A} (m : Cron (D := D) A) : Cron (D := D) unit := let! _ := m in cret tt.

(** One operation beside the other handles of [w]; an import of a job has the store
    to itself. *)
Definition run_op (w : World D) (op : CronOp) : Cron (D := D) unit :=
  match op with
  | OpAddShell name schedule command => discard (add_shell_job w name schedule command)
  | OpAddAgent spec => discard (add_agent_job_from_spec w spec)
  | OpAddFlow flow schedule => discard (add_flow_schedule_job w flow schedule)
  | OpUpdate id patch => discard (params (update_job w) id patch)
  | OpRemove id => discard (params (remove_job w) id)
  | OpClear => discard (params (clear_all_jobs w))
  | OpDedup => discard (params (dedup_named_jobs w))
  | OpSweep => discard (sweep_orphan_runs w)
  | OpRecord write => discard (params (append_history w) max_run_history write)
  | OpRecordLast id at_ success output => discard (record_last_run w id at_ success output)
  | OpReschedule job success output => discard (reschedule_after_run w job success output)
  | OpDeleteQueued id => discard (delete_queued_runs w id)
  | OpImportRun fuel run => discard (params (import_run w) fuel run)
  | OpImportJob job => discard (import_job (alone w) job)
  | OpSetMax limit => discard (set_max_active_jobs w limit)
  | OpClaim id expected owner now duration force =>
      discard (params (claim_occurrence w) id expected owner now duration force)
  | OpQueue claim at_ invocation => discard (params (queue_claimed_run_with_id w) claim at_ invocation)
  | OpChange claim now expires_at => discard (params (change_claim w) claim now expires_at)
  | OpComplete claim c advance => discard (params (complete_claim_mode w) max_run_history claim c advance)
  | OpRemoveCompleted claim => discard (params (remove_completed_claim w) claim)
  | OpReconcile expected owner now => discard (params (reconcile_manual_claim_admission w) expected owner now)
  | OpClaimSlot job next => discard (claim_slot w job next)
  | OpCompleteRun job completion => discard (params (complete_run w) job completion)
  end.

(** One after the other, whatever each one answers. *)
Fixpoint run_ops (w : World D) (ops : list CronOp) (k : nat) (s : D) : nat * D :=
  match ops with
  | [] => (k, s)
  | op :: ops => let '(k', s', _) := run_op w op k s in run_ops w ops k' s'
  end.

Lemma run_op_keeps w P op :
  transactions = true → (∀ k s, participates s (w_env w k s)) → closed w P → imports_job op = false →
  keeps P (run_op w op).
Proof.
  intros Htx Hrely HP Hop. destruct op; try discriminate Hop; cbn [run_op]; unfold discard;
    (apply keeps_bind; [|intros; apply keeps_ret]).
  - by apply keeps_add_shell_job.
  - by apply keeps_add_agent_job.
  - by apply keeps_add_flow_job.
  - by apply keeps_update_job.
  - by apply keeps_remove_job.
  - by apply keeps_clear.
  - by apply keeps_dedup.
  - by apply keeps_sweep.
  - by apply keeps_append_history.
  - by apply keeps_record_last_run.
  - by apply keeps_reschedule_after_run.
  - by apply keeps_delete_queued_runs.
  - by apply keeps_import_run.
  - by apply keeps_set_max.
  - by apply keeps_claim_occurrence.
  - by apply keeps_queue.
  - by apply keeps_change_claim.
  - by apply keeps_complete.
  - by apply keeps_remove_completed.
  - by apply keeps_reconcile.
  - by apply keeps_claim_slot.
  - by apply keeps_complete_run.
Qed.

Lemma cron_ops_ind w (P : D → Prop) ops :
  Forall (λ op, keeps P (run_op w op)) ops → ∀ k s, P s → P (run_ops w ops k s).2.
Proof.
  induction 1 as [|op ops Hop _ IH]; intros k s Hs; cbn; [done|].
  pose proof (Hop k s Hs) as Hk. destruct (run_op w op k s) as [[k' s'] r]. by apply IH.
Qed.

Lemma run_ops_keeps w P ops :
  transactions = true → (∀ k s, participates s (w_env w k s)) → closed w P →
  Forall (λ op, imports_job op = false) ops → ∀ k s, P s → P (run_ops w ops k s).2.
Proof. intros Htx Hrely HP Hops. apply cron_ops_ind. eapply Forall_impl; [exact Hops|]. intros. by apply run_op_keeps. Qed.

(** With imports among the operations, from a store that has its ledger. *)
Lemma run_ops_ledgered w ops :
  transactions = true → (∀ k s, participates s (w_env w k s)) → stable w Accounts →
  ∀ k s, ledgered s → ledgered (run_ops w ops k s).2.
Proof.
  intros Htx Hrely Hacc. apply cron_ops_ind, Forall_forall. intros op _. destruct (imports_job op) eqn:E.
  - destruct op; try discriminate E. cbn [run_op]. unfold discard.
    apply keeps_bind; [by apply keeps_import_job|intros; apply keeps_ret].
  - apply run_op_keeps; [done..| |done]. by apply closed_ledgered.
Qed.

(** C36: On a backend with transactions, whatever operations of the store run, on
    one handle or beside others that coordinate through the ledger, the admission
    ledger stays an exact account: each member is a stored job with that
    incarnation and enabled state, and when a cap is installed no more than that
    many enabled jobs are enrolled.  Imports of jobs may be among the operations
    when the store already has its ledger, and while one runs no other handle
    writes; [import_takeback_strands_member] shows what happens otherwise. *)
Theorem ledger_caps_active_jobs (w : World D) (ops : list CronOp) (k : nat) (s : D)
    (Htx : transactions = true)
    (Hrely : ∀ k s, participates s (w_env w k s))
    (Hothers : ∀ k s, Accounts s → Accounts (w_env w k s))
    (Hs : Accounts s)
    (Himports : Forall (λ op, imports_job op = false) ops ∨ is_Some (ledger s)) :
  let s' := (run_ops w ops k s).2 in
  ∀ d, ledger s' = Some d → ∃ st, ledger_decode (ver_doc d) = Ok st ∧
    (∀ id m, ad_jobs st !! id = Some m →
       ∃ doc, body s' JOBS id = Some doc ∧ member_of id doc = Ok m) ∧
    ∀ limit, ad_limit st = Some limit → (Z.of_nat (enabled_count (ad_jobs st)) ≤ limit)%Z.
Proof.
  cbn zeta. intros d Hd.
  assert (HA : Accounts (run_ops w ops k s).2).
  { destruct Himports as [Hi|Hl]; [by apply run_ops_keeps; [..|apply closed_accounts| |]|].
    by apply run_ops_ledgered. }
  destruct (HA d Hd) as (st & Hst & Hc & Ht).
  exists st. split; [done|]. split; [done|]. intros limit Hl. unfold admission_check in Hc. rewrite Hl in Hc.
  case_decide; [done|]. lia.
Qed.

(** Every operation but the import of a job keeps the promise the others rely on:
    it never removes the admission ledger, and while the ledger's version stands it
    changes neither the ledger nor a job the ledger enrols. *)
Theorem operations_participate (w : World D) (ops : list CronOp) (k : nat) (s : D)
    (Htx : transactions = true)
    (Hrely : ∀ k s, participates s (w_env w k s))
    (Hops : Forall (λ op, imports_job op = false) ops) :
  participates s (run_ops w ops k s).2.
Proof. apply run_ops_keeps; [done|done|apply closed_participates|done|]; done. Qed.

(** C35: On a backend with transactions a successful write of a job is atomic
    although it takes several calls: at one instant the stored job is exactly the
    document the caller read, and it is replaced together with its ledger entry and
    the run documents of the batch, nothing else changing.  Before that instant, and
    in all of a write that fails, the only thing the call itself can have written is
    the ledger of a store that had none, made of the jobs it holds with every other
    document's body as it was; no job and no run is written. *)
Theorem job_write_atomic (w : World D) (id : string) (previous : option (Versioned value))
    (next : option value) (extra : list WriteOp) (k : nat) (s : D) (k' : nat) (s' : D)
    (r : CronResult (list WriteResult))
    (Htx : transactions = true)
    (Hrely : ∀ k s, participates s (w_env w k s))
    (Hextra : Forall (λ op, (op_target op).1 = RUNS) extra)
    (Hrun : commit_job w id previous next extra k s = (k', s', r)) :
  match r with
  | Ok rs => ∃ s0, around w s s0 ∧ committed id previous next extra s0 s' ∧ reported previous next rs
  | Err _ => around w s s'
  end.
Proof.
  exact (triple_run _ _ _ _ _ _ _ _
    (commit_job_spec w Htx Hrely _ id previous next extra (steady_around w s) Hextra)
    (ar_refl w s) Hrun).
Qed.

(** ** Fencing *)

Lemma fence_true stored lease :
  fence stored lease = Ok true →
  incarnation (ver_doc stored) = Some (cl_incarnation lease) ∧
  claim_epoch (ver_doc stored) = Some (cl_epoch lease) ∧
  ∃ job, doc_to_job stored = Ok job ∧ cj_next_run job = cl_occurrence lease.
Proof.
  unfold fence. destruct (bool_decide _ && bool_decide _) eqn:E; [|done].
  apply andb_true_iff in E as [E1%bool_decide_eq_true E2%bool_decide_eq_true].
  destruct (doc_to_job stored) as [job|]; cbn; [|done]. intros [= E3%bool_decide_eq_true]. eauto.
Qed.

Definition unclaimed (epoch : Z) (doc : value) : Prop := claim_epoch doc ≠ Some epoch.

Lemma completed_doc_ended lease c next doc doc' :
  completed_doc lease c next doc = Ok doc' →
  claim_epoch doc' = None ∧ queued_run doc' = None ∧
  get COMPLETED doc' = Some (receipt_to_value (receipt_of lease)) ∧ incarnation doc' = incarnation doc.
Proof.
  unfold completed_doc. destruct doc as [| | | | |m]; try done. intros [= <-].
  unfold claim_epoch, queued_run, incarnation, text, set_last_run, reschedule, set_next_run.
  destruct next as [[next_run []]|]; cbn [get]; read_field; rewrite !obj_get_remove; repeat split;
    repeat (rewrite decide_False by discriminate || rewrite decide_True by reflexivity); done.
Qed.

Lemma with_policy_unclaimed epoch policy stored next :
  with_policy policy stored = Ok (Some next) → unclaimed epoch (ver_doc stored) → unclaimed epoch next.
Proof.
  unfold with_policy, unclaimed, claim_epoch. destruct (get "policy" (ver_doc stored)); [done|].
  destruct (legacy_retries policy); cbn; [|done]. destruct (get "single_flight" policy >>? as_bool); [|done].
  destruct (ver_doc stored) as [| | | | |m]; cbn; try done; intros [= <-]; [done|].
  cbn [get]. by rewrite obj_get_insert_ne.
Qed.

(** Other writers that do not hand out a claim's epoch again. *)
Definition epoch_spent (w : World D) (id : string) (epoch : Z) : Prop :=
  ∀ k s, from_option (unclaimed epoch) True (body s JOBS id) →
         from_option (unclaimed epoch) True (body (w_env w k s) JOBS id).

Lemma background_unclaimed w id epoch s s' :
  epoch_spent w id epoch → beside w s s' →
  from_option (unclaimed epoch) True (body s JOBS id) → from_option (unclaimed epoch) True (body s' JOBS id).
Proof.
  intros Hw Hb. eapply background_body_ind; [exact Hw| |exact Hb]. intros. by eapply with_policy_unclaimed.
Qed.

Lemma settling_unclaimed w id epoch s s' :
  epoch_spent w id epoch → settling w s s' →
  from_option (unclaimed epoch) True (body s JOBS id) → from_option (unclaimed epoch) True (body s' JOBS id).
Proof. intros Hw Hb. eapply settling_body_ind; [exact Hw|exact Hb]. Qed.

(** A claim whose epoch the job does not carry cannot complete. *)
Lemma unclaimed_refused w claim c advance k s k' s' r :
  transactions = true → (∀ k s, participates s (w_env w k s)) →
  epoch_spent w (cj_id (co_job claim)) (cl_epoch (co_lease claim)) →
  from_option (unclaimed (cl_epoch (co_lease claim))) True (body s JOBS (cj_id (co_job claim))) →
  params (complete_claim_mode w) max_run_history claim c advance k s = (k', s', r) → r ≠ Ok true.
Proof.
  intros Htx Hrely Hw Hs Hrun ->.
  pose proof (triple_run _ _ _ _ _ _ _ _
    (complete_spec w Htx Hrely _ _ _ max_run_history _ claim c advance (patient_background w s))
    (bg_refl w s) Hrun) as (s1 & (s0 & Hb & stored & job & next & doc & seq & Hf & _ & _ & _ & Hc) & _).
  apply (background_unclaimed w _ _ _ _ Hw Hb) in Hs. rewrite (cm_before _ _ _ _ _ _ Hc) in Hs. cbn in Hs.
  apply fence_true in Hf as (_ & He & _). done.
Qed.

(** What the batch of a completion does to the runs and to the other jobs. *)
Lemma completion_writes id stored next seq run s0 s1 :
  committed id (Some stored) next
    (WPut RUNS (cron_run_id seq) run PreAbsent :: queued_run_cleanup (ver_doc stored)) s0 s1 →
  content s0 RUNS (cron_run_id seq) = None ∧
  ((∀ q, queued_run (ver_doc stored) = Some q → cron_run_id q ≠ cron_run_id seq) →
     body s1 RUNS (cron_run_id seq) = Some run) ∧
  (∀ i, i ≠ cron_run_id seq → (∀ q, queued_run (ver_doc stored) = Some q → i ≠ cron_run_id q) →
     content s1 RUNS i = content s0 RUNS i) ∧
  ∀ i, i ≠ id → content s1 JOBS i = content s0 JOBS i.
Proof.
  intros Hc. destruct (cm_extra _ _ _ _ _ _ Hc _ (list_elem_of_here _ _)) as [Hpre Hput]. cbn in Hpre.
  assert (Hclean : ∀ op, op ∈ queued_run_cleanup (ver_doc stored) →
            ∃ q, queued_run (ver_doc stored) = Some q ∧ op_target op = (RUNS, cron_run_id q)).
  { intros op Hop. unfold queued_run_cleanup in Hop.
    destruct (queued_run (ver_doc stored)) as [q|]; [|by apply elem_of_nil in Hop].
    apply list_elem_of_singleton in Hop as ->. by exists q. }
  split; [by destruct (content s0 RUNS (cron_run_id seq))|]. split; [|split].
  - intros Hq. apply Hput. intros op [->|(q & Hq' & Ht)%Hclean]%elem_of_cons E; [done|].
    rewrite Ht in E. injection E as E. by destruct (Hq q Hq').
  - intros i Hi Hq. apply (cm_frame _ _ _ _ _ _ Hc); [done..|].
    intros op [->|(q & Hq' & ->)%Hclean]%elem_of_cons; [cbn; congruence|]. intros [= E]. by apply (Hq q Hq').
  - intros i Hi. apply (cm_frame _ _ _ _ _ _ Hc); [congruence|done|].
    intros op [->|(q & _ & ->)%Hclean]%elem_of_cons; done.
Qed.

(** C34: On a backend with transactions, a completion that reports success happened
    at one instant, against a job that still had the claim's incarnation and fence
    epoch and whose next run was the claimed occurrence; that write ends the claim,
    leaves its receipt, adds one terminal run, drops at most the claim's queued
    placeholder and touches no other job or run.  Afterwards the call only deletes
    runs (the history is pruned).  With any other outcome the call wrote no run, and
    of the jobs it only upgraded legacy policies. *)
Theorem complete_claim_fenced (w : World D) (claim : ClaimedOccurrence) (c : RunCompletion)
    (advance : bool) (k : nat) (s : D) (k' : nat) (s' : D) (r : CronResult bool)
    (Htx : transactions = true)
    (Hrely : ∀ k s, participates s (w_env w k s))
    (Hrun : params (complete_claim_mode w) max_run_history claim c advance k s = (k', s', r)) :
  let id := cj_id (co_job claim) in let lease := co_lease claim in
  match r with
  | Ok true => ∃ s0 s1 before after seq,
      beside w s s0 ∧ settling w s1 s' ∧
      body s0 JOBS id = Some before ∧ incarnation before = Some (cl_incarnation lease) ∧
      claim_epoch before = Some (cl_epoch lease) ∧
      (∃ stored job, ver_doc stored = before ∧ doc_to_job stored = Ok job ∧
                     cj_next_run job = cl_occurrence lease) ∧
      body s1 JOBS id = Some after ∧ claim_epoch after = None ∧ queued_run after = None ∧
      get COMPLETED after = Some (receipt_to_value (receipt_of lease)) ∧
      content s0 RUNS (cron_run_id seq) = None ∧
      ((∀ q, queued_run before = Some q → cron_run_id q ≠ cron_run_id seq) →
         body s1 RUNS (cron_run_id seq) = Some (completed_run seq id lease c)) ∧
      (∀ i, i ≠ cron_run_id seq → (∀ q, queued_run before = Some q → i ≠ cron_run_id q) →
         content s1 RUNS i = content s0 RUNS i) ∧
      (∀ i, i ≠ id → content s1 JOBS i = content s0 JOBS i)
  | _ => beside w s s'
  end.
Proof.
  cbn zeta. pose proof (triple_run _ _ _ _ _ _ _ _
    (complete_spec w Htx Hrely _ _ _ max_run_history _ claim c advance (patient_background w s))
    (bg_refl w s) Hrun) as H. destruct r as [[]|e]; [|done..].
  destruct H as (s1 & (s0 & Hb & stored & job & next & doc & seq & Hf & Hj & _ & Hd & Hc) & Hb1).
  apply fence_true in Hf as (Hi & He & job' & Hj' & Ho).
  destruct (completed_doc_ended _ _ _ _ _ Hd) as (E1 & E2 & E3 & _).
  exists s0, s1, (ver_doc stored), doc, seq. repeat (split; [done|]).
  split; [apply (cm_before _ _ _ _ _ _ Hc)|]. repeat (split; [done|]). split; [by exists stored, job'|].
  split; [apply (cm_after _ _ _ _ _ _ Hc)|]. repeat (split; [done|]).
  by apply completion_writes in Hc.
Qed.

(** A claim completes once: after a completion that reported success, whatever
    the other writers do short of handing out its epoch again, every later
    completion of the same claim is refused. *)
Theorem claim_completes_once (w : World D) (claim : ClaimedOccurrence) (c1 c2 : RunCompletion)
    (advance1 advance2 : bool) (k : nat) (s : D) (k1 : nat) (s1 : D) (k2 k3 : nat) (s2 : D)
    (r2 : CronResult bool)
    (Htx : transactions = true)
    (Hrely : ∀ k s, participates s (w_env w k s))
    (Hspent : epoch_spent w (cj_id (co_job claim)) (cl_epoch (co_lease claim)))
    (Hfirst : params (complete_claim_mode w) max_run_history claim c1 advance1 k s = (k1, s1, Ok true))
    (Hsecond : params (complete_claim_mode w) max_run_history claim c2 advance2 k2 s1 = (k3, s2, r2)) :
  r2 ≠ Ok true.
Proof.
  eapply unclaimed_refused; [done|done|done| |exact Hsecond].
  pose proof (triple_run _ _ _ _ _ _ _ _
    (complete_spec w Htx Hrely _ _ _ max_run_history _ claim c1 advance1 (patient_background w s))
    (bg_refl w s) Hfirst) as (s1' & (s0 & _ & stored & job & next & doc & seq & _ & _ & _ & Hd & Hc) & Hb).
  eapply settling_unclaimed; [done|exact Hb|]. rewrite (cm_after _ _ _ _ _ _ Hc). cbn. unfold unclaimed.
  destruct (completed_doc_ended _ _ _ _ _ Hd) as (-> & _). done.
Qed.

Lemma updated_job_doc_unclaimed job previous doc :
  updated_job_doc job previous = Ok doc → claim_epoch doc = None ∧ incarnation doc = incarnation previous.
Proof.
  assert (Hnew : ∀ field, field ∉ job_fields → get field (job_to_doc job) = None).
  { intros field Hf. rewrite job_to_doc_get. unfold job_fields in Hf. repeat (rewrite decide_False by set_solver). done. }
  assert (HE := Hnew CLAIM_EPOCH ltac:(by apply (bool_decide_unpack _))).
  assert (HI := Hnew INCARNATION ltac:(by apply (bool_decide_unpack _))).
  unfold updated_job_doc. remember (job_to_doc job) as d0 eqn:Ed.
  assert (∃ m, d0 = Object m) as [m ->] by (subst; by eexists). clear Ed Hnew. cbn in HE, HI.
  unfold claim_epoch, incarnation, text in *.
  destruct (get INCARNATION previous >>? as_str) as [i|] eqn:Ei; cbn [index_set rbind];
    (destruct (get "created_ms" previous); cbn [index_set]; intros [= <-]); cbn [get]; read_field;
    rewrite ?HE, ?HI; done.
Qed.

(** An edit ends every claim on the job at once: after a successful update,
    whatever the other writers do short of handing out the claim's epoch again, no
    claim taken before it can complete, even while its lease is still live. *)
Theorem edit_invalidates_claims (w : World D) (id : string) (patch : CronJobPatch) (job : CronJob)
    (claim : ClaimedOccurrence) (c : RunCompletion) (advance : bool) (k : nat) (s : D)
    (k1 : nat) (s1 : D) (k2 k3 : nat) (s2 : D) (r2 : CronResult bool)
    (Htx : transactions = true)
    (Hrely : ∀ k s, participates s (w_env w k s))
    (Hspent : epoch_spent w id (cl_epoch (co_lease claim)))
    (Hclaim : cj_id (co_job claim) = id)
    (Hedit : params (update_job w) id patch k s = (k1, s1, Ok job))
    (Hlater : params (complete_claim_mode w) max_run_history claim c advance k2 s1 = (k3, s2, r2)) :
  r2 ≠ Ok true.
Proof.
  eapply unclaimed_refused; [done|done|by rewrite Hclaim| |exact Hlater]. rewrite Hclaim.
  destruct (triple_run _ _ _ _ _ _ _ _
    (update_spec w Htx Hrely MAX_ID_LEN validate_id digest_base32 _ id patch (patient_background w s))
    (bg_refl w s) Hedit) as (s1' & (s0 & _ & stored & old & now1 & now2 & job' & doc & _ & _ & Hd & Hc) & Hb).
  eapply settling_unclaimed; [done|exact Hb|]. rewrite (cm_after _ _ _ _ _ _ Hc). cbn. unfold unclaimed.
  destruct (updated_job_doc_unclaimed _ _ _ Hd) as [-> _]. done.
Qed.

Lemma acquired_doc_fields inc owner epoch doc doc' :
  acquired_doc inc owner epoch doc = Ok doc' →
  claim_epoch doc' = Some epoch ∧ incarnation doc' = Some inc ∧ text doc' CLAIM_OWNER = Some owner ∧
  get COMPLETED doc' = None ∧ queued_run doc' = None ∧ get "next_run_ms" doc' = get "next_run_ms" doc.
Proof.
  unfold acquired_doc. destruct doc as [| | | | |m]; try done. intros [= <-].
  unfold claim_epoch, queued_run, incarnation, text. cbn [get].
  repeat split; repeat first
    [ rewrite obj_get_insert_eq | rewrite obj_get_insert_ne by discriminate
    | rewrite obj_get_remove, decide_False by discriminate
    | rewrite obj_get_remove, decide_True by reflexivity ]; done.
Qed.

(** An occurrence is only given out against the job as it stands: at one
    instant the stored job is the snapshot in the claim, is the definition the
    caller asked for, and is enabled and due unless the claim is forced; the same
    write records the claim's epoch, owner and incarnation and drops the receipt
    and placeholder of any claim before it. *)
Theorem claim_matches_job (w : World D) (id : string) (expected : option CronJob) (owner : string)
    (now duration : Z) (force : bool) (claim : ClaimedOccurrence) (k : nat) (s : D) (k' : nat) (s' : D)
    (Htx : transactions = true)
    (Hrely : ∀ k s, participates s (w_env w k s))
    (Hrun : params (claim_occurrence w) id expected owner now duration force k s = (k', s', Ok (Some claim))) :
  ∃ s0 s1 stored doc, beside w s s0 ∧ settling w s1 s' ∧
    body s0 JOBS id = Some (ver_doc stored) ∧ doc_to_job stored = Ok (co_job claim) ∧
    (∀ e, expected = Some e → same_definition (co_job claim) e = true) ∧
    (force = false → cj_enabled (co_job claim) = true ∧ (cj_next_run (co_job claim) ≤ now)%Z) ∧
    body s1 JOBS id = Some doc ∧ claim_epoch doc = Some (cl_epoch (co_lease claim)) ∧
    incarnation doc = Some (cl_incarnation (co_lease claim)) ∧ text doc CLAIM_OWNER = Some owner ∧
    get COMPLETED doc = None ∧ queued_run doc = None.
Proof.
  destruct (triple_run _ _ _ _ _ _ _ _
    (claim_spec w Htx Hrely MAX_ID_LEN validate_id digest_base32 _ id expected owner now duration force
       (patient_background w s)) (bg_refl w s) Hrun)
    as (s1 & (s0 & Hb & stored & doc & Hj & He & Hd & _ & _ & _ & Ha & Hc) & Hb1).
  destruct (acquired_doc_fields _ _ _ _ _ Ha) as (E1 & E2 & E3 & E4 & E5 & _).
  exists s0, s1, stored, doc. repeat (split; [done|]). split; [apply (cm_before _ _ _ _ _ _ Hc)|].
  repeat (split; [done|]). split; [apply (cm_after _ _ _ _ _ _ Hc)|done].
Qed.

(** The removal that follows a completion spares a job that was edited,
    claimed again or replaced since: the job goes only at an instant where it
    still carries the claim's own receipt and incarnation; when the call answers
    that it removed nothing, it wrote no job. *)
Theorem completed_removal_exact (w : World D) (claim : ClaimedOccurrence) (k : nat) (s : D) (k' : nat) (s' : D)
    (removed : bool)
    (Htx : transactions = true)
    (Hrely : ∀ k s, participates s (w_env w k s))
    (Hrun : params (remove_completed_claim w) claim k s = (k', s', Ok removed)) :
  if removed then
    ∃ s0 s1 doc, beside w s s0 ∧ settling w s1 s' ∧
      body s0 JOBS (cj_id (co_job claim)) = Some doc ∧
      receipt doc = Ok (Some (receipt_of (co_lease claim))) ∧
      incarnation doc = Some (cl_incarnation (co_lease claim)) ∧
      body s1 JOBS (cj_id (co_job claim)) = None ∧
      ∀ id, id ≠ cj_id (co_job claim) → body s1 JOBS id = body s0 JOBS id
  else beside w s s'.
Proof.
  pose proof (triple_run _ _ _ _ _ _ _ _
    (remove_completed_spec w Htx Hrely MAX_ID_LEN validate_id digest_base32 _ claim (patient_background w s))
    (bg_refl w s) Hrun) as H. destruct removed; [|done].
  destruct H as (s1 & (s0 & Hb & stored & Hr & Hi & Hc) & Hb1).
  exists s0, s1, (ver_doc stored). repeat (split; [done|]). split; [apply (cm_before _ _ _ _ _ _ Hc)|].
  repeat (split; [done|]). split; [apply (cm_after _ _ _ _ _ _ Hc)|].
  intros id Hne. unfold body. rewrite (cm_frame _ _ _ _ _ _ Hc); [done|congruence|done|set_solver].
Qed.
End Theorems.

(** ** On a concrete store *)

Lemma run_parts {A D} (m : nat * D * CronResult A) r : m.2 = r → m = (m.1.1, m.1.2, r).
Proof. intros <-. by destruct m as [[k s] r']. Qed.

Lemma quiet_rely : ∀ k s, participates s (w_env quiet_world k s).
Proof. by intros. Qed.

Lemma mem_transactional : transactions (CronPort := CronMem_port) = true.
Proof. done. Qed.
Lemma empty_accounts : Accounts (∅ : CronMem).
Proof. by intros d H. Qed.

Definition sample_job_added : nat * CronMem * CronResult CronJob :=
  add_shell_job quiet_world (Some "nightly") sample_every "backup" 0 ∅.
Definition sample_job_id : string := "id-1".
Definition sample_due : Z := 61000 * MILLI.
Definition sample_claim_run : nat * CronMem * CronResult (option ClaimedOccurrence) :=
  claim_occurrence quiet_world 200 any_id no_digest sample_job_id None "worker" sample_due (60 * SECOND)
    false sample_job_added.1.1 sample_job_added.1.2.
Definition taken_claim : ClaimedOccurrence :=
  match sample_claim_run.2 with
  | Ok (Some c) => c
  | _ => mkClaimed sample_job (mkClaimLease "" "" 0 "" 0 0 0)
  end.
Definition sample_completion : RunCompletion := mkRunCompletion (sample_due + SECOND) true "done" None None.
Definition sample_complete_run : nat * CronMem * CronResult bool :=
  complete_claim_mode quiet_world 200 any_id no_digest 50 taken_claim sample_completion true
    sample_claim_run.1.1 sample_claim_run.1.2.

Lemma cron_job_roundtrip_witness :
  doc_to_job (mkVersioned (cj_id sample_job) 3%N
                (Object (obj_insert INCARNATION (Str "i") (body_object (job_to_doc sample_job))))
                (mkMeta 2 (timestamp_millis (cj_created_at sample_job)) None)) = Ok sample_job.
Proof.
  apply cron_job_roundtrip.
  - assert (storable 0) by (split; [reflexivity|]; split; [reflexivity|]; split; by apply Z.leb_le).
    repeat split; done.
  - intros field Hf. unfold job_fields in Hf.
    repeat (apply elem_of_cons in Hf as [->|Hf]; [reflexivity|]). by apply elem_of_nil in Hf.
Defined.

(** A store whose cap of one is installed, then used for an import, which fills it,
    and a new job, which is refused. *)
Definition capped_store : CronMem := (run_ops 200 any_id no_digest 50 quiet_world [OpSetMax (Some 1%Z)] 0 ∅).2.
Definition capped_ops : list CronOp := [OpImportJob sample_job; OpAddShell None sample_every "b"].

Lemma capped_accounts : Accounts capped_store.
Proof.
  apply (run_ops_keeps 200 any_id no_digest 50 quiet_world Accounts [OpSetMax (Some 1%Z)]);
    [done|apply quiet_rely|by apply closed_accounts; intros k s|by repeat constructor|apply empty_accounts].
Qed.

Lemma ledger_caps_active_jobs_witness :
  let s' := (run_ops 200 any_id no_digest 50 quiet_world capped_ops 0 capped_store).2 in
  ∃ d, ledger s' = Some d ∧ ∃ st, ledger_decode (ver_doc d) = Ok st ∧ ad_limit st = Some 1%Z ∧
    size (ad_jobs st) = 1 ∧ (Z.of_nat (enabled_count (ad_jobs st)) ≤ 1)%Z.
Proof.
  cbn zeta. set (s' := (run_ops _ _ _ _ _ _ _ _).2).
  destruct (ledger s') as [d|] eqn:Ed; [|by vm_compute in Ed]. exists d. split; [done|].
  destruct (ledger_caps_active_jobs (D := CronMem) 200 any_id no_digest 50 quiet_world capped_ops 0 capped_store
    mem_transactional quiet_rely (λ _ _ H, H) capped_accounts
    (or_intror (ex_intro _ _ eq_refl)) d Ed) as (st & Hst & _ & Hl).
  exists st. split; [done|].
  assert (Hd : ledger_decode <$> (ver_doc <$> ledger s') = Some (Ok st)) by (rewrite Ed; cbn; by rewrite Hst).
  assert (Hd' : (λ r : CronResult Admission, match r with Ok st => (ad_limit st, size (ad_jobs st)) | Err _ => (None, 0) end) <$>
                  (ledger_decode <$> (ver_doc <$> ledger s')) = Some (Some 1%Z, 1)) by by vm_compute.
  rewrite Hd in Hd'. injection Hd' as E1 E2. split_and!; [done..|by apply Hl].
Defined.

Lemma operations_participate_witness :
  participates (∅ : CronMem) (run_ops 200 any_id no_digest 50 quiet_world
    [OpAddShell None sample_every "a"; OpRemove "id-1"] 0 ∅).2.
Proof.
  apply (operations_participate 200 any_id no_digest 50 quiet_world _ 0 ∅ mem_transactional quiet_rely).
  by repeat constructor.
Defined.

Lemma job_write_atomic_witness :
  let run := commit_job quiet_world "x" None (Some (json_object [("enabled", Bool true)])) [] 0 (∅ : CronMem) in
  (∃ rs, run.2 = Ok rs) ∧
  ∃ s0, around quiet_world ∅ s0 ∧ committed "x" None (Some (json_object [("enabled", Bool true)])) [] s0 run.1.2.
Proof.
  cbn zeta. set (run := commit_job _ _ _ _ _ _ _).
  destruct (run.2) as [rs|e] eqn:E; [|by vm_compute in E]. split; [by exists rs|].
  destruct (job_write_atomic quiet_world "x" None (Some (json_object [("enabled", Bool true)])) [] 0 ∅ _ _ _
    mem_transactional quiet_rely (Forall_nil_2 _) (run_parts run _ E)) as (s0 & Hb & Hc & _). by exists s0.
Defined.

Lemma sample_claimed : sample_claim_run.2 = Ok (Some taken_claim).
Proof. by vm_compute. Qed.
Lemma sample_completed : sample_complete_run.2 = Ok true.
Proof. by vm_compute. Qed.
Lemma sample_completes :
  complete_claim_mode quiet_world 200 any_id no_digest 50 taken_claim sample_completion true
    sample_claim_run.1.1 sample_claim_run.1.2 = (sample_complete_run.1.1, sample_complete_run.1.2, Ok true).
Proof. exact (run_parts sample_complete_run _ sample_completed). Qed.
Lemma quiet_spent id epoch : epoch_spent quiet_world id epoch.
Proof. by intros k s. Qed.

Lemma claim_matches_job_witness :
  ∃ s0 stored, body s0 JOBS sample_job_id = Some (ver_doc stored) ∧
    doc_to_job stored = Ok (co_job taken_claim) ∧ cj_enabled (co_job taken_claim) = true.
Proof.
  destruct (claim_matches_job 200 any_id no_digest quiet_world sample_job_id None "worker" sample_due
    (60 * SECOND) false taken_claim _ _ _ _ mem_transactional quiet_rely (run_parts sample_claim_run _ sample_claimed))
    as (s0 & s1 & stored & doc & _ & _ & Hb & Hj & _ & Hd & _).
  exists s0, stored. split; [done|]. split; [done|]. by apply Hd.
Defined.

Lemma complete_claim_fenced_witness :
  ∃ s0 before, body s0 JOBS (cj_id (co_job taken_claim)) = Some before ∧
    claim_epoch before = Some (cl_epoch (co_lease taken_claim)).
Proof.
  destruct (complete_claim_fenced 200 any_id no_digest 50 quiet_world taken_claim sample_completion true _ _ _ _ (Ok true)
    mem_transactional quiet_rely sample_completes) as (s0 & s1 & before & after & seq & _ & _ & Hb & _ & He & _).
  by exists s0, before.
Defined.

Definition sample_again (s : CronMem) : nat * CronMem * CronResult bool :=
  complete_claim_mode quiet_world 200 any_id no_digest 50 taken_claim sample_completion true 0 s.

Lemma claim_completes_once_witness : (sample_again sample_complete_run.1.2).2 ≠ Ok true.
Proof.
  pose proof (run_parts (sample_again sample_complete_run.1.2) _ eq_refl) as H.
  exact (claim_completes_once 200 any_id no_digest 50 quiet_world taken_claim sample_completion sample_completion
    true true _ _ _ _ 0 _ _ _ mem_transactional quiet_rely (quiet_spent _ _)
    sample_completes H).
Defined.

Definition sample_edit : CronJobPatch :=
  mkPatch None None (Some "restore") None None None None None None None None None.
Definition sample_edit_run : nat * CronMem * CronResult CronJob :=
  update_job quiet_world 200 any_id no_digest (cj_id (co_job taken_claim)) sample_edit
    sample_claim_run.1.1 sample_claim_run.1.2.

Lemma edit_invalidates_claims_witness :
  (∃ job, sample_edit_run.2 = Ok job ∧ cj_command job = "restore") ∧
  (sample_again sample_edit_run.1.2).2 ≠ Ok true.
Proof.
  destruct sample_edit_run.2 as [job|e] eqn:E; [|by vm_compute in E]. split.
  - exists job. split; [done|].
    assert (H : (cj_command <$> (match sample_edit_run.2 with Ok j => Some j | Err _ => None end)) = Some "restore")
      by by vm_compute. rewrite E in H. by injection H.
  - pose proof (run_parts (sample_again sample_edit_run.1.2) _ eq_refl) as H.
    exact (edit_invalidates_claims 200 any_id no_digest 50 quiet_world _ sample_edit job taken_claim
      sample_completion true _ _ _ _ 0 _ _ _ mem_transactional quiet_rely (quiet_spent _ _) eq_refl
      (run_parts sample_edit_run _ E) H).
Defined.

Definition sample_remove_run : nat * CronMem * CronResult bool :=
  remove_completed_claim quiet_world 200 any_id no_digest taken_claim
    sample_complete_run.1.1 sample_complete_run.1.2.

Lemma completed_removal_exact_witness :
  ∃ s1, body s1 JOBS (cj_id (co_job taken_claim)) = None ∧ settling quiet_world s1 sample_remove_run.1.2.
Proof.
  assert (E : sample_remove_run.2 = Ok true) by by vm_compute.
  destruct (completed_removal_exact 200 any_id no_digest quiet_world taken_claim _ _ _ _ true
    mem_transactional quiet_rely (run_parts sample_remove_run _ E))
    as (s0 & s1 & doc & _ & Hb & _ & _ & _ & Hn & _).
  exists s1. split; [exact Hn|exact Hb].
Defined.

(** ** Taking an import back *)

(** Another handle that keeps reconciling the ledger while the imported job is
    there, so that the import's own enrolment never gets its write in. *)
Definition reconciling_world : World CronMem :=
  mkWorld (λ _ s, match s !! (JOBS, "flow:f") with
                  | Some d => match member_of "flow:f" d.2 with
                              | Ok m => cm_put ADMISSION LEDGER (ledger_encode (mkAdmission None {["flow:f" := m]})) s
                              | Err _ => s
                              end
                  | None => s
                  end)
    (w_clock quiet_world) (w_uuid quiet_world).

Definition flow_job_doc : value := job_to_doc (flow_job "f" sample_job).
Definition takeback_run : nat * CronMem * CronResult unit :=
  insert_with_created reconciling_world "flow:f" flow_job_doc 0 0 ∅.

(** The import of a job that loses every race for the ledger takes its row back
    without looking at the ledger: the member the other handle enrolled stays, and
    the flow's job cannot be registered again. *)
Example import_takeback_strands_member :
  (∃ e, takeback_run.2 = Err e) ∧ takeback_run.1.2 !! (JOBS, "flow:f") = None ∧
  (match takeback_run.1.2 !! (ADMISSION, LEDGER) with
   | Some d => match ledger_decode d.2 with Ok st => bool_decide (is_Some (ad_jobs st !! "flow:f")) | Err _ => false end
   | None => false
   end) = true ∧
  (add_flow_schedule_job quiet_world "f" sample_every 0 takeback_run.1.2).2 =
    Err (CMessage "cron store: flow registration kept changing").
Proof. split; [eexists; by vm_compute|by vm_compute]. Qed.
