(* ===== verification/Migrations.v ===== *)
(** * Owner migrations of stored documents

    [crates/tinyflows-storage/src/schema.rs], [schema/migrations.rs] and the
    steps of the cron store, [crates/tinyflows-drivers/src/schedule/migrate.rs]:
    an owner declares its collections and ordered steps; a run of [schema_migrate]
    reads the source collection of each step page by page, writes what the step
    makes of the rows, deletes the rows and records how far it came, so that a
    run that stopped anywhere is taken up by the next.

    Store calls may fail; a call that fails changes nothing.  No other writer
    acts during a run.  A collection is its name, the indexes are left out.  The
    theorems are about steps that read a legacy collection, as every step of the
    program does, and convert row by row: [moved] says how a store later in a
    migration relates to an earlier one, [ready] what lets the next run go on. *)

From stdpp Require Import sorting.
From S2P Require Import Prelude Json StorageKey Repo Leases StoragePrimitives StorageTheorems DriverCheckpoint DriverTheorems CronAdmission.
From Stdlib Require Import Ascii.
From Stdlib Require String.

(** ** Declarations ([schema.rs]) *)

Definition MIGRATIONS_COLLECTION : string := "tsd.migrations".

Definition is_lowercase (c : Ascii.ascii) : bool :=
  let n := Ascii.N_of_ascii c in bool_decide (97 ≤ n ≤ 122)%N.
Definition is_digit (c : Ascii.ascii) : bool :=
  let n := Ascii.N_of_ascii c in bool_decide (48 ≤ n ≤ 57)%N.

Definition owner_new (name : string) : StoreResult string :=
  let bytes := String.list_ascii_of_string name in
  let valid := bool_decide (2 ≤ length bytes ≤ 24) && match bytes with c :: _ => is_lowercase c | [] => false end &&
               forallb (λ b, is_lowercase b || is_digit b || bool_decide (b = "_"%char)) bytes in
  if negb valid || bool_decide (name = "tsd") then Err (invalid_input "invalid storage owner name") else Ok name.

Record SourceRecord := mkSource { sr_id : string; sr_body : value; sr_meta : Meta }.
Record TargetRecord := mkTarget { tr_collection : string; tr_id : string; tr_body : value; tr_expires_ms : option Z }.
Definition target_new (collection id : string) (body : value) : TargetRecord := mkTarget collection id body None.
Definition preserve_expiry_from (source : SourceRecord) (t : TargetRecord) : TargetRecord :=
  mkTarget (tr_collection t) (tr_id t) (tr_body t) (meta_expires_ms (sr_meta source)).

Record MigStep := mkMigStep {
  step_id : string; step_item : string; step_from : N; step_to : N; step_source : option string;
  step_run : list SourceRecord → StoreResult (list TargetRecord)
}.
(** Declared collections with their versions. *)
Record Schema := mkSchema { sch_owner : string; sch_items : list (string * N); sch_steps : list MigStep }.

Definition collections (sc : Schema) : list string := (sch_items sc).*1 ++ [MIGRATIONS_COLLECTION].

(** The collection a step reads. *)
Definition source_of (st : MigStep) : string := default (step_item st) (step_source st).

Record Progress := mkProgress {
  pg_owner : string; pg_step : string; pg_from : N; pg_to : N; pg_cursor : option string; pg_written : N; pg_done : bool
}.
#[export] Instance Progress_codec : Codec Progress := {
  encode p := json_object [("owner", Str (pg_owner p)); ("step", Str (pg_step p));
                           ("from", Number (PosInt (Z.of_N (pg_from p)))); ("to", Number (PosInt (Z.of_N (pg_to p))));
                           ("cursor", match pg_cursor p with Some c => Str c | None => Null end);
                           ("written", Number (PosInt (Z.of_N (pg_written p)))); ("done", Bool (pg_done p))];
  decode_body v :=
    get "owner" v >>? as_str >>? λ owner, get "step" v >>? as_str >>? λ step, get "from" v >>? as_u64 >>? λ from,
    get "to" v >>? as_u64 >>? λ to,
    match get "cursor" v with None | Some Null => Some None | Some (Str c) => Some (Some c) | Some _ => None end >>? λ cursor,
    get "written" v >>? as_u64 >>? λ written, get "done" v >>? as_bool >>? λ done,
    Some (mkProgress owner step (Z.to_N from) (Z.to_N to) cursor (Z.to_N written) done)
}.
Lemma progress_roundtrip (p : Progress) : decode_body (encode p) = Some p.
Proof.
  destruct p as [o st from to cursor w d].
  transitivity (Some (mkProgress o st (Z.to_N (Z.of_N from)) (Z.to_N (Z.of_N to)) cursor (Z.to_N (Z.of_N w)) d));
    [by destruct cursor|by rewrite !N2Z.id].
Qed.

Record StepReport := mkReport { rp_owner : string; rp_item : string; rp_step : string; rp_written : N }.
Record MigrationReport := mkMigration { mr_ran : list StepReport; mr_already_done : nat }.

(** ** The store *)

Class DocPages (D : Type) := {
  doc_ensure : string → D → D * StoreResult unit;
  (** A page in the order of ids, after a cursor, with the cursor of the next. *)
  doc_page : string → option string → nat → D → StoreResult (list (Versioned value) * option string)
}.

Class LawfulPages (D : Type) `{!DocumentStore D} `{!DocQueries D} `{!LawfulQueries D} `{!DocPages D} := {
  (** The ids a cursor is before. *)
  after_cursor : option string → string → Prop;
  after_none i : after_cursor None i;
  ensure_contents c s s' r : doc_ensure c s = (s', r) → ∀ c', contents c' s' = contents c' s;
  contents_id c s i d : contents c s !! i = Some d → ver_id d = i;
  put_options c i body p o s s' v d : doc_put_with c i body p o s = (s', Ok v) → contents c s' !! i = Some d →
    default 0%N (wo_schema o) = meta_schema (ver_meta d) ∧ wo_expires_ms o = meta_expires_ms (ver_meta d);
  page_ok c after limit s items next : 0 < limit → doc_page c after limit s = Ok (items, next) →
    (∀ d, d ∈ items → contents c s !! ver_id d = Some d) ∧
    (∀ i d, contents c s !! i = Some d → after_cursor after i →
       d ∈ items ∨ ∃ cursor, next = Some cursor ∧ after_cursor (Some cursor) i) ∧
    (items = [] → next = None)
}.

(** ** Migrating ([migrations.rs]) *)

Declare Scope mig_scope.
Delimit Scope mig_scope with mig.

(** A sequence of store calls that stops at the first error. *)
Definition Mig (D A : Type) : Type := D → D * StoreResult A.
Definition mig_ret {D A} (a : A) : Mig D A := λ s, (s, Ok a).
Definition mig_err {D A} (e : StorageError) : Mig D A := λ s, (s, Err e).
Definition mig_lift {D A} (r : StoreResult A) : Mig D A := λ s, (s, r).
Definition mig_read {D A} (f : D → StoreResult A) : Mig D A := λ s, (s, f s).
Definition mig_bind {D A B} (m : Mig D A) (k : A → Mig D B) : Mig D B :=
  λ s, match m s with (s', Ok a) => k a s' | (s', Err e) => (s', Err e) end.

Notation "'let>' x := m 'in' k" := (mig_bind m (λ x, k)) (at level 200, x pattern, k at level 200) : mig_scope.
Notation "m ;> k" := (mig_bind m (λ _, k)) (at level 100, k at level 200, right associativity) : mig_scope.
Local Open Scope mig_scope.

Section Migrate.
Context {D : Type} `{!DocumentStore D} `{!DocPages D} (key_of_ : list string → StoreResult string).
#[local] Notation Mig := (Mig D).

Fixpoint each {A} (f : A → Mig unit) (l : list A) : Mig unit :=
  match l with [] => mig_ret tt | a :: l => f a ;> each f l end.

Definition target_schema (sc : Schema) (st : MigStep) (t : TargetRecord) : StoreResult N :=
  let owned := String.prefix (sch_owner sc +:+ ".") (tr_collection t) in
  match find_first (λ item : string * N, bool_decide (item.1 = tr_collection t)) (sch_items sc) with
  | Some (_, version) =>
      if owned then Ok (if decide (tr_collection t = step_item st) then step_to st else version)
      else Err (invalid_input "migration output targets an undeclared owner collection")
  | None => Err (invalid_input "migration output targets an undeclared owner collection")
  end.

Definition row_source (row : Versioned value) : SourceRecord := mkSource (ver_id row) (ver_doc row) (ver_meta row).

Definition step_inputs (st : MigStep) (items : list (Versioned value)) : list SourceRecord :=
  row_source <$> filter (λ row, source_of st ≠ step_item st ∨ (meta_schema (ver_meta row) < step_to st)%N) items.

Definition collided (e : StorageError) : bool := bool_decide (se_kind e = Conflict ∨ se_kind e = AlreadyExists).

Definition put_target (sc : Schema) (st : MigStep) (items : list (Versioned value)) (t : TargetRecord) : Mig unit :=
  if negb (is_object (tr_body t)) then mig_err (invalid_input "migration output must be an object")
  else
    let> output_schema := mig_lift (target_schema sc st t) in
    let origin_row := find_first (λ row, bool_decide (ver_id row = tr_id t)) items in
    let same_row := if decide (source_of st = step_item st ∧ tr_collection t = step_item st) then origin_row else None in
    let precondition := match same_row with Some row => PreVersion (ver_version row) | None => PreAbsent end in
    let expected_expiry := match tr_expires_ms t with
                           | Some e => Some e
                           | None => origin_row >>? λ row, meta_expires_ms (ver_meta row)
                           end in
    λ s, match doc_put_with (tr_collection t) (tr_id t) (tr_body t) precondition
                 (mkOptions (Some output_schema) expected_expiry) s with
         | (s', Ok _) => (s', Ok tt)
         | (s', Err e) =>
             if collided e then
               match doc_get (tr_collection t) (tr_id t) s' with
               | Err e' => (s', Err e')
               | Ok existing =>
                   if match existing with
                      | Some row =>
                          bool_decide (ver_doc row = tr_body t) && bool_decide (meta_schema (ver_meta row) = output_schema) &&
                          match same_row with
                          | Some source => bool_decide (meta_created_ms (ver_meta row) = meta_created_ms (ver_meta source))
                          | None => true
                          end && bool_decide (meta_expires_ms (ver_meta row) = expected_expiry)
                      | None => false
                      end
                   then (s', Ok tt) else (s', Err e)
               end
             else (s', Err e)
         end.

Definition delete_row (source : string) (row : Versioned value) : Mig unit :=
  λ s, match doc_delete source (ver_id row) (PreVersion (ver_version row)) s with
       | (s', Ok _) => (s', Ok tt)
       | (s', Err e) =>
           if decide (se_kind e = Conflict) then
             match doc_get source (ver_id row) s' with
             | Err e' => (s', Err e')
             | Ok None => (s', Ok tt)
             | Ok (Some _) => (s', Err e)
             end
           else (s', Err e)
       end.

Definition spent (st : MigStep) (outputs : list TargetRecord) (row : Versioned value) : Prop :=
  source_of st ≠ step_item st ∨
  ((meta_schema (ver_meta row) < step_to st)%N ∧ (step_item st, ver_id row) ∉ ((λ t, (tr_collection t, tr_id t)) <$> outputs)).
#[export] Instance spent_dec st outputs row : Decision (spent st outputs row).
Proof. unfold spent. apply _. Defined.

Definition save (id : string) (p : Progress) : Mig unit :=
  λ s, match repo_put MIGRATIONS_COLLECTION WriteOptions_default id p s with (s', Ok _) => (s', Ok tt) | (s', Err e) => (s', Err e) end.
Definition load (id : string) : Mig (option Progress) :=
  mig_read (λ s, let? found := repo_get MIGRATIONS_COLLECTION id s in Ok (ver_doc <$> found)).

Definition progress_of (sc : Schema) (st : MigStep) (cursor : option string) (written : N) (done : bool) : Progress :=
  mkProgress (sch_owner sc) (step_id st) (step_from st) (step_to st) cursor written done.

(** One page: what the step makes of it, the rows it used up, the mark. *)
Definition migrate_page (sc : Schema) (st : MigStep) (key : string) (items : list (Versioned value)) (next : option string)
    (written : N) : Mig N :=
  let> outputs := mig_lift (step_run st (step_inputs st items)) in
  let written' := (written + N.of_nat (length outputs))%N in
  each (put_target sc st items) outputs ;>
  each (delete_row (source_of st)) (filter (spent st outputs) items) ;>
  save key (progress_of sc st next written' false) ;>
  mig_ret written'.

Definition out_of_fuel : StorageError := backend "out of fuel".

Fixpoint page_loop (fuel batch_size : nat) (sc : Schema) (st : MigStep) (key : string) (after : option string) (written : N) : Mig N :=
  match fuel with
  | 0 => mig_err out_of_fuel
  | S fuel =>
      let> page := mig_read (doc_page (source_of st) after batch_size) in
      match page.1 with
      | [] => mig_ret written
      | _ =>
          let> written' := migrate_page sc st key page.1 page.2 written in
          match page.2 with
          | Some next => page_loop fuel batch_size sc st key (Some next) written'
          | None => mig_ret written'
          end
      end
  end.

Definition migrate_step (fuel batch_size : nat) (sc : Schema) (report : MigrationReport) (st : MigStep) : Mig MigrationReport :=
  let> key := mig_lift (key_of_ [sch_owner sc; step_item st; step_id st]) in
  let> progress := load key in
  if match progress with Some p => pg_done p | None => false end
  then mig_ret (mkMigration (mr_ran report) (S (mr_already_done report)))
  else
    (if decide (source_of st = step_item st) then mig_ret tt else doc_ensure (source_of st)) ;>
    let> written := page_loop fuel batch_size sc st key (progress >>? pg_cursor)
                      (match progress with Some p => pg_written p | None => 0%N end) in
    save key (progress_of sc st None written true) ;>
    mig_ret (mkMigration (mr_ran report ++ [mkReport (sch_owner sc) (step_item st) (step_id st) written]) (mr_already_done report)).

Fixpoint migrate_steps (fuel batch_size : nat) (sc : Schema) (steps : list MigStep) (report : MigrationReport) : Mig MigrationReport :=
  match steps with
  | [] => mig_ret report
  | st :: steps => let> report' := migrate_step fuel batch_size sc report st in migrate_steps fuel batch_size sc steps report'
  end.

Definition schema_migrate (fuel batch_size : nat) (sc : Schema) : Mig MigrationReport :=
  if decide (batch_size = 0) then mig_err (invalid_input "migration batch size must be at least 1")
  else each doc_ensure (collections sc) ;> migrate_steps fuel batch_size sc (sch_steps sc) (mkMigration [] 0).

(** Marks of imports from outside. *)
Definition mark_key (owner step : string) : StoreResult string := key_of_ [owner; step].
Definition migration_done (owner step : string) : Mig bool :=
  doc_ensure MIGRATIONS_COLLECTION ;>
  let> id := mig_lift (mark_key owner step) in
  let> progress := load id in
  mig_ret (match progress with Some p => pg_done p | None => false end).
Definition mark_done (owner step : string) : Mig unit :=
  doc_ensure MIGRATIONS_COLLECTION ;>
  let> id := mig_lift (mark_key owner step) in
  save id (mkProgress owner step 0 0 None 0 true).
End Migrate.

(** ** What a run moves *)

Section MigrateFacts.
Context {D : Type} `{!DocumentStore D} `{!LawfulDocs D} `{!DocQueries D} `{!LawfulQueries D} `{!DocPages D} `{!LawfulPages D}.
Context (key_of_ : list string → StoreResult string) (sc : Schema) (convert : MigStep → SourceRecord → list TargetRecord).
Implicit Types (s : D) (st : MigStep) (t : TargetRecord).

Definition owned (c : string) : Prop := String.prefix (sch_owner sc +:+ ".") c = true.
Definition step_key st : StoreResult string := key_of_ [sch_owner sc; step_item st; step_id st].

(** Steps out of legacy collections, row by row. *)
Record legacy_schema : Prop := {
  ls_owner : owner_new (sch_owner sc) = Ok (sch_owner sc);
  ls_source st : st ∈ sch_steps sc → source_of st ≠ step_item st ∧ ¬ owned (source_of st) ∧ source_of st ≠ MIGRATIONS_COLLECTION;
  ls_distinct st st' : st ∈ sch_steps sc → st' ∈ sch_steps sc → source_of st = source_of st' → st = st';
  ls_keys st st' key : st ∈ sch_steps sc → st' ∈ sch_steps sc → step_key st = Ok key → step_key st' = Ok key → st = st';
  ls_rows st batch : st ∈ sch_steps sc → step_run st batch = Ok (batch ≫= convert st)
}.

(** What a step made of a row is stored. *)
Definition delivered st t s : Prop :=
  ∃ d version, contents (tr_collection t) s !! tr_id t = Some d ∧ ver_doc d = tr_body t ∧
    target_schema sc st t = Ok version ∧ meta_schema (ver_meta d) = version ∧
    ∀ e, tr_expires_ms t = Some e → meta_expires_ms (ver_meta d) = Some e.

(** A store later in a migration: rows leave the sources only when what the
    step made of them is stored, and nothing the owner has is lost. *)
Record moved s s' : Prop := {
  mv_owned c : owned c → contents c s ⊆ contents c s';
  mv_source st : st ∈ sch_steps sc → contents (source_of st) s' ⊆ contents (source_of st) s;
  mv_removed st i d : st ∈ sch_steps sc → contents (source_of st) s !! i = Some d → contents (source_of st) s' !! i = None →
    ∀ t, t ∈ convert st (row_source d) → delivered st t s'
}.

Lemma target_owned st t version : target_schema sc st t = Ok version → owned (tr_collection t).
Proof.
  unfold target_schema, owned. destruct (find_first _ _) as [[name v]|]; [|done]. by destruct (String.prefix _ _).
Qed.

Lemma delivered_mono st t s s' : (∀ c, owned c → contents c s ⊆ contents c s') → delivered st t s → delivered st t s'.
Proof.
  intros Hg (d & version & Hd & Hb & Hv & ?). exists d, version. split_and!; try done; [|by destruct H..].
  eapply lookup_weaken; [exact Hd|]. by apply Hg, (target_owned st t version).
Qed.

#[export] Instance moved_preorder : PreOrder moved.
Proof.
  split.
  - intros s. split; [done..|]. intros st i d _ Hd Hn. congruence.
  - intros s1 s2 s3 H12 H23. split.
    + intros c Hc. etrans; [by apply (mv_owned _ _ H12)|by apply (mv_owned _ _ H23)].
    + intros st Hst. etrans; [by apply (mv_source _ _ H23)|by apply (mv_source _ _ H12)].
    + intros st i d Hst Hd Hn t Ht. destruct (contents (source_of st) s2 !! i) as [d'|] eqn:H2.
      * pose proof (lookup_weaken _ _ _ _ H2 (mv_source _ _ H12 st Hst)) as Hd'. rewrite Hd in Hd'. injection Hd' as <-.
        by apply (mv_removed _ _ H23 st i d).
      * eapply delivered_mono; [apply (mv_owned _ _ H23)|]. by apply (mv_removed _ _ H12 st i d).
Qed.

(** Stores that differ only in what the owner has. *)
Definition grew s s' : Prop :=
  (∀ c, owned c → contents c s ⊆ contents c s') ∧ ∀ c, ¬ owned c → contents c s' = contents c s.
#[export] Instance grew_preorder : PreOrder grew.
Proof.
  split; [by split|]. intros s1 s2 s3 [H1 H1'] [H2 H2']. split.
  - intros c Hc. etrans; [by apply H1|by apply H2].
  - intros c Hc. by rewrite H2', H1'.
Qed.

Lemma each_spec {A} (f : A → Mig D unit) (R : D → D → Prop) `{!PreOrder R} (P : D → Prop) (Q : A → D → Prop) l :
  (∀ s s', P s → R s s' → P s') → (∀ a s s', Q a s → R s s' → Q a s') →
  (∀ a s s' r, a ∈ l → P s → f a s = (s', r) → R s s' ∧ (r = Ok tt → Q a s')) →
  ∀ s s' r, P s → each f l s = (s', r) → R s s' ∧ (r = Ok tt → ∀ a, a ∈ l → Q a s').
Proof.
  intros HP HQ Hf. induction l as [|a l IH]; intros s s' r Hs; cbn [each].
  { intros [= <- <-]. split; [done|]. by intros _ a Ha%not_elem_of_nil. }
  unfold mig_bind. destruct (f a s) as [s1 [[]|e]] eqn:Ha; cbn.
  - destruct (Hf a s s1 _ ltac:(by left) Hs Ha) as [HR HQa]. intros Hrest.
    destruct (IH (λ a s s' r Hin, Hf a s s' r ltac:(by right)) s1 s' r (HP _ _ Hs HR) Hrest) as [HR' HQs].
    split; [by etrans|]. intros Hr x [->|Hx]%elem_of_cons; [|by apply HQs]. eapply HQ; [by apply HQa|done].
  - intros [= <- <-]. split; [by apply (Hf a s s1 _ ltac:(by left) Hs Ha)|done].
Qed.

Context (Hsc : legacy_schema).

Lemma marks_not_owned : ¬ owned MIGRATIONS_COLLECTION.
Proof.
  unfold owned. pose proof (ls_owner Hsc) as Ho. revert Ho. generalize (sch_owner sc). intros o Ho Hp.
  destruct o as [|a o]; [done|]. change (String.prefix (String.String a (o +:+ ".")) "tsd.migrations" = true) in Hp.
  cbn [String.prefix] in Hp. destruct (ascii_dec a "t") as [->|]; [|done]. destruct o as [|b o]; [done|].
  change (String.prefix (String.String b (o +:+ ".")) "sd.migrations" = true) in Hp.
  cbn [String.prefix] in Hp. destruct (ascii_dec b "s") as [->|]; [|done]. destruct o as [|c o]; [done|].
  change (String.prefix (String.String c (o +:+ ".")) "d.migrations" = true) in Hp.
  cbn [String.prefix] in Hp. destruct (ascii_dec c "d") as [->|]; [|done]. destruct o as [|e o]; [done|].
  change (String.prefix (String.String e (o +:+ ".")) ".migrations" = true) in Hp.
  cbn [String.prefix] in Hp. destruct (ascii_dec e ".") as [->|]; [|done].
  unfold owner_new in Ho. cbn [String.list_ascii_of_string forallb] in Ho. by destruct (bool_decide _) in Ho.
Qed.

Lemma grew_moved s s' : grew s s' → moved s s'.
Proof.
  intros [Hg Hs]. split; [done| |].
  - intros st Hst. rewrite Hs; [done|]. by apply (ls_source Hsc).
  - intros st i d Hst Hd Hn. rewrite Hs in Hn by (by apply (ls_source Hsc)). congruence.
Qed.

(** What a put does to the contents. *)
Lemma put_contents c i body p o s s' v :
  doc_put_with c i body p o s = (s', Ok v) →
  ∃ d, ver_doc d = body ∧ contents c s' = <[i := d]> (contents c s) ∧ (∀ c', c' ≠ c → contents c' s' = contents c' s) ∧
    holds p (contents c s !! i) ∧ default 0%N (wo_schema o) = meta_schema (ver_meta d) ∧ wo_expires_ms o = meta_expires_ms (ver_meta d).
Proof.
  intros Hp. pose proof (put_wrote _ _ _ _ _ _ _ _ Hp) as [(d & Hd & Hc & Ho) Hh]. exists d. split_and!; try done.
  all: eapply put_options; [exact Hp|]; by rewrite Hc, lookup_insert_eq.
Qed.

Lemma put_target_spec st items t s s' r :
  st ∈ sch_steps sc → put_target sc st items t s = (s', r) → grew s s' ∧ (r = Ok tt → delivered st t s').
Proof.
  intros Hst. destruct (ls_source Hsc st Hst) as (Hne & _ & _). unfold put_target.
  destruct (negb _); [by intros [= <- <-]|]. unfold mig_bind, mig_lift.
  destruct (target_schema sc st t) as [version|e] eqn:Hv; [|by intros [= <- <-]].
  rewrite decide_False by tauto. pose proof (target_owned _ _ _ Hv) as Hown.
  set (expiry := match tr_expires_ms t with Some e => Some e | None => _ end).
  destruct (doc_put_with _ _ _ _ _ s) as [s1 [v|e]] eqn:Hp.
  - intros [= <- <-]. apply put_contents in Hp as (d & Hd & Hc & Ho & Hh & Hschema & Hexp). cbn in Hschema, Hexp. split.
    + split.
      * intros c Hcown. destruct (decide (c = tr_collection t)) as [->|Hcne]; [|by rewrite Ho].
        rewrite Hc. apply insert_subseteq. by destruct (contents _ s !! _).
      * intros c Hcown. apply Ho. congruence.
    + intros _. exists d, version. rewrite Hc, lookup_insert_eq. split_and!; try done.
      intros e He. rewrite <- Hexp. unfold expiry. by rewrite He.
  - pose proof (put_err _ _ _ _ _ _ _ _ Hp) as ->. destruct (collided e); [|by intros [= <- <-]].
    rewrite contents_get. destruct (contents (tr_collection t) s !! tr_id t) as [d|] eqn:Hd; [|by intros [= <- <-]].
    destruct (bool_decide (ver_doc d = tr_body t)) eqn:E1; [|by intros [= <- <-]].
    destruct (bool_decide (meta_schema (ver_meta d) = version)) eqn:E2; [|by intros [= <- <-]].
    destruct (bool_decide (meta_expires_ms (ver_meta d) = expiry)) eqn:E3; [|by intros [= <- <-]].
    apply bool_decide_eq_true in E1, E2, E3. intros [= <- <-]. split; [done|]. intros _. exists d, version. split_and!; try done.
    intros e' He'. rewrite E3. unfold expiry. by rewrite He'.
Qed.

(** The rows of a page, once what the step made of them is stored. *)
Definition page_done st (rows : list (Versioned value)) (s0 s : D) : Prop :=
  contents (source_of st) s ⊆ contents (source_of st) s0 ∧
  (∀ row, row ∈ rows → contents (source_of st) s0 !! ver_id row = Some row ∧
     ∀ t, t ∈ convert st (row_source row) → delivered st t s).

(** Marks are not touched. *)
Definition moved_unmarked s s' : Prop := moved s s' ∧ contents MIGRATIONS_COLLECTION s' = contents MIGRATIONS_COLLECTION s.
#[export] Instance moved_unmarked_preorder : PreOrder moved_unmarked.
Proof. split; [by split|]. intros s1 s2 s3 [H1 E1] [H2 E2]. split; [by etrans|by rewrite E2]. Qed.

Lemma delete_contents c i p s s' removed :
  doc_delete c i p s = (s', Ok removed) →
  contents c s' = delete i (contents c s) ∧ ∀ c', c' ≠ c → contents c' s' = contents c' s.
Proof.
  intros (_ & Hn & Hf)%delete_ok. rewrite contents_get in Hn. injection Hn as Hn.
  assert (Hsame : ∀ c' i', (c', i') ≠ (c, i) → contents c' s' !! i' = contents c' s !! i').
  { intros c' i' Hne. specialize (Hf c' i' Hne). rewrite !contents_get in Hf. by injection Hf. }
  split.
  - apply map_eq. intros i'. destruct (decide (i' = i)) as [->|Hne]; [by rewrite lookup_delete_eq|].
    rewrite lookup_delete_ne by done. apply Hsame. congruence.
  - intros c' Hc. apply map_eq. intros i'. apply Hsame. congruence.
Qed.

Lemma delete_row_spec st rows row s0 s s' r :
  st ∈ sch_steps sc → row ∈ rows → page_done st rows s0 s → delete_row (source_of st) row s = (s', r) →
  moved_unmarked s s' ∧ (r = Ok tt → contents (source_of st) s' !! ver_id row = None).
Proof.
  intros Hst Hrow [Hsub Hdone]. destruct (ls_source Hsc st Hst) as (_ & Hown & Hmark). destruct (Hdone row Hrow) as [H0 Hdel].
  unfold delete_row. destruct (doc_delete _ _ _ s) as [s1 [b|e]] eqn:Hd.
  - intros [= <- <-]. apply delete_contents in Hd as [Hc Ho]. split; [|by rewrite Hc, lookup_delete_eq].
    assert (Hgrow : ∀ c, owned c → contents c s ⊆ contents c s1) by (intros c Hcown; rewrite Ho; [done|congruence]).
    split; [|by apply Ho]. split; [done| |].
    + intros st' Hst'. destruct (decide (source_of st' = source_of st)) as [->|Hne]; [|by rewrite Ho].
      rewrite Hc. apply delete_subseteq.
    + intros st' i d Hst' Hi Hn t Ht. destruct (decide (source_of st' = source_of st)) as [Heq|Hne].
      2:{ rewrite Ho in Hn by done. congruence. }
      apply (ls_distinct Hsc) in Heq as ->; [|done..]. rewrite Hc in Hn. destruct (decide (i = ver_id row)) as [->|Hi'].
      * pose proof (lookup_weaken _ _ _ _ Hi Hsub) as Hi0. rewrite H0 in Hi0. injection Hi0 as <-.
        eapply delivered_mono; [exact Hgrow|]. by apply Hdel.
      * rewrite lookup_delete_ne in Hn by done. congruence.
  - pose proof (delete_err _ _ _ _ _ _ Hd) as ->. case_decide; [|by intros [= <- <-]]. rewrite contents_get.
    destruct (contents (source_of st) s !! ver_id row) eqn:Hg; intros [= <- <-]; by split.
Qed.

(** ** What a run leaves to be taken up *)

Definition step_ready st s : Prop :=
  ∀ key d, step_key st = Ok key → contents MIGRATIONS_COLLECTION s !! key = Some d →
  ∃ p : Progress, decode_body (ver_doc d) = Some p ∧
    (pg_done p = true → contents (source_of st) s = ∅) ∧
    (pg_done p = false → ∀ i row, contents (source_of st) s !! i = Some row → after_cursor (pg_cursor p) i).

(** A mark is behind no row: the rows left are after it, and none are when the
    step is done. *)
Definition ready s : Prop := ∀ st, st ∈ sch_steps sc → step_ready st s.

Lemma step_ready_moved st s s' :
  contents (source_of st) s' ⊆ contents (source_of st) s →
  contents MIGRATIONS_COLLECTION s' = contents MIGRATIONS_COLLECTION s → step_ready st s → step_ready st s'.
Proof.
  intros Hsub Hm Hr key d Hk Hd. rewrite Hm in Hd. destruct (Hr key d Hk Hd) as (p & Hp & Hdone & Hafter). exists p. split_and!; [done| |].
  - intros Hpd. rewrite (Hdone Hpd) in Hsub. apply (anti_symm (⊆)); [done|apply map_empty_subseteq].
  - intros Hpd i row Hi. eapply Hafter; [done|]. by eapply lookup_weaken.
Qed.
Lemma ready_moved s s' : moved_unmarked s s' → ready s → ready s'.
Proof. intros [Hmv Hm] Hr st Hst. eapply step_ready_moved; [by apply (mv_source _ _ Hmv)|done|by apply Hr]. Qed.

Lemma save_spec st key p s s' r :
  st ∈ sch_steps sc → step_key st = Ok key → ready s →
  (pg_done p = true → contents (source_of st) s = ∅) →
  (pg_done p = false → ∀ i row, contents (source_of st) s !! i = Some row → after_cursor (pg_cursor p) i) →
  save key p s = (s', r) → moved s s' ∧ ready s' ∧ ∀ st', st' ∈ sch_steps sc → contents (source_of st') s' = contents (source_of st') s.
Proof.
  intros Hst Hk Hr Hd Ha. unfold save, repo_put, repo_write.
  destruct (doc_put_with _ _ _ _ _ s) as [s1 [v|e]] eqn:Hp; intros [= <- _].
  2:{ pose proof (put_err _ _ _ _ _ _ _ _ Hp) as ->. by split_and!. }
  apply put_wrote in Hp as [(d & Hb & Hc & Ho) _].
  assert (Hsrc : ∀ st', st' ∈ sch_steps sc → contents (source_of st') s1 = contents (source_of st') s).
  { intros st' Hst'. apply Ho. by apply (ls_source Hsc). }
  split_and!; [split| |done].
  - intros c Hcown. rewrite Ho; [done|]. intros ->. by apply marks_not_owned.
  - intros st' Hst'. by rewrite Hsrc.
  - intros st' i d' Hst' Hi Hn. rewrite Hsrc in Hn by done. congruence.
  - intros st' Hst' key' d' Hk' Hd'. rewrite Hc in Hd'. apply lookup_insert_Some in Hd' as [[<- <-]|[Hne Hd']].
    + rewrite (ls_keys Hsc st' st key Hst' Hst Hk' Hk) in *. exists p. rewrite Hb, progress_roundtrip.
      rewrite (Hsrc st Hst). by split_and!.
    + destruct (Hr st' Hst' key' d' Hk' Hd') as (p' & Hp' & ? & ?). exists p'. rewrite (Hsrc st' Hst'). by split_and!.
Qed.

(** The outputs of a page are what the step makes of each of its rows. *)
Lemma page_outputs st items outputs :
  st ∈ sch_steps sc → step_run st (step_inputs st items) = Ok outputs →
  ∀ row t, row ∈ items → t ∈ convert st (row_source row) → t ∈ outputs.
Proof.
  intros Hst. destruct (ls_source Hsc st Hst) as (Hne & _). rewrite (ls_rows Hsc st _ Hst). intros [= <-] row t Hrow Ht.
  apply list_elem_of_bind. exists (row_source row). split; [done|]. unfold step_inputs. apply list_elem_of_fmap_2.
  apply list_elem_of_filter. auto.
Qed.

Lemma migrate_page_spec st key items next written s s' r :
  st ∈ sch_steps sc → step_key st = Ok key → ready s →
  (∀ d, d ∈ items → contents (source_of st) s !! ver_id d = Some d) →
  (∀ i row, contents (source_of st) s !! i = Some row → row ∈ items ∨ after_cursor next i) →
  migrate_page sc st key items next written s = (s', r) →
  moved s s' ∧ ready s' ∧
  (∀ n, r = Ok n → ∀ i row, contents (source_of st) s' !! i = Some row → contents (source_of st) s !! i = Some row ∧ row ∉ items).
Proof.
  intros Hst Hk Hr Hitems Hnext. destruct (ls_source Hsc st Hst) as (Hne & Hown & _). unfold migrate_page, mig_bind, mig_lift.
  destruct (step_run st (step_inputs st items)) as [outputs|e] eqn:Hrun; [|by intros [= <- <-]].
  destruct (each (put_target sc st items) outputs s) as [s1 r1] eqn:Hputs.
  assert (Hput : grew s s1 ∧ (r1 = Ok tt → ∀ t, t ∈ outputs → delivered st t s1)).
  { eapply (each_spec _ grew (λ _, True) (λ t s, delivered st t s)); [done| | |done|exact Hputs].
    - intros t s2 s3 Hd [Hg _]. by eapply delivered_mono.
    - intros t s2 s3 r3 _ _ Hp. by apply (put_target_spec st items). }
  destruct Hput as [Hgrew Hdel]. pose proof (proj2 Hgrew _ Hown) as Hsrc1. pose proof (proj2 Hgrew _ marks_not_owned) as Hmark1.
  pose proof (grew_moved _ _ Hgrew) as Hmv1. assert (Hr1 : ready s1) by (eapply ready_moved; [split; [exact Hmv1|done]|done]).
  destruct r1 as [[]|e]; [|by intros [= <- <-]]. specialize (Hdel eq_refl).
  assert (Hspent : filter (spent st outputs) items = items) by (apply filter_all; intros a _; by left). rewrite Hspent.
  assert (Hpd : page_done st items s1 s1).
  { split; [done|]. intros row Hrow. rewrite Hsrc1. split; [by apply Hitems|]. intros t Ht. apply Hdel. by eapply page_outputs. }
  destruct (each (delete_row (source_of st)) items s1) as [s2 r2] eqn:Hdels.
  assert (Hdeleted : moved_unmarked s1 s2 ∧ (r2 = Ok tt → ∀ row, row ∈ items → contents (source_of st) s2 !! ver_id row = None)).
  { eapply (each_spec _ moved_unmarked (page_done st items s1) (λ row s, contents (source_of st) s !! ver_id row = None));
      [| | |exact Hpd|exact Hdels].
    - intros s3 s4 [Hsub Hd] [Hm _]. split; [etrans; [by apply (mv_source _ _ Hm)|done]|]. intros row Hrow.
      destruct (Hd row Hrow) as [? Hdt]. split; [done|]. intros t Ht. eapply delivered_mono; [apply (mv_owned _ _ Hm)|by apply Hdt].
    - intros row s3 s4 Hn [Hm _]. eapply lookup_weaken_None; [exact Hn|]. by apply (mv_source _ _ Hm).
    - intros row s3 s4 r4 Hrow Hp Hd. by eapply delete_row_spec. }
  destruct Hdeleted as [[Hmv2 Hmark2] Hgone]. assert (Hr2 : ready s2) by (eapply ready_moved; [split; [exact Hmv2|done]|done]).
  assert (Hmv12 : moved s s2) by by etrans. destruct r2 as [[]|e]; [|by intros [= <- <-]]. specialize (Hgone eq_refl).
  assert (Hleft : ∀ i row, contents (source_of st) s2 !! i = Some row → contents (source_of st) s !! i = Some row ∧ row ∉ items).
  { intros i row Hi. pose proof (lookup_weaken _ _ _ _ Hi (mv_source _ _ Hmv12 st Hst)) as Hi0. split; [done|]. intros Hrow.
    rewrite <- (contents_id _ _ _ _ Hi), (Hgone row Hrow) in Hi. done. }
  destruct (save key _ s2) as [s3 r3] eqn:Hs. eapply save_spec in Hs as (Hmv3 & Hr3 & Hsrc3); [|exact Hst|exact Hk|exact Hr2|done|].
  2:{ intros _ i row [Hi Hni]%Hleft. by destruct (Hnext i row Hi). }
  destruct r3 as [[]|e]; intros [= <- <-]; (split_and!; [by etrans|done|]); [|done]. intros n _ i row. rewrite Hsrc3 by done. apply Hleft.
Qed.

Lemma page_loop_spec fuel batch_size st key :
  0 < batch_size → st ∈ sch_steps sc → step_key st = Ok key → ∀ after written s s' r,
  ready s → (∀ i row, contents (source_of st) s !! i = Some row → after_cursor after i) →
  page_loop fuel batch_size sc st key after written s = (s', r) →
  moved s s' ∧ ready s' ∧ ∀ n, r = Ok n → contents (source_of st) s' = ∅.
Proof.
  intros Hb Hst Hk. induction fuel as [|fuel IH]; intros after written s s' r Hr Hafter; cbn [page_loop]; [by intros [= <- <-]|].
  unfold mig_bind at 1, mig_read. destruct (doc_page _ _ _ s) as [[items next]|e] eqn:Hpage; [|by intros [= <- <-]].
  destruct (page_ok _ _ _ _ _ _ Hb Hpage) as (Hitems & Hrows & Hempty). cbn [fst snd].
  assert (Hlast : next = None → ∀ i row, contents (source_of st) s !! i = Some row → row ∈ items).
  { intros -> i row Hi. by destruct (Hrows i row Hi (Hafter i row Hi)) as [?|(c & ? & _)]. }
  destruct items as [|row0 rest] eqn:Hitems0.
  { intros [= <- <-]. split_and!; [done..|]. intros n _. apply map_empty. intros i.
    destruct (contents _ s !! i) as [row|] eqn:Hi; [|done]. by apply (Hlast (Hempty eq_refl)), not_elem_of_nil in Hi. }
  rewrite <- Hitems0 in *. unfold mig_bind. destruct (migrate_page _ _ _ _ _ _ s) as [s1 r1] eqn:Hp.
  eapply migrate_page_spec in Hp as (Hmv & Hr1 & Hleft); [|done..|].
  2:{ intros i row Hi. destruct (Hrows i row Hi (Hafter i row Hi)) as [?|(c & -> & ?)]; auto. }
  destruct r1 as [n|e]; [|by intros [= <- <-]]. specialize (Hleft n eq_refl). destruct next as [c|].
  - intros Hloop. apply IH in Hloop as (Hmv' & Hr' & Hend); [split_and!; [by etrans|done..]|done|].
    intros i row [Hi Hni]%Hleft. by destruct (Hrows i row Hi (Hafter i row Hi)) as [?|(c' & [= <-] & ?)].
  - intros [= <- <-]. split_and!; [done..|]. intros n' _. apply map_empty. intros i.
    destruct (contents _ s1 !! i) as [row|] eqn:Hi; [|done]. apply Hleft in Hi as [Hi Hni]. by destruct Hni; eapply Hlast.
Qed.

Lemma ensure_moved c s s' r : doc_ensure c s = (s', r) → moved_unmarked s s'.
Proof.
  intros He. pose proof (ensure_contents _ _ _ _ He) as Hc. split; [|apply Hc]. split.
  - intros c' _. by rewrite Hc.
  - intros st _. by rewrite Hc.
  - intros st i d _ Hd Hn. rewrite Hc in Hn. congruence.
Qed.

Lemma migrate_step_spec fuel batch_size report st s s' r :
  0 < batch_size → st ∈ sch_steps sc → ready s → migrate_step key_of_ fuel batch_size sc report st s = (s', r) →
  moved s s' ∧ ready s' ∧ ∀ rep, r = Ok rep → contents (source_of st) s' = ∅.
Proof.
  intros Hb Hst Hr. destruct (ls_source Hsc st Hst) as (Hne & _). unfold migrate_step, mig_bind at 1, mig_lift.
  fold (step_key st). destruct (step_key st) as [key|e] eqn:Hk; [|by intros [= <- <-]].
  unfold mig_bind at 1, load, mig_read, repo_get. rewrite contents_get. cbn [rbind].
  set (current := contents MIGRATIONS_COLLECTION s !! key).
  assert (Hload : ∀ progress, (let? found := decode_opt current in Ok (ver_doc <$> found)) = Ok progress →
    match progress with
    | Some p => (pg_done p = true → contents (source_of st) s = ∅) ∧
                (pg_done p = false → ∀ i row, contents (source_of st) s !! i = Some row → after_cursor (pg_cursor p) i)
    | None => True
    end).
  { intros progress. unfold current. destruct (contents MIGRATIONS_COLLECTION s !! key) as [d|] eqn:Hd; cbn [decode_opt]; [|by intros [= <-]].
    destruct (Hr st Hst key d Hk Hd) as (p & Hp & H1 & H2). unfold decode. rewrite Hp. by intros [= <-]. }
  destruct (let? found := decode_opt current in Ok (ver_doc <$> found)) as [progress|e]; [|by intros [= <- <-]].
  specialize (Hload progress eq_refl). destruct (match progress with Some p => pg_done p | None => false end) eqn:Hdone.
  { intros [= <- <-]. split_and!; [done..|]. intros rep _. destruct progress as [p|]; [|done]. by apply Hload. }
  rewrite decide_False by done. unfold mig_bind at 1. destruct (doc_ensure _ s) as [s1 r1] eqn:He.
  pose proof (ensure_contents _ _ _ _ He) as Hc1. apply ensure_moved in He as Hmv1. pose proof (ready_moved _ _ Hmv1 Hr) as Hr1.
  destruct Hmv1 as [Hmv1 _]. destruct r1 as [[]|e]; [|by intros [= <- <-]].
  unfold mig_bind at 1. destruct (page_loop _ _ _ _ _ _ _ s1) as [s2 r2] eqn:Hloop.
  eapply page_loop_spec in Hloop as (Hmv2 & Hr2 & Hend); [|done..|].
  2:{ intros i row Hi. rewrite Hc1 in Hi. destruct progress as [p|]; [by eapply Hload|apply after_none]. }
  destruct r2 as [n|e]; [|intros [= <- <-]; split_and!; [by etrans|done..]]. specialize (Hend n eq_refl).
  unfold mig_bind. destruct (save key _ s2) as [s3 r3] eqn:Hs.
  eapply save_spec in Hs as (Hmv3 & Hr3 & Hsrc3); [|exact Hst|exact Hk|exact Hr2|done|done].
  assert (moved s s3) by (etrans; [exact Hmv1|]; by etrans).
  destruct r3 as [[]|e]; intros [= <- <-]; split_and!; try done. intros rep _. by rewrite Hsrc3.
Qed.

Lemma source_stays_empty s s' st : moved s s' → st ∈ sch_steps sc → contents (source_of st) s = ∅ → contents (source_of st) s' = ∅.
Proof.
  intros Hm Hst He. pose proof (mv_source _ _ Hm st Hst) as Hsub. rewrite He in Hsub.
  apply (anti_symm (⊆)); [done|apply map_empty_subseteq].
Qed.

Lemma migrate_steps_spec fuel batch_size steps : 0 < batch_size → (∀ st, st ∈ steps → st ∈ sch_steps sc) → ∀ report s s' r,
  ready s → migrate_steps key_of_ fuel batch_size sc steps report s = (s', r) →
  moved s s' ∧ ready s' ∧ ∀ rep, r = Ok rep → ∀ st, st ∈ steps → contents (source_of st) s' = ∅.
Proof.
  intros Hb. induction steps as [|st steps IH]; intros Hin report s s' r Hr; cbn [migrate_steps].
  { intros [= <- <-]. split_and!; [done..|]. by intros rep _ st ?%not_elem_of_nil. }
  unfold mig_bind. destruct (migrate_step _ _ _ _ _ _ s) as [s1 r1] eqn:Hs.
  apply migrate_step_spec in Hs as (Hmv1 & Hr1 & He1); [|done|by apply Hin; left|done].
  destruct r1 as [rep1|e]; [|intros [= <- <-]; by split_and!]. intros Hrest.
  apply IH in Hrest as (Hmv2 & Hr2 & He2); [|intros x Hx; apply Hin; by right|done].
  split_and!; [by etrans|done|]. intros rep Hrep x [->|Hx]%elem_of_cons; [|by eapply He2].
  eapply source_stays_empty; [exact Hmv2|apply Hin; by left|by eapply He1].
Qed.

Lemma migrate_spec fuel batch_size s s' r :
  ready s → schema_migrate key_of_ fuel batch_size sc s = (s', r) →
  moved s s' ∧ ready s' ∧ ∀ rep, r = Ok rep → ∀ st, st ∈ sch_steps sc → contents (source_of st) s' = ∅.
Proof.
  intros Hr. unfold schema_migrate. case_decide as Hb; [by intros [= <- <-]|]. unfold mig_bind.
  destruct (each doc_ensure (collections sc) s) as [s1 r1] eqn:He.
  assert (Hmv : moved_unmarked s s1).
  { eapply (each_spec doc_ensure moved_unmarked (λ _, True) (λ _ _, True)); [done|done| |done|exact He].
    intros c s2 s3 r3 _ _ Hc. split; [by eapply ensure_moved|done]. }
  pose proof (ready_moved _ _ Hmv Hr) as Hr1. destruct Hmv as [Hmv _]. destruct r1 as [[]|e]; [|by intros [= <- <-]].
  intros Hs. apply migrate_steps_spec in Hs as (Hmv2 & Hr2 & He2); [|lia|done|done]. split_and!; [by etrans|done..].
Qed.

(** Any number of runs, each stopped by an error or not. *)
Inductive attempted (fuel batch_size : nat) (s : D) : D → Prop :=
| attempted_none : attempted fuel batch_size s s
| attempted_more s' s'' r :
    attempted fuel batch_size s s' → schema_migrate key_of_ fuel batch_size sc s' = (s'', r) → attempted fuel batch_size s s''.

Lemma attempted_spec fuel batch_size s s' : ready s → attempted fuel batch_size s s' → moved s s' ∧ ready s'.
Proof.
  intros Hr. induction 1 as [|s' s'' r _ [Hm Hr'] Hrun]; [done|].
  apply migrate_spec in Hrun as (Hm' & Hr'' & _); [|done]. split; [by etrans|done].
Qed.

(** Runs stopped anywhere, and then one that succeeds. *)
Lemma attempts_deliver fuel batch_size s s1 s2 report st i row t :
  ready s → attempted fuel batch_size s s1 → schema_migrate key_of_ fuel batch_size sc s1 = (s2, Ok report) →
  st ∈ sch_steps sc → contents (source_of st) s !! i = Some row → t ∈ convert st (row_source row) → delivered st t s2.
Proof.
  intros Hr [Hm1 Hr1]%attempted_spec Hrun Hst Hi; [|done].
  apply migrate_spec in Hrun as (Hm2 & _ & Hend); [|done]. assert (Hm : moved s s2) by by etrans.
  apply (mv_removed _ _ Hm st i row); [done..|]. by rewrite (Hend report eq_refl st Hst), lookup_empty.
Qed.

(** ** Pages run out *)

Lemma page_loop_fuel batch_size st key : 0 < batch_size → st ∈ sch_steps sc → step_key st = Ok key →
  ∀ fuel fuel' after written s, ready s → (∀ i row, contents (source_of st) s !! i = Some row → after_cursor after i) →
  size (contents (source_of st) s) < fuel → size (contents (source_of st) s) < fuel' →
  page_loop fuel batch_size sc st key after written s = page_loop fuel' batch_size sc st key after written s.
Proof.
  intros Hb Hst Hk. induction fuel as [|fuel IH]; intros [|fuel'] after written s Hr Hafter Hf Hf'; [lia..|]. cbn [page_loop].
  unfold mig_bind at 1 3, mig_read. destruct (doc_page _ _ _ s) as [[items next]|e] eqn:Hpage; [|done].
  destruct (page_ok _ _ _ _ _ _ Hb Hpage) as (Hitems & Hrows & _). cbn [fst snd].
  destruct items as [|row0 rest] eqn:Hitems0; [done|]. rewrite <- Hitems0 in *.
  unfold mig_bind. destruct (migrate_page _ _ _ _ _ _ s) as [s1 r1] eqn:Hp.
  eapply migrate_page_spec in Hp as (Hmv & Hr1 & Hleft); [|done..|].
  2:{ intros i row Hi. destruct (Hrows i row Hi (Hafter i row Hi)) as [?|(c & -> & ?)]; auto. }
  destruct r1 as [n|e]; [|done]. specialize (Hleft n eq_refl). destruct next as [c|]; [|done].
  assert (Hsize : size (contents (source_of st) s1) < size (contents (source_of st) s)).
  { apply map_subset_size. split; [by apply (mv_source _ _ Hmv)|]. intros Hsub.
    assert (Hrow0 : row0 ∈ items) by (rewrite Hitems0; by left).
    pose proof (lookup_weaken _ _ _ _ (Hitems row0 Hrow0) Hsub) as H0. by apply Hleft in H0 as [_ ?]. }
  apply IH; [done| |lia..]. intros i row [Hi Hni]%Hleft. by destruct (Hrows i row Hi (Hafter i row Hi)) as [?|(c' & [= <-] & ?)].
Qed.

Definition rows_within (fuel : nat) s : Prop := ∀ st, st ∈ sch_steps sc → size (contents (source_of st) s) < fuel.
Lemma within_moved fuel s s' : moved s s' → rows_within fuel s → rows_within fuel s'.
Proof. intros Hm Hw st Hst. pose proof (map_subseteq_size _ _ (mv_source _ _ Hm st Hst)). specialize (Hw st Hst). lia. Qed.

Lemma migrate_step_fuel fuel fuel' batch_size report st s :
  0 < batch_size → st ∈ sch_steps sc → ready s → rows_within fuel s → rows_within fuel' s →
  migrate_step key_of_ fuel batch_size sc report st s = migrate_step key_of_ fuel' batch_size sc report st s.
Proof.
  intros Hb Hst Hr Hf Hf'. unfold migrate_step, mig_bind, mig_lift. fold (step_key st).
  destruct (step_key st) as [key|e] eqn:Hk; [|done]. unfold load, mig_read, repo_get. rewrite contents_get. cbn [rbind].
  destruct (contents MIGRATIONS_COLLECTION s !! key) as [d|] eqn:Hd; cbn [decode_opt].
  - destruct (Hr st Hst key d Hk Hd) as (p & Hp & _ & Hafter). unfold decode. rewrite Hp. cbn. destruct (pg_done p) eqn:Hdone; [done|].
    case_decide; [by destruct (ls_source Hsc st Hst)|].
    destruct (doc_ensure _ s) as [s1 [[]|e]] eqn:He; [|done]. pose proof (ensure_contents _ _ _ _ He) as Hc.
    rewrite (page_loop_fuel batch_size st key Hb Hst Hk fuel fuel'); [done|by eapply ready_moved; [eapply ensure_moved|]| |rewrite Hc..].
    + intros i row Hi. rewrite Hc in Hi. by eapply Hafter.
    + by apply Hf.
    + by apply Hf'.
  - cbn. case_decide; [by destruct (ls_source Hsc st Hst)|].
    destruct (doc_ensure _ s) as [s1 [[]|e]] eqn:He; [|done]. pose proof (ensure_contents _ _ _ _ He) as Hc.
    rewrite (page_loop_fuel batch_size st key Hb Hst Hk fuel fuel'); [done|by eapply ready_moved; [eapply ensure_moved|]| |rewrite Hc..].
    + intros i row _. apply after_none.
    + by apply Hf.
    + by apply Hf'.
Qed.

Lemma migrate_steps_fuel fuel fuel' batch_size steps : 0 < batch_size → (∀ st, st ∈ steps → st ∈ sch_steps sc) → ∀ report s,
  ready s → rows_within fuel s → rows_within fuel' s →
  migrate_steps key_of_ fuel batch_size sc steps report s = migrate_steps key_of_ fuel' batch_size sc steps report s.
Proof.
  intros Hb. induction steps as [|st steps IH]; intros Hin report s Hr Hf Hf'; [done|]. cbn [migrate_steps]. unfold mig_bind.
  rewrite (migrate_step_fuel fuel fuel') by (done || (apply Hin; by left)).
  destruct (migrate_step _ _ _ _ _ _ s) as [s1 [rep|e]] eqn:Hs; [|done].
  apply migrate_step_spec in Hs as (Hmv & Hr1 & _); [|done|by apply Hin; left|done].
  apply IH; [intros x Hx; apply Hin; by right|done|by eapply within_moved..].
Qed.
End MigrateFacts.

(** A migration reads finitely many pages: with more fuel than any source has
    rows, the amount makes no difference. *)
Theorem migration_ends {D : Type} `{!DocumentStore D} `{!LawfulDocs D} `{!DocQueries D} `{!LawfulQueries D} `{!DocPages D}
    `{!LawfulPages D} key_of_ sc convert fuel fuel' batch_size (s : D) :
  legacy_schema key_of_ sc convert → ready key_of_ sc s → rows_within sc fuel s → rows_within sc fuel' s →
  schema_migrate key_of_ fuel batch_size sc s = schema_migrate key_of_ fuel' batch_size sc s.
Proof.
  intros Hsc Hr Hf Hf'. unfold schema_migrate. case_decide as Hb; [done|]. unfold mig_bind.
  destruct (each doc_ensure (collections sc) s) as [s1 [[]|e]] eqn:He; [|done].
  assert (Hmv : moved_unmarked sc convert s s1).
  { eapply (each_spec doc_ensure (moved_unmarked sc convert) (λ _, True) (λ _ _, True)); [done|done| |done|exact He].
    intros c s2 s3 r3 _ _ Hc. split; [by eapply ensure_moved|done]. }
  eapply (migrate_steps_fuel key_of_ sc convert Hsc); [lia|done|by eapply ready_moved|by eapply within_moved; [apply Hmv|]..].
Qed.


(** C28: The schema's steps each read a legacy collection of their own, which is not
    one the schema owns (so no step rewrites its rows in place), and convert it row
    by row; the progress marks in the store are true of the sources ([ready], which a
    store without marks is).  Such a migration may be stopped by a failed store call,
    one that changed nothing, and started again any number of times.  Along the way a
    row leaves its source only once everything its step makes of it is stored, with
    its body, its schema version and its expiry, and nothing of the owner is
    overwritten; and when a run reports success every source is empty, so every row
    of the first store has been carried over. *)
Theorem migration_resumable {D : Type} `{!DocumentStore D} `{!LawfulDocs D} `{!DocQueries D} `{!LawfulQueries D} `{!DocPages D}
    `{!LawfulPages D} key_of_ sc convert fuel batch_size (s s1 s2 : D) r :
  legacy_schema key_of_ sc convert → ready key_of_ sc s → attempted key_of_ sc fuel batch_size s s1 →
  schema_migrate key_of_ fuel batch_size sc s1 = (s2, r) →
  (∀ c, owned sc c → contents c s ⊆ contents c s2) ∧
  (∀ st i row, st ∈ sch_steps sc → contents (source_of st) s !! i = Some row →
     contents (source_of st) s2 !! i = Some row ∨ ∀ t, t ∈ convert st (row_source row) → delivered sc st t s2) ∧
  (∀ report, r = Ok report → ∀ st, st ∈ sch_steps sc → contents (source_of st) s2 = ∅).
Proof.
  intros Hsc Hr Ha Hrun. destruct (attempted_spec key_of_ sc convert Hsc _ _ _ _ Hr Ha) as [Hm1 Hr1].
  apply (migrate_spec key_of_ sc convert Hsc) in Hrun as (Hm2 & _ & Hend); [|done].
  assert (Hm : moved sc convert s s2) by by etrans. split_and!; [apply (mv_owned _ _ _ _ Hm)| |done].
  intros st i row Hst Hi. destruct (contents (source_of st) s2 !! i) as [row'|] eqn:H2.
  - left. pose proof (lookup_weaken _ _ _ _ H2 (mv_source _ _ _ _ Hm st Hst)). congruence.
  - right. by apply (mv_removed _ _ _ _ Hm st i row).
Qed.

(** ** The steps of the cron store ([schedule/migrate.rs]) *)

Definition STAGED_COUNTER : string := "runs_counter".
Definition COUNTERS_STEP : string := "counters_import".

Section CronSteps.
(** Instants of RFC 3339 text, and JSON text. *)
Context (instant_ms : string → option Z) (json_parse : string → option value).

Definition parsed (raw : value) : option value := match raw with Str text => json_parse text | other => Some other end.

Definition legacy_schedule (raw : value) : option value :=
  parsed raw >>? λ v,
  match v with
  | Object m =>
      if decide (obj_get "kind" m >>? as_str = Some "at") then
        match obj_get "at" m with
        | Some at_ => as_str at_ >>? instant_ms >>? λ ms, Some (Object (obj_insert "at_ms" (value_of_i64 ms) (obj_remove "at" m)))
        | None => Some v
        end
      else Some v
  | _ => Some v
  end.

Definition put_opt (k : string) (o : option value) (out : list (string * value)) : list (string * value) :=
  match o with Some v => obj_insert k v out | None => out end.
Definition copy_fields (fields : list string) (body : value) : list (string * value) :=
  foldl (λ out field, put_opt field (get field body) out) [] fields.

Definition instant_field (field : string) (body : value) : option Z := get field body >>? as_str >>? instant_ms.
Definition first_of {A} (a b : option A) : option A := match a with Some x => Some x | None => b end.

Definition migrate_job (source : SourceRecord) : option TargetRecord :=
  let body := sr_body source in
  let out := copy_fields ["claim_generation"; "policy"; "expression"; "command"; "job_type"; "session_target"; "enabled";
                          "delete_after_run"; "prompt"; "name"; "model"; "agent_id"; "last_status"; "last_output"; "incarnation"] body in
  let queued := get "occurrence_lease" body >>? get "queued_run" >>? λ q,
                if is_i64 q || bool_decide (is_Some (as_u64 q)) then Some q else None in
  let out := put_opt "queued_run" queued out in
  get "schedule" body >>? legacy_schedule >>? λ sched,
  let out := obj_insert "schedule" sched out in
  let out := put_opt "delivery" (get "delivery" body >>? parsed) out in
  let out := put_opt "origin" (get "origin" body >>? parsed) out in
  first_of (get "next_run_ms" body >>? as_i64) (instant_field "next_run" body) >>? λ next_run,
  let out := obj_insert "next_run_ms" (value_of_i64 next_run) out in
  let out := put_opt "last_run_ms" (value_of_i64 <$> instant_field "last_run" body) out in
  let created := default (meta_created_ms (sr_meta source))
                   (first_of (instant_field "created_at" body) (get "created_ms" body >>? as_i64)) in
  let out := obj_insert "created_ms" (value_of_i64 created) out in
  Some (preserve_expiry_from source (target_new JOBS (sr_id source) (Object out))).

(** [n / 1_000_000] rounds towards zero. *)
Definition old_run_instant (body : value) (rfc ns : string) : option Z :=
  first_of (instant_field rfc body) ((λ n, n `quot` 1000000)%Z <$> (get ns body >>? as_i64)).

Definition migrate_run (source : SourceRecord) : option TargetRecord :=
  let body := sr_body source in
  let out := copy_fields ["seq"; "job_id"; "status"; "duration_ms"; "incarnation"; "output"; "delivery_status"] body in
  old_run_instant body "started_at" "started_ns" >>? λ started,
  let out := obj_insert "started_ms" (value_of_i64 started) out in
  old_run_instant body "finished_at" "finished_ns" >>? λ finished,
  let out := obj_insert "finished_ms" (value_of_i64 finished) out in
  Some (preserve_expiry_from source (target_new RUNS (sr_id source) (Object out))).

Definition counter_record (source : SourceRecord) : option TargetRecord :=
  if decide (sr_id source = "admission") then
    get "members_json" (sr_body source) >>? parsed >>? as_object >>? λ members,
    let listed := (λ kv : string * value, Object (obj_insert "job_id" (Str kv.1) (default [] (as_object kv.2)))) <$> members in
    let out := put_opt "limit" (get "limit" (sr_body source) >>? λ limit, if is_null limit then None else Some limit) [] in
    Some (preserve_expiry_from source (target_new ADMISSION LEDGER (Object (obj_insert "members" (Array listed) out))))
  else if decide (sr_id source = "runs") then
    get "next" (sr_body source) >>? as_i64 >>? λ next,
    Some (preserve_expiry_from source (target_new ADMISSION STAGED_COUNTER (json_object [("next", value_of_i64 next)])))
  else None.

(** A record that does not convert is carried as it is. *)
Definition carry (collection : string) (convert : SourceRecord → option TargetRecord) (source : SourceRecord) : TargetRecord :=
  default (preserve_expiry_from source (target_new collection (sr_id source) (sr_body source))) (convert source).
Definition map_records (collection : string) (convert : SourceRecord → option TargetRecord) (batch : list SourceRecord) : list TargetRecord :=
  carry collection convert <$> batch.

Definition jobs_step : MigStep :=
  mkMigStep "jobs_v2" JOBS 1 2 (Some "cron_jobs") (λ batch, Ok (map_records JOBS migrate_job batch)).
Definition runs_step : MigStep :=
  mkMigStep "runs_v2" RUNS 1 2 (Some "cron_runs") (λ batch, Ok (map_records RUNS migrate_run batch)).
Definition admission_step : MigStep :=
  mkMigStep "admission_v2" ADMISSION 1 2 (Some "cron_counters") (λ batch, Ok (omap counter_record batch)).

Definition storage_schema : Schema :=
  mkSchema OWNER [(JOBS, SCHEMA_VERSION); (RUNS, SCHEMA_VERSION); (ADMISSION, SCHEMA_VERSION)] [jobs_step; runs_step; admission_step].

(** What each step makes of a row. *)
Definition cron_convert (st : MigStep) (source : SourceRecord) : list TargetRecord :=
  if decide (step_id st = "jobs_v2") then [carry JOBS migrate_job source]
  else if decide (step_id st = "runs_v2") then [carry RUNS migrate_run source]
  else option_list (counter_record source).

Lemma bind_single {A B} (f : A → B) l : (l ≫= λ a, [f a]) = f <$> l.
Proof. induction l as [|a l IH]; [done|]. cbn. by f_equal. Qed.
Lemma bind_option {A B} (f : A → option B) l : (l ≫= λ a, option_list (f a)) = omap f l.
Proof. induction l as [|a l IH]; [done|]. cbn. by destruct (f a); cbn; f_equal. Qed.

Lemma storage_steps st : st ∈ sch_steps storage_schema → st = jobs_step ∨ st = runs_step ∨ st = admission_step.
Proof. intros [->|[->|[->|[]%not_elem_of_nil]%elem_of_cons]%elem_of_cons]%elem_of_cons; auto. Qed.

Lemma storage_schema_legacy key_of_ : lawful_keys key_of_ → legacy_schema key_of_ storage_schema cron_convert.
Proof.
  intros Hkeys. split.
  - done.
  - intros st [->|[->| ->]]%storage_steps; by split_and!.
  - intros st st' [->|[->| ->]]%storage_steps [->|[->| ->]]%storage_steps; done.
  - intros st st' key Hst Hst' Hk Hk'. assert (Heq : [OWNER; step_item st; step_id st] = [OWNER; step_item st'; step_id st']).
    { apply (keys_injective _ Hkeys); [done..|]. unfold layout_key. unfold step_key in *. cbn [sch_owner storage_schema] in *. by rewrite Hk, Hk'. }
    injection Heq as Hitem _. apply storage_steps in Hst as [->|[->| ->]], Hst' as [->|[->| ->]]; done.
  - intros st batch [->|[->| ->]]%storage_steps; cbn [step_run jobs_step runs_step admission_step]; f_equal; symmetry;
      first [exact (bind_single (carry JOBS migrate_job) batch)|exact (bind_single (carry RUNS migrate_run) batch)|apply bind_option].
Qed.
End CronSteps.

(** ** The run counter *)

Section CounterImport.
Context {D : Type} `{!DocumentStore D} `{!DocPages D}.
Context (MAX_ID_LEN : nat) (validate_id : string → StoreResult unit) (digest_base32 : string → string).
#[local] Notation key_of_ := (key_of MAX_ID_LEN validate_id digest_base32).

Definition staged_next (d : Versioned value) : Z := default 1%Z (get "next" (ver_doc d) >>? as_u64).

Definition import_legacy_cron_counters : Mig D bool :=
  let> done := migration_done key_of_ OWNER COUNTERS_STEP in
  if (done : bool) then mig_ret false
  else
    each doc_ensure [LEASES; KV; COUNTERS] ;>
    doc_ensure ADMISSION ;>
    let> staged := mig_read (doc_get ADMISSION STAGED_COUNTER) in
    let> carried :=
      match staged with
      | None => mig_ret false
      | Some d =>
          set_at_least alone RetryPolicy_default MAX_ID_LEN validate_id digest_base32 OWNER RUN_COUNTER (Z.max 0 (staged_next d - 1)) ;>
          doc_delete ADMISSION STAGED_COUNTER PreNone ;>
          mig_ret true
      end in
    mark_done key_of_ OWNER COUNTERS_STEP ;>
    mig_ret carried.

Context `{!LawfulDocs D} `{!DocQueries D} `{!LawfulQueries D} `{!LawfulPages D}.
Implicit Types s : D.

(** The value of the run counter, zero when there is none. *)
Definition run_counter s : StoreResult Z := peek MAX_ID_LEN validate_id digest_base32 OWNER RUN_COUNTER s.

Lemma peek_at owner name id s :
  counter_id MAX_ID_LEN validate_id digest_base32 owner name = Ok id →
  peek MAX_ID_LEN validate_id digest_base32 owner name s =
  match contents COUNTERS s !! id with
  | None => Ok 0%Z
  | Some d => match decode_body (ver_doc d) with Some b => Ok (ct_value b) | None => Err serialization_error end
  end.
Proof.
  intros Hid. unfold peek. rewrite Hid. cbn [rbind]. unfold repo_get. rewrite contents_get. cbn [rbind].
  destruct (contents COUNTERS s !! id) as [d|]; [|done]. cbn [decode_opt]. unfold decode. by destruct (decode_body (ver_doc d)).
Qed.

Lemma set_at_least_spec owner name minimum s s' v :
  (0 ≤ minimum)%Z →
  set_at_least alone RetryPolicy_default MAX_ID_LEN validate_id digest_base32 owner name minimum s = (s', Ok v) →
  (∀ c, c ≠ COUNTERS → contents c s' = contents c s) ∧
  ∃ old, peek MAX_ID_LEN validate_id digest_base32 owner name s = Ok old ∧
    peek MAX_ID_LEN validate_id digest_base32 owner name s' = Ok (Z.max old minimum).
Proof.
  intros Hmin. unfold set_at_least. case_decide; [done|]. destruct (counter_id _ _ _ owner name) as [id|e] eqn:Hid; [|done].
  unfold counter_update. destruct (repo_update _ _ _ _ _ _ _ _) as [[s1 u] res] eqn:Hu. rewrite !(peek_at _ _ _ _ Hid).
  apply update_alone in Hu as [[-> Hres]|(st0 & current & next & ver & Hf & Hh & -> & (d & Hd & Hc & Ho))].
  - destruct res as [[x|]|e]; [done| |done]. destruct Hres as (st0 & current & Hf & Hh). intros [= <- _]. split; [done|].
    unfold stateless, at_least_body in Hh. destruct current as [b|]; [|done]. case_decide as Hle; [|done].
    unfold found_as in Hf. destruct (contents COUNTERS s !! id) as [d|]; [|done]. destruct Hf as [-> _].
    exists (ct_value b). by rewrite Z.max_l.
  - intros [= <- _]. split; [done|]. rewrite Hc, lookup_insert_eq, Hd, decode_encode by done.
    unfold stateless, at_least_body in Hh. unfold found_as in Hf. destruct (contents COUNTERS s !! id) as [d0|].
    + destruct Hf as [-> [b ->]]. case_decide; simplify_eq. exists (ct_value b). cbn. by rewrite Z.max_r by lia.
    + subst current. simplify_eq. exists 0%Z. cbn. by rewrite Z.max_r.
Qed.

Lemma ensure_each_contents cs s s' r : each doc_ensure cs s = (s', r) → ∀ c, contents c s' = contents c s.
Proof.
  revert s. induction cs as [|c cs IH]; intros s; cbn [each]; [by intros [= <- _]|]. unfold mig_bind.
  destruct (doc_ensure c s) as [s1 [[]|e]] eqn:He; pose proof (ensure_contents _ _ _ _ He) as Hc; [|by intros [= <- _]].
  intros Hr c'. by rewrite (IH s1 Hr).
Qed.

(** A mark as it is read. *)
Definition marked owner step s : Prop :=
  ∃ id d p, mark_key key_of_ owner step = Ok id ∧ contents MIGRATIONS_COLLECTION s !! id = Some d ∧
    decode_body (ver_doc d) = Some p ∧ pg_done p = true.

Lemma migration_done_spec owner step s s' b :
  migration_done key_of_ owner step s = (s', Ok b) → (∀ c, contents c s' = contents c s) ∧ (b = true ↔ marked owner step s).
Proof.
  unfold migration_done, mig_bind at 1. destruct (doc_ensure _ s) as [s1 [[]|e]] eqn:He; [|done].
  pose proof (ensure_contents _ _ _ _ He) as Hc. unfold mig_bind, mig_lift, marked. destruct (mark_key _ _ _) as [id|e]; [|done].
  unfold load, mig_read, repo_get. rewrite contents_get, Hc. cbn [rbind].
  destruct (contents MIGRATIONS_COLLECTION s !! id) as [d|] eqn:Hd; cbn [decode_opt].
  - unfold decode. destruct (decode_body (ver_doc d)) as [p|] eqn:Hp; [|done]. intros [= <- <-]. split; [done|]. split.
    + intros Hdone. by exists id, d, p.
    + intros (id' & d' & p' & [= <-] & Hd' & Hp' & Hdone). change (pg_done p = true). congruence.
  - intros [= <- <-]. split; [done|]. split; [done|]. intros (id' & d' & p' & [= <-] & Hd' & _). congruence.
Qed.

Lemma mark_done_spec owner step s s' :
  mark_done key_of_ owner step s = (s', Ok tt) → marked owner step s' ∧ ∀ c, c ≠ MIGRATIONS_COLLECTION → contents c s' = contents c s.
Proof.
  unfold mark_done, mig_bind at 1. destruct (doc_ensure _ s) as [s1 [[]|e]] eqn:He; [|done].
  pose proof (ensure_contents _ _ _ _ He) as Hc. unfold mig_bind, mig_lift, marked. destruct (mark_key _ _ _) as [id|e]; [|done].
  unfold save, repo_put, repo_write. destruct (doc_put_with _ _ _ _ _ s1) as [s2 [v|e]] eqn:Hp; [|done]. intros [= <-].
  apply put_wrote in Hp as [(d & Hb & Hc2 & Ho) _]. split.
  - eexists id, d, _. rewrite Hc2, lookup_insert_eq, Hb, progress_roundtrip. done.
  - intros c Hne. by rewrite Ho, Hc.
Qed.
Lemma run_counter_same s s' : contents COUNTERS s' = contents COUNTERS s → run_counter s' = run_counter s.
Proof.
  intros Hc. unfold run_counter, peek. destruct (counter_id _ _ _ _ _); [|done]. cbn [rbind]. unfold repo_get.
  by rewrite !contents_get, Hc.
Qed.

(** The import of the run counter happens once: after it the mark stands, a
    marked store is left as it is, and otherwise the staged counter is gone and
    the run counter is at least the last number the old store handed out, and
    never lower than it was. *)
Theorem run_numbers_continue s s' carried :
  import_legacy_cron_counters s = (s', Ok carried) →
  marked OWNER COUNTERS_STEP s' ∧
  ((marked OWNER COUNTERS_STEP s ∧ carried = false ∧ ∀ c, contents c s' = contents c s) ∨
   ¬ marked OWNER COUNTERS_STEP s ∧
   match contents ADMISSION s !! STAGED_COUNTER with
   | None => carried = false ∧ run_counter s' = run_counter s ∧ contents ADMISSION s' = contents ADMISSION s
   | Some d => carried = true ∧ contents ADMISSION s' = delete STAGED_COUNTER (contents ADMISSION s) ∧
       ∃ old, run_counter s = Ok old ∧ run_counter s' = Ok (Z.max old (Z.max 0 (staged_next d - 1)))
   end).
Proof.
  unfold import_legacy_cron_counters, mig_bind at 1. destruct (migration_done _ _ _ s) as [s1 [fin|e]] eqn:Hdone; [|done].
  apply migration_done_spec in Hdone as [Hc1 Hiff]. destruct fin.
  { intros [= <- <-]. assert (Hm : marked OWNER COUNTERS_STEP s) by by apply Hiff. split; [|by left].
    destruct Hm as (id & d & p & ? & ? & ?). exists id, d, p. by rewrite Hc1. }
  assert (Hnm : ¬ marked OWNER COUNTERS_STEP s) by (intros Hm; by apply Hiff in Hm). clear Hiff.
  unfold mig_bind at 1. destruct (each doc_ensure _ s1) as [s2 [[]|e]] eqn:He2; [|done].
  pose proof (ensure_each_contents _ _ _ _ He2) as Hc2.
  unfold mig_bind at 1. destruct (doc_ensure ADMISSION s2) as [s3 [[]|e]] eqn:He3; [|done].
  pose proof (ensure_contents _ _ _ _ He3) as Hc3. assert (Hc : ∀ c, contents c s3 = contents c s) by (intros c; by rewrite Hc3, Hc2, Hc1).
  unfold mig_bind at 1, mig_read. rewrite contents_get, Hc. destruct (contents ADMISSION s !! STAGED_COUNTER) as [d|].
  - unfold mig_bind at 1 2. destruct (set_at_least _ _ _ _ _ _ _ _ s3) as [s4 [v|e]] eqn:Hset; [|done].
    apply set_at_least_spec in Hset as [Hoth (old & Hold & Hnew)]; [|lia].
    unfold mig_bind at 1. destruct (doc_delete _ _ _ s4) as [s5 [b|e]] eqn:Hdel; [|done]. apply delete_contents in Hdel as [Hdel Hoth5].
    unfold mig_ret at 1. unfold mig_bind. destruct (mark_done _ _ _ s5) as [s6 [[]|e]] eqn:Hmark; [|done].
    apply mark_done_spec in Hmark as [Hm Hoth6]. intros [= <- <-]. split; [done|]. right. split; [done|]. split_and!; [done| |].
    + by rewrite Hoth6, Hdel, Hoth, Hc.
    + exists old. split; [by rewrite <- (run_counter_same s s3) by apply Hc|].
      rewrite (run_counter_same s4 s6); [done|]. by rewrite Hoth6, Hoth5.
  - unfold mig_bind at 1, mig_ret at 1. unfold mig_bind. destruct (mark_done _ _ _ s3) as [s6 [[]|e]] eqn:Hmark; [|done].
    apply mark_done_spec in Hmark as [Hm Hoth6]. intros [= <- <-]. split; [done|]. right. split; [done|]. split_and!; [done| |].
    + apply run_counter_same. by rewrite Hoth6, Hc.
    + by rewrite Hoth6, Hc.
Qed.
End CounterImport.

Lemma carry_place collection convert source :
  (∀ t, convert source = Some t → tr_collection t = collection ∧ tr_id t = sr_id source) →
  tr_collection (carry collection convert source) = collection ∧ tr_id (carry collection convert source) = sr_id source.
Proof. intros Hc. unfold carry. destruct (convert source) as [t|]; [by apply Hc|done]. Qed.

Lemma migrate_job_place instant_ms json_parse source t :
  migrate_job instant_ms json_parse source = Some t → tr_collection t = JOBS ∧ tr_id t = sr_id source.
Proof. unfold migrate_job. intros (sched & _ & (next & _ & [= <-])%and_then_Some)%and_then_Some. done. Qed.
Lemma migrate_run_place instant_ms source t :
  migrate_run instant_ms source = Some t → tr_collection t = RUNS ∧ tr_id t = sr_id source.
Proof. unfold migrate_run. intros (a & _ & (b & _ & [= <-])%and_then_Some)%and_then_Some. done. Qed.

(** After a migration that succeeds, however often it was stopped before, every
    job and every run of the old store is a document of the new one under its
    id: converted, or carried as it was when it does not convert. *)
Theorem cron_rows_carried {D : Type} `{!DocumentStore D} `{!LawfulDocs D} `{!DocQueries D} `{!LawfulQueries D} `{!DocPages D}
    `{!LawfulPages D} instant_ms json_parse key_of_ fuel batch_size (s s1 s2 : D) report i row :
  let sc := storage_schema instant_ms json_parse in
  lawful_keys key_of_ → ready key_of_ sc s → attempted key_of_ sc fuel batch_size s s1 →
  schema_migrate key_of_ fuel batch_size sc s1 = (s2, Ok report) →
  (contents "cron_jobs" s !! i = Some row →
   ∃ d, contents JOBS s2 !! i = Some d ∧ ver_doc d = tr_body (carry JOBS (migrate_job instant_ms json_parse) (row_source row)) ∧
     meta_schema (ver_meta d) = 2%N) ∧
  (contents "cron_runs" s !! i = Some row →
   ∃ d, contents RUNS s2 !! i = Some d ∧ ver_doc d = tr_body (carry RUNS (migrate_run instant_ms) (row_source row)) ∧
     meta_schema (ver_meta d) = 2%N).
Proof.
  intros sc Hkeys Hr Ha Hrun. pose proof (storage_schema_legacy instant_ms json_parse key_of_ Hkeys) as Hsc.
  split; intros Hi.
  - destruct (attempts_deliver key_of_ sc (cron_convert instant_ms json_parse) Hsc fuel batch_size s s1 s2 report
      (jobs_step instant_ms json_parse) i row (carry JOBS (migrate_job instant_ms json_parse) (row_source row)))
      as (d & version & Hd & Hb & Hv & Hm & _); [done..|by left|done|by left|].
    destruct (carry_place JOBS _ (row_source row) (migrate_job_place instant_ms json_parse _)) as [Hcoll Hid].
    unfold target_schema in Hv. rewrite Hcoll in *. injection Hv as <-. rewrite Hid in Hd. cbn [row_source sr_id] in Hd.
    rewrite (contents_id _ _ _ _ Hi) in Hd. by exists d.
  - destruct (attempts_deliver key_of_ sc (cron_convert instant_ms json_parse) Hsc fuel batch_size s s1 s2 report
      (runs_step instant_ms) i row (carry RUNS (migrate_run instant_ms) (row_source row)))
      as (d & version & Hd & Hb & Hv & Hm & _); [done..|by right; left|done|by left|].
    destruct (carry_place RUNS _ (row_source row) (migrate_run_place instant_ms _)) as [Hcoll Hid].
    unfold target_schema in Hv. rewrite Hcoll in *. injection Hv as <-. rewrite Hid in Hd. cbn [row_source sr_id] in Hd.
    rewrite (contents_id _ _ _ _ Hi) in Hd. by exists d.
Qed.

(** ** A store with pages *)

(** A row does not hold its own id. *)
Notation RowDocs := (gmap (string * string) (N * value * Meta)).
Definition row_view (s : RowDocs) : MemDocs := map_imap (λ k x, Some (mkVersioned k.2 x.1.1 x.1.2 x.2)) s.

Lemma row_view_lookup (s : RowDocs) (c i : string) : row_view s !! (c, i) = (λ x, mkVersioned i x.1.1 x.1.2 x.2) <$> s !! (c, i).
Proof. unfold row_view. rewrite map_lookup_imap. by destruct (s !! (c, i)). Qed.

#[export] Instance RowDocs_store : DocumentStore RowDocs := {|
  doc_get c i s := Ok (row_view s !! (c, i));
  doc_put_with c i body p o s :=
    let v := md_next (row_view s !! (c, i)) in
    if decide (holds p (row_view s !! (c, i)))
    then (<[(c, i) := (v, body, mkMeta (default 0%N (wo_schema o)) 0 (wo_expires_ms o))]> s, Ok v)
    else (s, Err (mkStorageError Conflict "version conflict"));
  doc_delete c i p s :=
    if decide (holds p (row_view s !! (c, i))) then (delete (c, i) s, Ok (bool_decide (is_Some (row_view s !! (c, i)))))
    else (s, Err (mkStorageError Conflict "version conflict"))
|}.

#[export] Instance RowDocs_lawful : LawfulDocs RowDocs.
Proof.
  split; cbn; intros c i.
  - intros body p o s s' v. case_decide; [|done]. intros [= <- <-]. split_and!.
    + by exists (row_view s !! (c, i)).
    + eexists. split; [by rewrite row_view_lookup, lookup_insert_eq|done].
    + intros c' i' Hne. by rewrite !row_view_lookup, lookup_insert_ne.
  - intros body p o s s' e. case_decide; [done|]. by intros [= <- _].
  - intros p s s' removed. case_decide; [|done]. intros [= <- <-]. split_and!.
    + by exists (row_view s !! (c, i)).
    + by rewrite row_view_lookup, lookup_delete_eq.
    + intros c' i' Hne. by rewrite !row_view_lookup, lookup_delete_ne.
  - intros p s s' e. case_decide; [done|]. by intros [= <- _].
Qed.

#[export] Instance RowDocs_queries : DocQueries RowDocs := {|
  doc_query_all c f k s := doc_query_all c f k (row_view s);
  doc_query_newest c f field s := doc_query_newest c f field (row_view s);
  doc_count c f s := doc_count c f (row_view s);
  doc_delete_where c f s :=
    (filter (λ kx : (string * string) * (N * value * Meta), ¬ (kx.1.1 = c ∧ filter_matches f kx.2.1.2 = true)) s,
     Ok (size (matching f (md_contents c (row_view s)))))
|}.

Lemma row_view_filter (c : string) (f : Filter_) (s : RowDocs) :
  row_view (filter (λ kx : (string * string) * (N * value * Meta), ¬ (kx.1.1 = c ∧ filter_matches f kx.2.1.2 = true)) s) =
  filter (λ kd : (string * string) * Versioned value, ¬ (kd.1.1 = c ∧ filter_matches f (ver_doc kd.2) = true)) (row_view s).
Proof.
  apply map_eq. intros [c' i]. rewrite row_view_lookup, !map_lookup_filter, row_view_lookup.
  destruct (s !! (c', i)) as [x|]; [|done]. cbn. by repeat case_guard.
Qed.

#[export] Instance RowDocs_query_laws : LawfulQueries RowDocs.
Proof.
  refine {| contents := λ c s, md_contents c (row_view s) |}.
  - intros c i s. cbn. by rewrite md_lookup.
  - intros c f k s. exact (query_all_ok (D := MemDocs) c f k (row_view s)).
  - intros c f field s. exact (query_newest_ok (D := MemDocs) c f field (row_view s)).
  - done.
  - intros c f s s' n [= <- <-]. rewrite row_view_filter.
    exact (delete_where_ok (D := MemDocs) c f (row_view s) _ _ eq_refl).
  - done.
Defined.

(** Ids in an order of their own. *)
Definition id_le (a b : string) : Prop := (countable.encode a ≤ countable.encode b)%positive.
Definition row_le (a b : Versioned value) : Prop := id_le (ver_id a) (ver_id b).
#[export] Instance row_le_dec a b : Decision (row_le a b).
Proof. unfold row_le, id_le. apply _. Defined.
#[export] Instance row_le_total : Total row_le.
Proof. intros a b. unfold row_le, id_le. lia. Qed.
#[export] Instance row_le_trans : Transitive row_le.
Proof. intros a b c. unfold row_le, id_le. lia. Qed.
#[export] Instance row_le_refl : Reflexive row_le.
Proof. intros a. unfold row_le, id_le. lia. Qed.

Definition row_after (after : option string) (i : string) : Prop :=
  match after with Some c => ¬ id_le i c | None => True end.
#[export] Instance row_after_dec after i : Decision (row_after after i).
Proof. unfold row_after, id_le. destruct after; apply _. Defined.

Definition rows_after (c : string) (after : option string) (s : RowDocs) : list (Versioned value) :=
  merge_sort row_le (filter (λ d, row_after after (ver_id d)) (map_to_list (md_contents c (row_view s))).*2).

#[export] Instance RowDocs_pages : DocPages RowDocs := {|
  doc_ensure c s := (s, Ok tt);
  doc_page c after limit s :=
    let rows := rows_after c after s in
    Ok (take limit rows, match drop limit rows with [] => None | _ => ver_id <$> last (take limit rows) end)
|}.

Lemma row_id (c i : string) (s : RowDocs) (d : Versioned value) : md_contents c (row_view s) !! i = Some d → ver_id d = i.
Proof. rewrite md_lookup, row_view_lookup. destruct (s !! (c, i)); [|done]. by intros [= <-]. Qed.

Lemma rows_after_elem (c : string) (after : option string) (s : RowDocs) (d : Versioned value) :
  d ∈ rows_after c after s ↔ row_after after (ver_id d) ∧ md_contents c (row_view s) !! ver_id d = Some d.
Proof.
  unfold rows_after. rewrite merge_sort_Permutation, list_elem_of_filter, list_elem_of_fmap. split.
  - intros [Ha ([i d'] & -> & Hi%elem_of_map_to_list)]. cbn [fst snd] in *. pose proof (row_id _ _ _ _ Hi) as Hid. rewrite Hid in *. done.
  - intros [Ha Hd]. split; [done|]. exists (ver_id d, d). split; [done|]. by apply elem_of_map_to_list.
Qed.

Lemma rows_after_NoDup (c : string) (after : option string) (s : RowDocs) : NoDup (rows_after c after s).
Proof.
  unfold rows_after. rewrite merge_sort_Permutation. apply NoDup_filter, NoDup_fmap_2_strong; [|apply NoDup_map_to_list].
  intros [i d] [j d'] Hi%elem_of_map_to_list Hj%elem_of_map_to_list ?. cbn in *. subst d'. by rewrite <- (row_id _ _ _ _ Hi), (row_id _ _ _ _ Hj).
Qed.

#[export] Instance RowDocs_page_laws : LawfulPages RowDocs.
Proof.
  refine {| after_cursor := row_after |}.
  - done.
  - by intros c s s' r [= <- _].
  - intros c s i d. apply row_id.
  - intros c i body p o s s' v d. cbn. case_decide; [|done]. intros [= <- _].
    rewrite md_lookup, row_view_lookup, lookup_insert_eq. by intros [= <-].
  - intros c after limit s items next Hl. cbn. intros [= <- <-]. set (rows := rows_after c after s).
    pose proof (rows_after_NoDup c after s) as Hnd. fold rows in Hnd. rewrite <- (take_drop limit rows) in Hnd.
    assert (Hs : StronglySorted row_le (take limit rows ++ drop limit rows))
      by (rewrite take_drop; apply (StronglySorted_merge_sort row_le)).
    split_and!.
    + intros d Hd. eapply rows_after_elem. rewrite <- (take_drop limit (rows_after c after s)). apply elem_of_app. by left.
    + intros i d Hi Ha. pose proof (row_id _ _ _ _ Hi) as Hid. subst i. assert (Hd : d ∈ rows) by (apply rows_after_elem; by split).
      rewrite <- (take_drop limit rows) in Hd. apply elem_of_app in Hd as [Hd|Hd]; [by left|right].
      destruct (last (take limit rows)) as [z|] eqn:Hz.
      2:{ apply last_None in Hz. destruct rows; [by rewrite drop_nil in Hd; apply not_elem_of_nil in Hd|]. destruct limit; [lia|done]. }
      exists (ver_id z). assert (Hzin : z ∈ take limit rows) by by apply last_Some_elem_of.
      split; [by destruct (drop limit rows); [apply not_elem_of_nil in Hd|]|]. intros Hle.
      pose proof (StronglySorted_app_1_elem_of _ _ _ z d Hs Hzin Hd) as Hge. unfold row_le, id_le in *.
      assert (Heq : ver_id z = ver_id d) by (apply (inj countable.encode); lia).
      assert (z = d) as ->.
      { assert (Hzr : z ∈ rows) by (rewrite <- (take_drop limit rows); apply elem_of_app; by left).
        apply rows_after_elem in Hzr as [_ Hzc]. rewrite Heq in Hzc. congruence. }
      apply NoDup_app in Hnd as (_ & Hdis & _). by apply (Hdis d).
    + intros Ht. destruct (drop limit rows) eqn:Hd; [done|]. destruct rows; [by rewrite drop_nil in Hd|]. destruct limit; [lia|done].
Defined.

(** ** Samples *)

Definition sample_instant (text : string) : option Z := if decide (text = "2026-01-01T00:00:00Z") then Some 1767225600000%Z else None.
Definition sample_schema : Schema := storage_schema sample_instant (λ _, None).

Definition old_row (body : value) : N * value * Meta := (1%N, body, mkMeta 1 5 None).
(** Two jobs, one of which does not convert, and a run counter that is not a number. *)
Definition old_store : RowDocs :=
  <[("cron_jobs", "a") := old_row (json_object [("name", Str "daily"); ("next_run", Str "2026-01-01T00:00:00Z");
                                                ("schedule", json_object [("kind", Str "every"); ("every_ms", Number (PosInt 1000))])])]>
  (<[("cron_jobs", "b") := old_row (json_object [("name", Str "broken")])]>
  (<[("cron_counters", "runs") := old_row (json_object [("next", Str "7")])]> ∅)).

Definition migrated_store : RowDocs := (schema_migrate sample_key 5 1 sample_schema old_store).1.
Definition migrated_report : MigrationReport :=
  mkMigration [mkReport "cron" "cron.jobs" "jobs_v2" 2; mkReport "cron" "cron.runs" "runs_v2" 0;
               mkReport "cron" "cron.admission" "admission_v2" 0] 0.
Lemma old_store_migrates : schema_migrate sample_key 5 1 sample_schema old_store = (migrated_store, Ok migrated_report).
Proof.
  assert (Hr : (schema_migrate sample_key 5 1 sample_schema old_store).2 = Ok migrated_report) by (vm_compute; reflexivity).
  unfold migrated_store. rewrite <- Hr. apply surjective_pairing.
Qed.

Lemma old_store_ready : ready sample_key sample_schema old_store.
Proof.
  intros st Hst key d _ Hd. change (md_contents MIGRATIONS_COLLECTION (row_view old_store) !! key = Some d) in Hd.
  rewrite md_lookup, row_view_lookup in Hd. unfold old_store in Hd. by rewrite !lookup_insert_ne, lookup_empty in Hd by done.
Qed.

Lemma migration_resumable_witness :
  md_contents "cron_jobs" (row_view migrated_store) = ∅ ∧
  delivered sample_schema (jobs_step sample_instant (λ _, None))
    (carry JOBS (migrate_job sample_instant (λ _, None)) (mkSource "b" (json_object [("name", Str "broken")]) (mkMeta 1 5 None)))
    migrated_store.
Proof.
  destruct (migration_resumable sample_key sample_schema (cron_convert sample_instant (λ _, None)) 5 1 old_store old_store migrated_store
    (Ok migrated_report) (storage_schema_legacy _ _ _ sample_key_lawful) old_store_ready (attempted_none _ _ _ _ _) old_store_migrates)
    as (_ & Hrows & Hempty).
  assert (Hjobs : jobs_step sample_instant (λ _, None) ∈ sch_steps sample_schema) by left.
  pose proof (Hempty migrated_report eq_refl _ Hjobs) as Hnone. split; [exact Hnone|].
  destruct (Hrows _ "b" (mkVersioned "b" 1 (json_object [("name", Str "broken")]) (mkMeta 1 5 None)) Hjobs) as [Hleft|Hdone].
  - reflexivity.
  - rewrite Hnone in Hleft. discriminate Hleft.
  - apply Hdone. left.
Defined.

(** A counter that cannot be read is not carried: the migration deletes it with
    its source, and the run numbers start again. *)
Theorem unreadable_counter_vanishes :
  md_contents "cron_counters" (row_view old_store) ≠ ∅ ∧
  md_contents "cron_counters" (row_view migrated_store) = ∅ ∧ md_contents ADMISSION (row_view migrated_store) = ∅.
Proof.
  assert (He : ∀ m : gmap string (Versioned value), size m = 0 → m = ∅) by (intros m; apply map_size_empty_inv).
  split_and!; [|apply He; vm_compute; reflexivity..]. intros Hn. apply (f_equal size) in Hn. by vm_compute in Hn.
Qed.
